(* ===== verification/_CoqProject ===== *)
-Q . S2P
Prelude.v
Url.v
Html.v
HtmlTree.v
Dom.v
Selector.v
SelectorMatch.v
Document.v
Capability.v
Event.v
Storage.v
Ir.v
IrCodec.v
IrIml.v
IrFilter.v
IrRegistry.v
CookieRecord.v
Backend.v
Encrypted.v
Tcb.v
Redaction.v
Proxy.v
Message.v
AntiBot.v
CookieImport.v
Json.v
Rpc.v
PdqlText.v
Pdql.v
Sanitizer.v
PdqlQuery.v
Script.v
Endpoint.v
Wire.v
Http.v
WebSocket.v
Plugins.v
SetCookie.v
Session.v
ScriptHost.v
Config.v
Cdp.v
Oauth.v
Gfx.v
Css.v
Bucket.v
Cascade.v
Robots.v
Frame.v
SpiderCache.v
PageCopy.v
Spider.v
Crawl.v
Polite.v
Navigation.v
SpiderSession.v
