(* ===== verification/Prelude.v ===== *)
(** * Verification library of ProwseTk

    ProwseTk is a headless browser toolkit in C++.  This library models the parts of it
    that carry its own logic, as executable definitions that follow the source function
    by function, and proves what makes each part correct.  Paths are relative to the
    root of the repository.

    ** The program and its model

    A page is loaded from bytes: a URL is resolved, the response is parsed to a tree of
    nodes, the tree is kept in a mutable DOM that scripts, queries and clicks work on,
    and the DOM is lowered to one stream of events that every export format encodes.
    Beside it run the session services: storage with its back ends, the event dispatcher,
    the capability declarations; and a host loads modules, one of which speaks JSON-RPC.

    - [Prelude] (this file): byte strings and their searches, the error codes of
      [src/core/error.cpp] with the exception monad [result], decimal printing, the order
      of strings, generic lemmas and the hint database [prowse].
    - [Url] ([src/core/url.cpp]): [parse_url], [Url::to_string], dot segments,
      [resolve_url], [normalize_url].
    - [Html] ([src/flatworm/html_syntax.cpp], [html_entities.cpp], [html_tokenizer.cpp]):
      element classes, character references, the streaming tokenizer.
    - [HtmlTree] ([html_parser.cpp], [html_serializer.cpp]): tree construction with its
      recovery rules and limits, serialization, text content.
    - [Dom] ([dom_node.cpp], the tree part of [dom.cpp]): the store of shared nodes with
      its links, attributes and mutation reports; [dom_wf] is its invariant.
    - [Selector] ([selector_model.hpp], [selector_parser.cpp]) and [SelectorMatch]
      ([selector_matcher.cpp], [css_selector.cpp]): the selector parser with its limits,
      the matcher with its budget, and the queries over the DOM.
    - [Document] (the rest of [dom.cpp]): interactability, form values, and the getters
      of a document, which run selector queries.
    - [Ir] ([src/core/event_stream.cpp], [ir_model.cpp], [ir_layout.cpp]): the event model
      of a page, its budget, its paths, and replay.
    - [IrCodec] ([ir_vtd.cpp], [ir_events.cpp]), [IrIml] ([ir_iml.cpp]), [IrFilter]
      ([ir_filter.cpp]), [IrRegistry] ([ir_registry.cpp]): the binary, JSON and
      S-expression forms of the events, their selection by XPath, and the registry that
      dispatches to them by name.
    - [Storage] ([src/core/storage.cpp]): the cookie jar (which uses [Url]) and the
      key/value stores of the sessions.
    - [CookieRecord] (the encoders of [src/session/encrypted_storage.cpp] and
      [tokyocabinet_storage.cpp]): cookies as length-prefixed records.
    - [Backend] ([include/prowsetk/storage.hpp], and [MemoryStorage] of
      [src/core/storage.cpp]): the storage interface as the class [StorageBackend] with
      its laws [StorageLaws], and the in-memory instance.
    - [Encrypted] ([src/session/encrypted_storage.cpp]): the storage that encrypts what it
      keeps in another one; a client of [StorageBackend] and of [Cipher].
    - [Tcb] ([src/session/tokyocabinet_storage.cpp]): the storage of B+ tree files; an
      instance of [StorageBackend] over [BTree].
    - [Event] ([src/core/event.cpp]): subscription and emission of lifecycle events.
    - [Capability] ([src/core/capability.cpp]): capability declarations.
    - [Json] ([flatworm-modules/rpc/src/json.hpp], [json_parser.cpp], [json_encoder.cpp])
      and [Rpc] ([protocol.cpp], [module.cpp]): JSON values, their parser and encoder, and
      the JSON-RPC 2.0 module built on them.
    - [Redaction] ([src/core/redaction.cpp]): what is hidden of URLs and headers before they
      are shown; a client of [Url].
    - [AntiBot] ([src/core/anti_bot_detection.cpp]): the signals of bot detection in
      responses and documents, their merge and their confidence.
    - [CookieImport] ([src/core/cookie_import.cpp]): the JSON parser of the cookie import
      and the import into a [Storage.CookieJar].
    - [PdqlText], [Pdql], [Sanitizer], [PdqlQuery] ([src/pdql/pdql.cpp]): the query
      language: its texts and wildcards; the mirror of a document, the compiler, the
      execution, the output formats and the C interface; what the sanitizer leaves of a
      document; what queries answer.

    - [Script] and [Endpoint] ([src/endpoint/endpoint_extraction.cpp]): the scanners of
      scripts, and the extractor that merges what a page, its scripts and the observed
      requests say, its report and its OpenAPI document.
    - [Proxy], [Message], [Wire], [Http], [WebSocket] ([src/core/network_client.cpp] and its
      header): the choice of a proxy; requests and responses; connections and the reading of a
      response; the client of sockets and the one of recorded responses; WebSockets.
    - [SetCookie], [Session], [Navigation] ([src/core/browser.cpp]): the cookies of responses;
      [Session::request] with its redirects, headers, events and reports; the installation of
      documents with their scripts, navigations, clicks, typing and closing, over any script
      engine.
    - [Plugins] ([src/core/plugin_registry.cpp]): the registry, its hooks and the C structures.
    - [ScriptHost] ([src/core/flatworm_host.cpp]): the handles and operations that page scripts
      have of a document.
    - [Config] ([src/core/project_config.cpp]): the project configuration.
    - [Cdp] ([src/core/protocol_json.hpp], [cdp.cpp]): the client of the DevTools protocol.
    - [Oauth] ([plugins/oauth-assist]): the authorization flow and the cached token.
    - [Gfx] ([src/core/gfx_encoding.cpp], [gfx_ir.cpp], [src/gfx_backend/registry.cpp]): the
      bytecode of text frames, the lowering of pages, the client of the graphics back ends.
    - [Css] ([src/core/render/css_parser.cpp]), [Bucket] and [Cascade] ([style_resolver.cpp]):
      stylesheets, the buckets of rules, and the cascade up to the declared values of every
      element; the user agent's stylesheet is the text of the source.
    - [Robots], [Frame], [SpiderCache], [PageCopy], [Spider] ([plugins/spider/src/spider.cpp],
      [protocol.cpp], [cache.cpp]): the crawler: the rules of [robots.txt]; packed lists and the
      frames of its socket; its store; what it keeps of a page; its engine, with the durable
      state, one step of the crawl and the commands.  [Crawl] holds the engine's theorems for
      every host, [Polite] the requests of a step; [SpiderSession] is the host that a session
      over the network of one origin is.

    [Url] and [Html] use the prelude only; [HtmlTree] uses the tokenizer, [Dom] the trees;
    the selectors and the IR read the DOM through [children_of], [parent_of],
    [is_element] and [name_of], and rest on [dom_wf], which every mutation preserves.
    [Endpoint], [Pdql], [Cascade], [ScriptHost] and [PageCopy] work on documents through the
    queries of [SelectorMatch]; [Session] sends requests through [Message], [Storage],
    [AntiBot], [Redaction] and [Plugins]; [Spider] uses [PageCopy], [Robots] and [Frame].
    Code outside [src] is behind an interface whose laws state its documented behaviour:
    [Json.Binary64] (conversions of doubles), [Encrypted.Cipher] (the cryptographic
    library), [Tcb.BTree] (Tokyo Cabinet), [CookieImport.LibDouble], [Pdql.Doubles] and
    [Endpoint.Confidences] (doubles of the C++ library).  Each has a concrete instance
    ([decimal], [toy_cipher], [map_tree], [integers], [whole_numbers], [exact_hundredths])
    that satisfies the laws, where there are laws, and at which the theorems are applied.
    [Spider.Host] is what the crawler's engine needs of a session, the clocks and the database;
    [SpiderSession.session_host] implements it, and [Crawl.demo_host] is a site of three pages.
    [Spider.Tools] is what its commands use of pugixml and of the Lua runtime, without any law;
    [Crawl.demo_tools] runs drivers that are lists of operations.
    [Navigation.Rule] is the interface between a session and the code that calls back into it:
    every call respects the rule if its surroundings do.

    ** Conventions

    A string is a list of [ascii]; a position in a string that only moves forward is the
    suffix that is left.  A class is a [Record], its methods are functions that take and
    return it.  Exceptions are the [Throw] case of [result], by error code; messages are
    not modelled.  Nodes, which the code shares through [std::shared_ptr], are identities
    in a store, so that aliasing is explicit.  Machine arithmetic is written out where the
    code can wrap (the budget's subtractions, subscription ids, 32-bit fields, the sizes of
    chunks); a counter that a limit keeps far below its width, or that counts allocated
    objects, is an [N].  Callbacks of the caller (handlers, replay callbacks, macro
    expanders), plugins, transports, the network client of a session, the XPath engine, the
    TOML library, the clocks, random generators and digests are parameters.  What a socket
    does is data: the segments that arrive, how much a write takes, how the stream ends.
    Methods under a mutex are single steps.  A [std::runtime_error] of the crawler is [None] or
    [Failed], which is not caught where the code catches an [Error] only.  The order of an
    unordered map is a parameter.

    A storage operation is an [op]: a function from the state to the state it leaves and
    its [result], so that what an exception leaves behind is part of the model.  The
    operands of one expression are evaluated from left to right.  The random generator of
    the encrypted storage is the count of its calls.

    ** Fuel and bounds

    A loop that is not structural gets the length of its input as fuel, and every step
    shortens that input ([Html], [HtmlTree], [Url], [Selector], [IrCodec], [IrIml],
    [IrFilter]; the parser of [CookieImport] takes two calls per byte); the wildcard loop of
    [PdqlText] starts again behind each star at most once per byte of the text, which its
    fuel allows for, and the one of [Robots] gets (pattern + 1) * (path + 1); recursion over
    the DOM gets the number of nodes, which bounds every chain of parents
    ([Dom.chain_full_size]).  The scanners of [Script] and the loops of [Css] and [Gfx] get the
    length of their text; the reads of [Wire] the number of pending bytes; redirects are
    counted down by the code, as are navigations that scripts ask for (as many as redirects)
    and the passes of the page's lifecycle (16); a count of records gets the number of rows.  The chunk decoder of
    [Wire] takes its fuel as an argument, because the code need not end
    ([Wire.chunked_never_ends]).  A crawl ends after at most 40000 steps ([Crawl.crawl_ends]).  Running out of fuel is the error
    [Internal] (or an explicit failure), and the theorems exclude it: totality is part of
    the statements, never a hypothesis.  The limits are the code's: 16 MiB, 250000 nodes
    and depth 256 for HTML; 65536 bytes, 256 compounds and 32 levels for selectors;
    400000 events and attributes and 32 MiB for the IR; 4096 frames of a WebSocket message;
    1024 messages before the answer to a DevTools command; 2000000 matches and 40000 elements
    for the cascade; 10000 URLs and 1 MiB of their bytes for a crawl.

    ** What is proved

    - [Url]: dot segments agree with RFC 3986; printing and parsing are inverse (but for a
      second ['@'] behind an empty user-info); normalization is idempotent; relative
      references stay in scheme and authority.
    - [Html], [HtmlTree]: numeric references are exact; the parser is total and within its
      limits on every input; parsing a serialized document gives it back, if the grammar can
      express it.
    - [Dom]: mutations keep the forest and do what they say; navigation is consistent;
      a parsed tree survives the store.
    - [Selector], [SelectorMatch]: the parser answers well-formed selectors within its
      limits or a [ParseError]; the matcher refines the declarative meaning of selectors
      ([holds_complex]); queries answer exactly the matches in document order.
    - [Document]: interactability, hidden styles, metadata.
    - [Ir] and its encodings: the budget is exact; streams nest; paths identify elements;
      the binary, JSON and S-expression forms can be read back; the decoder is bounded
      and exact on any input; filtering keeps exactly the selected subtrees.
    - [Storage], [Event]: cookie scope (as it was asked for) and replacement, isolation of sessions, order of
      emission and uniqueness of subscriptions.
    - [Backend], [Encrypted], [Tcb]: the in-memory and the file storage obey the laws of
      the interface; the encrypted storage refines the plain one it simulates, reopens
      with the state it was left in, and rejects what was not written with its key; the
      cookie file holds what the jar holds.
    - [Json], [Rpc]: encoding and parsing are inverse, the parser is sound and within its
      limits, messages are classified exactly by the rules of JSON-RPC, responses are
      correlated by identifier, automatic identifiers do not repeat.
    - [Redaction], [AntiBot]: a redacted URL keeps its parts and shows no user-info,
      fragment or value of a sensitive parameter; detections say what their signals say.
    - [CookieImport]: the effect of an import on the jar and its count are exact, errors
      included; an imported cookie is sent where it belongs.
    - [PdqlText], [Sanitizer], [PdqlQuery]: the wildcard matcher ends and decides what a
      pattern describes; a sanitized document has lost what is private, element by element; the
      compiler accepts only queries that can be executed (but for a trimmed attribute without a
      name), which answer a row per selected element; the JSON output is read back by [Json].
    - [Endpoint]: reports are ordered and sound, and lose no sighting.
    - [Wire], [Http], [WebSocket], [Proxy]: responses are read back whatever the segments and
      the framing; what is answered is what arrived; what is sent, in which order, and never in
      clear what belongs behind TLS; messages of frames, with the pongs.
    - [SetCookie], [Session]: cookies keep what they say; the chain of requests is bounded, each
      one where the answer to the last redirects, without secrets across origins but the cookies
      of the jar for the new URL; the history of a session holds the jar of each request.
    - [Navigation]: the engine lives as long as a script runs and not longer than the session;
      nothing observed is lost by a navigation; typed text reaches the page as it is.
    - [Plugins], [ScriptHost], [Cdp], [Oauth]: the registry's and the handles' invariants over
      every history (of handles, without the [insertBefore] that makes a cycle); a command has its own answer; a token comes from a trusted answer only.
    - [Config], [Gfx]: configurations and bytecode are read back exactly.
    - [Css], [Bucket], [Cascade]: the parser ends within its budgets; no matching rule is passed
      over by the buckets; the winning declarations are those of the cascade, in whatever order
      the buckets are visited.
    - [Robots], [Frame], [SpiderCache], [PageCopy]: the verdict on a path without a star is that of
      the longest pattern; frames arrive in any pieces; queries cover the store; what a stored page
      keeps of each element is exact.
    - [Crawl], [Polite]: the state of a crawler is in order after every history of ticks and
      commands of all kinds, crashes included; a crawl ends; a step goes on where it was stored; a step asks for the rules and
      for at most one page that they let pass.
    - [SpiderSession]: nothing leaves the process but bounded requests of the crawled origin.

    The [Example]s of the files are evaluations, some of which record surprising behaviour
    of the code ([Event.handler_count_global], [IrIml.macro_in_text_expanded],
    [IrRegistry.name_listed_twice], [Redaction.password_tail_shown],
    [PdqlText.star_in_text], [Pdql.trimmed_attribute_fails], [Endpoint.source_moved],
    [Wire.limit_depends_on_segments], [Http.socks5_leaves_port],
    [Plugins.replaced_request_loses_proxy], [Css.class_counted_twice], [Css.counted_twice],
    [Robots.star_in_path], [Crawl.no_delay], [Navigation.scripts_run],
    [Navigation.navigation_timeout]).

    ** What is assumed and what is left out

    The C locale; a parent that is alive while a handle to a child is in use; a mutation
    or access listener that does not call back; [std::function] targets that end.  Of the
    storage: sessions are assumed not to use the identifier
    [__prowsetk_encrypted_cookie_jar] that the encrypted storage reserves; what a string holds
    after it was moved from is a parameter.

    ** Not modelled

    - The script, Lua and Wasm runtimes ([quickjs_runtime.cpp], [lua_runtime.cpp],
      [wasm_runtime.cpp]) and the native modules of pages: bindings to interpreters whose
      sources are not in [src], and texts in the script languages.
    - The alternative HTML parser and the XPath engine: calls of third-party libraries.
    - Of the renderer, computed values, layout, text metrics and painting, which are floating
      point throughout, and functional colours, which read strings that are gone.
    - The remote-control servers, which drive the runtimes above; the windows of X11 and FLTK.
    - The calls of the file system around the cached token of [Oauth] and the databases.
    - Of the crawler, the poll loop of the daemon and the controller; drivers run in the Lua
      runtime, which is a parameter, but what they stage, and what becomes of it, is modelled.
    - The other plugins, the command line and the stand-alone programs under [tools]: input and
      output around the library. *)
From stdpp Require Export base tactics option list strings gmap relations sorting.
From Stdlib Require Export Ascii NArith ZArith Lia.

#[global] Set Default Goal Selector "!".

(** ** Byte strings

    [std::string] and [std::string_view] hold arbitrary bytes; both are lists of
    [ascii] (eight bits each). *)
Abbreviation bytes := (list ascii).

Definition lit (s : string) : bytes := String.list_ascii_of_string s.
Arguments lit _%_string.

Declare Scope bytes_scope.
Delimit Scope bytes_scope with bytes.
Notation "a =c b" := (Ascii.eqb a b) (at level 70) : bytes_scope.
Open Scope bytes_scope.

(** ** Errors

    The exception class [prowsetk::Error] carries one of these codes; a function
    that may throw returns a [result]. *)
Inductive ErrorCode :=
  | Ok | InvalidArgument | InvalidUrl | ParseError | NotFound | Unsupported
  | NetworkError | Timeout | TooManyRedirects | ResourceLimit
  | SecurityViolation | PluginError | WasmError | LuaError | JavaScriptError
  | StorageError | IoError | Internal.

#[export] Instance ErrorCode_eq_dec : EqDecision ErrorCode.
Proof. solve_decision. Defined.

(** [to_string(ErrorCode)] of [src/core/error.cpp]. *)
Definition error_to_string (code : ErrorCode) : bytes :=
  match code with
  | Ok => lit "ok"
  | InvalidArgument => lit "invalid_argument"
  | InvalidUrl => lit "invalid_url"
  | ParseError => lit "parse_error"
  | NotFound => lit "not_found"
  | Unsupported => lit "unsupported"
  | NetworkError => lit "network_error"
  | Timeout => lit "timeout"
  | TooManyRedirects => lit "too_many_redirects"
  | ResourceLimit => lit "resource_limit"
  | SecurityViolation => lit "security_violation"
  | PluginError => lit "plugin_error"
  | WasmError => lit "wasm_error"
  | LuaError => lit "lua_error"
  | JavaScriptError => lit "javascript_error"
  | StorageError => lit "storage_error"
  | IoError => lit "io_error"
  | Internal => lit "internal"
  end.

Inductive result (A : Type) :=
  | Ret (a : A)
  | Throw (e : ErrorCode).
Arguments Ret {A} a.
Arguments Throw {A} e.

#[export] Instance result_ret : MRet result := @Ret.
#[export] Instance result_bind : MBind result := fun A B f m =>
  match m with Ret a => f a | Throw e => Throw e end.
#[export] Instance result_fmap : FMap result := fun A B f m =>
  match m with Ret a => Ret (f a) | Throw e => Throw e end.

(** [throw_if b e]: the statement [if (b) throw Error(e, ...);]. *)
Definition throw_if (b : bool) (e : ErrorCode) : result unit :=
  if b then Throw e else Ret tt.

Lemma bind_Ret {A B} (m : result A) (k : A -> result B) b :
  (x ← m; k x) = Ret b <-> exists a, m = Ret a /\ k a = Ret b.
Proof. destruct m; naive_solver. Qed.

Lemma throw_if_Ret b e u : throw_if b e = Ret u <-> b = false.
Proof. destruct b, u; simpl; naive_solver. Qed.

(** Invert a computation of the error monad that returned. *)
Ltac inv_ret :=
  repeat match goal with
  | H : (mbind _ _) = Ret _ |- _ =>
      apply bind_Ret in H; destruct H as (? & ? & ?)
  | H : throw_if _ _ = Ret _ |- _ => apply throw_if_Ret in H
  | H : Ret _ = Ret _ |- _ => injection H as H; simplify_eq
  | H : Throw _ = Ret _ |- _ => discriminate H
  end.

(** [outcome E P m]: [m] returns a value that satisfies [P] or throws an error of [E]. *)
Definition outcome {A} (E : ErrorCode -> Prop) (P : A -> Prop) (m : result A) : Prop :=
  match m with Ret a => P a | Throw e => E e end.

Lemma outcome_bind {A B} E (P : A -> Prop) (Q : B -> Prop) (m : result A) (k : A -> result B) :
  outcome E P m -> (forall a, P a -> outcome E Q (k a)) -> outcome E Q (x ← m; k x).
Proof. destruct m; simpl; auto. Qed.

Lemma outcome_bind_pair {A B C} E (P : A -> C -> Prop) (Q : B -> Prop) (m : result (A * C))
  (k : A * C -> result B) :
  outcome E (fun '(a, c) => P a c) m ->
  (forall a c, P a c -> outcome E Q (k (a, c))) -> outcome E Q (x ← m; k x).
Proof. intros Hm Hk. eapply outcome_bind; [exact Hm|]. intros [a c]. apply Hk. Qed.

Lemma outcome_throw_if {B} (E : ErrorCode -> Prop) (Q : B -> Prop) b e (k : unit -> result B) :
  E e -> (b = false -> outcome E Q (k tt)) -> outcome E Q (x ← throw_if b e; k x).
Proof. destruct b; simpl; auto. Qed.

Lemma outcome_impl {A} E (P Q : A -> Prop) m :
  outcome E P m -> (forall a, P a -> Q a) -> outcome E Q m.
Proof. destruct m; simpl; auto. Qed.

Lemma outcome_Ret {A} E (P : A -> Prop) m a : outcome E P m -> m = Ret a -> P a.
Proof. intros H ->. done. Qed.

Lemma outcome_Throw {A} E (P : A -> Prop) (m : result A) e : outcome E P m -> m = Throw e -> E e.
Proof. intros H ->. done. Qed.

(** ** Operations with a state and exceptions

    The state that an exception leaves behind is part of the answer. *)

Definition op (S A : Type) : Type := S -> result A * S.

#[export] Instance op_ret S : MRet (op S) := fun A a s => (Ret a, s).
#[export] Instance op_bind S : MBind (op S) := fun A B f m s =>
  match m s with (Ret a, s') => f a s' | (Throw e, s') => (Throw e, s') end.

(** A computation that does not touch the state. *)
Definition lift_op {S A} (m : result A) : op S A := fun s => (m, s).
Definition throw_op {S A} (e : ErrorCode) : op S A := lift_op (Throw e).

Lemma op_bind_eq {S A B} (m : op S A) (k : A -> op S B) s :
  (x ← m; k x) s = match m s with (Ret a, s') => k a s' | (Throw e, s') => (Throw e, s') end.
Proof. done. Qed.

(** Unfold the first bind of the goal. *)
Ltac bind_step :=
  match goal with |- context [@mbind _ _ _ _ ?k ?m ?s] =>
    change (mbind k m s) with (match m s with (Ret a, s') => k a s' | (Throw e, s') => (Throw e, s') end); cbv beta
  end.

(** Unfold the first return of the goal. *)
Ltac ret_step :=
  match goal with |- context [@mret ?M ?I ?A ?a ?s] => change (@mret M I A a s) with (Ret a, s) end.

Lemma op_bind_Ret {S A B} (m : op S A) (k : A -> op S B) s b s' :
  (x ← m; k x) s = (Ret b, s') <-> exists a s1, m s = (Ret a, s1) /\ k a s1 = (Ret b, s').
Proof. rewrite op_bind_eq. destruct (m s) as [[a|e] s1]; naive_solver. Qed.

(** ** Character classes (the "C" locale's) *)
Definition code (c : ascii) : N := N_of_ascii c.
Definition in_range (lo hi : N) (c : ascii) : bool :=
  (lo <=? code c)%N && (code c <=? hi)%N.
Definition is_upper : ascii -> bool := in_range 65 90.
Definition is_lower : ascii -> bool := in_range 97 122.
Definition is_digit : ascii -> bool := in_range 48 57.
Definition is_alpha (c : ascii) : bool := is_upper c || is_lower c.
Definition is_alnum (c : ascii) : bool := is_alpha c || is_digit c.
Definition tolower (c : ascii) : ascii :=
  if is_upper c then ascii_of_N (code c + 32) else c.
Definition to_lower (s : bytes) : bytes := map tolower s.

(** [' ', \t, \n, \r, \f]: the HTML and CSS white space. *)
Definition is_space (c : ascii) : bool :=
  (code c =? 32)%N || (code c =? 9)%N || (code c =? 10)%N ||
  (code c =? 13)%N || (code c =? 12)%N.

(** [std::isspace]. *)
Definition is_blank (c : ascii) : bool := is_space c || (code c =? 11)%N.

(** Decide a statement about one character by listing all of them. *)
Ltac ascii_cases c := destruct c as [[] [] [] [] [] [] [] []].
Ltac by_ascii c := ascii_cases c; vm_compute; try reflexivity; try tauto; try congruence.

Lemma tolower_idemp c : tolower (tolower c) = tolower c.
Proof. by_ascii c. Qed.

Lemma to_lower_idemp s : to_lower (to_lower s) = to_lower s.
Proof.
  unfold to_lower. rewrite map_map. apply map_ext. apply tolower_idemp.
Qed.

Lemma to_lower_app s t : to_lower (s ++ t) = to_lower s ++ to_lower t.
Proof. apply map_app. Qed.

Lemma length_to_lower s : length (to_lower s) = length s.
Proof. apply length_map. Qed.

(** ** Searching *)

(** [find_first_of]/[find(c)]: the index of the first character satisfying [p]. *)
Fixpoint find_if (p : ascii -> bool) (s : bytes) : option nat :=
  match s with
  | [] => None
  | c :: s' => if p c then Some 0 else S <$> find_if p s'
  end.

(** [find_last_of]. *)
Fixpoint find_last_if (p : ascii -> bool) (s : bytes) : option nat :=
  match s with
  | [] => None
  | c :: s' =>
      match find_last_if p s' with
      | Some n => Some (S n)
      | None => if p c then Some 0 else None
      end
  end.

(** [s.rfind(pre, 0) == 0] and [s.compare(0, |pre|, pre) == 0]. *)
Fixpoint starts_with (pre s : bytes) : bool :=
  match pre, s with
  | [], _ => true
  | _ :: _, [] => false
  | a :: pre', b :: s' => (a =c b) && starts_with pre' s'
  end.

(** [s.find(pat)]. *)
Fixpoint find_sub (pat s : bytes) : option nat :=
  if starts_with pat s then Some 0
  else match s with [] => None | _ :: s' => S <$> find_sub pat s' end.

(** [pop_back] while the last character satisfies [p]. *)
Fixpoint rstrip (p : ascii -> bool) (s : bytes) : bytes :=
  match s with
  | [] => []
  | c :: s' =>
      match rstrip p s' with
      | [] => if p c then [] else [c]
      | r => c :: r
      end
  end.

(** Skip the leading characters satisfying [p] (a [while (p(s[i])) ++i] loop). *)
Fixpoint skip (p : ascii -> bool) (s : bytes) : bytes :=
  match s with
  | c :: s' => if p c then skip p s' else s
  | [] => []
  end.

(** The characters such a loop goes over. *)
Fixpoint span (p : ascii -> bool) (s : bytes) : bytes :=
  match s with
  | c :: s' => if p c then c :: span p s' else []
  | [] => []
  end.

Definition eqb_bytes (a b : bytes) : bool := bool_decide (a = b).
Notation "a =s b" := (eqb_bytes a b) (at level 70) : bytes_scope.

#[global] Arguments Ascii.eqb : simpl never.
#[global] Arguments lit : simpl never.
#[global] Arguments eqb_bytes : simpl never.

(** [std::find(names.begin(), names.end(), name) != names.end()]. *)
Definition one_of (name : bytes) (names : list string) : bool :=
  existsb (fun n => name =s lit n) names.

Definition opt_bytes (b : bool) (s : bytes) : bytes := if b then s else [].
Definition nonempty {A} (s : list A) : bool := match s with [] => false | _ => true end.

(** [std::string::ends_with]. *)
Definition ends_with (suffix s : bytes) : bool :=
  (length suffix <=? length s) && (drop (length s - length suffix) s =s suffix).

(** ** Lemmas on searching *)

Lemma eqb_bytes_true a b : (a =s b) = true <-> a = b.
Proof. apply bool_decide_eq_true. Qed.

Lemma eqb_bytes_refl a : (a =s a) = true.
Proof. by apply eqb_bytes_true. Qed.

Lemma eqb_bytes_false a b : (a =s b) = false <-> a <> b.
Proof. apply bool_decide_eq_false. Qed.

Lemma eqc_true a b : (a =c b) = true <-> a = b.
Proof. apply Ascii.eqb_eq. Qed.

Lemma eqc_false a b : (a =c b) = false <-> a <> b.
Proof. apply Ascii.eqb_neq. Qed.

Lemma drop_app_S {A} (a : list A) c t : drop (length a + 1) (a ++ c :: t) = t.
Proof. rewrite drop_app_ge by lia. by replace (length a + 1 - length a) with 1 by lia. Qed.

(** [none p s]: no character of [s] satisfies [p]. *)
Abbreviation none p s := (forallb (fun c : ascii => negb (p c)) s).

Lemma find_if_None p s : find_if p s = None <-> none p s = true.
Proof.
  induction s as [|c s IH]; simpl; [done|].
  destruct (p c); simpl; [done|].
  destruct (find_if p s); naive_solver.
Qed.

Lemma find_if_Some p s n :
  find_if p s = Some n <->
  exists c, s = take n s ++ c :: drop (S n) s /\ n < length s /\
            none p (take n s) = true /\ p c = true.
Proof.
  revert n. induction s as [|c s IH]; intros n; simpl.
  - split; [done|]. intros (? & H & _). by destruct n.
  - destruct (p c) eqn:Hp; simpl.
    + split.
      * intros [= <-]. exists c. simpl. rewrite ?drop_0. split_and!; auto; lia.
      * intros (d & H & Hn & Hnone & Hd). destruct n; [done|].
        simpl in Hnone. by rewrite Hp in Hnone.
    + split.
      * intros (m & Hm & ->)%fmap_Some.
        apply IH in Hm as (d & H & Hn & Hnone & Hd).
        exists d. simpl. rewrite Hp. split_and!; auto; [by f_equal|lia].
      * intros (d & H & Hn & Hnone & Hd). destruct n as [|n].
        { simpl in H. injection H as <-. congruence. }
        simpl in *. injection H as H. rewrite Hp in Hnone. simpl in Hnone.
        assert (find_if p s = Some n) as ->; [|done].
        apply IH. exists d. split_and!; auto; lia.
Qed.

Lemma find_if_app p a b :
  none p a = true -> find_if p (a ++ b) = (fun n => length a + n) <$> find_if p b.
Proof.
  induction a as [|c a IH]; simpl; intros H.
  - by destruct (find_if p b).
  - apply andb_prop in H as [Hc Ha]. apply negb_true_iff in Hc.
    rewrite Hc, IH by done. by destruct (find_if p b).
Qed.

Lemma find_if_mid p a c b :
  none p a = true -> p c = true -> find_if p (a ++ c :: b) = Some (length a).
Proof.
  intros Ha Hc. rewrite find_if_app by done. simpl. rewrite Hc. simpl.
  f_equal. lia.
Qed.

Lemma find_if_lt p s n : find_if p s = Some n -> n < length s.
Proof. intros (c & _ & H & _)%find_if_Some. done. Qed.

Lemma find_if_app_l p a b n : find_if p a = Some n -> find_if p (a ++ b) = Some n.
Proof.
  revert n. induction a as [|c a IH]; simpl; intros n H; [done|].
  destruct (p c); [done|].
  apply fmap_Some in H as (m & Hm & ->). by rewrite (IH m).
Qed.

Lemma find_last_if_None p s : find_last_if p s = None <-> none p s = true.
Proof.
  induction s as [|c s IH]; simpl; [done|].
  destruct (find_last_if p s).
  - destruct (p c); naive_solver.
  - destruct (p c); naive_solver.
Qed.

Lemma find_last_if_mid p a c b :
  p c = true -> none p b = true -> find_last_if p (a ++ c :: b) = Some (length a).
Proof.
  intros Hc Hb. induction a as [|d a IH]; simpl.
  - apply find_last_if_None in Hb. by rewrite Hb, Hc.
  - by rewrite IH.
Qed.

Lemma starts_with_spec pre s :
  starts_with pre s = true <-> s = pre ++ drop (length pre) s.
Proof.
  revert s. induction pre as [|a pre IH]; intros s; simpl; [by rewrite drop_0|].
  destruct s as [|b s]; [done|]. simpl.
  rewrite andb_true_iff, eqc_true, IH. split.
  - intros [-> H]. by f_equal.
  - intros H. injection H as -> H. done.
Qed.

Lemma starts_with_app pre s : starts_with pre (pre ++ s) = true.
Proof. induction pre; simpl; [done|]. by rewrite Ascii.eqb_refl. Qed.

Lemma find_sub_Some pat s n :
  find_sub pat s = Some n -> s = take n s ++ pat ++ drop (n + length pat) s /\
                             n + length pat <= length s.
Proof.
  revert n. induction s as [|c s IH]; intros n; cbn [find_sub].
  - destruct (starts_with pat []) eqn:E; [|done]. intros [= <-].
    destruct pat; [done|]. done.
  - destruct (starts_with pat (c :: s)) eqn:E.
    + intros [= <-]. apply starts_with_spec in E. simpl. split; [done|].
      apply (f_equal length) in E. rewrite length_app in E. simpl in E |- *. lia.
    + intros (m & Hm & ->)%fmap_Some. apply IH in Hm as [H1 H2]. simpl.
      split; [by f_equal|lia].
Qed.

Lemma starts_with_long pat s k :
  length pat <= length s -> starts_with pat (s ++ k) = starts_with pat s.
Proof.
  revert s. induction pat as [|a pat IH]; intros [|c s] Hl; simpl in *; try done; [lia|].
  f_equal. apply IH. lia.
Qed.

Lemma find_sub_at pat s n : starts_with pat (drop n s) = true -> exists m, find_sub pat s = Some m /\ m <= n.
Proof.
  revert n. induction s as [|c s IH]; intros n Hn; cbn [find_sub].
  - rewrite drop_nil in Hn. rewrite Hn. exists 0. split; [done|lia].
  - destruct (starts_with pat (c :: s)) eqn:E; [exists 0; split; [done|lia]|].
    destruct n as [|n]; [by rewrite drop_0, E in Hn|]. apply IH in Hn as (m & -> & Hm). exists (S m). split; [done|lia].
Qed.

Lemma find_sub_app pat s k n :
  find_sub pat s = Some n -> find_sub pat (s ++ k) = Some n.
Proof.
  revert n. induction s as [|c s IH]; intros n; cbn [find_sub app].
  - destruct pat; [|done]. intros [= <-]. by destruct k.
  - destruct (decide (length pat <= length (c :: s))) as [Hl|Hl].
    + rewrite <- (starts_with_long pat (c :: s) k Hl). cbn [app].
      destruct (starts_with pat (c :: s ++ k)); [done|].
      intros (m & Hm & ->)%fmap_Some. by rewrite (IH m).
    + destruct (starts_with pat (c :: s)) eqn:E.
      * apply starts_with_spec, (f_equal length) in E. rewrite length_app in E. lia.
      * intros (m & Hm & _)%fmap_Some. apply find_sub_Some in Hm as [_ Hm]. simpl in Hl. lia.
Qed.

Lemma skip_span p s : span p s ++ skip p s = s.
Proof.
  induction s as [|c s IH]; simpl; [done|].
  destruct (p c); simpl; [by rewrite IH|done].
Qed.

Lemma length_skip p s : length (skip p s) <= length s.
Proof. induction s as [|c s IH]; simpl; [done|]. destruct (p c); simpl; lia. Qed.

Lemma span_all p a : forallb p a = true -> span p a = a.
Proof.
  induction a as [|c a IH]; simpl; [done|].
  destruct (p c); simpl; [|done]. intros H. by rewrite IH.
Qed.

Lemma skip_app p a b : forallb p a = true -> skip p (a ++ b) = skip p b.
Proof.
  induction a as [|c a IH]; simpl; [done|].
  destruct (p c); simpl; [|done]. auto.
Qed.

Lemma span_app p a b : forallb p a = true -> span p (a ++ b) = a ++ span p b.
Proof.
  induction a as [|c a IH]; simpl; [done|].
  destruct (p c); simpl; [|done]. intros H. by rewrite IH.
Qed.

Lemma span_stop p c b : p c = false -> span p (c :: b) = [].
Proof. intros H. simpl. by rewrite H. Qed.

Lemma skip_stop p c b : p c = false -> skip p (c :: b) = c :: b.
Proof. intros H. simpl. by rewrite H. Qed.

Lemma rstrip_app p a b : rstrip p b = b -> b <> [] -> rstrip p (a ++ b) = a ++ b.
Proof. intros Hb Hn. induction a as [|c a IH]; [done|]. cbn [app rstrip]. rewrite IH. by destruct (a ++ b) eqn:E; [destruct a; [cbn in E|]|]. Qed.

Lemma rstrip_none p s : none p s = true -> rstrip p s = s.
Proof.
  induction s as [|c s IH]; [done|]. cbn [forallb rstrip]. intros [H%negb_true_iff Hs]%andb_prop. rewrite IH, H by done. by destruct s.
Qed.

Lemma rstrip_idem p s : rstrip p (rstrip p s) = rstrip p s.
Proof.
  induction s as [|c s IH]; cbn; [done|]. destruct (rstrip p s) as [|d r] eqn:E; [destruct (p c) eqn:Ec; cbn; [done|by rewrite Ec]|].
  change (rstrip p (c :: d :: r)) with (match rstrip p (d :: r) with [] => if p c then [] else [c] | r => c :: r end). by rewrite IH.
Qed.

Lemma rstrip_head p c s : p c = false -> exists r, rstrip p (c :: s) = c :: r.
Proof. intros H. cbn. destruct (rstrip p s); [rewrite H|]; eauto. Qed.

Lemma rstrip_app_all p a b : forallb p b = true -> rstrip p (a ++ b) = rstrip p a.
Proof.
  intros H. induction a as [|c a IH]; simpl; [|by rewrite IH].
  induction b as [|c b IH]; [done|]. simpl in *. apply andb_prop in H as [Hc Hb]. by rewrite IH, Hc.
Qed.

Lemma none_app (p : ascii -> bool) a b : none p (a ++ b) = none p a && none p b.
Proof. apply forallb_app. Qed.

Lemma none_take (p : ascii -> bool) s n : none p s = true -> none p (take n s) = true.
Proof.
  rewrite <- (take_drop n s) at 1. rewrite none_app. intros [? _]%andb_prop. done.
Qed.

Lemma none_drop (p : ascii -> bool) s n : none p s = true -> none p (drop n s) = true.
Proof.
  rewrite <- (take_drop n s) at 1. rewrite none_app. intros [_ ?]%andb_prop. done.
Qed.

(** The database of facts the components use everywhere. *)
Create HintDb prowse.
#[export] Hint Resolve none_take none_drop starts_with_app : prowse.
Create Rewrite HintDb prowse.
#[export] Hint Rewrite length_app length_to_lower to_lower_app to_lower_idemp
  eqb_bytes_refl Ascii.eqb_refl @take_app_length @drop_app_length : prowse.

(** [head_is p s]: the string is empty or its first character satisfies [p]. *)
Definition head_is (p : ascii -> bool) (s : bytes) : bool :=
  match s with [] => true | c :: _ => p c end.

Lemma find_if_head p a t :
  none p a = true -> head_is p t = true ->
  find_if p (a ++ t) = match t with [] => None | _ => Some (length a) end.
Proof.
  intros Ha Ht. destruct t as [|c t].
  - rewrite app_nil_r. by apply find_if_None.
  - by apply find_if_mid.
Qed.

(** Predicates that do not see the case of a letter. *)
Lemma find_if_to_lower p s :
  (forall c, p (tolower c) = p c) -> find_if p (to_lower s) = find_if p s.
Proof.
  intros Hp. induction s as [|c s IH]; simpl; [done|]. by rewrite Hp, IH.
Qed.

Lemma forallb_to_lower (p : ascii -> bool) s :
  (forall c, p (tolower c) = p c) -> forallb p (to_lower s) = forallb p s.
Proof.
  intros Hp. induction s as [|c s IH]; simpl; [done|]. by rewrite Hp, IH.
Qed.

Lemma none_impl (p q : ascii -> bool) s :
  (forall c, q c = true -> p c = true) -> none p s = true -> none q s = true.
Proof.
  intros Hpq. induction s as [|c s IH]; simpl; [done|].
  intros [Hc Hs]%andb_prop. rewrite IH, andb_true_r by done.
  specialize (Hpq c). destruct (q c), (p c); naive_solver.
Qed.

Lemma none_forallb (p q : ascii -> bool) s :
  (forall c, q c = true -> p c = false) -> forallb q s = true -> none p s = true.
Proof.
  intros H. induction s as [|c s IH]; [done|]. simpl. intros [Hc Hs]%andb_prop. by rewrite (H c Hc), IH.
Qed.

Lemma forallb_impl (p q : ascii -> bool) s :
  (forall c, p c = true -> q c = true) -> forallb p s = true -> forallb q s = true.
Proof.
  intros H. induction s as [|c s IH]; [done|]. cbn. intros [Hc Hs]%andb_prop. by rewrite (H c Hc), IH.
Qed.

(** Split every conjunction of booleans in the context. *)
Ltac split_andb :=
  repeat match goal with
  | H : _ && _ = true |- _ => apply andb_prop in H; destruct H
  | H : negb _ = true |- _ => apply negb_true_iff in H
  end.

(** Printing a list of pieces one after the other. *)
Lemma mjoin_fmap_cons {A B} (f : A -> list B) x l :
  mjoin (f <$> x :: l) = f x ++ mjoin (f <$> l).
Proof. done. Qed.

Lemma mjoin_fmap_app {A B} (f : A -> list B) l1 l2 :
  mjoin (f <$> l1 ++ l2) = mjoin (f <$> l1) ++ mjoin (f <$> l2).
Proof. rewrite fmap_app. apply join_app. Qed.

Lemma none_mjoin p (f : ascii -> bytes) s :
  (forall c, none p (f c) = true) -> none p (mjoin (f <$> s)) = true.
Proof.
  intros Hf. induction s as [|c s IH]; [done|].
  by rewrite mjoin_fmap_cons, none_app, Hf, IH.
Qed.

Lemma ends_with_app a b : ends_with b (a ++ b) = true.
Proof.
  unfold ends_with. rewrite length_app, (proj2 (Nat.leb_le _ _)) by lia.
  rewrite Nat.add_sub, drop_app_length. apply eqb_bytes_refl.
Qed.

Lemma ends_with_spec b s : ends_with b s = true <-> exists a, s = a ++ b.
Proof.
  split; [|intros [a ->]; apply ends_with_app]. unfold ends_with. intros [_ <-%eqb_bytes_true]%andb_prop.
  exists (take (length s - length b) s). by rewrite take_drop.
Qed.

(** Transitive closure is monotone. *)
Lemma tc_subrel {A} (R1 R2 : A -> A -> Prop) x y :
  (forall a b, R1 a b -> R2 a b) -> tc R1 x y -> tc R2 x y.
Proof. intros H. induction 1; [apply tc_once|eapply tc_l]; eauto. Qed.

(** ** Sums and maxima over a list *)

Definition sumN {A} (f : A -> N) (l : list A) : N := foldr (fun x n => f x + n)%N 0%N l.
Definition maxN {A} (f : A -> N) (l : list A) : N := foldr (fun x n => N.max (f x) n) 0%N l.

Lemma sumN_app {A} (f : A -> N) l1 l2 : sumN f (l1 ++ l2) = (sumN f l1 + sumN f l2)%N.
Proof. unfold sumN. induction l1 as [|x l1 IH]; cbn [app foldr]; [lia|]. rewrite IH. lia. Qed.

Lemma maxN_app {A} (f : A -> N) l1 l2 : maxN f (l1 ++ l2) = N.max (maxN f l1) (maxN f l2).
Proof. unfold maxN. induction l1 as [|x l1 IH]; cbn [app foldr]; [lia|]. rewrite IH. lia. Qed.

Lemma filter_twice {A} (p q : A -> bool) l :
  List.filter p (List.filter q l) = List.filter (fun x => q x && p x) l.
Proof.
  induction l as [|x l IH]; [done|]. simpl. destruct (q x); simpl; [|done].
  destruct (p x); [by rewrite IH|done].
Qed.

(** ** Decimal numbers: [std::to_string] of an unsigned integer *)

Definition digit (n : N) : ascii := ascii_of_N (48 + n).

Fixpoint print_loop (fuel : nat) (n : N) : bytes :=
  match fuel with
  | O => []
  | S fuel' => if (n <? 10)%N then [digit n] else print_loop fuel' (n / 10) ++ [digit (n mod 10)]
  end.

(** The number of binary digits bounds the number of decimal ones. *)
Definition print_N (n : N) : bytes := print_loop (S (N.size_nat n)) n.

(** [std::to_string] of a signed integer. *)
Definition print_Z (z : Z) : bytes := opt_bytes (z <? 0)%Z (lit "-") ++ print_N (Z.abs_N z).

Definition read_N (s : bytes) : N := foldl (fun v c => v * 10 + (code c - 48))%N 0%N s.

Lemma code_digit n : (n < 10)%N -> code (digit n) = (48 + n)%N.
Proof. intros H. unfold code, digit. apply N_ascii_embedding. lia. Qed.

Lemma is_digit_digit n : (n < 10)%N -> is_digit (digit n) = true.
Proof.
  intros H. unfold is_digit, in_range. rewrite code_digit by done.
  apply andb_true_iff. rewrite !N.leb_le. lia.
Qed.

Lemma print_loop_spec fuel n :
  (n < 2 ^ N.of_nat fuel)%N -> (0 < fuel)%nat ->
  forallb is_digit (print_loop fuel n) = true /\ read_N (print_loop fuel n) = n /\
  print_loop fuel n <> [].
Proof.
  revert n. induction fuel as [|fuel IH]; intros n Hn Hf; [lia|]. cbn [print_loop].
  destruct (N.ltb_spec n 10) as [H|H].
  - split_and!; [|unfold read_N; cbn [foldl]; rewrite code_digit by done; lia|done].
    simpl. by rewrite is_digit_digit.
  - rewrite Nat2N.inj_succ, N.pow_succ_r' in Hn.
    assert (Hd : (n / 10 < 2 ^ N.of_nat fuel)%N) by (apply N.Div0.div_lt_upper_bound; lia).
    pose proof (N.mod_lt n 10 ltac:(done)) as Hm.
    destruct (IH (n / 10)%N Hd) as (H1 & H2 & _).
    { destruct fuel; [rewrite N.pow_0_r in Hn|]; lia. }
    split_and!.
    + rewrite forallb_app, H1. simpl. by rewrite is_digit_digit.
    + unfold read_N in *. rewrite foldl_app, H2. cbn [foldl]. rewrite code_digit by done.
      rewrite (N.add_comm 48), N.add_sub, N.mul_comm. symmetry. apply N.Div0.div_mod.
    + by destruct (print_loop fuel (n / 10)).
Qed.

Lemma print_N_spec n :
  forallb is_digit (print_N n) = true /\ read_N (print_N n) = n /\ print_N n <> [].
Proof.
  apply print_loop_spec; [|lia]. pose proof (N.size_gt n) as H.
  replace (N.of_nat (S (N.size_nat n))) with (N.succ (N.size n)).
  - rewrite N.pow_succ_r'. lia.
  - rewrite Nat2N.inj_succ. f_equal. destruct n as [|p]; [done|]. cbn [N.size N.size_nat].
    assert (H' : Pos.to_nat (Pos.size p) = Pos.size_nat p); [|lia].
    clear. induction p as [p IH|p IH|]; cbn [Pos.size Pos.size_nat]; [rewrite Pos2Nat.inj_succ; lia..|done].
Qed.

Lemma print_N_inj n m : print_N n = print_N m -> n = m.
Proof.
  intros H. destruct (print_N_spec n) as (_ & <- & _). rewrite H. apply print_N_spec.
Qed.

(** ** The order of strings: lexicographic on unsigned characters *)

Fixpoint bytes_le (a b : bytes) : bool :=
  match a, b with
  | [], _ => true
  | _ :: _, [] => false
  | x :: a', y :: b' => (code x <? code y)%N || ((x =c y) && bytes_le a' b')
  end.

Definition key_order (a b : bytes) : Prop := bytes_le a b = true.

#[export] Instance key_order_dec : RelDecision key_order.
Proof. intros a b. unfold key_order. apply _. Defined.

#[export] Instance key_order_total : Total key_order.
Proof.
  intros a. unfold key_order. induction a as [|x a IH]; intros [|y b]; simpl; auto.
  destruct (N.ltb_spec (code x) (code y)); [by left|]. destruct (N.ltb_spec (code y) (code x)); [by right|].
  assert (x = y) as -> by (rewrite <- (ascii_N_embedding x), <- (ascii_N_embedding y); f_equal; unfold code in *; lia). rewrite Ascii.eqb_refl. simpl. apply IH.
Qed.

#[export] Instance key_order_trans : Transitive key_order.
Proof.
  intros a. unfold key_order. induction a as [|x a IH]; intros [|y b] [|z c]; simpl; try done.
  rewrite !orb_true_iff, !andb_true_iff, !N.ltb_lt, !eqc_true.
  intros [H1|[-> H1]] [H2|[-> H2]]; [left; lia|by left|by left|]. right. split; [done|]. by eapply IH.
Qed.

(** ** Machine integers *)

(** Subtraction of [std::size_t]. *)
Definition size_sub (a b : N) : N := (if b <=? a then a - b else a + 2 ^ 64 - b)%N.

Lemma size_sub_exact a b : (b <= a)%N -> size_sub a b = (a - b)%N.
Proof. intros H. unfold size_sub. by rewrite (proj2 (N.leb_le _ _) H). Qed.

(** The bits of [m] behind those of [a]. *)
Lemma lor_shiftl a n m : (m < 2 ^ n)%N -> N.lor (N.shiftl a n) m = (a * 2 ^ n + m)%N.
Proof.
  intros Hm. rewrite <- N.shiftl_mul_pow2. assert (H : N.land (N.shiftl a n) m = 0%N).
  { apply N.bits_inj_0. intros i. rewrite N.land_spec. destruct (N.lt_ge_cases i n) as [Hi|Hi].
    - by rewrite N.shiftl_spec_low.
    - assert (N.testbit m i = false) as ->; [|by rewrite andb_false_r].
      destruct (N.eq_dec m 0) as [->|H0]; [apply N.bits_0|]. apply N.bits_above_log2.
      apply N.log2_lt_pow2; [lia|]. eapply N.lt_le_trans; [exact Hm|]. by apply N.pow_le_mono_r. }
  by rewrite N.add_nocarry_lxor, N.lxor_lor.
Qed.
