(* ===== verification/Url.v ===== *)
(** * URLs: [src/core/url.cpp]

    [Url] is [prowsetk::Url]; a [has_*] flag tells an absent component from an
    empty one.  [parse_url] is cut into the stages of the C++ function (scheme,
    authority, fragment, query); [remove_dot_segments] is its [while] loop, one
    [rds_step] per iteration. *)
From S2P Require Import Prelude.

Definition is_scheme_start (c : ascii) : bool := is_alpha c.
Definition is_scheme_char (c : ascii) : bool :=
  is_alnum c || (c =c "+") || (c =c "-") || (c =c ".").

Definition is_slash (c : ascii) : bool := c =c "/".

Record Url := {
  scheme : bytes; userinfo : bytes; host : bytes; port : bytes;
  path : bytes; query : bytes; fragment : bytes;
  has_authority : bool; has_query : bool; has_fragment : bool }.

Definition empty_url : Url :=
  {| scheme := []; userinfo := []; host := []; port := []; path := [];
     query := []; fragment := []; has_authority := false; has_query := false;
     has_fragment := false |}.

(** ** Dot segments *)

(** Drop the last segment of the output: [output.erase(output.find_last_of('/'))],
    or everything when there is no slash. *)
Definition pop_segment (output : bytes) : bytes :=
  match find_last_if is_slash output with
  | None => []
  | Some slash => take slash output
  end.

(** One iteration of the loop on a non-empty path. *)
Definition rds_step (output path : bytes) : bytes * bytes :=
  if starts_with (lit "../") path then (output, drop 3 path)
  else if starts_with (lit "./") path then (output, drop 2 path)
  else if starts_with (lit "/./") path then (output, drop 2 path)
  else if path =s lit "/." then (output, lit "/")
  else if starts_with (lit "/../") path then (pop_segment output, drop 3 path)
  else if path =s lit "/.." then (pop_segment output, lit "/")
  else if (path =s lit ".") || (path =s lit "..") then (output, [])
  else
    let start := match path with c :: _ => if is_slash c then 1 else 0 | [] => 0 end in
    match find_if is_slash (drop start path) with
    | None => (output ++ path, [])
    | Some n => (output ++ take (start + n) path, drop (start + n) path)
    end.

Fixpoint rds_loop (fuel : nat) (output path : bytes) : bytes :=
  match path, fuel with
  | [], _ | _, O => output
  | _, S fuel' => let '(output', path') := rds_step output path in
                  rds_loop fuel' output' path'
  end.

(** Every iteration shortens the path ([rds_step_shorter]): its length is enough
    fuel. *)
Definition remove_dot_segments (input : bytes) : bytes :=
  rds_loop (length input) [] input.

Definition merge_paths (base : Url) (reference_path : bytes) : bytes :=
  if has_authority base && (path base =s []) then "/"%char :: reference_path
  else match find_last_if is_slash (path base) with
       | None => reference_path
       | Some slash => take (slash + 1) (path base) ++ reference_path
       end.

(** ** Printing *)

Definition origin (u : Url) : bytes :=
  if has_authority u then
    scheme u ++ lit "://" ++ host u ++ opt_bytes (nonempty (port u)) (":"%char :: port u)
  else [].

Definition authority_string (u : Url) : bytes :=
  opt_bytes (nonempty (userinfo u)) (userinfo u ++ lit "@") ++ host u ++
  opt_bytes (nonempty (port u)) (":"%char :: port u).

Definition to_string (u : Url) : bytes :=
  opt_bytes (nonempty (scheme u)) (scheme u ++ lit ":") ++
  opt_bytes (has_authority u) (lit "//" ++ authority_string u) ++
  path u ++
  opt_bytes (has_query u) ("?"%char :: query u) ++
  opt_bytes (has_fragment u) ("#"%char :: fragment u).

(** ** Parsing *)

(** The length of the scheme, when the input starts with a valid one. *)
Definition scheme_length (s : bytes) : option nat :=
  match find_if (fun c => c =c ":") s, s with
  | Some (S n), c :: _ =>
      if is_scheme_start c && forallb is_scheme_char (take (S n) s) then Some (S n)
      else None
  | _, _ => None
  end.

Definition split_scheme (s : bytes) : bytes * bytes :=
  match scheme_length s with
  | Some n => (to_lower (take n s), drop (n + 1) s)
  | None => ([], s)
  end.

Definition is_authority_end (c : ascii) : bool :=
  is_slash c || (c =c "?") || (c =c "#").

(** [p] in front of the first match, the match and what follows behind. *)
Definition cut_at (p : ascii -> bool) (s : bytes) : bytes * bytes :=
  match find_if p s with
  | None => (s, [])
  | Some n => (take n s, drop n s)
  end.

(** Like [cut_at], but the separator is dropped; [false] when there is none. *)
Definition cut_off (p : ascii -> bool) (s : bytes) : bytes * bytes * bool :=
  match find_if p s with
  | None => (s, [], false)
  | Some n => (take n s, drop (n + 1) s, true)
  end.

(** [userinfo '@' rest]. *)
Definition split_userinfo (authority : bytes) : bytes * bytes :=
  match find_if (fun c => c =c "@") authority with
  | Some at_ => (take at_ authority, drop (at_ + 1) authority)
  | None => ([], authority)
  end.

Definition starts_bracket (s : bytes) : bool :=
  match s with c :: _ => c =c "[" | [] => false end.

(** [host [':' port]], where the host may be a bracketed IPv6 literal. *)
Definition split_host_port (authority : bytes) : result (bytes * bytes) :=
  if starts_bracket authority then
    match find_if (fun c => c =c "]") authority with
    | None => Throw InvalidUrl
    | Some close =>
        Ret (take (close + 1) authority,
             match drop (close + 1) authority with
             | c :: p => if c =c ":" then p else []
             | [] => []
             end)
    end
  else
    let '(h, p, _) := cut_off (fun c => c =c ":") authority in Ret (h, p).

Definition parse_authority (authority : bytes) : result (bytes * bytes * bytes) :=
  let '(ui, authority) := split_userinfo authority in
  '(h, p) ← split_host_port authority;
  Ret (ui, to_lower h, p).

Definition parse_url (input : bytes) : result Url :=
  let '(sch, rest) := split_scheme input in
  let has_auth := starts_with (lit "//") rest in
  let '(authority, rest) :=
    if has_auth then cut_at is_authority_end (drop 2 rest) else ([], rest) in
  '(ui, h, p) ← (if has_auth then parse_authority authority else Ret ([], [], []));
  let '(rest, frag, has_frag) := cut_off (fun c => c =c "#") rest in
  let '(rest, q, has_q) := cut_off (fun c => c =c "?") rest in
  Ret {| scheme := sch; userinfo := ui; host := h; port := p; path := rest;
         query := q; fragment := frag; has_authority := has_auth;
         has_query := has_q; has_fragment := has_frag |}.

(** ** Resolution *)

Definition with_path (u : Url) (p : bytes) : Url :=
  {| scheme := scheme u; userinfo := userinfo u; host := host u; port := port u;
     path := p; query := query u; fragment := fragment u;
     has_authority := has_authority u; has_query := has_query u;
     has_fragment := has_fragment u |}.

Definition with_port (u : Url) (p : bytes) : Url :=
  {| scheme := scheme u; userinfo := userinfo u; host := host u; port := p;
     path := path u; query := query u; fragment := fragment u;
     has_authority := has_authority u; has_query := has_query u;
     has_fragment := has_fragment u |}.

(** [resolve_url(const Url&, std::string_view)] after [ref] is parsed. *)
Definition resolve_ref (base ref : Url) : Url :=
  if nonempty (scheme ref) then with_path ref (remove_dot_segments (path ref))
  else if has_authority ref then
    {| scheme := scheme base; userinfo := userinfo ref; host := host ref;
       port := port ref; path := remove_dot_segments (path ref);
       query := query ref; fragment := fragment ref; has_authority := true;
       has_query := has_query ref; has_fragment := has_fragment ref |}
  else
    let '(p, q, hq) :=
      match path ref with
      | [] => (path base, if has_query ref then query ref else query base,
               if has_query ref then true else has_query base)
      | c :: _ =>
          (if is_slash c then remove_dot_segments (path ref)
           else remove_dot_segments (merge_paths base (path ref)),
           query ref, has_query ref)
      end in
    {| scheme := scheme base; userinfo := userinfo base; host := host base;
       port := port base; path := p; query := q; fragment := fragment ref;
       has_authority := has_authority base; has_query := hq;
       has_fragment := has_fragment ref |}.

Definition resolve_url (base : Url) (reference : bytes) : result Url :=
  ref ← parse_url reference; Ret (resolve_ref base ref).

Definition default_path (u : Url) : Url :=
  if has_authority u && (path u =s []) then with_path u (lit "/") else u.

Definition resolve_url_string (base reference : bytes) : result bytes :=
  base_url ← parse_url base;
  target ← resolve_url base_url reference;
  let normalized := with_path target (remove_dot_segments (path target)) in
  Ret (to_string (default_path normalized)).

(** The record [normalize_url] prints. *)
Definition normalize (u : Url) : Url :=
  let u := {| scheme := to_lower (scheme u); userinfo := userinfo u;
              host := to_lower (host u); port := port u;
              path := remove_dot_segments (path u); query := query u;
              fragment := fragment u; has_authority := has_authority u;
              has_query := has_query u; has_fragment := has_fragment u |} in
  let u := if ((scheme u =s lit "http") && (port u =s lit "80")) ||
              ((scheme u =s lit "https") && (port u =s lit "443"))
           then with_port u [] else u in
  default_path u.

Definition normalize_url (input : bytes) : result bytes :=
  u ← parse_url input; Ret (to_string (normalize u)).

Example parse_url_ex :
  parse_url (lit "HTTP://u@Ex.com:8080/a/../b?q#f") =
  Ret {| scheme := lit "http"; userinfo := lit "u"; host := lit "ex.com";
         port := lit "8080"; path := lit "/a/../b"; query := lit "q";
         fragment := lit "f"; has_authority := true; has_query := true;
         has_fragment := true |}.
Proof. reflexivity. Qed.

Example resolve_ex :
  resolve_url_string (lit "http://a/b/c/d;p?q") (lit "../../../g") = Ret (lit "http://a/g").
Proof. reflexivity. Qed.

(** ** The dot-segment loop *)

Lemma rds_step_shorter output c p :
  length (rds_step output (c :: p)).2 < length (c :: p).
Proof.
  unfold rds_step.
  repeat match goal with
  | |- length (if starts_with ?a ?b then _ else _).2 < _ =>
      destruct (starts_with a b) eqn:?; [simpl; rewrite ?length_drop; lia|]
  | |- length (if ?x =s ?y then _ else _).2 < _ =>
      let E := fresh "E" in destruct (x =s y) eqn:E; [apply eqb_bytes_true in E; rewrite E; by apply Nat.ltb_lt|]
  end.
  destruct ((c :: p =s lit ".") || (c :: p =s lit "..")); [simpl; lia|].
  destruct (find_if is_slash _) as [n|] eqn:Hf; [|simpl; lia].
  cbn [snd]. rewrite length_drop. destruct (is_slash c) eqn:Hc; [simpl; lia|].
  cbn [drop find_if] in Hf. rewrite Hc in Hf.
  apply fmap_Some in Hf as (m & _ & ->). simpl. lia.
Qed.

Lemma rds_loop_fuel f1 f2 output p :
  length p <= f1 -> length p <= f2 -> rds_loop f1 output p = rds_loop f2 output p.
Proof.
  revert f2 output p. induction f1 as [|f1 IH]; intros f2 output p H1 H2.
  { destruct p; [|simpl in H1; lia]. by destruct f2. }
  destruct p as [|c p]; [by destruct f2|].
  destruct f2 as [|f2]; [simpl in H2; lia|].
  cbn [rds_loop]. pose proof (rds_step_shorter output c p) as Hs.
  destruct (rds_step output (c :: p)) as [o' p']. cbn [snd] in Hs.
  apply IH; simpl in *; lia.
Qed.

(** The equation of the loop, without fuel. *)
Lemma rds_loop_cons output c p :
  rds_loop (length (c :: p)) output (c :: p) =
  let '(o', p') := rds_step output (c :: p) in rds_loop (length p') o' p'.
Proof.
  cbn [rds_loop length]. pose proof (rds_step_shorter output c p) as Hs.
  destruct (rds_step output (c :: p)) as [o' p']. cbn [snd] in Hs.
  apply rds_loop_fuel; simpl in *; lia.
Qed.

(** *** Reference: segments

    An absolute path is a list of slash-free segments, each printed after a
    slash.  RFC 3986 (5.2.4) says what dot segments do to that list. *)
Abbreviation noslash s := (none is_slash s).

Definition join (segs : list bytes) : bytes := mjoin (cons "/"%char <$> segs).

Fixpoint remove_dots (out segs : list bytes) : list bytes :=
  match segs with
  | [] => reverse out
  | s :: rest =>
      let out' := if s =s lit "." then out
                  else if s =s lit ".." then tail out else s :: out in
      match rest with
      | [] => if (s =s lit ".") || (s =s lit "..") then reverse ([] :: out')
              else reverse out'
      | _ => remove_dots out' rest
      end
  end.

Definition is_dot (s : bytes) : bool := (s =s lit ".") || (s =s lit "..").

(** Split an absolute path at its slashes. *)
Fixpoint segments_from (cur : bytes) (s : bytes) : list bytes :=
  match s with
  | [] => [cur]
  | c :: s' => if is_slash c then cur :: segments_from [] s'
               else segments_from (cur ++ [c]) s'
  end.

Definition segments (p : bytes) : list bytes :=
  match p with [] => [] | _ :: s => segments_from [] s end.

Definition absolute_path (p : bytes) : bool :=
  match p with [] => true | c :: _ => is_slash c end.

Lemma is_slash_true c : is_slash c = true -> c = "/"%char.
Proof. apply eqc_true. Qed.

Lemma join_cons s segs : join (s :: segs) = "/"%char :: s ++ join segs.
Proof. done. Qed.

Lemma join_app a b : join (a ++ b) = join a ++ join b.
Proof. unfold join. rewrite fmap_app. by rewrite join_app. Qed.

Lemma join_segments_from cur s : noslash cur = true -> join (segments_from cur s) = "/"%char :: cur ++ s.
Proof.
  revert cur. induction s as [|c s IH]; intros cur Hcur; simpl.
  - rewrite join_cons. done.
  - destruct (is_slash c) eqn:Hc.
    + rewrite join_cons, IH by done. by rewrite (is_slash_true c).
    + rewrite IH; [by rewrite <- app_assoc|].
      rewrite none_app, Hcur. simpl. by rewrite Hc.
Qed.

Lemma segments_from_noslash cur s :
  noslash cur = true -> Forall (fun x => noslash x = true) (segments_from cur s).
Proof.
  revert cur. induction s as [|c s IH]; intros cur Hcur; simpl.
  - constructor; [done|done].
  - destruct (is_slash c) eqn:Hc.
    + constructor; [done|by apply IH].
    + apply IH. rewrite none_app. simpl. rewrite Hc. by rewrite Hcur.
Qed.

Lemma join_segments p : absolute_path p = true -> join (segments p) = p.
Proof.
  destruct p as [|c p]; simpl; [done|]. intros Hc.
  rewrite join_segments_from by done. by rewrite (is_slash_true c).
Qed.

Lemma segments_noslash p : Forall (fun x => noslash x = true) (segments p).
Proof. destruct p; simpl; [constructor|by apply segments_from_noslash]. Qed.

(** The head of what follows a segment in [join]: nothing or a slash. *)
Definition tail_ok (t : bytes) : Prop := t = [] \/ exists t', t = "/"%char :: t'.

Lemma join_tail_ok segs : tail_ok (join segs).
Proof. destruct segs; [by left|right]. rewrite join_cons. eauto. Qed.

Lemma starts_with_seg x s t :
  noslash x = true -> noslash s = true -> tail_ok t ->
  starts_with (x ++ ["/"%char]) (s ++ t) = (s =s x) && nonempty t.
Proof.
  revert s. induction x as [|a x IH]; intros s Hx Hs Ht; simpl.
  - destruct s as [|b s]; simpl.
    + by destruct Ht as [->|[t' ->]].
    + simpl in Hs. unfold is_slash in Hs.
      rewrite (Ascii.eqb_sym "/" b). destruct (b =c "/"); [done|].
      done.
  - simpl in Hx. apply andb_prop in Hx as [Ha Hx]. apply negb_true_iff in Ha.
    destruct s as [|b s].
    + destruct Ht as [->|[t' ->]]; [done|]. simpl. unfold is_slash in Ha. by rewrite Ha.
    + simpl in Hs. apply andb_prop in Hs as [_ Hs]. simpl. rewrite IH by done.
      rewrite andb_assoc. f_equal. apply eq_true_iff_eq.
      rewrite andb_true_iff, eqc_true, !eqb_bytes_true. naive_solver.
Qed.

Lemma eqb_seg x s t :
  noslash x = true -> noslash s = true -> tail_ok t ->
  (s ++ t =s x) = (s =s x) && negb (nonempty t).
Proof.
  intros Hx Hs [->|[t' ->]]; simpl.
  - by rewrite app_nil_r, andb_true_r.
  - rewrite andb_false_r. apply eqb_bytes_false. intros <-.
    rewrite none_app in Hx. simpl in Hx. by rewrite andb_false_r in Hx.
Qed.

(** What one iteration does with the first segment of an absolute path. *)
Lemma rds_step_seg out s t :
  noslash s = true -> tail_ok t ->
  rds_step out ("/"%char :: s ++ t) =
  if is_dot s then
    (if s =s lit ".." then pop_segment out else out, if nonempty t then t else lit "/")
  else (out ++ "/"%char :: s, t).
Proof.
  intros Hs Ht. unfold rds_step, is_dot.
  assert (Hcons : forall x, ("/"%char :: s ++ t =s "/"%char :: x) = (s ++ t =s x)).
  { intros x. apply eq_true_iff_eq. rewrite !eqb_bytes_true. naive_solver. }
  assert (Hne1 : ("/"%char :: s ++ t =s lit ".") = false) by (by apply eqb_bytes_false).
  assert (Hne2 : ("/"%char :: s ++ t =s lit "..") = false) by (by apply eqb_bytes_false).
  change (starts_with (lit "../") _) with false.
  change (starts_with (lit "./") _) with false.
  change (starts_with (lit "/./") _) with (starts_with (lit "." ++ ["/"%char]) (s ++ t)).
  change (starts_with (lit "/../") _) with (starts_with (lit ".." ++ ["/"%char]) (s ++ t)).
  change (lit "/.") with ("/"%char :: lit ".").
  change (lit "/..") with ("/"%char :: lit "..").
  rewrite !Hcons, Hne1, Hne2, !starts_with_seg, !eqb_seg by done.
  destruct (s =s lit ".") eqn:E1; [apply eqb_bytes_true in E1; subst s|].
  { by destruct Ht as [->|[t' ->]]. }
  destruct (s =s lit "..") eqn:E2; [apply eqb_bytes_true in E2; subst s|].
  { by destruct Ht as [->|[t' ->]]. }
  simpl. rewrite drop_0. destruct Ht as [->|[t' ->]].
  - rewrite app_nil_r. apply find_if_None in Hs. by rewrite Hs.
  - rewrite find_if_mid by done. rewrite take_app_length, drop_app_length. done.
Qed.

Lemma pop_segment_join out :
  Forall (fun x => noslash x = true) out ->
  pop_segment (join (reverse out)) = join (reverse (tail out)).
Proof.
  intros [|s o Hs _]; [done|]. rewrite reverse_cons, join_app, join_cons.
  cbn [tail]. change (join []) with (@nil ascii). rewrite app_nil_r.
  unfold pop_segment. rewrite find_last_if_mid by done. apply take_app_length.
Qed.

Lemma rds_loop_segment out s t :
  noslash s = true -> tail_ok t ->
  rds_loop (length ("/"%char :: s ++ t)) out ("/"%char :: s ++ t) =
  let o' := if is_dot s then (if s =s lit ".." then pop_segment out else out)
            else out ++ "/"%char :: s in
  if is_dot s && negb (nonempty t) then o' ++ lit "/" else rds_loop (length t) o' t.
Proof.
  intros Hs Ht. rewrite rds_loop_cons, rds_step_seg by done.
  destruct (is_dot s); [|done]. by destruct Ht as [->|[t' ->]].
Qed.

Lemma rds_loop_join segs : forall out,
  segs <> [] -> Forall (fun x => noslash x = true) segs ->
  Forall (fun x => noslash x = true) out ->
  rds_loop (length (join segs)) (join (reverse out)) (join segs) =
  join (remove_dots out segs).
Proof.
  induction segs as [|s rest IH]; [done|]. intros out _ [Hs Hrest]%Forall_cons Hout.
  rewrite join_cons, rds_loop_segment by (done || apply join_tail_ok).
  rewrite pop_segment_join by done.
  set (out' := if s =s lit "." then out else if s =s lit ".." then tail out else s :: out).
  assert ((if is_dot s then if s =s lit ".." then join (reverse (tail out))
                            else join (reverse out)
           else join (reverse out) ++ "/"%char :: s) = join (reverse out')) as ->.
  { subst out'. unfold is_dot. destruct (s =s lit ".") eqn:E1.
    - apply eqb_bytes_true in E1 as ->. done.
    - simpl. destruct (s =s lit ".."); [done|].
      rewrite reverse_cons, join_app, join_cons. by rewrite app_nil_r. }
  assert (Forall (fun x => noslash x = true) out').
  { subst out'. repeat case_match; auto. by destruct Hout. }
  destruct rest as [|s2 rest]; cbn [remove_dots].
  - fold (is_dot s). fold out'. simpl. rewrite andb_true_r. destruct (is_dot s); [|done].
    by rewrite reverse_cons, join_app.
  - rewrite join_cons at 1. simpl (nonempty _). rewrite andb_false_r.
    fold out'. apply IH; done.
Qed.

(** ** Round trip

    [url_ok] holds of every URL [parse_url] returns ([parse_url_ok]), except for
    an ['@'] behind an empty user-info; such URLs print to a text that parses back to
    them. *)
Definition host_ok (h : bytes) : Prop :=
  if starts_bracket h then find_if (fun c => c =c "]") h = Some (length h - 1)
  else none (fun c => c =c ":") h = true.

Record authority_ok (u : Url) : Prop := {
  ok_end : none is_authority_end (userinfo u ++ host u ++ port u) = true;
  ok_userinfo : none (fun c => c =c "@") (userinfo u) = true;
  ok_at : userinfo u = [] -> none (fun c => c =c "@") (host u ++ port u) = true;
  ok_host : host_ok (host u);
  ok_host_lower : to_lower (host u) = host u;
  ok_path_abs : head_is is_slash (path u) = true }.

Record url_ok (u : Url) : Prop := {
  ok_scheme : head_is is_scheme_start (scheme u) && forallb is_scheme_char (scheme u) = true;
  ok_scheme_lower : to_lower (scheme u) = scheme u;
  ok_authority : has_authority u = true -> authority_ok u;
  ok_no_authority : has_authority u = false ->
    userinfo u = [] /\ host u = [] /\ port u = [] /\ starts_with (lit "//") (path u) = false;
  ok_relative : scheme u = [] -> has_authority u = false -> scheme_length (path u) = None;
  ok_path : none (fun c => (c =c "?") || (c =c "#")) (path u) = true;
  ok_query : none (fun c => c =c "#") (query u) = true;
  ok_has_query : has_query u = false -> query u = [];
  ok_has_fragment : has_fragment u = false -> fragment u = [] }.

(** The text behind the path. *)
Definition suffix (u : Url) : bytes :=
  opt_bytes (has_query u) ("?"%char :: query u) ++
  opt_bytes (has_fragment u) ("#"%char :: fragment u).

Definition is_mark (c : ascii) : bool := (c =c "?") || (c =c "#").

Lemma suffix_head u : head_is is_mark (suffix u) = true.
Proof. unfold suffix. destruct (has_query u), (has_fragment u); done. Qed.

Lemma scheme_char_not_colon c : is_scheme_char c = true -> (c =c ":") = false.
Proof. by_ascii c. Qed.

Lemma mark_not_scheme c : is_mark c = true -> is_scheme_char c = false.
Proof. by_ascii c. Qed.

Lemma mark_not_start c : is_mark c = true -> is_scheme_start c = false.
Proof. by_ascii c. Qed.

Lemma none_colon_scheme s :
  forallb is_scheme_char s = true -> none (fun c => c =c ":") s = true.
Proof.
  induction s as [|c s IH]; simpl; [done|]. intros [Hc Hs]%andb_prop.
  by rewrite scheme_char_not_colon, IH.
Qed.

Lemma split_scheme_app sch rest :
  sch <> [] -> head_is is_scheme_start sch = true -> forallb is_scheme_char sch = true ->
  to_lower sch = sch -> split_scheme (sch ++ ":"%char :: rest) = (sch, rest).
Proof.
  intros Hne Hh Hc Hl. unfold split_scheme, scheme_length.
  rewrite find_if_mid by (done || by apply none_colon_scheme).
  destruct sch as [|c sch]; [done|]. cbn [app]. simpl in Hh. rewrite Hh.
  change (c :: sch ++ ":"%char :: rest) with ((c :: sch) ++ ":"%char :: rest).
  change (length (c :: sch)) with (S (length sch)). cbn [length].
  change (S (length sch)) with (length (c :: sch)).
  rewrite take_app_length, Hc. cbn [andb].
  rewrite take_app_length, Hl. do 2 f_equal.
  rewrite (drop_app_ge _ (":"%char :: rest)) by (simpl; lia).
  replace (length (c :: sch) + 1 - length (c :: sch)) with 1 by lia. done.
Qed.

(** A mark ends the part of a relative reference in which a colon could be taken
    for the end of a scheme. *)
Lemma scheme_length_mark p t :
  head_is is_mark t = true -> scheme_length p = None -> scheme_length (p ++ t) = None.
Proof.
  intros Ht Hp. unfold scheme_length in *.
  destruct (find_if (fun c => c =c ":") p) as [n|] eqn:Hf.
  - pose proof (find_if_lt _ _ _ Hf) as Hlt.
    rewrite (find_if_app_l _ _ _ _ Hf). destruct n as [|n]; [done|].
    destruct p as [|c p]; [done|]. cbn [app].
    change (c :: p ++ t) with ((c :: p) ++ t). rewrite take_app_le by lia. done.
  - apply find_if_None in Hf. rewrite find_if_app by done.
    destruct t as [|m t]; [done|]. simpl in Ht. cbn [find_if].
    destruct (m =c ":") eqn:Em.
    { apply eqc_true in Em as ->. discriminate. }
    destruct (find_if _ t) as [k|]; [|done]. simpl.
    destruct (length p + S k) as [|j] eqn:Ej; [done|].
    destruct (p ++ m :: t) as [|c l] eqn:El; [done|]. rewrite <- El.
    assert (is_scheme_start c = false \/
            forallb is_scheme_char (take (S j) (p ++ m :: t)) = false) as [-> | ->];
      [|done|by rewrite andb_false_r].
    right. rewrite take_app_ge by lia. replace (S j - length p) with (S k) by lia.
    rewrite forallb_app. simpl. rewrite (mark_not_scheme m) by done. by rewrite andb_false_r.
Qed.

Lemma cut_at_app p a t :
  none p a = true -> head_is p t = true -> cut_at p (a ++ t) = (a, t).
Proof.
  intros Ha Ht. unfold cut_at. rewrite find_if_head by done. destruct t as [|c t].
  - by rewrite app_nil_r.
  - by rewrite take_app_length, drop_app_length.
Qed.

Lemma cut_off_mid p a c t :
  none p a = true -> p c = true -> cut_off p (a ++ c :: t) = (a, t, true).
Proof.
  intros Ha Hc. unfold cut_off. rewrite find_if_mid by done.
  by rewrite take_app_length, drop_app_S.
Qed.

Lemma cut_off_none p a : none p a = true -> cut_off p a = (a, [], false).
Proof. intros Ha. unfold cut_off. apply find_if_None in Ha. by rewrite Ha. Qed.

Lemma split_host_port_app u :
  host_ok (host u) ->
  split_host_port (host u ++ opt_bytes (nonempty (port u)) (":"%char :: port u)) =
  Ret (host u, port u).
Proof.
  unfold host_ok, split_host_port. intros Hh.
  destruct (starts_bracket (host u)) eqn:Hb.
  - assert (starts_bracket (host u ++ opt_bytes (nonempty (port u)) (":"%char :: port u)) = true) as ->.
    { destruct (host u); done. }
    pose proof (find_if_lt _ _ _ Hh) as Hlt.
    rewrite (find_if_app_l _ _ _ _ Hh).
    replace (length (host u) - 1 + 1) with (length (host u)) by lia.
    rewrite take_app_length, drop_app_length. by destruct (port u).
  - assert (starts_bracket (host u ++ opt_bytes (nonempty (port u)) (":"%char :: port u)) = false) as ->.
    { destruct (host u); [by destruct (port u)|done]. }
    destruct (port u) as [|c p]; simpl.
    + by rewrite app_nil_r, cut_off_none.
    + by rewrite cut_off_mid.
Qed.

Lemma authority_string_head u :
  authority_ok u -> none is_authority_end (authority_string u) = true.
Proof.
  intros Ha. pose proof (ok_end u Ha) as He. rewrite !none_app in He. split_andb.
  unfold authority_string. rewrite !none_app.
  destruct (userinfo u), (port u); simpl in *; split_andb;
    repeat (apply andb_true_intro; split); auto; rewrite ?none_app; simpl;
    repeat (apply andb_true_intro; split); auto; by apply negb_true_iff.
Qed.

Lemma parse_authority_string u :
  authority_ok u -> parse_authority (authority_string u) = Ret (userinfo u, host u, port u).
Proof.
  intros Ha. unfold parse_authority, authority_string, split_userinfo.
  destruct (userinfo u) as [|c ui] eqn:Eui; cbn [opt_bytes nonempty].
  - rewrite app_nil_l. pose proof (ok_at u Ha Eui) as Hat.
    assert (find_if (fun c => c =c "@")
      (host u ++ opt_bytes (nonempty (port u)) (":"%char :: port u)) = None) as ->.
    { apply find_if_None. rewrite !none_app in *. split_andb.
      destruct (port u); simpl in *; split_andb; repeat (apply andb_true_intro; split); auto;
      by apply negb_true_iff. }
    rewrite split_host_port_app by apply Ha. simpl. by rewrite (ok_host_lower u Ha).
  - rewrite <- app_assoc. cbn [app lit String.list_ascii_of_string].
    change (c :: ui ++ lit "@" ++ ?t) with ((c :: ui) ++ "@"%char :: t).
    pose proof (ok_userinfo u Ha) as Hat. rewrite Eui in Hat.
    rewrite find_if_mid by done. rewrite take_app_length, drop_app_S.
    rewrite split_host_port_app by apply Ha. simpl. by rewrite (ok_host_lower u Ha).
Qed.

Lemma to_string_suffix u :
  to_string u =
  opt_bytes (nonempty (scheme u)) (scheme u ++ lit ":") ++
  opt_bytes (has_authority u) (lit "//" ++ authority_string u) ++ path u ++ suffix u.
Proof. unfold to_string, suffix. by rewrite <- ?app_assoc. Qed.

Lemma split_scheme_to_string u :
  url_ok u ->
  split_scheme (to_string u) =
  (scheme u, opt_bytes (has_authority u) (lit "//" ++ authority_string u) ++ path u ++ suffix u).
Proof.
  intros Hu. rewrite to_string_suffix. pose proof (ok_scheme u Hu) as Hs.
  pose proof (ok_scheme_lower u Hu) as Hl. pose proof (ok_relative u Hu) as Hr.
  destruct (scheme u) as [|c sch] eqn:E; cbn [opt_bytes nonempty].
  - rewrite app_nil_l. unfold split_scheme. destruct (has_authority u); simpl.
    + unfold scheme_length. simpl. by destruct (find_if _ _).
    + by rewrite scheme_length_mark by (apply suffix_head || by apply Hr).
  - rewrite <- app_assoc. apply andb_prop in Hs as [Hh Hc].
    by apply (split_scheme_app (c :: sch)).
Qed.

(** The stages behind the authority. *)
Lemma cut_suffix u :
  url_ok u ->
  cut_off (fun c => c =c "#") (path u ++ suffix u) =
    (path u ++ opt_bytes (has_query u) ("?"%char :: query u), fragment u, has_fragment u) /\
  cut_off (fun c => c =c "?") (path u ++ opt_bytes (has_query u) ("?"%char :: query u)) =
    (path u, query u, has_query u).
Proof.
  intros Hu. pose proof (ok_path u Hu) as Hp. pose proof (ok_query u Hu) as Hq.
  assert (none (fun c => c =c "?") (path u) = true) as Hp1.
  { revert Hp. apply none_impl. intros c ->. done. }
  assert (none (fun c => c =c "#") (path u ++ opt_bytes (has_query u) ("?"%char :: query u)) = true) as Hp2.
  { rewrite none_app. apply andb_true_intro. split.
    - revert Hp. apply none_impl. intros c ->. by rewrite orb_true_r.
    - by destruct (has_query u). }
  unfold suffix. split.
  - rewrite app_assoc. destruct (has_fragment u) eqn:Ef; simpl.
    + by rewrite cut_off_mid.
    + by rewrite app_nil_r, cut_off_none, (ok_has_fragment u Hu).
  - destruct (has_query u) eqn:Eq; simpl.
    + by rewrite cut_off_mid.
    + by rewrite app_nil_r, cut_off_none, (ok_has_query u Hu).
Qed.

Lemma parse_to_string u : url_ok u -> parse_url (to_string u) = Ret u.
Proof.
  intros Hu. unfold parse_url. rewrite split_scheme_to_string by done.
  destruct (cut_suffix u Hu) as [Hf Hq].
  destruct (has_authority u) eqn:Ea; cbn [opt_bytes].
  - pose proof (ok_authority u Hu Ea) as Ha. rewrite <- app_assoc, starts_with_app.
    change (drop 2 (lit "//" ++ ?t)) with t.
    rewrite cut_at_app.
    + rewrite parse_authority_string by done. simpl. rewrite Hf, Hq.
      destruct u; simpl in *; by subst.
    + by apply authority_string_head.
    + pose proof (ok_path_abs u Ha) as Hp. pose proof (suffix_head u) as Hs.
      unfold head_is, is_authority_end, is_mark in *.
      destruct (path u) as [|c p]; simpl; [|by rewrite Hp].
      destruct (suffix u) as [|c s]; [done|]. rewrite <- orb_assoc, Hs. apply orb_true_r.
  - destruct (ok_no_authority u Hu Ea) as (H1 & H2 & H3 & H4).
    rewrite app_nil_l.
    assert (starts_with (lit "//") (path u ++ suffix u) = false) as ->.
    { pose proof (suffix_head u) as Hs. unfold head_is, is_mark in Hs.
      destruct (path u) as [|c [|c2 p]] eqn:Ep; simpl in *.
      - destruct (suffix u) as [|m t]; [done|]. simpl.
        destruct ("/" =c m) eqn:E; [|done]. apply eqc_true in E as <-. done.
      - destruct (suffix u) as [|m t]; simpl; [by rewrite andb_false_r|].
        destruct ("/" =c m) eqn:E; [apply eqc_true in E as <-; done|].
        by rewrite andb_false_r.
      - done. }
    simpl. rewrite Hf, Hq. destruct u; simpl in *; by subst.
Qed.

(** *** What the stages return *)

Lemma cut_off_spec p s a b f :
  cut_off p s = (a, b, f) ->
  none p a = true /\ (if f then exists c, p c = true /\ s = a ++ c :: b else s = a /\ b = []).
Proof.
  unfold cut_off. destruct (find_if p s) as [n|] eqn:Hf; intros [= <- <- <-].
  - apply find_if_Some in Hf as (c & H & Hn & Ha & Hc). split; [done|].
    exists c. by rewrite Nat.add_1_r.
  - apply find_if_None in Hf. done.
Qed.

Lemma cut_at_spec p s a t :
  cut_at p s = (a, t) -> s = a ++ t /\ none p a = true /\ head_is p t = true.
Proof.
  unfold cut_at. destruct (find_if p s) as [n|] eqn:Hf; intros [= <- <-].
  - apply find_if_Some in Hf as (c & H & Hn & Ha & Hc).
    split_and!; [by rewrite take_drop|done|].
    rewrite H. rewrite drop_app_ge; rewrite length_take_le by lia; [|lia].
    by rewrite Nat.sub_diag.
  - apply find_if_None in Hf. by rewrite app_nil_r.
Qed.

Lemma split_scheme_spec s sch rest :
  split_scheme s = (sch, rest) ->
  (sch = [] /\ rest = s /\ scheme_length s = None) \/
  (head_is is_scheme_start sch && forallb is_scheme_char sch = true /\
   to_lower sch = sch /\ sch <> []).
Proof.
  unfold split_scheme. destruct (scheme_length s) as [n|] eqn:Hl; intros [= <- <-];
    [right|by left].
  unfold scheme_length in Hl. destruct (find_if _ s) as [[|m]|]; [done| |done].
  destruct s as [|c s]; [done|].
  destruct (is_scheme_start c && _) eqn:Hc; [|done]. injection Hl as <-.
  apply andb_prop in Hc as [Hc Hs]. split_and!; [|apply to_lower_idemp|done].
  rewrite forallb_to_lower, Hs by (intros d; by_ascii d). cbn [take to_lower map head_is].
  rewrite andb_true_r. revert Hc. by_ascii c.
Qed.

Lemma scheme_length_prefix p t n :
  scheme_length p = Some n -> scheme_length (p ++ t) = Some n.
Proof.
  unfold scheme_length. destruct (find_if _ p) as [[|m]|] eqn:Hf; [done| |done].
  rewrite (find_if_app_l _ _ _ _ Hf). apply find_if_lt in Hf.
  destruct p as [|c p]; [done|]. cbn [app].
  change (c :: p ++ t) with ((c :: p) ++ t). by rewrite take_app_le by lia.
Qed.

Lemma starts_with_prefix pre a b :
  starts_with pre a = true -> starts_with pre (a ++ b) = true.
Proof.
  revert a. induction pre as [|c pre IH]; intros [|d a]; simpl; try done.
  intros [-> H]%andb_prop. by rewrite IH.
Qed.

Lemma split_host_port_spec a h p :
  split_host_port a = Ret (h, p) ->
  host_ok h /\ exists t, a = h ++ t /\ (p = [] \/ t = ":"%char :: p).
Proof.
  unfold split_host_port, host_ok. destruct (starts_bracket a) eqn:Hb.
  - destruct (find_if _ a) as [n|] eqn:Hf; [|done]. intros [= <- <-].
    pose proof (find_if_lt _ _ _ Hf) as Hlt.
    assert (starts_bracket (take (n + 1) a) = true) as ->.
    { destruct a; [done|]. by rewrite Nat.add_1_r. }
    split.
    + rewrite length_take_le by lia. replace (n + 1 - 1) with n by lia.
      apply find_if_Some in Hf as (c & H & _ & Ha & Hc). apply find_if_Some. exists c.
      rewrite length_take_le by lia. rewrite take_take, Nat.min_l by lia.
      split_and!; [|lia|done|done].
      rewrite H at 1. rewrite take_app_ge; rewrite length_take_le by lia; [|lia].
      rewrite (drop_ge (take _ _)); [|rewrite length_take_le; lia].
      by replace (n + 1 - n) with 1 by lia.
    + exists (drop (n + 1) a). rewrite take_drop. split; [done|].
      destruct (drop (n + 1) a) as [|c t]; [by left|].
      destruct (c =c ":") eqn:Ec; [right|by left]. by apply eqc_true in Ec as ->.
  - destruct (cut_off _ a) as [[h' p'] f] eqn:Hc. intros [= -> ->].
    apply cut_off_spec in Hc as [Hh Hf]. split.
    + destruct (starts_bracket h) eqn:E; [|done].
      destruct h as [|c h]; [done|]. destruct f; [destruct Hf as (? & _ & ->)|destruct Hf as [-> _]];
      simpl in *; congruence.
    + destruct f.
      * destruct Hf as (c & Hc & ->). apply eqc_true in Hc as ->. eauto.
      * destruct Hf as [-> ->]. exists []. rewrite app_nil_r. auto.
Qed.

Lemma host_ok_to_lower h : host_ok h -> host_ok (to_lower h).
Proof.
  unfold host_ok. rewrite length_to_lower, find_if_to_lower by (intros c; by_ascii c).
  rewrite forallb_to_lower by (intros c; by_ascii c).
  assert (starts_bracket (to_lower h) = starts_bracket h) as ->; [|done].
  destruct h as [|c h]; [done|]. simpl. by_ascii c.
Qed.

Lemma parse_authority_spec a ui h p :
  parse_authority a = Ret (ui, h, p) ->
  none (fun c => c =c "@") ui = true /\ host_ok h /\ to_lower h = h /\
  (none is_authority_end a = true -> none is_authority_end (ui ++ h ++ p) = true).
Proof.
  unfold parse_authority. destruct (split_userinfo a) as [ui' a'] eqn:Hu. intros H.
  apply bind_Ret in H as ([h' p'] & Hhp & [= -> <- ->]).
  apply split_host_port_spec in Hhp as (Hh & t & -> & Ht).
  assert (none (fun c => c =c "@") ui = true /\
          (none is_authority_end a = true -> none is_authority_end (ui ++ h' ++ t) = true))
    as [Hat Hend].
  { unfold split_userinfo in Hu. destruct (find_if _ a) as [n|] eqn:Hf; injection Hu as <- Hu.
    - apply find_if_Some in Hf as (c & H & _ & Hn & _). split; [done|].
      rewrite <- Hu, none_app. intros Ha.
      by rewrite none_take, none_drop by done.
    - split; [done|]. by rewrite Hu. }
  split_and!; auto using host_ok_to_lower, to_lower_idemp.
  intros Ha. apply Hend in Ha. rewrite !none_app in *. split_andb.
  rewrite forallb_to_lower by (intros c; by_ascii c).
  repeat (apply andb_true_intro; split); auto.
  destruct Ht as [->| ->]; [done|]. simpl in *. by split_andb.
Qed.

(** The user-info is not an empty one in front of a second ['@']. *)
Definition at_ok (u : Url) : Prop :=
  userinfo u = [] -> none (fun c => c =c "@") (host u ++ port u) = true.

Lemma parse_url_ok s u : parse_url s = Ret u -> at_ok u -> url_ok u.
Proof.
  unfold parse_url. destruct (split_scheme s) as [sch rest] eqn:Hs.
  set (auth := starts_with (lit "//") rest).
  destruct (if auth then _ else _) as [authority rest2] eqn:Ha. intros H Hat.
  apply bind_Ret in H as ([[ui h] p] & Hp & H).
  destruct (cut_off _ rest2) as [[rest3 frag] hf] eqn:Hc1.
  destruct (cut_off _ rest3) as [[pth q] hq] eqn:Hc2. injection H as <-.
  apply cut_off_spec in Hc1 as [Hn1 Hc1]. apply cut_off_spec in Hc2 as [Hn2 Hc2].
  assert (exists t, rest3 = pth ++ t) as [t3 Ht3].
  { destruct hq; [destruct Hc2 as (? & _ & ->)|destruct Hc2 as [-> _]]; eauto using app_nil_r. }
  assert (exists t, rest2 = pth ++ t) as [t2 Ht2].
  { destruct hf; [destruct Hc1 as (? & _ & ->)|destruct Hc1 as [-> _]]; subst; eauto.
    rewrite <- app_assoc. eauto. }
  assert (Hpath : none (fun c => (c =c "?") || (c =c "#")) pth = true).
  { rewrite Ht3, none_app in Hn1. apply andb_prop in Hn1 as [Hn1 _].
    clear -Hn1 Hn2. induction pth; simpl in *; [done|]. split_andb.
    rewrite IHpth, H1, H by done. done. }
  assert (Hq : none (fun c => c =c "#") q = true).
  { destruct hq; [|by destruct Hc2 as [_ ->]]. destruct Hc2 as (c & _ & ->).
    rewrite none_app in Hn1. simpl in Hn1. by split_andb. }
  apply split_scheme_spec in Hs.
  constructor; simpl.
  - by destruct Hs as [(-> & _ & _)|[? _]].
  - by destruct Hs as [(-> & _ & _)|(_ & ? & _)].
  - intros E. fold auth in E. rewrite E in Ha, Hp. apply cut_at_spec in Ha as (Ha & Hend & Hh).
    apply parse_authority_spec in Hp as (? & ? & ? & He). constructor; simpl; auto.
    rewrite Ht2 in Hh. destruct pth as [|c pth]; [done|]. simpl in *.
    unfold is_authority_end in Hh. split_andb. apply orb_false_iff in H2 as [E1 E2].
    by rewrite E1, E2, !orb_false_r in Hh.
  - intros E. fold auth in E. rewrite E in Ha, Hp. injection Hp as <- <- <-. split_and!; auto.
    injection Ha as <- <-. change (starts_with (lit "//") pth = false).
    destruct (starts_with _ pth) eqn:Es; [|done].
    unfold auth in E. by rewrite Ht2, (starts_with_prefix _ _ t2 Es) in E.
  - intros -> E. fold auth in E. rewrite E in Ha. injection Ha as <- <-.
    destruct Hs as [(_ & Hrs & Hl)|(_ & _ & Hne)]; [|done].
    destruct (scheme_length pth) eqn:El; [|done].
    by rewrite <- Hrs, Ht2, (scheme_length_prefix _ t2 _ El) in Hl.
  - done.
  - done.
  - intros ->. by destruct Hc2.
  - intros ->. by destruct Hc1.
Qed.

(** ** The segment reference *)

Lemma remove_dots_Forall (P : bytes -> Prop) segs : forall out,
  P [] -> Forall P out -> Forall (fun s => is_dot s = true \/ P s) segs ->
  Forall P (remove_dots out segs).
Proof.
  induction segs as [|s rest IH]; intros out Hnil Hout Hsegs; cbn [remove_dots].
  { by apply Forall_reverse. }
  apply Forall_cons in Hsegs as [Hs Hrest].
  set (out' := if s =s lit "." then out else if s =s lit ".." then tail out else s :: out).
  assert (Forall P out').
  { subst out'. unfold is_dot in Hs. destruct (s =s lit "."); [done|].
    destruct (s =s lit ".."); [by destruct Hout|]. constructor; [|done].
    by destruct Hs. }
  destruct rest as [|s2 rest]; [|by apply IH].
  destruct (_ || _); apply Forall_reverse; auto.
Qed.

Lemma remove_dots_id segs : forall out,
  Forall (fun s => is_dot s = false) segs -> remove_dots out segs = reverse out ++ segs.
Proof.
  induction segs as [|s rest IH]; intros out Hs; cbn [remove_dots].
  { by rewrite app_nil_r. }
  apply Forall_cons in Hs as [Hs Hrest]. unfold is_dot in Hs. rewrite Hs.
  apply orb_false_iff in Hs as [-> ->].
  destruct rest as [|s2 rest]; [by rewrite reverse_cons|].
  rewrite IH by done. by rewrite reverse_cons, <- app_assoc.
Qed.

Lemma remove_dots_nonempty segs : forall out,
  segs <> [] -> remove_dots out segs <> [].
Proof.
  induction segs as [|s rest IH]; [done|]. intros out _. cbn [remove_dots].
  destruct rest as [|s2 rest]; [|by apply IH].
  destruct (s =s lit "."), (s =s lit ".."); cbn [orb];
    rewrite reverse_cons; intros E; by apply app_nil in E as [_ E].
Qed.

Lemma segments_from_app cur s t :
  noslash s = true -> segments_from cur (s ++ t) = segments_from (cur ++ s) t.
Proof.
  revert cur. induction s as [|c s IH]; intros cur Hs; simpl.
  - by rewrite app_nil_r.
  - simpl in Hs. split_andb. rewrite H. rewrite IH by done. by rewrite <- app_assoc.
Qed.

Lemma segments_join segs :
  Forall (fun x => noslash x = true) segs -> segments (join segs) = segs.
Proof.
  intros [|s rest Hs Hrest]; [done|]. rewrite join_cons. cbn [segments].
  revert s Hs. induction Hrest as [|s2 rest Hs2 Hrest IH]; intros s Hs.
  - rewrite segments_from_app by done. done.
  - rewrite segments_from_app by done. rewrite join_cons.
    change (segments_from ([] ++ s) ("/"%char :: s2 ++ join rest)) with
      (s :: segments_from [] (s2 ++ join rest)). by rewrite IH.
Qed.

Lemma remove_dots_noslash p :
  Forall (fun x => noslash x = true) (remove_dots [] (segments p)).
Proof.
  apply remove_dots_Forall; [done|constructor|].
  eapply Forall_impl; [apply segments_noslash|]. simpl. auto.
Qed.

Lemma remove_dots_clean segs out :
  Forall (fun s => is_dot s = false) out ->
  Forall (fun s => is_dot s = false) (remove_dots out segs).
Proof.
  intros Hout. apply remove_dots_Forall; [done|done|].
  apply Forall_forall. intros s _. destruct (is_dot s); auto.
Qed.

Lemma none_join p segs :
  p "/"%char = false -> none p (join segs) = true <-> Forall (fun s => none p s = true) segs.
Proof.
  intros Hp. induction segs as [|s segs IH]; [done|].
  rewrite join_cons, Forall_cons, <- IH. simpl. rewrite Hp, none_app. simpl. apply andb_true_iff.
Qed.

Lemma segments_from_not_nil cur s : segments_from cur s <> [].
Proof.
  revert cur. induction s as [|c s IH]; intros cur; simpl; [done|].
  destruct (is_slash c); [done|apply IH].
Qed.

(** The loop on an absolute path. *)
Lemma remove_dot_segments_join p :
  absolute_path p = true -> remove_dot_segments p = join (remove_dots [] (segments p)).
Proof.
  intros Hp. destruct p as [|c p]; [done|].
  unfold remove_dot_segments. rewrite <- (join_segments (c :: p)) at 1 2 by done.
  apply (rds_loop_join (segments (c :: p)) []); [|apply segments_noslash|constructor].
  apply segments_from_not_nil.
Qed.

Lemma segments_remove_dot_segments p :
  absolute_path p = true -> segments (remove_dot_segments p) = remove_dots [] (segments p).
Proof.
  intros Hp. rewrite remove_dot_segments_join by done.
  apply segments_join, remove_dots_noslash.
Qed.

Lemma segments_nil p : segments p = [] -> p = [].
Proof. destruct p as [|c p]; [done|]. intros E. by apply segments_from_not_nil in E. Qed.

Lemma remove_dot_segments_abs p :
  absolute_path p = true ->
  absolute_path (remove_dot_segments p) = true /\ (p <> [] -> remove_dot_segments p <> []).
Proof.
  intros Hp. rewrite remove_dot_segments_join by done. split.
  - by destruct (join_tail_ok (remove_dots [] (segments p))) as [->|[t ->]].
  - intros Hne E. destruct (remove_dots [] (segments p)) eqn:Er; [|done].
    revert Er. apply remove_dots_nonempty. intros E2. by apply segments_nil in E2.
Qed.

Lemma remove_dot_segments_none q p :
  q "/"%char = false -> absolute_path p = true -> none q p = true ->
  none q (remove_dot_segments p) = true.
Proof.
  intros Hq Hp Hn. rewrite remove_dot_segments_join by done. apply none_join; [done|].
  apply remove_dots_Forall; [done|constructor|].
  rewrite <- (join_segments p), none_join in Hn by done.
  eapply Forall_impl; [apply Hn|]. simpl. auto.
Qed.

Lemma remove_dot_segments_idem p :
  absolute_path p = true ->
  remove_dot_segments (remove_dot_segments p) = remove_dot_segments p.
Proof.
  intros Hp. destruct (remove_dot_segments_abs p Hp) as [Ha _].
  rewrite (remove_dot_segments_join (remove_dot_segments p)) by done.
  rewrite segments_remove_dot_segments, remove_dots_id by (done || apply remove_dots_clean; constructor).
  by rewrite remove_dot_segments_join.
Qed.

(** ** What normalisation and resolution keep *)

Lemma absolute_path_head p : absolute_path p = head_is is_slash p.
Proof. by destruct p. Qed.

Lemma authority_ok_with u v :
  authority_ok u -> userinfo v = userinfo u -> host v = host u ->
  (port v = port u \/ port v = []) -> head_is is_slash (path v) = true -> authority_ok v.
Proof.
  intros [H1 H2 H3 H4 H5 H6] Eu Eh Ep Hp.
  constructor; rewrite ?Eu, ?Eh; try done.
  - destruct Ep as [-> | ->]; [done|]. rewrite !none_app in *. simpl. split_andb.
    by rewrite H, H0.
  - intros E. destruct Ep as [-> | ->]; [auto|]. specialize (H3 E).
    rewrite none_app in *. simpl. by apply andb_prop in H3 as [-> _].
Qed.

Lemma default_path_none p u : p "/"%char = false -> none p (path u) = true ->
  none p (path (default_path u)) = true.
Proof. unfold default_path. intros Hp Hn. destruct (_ && _); simpl; by rewrite ?Hp. Qed.

Lemma mark_slash : (fun c => (c =c "?") || (c =c "#")) "/"%char = false.
Proof. done. Qed.

(** A hierarchical URL is well formed as soon as its parts are. *)
Lemma hierarchical_ok u :
  has_authority u = true ->
  head_is is_scheme_start (scheme u) && forallb is_scheme_char (scheme u) = true ->
  to_lower (scheme u) = scheme u -> authority_ok u ->
  none (fun c => (c =c "?") || (c =c "#")) (path u) = true ->
  none (fun c => c =c "#") (query u) = true ->
  (has_query u = false -> query u = []) -> (has_fragment u = false -> fragment u = []) ->
  url_ok u.
Proof. intros Ha. intros. constructor; auto; congruence. Qed.

Lemma normalize_fields u :
  url_ok u -> has_authority u = true ->
  let v := normalize u in
  scheme v = scheme u /\ userinfo v = userinfo u /\ host v = host u /\
  (port v = port u \/ port v = []) /\ query v = query u /\ fragment v = fragment u /\
  has_authority v = true /\ has_query v = has_query u /\ has_fragment v = has_fragment u /\
  path v = match remove_dot_segments (path u) with [] => lit "/" | p => p end.
Proof.
  intros Hu Ha. pose proof (ok_authority u Hu Ha) as Hau.
  unfold normalize, default_path. cbn [scheme port].
  rewrite (ok_scheme_lower u Hu), (ok_host_lower u Hau).
  destruct (_ || _); simpl; rewrite Ha; simpl;
  destruct (remove_dot_segments (path u)); simpl; rewrite ?Ha; split_and!; auto.
Qed.

Lemma normalize_ok u : url_ok u -> has_authority u = true -> url_ok (normalize u).
Proof.
  intros Hu Ha. pose proof (ok_authority u Hu Ha) as Hau.
  pose proof (normalize_fields u Hu Ha) as (E1 & E2 & E3 & E4 & E5 & E6 & E7 & E8 & E9 & E10).
  pose proof (ok_path_abs u Hau) as Hp. rewrite <- absolute_path_head in Hp.
  destruct (remove_dot_segments_abs (path u) Hp) as [Habs _].
  pose proof (remove_dot_segments_none _ _ mark_slash Hp (ok_path u Hu)) as Hn.
  apply hierarchical_ok; rewrite ?E1, ?E5, ?E6, ?E8, ?E9; try apply Hu; auto.
  - eapply authority_ok_with; eauto. rewrite E10.
    by destruct (remove_dot_segments (path u)).
  - rewrite E10. by destruct (remove_dot_segments (path u)).
Qed.

Lemma normalize_idem u :
  url_ok u -> has_authority u = true -> normalize (normalize u) = normalize u.
Proof.
  intros Hu Ha. pose proof (ok_authority u Hu Ha) as Hau.
  pose proof (normalize_fields u Hu Ha) as (E1 & E2 & E3 & E4 & E5 & E6 & E7 & E8 & E9 & E10).
  pose proof (ok_path_abs u Hau) as Hp. rewrite <- absolute_path_head in Hp.
  destruct (remove_dot_segments_abs (path u) Hp) as [Habs _].
  assert (Hpath : remove_dot_segments (path (normalize u)) = path (normalize u) /\
                  path (normalize u) <> []).
  { rewrite E10. pose proof (remove_dot_segments_idem _ Hp) as Hi.
    destruct (remove_dot_segments (path u)); done. }
  destruct Hpath as [Hpath Hne].
  unfold normalize at 1. cbn [scheme port]. rewrite Hpath, E1, E3, E7, E8, E9, E2, E5, E6.
  rewrite (ok_scheme_lower u Hu), (ok_host_lower u Hau).
  assert (Hport : ((scheme u =s lit "http") && (port (normalize u) =s lit "80") ||
                   (scheme u =s lit "https") && (port (normalize u) =s lit "443")) = true ->
                  False).
  { clear E4. unfold normalize. cbn [scheme port]. rewrite (ok_scheme_lower u Hu).
    destruct ((scheme u =s lit "http") && (port u =s lit "80") ||
              (scheme u =s lit "https") && (port u =s lit "443")) eqn:E;
    unfold default_path; destruct (has_authority _ && _); simpl; rewrite ?E; try done;
    by rewrite !(proj2 (eqb_bytes_false [] _)), !andb_false_r by done. }
  destruct (_ || _); [by destruct Hport|].
  unfold default_path. cbn [has_authority path].
  rewrite (proj2 (eqb_bytes_false (path (normalize u)) [])) by done.
  rewrite andb_false_r. destruct (normalize u); simpl in *. by subst.
Qed.

(** The path [resolve_url] computes for a relative reference against a hierarchical
    base, before the second dot removal. *)
Lemma merge_paths_ok base r :
  url_ok base -> has_authority base = true ->
  none (fun c => (c =c "?") || (c =c "#")) r = true ->
  absolute_path (merge_paths base r) = true /\
  none (fun c => (c =c "?") || (c =c "#")) (merge_paths base r) = true.
Proof.
  intros Hb Ha Hr. pose proof (ok_path_abs base (ok_authority base Hb Ha)) as Hp.
  unfold merge_paths. rewrite Ha. destruct (path base) as [|c p] eqn:Ep; [done|].
  cbn [andb]. rewrite (proj2 (eqb_bytes_false (c :: p) [])) by done.
  destruct (find_last_if is_slash (c :: p)) as [n|] eqn:Hf.
  - rewrite Nat.add_1_r. split; [done|]. rewrite none_app, Hr, andb_true_r.
    rewrite <- Ep. apply none_take, Hb.
  - apply find_last_if_None in Hf. simpl in *. by rewrite Hp in Hf.
Qed.

Lemma resolve_ref_ok base ref :
  url_ok base -> has_authority base = true -> scheme base <> [] -> url_ok ref -> scheme ref = [] ->
  let t := resolve_ref base ref in
  url_ok t /\ has_authority t = true /\ scheme t = scheme base /\
  fragment t = fragment ref /\ has_fragment t = has_fragment ref /\
  (userinfo t, host t, port t) =
    (if has_authority ref then (userinfo ref, host ref, port ref)
     else (userinfo base, host base, port base)).
Proof.
  intros Hb Ha Hs Hr Er. pose proof (ok_authority base Hb Ha) as Hba.
  pose proof (ok_path_abs base Hba) as Hbp. rewrite <- absolute_path_head in Hbp.
  unfold resolve_ref. rewrite Er. cbn [nonempty].
  destruct (has_authority ref) eqn:Hra.
  - pose proof (ok_authority ref Hr Hra) as Har.
    pose proof (ok_path_abs ref Har) as Hp. rewrite <- absolute_path_head in Hp.
    destruct (remove_dot_segments_abs _ Hp) as [Habs _].
    split; [|done]. apply hierarchical_ok; simpl; try apply Hb; try apply Hr; auto.
    + eapply authority_ok_with; eauto.
    + apply remove_dot_segments_none; [done|done|apply Hr].
  - set (m := match path ref with [] => _ | _ => _ end).
    assert (Hm : absolute_path m.1.1 = true /\
                 none (fun c => (c =c "?") || (c =c "#")) m.1.1 = true /\
                 none (fun c => c =c "#") m.1.2 = true /\ (m.2 = false -> m.1.2 = [])).
    { subst m. destruct (path ref) as [|c p] eqn:Ep; cbn [fst snd].
      - split_and!; [done|apply Hb|destruct (has_query ref); [apply Hr|apply Hb]|].
        destruct (has_query ref); [done|apply Hb].
      - assert (exists q, absolute_path q = true /\
            none (fun c => (c =c "?") || (c =c "#")) q = true /\
            (if is_slash c then remove_dot_segments (c :: p)
             else remove_dot_segments (merge_paths base (c :: p))) = remove_dot_segments q)
          as (q & Hq & Hqn & ->).
        { pose proof (ok_path ref Hr) as Hn. rewrite Ep in Hn.
          destruct (is_slash c) eqn:Hc; [by exists (c :: p)|].
          exists (merge_paths base (c :: p)). by destruct (merge_paths_ok base (c :: p) Hb Ha Hn). }
        destruct (remove_dot_segments_abs _ Hq) as [Habs _].
        split_and!; [done|by apply remove_dot_segments_none|apply Hr|apply Hr]. }
    destruct m as [[p q] hq]. cbn [fst snd] in Hm. destruct Hm as (Hm1 & Hm2 & Hm3 & Hm4).
    split; [|done]. apply hierarchical_ok; simpl; try apply Hb; try apply Hr; auto.
    eapply authority_ok_with; eauto.
Qed.

Lemma default_path_clean u :
  url_ok u -> has_authority u = true ->
  let v := default_path (with_path u (remove_dot_segments (path u))) in
  url_ok v /\ (scheme v, userinfo v, host v, port v) = (scheme u, userinfo u, host u, port u) /\
  (fragment v, has_fragment v) = (fragment u, has_fragment u) /\
  head_is is_slash (path v) = true /\ path v <> [] /\
  Forall (fun s => is_dot s = false) (segments (path v)).
Proof.
  intros Hu Ha. pose proof (ok_authority u Hu Ha) as Hau.
  pose proof (ok_path_abs u Hau) as Hp. rewrite <- absolute_path_head in Hp.
  destruct (remove_dot_segments_abs _ Hp) as [Habs _].
  pose proof (remove_dot_segments_none _ _ mark_slash Hp (ok_path u Hu)) as Hn.
  assert (Hc : Forall (fun s => is_dot s = false) (segments (remove_dot_segments (path u)))).
  { rewrite segments_remove_dot_segments by done. apply remove_dots_clean. constructor. }
  unfold default_path. cbn [with_path has_authority path]. rewrite Ha. cbn [andb].
  destruct (remove_dot_segments (path u)) as [|c p] eqn:E.
  - rewrite eqb_bytes_refl. split; [|split_and!; try done; by repeat constructor].
    apply hierarchical_ok; simpl; try apply Hu; auto. eapply authority_ok_with; eauto.
  - rewrite (proj2 (eqb_bytes_false (c :: p) [])) by done.
    split; [|split_and!; done].
    apply hierarchical_ok; simpl; try apply Hu; auto. eapply authority_ok_with; eauto.
Qed.

(** ** Properties *)

(** C1: on an absolute path the loop of [remove_dot_segments] computes what RFC 3986
    (5.2.4) says of the list of segments: ["."] is dropped, [".."] drops the segment
    in front of it, and the fuel given to the loop is enough. *)
Theorem remove_dot_segments_rfc p :
  absolute_path p = true ->
  remove_dot_segments p = join (remove_dots [] (segments p)) /\
  join (segments p) = p /\
  Forall (fun s => is_dot s = false) (segments (remove_dot_segments p)) /\
  remove_dot_segments (remove_dot_segments p) = remove_dot_segments p.
Proof.
  intros Hp. split_and!.
  - by apply remove_dot_segments_join.
  - by apply join_segments.
  - rewrite segments_remove_dot_segments by done. apply remove_dots_clean. constructor.
  - by apply remove_dot_segments_idem.
Qed.

Lemma remove_dot_segments_rfc_witness :
  remove_dot_segments (lit "/a/b/../c/./d/..") = lit "/a/c/" /\
  remove_dot_segments (lit "/a/b/../c/./d/..") =
    join (remove_dots [] (segments (lit "/a/b/../c/./d/.."))).
Proof.
  split; [reflexivity|]. exact (proj1 (remove_dot_segments_rfc (lit "/a/b/../c/./d/..") eq_refl)).
Defined.

(** C2: the text [Url::to_string] prints for a parsed URL parses back to that URL,
    unless a second ['@'] follows an empty user-info. *)
Theorem parse_url_to_string s u :
  parse_url s = Ret u -> at_ok u -> parse_url (to_string u) = Ret u.
Proof. intros Hs Hat. eapply parse_to_string, parse_url_ok; eauto. Qed.

Lemma parse_url_to_string_witness :
  exists u, parse_url (lit "HTTP://me@[::1]:8080/x?y#z") = Ret u /\
            parse_url (to_string u) = Ret u.
Proof.
  eexists. split; [reflexivity|].
  apply (parse_url_to_string (lit "HTTP://me@[::1]:8080/x?y#z")); [reflexivity|intros H; discriminate].
Defined.

(** [normalize_url] is idempotent on hierarchical URLs. *)
Theorem normalize_url_idempotent s u t :
  parse_url s = Ret u -> has_authority u = true -> at_ok u ->
  normalize_url s = Ret t -> normalize_url t = Ret t.
Proof.
  intros Hs Ha Hat. unfold normalize_url. rewrite Hs. intros [= <-].
  pose proof (parse_url_ok s u Hs Hat) as Hu.
  rewrite parse_to_string by by apply normalize_ok. simpl.
  by rewrite normalize_idem.
Qed.

Lemma normalize_url_idempotent_witness :
  normalize_url (lit "HTTP://Example.com:80/a/../b") = Ret (lit "http://example.com/b") /\
  normalize_url (lit "http://example.com/b") = Ret (lit "http://example.com/b").
Proof.
  split; [reflexivity|].
  eapply (normalize_url_idempotent (lit "HTTP://Example.com:80/a/../b"));
    [reflexivity|reflexivity|intros _; reflexivity|reflexivity].
Defined.

(** Resolving a relative reference against a hierarchical base keeps the base's
    scheme, takes the authority from the reference when it has one and from the base
    otherwise, takes the fragment from the reference, and prints a URL whose path is
    absolute and free of dot segments; the printed URL parses back. *)
Theorem resolve_url_relative b r base ref :
  parse_url b = Ret base -> parse_url r = Ret ref ->
  scheme base <> [] -> has_authority base = true -> at_ok base ->
  scheme ref = [] -> at_ok ref ->
  exists v, resolve_url_string b r = Ret (to_string v) /\ parse_url (to_string v) = Ret v /\
    scheme v = scheme base /\
    (userinfo v, host v, port v) =
      (if has_authority ref then (userinfo ref, host ref, port ref)
       else (userinfo base, host base, port base)) /\
    (fragment v, has_fragment v) = (fragment ref, has_fragment ref) /\
    head_is is_slash (path v) = true /\ path v <> [] /\
    Forall (fun s => is_dot s = false) (segments (path v)).
Proof.
  intros Hb Hr Hs Ha Hat Er Hatr.
  pose proof (parse_url_ok _ _ Hb Hat) as Hbo. pose proof (parse_url_ok _ _ Hr Hatr) as Hro.
  destruct (resolve_ref_ok base ref Hbo Ha Hs Hro Er) as (Ht & Hta & Hts & Htf & Hthf & Htau).
  destruct (default_path_clean _ Ht Hta) as (Hv & [= Hvs Hvu Hvh Hvp] & [= Hvf Hvhf] & Hvr).
  set (v := default_path _) in *. exists v.
  unfold resolve_url_string, resolve_url. rewrite Hb. simpl. rewrite Hr. simpl.
  split_and!; [done|by apply parse_to_string|congruence|congruence|congruence|..]; apply Hvr.
Qed.

Lemma resolve_url_relative_witness :
  resolve_url_string (lit "http://a/b/c/d;p?q") (lit "../../../../g#s") = Ret (lit "http://a/g#s") /\
  exists v, resolve_url_string (lit "http://a/b/c/d;p?q") (lit "../../../../g#s") = Ret (to_string v) /\
            Forall (fun s => is_dot s = false) (segments (path v)).
Proof.
  split; [reflexivity|].
  destruct (resolve_url_relative (lit "http://a/b/c/d;p?q") (lit "../../../../g#s") _ _
              eq_refl eq_refl) as (v & H1 & _ & _ & _ & _ & _ & _ & H2);
    [discriminate|reflexivity|intros _; reflexivity|reflexivity|intros _; reflexivity|].
  exists v. split; [exact H1|exact H2].
Defined.

(** Without an authority, removing dot segments can turn a path into one that starts
    with two slashes, which reads as an authority. *)
Example normalize_url_opaque :
  normalize_url (lit "a:/..//b") = Ret (lit "a://b") /\
  normalize_url (lit "a://b") = Ret (lit "a://b/").
Proof. split; reflexivity. Qed.
