(* ===== verification/Html.v ===== *)
(** * HTML syntax: [src/flatworm/html_syntax.cpp], [html_entities.cpp], [html_tokenizer.cpp]

    The tokenizer only looks forward from [position_]: its state holds the suffix of
    the input from that position ([tk_rest]) and [text_element_].  Every loop that is
    not structural is one [*_step] iterated with the length of its input as fuel, and
    every step shortens the input. *)
From S2P Require Import Prelude.

(** ** Names *)

Definition is_void_element (name : bytes) : bool :=
  one_of name ["area"; "base"; "br"; "col"; "embed"; "hr"; "img"; "input"; "link";
               "meta"; "param"; "source"; "track"; "wbr"]%string.
Definition is_raw_text_element (name : bytes) : bool := one_of name ["script"; "style"]%string.
Definition is_rcdata_element (name : bytes) : bool := one_of name ["textarea"; "title"]%string.

(** ** Character references *)

Definition byte (n : N) : ascii := ascii_of_N n.

Definition utf8 (l : list N) : bytes := map byte l.

Definition named_entities : list (string * bytes) :=
  [ ("amp", lit "&"); ("lt", lit "<"); ("gt", lit ">"); ("quot", [byte 34]);
    ("apos", lit "'"); ("nbsp", utf8 [0xc2; 0xa0]); ("copy", utf8 [0xc2; 0xa9]);
    ("reg", utf8 [0xc2; 0xae]); ("hellip", utf8 [0xe2; 0x80; 0xa6]);
    ("mdash", utf8 [0xe2; 0x80; 0x94]); ("ndash", utf8 [0xe2; 0x80; 0x93]);
    ("laquo", utf8 [0xc2; 0xab]); ("raquo", utf8 [0xc2; 0xbb]);
    ("trade", utf8 [0xe2; 0x84; 0xa2]); ("deg", utf8 [0xc2; 0xb0]) ]%N%string.

Fixpoint find_entity (name : bytes) (l : list (string * bytes)) : option bytes :=
  match l with
  | [] => None
  | (n, v) :: l' => if name =s lit n then Some v else find_entity name l'
  end.

(** The bytes [append_utf8] appends; [cp] is a 32-bit unsigned integer. *)
Definition append_utf8 (cp : N) : bytes :=
  (if cp <? 0x80 then [byte cp]
   else if cp <? 0x800 then
     [byte (N.lor 0xc0 (N.shiftr cp 6)); byte (N.lor 0x80 (N.land cp 63))]
   else if cp <? 0x10000 then
     [byte (N.lor 0xe0 (N.shiftr cp 12)); byte (N.lor 0x80 (N.land (N.shiftr cp 6) 63));
      byte (N.lor 0x80 (N.land cp 63))]
   else
     [byte (N.lor 0xf0 (N.shiftr cp 18)); byte (N.lor 0x80 (N.land (N.shiftr cp 12) 63));
      byte (N.lor 0x80 (N.land (N.shiftr cp 6) 63)); byte (N.lor 0x80 (N.land cp 63))])%N.

Definition c1 : list N :=
  [0x20ac;0x81;0x201a;0x192;0x201e;0x2026;0x2020;0x2021;
   0x2c6;0x2030;0x160;0x2039;0x152;0x8d;0x17d;0x8f;
   0x90;0x2018;0x2019;0x201c;0x201d;0x2022;0x2013;0x2014;
   0x2dc;0x2122;0x161;0x203a;0x153;0x9d;0x17e;0x178]%N.

Definition digit_value (c : ascii) : N :=
  (if in_range 48 57 c then code c - 48
   else if in_range 97 102 c then code c - 97 + 10
   else if in_range 65 70 c then code c - 65 + 10 else 255)%N.

(** The digit loop: saturates before multiplying. *)
Fixpoint read_digits (base cp : N) (s : bytes) : N * bytes :=
  match s with
  | c :: s' =>
      let digit := digit_value c in
      if (base <=? digit)%N then (cp, s)
      else read_digits base
             (if (0x10ffff / base <? cp)%N then 0x110000%N else (cp * base + digit)%N) s'
  | [] => (cp, [])
  end.

Definition fix_codepoint (cp : N) : N :=
  (if (cp =? 0) || (0x10ffff <? cp) || ((0xd800 <=? cp) && (cp <=? 0xdfff)) then 0xfffd
   else if (0x80 <=? cp) && (cp <=? 0x9f) then nth (N.to_nat (cp - 0x80)) c1 0
   else cp)%N.

(** The base, and the digits and what follows. *)
Definition numeric_base (s : bytes) : N * bytes :=
  match s with
  | c :: s' => if (c =c "x") || (c =c "X") then (16%N, s') else (10%N, s)
  | [] => (10%N, s)
  end.

(** [&#...]: [s] is what follows the ['#']; [None] when no digit does. *)
Definition numeric_reference (s : bytes) : option (bytes * bytes) :=
  let '(base, s) := numeric_base s in
  let '(cp, rest) := read_digits base 0 s in
  if length rest =? length s then None
  else Some (append_utf8 (fix_codepoint cp),
             match rest with c :: r => if c =c ";" then r else rest | [] => [] end).

(** [&name;]: [s] is what follows the ['&']. *)
Definition named_reference (s : bytes) : option (bytes * bytes) :=
  match find_if (fun c => c =c ";") (take 12 s) with
  | None => None
  | Some n =>
      match find_entity (take n (take 12 s)) named_entities with
      | None => None
      | Some v => Some (v, drop (n + 1) s)
      end
  end.

(** One iteration of [decode_entities]: what it appends, and what is left. *)
Definition decode_step (c : ascii) (s : bytes) : bytes * bytes :=
  if negb (c =c "&") then ([c], s)
  else
    let reference := match s with
                     | d :: s' => if d =c "#" then numeric_reference s' else named_reference s
                     | [] => None
                     end in
    match reference with Some r => r | None => ([c], s) end.

Fixpoint decode_loop (fuel : nat) (s : bytes) : bytes :=
  match s, fuel with
  | [], _ | _, O => []
  | c :: s', S fuel' => let '(out, rest) := decode_step c s' in out ++ decode_loop fuel' rest
  end.

Definition decode_entities (input : bytes) : bytes := decode_loop (length input) input.

(** ** Tokens *)

Record Attribute := { attr_name : bytes; attr_value : bytes }.

Inductive HtmlTokenKind := TEnd | TText | TComment | TDoctype | TStartTag | TEndTag.

#[export] Instance HtmlTokenKind_eq_dec : EqDecision HtmlTokenKind.
Proof. solve_decision. Defined.

Record HtmlToken := { kind : HtmlTokenKind; data : bytes; attributes : list Attribute }.

Record HtmlTokenizer := { tk_rest : bytes; text_element_ : bytes }.

Definition plain (k : HtmlTokenKind) (d : bytes) : HtmlToken :=
  {| kind := k; data := d; attributes := [] |}.

Definition at_ (s : bytes) : HtmlTokenizer := {| tk_rest := s; text_element_ := [] |}.

(** Does an end tag of [te] stand here?  [s] is what follows a ['<']. *)
Definition closes (te s : bytes) : bool :=
  match s with
  | c :: t =>
      (c =c "/") && (to_lower (take (length te) t) =s te) &&
      match drop (length te) t with
      | d :: _ => is_space d || (d =c "/") || (d =c ">")
      | [] => false
      end
  | [] => false
  end.

(** The length of the raw text in front of that end tag (or of the end). *)
Fixpoint raw_text_length (te s : bytes) : nat :=
  match s with
  | [] => 0
  | c :: s' => if (c =c "<") && closes te s' then 0 else S (raw_text_length te s')
  end.

Definition tag_name_char (c : ascii) : bool := negb (is_space c || (c =c "/") || (c =c ">")).
Definition attr_name_char (c : ascii) : bool := tag_name_char c && negb (c =c "=").
Definition unquoted_char (c : ascii) : bool := negb (is_space c || (c =c ">")).
Definition dquote : ascii := byte 34.
Definition backslash : ascii := byte 92.
Definition is_quote (c : ascii) : bool := (c =c "'") || (c =c dquote).

(** The value behind ['='] and white space: decoded, and what is left. *)
Definition attr_value_at (s : bytes) : bytes * bytes :=
  match s with
  | q :: s' =>
      if is_quote q then
        match find_if (fun c => c =c q) s' with
        | None => (decode_entities s', [])
        | Some n => (decode_entities (take n s'), drop (n + 1) s')
        end
      else (decode_entities (span unquoted_char s), skip unquoted_char s)
  | [] => ([], [])
  end.

(** One iteration of the attribute loop, at a character that is not ['>']. *)
Definition attr_step (s : bytes) : option Attribute * bytes :=
  match s with
  | [] => (None, [])
  | c :: s' =>
      if is_space c || (c =c "/") then (None, s')
      else match span attr_name_char s with
           | [] => (None, s')
           | raw =>
               let r := skip is_space (skip attr_name_char s) in
               let '(value, rest) :=
                 match r with
                 | e :: r' => if e =c "=" then attr_value_at (skip is_space r') else ([], r)
                 | [] => ([], [])
                 end in
               (Some {| attr_name := to_lower raw; attr_value := value |}, rest)
           end
  end.

(** [seen.insert(name).second]: [seen] holds the names kept so far. *)
Definition keep_attribute (closing : bool) (attrs : list Attribute) (a : option Attribute)
  : list Attribute :=
  match a with
  | Some a =>
      if negb closing && negb (existsb (fun b => attr_name b =s attr_name a) attrs)
      then attrs ++ [a] else attrs
  | None => attrs
  end.

Fixpoint attr_loop (fuel : nat) (closing : bool) (attrs : list Attribute) (s : bytes)
  : list Attribute * bytes :=
  match s, fuel with
  | [], _ | _, O => (attrs, s)
  | c :: _, S fuel' =>
      if c =c ">" then (attrs, s)
      else let '(a, rest) := attr_step s in
           attr_loop fuel' closing (keep_attribute closing attrs a) rest
  end.

(** A tag; [s] starts with the letter behind ['<'] or ["</"]. *)
Definition next_tag (closing : bool) (s : bytes) : HtmlToken * HtmlTokenizer :=
  let r := skip tag_name_char s in
  let '(attrs, rest) := attr_loop (length r) closing [] r in
  ({| kind := if closing then TEndTag else TStartTag;
      data := to_lower (span tag_name_char s); attributes := attrs |},
   at_ (drop 1 rest)).

Definition cut_text (pat : bytes) (s : bytes) : bytes * bytes :=
  match find_sub pat s with
  | None => (s, [])
  | Some n => (take n s, drop (n + length pat) s)
  end.

(** [next()] when no text element is open, on a non-empty rest. *)
Definition next_markup (s : bytes) : HtmlToken * HtmlTokenizer :=
  match s with
  | [] => (plain TEnd [], at_ [])
  | c :: s' =>
      if negb (c =c "<") then
        let not_lt := fun c => negb (c =c "<") in
        (plain TText (decode_entities (span not_lt s)), at_ (skip not_lt s))
      else if starts_with (lit "!--") s' then
        let '(d, rest) := cut_text (lit "-->") (drop 3 s') in (plain TComment d, at_ rest)
      else if starts_with (lit "!") s' || starts_with (lit "?") s' then
        let doctype := to_lower (take 7 (drop 1 s')) =s lit "doctype" in
        let '(d, rest) := cut_text (lit ">") (drop (if doctype then 1 else 0) s') in
        (plain (if doctype then TDoctype else TComment) d, at_ rest)
      else
        let closing := starts_with (lit "/") s' in
        let t := if closing then drop 1 s' else s' in
        match t with
        | a :: _ => if is_alpha a then next_tag closing t else (plain TText (lit "<"), at_ s')
        | [] => (plain TText (lit "<"), at_ s')
        end
  end.

Definition next (tk : HtmlTokenizer) : HtmlToken * HtmlTokenizer :=
  match tk_rest tk, text_element_ tk with
  | [], _ => (plain TEnd [], tk)
  | s, [] => next_markup s
  | s, te =>
      let n := raw_text_length te s in
      let raw := take n s in
      let d := if is_rcdata_element te then decode_entities raw else raw in
      match d, drop n s with
      | _ :: _, rest => (plain TText d, at_ rest)
      | [], [] => (plain TEnd [], at_ [])
      | [], rest => next_markup rest
      end
  end.

(** [text_element(name)]. *)
Definition text_element (name : bytes) (tk : HtmlTokenizer) : HtmlTokenizer :=
  {| tk_rest := tk_rest tk; text_element_ := name |}.

Example decode_ex :
  decode_entities (lit "a&amp;b&#65;&#x42&lt &bogus;&#;") = lit "a&bAB&lt &bogus;&#;".
Proof. reflexivity. Qed.

Example next_ex :
  next (at_ (lit "<A Href='x&amp;y' b=1 b=2 c/>rest")) =
  ({| kind := TStartTag; data := lit "a";
      attributes := [ {| attr_name := lit "href"; attr_value := lit "x&y" |};
                      {| attr_name := lit "b"; attr_value := lit "1" |};
                      {| attr_name := lit "c"; attr_value := [] |} ] |}, at_ (lit "rest")).
Proof. reflexivity. Qed.

(** ** Progress *)

Lemma read_digits_length base cp s : length (read_digits base cp s).2 <= length s.
Proof.
  revert cp. induction s as [|c s IH]; intros cp; cbn [read_digits]; [done|].
  destruct (base <=? digit_value c)%N; [done|]. specialize (IH
    (if (0x10ffff / base <? cp)%N then 0x110000%N else (cp * base + digit_value c)%N)).
  simpl. lia.
Qed.

Lemma append_utf8_nonempty cp : append_utf8 cp <> [].
Proof. unfold append_utf8. by repeat case_match. Qed.

Lemma find_entity_nonempty name v : find_entity name named_entities = Some v -> v <> [].
Proof.
  assert (Forall (fun e => e.2 <> []) named_entities) as H by (by repeat constructor).
  induction H as [|[n w] l Hw H IH]; [done|]. cbn [find_entity].
  destruct (name =s lit n); [|done]. by intros [= <-].
Qed.

Lemma numeric_reference_spec s out rest :
  numeric_reference s = Some (out, rest) -> out <> [] /\ length rest <= length s.
Proof.
  unfold numeric_reference. intros H.
  assert (length (numeric_base s).2 <= length s) as Hb.
  { unfold numeric_base. destruct s; [done|]. destruct (_ || _); simpl; lia. }
  destruct (numeric_base s) as [base s1]. cbn [snd] in Hb.
  pose proof (read_digits_length base 0 s1) as Hr.
  destruct (read_digits base 0 s1) as [cp r]. cbn [snd] in Hr.
  destruct (_ =? _); [done|]. injection H as <- <-. split; [apply append_utf8_nonempty|].
  destruct r as [|c r]; [lia|]. destruct (c =c ";"); simpl in *; lia.
Qed.

Lemma named_reference_spec s out rest :
  named_reference s = Some (out, rest) -> out <> [] /\ length rest <= length s.
Proof.
  unfold named_reference. destruct (find_if _ _) as [n|]; [|done].
  destruct (find_entity _ _) eqn:E; [|done]. intros [= <- <-].
  split; [by eapply find_entity_nonempty|]. rewrite length_drop. lia.
Qed.

Lemma decode_step_spec c s :
  (decode_step c s).1 <> [] /\ length (decode_step c s).2 <= length s.
Proof.
  unfold decode_step. destruct (negb (c =c "&")); [done|].
  destruct s as [|d s]; [done|]. destruct (d =c "#").
  - destruct (numeric_reference s) as [[out rest]|] eqn:E; [|done].
    apply numeric_reference_spec in E as [? ?]. simpl. split; [done|lia].
  - destruct (named_reference _) as [[out rest]|] eqn:E; [|done].
    by apply named_reference_spec in E.
Qed.

Lemma decode_loop_fuel f1 f2 s :
  length s <= f1 -> length s <= f2 -> decode_loop f1 s = decode_loop f2 s.
Proof.
  revert f2 s. induction f1 as [|f1 IH]; intros f2 [|c s] H1 H2; simpl in *; try lia.
  - by destruct f2.
  - by destruct f2.
  - destruct f2 as [|f2]; [lia|]. pose proof (decode_step_spec c s) as [_ Hl]. cbn [decode_loop].
    destruct (decode_step c s) as [out rest]. cbn [snd] in Hl. f_equal. apply IH; lia.
Qed.

(** The equation of the loop, without fuel. *)
Lemma decode_entities_cons c s :
  decode_entities (c :: s) =
  let '(out, rest) := decode_step c s in out ++ decode_entities rest.
Proof.
  unfold decode_entities. cbn [length decode_loop].
  pose proof (decode_step_spec c s) as [_ Hl].
  destruct (decode_step c s) as [out rest]. cbn [snd] in Hl. f_equal. by apply decode_loop_fuel.
Qed.

Lemma decode_entities_nonempty s : s <> [] -> decode_entities s <> [].
Proof.
  destruct s as [|c s]; [done|]. intros _. rewrite decode_entities_cons.
  pose proof (decode_step_spec c s) as [Hn _]. destruct (decode_step c s) as [[|o out] rest]; done.
Qed.

Lemma attr_value_at_length s : length (attr_value_at s).2 <= length s.
Proof.
  destruct s as [|q s]; [done|]. unfold attr_value_at. destruct (is_quote q).
  - destruct (find_if _ s) as [n|]; simpl; rewrite ?length_drop; lia.
  - apply length_skip.
Qed.

Lemma attr_step_shorter c s : length (attr_step (c :: s)).2 < length (c :: s).
Proof.
  unfold attr_step. destruct (_ || _); [simpl; lia|].
  destruct (span attr_name_char (c :: s)) as [|d raw] eqn:E; [simpl; lia|].
  assert (length (skip attr_name_char (c :: s)) < length (c :: s)) as H1.
  { rewrite <- (skip_span attr_name_char (c :: s)) at 2. rewrite E, length_app. simpl. lia. }
  pose proof (length_skip is_space (skip attr_name_char (c :: s))) as H2.
  destruct (skip is_space (skip attr_name_char (c :: s))) as [|e r]; [simpl; lia|].
  destruct (e =c "="); [|simpl in *; lia].
  pose proof (attr_value_at_length (skip is_space r)) as H3. pose proof (length_skip is_space r).
  destruct (attr_value_at _). simpl in *. lia.
Qed.

Lemma attr_loop_fuel f1 f2 closing attrs s :
  length s <= f1 -> length s <= f2 -> attr_loop f1 closing attrs s = attr_loop f2 closing attrs s.
Proof.
  revert f2 attrs s. induction f1 as [|f1 IH]; intros f2 attrs [|c s] H1 H2; simpl in H1, H2; try lia.
  - by destruct f2.
  - by destruct f2.
  - destruct f2 as [|f2]; [lia|]. cbn [attr_loop]. destruct (c =c ">"); [done|].
    pose proof (attr_step_shorter c s) as Hs. destruct (attr_step (c :: s)) as [a r].
    cbn [snd] in Hs. simpl in Hs. apply IH; lia.
Qed.

(** The attribute loop, without fuel. *)
Definition attr_list (closing : bool) (attrs : list Attribute) (s : bytes) :=
  attr_loop (length s) closing attrs s.

Lemma attr_list_cons closing attrs c s :
  (c =c ">") = false ->
  attr_list closing attrs (c :: s) =
  let '(a, rest) := attr_step (c :: s) in
  attr_list closing (keep_attribute closing attrs a) rest.
Proof.
  intros Hc. unfold attr_list. cbn [length attr_loop]. rewrite Hc.
  pose proof (attr_step_shorter c s) as Hs. destruct (attr_step (c :: s)) as [a r].
  cbn [snd] in Hs. simpl in Hs. apply attr_loop_fuel; lia.
Qed.

Lemma attr_list_stop closing attrs s : attr_list closing attrs (">"%char :: s) = (attrs, ">"%char :: s).
Proof. done. Qed.

Lemma attr_loop_length f closing attrs s : length (attr_loop f closing attrs s).2 <= length s.
Proof.
  revert attrs s. induction f as [|f IH]; intros attrs [|c s]; cbn [attr_loop]; [done..|].
  destruct (c =c ">"); [done|]. pose proof (attr_step_shorter c s) as Hs.
  destruct (attr_step (c :: s)) as [a r]. cbn [snd] in Hs.
  specialize (IH (keep_attribute closing attrs a) r). simpl in *. lia.
Qed.

Lemma next_tag_length closing s : length (tk_rest (next_tag closing s).2) <= length s.
Proof.
  unfold next_tag. pose proof (length_skip tag_name_char s) as H1.
  pose proof (attr_loop_length (length (skip tag_name_char s)) closing [] (skip tag_name_char s)) as H2.
  destruct (attr_loop _ _ _ _) as [attrs rest]. simpl in *. rewrite length_drop. lia.
Qed.

Lemma cut_text_length pat s : length (cut_text pat s).2 <= length s.
Proof.
  unfold cut_text. destruct (find_sub pat s) as [n|]; simpl; [rewrite length_drop|]; lia.
Qed.

Lemma next_markup_shorter c s : length (tk_rest (next_markup (c :: s)).2) < length (c :: s).
Proof.
  unfold next_markup. destruct (c =c "<") eqn:Ec; cbn [negb].
  2:{ cbn [skip]. rewrite Ec. simpl. pose proof (length_skip (fun c => negb (c =c "<")) s). lia. }
  destruct (starts_with (lit "!--") s).
  { pose proof (cut_text_length (lit "-->") (drop 3 s)) as H. destruct (cut_text _ _). simpl in *.
    rewrite length_drop in H. lia. }
  destruct (_ || _).
  { set (b := to_lower _ =s _).
    pose proof (cut_text_length (lit ">") (drop (if b then 1 else 0) s)) as H.
    destruct (cut_text _ _). simpl in *. rewrite length_drop in H. lia. }
  assert (forall closing, length (if closing : bool then drop 1 s else s) <= length s) as Hd.
  { intros []; rewrite ?length_drop; lia. }
  specialize (Hd (starts_with (lit "/") s)).
  destruct (if starts_with _ _ then _ else _) as [|a t]; [simpl; lia|].
  destruct (is_alpha a); [|simpl; lia].
  pose proof (next_tag_length (starts_with (lit "/") s) (a :: t)). simpl in *. lia.
Qed.

(** Every token but the end consumes input: the streaming loop terminates. *)
Lemma next_shorter tk :
  kind (next tk).1 <> TEnd -> length (tk_rest (next tk).2) < length (tk_rest tk).
Proof.
  unfold next. destruct (tk_rest tk) as [|c s] eqn:Er; [done|].
  destruct (text_element_ tk) as [|t te].
  { intros _. apply next_markup_shorter. }
  set (n := raw_text_length (t :: te) (c :: s)).
  destruct (if is_rcdata_element (t :: te) then _ else _) as [|d ds] eqn:Ed.
  - destruct (drop n (c :: s)) as [|e r] eqn:Edr; [done|]. intros _.
    pose proof (next_markup_shorter e r) as H.
    apply (f_equal length) in Edr. rewrite length_drop in Edr. simpl in *. lia.
  - intros _. simpl (tk_rest _). rewrite length_drop. destruct n as [|n'] eqn:En; [|simpl; lia].
    simpl in Ed. by destruct (is_rcdata_element (t :: te)).
Qed.

(** ** Numeric character references do not overflow *)

(** The value of the digits, computed without a bound. *)
Fixpoint exact_value (base cp : N) (s : bytes) : N :=
  match s with
  | c :: s' => let digit := digit_value c in
               if (base <=? digit)%N then cp else exact_value base (cp * base + digit) s'
  | [] => cp
  end.

Lemma exact_value_mono base cp s : (1 <= base)%N -> (cp <= exact_value base cp s)%N.
Proof.
  intros Hb. revert cp. induction s as [|c s IH]; intros cp; cbn [exact_value]; [done|].
  destruct (base <=? digit_value c)%N; [done|]. specialize (IH (cp * base + digit_value c)%N). nia.
Qed.

Lemma read_digits_saturated base cp s :
  (1 <= base <= 16)%N -> (0x10ffff < cp)%N -> (cp < 0x110010)%N ->
  (0x10ffff < (read_digits base cp s).1)%N /\ ((read_digits base cp s).1 < 0x110010)%N.
Proof.
  intros Hb. revert cp. induction s as [|c s IH]; intros cp H1 H2; cbn [read_digits]; [done|].
  destruct (base <=? digit_value c)%N; [done|].
  destruct (0x10ffff / base <? cp)%N eqn:E; [apply IH; lia|].
  apply N.ltb_ge in E. exfalso.
  assert (0x10ffff / base <= 0x10ffff)%N by (apply N.Div0.div_le_upper_bound; nia). lia.
Qed.

Lemma read_digits_exact base cp s :
  (base = 10 \/ base = 16)%N -> (cp <= 0x10ffff)%N ->
  let v := exact_value base cp s in
  let r := (read_digits base cp s).1 in
  ((v <= 0x10ffff /\ r = v) \/ (0x10ffff < v /\ 0x10ffff < r /\ r < 0x110010))%N.
Proof.
  intros Hb. revert cp. induction s as [|c s IH]; intros cp Hcp; cbn [read_digits exact_value];
    [left; done|].
  destruct (base <=? digit_value c)%N eqn:Ed; [left; done|]. apply N.leb_gt in Ed.
  assert (Hm : (1 <= base <= 16)%N) by lia.
  pose proof (exact_value_mono base (cp * base + digit_value c) s (proj1 Hm)) as Hmono.
  assert (Hdiv : (base * (0x10ffff / base) <= 0x10ffff /\ 0x10ffff < base * (0x10ffff / base) + base)%N)
    by (destruct Hb as [-> | ->]; vm_compute; done).
  destruct (0x10ffff / base <? cp)%N eqn:E.
  - apply N.ltb_lt in E. right.
    destruct (read_digits_saturated base 0x110000 s Hm) as [? ?]; [lia..|].
    assert (0x10ffff < cp * base)%N by nia. split_and!; [lia|done|done].
  - apply N.ltb_ge in E. destruct (decide (cp * base + digit_value c <= 0x10ffff)%N) as [Hle|Hgt].
    + by apply IH.
    + right. assert (cp * base <= 0x10ffff)%N by nia.
      destruct (read_digits_saturated base (cp * base + digit_value c) s Hm) as [? ?]; [lia..|].
      split_and!; [lia|done|done].
Qed.

Lemma fix_codepoint_scalar cp :
  (fix_codepoint cp <= 0x10ffff)%N /\ fix_codepoint cp <> 0%N /\
  ~ (0xd800 <= fix_codepoint cp <= 0xdfff)%N.
Proof.
  unfold fix_codepoint. destruct (_ || _) eqn:E1; [lia|].
  apply orb_false_iff in E1 as [[E1 E2]%orb_false_iff E3].
  apply N.eqb_neq in E1. apply N.ltb_ge in E2. rewrite andb_false_iff, !N.leb_gt in E3.
  destruct (_ && _) eqn:E4; [|lia]. apply andb_prop in E4 as [E4 E5]. apply N.leb_le in E4, E5.
  set (n := N.to_nat (cp - 0x80)). assert (n < length c1) as Hn by (subst n; simpl; lia).
  assert (forallb (fun v => (v <=? 0x10ffff) && negb (v =? 0) && (v <? 0xd800))%N c1 = true) as Hall
    by reflexivity.
  rewrite forallb_forall in Hall. specialize (Hall _ (nth_In c1 0%N Hn)).
  split_andb. apply N.leb_le in H. apply N.eqb_neq in H1. apply N.ltb_lt in H0. lia.
Qed.

(** A reference decoder for one UTF-8 sequence. *)
Definition utf8_decode (s : bytes) : option N :=
  (match map code s with
   | [a] => if a <? 0x80 then Some a else None
   | [a; b] =>
       if (0xc0 <=? a) && (a <? 0xe0) && (0x80 <=? b) && (b <? 0xc0)
       then Some ((a - 0xc0) * 64 + (b - 0x80)) else None
   | [a; b; c] =>
       if (0xe0 <=? a) && (a <? 0xf0) && (0x80 <=? b) && (b <? 0xc0) && (0x80 <=? c) && (c <? 0xc0)
       then Some ((a - 0xe0) * 4096 + (b - 0x80) * 64 + (c - 0x80)) else None
   | [a; b; c; d] =>
       if (0xf0 <=? a) && (a <? 0xf8) && (0x80 <=? b) && (b <? 0xc0) && (0x80 <=? c) && (c <? 0xc0)
          && (0x80 <=? d) && (d <? 0xc0)
       then Some ((a - 0xf0) * 262144 + (b - 0x80) * 4096 + (c - 0x80) * 64 + (d - 0x80)) else None
   | _ => None
   end)%N.

Lemma code_byte n : (n < 256)%N -> code (byte n) = n.
Proof. apply Ascii.N_ascii_embedding. Qed.

Lemma lor_check (base k : N) :
  forallb (fun x => (N.lor base (N.of_nat x) =? base + N.of_nat x)%N) (seq 0 (N.to_nat k)) = true ->
  forall x, (x < k)%N -> N.lor base x = (base + x)%N.
Proof.
  intros H x Hx. rewrite forallb_forall in H. specialize (H (N.to_nat x)).
  rewrite N2Nat.id in H. apply N.eqb_eq, H. apply in_seq. lia.
Qed.

Lemma lor_lead2 x : (x < 32)%N -> N.lor 0xc0 x = (0xc0 + x)%N.
Proof. by apply lor_check. Qed.
Lemma lor_lead3 x : (x < 16)%N -> N.lor 0xe0 x = (0xe0 + x)%N.
Proof. by apply lor_check. Qed.
Lemma lor_lead4 x : (x < 8)%N -> N.lor 0xf0 x = (0xf0 + x)%N.
Proof. by apply lor_check. Qed.
Lemma lor_cont x : (N.lor 0x80 (N.land x 63) = 0x80 + x mod 64)%N.
Proof.
  change 63%N with (N.ones 6). rewrite N.land_ones. change (2 ^ 6)%N with 64%N.
  assert (x mod 64 < 64)%N by (by apply N.mod_lt). revert H. generalize (x mod 64)%N.
  by apply lor_check.
Qed.

Lemma shiftr_div x n : N.shiftr x n = (x / 2 ^ n)%N.
Proof. apply N.shiftr_div_pow2. Qed.

Ltac leb_true := repeat match goal with
  | |- context [(?a <=? ?b)%N] => rewrite (proj2 (N.leb_le a b)) by lia
  | |- context [(?a <? ?b)%N] => rewrite (proj2 (N.ltb_lt a b)) by lia
  end.

Lemma utf8_decode_append cp :
  (cp <= 0x10ffff)%N -> utf8_decode (append_utf8 cp) = Some cp.
Proof.
  intros Hcp. unfold append_utf8.
  pose proof (N.div_mod cp 64 ltac:(done)) as D1. pose proof (N.mod_lt cp 64 ltac:(done)) as M1.
  pose proof (N.div_mod (cp / 64) 64 ltac:(done)) as D2. pose proof (N.mod_lt (cp / 64) 64 ltac:(done)) as M2.
  pose proof (N.div_mod (cp / 4096) 64 ltac:(done)) as D3. pose proof (N.mod_lt (cp / 4096) 64 ltac:(done)) as M3.
  assert (cp / 64 / 64 = cp / 4096)%N as Q1 by (by rewrite N.Div0.div_div).
  assert (cp / 4096 / 64 = cp / 262144)%N as Q2 by (by rewrite N.Div0.div_div).
  rewrite Q1 in D2. rewrite Q2 in D3.
  rewrite !lor_cont, !shiftr_div. change (2 ^ 6)%N with 64%N. change (2 ^ 12)%N with 4096%N.
  change (2 ^ 18)%N with 262144%N. clear Q1 Q2. revert D1 M1 D2 M2 D3 M3.
  generalize ((cp / 4096) mod 64)%N as m3, ((cp / 64) mod 64)%N as m2, (cp mod 64)%N as m1.
  generalize (cp / 262144)%N as q3, (cp / 4096)%N as q2, (cp / 64)%N as q1.
  intros q3 q2 q1 m3 m2 m1 D1 M1 D2 M2 D3 M3.
  destruct (cp <? 0x80)%N eqn:E1; [apply N.ltb_lt in E1|apply N.ltb_ge in E1].
  { unfold utf8_decode. cbn [map]. rewrite code_byte by lia. by leb_true. }
  destruct (cp <? 0x800)%N eqn:E2; [apply N.ltb_lt in E2|apply N.ltb_ge in E2].
  { rewrite lor_lead2 by lia. unfold utf8_decode. cbn [map]. rewrite !code_byte by lia.
    leb_true. cbn [andb]. f_equal. lia. }
  destruct (cp <? 0x10000)%N eqn:E3; [apply N.ltb_lt in E3|apply N.ltb_ge in E3].
  { rewrite lor_lead3 by lia. unfold utf8_decode. cbn [map]. rewrite !code_byte by lia.
    leb_true. cbn [andb]. f_equal. lia. }
  rewrite lor_lead4 by lia. unfold utf8_decode. cbn [map]. rewrite !code_byte by lia.
  leb_true. cbn [andb]. f_equal. lia.
Qed.

(** ** Properties *)

(** A numeric character reference of any length decodes to the UTF-8 encoding of
    the code point its digits denote, mapped by [fix_codepoint] (zero, surrogates and
    values above U+10FFFF become U+FFFD, C1 controls their Windows-1252 meaning): the
    32-bit accumulator saturates and never overflows. *)
Theorem numeric_reference_exact s out rest :
  numeric_reference s = Some (out, rest) ->
  let '(base, digits) := numeric_base s in
  let cp := fix_codepoint (exact_value base 0 digits) in
  utf8_decode out = Some cp /\ (cp <= 0x10ffff)%N /\ cp <> 0%N /\ ~ (0xd800 <= cp <= 0xdfff)%N /\
  ((read_digits base 0 digits).1 < 2 ^ 32)%N.
Proof.
  unfold numeric_reference. destruct (numeric_base s) as [base digits] eqn:Eb.
  assert (base = 10 \/ base = 16)%N as Hb.
  { unfold numeric_base in Eb. destruct s; [|destruct (_ || _)]; injection Eb as <- <-; auto. }
  pose proof (read_digits_exact base 0 digits Hb ltac:(lia)) as Hr.
  destruct (read_digits base 0 digits) as [r rest'] eqn:Er. cbn [fst] in Hr.
  destruct (_ =? _); [done|]. intros [= <- _].
  assert (fix_codepoint (exact_value base 0 digits) = fix_codepoint r) as ->.
  { destruct Hr as [[_ ->]|(H1 & H2 & _)]; [done|]. unfold fix_codepoint.
    rewrite !(proj2 (N.ltb_lt _ _)) by done. by rewrite !orb_true_r. }
  destruct (fix_codepoint_scalar r) as (H1 & H2 & H3).
  split_and!; [by apply utf8_decode_append|done..|simpl; lia].
Qed.

Lemma numeric_reference_exact_witness :
  numeric_reference (lit "x20AC;z") = Some (utf8 [0xe2; 0x82; 0xac]%N, lit "z") /\
  utf8_decode (utf8 [0xe2; 0x82; 0xac]%N) = Some 0x20ac%N.
Proof.
  split; [reflexivity|].
  exact (proj1 (numeric_reference_exact (lit "x20AC;z") (utf8 [0xe2; 0x82; 0xac]%N) (lit "z") eq_refl)).
Defined.
