(* ===== verification/HtmlTree.v ===== *)
(** * HTML trees: [src/flatworm/html_parser.cpp] and [html_serializer.cpp]

    A [Node] owns its children.  While [parse_html_tree] runs, the node under
    construction at each depth is a [frame] of the stack (its children so far); nothing
    else refers to these nodes, so appending to [stack.back()->children] is appending to
    the top frame, and shrinking the stack plugs the closed frames into their parents. *)
From S2P Require Import Prelude Html.

Inductive NodeType := Document | Element | Text | Comment | Doctype.

#[export] Instance NodeType_eq_dec : EqDecision NodeType.
Proof. solve_decision. Defined.

Inductive Node := mkNode {
  type : NodeType; name : bytes; node_attributes : list Attribute; text : bytes;
  children : list Node }.

(** ** Parser *)

(** The innermost open node first; the document is the last. *)
Record frame := { f_type : NodeType; f_name : bytes; f_attributes : list Attribute;
                  f_children : list Node }.

Definition plug (f : frame) : Node :=
  mkNode (f_type f) (f_name f) (f_attributes f) [] (f_children f).

(** [stack.back()->children.push_back(node)]. *)
Definition push_child (n : Node) (stack : list frame) : list frame :=
  match stack with
  | f :: rest => {| f_type := f_type f; f_name := f_name f; f_attributes := f_attributes f;
                    f_children := f_children f ++ [n] |} :: rest
  | [] => []
  end.

(** [stack.resize(stack.size() - n)]. *)
Fixpoint close_frames (n : nat) (stack : list frame) : list frame :=
  match n, stack with
  | S n', f :: ((_ :: _) as rest) => close_frames n' (push_child (plug f) rest)
  | _, _ => stack
  end.

(** How many open elements [close_scoped] closes: the loop over [depth > 1], on the
    names of the stack. *)
Fixpoint scoped_depth (targets barriers : list string) (names : list bytes) : option nat :=
  match names with
  | open :: ((_ :: _) as rest) =>
      if one_of open targets then Some 1
      else if one_of open barriers then None
      else S <$> scoped_depth targets barriers rest
  | _ => None
  end.

Definition names (stack : list frame) : list bytes := map f_name stack.

Definition close_scoped (targets barriers : list string) (stack : list frame) : list frame :=
  match scoped_depth targets barriers (names stack) with
  | Some n => close_frames n stack
  | None => stack
  end.

(** The statements of [close_for_start]: which start tags close which elements. *)
Definition close_rules : list (list string * list string * list string) :=
  [ (["address"; "article"; "aside"; "blockquote"; "div"; "dl"; "fieldset";
      "footer"; "form"; "h1"; "h2"; "h3"; "h4"; "h5"; "h6"; "header";
      "hgroup"; "hr"; "main"; "menu"; "nav"; "ol"; "p"; "pre"; "section";
      "table"; "ul"],
     ["p"], ["html"; "table"; "td"; "th"; "button"; "template"]);
    (["li"], ["li"], ["ul"; "ol"; "menu"; "html"; "template"]);
    (["dt"; "dd"], ["dt"; "dd"], ["dl"; "html"; "template"]);
    (["option"; "optgroup"], ["option"], ["select"; "datalist"; "optgroup"; "html"; "template"]);
    (["optgroup"], ["optgroup"], ["select"; "html"; "template"]);
    (["td"; "th"; "tr"; "tbody"; "thead"; "tfoot"], ["td"; "th"], ["tr"; "table"; "html"; "template"]);
    (["tr"; "tbody"; "thead"; "tfoot"], ["tr"],
     ["table"; "tbody"; "thead"; "tfoot"; "html"; "template"]);
    (["tbody"; "thead"; "tfoot"], ["tbody"; "thead"; "tfoot"], ["table"; "html"; "template"]) ]%string.

Definition close_for_start (stack : list frame) (name : bytes) : list frame :=
  foldl (fun stack '(starts, targets, barriers) =>
           if one_of name starts then close_scoped targets barriers stack else stack)
        stack close_rules.

(** An end tag closes the innermost open element of its name, and everything in it. *)
Fixpoint end_tag_depth (data : bytes) (names : list bytes) : option nat :=
  match names with
  | open :: ((_ :: _) as rest) =>
      if open =s data then Some 1 else S <$> end_tag_depth data rest
  | _ => None
  end.

Definition close_end_tag (data : bytes) (stack : list frame) : list frame :=
  match end_tag_depth data (names stack) with
  | Some n => close_frames n stack
  | None => stack
  end.

Definition max_bytes : N := 16 * 1024 * 1024.
Definition max_nodes : N := 250000.
Definition max_depth : nat := 256.

(** A node token: the stack and the tokenizer behind it. *)
Definition node_token (token : HtmlToken) (stack : list frame) (tk : HtmlTokenizer)
  : list frame * HtmlTokenizer :=
  match kind token with
  | TStartTag =>
      let n := data token in
      if is_void_element n then
        (push_child (mkNode Element n (attributes token) [] []) stack, tk)
      else
        ({| f_type := Element; f_name := n; f_attributes := attributes token; f_children := [] |}
           :: stack,
         if is_raw_text_element n || is_rcdata_element n then text_element n tk else tk)
  | TText => (push_child (mkNode Text [] [] (data token) []) stack, tk)
  | TComment => (push_child (mkNode Comment [] [] (data token) []) stack, tk)
  | _ => (push_child (mkNode Doctype [] [] (data token) []) stack, tk)
  end.

Fixpoint parse_loop (fuel : nat) (stack : list frame) (count : N) (tk : HtmlTokenizer)
  : result (list frame) :=
  match fuel with
  | O => Throw Internal
  | S fuel' =>
      let '(token, tk) := next tk in
      match kind token with
      | TEnd => Ret stack
      | TEndTag => parse_loop fuel' (close_end_tag (data token) stack) count tk
      | _ =>
          let stack := match kind token with
                       | TStartTag => close_for_start stack (data token)
                       | _ => stack
                       end in
          let count := (count + 1)%N in
          if (max_nodes <? count)%N || (max_depth <? length stack) then Throw ResourceLimit
          else let '(stack, tk) := node_token token stack tk in
               parse_loop fuel' stack count tk
      end
  end.

Definition document_frame : frame :=
  {| f_type := Document; f_name := []; f_attributes := []; f_children := [] |}.

(** The node the last frame becomes once every open element is closed. *)
Definition root_node (stack : list frame) : Node :=
  match close_frames (length stack) stack with
  | f :: _ => plug f
  | [] => plug document_frame
  end.

(** Every token but the end consumes input, and the last call returns the end: one more
    than the length is enough fuel ([parse_html_tree_total]). *)
Definition parse_html_tree (html : bytes) : result Node :=
  if (max_bytes <? N.of_nat (length html))%N then Throw ResourceLimit
  else
    stack ← parse_loop (S (length html)) [document_frame] 1 (at_ html);
    Ret (root_node stack).

(** ** Serializer *)

Definition escape_text_char (c : ascii) : bytes :=
  if c =c "&" then lit "&amp;" else if c =c "<" then lit "&lt;"
  else if c =c ">" then lit "&gt;" else [c].

Definition escape_text (value : bytes) : bytes := mjoin (escape_text_char <$> value).

Definition escape_attribute_char (c : ascii) : bytes :=
  if c =c "&" then lit "&amp;" else if c =c dquote then lit "&quot;"
  else if c =c "<" then lit "&lt;" else if c =c ">" then lit "&gt;" else [c].

Definition escape_attribute (value : bytes) : bytes := mjoin (escape_attribute_char <$> value).

Definition serialize_attribute (a : Attribute) : bytes :=
  lit " " ++ attr_name a ++ lit "=" ++ [dquote] ++ escape_attribute (attr_value a) ++ [dquote].

Definition serialize_start (n : bytes) (attrs : list Attribute) : bytes :=
  lit "<" ++ n ++ mjoin (serialize_attribute <$> attrs) ++ lit ">".

Fixpoint serialize_impl (node : Node) (parent_name : bytes) : bytes :=
  let serialize_children (parent : bytes) :=
    fix go (l : list Node) : bytes :=
      match l with [] => [] | c :: l' => serialize_impl c parent ++ go l' end in
  match type node with
  | Document => serialize_children [] (children node)
  | Text => if is_raw_text_element parent_name then text node else escape_text (text node)
  | Comment => lit "<!--" ++ text node ++ lit "-->"
  | Doctype => lit "<!" ++ text node ++ lit ">"
  | Element =>
      serialize_start (name node) (node_attributes node) ++
      (if is_void_element (name node) then []
       else serialize_children (name node) (children node) ++ lit "</" ++ name node ++ lit ">")
  end.

(** [serialize(node)] for a node whose parent has the name [parent_name]. *)
Definition serialize (node : Node) (parent_name : bytes) : bytes := serialize_impl node parent_name.

Fixpoint text_content (node : Node) : bytes :=
  match type node with
  | Text => text node
  | _ => (fix go (l : list Node) : bytes :=
            match l with [] => [] | c :: l' => text_content c ++ go l' end) (children node)
  end.

Example parse_ex :
  (d ← parse_html_tree (lit "<!DOCTYPE html><p>a &amp; b<p class=x>c<br><script>1<2</script>");
   Ret (serialize d [])) =
  Ret (lit "<!DOCTYPE html><p>a &amp; b</p><p class=" ++ [dquote] ++ lit "x" ++ [dquote] ++
       lit ">c<br><script>1<2</script></p>").
Proof. vm_compute. reflexivity. Qed.

(** ** The loop without fuel *)

Definition parse_from (stack : list frame) (count : N) (tk : HtmlTokenizer) : result (list frame) :=
  parse_loop (S (length (tk_rest tk))) stack count tk.

Lemma node_token_rest token stack tk : tk_rest (node_token token stack tk).2 = tk_rest tk.
Proof. unfold node_token. by repeat case_match. Qed.

Lemma parse_loop_fuel f1 f2 stack count tk :
  length (tk_rest tk) < f1 -> length (tk_rest tk) < f2 ->
  parse_loop f1 stack count tk = parse_loop f2 stack count tk.
Proof.
  revert f2 stack count tk. induction f1 as [|f1 IH]; intros f2 stack count tk H1 H2; [lia|].
  destruct f2 as [|f2]; [lia|]. cbn [parse_loop].
  pose proof (next_shorter tk) as Hs. destruct (next tk) as [token tk']. cbn [fst snd] in Hs.
  destruct (kind token) eqn:Ek; try done; try (apply IH; specialize (Hs ltac:(done)); lia).
  all: destruct (_ || _); [done|].
  all: match goal with |- context [node_token ?t ?st ?k] =>
         pose proof (node_token_rest t st k) as Hr;
         destruct (node_token t st k) as [st' tk2] end.
  all: cbn [snd] in Hr; specialize (Hs ltac:(done)); apply IH; rewrite Hr; lia.
Qed.

Lemma parse_from_eq stack count tk :
  parse_from stack count tk =
  let '(token, tk) := next tk in
  match kind token with
  | TEnd => Ret stack
  | TEndTag => parse_from (close_end_tag (data token) stack) count tk
  | _ =>
      let stack := match kind token with
                   | TStartTag => close_for_start stack (data token)
                   | _ => stack
                   end in
      let count := (count + 1)%N in
      if (max_nodes <? count)%N || (max_depth <? length stack) then Throw ResourceLimit
      else let '(stack, tk) := node_token token stack tk in parse_from stack count tk
  end.
Proof.
  unfold parse_from at 1. cbn [parse_loop].
  pose proof (next_shorter tk) as Hs. destruct (next tk) as [token tk']. cbn [fst snd] in Hs.
  destruct (kind token) eqn:Ek; try done;
    try (specialize (Hs ltac:(done)); apply parse_loop_fuel; lia).
  all: destruct (_ || _); [done|].
  all: match goal with |- context [node_token ?t ?st ?k] =>
         pose proof (node_token_rest t st k) as Hr;
         destruct (node_token t st k) as [st' tk2] end.
  all: cbn [snd] in Hr; specialize (Hs ltac:(done)); apply parse_loop_fuel; rewrite Hr; lia.
Qed.

(** ** Escaping *)

Lemma decode_escape_char esc c t :
  (forall d, esc d = escape_text_char d \/ esc d = escape_attribute_char d) ->
  decode_entities (esc c ++ t) = c :: decode_entities t.
Proof.
  intros Hesc.
  assert (Hplain : (c =c "&") = false -> decode_entities (c :: t) = c :: decode_entities t).
  { intros Hc. rewrite decode_entities_cons. unfold decode_step. by rewrite Hc. }
  destruct (Hesc c) as [-> | ->]; unfold escape_text_char, escape_attribute_char.
  all: destruct (c =c "&") eqn:E1;
    [apply eqc_true in E1 as ->; change (lit "&amp;" ++ t) with ("&"%char :: lit "amp;" ++ t);
     by rewrite decode_entities_cons|].
  2: destruct (c =c dquote) eqn:E2;
    [apply eqc_true in E2 as ->; change (lit "&quot;" ++ t) with ("&"%char :: lit "quot;" ++ t);
     by rewrite decode_entities_cons|].
  all: destruct (c =c "<") eqn:E3;
    [apply eqc_true in E3 as ->; change (lit "&lt;" ++ t) with ("&"%char :: lit "lt;" ++ t);
     by rewrite decode_entities_cons|].
  all: destruct (c =c ">") eqn:E4;
    [apply eqc_true in E4 as ->; change (lit "&gt;" ++ t) with ("&"%char :: lit "gt;" ++ t);
     by rewrite decode_entities_cons|].
  all: by apply Hplain.
Qed.

Lemma decode_escape_text s : decode_entities (escape_text s) = s.
Proof.
  unfold escape_text. induction s as [|c s IH]; [done|].
  rewrite mjoin_fmap_cons.
  rewrite (decode_escape_char escape_text_char) by auto. by rewrite IH.
Qed.

Lemma decode_escape_attribute s : decode_entities (escape_attribute s) = s.
Proof.
  unfold escape_attribute. induction s as [|c s IH]; [done|].
  rewrite mjoin_fmap_cons.
  rewrite (decode_escape_char escape_attribute_char) by auto. by rewrite IH.
Qed.

Lemma escape_text_no_lt s : none (fun c => c =c "<") (escape_text s) = true.
Proof. apply none_mjoin. intros c. by_ascii c. Qed.

Lemma escape_attribute_no_quote s : none (fun c => c =c dquote) (escape_attribute s) = true.
Proof. apply none_mjoin. intros c. by_ascii c. Qed.

Lemma escape_text_nil s : escape_text s = [] -> s = [].
Proof.
  destruct s as [|c s]; [done|].
  unfold escape_text. rewrite mjoin_fmap_cons.
  intros [E _]%app_eq_nil. revert E. unfold escape_text_char. by repeat case_match.
Qed.

(** ** The tokens of a serialized tree *)

Definition name_ok (n : bytes) : bool :=
  match n with [] => false | c :: _ => is_alpha c end &&
  forallb tag_name_char n && (to_lower n =s n).

Definition attribute_ok (a : Attribute) : bool :=
  nonempty (attr_name a) && forallb attr_name_char (attr_name a) &&
  (to_lower (attr_name a) =s attr_name a).

Fixpoint unique (l : list bytes) : bool :=
  match l with [] => true | x :: l' => negb (existsb (fun y => y =s x) l') && unique l' end.

Definition attributes_ok (l : list Attribute) : bool :=
  forallb attribute_ok l && unique (attr_name <$> l).

Lemma next_at c s : next (at_ (c :: s)) = next_markup (c :: s).
Proof. done. Qed.

Lemma next_text s k :
  s <> [] -> head_is (fun c => c =c "<") k = true ->
  next (at_ (escape_text s ++ k)) = (plain TText s, at_ k).
Proof.
  intros Hs Hk. pose proof (escape_text_no_lt s) as Hn.
  assert (Hd : escape_text s <> []) by (intros E; by apply escape_text_nil in E).
  rewrite <- (decode_escape_text s) at 2. revert Hn Hd. generalize (escape_text s) as e.
  intros [|c e] Hn Hd; [done|]. clear Hd.
  assert (span (fun c => negb (c =c "<")) ((c :: e) ++ k) = c :: e /\
          skip (fun c => negb (c =c "<")) ((c :: e) ++ k) = k) as [E1 E2].
  { rewrite span_app, skip_app by done. destruct k as [|d k]; [by rewrite app_nil_r|].
    simpl in Hk. rewrite span_stop, skip_stop by (simpl; by rewrite Hk). by rewrite app_nil_r. }
  cbn [app]. rewrite next_at. unfold next_markup. simpl in Hn. apply andb_prop in Hn as [Hc _].
  rewrite Hc. change (c :: e ++ k) with ((c :: e) ++ k). by rewrite E1, E2.
Qed.

Lemma cut_text_app pat s k :
  find_sub pat (s ++ pat) = Some (length s) -> cut_text pat (s ++ pat ++ k) = (s, k).
Proof.
  intros H. unfold cut_text. rewrite app_assoc, (find_sub_app _ _ k _ H).
  rewrite <- app_assoc, take_app_length, app_assoc, <- length_app, drop_app_length. done.
Qed.

Lemma next_comment s k :
  find_sub (lit "-->") (s ++ lit "-->") = Some (length s) ->
  next (at_ (lit "<!--" ++ s ++ lit "-->" ++ k)) = (plain TComment s, at_ k).
Proof.
  intros H. change (lit "<!--" ++ ?x) with ("<"%char :: lit "!--" ++ x).
  rewrite next_at. unfold next_markup. change (negb ("<" =c "<")) with false.
  rewrite starts_with_app. change (drop 3 (lit "!--" ++ ?x)) with x.
  by rewrite (cut_text_app (lit "-->") s k H).
Qed.

Lemma next_doctype s k :
  to_lower (take 7 s) = lit "doctype" -> find_sub (lit ">") (s ++ lit ">") = Some (length s) ->
  next (at_ (lit "<!" ++ s ++ lit ">" ++ k)) = (plain TDoctype s, at_ k).
Proof.
  intros Hd H. change (lit "<!" ++ ?x) with ("<"%char :: "!"%char :: x).
  rewrite next_at. unfold next_markup. change (negb ("<" =c "<")) with false. cbn iota.
  destruct s as [|c s]; [done|].
  assert (starts_with (lit "!--") ("!"%char :: (c :: s) ++ lit ">" ++ k) = false) as ->.
  { change (("-" =c c) && starts_with (lit "-") (s ++ lit ">" ++ k) = false).
    destruct ("-" =c c) eqn:E; [|done]. apply eqc_true in E as <-. by inversion Hd. }
  change (starts_with (lit "!") ("!"%char :: _)) with true. cbn [orb].
  change (drop 1 ("!"%char :: ?x)) with x.
  assert (length (c :: s) >= 7) as Hlen.
  { apply (f_equal length) in Hd. rewrite length_to_lower, length_take in Hd.
    change (length (lit "doctype")) with 7 in Hd. lia. }
  rewrite take_app_le by lia. rewrite Hd, eqb_bytes_refl.
  cbn iota. change (drop 1 ("!"%char :: ?x)) with x.
  by rewrite (cut_text_app (lit ">") (c :: s) k H).
Qed.

Lemma attr_char_not_special c :
  attr_name_char c = true -> is_space c || (c =c "/") = false /\ (c =c ">") = false.
Proof. by_ascii c. Qed.

(** One serialized attribute, in two iterations: the space, and the attribute. *)
Lemma attr_list_attribute closing acc a t :
  attribute_ok a = true ->
  attr_list closing acc (serialize_attribute a ++ t) =
  attr_list closing (keep_attribute closing acc (Some a)) t.
Proof.
  intros Ha. unfold attribute_ok in Ha. split_andb. apply eqb_bytes_true in H0.
  unfold serialize_attribute. rewrite <- !app_assoc. change (lit " " ++ ?x) with (" "%char :: x).
  change (lit "=" ++ [dquote] ++ ?x) with ("="%char :: dquote :: x).
  change ([dquote] ++ t) with (dquote :: t).
  rewrite attr_list_cons by done. cbn [attr_step]. change (is_space " ") with true. cbn [orb].
  change (keep_attribute closing acc None) with acc.
  destruct (attr_name a) as [|c n] eqn:En; [done|].
  assert (Hc : attr_name_char c = true) by (simpl in H1; by apply andb_prop in H1 as [-> _]).
  destruct (attr_char_not_special c Hc) as [Hs Hg].
  cbn [app]. rewrite attr_list_cons by done. unfold attr_step. rewrite Hs.
  rewrite app_comm_cons, span_app, skip_app by done.
  rewrite span_stop, skip_stop by done. rewrite app_nil_r, skip_stop by done.
  rewrite skip_stop by done. change ("=" =c "=") with true. cbn iota.
  unfold attr_value_at. change (is_quote dquote) with true. cbn iota.
  rewrite find_if_mid by (done || apply escape_attribute_no_quote).
  rewrite take_app_length, drop_app_S, decode_escape_attribute, H0.
  destruct a; simpl in *; by subst.
Qed.

Lemma existsb_name_app acc (a : Attribute) n :
  existsb (fun b => attr_name b =s n) (acc ++ [a]) =
  existsb (fun b => attr_name b =s n) acc || (attr_name a =s n).
Proof. rewrite existsb_app. simpl. by rewrite orb_false_r. Qed.

Lemma eqb_bytes_sym a b : (a =s b) = (b =s a).
Proof. apply eq_true_iff_eq. rewrite !eqb_bytes_true. done. Qed.

Lemma attr_list_serialized attrs : forall acc k,
  attributes_ok attrs = true ->
  forallb (fun a => negb (existsb (fun b => attr_name b =s attr_name a) acc)) attrs = true ->
  attr_list false acc (mjoin (serialize_attribute <$> attrs) ++ ">"%char :: k) =
  (acc ++ attrs, ">"%char :: k).
Proof.
  induction attrs as [|a attrs IH]; intros acc k Hok Hnew.
  { by rewrite app_nil_r. }
  unfold attributes_ok in Hok. simpl in Hok, Hnew. split_andb.
  rewrite mjoin_fmap_cons, <- app_assoc, attr_list_attribute by done.
  unfold keep_attribute. rewrite H. cbn [negb andb]. rewrite IH.
  - by rewrite <- app_assoc.
  - by apply andb_true_intro.
  - apply forallb_forall. intros b Hb. rewrite existsb_name_app.
    apply negb_true_iff, orb_false_iff. split.
    + rewrite forallb_forall in H0. by apply negb_true_iff, H0.
    + rewrite eqb_bytes_sym. apply not_true_is_false. intros E.
      assert (existsb (fun y => y =s attr_name a) (attr_name <$> attrs) = true) as E'.
      { apply existsb_exists. exists (attr_name b). split; [by apply in_map|done]. }
      change (attr_name <$> attrs) with (list_fmap _ _ attr_name attrs) in E'. congruence.
Qed.

Lemma serialized_attributes_head attrs k :
  head_is (fun c => negb (tag_name_char c)) (mjoin (serialize_attribute <$> attrs) ++ ">"%char :: k)
  = true.
Proof. by destruct attrs. Qed.

Lemma skip_head p (k : bytes) : head_is (fun c => negb (p c)) k = true -> span p k = [] /\ skip p k = k.
Proof. destruct k as [|c k]; [done|]. simpl. by destruct (p c). Qed.

Lemma next_tag_app closing n t :
  forallb tag_name_char n = true -> to_lower n = n ->
  head_is (fun c => negb (tag_name_char c)) t = true ->
  next_tag closing (n ++ t) =
  let '(attrs, rest) := attr_list closing [] t in
  ({| kind := if closing then TEndTag else TStartTag; data := n; attributes := attrs |},
   at_ (drop 1 rest)).
Proof.
  intros Hn Hl Ht. unfold next_tag. apply skip_head in Ht as [E1 E2].
  by rewrite span_app, skip_app, E1, E2, app_nil_r, Hl.
Qed.

(** A letter starts neither a comment, a declaration nor an end tag. *)
Lemma alpha_not_markup c :
  is_alpha c = true -> (c =c "!") = false /\ (c =c "?") = false /\ (c =c "/") = false.
Proof. by_ascii c. Qed.

Lemma next_start_tag n attrs k :
  name_ok n = true -> attributes_ok attrs = true ->
  next (at_ (serialize_start n attrs ++ k)) =
  ({| kind := TStartTag; data := n; attributes := attrs |}, at_ k).
Proof.
  intros Hn Ha. unfold name_ok in Hn. split_andb. apply eqb_bytes_true in H0.
  unfold serialize_start. rewrite <- !app_assoc. change (lit "<" ++ ?x) with ("<"%char :: x).
  change (lit ">" ++ ?x) with (">"%char :: x).
  destruct n as [|c n]; [done|]. destruct (alpha_not_markup c H) as (E1 & E2 & E3).
  rewrite next_at. unfold next_markup. change (negb ("<" =c "<")) with false. cbn iota.
  change (starts_with (lit "!--") ((c :: n) ++ ?x)) with (("!" =c c) && starts_with (lit "--") (n ++ x)).
  change (starts_with (lit "!") ((c :: n) ++ ?x)) with (("!" =c c) && true).
  change (starts_with (lit "?") ((c :: n) ++ ?x)) with (("?" =c c) && true).
  change (starts_with (lit "/") ((c :: n) ++ ?x)) with (("/" =c c) && true).
  rewrite !(Ascii.eqb_sym _ c), E1, E2, E3. cbn [andb orb app]. rewrite H.
  rewrite app_comm_cons, next_tag_app by (done || apply serialized_attributes_head).
  by rewrite attr_list_serialized by (done || by apply forallb_forall).
Qed.

Definition end_tag (n : bytes) : bytes := lit "</" ++ n ++ lit ">".

Lemma next_end_tag n k :
  name_ok n = true -> next (at_ (end_tag n ++ k)) = (plain TEndTag n, at_ k).
Proof.
  intros Hn. unfold name_ok in Hn. split_andb. apply eqb_bytes_true in H0.
  unfold end_tag. rewrite <- !app_assoc. change (lit "</" ++ ?x) with ("<"%char :: "/"%char :: x).
  destruct n as [|c n]; [done|].
  rewrite next_at. unfold next_markup. change (negb ("<" =c "<")) with false. cbn iota.
  change (starts_with (lit "!--") ("/"%char :: ?x)) with false.
  change (starts_with (lit "!") ("/"%char :: ?x)) with false.
  change (starts_with (lit "?") ("/"%char :: ?x)) with false.
  change (starts_with (lit "/") ("/"%char :: ?x)) with true. cbn [andb orb drop app]. rewrite H.
  by rewrite app_comm_cons, next_tag_app.
Qed.

(** *** Raw text *)

Lemma closes_app te s k : length te + 2 <= length s -> closes te (s ++ k) = closes te s.
Proof.
  destruct s as [|c s]; simpl; [lia|]. intros Hl.
  rewrite take_app_le by lia. rewrite drop_app_le by lia.
  pose proof (length_drop s (length te)) as Hd.
  destruct (drop (length te) s) as [|d t]; [simpl in Hd; lia|done].
Qed.

Lemma closes_end_tag te k : to_lower te = te -> closes te (lit "/" ++ te ++ lit ">" ++ k) = true.
Proof.
  intros Hl. change (lit "/" ++ ?x) with ("/"%char :: x). unfold closes.
  rewrite take_app_length, drop_app_length, Hl, eqb_bytes_refl. done.
Qed.

Lemma raw_text_length_end_tag te k : to_lower te = te -> raw_text_length te (end_tag te ++ k) = 0.
Proof.
  intros Hl. unfold end_tag. rewrite <- !app_assoc.
  change (lit "</" ++ ?x) with ("<"%char :: lit "/" ++ x). cbn [raw_text_length].
  by rewrite closes_end_tag.
Qed.

Lemma raw_text_length_app te s k :
  to_lower te = te -> raw_text_length te (s ++ end_tag te) = length s ->
  raw_text_length te (s ++ end_tag te ++ k) = length s.
Proof.
  intros Hl. induction s as [|c s IH].
  - intros _. by apply raw_text_length_end_tag.
  - cbn [app raw_text_length length].
    rewrite (app_assoc s (end_tag te) k), (closes_app te (s ++ end_tag te) k).
    2:{ unfold end_tag. rewrite !length_app. change (length (lit "</")) with 2.
        change (length (lit ">")) with 1. lia. }
    destruct (_ && _); [done|]. intros [= H]. f_equal. rewrite <- app_assoc. auto.
Qed.

(** The text of a raw text element, and the end tag behind an empty one. *)
Lemma next_raw_text te s d k :
  to_lower te = te -> te <> [] -> raw_text_length te (s ++ end_tag te) = length s ->
  d = (if is_rcdata_element te then decode_entities s else s) -> d <> [] ->
  next {| tk_rest := s ++ end_tag te ++ k; text_element_ := te |} =
  (plain TText d, at_ (end_tag te ++ k)).
Proof.
  intros Hl Hne Hs Hd Hdn. unfold next. cbn [tk_rest text_element_].
  assert (exists c r, s ++ end_tag te ++ k = c :: r) as (c & r & E).
  { destruct s; [|by eauto]. unfold end_tag. rewrite <- app_assoc.
    change (lit "</" ++ ?x) with ("<"%char :: lit "/" ++ x). simpl. eauto. }
  rewrite E. destruct te as [|t te]; [done|]. rewrite <- E.
  rewrite raw_text_length_app by done.
  rewrite take_app_length, drop_app_length, <- Hd. by destruct d.
Qed.

Lemma next_raw_empty te k :
  to_lower te = te ->
  next {| tk_rest := end_tag te ++ k; text_element_ := te |} = next (at_ (end_tag te ++ k)).
Proof.
  intros Hl. pose proof (raw_text_length_end_tag te k Hl) as Hz.
  destruct (end_tag te ++ k) as [|c r] eqn:E; [discriminate|].
  destruct te as [|t te]; [done|]. unfold next. cbn [tk_rest text_element_]. rewrite Hz.
  change (take 0 ?x) with (@nil ascii). change (drop 0 (c :: r)) with (c :: r).
  change (decode_entities []) with (@nil ascii). by destruct (is_rcdata_element (t :: te)).
Qed.

(** ** Trees the parser gives back

    [node_ok anc n]: [n] may stand below open elements of the names [anc] (innermost
    first; the document's empty name is last). *)
Definition serialize_list (l : list Node) (parent : bytes) : bytes :=
  mjoin ((fun c => serialize_impl c parent) <$> l).

Definition text_list (l : list Node) : bytes := mjoin (text_content <$> l).

Definition is_text (n : Node) : bool := match type n with Text => true | _ => false end.

Fixpoint no_adjacent_text (l : list Node) : bool :=
  match l with
  | a :: ((b :: _) as rest) => negb (is_text a && is_text b) && no_adjacent_text rest
  | _ => true
  end.

(** No rule of [close_for_start] closes an element. *)
Definition stays_open (anc : list bytes) (n : bytes) : bool :=
  forallb (fun '(starts, targets, barriers) =>
             negb (one_of n starts) ||
             match scoped_depth targets barriers anc with None => true | Some _ => false end)
          close_rules.

Definition find_is (pat s : bytes) : bool :=
  match find_sub pat (s ++ pat) with Some n => n =? length s | None => false end.

Definition leaf (n : Node) : bool :=
  negb (nonempty (name n)) && negb (nonempty (node_attributes n)) && negb (nonempty (children n)).

Definition raw_child_ok (n : bytes) (l : list Node) : bool :=
  match l with
  | [] => true
  | [t] => is_text t && leaf t && nonempty (text t) &&
           (is_rcdata_element n || (raw_text_length n (text t ++ end_tag n) =? length (text t)))
  | _ => false
  end.

Fixpoint node_ok (anc : list bytes) (n : Node) : bool :=
  (length anc <=? max_depth) &&
  match type n with
  | Document => false
  | Text => leaf n && nonempty (text n)
  | Comment => leaf n && find_is (lit "-->") (text n)
  | Doctype => leaf n && (to_lower (take 7 (text n)) =s lit "doctype") && find_is (lit ">") (text n)
  | Element =>
      name_ok (name n) && attributes_ok (node_attributes n) && negb (nonempty (text n)) &&
      stays_open anc (name n) &&
      (if is_void_element (name n) then negb (nonempty (children n))
       else if is_raw_text_element (name n) || is_rcdata_element (name n) then
         raw_child_ok (name n) (children n) &&
         (negb (nonempty (children n)) || (length anc <? max_depth))
       else no_adjacent_text (children n) && forallb (node_ok (name n :: anc)) (children n))
  end.

Definition document_ok (d : Node) : bool :=
  match type d with
  | Document => negb (nonempty (name d)) && negb (nonempty (node_attributes d)) &&
                negb (nonempty (text d)) && no_adjacent_text (children d) &&
                forallb (node_ok [[]]) (children d)
  | _ => false
  end.

Fixpoint node_count (n : Node) : N :=
  (1 + (fix go (l : list Node) : N := match l with [] => 0 | c :: l' => node_count c + go l' end)
         (children n))%N.

Definition list_count (l : list Node) : N := foldr (fun n c => node_count n + c)%N 0%N l.

(** Induction on trees, through the lists of children. *)
Lemma Node_rect' (P : Node -> Prop) :
  (forall ty n attrs t cs, Forall P cs -> P (mkNode ty n attrs t cs)) -> forall n, P n.
Proof.
  intros H. fix IH 1. intros [ty n attrs t cs]. apply H.
  induction cs as [|c cs IHcs]; constructor; [apply IH|apply IHcs].
Qed.

Lemma serialize_impl_element n attrs t cs parent :
  serialize_impl (mkNode Element n attrs t cs) parent =
  serialize_start n attrs ++
  (if is_void_element n then [] else serialize_list cs n ++ end_tag n).
Proof.
  cbn [serialize_impl type name node_attributes children]. unfold serialize_list, end_tag. f_equal.
  destruct (is_void_element n); [done|]. f_equal.
  induction cs as [|c cs IH]; [done|]. rewrite mjoin_fmap_cons. by rewrite IH.
Qed.

Lemma serialize_impl_document n attrs t cs parent :
  serialize_impl (mkNode Document n attrs t cs) parent = serialize_list cs [].
Proof.
  cbn [serialize_impl type children]. unfold serialize_list.
  induction cs as [|c cs IH]; [done|]. rewrite mjoin_fmap_cons. by rewrite IH.
Qed.

Lemma node_count_eq ty n attrs t cs : node_count (mkNode ty n attrs t cs) = (1 + list_count cs)%N.
Proof. done. Qed.

Lemma find_is_true pat s : find_is pat s = true -> find_sub pat (s ++ pat) = Some (length s).
Proof.
  unfold find_is. destruct (find_sub _ _); [|done]. by intros ->%Nat.eqb_eq.
Qed.

Lemma nonempty_false {A} (l : list A) : nonempty l = false -> l = [].
Proof. by destruct l. Qed.

Lemma stays_open_close stack n : stays_open (names stack) n = true -> close_for_start stack n = stack.
Proof.
  unfold stays_open, close_for_start. induction close_rules as [|[[st ta] ba] l IH]; [done|].
  simpl. intros [H Hl]%andb_prop.
  assert ((if one_of n st then close_scoped ta ba stack else stack) = stack) as ->; [|auto].
  destruct (one_of n st); [|done]. unfold close_scoped. by destruct (scoped_depth _ _ _).
Qed.

Lemma node_serialize_head anc n parent :
  node_ok anc n = true -> is_text n = false ->
  head_is (fun c => c =c "<") (serialize_impl n parent) = true.
Proof.
  destruct n as [ty n attrs t cs]. destruct ty; try done.
  cbn [node_ok type]. by rewrite andb_false_r.
Qed.

Lemma names_push_child n stack : names (push_child n stack) = names stack.
Proof. by destruct stack. Qed.

Lemma length_push_child n stack : length (push_child n stack) = length stack.
Proof. by destruct stack. Qed.

(** The loop on one node token. *)
Lemma parse_from_node stack count tk token tk' :
  next tk = (token, tk') -> kind token <> TEnd -> kind token <> TEndTag ->
  (kind token = TStartTag -> stays_open (names stack) (data token) = true) ->
  (count + 1 <= max_nodes)%N -> length stack <= max_depth ->
  parse_from stack count tk =
  let '(stack', tk2) := node_token token stack tk' in parse_from stack' (count + 1) tk2.
Proof.
  intros Hn H1 H2 Hopen Hc Hd. rewrite parse_from_eq, Hn.
  assert ((max_nodes <? count + 1)%N || (max_depth <? length stack) = false) as Hb.
  { apply orb_false_iff. split; [by apply N.ltb_ge|by apply Nat.ltb_ge]. }
  destruct (kind token); try done; cbn zeta.
  - by rewrite Hb.
  - by rewrite Hb.
  - by rewrite Hb.
  - rewrite stays_open_close by auto. by rewrite Hb.
Qed.

(** The end tag of the innermost open element. *)
Lemma parse_from_end_tag n attrs cs f stack count k :
  name_ok n = true ->
  parse_from ({| f_type := Element; f_name := n; f_attributes := attrs; f_children := cs |}
              :: f :: stack) count (at_ (end_tag n ++ k)) =
  parse_from (push_child (mkNode Element n attrs [] cs) (f :: stack)) count (at_ k).
Proof.
  intros Hn. rewrite parse_from_eq, next_end_tag by done. cbn [kind plain].
  f_equal. unfold close_end_tag. cbn [names map f_name end_tag_depth data plain].
  by rewrite eqb_bytes_refl.
Qed.

Definition add_children (f : frame) (cs : list Node) : frame :=
  {| f_type := f_type f; f_name := f_name f; f_attributes := f_attributes f;
     f_children := f_children f ++ cs |}.

(** The loop over the text of a node goes to the state behind it. *)
Definition parses (n : Node) : Prop := forall f stack count k,
  node_ok (names (f :: stack)) n = true -> is_raw_text_element (f_name f) = false ->
  (is_text n = true -> head_is (fun c => c =c "<") k = true) ->
  (count + node_count n <= max_nodes)%N ->
  parse_from (f :: stack) count (at_ (serialize_impl n (f_name f) ++ k)) =
  parse_from (add_children f [n] :: stack) (count + node_count n) (at_ k).

Lemma parse_list cs : Forall parses cs -> forall f stack count k,
  no_adjacent_text cs = true -> forallb (node_ok (names (f :: stack))) cs = true ->
  is_raw_text_element (f_name f) = false -> head_is (fun c => c =c "<") k = true ->
  (count + list_count cs <= max_nodes)%N ->
  parse_from (f :: stack) count (at_ (serialize_list cs (f_name f) ++ k)) =
  parse_from (add_children f cs :: stack) (count + list_count cs) (at_ k).
Proof.
  intros Hcs. induction Hcs as [|c cs Hc _ IH]; intros f stack count k Hadj Hok Hraw Hk Hcount.
  { rewrite N.add_0_r. unfold add_children. rewrite app_nil_r. by destruct f. }
  unfold serialize_list. rewrite mjoin_fmap_cons, <- app_assoc. fold (serialize_list cs (f_name f)).
  cbn [forallb list_count foldr] in *. apply andb_prop in Hok as [Hok1 Hok2].
  fold (list_count cs) in *.
  rewrite Hc; [|done..| |lia].
  - change (f_name f) with (f_name (add_children f [c])).
    rewrite IH; try done; [|by destruct cs; [|simpl in Hadj; split_andb]|lia].
    unfold add_children. cbn [f_type f_name f_attributes f_children].
    rewrite <- app_assoc. by rewrite N.add_assoc.
  - intros Ht. destruct cs as [|d cs]; [done|]. cbn [no_adjacent_text] in Hadj.
    apply andb_prop in Hadj as [Hd _]. rewrite Ht in Hd. cbn [andb] in Hd.
    apply negb_true_iff in Hd. cbn [forallb] in Hok2. apply andb_prop in Hok2 as [Hd2 _].
    unfold serialize_list. rewrite mjoin_fmap_cons, <- app_assoc.
    pose proof (node_serialize_head _ _ (f_name f) Hd2 Hd) as Hh.
    destruct (serialize_impl d (f_name f)) as [|e r] eqn:Es; [|done].
    destruct d as [[] dn da dt dc]; try done.
    cbn [node_ok type] in Hd2. by rewrite andb_false_r in Hd2.
Qed.

Lemma leaf_nil ty n attrs t cs :
  leaf (mkNode ty n attrs t cs) = true -> n = [] /\ attrs = [] /\ cs = [].
Proof. destruct n, attrs, cs; done. Qed.

(** The nodes that are one token. *)
Lemma parses_leaf ty t : ty <> Element -> parses (mkNode ty [] [] t []).
Proof.
  intros Hty f stack count k Hok Hraw Hk Hcount. rewrite node_count_eq in *. simpl (list_count _) in *.
  cbn [node_ok type text] in Hok. apply andb_prop in Hok as [Hd Hok]. apply Nat.leb_le in Hd.
  unfold names in Hd. rewrite length_map in Hd.
  assert (exists kd, next (at_ (serialize_impl (mkNode ty [] [] t []) (f_name f) ++ k)) =
          (plain kd t, at_ k) /\ kd <> TEnd /\ kd <> TEndTag /\ kd <> TStartTag /\
          ty = match kd with TText => Text | TComment => Comment | _ => Doctype end)
    as (kd & Hn & H1 & H2 & H3 & Hkd).
  { destruct ty; try done; cbn [serialize_impl type text]; split_andb.
    - exists TText. rewrite Hraw, next_text; [done|by destruct t|by apply Hk].
    - exists TComment. rewrite <- !app_assoc, next_comment; [done|by apply find_is_true].
    - exists TDoctype. apply eqb_bytes_true in H1.
      rewrite <- !app_assoc, next_doctype; [done|done|by apply find_is_true]. }
  rewrite (parse_from_node _ _ _ _ _ Hn) by (done || lia).
  replace (node_token (plain kd t) (f :: stack) (at_ k)) with
    (push_child (mkNode ty [] [] t []) (f :: stack), at_ k).
  - cbn [push_child]. unfold add_children. by rewrite N.add_0_r.
  - rewrite Hkd. by destruct kd.
Qed.

Lemma node_count_text t : node_count (mkNode Text [] [] t []) = 1%N.
Proof. done. Qed.

(** The content of a raw text element, up to its end tag. *)
Lemma parse_raw_child n attrs cs f stack count k :
  to_lower n = n -> n <> [] -> raw_child_ok n cs = true ->
  is_raw_text_element n || is_rcdata_element n = true ->
  (count + list_count cs <= max_nodes)%N ->
  (cs <> [] -> length (f :: stack) < max_depth) ->
  parse_from ({| f_type := Element; f_name := n; f_attributes := attrs; f_children := [] |}
                :: f :: stack) count
    {| tk_rest := serialize_list cs n ++ end_tag n ++ k; text_element_ := n |} =
  parse_from ({| f_type := Element; f_name := n; f_attributes := attrs; f_children := cs |}
                :: f :: stack) (count + list_count cs) (at_ (end_tag n ++ k)).
Proof.
  intros Hl Hne Hraw Hkind Hcount Hdepth.
  destruct cs as [|[ty tn ta tt tc] [|? ?]]; [| |done].
  { change (serialize_list [] n ++ ?x) with x.
    by rewrite parse_from_eq, next_raw_empty, <- parse_from_eq, N.add_0_r by done. }
  cbn [raw_child_ok text type is_text] in Hraw. destruct ty; try done.
  apply andb_prop in Hraw as [Hraw Hlen]. apply andb_prop in Hraw as [Hleaf Htt].
  apply leaf_nil in Hleaf as (-> & -> & ->). cbn [list_count foldr] in *. rewrite node_count_text in *.
  set (s := if is_raw_text_element n then tt else escape_text tt).
  assert (serialize_list [mkNode Text [] [] tt []] n = s) as ->.
  { subst s. unfold serialize_list. rewrite mjoin_fmap_cons. cbn. by rewrite app_nil_r. }
  assert (Hnx : next {| tk_rest := s ++ end_tag n ++ k; text_element_ := n |} =
                (plain TText tt, at_ (end_tag n ++ k))).
  { assert (Hexcl : is_raw_text_element n = true -> is_rcdata_element n = false).
    { unfold is_raw_text_element, is_rcdata_element, one_of. simpl. intros Hr.
      rewrite !orb_false_r in *. apply orb_true_iff in Hr as [Hr|Hr];
      apply eqb_bytes_true in Hr as ->; done. }
    apply next_raw_text; try done; [| |by destruct tt].
    - subst s. destruct (is_raw_text_element n) eqn:Er.
      + rewrite Hexcl in Hlen by done. by apply Nat.eqb_eq.
      + clear -Hl. pose proof (escape_text_no_lt tt) as Hn. revert Hn.
        generalize (escape_text tt) as e. induction e as [|c e IH]; intros Hn.
        * pose proof (raw_text_length_end_tag n [] Hl) as Hz. by rewrite app_nil_r in Hz.
        * simpl in Hn. split_andb. cbn [app raw_text_length length]. rewrite H. cbn [andb]. by rewrite IH.
    - subst s. destruct (is_raw_text_element n) eqn:Er.
      + by rewrite Hexcl.
      + simpl in Hkind. by rewrite Hkind, decode_escape_text. }
  specialize (Hdepth ltac:(done)).
  rewrite (parse_from_node _ _ _ _ _ Hnx) by (done || lia || (cbn [length] in *; lia)).
  cbn [node_token kind plain data push_child f_type f_name f_attributes f_children app].
  by rewrite N.add_0_r.
Qed.

Lemma name_ok_parts n : name_ok n = true -> to_lower n = n /\ n <> [].
Proof.
  unfold name_ok. intros H. split_andb. apply eqb_bytes_true in H0. by destruct n.
Qed.

Lemma node_ok_parses n : parses n.
Proof.
  induction n as [ty n attrs t cs IH] using Node_rect'.
  destruct (decide (ty = Element)) as [->|Hty].
  2:{ intros f stack count k Hok. assert (leaf (mkNode ty n attrs t cs) = true) as Hl.
      { cbn [node_ok type] in Hok. apply andb_prop in Hok as [_ Hok]. destruct ty; split_andb; done. }
      apply leaf_nil in Hl as (-> & -> & ->). revert Hok. by apply parses_leaf. }
  intros f stack count k Hok Hraw _ Hcount.
  rewrite node_count_eq in *. rewrite serialize_impl_element, <- app_assoc.
  cbn [node_ok type name node_attributes text children] in Hok.
  apply andb_prop in Hok as [Hd Hok]. apply Nat.leb_le in Hd. unfold names in Hd.
  rewrite length_map in Hd. apply andb_prop in Hok as [Hok Hcs].
  apply andb_prop in Hok as [Hok Hopen]. apply andb_prop in Hok as [Hok Ht].
  apply andb_prop in Hok as [Hn Ha]. apply negb_true_iff, nonempty_false in Ht as ->.
  destruct (name_ok_parts n Hn) as [Hl Hne].
  rewrite (parse_from_node _ _ _ _ _ (next_start_tag n attrs _ Hn Ha)) by (done || lia).
  unfold node_token. cbn [kind data attributes].
  destruct (is_void_element n) eqn:Hv.
  { apply negb_true_iff, nonempty_false in Hcs as ->. simpl (list_count []).
    by rewrite app_nil_l, N.add_0_r. }
  rewrite <- app_assoc, N.add_assoc.
  destruct (is_raw_text_element n || is_rcdata_element n) eqn:Hr.
  - apply andb_prop in Hcs as [Hchild Hdepth]. unfold text_element. cbn [tk_rest at_].
    rewrite parse_raw_child; [|done..|lia|].
    + by rewrite parse_from_end_tag.
    + intros Hcn. destruct cs as [|c cs]; [done|]. simpl in Hdepth.
      apply Nat.ltb_lt in Hdepth. unfold names in Hdepth. rewrite length_map in Hdepth. done.
  - apply andb_prop in Hcs as [Hadj Hcs]. apply orb_false_iff in Hr as [Hr _].
    rewrite (parse_list cs IH {| f_type := Element; f_name := n; f_attributes := attrs;
                                 f_children := [] |}) by (done || lia).
    unfold add_children at 1. cbn [f_type f_name f_attributes f_children app].
    by rewrite parse_from_end_tag.
Qed.

(** ** What the parser can build *)

Fixpoint tree_depth (n : Node) : nat :=
  S ((fix go (l : list Node) : nat :=
        match l with [] => 0 | c :: l' => Nat.max (tree_depth c) (go l') end) (children n)).

Definition list_depth (l : list Node) : nat := foldr (fun n d => Nat.max (tree_depth n) d) 0 l.

(** A node below the document: only elements have children, a void element has none. *)
Fixpoint shape_ok (n : Node) : bool :=
  match type n with
  | Document => false
  | Element => negb (nonempty (text n)) &&
               (negb (is_void_element (name n)) || negb (nonempty (children n))) &&
               forallb shape_ok (children n)
  | _ => leaf n
  end.

Definition children_ok (depth : nat) (l : list Node) : Prop :=
  depth <= S max_depth /\ Forall (fun c => shape_ok c = true /\ depth + tree_depth c <= S max_depth) l.

Fixpoint stack_inv (stack : list frame) : Prop :=
  match stack with
  | [] => False
  | [f] => f_type f = Document /\ f_name f = [] /\ f_attributes f = [] /\
           children_ok 1 (f_children f)
  | f :: rest => f_type f = Element /\ is_void_element (f_name f) = false /\
                 children_ok (length stack) (f_children f) /\ stack_inv rest
  end.

Definition stack_count (stack : list frame) : N :=
  foldr (fun f c => 1 + list_count (f_children f) + c)%N 0%N stack.

Lemma tree_depth_eq ty n attrs t cs : tree_depth (mkNode ty n attrs t cs) = S (list_depth cs).
Proof. done. Qed.

Lemma list_depth_bound d l b :
  Forall (fun c => d + tree_depth c <= b) l -> d <= b -> d + list_depth l <= b.
Proof. intros Hl Hd. induction Hl; simpl; lia. Qed.

Lemma list_count_app l1 l2 : list_count (l1 ++ l2) = (list_count l1 + list_count l2)%N.
Proof. induction l1 as [|c l1 IH]; simpl; [done|]. rewrite IH. lia. Qed.

Lemma push_child_inv n stack :
  stack_inv stack -> shape_ok n = true -> length stack + tree_depth n <= S max_depth ->
  stack_inv (push_child n stack) /\
  stack_count (push_child n stack) = (stack_count stack + node_count n)%N.
Proof.
  intros Hs Hn Hd. destruct stack as [|f stack]; [done|]. split.
  - assert (children_ok (length (f :: stack)) (f_children f ++ [n])).
    { assert (children_ok (length (f :: stack)) (f_children f)) as [H1 H2]
        by (destruct stack; apply Hs).
      split; [done|]. apply Forall_app. split; [done|]. by apply Forall_singleton. }
    destruct stack as [|g stack]; cbn [push_child stack_inv f_type f_name f_attributes f_children];
      split_and!; try done; apply Hs.
  - cbn [push_child stack_count foldr f_children]. rewrite list_count_app. simpl. lia.
Qed.

Lemma close_frames_inv m : forall stack,
  stack_inv stack ->
  stack_inv (close_frames m stack) /\ stack_count (close_frames m stack) = stack_count stack.
Proof.
  induction m as [|m IH]; intros [|f [|g stack]] Hs; cbn [close_frames]; try done.
  destruct Hs as (Ht & Hv & [Hl Hc] & Hs).
  assert (shape_ok (plug f) = true).
  { unfold plug. rewrite Ht. cbn [shape_ok type text name children]. rewrite Hv. simpl.
    apply forallb_forall. intros c Hin%list_elem_of_In. rewrite Forall_forall in Hc. by apply Hc. }
  assert (length (g :: stack) + tree_depth (plug f) <= S max_depth).
  { unfold plug. rewrite tree_depth_eq.
    pose proof (list_depth_bound (length (f :: g :: stack)) (f_children f) (S max_depth)) as Hb.
    simpl in *. enough (S (S (length stack)) + list_depth (f_children f) <= S max_depth) by lia.
    apply Hb; [|lia]. eapply Forall_impl; [exact Hc|]. by intros ? []. }
  destruct (push_child_inv (plug f) (g :: stack)) as [Hi Hc']; try done.
  destruct (IH (push_child (plug f) (g :: stack)) Hi) as [H1 H2]. split; [done|].
  rewrite H2, Hc'. unfold plug at 1. rewrite node_count_eq. cbn [stack_count foldr]. lia.
Qed.

Lemma close_scoped_inv targets barriers stack :
  stack_inv stack -> stack_inv (close_scoped targets barriers stack) /\
  stack_count (close_scoped targets barriers stack) = stack_count stack.
Proof.
  unfold close_scoped. destruct (scoped_depth _ _ _); [apply close_frames_inv|done].
Qed.

Lemma close_for_start_inv stack n :
  stack_inv stack ->
  stack_inv (close_for_start stack n) /\ stack_count (close_for_start stack n) = stack_count stack.
Proof.
  unfold close_for_start. generalize close_rules as l. intros l. revert stack.
  induction l as [|[[st ta] ba] l IH]; intros stack Hs; simpl; [done|].
  destruct (one_of n st); [|by apply IH].
  destruct (close_scoped_inv ta ba stack Hs) as [H1 H2].
  destruct (IH _ H1) as [H3 H4]. split; [done|congruence].
Qed.

Lemma close_end_tag_inv d stack :
  stack_inv stack ->
  stack_inv (close_end_tag d stack) /\ stack_count (close_end_tag d stack) = stack_count stack.
Proof.
  unfold close_end_tag. destruct (end_tag_depth _ _); [apply close_frames_inv|done].
Qed.

Lemma node_token_inv token stack tk :
  stack_inv stack -> length stack <= max_depth -> kind token <> TEnd -> kind token <> TEndTag ->
  stack_inv (node_token token stack tk).1 /\
  stack_count (node_token token stack tk).1 = (stack_count stack + 1)%N.
Proof.
  intros Hs Hd H1 H2. unfold node_token.
  destruct (kind token); try done; cbn [fst];
    try (apply push_child_inv; [done|done|simpl; lia]).
  destruct (is_void_element (data token)) eqn:Hv; cbn [fst].
  - apply push_child_inv; [done| |simpl; lia].
    cbn [shape_ok type text name children]. by rewrite Hv.
  - destruct stack as [|f stack]; [done|]. split; [|simpl; lia].
    split_and!; try done. split; [simpl in *; lia|constructor].
Qed.

(** The loop keeps the invariant, and with enough fuel it never runs out. *)
Lemma parse_loop_inv fuel : forall stack count tk,
  stack_inv stack -> stack_count stack = count -> length (tk_rest tk) < fuel ->
  match parse_loop fuel stack count tk with
  | Ret stack' => stack_inv stack' /\ (stack_count stack' <= N.max count max_nodes)%N
  | Throw e => e = ResourceLimit
  end.
Proof.
  induction fuel as [|fuel IH]; intros stack count tk Hs Hc Hf; [lia|]. cbn [parse_loop].
  pose proof (next_shorter tk) as Hn. destruct (next tk) as [token tk']. cbn [fst snd] in Hn.
  destruct (decide (kind token = TEnd)) as [Ek|Ek]; [rewrite Ek; split; [done|lia]|].
  specialize (Hn Ek). destruct (decide (kind token = TEndTag)) as [Ek2|Ek2].
  { rewrite Ek2. destruct (close_end_tag_inv (data token) stack Hs) as [H1 H2].
    apply IH; [done|congruence|lia]. }
  set (stack1 := match kind token with TStartTag => close_for_start stack (data token)
                                     | _ => stack end).
  assert (stack_inv stack1 /\ stack_count stack1 = count) as [H1 H2].
  { subst stack1 count. destruct (kind token); try done. by apply close_for_start_inv. }
  assert (Hgoal : match
      (if (max_nodes <? count + 1)%N || (max_depth <? length stack1) then Throw ResourceLimit
       else let '(stack2, tk2) := node_token token stack1 tk' in
            parse_loop fuel stack2 (count + 1)%N tk2) with
    | Ret stack' => stack_inv stack' /\ (stack_count stack' <= N.max count max_nodes)%N
    | Throw e => e = ResourceLimit end).
  { destruct (_ || _) eqn:Eb; [done|]. apply orb_false_iff in Eb as [Eb1 Eb2].
    apply N.ltb_ge in Eb1. apply Nat.ltb_ge in Eb2.
    destruct (node_token_inv token stack1 tk' H1 Eb2 Ek Ek2) as [H3 H4].
    pose proof (node_token_rest token stack1 tk') as Hr.
    destruct (node_token token stack1 tk') as [stack2 tk2]. cbn [fst snd] in *.
    specialize (IH stack2 (count + 1)%N tk2 H3). rewrite Hr in IH.
    specialize (IH ltac:(by rewrite H4, H2) ltac:(lia)).
    destruct (parse_loop _ _ _ _); [|done]. split; [apply IH|]. destruct IH as [_ IH]. lia. }
  by destruct (kind token).
Qed.

Lemma stack_inv_singleton stack m :
  stack_inv stack -> length stack <= S m -> exists f, close_frames m stack = [f].
Proof.
  revert stack. induction m as [|m IH]; intros [|f [|g stack]] Hs Hl; simpl in *; try done; try lia.
  - by exists f.
  - by exists f.
  - apply IH; [|simpl; lia].
    destruct (close_frames_inv 1 (f :: g :: stack) Hs) as [H _]. done.
Qed.

(** ** Properties *)

Lemma parse_html_tree_limits html :
  match parse_html_tree html with
  | Throw e => e = ResourceLimit
  | Ret d => type d = Document /\ forallb shape_ok (children d) = true /\
             tree_depth d <= S max_depth /\ (node_count d <= max_nodes)%N
  end.
Proof.
  unfold parse_html_tree. destruct (_ <? _)%N; [done|].
  assert (stack_inv [document_frame]) as H0 by (by repeat constructor).
  pose proof (parse_loop_inv (S (length html)) [document_frame] 1 (at_ html) H0 eq_refl
                (Nat.lt_succ_diag_r _)) as H.
  destruct (parse_loop _ _ _ _) as [stack|e]; [|done]. destruct H as [Hs Hc]. simpl.
  unfold root_node. destruct (close_frames_inv (length stack) stack Hs) as [Hi Hcount].
  destruct (stack_inv_singleton stack (length stack) Hs ltac:(lia)) as [f Ef].
  rewrite Ef in *. destruct Hi as (Ht & _ & _ & Hd & Hch). unfold plug.
  rewrite tree_depth_eq, node_count_eq. cbn [type children]. split_and!; [done| | |].
  - apply forallb_forall. intros c Hin%list_elem_of_In. rewrite Forall_forall in Hch. by apply Hch.
  - apply (list_depth_bound 1); [|done]. eapply Forall_impl; [exact Hch|]. by intros ? [].
  - cbn [stack_count foldr] in Hcount. change (N.max 1 max_nodes) with max_nodes in Hc. lia.
Qed.

(** C3: the parser is total and respects its limits: it returns a document or reports a resource
    limit, the loop always ends; text of more than 16 megabytes is refused, whatever it holds; and a
    document it returns is that of a text within that bound, has at most 250000 nodes, is at most 256
    levels deep below the root, and only its elements have children, void elements none. *)
Theorem parse_html_tree_bounded html :
  ((max_bytes < N.of_nat (length html))%N -> parse_html_tree html = Throw ResourceLimit) /\
  match parse_html_tree html with
  | Throw e => e = ResourceLimit
  | Ret d => (N.of_nat (length html) <= max_bytes)%N /\
             type d = Document /\ forallb shape_ok (children d) = true /\
             tree_depth d <= S max_depth /\ (node_count d <= max_nodes)%N
  end.
Proof.
  assert (Hlong : (max_bytes < N.of_nat (length html))%N -> parse_html_tree html = Throw ResourceLimit).
  { intros H%N.ltb_lt. unfold parse_html_tree. by rewrite H. }
  split; [done|]. pose proof (parse_html_tree_limits html) as H.
  destruct (parse_html_tree html) as [d|e]; [|done]. split; [|done].
  apply N.le_ngt. intros Hl. by specialize (Hlong Hl).
Qed.

(** C4: parsing the serialization of a document gives back the document, for every
    document whose nodes the grammar can express: lower-case tag and attribute names,
    no adjacent text nodes, nesting that no implied end tag breaks. *)
Theorem parse_serialize d :
  document_ok d = true -> (node_count d <= max_nodes)%N ->
  (N.of_nat (length (serialize d [])) <= max_bytes)%N ->
  parse_html_tree (serialize d []) = Ret d.
Proof.
  intros Hok Hcount Hsize. destruct d as [ty n attrs t cs]. unfold document_ok in Hok.
  cbn [type name node_attributes text children] in Hok. destruct ty; try done. split_andb.
  apply nonempty_false in H, H2, H3. subst. rewrite node_count_eq in Hcount.
  unfold parse_html_tree. rewrite (proj2 (N.ltb_ge _ _)) by done.
  unfold serialize. rewrite serialize_impl_document.
  change (parse_loop (S (length (serialize_list cs []))) [document_frame] 1
            (at_ (serialize_list cs []))) with
    (parse_from [document_frame] 1 (at_ (serialize_list cs (f_name document_frame)))).
  rewrite <- (app_nil_r (serialize_list _ _)).
  rewrite parse_list by (done || apply Forall_true, node_ok_parses).
  by rewrite parse_from_eq.
Qed.

Lemma parse_serialize_witness :
  exists d, parse_html_tree (lit "<!doctype html><div a='1'>x &lt; <br><!--c--><title>t</title></div>") = Ret d /\
            parse_html_tree (serialize d []) = Ret d.
Proof.
  eexists. split; [vm_compute; reflexivity|].
  apply parse_serialize; vm_compute; [reflexivity|discriminate|discriminate].
Defined.

(** Escaping is undone by character-reference decoding, for every byte string, in text
    and in attribute values, and the escaped form holds no markup delimiter. *)
Theorem escape_decode s :
  decode_entities (escape_text s) = s /\ decode_entities (escape_attribute s) = s /\
  none (fun c => c =c "<") (escape_text s) = true /\
  none (fun c => c =c dquote) (escape_attribute s) = true.
Proof.
  split_and!; [apply decode_escape_text|apply decode_escape_attribute|
               apply escape_text_no_lt|apply escape_attribute_no_quote].
Qed.
