(* ===== verification/Dom.v ===== *)
(** * The DOM: [src/flatworm/dom_node.cpp] and the tree operations of [dom.cpp]

    Nodes are shared and mutated in place, so they live in a store indexed by node
    identity ([std::shared_ptr<Node>] is an id).  [children] owns, [parent] is the weak
    link back.  A node reachable through a handle stays alive, so a parent link of a
    stored node that is set always locks.  The mutation listener appends to [log]. *)
From S2P Require Import Prelude Html HtmlTree.

Record dnode := {
  n_type : NodeType; n_name : bytes; n_attributes : list Attribute; n_text : bytes;
  n_children : list nat; n_parent : option nat; mutation_sink : bool }.

(** [MutationInfo]; the kind is one of "child-added", "child-removed", "attribute-set",
    "attribute-removed", "text-set". *)
Inductive MutationKind :=
  ChildAdded | ChildRemoved | AttributeSet | AttributeRemoved | TextSet.

Record MutationInfo := {
  m_kind : MutationKind; m_node_name : bytes; m_attribute_name : bytes; m_value : bytes }.

Record dom := { nodes : gmap nat dnode; next_id : nat; log : list MutationInfo }.

Definition with_nodes (d : dom) (m : gmap nat dnode) : dom :=
  {| nodes := m; next_id := next_id d; log := log d |}.

(** ** Field updates *)
Definition set_parent (p : option nat) (n : dnode) : dnode :=
  {| n_type := n_type n; n_name := n_name n; n_attributes := n_attributes n;
     n_text := n_text n; n_children := n_children n; n_parent := p;
     mutation_sink := mutation_sink n |}.

Definition set_children (f : list nat -> list nat) (n : dnode) : dnode :=
  {| n_type := n_type n; n_name := n_name n; n_attributes := n_attributes n;
     n_text := n_text n; n_children := f (n_children n); n_parent := n_parent n;
     mutation_sink := mutation_sink n |}.

Definition set_attributes (f : list Attribute -> list Attribute) (n : dnode) : dnode :=
  {| n_type := n_type n; n_name := n_name n; n_attributes := f (n_attributes n);
     n_text := n_text n; n_children := n_children n; n_parent := n_parent n;
     mutation_sink := mutation_sink n |}.

Definition set_sink (b : bool) (n : dnode) : dnode :=
  {| n_type := n_type n; n_name := n_name n; n_attributes := n_attributes n;
     n_text := n_text n; n_children := n_children n; n_parent := n_parent n;
     mutation_sink := b |}.

Definition update (i : nat) (f : dnode -> dnode) (d : dom) : dom :=
  with_nodes d (alter f i (nodes d)).

(** ** Parents *)

(** [shared_parent()]. *)
Definition parent_of (d : dom) (i : nat) : option nat := nodes d !! i ≫= n_parent.

Definition children_of (d : dom) (i : nat) : list nat :=
  from_option n_children [] (nodes d !! i).

(** The chain of parents, from [i] itself; the number of nodes is enough fuel. *)
Fixpoint chain (fuel : nat) (d : dom) (i : nat) : list nat :=
  match fuel with
  | O => []
  | S fuel' => i :: match parent_of d i with
                    | Some p => chain fuel' d p
                    | None => []
                    end
  end.

Definition self_and_ancestors (d : dom) (i : nat) : list nat := chain (size (nodes d)) d i.

(** [document_root()]. *)
Definition document_root (d : dom) (i : nat) : nat := List.last (self_and_ancestors d i) i.

Definition report_mutation (i : nat) (info : MutationInfo) (d : dom) : dom :=
  match nodes d !! document_root d i with
  | Some root =>
      if mutation_sink root then
        {| nodes := nodes d; next_id := next_id d; log := log d ++ [info] |}
      else d
  | None => d
  end.

Definition name_of (d : dom) (i : nat) : bytes := from_option n_name [] (nodes d !! i).

(** ** Operations *)

Definition new_node (t : NodeType) (name text : bytes) : dnode :=
  {| n_type := t; n_name := name; n_attributes := []; n_text := text; n_children := [];
     n_parent := None; mutation_sink := false |}.

(** [make_node]. *)
Definition make_node (n : dnode) (d : dom) : nat * dom :=
  (next_id d, {| nodes := <[next_id d := n]> (nodes d); next_id := S (next_id d); log := log d |}).

Fixpoint find_attribute (name : bytes) (l : list Attribute) : option bytes :=
  match l with
  | [] => None
  | a :: l' => if attr_name a =s name then Some (attr_value a) else find_attribute name l'
  end.

(** [Node::attribute]. *)
Definition attribute (d : dom) (i : nat) (name : bytes) : option bytes :=
  nodes d !! i ≫= fun n => find_attribute name (n_attributes n).

(** Set the first attribute of that name, or append one. *)
Fixpoint put_attribute (name value : bytes) (l : list Attribute) : list Attribute :=
  match l with
  | [] => [ {| attr_name := name; attr_value := value |} ]
  | a :: l' => if attr_name a =s name then {| attr_name := attr_name a; attr_value := value |} :: l'
               else a :: put_attribute name value l'
  end.

Definition set_attribute (i : nat) (name value : bytes) (d : dom) : dom :=
  report_mutation i
    {| m_kind := AttributeSet; m_node_name := name_of d i; m_attribute_name := name; m_value := value |}
    (update i (set_attributes (put_attribute name value)) d).

Definition drop_attribute (name : bytes) (l : list Attribute) : list Attribute :=
  List.filter (fun a => negb (attr_name a =s name)) l.

Definition remove_attribute (i : nat) (name : bytes) (d : dom) : bool * dom :=
  match attribute d i name with
  | None => (false, d)
  | Some _ =>
      (true, report_mutation i
               {| m_kind := AttributeRemoved; m_node_name := name_of d i;
                  m_attribute_name := name; m_value := [] |}
               (update i (set_attributes (drop_attribute name)) d))
  end.

(** Erase the first occurrence: [std::find] and [erase]. *)
Fixpoint erase (x : nat) (l : list nat) : list nat :=
  match l with
  | [] => []
  | y :: l' => if decide (y = x) then l' else y :: erase x l'
  end.

Definition child_info (k : MutationKind) (name : bytes) : MutationInfo :=
  {| m_kind := k; m_node_name := name; m_attribute_name := []; m_value := [] |}.

(** [Node::append_child]: nothing when the child is the node or one of its ancestors. *)
Definition append_child (self child : nat) (d : dom) : dom :=
  if decide (child ∈ self_and_ancestors d self) then d
  else
    let old_parent := parent_of d child in
    let d1 := update self (set_children (fun l => l ++ [child])) d in
    let d2 := match old_parent with
              | Some p => update p (set_children (erase child)) d1
              | None => d1
              end in
    let d3 := update child (set_parent (Some self)) d2 in
    let d4 := match old_parent with
              | Some p => report_mutation p (child_info ChildRemoved (name_of d child)) d3
              | None => d3
              end in
    report_mutation self (child_info ChildAdded (name_of d child)) d4.

(** [Node::remove_child]. *)
Definition remove_child (self child : nat) (d : dom) : bool * dom :=
  if decide (child ∈ children_of d self) then
    let removed_name := name_of d child in
    let d1 := update child (set_parent None) d in
    let d2 := update self (set_children (erase child)) d1 in
    (true, report_mutation self (child_info ChildRemoved removed_name) d2)
  else (false, d).

(** [Element::set_text]. *)
Definition set_text (i : nat) (value : bytes) (d : dom) : dom :=
  let d1 := foldl (fun d c => update c (set_parent None) d) d (children_of d i) in
  let d2 := update i (set_children (fun _ => [])) d1 in
  let '(t, d3) := make_node (new_node Text [] value) d2 in
  let d4 := update t (set_parent (Some i)) d3 in
  let d5 := update i (set_children (fun l => l ++ [t])) d4 in
  report_mutation i
    {| m_kind := TextSet; m_node_name := name_of d i; m_attribute_name := []; m_value := value |} d5.

(** [Document::create_element]; the tag is folded to lower case. *)
Definition create_element (tag : bytes) (d : dom) : nat * dom :=
  make_node (new_node Element (to_lower tag) []) d.

(** [Document::set_mutation_listener] on the root. *)
Definition set_mutation_listener (root : nat) (listener : bool) (d : dom) : dom :=
  update root (set_sink listener) d.

(** ** Navigation ([Element]) *)

Definition is_element (d : dom) (i : nat) : bool :=
  match nodes d !! i with
  | Some n => bool_decide (n_type n = Element)
  | None => false
  end.

Definition element_parent (d : dom) (i : nat) : option nat :=
  match parent_of d i with
  | Some p => if is_element d p then Some p else None
  | None => None
  end.

Definition element_children (d : dom) (i : nat) : list nat :=
  List.filter (is_element d) (children_of d i).

Definition first_child (d : dom) (i : nat) : option nat := List.find (is_element d) (children_of d i).

(** The loops of [next_sibling] and [previous_sibling] over the parent's children. *)
Fixpoint next_sibling_in (d : dom) (i : nat) (found : bool) (l : list nat) : option nat :=
  match l with
  | [] => None
  | s :: l' => if found && is_element d s then Some s
               else next_sibling_in d i (if decide (s = i) then true else found) l'
  end.

Definition next_sibling (d : dom) (i : nat) : option nat :=
  p ← parent_of d i; next_sibling_in d i false (children_of d p).

Fixpoint previous_sibling_in (d : dom) (i : nat) (previous : option nat) (l : list nat) : option nat :=
  match l with
  | [] => previous
  | s :: l' => if decide (s = i) then previous
               else previous_sibling_in d i (if is_element d s then Some s else previous) l'
  end.

Definition previous_sibling (d : dom) (i : nat) : option nat :=
  p ← parent_of d i; previous_sibling_in d i None (children_of d p).

(** The tree under a node, in the form the serializer takes; no tree is deeper than the
    number of nodes. *)
Fixpoint tree_at (fuel : nat) (d : dom) (i : nat) : Node :=
  match nodes d !! i, fuel with
  | Some n, S fuel' => mkNode (n_type n) (n_name n) (n_attributes n) (n_text n)
                         (map (tree_at fuel' d) (n_children n))
  | _, _ => mkNode Text [] [] [] []
  end.

Definition tree_of (d : dom) (i : nat) : Node := tree_at (size (nodes d)) d i.

Definition element_text (d : dom) (i : nat) : bytes := text_content (tree_of d i).

Definition outer_html (d : dom) (i : nat) : bytes :=
  serialize (tree_of d i) (from_option (name_of d) [] (parent_of d i)).

Definition inner_html (d : dom) (i : nat) : bytes :=
  mjoin ((fun c => outer_html d c) <$> children_of d i).

(** The depth-first scan of [Document::get_element_by_id]. *)
Fixpoint scan_id (fuel : nat) (d : dom) (id : bytes) (i : nat) : option nat :=
  match fuel with
  | O => None
  | S fuel' =>
      if is_element d i && match attribute d i (lit "id") with Some v => v =s id | None => false end
      then Some i
      else (fix go (l : list nat) : option nat :=
              match l with
              | [] => None
              | c :: l' => match scan_id fuel' d id c with Some r => Some r | None => go l' end
              end) (children_of d i)
  end.

Definition get_element_by_id (d : dom) (root : nat) (id : bytes) : option nat :=
  if nonempty id then scan_id (size (nodes d)) d id root else None.

(** ** Reading an updated store *)

Lemma parent_of_update i f d j :
  parent_of (update i f d) j =
  if decide (i = j) then nodes d !! i ≫= (fun n => n_parent (f n)) else parent_of d j.
Proof.
  unfold parent_of, update, with_nodes. simpl. destruct (decide (i = j)) as [->|Hne].
  - rewrite lookup_alter_eq. by destruct (nodes d !! j).
  - by rewrite lookup_alter_ne.
Qed.

Lemma children_of_update i f d j :
  children_of (update i f d) j =
  if decide (i = j) then from_option (n_children ∘ f) [] (nodes d !! i) else children_of d j.
Proof.
  unfold children_of, update, with_nodes. simpl. destruct (decide (i = j)) as [->|Hne].
  - rewrite lookup_alter_eq. by destruct (nodes d !! j).
  - by rewrite lookup_alter_ne.
Qed.

Lemma parent_of_set_children i f d j : parent_of (update i (set_children f) d) j = parent_of d j.
Proof.
  rewrite parent_of_update. case_decide as E; [subst|done]. unfold parent_of.
  by destruct (nodes d !! j).
Qed.

Lemma children_of_set_parent i p d j : children_of (update i (set_parent p) d) j = children_of d j.
Proof.
  rewrite children_of_update. case_decide as E; [subst|done]. unfold children_of.
  by destruct (nodes d !! j).
Qed.

Lemma parent_of_set_parent i p d j :
  is_Some (nodes d !! i) ->
  parent_of (update i (set_parent p) d) j = if decide (i = j) then p else parent_of d j.
Proof. intros [n Hn]. rewrite parent_of_update, Hn. done. Qed.

Lemma children_of_set_children i f d j :
  is_Some (nodes d !! i) ->
  children_of (update i (set_children f) d) j =
  if decide (i = j) then f (children_of d i) else children_of d j.
Proof.
  intros [n Hn]. rewrite children_of_update. unfold children_of. rewrite Hn. done.
Qed.

Lemma is_Some_update i f d j : is_Some (nodes (update i f d) !! j) <-> is_Some (nodes d !! j).
Proof. unfold update, with_nodes. simpl. by rewrite lookup_alter_is_Some. Qed.

Lemma nodes_report i info d : nodes (report_mutation i info d) = nodes d.
Proof. unfold report_mutation. repeat case_match; done. Qed.

Lemma next_id_report i info d : next_id (report_mutation i info d) = next_id d.
Proof. unfold report_mutation. repeat case_match; done. Qed.

Lemma parent_of_report i info d j : parent_of (report_mutation i info d) j = parent_of d j.
Proof. unfold parent_of. by rewrite nodes_report. Qed.

Lemma children_of_report i info d j : children_of (report_mutation i info d) j = children_of d j.
Proof. unfold children_of. by rewrite nodes_report. Qed.

#[export] Hint Rewrite parent_of_set_children children_of_set_parent parent_of_report
  children_of_report nodes_report next_id_report : prowse.

(** ** Forests

    The two views of the links, parents and children, agree, no child is listed twice
    and no node is its own ancestor. *)
Record forest (P : nat -> option nat) (C : nat -> list nat) : Prop := {
  fo_agree : forall c p, c ∈ C p <-> P c = Some p;
  fo_nodup : forall p, NoDup (C p);
  fo_acyclic : forall i, ~ tc (fun c p => P c = Some p) i i }.

Record dom_wf (d : dom) : Prop := {
  wf_bound : forall i, is_Some (nodes d !! i) -> i < next_id d;
  wf_forest : forest (parent_of d) (children_of d) }.

#[export] Instance forest_proper :
  Proper (pointwise_relation nat eq ==> pointwise_relation nat eq ==> iff) forest.
Proof.
  assert (forall P Q C D, pointwise_relation nat eq P Q -> pointwise_relation nat eq C D ->
            forest P C -> forest Q D) as H.
  { intros P Q C D HP HC [H1 H2 H3]. constructor.
    - intros c p. rewrite <- HP, <- HC. apply H1.
    - intros p. rewrite <- HC. apply H2.
    - intros i Hi. apply (H3 i). revert Hi. apply tc_subrel. intros c p. simpl. by rewrite HP. }
  intros P Q HP C D HC. split; apply H; done.
Qed.

Lemma erase_in x y (l : list nat) : NoDup l -> y ∈ erase x l <-> y ∈ l /\ y <> x.
Proof.
  induction 1 as [|z l Hz Hnd IH]; simpl; [set_solver|]. case_decide; set_solver.
Qed.

Lemma erase_nodup x (l : list nat) : NoDup l -> NoDup (erase x l).
Proof.
  induction 1 as [|z l Hz Hnd IH]; simpl; [constructor|]. case_decide; [done|].
  constructor; [|done]. rewrite erase_in by done. naive_solver.
Qed.

Lemma erase_app x (l1 l2 : list nat) : x ∈ l1 -> erase x (l1 ++ l2) = erase x l1 ++ l2.
Proof.
  induction l1 as [|z l1 IH]; simpl; [set_solver|]. intros H. case_decide; [done|].
  simpl. f_equal. apply IH. set_solver.
Qed.

Lemma erase_not_in x (l : list nat) : x ∉ l -> erase x l = l.
Proof.
  induction l as [|z l IH]; simpl; [done|]. intros H. case_decide; [set_solver|].
  f_equal. apply IH. set_solver.
Qed.

(** Moving a node below another one that is not under it. *)
Lemma move_rtc (P : nat -> option nat) self child a b :
  rtc (fun c p => (if decide (c = child) then Some self else P c) = Some p) a b ->
  rtc (fun c p => P c = Some p) a b \/ rtc (fun c p => P c = Some p) a child.
Proof.
  induction 1 as [|a p b Hs Hr IH]; [by left; constructor|]. case_decide as E.
  - subst. right. constructor.
  - destruct IH; [left|right]; econstructor; eauto.
Qed.

Lemma move_tc (P : nat -> option nat) self child a b :
  let R' := fun c p => (if decide (c = child) then Some self else P c) = Some p in
  tc R' a b -> tc (fun c p => P c = Some p) a b \/ (rtc R' self b /\ rtc R' a child).
Proof.
  intros R'. assert (Hstep : forall c p, R' c p -> (c = child /\ p = self) \/ P c = Some p).
  { intros c p. unfold R'. case_decide; [intros [= <-]|]; auto. }
  induction 1 as [a b Hab|a y b Hay Hyb IH]; destruct (Hstep _ _ ltac:(eassumption)) as [[-> ->]|Hp].
  - right. split; constructor.
  - left. by apply tc_once.
  - right. split; [by apply tc_rtc|constructor].
  - destruct IH as [IH|[IH1 IH2]]; [left; by eapply tc_l|right; split; [done|]].
    by eapply rtc_l.
Qed.

Lemma move_acyclic (P : nat -> option nat) self child :
  (forall i, ~ tc (fun c p => P c = Some p) i i) ->
  ~ rtc (fun c p => P c = Some p) self child ->
  forall i, ~ tc (fun c p => (if decide (c = child) then Some self else P c) = Some p) i i.
Proof.
  intros Hac Hanc i Hi. destruct (move_tc P self child i i Hi) as [H|[H1 H2]]; [by eapply Hac|].
  apply Hanc. pose proof (transitivity H1 H2) as H.
  by destruct (move_rtc P self child self child H).
Qed.

(** Cutting a parent link makes no cycle. *)
Lemma cut_acyclic (P Q : nat -> option nat) :
  (forall i, ~ tc (fun c p => P c = Some p) i i) ->
  (forall c p, Q c = Some p -> P c = Some p) ->
  forall i, ~ tc (fun c p => Q c = Some p) i i.
Proof. intros Hac HQ i Hi. apply (Hac i). revert Hi. apply tc_subrel. intros c p. simpl. apply HQ. Qed.

Lemma forest_append P C self child :
  forest P C -> ~ rtc (fun c p => P c = Some p) self child ->
  forest (fun j => if decide (j = child) then Some self else P j)
         (fun j => if decide (j = self) then erase child (C self) ++ [child] else erase child (C j)).
Proof.
  intros [Ha Hn Hac] Hanc. constructor.
  - intros c p. destruct (decide (p = self)) as [->|Hp].
    + rewrite elem_of_app, erase_in, list_elem_of_singleton, Ha by auto.
      destruct (decide (c = child)); naive_solver.
    + rewrite erase_in, Ha by auto. destruct (decide (c = child)); naive_solver.
  - intros p. case_decide; [|by apply erase_nodup].
    apply NoDup_app. split_and!; [by apply erase_nodup| |by repeat constructor; set_solver].
    intros x Hx ->%list_elem_of_singleton. apply erase_in in Hx; naive_solver.
  - by apply move_acyclic.
Qed.

Lemma forest_remove P C self child :
  forest P C -> child ∈ C self ->
  forest (fun j => if decide (j = child) then None else P j)
         (fun j => if decide (j = self) then erase child (C self) else C j).
Proof.
  intros [Ha Hn Hac] Hin. apply Ha in Hin. constructor.
  - intros c p. case_decide as Hp.
    + subst. rewrite erase_in, Ha by auto. case_decide; naive_solver.
    + rewrite Ha. case_decide; naive_solver.
  - intros p. case_decide; [by apply erase_nodup|done].
  - eapply cut_acyclic; [done|]. intros c p. simpl. case_decide; naive_solver.
Qed.

(** ** The parent chain *)
Abbreviation edge d := (fun c p => parent_of d c = Some p).

Lemma chain_rtc fuel d i j : j ∈ chain fuel d i -> rtc (edge d) i j.
Proof.
  revert i. induction fuel as [|fuel IH]; intros i; simpl; [set_solver|].
  intros [->|Hj]%elem_of_cons; [constructor|].
  destruct (parent_of d i) as [p|] eqn:Ep; [|set_solver]. econstructor; [exact Ep|auto].
Qed.

Lemma stored_length (d : dom) (l : list nat) :
  NoDup l -> (forall j, j ∈ l -> is_Some (nodes d !! j)) -> length l <= size (nodes d).
Proof.
  intros Hl Hs. rewrite <- (size_list_to_set (C := gset nat)) by done.
  rewrite <- size_dom. apply subseteq_size. intros j.
  rewrite elem_of_list_to_set, elem_of_dom. apply Hs.
Qed.

Section WellFormed.
Context (d : dom) (Hwf : dom_wf d).

Lemma parent_in_store i p : parent_of d i = Some p -> is_Some (nodes d !! i) /\ is_Some (nodes d !! p).
Proof using Hwf.
  intros H. split.
  - unfold parent_of in H. destruct (nodes d !! i); [done|discriminate].
  - apply (fo_agree _ _ (wf_forest d Hwf)) in H. unfold children_of in H.
    destruct (nodes d !! p); [done|]. set_solver.
Qed.

Lemma chain_nodup fuel i : NoDup (chain fuel d i).
Proof using Hwf.
  revert i. induction fuel as [|fuel IH]; intros i; simpl; [constructor|].
  destruct (parent_of d i) as [p|] eqn:Ep; [|by repeat constructor; set_solver].
  constructor; [|done]. intros Hi%chain_rtc.
  apply (fo_acyclic _ _ (wf_forest d Hwf) i). eapply tc_rtc_r; [by apply tc_once|done].
Qed.

Lemma chain_in_store fuel i j :
  is_Some (nodes d !! i) -> j ∈ chain fuel d i -> is_Some (nodes d !! j).
Proof using Hwf.
  revert i. induction fuel as [|fuel IH]; intros i Hi; simpl; [set_solver|].
  intros [->|Hj]%elem_of_cons; [done|].
  destruct (parent_of d i) as [p|] eqn:Ep; [|set_solver].
  apply (IH p); [|done]. by apply parent_in_store in Ep as [_ ?].
Qed.

Lemma chain_length fuel i : is_Some (nodes d !! i) -> length (chain fuel d i) <= size (nodes d).
Proof using Hwf.
  intros Hi. apply stored_length; [apply chain_nodup|]. intros j. by apply chain_in_store.
Qed.

Lemma chain_full n i j : nsteps (edge d) n i j -> length (chain (S n) d i) = S n.
Proof using Type.
  induction 1 as [i|n i p j Hp _ IH]; [simpl; by destruct (parent_of d i)|].
  change (chain (S (S n)) d i) with (i :: match parent_of d i with
    | Some p => chain (S n) d p | None => [] end). rewrite Hp. cbn [length]. by rewrite IH.
Qed.

Lemma chain_complete n fuel i j : nsteps (edge d) n i j -> n < fuel -> j ∈ chain fuel d i.
Proof using Hwf.
  intros H. revert fuel. induction H as [i|n i p j Hp _ IH]; intros [|fuel] Hf; try lia; simpl.
  - set_solver.
  - rewrite Hp. apply elem_of_cons. right. apply IH. lia.
Qed.

(** The walk over the parents meets exactly the node and its ancestors. *)
Lemma self_and_ancestors_spec i j :
  is_Some (nodes d !! i) -> j ∈ self_and_ancestors d i <-> rtc (edge d) i j.
Proof using Hwf.
  intros Hi. split; [apply chain_rtc|]. intros [n Hn]%rtc_nsteps.
  apply (chain_complete n); [done|]. pose proof (chain_length (S n) i Hi) as Hl.
  by rewrite (chain_full n i j Hn) in Hl.
Qed.

Lemma chain_last fuel i :
  0 < fuel -> length (chain fuel d i) < fuel ->
  rtc (edge d) i (List.last (chain fuel d i) i) /\ parent_of d (List.last (chain fuel d i) i) = None.
Proof using Type.
  revert i. induction fuel as [|fuel IH]; intros i Hf Hl; [lia|]. cbn [chain] in *.
  destruct (parent_of d i) as [p|] eqn:Ep; [|split; [constructor|done]].
  destruct fuel as [|fuel]; [simpl in Hl; lia|].
  destruct (IH p ltac:(lia) ltac:(simpl in *; lia)) as [H1 H2].
  assert (Hne : chain (S fuel) d p <> []) by done.
  assert (List.last (i :: chain (S fuel) d p) i = List.last (chain (S fuel) d p) p) as ->.
  { generalize (chain (S fuel) d p), Hne. clear. intros l Hl. revert i p.
    destruct l as [|x l]; [done|]. intros i p. simpl. clear Hl. revert x.
    induction l as [|y l IH]; intros x; [done|]. apply IH. }
  split; [by eapply rtc_l|done].
Qed.

(** The number of nodes is enough fuel. *)
Lemma chain_full_size i :
  is_Some (nodes d !! i) -> chain (S (size (nodes d))) d i = chain (size (nodes d)) d i.
Proof using Hwf.
  intros Hi. pose proof (chain_length (S (size (nodes d))) i Hi) as Hl.
  revert Hl. generalize (size (nodes d)) as n. clear. intros n. revert i.
  induction n as [|n IH]; intros i Hl; [simpl in Hl; lia|].
  change (chain (S (S n)) d i) with (i :: match parent_of d i with
    | Some p => chain (S n) d p | None => [] end) in *.
  cbn [chain]. f_equal. destruct (parent_of d i) as [p|]; [|done].
  apply (IH p). simpl in Hl. simpl. lia.
Qed.

(** [document_root] ends at the node above that has no parent. *)
Lemma document_root_spec i :
  is_Some (nodes d !! i) ->
  rtc (edge d) i (document_root d i) /\ parent_of d (document_root d i) = None.
Proof using Hwf.
  intros Hi. unfold document_root, self_and_ancestors.
  pose proof (chain_length (S (size (nodes d))) i Hi) as Hl.
  pose proof (chain_last (S (size (nodes d))) i ltac:(lia) ltac:(lia)) as [H1 H2].
  by rewrite chain_full_size in *.
Qed.
End WellFormed.

(** ** What the operations do to the links *)

(** The fields of a node no structural operation changes. *)
Definition payload (n : dnode) : NodeType * bytes * list Attribute * bytes * bool :=
  (n_type n, n_name n, n_attributes n, n_text n, mutation_sink n).

Definition same_payload (d1 d2 : dom) (j : nat) : Prop :=
  payload <$> nodes d1 !! j = payload <$> nodes d2 !! j.

Lemma payload_update i f d j :
  (forall n, payload (f n) = payload n) -> same_payload (update i f d) d j.
Proof.
  intros Hf. unfold same_payload, update, with_nodes. simpl.
  destruct (decide (i = j)) as [->|Hne].
  - rewrite lookup_alter_eq, <- option_fmap_compose. destruct (nodes d !! j); simpl; [|done].
    by rewrite Hf.
  - by rewrite lookup_alter_ne.
Qed.

Lemma payload_report i info d j : same_payload (report_mutation i info d) d j.
Proof. unfold same_payload. by rewrite nodes_report. Qed.

Lemma same_payload_trans d1 d2 d3 j : same_payload d1 d2 j -> same_payload d2 d3 j -> same_payload d1 d3 j.
Proof. unfold same_payload. congruence. Qed.

Lemma is_Some_report i info d j : is_Some (nodes (report_mutation i info d) !! j) <-> is_Some (nodes d !! j).
Proof. by rewrite nodes_report. Qed.

(** The store behind [append_child], without the reports. *)
Definition relink (self child : nat) (d : dom) : dom :=
  let d1 := update self (set_children (fun l => l ++ [child])) d in
  let d2 := match parent_of d child with
            | Some p => update p (set_children (erase child)) d1
            | None => d1
            end in
  update child (set_parent (Some self)) d2.

Lemma append_child_nodes self child d :
  child ∉ self_and_ancestors d self ->
  nodes (append_child self child d) = nodes (relink self child d) /\
  next_id (append_child self child d) = next_id d.
Proof.
  intros H. unfold append_child. rewrite decide_False by done. unfold relink.
  destruct (parent_of d child); rewrite ?nodes_report, ?next_id_report; done.
Qed.

Lemma relink_store self child d j :
  is_Some (nodes (relink self child d) !! j) <-> is_Some (nodes d !! j).
Proof. unfold relink. destruct (parent_of d child); by rewrite !is_Some_update. Qed.

Lemma relink_payload self child d j : same_payload (relink self child d) d j.
Proof.
  unfold relink. destruct (parent_of d child);
    repeat (eapply same_payload_trans; [by apply payload_update|]); done.
Qed.

Lemma relink_links self child d :
  dom_wf d -> is_Some (nodes d !! self) -> is_Some (nodes d !! child) -> self <> child ->
  (forall j, parent_of (relink self child d) j =
             if decide (j = child) then Some self else parent_of d j) /\
  (forall j, children_of (relink self child d) j =
             if decide (j = self) then erase child (children_of d self) ++ [child]
             else erase child (children_of d j)).
Proof.
  intros Hwf Hs Hc Hne. pose proof (wf_forest d Hwf) as Hf. unfold relink.
  destruct (parent_of d child) as [p|] eqn:Ep.
  - assert (Hp : child ∈ children_of d p) by by apply Hf.
    destruct (parent_in_store d Hwf child p Ep) as [_ Hps]. split; intros j.
    + rewrite parent_of_set_parent by by rewrite !is_Some_update.
      rewrite !parent_of_set_children. by destruct (decide (child = j)), (decide (j = child)).
    + rewrite children_of_set_parent, children_of_set_children by by rewrite is_Some_update.
      rewrite !children_of_set_children by done.
      destruct (decide (p = j)) as [->|Hpj].
      * destruct (decide (self = j)) as [->|Hsj]; [|by rewrite decide_False by done].
        rewrite decide_True by done. by rewrite erase_app.
      * destruct (decide (self = j)) as [->|Hsj].
        { rewrite decide_True by done. rewrite erase_not_in; [done|].
          intros Hin. apply Hf in Hin. congruence. }
        rewrite decide_False by done. rewrite erase_not_in; [done|].
        intros Hin. apply Hf in Hin. congruence.
  - assert (Hno : forall j, child ∉ children_of d j).
    { intros j Hin. apply Hf in Hin. congruence. }
    split; intros j.
    + rewrite parent_of_set_parent by by rewrite is_Some_update.
      rewrite parent_of_set_children. by destruct (decide (child = j)), (decide (j = child)).
    + rewrite children_of_set_parent, children_of_set_children by done.
      rewrite !erase_not_in by done.
      destruct (decide (self = j)) as [->|]; [by rewrite decide_True|by rewrite decide_False].
Qed.

(** The links of a store only depend on its nodes. *)
Lemma links_nodes d1 d2 :
  nodes d1 = nodes d2 -> parent_of d1 = parent_of d2 /\ children_of d1 = children_of d2.
Proof. intros E. unfold parent_of, children_of. by rewrite E. Qed.

(** *** Moving and removing a node *)

Lemma append_child_links d self child :
  dom_wf d -> is_Some (nodes d !! self) -> is_Some (nodes d !! child) -> ~ rtc (edge d) self child ->
  let d' := append_child self child d in
  dom_wf d' /\
  (forall j, parent_of d' j = if decide (j = child) then Some self else parent_of d j) /\
  (forall j, children_of d' j = if decide (j = self) then erase child (children_of d self) ++ [child]
                                else erase child (children_of d j)) /\
  (forall j, same_payload d' d j).
Proof.
  intros Hwf Hs Hc H. assert (Hni : child ∉ self_and_ancestors d self) by (intros Hi%chain_rtc; done).
  assert (Hne : self <> child) by (intros ->; by apply H).
  destruct (append_child_nodes self child d Hni) as [En Ei]. destruct (links_nodes _ _ En) as [Ep Ec].
  destruct (relink_links self child d Hwf Hs Hc Hne) as [Hp Hch]. cbn zeta. split_and!.
  - constructor.
    + intros i. rewrite En, Ei, relink_store. apply Hwf.
    + rewrite Ep, Ec. eapply forest_proper; [intros j; apply Hp|intros j; apply Hch|].
      apply forest_append; [apply Hwf|done].
  - intros j. by rewrite Ep.
  - intros j. by rewrite Ec.
  - intros j. unfold same_payload. rewrite En. apply relink_payload.
Qed.

Lemma append_child_ancestor d self child :
  dom_wf d -> is_Some (nodes d !! self) -> rtc (edge d) self child -> append_child self child d = d.
Proof. intros Hwf Hs H. unfold append_child. by rewrite decide_True by by apply self_and_ancestors_spec. Qed.

Lemma remove_child_links d self child :
  dom_wf d -> child ∈ children_of d self ->
  let d' := (remove_child self child d).2 in
  dom_wf d' /\
  (forall j, parent_of d' j = if decide (j = child) then None else parent_of d j) /\
  (forall j, children_of d' j = if decide (j = self) then erase child (children_of d self) else children_of d j) /\
  (forall j, same_payload d' d j).
Proof.
  intros Hwf Hin. pose proof (wf_forest d Hwf) as Hf.
  assert (Ep : parent_of d child = Some self) by by apply Hf.
  destruct (parent_in_store d Hwf child self Ep) as [Hc Hs].
  unfold remove_child. rewrite decide_True by done. cbn [snd]. set (d' := report_mutation _ _ _).
  assert (Hp : forall j, parent_of d' j = if decide (j = child) then None else parent_of d j).
  { intros j. subst d'. rewrite parent_of_report, parent_of_set_children, parent_of_set_parent by done.
    by destruct (decide (child = j)), (decide (j = child)). }
  assert (Hch : forall j, children_of d' j = if decide (j = self) then erase child (children_of d self)
                                             else children_of d j).
  { intros j. subst d'. rewrite children_of_report, children_of_set_children by by rewrite is_Some_update.
    rewrite !children_of_set_parent. by destruct (decide (self = j)), (decide (j = self)). }
  cbn zeta. split_and!; try done.
  - constructor.
    + intros i. subst d'. rewrite nodes_report, next_id_report, !is_Some_update. apply Hwf.
    + eapply forest_proper; [intros j; apply Hp|intros j; apply Hch|]. by apply forest_remove.
  - intros j. subst d'. eapply same_payload_trans; [apply payload_report|].
    repeat (eapply same_payload_trans; [by apply payload_update|]). done.
Qed.

(** ** Properties *)

(** C5: [append_child] moves a node: it becomes the last child of its new parent and is
    listed nowhere else, every other link stays, nothing but links changes, and the
    forest invariant is kept; appending a node below itself or below one of its
    descendants changes nothing. *)
Theorem append_child_spec d self child :
  dom_wf d -> is_Some (nodes d !! self) -> is_Some (nodes d !! child) ->
  let d' := append_child self child d in
  (rtc (edge d) self child -> d' = d) /\
  (~ rtc (edge d) self child ->
   dom_wf d' /\
   (forall j, parent_of d' j = if decide (j = child) then Some self else parent_of d j) /\
   (forall j, children_of d' j = if decide (j = self) then erase child (children_of d self) ++ [child]
                                 else erase child (children_of d j)) /\
   (forall j, same_payload d' d j)).
Proof.
  intros Hwf Hs Hc. cbn zeta. split; [by apply append_child_ancestor|]. intros H. by apply append_child_links.
Qed.

(** [remove_child] reports whether the node is a child; then it detaches it (it keeps
    its own subtree), keeps the order of the others, and the forest invariant holds. *)
Theorem remove_child_spec d self child :
  dom_wf d ->
  let '(removed, d') := remove_child self child d in
  (removed = true <-> child ∈ children_of d self) /\
  (removed = false -> d' = d) /\
  (removed = true ->
   dom_wf d' /\
   (forall j, parent_of d' j = if decide (j = child) then None else parent_of d j) /\
   (forall j, children_of d' j = if decide (j = self) then erase child (children_of d self)
                                 else children_of d j) /\
   (forall j, same_payload d' d j)).
Proof.
  intros Hwf. pose proof (remove_child_links d self child Hwf) as H. unfold remove_child in *.
  case_decide as Hin; [|split_and!; done]. split_and!; [done|done|intros _]. by apply H.
Qed.

(** [document_root] of a stored node is its ancestor without a parent. *)
Theorem document_root_correct d i :
  dom_wf d -> is_Some (nodes d !! i) ->
  rtc (edge d) i (document_root d i) /\ parent_of d (document_root d i) = None.
Proof. intros Hwf. by apply document_root_spec. Qed.

(** *** [set_text] *)

Definition detach (d : dom) (c : nat) : dom := update c (set_parent None) d.

Lemma detach_all_spec l : forall d,
  Forall (fun c => is_Some (nodes d !! c)) l ->
  let d' := foldl detach d l in
  (forall j, parent_of d' j = if decide (j ∈ l) then None else parent_of d j) /\
  (forall j, children_of d' j = children_of d j) /\
  (forall j, is_Some (nodes d' !! j) <-> is_Some (nodes d !! j)) /\
  (forall j, same_payload d' d j) /\ next_id d' = next_id d.
Proof.
  induction l as [|c l IH]; intros d Hl; cbn zeta; cbn [foldl].
  { by split_and!. }
  apply Forall_cons in Hl as [Hc Hl].
  destruct (IH (detach d c)) as (H1 & H2 & H3 & H4 & H5).
  { eapply Forall_impl; [exact Hl|]. intros x. unfold detach. by rewrite is_Some_update. }
  split_and!.
  - intros j. rewrite H1. unfold detach. rewrite parent_of_set_parent by done.
    destruct (decide (j ∈ l)) as [Hj|Hj].
    + rewrite decide_True by set_solver. done.
    + destruct (decide (c = j)) as [->|Hcj]; [by rewrite decide_True by set_solver|].
      by rewrite decide_False by set_solver.
  - intros j. rewrite H2. unfold detach. by rewrite children_of_set_parent.
  - intros j. rewrite H3. unfold detach. by rewrite is_Some_update.
  - intros j. eapply same_payload_trans; [apply H4|]. by apply payload_update.
  - done.
Qed.

(** The children of a node detached and dropped. *)
Definition clear_children (i : nat) (d : dom) : dom :=
  update i (set_children (fun _ => [])) (foldl detach d (children_of d i)).

Lemma clear_children_spec i d :
  dom_wf d -> is_Some (nodes d !! i) ->
  let d' := clear_children i d in
  (forall j, parent_of d' j = if decide (j ∈ children_of d i) then None else parent_of d j) /\
  (forall j, children_of d' j = if decide (j = i) then [] else children_of d j) /\
  (forall j, is_Some (nodes d' !! j) <-> is_Some (nodes d !! j)) /\
  (forall j, same_payload d' d j) /\ next_id d' = next_id d.
Proof.
  intros Hwf Hi. unfold clear_children. pose proof (wf_forest d Hwf) as Hf.
  assert (Hch : Forall (fun c => is_Some (nodes d !! c)) (children_of d i)).
  { apply Forall_forall. intros c Hc. apply Hf in Hc. by apply (parent_in_store d Hwf) in Hc as [? _]. }
  destruct (detach_all_spec (children_of d i) d Hch) as (A1 & A2 & A3 & A4 & A5).
  split_and!.
  - intros j. by rewrite parent_of_set_children.
  - intros j. rewrite children_of_set_children by by apply A3. rewrite !A2.
    by destruct (decide (i = j)), (decide (j = i)).
  - intros j. by rewrite is_Some_update.
  - intros j. eapply same_payload_trans; [by apply payload_update|apply A4].
  - done.
Qed.

(** A fresh leaf appended to the children of a node: what [set_text] does with its text
    node, and the parser with every node. *)
Definition hang (i : nat) (n : dnode) (d : dom) : dom :=
  let '(t, d1) := make_node n d in
  update i (set_children (fun l => l ++ [t])) (update t (set_parent (Some i)) d1).

Lemma hang_spec i n d :
  (forall j, is_Some (nodes d !! j) -> j < next_id d) -> is_Some (nodes d !! i) ->
  n_children n = [] -> n_parent n = None ->
  let d' := hang i n d in
  let t := next_id d in
  (forall j, parent_of d' j = if decide (j = t) then Some i else parent_of d j) /\
  (forall j, children_of d' j = if decide (j = i) then children_of d i ++ [t] else children_of d j) /\
  (forall j, is_Some (nodes d' !! j) <-> j = t \/ is_Some (nodes d !! j)) /\
  payload <$> nodes d' !! t = Some (payload n) /\
  (forall j, j <> t -> same_payload d' d j) /\ next_id d' = S t.
Proof.
  intros Hb Hi Hnc Hnp. cbn zeta. unfold hang, make_node. set (t := next_id d).
  set (d1 := {| nodes := <[t:=n]> (nodes d); next_id := S t; log := log d |}).
  assert (Ht : nodes d !! t = None).
  { apply eq_None_not_Some. intros H. apply Hb in H. subst t. lia. }
  assert (Hti : t <> i) by (intros ->; rewrite Ht in Hi; by destruct Hi).
  assert (C0 : forall j, nodes d1 !! j = if decide (j = t) then Some n else nodes d !! j).
  { intros j. subst d1. cbn [nodes]. rewrite lookup_insert.
    by destruct (decide (t = j)), (decide (j = t)). }
  assert (Ht1 : is_Some (nodes d1 !! t)) by (rewrite C0, decide_True by done; eauto).
  assert (Hi1 : is_Some (nodes d1 !! i)) by (by rewrite C0, decide_False by done).
  assert (Hpay : forall j, same_payload (update i (set_children (fun l => l ++ [t]))
                                           (update t (set_parent (Some i)) d1)) d1 j).
  { intros j. repeat (eapply same_payload_trans; [by apply payload_update|]). done. }
  split_and!.
  - intros j. rewrite parent_of_set_children, parent_of_set_parent by done.
    unfold parent_of at 1. rewrite C0. by destruct (decide (t = j)), (decide (j = t)).
  - intros j. rewrite children_of_set_children by by rewrite is_Some_update.
    rewrite !children_of_set_parent. unfold children_of. rewrite !C0, (decide_False (P := i = t)) by done.
    destruct (decide (i = j)) as [->|]; [by rewrite decide_True|].
    rewrite (decide_False (P := j = i)) by done. case_decide as Ejt; [|done].
    rewrite Ejt, Ht. simpl. done.
  - intros j. rewrite !is_Some_update, C0. case_decide; naive_solver.
  - rewrite Hpay, C0, decide_True by done. done.
  - intros j Hj. eapply same_payload_trans; [apply Hpay|]. unfold same_payload.
    by rewrite C0, decide_False.
  - done.
Qed.

Lemma forest_set_text P C i t :
  forest P C -> P t = None -> C t = [] -> t <> i ->
  forest (fun j => if decide (j = t) then Some i else if decide (j ∈ C i) then None else P j)
         (fun j => if decide (j = i) then [t] else C j).
Proof.
  intros [Ha Hn Hac] Ht Hct Hti. constructor.
  - intros c p. destruct (decide (p = i)) as [->|Hp].
    + rewrite list_elem_of_singleton. destruct (decide (c = t)); [naive_solver|].
      destruct (decide (c ∈ C i)) as [Hc|Hc]; [naive_solver|]. rewrite <- Ha. naive_solver.
    + rewrite Ha. destruct (decide (c = t)); [naive_solver|].
      destruct (decide (c ∈ C i)) as [Hc%Ha|Hc]; naive_solver.
  - intros p. case_decide; [|done]. apply NoDup_singleton.
  - set (Q := fun j => if decide (j ∈ C i) then None else P j).
    assert (HQ : forall c p, Q c = Some p -> P c = Some p) by (intros c p; unfold Q; by case_decide).
    apply (move_acyclic Q i t); [by apply (cut_acyclic P)|].
    intros H. apply rtc_inv_r in H as [->|(y & _ & Hy)]; [done|].
    apply HQ, Ha in Hy. rewrite Hct in Hy. set_solver.
Qed.

(** [set_text] replaces the children of a node by one fresh text node that holds the
    value; the former children are detached and keep their subtrees, every other link
    stays, and the forest invariant holds. *)
Theorem set_text_spec d i value :
  dom_wf d -> is_Some (nodes d !! i) ->
  let d' := set_text i value d in
  let t := next_id d in
  dom_wf d' /\
  children_of d' i = [t] /\
  payload <$> nodes d' !! t = Some (Text, [], [], value, false) /\
  (forall j, parent_of d' j = if decide (j = t) then Some i
                              else if decide (j ∈ children_of d i) then None else parent_of d j) /\
  (forall j, j <> i -> children_of d' j = children_of d j) /\
  (forall j, j <> t -> same_payload d' d j).
Proof.
  intros Hwf Hi. cbn zeta.
  destruct (clear_children_spec i d Hwf Hi) as (A1 & A2 & A3 & A4 & A5).
  set (info := {| m_kind := TextSet; m_node_name := name_of d i; m_attribute_name := []; m_value := value |}).
  change (set_text i value d) with
    (report_mutation i info (hang i (new_node Text [] value) (clear_children i d))).
  assert (Hb : forall j, is_Some (nodes (clear_children i d) !! j) -> j < next_id (clear_children i d)).
  { intros j. rewrite A3, A5. apply Hwf. }
  destruct (hang_spec i (new_node Text [] value) (clear_children i d) Hb ltac:(by apply A3) eq_refl eq_refl)
    as (B1 & B2 & B3 & B4 & B5 & B6). rewrite A5 in *.
  assert (Hfresh : nodes d !! next_id d = None).
  { apply eq_None_not_Some. intros H. apply (wf_bound d Hwf) in H. lia. }
  assert (Hti : next_id d <> i) by (intros E; rewrite E in Hfresh; rewrite Hfresh in Hi; by destruct Hi).
  set (d' := hang _ _ _) in *.
  assert (D1 : forall j, parent_of d' j = if decide (j = next_id d) then Some i
                              else if decide (j ∈ children_of d i) then None else parent_of d j).
  { intros j. by rewrite B1, A1. }
  assert (D2 : forall j, children_of d' j = if decide (j = i) then [next_id d] else children_of d j).
  { intros j. rewrite B2, !A2. rewrite (decide_True (P := i = i)) by done. by case_decide. }
  split_and!.
  - constructor.
    + intros j. rewrite nodes_report, next_id_report, B3, B6, A3.
      intros [->|Hj%(wf_bound d Hwf)]; lia.
    + eapply forest_proper; [intros j; rewrite parent_of_report; apply D1|
                             intros j; rewrite children_of_report; apply D2|].
      apply forest_set_text; [apply Hwf| | |done]; unfold parent_of, children_of; by rewrite Hfresh.
  - by rewrite children_of_report, D2, decide_True.
  - by rewrite nodes_report.
  - intros j. by rewrite parent_of_report.
  - intros j Hj. by rewrite children_of_report, D2, decide_False.
  - intros j Hj. eapply same_payload_trans; [apply payload_report|].
    eapply same_payload_trans; [by apply B5|apply A4].
Qed.

(** *** Attributes *)

Lemma find_put_attribute name value l m :
  find_attribute m (put_attribute name value l) =
  if decide (m = name) then Some value else find_attribute m l.
Proof.
  induction l as [|a l IH]; simpl.
  - rewrite eqb_bytes_sym. case_decide as E; [subst; by rewrite eqb_bytes_refl|].
    by rewrite (proj2 (eqb_bytes_false m name)).
  - destruct (attr_name a =s name) eqn:Ea; simpl.
    + apply eqb_bytes_true in Ea. rewrite Ea. case_decide as E; [subst; by rewrite eqb_bytes_refl|].
      by rewrite (proj2 (eqb_bytes_false name m)).
    + rewrite IH. destruct (attr_name a =s m) eqn:Em; [|done].
      apply eqb_bytes_true in Em. apply eqb_bytes_false in Ea. rewrite decide_False; congruence.
Qed.

Lemma put_attribute_names name value l :
  attr_name <$> put_attribute name value l =
  match find_attribute name l with
  | Some _ => attr_name <$> l
  | None => (attr_name <$> l) ++ [name]
  end.
Proof.
  induction l as [|a l IH]; simpl; [done|]. destruct (attr_name a =s name) eqn:Ea; [done|].
  simpl. change (list_fmap _ _ attr_name) with (fmap attr_name (M := list)). rewrite IH.
  by destruct (find_attribute name l).
Qed.

Lemma find_drop_attribute name l m :
  find_attribute m (drop_attribute name l) = if decide (m = name) then None else find_attribute m l.
Proof.
  induction l as [|a l IH]; simpl; [by case_decide|].
  destruct (attr_name a =s name) eqn:Ea; simpl.
  - rewrite IH. case_decide as E; [done|]. apply eqb_bytes_true in Ea.
    by rewrite (proj2 (eqb_bytes_false (attr_name a) m)) by congruence.
  - rewrite IH. destruct (attr_name a =s m) eqn:Em; [|done].
    apply eqb_bytes_true in Em. apply eqb_bytes_false in Ea. rewrite decide_False; congruence.
Qed.

(** The reports go to the log exactly when the root has a listener. *)
Definition listened (d : dom) (i : nat) : bool :=
  from_option mutation_sink false (nodes d !! document_root d i).

Lemma log_report i info d :
  log (report_mutation i info d) = log d ++ (if listened d i then [info] else []).
Proof.
  unfold report_mutation, listened. destruct (nodes d !! document_root d i) as [n|]; simpl;
    [destruct (mutation_sink n)|]; simpl; by rewrite ?app_nil_r.
Qed.

Lemma document_root_ext d1 d2 i :
  (forall j, parent_of d1 j = parent_of d2 j) -> size (nodes d1) = size (nodes d2) ->
  document_root d1 i = document_root d2 i.
Proof.
  intros Hp Hs. unfold document_root, self_and_ancestors. rewrite Hs. f_equal.
  generalize (size (nodes d2)) as n. intros n. revert i.
  induction n as [|n IH]; intros i; simpl; [done|]. rewrite Hp. by destruct (parent_of d2 i); rewrite ?IH.
Qed.

Lemma update_attributes_links i f d :
  let d' := update i (set_attributes f) d in
  (forall j, parent_of d' j = parent_of d j) /\ (forall j, children_of d' j = children_of d j) /\
  size (nodes d') = size (nodes d) /\ (forall j, listened d' j = listened d j).
Proof.
  cbn zeta. set (d' := update i (set_attributes f) d).
  assert (Hp : forall j, parent_of d' j = parent_of d j).
  { intros j. subst d'. rewrite parent_of_update. case_decide; [subst|done]. unfold parent_of.
    by destruct (nodes d !! j). }
  assert (Hs : size (nodes d') = size (nodes d)).
  { rewrite <- !size_dom. f_equal. subst d'. unfold update, with_nodes. simpl. apply dom_alter_L. }
  split_and!; try done.
  - intros j. subst d'. rewrite children_of_update. case_decide; [subst|done]. unfold children_of.
    by destruct (nodes d !! j).
  - intros j. unfold listened. rewrite (document_root_ext d' d j Hp Hs).
    subst d'. unfold update, with_nodes. cbn [nodes]. generalize (document_root d j) as r. intros r.
    destruct (decide (i = r)) as [->|Hne]; [|by rewrite lookup_alter_ne].
    rewrite lookup_alter_eq. by destruct (nodes d !! r).
Qed.

Lemma attribute_update i f d j m :
  attribute (update i (set_attributes f) d) j m =
  if decide (i = j) then nodes d !! i ≫= fun n => find_attribute m (f (n_attributes n))
  else attribute d j m.
Proof.
  unfold attribute, update, with_nodes. cbn [nodes]. destruct (decide (i = j)) as [->|Hne].
  - rewrite lookup_alter_eq. by destruct (nodes d !! j).
  - by rewrite lookup_alter_ne.
Qed.

Lemma attribute_report i info d j m : attribute (report_mutation i info d) j m = attribute d j m.
Proof. unfold attribute. by rewrite nodes_report. Qed.

(** Attributes behave as a map: after [set_attribute] the name reads the value and
    every other attribute of every node is unchanged; after [remove_attribute] the name
    is absent; no link changes, and a mutation is reported once, to the listener of the
    tree's root if there is one, and not at all when there was nothing to remove. *)
Theorem attributes_spec d i name value :
  is_Some (nodes d !! i) ->
  let d1 := set_attribute i name value d in
  let '(removed, d2) := remove_attribute i name d in
  (forall j m, attribute d1 j m = if decide (j = i /\ m = name) then Some value else attribute d j m) /\
  (forall j m, attribute d2 j m = if decide (j = i /\ m = name) then None else attribute d j m) /\
  (removed = true <-> is_Some (attribute d i name)) /\
  (forall j, parent_of d1 j = parent_of d j /\ children_of d1 j = children_of d j /\
             parent_of d2 j = parent_of d j /\ children_of d2 j = children_of d j) /\
  length (log d1) = length (log d) + (if listened d i then 1 else 0) /\
  length (log d2) = length (log d) + (if removed && listened d i then 1 else 0).
Proof.
  intros [n Hn]. cbn zeta. unfold set_attribute, remove_attribute.
  destruct (update_attributes_links i (put_attribute name value) d) as (P1 & P2 & P3 & P4).
  destruct (update_attributes_links i (drop_attribute name) d) as (Q1 & Q2 & Q3 & Q4).
  assert (H1 : forall j m, attribute (report_mutation i
      {| m_kind := AttributeSet; m_node_name := name_of d i; m_attribute_name := name; m_value := value |}
      (update i (set_attributes (put_attribute name value)) d)) j m =
      if decide (j = i /\ m = name) then Some value else attribute d j m).
  { intros j m. rewrite attribute_report, attribute_update, Hn. simpl. rewrite find_put_attribute.
    unfold attribute. destruct (decide (i = j)) as [->|], (decide (m = name)) as [->|].
    - by rewrite decide_True.
    - rewrite decide_False by naive_solver. by rewrite Hn.
    - by rewrite decide_False by naive_solver.
    - by rewrite decide_False by naive_solver. }
  assert (L1 : forall info f, (forall j, listened (update i (set_attributes f) d) j = listened d j) ->
    length (log (report_mutation i info (update i (set_attributes f) d))) =
    length (log d) + (if listened d i then 1 else 0)).
  { intros info f Hl. rewrite log_report, length_app, Hl. by destruct (listened d i). }
  destruct (attribute d i name) as [v|] eqn:Ea; cbn [andb].
  - split_and!; [done| |done| |by apply L1|by apply L1].
    + intros j m. rewrite attribute_report, attribute_update, Hn. simpl. rewrite find_drop_attribute.
      unfold attribute. destruct (decide (i = j)) as [->|], (decide (m = name)) as [->|].
      * by rewrite decide_True.
      * rewrite decide_False by naive_solver. by rewrite Hn.
      * by rewrite decide_False by naive_solver.
      * by rewrite decide_False by naive_solver.
    + intros j. by rewrite !parent_of_report, !children_of_report, P1, P2, Q1, Q2.
  - split_and!; [done| |by split; [|intros [? ?]]| |by apply L1|lia].
    + intros j m. case_decide as E; [|done]. by destruct E as [-> ->].
    + intros j. by rewrite !parent_of_report, !children_of_report, P1, P2.
Qed.

(** *** Siblings *)

Lemma next_sibling_found d i l : next_sibling_in d i true l = List.find (is_element d) l.
Proof. induction l as [|s l IH]; simpl; [done|]. destruct (is_element d s); [done|]. by case_decide. Qed.

Lemma next_sibling_in_split d i l1 l2 :
  i ∉ l1 -> next_sibling_in d i false (l1 ++ i :: l2) = List.find (is_element d) l2.
Proof.
  induction l1 as [|s l1 IH]; intros Hi; simpl.
  - rewrite decide_True by done. apply next_sibling_found.
  - rewrite decide_False by set_solver. apply IH. set_solver.
Qed.

Lemma previous_sibling_in_app d j prev l1 l2 :
  j ∉ l1 ->
  previous_sibling_in d j prev (l1 ++ l2) =
  previous_sibling_in d j (foldl (fun p s => if is_element d s then Some s else p) prev l1) l2.
Proof.
  revert prev. induction l1 as [|s l1 IH]; intros prev Hj; simpl; [done|].
  rewrite decide_False by set_solver. apply IH. set_solver.
Qed.

Lemma foldl_no_element d prev l :
  forallb (fun s => negb (is_element d s)) l = true ->
  foldl (fun p s => if is_element d s then Some s else p) prev l = prev.
Proof. induction l as [|s l IH]; simpl; [done|]. intros H. split_andb. by rewrite H, IH. Qed.

Lemma find_split {A} (p : A -> bool) l x :
  List.find p l = Some x ->
  exists l1 l2, l = l1 ++ x :: l2 /\ p x = true /\ forallb (fun y => negb (p y)) l1 = true.
Proof.
  induction l as [|y l IH]; simpl; [done|]. destruct (p y) eqn:E.
  - intros [= ->]. by exists [], l.
  - intros (l1 & l2 & -> & Hx & Hl)%IH. exists (y :: l1), l2. simpl. by rewrite E, Hl.
Qed.

(** For an element, the previous sibling of its next sibling is the element itself, and
    both are children of the same parent. *)
Theorem sibling_inverse d i j :
  dom_wf d -> is_element d i = true -> next_sibling d i = Some j ->
  previous_sibling d j = Some i /\ parent_of d j = parent_of d i /\ is_element d j = true.
Proof.
  intros Hwf Hi Hn. pose proof (wf_forest d Hwf) as Hf. unfold next_sibling in Hn.
  destruct (parent_of d i) as [p|] eqn:Ep; [|done]. simpl in Hn.
  assert (Hin : i ∈ children_of d p) by by apply Hf.
  pose proof (fo_nodup _ _ Hf p) as Hnd.
  apply list_elem_of_split in Hin as (l1 & l2 & El). rewrite El in Hn, Hnd.
  apply NoDup_app in Hnd as (_ & Hd & Hnd2). apply NoDup_cons in Hnd2 as [Hi2 Hnd2].
  rewrite next_sibling_in_split in Hn by (intros H; specialize (Hd i H); set_solver).
  apply find_split in Hn as (m1 & m2 & E2 & Hj & Hm).
  assert (Hpj : parent_of d j = Some p).
  { apply Hf. rewrite El, E2. set_solver. }
  split_and!; [|congruence|done]. unfold previous_sibling. rewrite Hpj. simpl.
  rewrite El, E2.
  replace (l1 ++ i :: m1 ++ j :: m2) with ((l1 ++ i :: m1) ++ j :: m2) by by rewrite <- app_assoc.
  assert (Hjm : j ∉ m1).
  { rewrite E2 in Hnd2. apply NoDup_app in Hnd2 as (_ & Hd2 & _). intros H. specialize (Hd2 j H). set_solver. }
  rewrite previous_sibling_in_app.
  - simpl. rewrite decide_True by done. rewrite foldl_app. simpl. rewrite Hi. by rewrite foldl_no_element.
  - rewrite elem_of_app, elem_of_cons. intros [H|[->|H]]; [|set_solver|done].
    specialize (Hd j H). set_solver.
Qed.

(** ** Trees in the store *)

Section Depth.
Context (d : dom) (Hwf : dom_wf d).

Definition depth_of (i : nat) : nat := length (self_and_ancestors d i).

Lemma chain_stable n1 n2 i :
  length (chain n1 d i) < n1 -> n1 <= n2 -> chain n2 d i = chain n1 d i.
Proof using Type.
  revert n2 i. induction n1 as [|n1 IH]; intros n2 i Hl Hn; [simpl in Hl; lia|].
  destruct n2 as [|n2]; [lia|]. cbn [chain] in *. f_equal.
  destruct (parent_of d i) as [p|]; [|done]. simpl in Hl. apply IH; lia.
Qed.

Lemma depth_of_child c i :
  parent_of d c = Some i -> depth_of c = S (depth_of i) /\ depth_of c <= size (nodes d).
Proof using Hwf.
  intros Hp. destruct (parent_in_store d Hwf c i Hp) as [Hc Hi].
  pose proof (chain_length d Hwf (S (S (size (nodes d)))) c Hc) as Hlc.
  pose proof (chain_length d Hwf (S (size (nodes d))) i Hi) as Hli.
  pose proof (chain_length d Hwf (size (nodes d)) c Hc) as Hlc2.
  unfold depth_of, self_and_ancestors. split; [|done].
  rewrite <- (chain_full_size d Hwf c Hc). cbn [chain]. by rewrite Hp.
Qed.

Lemma depth_of_pos i : is_Some (nodes d !! i) -> 0 < depth_of i.
Proof using Type.
  intros [n Hn]. unfold depth_of, self_and_ancestors.
  destruct (size (nodes d)) as [|m] eqn:E; [|simpl; lia].
  apply map_size_empty_inv in E. by rewrite E in Hn.
Qed.

Lemma children_depth i c :
  c ∈ children_of d i -> depth_of c = S (depth_of i) /\ depth_of c <= size (nodes d) /\
                         is_Some (nodes d !! c).
Proof using Hwf.
  intros Hc. apply (wf_forest d Hwf) in Hc. destruct (depth_of_child c i Hc).
  by destruct (parent_in_store d Hwf c i Hc).
Qed.

Lemma tree_at_stable f1 f2 i :
  is_Some (nodes d !! i) -> size (nodes d) < f1 + depth_of i -> size (nodes d) < f2 + depth_of i ->
  depth_of i <= size (nodes d) -> tree_at f1 d i = tree_at f2 d i.
Proof using Hwf.
  revert f2 i. induction f1 as [|f1 IH]; intros f2 i Hi H1 H2 Hd; [lia|].
  destruct f2 as [|f2]; [lia|]. cbn [tree_at]. destruct (nodes d !! i) as [n|] eqn:En; [|done].
  f_equal. apply map_ext_in. intros c Hc%list_elem_of_In.
  destruct (children_depth i c) as (Hdc & Hsz & Hcs); [unfold children_of; by rewrite En|].
  apply IH; [done|lia..].
Qed.

(** The tree under a node, without fuel. *)
Lemma tree_of_eq i n :
  nodes d !! i = Some n ->
  tree_of d i = mkNode (n_type n) (n_name n) (n_attributes n) (n_text n)
                  (map (tree_of d) (n_children n)).
Proof using Hwf.
  intros Hn. assert (Hi : is_Some (nodes d !! i)) by eauto. pose proof (depth_of_pos i Hi) as Hpos.
  unfold tree_of at 1. destruct (size (nodes d)) as [|m] eqn:Em.
  { apply map_size_empty_inv in Em. by rewrite Em in Hn. }
  cbn [tree_at]. rewrite Hn. f_equal. apply map_ext_in. intros c Hc%list_elem_of_In.
  destruct (children_depth i c) as (Hdc & Hsz & Hcs); [unfold children_of; by rewrite Hn|].
  unfold tree_of. apply tree_at_stable; [done|lia..].
Qed.
End Depth.

(** *** Storing a tree

    The parser allocates every node and appends it to its parent; [load] does the same
    for a tree. *)
Definition bare (n : Node) : dnode :=
  {| n_type := type n; n_name := name n; n_attributes := node_attributes n; n_text := text n;
     n_children := []; n_parent := None; mutation_sink := false |}.

Fixpoint load (p : nat) (n : Node) (d : dom) : dom :=
  (fix go (l : list Node) (d' : dom) : dom :=
     match l with
     | [] => d'
     | c :: l' => go l' (load (next_id d) c d')
     end) (children n) (hang p (bare n) d).

Definition load_list (p : nat) (l : list Node) (d : dom) : dom := foldl (fun d c => load p c d) d l.

Definition load_document (n : Node) : dom :=
  load_list 0 (children n) {| nodes := {[0 := bare n]}; next_id := 1; log := [] |}.

Lemma load_eq p n d : load p n d = load_list (next_id d) (children n) (hang p (bare n) d).
Proof.
  destruct n as [ty nm at_ tx cs]. unfold load_list. cbn [load children].
  generalize (hang p (bare (mkNode ty nm at_ tx cs)) d). generalize (next_id d) as t.
  induction cs as [|c cs IH]; intros t d'; [done|]. cbn [foldl]. apply IH.
Qed.

Lemma hang_wf i n d :
  dom_wf d -> is_Some (nodes d !! i) -> n_children n = [] -> n_parent n = None -> dom_wf (hang i n d).
Proof.
  intros Hwf Hi Hc Hp. pose proof (wf_forest d Hwf) as Hf.
  destruct (hang_spec i n d (wf_bound d Hwf) Hi Hc Hp) as (H1 & H2 & H3 & _ & _ & H6).
  assert (Ht : nodes d !! next_id d = None).
  { apply eq_None_not_Some. intros H. apply (wf_bound d Hwf) in H. lia. }
  assert (Hpt : parent_of d (next_id d) = None) by (unfold parent_of; by rewrite Ht).
  assert (Hct : children_of d (next_id d) = []) by (unfold children_of; by rewrite Ht).
  assert (Hno : forall j, next_id d ∉ children_of d j).
  { intros j Hj. apply Hf in Hj. congruence. }
  constructor.
  - intros j. rewrite H3, H6. intros [->|Hj%(wf_bound d Hwf)]; lia.
  - eapply forest_proper; [intros j; apply H1|intros j; apply H2|].
    assert (Hf2 := forest_append _ _ i (next_id d) Hf).
    eapply forest_proper; [intros j; reflexivity| |apply Hf2].
    + intros j. simpl. by rewrite !erase_not_in by done.
    + intros H. apply rtc_inv_r in H as [E|(y & _ & Hy)].
      * subst i. rewrite Ht in Hi. by destruct Hi.
      * apply Hf in Hy. rewrite Hct in Hy. set_solver.
Qed.

Lemma load_list_wf l : Forall (fun n => forall p d, dom_wf d -> is_Some (nodes d !! p) ->
    dom_wf (load p n d) /\ forall j, is_Some (nodes d !! j) -> is_Some (nodes (load p n d) !! j)) l ->
  forall p d, dom_wf d -> is_Some (nodes d !! p) ->
  dom_wf (load_list p l d) /\ forall j, is_Some (nodes d !! j) -> is_Some (nodes (load_list p l d) !! j).
Proof.
  induction 1 as [|n l Hn _ IH]; intros p d Hwf Hp; [done|]. cbn [load_list foldl].
  destruct (Hn p d Hwf Hp) as [H1 H2]. destruct (IH p (load p n d) H1 (H2 p Hp)) as [H3 H4].
  split; [done|]. intros j Hj. by apply H4, H2.
Qed.

Lemma load_wf n : forall p d, dom_wf d -> is_Some (nodes d !! p) ->
  dom_wf (load p n d) /\ forall j, is_Some (nodes d !! j) -> is_Some (nodes (load p n d) !! j).
Proof.
  induction n as [ty nm at_ tx cs IH] using Node_rect'. intros p d Hwf Hp. rewrite load_eq.
  set (b := bare _). destruct (hang_spec p b d (wf_bound d Hwf) Hp eq_refl eq_refl) as (_ & _ & H3 & _).
  pose proof (hang_wf p b d Hwf Hp eq_refl eq_refl) as Hw.
  destruct (load_list_wf _ IH (next_id d) (hang p b d) Hw) as [H1 H2]; [apply H3; by left|].
  split; [done|]. intros j Hj. apply H2, H3. by right.
Qed.

Lemma load_document_ok n : dom_wf (load_document n) /\ is_Some (nodes (load_document n) !! 0).
Proof.
  assert (Hw : dom_wf {| nodes := {[0 := bare n]}; next_id := 1; log := [] |}).
  { assert (Hp : forall j, parent_of {| nodes := {[0 := bare n]}; next_id := 1; log := [] |} j = None).
    { intros j. unfold parent_of. cbn [nodes]. rewrite lookup_singleton. by case_decide. }
    assert (Hc : forall j, children_of {| nodes := {[0 := bare n]}; next_id := 1; log := [] |} j = []).
    { intros j. unfold children_of. cbn [nodes]. rewrite lookup_singleton. by case_decide. }
    constructor.
    - intros i. cbn [nodes next_id]. rewrite lookup_singleton. case_decide; [lia|intros [? [=]]].
    - constructor.
      + intros c p. rewrite Hp, Hc. set_solver.
      + intros p. rewrite Hc. constructor.
      + intros i Hi. inversion Hi; rewrite Hp in *; discriminate. }
  assert (H0 : is_Some (nodes {| nodes := {[0 := bare n]}; next_id := 1; log := [] |} !! 0)).
  { cbn [nodes]. rewrite lookup_singleton. eauto. }
  destruct (load_list_wf (children n) (Forall_true _ _ load_wf) 0 _ Hw H0) as [H1 H2].
  split; [exact H1|by apply H2].
Qed.

Lemma load_document_wf n : dom_wf (load_document n).
Proof. apply load_document_ok. Qed.

(** *** The stored tree reads back

    [rep d lo hi n i]: the tree [n] is stored at [i], in nodes of the range [lo, hi). *)
Section Rep.
  Context (d : dom) (lo hi : nat).

Fixpoint rep (n : Node) (i : nat) : Prop :=
  lo <= i < hi /\ exists dn, nodes d !! i = Some dn /\
    (n_type dn, n_name dn, n_attributes dn, n_text dn) =
      (type n, name n, node_attributes n, text n) /\
    (fix go (l : list Node) (ids : list nat) : Prop :=
       match l, ids with
       | [], [] => True
       | c :: l', j :: ids' => rep c j /\ go l' ids'
       | _, _ => False
       end) (children n) (n_children dn).

Fixpoint rep_list (l : list Node) (ids : list nat) : Prop :=
  match l, ids with
  | [], [] => True
  | c :: l', j :: ids' => rep c j /\ rep_list l' ids'
  | _, _ => False
  end.

Lemma rep_eq n i :
  rep n i <->
  lo <= i < hi /\ exists dn, nodes d !! i = Some dn /\
    (n_type dn, n_name dn, n_attributes dn, n_text dn) =
      (type n, name n, node_attributes n, text n) /\
    rep_list (children n) (n_children dn).
Proof. by destruct n. Qed.
End Rep.

Lemma rep_frame d d' lo hi lo' hi' n : forall i,
  lo' <= lo -> hi <= hi' -> (forall j, lo <= j < hi -> nodes d' !! j = nodes d !! j) ->
  rep d lo hi n i -> rep d' lo' hi' n i.
Proof.
  intros i Hlo Hhi Hag. revert i.
  induction n as [ty nm at_ tx cs IH] using Node_rect'. intros i.
  rewrite !rep_eq. intros (H1 & dn & H2 & H3 & H4). split; [lia|]. exists dn.
  split_and!; [by rewrite Hag|done|]. cbn [children] in *. clear H2 H3. revert H4.
  generalize (n_children dn). induction IH as [|c cs Hc _ IH']; intros [|j ids]; simpl; try done.
  intros [H5 H6]. split; auto.
Qed.

Lemma rep_list_frame d d' lo hi lo' hi' l ids :
  lo' <= lo -> hi <= hi' -> (forall j, lo <= j < hi -> nodes d' !! j = nodes d !! j) ->
  rep_list d lo hi l ids -> rep_list d' lo' hi' l ids.
Proof.
  intros Hlo Hhi Hag. revert ids. induction l as [|c l IH]; intros [|j ids]; simpl; try done.
  intros [H1 H2]. split; [|auto]. by eapply rep_frame.
Qed.

Lemma hang_nodes i n d j :
  i <> next_id d -> nodes d !! next_id d = None ->
  nodes (hang i n d) !! j =
  if decide (j = next_id d) then Some (set_parent (Some i) n)
  else if decide (j = i) then set_children (fun l => l ++ [next_id d]) <$> nodes d !! i
  else nodes d !! j.
Proof.
  intros Hne Ht. unfold hang, make_node, update, with_nodes. cbn [nodes].
  repeat case_decide; subst.
  - by rewrite lookup_alter_ne, lookup_alter_eq, lookup_insert_eq by congruence.
  - by rewrite lookup_alter_eq, lookup_alter_ne, lookup_insert_ne by congruence.
  - by rewrite !lookup_alter_ne, lookup_insert_ne by congruence.
Qed.

(** What storing changes: the parent's children, and fresh nodes. *)
Definition stores (l : list Node) (p : nat) (d d' : dom) : Prop :=
  next_id d <= next_id d' /\ (forall j, is_Some (nodes d' !! j) -> j < next_id d') /\
  (forall j, j < next_id d -> j <> p -> nodes d' !! j = nodes d !! j) /\
  exists ids, nodes d' !! p = set_children (fun k => k ++ ids) <$> nodes d !! p /\
              rep_list d' (next_id d) (next_id d') l ids.

Definition bounded (d : dom) : Prop := forall j, is_Some (nodes d !! j) -> j < next_id d.

Lemma set_children_nil dn : set_children (fun k => k ++ []) dn = dn.
Proof. destruct dn. unfold set_children. cbn. by rewrite app_nil_r. Qed.

Lemma load_list_stores l :
  Forall (fun n => forall p d, bounded d -> p < next_id d -> is_Some (nodes d !! p) ->
                               stores [n] p d (load p n d)) l ->
  forall p d, bounded d -> p < next_id d -> is_Some (nodes d !! p) -> stores l p d (load_list p l d).
Proof.
  induction 1 as [|n l Hn _ IH]; intros p d Hb Hlt Hp.
  { unfold stores, load_list. cbn [foldl]. split_and!; [lia|done|done|].
    exists []. split; [|done]. destruct (nodes d !! p); [|done].
    simpl. by rewrite set_children_nil. }
  change (load_list p (n :: l) d) with (load_list p l (load p n d)).
  destruct (Hn p d Hb Hlt Hp) as (A1 & A2 & A3 & ids1 & A4 & A5).
  assert (Hp1 : is_Some (nodes (load p n d) !! p)) by (rewrite A4; by apply fmap_is_Some).
  destruct (IH p (load p n d) A2 ltac:(lia) Hp1) as (B1 & B2 & B3 & ids2 & B4 & B5).
  split_and!; [lia|done| |].
  - intros j Hj Hjp. rewrite B3 by (lia || done). by apply A3.
  - destruct ids1 as [|i1 [|? ?]]; [done| |by destruct A5]. destruct A5 as [A5 _].
    exists (i1 :: ids2). split.
    + rewrite B4, A4. destruct (nodes d !! p) as [dn|]; [|done]. simpl. f_equal.
      unfold set_children. cbn. by rewrite <- app_assoc.
    + split.
      * eapply rep_frame; [| |intros j Hj; apply B3|exact A5]; lia.
      * eapply rep_list_frame; [| |intros j Hj; reflexivity|exact B5]; lia.
Qed.

Lemma load_stores n : forall p d,
  bounded d -> p < next_id d -> is_Some (nodes d !! p) -> stores [n] p d (load p n d).
Proof.
  induction n as [ty nm at_ tx cs IH] using Node_rect'. intros p d Hb Hlt Hp.
  rewrite load_eq. set (b := bare _). set (t := next_id d).
  assert (Ht : nodes d !! t = None).
  { apply eq_None_not_Some. intros H. apply Hb in H. subst t. lia. }
  destruct (hang_spec p b d Hb Hp eq_refl eq_refl) as (_ & _ & H3 & _ & _ & H6).
  pose proof (hang_nodes p b d) as Hn. fold t in Hn, H6, H3.
  assert (Hbh : bounded (hang p b d)).
  { intros j. rewrite H3, H6. intros [->|Hj%Hb]; subst t; lia. }
  destruct (load_list_stores cs IH t (hang p b d) Hbh ltac:(lia) ltac:(apply H3; by left))
    as (A1 & A2 & A3 & ids & A4 & A5).
  rewrite H6 in *. cbn [children]. split_and!; [fold t; lia|done| |].
  - intros j Hj Hjp. fold t in Hj. rewrite A3 by lia. rewrite Hn by (lia || done).
    by rewrite !decide_False by lia.
  - exists [t]. split.
    + rewrite A3 by lia. rewrite Hn by (lia || done). by rewrite decide_False, decide_True by lia.
    + cbn [rep_list]. split; [|done]. rewrite rep_eq. fold t. split; [lia|].
      rewrite Hn, decide_True in A4 by (lia || done). cbn [fmap option_fmap option_map] in A4.
      eexists. split; [exact A4|]. split; [done|]. cbn [n_children set_children set_parent b bare app].
      cbn [children]. eapply rep_list_frame; [| |intros j Hj; reflexivity|exact A5]; lia.
Qed.

Lemma rep_tree_of d lo hi n : dom_wf d -> forall i, rep d lo hi n i -> tree_of d i = n.
Proof.
  intros Hwf. induction n as [ty nm at_ tx cs IH] using Node_rect'. intros i.
  rewrite rep_eq. intros (_ & dn & H2 & [= H3 H4 H5 H6] & H7). cbn [type name node_attributes text children] in *.
  rewrite (tree_of_eq d Hwf i dn H2). f_equal; try done.
  clear -IH H7. revert H7. generalize (n_children dn).
  induction IH as [|c cs Hc _ IH']; intros [|j ids]; simpl; try done.
  intros [H8 H9]. f_equal; auto.
Qed.

(** Storing a document and reading the tree back is the identity, and the store
    satisfies the forest invariant; so [Document::html] of a parsed page, whose nodes the
    parser allocates one by one, is the serialization of the parse tree. *)
Theorem load_tree n :
  dom_wf (load_document n) /\ tree_of (load_document n) 0 = n /\
  outer_html (load_document n) 0 = serialize n [].
Proof.
  assert (Ht : tree_of (load_document n) 0 = n).
  { set (d0 := {| nodes := {[0 := bare n]}; next_id := 1; log := [] |}).
    assert (Hb : bounded d0).
    { intros i. subst d0. cbn [nodes next_id]. rewrite lookup_singleton. case_decide; [lia|intros [? [=]]]. }
    destruct (load_list_stores (children n) ltac:(apply Forall_true, load_stores) 0 d0 Hb
                ltac:(subst d0; simpl; lia) ltac:(subst d0; cbn [nodes]; rewrite lookup_singleton; eauto))
      as (_ & _ & _ & ids & A4 & A5).
    change (load_list 0 (children n) d0) with (load_document n) in A4, A5.
    subst d0. cbn [nodes] in A4. rewrite lookup_singleton, decide_True in A4 by done.
    assert (rep (load_document n) 0 (next_id (load_document n) + 1) n 0) as Hrep.
    { rewrite rep_eq. split; [lia|]. eexists. split; [exact A4|]. split; [done|].
      eapply rep_list_frame; [| |intros j Hj; reflexivity|exact A5]; lia. }
    by apply (rep_tree_of _ _ _ _ (load_document_wf n) _ Hrep). }
  split_and!; [apply load_document_wf|done|]. unfold outer_html. rewrite Ht.
  assert (Hp : forall p, parent_of (load_document n) 0 <> Some p).
  { intros p Hp. unfold parent_of in Hp.
    destruct (load_list_stores (children n) ltac:(apply Forall_true, load_stores) 0
      {| nodes := {[0 := bare n]}; next_id := 1; log := [] |}) as (_ & _ & _ & ids & A4 & _).
    - intros i. cbn [nodes next_id]. rewrite lookup_singleton. case_decide; [lia|intros [? [=]]].
    - simpl. lia.
    - cbn [nodes]. rewrite lookup_singleton. eauto.
    - unfold load_document in Hp. rewrite A4 in Hp. cbn [nodes] in Hp.
      by rewrite lookup_singleton, decide_True in Hp by done. }
  destruct (parent_of (load_document n) 0) as [p|] eqn:E; [by destruct (Hp p)|done].
Qed.

(** *** Document order *)

Fixpoint preorder (fuel : nat) (d : dom) (i : nat) : list nat :=
  match fuel with
  | O => []
  | S fuel' => i :: mjoin (map (preorder fuel' d) (children_of d i))
  end.

Definition doc_order (d : dom) (i : nat) : list nat := preorder (size (nodes d)) d i.

Lemma rtc_linear (d : dom) x a b :
  rtc (edge d) x a -> rtc (edge d) x b -> rtc (edge d) a b \/ rtc (edge d) b a.
Proof.
  intros H. revert b. induction H as [x|x y a Hxy H IH]; intros b Hb; [by left|].
  inversion Hb as [|? z ? Hxz Hz]; subst; [right; by eapply rtc_l|].
  assert (z = y) as -> by congruence. by apply IH.
Qed.

Section DocOrder.
Context (d : dom) (Hwf : dom_wf d).

Lemma preorder_stable f1 f2 i :
  is_Some (nodes d !! i) -> size (nodes d) < f1 + depth_of d i -> size (nodes d) < f2 + depth_of d i ->
  depth_of d i <= size (nodes d) -> preorder f1 d i = preorder f2 d i.
Proof using Hwf.
  revert f2 i. induction f1 as [|f1 IH]; intros f2 i Hi H1 H2 Hd; [lia|].
  destruct f2 as [|f2]; [lia|]. cbn [preorder]. do 2 f_equal. apply map_ext_in.
  intros c Hc%list_elem_of_In. destruct (children_depth d Hwf i c Hc) as (Hdc & Hsz & Hcs).
  apply IH; [done|lia..].
Qed.

(** Document order, without fuel. *)
Lemma doc_order_eq i :
  is_Some (nodes d !! i) -> doc_order d i = i :: mjoin (map (doc_order d) (children_of d i)).
Proof using Hwf.
  intros Hi. pose proof (depth_of_pos d i Hi) as Hpos.
  unfold doc_order at 1. destruct (size (nodes d)) as [|m] eqn:Em.
  { apply map_size_empty_inv in Em. destruct Hi as [n Hn]. by rewrite Em in Hn. }
  cbn [preorder]. do 2 f_equal. apply map_ext_in. intros c Hc%list_elem_of_In.
  destruct (children_depth d Hwf i c Hc) as (Hdc & Hsz & Hcs).
  unfold doc_order. apply preorder_stable; [done|lia..].
Qed.

Lemma preorder_descends fuel i j : j ∈ preorder fuel d i -> rtc (edge d) j i.
Proof using Hwf.
  revert i j. induction fuel as [|fuel IH]; intros i j; simpl; [set_solver|].
  intros [->|Hj]%elem_of_cons; [constructor|].
  apply list_elem_of_join in Hj as (l & Hj & Hl). apply list_elem_of_In, in_map_iff in Hl as (c & <- & Hc).
  apply list_elem_of_In, (fo_agree _ _ (wf_forest d Hwf)) in Hc.
  eapply rtc_r; [by apply IH|done].
Qed.

Lemma preorder_nodup fuel i : NoDup (preorder fuel d i).
Proof using Hwf.
  revert i. induction fuel as [|fuel IH]; intros i; simpl; [constructor|]. constructor.
  - intros Hi. apply list_elem_of_join in Hi as (l & Hj & Hl).
    apply list_elem_of_In, in_map_iff in Hl as (c & <- & Hc).
    apply list_elem_of_In, (fo_agree _ _ (wf_forest d Hwf)) in Hc. apply preorder_descends in Hj.
    apply (fo_acyclic _ _ (wf_forest d Hwf) i). eapply tc_rtc_l; [exact Hj|by apply tc_once].
  - pose proof (fo_nodup _ _ (wf_forest d Hwf) i) as Hnd.
    assert (Hp : forall c, c ∈ children_of d i -> parent_of d c = Some i)
      by (intros c; apply (fo_agree _ _ (wf_forest d Hwf))).
    induction (children_of d i) as [|c l IHl]; simpl; [constructor|].
    apply NoDup_cons in Hnd as [Hc Hnd]. change (mjoin (?x :: ?y)) with (x ++ mjoin y).
    apply NoDup_app. split_and!; [apply IH| |apply IHl; [done|intros; apply Hp; by constructor]].
    intros x Hx Hx'. apply list_elem_of_join in Hx' as (l' & Hx' & Hl).
    apply list_elem_of_In, in_map_iff in Hl as (c' & <- & Hc'). apply list_elem_of_In in Hc'.
    apply preorder_descends in Hx, Hx'.
    assert (Hcy : forall a b, a <> b -> parent_of d a = Some i -> parent_of d b = Some i ->
                    ~ rtc (edge d) a b).
    { intros a b Hab Ha Hb [->|Ht]%rtc_tc; [done|].
      apply tc_rtc in Ht. inversion Ht as [|? y ? Hy Hyb]; subst; [done|].
      assert (y = i) as -> by congruence.
      apply (fo_acyclic _ _ (wf_forest d Hwf) i). eapply tc_rtc_l; [exact Hyb|by apply tc_once]. }
    assert (c <> c') by (intros ->; done).
    destruct (rtc_linear d x c c' Hx Hx') as [H1|H1]; revert H1; apply Hcy; try done;
      apply Hp; by repeat constructor.
Qed.

Lemma doc_order_stored i j : is_Some (nodes d !! i) -> j ∈ doc_order d i -> is_Some (nodes d !! j).
Proof using Hwf.
  intros Hi Hj%preorder_descends. apply rtc_tc in Hj as [->|Hj]; [done|].
  destruct Hj as [x y H|x y z H _]; by apply (parent_in_store d Hwf x y).
Qed.

Lemma doc_order_length i : is_Some (nodes d !! i) -> length (doc_order d i) <= size (nodes d).
Proof using Hwf.
  intros Hi. apply stored_length; [apply preorder_nodup|]. intros j. by apply doc_order_stored.
Qed.

(** The nodes in document order are the node and everything under it. *)
Lemma doc_order_spec i j : is_Some (nodes d !! i) -> j ∈ doc_order d i <-> rtc (edge d) j i.
Proof using Hwf.
  intros Hi. split; [apply preorder_descends|].
  intros [n Hn]%rtc_nsteps. revert i Hi Hn. induction n as [|n IH]; intros i Hi Hn.
  - inversion Hn; subst. rewrite doc_order_eq by done. constructor.
  - apply nsteps_inv_r in Hn as (y & Hn & Hyi). rewrite doc_order_eq by done.
    apply elem_of_cons. right. apply list_elem_of_join. exists (doc_order d y). split.
    + apply IH; [|done]. by apply (parent_in_store d Hwf y i).
    + apply list_elem_of_In, in_map, list_elem_of_In. by apply (fo_agree _ _ (wf_forest d Hwf)).
Qed.
End DocOrder.

Definition has_id (d : dom) (id : bytes) (i : nat) : bool :=
  is_element d i && match attribute d i (lit "id") with Some v => v =s id | None => false end.

Lemma find_app {A} (p : A -> bool) l1 l2 :
  List.find p (l1 ++ l2) = match List.find p l1 with Some x => Some x | None => List.find p l2 end.
Proof. induction l1 as [|x l1 IH]; simpl; [done|]. by destruct (p x). Qed.

Lemma scan_id_preorder fuel d id i : scan_id fuel d id i = List.find (has_id d id) (preorder fuel d i).
Proof.
  revert i. induction fuel as [|fuel IH]; intros i; [done|]. cbn [scan_id preorder List.find].
  fold (has_id d id i). destruct (has_id d id i); [done|].
  induction (children_of d i) as [|c l IHl]; [done|]. cbn [map].
  change (mjoin (?x :: ?y)) with (x ++ mjoin y). rewrite find_app, IH, IHl. done.
Qed.

(** [get_element_by_id] returns the first element in document order that carries the
    id, and nothing for the empty id. *)
Theorem get_element_by_id_first d root id :
  get_element_by_id d root id =
  if nonempty id then List.find (has_id d id) (doc_order d root) else None.
Proof. unfold get_element_by_id, doc_order. by rewrite scan_id_preorder. Qed.

(** ** Witnesses: [<div>a<p id=x></p><b></b></div>], stored as the nodes 0 to 4 *)
Definition elem (n : string) (attrs : list Attribute) (l : list Node) : Node :=
  mkNode Element (lit n) attrs [] l.

Definition sample_tree : Node :=
  mkNode Document [] [] []
    [ elem "div" [] [ mkNode Text [] [] (lit "a") [];
                      elem "p" [ {| attr_name := lit "id"; attr_value := lit "x" |} ] [];
                      elem "b" [] [] ] ].

Definition sample : dom := set_mutation_listener 0 true (load_document sample_tree).

Lemma sample_wf : dom_wf sample.
Proof.
  pose proof (load_document_wf sample_tree) as Hw.
  assert (Hp : forall j, parent_of sample j = parent_of (load_document sample_tree) j).
  { intros j. unfold sample, set_mutation_listener. rewrite parent_of_update.
    case_decide; [subst|done]. unfold parent_of. by destruct (nodes _ !! 0). }
  assert (Hc : forall j, children_of sample j = children_of (load_document sample_tree) j).
  { intros j. unfold sample, set_mutation_listener. rewrite children_of_update.
    case_decide; [subst|done]. unfold children_of. by destruct (nodes _ !! 0). }
  constructor.
  - intros i. unfold sample, set_mutation_listener. rewrite is_Some_update. apply Hw.
  - eapply forest_proper; [intros j; apply Hp|intros j; apply Hc|]. apply Hw.
Qed.

Lemma not_ancestor d i j :
  dom_wf d -> is_Some (nodes d !! i) -> bool_decide (j ∈ self_and_ancestors d i) = false ->
  ~ rtc (edge d) i j.
Proof.
  intros Hwf Hi Hj H. apply bool_decide_eq_false in Hj. by apply Hj, (self_and_ancestors_spec d Hwf).
Qed.

Lemma append_child_spec_witness :
  children_of sample 1 = [2; 3; 4] /\ children_of (append_child 1 3 sample) 1 = [2; 4; 3] /\
  dom_wf (append_child 1 3 sample) /\ append_child 3 1 sample = sample.
Proof.
  split; [vm_compute; reflexivity|]. split; [vm_compute; reflexivity|]. split.
  - apply (append_child_spec sample 1 3 sample_wf); [by eexists|by eexists|].
    apply not_ancestor; [exact sample_wf|by eexists|vm_compute; reflexivity].
  - apply (append_child_spec sample 3 1 sample_wf); [by eexists|by eexists|].
    apply rtc_once. vm_compute. reflexivity.
Defined.

Lemma remove_child_spec_witness :
  (remove_child 1 3 sample).1 = true /\ dom_wf (remove_child 1 3 sample).2 /\
  children_of (remove_child 1 3 sample).2 1 = [2; 4].
Proof.
  pose proof (remove_child_spec sample 1 3 sample_wf) as H.
  destruct (remove_child 1 3 sample) as [b d'] eqn:E. destruct H as (H1 & _ & H3).
  assert (Hb : b = true) by (apply H1; vm_compute; set_solver).
  destruct (H3 Hb) as (Hw & _ & Hc & _). split; [exact Hb|]. split; [exact Hw|].
  rewrite Hc. vm_compute. reflexivity.
Defined.

Lemma document_root_correct_witness :
  document_root sample 3 = 0 /\ parent_of sample (document_root sample 3) = None.
Proof.
  split; [vm_compute; reflexivity|].
  exact (proj2 (document_root_correct sample 3 sample_wf ltac:(by eexists))).
Defined.

Lemma set_text_spec_witness :
  dom_wf (set_text 1 (lit "t") sample) /\ children_of (set_text 1 (lit "t") sample) 1 = [5] /\
  element_text (set_text 1 (lit "t") sample) 0 = lit "t".
Proof.
  destruct (set_text_spec sample 1 (lit "t") sample_wf ltac:(by eexists)) as (H1 & H2 & _).
  split; [exact H1|]. split; [exact H2|]. vm_compute. reflexivity.
Defined.

Lemma attributes_spec_witness :
  attribute (set_attribute 3 (lit "id") (lit "y") sample) 3 (lit "id") = Some (lit "y") /\
  length (log (set_attribute 3 (lit "id") (lit "y") sample)) = 1.
Proof.
  pose proof (attributes_spec sample 3 (lit "id") (lit "y") ltac:(by eexists)) as H. cbn zeta in H.
  destruct (remove_attribute 3 (lit "id") sample) as [b d2].
  destruct H as (H1 & _ & _ & _ & H5 & _). split.
  - rewrite H1. vm_compute. reflexivity.
  - rewrite H5. vm_compute. reflexivity.
Defined.

Lemma sibling_inverse_witness :
  next_sibling sample 3 = Some 4 /\ previous_sibling sample 4 = Some 3.
Proof.
  split; [vm_compute; reflexivity|].
  exact (proj1 (sibling_inverse sample 3 4 sample_wf eq_refl ltac:(vm_compute; reflexivity))).
Defined.
