(* ===== verification/Selector.v ===== *)
(** * CSS selectors: [src/flatworm/selector_model.hpp] and [selector_parser.cpp]

    The parser reads forward only: its state holds the suffix of the text from [i_] with
    the two counters.  Every loop has the length of that suffix as fuel and the
    recursion through [:not()] has the nesting limit; running out of fuel would be the
    error [Internal], which [parse_total] excludes. *)
From S2P Require Import Prelude Html.

(** ** Syntax *)

Inductive Combinator := Descendant | Child | Adjacent | Sibling.

Inductive AttrOp := Exists_ | Equals | Includes | DashMatch | Prefix | Suffix | Substring.

Record AttrSelector := {
  sel_name : bytes; sel_op : AttrOp; sel_value : bytes; ascii_insensitive : bool }.

Inductive PseudoKind :=
  | FirstChild | LastChild | OnlyChild | NthChild | NthLastChild | FirstOfType | LastOfType
  | OnlyOfType | NthOfType | NthLastOfType | Empty_ | Root | Not.

#[export] Instance AttrOp_eq_dec : EqDecision AttrOp.
Proof. solve_decision. Defined.
#[export] Instance Combinator_eq_dec : EqDecision Combinator.
Proof. solve_decision. Defined.
#[export] Instance PseudoKind_eq_dec : EqDecision PseudoKind.
Proof. solve_decision. Defined.

Inductive PseudoClass := mkPseudo {
  pseudo_kind : PseudoKind; nth_a : Z; nth_b : Z; not_list : list ComplexSelector }
with Compound := mkCompound {
  universal : bool; tag : bytes; ids : list bytes; classes : list bytes;
  attr_selectors : list AttrSelector; pseudos : list PseudoClass }
with ComplexSelector := mkComplex {
  compounds : list Compound; combinators : list Combinator }.

(** ** Identifiers and escapes *)

Definition high (c : ascii) : bool := (128 <=? code c)%N.
Definition is_newline (c : ascii) : bool :=
  (code c =? 10)%N || (code c =? 13)%N || (code c =? 12)%N.

Definition is_ident_char (c : ascii) : bool :=
  is_alnum c || (c =c "-") || (c =c "_") || (c =c backslash) || high c.

Fixpoint ident_start (s : bytes) : bool :=
  match s with
  | [] => false
  | c :: s' =>
      if c =c "-" then
        match s' with
        | [] => false
        | d :: _ => (d =c "-") || ident_start s'
        end
      else is_alpha c || (c =c "_") || high c || (c =c backslash)
  end.

Definition append_codepoint (cp : N) : bytes :=
  (let cp := if (cp =? 0) || (0x10ffff <? cp) || ((0xd800 <=? cp) && (cp <=? 0xdfff))
             then 0xfffd else cp in
   if cp <=? 0x7f then [byte cp]
   else if cp <=? 0x7ff then
     [byte (N.lor 0xc0 (N.shiftr cp 6)); byte (N.lor 0x80 (N.land cp 0x3f))]
   else if cp <=? 0xffff then
     [byte (N.lor 0xe0 (N.shiftr cp 12)); byte (N.lor 0x80 (N.land (N.shiftr cp 6) 0x3f));
      byte (N.lor 0x80 (N.land cp 0x3f))]
   else
     [byte (N.lor 0xf0 (N.shiftr cp 18)); byte (N.lor 0x80 (N.land (N.shiftr cp 12) 0x3f));
      byte (N.lor 0x80 (N.land (N.shiftr cp 6) 0x3f)); byte (N.lor 0x80 (N.land cp 0x3f))])%N.

Definition hex (c : ascii) : option N :=
  (if in_range 48 57 c then Some (code c - 48)
   else if in_range 97 102 c then Some (code c - 97 + 10)
   else if in_range 65 70 c then Some (code c - 65 + 10) else None)%N.

(** At most [count] hexadecimal digits. *)
Fixpoint read_hex (count : nat) (cp : N) (s : bytes) : N * bytes :=
  match count, s with
  | S count', c :: s' =>
      match hex c with
      | Some d => read_hex count' (cp * 16 + d)%N s'
      | None => (cp, s)
      end
  | _, _ => (cp, s)
  end.

(** One line feed, if there is one (behind a carriage return). *)
Definition skip_lf (s : bytes) : bytes :=
  match s with
  | d :: s' => if (code d =? 10)%N then s' else s
  | [] => []
  end.

(** The white space that ends an escape. *)
Definition skip_one_space (s : bytes) : bytes :=
  match s with
  | c :: s' => if is_space c then (if (code c =? 13)%N then skip_lf s' else s') else s
  | [] => []
  end.

(** [s] is the text behind the backslash. *)
Definition read_escape (s : bytes) : result (bytes * bytes) :=
  match s with
  | [] => Throw ParseError
  | c :: s' =>
      if is_newline c then Throw ParseError
      else match hex c with
           | None => Ret ([c], s')
           | Some _ =>
               let '(cp, r) := read_hex 6 0 s in
               Ret (append_codepoint cp, skip_one_space r)
           end
  end.

Fixpoint ident_loop (fuel : nat) (out s : bytes) : result (bytes * bytes) :=
  match s, fuel with
  | [], _ => Ret (out, s)
  | _, O => Throw Internal
  | c :: s', S fuel' =>
      if is_ident_char c then
        if c =c backslash then
          '(e, r) ← read_escape s'; ident_loop fuel' (out ++ e) r
        else ident_loop fuel' (out ++ [c]) s'
      else Ret (out, s)
  end.

Definition read_ident (s : bytes) : result (bytes * bytes) :=
  if ident_start s then ident_loop (length s) [] s else Ret ([], s).

(** ** Attribute selectors *)

(** The operator; [s] starts at a character that is not [']']. *)
Definition read_operator (s : bytes) : result (AttrOp * bytes) :=
  match s with
  | c :: s' =>
      if c =c "=" then Ret (Equals, s')
      else match s' with
           | e :: r =>
               if e =c "=" then
                 if c =c "~" then Ret (Includes, r)
                 else if c =c "|" then Ret (DashMatch, r)
                 else if c =c "^" then Ret (Prefix, r)
                 else if c =c "$" then Ret (Suffix, r)
                 else if c =c "*" then Ret (Substring, r)
                 else Throw ParseError
               else Throw ParseError
           | [] => Throw ParseError
           end
  | [] => Throw ParseError
  end.

(** The text up to the closing quote. *)
Fixpoint quoted_loop (fuel : nat) (quote : ascii) (out s : bytes) : result (bytes * bytes) :=
  match s, fuel with
  | [], _ => Throw ParseError
  | _, O => Throw Internal
  | c :: s', S fuel' =>
      if c =c quote then Ret (out, s')
      else if c =c backslash then
        match s' with
        | d :: s'' =>
            if is_newline d then
              quoted_loop fuel' quote out (if (code d =? 13)%N then skip_lf s'' else s'')
            else '(e, r) ← read_escape s'; quoted_loop fuel' quote (out ++ e) r
        | [] => Throw ParseError
        end
      else if is_newline c then Throw ParseError
      else quoted_loop fuel' quote (out ++ [c]) s'
  end.

Definition read_attr_value (s : bytes) : result (bytes * bytes) :=
  match s with
  | q :: s' =>
      if is_quote q then quoted_loop (length s') q [] s'
      else '(v, r) ← read_ident s; _ ← throw_if (negb (nonempty v)) ParseError; Ret (v, r)
  | [] => Throw ParseError
  end.

(** Whether the text goes on with something else than [']']. *)
Definition before_bracket (s : bytes) : bool :=
  match s with c :: _ => negb (c =c "]") | [] => false end.

Definition read_flag (a : AttrSelector) (s : bytes) : result (AttrSelector * bytes) :=
  if bool_decide (sel_op a = Exists_) || negb (before_bracket s) then Ret (a, s)
  else
    '(f, r) ← read_ident s;
    let flag := to_lower f in
    _ ← throw_if (negb (one_of flag ["i"; "s"]%string)) ParseError;
    let insensitive := flag =s lit "i" in
    Ret ({| sel_name := sel_name a; sel_op := sel_op a;
            sel_value := if insensitive then to_lower (sel_value a) else sel_value a;
            ascii_insensitive := insensitive |}, skip is_space r).

(** [s] is the text behind ['[']. *)
Definition parse_attribute (s : bytes) : result (AttrSelector * bytes) :=
  '(n, r1) ← read_ident (skip is_space s);
  _ ← throw_if (negb (nonempty n)) ParseError;
  let r2 := skip is_space r1 in
  '(a, r3) ← (if before_bracket r2 then
                '(op, r) ← read_operator r2;
                '(v, r') ← read_attr_value (skip is_space r);
                Ret ({| sel_name := to_lower n; sel_op := op; sel_value := v;
                        ascii_insensitive := false |}, r')
              else Ret ({| sel_name := to_lower n; sel_op := Exists_; sel_value := [];
                           ascii_insensitive := false |}, r2));
  '(a', r4) ← read_flag a (skip is_space r3);
  match r4 with
  | c :: r5 => if c =c "]" then Ret (a', r5) else Throw ParseError
  | [] => Throw ParseError
  end.

(** ** The argument of [:nth-child] and its relatives *)

Definition int_min : Z := -2147483648.
Definition int_max : Z := 2147483647.

Definition digits_value (s : bytes) : Z :=
  foldl (fun v c => v * 10 + Z.of_N (code c - 48))%Z 0%Z s.

(** [std::from_chars] into an [int], when the whole text has to match. *)
Definition from_chars (s : bytes) : option Z :=
  let '(negative, t) := match s with
                        | c :: s' => if c =c "-" then (true, s') else (false, s)
                        | [] => (false, s)
                        end in
  let v := if negative : bool then (- digits_value t)%Z else digits_value t in
  if nonempty t && forallb is_digit t && (int_min <=? v)%Z && (v <=? int_max)%Z
  then Some v else None.

Definition integer (s : bytes) : result Z :=
  t ← match s with
      | c :: s' =>
          if c =c "+" then
            match s' with
            | d :: _ => if d =c "-" then Throw ParseError else Ret s'
            | [] => Throw ParseError
            end
          else Ret s
      | [] => Ret s
      end;
  match from_chars t with Some v => Ret v | None => Throw ParseError end.

(** The offset behind the ['n']. *)
Definition nth_offset (s : bytes) : result Z :=
  match skip is_space s with
  | [] => Ret 0%Z
  | sign :: r =>
      if (sign =c "+") || (sign =c "-") then
        match skip is_space r with
        | d :: r' => if is_digit d then integer (sign :: d :: r') else Throw ParseError
        | [] => Throw ParseError
        end
      else Throw ParseError
  end.

Definition nth_argument (argument : bytes) : result (Z * Z) :=
  if argument =s lit "odd" then Ret (2, 1)%Z
  else if argument =s lit "even" then Ret (2, 0)%Z
  else match find_if (fun c => c =c "n") argument with
       | None => b ← integer argument; Ret (0%Z, b)
       | Some n =>
           let a := take n argument in
           na ← (if (a =s []) || (a =s lit "+") then Ret 1%Z
                 else if a =s lit "-" then Ret (-1)%Z else integer a);
           nb ← nth_offset (drop (n + 1) argument);
           Ret (na, nb)
       end.

Definition parse_nth (s : bytes) : result (Z * Z * bytes) :=
  match s with
  | c :: s' =>
      if c =c "(" then
        let r := skip is_space s' in
        match find_if (fun c => c =c ")") r with
        | None => Throw ParseError
        | Some close =>
            ab ← nth_argument (rstrip is_space (to_lower (take close r)));
            Ret (ab, drop (close + 1) r)
        end
      else Throw ParseError
  | [] => Throw ParseError
  end.

(** ** The parser *)

Record pstate := { p_rest : bytes; compound_count : N; nesting : N }.

Definition parser (A : Type) : Type := pstate -> result (A * pstate).

Definition set_rest (s : bytes) (st : pstate) : pstate :=
  {| p_rest := s; compound_count := compound_count st; nesting := nesting st |}.

Definition skip_space (st : pstate) : pstate := set_rest (skip is_space (p_rest st)) st.

Definition max_selector_bytes : N := 65536.
Definition max_compounds : N := 256.
Definition max_nesting : N := 32.

(** The keyword pseudo-classes without an argument and those with a formula. *)
Definition simple_pseudos : list (string * PseudoKind) :=
  [("first-child", FirstChild); ("last-child", LastChild); ("only-child", OnlyChild);
   ("empty", Empty_); ("root", Root); ("first-of-type", FirstOfType);
   ("last-of-type", LastOfType); ("only-of-type", OnlyOfType)]%string.
Definition nth_pseudos : list (string * PseudoKind) :=
  [("nth-child", NthChild); ("nth-last-child", NthLastChild); ("nth-of-type", NthOfType);
   ("nth-last-of-type", NthLastOfType)]%string.

Fixpoint keyword (name : bytes) (l : list (string * PseudoKind)) : option PseudoKind :=
  match l with
  | [] => None
  | (n, k) :: l' => if name =s lit n then Some k else keyword name l'
  end.

Section Parser.

(** The parser of a nested list, [parse_list(true)]. *)
Variable parse_nested : parser (list ComplexSelector).

(** The rest is the text behind the [':']. *)
Definition parse_pseudo : parser PseudoClass := fun st =>
  '(n, r) ← read_ident (p_rest st);
  let name := to_lower n in
  match keyword name simple_pseudos with
  | Some k => Ret (mkPseudo k 0 0 [], set_rest r st)
  | None =>
      match keyword name nth_pseudos with
      | Some k => '(a, b, r') ← parse_nth r; Ret (mkPseudo k a b [], set_rest r' st)
      | None =>
          if name =s lit "not" then
            match r with
            | c :: r1 =>
                if c =c "(" then
                  _ ← throw_if (max_nesting <? nesting st + 1)%N ParseError;
                  '(l, st') ← parse_nested {| p_rest := r1;
                                              compound_count := compound_count st;
                                              nesting := nesting st + 1 |};
                  let st'' := {| p_rest := p_rest st'; compound_count := compound_count st';
                                 nesting := nesting st' - 1 |} in
                  match p_rest st' with
                  | d :: r2 => if d =c ")" then Ret (mkPseudo Not 0 0 l, set_rest r2 st'')
                               else Throw ParseError
                  | [] => Throw ParseError
                  end
                else Throw ParseError
            | [] => Throw ParseError
            end
          else Throw ParseError
      end
  end.

Definition with_class (name : bytes) (k : Compound) : Compound :=
  mkCompound (universal k) (tag k) (ids k) (classes k ++ [name]) (attr_selectors k) (pseudos k).
Definition with_id (name : bytes) (k : Compound) : Compound :=
  mkCompound (universal k) (tag k) (ids k ++ [name]) (classes k) (attr_selectors k) (pseudos k).
Definition with_attribute (a : AttrSelector) (k : Compound) : Compound :=
  mkCompound (universal k) (tag k) (ids k) (classes k) (attr_selectors k ++ [a]) (pseudos k).
Definition with_pseudo (p : PseudoClass) (k : Compound) : Compound :=
  mkCompound (universal k) (tag k) (ids k) (classes k) (attr_selectors k) (pseudos k ++ [p]).

(** A non-empty name behind ['.'] or ['#']. *)
Definition read_name (s : bytes) : result (bytes * bytes) :=
  '(n, r) ← read_ident s; _ ← throw_if (negb (nonempty n)) ParseError; Ret (n, r).

(** One iteration of the loop of [parse_compound]; [None] leaves it. *)
Definition compound_step (k : Compound) (st : pstate) : result (option (Compound * pstate)) :=
  match p_rest st with
  | [] => Ret None
  | c :: r =>
      if c =c "." then '(n, r') ← read_name r; Ret (Some (with_class n k, set_rest r' st))
      else if c =c "#" then '(n, r') ← read_name r; Ret (Some (with_id n k, set_rest r' st))
      else if c =c "[" then
        '(a, r') ← parse_attribute r; Ret (Some (with_attribute a k, set_rest r' st))
      else if c =c ":" then
        '(p, st') ← parse_pseudo (set_rest r st); Ret (Some (with_pseudo p k, st'))
      else Ret None
  end.

Fixpoint compound_loop (fuel : nat) (consumed : bool) (k : Compound) (st : pstate)
  : result (bool * Compound * pstate) :=
  match fuel with
  | O => Throw Internal
  | S fuel' =>
      next ← compound_step k st;
      match next with
      | Some (k', st') => compound_loop fuel' true k' st'
      | None => Ret (consumed, k, st)
      end
  end.

Definition no_compound : Compound := mkCompound false [] [] [] [] [].

(** The universal or type selector in front. *)
Definition compound_head (s : bytes) : result (bool * Compound * bytes) :=
  match s with
  | c :: r =>
      if c =c "*" then Ret (true, mkCompound true [] [] [] [] [], r)
      else if ident_start s then
        '(n, r') ← read_ident s; Ret (true, mkCompound false (to_lower n) [] [] [] [], r')
      else Ret (false, no_compound, s)
  | [] => Ret (false, no_compound, s)
  end.

Definition parse_compound : parser Compound := fun st =>
  let count := (compound_count st + 1)%N in
  _ ← throw_if (max_compounds <? count)%N ParseError;
  '(consumed, k, r) ← compound_head (p_rest st);
  let st1 := {| p_rest := r; compound_count := count; nesting := nesting st |} in
  '(consumed, k, st2) ← compound_loop (S (length r)) consumed k st1;
  _ ← throw_if (negb consumed) ParseError;
  Ret (k, st2).

Definition ends_complex (s : bytes) : bool :=
  match s with c :: _ => (c =c ",") || (c =c ")") | [] => true end.

(** The combinator in front of the next compound, with the white space around it;
    [None] when the selector ends here. *)
Definition read_combinator (s : bytes) : result (option Combinator * bytes) :=
  let had_space := negb (head_is (fun c => negb (is_space c)) s) in
  let r := skip is_space s in
  let '(combinator, r1) :=
    match r with
    | c :: r' => if c =c ">" then (Child, r') else if c =c "+" then (Adjacent, r')
                 else if c =c "~" then (Sibling, r') else (Descendant, r)
    | [] => (Descendant, r)
    end in
  let explicit_combinator := negb (bool_decide (combinator = Descendant)) in
  if negb explicit_combinator && negb had_space then Ret (None, r1)
  else
    let r2 := skip is_space r1 in
    if ends_complex r2 then
      _ ← throw_if explicit_combinator ParseError; Ret (None, r2)
    else Ret (Some combinator, r2).

Fixpoint complex_loop (fuel : nat) (sel : ComplexSelector) (st : pstate)
  : result (ComplexSelector * pstate) :=
  if ends_complex (p_rest st) then Ret (sel, st)
  else match fuel with
       | O => Throw Internal
       | S fuel' =>
           '(next, r) ← read_combinator (p_rest st);
           match next with
           | None => Ret (sel, set_rest r st)
           | Some combinator =>
               '(k, st') ← parse_compound (set_rest r st);
               complex_loop fuel'
                 (mkComplex (compounds sel ++ [k]) (combinators sel ++ [combinator])) st'
           end
       end.

Definition parse_complex : parser ComplexSelector := fun st =>
  '(k, st') ← parse_compound st;
  complex_loop (length (p_rest st')) (mkComplex [k] []) st'.

Fixpoint list_loop (fuel : nat) (selectors : list ComplexSelector) (st : pstate)
  : result (list ComplexSelector * pstate) :=
  match p_rest st with
  | c :: r =>
      if c =c "," then
        match fuel with
        | O => Throw Internal
        | S fuel' =>
            '(sel, st') ← parse_complex (skip_space (set_rest r st));
            list_loop fuel' (selectors ++ [sel]) (skip_space st')
        end
      else Ret (selectors, st)
  | [] => Ret (selectors, st)
  end.

Definition parse_list_body (nested : bool) : parser (list ComplexSelector) := fun st =>
  '(sel, st1) ← parse_complex (skip_space st);
  let st2 := skip_space st1 in
  '(selectors, st3) ← list_loop (length (p_rest st2)) [sel] st2;
  match p_rest st3 with
  | [] => Ret (selectors, st3)
  | c :: _ => if nested && (c =c ")") then Ret (selectors, st3) else Throw ParseError
  end.

End Parser.

(** [parse_list]: every nested call is one deeper. *)
Fixpoint parse_list (depth : nat) (nested : bool) : parser (list ComplexSelector) :=
  match depth with
  | O => fun _ => Throw Internal
  | S depth' => parse_list_body (parse_list depth' true) nested
  end.

Definition initial_state (text : bytes) : pstate :=
  {| p_rest := text; compound_count := 0; nesting := 0 |}.

Definition parse (text : bytes) : result (list ComplexSelector) :=
  _ ← throw_if (max_selector_bytes <? N.of_nat (length text))%N ParseError;
  '(selectors, _) ← parse_list 33 false (initial_state text);
  Ret selectors.

Example parse_ex1 :
  parse (lit "ul > li.item:nth-child(2n+1), a[href^='x' i]:not(.b #c)") =
  Ret [ mkComplex [ mkCompound false (lit "ul") [] [] [] [];
                    mkCompound false (lit "li") [] [lit "item"] [] [mkPseudo NthChild 2 1 []] ]
                  [Child];
        mkComplex [ mkCompound false (lit "a") [] [] 
                      [{| sel_name := lit "href"; sel_op := Prefix; sel_value := lit "x";
                          ascii_insensitive := true |}]
                      [mkPseudo Not 0 0
                         [mkComplex [mkCompound false [] [] [lit "b"] [] [];
                                     mkCompound false [] [lit "c"] [] [] []] [Descendant]]] ]
                  [] ].
Proof. vm_compute. reflexivity. Qed.

Example parse_ex2 : parse (lit "a >") = Throw ParseError /\ parse (lit ":nth-child(3 n)") = Throw ParseError
  /\ parse [backslash; "4"; "1"; " "; "b"]%char = Ret [mkComplex [mkCompound false (lit "ab") [] [] [] []] []].
Proof. vm_compute. auto. Qed.

(** ** Well-formed syntax *)

Definition is_int (z : Z) : bool := (int_min <=? z)%Z && (z <=? int_max)%Z.

Definition attr_selector_ok (a : AttrSelector) : bool := nonempty (sel_name a).

(** What the matcher relies on: no list of selectors is empty and every complex selector
    has one compound more than combinators. *)
Fixpoint pseudo_ok (p : PseudoClass) : bool :=
  is_int (nth_a p) && is_int (nth_b p) &&
  (if bool_decide (pseudo_kind p = Not) then nonempty (not_list p)
   else negb (nonempty (not_list p))) &&
  forallb complex_ok (not_list p)
with compound_ok (k : Compound) : bool :=
  forallb nonempty (ids k) && forallb nonempty (classes k) &&
  forallb attr_selector_ok (attr_selectors k) && forallb pseudo_ok (pseudos k)
with complex_ok (s : ComplexSelector) : bool :=
  (length (compounds s) =? S (length (combinators s)))%nat && forallb compound_ok (compounds s).

(** The compounds of a selector, those inside [:not()] included. *)
Fixpoint pseudo_size (p : PseudoClass) : N := sumN complex_size (not_list p)
with compound_size (k : Compound) : N := 1 + sumN pseudo_size (pseudos k)
with complex_size (s : ComplexSelector) : N := sumN compound_size (compounds s).

(** How deep [:not()] is nested. *)
Fixpoint pseudo_depth (p : PseudoClass) : N :=
  if bool_decide (pseudo_kind p = Not) then 1 + maxN complex_depth (not_list p) else 0
with compound_depth (k : Compound) : N := maxN pseudo_depth (pseudos k)
with complex_depth (s : ComplexSelector) : N := maxN compound_depth (compounds s).

(** ** The lexical functions consume text and fail only with [ParseError] *)

Abbreviation parse_outcome := (outcome (fun e => e = ParseError)).

(** [shortens s m]: the text [m] leaves is not longer than [s]. *)
Abbreviation shortens s := (parse_outcome (fun '(_, r) => length r <= length s)).

Lemma read_hex_cons count cp c s d :
  hex c = Some d -> read_hex (S count) cp (c :: s) = read_hex count (cp * 16 + d)%N s.
Proof. intros E. simpl. by rewrite E. Qed.

Lemma read_hex_length count cp s : length (read_hex count cp s).2 <= length s.
Proof.
  revert cp s. induction count as [|count IH]; intros cp [|c s]; simpl; try lia.
  destruct (hex c); simpl; [|lia]. pose proof (IH (cp * 16 + n)%N s). lia.
Qed.

Lemma skip_lf_length s : length (skip_lf s) <= length s.
Proof. destruct s; simpl; [done|]. case_match; simpl; lia. Qed.

Lemma skip_one_space_length s : length (skip_one_space s) <= length s.
Proof.
  destruct s as [|c s]; simpl; [done|]. pose proof (skip_lf_length s).
  repeat case_match; simpl; lia.
Qed.

Lemma read_escape_outcome s :
  parse_outcome (fun '(_, r) => length r < length s) (read_escape s).
Proof.
  destruct s as [|c s]; [done|]. cbn [read_escape]. destruct (is_newline c); [done|].
  destruct (hex c) as [d|] eqn:E; [|simpl; lia]. rewrite (read_hex_cons 5 0 c s d E).
  generalize (0 * 16 + d)%N as cp0. intros cp0. pose proof (read_hex_length 5 cp0 s) as H1.
  destruct (read_hex 5 cp0 s) as [cp r]. cbn [outcome snd length] in *.
  pose proof (skip_one_space_length r). lia.
Qed.

Lemma ident_loop_outcome fuel out s : length s <= fuel -> shortens s (ident_loop fuel out s).
Proof.
  revert out s. induction fuel as [|fuel IH]; intros out [|c s] Hf; simpl in Hf |- *; try lia.
  destruct (is_ident_char c); [|simpl; lia]. destruct (c =c backslash).
  - eapply outcome_bind_pair; [apply read_escape_outcome|]. intros e r Hr. cbn beta iota in Hr |- *.
    eapply outcome_impl; [apply IH; lia|]. intros [o r'] ?. simpl. lia.
  - eapply outcome_impl; [apply IH; lia|]. intros [o r'] ?. simpl. lia.
Qed.

Lemma read_ident_outcome s : shortens s (read_ident s).
Proof. unfold read_ident. destruct (ident_start s); [by apply ident_loop_outcome|simpl; lia]. Qed.

Lemma read_name_outcome s :
  parse_outcome (fun '(n, r) => nonempty n = true /\ length r <= length s) (read_name s).
Proof.
  eapply outcome_bind_pair; [apply read_ident_outcome|]. intros n r Hr. simpl.
  apply outcome_throw_if; [done|]. intros Hn%negb_false_iff. by split.
Qed.

Lemma quoted_loop_outcome fuel q out s : length s <= fuel -> shortens s (quoted_loop fuel q out s).
Proof.
  revert out s. induction fuel as [|fuel IH]; intros out [|c s] Hf; simpl in Hf |- *; try lia; try done.
  assert (Hrec : forall o r, length r <= length s ->
            parse_outcome (fun '(_, r) => length r <= S (length s)) (quoted_loop fuel q o r)).
  { intros o r Hr. eapply outcome_impl; [apply IH; lia|]. intros [b r'] H. simpl in H |- *. lia. }
  destruct (c =c q); [simpl; lia|]. destruct (c =c backslash).
  - destruct s as [|d s]; [done|]. destruct (is_newline d).
    + apply Hrec. pose proof (skip_lf_length s). case_match; simpl; lia.
    + eapply outcome_bind_pair; [apply read_escape_outcome|]. intros e r Hr. simpl in Hr. apply Hrec. simpl. lia.
  - destruct (is_newline c); [done|]. by apply Hrec.
Qed.

Lemma read_attr_value_outcome s : shortens s (read_attr_value s).
Proof.
  destruct s as [|q s]; [done|]. cbn [read_attr_value]. destruct (is_quote q).
  - eapply outcome_impl; [by apply quoted_loop_outcome|]. intros [? ?] ?. simpl in *. lia.
  - eapply outcome_impl; [apply (read_name_outcome (q :: s))|]. by intros [? ?] [_ ?].
Qed.

Lemma read_operator_outcome s : shortens s (read_operator s).
Proof.
  destruct s as [|c [|e r]]; simpl; try done; repeat case_match; simpl; try done; lia.
Qed.

Lemma read_flag_outcome a s :
  parse_outcome (fun '(a', r) => sel_name a' = sel_name a /\ length r <= length s) (read_flag a s).
Proof.
  unfold read_flag. case_match; [done|].
  eapply outcome_bind_pair; [apply read_ident_outcome|]. intros f r Hr. simpl in Hr |- *.
  apply outcome_throw_if; [done|]. intros _. simpl. split; [done|].
  pose proof (length_skip is_space r). lia.
Qed.

Lemma nonempty_to_lower s : nonempty (to_lower s) = nonempty s.
Proof. by destruct s. Qed.

Lemma parse_attribute_outcome s :
  parse_outcome (fun '(a, r) => attr_selector_ok a = true /\ length r <= length s)
    (parse_attribute s).
Proof.
  unfold parse_attribute. pose proof (length_skip is_space s) as H0.
  eapply outcome_bind_pair; [apply read_ident_outcome|]. intros n r1 H1. simpl in H1 |- *.
  apply outcome_throw_if; [done|]. intros Hn%negb_false_iff.
  pose proof (length_skip is_space r1) as H2.
  eapply (outcome_bind_pair _ (fun a r => attr_selector_ok a = true /\ length r <= length s)).
  { destruct (before_bracket _); [|simpl; unfold attr_selector_ok; simpl;
      rewrite nonempty_to_lower; split; [done|lia]].
    eapply outcome_bind_pair; [apply read_operator_outcome|]. intros op r H3. simpl in H3 |- *.
    pose proof (length_skip is_space r) as H4.
    eapply outcome_bind_pair; [apply read_attr_value_outcome|]. intros v r' H5. simpl in H5 |- *.
    unfold attr_selector_ok; simpl. rewrite nonempty_to_lower. split; [done|lia]. }
  intros a r3 [Ha H3]. pose proof (length_skip is_space r3) as H4.
  eapply outcome_bind_pair; [apply read_flag_outcome|]. intros a' r4 [Hn' H5].
  destruct r4 as [|c r5]; [done|]. case_match; [|done]. simpl in *.
  unfold attr_selector_ok in *. rewrite Hn'. split; [done|lia].
Qed.

(** The integers of a formula fit an [int]. *)
Lemma from_chars_int s v : from_chars s = Some v -> is_int v = true.
Proof.
  unfold from_chars, is_int. repeat case_match; intros [= <-]; split_andb; by apply andb_true_iff.
Qed.

Abbreviation int_outcome := (parse_outcome (fun v => is_int v = true)).

Lemma integer_outcome s : int_outcome (integer s).
Proof.
  unfold integer. eapply (outcome_bind _ (fun _ => True)).
  - repeat case_match; done.
  - intros t _. destruct (from_chars t) eqn:E; [|done]. by apply from_chars_int in E.
Qed.

Lemma nth_offset_outcome s : int_outcome (nth_offset s).
Proof.
  unfold nth_offset. destruct (skip is_space s) as [|sign r]; [done|]. case_match; [|done].
  destruct (skip is_space r) as [|d r']; [done|]. case_match; [|done]. apply integer_outcome.
Qed.

Lemma nth_argument_outcome s :
  parse_outcome (fun '(a, b) => is_int a = true /\ is_int b = true) (nth_argument s).
Proof.
  unfold nth_argument. case_match; [done|]. case_match; [done|].
  destruct (find_if _ s) as [n|]; (eapply outcome_bind; [|intros x Hx]).
  - instantiate (1 := fun v => is_int v = true). case_match; [done|]. case_match; [done|].
    apply integer_outcome.
  - eapply outcome_bind; [apply nth_offset_outcome|]. intros y Hy. by split.
  - apply integer_outcome.
  - by split.
Qed.

Lemma parse_nth_outcome s :
  parse_outcome (fun '(a, b, r) => is_int a = true /\ is_int b = true /\ length r <= length s)
    (parse_nth s).
Proof.
  destruct s as [|c s]; [done|]. simpl. case_match; [|done]. case_match; [|done].
  eapply outcome_bind; [apply nth_argument_outcome|]. intros [a b] [Ha Hb]. simpl.
  split_and!; [done..|]. pose proof (length_skip is_space s). rewrite length_drop. lia.
Qed.

(** ** The parser returns well-formed selectors within its limits *)

#[local] Arguments N.add : simpl never.
#[local] Arguments N.sub : simpl never.
#[local] Arguments N.max : simpl never.

(** What the parser counts and checks, for each syntactic category. *)
Class Syntax (A : Type) := {
  syn_ok : A -> bool;
  syn_size : A -> N;
  syn_depth : A -> N }.

#[export] Instance pseudo_syntax : Syntax PseudoClass :=
  {| syn_ok := pseudo_ok; syn_size := pseudo_size; syn_depth := pseudo_depth |}.
#[export] Instance compound_syntax : Syntax Compound :=
  {| syn_ok := compound_ok; syn_size := compound_size; syn_depth := compound_depth |}.
#[export] Instance complex_syntax : Syntax ComplexSelector :=
  {| syn_ok := complex_ok; syn_size := complex_size; syn_depth := complex_depth |}.
#[export] Instance list_syntax : Syntax (list ComplexSelector) :=
  {| syn_ok l := nonempty l && forallb complex_ok l; syn_size := sumN complex_size;
     syn_depth := maxN complex_depth |}.

Definition valid_state (lo : N) (st : pstate) : Prop :=
  (lo <= nesting st <= max_nesting /\ compound_count st <= max_compounds)%N.

(** [a] is well formed and the counter stands at [b] plus its compounds. *)
Definition reached {A} `{Syntax A} (b : N) (a : A) (st : pstate) : Prop :=
  syn_ok a = true /\
  (compound_count st = b + syn_size a /\ compound_count st <= max_compounds /\
   nesting st + syn_depth a <= max_nesting)%N.

(** [st'] comes behind [st] on the same nesting level. *)
Definition behind (st st' : pstate) : Prop :=
  nesting st' = nesting st /\ length (p_rest st') <= length (p_rest st).

Definition parses_well {A} `{Syntax A} (lo : N) (p : parser A) : Prop :=
  forall st, valid_state lo st ->
    parse_outcome (fun '(a, st') => reached (compound_count st) a st' /\ behind st st') (p st).

Lemma behind_trans st1 st2 st3 : behind st1 st2 -> behind st2 st3 -> behind st1 st3.
Proof. unfold behind. intros [-> ?] [-> ?]. split; [done|lia]. Qed.

Lemma valid_behind {A} `{Syntax A} lo b (a : A) st st' :
  valid_state lo st -> reached b a st' -> behind st st' -> valid_state lo st'.
Proof. unfold valid_state, reached, behind. intros ? (? & ? & ? & ?) [E _]. rewrite E. lia. Qed.

Lemma behind_rest st r : length r <= length (p_rest st) -> behind st (set_rest r st).
Proof. by split. Qed.

Lemma behind_skip st : behind st (skip_space st).
Proof. apply behind_rest, length_skip. Qed.

Lemma reached_rest {A} `{Syntax A} b (a : A) st r : reached b a st -> reached b a (set_rest r st).
Proof. done. Qed.

Lemma with_class_reached b n k st :
  nonempty n = true -> reached b k st -> reached b (with_class n k) st.
Proof.
  unfold reached. destruct k. simpl. intros Hn [H1 H2]. split; [|exact H2].
  rewrite forallb_app. simpl. rewrite Hn, !andb_true_r. exact H1.
Qed.

Lemma with_id_reached b n k st :
  nonempty n = true -> reached b k st -> reached b (with_id n k) st.
Proof.
  unfold reached. destruct k. simpl. intros Hn [H1 H2]. split; [|exact H2].
  rewrite forallb_app. simpl. rewrite Hn, !andb_true_r. exact H1.
Qed.

Lemma with_attribute_reached b a k st :
  attr_selector_ok a = true -> reached b k st -> reached b (with_attribute a k) st.
Proof.
  unfold reached. destruct k. simpl. intros Hn [H1 H2]. split; [|exact H2].
  rewrite forallb_app. simpl. rewrite Hn, !andb_true_r. exact H1.
Qed.

Lemma with_pseudo_reached b p k st st' :
  nesting st' = nesting st ->
  reached b k st -> reached (compound_count st) p st' -> reached b (with_pseudo p k) st'.
Proof.
  intros Hnest [H1 H2] [H3 H4]. destruct k. unfold reached. simpl in *.
  rewrite forallb_app, sumN_app, maxN_app. cbn [forallb].
  change (sumN pseudo_size [p]) with (pseudo_size p + 0)%N.
  change (maxN pseudo_depth [p]) with (N.max (pseudo_depth p) 0)%N.
  rewrite H3, !andb_true_r. split; [exact H1|]. lia.
Qed.

Section ParserOutcome.
Context (parse_nested : parser (list ComplexSelector)) (lo : N).
Hypothesis nested_well : parses_well (lo + 1) parse_nested.

Lemma keyword_simple_outcome n k :
  keyword n simple_pseudos = Some k \/ keyword n nth_pseudos = Some k -> k <> Not.
Proof. simpl. repeat case_match; intros [[= <-]|[= <-]]; done. Qed.

Lemma pseudo_reached (p : PseudoClass) st r :
  pseudo_kind p <> Not -> is_int (nth_a p) = true -> is_int (nth_b p) = true -> not_list p = [] ->
  valid_state lo st -> reached (compound_count st) p (set_rest r st).
Proof.
  destruct p as [k a b l]. unfold reached, valid_state. simpl. intros Hk Ha Hb -> H.
  rewrite Ha, Hb, bool_decide_eq_false_2 by done. simpl. split; [done|]. lia.
Qed.

Lemma parse_pseudo_outcome : parses_well lo (parse_pseudo parse_nested).
Proof.
  intros st Hst. unfold parse_pseudo. eapply outcome_bind_pair; [apply read_ident_outcome|].
  intros n r Hr. cbn beta iota in Hr |- *.
  destruct (keyword (to_lower n) simple_pseudos) as [k|] eqn:E1.
  { split; [|by apply behind_rest]. apply pseudo_reached; try done.
    simpl. eapply keyword_simple_outcome. by left. }
  destruct (keyword (to_lower n) nth_pseudos) as [k|] eqn:E2.
  { eapply outcome_bind; [apply parse_nth_outcome|]. intros [[a b] r'] (Ha & Hb & Hr').
    split; [|apply behind_rest; lia]. apply pseudo_reached; try done.
    simpl. eapply keyword_simple_outcome. by right. }
  case_match; [|done]. destruct r as [|c r1]; [done|]. case_match; [|done].
  apply outcome_throw_if; [done|]. intros Hn%N.ltb_ge. unfold valid_state in Hst.
  eapply outcome_bind_pair; [apply nested_well; unfold valid_state; simpl; lia|].
  intros l st' [[H1 H2] [H3 H4]]. simpl in *. destruct (p_rest st') as [|d r2]; [done|].
  destruct (d =c ")"); [|done]. split; [split; [exact H1|]|]; simpl in *.
  - change (bool_decide (Not = Not)) with true. lia.
  - split; simpl; lia.
Qed.

Lemma compound_step_outcome b k st :
  valid_state lo st -> reached b k st ->
  parse_outcome (fun next => match next with
                 | None => True
                 | Some (k', st') => reached b k' st' /\ nesting st' = nesting st /\
                                     length (p_rest st') < length (p_rest st)
                 end) (compound_step parse_nested k st).
Proof.
  intros Hst Hk. unfold compound_step. destruct (p_rest st) as [|c r] eqn:Er; [done|].
  case_match.
  { eapply outcome_bind_pair; [apply read_name_outcome|]. intros n r' [Hn Hr]. simpl.
    split_and!; [|done|lia]. by apply reached_rest, with_class_reached. }
  case_match.
  { eapply outcome_bind_pair; [apply read_name_outcome|]. intros n r' [Hn Hr]. simpl.
    split_and!; [|done|lia]. by apply reached_rest, with_id_reached. }
  case_match.
  { eapply outcome_bind_pair; [apply parse_attribute_outcome|]. intros a r' [Ha Hr]. simpl.
    split_and!; [|done|lia]. by apply reached_rest, with_attribute_reached. }
  case_match; [|done].
  eapply outcome_bind_pair; [by apply parse_pseudo_outcome|]. intros p st' [Hp [Hn Hr]]. simpl in *.
  split_and!; [|done|lia]. by eapply with_pseudo_reached.
Qed.

Lemma compound_loop_outcome fuel b consumed k st :
  length (p_rest st) < fuel -> valid_state lo st -> reached b k st ->
  parse_outcome (fun '(_, k', st') => reached b k' st' /\ behind st st')
    (compound_loop parse_nested fuel consumed k st).
Proof.
  revert consumed k st. induction fuel as [|fuel IH]; intros consumed k st Hf Hst Hk; [lia|].
  cbn [compound_loop]. eapply outcome_bind; [by apply (compound_step_outcome b)|].
  intros [[k' st']|]; [|done]. intros (H1 & H2 & H3).
  eapply outcome_impl; [apply IH; [lia| |exact H1]|].
  { eapply (valid_behind (A:=Compound)); [exact Hst|exact H1|]. split; [done|lia]. }
  intros [[c k2] st2] [H4 H5]. split; [exact H4|]. eapply behind_trans; [|exact H5]. split; [done|lia].
Qed.

Lemma compound_head_outcome s :
  parse_outcome (fun '(_, k, r) => compound_ok k = true /\ compound_size k = 1%N /\
                                  compound_depth k = 0%N /\ length r <= length s) (compound_head s).
Proof.
  destruct s as [|c r]; [done|]. cbn [compound_head].
  destruct (c =c "*"); [simpl; split_and!; [done..|lia]|].
  destruct (ident_start (c :: r)); [|simpl; split_and!; [done..|lia]].
  eapply outcome_bind_pair; [apply read_ident_outcome|]. intros n r' Hr. done.
Qed.

Lemma parse_compound_outcome : parses_well lo (parse_compound parse_nested).
Proof.
  intros st Hst. unfold parse_compound. unfold valid_state in Hst.
  apply outcome_throw_if; [done|]. intros Hc%N.ltb_ge.
  eapply outcome_bind; [apply compound_head_outcome|]. intros [[c k] r] (H1 & H2 & H3 & H4).
  eapply outcome_bind.
  { apply (compound_loop_outcome _ (compound_count st)); [simpl; lia|unfold valid_state; simpl; lia|].
    split; [exact H1|]. simpl. rewrite H2, H3. lia. }
  intros [[c' k'] st'] [H5 H6]. apply outcome_throw_if; [done|]. intros _.
  split; [exact H5|]. eapply behind_trans; [|exact H6]. split; [done|exact H4].
Qed.

Lemma read_combinator_outcome s :
  parse_outcome (fun '(c, r) => length r <= length s /\
                               (is_Some c -> length r < length s)) (read_combinator s).
Proof.
  unfold read_combinator. set (r := skip is_space s). pose proof (length_skip is_space s) as H1.
  assert (Hsp : head_is (fun c => negb (is_space c)) s = false -> length r < length s).
  { subst r. destruct s as [|c s]; [done|]. simpl. intros ->%negb_false_iff.
    pose proof (length_skip is_space s). lia. }
  fold r in H1. set (p := match r with [] => _ | _ => _ end).
  assert (Hp : length p.2 <= length r /\ (p.1 <> Descendant -> length p.2 < length r)).
  { subst p. destruct r; simpl; [done|]. repeat case_match; simpl; lia || done. }
  destruct p as [cb r1]. simpl in Hp. pose proof (length_skip is_space r1) as H2.
  destruct (bool_decide (cb = Descendant)) eqn:E.
  - destruct (head_is _ s) eqn:Eh; simpl.
    + split; [lia|]. by intros [? ?].
    + specialize (Hsp eq_refl). case_match; simpl; split; lia || by intros [? ?].
  - apply bool_decide_eq_false in E. destruct Hp as [_ Hp]. specialize (Hp E). simpl.
    case_match; simpl; [done|]. split; lia.
Qed.

Lemma complex_snoc_reached b sel k c st st' :
  nesting st' = nesting st ->
  reached b sel st -> reached (compound_count st) k st' ->
  reached b (mkComplex (compounds sel ++ [k]) (combinators sel ++ [c])) st'.
Proof.
  intros Hnest [H1 H2] [H3 H4]. destruct sel as [ks cs]. unfold reached. simpl in *.
  rewrite forallb_app, sumN_app, maxN_app, !length_app. cbn [forallb length].
  change (sumN compound_size [k]) with (compound_size k + 0)%N.
  change (maxN compound_depth [k]) with (N.max (compound_depth k) 0)%N.
  apply andb_prop in H1 as [Hl%Nat.eqb_eq H1]. rewrite H1, H3, Hl. simpl. split; [|lia].
  rewrite !andb_true_r. apply Nat.eqb_eq. lia.
Qed.

Lemma complex_loop_outcome fuel b sel st :
  length (p_rest st) <= fuel -> valid_state lo st -> reached b sel st ->
  parse_outcome (fun '(sel', st') => reached b sel' st' /\ behind st st')
    (complex_loop parse_nested fuel sel st).
Proof.
  revert sel st. induction fuel as [|fuel IH]; intros sel st Hf Hst Hk; cbn [complex_loop].
  { destruct (p_rest st); simpl in *; [done|lia]. }
  case_match; [done|]. eapply outcome_bind_pair; [apply read_combinator_outcome|].
  intros [c|] r [H1 H2]; simpl; [|split; [done|by apply behind_rest]].
  specialize (H2 ltac:(done)).
  eapply outcome_bind_pair; [by apply parse_compound_outcome|]. intros k st' [H3 [H4 H5]]. simpl in *.
  assert (H6 : reached b (mkComplex (compounds sel ++ [k]) (combinators sel ++ [c])) st')
    by (by eapply complex_snoc_reached).
  assert (H7 : behind st st') by (split; [done|lia]).
  eapply outcome_impl; [apply IH; [lia|exact (valid_behind lo b _ st st' Hst H6 H7)|exact H6]|].
  intros [sel' st2] [H8 H9]. split; [exact H8|]. by eapply behind_trans.
Qed.

Lemma parse_complex_outcome : parses_well lo (parse_complex parse_nested).
Proof.
  intros st Hst. unfold parse_complex.
  eapply outcome_bind_pair; [by apply parse_compound_outcome|]. intros k st' [[H1 H2] H3].
  eapply outcome_impl; [apply (complex_loop_outcome _ (compound_count st)); [done| |]|].
  - eapply (valid_behind (A:=Compound) lo); [exact Hst| |exact H3]. split; [exact H1|exact H2].
  - split; cbn -[sumN maxN] in *; [by rewrite H1|]. unfold sumN, maxN. simpl. lia.
  - intros [sel st2] [H4 H5]. split; [exact H4|]. by eapply behind_trans.
Qed.

Lemma list_snoc_reached b (l : list ComplexSelector) (sel : ComplexSelector) st st' :
  nesting st' = nesting st ->
  reached b l st -> reached (compound_count st) sel st' -> reached b (l ++ [sel]) st'.
Proof.
  intros Hnest [H1 H2] [H3 H4]. unfold reached. simpl in *.
  rewrite forallb_app, sumN_app, maxN_app. cbn [forallb].
  change (sumN complex_size [sel]) with (complex_size sel + 0)%N.
  change (maxN complex_depth [sel]) with (N.max (complex_depth sel) 0)%N.
  apply andb_prop in H1 as [_ H1]. rewrite H1, H3. split; [by destruct l|lia].
Qed.

Lemma list_loop_outcome fuel b l st :
  length (p_rest st) <= fuel -> valid_state lo st -> reached b l st ->
  parse_outcome (fun '(l', st') => reached b l' st' /\ behind st st')
    (list_loop parse_nested fuel l st).
Proof.
  revert l st. induction fuel as [|fuel IH]; intros l st Hf Hst Hk; cbn [list_loop].
  { destruct (p_rest st); simpl in *; [done|lia]. }
  destruct (p_rest st) as [|c r] eqn:Er; [done|]. case_match; [|done].
  assert (Hb : behind st (skip_space (set_rest r st))).
  { eapply behind_trans; [|apply behind_skip]. apply behind_rest. rewrite Er. simpl. lia. }
  eapply outcome_bind_pair.
  { apply parse_complex_outcome. exact Hst. }
  intros sel st' [H1 H2].
  assert (H3 : reached b (l ++ [sel]) (skip_space st')).
  { apply reached_rest. eapply list_snoc_reached; [|exact Hk|exact H1]. apply H2. }
  assert (H4 : behind (skip_space (set_rest r st)) (skip_space st')).
  { eapply behind_trans; [exact H2|apply behind_skip]. }
  eapply outcome_impl; [apply IH; [|exact (valid_behind lo b _ st _ Hst H3 (behind_trans _ _ _ Hb H4))|exact H3]|].
  - destruct H4 as [_ H4]. simpl in Hf, H4 |- *. pose proof (length_skip is_space r). lia.
  - intros [l' st2] [H5 H6]. split; [exact H5|]. by eapply behind_trans, behind_trans.
Qed.

Lemma parse_list_body_outcome nested : parses_well lo (parse_list_body parse_nested nested).
Proof.
  intros st Hst. unfold parse_list_body.
  assert (Hst' : valid_state lo (skip_space st)) by exact Hst.
  eapply outcome_bind_pair; [by apply parse_complex_outcome|]. intros sel st1 [H1 H2].
  assert (H3 : behind st (skip_space st1)).
  { eapply behind_trans; [apply behind_skip|]. eapply behind_trans; [exact H2|apply behind_skip]. }
  eapply outcome_bind_pair.
  { apply (list_loop_outcome _ (compound_count st)); [done| |].
    - eapply (valid_behind (A:=ComplexSelector) lo); [exact Hst| |exact H3]. apply reached_rest, H1.
    - apply reached_rest. destruct H1 as [H1 H4]. split; cbn -[sumN maxN] in *; [by rewrite H1|].
      unfold sumN, maxN. simpl. lia. }
  intros l st3 [H5 H6]. pose proof (behind_trans _ _ _ H3 H6).
  destruct (p_rest st3); [done|]. by case_match.
Qed.

End ParserOutcome.

(** 33 levels are enough for the nesting limit. *)
Lemma parse_list_outcome depth lo nested :
  (max_nesting < lo + N.of_nat depth)%N -> parses_well lo (parse_list depth nested).
Proof.
  revert lo nested. induction depth as [|depth IH]; intros lo nested Hd.
  - intros st [Hst _]. lia.
  - apply parse_list_body_outcome, IH. lia.
Qed.

Lemma parse_total text :
  parse_outcome (fun l => syn_ok l = true /\ (syn_size l <= max_compounds)%N /\
                         (syn_depth l <= max_nesting)%N) (parse text).
Proof.
  unfold parse. apply outcome_throw_if; [done|]. intros _.
  eapply outcome_bind; [apply (parse_list_outcome 33 0); [done|]; done|].
  intros [l st] [(H1 & H2 & H3 & H4) [H5 _]]. simpl in H2, H5. simpl. rewrite H5 in H4.
  simpl in H4. split_and!; [done|unfold max_compounds in *; lia|lia].
Qed.

(** ** Properties *)

(** C6: the selector parser is total: on every text it returns, within its limits of 256
    compounds and 32 levels of [:not()], selectors as the matcher needs them (no list of
    selectors is empty, one compound more than combinators, non-empty names, [int]
    coefficients), or it throws a [ParseError]; it never fails otherwise. *)
Theorem parse_sound text :
  match parse text with
  | Ret l => nonempty l = true /\ forallb complex_ok l = true /\
             (sumN complex_size l <= 256)%N /\ (maxN complex_depth l <= 32)%N
  | Throw e => e = ParseError
  end.
Proof.
  pose proof (parse_total text) as H. destruct (parse text) as [l|e]; [|exact H].
  destruct H as (H1 & H2 & H3). apply andb_prop in H1 as [H1 H4]. done.
Qed.
