(* ===== verification/SelectorMatch.v ===== *)
(** * Selector matching: [src/flatworm/selector_matcher.cpp] and [css_selector.cpp]

    The matcher reads the node store of [Dom] and never writes it.  [MatchBudget] is
    threaded as state; an index outside a vector would be the error [Internal], which
    [matches_correct] excludes for the selectors the parser returns. *)
From S2P Require Import Prelude Html HtmlTree Dom Selector.

(** ** The budget *)

Definition M (A : Type) : Type := N -> result (A * N).

#[export] Instance M_ret : MRet M := fun A a b => Ret (a, b).
#[export] Instance M_bind : MBind M := fun A B f m b =>
  match m b with Ret (a, b') => f a b' | Throw e => Throw e end.

Definition max_steps : N := 100000.

(** [MatchBudget::step]. *)
Definition step : M unit := fun remaining =>
  if (remaining =? 0)%N then Throw ResourceLimit else Ret (tt, (remaining - 1)%N).

Definition out_of_range {A} : M A := fun _ => Throw Internal.

(** The loops that stop at the first match and at the first mismatch. *)
Definition any_of {A} (f : A -> M bool) : list A -> M bool :=
  fix go l := match l with
              | [] => mret false
              | x :: l' => r ← f x; if r : bool then mret true else go l'
              end.

Definition all_of {A} (f : A -> M bool) : list A -> M bool :=
  fix go l := match l with
              | [] => mret true
              | x :: l' => r ← f x; if r : bool then go l' else mret false
              end.

Fixpoint split_loop (current s : bytes) : list bytes :=
  match s with
  | [] => if nonempty current then [current] else []
  | c :: s' =>
      if is_space c then
        if nonempty current then current :: split_loop [] s' else split_loop [] s'
      else split_loop (current ++ [c]) s'
  end.

Definition split_whitespace (value : bytes) : list bytes := split_loop [] value.

(** ** Attributes *)

Definition attr_op_matches (op : AttrOp) (value wanted : bytes) : bool :=
  match op with
  | Exists_ => true
  | Equals => value =s wanted
  | Includes => existsb (fun part => part =s wanted) (split_whitespace value)
  | DashMatch =>
      (value =s wanted) ||
      (starts_with wanted value &&
       match drop (length wanted) value with c :: _ => c =c "-" | [] => false end)
  | Prefix => nonempty wanted && starts_with wanted value
  | Suffix => nonempty wanted && (length wanted <=? length value)%nat &&
              (drop (length value - length wanted) value =s wanted)
  | Substring => nonempty wanted && match find_sub wanted value with Some _ => true | None => false end
  end.

Section Matcher.
Context (d : dom).

Definition match_attr (node : nat) (a : AttrSelector) : bool :=
  match attribute d node (sel_name a) with
  | None => false
  | Some value =>
      attr_op_matches (sel_op a) (if ascii_insensitive a then to_lower value else value) (sel_value a)
  end.

(** ** Positions among the siblings *)

Definition peer (of_type : bool) (node sibling : nat) : bool :=
  is_element d sibling && (negb of_type || (name_of d sibling =s name_of d node)).

Fixpoint index_in (of_type : bool) (node index : nat) (l : list nat) : nat :=
  match l with
  | [] => index
  | s :: l' =>
      let index' := if peer of_type node s then S index else index in
      if decide (s = node) then index' else index_in of_type node index' l'
  end.

Definition element_index (node : nat) (of_type : bool) : nat :=
  match parent_of d node with
  | None => 1
  | Some p => index_in of_type node 0 (children_of d p)
  end.

Definition element_count (node : nat) (of_type : bool) : nat :=
  match parent_of d node with
  | None => 1
  | Some p => length (List.filter (peer of_type node) (children_of d p))
  end.

Definition type_of (i : nat) : option NodeType := n_type <$> nodes d !! i.

Definition text_of (i : nat) : bytes := from_option n_text [] (nodes d !! i).

(** A child that makes its parent not [:empty]. *)
Definition counts_as_content (c : nat) : bool :=
  is_element d c || (bool_decide (type_of c = Some Text) && nonempty (text_of c)).

Definition is_root (node : nat) : bool :=
  match parent_of d node with
  | Some p => bool_decide (type_of p = Some Document)
  | None => false
  end.

(** The formula [an+b] on 64-bit integers; [%] and [/] truncate. *)
Definition nth_matches (a b index : Z) : bool :=
  (if a =? 0 then index =? b
   else let delta := index - b in (Z.rem delta a =? 0) && (0 <=? Z.quot delta a))%Z.

Definition match_position (p : PseudoClass) (node : nat) : bool :=
  let index := element_index node in
  let count := element_count node in
  let nth (of_type reverse : bool) :=
    let position := Z.of_nat (index of_type) in
    nth_matches (nth_a p) (nth_b p)
      (if reverse then (Z.of_nat (count of_type) - position + 1)%Z else position) in
  match pseudo_kind p with
  | FirstChild => (index false =? 1)%nat
  | LastChild => (index false =? count false)%nat
  | OnlyChild => (count false =? 1)%nat
  | FirstOfType => (index true =? 1)%nat
  | LastOfType => (index true =? count true)%nat
  | OnlyOfType => (count true =? 1)%nat
  | Empty_ => forallb (fun c => negb (counts_as_content c)) (children_of d node)
  | Root => is_root node
  | NthChild => nth false false
  | NthLastChild => nth false true
  | NthOfType => nth true false
  | NthLastOfType => nth true true
  | Not => false
  end.

(** ** Compounds and complex selectors *)

(** The part of [match_compound] before the pseudo-classes. *)
Definition match_simple (node : nat) (k : Compound) : bool :=
  is_element d node &&
  (universal k || negb (nonempty (tag k)) || (name_of d node =s tag k)) &&
  forallb (fun wanted => match attribute d node (lit "id") with
                         | Some id => id =s wanted
                         | None => false
                         end) (ids k) &&
  (negb (nonempty (classes k)) ||
   match attribute d node (lit "class") with
   | Some value => forallb (fun wanted => existsb (fun c => c =s wanted) (split_whitespace value))
                     (classes k)
   | None => false
   end) &&
  forallb (match_attr node) (attr_selectors k).

(** The nodes above a node, the nearest first. *)
Definition ancestors (node : nat) : list nat := tail (self_and_ancestors d node).

Fixpoint position_in (node k : nat) (l : list nat) : nat :=
  match l with
  | [] => 0
  | s :: l' => if decide (s = node) then k else position_in node (S k) l'
  end.

(** The element siblings in front of a node, the nearest first. *)
Definition earlier_elements (node : nat) : list nat :=
  match parent_of d node with
  | None => []
  | Some p =>
      let l := children_of d p in
      List.filter (is_element d) (reverse (take (position_in node 0 l) l))
  end.

(** Where the compound left of a combinator is tried. *)
Definition candidates (c : Combinator) (node : nat) : list nat :=
  match c with
  | Descendant => ancestors node
  | Child => match parent_of d node with
             | Some p => if is_element d p then [p] else []
             | None => []
             end
  | Adjacent => take 1 (earlier_elements node)
  | Sibling => earlier_elements node
  end.

(** [match_complex]; [ms] are the matchers of the compounds. *)
Fixpoint match_chain (ms : list (nat -> M bool)) (cs : list Combinator) (index node : nat) : M bool :=
  match ms !! index with
  | None => out_of_range
  | Some m =>
      r ← m node;
      if negb r then mret false
      else match index with
           | O => mret true
           | S index' =>
               match cs !! index' with
               | None => out_of_range
               | Some c => any_of (match_chain ms cs index') (candidates c node)
               end
           end
  end.

Fixpoint match_compound (k : Compound) (node : nat) : M bool :=
  _ ← step;
  if match_simple node k then all_of (fun p => match_pseudo p node) (pseudos k) else mret false
with match_pseudo (p : PseudoClass) (node : nat) : M bool :=
  match pseudo_kind p with
  | Not =>
      r ← any_of (fun s => match_chain (map match_compound (compounds s)) (combinators s)
                             (length (compounds s) - 1) node) (not_list p);
      mret (negb r)
  | _ => mret (match_position p node)
  end.

Definition match_complex (s : ComplexSelector) (node : nat) : M bool :=
  match_chain (map match_compound (compounds s)) (combinators s) (length (compounds s) - 1) node.

Definition matches (node : nat) (selectors : list ComplexSelector) : result bool :=
  '(b, _) ← any_of (fun s => match_complex s node) selectors max_steps; Ret b.

(** ** Queries *)

(** The loop of [collect]; the stack with its top first. *)
Fixpoint collect_loop (fuel : nat) (root : nat) (selectors : list ComplexSelector)
  (first_only include_root : bool) (found pending : list nat) : result (list nat) :=
  match pending, fuel with
  | [], _ => Ret found
  | _, O => Throw Internal
  | node :: pending', S fuel' =>
      hit ← (if include_root || negb (bool_decide (node = root)) then matches node selectors
             else Ret false);
      let found' := if hit : bool then found ++ [node] else found in
      if hit && first_only then Ret found'
      else collect_loop fuel' root selectors first_only include_root found'
             (children_of d node ++ pending')
  end.

Definition collect (root : nat) (selectors : list ComplexSelector) (first_only include_root : bool)
  : result (list nat) :=
  collect_loop (size (nodes d)) root selectors first_only include_root [] [root].

Definition query_selector_all (root : nat) (text : bytes) (include_root : bool) : result (list nat) :=
  selectors ← parse text; collect root selectors false include_root.

Definition query_selector (root : nat) (text : bytes) (include_root : bool) : result (option nat) :=
  selectors ← parse text;
  found ← collect root selectors true include_root;
  Ret (head found).

(** [Element::matches]. *)
Definition element_matches (node : nat) (text : bytes) : result bool :=
  selectors ← parse text; matches node selectors.

End Matcher.

(** ** What the selectors mean *)

Section Meaning.
Context (d : dom).

(** The siblings in front of a node and behind it. *)
Fixpoint split_at (node : nat) (l : list nat) : list nat * list nat :=
  match l with
  | [] => ([], [])
  | s :: l' => if decide (s = node) then ([], l')
               else let '(a, b) := split_at node l' in (s :: a, b)
  end.

Definition siblings (node : nat) : list nat * list nat :=
  match parent_of d node with
  | None => ([], [])
  | Some p => split_at node (children_of d p)
  end.

Definition peers_before (of_type : bool) (node : nat) : nat :=
  length (List.filter (peer d of_type node) (siblings node).1).
Definition peers_after (of_type : bool) (node : nat) : nat :=
  length (List.filter (peer d of_type node) (siblings node).2).

Definition formula (a b : Z) (position : nat) : Prop :=
  exists n, (0 <= n)%Z /\ Z.of_nat position = (a * n + b)%Z.

Definition holds_position (p : PseudoClass) (node : nat) : Prop :=
  let before := peers_before in
  let after := peers_after in
  match pseudo_kind p with
  | FirstChild => before false node = 0
  | LastChild => after false node = 0
  | OnlyChild => before false node = 0 /\ after false node = 0
  | FirstOfType => before true node = 0
  | LastOfType => after true node = 0
  | OnlyOfType => before true node = 0 /\ after true node = 0
  | NthChild => formula (nth_a p) (nth_b p) (S (before false node))
  | NthLastChild => formula (nth_a p) (nth_b p) (S (after false node))
  | NthOfType => formula (nth_a p) (nth_b p) (S (before true node))
  | NthLastOfType => formula (nth_a p) (nth_b p) (S (after true node))
  | Empty_ => forall c, c ∈ children_of d node -> counts_as_content d c = false
  | Root => exists p, parent_of d node = Some p /\ type_of d p = Some Document
  | Not => False
  end.

(** The relation a combinator stands for: [related c a node] when [a] is where the
    compound in front of the combinator has to hold. *)
Definition related (c : Combinator) (a node : nat) : Prop :=
  match c with
  | Descendant => tc (fun n p => parent_of d n = Some p) node a
  | Child => parent_of d node = Some a /\ is_element d a = true
  | Adjacent => last (List.filter (is_element d) (siblings node).1) = Some a
  | Sibling => a ∈ (siblings node).1 /\ is_element d a = true
  end.

Definition each {A} (P : A -> Prop) : list A -> Prop :=
  fix go l := match l with [] => True | x :: l' => P x /\ go l' end.
Definition some {A} (P : A -> Prop) : list A -> Prop :=
  fix go l := match l with [] => False | x :: l' => P x \/ go l' end.

Fixpoint holds_chain (hs : list (nat -> Prop)) (cs : list Combinator) (index node : nat) : Prop :=
  match hs !! index with
  | None => False
  | Some h =>
      h node /\
      match index with
      | O => True
      | S index' => exists c a, cs !! index' = Some c /\ related c a node /\
                                holds_chain hs cs index' a
      end
  end.

Fixpoint holds_compound (k : Compound) (node : nat) : Prop :=
  match_simple d node k = true /\ each (fun p => holds_pseudo p node) (pseudos k)
with holds_pseudo (p : PseudoClass) (node : nat) : Prop :=
  match pseudo_kind p with
  | Not => ~ some (fun s => holds_chain (map holds_compound (compounds s)) (combinators s)
                              (length (compounds s) - 1) node) (not_list p)
  | _ => holds_position p node
  end.

(** The rightmost compound holds at the node. *)
Definition holds_complex (s : ComplexSelector) (node : nat) : Prop :=
  holds_chain (map holds_compound (compounds s)) (combinators s) (length (compounds s) - 1) node.

End Meaning.

(** ** Induction over selectors *)

Section SelectorInd.
Context (P1 : PseudoClass -> Prop) (P2 : Compound -> Prop) (P3 : ComplexSelector -> Prop).
Hypothesis H1 : forall p, Forall P3 (not_list p) -> P1 p.
Hypothesis H2 : forall k, Forall P1 (pseudos k) -> P2 k.
Hypothesis H3 : forall s, Forall P2 (compounds s) -> P3 s.

Definition list_all {A} {P : A -> Prop} (f : forall x, P x) : forall l, Forall P l :=
  fix go l := match l with
              | [] => Forall_nil_2 P
              | x :: l' => Forall_cons_2 P x l' (f x) (go l')
              end.

Fixpoint pseudo_induct (p : PseudoClass) : P1 p :=
  H1 p (list_all complex_induct (not_list p))
with compound_induct (k : Compound) : P2 k :=
  H2 k (list_all pseudo_induct (pseudos k))
with complex_induct (s : ComplexSelector) : P3 s :=
  H3 s (list_all compound_induct (compounds s)).

End SelectorInd.

(** ** Positions *)

Lemma nth_matches_formula a b i : nth_matches a b (Z.of_nat i) = true <-> formula a b i.
Proof.
  unfold nth_matches, formula. destruct (Z.eqb_spec a 0) as [->|Ha].
  - rewrite Z.eqb_eq. split; [intros H; exists 0%Z; lia|intros (n & _ & H); lia].
  - rewrite andb_true_iff, Z.eqb_eq, Z.leb_le. split.
    + intros [H1 H2]. exists (Z.quot (Z.of_nat i - b) a). split; [done|].
      pose proof (Z.quot_rem (Z.of_nat i - b) a Ha). lia.
    + intros (n & Hn & ->). replace (a * n + b - b)%Z with (n * a)%Z by lia.
      rewrite Z.rem_mul, Z.quot_mul by done. done.
Qed.

Lemma split_at_spec node l1 l2 : node ∉ l1 -> split_at node (l1 ++ node :: l2) = (l1, l2).
Proof.
  induction l1 as [|s l1 IH]; intros Hn; simpl; [by rewrite decide_True|].
  rewrite decide_False by set_solver. rewrite IH by set_solver. done.
Qed.

Lemma position_in_spec node k l1 l2 :
  node ∉ l1 -> position_in node k (l1 ++ node :: l2) = k + length l1.
Proof.
  revert k. induction l1 as [|s l1 IH]; intros k Hn; simpl; [rewrite decide_True by done; lia|].
  rewrite decide_False by set_solver. rewrite IH by set_solver. lia.
Qed.

Section Position.
Context (d : dom).
Hypothesis Hwf : dom_wf d.

Lemma sibling_split node p :
  parent_of d node = Some p ->
  exists l1 l2, children_of d p = l1 ++ node :: l2 /\ node ∉ l1 /\ siblings d node = (l1, l2).
Proof.
  intros Hp. unfold siblings. rewrite Hp.
  assert (Hin : node ∈ children_of d p) by (by apply (fo_agree _ _ (wf_forest _ Hwf))).
  pose proof (fo_nodup _ _ (wf_forest _ Hwf) p) as Hnd.
  apply list_elem_of_split in Hin as (l1 & l2 & Hl). rewrite Hl in Hnd |- *.
  apply NoDup_app in Hnd as (_ & H & _).
  assert (node ∉ l1) by (intros H'; eapply H; [exact H'|constructor]).
  exists l1, l2. rewrite split_at_spec; done.
Qed.

Lemma index_in_spec of_type node k l1 l2 :
  is_element d node = true -> node ∉ l1 ->
  index_in d of_type node k (l1 ++ node :: l2) = S (k + length (List.filter (peer d of_type node) l1)).
Proof.
  intros He. revert k. induction l1 as [|s l1 IH]; intros k Hn; simpl.
  - unfold peer. rewrite He, eqb_bytes_refl, orb_true_r. simpl. rewrite decide_True by done. lia.
  - rewrite decide_False by set_solver. rewrite IH by set_solver.
    destruct (peer d of_type node s); simpl; lia.
Qed.

Lemma element_index_spec node of_type :
  is_element d node = true -> element_index d node of_type = S (peers_before d of_type node).
Proof.
  intros He. unfold element_index, peers_before. destruct (parent_of d node) as [p|] eqn:Hp.
  - destruct (sibling_split node p Hp) as (l1 & l2 & Hl & Hn & ->). rewrite Hl.
    by rewrite index_in_spec.
  - unfold siblings. by rewrite Hp.
Qed.

Lemma element_count_spec node of_type :
  is_element d node = true ->
  element_count d node of_type = S (peers_before d of_type node + peers_after d of_type node).
Proof.
  intros He. unfold element_count, peers_before, peers_after.
  destruct (parent_of d node) as [p|] eqn:Hp.
  - destruct (sibling_split node p Hp) as (l1 & l2 & Hl & Hn & ->). rewrite Hl.
    rewrite List.filter_app, length_app. simpl. unfold peer at 2. rewrite He, eqb_bytes_refl, orb_true_r.
    simpl. lia.
  - unfold siblings. by rewrite Hp.
Qed.

Lemma match_position_spec p node :
  is_element d node = true -> pseudo_kind p <> Not ->
  match_position d p node = true <-> holds_position d p node.
Proof.
  intros He Hk. unfold match_position, holds_position.
  rewrite !element_index_spec, !element_count_spec by done.
  replace (Z.of_nat (S (peers_before d false node + peers_after d false node)) -
           Z.of_nat (S (peers_before d false node)) + 1)%Z
    with (Z.of_nat (S (peers_after d false node))) by lia.
  replace (Z.of_nat (S (peers_before d true node + peers_after d true node)) -
           Z.of_nat (S (peers_before d true node)) + 1)%Z
    with (Z.of_nat (S (peers_after d true node))) by lia.
  destruct (pseudo_kind p); rewrite ?Nat.eqb_eq, ?nth_matches_formula; try done; try lia.
  - rewrite forallb_forall. split; intros H c Hc.
    + apply negb_true_iff, H. by apply list_elem_of_In.
    + apply negb_true_iff, H. by apply list_elem_of_In.
  - unfold is_root. split.
    + destruct (parent_of d node) as [q|]; [|done]. intros H%bool_decide_eq_true. eauto.
    + intros (q & -> & Hq). by apply bool_decide_eq_true.
Qed.

End Position.

(** ** Combinators *)

Section Candidates.
Context (d : dom).
Hypothesis Hwf : dom_wf d.

Lemma ancestors_spec node a :
  is_Some (nodes d !! node) -> a ∈ ancestors d node <-> related d Descendant a node.
Proof.
  intros Hn. unfold ancestors. simpl. pose proof (self_and_ancestors_spec d Hwf node a Hn) as H.
  pose proof (chain_nodup d Hwf (size (nodes d)) node) as Hnd. fold (self_and_ancestors d node) in Hnd.
  assert (Hh : exists l, self_and_ancestors d node = node :: l).
  { unfold self_and_ancestors. destruct (size (nodes d)) as [|m] eqn:E; [|simpl; eauto].
    apply map_size_empty_inv in E. destruct Hn as [n Hn]. by rewrite E in Hn. }
  destruct Hh as [l Hl]. rewrite Hl in *. simpl. apply NoDup_cons in Hnd as [Hnd _]. split.
  - intros Ha. assert (Hr : rtc (edge d) node a) by (apply H; by constructor).
    apply rtc_tc in Hr as [->|Hr]; [done|]. exact Hr.
  - intros Ha. assert (Hr : a ∈ node :: l) by (by apply H, tc_rtc).
    apply elem_of_cons in Hr as [->|Hr]; [|done]. by destruct (fo_acyclic _ _ (wf_forest _ Hwf) node).
Qed.

Lemma filter_reverse {A} (p : A -> bool) l : List.filter p (reverse l) = reverse (List.filter p l).
Proof.
  induction l as [|x l IH]; [done|]. rewrite reverse_cons, List.filter_app, IH. simpl.
  destruct (p x); [by rewrite reverse_cons|by rewrite app_nil_r].
Qed.

Lemma take_1_reverse {A} (l : list A) a : a ∈ take 1 (reverse l) <-> last l = Some a.
Proof.
  rewrite <- head_reverse. destruct (reverse l) as [|x r]; simpl; [set_solver|].
  rewrite take_0, list_elem_of_singleton. naive_solver.
Qed.

Lemma earlier_elements_spec node :
  earlier_elements d node = reverse (List.filter (is_element d) (siblings d node).1).
Proof.
  unfold earlier_elements. destruct (parent_of d node) as [p|] eqn:Hp.
  - destruct (sibling_split d Hwf node p Hp) as (l1 & l2 & Hl & Hn & ->). rewrite Hl.
    rewrite position_in_spec by done. simpl. by rewrite take_app_length, filter_reverse.
  - unfold siblings. by rewrite Hp.
Qed.

Lemma candidates_spec c node a :
  is_Some (nodes d !! node) -> a ∈ candidates d c node <-> related d c a node.
Proof.
  intros Hn. destruct c; cbn [candidates].
  - by apply ancestors_spec.
  - simpl. destruct (parent_of d node) as [p|]; [|set_solver].
    destruct (is_element d p) eqn:E; [rewrite list_elem_of_singleton|]; [naive_solver|].
    split; [set_solver|]. intros [[= ->] ?]. congruence.
  - rewrite earlier_elements_spec. apply take_1_reverse.
  - rewrite earlier_elements_spec. simpl. rewrite elem_of_reverse, list_elem_of_In, filter_In.
    by rewrite list_elem_of_In.
Qed.

Lemma candidates_length c node :
  is_Some (nodes d !! node) -> length (candidates d c node) <= size (nodes d).
Proof.
  intros Hn. assert (Hs : length (earlier_elements d node) <= size (nodes d)).
  { rewrite earlier_elements_spec, length_reverse.
    destruct (parent_of d node) as [p|] eqn:Hp; [|unfold siblings; rewrite Hp; simpl; lia].
    destruct (sibling_split d Hwf node p Hp) as (l1 & l2 & Hl & _ & ->). simpl.
    etransitivity; [apply List.filter_length_le|].
    pose proof (fo_nodup _ _ (wf_forest _ Hwf) p) as Hnd. rewrite Hl in Hnd.
    apply NoDup_app in Hnd as (Hnd & _ & _). apply stored_length; [done|].
    intros j Hj. apply (parent_in_store d Hwf j p), (fo_agree _ _ (wf_forest _ Hwf)).
    rewrite Hl. set_solver. }
  destruct c; cbn [candidates].
  - unfold ancestors. pose proof (chain_length d Hwf (size (nodes d)) node Hn) as H.
    fold (self_and_ancestors d node) in H. destruct (self_and_ancestors d node); simpl in *; lia.
  - destruct (parent_of d node) as [p|] eqn:Hp; [|simpl; lia].
    pose proof (stored_length d [p] ltac:(apply NoDup_singleton)) as H.
    case_match; [|simpl; lia]. apply H. intros j ->%list_elem_of_singleton.
    by apply (parent_in_store d Hwf node p).
  - rewrite length_take. lia.
  - done.
Qed.

Lemma related_stored c a node : related d c a node -> is_Some (nodes d !! a).
Proof.
  destruct c; simpl.
  - induction 1 as [x y H|]; [|done]. by apply (parent_in_store d Hwf x y).
  - intros [H _]. by apply (parent_in_store d Hwf node a).
  - intros (l & H)%last_Some.
    assert (Ha : a ∈ List.filter (is_element d) (siblings d node).1) by (rewrite H; set_solver).
    apply list_elem_of_In, filter_In in Ha as [_ Ha]. unfold is_element in Ha.
    by destruct (nodes d !! a).
  - intros [_ H]. unfold is_element in H. by destruct (nodes d !! a).
Qed.

End Candidates.

(** ** Computations that decide a proposition within a number of steps *)

Definition decides (P : Prop) (cost : N) (m : M bool) : Prop := forall budget,
  match m budget with
  | Ret (b, budget') => (b = true <-> P) /\ (budget' <= budget <= budget' + cost)%N
  | Throw e => e = ResourceLimit /\ (budget < cost)%N
  end.

Lemma decides_ret P b : (b = true <-> P) -> decides P 0 (mret b).
Proof. intros H budget. simpl. split; [done|lia]. Qed.

Lemma decides_weaken P Q c c' m : decides P c m -> (P <-> Q) -> (c <= c')%N -> decides Q c' m.
Proof.
  intros H HPQ Hc budget. specialize (H budget). destruct (m budget) as [[b b']|].
  - rewrite <- HPQ. split; [apply H|lia].
  - split; [apply H|lia].
Qed.

Lemma decides_bind P Q c1 c2 m k :
  decides P c1 m -> (forall b : bool, (b = true <-> P) -> decides Q c2 (k b)) ->
  decides Q (c1 + c2) (b ← m; k b).
Proof.
  intros Hm Hk budget. unfold mbind, M_bind. specialize (Hm budget).
  destruct (m budget) as [[b b']|]; [|split; [apply Hm|lia]].
  destruct Hm as [Hb Hm]. specialize (Hk b Hb b'). destruct (k b b') as [[r b'']|].
  - split; [apply Hk|lia].
  - split; [apply Hk|lia].
Qed.

Lemma decides_step P c m : decides P c m -> decides P (1 + c) (_ ← step; m).
Proof.
  intros Hm budget. unfold mbind, M_bind, step. destruct (N.eqb_spec budget 0) as [->|Hb].
  - split; [done|lia].
  - specialize (Hm (budget - 1)%N). destruct (m (budget - 1)%N) as [[b b']|].
    + split; [apply Hm|lia].
    + split; [apply Hm|lia].
Qed.

Lemma decides_any_of {A} (P : A -> Prop) (cost : A -> N) (f : A -> M bool) l :
  (forall x, x ∈ l -> decides (P x) (cost x) (f x)) ->
  decides (exists x, x ∈ l /\ P x) (sumN cost l) (any_of f l).
Proof.
  induction l as [|x l IH]; intros H.
  - apply decides_ret. split; [done|]. intros (? & ? & _). set_solver.
  - cbn [any_of]. fold (any_of f). change (sumN cost (x :: l)) with (cost x + sumN cost l)%N.
    eapply decides_bind; [apply H; by constructor|]. intros [] Hb.
    + eapply (decides_weaken True); [by apply decides_ret| |lia]. split; [|done].
      intros _. exists x. split; [by constructor|by apply Hb].
    + eapply decides_weaken; [apply IH; intros; apply H; by constructor| |lia].
      split; [intros (y & ? & ?); exists y; split; [by constructor|done]|].
      intros (y & [->|Hy]%elem_of_cons & HP); [|eauto]. by apply Hb in HP.
Qed.

Lemma decides_all_of {A} (P : A -> Prop) (cost : A -> N) (f : A -> M bool) l :
  (forall x, x ∈ l -> decides (P x) (cost x) (f x)) ->
  decides (forall x, x ∈ l -> P x) (sumN cost l) (all_of f l).
Proof.
  induction l as [|x l IH]; intros H.
  - apply decides_ret. split; [|done]. intros _ y Hy. set_solver.
  - cbn [all_of]. fold (all_of f). change (sumN cost (x :: l)) with (cost x + sumN cost l)%N.
    eapply decides_bind; [apply H; by constructor|]. intros [] Hb.
    + eapply decides_weaken; [apply IH; intros; apply H; by constructor| |lia].
      split; [|intros; apply H0; by constructor].
      intros Hl y [->|Hy]%elem_of_cons; [by apply Hb|by apply Hl].
    + eapply decides_weaken; [apply (decides_ret False); by split| |lia].
      split; [done|]. intros Hx. enough (false = true) by done. apply Hb, Hx. by constructor.
Qed.

(** ** The work a selector may need

    [n] is the number of nodes: every combinator tries at most that many of them. *)

Fixpoint chain_work (n : N) (ws : list N) (index : nat) : N :=
  match ws !! index with
  | None => 0
  | Some w => w + match index with O => 0 | S index' => n * chain_work n ws index' end
  end.

Fixpoint pseudo_work (n : N) (p : PseudoClass) : N := sumN (complex_work n) (not_list p)
with compound_work (n : N) (k : Compound) : N := 1 + sumN (pseudo_work n) (pseudos k)
with complex_work (n : N) (s : ComplexSelector) : N :=
  chain_work n (map (compound_work n) (compounds s)) (length (compounds s) - 1).

Lemma sumN_bound {A} (f : A -> N) l b :
  (forall x, x ∈ l -> f x <= b)%N -> (sumN f l <= N.of_nat (length l) * b)%N.
Proof.
  unfold sumN. induction l as [|x l IH]; intros H; cbn [foldr length]; [lia|].
  specialize (IH ltac:(intros; apply H; by constructor)). specialize (H x ltac:(by constructor)). lia.
Qed.

Lemma each_elem {A} (P : A -> Prop) l : each P l <-> forall x, x ∈ l -> P x.
Proof.
  induction l as [|x l IH]; [set_solver|]. cbn [each]. fold (each P l). rewrite IH. set_solver.
Qed.

Lemma some_elem {A} (P : A -> Prop) l : some P l <-> exists x, x ∈ l /\ P x.
Proof.
  induction l as [|x l IH]; [set_solver|]. cbn [some]. fold (some P l). rewrite IH. set_solver.
Qed.

Section Correct.
Context (d : dom).
Hypothesis Hwf : dom_wf d.

Abbreviation size_N := (N.of_nat (size (nodes d))).

Definition decided_compound (k : Compound) : Prop := compound_ok k = true -> forall node,
  is_Some (nodes d !! node) ->
  decides (holds_compound d k node) (compound_work size_N k) (match_compound d k node).
Definition decided_pseudo (p : PseudoClass) : Prop := pseudo_ok p = true -> forall node,
  is_Some (nodes d !! node) -> is_element d node = true ->
  decides (holds_pseudo d p node) (pseudo_work size_N p) (match_pseudo d p node).
Definition decided_complex (s : ComplexSelector) : Prop := complex_ok s = true -> forall node,
  is_Some (nodes d !! node) ->
  decides (holds_complex d s node) (complex_work size_N s) (match_complex d s node).

Lemma decides_chain ks cs index node :
  Forall decided_compound ks -> forallb compound_ok ks = true ->
  index < length ks -> length ks = S (length cs) -> is_Some (nodes d !! node) ->
  decides (holds_chain d (map (holds_compound d) ks) cs index node)
    (chain_work size_N (map (compound_work size_N) ks) index)
    (match_chain d (map (match_compound d) ks) cs index node).
Proof using Hwf.
  intros Hall Hok. revert node. induction index as [|index IH]; intros node Hi Hl Hn.
  - destruct ks as [|k ks]; [done|]. inversion_clear Hall as [|? ? Hk _].
    simpl in Hok. apply andb_prop in Hok as [Hok _]. cbn [map match_chain holds_chain chain_work lookup list_lookup].
    eapply decides_bind; [by apply Hk|]. intros [] Hb; apply decides_ret; naive_solver.
  - assert (exists k, ks !! S index = Some k) as [k Hk] by (apply lookup_lt_is_Some; lia).
    assert (exists c, cs !! index = Some c) as [c Hc] by (apply lookup_lt_is_Some; lia).
    cbn [match_chain holds_chain chain_work].
    change map with (@fmap list list_fmap). rewrite !list_lookup_fmap, Hk, Hc. cbn [fmap option_fmap option_map].
    assert (Hin : k ∈ ks) by (by eapply list_elem_of_lookup_2).
    rewrite Forall_forall in Hall. rewrite forallb_forall in Hok.
    eapply decides_bind; [by apply Hall, Hn; [|apply Hok, list_elem_of_In]|]. intros [] Hb; cbn [negb].
    + eapply decides_weaken.
      * apply (decides_any_of (holds_chain d (map (holds_compound d) ks) cs index)
                 (fun _ => chain_work size_N (map (compound_work size_N) ks) index)).
        intros a Ha. apply IH; [lia|done|]. apply candidates_spec in Ha; [|done..].
        by eapply related_stored.
      * split.
        -- intros (a & Ha & Hh). split; [by apply Hb|]. exists c, a. split; [done|].
           apply candidates_spec in Ha; done.
        -- intros (_ & c' & a & [= <-] & Ha & Hh). exists a. split; [|done]. by apply candidates_spec.
      * etransitivity; [by apply sumN_bound|]. apply N.mul_le_mono_r.
        pose proof (candidates_length d Hwf c node Hn). lia.
    + eapply (decides_weaken False); [by apply decides_ret| |lia]. split; [done|].
      intros [H _]. apply Hb in H. done.
Qed.

Lemma match_simple_element k node : match_simple d node k = true -> is_element d node = true.
Proof. unfold match_simple. intros H. by split_andb. Qed.

Lemma decided_complex_of s : Forall decided_compound (compounds s) -> decided_complex s.
Proof using Hwf.
  intros H Hok node Hn. destruct s as [ks cs]. simpl in *.
  apply andb_prop in Hok as [Hl%Nat.eqb_eq Hok]. apply decides_chain; [done..| |done|done]. lia.
Qed.

Lemma decided_pseudo_of p : Forall decided_complex (not_list p) -> decided_pseudo p.
Proof using Hwf.
  intros H Hok node Hn He. destruct p as [k a b l]. cbn [not_list] in H.
  destruct (decide (k = Not)) as [->|Hk].
  - cbn [match_pseudo holds_pseudo pseudo_work pseudo_kind not_list].
    rewrite <- (N.add_0_r (sumN _ _)). eapply decides_bind.
    + apply (decides_any_of (fun s => holds_complex d s node) (complex_work size_N)).
      intros s Hs. rewrite Forall_forall in H. apply (H s Hs); [|done].
      simpl in Hok. apply andb_prop in Hok as [_ Hok]. rewrite forallb_forall in Hok.
      by apply Hok, list_elem_of_In.
    + intros c Hc. apply decides_ret. rewrite some_elem, negb_true_iff, <- not_true_iff_false.
      by rewrite Hc.
  - assert (l = []) as ->.
    { simpl in Hok. rewrite bool_decide_eq_false_2 in Hok by done. destruct l; [done|].
      simpl in Hok. by rewrite andb_false_r in Hok. }
    pose proof (match_position_spec d Hwf (mkPseudo k a b []) node He Hk) as Hp.
    destruct k; try done; by apply decides_ret.
Qed.

Lemma decided_compound_of k : Forall decided_pseudo (pseudos k) -> decided_compound k.
Proof using Hwf.
  intros H Hok node Hn. destruct k as [u t is_ cl at_ ps].
  cbn [match_compound holds_compound compound_work pseudos] in *. apply decides_step.
  destruct (match_simple d node _) eqn:Es.
  - eapply decides_weaken.
    + apply (decides_all_of (fun p => holds_pseudo d p node) (pseudo_work size_N)).
      intros p Hp. rewrite Forall_forall in H. apply (H p Hp); [|done|by eapply match_simple_element].
      simpl in Hok. apply andb_prop in Hok as [_ Hok]. rewrite forallb_forall in Hok.
      by apply Hok, list_elem_of_In.
    + rewrite each_elem. naive_solver.
    + done.
  - eapply (decides_weaken False); [by apply decides_ret| |lia]. naive_solver.
Qed.

Lemma all_decided s : decided_complex s.
Proof using Hwf.
  apply (complex_induct decided_pseudo decided_compound decided_complex);
    auto using decided_pseudo_of, decided_compound_of, decided_complex_of.
Qed.

Lemma decides_selectors node sels :
  is_Some (nodes d !! node) -> forallb complex_ok sels = true ->
  decides (exists s, s ∈ sels /\ holds_complex d s node) (sumN (complex_work size_N) sels)
    (any_of (fun s => match_complex d s node) sels).
Proof using Hwf.
  intros Hn Hok. apply (decides_any_of (fun s => holds_complex d s node)). intros s Hs.
  apply all_decided; [|done]. rewrite forallb_forall in Hok. by apply Hok, list_elem_of_In.
Qed.

Lemma matches_spec node sels :
  is_Some (nodes d !! node) -> forallb complex_ok sels = true ->
  match matches d node sels with
  | Ret b => b = true <-> exists s, s ∈ sels /\ holds_complex d s node
  | Throw e => e = ResourceLimit /\ (max_steps < sumN (complex_work size_N) sels)%N
  end.
Proof using Hwf.
  intros Hn Hok. pose proof (decides_selectors node sels Hn Hok max_steps) as H.
  unfold matches. destruct (any_of _ sels max_steps) as [[b b']|]; simpl; [apply H|exact H].
Qed.

End Correct.

(** ** Queries *)

(** [select f l keep]: the elements of [l] that [f] accepts; [first_only] stops at the first. *)
Fixpoint select (f : nat -> result bool) (first_only : bool) (l : list nat) : result (list nat) :=
  match l with
  | [] => Ret []
  | x :: l' =>
      hit ← f x;
      if hit : bool then (if first_only then Ret [x] else r ← select f first_only l'; Ret (x :: r))
      else select f first_only l'
  end.

Lemma select_all_spec f l r :
  select f false l = Ret r ->
  sublist r l /\ (forall x, x ∈ r <-> x ∈ l /\ f x = Ret true) /\
  (forall x, x ∈ l -> exists b, f x = Ret b) /\ select f true l = Ret (take 1 r).
Proof.
  revert r. induction l as [|x l IH]; intros r; cbn [select].
  - intros [= <-]. split_and!; [constructor|set_solver|set_solver|done].
  - destruct (f x) as [[]|] eqn:Ef; cbn; [| |done].
    + destruct (select f false l) as [r'|] eqn:Es; [|done]. intros [= <-].
      destruct (IH r' eq_refl) as (H1 & H2 & H3 & _). split_and!; [by constructor| | |done].
      * intros y. rewrite !elem_of_cons, H2. split; [intros [->|[? ?]]|intros [[->|?] ?]]; auto.
      * intros y [->|Hy]%elem_of_cons; eauto.
    + intros Hr. destruct (IH r Hr) as (H1 & H2 & H3 & H4). split_and!; [by constructor| | |done].
      * intros y. rewrite elem_of_cons, H2. split; [intros [? ?]; auto|].
        intros [[->|?] ?]; [congruence|done].
      * intros y [->|Hy]%elem_of_cons; eauto.
Qed.

Lemma select_error f first l e : select f first l = Throw e -> exists x, x ∈ l /\ f x = Throw e.
Proof.
  induction l as [|x l IH]; cbn [select]; [done|].
  destruct (f x) as [[]|e'] eqn:Ef; cbn.
  - destruct first; [done|]. destruct (select f false l); [done|]. intros [= ->].
    destruct (IH eq_refl) as (y & ? & ?). exists y. split; [by constructor|done].
  - intros (y & ? & ?)%IH. exists y. split; [by constructor|done].
  - intros [= ->]. exists x. split; [by constructor|done].
Qed.

Section Query.
Context (d : dom).
Hypothesis Hwf : dom_wf d.

Definition hits (root : nat) (sels : list ComplexSelector) (include_root : bool) (node : nat)
  : result bool :=
  if include_root || negb (bool_decide (node = root)) then matches d node sels else Ret false.

(** The explicit stack visits the nodes in document order. *)
Lemma collect_loop_select fuel root sels first_only include_root found pending :
  (forall i, i ∈ pending -> is_Some (nodes d !! i)) ->
  length (mjoin (map (doc_order d) pending)) <= fuel ->
  collect_loop d fuel root sels first_only include_root found pending =
  r ← select (hits root sels include_root) first_only (mjoin (map (doc_order d) pending));
  Ret (found ++ r).
Proof using Hwf.
  revert found pending. induction fuel as [|fuel IH]; intros found pending Hs Hl.
  - destruct pending as [|i p]; [cbn; by rewrite app_nil_r|].
    cbn [map] in Hl. change (mjoin (?x :: ?y)) with (x ++ mjoin y) in Hl.
    rewrite doc_order_eq in Hl by (done || apply Hs; by constructor). simpl in Hl. lia.
  - destruct pending as [|i p]; [cbn; by rewrite app_nil_r|].
    assert (Hi : is_Some (nodes d !! i)) by (apply Hs; by constructor).
    assert (E : mjoin (map (doc_order d) (i :: p)) =
                i :: mjoin (map (doc_order d) (children_of d i ++ p))).
    { cbn [map]. change (mjoin (?x :: ?y)) with (x ++ mjoin y). rewrite doc_order_eq by done.
      rewrite map_app. simpl. f_equal. symmetry. apply join_app. }
    rewrite E in Hl |- *. cbn [collect_loop select length] in *. fold (hits root sels include_root i).
    destruct (hits root sels include_root i) as [hit|]; [|done]. cbn [mbind result_bind].
    assert (Hc : forall j, j ∈ children_of d i ++ p -> is_Some (nodes d !! j)).
    { intros j [Hj|Hj]%elem_of_app; [|apply Hs; by constructor].
      by apply (children_depth d Hwf i j). }
    destruct hit; cbn [andb].
    + destruct first_only; [done|]. rewrite IH by (done || lia).
      destruct (select _ _ _) as [r|]; [|done]. cbn. by rewrite <- app_assoc.
    + rewrite IH by (done || lia). done.
Qed.

Lemma collect_select root sels first_only include_root :
  is_Some (nodes d !! root) ->
  collect d root sels first_only include_root =
  select (hits root sels include_root) first_only (doc_order d root).
Proof using Hwf.
  intros Hr. unfold collect. rewrite collect_loop_select.
  - change (map (doc_order d) [root]) with [doc_order d root].
    change (mjoin [doc_order d root]) with (doc_order d root ++ []). rewrite app_nil_r.
    by destruct (select _ _ _).
  - intros i ->%list_elem_of_singleton. done.
  - change (map (doc_order d) [root]) with [doc_order d root].
    change (mjoin [doc_order d root]) with (doc_order d root ++ []). rewrite app_nil_r.
    by apply doc_order_length.
Qed.

Lemma hits_spec root sels include_root node b :
  is_Some (nodes d !! node) -> forallb complex_ok sels = true ->
  hits root sels include_root node = Ret b ->
  b = true <-> (include_root = true \/ node <> root) /\
               exists s, s ∈ sels /\ holds_complex d s node.
Proof using Hwf.
  intros Hn Hok. unfold hits. pose proof (matches_spec d Hwf node sels Hn Hok) as H.
  destruct (include_root || _) eqn:E.
  - intros Hm. rewrite Hm in H. rewrite H.
    assert (include_root = true \/ node <> root); [|tauto].
    apply orb_prop in E as [E|E]; [by left|right].
    by apply negb_true_iff, bool_decide_eq_false in E.
  - intros [= <-]. apply orb_false_elim in E as [-> E].
    apply negb_false_iff, bool_decide_eq_true in E. split; [done|]. by intros [[|] _].
Qed.

End Query.

Lemma query_all_spec d root text include_root :
  dom_wf d -> is_Some (nodes d !! root) ->
  match query_selector_all d root text include_root with
  | Ret found => exists sels, parse text = Ret sels /\ sublist found (doc_order d root) /\
      NoDup found /\
      (forall node, node ∈ found <->
         rtc (edge d) node root /\ (include_root = true \/ node <> root) /\
         exists s, s ∈ sels /\ holds_complex d s node) /\
      query_selector d root text include_root = Ret (head found)
  | Throw e => parse text = Throw e \/ e = ResourceLimit
  end.
Proof.
  intros Hwf Hr. unfold query_selector_all, query_selector.
  pose proof (parse_total text) as Hok. destruct (parse text) as [sels|e]; [|by left].
  destruct Hok as [[_ Hok]%andb_prop _]. cbn [mbind result_bind]. rewrite !collect_select by done.
  destruct (select _ false _) as [found|e] eqn:Es.
  - destruct (select_all_spec _ _ _ Es) as (H1 & H2 & H3 & H4). exists sels. rewrite H4.
    assert (Hn : NoDup (doc_order d root)) by (by apply preorder_nodup).
    split_and!; [done|done|by eapply sublist_NoDup| |by destruct found].
    intros node. rewrite H2, <- doc_order_spec by done. split.
    + intros [Hin Hh]. split; [done|].
      by apply (hits_spec d Hwf root sels include_root node true (doc_order_stored d Hwf root node Hr Hin) Hok Hh).
    + intros [Hin Hm]. split; [done|]. destruct (H3 node Hin) as [b Hb]. rewrite Hb. f_equal.
      by apply (hits_spec d Hwf root sels include_root node b (doc_order_stored d Hwf root node Hr Hin) Hok Hb).
  - right. apply select_error in Es as (x & Hx & Hh). unfold hits in Hh.
    destruct (include_root || _); [|done].
    pose proof (matches_spec d Hwf x sels (doc_order_stored d Hwf root x Hr Hx) Hok) as H.
    rewrite Hh in H. apply H.
Qed.

(** ** Selectors without combinators and pseudo-classes *)

Definition single (k : Compound) : ComplexSelector := mkComplex [k] [].

Lemma match_complex_single d k node b :
  pseudos k = [] -> (0 < b)%N ->
  match_complex d (single k) node b = Ret (match_simple d node k, (b - 1)%N).
Proof.
  intros Hk Hb. destruct k as [u t is_ cl at_ ps]. simpl in Hk. subst ps.
  unfold match_complex, single. cbn [compounds combinators length map Nat.sub match_chain lookup list_lookup].
  unfold mbind, M_bind. cbn [match_compound]. unfold step, mbind, M_bind.
  destruct (N.eqb_spec b 0) as [->|_]; [lia|]. cbn [pseudos all_of].
  by destruct (match_simple d node _).
Qed.

Lemma matches_single d node ks :
  Forall (fun k => pseudos k = []) ks -> (N.of_nat (length ks) <= max_steps)%N ->
  matches d node (map single ks) = Ret (existsb (match_simple d node) ks).
Proof.
  intros Hk Hl. unfold matches.
  assert (H : forall b, (N.of_nat (length ks) <= b)%N -> exists b',
            any_of (fun s => match_complex d s node) (map single ks) b =
            Ret (existsb (match_simple d node) ks, b')).
  { clear Hl. induction Hk as [|k ks Hk Hks IH]; intros b Hb; [by exists b|].
    cbn [map any_of]. fold (any_of (fun s => match_complex d s node)). unfold mbind, M_bind.
    cbn [length] in Hb. rewrite match_complex_single by (done || lia). cbn [existsb].
    destruct (match_simple d node k); [by eexists|]. apply IH. lia. }
  destruct (H max_steps Hl) as [b' ->]. done.
Qed.

Lemma select_total f g l :
  (forall x, f x = Ret (g x)) ->
  select f false l = Ret (List.filter g l) /\ select f true l = Ret (take 1 (List.filter g l)).
Proof.
  intros H. induction l as [|x l [IH1 IH2]]; [done|]. cbn [select List.filter]. rewrite H.
  destruct (g x); cbn; [by rewrite IH1|done].
Qed.

(** The answer of such a query, which never fails. *)
Lemma query_simple d root text ks :
  dom_wf d -> is_Some (nodes d !! root) -> parse text = Ret (map single ks) ->
  Forall (fun k => pseudos k = []) ks -> (N.of_nat (length ks) <= max_steps)%N ->
  let found := List.filter (fun n => existsb (match_simple d n) ks) (doc_order d root) in
  query_selector_all d root text true = Ret found /\ query_selector d root text true = Ret (head found).
Proof.
  intros Hwf Hr Hp Hk Hl found. unfold query_selector_all, query_selector. rewrite Hp.
  cbn [mbind result_bind]. rewrite !collect_select by done.
  destruct (select_total (hits d root (map single ks) true)
              (fun n => existsb (match_simple d n) ks) (doc_order d root)) as [-> ->].
  - intros x. unfold hits. cbn [orb]. by apply matches_single.
  - fold found. by destruct found.
Qed.

(** ** Properties *)

(** C7: matching decides the meaning of the selectors, stated with the parent and sibling
    relations instead of loops over indices: on every well-formed document and all
    selectors the parser returns, [matches] answers true exactly when one of the complex
    selectors holds at the node; the only failure is the exhausted budget, and it never
    happens when the work of the selectors on a document of that size fits the budget. *)
Theorem matches_correct d node text sels :
  dom_wf d -> is_Some (nodes d !! node) -> parse text = Ret sels ->
  match matches d node sels with
  | Ret b => b = true <-> exists s, s ∈ sels /\ holds_complex d s node
  | Throw e => e = ResourceLimit /\
               (100000 < sumN (complex_work (N.of_nat (size (nodes d)))) sels)%N
  end.
Proof.
  intros Hwf Hn Hp. apply matches_spec; [done..|].
  pose proof (parse_total text) as H. rewrite Hp in H. destruct H as [H _].
  apply andb_prop in H as [_ H]. exact H.
Qed.

(** [query_selector_all] returns, in document order and without repetition, exactly
    the nodes of the subtree (the root itself only when asked) at which one of the parsed
    selectors holds, and [query_selector] the first of them; it fails only when the text
    is no selector or when the budget is exhausted. *)
Theorem query_selector_all_spec d root text include_root :
  dom_wf d -> is_Some (nodes d !! root) ->
  match query_selector_all d root text include_root with
  | Ret found => exists sels, parse text = Ret sels /\ sublist found (doc_order d root) /\
      NoDup found /\
      (forall node, node ∈ found <->
         rtc (edge d) node root /\ (include_root = true \/ node <> root) /\
         exists s, s ∈ sels /\ holds_complex d s node) /\
      query_selector d root text include_root = Ret (head found)
  | Throw e => parse text = Throw e \/ e = ResourceLimit
  end.
Proof. apply query_all_spec. Qed.

(** ** Witnesses *)

Lemma matches_correct_witness :
  dom_wf sample /\ parse (lit "div > p#x") = Ret [mkComplex
     [mkCompound false (lit "div") [] [] [] []; mkCompound false (lit "p") [lit "x"] [] [] []] [Child]] /\
  match matches sample 3 [mkComplex
     [mkCompound false (lit "div") [] [] [] []; mkCompound false (lit "p") [lit "x"] [] [] []] [Child]] with
  | Ret b => b = true <-> exists s, s ∈ [mkComplex
     [mkCompound false (lit "div") [] [] [] []; mkCompound false (lit "p") [lit "x"] [] [] []] [Child]]
        /\ holds_complex sample s 3
  | Throw e => e = ResourceLimit /\ (100000 < sumN (complex_work (N.of_nat (size (nodes sample)))) [mkComplex
     [mkCompound false (lit "div") [] [] [] []; mkCompound false (lit "p") [lit "x"] [] [] []] [Child]])%N
  end.
Proof.
  split_and!; [exact sample_wf|reflexivity|].
  apply (matches_correct sample 3 (lit "div > p#x")); [exact sample_wf|by vm_compute; eauto|reflexivity].
Defined.

Lemma query_selector_all_spec_witness :
  query_selector_all sample 0 (lit "p, b") true = Ret [3; 4] /\
  exists sels, parse (lit "p, b") = Ret sels /\ forall node, node ∈ [3; 4] <->
     rtc (edge sample) node 0 /\ (true = true \/ node <> 0) /\
     exists s, s ∈ sels /\ holds_complex sample s node.
Proof.
  split; [vm_compute; reflexivity|].
  pose proof (query_selector_all_spec sample 0 (lit "p, b") true sample_wf
                ltac:(vm_compute; eauto)) as H.
  replace (query_selector_all sample 0 (lit "p, b") true) with (@Ret (list nat) [3; 4]) in H
    by (vm_compute; reflexivity).
  destruct H as (sels & Hp & _ & _ & H & _). exists sels. split; [exact Hp|exact H].
Defined.
