(* ===== verification/Document.v ===== *)
(** * Documents and form controls: the queries of [src/flatworm/dom.cpp]

    A [Document] is a node store with its root, URL and base URL.  The functions of this
    file read the store; those that evaluate selectors can throw what the selectors
    throw. *)
From S2P Require Import Prelude Url Html HtmlTree Dom Selector SelectorMatch.

(** ** Interactability: [node_interactable] *)

(** The loop of [declaration_hides], from [pos]. *)
Fixpoint declaration_loop (fuel : nat) (folded property value : bytes) (pos : nat) : bool :=
  match fuel with
  | O => false
  | S fuel' =>
      match find_sub property (drop pos folded) with
      | None => false
      | Some k =>
          let at_ := pos + k in
          let boundary :=
            match at_ with
            | O => true
            | S before => match folded !! before with
                          | Some c => (c =c ";") || (c =c " ") || (code c =? 9)%N
                          | None => false
                          end
            end in
          if negb boundary then declaration_loop fuel' folded property value (at_ + 1)
          else
            let blank c := (c =c " ") || (code c =? 9)%N in
            let hides :=
              match skip blank (drop (at_ + length property) folded) with
              | c :: r => (c =c ":") && starts_with value r
              | [] => false
              end in
            if hides then true
            else declaration_loop fuel' folded property value (at_ + length property)
      end
  end.

Definition declaration_hides (folded property value : bytes) : bool :=
  declaration_loop (S (length folded)) folded property value 0.

Definition style_hides (style : bytes) : bool :=
  let folded := to_lower style in
  declaration_hides folded (lit "display") (lit "none") ||
  declaration_hides folded (lit "visibility") (lit "hidden").

Definition has_attribute (d : dom) (i : nat) (name : bytes) : bool :=
  match attribute d i name with Some _ => true | None => false end.

(** What the loop checks at one element. *)
Definition blocks (d : dom) (i : nat) : bool :=
  has_attribute d i (lit "hidden") || has_attribute d i (lit "disabled") ||
  match attribute d i (lit "aria-disabled") with Some v => v =s lit "true" | None => false end ||
  match attribute d i (lit "style") with Some v => style_hides v | None => false end.

Fixpoint interactable_loop (d : dom) (l : list nat) : bool :=
  match l with
  | [] => true
  | i :: l' => if is_element d i then (if blocks d i then false else interactable_loop d l') else true
  end.

Definition node_interactable (d : dom) (i : nat) : bool :=
  interactable_loop d (self_and_ancestors d i).

(** [Element::click] and [Element::type] without a session. *)
Definition click (d : dom) (i : nat) : bool := if negb (node_interactable d i) then false else false.

(** ** [Element] getters *)

(** [Element::attribute]: the empty string stands for a missing attribute. *)
Definition element_attribute (d : dom) (i : nat) (name : bytes) : bytes :=
  default [] (attribute d i name).

Definition option_value (d : dom) (i : nat) : bytes :=
  match attribute d i (lit "value") with Some v => v | None => element_text d i end.

Definition value (d : dom) (i : nat) : result bytes :=
  if name_of d i =s lit "textarea" then Ret (element_text d i)
  else if name_of d i =s lit "select" then
    options ← query_selector_all d i (lit "option") true;
    match List.find (fun o => has_attribute d o (lit "selected")) options with
    | Some o => Ret (option_value d o)
    | None =>
        first ← query_selector d i (lit "option") true;
        Ret match first with Some o => option_value d o | None => [] end
    end
  else Ret (element_attribute d i (lit "value")).

Definition set_value (i : nat) (v : bytes) (d : dom) : dom :=
  if name_of d i =s lit "textarea" then set_text i v d else set_attribute i (lit "value") v d.

(** ** [Document] *)

Record Document := { doc_dom : dom; root_ : nat; url_ : bytes; base_url_ : bytes }.

Definition doc_query (doc : Document) (selector : bytes) : result (option nat) :=
  query_selector (doc_dom doc) (root_ doc) selector true.

Definition doc_query_all (doc : Document) (selector : bytes) : result (list nat) :=
  query_selector_all (doc_dom doc) (root_ doc) selector true.

Definition doc_attribute (doc : Document) (i : nat) (name : bytes) : bytes :=
  element_attribute (doc_dom doc) i name.

(** [try ... catch (...)]. *)
Definition catch {A} (m : result A) (fallback : A) : A :=
  match m with Ret a => a | Throw _ => fallback end.

Definition base_url (doc : Document) : result bytes :=
  if nonempty (base_url_ doc) then Ret (base_url_ doc)
  else
    base ← doc_query doc (lit "base[href]");
    Ret match base with
        | Some b =>
            let href := doc_attribute doc b (lit "href") in
            if nonempty href then
              if nonempty (url_ doc) then catch (resolve_url_string (url_ doc) href) href else href
            else url_ doc
        | None => url_ doc
        end.

Definition title (doc : Document) : result bytes :=
  t ← doc_query doc (lit "title");
  match t with
  | Some t => Ret (element_text (doc_dom doc) t)
  | None =>
      meta ← doc_query doc (lit "meta[property='og:title']");
      Ret match meta with
          | Some m => doc_attribute doc m (lit "content")
          | None => []
          end
  end.

Definition doc_text (doc : Document) : bytes := element_text (doc_dom doc) (root_ doc).
Definition doc_html (doc : Document) : bytes := outer_html (doc_dom doc) (root_ doc).

Definition get_elements_by_tag_name (doc : Document) (tag : bytes) : result (list nat) :=
  let name := to_lower tag in
  elements ← doc_query_all doc (lit "*");
  Ret (if name =s lit "*" then elements
       else List.filter (fun e => name_of (doc_dom doc) e =s name) elements).

Definition links (doc : Document) : result (list nat) := doc_query_all doc (lit "a[href], area[href]").
Definition forms (doc : Document) : result (list nat) := doc_query_all doc (lit "form").
Definition scripts (doc : Document) : result (list nat) := doc_query_all doc (lit "script").

(** The URL one element refers to; [base_url] is inside the [try]. *)
Definition resource_url (doc : Document) (e : nat) : list bytes :=
  let src := doc_attribute doc e (lit "src") in
  let reference := if nonempty src then src else doc_attribute doc e (lit "href") in
  if nonempty reference then
    [ catch (base ← base_url doc;
             if nonempty base then resolve_url_string base reference else Ret reference) reference ]
  else [].

Definition resource_selector : bytes :=
  lit "script[src], link[href], img[src], source[src], iframe[src], video[src], audio[src]".

Definition resource_urls (doc : Document) : result (list bytes) :=
  elements ← doc_query_all doc resource_selector;
  Ret (mjoin (map (resource_url doc) elements)).

(** ** [Document::metadata]; the map of strings has byte strings as keys *)

Definition meta_key (doc : Document) (m : nat) : bytes :=
  let name := doc_attribute doc m (lit "name") in
  if nonempty name then name
  else let property := doc_attribute doc m (lit "property") in
       if nonempty property then property else doc_attribute doc m (lit "http-equiv").

Definition add_meta (doc : Document) (acc : gmap bytes bytes) (m : nat) : gmap bytes bytes :=
  let key := meta_key doc m in
  let acc1 := if nonempty key then <[key := doc_attribute doc m (lit "content")]> acc else acc in
  let charset := doc_attribute doc m (lit "charset") in
  if nonempty charset then <[lit "charset" := charset]> acc1 else acc1.

Definition metadata (doc : Document) : result (gmap bytes bytes) :=
  page_title ← title doc;
  let m0 := if nonempty page_title then {[lit "title" := page_title]} else ∅ in
  metas ← doc_query_all doc (lit "meta");
  let m1 := foldl (add_meta doc) m0 metas in
  html ← doc_query doc (lit "html");
  Ret match html with
      | Some h => if has_attribute (doc_dom doc) h (lit "lang")
                  then <[lit "lang" := doc_attribute doc h (lit "lang")]> m1 else m1
      | None => m1
      end.

Definition parse_html (html url base : bytes) : result Document :=
  tree ← parse_html_tree html;
  Ret {| doc_dom := load_document tree; root_ := 0; url_ := url; base_url_ := base |}.

Example metadata_ex :
  (doc ← parse_html (lit "<html lang=en><title>T</title><meta name=a content=b><base href=/x/>")
           (lit "http://h/p") [];
   m ← metadata doc; b ← base_url doc;
   Ret (m !! lit "title", m !! lit "a", m !! lit "lang", b)) =
  Ret (Some (lit "T"), Some (lit "b"), Some (lit "en"), lit "http://h/x/").
Proof. vm_compute. reflexivity. Qed.

(** ** Style declarations *)

Definition blank (c : ascii) : bool := (c =c " ") || (code c =? 9)%N.
Definition boundary_char (c : ascii) : bool := (c =c ";") || blank c.

(** A declaration of [p] with the value [v] behind the first [n] characters of [s]. *)
Definition declared_at (s p v : bytes) (n : nat) : Prop :=
  exists w r, drop n s = p ++ w ++ ":"%char :: v ++ r /\ forallb blank w = true /\
              match n with O => True | S m => exists c, s !! m = Some c /\ boundary_char c = true end.

Lemma starts_with_drop p s : starts_with p s = true <-> exists r, s = p ++ r.
Proof.
  rewrite starts_with_spec. split; [eauto|]. intros [r ->]. by rewrite drop_app_length.
Qed.

Lemma find_sub_None p s : find_sub p s = None -> forall n, starts_with p (drop n s) = false.
Proof.
  induction s as [|c s IH]; cbn [find_sub]; intros H n.
  - rewrite drop_nil. by destruct (starts_with p []).
  - destruct (starts_with p (c :: s)) eqn:E; [done|].
    destruct n as [|n]; [exact E|]. simpl. apply IH. by destruct (find_sub p s).
Qed.

Lemma find_sub_first p s k :
  find_sub p s = Some k -> starts_with p (drop k s) = true /\
                           forall n, n < k -> starts_with p (drop n s) = false.
Proof.
  revert k. induction s as [|c s IH]; intros k; cbn [find_sub].
  - destruct (starts_with p []) eqn:E; [|done]. intros [= <-]. split; [done|lia].
  - destruct (starts_with p (c :: s)) eqn:E.
    + intros [= <-]. split; [done|lia].
    + intros (m & Hm & ->)%fmap_Some. destruct (IH m Hm) as [H1 H2]. split; [exact H1|].
      intros [|n] Hn; [done|]. apply H2. lia.
Qed.

Section Declarations.
Context (s p v : bytes).
Hypothesis p_plain : forallb (fun c => negb (boundary_char c)) p = true.
Hypothesis p_nonempty : p <> [].

Lemma declared_starts n : declared_at s p v n -> starts_with p (drop n s) = true.
Proof using Type. intros (w & r & H & _). apply starts_with_drop. rewrite H. eauto. Qed.

Lemma skip_blank w r : forallb blank w = true -> skip blank (w ++ ":"%char :: r) = ":"%char :: r.
Proof using Type. intros H. rewrite skip_app by done. done. Qed.

(** What the loop checks behind an occurrence of the property. *)
Lemma hides_spec t :
  match skip blank t with c :: r => (c =c ":") && starts_with v r | [] => false end = true <->
  exists w r, t = w ++ ":"%char :: v ++ r /\ forallb blank w = true.
Proof using Type.
  split.
  - intros H. pose proof (skip_span blank t) as Ht. destruct (skip blank t) as [|c r]; [done|].
    apply andb_prop in H as [->%eqc_true [r' ->]%starts_with_drop].
    exists (span blank t), r'. split; [by symmetry|].
    clear. induction t as [|c t IH]; simpl; [done|]. destruct (blank c) eqn:E; [|done]. simpl. by rewrite E.
  - intros (w & r & -> & Hw). rewrite skip_blank by done. by rewrite Ascii.eqb_refl, starts_with_app.
Qed.

(** The characters of an occurrence are no boundary, so nothing is declared inside it. *)
Lemma not_inside n m :
  starts_with p (drop n s) = true -> n < m < n + length p -> ~ declared_at s p v m.
Proof using p_plain.
  intros [r Hr]%starts_with_drop Hm (w & r' & _ & _ & Hb).
  destruct m as [|m]; [lia|]. destruct Hb as (c & Hc & Hcb).
  assert (H : p !! (m - n) = Some c).
  { rewrite <- (lookup_app_l p r) by lia. rewrite <- Hr, lookup_drop. by replace (n + (m - n)) with m by lia. }
  rewrite forallb_forall in p_plain. apply list_elem_of_lookup_2, list_elem_of_In, p_plain in H.
  by rewrite Hcb in H.
Qed.

Lemma declaration_loop_spec fuel pos :
  length s < fuel + pos ->
  declaration_loop fuel s p v pos = true <-> exists n, pos <= n /\ declared_at s p v n.
Proof using p_plain p_nonempty.
  revert pos. induction fuel as [|fuel IH]; intros pos Hf; cbn [declaration_loop].
  { split; [done|]. intros (n & Hn & H%declared_starts). rewrite drop_ge in H by lia. by destruct p. }
  destruct (find_sub p (drop pos s)) as [k|] eqn:Ek.
  2:{ split; [done|]. intros (n & Hn & H%declared_starts).
      pose proof (find_sub_None _ _ Ek (n - pos)) as H'. rewrite drop_drop in H'.
      replace (pos + (n - pos)) with n in H' by lia. congruence. }
  destruct (find_sub_first _ _ _ Ek) as [H1 H2]. rewrite drop_drop in H1.
  assert (Hlp : 0 < length p) by (destruct p; [done|simpl; lia]).
  assert (Hlt : pos + k + length p <= length s).
  { apply starts_with_drop in H1 as [r Hr]. apply (f_equal length) in Hr.
    rewrite length_drop, length_app in Hr. lia. }
  assert (Hbefore : forall n, pos <= n -> declared_at s p v n -> pos + k <= n).
  { intros n Hn Hd%declared_starts. destruct (decide (n < pos + k)) as [Hlt'|]; [|lia].
    pose proof (H2 (n - pos) ltac:(lia)) as H. rewrite drop_drop in H.
    replace (pos + (n - pos)) with n in H by lia. congruence. }
  set (at_ := pos + k) in *.
  assert (Hat : forall j, at_ < j -> j <= at_ + length p -> declared_at s p v at_ \/
                  (exists n, j <= n /\ declared_at s p v n) <-> exists n, pos <= n /\ declared_at s p v n).
  { intros j Hj1 Hj2. split.
    - intros [H|(n & Hn & H)]; eexists; split; [|exact H| |exact H]; lia.
    - intros (n & Hn & H). pose proof (Hbefore n Hn H). destruct (decide (n = at_)) as [->|]; [by left|].
      right. exists n. split; [|done]. destruct (decide (n < at_ + length p)); [|lia].
      exfalso. by apply (not_inside at_ n); [done|lia|]. }
  assert (Hdecl : declared_at s p v at_ <->
     match at_ with O => True | S m => exists c, s !! m = Some c /\ boundary_char c = true end /\
     match skip blank (drop (at_ + length p) s) with
     | c :: r => (c =c ":") && starts_with v r | [] => false end = true).
  { rewrite hides_spec. apply starts_with_drop in H1 as [r Hr]. unfold declared_at.
    rewrite <- drop_drop, Hr, drop_app_length. split.
    - intros (w & r' & E & Hw & Hb). split; [done|]. apply app_inv_head in E. eauto.
    - intros (Hb & w & r' & -> & Hw). exists w, r'. done. }
  match goal with |- context [negb ?b] => assert (Hbd : b = true <->
    match at_ with O => True | S m => exists c, s !! m = Some c /\ boundary_char c = true end) end.
  { destruct at_ as [|m]; [done|]. assert (is_Some (s !! m)) as [c Hc] by (apply lookup_lt_is_Some; lia).
    rewrite Hc, <- orb_assoc. split; [eauto|]. by intros (c' & [= <-] & H). }
  match type of Hbd with ?b = true <-> _ => destruct b end; cbn [negb].
  - match goal with |- (if ?h then _ else _) = true <-> _ => destruct h eqn:Eh end.
    + split; [|done]. intros _. exists at_. split; [lia|]. apply Hdecl. split; [by apply Hbd|exact Eh].
    + rewrite IH by lia. rewrite <- (Hat (at_ + length p)) by lia. split; [auto|].
      intros [[_ H]%Hdecl|H]; [|done]. assert (false = true); [|done]. rewrite <- Eh. exact H.
  - rewrite IH by lia. rewrite <- (Hat (at_ + 1)) by lia. split; [auto|].
    intros [[H _]%Hdecl|H]; [|done]. apply Hbd in H. done.
Qed.

Lemma declaration_hides_iff : declaration_hides s p v = true <-> exists n, declared_at s p v n.
Proof using p_plain p_nonempty.
  unfold declaration_hides. rewrite declaration_loop_spec by lia. split.
  - intros (n & _ & H). eauto.
  - intros (n & H). exists n. split; [lia|done].
Qed.

End Declarations.

(** ** Interactability *)

(** The walk goes up through elements. *)
Definition element_step (d : dom) (c p : nat) : Prop := is_element d c = true /\ parent_of d c = Some p.

Lemma interactable_chain d fuel i :
  length (chain fuel d i) < fuel ->
  interactable_loop d (chain fuel d i) = true <->
  forall j, rtc (element_step d) i j -> is_element d j = true -> blocks d j = false.
Proof.
  revert i. induction fuel as [|fuel IH]; intros i Hl; [lia|]. cbn [chain interactable_loop] in *.
  destruct (is_element d i) eqn:Ee.
  2:{ split; [|done]. intros _ j Hj He. inversion Hj as [|? ? ? [H _]]; subst; congruence. }
  destruct (blocks d i) eqn:Eb.
  { split; [done|]. intros H. rewrite (H i) in Eb; [done|constructor|done]. }
  destruct (parent_of d i) as [p|] eqn:Ep.
  - simpl in Hl. rewrite IH by lia. split.
    + intros H j Hj He. inversion Hj as [|? y ? [_ Hy]]; subst; [done|].
      apply H; [|done]. by assert (y = p) as -> by congruence.
    + intros H j Hj He. apply H; [|done]. by apply (rtc_l _ _ p).
  - split; [|done]. intros _ j Hj He. inversion Hj as [|? y ? [_ Hy]]; subst; [done|congruence].
Qed.

Lemma interactable_spec d i :
  dom_wf d -> is_Some (nodes d !! i) ->
  node_interactable d i = true <->
  forall j, rtc (element_step d) i j -> is_element d j = true -> blocks d j = false.
Proof.
  intros Hwf Hi. rewrite <- (interactable_chain d (S (size (nodes d)))).
  - unfold node_interactable, self_and_ancestors.
    by rewrite (chain_full_size d Hwf i Hi).
  - pose proof (chain_length d Hwf (S (size (nodes d))) i Hi). lia.
Qed.

(** A parsed page is well formed; a page beyond the limits is a [ResourceLimit]. *)
Lemma parse_html_ok html url base :
  outcome (fun e => e = ResourceLimit)
    (fun doc => dom_wf (doc_dom doc) /\ is_Some (nodes (doc_dom doc) !! root_ doc)) (parse_html html url base).
Proof.
  unfold parse_html. pose proof (parse_html_tree_limits html) as H.
  destruct (parse_html_tree html) as [t|e]; [|exact H]. cbn [mbind result_bind outcome doc_dom root_].
  apply load_document_ok.
Qed.

(** ** The getters evaluate fixed selectors that cannot fail *)

Section Getters.
Context (doc : Document).
Hypothesis Hwf : dom_wf (doc_dom doc).
Hypothesis Hroot : is_Some (nodes (doc_dom doc) !! root_ doc).

Definition elements_where (p : nat -> bool) : list nat :=
  List.filter (fun i => is_element (doc_dom doc) i && p i) (doc_order (doc_dom doc) (root_ doc)).

Definition named (n : string) (i : nat) : bool := name_of (doc_dom doc) i =s lit n.
Definition having (a : string) (i : nat) : bool := has_attribute (doc_dom doc) i (lit a).

Lemma query_where text ks p :
  parse text = Ret (map single ks) -> Forall (fun k => pseudos k = []) ks ->
  (N.of_nat (length ks) <= max_steps)%N ->
  (forall i, existsb (match_simple (doc_dom doc) i) ks = is_element (doc_dom doc) i && p i) ->
  doc_query_all doc text = Ret (elements_where p) /\
  doc_query doc text = Ret (head (elements_where p)).
Proof using Hwf Hroot.
  intros Hp Hk Hl H. destruct (query_simple (doc_dom doc) (root_ doc) text ks Hwf Hroot Hp Hk Hl) as [H1 H2].
  unfold doc_query_all, doc_query. rewrite H1, H2. unfold elements_where.
  assert (E : forall l, List.filter (fun n => existsb (match_simple (doc_dom doc) n) ks) l =
                        List.filter (fun i => is_element (doc_dom doc) i && p i) l).
  { intros l. apply List.filter_ext. exact H. }
  by rewrite !E.
Qed.

Definition type_compound (n : string) (attrs : list AttrSelector) : Compound :=
  mkCompound false (lit n) [] [] attrs [].

Lemma match_type_compound n i :
  nonempty (lit n) = true ->
  match_simple (doc_dom doc) i (type_compound n []) = is_element (doc_dom doc) i && named n i.
Proof using Type.
  intros Hn. unfold match_simple, type_compound. cbn -[nonempty lit]. rewrite Hn.
  by rewrite !andb_true_r.
Qed.

Definition exists_attr (a : string) : AttrSelector :=
  {| sel_name := lit a; sel_op := Exists_; sel_value := []; ascii_insensitive := false |}.

Lemma match_type_attr n a i :
  nonempty (lit n) = true ->
  match_simple (doc_dom doc) i (type_compound n [exists_attr a]) =
  is_element (doc_dom doc) i && (named n i && having a i).
Proof using Type.
  intros Hn. unfold match_simple, type_compound. cbn -[nonempty lit]. rewrite Hn.
  rewrite !andb_true_r, <- andb_assoc.
  unfold match_attr, having, has_attribute. simpl. by destruct (attribute _ _ _).
Qed.

Lemma query_all_elements : doc_query_all doc (lit "*") = Ret (elements_where (fun _ => true)).
Proof using Hwf Hroot.
  apply (query_where _ [mkCompound true [] [] [] [] []]); [vm_compute; reflexivity|by repeat constructor|done|].
  intros i. unfold match_simple. simpl. by rewrite !andb_true_r, orb_false_r.
Qed.

Lemma query_type n :
  nonempty (lit n) = true -> parse (lit n) = Ret [single (type_compound n [])] ->
  doc_query_all doc (lit n) = Ret (elements_where (named n)) /\
  doc_query doc (lit n) = Ret (head (elements_where (named n))).
Proof using Hwf Hroot.
  intros Hn Hp. apply (query_where _ [type_compound n []]); [exact Hp|by repeat constructor|done|].
  intros i. cbn [existsb]. by rewrite match_type_compound, orb_false_r.
Qed.

Lemma query_links :
  doc_query_all doc (lit "a[href], area[href]") =
  Ret (elements_where (fun i => (named "a" i || named "area" i) && having "href" i)).
Proof using Hwf Hroot.
  apply (query_where _ [type_compound "a" [exists_attr "href"]; type_compound "area" [exists_attr "href"]]);
    [vm_compute; reflexivity|by repeat constructor|done|].
  intros i. cbn [existsb]. rewrite !match_type_attr by done. rewrite orb_false_r.
  destruct (is_element _ _), (named "a" i), (named "area" i), (having "href" i); done.
Qed.

Lemma query_base :
  doc_query doc (lit "base[href]") = Ret (head (elements_where (fun i => named "base" i && having "href" i))).
Proof using Hwf Hroot.
  apply (query_where _ [type_compound "base" [exists_attr "href"]]); [vm_compute; reflexivity|by repeat constructor|done|].
  intros i. cbn [existsb]. by rewrite match_type_attr, orb_false_r.
Qed.

End Getters.

Section Getters2.
Context (doc : Document).
Hypothesis Hwf : dom_wf (doc_dom doc).
Hypothesis Hroot : is_Some (nodes (doc_dom doc) !! root_ doc).

Definition og_title (i : nat) : bool :=
  named doc "meta" i &&
  match attribute (doc_dom doc) i (lit "property") with Some v => v =s lit "og:title" | None => false end.

Lemma query_og_title :
  doc_query doc (lit "meta[property='og:title']") = Ret (head (elements_where doc og_title)).
Proof using Hwf Hroot.
  apply (query_where doc Hwf Hroot _
           [type_compound "meta" [{| sel_name := lit "property"; sel_op := Equals;
                                     sel_value := lit "og:title"; ascii_insensitive := false |}]]);
    [vm_compute; reflexivity|by repeat constructor|done|].
  intros i. cbn [existsb]. rewrite orb_false_r. unfold match_simple, type_compound, og_title, named.
  cbn -[lit]. rewrite !andb_true_r, <- andb_assoc. unfold match_attr. simpl. do 2 f_equal.
Qed.

(** The text of the first [title] element, or the content of the first [og:title]. *)
Definition the_title : bytes :=
  match head (elements_where doc (named doc "title")) with
  | Some t => element_text (doc_dom doc) t
  | None => match head (elements_where doc og_title) with
            | Some m => doc_attribute doc m (lit "content")
            | None => []
            end
  end.

Lemma title_spec : title doc = Ret the_title.
Proof using Hwf Hroot.
  unfold title, the_title. destruct (query_type doc Hwf Hroot "title" eq_refl eq_refl) as [_ ->].
  simpl. destruct (head _); [done|]. by rewrite query_og_title.
Qed.

Lemma base_url_total : exists b, base_url doc = Ret b.
Proof using Hwf Hroot.
  unfold base_url. case_match; [eauto|]. rewrite query_base by done. simpl. eauto.
Qed.

Definition resource_elements : list nat :=
  elements_where doc (fun i =>
    (named doc "script" i && having doc "src" i) || (named doc "link" i && having doc "href" i) ||
    (existsb (fun n => named doc n i) ["img"; "source"; "iframe"; "video"; "audio"]%string &&
     having doc "src" i)).

Lemma query_resources : doc_query_all doc resource_selector = Ret resource_elements.
Proof using Hwf Hroot.
  apply (query_where doc Hwf Hroot _
           [type_compound "script" [exists_attr "src"]; type_compound "link" [exists_attr "href"];
            type_compound "img" [exists_attr "src"]; type_compound "source" [exists_attr "src"];
            type_compound "iframe" [exists_attr "src"]; type_compound "video" [exists_attr "src"];
            type_compound "audio" [exists_attr "src"]]);
    [vm_compute; reflexivity|by repeat constructor|done|].
  intros i. cbn [existsb]. rewrite !match_type_attr by done. rewrite !orb_false_r.
  destruct (is_element _ _); [|done]. cbn [andb]. generalize (having doc "src" i) (having doc "href" i).
  intros src href. destruct src, href; rewrite ?andb_true_r, ?andb_false_r; cbn [orb]; rewrite ?orb_assoc;
    rewrite ?orb_false_r; done.
Qed.

Lemma resource_urls_spec : resource_urls doc = Ret (mjoin (map (resource_url doc) resource_elements)).
Proof using Hwf Hroot. unfold resource_urls. by rewrite query_resources. Qed.

Definition is_reserved (k : bytes) : bool := one_of k ["title"; "charset"; "lang"]%string.

Lemma add_meta_lookup k l acc :
  k <> lit "charset" ->
  nonempty k = true ->
  foldl (add_meta doc) acc l !! k =
  match last (List.filter (fun e => meta_key doc e =s k) l) with
  | Some e => Some (doc_attribute doc e (lit "content"))
  | None => acc !! k
  end.
Proof using Type.
  intros Hc Hk. revert acc. induction l as [|e l IH] using rev_ind; intros acc; [done|].
  rewrite foldl_app, List.filter_app. cbn [foldl List.filter]. unfold add_meta at 1.
  assert (E : forall (m : gmap bytes bytes),
    (if nonempty (doc_attribute doc e (lit "charset"))
     then <[lit "charset" := doc_attribute doc e (lit "charset")]> m else m) !! k = m !! k).
  { intros m. destruct (nonempty (doc_attribute doc e (lit "charset"))); [|done].
    by rewrite lookup_insert_ne. }
  rewrite E. destruct (meta_key doc e =s k) eqn:Ek.
  - apply eqb_bytes_true in Ek. rewrite Ek, Hk, last_snoc. by rewrite lookup_insert_eq.
  - rewrite app_nil_r, <- IH. apply eqb_bytes_false in Ek.
    destruct (nonempty (meta_key doc e)); [|done]. by rewrite lookup_insert_ne.
Qed.

(** The lookups in the map [metadata] returns. *)
Lemma metadata_lookup k :
  is_reserved k = false -> nonempty k = true ->
  exists m, metadata doc = Ret m /\
    m !! k = (fun e => doc_attribute doc e (lit "content")) <$>
             last (List.filter (fun e => meta_key doc e =s k) (elements_where doc (named doc "meta"))) /\
    m !! lit "lang" =
      match head (elements_where doc (named doc "html")) with
      | Some h => if has_attribute (doc_dom doc) h (lit "lang")
                  then Some (doc_attribute doc h (lit "lang")) else m !! lit "lang"
      | None => m !! lit "lang"
      end.
Proof using Hwf Hroot.
  intros Hr Hk. unfold metadata. rewrite title_spec. cbn [mbind result_bind].
  destruct (query_type doc Hwf Hroot "meta" eq_refl eq_refl) as [-> _]. cbn [mbind result_bind].
  destruct (query_type doc Hwf Hroot "html" eq_refl eq_refl) as [_ ->]. cbn [mbind result_bind].
  unfold is_reserved, one_of in Hr. cbn [existsb] in Hr. rewrite orb_false_r in Hr.
  apply orb_false_elim in Hr as [Ht%eqb_bytes_false [Hc%eqb_bytes_false Hl%eqb_bytes_false]%orb_false_elim].
  set (m0 := if nonempty the_title then _ else _).
  assert (H0 : m0 !! k = None) by (subst m0; case_match; [by rewrite lookup_singleton_ne|apply lookup_empty]).
  pose proof (add_meta_lookup k (elements_where doc (named doc "meta")) m0 Hc Hk) as H1.
  eexists. split; [reflexivity|]. split.
  - transitivity (foldl (add_meta doc) m0 (elements_where doc (named doc "meta")) !! k).
    + destruct (head _) as [h|]; [|done].
      destruct (has_attribute (doc_dom doc) h (lit "lang")); [|done]. by rewrite lookup_insert_ne.
    + rewrite H1. destruct (last _); done.
  - destruct (head _) as [h|]; [|done].
    destruct (has_attribute (doc_dom doc) h (lit "lang")); [|done]. by rewrite lookup_insert_eq.
Qed.

End Getters2.

(** ** Properties *)

(** An element is interactable exactly when neither it nor an element above it (up to
    the first node that is no element) carries [hidden], [disabled],
    [aria-disabled="true"] or a style that hides it. *)
Theorem node_interactable_spec d i :
  dom_wf d -> is_Some (nodes d !! i) ->
  node_interactable d i = true <->
  forall j, rtc (element_step d) i j -> is_element d j = true -> blocks d j = false.
Proof. apply interactable_spec. Qed.

(** The search for a style declaration finds one exactly when the property occurs at a
    declaration boundary, followed by blanks, a colon and, at once, the value: blanks
    before the colon are accepted and blanks after it are not, so the usual spelling
    ["display: none"] does not hide an element. *)
Theorem declaration_hides_exact style :
  (style_hides style = true <->
     exists n, declared_at (to_lower style) (lit "display") (lit "none") n \/
               declared_at (to_lower style) (lit "visibility") (lit "hidden") n) /\
  style_hides (lit "color:red; display :none") = true /\
  style_hides (lit "display: none") = false.
Proof.
  split; [|by split; vm_compute]. unfold style_hides. rewrite orb_true_iff.
  rewrite !declaration_hides_iff by done. split.
  - intros [[n H]|[n H]]; exists n; auto.
  - intros [n [H|H]]; [left|right]; by exists n.
Qed.

(** On a well-formed document the getters that collect elements never fail and return,
    in document order, exactly the elements meant: those with the tag (all for ["*"],
    ASCII case folded), the links, forms and scripts. *)
Theorem document_lists doc tag :
  dom_wf (doc_dom doc) -> is_Some (nodes (doc_dom doc) !! root_ doc) ->
  get_elements_by_tag_name doc tag =
    Ret (elements_where doc (fun i => (to_lower tag =s lit "*") ||
                                      (name_of (doc_dom doc) i =s to_lower tag))) /\
  links doc = Ret (elements_where doc (fun i => (named doc "a" i || named doc "area" i) &&
                                                having doc "href" i)) /\
  forms doc = Ret (elements_where doc (named doc "form")) /\
  scripts doc = Ret (elements_where doc (named doc "script")).
Proof.
  intros Hwf Hr. split_and!.
  - unfold get_elements_by_tag_name. rewrite query_all_elements by done. cbn [mbind result_bind].
    f_equal. unfold elements_where. destruct (to_lower tag =s lit "*"); [done|].
    rewrite filter_twice. apply List.filter_ext. intros i. by rewrite andb_true_r.
  - by apply query_links.
  - by apply (query_type doc Hwf Hr "form").
  - by apply (query_type doc Hwf Hr "script").
Qed.

(** The title, the base URL, the resource URLs and the metadata of a well-formed
    document never fail; under a key other than the three special ones the metadata holds
    the content of the last [meta] element with that key, and under ["lang"] the attribute
    of the first [html] element that has it. *)
Theorem metadata_spec doc k :
  dom_wf (doc_dom doc) -> is_Some (nodes (doc_dom doc) !! root_ doc) ->
  is_reserved k = false -> nonempty k = true ->
  title doc = Ret (the_title doc) /\ (exists b, base_url doc = Ret b) /\
  resource_urls doc = Ret (mjoin (map (resource_url doc) (resource_elements doc))) /\
  exists m, metadata doc = Ret m /\
    m !! k = (fun e => doc_attribute doc e (lit "content")) <$>
             last (List.filter (fun e => meta_key doc e =s k) (elements_where doc (named doc "meta"))) /\
    m !! lit "lang" =
      match head (elements_where doc (named doc "html")) with
      | Some h => if has_attribute (doc_dom doc) h (lit "lang")
                  then Some (doc_attribute doc h (lit "lang")) else m !! lit "lang"
      | None => m !! lit "lang"
      end.
Proof.
  intros Hwf Hr Hk Hn. split_and!.
  - by apply title_spec.
  - by apply base_url_total.
  - by apply resource_urls_spec.
  - by apply metadata_lookup.
Qed.

(** ** Witnesses *)

Definition sample_document : Document :=
  {| doc_dom := sample; root_ := 0; url_ := lit "http://h/"; base_url_ := [] |}.

Lemma sample_root : is_Some (nodes (doc_dom sample_document) !! root_ sample_document).
Proof. vm_compute. eauto. Qed.

Lemma node_interactable_spec_witness :
  node_interactable sample 3 = true /\
  forall j, rtc (element_step sample) 3 j -> is_element sample j = true -> blocks sample j = false.
Proof.
  split; [reflexivity|].
  apply (node_interactable_spec sample 3); [exact sample_wf|by vm_compute; eauto|reflexivity].
Defined.

Lemma document_lists_witness :
  get_elements_by_tag_name sample_document (lit "P") =
    Ret (elements_where sample_document (fun i => (to_lower (lit "P") =s lit "*") ||
                                      (name_of (doc_dom sample_document) i =s to_lower (lit "P")))) /\
  get_elements_by_tag_name sample_document (lit "P") = Ret [3].
Proof.
  split; [|by vm_compute]. apply (document_lists sample_document (lit "P") sample_wf sample_root).
Defined.

Lemma metadata_spec_witness :
  dom_wf sample /\ title sample_document = Ret (the_title sample_document) /\
  exists b, base_url sample_document = Ret b.
Proof.
  destruct (metadata_spec sample_document (lit "description") sample_wf sample_root eq_refl eq_refl)
    as (H1 & H2 & _).
  split; [exact sample_wf|]. split; [exact H1|exact H2].
Defined.
