(* ===== verification/Capability.v ===== *)
(** * Capabilities: [include/prowsetk/capability.hpp] and [src/core/capability.cpp]

    A [CapabilitySet] is a vector; the order of the declarations is observable through
    [all]. *)
From S2P Require Import Prelude.

Inductive ImplementationClass :=
  | FullyImplemented | PartiallyImplemented | ImplementedWithRestrictions
  | DummyImplementation | Unsupported_.

#[export] Instance ImplementationClass_eq_dec : EqDecision ImplementationClass.
Proof. solve_decision. Defined.

Definition class_to_string (c : ImplementationClass) : bytes :=
  match c with
  | FullyImplemented => lit "fully-implemented"
  | PartiallyImplemented => lit "partially-implemented"
  | ImplementedWithRestrictions => lit "implemented-with-restrictions"
  | DummyImplementation => lit "dummy-implementation"
  | Unsupported_ => lit "unsupported"
  end.

Record Capability := {
  cap_name : bytes; cap_class : ImplementationClass; cap_notes : bytes }.

Abbreviation CapabilitySet := (list Capability).

(** [CapabilitySet::set]: update the first declaration of that name in place, or append. *)
Fixpoint set_capability (name : bytes) (c : ImplementationClass) (notes : bytes)
  (l : CapabilitySet) : CapabilitySet :=
  match l with
  | [] => [ {| cap_name := name; cap_class := c; cap_notes := notes |} ]
  | e :: l' =>
      if cap_name e =s name then {| cap_name := cap_name e; cap_class := c; cap_notes := notes |} :: l'
      else e :: set_capability name c notes l'
  end.

Definition add (capability : Capability) (l : CapabilitySet) : CapabilitySet :=
  set_capability (cap_name capability) (cap_class capability) (cap_notes capability) l.

(** [CapabilitySet::find]. *)
Fixpoint find (name : bytes) (l : CapabilitySet) : option Capability :=
  match l with
  | [] => None
  | e :: l' => if cap_name e =s name then Some e else find name l'
  end.

Definition has (name : bytes) (l : CapabilitySet) : bool :=
  match find name l with
  | Some e => negb (bool_decide (cap_class e = Unsupported_))
  | None => false
  end.

Definition classification (name : bytes) (l : CapabilitySet) : ImplementationClass :=
  match find name l with Some e => cap_class e | None => Unsupported_ end.

Definition all (l : CapabilitySet) : list Capability := l.

(** ** Lemmas *)

Lemma find_set name c notes l k :
  find k (set_capability name c notes l) =
  if name =s k then Some {| cap_name := name; cap_class := c; cap_notes := notes |} else find k l.
Proof.
  induction l as [|e l IH]; simpl; [done|].
  destruct (cap_name e =s name) eqn:E; simpl.
  - apply eqb_bytes_true in E as ->. by destruct (name =s k).
  - rewrite IH. destruct (cap_name e =s k) eqn:Ek; [|done]. destruct (name =s k) eqn:En; [|done].
    apply eqb_bytes_true in Ek, En. subst. by rewrite eqb_bytes_refl in E.
Qed.

Lemma names_set name c notes l :
  map cap_name (set_capability name c notes l) =
  if existsb (fun n => n =s name) (map cap_name l) then map cap_name l else map cap_name l ++ [name].
Proof.
  induction l as [|e l IH]; simpl; [done|]. destruct (cap_name e =s name); simpl; [done|].
  rewrite IH. by case_match.
Qed.

Lemma names_nodup name c notes l :
  NoDup (map cap_name l) -> NoDup (map cap_name (set_capability name c notes l)).
Proof.
  intros H. rewrite names_set. destruct (existsb _ _) eqn:E; [done|].
  apply NoDup_app. split_and!; [done| |apply NoDup_singleton].
  intros x Hx ->%list_elem_of_singleton. enough (existsb (fun n => n =s name) (map cap_name l) = true) by congruence.
  apply existsb_exists. exists name. split; [by apply list_elem_of_In|apply eqb_bytes_refl].
Qed.

Lemma find_elem l e : NoDup (map cap_name l) -> e ∈ l <-> find (cap_name e) l = Some e.
Proof.
  induction l as [|x l IH]; simpl; intros Hnd.
  - split; [set_solver|done].
  - apply NoDup_cons in Hnd as [Hx Hnd]. rewrite elem_of_cons. destruct (cap_name x =s cap_name e) eqn:E.
    + apply eqb_bytes_true in E. split; [|naive_solver]. intros [->|He]; [done|].
      exfalso. apply Hx. rewrite E. by apply list_elem_of_In, in_map, list_elem_of_In.
    + rewrite IH by done. apply eqb_bytes_false in E. naive_solver.
Qed.

(** ** Properties *)

(** Declarations behave as a map: any sequence of [add]s from the empty set keeps the
    names unique, the last declaration of a name is the one found (others are not
    touched), updating a name keeps its position, and [has] reports exactly the names
    declared with a class above [Unsupported]. *)
Theorem capability_map (adds : list Capability) (cap : Capability) :
  let l := foldl (fun l c => add c l) [] adds in
  NoDup (map cap_name (all l)) /\
  (forall k, find k (add cap l) = if cap_name cap =s k then Some cap else find k l) /\
  (is_Some (find (cap_name cap) l) -> map cap_name (all (add cap l)) = map cap_name (all l)) /\
  (forall k, has k l = true <->
             exists e, e ∈ all l /\ cap_name e = k /\ cap_class e <> Unsupported_) /\
  (forall k, has k l = true <-> classification k l <> Unsupported_).
Proof.
  intros l. assert (Hnd : NoDup (map cap_name l)).
  { subst l. induction adds as [|c adds IH] using rev_ind; [constructor|].
    rewrite foldl_app. by apply names_nodup. }
  split_and!; [done| | | |].
  - intros k. unfold add. rewrite find_set. by destruct cap.
  - intros [e He]. unfold all, add. rewrite names_set.
    destruct (existsb _ _) eqn:E; [done|]. exfalso.
    assert (Hin : cap_name cap ∈ map cap_name l).
    { clear -He. induction l as [|x l IH]; [done|]. simpl in *. destruct (cap_name x =s cap_name cap) eqn:E.
      - apply eqb_bytes_true in E as ->. constructor.
      - apply elem_of_cons. right. by apply IH. }
    enough (existsb (fun n => n =s cap_name cap) (map cap_name l) = true) by congruence.
    apply existsb_exists. exists (cap_name cap). split; [by apply list_elem_of_In|apply eqb_bytes_refl].
  - intros k. unfold has, all. split.
    + destruct (find k l) as [e|] eqn:E; [|done]. intros H%negb_true_iff%bool_decide_eq_false.
      assert (cap_name e = k) as <-.
      { clear -E. induction l as [|x l IH]; [done|]. simpl in E.
        destruct (cap_name x =s k) eqn:Ex; [|auto]. by apply eqb_bytes_true in Ex; simplify_eq. }
      exists e. by split; [apply find_elem|].
    + intros (e & He & <- & Hc). apply find_elem in He; [|done]. rewrite He.
      by apply negb_true_iff, bool_decide_eq_false.
  - intros k. unfold has, classification. destruct (find k l); [|done].
    by rewrite negb_true_iff, bool_decide_eq_false.
Qed.
