(* ===== verification/Event.v ===== *)
(** * The event dispatcher: [include/prowsetk/event.hpp] and [src/core/event.cpp]

    Handlers are identified by the shared function object they were registered with.
    What a handler does is the caller's code: the parameter [react] gives, for a handler
    and the state it is called in, the event and the dispatcher it leaves (it may call
    the dispatcher again) and whether it throws.  The mutex makes every operation atomic
    and is not held while handlers run.  The opaque [payload] of an event is left out. *)
From S2P Require Import Prelude.

Inductive EventType :=
  | SessionCreated | SessionDestroyed | BeforeNavigation | AfterNavigation
  | BeforeRequest | AfterResponse | BeforeRedirect | DocumentCreated
  | BeforeScript | AfterScript | ScriptException | Console | DomMutation
  | CookieChange | StorageAccess | UnsupportedApi | PluginInit | PluginShutdown
  | AntiBotDetected | EndpointDiscovered.

#[export] Instance EventType_eq_dec : EqDecision EventType.
Proof. solve_decision. Defined.

Definition event_to_string (t : EventType) : bytes :=
  match t with
  | SessionCreated => lit "session_created"
  | SessionDestroyed => lit "session_destroyed"
  | BeforeNavigation => lit "before_navigation"
  | AfterNavigation => lit "after_navigation"
  | BeforeRequest => lit "before_request"
  | AfterResponse => lit "after_response"
  | BeforeRedirect => lit "before_redirect"
  | DocumentCreated => lit "document_created"
  | BeforeScript => lit "before_script"
  | AfterScript => lit "after_script"
  | ScriptException => lit "script_exception"
  | Console => lit "console"
  | DomMutation => lit "dom_mutation"
  | CookieChange => lit "cookie_change"
  | StorageAccess => lit "storage_access"
  | UnsupportedApi => lit "unsupported_api"
  | PluginInit => lit "plugin_init"
  | PluginShutdown => lit "plugin_shutdown"
  | AntiBotDetected => lit "anti_bot_detected"
  | EndpointDiscovered => lit "endpoint_discovered"
  end.

Definition event_names : list (string * EventType) :=
  [("session_created", SessionCreated); ("session_destroyed", SessionDestroyed);
   ("before_navigation", BeforeNavigation); ("after_navigation", AfterNavigation);
   ("before_request", BeforeRequest); ("after_response", AfterResponse);
   ("before_redirect", BeforeRedirect); ("document_created", DocumentCreated);
   ("before_script", BeforeScript); ("after_script", AfterScript);
   ("script_exception", ScriptException); ("console", Console);
   ("dom_mutation", DomMutation); ("cookie_change", CookieChange);
   ("storage_access", StorageAccess); ("unsupported_api", UnsupportedApi);
   ("plugin_init", PluginInit); ("plugin_shutdown", PluginShutdown);
   ("anti_bot_detected", AntiBotDetected); ("endpoint_discovered", EndpointDiscovered)]%string.

Fixpoint find_event (name : bytes) (l : list (string * EventType)) : option EventType :=
  match l with
  | [] => None
  | (n, t) :: l' => if lit n =s name then Some t else find_event name l'
  end.

Definition parse_event_type (name : bytes) : option EventType := find_event name event_names.

Record Event := {
  type : EventType; url : bytes; ev_name : bytes; message : bytes;
  attributes : gmap bytes bytes; cancelled : bool; session_id : bytes }.

Record Entry := { id : N; e_type : EventType; global : bool; handler : nat }.

Record EventDispatcher := { handlers : list Entry; next_id : N }.

Definition new_dispatcher : EventDispatcher := {| handlers := []; next_id := 1 |}.

(** [next_id_++] on a [std::uint64_t]. *)
Definition next (n : N) : N := ((n + 1) mod 2 ^ 64)%N.

Definition subscribe (t : EventType) (h : nat) (d : EventDispatcher) : N * EventDispatcher :=
  (next_id d,
   {| handlers := handlers d ++ [{| id := next_id d; e_type := t; global := false; handler := h |}];
      next_id := next (next_id d) |}).

Definition subscribe_all (h : nat) (d : EventDispatcher) : N * EventDispatcher :=
  (next_id d,
   {| handlers := handlers d ++ [{| id := next_id d; e_type := Console; global := true; handler := h |}];
      next_id := next (next_id d) |}).

(** Erase the first entry with that id. *)
Fixpoint erase_entry (i : N) (l : list Entry) : option (list Entry) :=
  match l with
  | [] => None
  | e :: l' => if (id e =? i)%N then Some l' else (fun r => e :: r) <$> erase_entry i l'
  end.

Definition unsubscribe (i : N) (d : EventDispatcher) : bool * EventDispatcher :=
  match erase_entry i (handlers d) with
  | Some l => (true, {| handlers := l; next_id := next_id d |})
  | None => (false, d)
  end.

Definition clear (d : EventDispatcher) : EventDispatcher :=
  {| handlers := []; next_id := next_id d |}.

Definition handler_count (t : EventType) (d : EventDispatcher) : nat :=
  length (List.filter (fun e => bool_decide (e_type e = t)) (handlers d)).

(** The entries [emit] copies before it calls any. *)
Definition snapshot (t : EventType) (d : EventDispatcher) : list Entry :=
  List.filter (fun e => global e || bool_decide (e_type e = t)) (handlers d).

Section Emit.
(** The state after a call of a handler, and the exception that leaves it. *)
Variable react : nat -> Event -> EventDispatcher -> Event * EventDispatcher * option ErrorCode.

(** Call handlers in order; an exception ends the emission.  [calls] are the ids called. *)
Fixpoint call_all (l : list Entry) (ev : Event) (d : EventDispatcher)
  : list N * Event * EventDispatcher * option ErrorCode :=
  match l with
  | [] => ([], ev, d, None)
  | e :: l' =>
      match react (handler e) ev d with
      | (ev', d', Some x) => ([id e], ev', d', Some x)
      | (ev', d', None) => let '(calls, ev'', d'', x) := call_all l' ev' d' in
                           (id e :: calls, ev'', d'', x)
      end
  end.

Definition emit (ev : Event) (d : EventDispatcher)
  : list N * Event * EventDispatcher * option ErrorCode :=
  let snap := snapshot (type ev) d in
  match call_all (List.filter (fun e => negb (global e)) snap) ev d with
  | (calls, ev', d', Some x) => (calls, ev', d', Some x)
  | (calls, ev', d', None) =>
      let '(calls', ev'', d'', x) := call_all (List.filter global snap) ev' d' in
      (calls ++ calls', ev'', d'', x)
  end.

End Emit.

(** ** Histories of a dispatcher *)

Inductive op :=
  | Subscribe (t : EventType) (h : nat)
  | SubscribeAll (h : nat)
  | Unsubscribe (i : N)
  | Clear.

Definition step (o : op) (d : EventDispatcher) : EventDispatcher :=
  match o with
  | Subscribe t h => (subscribe t h d).2
  | SubscribeAll h => (subscribe_all h d).2
  | Unsubscribe i => (unsubscribe i d).2
  | Clear => clear d
  end.

Definition run (ops : list op) : EventDispatcher := foldl (fun d o => step o d) new_dispatcher ops.

(** [ids_ok n d]: the ids are unique and below the next one, which is at most [n]. *)
Definition ids_ok (n : N) (d : EventDispatcher) : Prop :=
  NoDup (map id (handlers d)) /\ (forall e, e ∈ handlers d -> id e < next_id d)%N /\
  (next_id d <= n)%N.

Lemma map_id_app l e : map id (l ++ [e]) = map id l ++ [id e].
Proof. by rewrite map_app. Qed.

Lemma ids_append n d e :
  (n < 2 ^ 64 - 1)%N -> ids_ok n d -> id e = next_id d ->
  ids_ok (n + 1) {| handlers := handlers d ++ [e]; next_id := next (next_id d) |}.
Proof.
  intros Hn (H1 & H2 & H3) He. assert (Hx : next (next_id d) = (next_id d + 1)%N).
  { unfold next. apply N.mod_small. lia. }
  unfold ids_ok. cbn [handlers next_id]. rewrite Hx. split_and!; [| |lia].
  - rewrite map_id_app. apply NoDup_app. split_and!; [done| |apply NoDup_singleton].
    intros x Hx' ->%list_elem_of_singleton. apply list_elem_of_In, in_map_iff in Hx' as (f & Hf & Hin).
    apply list_elem_of_In, H2 in Hin. lia.
  - intros f [Hf|Hf%list_elem_of_singleton]%elem_of_app; [apply H2 in Hf; lia|subst; lia].
Qed.

Lemma erase_entry_spec i l l' :
  erase_entry i l = Some l' ->
  exists l1 e l2, l = l1 ++ e :: l2 /\ l' = l1 ++ l2 /\ id e = i /\ forall f, f ∈ l1 -> id f <> i.
Proof.
  revert l'. induction l as [|e l IH]; intros l'; cbn [erase_entry]; [done|].
  destruct (N.eqb_spec (id e) i) as [He|He].
  - intros [= <-]. exists [], e, l. split_and!; [done..|set_solver].
  - intros (r & Hr & ->)%fmap_Some. destruct (IH r Hr) as (l1 & f & l2 & -> & -> & Hf & Hl1).
    exists (e :: l1), f, l2. split_and!; [done..|]. intros g [->|Hg]%elem_of_cons; auto.
Qed.

Lemma erase_entry_None i l : erase_entry i l = None <-> forall e, e ∈ l -> id e <> i.
Proof.
  induction l as [|e l IH]; cbn [erase_entry]; [split; [set_solver|done]|].
  destruct (N.eqb_spec (id e) i) as [He|He].
  - split; [done|]. intros H. by destruct (H e ltac:(by constructor)).
  - rewrite fmap_None, IH. set_solver.
Qed.

Lemma ids_step n d o : (n < 2 ^ 64 - 1)%N -> ids_ok n d -> ids_ok (n + 1) (step o d).
Proof.
  intros Hn H. destruct o; simpl.
  - by apply ids_append.
  - by apply ids_append.
  - unfold unsubscribe. destruct (erase_entry i (handlers d)) as [l|] eqn:E; simpl.
    + apply erase_entry_spec in E as (l1 & e & l2 & Hd & -> & _). destruct H as (H1 & H2 & H3).
      rewrite Hd in *. split_and!; [| |simpl; lia].
      * simpl. rewrite !map_app in *. simpl in H1. apply NoDup_app in H1 as (A & B & C).
        apply NoDup_cons in C as [_ C]. apply NoDup_app. split_and!; [done| |done].
        intros x Hx Hx'. eapply B; [exact Hx|by constructor].
      * simpl. intros f Hf. apply H2. set_solver.
    + destruct H as (H1 & H2 & H3). split_and!; [done..|lia].
  - destruct H as (_ & _ & H3). split_and!; simpl; [constructor|set_solver|lia].
Qed.

Lemma run_ids ops : (N.of_nat (length ops) < 2 ^ 64 - 2)%N -> ids_ok (N.of_nat (length ops) + 1) (run ops).
Proof.
  unfold run. induction ops as [|o ops IH] using rev_ind; intros Hl.
  - split_and!; simpl; [constructor|set_solver|lia].
  - rewrite foldl_app, length_app in *. simpl in *.
    replace (N.of_nat (length ops + 1) + 1)%N with ((N.of_nat (length ops) + 1) + 1)%N by lia.
    apply ids_step; [lia|]. apply IH. lia.
Qed.

Lemma call_all_calls react l ev d calls ev' d' :
  call_all react l ev d = (calls, ev', d', None) -> calls = map id l.
Proof.
  revert ev d calls ev' d'. induction l as [|e l IH]; intros ev d calls ev' d'; simpl.
  - by intros [= <- _ _].
  - destruct (react (handler e) ev d) as [[ev1 d1] [x|]]; [done|].
    destruct (call_all react l ev1 d1) as [[[c ev2] d2] x] eqn:E. intros [= <- <- <- ->].
    by erewrite (IH _ _ _ _ _ E).
Qed.

Lemma call_all_prefix react l ev d calls ev' d' x :
  call_all react l ev d = (calls, ev', d', x) -> exists rest, map id l = calls ++ rest.
Proof.
  revert ev d calls ev' d' x. induction l as [|e l IH]; intros ev d calls ev' d' x; simpl.
  - intros [= <- _ _ _]. by exists [].
  - destruct (react (handler e) ev d) as [[ev1 d1] [y|]]; [intros [= <- _ _ _]; by exists (map id l)|].
    destruct (call_all react l ev1 d1) as [[[c ev2] d2] y] eqn:E. intros [= <- _ _ _].
    destruct (IH _ _ _ _ _ _ E) as [rest ->]. by exists rest.
Qed.

(** The order of an emission. *)
Definition emission_order (t : EventType) (d : EventDispatcher) : list N :=
  map id (List.filter (fun e => negb (global e) && bool_decide (e_type e = t)) (handlers d)) ++
  map id (List.filter global (handlers d)).

Lemma snapshot_typed t d :
  List.filter (fun e => negb (global e)) (snapshot t d) =
  List.filter (fun e => negb (global e) && bool_decide (e_type e = t)) (handlers d).
Proof.
  unfold snapshot. rewrite filter_twice. apply List.filter_ext. intros e.
  by destruct (global e), (bool_decide _).
Qed.

Lemma snapshot_global t d :
  List.filter global (snapshot t d) = List.filter global (handlers d).
Proof.
  unfold snapshot. rewrite filter_twice. apply List.filter_ext. intros e.
  by destruct (global e), (bool_decide _).
Qed.

(** ** Properties *)

(** C40: [parse_event_type] is the inverse of [to_string] on the event types: it accepts
    exactly their names. *)
Theorem event_type_roundtrip name t :
  parse_event_type name = Some t <-> name = event_to_string t.
Proof.
  split; [|intros ->; by destruct t]. unfold parse_event_type. cbn [find_event event_names].
  repeat (destruct (_ =s name) eqn:E; [apply eqb_bytes_true in E; by intros [= <-]|clear E]).
  done.
Qed.

(** C9: an emission calls the handlers subscribed to the type of the event when it starts,
    in registration order, and then the global ones, whatever the handlers do to the
    event or to the dispatcher meanwhile; an exception cuts this sequence short and
    nothing else does. *)
Theorem emit_order react ev d calls ev' d' x :
  emit react ev d = (calls, ev', d', x) ->
  (x = None -> calls = emission_order (type ev) d) /\
  (exists rest, emission_order (type ev) d = calls ++ rest).
Proof.
  unfold emit, emission_order. rewrite snapshot_typed, snapshot_global.
  destruct (call_all react (List.filter _ _) ev d) as [[[c1 ev1] d1] [x1|]] eqn:E1.
  - intros [= <- _ _ <-]. split; [done|]. destruct (call_all_prefix _ _ _ _ _ _ _ _ E1) as [r ->].
    eexists. by rewrite <- app_assoc.
  - destruct (call_all react (List.filter global _) ev1 d1) as [[[c2 ev2] d2] x2] eqn:E2.
    intros [= <- _ _ <-]. rewrite (call_all_calls _ _ _ _ _ _ _ E1). split.
    + intros ->. by rewrite (call_all_calls _ _ _ _ _ _ _ E2).
    + destruct (call_all_prefix _ _ _ _ _ _ _ _ E2) as [r ->]. exists r. by rewrite app_assoc.
Qed.

(** After any history shorter than the id space the subscription ids are unique, the
    next id is fresh, and [unsubscribe] removes exactly the subscription with that id,
    keeping the order of the others, and reports whether there was one. *)
Theorem subscription_ids ops i :
  (N.of_nat (length ops) < 2 ^ 64 - 2)%N ->
  let d := run ops in
  NoDup (map id (handlers d)) /\ next_id d ∉ map id (handlers d) /\
  (unsubscribe i d).1 = existsb (fun e => (id e =? i)%N) (handlers d) /\
  handlers (unsubscribe i d).2 = List.filter (fun e => negb (id e =? i)%N) (handlers d) /\
  next_id (unsubscribe i d).2 = next_id d.
Proof.
  intros Hl d. destruct (run_ids ops Hl) as (H1 & H2 & _). fold d in H1, H2.
  assert (Hkeep : forall l, (forall f, f ∈ l -> id f <> i) ->
            List.filter (fun e => negb (id e =? i)%N) l = l /\ existsb (fun e => (id e =? i)%N) l = false).
  { induction l as [|f l IH]; intros Hf; [done|]. simpl.
    destruct (N.eqb_spec (id f) i); [by destruct (Hf f ltac:(by constructor))|].
    destruct IH as [-> ->]; [intros; apply Hf; by constructor|done]. }
  split_and!; [done| | | |].
  - intros (e & He & Hin)%list_elem_of_In%in_map_iff. apply list_elem_of_In, H2 in Hin. lia.
  - unfold unsubscribe. destruct (erase_entry i (handlers d)) as [l|] eqn:E; simpl.
    + apply erase_entry_spec in E as (l1 & e & l2 & -> & _ & He & _). symmetry.
      apply existsb_exists. exists e. split; [apply in_elt|by apply N.eqb_eq].
    + by destruct (Hkeep (handlers d)) as [_ ->]; [apply erase_entry_None|].
  - unfold unsubscribe. destruct (erase_entry i (handlers d)) as [l|] eqn:E; simpl.
    + apply erase_entry_spec in E as (l1 & e & l2 & Hd & -> & He & Hl1). rewrite Hd in *.
      rewrite List.filter_app. simpl. rewrite He, N.eqb_refl. simpl.
      destruct (Hkeep l1 Hl1) as [-> _]. destruct (Hkeep l2) as [-> _]; [|done].
      intros f Hf Hi. rewrite map_app in H1. apply NoDup_app in H1 as (_ & _ & H1). simpl in H1.
      apply NoDup_cons in H1 as [H1 _]. apply H1. rewrite He, <- Hi.
      by apply list_elem_of_In, in_map, list_elem_of_In.
    + by destruct (Hkeep (handlers d)) as [-> _]; [apply erase_entry_None|].
  - unfold unsubscribe. by destruct (erase_entry i (handlers d)).
Qed.

(** The count for [Console] includes the global handlers, which are stored under that
    type; for every other type they are not counted. *)
Example handler_count_global :
  let d := (subscribe_all 7 new_dispatcher).2 in
  handler_count Console d = 1 /\ handler_count DomMutation d = 0.
Proof. done. Qed.

(** ** Witnesses *)

Definition sample_event : Event :=
  {| type := Console; url := []; ev_name := []; message := []; attributes := ∅;
     cancelled := false; session_id := [] |}.

(** A handler that unsubscribes everything while it runs. *)
Definition clearing (h : nat) (ev : Event) (d : EventDispatcher)
  : Event * EventDispatcher * option ErrorCode := (ev, clear d, None).

Definition sample_history : list op := [SubscribeAll 1; Subscribe Console 2; Subscribe PluginInit 3].

Lemma emit_order_witness :
  emit clearing sample_event (run sample_history) = ([2; 1]%N, sample_event, {| handlers := []; next_id := 4 |}, None) /\
  [2; 1]%N = emission_order Console (run sample_history).
Proof.
  split; [vm_compute; reflexivity|].
  apply (emit_order clearing sample_event (run sample_history) [2; 1]%N sample_event
           {| handlers := []; next_id := 4 |} None); [vm_compute; reflexivity|done].
Defined.

Lemma subscription_ids_witness :
  (N.of_nat (length sample_history) < 2 ^ 64 - 2)%N /\ NoDup (map id (handlers (run sample_history))).
Proof.
  split; [vm_compute; reflexivity|]. apply (subscription_ids sample_history 2). vm_compute. reflexivity.
Defined.
