(* ===== verification/Storage.v ===== *)
(** * Storage: [include/prowsetk/storage.hpp] and [src/core/storage.cpp]

    The in-memory cookie jar and the in-memory key/value stores of the sessions.  The
    clock is the argument [now]; the mutexes make every operation atomic.  An access
    listener is a name, and its calls (with the exceptions it swallows) are a log. *)

From S2P Require Import Prelude Url.

(** ** Cookies *)

Record Cookie := {
  c_name : bytes; c_value : bytes; c_domain : bytes; c_path : bytes; secure : bool;
  http_only : bool; host_only : bool; expires_unix : option Z; same_site : bytes }.

Definition with_domain (domain : bytes) (host : bool) (c : Cookie) : Cookie :=
  {| c_name := c_name c; c_value := c_value c; c_domain := domain; c_path := c_path c;
     secure := secure c; http_only := http_only c; host_only := host;
     expires_unix := expires_unix c; same_site := same_site c |}.

Definition with_cookie_path (p : bytes) (c : Cookie) : Cookie :=
  {| c_name := c_name c; c_value := c_value c; c_domain := c_domain c; c_path := p;
     secure := secure c; http_only := http_only c; host_only := host_only c;
     expires_unix := expires_unix c; same_site := same_site c |}.

Definition domain_matches (c : Cookie) (host : bytes) : bool :=
  let cookie_domain := to_lower (c_domain c) in
  let request_host := to_lower host in
  if negb (nonempty cookie_domain) then false
  else if host_only c then request_host =s cookie_domain
  else if request_host =s cookie_domain then true
  else
    (length cookie_domain <? length request_host)%nat &&
    (drop (length request_host - length cookie_domain) request_host =s cookie_domain) &&
    match request_host !! (length request_host - length cookie_domain - 1) with
    | Some d => d =c "."
    | None => false
    end.

Definition path_matches (c : Cookie) (request_path : bytes) : bool :=
  if negb (nonempty (c_path c)) || (c_path c =s lit "/") then true
  else if negb (starts_with (c_path c) request_path) then false
  else
    (length request_path =? length (c_path c))%nat ||
    match last (c_path c) with Some d => d =c "/" | None => false end ||
    match request_path !! length (c_path c) with Some d => d =c "/" | None => false end.

Definition expired (now : Z) (c : Cookie) : bool :=
  match expires_unix c with Some t => (t <=? now)%Z | None => false end.

Abbreviation jar := (list Cookie).

Definition same_cookie (c existing : Cookie) : bool :=
  (c_name existing =s c_name c) && (c_domain existing =s c_domain c) && (c_path existing =s c_path c).

(** The domain and path [set] stores, if the cookie is accepted. *)
Definition admit_cookie (origin : Url) (c : Cookie) : option Cookie :=
  if negb (nonempty (c_name c)) || negb (nonempty (host origin)) then None
  else
    let c1 := if nonempty (c_domain c)
              then with_domain (to_lower (skip (fun d => d =c ".") (c_domain c))) (host_only c) c
              else with_domain (to_lower (host origin)) true c in
    if nonempty (c_domain c) && negb (domain_matches c1 (host origin)) then None
    else Some (match c_path c1 with
               | d :: _ => if d =c "/" then c1 else with_cookie_path (lit "/") c1
               | [] => with_cookie_path (lit "/") c1
               end).

(** [InMemoryCookieJar::set]. *)
Definition jar_set (now : Z) (origin : Url) (c : Cookie) (cookies_ : jar) : jar :=
  match admit_cookie origin c with
  | None => cookies_
  | Some c' =>
      let kept := List.filter (fun e => negb (same_cookie c' e)) cookies_ in
      if expired now c' then kept else kept ++ [c']
  end.

(** The filter of [InMemoryCookieJar::get]. *)
Definition sent_to (now : Z) (origin : Url) (c : Cookie) : bool :=
  negb (expired now c) && domain_matches c (host origin) &&
  negb (secure c && negb (scheme origin =s lit "https")) &&
  path_matches c (if nonempty (path origin) then path origin else lit "/").

(** [std::stable_sort], longer paths first. *)
Fixpoint insert_cookie (c : Cookie) (l : jar) : jar :=
  match l with
  | [] => [c]
  | e :: l' => if (length (c_path c) <? length (c_path e))%nat then e :: insert_cookie c l' else c :: l
  end.

Definition sort_cookies (l : jar) : jar := foldr insert_cookie [] l.

Definition jar_get (now : Z) (origin : Url) (cookies_ : jar) : list Cookie :=
  sort_cookies (List.filter (sent_to now origin) cookies_).

Definition add_to_header (header : bytes) (c : Cookie) : bytes :=
  (if nonempty header then header ++ lit "; " else header) ++ c_name c ++ lit "=" ++ c_value c.

Definition cookie_header (now : Z) (origin : Url) (cookies_ : jar) : bytes :=
  foldl add_to_header [] (jar_get now origin cookies_).

Definition jar_clear (cookies_ : jar) : jar := [].
Definition jar_all (cookies_ : jar) : list Cookie := cookies_.

(** ** Key/value stores *)

Record access := { a_listener : nat; a_store : bytes; a_key : bytes; a_operation : bytes }.

Record KeyValueStore := {
  values_ : gmap bytes bytes; store_name : bytes; listener_ : option nat; accesses : list access }.

(** [report]; an exception of the listener is swallowed. *)
Definition report (operation key : bytes) (s : KeyValueStore) : KeyValueStore :=
  match listener_ s with
  | Some h => {| values_ := values_ s; store_name := store_name s; listener_ := listener_ s;
                 accesses := accesses s ++ [{| a_listener := h; a_store := store_name s;
                                               a_key := key; a_operation := operation |}] |}
  | None => s
  end.

Definition with_values (m : gmap bytes bytes) (s : KeyValueStore) : KeyValueStore :=
  {| values_ := m; store_name := store_name s; listener_ := listener_ s; accesses := accesses s |}.

Definition kv_get (key : bytes) (s : KeyValueStore) : option bytes * KeyValueStore :=
  (values_ s !! key, report (lit "get") key s).
Definition kv_set (key value : bytes) (s : KeyValueStore) : KeyValueStore :=
  with_values (<[key := value]> (values_ s)) (report (lit "set") key s).
Definition kv_remove (key : bytes) (s : KeyValueStore) : bool * KeyValueStore :=
  (bool_decide (is_Some (values_ s !! key)),
   with_values (delete key (values_ s)) (report (lit "remove") key s)).
Definition kv_clear (s : KeyValueStore) : KeyValueStore :=
  with_values ∅ (report (lit "clear") [] s).

Definition kv_keys (s : KeyValueStore) : list bytes :=
  merge_sort key_order (elements (dom (values_ s))).

(** ** [MemoryStorage] *)

Inductive StoreKind := Local | SessionStore.

#[export] Instance StoreKind_eq_dec : EqDecision StoreKind.
Proof. solve_decision. Defined.

Record MemoryStorage := {
  cookies : jar; local : gmap bytes KeyValueStore; session : gmap bytes KeyValueStore;
  access_listener : option nat }.

Definition stores (k : StoreKind) (s : MemoryStorage) : gmap bytes KeyValueStore :=
  match k with Local => local s | SessionStore => session s end.

Definition with_stores (k : StoreKind) (m : gmap bytes KeyValueStore) (s : MemoryStorage) : MemoryStorage :=
  match k with
  | Local => {| cookies := cookies s; local := m; session := session s; access_listener := access_listener s |}
  | SessionStore => {| cookies := cookies s; local := local s; session := m; access_listener := access_listener s |}
  end.

Definition kind_name (k : StoreKind) : bytes :=
  match k with Local => lit "local" | SessionStore => lit "session" end.

Definition new_store (k : StoreKind) (s : MemoryStorage) : KeyValueStore :=
  {| values_ := ∅; store_name := kind_name k; listener_ := access_listener s; accesses := [] |}.

(** [Impl::get]: the store of a session, created when it is first asked for; the store
    found or created, and the storage then. *)
Definition get_store (k : StoreKind) (session_id : bytes) (s : MemoryStorage)
  : KeyValueStore * MemoryStorage :=
  match stores k s !! session_id with
  | Some st => (st, s)
  | None => (new_store k s, with_stores k (<[session_id := new_store k s]> (stores k s)) s)
  end.

(** An operation on [local_storage(session_id)] or [session_storage(session_id)]. *)
Definition on_store {A} (k : StoreKind) (session_id : bytes) (f : KeyValueStore -> A * KeyValueStore)
  (s : MemoryStorage) : A * MemoryStorage :=
  let '(st, s') := get_store k session_id s in
  let '(a, st') := f st in
  (a, with_stores k (<[session_id := st']> (stores k s')) s').

Definition release_session (session_id : bytes) (s : MemoryStorage) : MemoryStorage :=
  {| cookies := cookies s; local := delete session_id (local s);
     session := delete session_id (session s); access_listener := access_listener s |}.

Definition set_access_listener (l : option nat) (s : MemoryStorage) : MemoryStorage :=
  {| cookies := cookies s; local := local s; session := session s; access_listener := l |}.

Definition new_storage : MemoryStorage :=
  {| cookies := []; local := ∅; session := ∅; access_listener := None |}.

(** ** Cookie scope *)

(** [h] is the domain itself or, unless the cookie is host-only, a name below it. *)
Definition in_domain (c : Cookie) (h : bytes) : Prop :=
  to_lower h = to_lower (c_domain c) \/
  (host_only c = false /\ exists p, to_lower h = p ++ "."%char :: to_lower (c_domain c)).

Lemma domain_matches_spec c h :
  domain_matches c h = true <-> c_domain c <> [] /\ in_domain c h.
Proof.
  unfold domain_matches, in_domain. set (d := to_lower (c_domain c)). set (r := to_lower h).
  assert (Hd : nonempty d = false <-> c_domain c = []) by (subst d; by destruct (c_domain c)).
  destruct (nonempty d) eqn:En; simpl.
  2:{ split; [done|]. intros [H _]. destruct H. by apply Hd. }
  assert (Hne : c_domain c <> []) by (intros H; apply Hd in H; done).
  destruct (host_only c).
  { rewrite eqb_bytes_true. split; [intros ->; auto|]. by intros [_ [H|[H _]]]. }
  destruct (r =s d) eqn:E.
  { apply eqb_bytes_true in E. split; [auto|done]. }
  apply eqb_bytes_false in E. split.
  - intros H. split_andb. split; [done|]. right. split; [done|].
    destruct (Nat.ltb_spec (length d) (length r)) as [Hl|]; [|done].
    destruct (r !! (length r - length d - 1)) as [x|] eqn:Ex; [|done].
    apply eqc_true in H0 as ->. apply eqb_bytes_true in H1.
    exists (take (length r - length d - 1) r). rewrite <- H1 at 2.
    rewrite <- (take_drop_middle r _ _ Ex) at 1. do 2 f_equal.
    f_equal. lia.
  - intros [_ [H|[_ [p Hp]]]]; [done|]. rewrite Hp, length_app. cbn [length].
    replace (length p + S (length d) - length d) with (S (length p)) by lia.
    replace (S (length p) - 1) with (length p) by lia.
    rewrite list_lookup_middle by done.
    rewrite (proj2 (Nat.ltb_lt _ _)) by lia. simpl.
    replace (S (length p)) with (length p + 1) by lia. rewrite drop_app_S, eqb_bytes_refl. done.
Qed.

(** What [set] stores keeps everything but the domain, host flag and path. *)
Lemma admit_cookie_spec origin c c' :
  admit_cookie origin c = Some c' ->
  c_name c' = c_name c /\ c_value c' = c_value c /\ secure c' = secure c /\
  expires_unix c' = expires_unix c /\ c_domain c' <> [] /\ in_domain c' (host origin) /\
  (exists p, c_path c' = "/"%char :: p) /\
  (c_domain c = [] -> host_only c' = true /\ c_domain c' = to_lower (host origin)).
Proof.
  unfold admit_cookie. destruct (negb (nonempty (c_name c)) || negb (nonempty (host origin))) eqn:E0; [done|].
  apply orb_false_elim in E0 as [_ Hh%negb_false_iff].
  set (c1 := if nonempty (c_domain c) then _ else _).
  destruct (nonempty (c_domain c) && negb (domain_matches c1 (host origin))) eqn:E1; [done|].
  assert (Hc1 : c_domain c1 <> [] /\ in_domain c1 (host origin)).
  { apply andb_false_iff in E1 as [E1|E1].
    - subst c1. rewrite E1. cbn [c_domain with_domain]. split.
      + by destruct (host origin).
      + left. cbn. by rewrite to_lower_idemp.
    - apply negb_false_iff, domain_matches_spec in E1. exact E1. }
  assert (Hf : c_name c1 = c_name c /\ c_value c1 = c_value c /\ secure c1 = secure c /\
               expires_unix c1 = expires_unix c) by (subst c1; by destruct (nonempty (c_domain c))).
  assert (Hho : c_domain c = [] -> host_only c1 = true /\ c_domain c1 = to_lower (host origin))
    by (subst c1; intros ->; done).
  clearbody c1. intros [= <-]. destruct Hc1 as [H1 H2]. destruct Hf as (F1 & F2 & F3 & F4).
  destruct (c_path c1) as [|d p] eqn:Ep; [|destruct (d =c "/") eqn:Ed].
  - cbn. split_and!; eauto.
  - apply eqc_true in Ed as ->. split_and!; eauto.
  - cbn. split_and!; eauto.
Qed.

(** What a call of [set] asks for, as it reads its cookie: its flags and its time; its path, unless that is not
    an absolute one; its domain without leading dots in lower case, or the very host that sets it. *)
Definition asked_path (p : bytes) : bytes := if starts_with (lit "/") p then p else lit "/".

Definition asked_domain (origin : Url) (asked c : Cookie) : Prop :=
  if decide (c_domain asked = []) then host_only c = true /\ c_domain c = to_lower (host origin)
  else host_only c = host_only asked /\
       exists dots d, c_domain asked = dots ++ d /\ Forall (eq "."%char) dots /\ head d <> Some "."%char /\ c_domain c = to_lower d.

Record asked_scope (origin : Url) (asked c : Cookie) : Prop := {
  asked_name : c_name c = c_name asked /\ c_value c = c_value asked;
  asked_flags : secure c = secure asked /\ http_only c = http_only asked /\ same_site c = same_site asked;
  asked_time : expires_unix c = expires_unix asked;
  asked_for_path : c_path c = asked_path (c_path asked);
  asked_for_domain : asked_domain origin asked c }.

Lemma skip_dots s : exists dots, s = dots ++ skip (fun d => d =c ".") s /\ Forall (eq "."%char) dots /\ head (skip (fun d => d =c ".") s) <> Some "."%char.
Proof.
  induction s as [|c s (dots & E & Hd & Hh)]; [exists []; by split_and!|]. cbn [skip]. destruct (c =c ".") eqn:Ec.
  - apply eqc_true in Ec as ->. exists ("."%char :: dots). split_and!; [by rewrite E at 1|by constructor|done].
  - exists []. split_and!; [done|done|]. cbn. intros [= ->]. done.
Qed.

Lemma admit_cookie_scope origin c c' : admit_cookie origin c = Some c' -> asked_scope origin c c'.
Proof.
  unfold admit_cookie. destruct (_ || _); [done|].
  set (c1 := if nonempty (c_domain c) then _ else _). destruct (_ && _); [done|]. intros [= <-].
  match goal with |- asked_scope _ _ ?x => set (c2 := x) end.
  assert (c_name c1 = c_name c /\ c_value c1 = c_value c /\ secure c1 = secure c /\ http_only c1 = http_only c /\
          same_site c1 = same_site c /\ expires_unix c1 = expires_unix c /\ c_path c1 = c_path c) as (F1 & F2 & F3 & F4 & F5 & F6 & F7)
    by (subst c1; by destruct (nonempty (c_domain c))).
  assert (c2 = c1 \/ c2 = with_cookie_path (lit "/") c1) as Hc2
    by (subst c2; destruct (c_path c1) as [|x p]; [by right|destruct (x =c "/"); auto]).
  assert (c_path c2 = asked_path (c_path c)) as Hp.
  { subst c2. rewrite F7. unfold asked_path. destruct (c_path c) as [|x p]; [done|].
    destruct (x =c "/") eqn:Ex; [apply eqc_true in Ex as ->; by rewrite F7|]. apply eqc_false in Ex.
    change (starts_with (lit "/") (x :: p)) with (("/"%char =c x) && true).
    by destruct ("/"%char =c x) eqn:E; [apply eqc_true in E|]. }
  assert (asked_domain origin c c1) as Hd.
  { unfold asked_domain. subst c1. destruct (decide (c_domain c = [])) as [E|E]; [by rewrite E|].
    assert (nonempty (c_domain c) = true) as -> by (by destruct (c_domain c)). cbn. split; [done|].
    destruct (skip_dots (c_domain c)) as (dots & E1 & E2 & E3). by exists dots, (skip (fun d => d =c ".") (c_domain c)). }
  clearbody c2. constructor; [..|exact Hp|]; destruct Hc2 as [->| ->]; cbn; done.
Qed.

Lemma path_matches_spec c p :
  path_matches c p = true <->
  c_path c = [] \/ c_path c = lit "/" \/
  exists r, p = c_path c ++ r /\ (r = [] \/ last (c_path c) = Some "/"%char \/ head r = Some "/"%char).
Proof.
  unfold path_matches. destruct (c_path c) as [|x q] eqn:Ep; [simpl; naive_solver|]. rewrite <- Ep.
  cbn [nonempty negb]. rewrite Ep at 1. cbn [nonempty negb orb].
  destruct (c_path c =s lit "/") eqn:Es; [apply eqb_bytes_true in Es; naive_solver|].
  apply eqb_bytes_false in Es.
  destruct (starts_with (c_path c) p) eqn:Est; cbn [negb].
  2:{ split; [done|]. intros [H|[H|(r & -> & _)]]; [congruence|done|]. by rewrite starts_with_app in Est. }
  apply starts_with_spec in Est. set (r := drop (length (c_path c)) p) in *.
  rewrite !orb_true_iff, Nat.eqb_eq.
  assert (H1 : length p = length (c_path c) <-> r = []).
  { rewrite Est, length_app. destruct r; simpl; split; (done || lia). }
  assert (H2 : match p !! length (c_path c) with Some d => d =c "/" | None => false end = true <->
               head r = Some "/"%char).
  { rewrite Est at 1. rewrite lookup_app_r, Nat.sub_diag by lia. destruct r as [|y r']; simpl; [done|].
    rewrite eqc_true. naive_solver. }
  assert (H3 : match last (c_path c) with Some d => d =c "/" | None => false end = true <->
               last (c_path c) = Some "/"%char).
  { destruct (last (c_path c)); [rewrite eqc_true; naive_solver|done]. }
  rewrite H1, H2, H3. split.
  - intros H. right. right. exists r. tauto.
  - intros [H|[H|(r' & Hr & H)]]; [congruence|done|].
    assert (r' = r) as -> by (rewrite Est in Hr; by apply app_inv_head in Hr). tauto.
Qed.

(** ** Histories of a jar *)

Record set_call := { s_now : Z; s_origin : Url; s_cookie : Cookie }.

Definition run_sets (calls : list set_call) : jar :=
  foldl (fun j k => jar_set (s_now k) (s_origin k) (s_cookie k) j) [] calls.

Definition cookie_key (c : Cookie) : bytes * bytes * bytes := (c_name c, c_domain c, c_path c).

Lemma same_cookie_key c e : same_cookie c e = true <-> cookie_key e = cookie_key c.
Proof.
  unfold same_cookie, cookie_key. rewrite !andb_true_iff, !eqb_bytes_true. split.
  - by intros [[-> ->] ->].
  - by intros [= -> -> ->].
Qed.

Lemma jar_set_elem now origin c j x :
  x ∈ jar_set now origin c j ->
  x ∈ j \/ admit_cookie origin c = Some x.
Proof.
  unfold jar_set. destruct (admit_cookie origin c) as [c'|]; [|auto].
  assert (Hk : forall y, y ∈ List.filter (fun e => negb (same_cookie c' e)) j -> y ∈ j).
  { intros y Hy. apply list_elem_of_In, filter_In in Hy as [Hy _]. by apply list_elem_of_In. }
  destruct (expired now c'); [auto|]. intros [Hx|Hx%list_elem_of_singleton]%elem_of_app; subst; auto.
Qed.

Lemma run_sets_elem calls x :
  x ∈ run_sets calls -> exists k, k ∈ calls /\ admit_cookie (s_origin k) (s_cookie k) = Some x.
Proof.
  unfold run_sets. induction calls as [|k calls IH] using rev_ind; [set_solver|].
  rewrite foldl_app. simpl. intros [H|H]%jar_set_elem; [|set_solver].
  destruct (IH H) as (k' & ? & ?). set_solver.
Qed.

Lemma jar_set_keys now origin c j :
  NoDup (map cookie_key j) -> NoDup (map cookie_key (jar_set now origin c j)).
Proof.
  intros H. unfold jar_set. destruct (admit_cookie origin c) as [c'|]; [|done].
  set (kept := List.filter _ j).
  assert (Hk : NoDup (map cookie_key kept) /\ cookie_key c' ∉ map cookie_key kept).
  { subst kept. split.
    - clear -H. induction j as [|e j IH]; simpl in *; [done|]. apply NoDup_cons in H as [He H].
      destruct (same_cookie c' e); simpl; [by apply IH|]. apply NoDup_cons. split; [|by apply IH].
      intros Hin. apply He. apply list_elem_of_In, in_map_iff in Hin as (f & Hf & Hin).
      apply filter_In in Hin as [Hin _]. apply list_elem_of_In, in_map_iff. eauto.
    - intros Hin. apply list_elem_of_In, in_map_iff in Hin as (f & Hf & Hin).
      apply filter_In in Hin as [_ Hin]. apply negb_true_iff in Hin.
      apply same_cookie_key in Hf. congruence. }
  destruct Hk as [H1 H2]. destruct (expired now c'); [done|]. rewrite map_app. apply NoDup_app.
  split_and!; [done| |apply NoDup_singleton]. by intros x Hx ->%list_elem_of_singleton.
Qed.

Lemma run_sets_keys calls : NoDup (map cookie_key (run_sets calls)).
Proof.
  unfold run_sets. induction calls as [|k calls IH] using rev_ind; [constructor|].
  rewrite foldl_app. by apply jar_set_keys.
Qed.

(** ** Sorting *)

Lemma insert_cookie_elem c l x : x ∈ insert_cookie c l <-> x = c \/ x ∈ l.
Proof. induction l as [|e l IH]; simpl; [set_solver|]. case_match; set_solver. Qed.

Lemma sort_cookies_elem l x : x ∈ sort_cookies l <-> x ∈ l.
Proof.
  induction l as [|c l IH]; [done|]. cbn [sort_cookies foldr]. fold (sort_cookies l).
  rewrite insert_cookie_elem, IH. set_solver.
Qed.

Definition longer (c e : Cookie) : Prop := length (c_path e) <= length (c_path c).

Lemma insert_cookie_sorted c l : StronglySorted longer l -> StronglySorted longer (insert_cookie c l).
Proof.
  induction 1 as [|e l Hl IH He]; simpl; [by repeat constructor|].
  destruct (Nat.ltb_spec (length (c_path c)) (length (c_path e))).
  - constructor; [done|]. apply List.Forall_forall. intros x Hx%list_elem_of_In%insert_cookie_elem.
    rewrite List.Forall_forall in He. unfold longer in *. destruct Hx as [->|Hx]; [lia|].
    apply He. by apply list_elem_of_In.
  - constructor; [by constructor|]. apply List.Forall_forall. unfold longer in *.
    rewrite List.Forall_forall in He. intros x [->|Hx]; [done|]. specialize (He x Hx). lia.
Qed.

Lemma sort_cookies_sorted l : StronglySorted longer (sort_cookies l).
Proof. induction l as [|c l IH]; [constructor|]. by apply insert_cookie_sorted. Qed.

Definition of_length (n : nat) (c : Cookie) : bool := (length (c_path c) =? n)%nat.

Lemma insert_cookie_stable n c l :
  List.filter (of_length n) (insert_cookie c l) = List.filter (of_length n) (c :: l).
Proof.
  induction l as [|e l IH]; [done|]. cbn [insert_cookie].
  destruct (Nat.ltb_spec (length (c_path c)) (length (c_path e))); [|done].
  cbn [List.filter] in *. rewrite IH. unfold of_length.
  destruct (Nat.eqb_spec (length (c_path c)) n), (Nat.eqb_spec (length (c_path e)) n); try done. lia.
Qed.

Lemma sort_cookies_stable n l :
  List.filter (of_length n) (sort_cookies l) = List.filter (of_length n) l.
Proof.
  induction l as [|c l IH]; [done|]. cbn [sort_cookies foldr]. fold (sort_cookies l).
  rewrite insert_cookie_stable. cbn [List.filter]. by rewrite IH.
Qed.

(** ** What a storage holds *)

(** The map of one store; a store that was not asked for yet is empty. *)
Definition contents (k : StoreKind) (session_id : bytes) (s : MemoryStorage) : gmap bytes bytes :=
  from_option values_ ∅ (stores k s !! session_id).

Lemma values_report op key st : values_ (report op key st) = values_ st.
Proof. unfold report. by destruct (listener_ st). Qed.

Lemma stores_with k k' m s :
  stores k' (with_stores k m s) = if decide (k' = k) then m else stores k' s.
Proof. by destruct k, k'. Qed.

Lemma get_store_values k i s : values_ (get_store k i s).1 = contents k i s.
Proof. unfold get_store, contents. by destruct (stores k s !! i). Qed.

Lemma get_store_others k i s k' i' :
  (k', i') <> (k, i) -> stores k' (get_store k i s).2 !! i' = stores k' s !! i'.
Proof.
  intros Hne. unfold get_store. destruct (stores k s !! i); [done|]. simpl. rewrite stores_with.
  destruct (decide (k' = k)) as [->|]; [|done]. rewrite lookup_insert_ne by congruence. done.
Qed.

Lemma on_store_contents {A} k i (f : KeyValueStore -> A * KeyValueStore) s k' i' :
  contents k' i' (on_store k i f s).2 =
  if decide ((k', i') = (k, i)) then values_ (f (get_store k i s).1).2 else contents k' i' s.
Proof.
  unfold on_store. pose proof (get_store_others k i s k' i') as H.
  destruct (get_store k i s) as [st s'] eqn:E. simpl in *. destruct (f st) as [a st'] eqn:Ef. simpl.
  unfold contents. rewrite stores_with. destruct (decide ((k', i') = (k, i))) as [[= -> ->]|Hne].
  - rewrite decide_True by done. by rewrite lookup_insert_eq.
  - rewrite <- (H Hne). destruct (decide (k' = k)) as [->|]; [|done].
    rewrite lookup_insert_ne by congruence. done.
Qed.

(** ** Properties *)

(** C8: a cookie is sent only where it belongs: in every history of [set] calls, a cookie that [get] returns
    for a URL is that of one of the calls, with the name, the value, the flags, the time, the path and the
    domain that call asked for, whose host is in the cookie's domain; the requested host is in that domain
    too (the very host that set it, when the cookie named no domain); a cookie that was set as secure goes
    to [https] only, one whose time is over nowhere, and the request path is under the path it was set
    with. *)
Theorem cookie_scope calls now origin c :
  c ∈ jar_get now origin (run_sets calls) ->
  (exists k, k ∈ calls /\ asked_scope (s_origin k) (s_cookie k) c /\
     in_domain c (host (s_origin k)) /\
     (c_domain (s_cookie k) = [] -> to_lower (host origin) = to_lower (host (s_origin k)))) /\
  c_domain c <> [] /\ in_domain c (host origin) /\
  (secure c = true -> scheme origin = lit "https") /\ expired now c = false /\
  (c_path c = lit "/" \/
   exists r, (if nonempty (path origin) then path origin else lit "/") = c_path c ++ r /\
             (r = [] \/ last (c_path c) = Some "/"%char \/ head r = Some "/"%char)).
Proof.
  intros H. apply sort_cookies_elem, list_elem_of_In, filter_In in H as [H Hs].
  apply list_elem_of_In, run_sets_elem in H as (k & Hk & Ha). pose proof (admit_cookie_scope _ _ _ Ha) as Hscope.
  apply admit_cookie_spec in Ha as (_ & _ & _ & _ & _ & A6 & (p & A7) & A8).
  unfold sent_to in Hs.
  apply andb_prop in Hs as [[[He%negb_true_iff [D1 D2]%domain_matches_spec]%andb_prop Hsec]%andb_prop Hp].
  split_and!; [|done|done| |done|].
  - exists k. split_and!; [done..|]. intros Hd. destruct (A8 Hd) as [B1 B2].
    destruct D2 as [D2|[D2 _]]; [|congruence]. by rewrite D2, B2, to_lower_idemp.
  - intros E. rewrite E in Hsec. simpl in Hsec. by apply negb_true_iff, negb_false_iff, eqb_bytes_true in Hsec.
  - apply path_matches_spec in Hp as [E|[E|E]]; [by rewrite A7 in E|by left|by right].
Qed.

(** [get] returns exactly the cookies that apply to the URL, those with longer paths
    first and, among paths of equal length, in the order they were stored. *)
Theorem jar_get_exact now origin (cookies_ : jar) :
  StronglySorted longer (jar_get now origin cookies_) /\
  (forall c, c ∈ jar_get now origin cookies_ <-> c ∈ cookies_ /\ sent_to now origin c = true) /\
  (forall n, List.filter (of_length n) (jar_get now origin cookies_) =
             List.filter (of_length n) (List.filter (sent_to now origin) cookies_)).
Proof.
  unfold jar_get. split_and!.
  - apply sort_cookies_sorted.
  - intros c. by rewrite sort_cookies_elem, list_elem_of_In, filter_In, <- list_elem_of_In.
  - intros n. apply sort_cookies_stable.
Qed.

(** A jar holds one cookie per name, domain and path: after any history, setting an
    accepted cookie replaces the one with its key, keeps all others in order, and only
    deletes when the cookie has expired; a cookie that is not accepted changes nothing. *)
Theorem jar_set_replaces calls now origin c :
  let j := run_sets calls in
  NoDup (map cookie_key (jar_set now origin c j)) /\
  match admit_cookie origin c with
  | None => jar_set now origin c j = j
  | Some c' =>
      jar_set now origin c j =
      List.filter (fun e => negb (bool_decide (cookie_key e = cookie_key c'))) j ++
      (if expired now c' then [] else [c'])
  end.
Proof.
  intros j. split; [apply jar_set_keys, run_sets_keys|]. unfold jar_set.
  destruct (admit_cookie origin c) as [c'|]; [|done].
  assert (E : List.filter (fun e => negb (same_cookie c' e)) j =
              List.filter (fun e => negb (bool_decide (cookie_key e = cookie_key c'))) j).
  { apply List.filter_ext. intros e. f_equal. apply eq_true_iff_eq.
    by rewrite same_cookie_key, bool_decide_eq_true. }
  rewrite E. destruct (expired now c'); [by rewrite app_nil_r|done].
Qed.

(** Stores are isolated: a write, removal or clearing through one session's local or
    session storage acts on that map and on no other, a read returns what its map holds,
    and releasing a session empties its two stores only. *)
Theorem storage_isolation s k i key value :
  let at_ := fun s k' i' => contents k' i' s in
  (forall k' i', at_ (on_store k i (fun st => (tt, kv_set key value st)) s).2 k' i' =
     if decide ((k', i') = (k, i)) then <[key := value]> (at_ s k i) else at_ s k' i') /\
  (forall k' i', at_ (on_store k i (kv_remove key) s).2 k' i' =
     if decide ((k', i') = (k, i)) then delete key (at_ s k i) else at_ s k' i') /\
  (forall k' i', at_ (on_store k i (fun st => (tt, kv_clear st)) s).2 k' i' =
     if decide ((k', i') = (k, i)) then ∅ else at_ s k' i') /\
  (forall k' i', at_ (on_store k i (kv_get key) s).2 k' i' = at_ s k' i') /\
  (on_store k i (kv_get key) s).1 = at_ s k i !! key /\
  (on_store k i (kv_remove key) s).1 = bool_decide (is_Some (at_ s k i !! key)) /\
  (forall k' i', at_ (release_session i s) k' i' = if decide (i' = i) then ∅ else at_ s k' i').
Proof.
  intros at_. subst at_. cbn beta. split_and!.
  - intros k' i'. rewrite on_store_contents. simpl. by rewrite get_store_values.
  - intros k' i'. rewrite on_store_contents. simpl. by rewrite get_store_values.
  - intros k' i'. by rewrite on_store_contents.
  - intros k' i'. rewrite on_store_contents. cbn [kv_get snd]. rewrite values_report, get_store_values.
    by case_decide as E; [injection E as -> ->|].
  - unfold on_store. pose proof (get_store_values k i s) as H. destruct (get_store k i s). simpl in *.
    by rewrite H.
  - unfold on_store. pose proof (get_store_values k i s) as H. destruct (get_store k i s). simpl in *.
    by rewrite H.
  - intros k' i'. unfold contents, release_session. destruct k'; simpl; case_decide as E; subst;
      by rewrite ?lookup_delete_eq, ?lookup_delete_ne by congruence.
Qed.

(** The listener of [set_access_listener] reaches only the stores created after the
    call: a store that exists keeps reporting to the listener it was created under. *)
Theorem access_listener_late s k i l st :
  stores k s !! i = Some st ->
  (get_store k i (set_access_listener l s)).1 = st /\
  (forall k' i', stores k' s !! i' = None ->
     listener_ (get_store k' i' (set_access_listener l s)).1 = l).
Proof.
  intros H. split.
  - unfold get_store. by destruct k; simpl in *; rewrite H.
  - intros k' i' H'. unfold get_store. destruct k'; simpl in *; by rewrite H'.
Qed.

(** ** Witnesses *)

Definition sample_url : Url :=
  {| scheme := lit "https"; userinfo := []; host := lit "Shop.Example.org"; port := [];
     path := lit "/a/b"; query := []; fragment := []; has_authority := true; has_query := false;
     has_fragment := false |}.

Definition sample_cookie : Cookie :=
  {| c_name := lit "n"; c_value := lit "v"; c_domain := lit ".example.org"; c_path := lit "/a";
     secure := true; http_only := false; host_only := false; expires_unix := None; same_site := [] |}.

Definition sample_calls : list set_call :=
  [{| s_now := 0; s_origin := sample_url; s_cookie := sample_cookie |}].

Definition stored_cookie : Cookie := with_domain (lit "example.org") false sample_cookie.

Lemma cookie_scope_witness :
  jar_get 5 sample_url (run_sets sample_calls) = [stored_cookie] /\
  in_domain stored_cookie (host sample_url).
Proof.
  assert (E : jar_get 5 sample_url (run_sets sample_calls) = [stored_cookie]) by (vm_compute; reflexivity).
  split; [exact E|]. apply (cookie_scope sample_calls 5 sample_url stored_cookie).
  rewrite E. constructor.
Defined.

Lemma access_listener_late_witness :
  let s := (get_store Local (lit "s1") new_storage).2 in
  listener_ (get_store Local (lit "s1") (set_access_listener (Some 7) s)).1 = None /\
  listener_ (get_store Local (lit "s2") (set_access_listener (Some 7) s)).1 = Some 7.
Proof.
  intros s. destruct (access_listener_late s Local (lit "s1") (Some 7) (new_store Local new_storage)
                        ltac:(vm_compute; reflexivity)) as [H1 H2].
  split; [by rewrite H1|]. apply H2. vm_compute. reflexivity.
Defined.
