(* ===== verification/Ir.v ===== *)
(** * The page IR: the event model of [src/core/ir_model.cpp], the paths of
    [ir_layout.cpp], the budget and the reader of [event_stream.cpp]

    The walk reads the node store of [Dom].  [std::size_t] arithmetic is written out
    where the code subtracts. *)
From S2P Require Import Prelude Html HtmlTree Dom.

Record ProwseEvent := {
  e_kind : bytes; e_xpath : bytes; e_tag : bytes; e_name : bytes; e_value : bytes;
  e_depth : N; e_attributes : list Attribute; e_subtree_text : bytes }.

Abbreviation ProwseEventStream := (list ProwseEvent).

(** ** [EventStreamBudget] *)

Definition max_event_stream_events : N := 400000.
Definition max_event_stream_bytes : N := 32 * 1024 * 1024.

Record EventStreamBudget := { events_ : N; attributes_ : N; bytes_ : N }.

Definition new_budget : EventStreamBudget := {| events_ := 0; attributes_ := 0; bytes_ := 0 |}.

(** The lambda [charge]. *)
Definition charge (s : bytes) (b : EventStreamBudget) : result EventStreamBudget :=
  let size := N.of_nat (length s) in
  _ ← throw_if (size_sub max_event_stream_bytes (bytes_ b) <? size)%N ResourceLimit;
  Ret {| events_ := events_ b; attributes_ := attributes_ b; bytes_ := bytes_ b + size |}.

(** The strings of an event in the order they are charged. *)
Definition event_strings (e : ProwseEvent) : list bytes :=
  [e_kind e; e_xpath e; e_tag e; e_name e; e_value e; e_subtree_text e] ++
  mjoin (map (fun a => [attr_name a; attr_value a]) (e_attributes e)).

Fixpoint charge_all (l : list bytes) (b : EventStreamBudget) : result EventStreamBudget :=
  match l with
  | [] => Ret b
  | s :: l' => b' ← charge s b; charge_all l' b'
  end.

Definition consume (e : ProwseEvent) (b : EventStreamBudget) : result EventStreamBudget :=
  let size := N.of_nat (length (e_attributes e)) in
  let events := (events_ b + 1)%N in
  _ ← throw_if ((max_event_stream_events <? events)%N ||
                (size_sub max_event_stream_events (attributes_ b) <? size)%N) ResourceLimit;
  charge_all (event_strings e)
    {| events_ := events; attributes_ := attributes_ b + size; bytes_ := bytes_ b |}.

Fixpoint consume_all (l : ProwseEventStream) (b : EventStreamBudget) : result EventStreamBudget :=
  match l with
  | [] => Ret b
  | e :: l' => b' ← consume e b; consume_all l' b'
  end.

(** ** [EventStreamReader] *)

(** The constructor from a stream; the reader holds the stream. *)
Definition event_stream_reader (events : ProwseEventStream) : result ProwseEventStream :=
  _ ← throw_if (max_event_stream_events <? N.of_nat (length events))%N ResourceLimit;
  _ ← consume_all events new_budget;
  Ret events.

Inductive EventStreamAction := Continue | Stop.

Section Replay.
Context {S : Type}.

(** The caller's callback: what it does to the caller's state, and its answer or the
    exception it throws. *)
Variable callback : ProwseEvent -> S -> S * result EventStreamAction.

Fixpoint replay_loop (l : ProwseEventStream) (s : S) : S * result bool :=
  match l with
  | [] => (s, Ret true)
  | e :: l' =>
      match callback e s with
      | (s', Ret Continue) => replay_loop l' s'
      | (s', Ret Stop) => (s', Ret true)
      | (s', Throw x) => (s', Throw x)
      end
  end.

(** [has_callback] is false for an empty [std::function]. *)
Definition replay (has_callback : bool) (max_events : N) (events : ProwseEventStream) (s : S)
  : S * result bool :=
  if negb has_callback then (s, Throw InvalidArgument)
  else if (max_event_stream_events <? max_events)%N then (s, Throw InvalidArgument)
  else if (max_events <? N.of_nat (length events))%N then (s, Ret false)
  else replay_loop events s.

End Replay.

(** ** Layout *)

Definition is_renderable_text (s : bytes) : bool :=
  existsb (fun c => negb ((code c =? 32)%N || (code c =? 9)%N || (code c =? 10)%N || (code c =? 13)%N)) s.

(** The index of a node among its parent's children: elements of the same name in front. *)
Fixpoint elder_count (d : dom) (node : nat) (l : list nat) : N :=
  match l with
  | [] => 0
  | c :: l' =>
      if decide (c = node) then 0
      else (if is_element d c && (name_of d c =s name_of d node) then 1 else 0) + elder_count d node l'
  end%N.

Definition sibling_index (d : dom) (node : nat) : N :=
  match parent_of d node with
  | Some p => 1 + elder_count d node (children_of d p)
  | None => 1
  end%N.

Definition path_segment (d : dom) (node : nat) : bytes :=
  name_of d node ++ lit "[" ++ print_N (sibling_index d node) ++ lit "]".

Definition is_document (d : dom) (i : nat) : bool :=
  match nodes d !! i with Some n => bool_decide (n_type n = Document) | None => false end.

(** The loop over the chain of parents: segments of the elements, the innermost first; it
    stops below a document. *)
Fixpoint path_segments (d : dom) (up : list nat) : list bytes :=
  match up with
  | [] => []
  | i :: up' =>
      (if is_element d i then [path_segment d i] else []) ++
      match up' with
      | p :: _ => if is_document d p then [] else path_segments d up'
      | [] => []
      end
  end.

Definition join_path (segments : list bytes) : bytes :=
  mjoin ((fun s => "/"%char :: s) <$> reverse segments).

Definition element_path (d : dom) (node : nat) : bytes :=
  if is_element d node then join_path (path_segments d (self_and_ancestors d node)) else [].

Definition tag_from_path (path : bytes) : bytes :=
  match find_last_if (fun c => c =c "/") path with
  | None => []
  | Some slash =>
      let segment := drop (S slash) path in
      if negb (nonempty segment) then []
      else if starts_with (lit "text()") segment || starts_with (lit "@") segment then []
      else match find_if (fun c => c =c "[") segment with
           | Some bracket => take bracket segment
           | None => segment
           end
  end.

Definition is_within_scope (candidate scope : bytes) : bool :=
  (candidate =s scope) ||
  ((length scope <? length candidate)%nat && starts_with scope candidate &&
   match candidate !! length scope with Some c => c =c "/" | None => false end).

(** ** The model *)

Record IrBuild := {
  b_budget : EventStreamBudget; b_events : ProwseEventStream; node_paths : gmap nat bytes }.

Definition empty_build : IrBuild :=
  {| b_budget := new_budget; b_events := []; node_paths := ∅ |}.

Definition push_event (e : ProwseEvent) (out : IrBuild) : result IrBuild :=
  budget ← consume e (b_budget out);
  Ret {| b_budget := budget; b_events := b_events out ++ [e]; node_paths := node_paths out |}.

Fixpoint push_events (l : ProwseEventStream) (out : IrBuild) : result IrBuild :=
  match l with
  | [] => Ret out
  | e :: l' => out' ← push_event e out; push_events l' out'
  end.

Definition make_event (kind xpath tag name value : bytes) (depth : N) : ProwseEvent :=
  {| e_kind := kind; e_xpath := xpath; e_tag := tag; e_name := name; e_value := value;
     e_depth := depth; e_attributes := []; e_subtree_text := [] |}.

Definition record_path (node : nat) (path : bytes) (out : IrBuild) : IrBuild :=
  {| b_budget := b_budget out; b_events := b_events out; node_paths := <[node := path]> (node_paths out) |}.

Definition attributes_of (d : dom) (i : nat) : list Attribute := from_option n_attributes [] (nodes d !! i).
Definition node_text (d : dom) (i : nat) : bytes := from_option n_text [] (nodes d !! i).
Definition is_text_node (d : dom) (i : nat) : bool :=
  match nodes d !! i with Some n => bool_decide (n_type n = Text) | None => false end.

Definition start_event (d : dom) (node : nat) (depth : N) : ProwseEvent :=
  {| e_kind := lit "start"; e_xpath := element_path d node; e_tag := name_of d node; e_name := [];
     e_value := []; e_depth := depth; e_attributes := attributes_of d node;
     e_subtree_text := element_text d node |}.

Definition attribute_event (d : dom) (node : nat) (depth : N) (a : Attribute) : ProwseEvent :=
  make_event (lit "attribute") (element_path d node) (name_of d node) (attr_name a) (attr_value a) depth.

Definition text_event (d : dom) (node : nat) (depth index : N) (child : nat) : ProwseEvent :=
  make_event (lit "text") (element_path d node ++ lit "/text()[" ++ print_N index ++ lit "]")
    (name_of d node) [] (node_text d child) (depth + 1).

Definition end_event (d : dom) (node : nat) (depth : N) : ProwseEvent :=
  make_event (lit "end") (element_path d node) (name_of d node) [] [] depth.

(** The children of an element; [walk] is the recursive call one level deeper. *)
Fixpoint walk_children (d : dom) (walk : nat -> IrBuild -> result IrBuild) (node : nat) (depth index : N)
  (l : list nat) (out : IrBuild) : result IrBuild :=
  match l with
  | [] => Ret out
  | c :: l' =>
      if is_text_node d c && is_renderable_text (node_text d c) then
        out1 ← push_event (text_event d node depth (index + 1) c) out;
        walk_children d walk node depth (index + 1) l' out1
      else if is_element d c then
        out1 ← walk c out; walk_children d walk node depth index l' out1
      else walk_children d walk node depth index l' out
  end.

Fixpoint walk_all (walk : nat -> IrBuild -> result IrBuild) (l : list nat) (out : IrBuild) : result IrBuild :=
  match l with
  | [] => Ret out
  | c :: l' => out1 ← walk c out; walk_all walk l' out1
  end.

(** The number of nodes bounds the recursion. *)
Fixpoint walk_tree (fuel : nat) (d : dom) (node : nat) (depth : N) (out : IrBuild) : result IrBuild :=
  match fuel with
  | O => Throw Internal
  | S fuel' =>
      if is_document d node then
        walk_all (fun c => walk_tree fuel' d c depth) (children_of d node) out
      else if negb (is_element d node) then Ret out
      else
        _ ← throw_if ((256 <=? depth)%N ||
                      (max_event_stream_events <? N.of_nat (length (attributes_of d node)))%N) ResourceLimit;
        let out1 := record_path node (element_path d node) out in
        out2 ← push_event (start_event d node depth) out1;
        out3 ← push_events (map (attribute_event d node depth) (attributes_of d node)) out2;
        out4 ← walk_children d (fun c => walk_tree fuel' d c (depth + 1)) node depth 0 (children_of d node) out3;
        push_event (end_event d node depth) out4
  end.

Definition build_ir (d : dom) (root : nat) : result IrBuild :=
  walk_tree (size (nodes d)) d root 0 empty_build.

Definition emit_prowse_events (d : dom) (root : nat) : result ProwseEventStream :=
  build ← build_ir d root; Ret (b_events build).

Record ProwseDomNode := {
  pd_xpath : bytes; pd_tag : bytes; pd_text : bytes; pd_attributes : list Attribute; pd_depth : N }.

Definition dom_node_of (e : ProwseEvent) : ProwseDomNode :=
  {| pd_xpath := e_xpath e; pd_tag := e_tag e; pd_text := e_subtree_text e;
     pd_attributes := e_attributes e; pd_depth := e_depth e |}.

Definition is_start (e : ProwseEvent) : bool := e_kind e =s lit "start".

Definition emit_prowse_dom (d : dom) (root : nat) : result (list ProwseDomNode) :=
  events ← emit_prowse_events d root;
  Ret (map dom_node_of (List.filter is_start events)).

Example build_ex :
  (events ← emit_prowse_events sample 0; Ret (map (fun e => (e_kind e, e_xpath e, e_depth e)) events)) =
  Ret [(lit "start", lit "/div[1]", 0); (lit "text", lit "/div[1]/text()[1]", 1);
       (lit "start", lit "/div[1]/p[1]", 1); (lit "attribute", lit "/div[1]/p[1]", 1);
       (lit "end", lit "/div[1]/p[1]", 1); (lit "start", lit "/div[1]/b[1]", 1);
       (lit "end", lit "/div[1]/b[1]", 1); (lit "end", lit "/div[1]", 0)]%N.
Proof. vm_compute. reflexivity. Qed.

(** ** The budget *)

Definition total_attributes (l : ProwseEventStream) : N :=
  sumN (fun e => N.of_nat (length (e_attributes e))) l.
Definition total_bytes (l : ProwseEventStream) : N :=
  sumN (fun e => sumN (fun s => N.of_nat (length s)) (event_strings e)) l.

Definition budget_ok (b : EventStreamBudget) : Prop :=
  (events_ b <= max_event_stream_events /\ attributes_ b <= max_event_stream_events /\
   bytes_ b <= max_event_stream_bytes)%N.

Lemma charge_all_spec l b :
  (bytes_ b <= max_event_stream_bytes)%N ->
  let total := (bytes_ b + sumN (fun s => N.of_nat (length s)) l)%N in
  charge_all l b =
  if (total <=? max_event_stream_bytes)%N
  then Ret {| events_ := events_ b; attributes_ := attributes_ b; bytes_ := total |}
  else Throw ResourceLimit.
Proof.
  revert b. unfold sumN. induction l as [|s l IH]; intros b Hb; cbn zeta; cbn [charge_all foldr].
  - rewrite N.add_0_r, (proj2 (N.leb_le _ _) Hb). by destruct b.
  - unfold charge at 1. rewrite size_sub_exact by done. unfold throw_if.
    destruct (N.ltb_spec (max_event_stream_bytes - bytes_ b) (N.of_nat (length s))) as [H|H].
    + cbn [mbind result_bind]. destruct (N.leb_spec (bytes_ b + (N.of_nat (length s) + foldr (fun x n => (N.of_nat (length x) + n)%N) 0%N l)) max_event_stream_bytes); [lia|done].
    + cbn [mbind result_bind]. rewrite IH by (cbn [bytes_]; lia). cbn [events_ attributes_ bytes_].
      by rewrite N.add_assoc.
Qed.

Lemma consume_spec e b :
  budget_ok b ->
  let b' := {| events_ := events_ b + 1; attributes_ := attributes_ b + total_attributes [e];
               bytes_ := bytes_ b + total_bytes [e] |}%N in
  budget_ok b' /\ consume e b = Ret b' \/ ~ budget_ok b' /\ consume e b = Throw ResourceLimit.
Proof.
  intros (H1 & H2 & H3) b'. unfold consume, budget_ok. rewrite size_sub_exact by done.
  assert (Ea : total_attributes [e] = N.of_nat (length (e_attributes e)))
    by (unfold total_attributes, sumN; cbn [foldr]; lia).
  assert (Eb : total_bytes [e] = sumN (fun s => N.of_nat (length s)) (event_strings e))
    by (unfold total_bytes, sumN at 1; cbn [foldr]; lia).
  subst b'. rewrite Ea, Eb. cbn [events_ attributes_ bytes_]. unfold throw_if.
  destruct (N.ltb_spec max_event_stream_events (events_ b + 1)); cbn [orb mbind result_bind];
    [right; split; [lia|done]|].
  destruct (N.ltb_spec (max_event_stream_events - attributes_ b) (N.of_nat (length (e_attributes e))));
    cbn [mbind result_bind]; [right; split; [lia|done]|].
  rewrite charge_all_spec by done. cbn [events_ attributes_ bytes_].
  destruct (N.leb_spec (bytes_ b + sumN (fun s => N.of_nat (length s)) (event_strings e)) max_event_stream_bytes).
  - left. split; [lia|done].
  - right. split; [lia|done].
Qed.

Lemma total_attributes_cons e l : total_attributes (e :: l) = (total_attributes [e] + total_attributes l)%N.
Proof. unfold total_attributes, sumN. cbn [foldr]. lia. Qed.

Lemma total_bytes_cons e l : total_bytes (e :: l) = (total_bytes [e] + total_bytes l)%N.
Proof. unfold total_bytes, sumN at 1 3. cbn [foldr]. unfold sumN at 4. cbn [foldr]. lia. Qed.

Lemma consume_all_spec l b :
  budget_ok b ->
  let b' := {| events_ := events_ b + N.of_nat (length l); attributes_ := attributes_ b + total_attributes l;
               bytes_ := bytes_ b + total_bytes l |}%N in
  budget_ok b' /\ consume_all l b = Ret b' \/ ~ budget_ok b' /\ consume_all l b = Throw ResourceLimit.
Proof.
  revert b. induction l as [|e l IH]; intros b Hb b'; subst b'.
  - left. unfold total_attributes, total_bytes, sumN. cbn [foldr length consume_all N.of_nat].
    rewrite !N.add_0_r. by destruct b.
  - rewrite (total_attributes_cons e l), (total_bytes_cons e l). cbn [consume_all length].
    destruct (consume_spec e b Hb) as [[H1 ->]|[H1 ->]]; cbn [mbind result_bind].
    + destruct (IH _ H1) as [[H2 H3]|[H2 H3]]; cbn [events_ attributes_ bytes_] in *.
      * left. rewrite !N.add_assoc, Nat2N.inj_succ, <- N.add_1_l, N.add_assoc. done.
      * right. rewrite !N.add_assoc, Nat2N.inj_succ, <- N.add_1_l, N.add_assoc. done.
    + right. split; [|done]. unfold budget_ok in *. cbn [events_ attributes_ bytes_] in *. lia.
Qed.

(** ** Replaying *)

(** The events the callback is given: up to the first it stops at (or throws at). *)
Fixpoint delivered {S} (callback : ProwseEvent -> S -> S * result EventStreamAction)
  (l : ProwseEventStream) (s : S) : ProwseEventStream :=
  match l with
  | [] => []
  | e :: l' => e :: match callback e s with
                    | (s', Ret Continue) => delivered callback l' s'
                    | _ => []
                    end
  end.

Lemma delivered_prefix {S} callback l (s : S) : exists rest, l = delivered callback l s ++ rest.
Proof.
  revert s. induction l as [|e l IH]; intros s; [by exists []|]. simpl.
  destruct (callback e s) as [s' [[]|]]; [|by exists l..].
  destruct (IH s') as [rest H]. exists rest. by rewrite <- H.
Qed.

(** ** The walk, without the budget *)

Fixpoint children_events (d : dom) (walk : nat -> ProwseEventStream) (node : nat) (depth index : N)
  (l : list nat) : ProwseEventStream :=
  match l with
  | [] => []
  | c :: l' =>
      if is_text_node d c && is_renderable_text (node_text d c) then
        text_event d node depth (index + 1) c :: children_events d walk node depth (index + 1) l'
      else if is_element d c then walk c ++ children_events d walk node depth index l'
      else children_events d walk node depth index l'
  end.

Fixpoint node_events (fuel : nat) (d : dom) (node : nat) (depth : N) : ProwseEventStream :=
  match fuel with
  | O => []
  | S fuel' =>
      if is_document d node then mjoin (map (fun c => node_events fuel' d c depth) (children_of d node))
      else if negb (is_element d node) then []
      else
        start_event d node depth :: map (attribute_event d node depth) (attributes_of d node) ++
        children_events d (fun c => node_events fuel' d c (depth + 1)) node depth 0 (children_of d node) ++
        [end_event d node depth]
  end.

(** [extends out l m]: [m] appends the events [l] within the budget, or reports that the
    budget or the depth is exceeded. *)
Definition extends (out : IrBuild) (l : ProwseEventStream) (m : result IrBuild) : Prop :=
  match m with
  | Ret out' => b_events out' = b_events out ++ l /\ consume_all l (b_budget out) = Ret (b_budget out')
  | Throw e => e = ResourceLimit
  end.

Lemma consume_all_app l1 l2 b :
  consume_all (l1 ++ l2) b = b' ← consume_all l1 b; consume_all l2 b'.
Proof. revert b. induction l1 as [|e l1 IH]; intros b; [done|]. simpl. by destruct (consume e b); simpl. Qed.

Lemma extends_bind out l1 l2 m k :
  budget_ok (b_budget out) ->
  extends out l1 m ->
  (forall out', budget_ok (b_budget out') -> extends out' l2 (k out')) ->
  extends out (l1 ++ l2) (x ← m; k x).
Proof.
  intros Hb. destruct m as [out'|e]; simpl; [|done]. intros [H1 H2] Hk.
  assert (Hb' : budget_ok (b_budget out')).
  { destruct (consume_all_spec l1 (b_budget out) Hb) as [[H3 H4]|[_ H4]]; rewrite H4 in H2; [|done].
    by injection H2 as <-. }
  specialize (Hk out' Hb'). destruct (k out') as [out''|e]; simpl in *; [|done].
  destruct Hk as [H3 H4]. rewrite consume_all_app, H2. simpl. by rewrite H3, H1, app_assoc.
Qed.

Lemma push_event_extends e out : budget_ok (b_budget out) -> extends out [e] (push_event e out).
Proof.
  intros Hb. unfold push_event, extends. destruct (consume_spec e (b_budget out) Hb) as [[_ H]|[_ H]];
    cbn [consume_all]; rewrite H; done.
Qed.

Lemma extends_nil out : extends out [] (Ret out).
Proof. unfold extends. by rewrite app_nil_r. Qed.

Lemma push_events_extends l out : budget_ok (b_budget out) -> extends out l (push_events l out).
Proof.
  revert out. induction l as [|e l IH]; intros out Hb; [apply extends_nil|].
  apply (extends_bind out [e] l); [done|by apply push_event_extends|auto].
Qed.

Lemma walk_children_extends d walk events node depth index l out :
  (forall c out, c ∈ l -> budget_ok (b_budget out) -> extends out (events c) (walk c out)) ->
  budget_ok (b_budget out) ->
  extends out (children_events d events node depth index l) (walk_children d walk node depth index l out).
Proof.
  revert index out. induction l as [|c l IH]; intros index out Hw Hb; [apply extends_nil|].
  assert (Hl : forall c' out, c' ∈ l -> budget_ok (b_budget out) -> extends out (events c') (walk c' out))
    by (intros; apply Hw; [by constructor|done]).
  cbn [children_events walk_children]. destruct (is_text_node d c && _).
  - apply (extends_bind out [_] _); [done|by apply push_event_extends|auto].
  - destruct (is_element d c); [|auto]. apply extends_bind; [done|apply Hw; [by constructor|done]|auto].
Qed.

Lemma walk_all_extends walk events l out :
  (forall c out, c ∈ l -> budget_ok (b_budget out) -> extends out (events c) (walk c out)) ->
  budget_ok (b_budget out) -> extends out (mjoin (map events l)) (walk_all walk l out).
Proof.
  revert out. induction l as [|c l IH]; intros out Hw Hb; [apply extends_nil|].
  cbn [walk_all map]. change (mjoin (?x :: ?y)) with (x ++ mjoin y).
  apply extends_bind; [done|apply Hw; [by constructor|done]|]. intros out' Hb'. apply IH; [|done].
  intros. apply Hw; [by constructor|done].
Qed.

Section Walk.
Context (d : dom) (Hwf : dom_wf d).

Lemma walk_tree_extends fuel node depth out :
  is_Some (nodes d !! node) -> size (nodes d) < fuel + depth_of d node ->
  budget_ok (b_budget out) ->
  extends out (node_events fuel d node depth) (walk_tree fuel d node depth out).
Proof using Hwf.
  revert node depth out. induction fuel as [|fuel IH]; intros node depth out Hn Hf Hb.
  { pose proof (chain_length d Hwf (size (nodes d)) node Hn) as H.
    unfold depth_of, self_and_ancestors in Hf. lia. }
  assert (Hc : forall c dep out, c ∈ children_of d node -> budget_ok (b_budget out) ->
                 extends out (node_events fuel d c dep) (walk_tree fuel d c dep out)).
  { intros c dep o Hin Ho. destruct (children_depth d Hwf node c Hin) as (H1 & _ & H2).
    apply IH; [done|lia|done]. }
  cbn [node_events walk_tree]. destruct (is_document d node).
  { apply walk_all_extends; auto. }
  destruct (is_element d node); cbn [negb]; [|apply extends_nil].
  destruct (_ || _); [done|]. cbn [throw_if mbind result_bind].
  set (out1 := record_path node (element_path d node) out).
  change (extends out1 (([start_event d node depth] ++ map (attribute_event d node depth) (attributes_of d node) ++
    children_events d (fun c => node_events fuel d c (depth + 1)) node depth 0 (children_of d node) ++
    [end_event d node depth])) (out2 ← push_event (start_event d node depth) out1;
        out3 ← push_events (map (attribute_event d node depth) (attributes_of d node)) out2;
        out4 ← walk_children d (fun c => walk_tree fuel d c (depth + 1)) node depth 0 (children_of d node) out3;
        push_event (end_event d node depth) out4)).
  apply extends_bind; [done|by apply push_event_extends|]. intros out2 Hb2.
  apply extends_bind; [done|by apply push_events_extends|]. intros out3 Hb3.
  apply extends_bind; [done|by apply walk_children_extends; auto|]. intros out4 Hb4.
  by apply push_event_extends.
Qed.

Definition page_events (root : nat) : ProwseEventStream := node_events (size (nodes d)) d root 0.

Lemma build_ir_spec root :
  is_Some (nodes d !! root) -> parent_of d root = None ->
  match build_ir d root with
  | Ret b => b_events b = page_events root /\ consume_all (page_events root) new_budget = Ret (b_budget b)
  | Throw e => e = ResourceLimit
  end.
Proof using Hwf.
  intros Hr Hp. pose proof (depth_of_pos d root Hr) as Hd.
  assert (Hb : budget_ok (b_budget empty_build)) by (unfold budget_ok; simpl; lia).
  pose proof (walk_tree_extends (size (nodes d)) root 0 empty_build Hr ltac:(lia) Hb) as H.
  unfold build_ir. fold (page_events root) in H. destruct (walk_tree _ _ _ _ _); [|exact H].
  exact H.
Qed.

End Walk.

(** ** Nesting *)

(** A stack machine over the event stream: every event names the innermost open element,
    at its depth; an [end] closes it. *)
Fixpoint nested (open : list (bytes * bytes)) (l : ProwseEventStream) : bool :=
  match l with
  | [] => match open with [] => true | _ => false end
  | e :: l' =>
      if e_kind e =s lit "start" then
        (e_depth e =? N.of_nat (length open))%N && nested ((e_xpath e, e_tag e) :: open) l'
      else
        match open with
        | [] => false
        | (path, name) :: open' =>
            (e_tag e =s name) &&
            if e_kind e =s lit "end" then
              (e_xpath e =s path) && (e_depth e =? N.of_nat (length open'))%N && nested open' l'
            else if e_kind e =s lit "attribute" then
              (e_xpath e =s path) && (e_depth e =? N.of_nat (length open'))%N && nested open l'
            else
              (e_kind e =s lit "text") && is_within_scope (e_xpath e) path &&
              (e_depth e =? N.of_nat (length open))%N && nested open l'
        end
  end.

Lemma nested_attributes d node depth attrs open k :
  depth = N.of_nat (length open) ->
  nested ((element_path d node, name_of d node) :: open) (map (attribute_event d node depth) attrs ++ k) =
  nested ((element_path d node, name_of d node) :: open) k.
Proof.
  intros ->. induction attrs as [|a attrs IH]; [done|]. cbn [map app nested].
  change (e_kind (attribute_event d node (N.of_nat (length open)) a)) with (lit "attribute").
  change (lit "attribute" =s lit "start") with false. change (lit "attribute" =s lit "end") with false.
  change (lit "attribute" =s lit "attribute") with true. cbn [e_tag attribute_event make_event e_xpath e_depth].
  by rewrite !eqb_bytes_refl, N.eqb_refl.
Qed.

Lemma scope_app p s : is_within_scope (p ++ "/"%char :: s) p = true.
Proof.
  unfold is_within_scope. rewrite length_app. cbn [length].
  rewrite (proj2 (Nat.ltb_lt _ _)) by lia. rewrite starts_with_app, list_lookup_middle by done.
  by rewrite orb_true_r.
Qed.

Lemma nested_children d walk node depth index l open k :
  (forall c k, c ∈ l -> is_element d c = true ->
     nested ((element_path d node, name_of d node) :: open) (walk c ++ k) =
     nested ((element_path d node, name_of d node) :: open) k) ->
  depth = N.of_nat (length open) ->
  nested ((element_path d node, name_of d node) :: open) (children_events d walk node depth index l ++ k) =
  nested ((element_path d node, name_of d node) :: open) k.
Proof.
  intros Hw ->. revert index. induction l as [|c l IH]; intros index; [done|].
  assert (Hl : forall index, nested ((element_path d node, name_of d node) :: open)
            (children_events d walk node (N.of_nat (length open)) index l ++ k) =
            nested ((element_path d node, name_of d node) :: open) k).
  { intros i. apply IH. intros. apply Hw; [by constructor|done]. }
  cbn [children_events]. destruct (is_text_node d c && _).
  - cbn [app nested]. change (e_kind (text_event d node (N.of_nat (length open)) (index + 1) c)) with (lit "text").
    change (lit "text" =s lit "start") with false. change (lit "text" =s lit "end") with false.
    change (lit "text" =s lit "attribute") with false. change (lit "text" =s lit "text") with true.
    cbn [e_tag text_event make_event e_xpath e_depth andb]. rewrite eqb_bytes_refl.
    change (lit "/text()[" ++ ?x) with ("/"%char :: lit "text()[" ++ x). rewrite scope_app. cbn [andb].
    rewrite (proj2 (N.eqb_eq _ _)) by (cbn [length]; lia). apply Hl.
  - destruct (is_element d c) eqn:Ee; [|apply Hl]. rewrite <- app_assoc, Hw; [apply Hl|by constructor|done].
Qed.

Lemma nested_node d fuel node depth open k :
  depth = N.of_nat (length open) ->
  nested open (node_events fuel d node depth ++ k) = nested open k.
Proof.
  revert node depth open k. induction fuel as [|fuel IH]; intros node depth open k Hd; [done|].
  cbn [node_events]. destruct (is_document d node).
  { induction (children_of d node) as [|c l IHl]; [done|]. cbn [map].
    change (mjoin (?x :: ?y)) with (x ++ mjoin y). rewrite <- app_assoc, IH by done. apply IHl. }
  destruct (is_element d node); [|done]. cbn [negb app nested].
  change (e_kind (start_event d node depth)) with (lit "start"). change (lit "start" =s lit "start") with true.
  cbn [e_depth start_event e_xpath e_tag]. rewrite Hd, N.eqb_refl. cbn [andb].
  rewrite <- !app_assoc, nested_attributes by done. rewrite nested_children; [|intros; apply IH; cbn [length]; lia|done].
  cbn [app nested]. change (e_kind (end_event d node (N.of_nat (length open)))) with (lit "end").
  change (lit "end" =s lit "start") with false. change (lit "end" =s lit "end") with true.
  cbn [e_tag end_event make_event e_xpath e_depth]. by rewrite !eqb_bytes_refl, N.eqb_refl.
Qed.

(** ** The start events are the elements in document order *)

(** Only elements and documents have children, and no document is a child. *)
Definition page_shape (d : dom) : Prop :=
  (forall i, is_element d i = false -> is_document d i = false -> children_of d i = []) /\
  (forall i c, c ∈ children_of d i -> is_document d c = false).

Definition snapshot_of (e : ProwseEvent) : bytes * bytes * bytes * list Attribute :=
  (e_xpath e, e_tag e, e_subtree_text e, e_attributes e).

Definition snapshot_at (d : dom) (i : nat) : bytes * bytes * bytes * list Attribute :=
  (element_path d i, name_of d i, element_text d i, attributes_of d i).

Definition starts (l : ProwseEventStream) := map snapshot_of (List.filter is_start l).

Lemma starts_app l1 l2 : starts (l1 ++ l2) = starts l1 ++ starts l2.
Proof. unfold starts. by rewrite List.filter_app, map_app. Qed.

Lemma starts_attributes d node depth attrs : starts (map (attribute_event d node depth) attrs) = [].
Proof. by induction attrs. Qed.

Lemma mjoin_cons {A} (x : list A) (y : list (list A)) : mjoin (x :: y) = x ++ mjoin y.
Proof. done. Qed.

Lemma starts_children d walk node depth index l (q : nat -> list nat) :
  (forall c, c ∈ l -> is_document d c = false) ->
  (forall c, c ∈ l -> is_element d c = true ->
     starts (walk c) = map (snapshot_at d) (List.filter (is_element d) (q c))) ->
  (forall c, c ∈ l -> is_element d c = false -> List.filter (is_element d) (q c) = []) ->
  starts (children_events d walk node depth index l) =
  map (snapshot_at d) (List.filter (is_element d) (mjoin (map q l))).
Proof.
  intros Hd Hw Hq. revert index. induction l as [|c l IH]; intros index; [done|].
  assert (Hl : forall index, starts (children_events d walk node depth index l) =
                 map (snapshot_at d) (List.filter (is_element d) (mjoin (map q l)))).
  { intros i. apply IH; intros; [apply Hd|apply Hw|apply Hq]; (done || by constructor). }
  cbn [children_events map]. rewrite mjoin_cons, List.filter_app, map_app.
  destruct (is_element d c) eqn:Ee.
  - assert (is_text_node d c = false) as ->.
    { unfold is_element, is_text_node in *. destruct (nodes d !! c); [|done].
      apply bool_decide_eq_true in Ee. by rewrite Ee. }
    cbn [andb]. rewrite starts_app, Hl, Hw; [done|by constructor|done].
  - rewrite (Hq c); [|by constructor|done]. cbn [map app].
    destruct (is_text_node d c && _); [|apply Hl]. exact (Hl _).
Qed.

Lemma starts_node d fuel node depth :
  page_shape d ->
  starts (node_events fuel d node depth) =
  map (snapshot_at d) (List.filter (is_element d) (preorder fuel d node)).
Proof.
  intros [Hs1 Hs2]. revert node depth. induction fuel as [|fuel IH]; intros node depth; [done|].
  cbn [node_events preorder List.filter]. destruct (is_document d node) eqn:Ed.
  - assert (is_element d node = false) as ->.
    { unfold is_element, is_document in *. destruct (nodes d !! node); [|done].
      apply bool_decide_eq_true in Ed. by rewrite Ed. }
    clear Ed. induction (children_of d node) as [|c l IHl]; [done|]. cbn [map].
    rewrite !mjoin_cons, starts_app, List.filter_app, map_app, IH, IHl. done.
  - destruct (is_element d node) eqn:Ee; cbn [negb].
    + change (?x :: ?y ++ ?z) with ([x] ++ y ++ z). rewrite !starts_app, starts_attributes.
      change (starts [start_event d node depth]) with [snapshot_at d node].
      change (starts [end_event d node depth]) with (@nil (bytes * bytes * bytes * list Attribute)).
      rewrite app_nil_r. cbn [app map]. f_equal. apply starts_children.
      * intros c. apply Hs2.
      * intros c _ _. apply IH.
      * intros c Hc He. destruct fuel as [|fuel]; [done|]. cbn [preorder List.filter].
        rewrite He, (Hs1 c He (Hs2 node c Hc)). done.
    + rewrite (Hs1 node Ee Ed). done.
Qed.

(** ** Paths identify elements *)

Definition no_slash (s : bytes) : bool := none (fun c => c =c "/") s.

Lemma digits_no_slash s : forallb is_digit s = true -> no_slash s = true.
Proof.
  unfold no_slash. induction s as [|c s IH]; simpl; [done|]. intros [Hc Hs]%andb_prop.
  rewrite IH by done. rewrite andb_true_r. revert Hc. by_ascii c.
Qed.

Lemma digits_no_bracket s :
  forallb is_digit s = true -> none (fun c => c =c "[") (s ++ lit "]") = true.
Proof.
  rewrite none_app. intros Hs. rewrite andb_true_r. induction s as [|c s IH]; simpl in *; [done|].
  apply andb_prop in Hs as [Hc Hs]. rewrite IH by done. rewrite andb_true_r. revert Hc. by_ascii c.
Qed.

Lemma segment_inj d i j : path_segment d i = path_segment d j ->
  name_of d i = name_of d j /\ sibling_index d i = sibling_index d j.
Proof.
  unfold path_segment. change (lit "[" ++ ?x) with ("["%char :: x). intros H.
  destruct (print_N_spec (sibling_index d i)) as [Hi _].
  destruct (print_N_spec (sibling_index d j)) as [Hj _].
  assert (Hl : length (name_of d i) = length (name_of d j)).
  { apply (f_equal (find_last_if (fun c => c =c "["))) in H.
    rewrite !find_last_if_mid in H; [congruence|done|by apply digits_no_bracket|done|by apply digits_no_bracket]. }
  apply app_inj_1 in H as [Hn H]; [|exact Hl]. split; [done|]. injection H as H.
  apply app_inj_2 in H as [H _]; [|done]. by apply print_N_inj.
Qed.

Lemma segment_no_slash d i : no_slash (name_of d i) = true -> no_slash (path_segment d i) = true.
Proof.
  intros H. unfold path_segment, no_slash in *. rewrite !none_app, H.
  destruct (print_N_spec (sibling_index d i)) as [Hi _].
  pose proof (digits_no_slash _ Hi) as Hs. unfold no_slash in Hs. by rewrite Hs.
Qed.

Lemma join_slash_inj l1 l2 :
  forallb no_slash l1 = true -> forallb no_slash l2 = true ->
  mjoin ((fun s => "/"%char :: s) <$> l1) = mjoin ((fun s => "/"%char :: s) <$> l2) -> l1 = l2.
Proof.
  revert l2. induction l1 as [|a l1 IH]; intros [|b l2] H1 H2; try done.
  rewrite !mjoin_fmap_cons. cbn [app]. intros [= H]. simpl in H1, H2. split_andb.
  assert (Hh : forall l, head_is (fun c => c =c "/") (mjoin ((fun s => "/"%char :: s) <$> l)) = true) by by intros [].
  assert (Hl : length a = length b).
  { pose proof (f_equal (find_if (fun c => c =c "/")) H) as Hf.
    rewrite !find_if_head in Hf by auto.
    pose proof (f_equal length H) as Hlen. rewrite !length_app in Hlen.
    destruct (mjoin (_ <$> l1)), (mjoin (_ <$> l2)); simpl in *; try done; [lia|congruence]. }
  apply app_inj_1 in H as [-> H]; [|done]. f_equal. by apply IH.
Qed.

Definition count_named (d : dom) (name : bytes) (l : list nat) : N :=
  sumN (fun c => if is_element d c && (name_of d c =s name) then 1 else 0)%N l.

Lemma elder_count_spec d node l1 l2 :
  node ∉ l1 -> elder_count d node (l1 ++ node :: l2) = count_named d (name_of d node) l1.
Proof.
  induction l1 as [|c l1 IH]; intros Hn; cbn [app elder_count]; [by rewrite decide_True|].
  rewrite decide_False by set_solver. rewrite IH by set_solver. done.
Qed.

Lemma elder_count_lt d i j l :
  NoDup l -> i ∈ l -> j ∈ l -> i <> j -> is_element d i = true -> is_element d j = true ->
  name_of d i = name_of d j -> elder_count d i l <> elder_count d j l.
Proof.
  assert (Hlt : forall i j l1 l2 l3, NoDup (l1 ++ i :: l2 ++ j :: l3) -> is_element d i = true ->
            name_of d i = name_of d j ->
            (elder_count d i (l1 ++ i :: l2 ++ j :: l3) < elder_count d j (l1 ++ i :: l2 ++ j :: l3))%N).
  { clear. intros i j l1 l2 l3 Hnd Hi Hn. apply NoDup_app in Hnd as (_ & H1 & H2).
    apply NoDup_cons in H2 as [H2 H3]. apply NoDup_app in H3 as (_ & H3 & _).
    rewrite elder_count_spec by (intros H; apply (H1 i H); constructor).
    assert (E : l1 ++ i :: l2 ++ j :: l3 = (l1 ++ i :: l2) ++ j :: l3) by (by rewrite <- app_assoc).
    rewrite E, elder_count_spec.
    - rewrite Hn. unfold count_named. rewrite sumN_app. unfold sumN at 3. cbn [foldr].
      rewrite Hi, Hn, eqb_bytes_refl. cbn [andb]. lia.
    - intros [H|[->|H]%elem_of_cons]%elem_of_app.
      + apply (H1 j H). set_solver.
      + apply H2. set_solver.
      + apply (H3 j H). constructor. }
  intros Hnd Hi Hj Hij Hei Hej Hn. apply list_elem_of_split in Hi as (l1 & l2 & ->).
  apply elem_of_app in Hj as [Hj|[->|Hj]%elem_of_cons]; [|done|].
  - apply list_elem_of_split in Hj as (l3 & l4 & ->). rewrite <- app_assoc in *. cbn [app] in *.
    pose proof (Hlt j i l3 l4 l2 Hnd Hej (eq_sym Hn)). lia.
  - apply list_elem_of_split in Hj as (l3 & l4 & ->). pose proof (Hlt i j l1 l3 l4 Hnd Hei Hn). lia.
Qed.

Section Paths.
Context (d : dom) (Hwf : dom_wf d).

Definition segments_of (i : nat) : list bytes := path_segments d (self_and_ancestors d i).

Lemma self_and_ancestors_cons i :
  is_Some (nodes d !! i) ->
  self_and_ancestors d i = i :: match parent_of d i with Some p => self_and_ancestors d p | None => [] end.
Proof using Hwf.
  intros Hi. unfold self_and_ancestors. rewrite <- (chain_full_size d Hwf i Hi). done.
Qed.

Lemma segments_of_eq i :
  is_Some (nodes d !! i) -> is_element d i = true ->
  segments_of i = path_segment d i ::
    match parent_of d i with
    | Some p => if is_document d p then [] else segments_of p
    | None => []
    end.
Proof using Hwf.
  intros Hi He. unfold segments_of. rewrite self_and_ancestors_cons by done. cbn [path_segments].
  rewrite He. cbn [app]. f_equal. destruct (parent_of d i) as [p|] eqn:Hp; [|done].
  destruct (parent_in_store d Hwf i p Hp) as [_ Hps]. by rewrite self_and_ancestors_cons.
Qed.

(** [i] is an element and everything above it up to the document [r] is one. *)
Definition in_page (r i : nat) : Prop :=
  is_document d r = true /\ is_element d i = true /\
  rtc (fun c p => is_element d c = true /\ parent_of d c = Some p) i r.

Lemma document_not_element i : is_document d i = true -> is_element d i = false.
Proof using Type.
  unfold is_element, is_document. destruct (nodes d !! i); [|done].
  intros H%bool_decide_eq_true. by rewrite H.
Qed.

Lemma in_page_parent r i :
  in_page r i -> exists p, parent_of d i = Some p /\ is_Some (nodes d !! i) /\
    ((is_document d p = true /\ p = r) \/ (is_document d p = false /\ in_page r p)).
Proof using Hwf.
  intros (Hr & He & Hi). inversion Hi as [|? p ? [_ Hp] Hpr]; subst.
  { apply document_not_element in Hr. congruence. }
  exists p. destruct (parent_in_store d Hwf i p Hp) as [Hs _]. split_and!; [done..|].
  inversion Hpr as [|? q ? [Hep Hq] Hqr]; subst; [by left|]. right.
  destruct (is_document d p) eqn:Edp; [apply document_not_element in Edp; congruence|].
  split; [done|]. split_and!; [done..|]. by eapply rtc_l.
Qed.

Lemma segments_inj r n i j :
  length (segments_of i) <= n -> in_page r i -> in_page r j -> segments_of i = segments_of j -> i = j.
Proof using Hwf.
  revert i j. induction n as [|n IH]; intros i j Hn Hi Hj Hs;
    pose proof (in_page_parent r i Hi) as (p & Hp & Hsi & Hpr);
    pose proof (in_page_parent r j Hj) as (q & Hq & Hsj & Hqr);
    destruct Hi as (_ & Hei & _), Hj as (_ & Hej & _);
    rewrite (segments_of_eq i Hsi Hei), (segments_of_eq j Hsj Hej), Hp, Hq in *; [simpl in Hn; lia|].
  injection Hs as Hseg Hs. destruct (segment_inj d i j Hseg) as [Hname Hidx].
  assert (p = q) as <-.
  { destruct Hpr as [[Hdp ->]|[Hdp Hip]], Hqr as [[Hdq ->]|[Hdq Hiq]]; [done| | |];
      rewrite Hdp, Hdq in Hs.
    - pose proof (in_page_parent r q Hiq) as (? & _ & Hsq & _). destruct Hiq as (_ & Heq & _).
      by rewrite (segments_of_eq q Hsq Heq) in Hs.
    - pose proof (in_page_parent r p Hip) as (? & _ & Hsp & _). destruct Hip as (_ & Hep & _).
      by rewrite (segments_of_eq p Hsp Hep) in Hs.
    - apply IH; [simpl in Hn; rewrite Hdp in Hn; lia|done..]. }
  destruct (decide (i = j)) as [|Hij]; [done|]. exfalso. unfold sibling_index in Hidx.
  rewrite Hp, Hq in Hidx. assert (Hc : elder_count d i (children_of d p) = elder_count d j (children_of d p)) by lia.
  revert Hc. apply elder_count_lt; try done.
  - apply (fo_nodup _ _ (wf_forest d Hwf)).
  - by apply (fo_agree _ _ (wf_forest d Hwf)).
  - by apply (fo_agree _ _ (wf_forest d Hwf)).
Qed.

Lemma segments_no_slash r i :
  (forall j, is_element d j = true -> no_slash (name_of d j) = true) ->
  in_page r i -> forallb no_slash (segments_of i) = true.
Proof using Hwf.
  intros Hns. assert (H : forall n i, length (segments_of i) <= n -> in_page r i ->
                       forallb no_slash (segments_of i) = true); [|by eapply H].
  clear i. induction n as [|n IH]; intros i Hn Hi;
    pose proof (in_page_parent r i Hi) as (p & Hp & Hsi & Hpr); destruct Hi as (_ & Hei & _);
    rewrite (segments_of_eq i Hsi Hei), Hp in *; simpl in Hn; [lia|].
  simpl. rewrite segment_no_slash by auto.
  destruct Hpr as [[Hdp _]|[Hdp Hip]]; rewrite Hdp in *; [done|]. apply IH; [lia|done].
Qed.

Lemma element_path_inj r i j :
  (forall k, is_element d k = true -> no_slash (name_of d k) = true) ->
  in_page r i -> in_page r j -> element_path d i = element_path d j -> i = j.
Proof using Hwf.
  intros Hns Hi Hj. pose proof Hi as (_ & Hei & _). pose proof Hj as (_ & Hej & _).
  unfold element_path. rewrite Hei, Hej. fold (segments_of i) (segments_of j). intros H.
  apply join_slash_inj in H.
  - apply (f_equal reverse) in H. rewrite !reverse_involutive in H.
    by apply (segments_inj r (length (segments_of i))).
  - rewrite forallb_forall. intros x Hx. rewrite <- list_elem_of_In, elem_of_reverse, list_elem_of_In in Hx.
    pose proof (segments_no_slash r i Hns Hi) as Hf. rewrite forallb_forall in Hf. auto.
  - rewrite forallb_forall. intros x Hx. rewrite <- list_elem_of_In, elem_of_reverse, list_elem_of_In in Hx.
    pose proof (segments_no_slash r j Hns Hj) as Hf. rewrite forallb_forall in Hf. auto.
Qed.

End Paths.

(** ** Properties *)

(** The budget is exact: consuming a stream from a fresh budget succeeds exactly when
    the stream has at most 400000 events, 400000 attributes and 32 MiB of text, and then
    the three counters are its totals (no subtraction wraps); otherwise it reports a
    resource limit. *)
Theorem budget_exact l :
  let b := {| events_ := N.of_nat (length l); attributes_ := total_attributes l; bytes_ := total_bytes l |} in
  consume_all l new_budget =
  if (events_ b <=? 400000)%N && (attributes_ b <=? 400000)%N && (bytes_ b <=? 33554432)%N
  then Ret b else Throw ResourceLimit.
Proof.
  intros b. assert (Hb : budget_ok new_budget) by (unfold budget_ok; simpl; lia).
  change b with {| events_ := events_ new_budget + N.of_nat (length l);
                   attributes_ := attributes_ new_budget + total_attributes l;
                   bytes_ := bytes_ new_budget + total_bytes l |}%N.
  destruct (consume_all_spec l new_budget Hb) as [[(H1 & H2 & H3) ->]|[H ->]].
  - apply N.leb_le in H1, H2, H3. unfold max_event_stream_events, max_event_stream_bytes in *.
    change (32 * 1024 * 1024)%N with 33554432%N in H3. by rewrite H1, H2, H3.
  - destruct (_ && _) eqn:E; [|done]. split_andb. exfalso. apply H. unfold budget_ok.
    rewrite <- !N.leb_le. done.
Qed.

(** Replaying delivers the events in order from the first, up to and including the
    first one at which the callback stops or throws, and nothing at all when the stream
    is longer than the limit asked for (the answer [false]) or the arguments are invalid;
    stopping is a success, and an exception is passed on. *)
Theorem replay_spec {S} (f : ProwseEvent -> S -> S * result EventStreamAction) has_callback max events s :
  (exists rest, events = delivered f events s ++ rest) /\
  replay (fun e '(log, s) => let '(s', a) := f e s in (log ++ [e], s', a)) has_callback max events ([], s) =
  if negb has_callback || (400000 <? max)%N then (([], s), Throw InvalidArgument)
  else if (max <? N.of_nat (length events))%N then (([], s), Ret false)
  else let '(s', r) := replay_loop f events s in ((delivered f events s, s'), r).
Proof.
  split; [apply delivered_prefix|]. unfold replay. destruct has_callback; cbn [negb orb]; [|done].
  change max_event_stream_events with 400000%N. destruct (400000 <? max)%N; [done|].
  destruct (max <? N.of_nat (length events))%N; [done|].
  assert (H : forall log, replay_loop (fun e '(log, s) => let '(s', a) := f e s in (log ++ [e], s', a)) events (log, s) =
    let '(s', r) := replay_loop f events s in ((log ++ delivered f events s, s'), r)); [|apply (H [])].
  revert s. induction events as [|e events IH]; intros s log; cbn [replay_loop delivered]; [by rewrite app_nil_r|].
  destruct (f e s) as [s' [[]|x]]; [|done..]. rewrite IH. destruct (replay_loop f events s').
  by rewrite <- app_assoc.
Qed.

(** The event stream of a page is well nested: every start is closed by an end with
    its path and tag, attributes and texts name the innermost open element, and every
    depth is the number of open elements; the walk fails only with a resource limit. *)
Theorem page_events_nested d root :
  dom_wf d -> is_Some (nodes d !! root) -> parent_of d root = None ->
  match emit_prowse_events d root with
  | Ret l => nested [] l = true /\ (N.of_nat (length l) <= 400000)%N
  | Throw e => e = ResourceLimit
  end.
Proof.
  intros Hwf Hr Hp. unfold emit_prowse_events. pose proof (build_ir_spec d Hwf root Hr Hp) as H.
  destruct (build_ir d root) as [b|e]; cbn [mbind result_bind]; [|exact H]. destruct H as [-> Hc]. split.
  - unfold page_events. rewrite <- (app_nil_r (node_events _ _ _ _)), nested_node; done.
  - assert (Hb : budget_ok new_budget) by (unfold budget_ok; simpl; lia).
    destruct (consume_all_spec (page_events d root) new_budget Hb) as [[(H1 & _) _]|[_ H1]]; [exact H1|congruence].
Qed.

(** The flattened node view lists the elements of the page in document order, each
    with its path, tag, text and attributes. *)
Theorem emit_prowse_dom_order d root l :
  dom_wf d -> is_Some (nodes d !! root) -> parent_of d root = None -> page_shape d ->
  emit_prowse_dom d root = Ret l ->
  map (fun n => (pd_xpath n, pd_tag n, pd_text n, pd_attributes n)) l =
  map (snapshot_at d) (List.filter (is_element d) (doc_order d root)).
Proof.
  intros Hwf Hr Hp Hs. unfold emit_prowse_dom, emit_prowse_events.
  pose proof (build_ir_spec d Hwf root Hr Hp) as H.
  destruct (build_ir d root) as [b|e]; cbn [mbind result_bind]; [|done]. destruct H as [-> _].
  intros [= <-]. rewrite map_map. apply (starts_node d (size (nodes d)) root 0 Hs).
Qed.

(** The paths of a page identify its elements: two elements under one document that
    have the same path are the same node, whatever bytes other than a slash their names
    contain. *)
Theorem element_path_unique d root i j :
  dom_wf d -> (forall k, is_element d k = true -> no_slash (name_of d k) = true) ->
  in_page d root i -> in_page d root j ->
  element_path d i = element_path d j <-> i = j.
Proof.
  intros Hwf Hns Hi Hj. split; [by apply (element_path_inj d Hwf root)|by intros ->].
Qed.

(** ** Witnesses *)

Lemma sample_facts :
  is_Some (nodes sample !! 0) /\ parent_of sample 0 = None.
Proof. split; [vm_compute; eauto|reflexivity]. Qed.

Lemma sample_nodes (P : nat -> Prop) :
  (forall i, i < 5 -> P i) -> (forall i, nodes sample !! i = None -> P i) -> forall i, P i.
Proof.
  intros H1 H2 i. destruct (decide (i < 5)) as [Hi|Hi]; [auto|]. apply H2.
  destruct (nodes sample !! i) eqn:E; [|done].
  assert (i < next_id sample) by (apply (wf_bound _ sample_wf); eauto).
  change (next_id sample) with 5 in *. lia.
Qed.

Lemma sample_shape : page_shape sample.
Proof.
  split.
  - apply (sample_nodes (fun i => is_element sample i = false -> is_document sample i = false ->
                                  children_of sample i = [])).
    + intros i Hi. do 5 (destruct i as [|i]; [vm_compute; congruence|]). lia.
    + intros i Hi _ _. unfold children_of. by rewrite Hi.
  - apply (sample_nodes (fun i => forall c, c ∈ children_of sample i -> is_document sample c = false)).
    + intros i Hi c Hc.
      assert (Hl : forallb (fun c => negb (is_document sample c)) (children_of sample i) = true).
      { do 5 (destruct i as [|i]; [vm_compute; reflexivity|]). lia. }
      rewrite forallb_forall in Hl. apply negb_true_iff, Hl. by apply list_elem_of_In.
    + intros i Hi c Hc. unfold children_of in Hc. rewrite Hi in Hc. set_solver.
Qed.

Lemma page_events_nested_witness :
  dom_wf sample /\ exists l, emit_prowse_events sample 0 = Ret l /\ nested [] l = true.
Proof.
  split; [exact sample_wf|]. destruct sample_facts as [H1 H2].
  pose proof (page_events_nested sample 0 sample_wf H1 H2) as H.
  destruct (emit_prowse_events sample 0) as [l|e] eqn:E; [|exfalso; vm_compute in E; discriminate].
  exists l. split; [done|apply H].
Defined.

Lemma emit_prowse_dom_order_witness :
  dom_wf sample /\ exists l, emit_prowse_dom sample 0 = Ret l /\
  map (fun n => (pd_xpath n, pd_tag n, pd_text n, pd_attributes n)) l =
  map (snapshot_at sample) [1; 3; 4].
Proof.
  split; [exact sample_wf|]. destruct sample_facts as [H1 H2].
  destruct (emit_prowse_dom sample 0) as [l|e] eqn:E; [|exfalso; vm_compute in E; discriminate].
  exists l. split; [done|]. rewrite (emit_prowse_dom_order sample 0 l sample_wf H1 H2 sample_shape E).
  reflexivity.
Defined.

Lemma element_path_unique_witness :
  in_page sample 0 3 /\ in_page sample 0 4 /\
  (element_path sample 3 = element_path sample 4 <-> 3 = 4).
Proof.
  assert (Hp : forall i, i = 3 \/ i = 4 -> in_page sample 0 i).
  { intros i [-> | ->]; (split; [reflexivity|split; [reflexivity|]]);
      (eapply rtc_l; [split; reflexivity|]); (eapply rtc_l; [split; reflexivity|constructor]). }
  split; [auto|]. split; [auto|].
  apply (element_path_unique sample 0); [exact sample_wf| |auto|auto].
  apply (sample_nodes (fun k => is_element sample k = true -> no_slash (name_of sample k) = true)).
  - intros i Hi. do 5 (destruct i as [|i]; [vm_compute; congruence|]). lia.
  - intros i Hi. unfold is_element. by rewrite Hi.
Defined.
