(* ===== verification/IrCodec.v ===== *)
(** * Encodings of the page IR: [src/core/ir_vtd.cpp] (binary) and [ir_events.cpp]
    (newline-delimited JSON)

    The decoder reads forward: its position is the suffix that is left.  A read that
    would run past the end is [None]; the decoder answers the empty stream then. *)
From S2P Require Import Prelude Html HtmlTree Dom Ir.

(** ** ProwseVTD *)

Definition write_u32 (value : N) : bytes :=
  [byte (N.land value 0xff); byte (N.land (N.shiftr value 8) 0xff);
   byte (N.land (N.shiftr value 16) 0xff); byte (N.land (N.shiftr value 24) 0xff)]%N.

Definition read_u32 (s : bytes) : option (N * bytes) :=
  match s with
  | b0 :: b1 :: b2 :: b3 :: r =>
      Some (N.lor (N.lor (N.lor (code b0) (N.shiftl (code b1) 8)) (N.shiftl (code b2) 16))
              (N.shiftl (code b3) 24), r)%N
  | _ => None
  end.

Definition read_vtd_string (s : bytes) : option (bytes * bytes) :=
  '(length, r) ← read_u32 s;
  if (N.of_nat (List.length r) <? length)%N then None
  else Some (take (N.to_nat length) r, drop (N.to_nat length) r).

(** A [static_cast] to [std::uint32_t]. *)
Definition to_u32 (n : N) : N := (n mod 2 ^ 32)%N.

Definition write_bytes (text : bytes) : bytes := write_u32 (to_u32 (N.of_nat (length text))) ++ text.

Definition write_token (type : N) (depth : N) (path name value : bytes) : bytes :=
  [byte type] ++ write_u32 depth ++ write_bytes path ++ write_bytes name ++ write_bytes value.

Definition kProwseVtdMagic : bytes := lit "PVTD1".

Definition type_code (kind : bytes) : N :=
  (if kind =s lit "start" then 1 else if kind =s lit "attribute" then 2
   else if kind =s lit "text" then 3 else if kind =s lit "end" then 4 else 0)%N.

Definition event_token (e : ProwseEvent) : bytes :=
  write_token (type_code (e_kind e)) (to_u32 (e_depth e)) (e_xpath e)
    (if nonempty (e_name e) then e_name e else e_tag e) (e_value e).

Definition encode_prowse_vtd (events : ProwseEventStream) : bytes :=
  kProwseVtdMagic ++ write_u32 (to_u32 (N.of_nat (length events))) ++ mjoin (event_token <$> events).

Definition emit_prowse_vtd (d : dom) (root : nat) : result bytes :=
  events ← emit_prowse_events d root; Ret (encode_prowse_vtd events).

(** The event a token stands for. *)
Definition token_event (type depth : N) (path name value : bytes) : option ProwseEvent :=
  let event kind tag name :=
    {| e_kind := kind; e_xpath := path; e_tag := tag; e_name := name; e_value := value;
       e_depth := depth; e_attributes := []; e_subtree_text := [] |} in
  (if type =? 1 then Some (event (lit "start") name [])
   else if type =? 2 then Some (event (lit "attribute") (tag_from_path path) name)
   else if type =? 3 then Some (event (lit "text") name [])
   else if type =? 4 then Some (event (lit "end") name [])
   else None)%N.

Definition decode_token (s : bytes) : option (ProwseEvent * bytes) :=
  match s with
  | [] => None
  | t :: r =>
      '(depth, r1) ← read_u32 r;
      '(path, r2) ← read_vtd_string r1;
      '(name, r3) ← read_vtd_string r2;
      '(value, r4) ← read_vtd_string r3;
      event ← token_event (code t) depth path name value;
      Some (event, r4)
  end.

(** The loop over [count] tokens, which leaves at the first failure; every token takes a
    byte at least, so the length of the input is enough fuel and running out of fuel is
    the test [pos >= bytes.size()]. *)
Fixpoint decode_tokens (fuel : nat) (count : N) (s : bytes) : option (ProwseEventStream * bytes) :=
  if (count =? 0)%N then Some ([], s)
  else match fuel with
       | O => None
       | S fuel' =>
           '(e, r) ← decode_token s;
           '(l, r') ← decode_tokens fuel' (count - 1) r;
           Some (e :: l, r')
       end.

Definition decode_prowse_vtd (s : bytes) : ProwseEventStream :=
  if negb (starts_with kProwseVtdMagic s) then []
  else match read_u32 (drop 5 s) with
       | None => []
       | Some (count, r) =>
           match decode_tokens (length r) count r with
           | Some (events, []) => events
           | _ => []
           end
       end.

(** ** Newline-delimited JSON *)

Definition hex_digit (n : N) : ascii := if (n <? 10)%N then byte (48 + n) else byte (87 + n).

Definition json_char (c : ascii) : bytes :=
  (if code c =? 34 then [backslash; dquote]
   else if code c =? 92 then [backslash; backslash]
   else if code c =? 8 then [backslash; "b"%char]
   else if code c =? 12 then [backslash; "f"%char]
   else if code c =? 10 then [backslash; "n"%char]
   else if code c =? 13 then [backslash; "r"%char]
   else if code c =? 9 then [backslash; "t"%char]
   else if code c <? 0x20 then
     [backslash; "u"%char; "0"%char; "0"%char; hex_digit (N.land (N.shiftr (code c) 4) 0x0f);
      hex_digit (N.land (code c) 0x0f)]
   else [c])%N.

Definition json_string (value : bytes) : bytes := [dquote] ++ mjoin (json_char <$> value) ++ [dquote].

Definition json_key (key : bytes) : bytes := json_string key ++ lit ":".

Definition json_field (key : string) (value : bytes) : bytes := json_key (lit key) ++ json_string value.

Definition json_attribute (a : Attribute) : bytes :=
  lit "{" ++ json_key (lit "name") ++ json_string (attr_name a) ++ lit "," ++
  json_key (lit "value") ++ json_string (attr_value a) ++ lit "}".

Fixpoint json_attributes (l : list Attribute) : bytes :=
  match l with
  | [] => []
  | [a] => json_attribute a
  | a :: l' => json_attribute a ++ lit "," ++ json_attributes l'
  end.

(** One record, without the line feed behind it. *)
Definition json_event (e : ProwseEvent) : bytes :=
  lit "{" ++ json_field "kind" (e_kind e) ++ lit "," ++ json_field "xpath" (e_xpath e) ++ lit "," ++
  json_field "tag" (e_tag e) ++ lit "," ++ json_field "name" (e_name e) ++ lit "," ++
  json_field "value" (e_value e) ++ lit "," ++ json_key (lit "depth") ++ print_N (e_depth e) ++
  (if is_start e then
     lit "," ++ json_field "text" (e_subtree_text e) ++ lit "," ++ json_key (lit "attributes") ++
     lit "[" ++ json_attributes (e_attributes e) ++ lit "]"
   else []) ++ lit "}".

Definition newline : ascii := byte 10.

Definition encode_prowse_events_ndjson (events : ProwseEventStream) : bytes :=
  mjoin ((fun e => json_event e ++ [newline]) <$> events).

(** ** 32-bit integers *)

Lemma byte_land n k : code (byte (N.land (N.shiftr n k) 0xff)) = N.land (N.shiftr n k) 0xff.
Proof.
  apply code_byte. change 0xff%N with (N.ones 8). rewrite N.land_ones. by apply N.mod_lt.
Qed.

Lemma read_write_u32 n k : (n < 2 ^ 32)%N -> read_u32 (write_u32 n ++ k) = Some (n, k).
Proof.
  intros Hn. unfold write_u32. cbn [app read_u32]. do 2 f_equal.
  pose proof (byte_land n 0) as H0. rewrite N.shiftr_0_r in H0. rewrite H0, !byte_land.
  apply N.bits_inj. intros i. rewrite !N.lor_spec. change 0xff%N with (N.ones 8).
  assert (Hb : forall m, N.testbit (N.shiftl (N.land (N.shiftr n m) (N.ones 8)) m) i =
                         (m <=? i)%N && (i <? m + 8)%N && N.testbit n i).
  { intros m. destruct (N.leb_spec m i) as [Hm|Hm]; cbn [andb].
    - rewrite N.shiftl_spec_high' by done. rewrite N.land_spec, N.shiftr_spec'.
      replace (i - m + m)%N with i by lia.
      destruct (N.ltb_spec i (m + 8)).
      + rewrite N.ones_spec_low by lia. by rewrite andb_true_r.
      + rewrite N.ones_spec_high by lia. by rewrite andb_false_r.
    - by rewrite N.shiftl_spec_low. }
  rewrite !Hb. pose proof (Hb 0%N) as Hb0. rewrite N.shiftr_0_r, N.shiftl_0_r in Hb0. rewrite Hb0.
  destruct (N.lt_ge_cases i 32) as [Hi|Hi].
  - destruct (N.testbit n i); rewrite ?andb_false_r, ?andb_true_r; [|done].
    destruct (N.leb_spec 0 i), (N.ltb_spec i (0 + 8)), (N.leb_spec 8 i), (N.ltb_spec i (8 + 8)),
      (N.leb_spec 16 i), (N.ltb_spec i (16 + 8)), (N.leb_spec 24 i), (N.ltb_spec i (24 + 8)); (done || lia).
  - assert (N.testbit n i = false) as ->; [|by rewrite !andb_false_r].
    destruct (N.eq_dec n 0) as [->|H]; [apply N.bits_0|]. apply N.bits_above_log2.
    apply N.log2_lt_pow2; [lia|]. eapply N.lt_le_trans; [exact Hn|]. by apply N.pow_le_mono_r.
Qed.

Lemma write_u32_length n : length (write_u32 n) = 4.
Proof. done. Qed.

Lemma read_u32_length s n r : read_u32 s = Some (n, r) -> length s = 4 + length r.
Proof. destruct s as [|b0 [|b1 [|b2 [|b3 s]]]]; simpl; [done..|]. by intros [= _ <-]. Qed.

Definition u32_ok (s : bytes) : Prop := (N.of_nat (length s) < 2 ^ 32)%N.

Lemma read_write_bytes s k : u32_ok s -> read_vtd_string (write_bytes s ++ k) = Some (s, k).
Proof.
  intros Hs. unfold read_vtd_string, write_bytes, to_u32. rewrite N.mod_small by done.
  rewrite <- app_assoc, read_write_u32 by done. cbn [mbind option_bind].
  rewrite (proj2 (N.ltb_ge _ _)) by (rewrite length_app; lia).
  by rewrite Nat2N.id, take_app_length, drop_app_length.
Qed.

Lemma read_vtd_string_length s t r : read_vtd_string s = Some (t, r) -> 4 + length r <= length s.
Proof.
  unfold read_vtd_string. destruct (read_u32 s) as [[n r']|] eqn:E; [|done]. cbn [mbind option_bind].
  apply read_u32_length in E. destruct (_ <? n)%N; [done|]. intros [= _ <-]. rewrite length_drop. lia.
Qed.

(** Every token takes seventeen bytes. *)
Lemma decode_token_length s e r : decode_token s = Some (e, r) -> 17 + length r <= length s.
Proof.
  destruct s as [|t s]; [done|]. cbn [decode_token length].
  destruct (read_u32 s) as [[depth r1]|] eqn:E1; [|done]. cbn [mbind option_bind].
  destruct (read_vtd_string r1) as [[path r2]|] eqn:E2; [|done]. cbn [mbind option_bind].
  destruct (read_vtd_string r2) as [[name r3]|] eqn:E3; [|done]. cbn [mbind option_bind].
  destruct (read_vtd_string r3) as [[value r4]|] eqn:E4; [|done]. cbn [mbind option_bind].
  destruct (token_event _ _ _ _ _); [|done]. intros [= _ <-].
  apply read_u32_length in E1. apply read_vtd_string_length in E2, E3, E4. lia.
Qed.

Lemma decode_tokens_length fuel count s l r :
  decode_tokens fuel count s = Some (l, r) ->
  17 * length l + length r <= length s /\ N.of_nat (length l) = count.
Proof.
  revert count s l. induction fuel as [|fuel IH]; intros count s l; cbn [decode_tokens].
  - destruct (N.eqb_spec count 0) as [->|]; [|done]. intros [= <- <-]. simpl. split; [lia|done].
  - destruct (N.eqb_spec count 0) as [->|Hc]; [intros [= <- <-]; simpl; split; [lia|done]|].
    destruct (decode_token s) as [[e r1]|] eqn:E1; [|done]. cbn [mbind option_bind].
    destruct (decode_tokens fuel (count - 1) r1) as [[l' r']|] eqn:E2; [|done]. cbn [mbind option_bind].
    intros [= <- <-]. apply decode_token_length in E1. apply IH in E2 as [E2 E3]. cbn [length]. lia.
Qed.

Lemma type_code_small k : (type_code k < 256)%N.
Proof. unfold type_code. by repeat destruct (_ =s _). Qed.

(** ** Events that survive the binary form *)

Definition drop_snapshot (e : ProwseEvent) : ProwseEvent :=
  {| e_kind := e_kind e; e_xpath := e_xpath e; e_tag := e_tag e; e_name := e_name e;
     e_value := e_value e; e_depth := e_depth e; e_attributes := []; e_subtree_text := [] |}.

(** The kinds and the names the model gives them. *)
Definition vtd_event (e : ProwseEvent) : Prop :=
  (e_kind e = lit "attribute" /\ nonempty (e_name e) = true /\ tag_from_path (e_xpath e) = e_tag e) \/
  ((e_kind e = lit "start" \/ e_kind e = lit "text" \/ e_kind e = lit "end") /\ e_name e = []).

Definition vtd_sizes (e : ProwseEvent) : Prop :=
  u32_ok (e_xpath e) /\ u32_ok (e_tag e) /\ u32_ok (e_name e) /\ u32_ok (e_value e) /\
  (e_depth e < 2 ^ 32)%N.

Lemma decode_event_token e k :
  vtd_event e -> vtd_sizes e -> decode_token (event_token e ++ k) = Some (drop_snapshot e, k).
Proof.
  intros Hv (H1 & H2 & H3 & H4 & H5). unfold event_token, write_token.
  set (n := if nonempty (e_name e) then e_name e else e_tag e).
  assert (Hn : u32_ok n) by (subst n; by destruct (nonempty (e_name e))).
  rewrite <- !app_assoc. cbn [app decode_token]. unfold to_u32. rewrite N.mod_small by done.
  rewrite read_write_u32 by done. cbn [mbind option_bind].
  rewrite read_write_bytes by done. cbn [mbind option_bind].
  rewrite read_write_bytes by done. cbn [mbind option_bind].
  rewrite read_write_bytes by done. cbn [mbind option_bind].
  rewrite code_byte by apply type_code_small.
  assert (E : token_event (type_code (e_kind e)) (e_depth e) (e_xpath e) n (e_value e) = Some (drop_snapshot e));
    [|by rewrite E].
  unfold drop_snapshot. destruct Hv as [(Hk & Hne & Ht)|[Hk Hne]].
  - subst n. rewrite Hk, Hne. change (type_code (lit "attribute")) with 2%N.
    unfold token_event. cbn [N.eqb Pos.eqb]. by rewrite Ht.
  - subst n. rewrite Hne. destruct Hk as [-> | [-> | ->]]; done.
Qed.

Lemma event_token_length e : 17 <= length (event_token e).
Proof.
  unfold event_token, write_token, write_bytes. rewrite !length_app, !write_u32_length. simpl. lia.
Qed.

Lemma decode_event_tokens l fuel k :
  Forall vtd_event l -> Forall vtd_sizes l -> length l <= fuel ->
  decode_tokens fuel (N.of_nat (length l)) (mjoin (event_token <$> l) ++ k) = Some (map drop_snapshot l, k).
Proof.
  intros H1 H2. revert fuel. induction l as [|e l IH]; intros fuel Hf.
  - by destruct fuel.
  - destruct fuel as [|fuel]; [simpl in Hf; lia|]. cbn [decode_tokens length].
    destruct (N.eqb_spec (N.of_nat (S (length l))) 0); [lia|].
    inversion_clear H1. inversion_clear H2.
    rewrite mjoin_fmap_cons, <- app_assoc, decode_event_token by done. cbn [mbind option_bind].
    replace (N.of_nat (S (length l)) - 1)%N with (N.of_nat (length l)) by lia.
    rewrite IH by (done || (simpl in Hf; lia)). done.
Qed.

Lemma decode_encode l :
  Forall vtd_event l -> Forall vtd_sizes l -> (N.of_nat (length l) < 2 ^ 32)%N ->
  decode_prowse_vtd (encode_prowse_vtd l) = map drop_snapshot l.
Proof.
  intros H1 H2 H3. unfold decode_prowse_vtd, encode_prowse_vtd. rewrite starts_with_app. cbn [negb].
  change (drop 5 (kProwseVtdMagic ++ ?x)) with x. unfold to_u32. rewrite N.mod_small by done.
  rewrite read_write_u32 by done. rewrite <- (app_nil_r (mjoin _)) at 2.
  rewrite decode_event_tokens; [done..|]. clear. induction l as [|e l IH]; [simpl; lia|].
  rewrite mjoin_fmap_cons, length_app. pose proof (event_token_length e). cbn [length]. lia.
Qed.

(** ** The pages whose events survive *)

(** Names that a path shows in full: no slash, no bracket, not the start of a text or
    attribute step; and no attribute without a name. *)
Definition plain_tag (name : bytes) : bool :=
  none (fun c => (c =c "/") || (c =c "[")) name &&
  negb (starts_with (lit "text()") name) && negb (starts_with (lit "@") name).

Definition plain_names (d : dom) : Prop :=
  forall i, is_element d i = true ->
    plain_tag (name_of d i) = true /\ Forall (fun a => nonempty (attr_name a) = true) (attributes_of d i).

Lemma starts_with_before pat s t :
  none (fun c => c =c "[") pat = true ->
  starts_with pat (s ++ "["%char :: t) = true -> starts_with pat s = true.
Proof.
  revert s. induction pat as [|p pat IH]; intros s Hp; [done|]. simpl in Hp. split_andb.
  destruct s as [|c s]; simpl.
  - intros [E _]%andb_prop. apply Ascii.eqb_eq in E as ->. done.
  - intros [-> H']%andb_prop. simpl. by apply IH.
Qed.

Lemma tag_from_segment d i k :
  plain_tag (name_of d i) = true -> tag_from_path (k ++ "/"%char :: path_segment d i) = name_of d i.
Proof.
  unfold plain_tag. intros H. split_andb.
  assert (Hs : none (fun c => c =c "/") (name_of d i) = true /\ none (fun c => c =c "[") (name_of d i) = true).
  { clear -H. induction (name_of d i) as [|c s IH]; [done|]. simpl in *. split_andb. destruct IH as [-> ->]; [done|].
    destruct (c =c "/"), (c =c "["); done. }
  destruct Hs as [Hs Hb]. unfold tag_from_path. cbv zeta. rewrite find_last_if_mid; [|done|by apply segment_no_slash].
  rewrite drop_app_ge by lia. replace (S (length k) - length k) with 1 by lia. cbn [drop].
  unfold path_segment. change (lit "[" ++ ?x) with ("["%char :: x).
  rewrite !drop_0. assert (nonempty (name_of d i ++ "["%char :: print_N (sibling_index d i) ++ lit "]") = true) as ->
    by (by destruct (name_of d i)).
  cbn [negb]. assert (Hp : forall pat, none (fun c => c =c "[") pat = true -> starts_with pat (name_of d i) = false ->
    starts_with pat (name_of d i ++ "["%char :: print_N (sibling_index d i) ++ lit "]") = false).
  { intros pat Hpat Hst. destruct (starts_with pat (_ ++ _)) eqn:E; [|done].
    apply starts_with_before in E; [congruence|done]. }
  rewrite !Hp by done. cbn [orb].
  rewrite find_if_mid by done. by rewrite take_app_length.
Qed.

Lemma tag_from_element_path d i :
  dom_wf d -> is_element d i = true -> plain_tag (name_of d i) = true ->
  tag_from_path (element_path d i) = name_of d i.
Proof.
  intros Hwf He Hp. assert (Hi : is_Some (nodes d !! i)).
  { unfold is_element in He. destruct (nodes d !! i); [eauto|done]. }
  unfold element_path, join_path. rewrite He. fold (segments_of d i). rewrite (segments_of_eq d Hwf i Hi He).
  rewrite reverse_cons, fmap_app. rewrite join_app. cbn [fmap list_fmap mjoin list_join].
  rewrite app_nil_r. by apply tag_from_segment.
Qed.

(** The kinds of events of a page, with what the binary form needs of them. *)
Lemma children_events_Forall (P : ProwseEvent -> Prop) d walk node depth index l :
  (forall i c, P (text_event d node depth i c)) -> (forall c, Forall P (walk c)) ->
  Forall P (children_events d walk node depth index l).
Proof.
  intros H1 H2. revert index. induction l as [|c l IH]; intros index; [constructor|]. cbn [children_events].
  destruct (_ && _); [by constructor|]. destruct (is_element d c); [by apply Forall_app|done].
Qed.

Lemma node_events_vtd d fuel node depth :
  dom_wf d -> plain_names d -> Forall vtd_event (node_events fuel d node depth).
Proof.
  intros Hwf Hp. revert node depth. induction fuel as [|fuel IH]; intros node depth; [constructor|].
  cbn [node_events]. destruct (is_document d node).
  { induction (children_of d node) as [|c l IHl]; [constructor|]. cbn [map].
    change (mjoin (?x :: ?y)) with (x ++ mjoin y). by apply Forall_app. }
  destruct (is_element d node) eqn:He; cbn [negb]; [|constructor]. destruct (Hp node He) as [Ht Ha].
  constructor; [right; split; [by left|done]|]. apply Forall_app. split; [|apply Forall_app; split].
  - apply Forall_map. eapply Forall_impl; [exact Ha|]. intros a Hn. left. split; [done|].
    split; [exact Hn|]. by apply tag_from_element_path.
  - apply children_events_Forall; [|auto]. intros. right. split; [right; by left|done].
  - constructor; [|constructor]. right. split; [by right; right|done].
Qed.

(** Depths are bounded by the number of events, texts by the budget. *)
Lemma nested_depth open l :
  nested open l = true -> Forall (fun e => (e_depth e <= N.of_nat (length open + length l))%N) l.
Proof.
  revert open. induction l as [|e l IH]; intros open; [constructor|]. cbn [nested length].
  assert (Hw : forall open', length open' <= S (length open) -> nested open' l = true ->
            Forall (fun e => (e_depth e <= N.of_nat (length open + S (length l)))%N) l).
  { intros open' Ho H. eapply Forall_impl; [by apply (IH open')|]. simpl. intros. lia. }
  destruct (_ =s lit "start").
  - intros [Hd%N.eqb_eq H]%andb_prop. constructor; [lia|]. by eapply Hw; [|exact H]; simpl.
  - destruct open as [|[path name] open]; [done|]. intros [_ H]%andb_prop. cbn [length] in *.
    destruct (_ =s lit "end"); [|destruct (_ =s lit "attribute")]; split_andb;
      match goal with H : (e_depth e =? _)%N = true |- _ => apply N.eqb_eq in H end;
      (constructor; [lia|]); (eapply Hw; [|eassumption]; simpl; lia).
Qed.

Lemma sumN_elem {A} (f : A -> N) x l : x ∈ l -> (f x <= sumN f l)%N.
Proof. induction 1 as [x l|x y l H IH]; unfold sumN in *; cbn [foldr]; lia. Qed.

Lemma budget_sizes l b :
  consume_all l new_budget = Ret b -> nested [] l = true -> Forall vtd_sizes l /\ (N.of_nat (length l) < 2 ^ 32)%N.
Proof.
  intros Hc Hn. assert (Hb : budget_ok new_budget) by (unfold budget_ok; simpl; lia).
  destruct (consume_all_spec l new_budget Hb) as [[(H1 & _ & H3) _]|[_ H]]; [|congruence].
  cbn [events_ bytes_ new_budget] in H1, H3. unfold max_event_stream_events, max_event_stream_bytes in *.
  split; [|lia]. apply nested_depth in Hn. rewrite Forall_forall in *. intros e He.
  assert (Hs : forall s, s ∈ event_strings e -> u32_ok s).
  { intros s Hs. unfold u32_ok. pose proof (sumN_elem (fun s => N.of_nat (length s)) s _ Hs) as H4.
    pose proof (sumN_elem (fun e => sumN (fun s => N.of_nat (length s)) (event_strings e)) e l He) as H5.
    unfold total_bytes in H3. cbn beta in H4, H5.
    eapply N.le_lt_trans; [exact H4|]. eapply N.le_lt_trans; [exact H5|]. rewrite N.add_0_l in H3.
    eapply N.le_lt_trans; [exact H3|]. lia. }
  specialize (Hn e He). simpl in Hn. unfold vtd_sizes, event_strings in *.
  split_and!; [apply Hs; set_solver..|lia].
Qed.

(** ** The decoder, whatever the input *)

Lemma read_u32_app s n r k : read_u32 s = Some (n, r) -> read_u32 (s ++ k) = Some (n, r ++ k).
Proof. destruct s as [|b0 [|b1 [|b2 [|b3 s]]]]; cbn [read_u32 app]; [done..|]. by intros [= <- <-]. Qed.

Lemma read_vtd_string_app s t r k :
  read_vtd_string s = Some (t, r) -> read_vtd_string (s ++ k) = Some (t, r ++ k).
Proof.
  unfold read_vtd_string. destruct (read_u32 s) as [[n r1]|] eqn:E; [|done].
  apply (read_u32_app _ _ _ k) in E as ->. cbn [mbind option_bind].
  destruct (N.ltb_spec (N.of_nat (length r1)) n) as [H|H]; [done|]. intros [= <- <-].
  rewrite (proj2 (N.ltb_ge _ _)) by (rewrite length_app; lia).
  by rewrite take_app_le, drop_app_le by lia.
Qed.

Lemma decode_token_app s e r k : decode_token s = Some (e, r) -> decode_token (s ++ k) = Some (e, r ++ k).
Proof.
  destruct s as [|t s]; [done|]. cbn [decode_token app].
  destruct (read_u32 s) as [[depth r1]|] eqn:E1; [|done]. cbn [mbind option_bind].
  destruct (read_vtd_string r1) as [[path r2]|] eqn:E2; [|done]. cbn [mbind option_bind].
  destruct (read_vtd_string r2) as [[name r3]|] eqn:E3; [|done]. cbn [mbind option_bind].
  destruct (read_vtd_string r3) as [[value r4]|] eqn:E4; [|done]. cbn [mbind option_bind].
  destruct (token_event _ _ _ _ _) as [e'|] eqn:E5; [|done]. intros [= <- <-].
  rewrite (read_u32_app _ _ _ k E1). cbn [mbind option_bind].
  rewrite (read_vtd_string_app _ _ _ k E2). cbn [mbind option_bind].
  rewrite (read_vtd_string_app _ _ _ k E3). cbn [mbind option_bind].
  rewrite (read_vtd_string_app _ _ _ k E4). cbn [mbind option_bind]. by rewrite E5.
Qed.

Lemma decode_tokens_app f1 f2 count s l r k :
  f1 <= f2 -> decode_tokens f1 count s = Some (l, r) -> decode_tokens f2 count (s ++ k) = Some (l, r ++ k).
Proof.
  revert f2 count s l. induction f1 as [|f1 IH]; intros f2 count s l Hf; cbn [decode_tokens].
  - destruct (N.eqb_spec count 0) as [->|]; [|done]. intros [= <- <-]. by destruct f2.
  - destruct f2 as [|f2]; [lia|]. cbn [decode_tokens].
    destruct (count =? 0)%N; [by intros [= <- <-]|].
    destruct (decode_token s) as [[e r1]|] eqn:E1; [|done]. cbn [mbind option_bind].
    rewrite (decode_token_app _ _ _ k E1). cbn [mbind option_bind].
    destruct (decode_tokens f1 (count - 1) r1) as [[l' r']|] eqn:E2; [|done]. cbn [mbind option_bind].
    intros [= <- <-]. by rewrite (IH f2 _ _ _ ltac:(lia) E2).
Qed.

(** What a non-empty answer says of the input. *)
Lemma decode_some s :
  decode_prowse_vtd s <> [] ->
  exists count r, starts_with kProwseVtdMagic s = true /\ read_u32 (drop 5 s) = Some (count, r) /\
    decode_tokens (length r) count r = Some (decode_prowse_vtd s, []).
Proof.
  unfold decode_prowse_vtd. destruct (starts_with kProwseVtdMagic s); [|done]. cbn [negb].
  destruct (read_u32 (drop 5 s)) as [[count r]|]; [|done]. intros H. exists count, r.
  destruct (decode_tokens (length r) count r) as [[l [|c t]]|]; done.
Qed.

Lemma starts_with_length pre s : starts_with pre s = true -> length pre <= length s.
Proof.
  revert s. induction pre as [|p pre IH]; intros [|c s]; simpl; [lia..|done|]. intros [_ H]%andb_prop.
  apply IH in H. lia.
Qed.

Lemma starts_with_app_l pre s k : starts_with pre s = true -> starts_with pre (s ++ k) = true.
Proof.
  revert s. induction pre as [|p pre IH]; intros [|c s]; simpl; [done..|]. intros [-> H]%andb_prop. simpl. auto.
Qed.

Lemma decode_prefix_free s k : decode_prowse_vtd s <> [] -> k <> [] -> decode_prowse_vtd (s ++ k) = [].
Proof.
  intros (count & r & H1 & H2 & H3)%decode_some Hk. unfold decode_prowse_vtd.
  rewrite starts_with_app_l by done. cbn [negb]. apply starts_with_length in H1.
  change (length kProwseVtdMagic) with 5 in H1. rewrite drop_app_le by done.
  rewrite (read_u32_app _ _ _ k H2). rewrite (decode_tokens_app (length r) (length (r ++ k)) _ _ _ _ k) with (2 := H3)
    by (rewrite length_app; lia).
  by destruct k.
Qed.

Lemma decode_length s :
  decode_prowse_vtd s <> [] -> 9 + 17 * length (decode_prowse_vtd s) <= length s.
Proof.
  intros (count & r & H1 & H2 & H3)%decode_some. apply decode_tokens_length in H3 as [H3 _].
  apply read_u32_length in H2. rewrite length_drop in H2. cbn [length] in H3. lia.
Qed.

(** ** A reader for the records *)

Definition expect (pat s : bytes) : option bytes :=
  if starts_with pat s then Some (drop (length pat) s) else None.

Definition unescape (c : ascii) : option ascii :=
  if c =c dquote then Some dquote else if c =c backslash then Some backslash
  else if c =c "b" then Some (byte 8) else if c =c "f" then Some (byte 12)
  else if c =c "n" then Some (byte 10) else if c =c "r" then Some (byte 13)
  else if c =c "t" then Some (byte 9) else None.

(** A string up to its closing quote; a [u] escape below 256 is a byte. *)
Fixpoint read_string_body (s : bytes) : option (bytes * bytes) :=
  match s with
  | [] => None
  | c :: r =>
      if c =c dquote then Some ([], r)
      else if c =c backslash then
        match r with
        | [] => None
        | e :: r1 =>
            if e =c "u" then
              match r1 with
              | _ :: _ :: h :: l :: r2 =>
                  '(v, k) ← read_string_body r2; Some (byte (16 * digit_value h + digit_value l) :: v, k)
              | _ => None
              end
            else b ← unescape e; '(v, k) ← read_string_body r1; Some (b :: v, k)
        end
      else '(v, k) ← read_string_body r; Some (c :: v, k)
  end.

Definition read_json_string (s : bytes) : option (bytes * bytes) :=
  r ← expect [dquote] s; read_string_body r.

Definition read_field (key : string) (s : bytes) : option (bytes * bytes) :=
  r ← expect (json_key (lit key)) s; read_json_string r.

Definition read_number (s : bytes) : N * bytes :=
  let n := default (length s) (find_if (fun c => negb (is_digit c)) s) in (read_N (take n s), drop n s).

Definition read_attribute (s : bytes) : option (Attribute * bytes) :=
  r ← expect (lit "{") s;
  '(name, r) ← read_field "name" r;
  r ← expect (lit ",") r;
  '(value, r) ← read_field "value" r;
  r ← expect (lit "}") r;
  Some ({| attr_name := name; attr_value := value |}, r).

(** The list behind its opening bracket. *)
Fixpoint read_attributes (fuel : nat) (s : bytes) : option (list Attribute * bytes) :=
  match fuel with
  | O => None
  | S fuel' =>
      match expect (lit "]") s with
      | Some r => Some ([], r)
      | None =>
          '(a, r) ← read_attribute s;
          match expect (lit ",") r with
          | Some r' => '(l, k) ← read_attributes fuel' r'; Some (a :: l, k)
          | None => r' ← expect (lit "]") r; Some ([a], r')
          end
      end
  end.

Definition read_record (s : bytes) : option ProwseEvent :=
  r ← expect (lit "{") s;
  '(kind, r) ← read_field "kind" r;
  r ← expect (lit ",") r;
  '(xpath, r) ← read_field "xpath" r;
  r ← expect (lit ",") r;
  '(tag, r) ← read_field "tag" r;
  r ← expect (lit ",") r;
  '(name, r) ← read_field "name" r;
  r ← expect (lit ",") r;
  '(value, r) ← read_field "value" r;
  r ← expect (lit "," ++ json_key (lit "depth")) r;
  let '(depth, r) := read_number r in
  let event text attributes :=
    {| e_kind := kind; e_xpath := xpath; e_tag := tag; e_name := name; e_value := value;
       e_depth := depth; e_attributes := attributes; e_subtree_text := text |} in
  match expect (lit "}") r with
  | Some [] => Some (event [] [])
  | Some _ => None
  | None =>
      r2 ← expect (lit ",") r;
      '(text, r2) ← read_field "text" r2;
      r2 ← expect (lit "," ++ json_key (lit "attributes") ++ lit "[") r2;
      '(attributes, r2) ← read_attributes (S (length r2)) r2;
      if r2 =s lit "}" then Some (event text attributes) else None
  end.

(** One record per line. *)
Fixpoint read_lines (fuel : nat) (s : bytes) : option ProwseEventStream :=
  match fuel, s with
  | _, [] => Some []
  | O, _ => None
  | S fuel', _ =>
      n ← find_if (fun c => c =c newline) s;
      e ← read_record (take n s);
      l ← read_lines fuel' (drop (S n) s);
      Some (e :: l)
  end.

Definition read_ndjson (s : bytes) : option ProwseEventStream := read_lines (length s) s.

(** What a record carries: text and attributes at the starts only. *)
Definition record_of (e : ProwseEvent) : ProwseEvent := if is_start e then e else drop_snapshot e.

Lemma expect_app pat k : expect pat (pat ++ k) = Some k.
Proof. unfold expect. by rewrite starts_with_app, drop_app_length. Qed.

Lemma read_json_char c k :
  read_string_body (json_char c ++ k) = '(v, r) ← read_string_body k; Some (c :: v, r).
Proof. ascii_cases c; reflexivity. Qed.

Lemma read_string_chars v k : read_string_body ((mjoin (json_char <$> v) ++ [dquote]) ++ k) = Some (v, k).
Proof.
  induction v as [|c v IH]; [done|]. by rewrite mjoin_fmap_cons, <- !app_assoc, read_json_char, app_assoc, IH.
Qed.

Lemma read_json_string_spec v k : read_json_string (json_string v ++ k) = Some (v, k).
Proof.
  unfold read_json_string, json_string. rewrite <- app_assoc, expect_app. cbn [mbind option_bind].
  apply read_string_chars.
Qed.

Lemma read_field_spec key v k : read_field key (json_field key v ++ k) = Some (v, k).
Proof.
  unfold read_field, json_field. rewrite <- app_assoc, expect_app. cbn [mbind option_bind].
  apply read_json_string_spec.
Qed.

Lemma read_number_spec n k :
  head_is (fun c => negb (is_digit c)) k = true -> read_number (print_N n ++ k) = (n, k).
Proof.
  intros Hk. destruct (print_N_spec n) as (H1 & H2 & _). unfold read_number.
  assert (Hn : default (length (print_N n ++ k)) (find_if (fun c => negb (is_digit c)) (print_N n ++ k)) =
               length (print_N n)).
  { rewrite find_if_head; [|unfold none|done].
    - destruct k; [by rewrite app_nil_r|done].
    - clear -H1. induction (print_N n) as [|c s IH]; simpl in *; [done|].
      apply andb_prop in H1 as [-> H1]. by rewrite IH. }
  by rewrite Hn, take_app_length, drop_app_length, H2.
Qed.

Lemma read_attribute_spec a k : read_attribute (json_attribute a ++ k) = Some (a, k).
Proof.
  unfold read_attribute, json_attribute. rewrite <- !app_assoc, expect_app. cbn [mbind option_bind].
  change (json_key (lit "name") ++ json_string (attr_name a) ++ ?x) with
    (json_key (lit "name") ++ (json_string (attr_name a) ++ x)).
  pose proof (read_field_spec "name" (attr_name a)) as H1. pose proof (read_field_spec "value" (attr_value a)) as H2.
  unfold json_field in H1, H2. setoid_rewrite <- app_assoc in H1. setoid_rewrite <- app_assoc in H2.
  rewrite H1. cbn [mbind option_bind]. rewrite expect_app. cbn [mbind option_bind].
  rewrite H2. cbn [mbind option_bind]. rewrite expect_app. cbn [mbind option_bind]. by destruct a.
Qed.

Lemma read_attributes_spec l fuel k :
  length l < fuel -> read_attributes fuel (json_attributes l ++ lit "]" ++ k) = Some (l, k).
Proof.
  revert fuel. induction l as [|a l IH]; intros [|fuel] Hf; simpl in Hf; [lia|done|lia|]. cbn [read_attributes].
  assert (He : forall t, expect (lit "]") (json_attribute a ++ t) = None) by done.
  destruct l as [|a2 l].
  - cbn [json_attributes]. rewrite He, read_attribute_spec. cbn [mbind option_bind].
    assert (Hc : expect (lit ",") (lit "]" ++ k) = None) by done. by rewrite Hc, expect_app.
  - change (json_attributes (a :: a2 :: l)) with (json_attribute a ++ lit "," ++ json_attributes (a2 :: l)).
    rewrite <- !app_assoc, He, read_attribute_spec. cbn [mbind option_bind]. rewrite expect_app.
    rewrite IH by (simpl in *; lia). done.
Qed.

Lemma json_attributes_length l : length l <= length (json_attributes l).
Proof.
  induction l as [|a [|b l] IH]; cbn [json_attributes length]; [lia|unfold json_attribute; simpl; lia|].
  rewrite !length_app. cbn [length] in IH. unfold json_attribute at 1. simpl. simpl in IH. lia.
Qed.

Lemma read_record_spec e : read_record (json_event e) = Some (record_of e).
Proof.
  unfold read_record, json_event. rewrite expect_app. cbn [mbind option_bind].
  do 5 (rewrite read_field_spec; cbn [mbind option_bind]; rewrite ?expect_app; cbn [mbind option_bind]).
  rewrite (app_assoc (lit ",") (json_key (lit "depth"))), expect_app. cbn [mbind option_bind].
  unfold record_of. destruct (is_start e).
  - rewrite <- !app_assoc, read_number_spec by done. cbn [mbind option_bind].
    assert (Hb : forall t, expect (lit "}") (lit "," ++ t) = None) by done. rewrite Hb.
    rewrite expect_app. cbn [mbind option_bind]. rewrite read_field_spec. cbn [mbind option_bind].
    pose proof (expect_app (lit "," ++ json_key (lit "attributes") ++ lit "[")
      (json_attributes (e_attributes e) ++ lit "]" ++ lit "}")) as Ha.
    rewrite <- !app_assoc in Ha. rewrite Ha. cbn [mbind option_bind].
    rewrite read_attributes_spec by (rewrite !length_app; pose proof (json_attributes_length (e_attributes e)); simpl; lia).
    by destruct e.
  - by rewrite read_number_spec.
Qed.

(** No control byte in a record, so no line feed. *)
Definition printable (s : bytes) : bool := forallb (fun c => 0x20 <=? code c)%N s.

Lemma printable_app a b : printable (a ++ b) = printable a && printable b.
Proof. apply forallb_app. Qed.

Lemma json_char_printable c : printable (json_char c) = true.
Proof. by_ascii c. Qed.

Lemma json_string_printable v : printable (json_string v) = true.
Proof.
  unfold json_string. rewrite !printable_app, andb_true_r. cbn [andb]. change (printable [dquote]) with true.
  induction v as [|c v IH]; [done|]. rewrite mjoin_fmap_cons, printable_app, json_char_printable. exact IH.
Qed.

Lemma print_N_printable n : printable (print_N n) = true.
Proof.
  destruct (print_N_spec n) as [H _]. induction (print_N n) as [|c s IH]; [done|].
  simpl in *. apply andb_prop in H as [Hc H]. rewrite IH by done. rewrite andb_true_r. revert Hc. by_ascii c.
Qed.

#[local] Opaque json_string.

Lemma json_key_printable key : printable (json_key (lit key)) = true.
Proof.
  unfold json_key. by rewrite printable_app, json_string_printable.
Qed.

#[local] Opaque json_key.

Lemma json_attributes_printable l : printable (json_attributes l) = true.
Proof.
  assert (Ha : forall a, printable (json_attribute a) = true).
  { intros a. unfold json_attribute. by rewrite !printable_app, !json_key_printable, !json_string_printable. }
  induction l as [|a [|b l] IH]; [done|apply Ha|].
  change (json_attributes (a :: b :: l)) with (json_attribute a ++ lit "," ++ json_attributes (b :: l)).
  by rewrite !printable_app, Ha, IH.
Qed.

#[local] Opaque json_attributes.

Lemma json_event_printable e : printable (json_event e) = true.
Proof.
  unfold json_event, json_field. rewrite !printable_app, !json_key_printable, !json_string_printable, print_N_printable.
  destruct (is_start e); [|done].
  by rewrite !printable_app, !json_key_printable, !json_string_printable, json_attributes_printable.
Qed.

Lemma printable_no_newline s : printable s = true -> none (fun c => c =c newline) s = true.
Proof.
  unfold printable, none. induction s as [|c s IH]; simpl; [done|]. intros [Hc H]%andb_prop.
  rewrite IH by done. rewrite andb_true_r. revert Hc. by_ascii c.
Qed.

Lemma read_lines_spec l fuel :
  length l <= fuel -> read_lines fuel (encode_prowse_events_ndjson l) = Some (map record_of l).
Proof.
  revert fuel. induction l as [|e l IH]; intros [|fuel] Hf; simpl in Hf; [done|done|lia|].
  unfold encode_prowse_events_ndjson in *. rewrite mjoin_fmap_cons, <- app_assoc. cbn [app].
  set (k := mjoin _) in *. destruct (json_event e ++ newline :: k) eqn:E; [by destruct (json_event e)|].
  rewrite <- E. clear E. cbn [read_lines]. destruct (json_event e ++ newline :: k) eqn:E; [by destruct (json_event e)|].
  rewrite <- E, find_if_mid; [|apply printable_no_newline, json_event_printable|done].
  cbn [mbind option_bind]. rewrite take_app_length, read_record_spec. cbn [mbind option_bind].
  replace (drop (S (length (json_event e))) (json_event e ++ newline :: k)) with k.
  - by rewrite IH by lia.
  - rewrite drop_app_ge by lia. replace (S (length (json_event e)) - length (json_event e)) with 1 by lia. by rewrite skipn_cons, drop_0.
Qed.

Lemma encode_length l : length l <= length (encode_prowse_events_ndjson l).
Proof.
  unfold encode_prowse_events_ndjson. induction l as [|e l IH]; [done|].
  rewrite mjoin_fmap_cons, !length_app. simpl in *. lia.
Qed.

(** ** Properties *)

(** C10: a page whose names are plain survives the binary form: decoding what was emitted
    gives back every event of the page in order, less the snapshots (text and
    attributes) that only the in-memory start events carry; no count, length or depth is
    truncated to 32 bits on the way. *)
Theorem vtd_roundtrip d root s :
  dom_wf d -> is_Some (nodes d !! root) -> parent_of d root = None -> plain_names d ->
  emit_prowse_vtd d root = Ret s ->
  exists l, emit_prowse_events d root = Ret l /\ decode_prowse_vtd s = map drop_snapshot l.
Proof.
  intros Hwf Hr Hp Hn. unfold emit_prowse_vtd, emit_prowse_events.
  pose proof (build_ir_spec d Hwf root Hr Hp) as H. destruct (build_ir d root) as [b|e]; [|done].
  cbn [mbind result_bind]. destruct H as [-> Hc]. intros [= <-]. exists (page_events d root). split; [done|].
  assert (Hne : nested [] (page_events d root) = true)
    by (unfold page_events; rewrite <- (app_nil_r (node_events _ _ _ _)), nested_node; done).
  destruct (budget_sizes _ _ Hc Hne) as [H1 H2]. apply decode_encode; [|done..]. by apply node_events_vtd.
Qed.

(** The binary decoder is safe on any input: it answers the empty stream, or every
    decoded event is paid for by seventeen bytes of input behind a header of nine, so a
    forged count never makes the answer larger than the input; and an accepted input is
    exact: any bytes behind it, or missing at its end, make the answer empty. *)
Theorem vtd_decode_exact s :
  (decode_prowse_vtd s = [] \/ 9 + 17 * length (decode_prowse_vtd s) <= length s) /\
  (decode_prowse_vtd s = [] \/
   (forall k, k <> [] -> decode_prowse_vtd (s ++ k) = []) /\
   (forall n, n < length s -> decode_prowse_vtd (take n s) = [])).
Proof.
  split; destruct (decide (decode_prowse_vtd s = [])) as [|H]; auto; right.
  - by apply decode_length.
  - split; [by intros; apply decode_prefix_free|]. intros n Hn.
    destruct (decide (decode_prowse_vtd (take n s) = [])) as [|Ht]; [done|]. exfalso. apply H.
    rewrite <- (take_drop n s). apply decode_prefix_free; [done|]. intros Hd.
    apply (f_equal length) in Hd. rewrite length_drop in Hd. simpl in Hd. lia.
Qed.

(** Newline-delimited JSON loses nothing: whatever bytes the events carry, a reader of
    the format that takes one record per line gets every event back, in order, with the
    text and the attributes of its starts. *)
Theorem ndjson_roundtrip l :
  read_ndjson (encode_prowse_events_ndjson l) = Some (map record_of l).
Proof. apply read_lines_spec, encode_length. Qed.

(** ** Witness *)

Lemma vtd_roundtrip_witness :
  exists s l, emit_prowse_vtd sample 0 = Ret s /\ emit_prowse_events sample 0 = Ret l /\ length l = 8 /\
    decode_prowse_vtd s = map drop_snapshot l.
Proof.
  destruct (emit_prowse_vtd sample 0) as [s|e] eqn:E; [|exfalso; vm_compute in E; discriminate].
  destruct sample_facts as [H1 H2].
  destruct (vtd_roundtrip sample 0 s sample_wf H1 H2) as (l & Hl & H); [|done|].
  - intros i He. revert He.
    apply (sample_nodes (fun i => is_element sample i = true ->
      plain_tag (name_of sample i) = true /\ Forall (fun a => nonempty (attr_name a) = true) (attributes_of sample i))).
    + clear i. intros i Hi. do 5 (destruct i as [|i]; [intros He; split; [vm_compute in *; congruence|
        vm_compute; repeat constructor]|]). lia.
    + clear i. intros i Hi. unfold is_element. by rewrite Hi.
  - exists s, l. split; [done|]. split; [done|]. split; [|done].
    vm_compute in Hl. injection Hl as <-. reflexivity.
Defined.
