(* ===== verification/IrIml.v ===== *)
(** * ProwseIML, the S-expression form of a page: [src/core/ir_iml.cpp]

    The serializer runs over the tree a document's nodes form ([Dom.tree_of]).  The macro
    scanner's position is the suffix that is left.  The expander is the caller's function,
    a parameter; it may throw. *)
From S2P Require Import Prelude Html HtmlTree Dom Ir.

Definition escape_iml_char (c : ascii) : bytes :=
  if c =c backslash then [backslash; backslash]
  else if c =c dquote then [backslash; dquote]
  else if c =c byte 10 then [backslash; "n"%char]
  else if c =c byte 13 then [backslash; "r"%char]
  else if c =c byte 9 then [backslash; "t"%char]
  else [c].

Definition escape_iml (text : bytes) : bytes := mjoin (escape_iml_char <$> text).

Definition is_iml_element (n : Node) : bool := match type n with Element => true | _ => false end.
Definition is_iml_text (n : Node) : bool :=
  match type n with Text => is_renderable_text (text n) | _ => false end.

Definition iml_attribute (a : Attribute) : bytes :=
  lit " (" ++ attr_name a ++ lit " " ++ [dquote] ++ escape_iml (attr_value a) ++ [dquote] ++ lit ")".

Definition newline_ : bytes := [byte 10].

Fixpoint emit_iml_node (node : Node) (indent : nat) : bytes :=
  let spaces := replicate indent " "%char in
  match type node with
  | Document =>
      lit "(document" ++ newline_ ++
      mjoin (map (fun c => emit_iml_node c (indent + 2)) (children node)) ++ lit ")" ++ newline_
  | Element =>
      spaces ++ lit "(element " ++ name node ++
      (if nonempty (node_attributes node)
       then lit " (@" ++ mjoin (iml_attribute <$> node_attributes node) ++ lit ")" else []) ++
      (if negb (existsb is_iml_element (children node)) && negb (existsb is_iml_text (children node))
       then lit ")" ++ newline_
       else newline_ ++ mjoin (map (fun c => emit_iml_node c (indent + 2)) (children node)) ++
            spaces ++ lit ")" ++ newline_)
  | Text =>
      if is_renderable_text (text node) then
        spaces ++ lit "(text " ++ [dquote] ++ escape_iml (text node) ++ [dquote] ++ lit ")" ++ newline_
      else []
  | _ => []
  end.

Definition emit_prowse_iml (d : dom) (root : nat) : bytes := emit_iml_node (tree_of d root) 0.

Definition unescape_iml_char (c : ascii) : ascii :=
  if c =c "n" then byte 10 else if c =c "r" then byte 13 else if c =c "t" then byte 9 else c.

Fixpoint unescape_iml_string (text : bytes) : bytes :=
  match text with
  | [] => []
  | c :: r =>
      if c =c backslash then
        match r with
        | [] => [c]
        | next :: r' => unescape_iml_char next :: unescape_iml_string r'
        end
      else c :: unescape_iml_string r
  end.

(** The raw string up to the closing quote, and what is behind it; [None] at the end. *)
Fixpoint quoted_raw (s : bytes) : option (bytes * bytes) :=
  match s with
  | [] => None
  | c :: r =>
      if c =c dquote then Some ([], r)
      else if c =c backslash then
        match r with
        | [] => None
        | e :: r' => '(raw, k) ← quoted_raw r'; Some (c :: e :: raw, k)
        end
      else '(raw, k) ← quoted_raw r; Some (c :: raw, k)
  end.

Definition parse_quoted (s : bytes) : bytes * bytes :=
  match s with
  | [] => ([], [])
  | c :: r =>
      if c =c dquote then
        match quoted_raw r with
        | Some (raw, k) => (unescape_iml_string raw, k)
        | None => ([], [])
        end
      else ([], s)
  end.

Definition iml_space (c : ascii) : bool := (c =c " ") || (c =c byte 9) || (c =c byte 10) || (c =c byte 13).

Definition skip_spaces (s : bytes) : bytes := skip iml_space s.

(** The argument loop; an argument takes a byte at least. *)
Fixpoint macro_args (fuel : nat) (s : bytes) : option (list bytes * bytes) :=
  match fuel with
  | O => None
  | S fuel' =>
      match skip_spaces s with
      | [] => None
      | c :: r =>
          if c =c ")" then Some ([], r)
          else if c =c dquote then
            let '(a, k) := parse_quoted (c :: r) in
            '(args, e) ← macro_args fuel' k;
            Some (a :: args, e)
          else None
      end
  end.

Definition macro_name_char (c : ascii) : bool := negb ((c =c ")") || iml_space c).

Definition macro_start : bytes := lit "(macro ".

(** Name, arguments and the suffix behind the form. *)
Definition parse_macro (s : bytes) : option (bytes * list bytes * bytes) :=
  if negb (starts_with macro_start s) then None
  else
    let r := drop 7 s in
    let n := span macro_name_char r in
    if negb (nonempty n) then None
    else
      let k := skip macro_name_char r in
      '(args, e) ← macro_args (S (length k)) k;
      Some (n, args, e).

Section Expand.
(** [None]: the empty [std::function]. *)
Variable expander : option (bytes -> list bytes -> result bytes).

Fixpoint expand_loop (fuel : nat) (s : bytes) : result bytes :=
  match fuel, s with
  | _, [] => Ret []
  | O, _ => Throw Internal
  | S fuel', c :: r =>
      match parse_macro s, expander with
      | Some (n, args, e), Some f =>
          expanded ← f n args;
          out ← expand_loop fuel' e;
          Ret ((if nonempty expanded then expanded else take (length s - length e) s) ++ out)
      | _, _ => out ← expand_loop fuel' r; Ret (c :: out)
      end
  end.

Definition expand_prowse_iml (iml : bytes) : result bytes := expand_loop (length iml) iml.

End Expand.

Example iml_ex :
  emit_prowse_iml sample 0 <> [] /\
  expand_prowse_iml (Some (fun n args => Ret (if n =s lit "x" then mjoin args else [])))
    (lit "a(macro x " ++ [dquote] ++ lit "b" ++ [dquote] ++ lit ")(macro y)") = Ret (lit "ab(macro y)").
Proof. split; [vm_compute; discriminate|vm_compute; reflexivity]. Qed.

(** ** Strings *)

Lemma quoted_char c k :
  quoted_raw (escape_iml_char c ++ k) = '(raw, r) ← quoted_raw k; Some (escape_iml_char c ++ raw, r).
Proof. ascii_cases c; reflexivity. Qed.

Lemma quoted_escape t k : quoted_raw (escape_iml t ++ dquote :: k) = Some (escape_iml t, k).
Proof.
  unfold escape_iml. induction t as [|c t IH]; [done|].
  by rewrite mjoin_fmap_cons, <- app_assoc, quoted_char, IH.
Qed.

Lemma unescape_char c s : unescape_iml_string (escape_iml_char c ++ s) = c :: unescape_iml_string s.
Proof. ascii_cases c; reflexivity. Qed.

Lemma unescape_escape t : unescape_iml_string (escape_iml t) = t.
Proof.
  unfold escape_iml. induction t as [|c t IH]; [done|]. by rewrite mjoin_fmap_cons, unescape_char, IH.
Qed.

Lemma parse_quoted_escape t k : parse_quoted (dquote :: escape_iml t ++ dquote :: k) = (t, k).
Proof. unfold parse_quoted. by rewrite quoted_escape, unescape_escape. Qed.

(** ** Macro calls *)

Definition write_argument (a : bytes) : bytes := " "%char :: dquote :: escape_iml a ++ [dquote].

Definition write_macro (n : bytes) (args : list bytes) : bytes :=
  macro_start ++ n ++ mjoin (write_argument <$> args) ++ lit ")".

Lemma skip_macro_space c s : iml_space c = false -> skip_spaces (" "%char :: c :: s) = c :: s.
Proof. intros Hc. unfold skip_spaces. cbn [skip]. change (iml_space " ") with true. cbn iota. by rewrite Hc. Qed.

Lemma macro_args_write args fuel k :
  length args < fuel ->
  macro_args fuel (mjoin (write_argument <$> args) ++ ")"%char :: k) = Some (args, k).
Proof.
  revert fuel. induction args as [|a args IH]; intros [|fuel] Hf; simpl in Hf; [lia|done|lia|].
  rewrite mjoin_fmap_cons. unfold write_argument at 1. cbn [macro_args app].
  rewrite skip_macro_space by done. change (dquote =c ")") with false. change (dquote =c dquote) with true. cbn iota.
  rewrite <- !app_assoc. cbn [app]. rewrite parse_quoted_escape, IH by lia. done.
Qed.

Lemma parse_macro_write n args k :
  nonempty n = true -> forallb macro_name_char n = true ->
  parse_macro (write_macro n args ++ k) = Some (n, args, k).
Proof.
  intros H1 H2. unfold parse_macro, write_macro. rewrite <- !app_assoc, starts_with_app. cbn [negb].
  change (drop 7 (macro_start ++ ?x)) with x.
  set (t := mjoin (write_argument <$> args) ++ lit ")" ++ k).
  assert (Ht : head_is (fun c => negb (macro_name_char c)) t = true).
  { subst t. by destruct args. }
  assert (Hs : skip macro_name_char (n ++ t) = t).
  { rewrite skip_app by done. destruct t as [|c t]; [done|]. apply skip_stop. by apply negb_true_iff in Ht. }
  assert (Hp : span macro_name_char (n ++ t) = n).
  { pose proof (skip_span macro_name_char (n ++ t)) as H. rewrite Hs in H. by apply app_inv_tail in H. }
  rewrite Hs, Hp, H1. cbn [negb]. subst t. change (lit ")" ++ k) with (")"%char :: k).
  rewrite macro_args_write; [done|]. rewrite length_app. clear. induction args as [|a args IH]; [simpl; lia|].
  rewrite mjoin_fmap_cons, length_app. unfold write_argument at 1. cbn [length] in *. lia.
Qed.

Lemma parse_quoted_length c r : (c =c dquote) = true -> length (parse_quoted (c :: r)).2 <= length r.
Proof.
  intros Hc. unfold parse_quoted. rewrite Hc. destruct (quoted_raw r) as [[raw k]|] eqn:E; simpl; [|lia].
  assert (H : forall n s raw k, length s <= n -> quoted_raw s = Some (raw, k) -> length k <= length s); [|by eapply H].
  clear. induction n as [|n IH]; intros [|c s] raw k Hn; cbn [quoted_raw length] in *; try done; [lia|].
  destruct (c =c dquote); [intros [= _ <-]; lia|]. destruct (c =c backslash).
  - destruct s as [|e s]; [done|]. destruct (quoted_raw s) as [[raw' k']|] eqn:E; [|done].
    intros [= _ <-]. apply IH in E; simpl in *; lia.
  - destruct (quoted_raw s) as [[raw' k']|] eqn:E; [|done]. intros [= _ <-]. apply IH in E; lia.
Qed.




Lemma macro_args_length fuel s args e : macro_args fuel s = Some (args, e) -> length e <= length s.
Proof.
  revert s args. induction fuel as [|fuel IH]; intros s args; [done|]. cbn [macro_args].
  pose proof (length_skip iml_space s) as Hs. fold (skip_spaces s) in Hs.
  destruct (skip_spaces s) as [|c r]; [done|]. cbn [length] in Hs.
  destruct (c =c ")"); [intros [= _ <-]; lia|]. destruct (c =c dquote) eqn:Ec; [|done].
  pose proof (parse_quoted_length c r Ec) as Hp. destruct (parse_quoted (c :: r)) as [a k]. cbn [snd] in Hp.
  destruct (macro_args fuel k) as [[args' e']|] eqn:E; [|done]. intros [= _ <-]. apply IH in E. lia.
Qed.

Lemma parse_macro_length s n args e : parse_macro s = Some (n, args, e) -> S (length e) <= length s.
Proof.
  unfold parse_macro. destruct (starts_with macro_start s) eqn:Es; [|done]. cbn [negb].
  destruct (nonempty _); [|done]. cbn [negb]. destruct (macro_args _ _) as [[args' e']|] eqn:E; [|done].
  intros [= _ _ <-]. apply macro_args_length in E. pose proof (length_skip macro_name_char (drop 7 s)).
  rewrite length_drop in *. destruct s; [done|]. cbn [length] in *. lia.
Qed.

(** ** Expansion *)

Lemma expand_fuel ex f1 f2 s : length s <= f1 -> length s <= f2 -> expand_loop ex f1 s = expand_loop ex f2 s.
Proof.
  revert f2 s. induction f1 as [|f1 IH]; intros f2 s H1 H2.
  { destruct s; [|simpl in H1; lia]. by destruct f2. }
  destruct s as [|c r]; [by destruct f2|]. destruct f2 as [|f2]; [simpl in H2; lia|]. cbn [expand_loop length] in *.
  destruct (parse_macro (c :: r)) as [[[n args] e]|] eqn:E; [|by rewrite (IH f2) by lia].
  apply parse_macro_length in E. cbn [length] in E.
  destruct ex as [f|]; [|by rewrite (IH f2) by lia]. destruct (f n args); [|done]. cbn [mbind result_bind].
  by rewrite (IH f2) by lia.
Qed.

Lemma expand_char ex c r :
  parse_macro (c :: r) = None ->
  expand_prowse_iml ex (c :: r) = (out ← expand_prowse_iml ex r; Ret (c :: out)).
Proof. intros H. unfold expand_prowse_iml. cbn [length expand_loop]. by rewrite H. Qed.

Lemma expand_form f s n args e :
  parse_macro s = Some (n, args, e) ->
  expand_prowse_iml (Some f) s =
  (x ← f n args; out ← expand_prowse_iml (Some f) e;
   Ret ((if nonempty x then x else take (length s - length e) s) ++ out)).
Proof.
  intros H. pose proof (parse_macro_length _ _ _ _ H) as Hl. unfold expand_prowse_iml.
  destruct s as [|c r]; [done|]. cbn [length expand_loop]. rewrite H. destruct (f n args); [|done].
  cbn [mbind result_bind]. by rewrite (expand_fuel _ (length r) (length e)) by (cbn [length] in Hl; lia).
Qed.

Lemma expand_none s : expand_prowse_iml None s = Ret s.
Proof.
  unfold expand_prowse_iml. induction s as [|c s IH]; [done|]. cbn [length expand_loop].
  rewrite IH. by destruct (parse_macro (c :: s)) as [[[]]|].
Qed.

Lemma expand_total f s :
  (forall n args, exists x, f n args = Ret x) -> exists out, expand_prowse_iml (Some f) s = Ret out.
Proof.
  intros Hf. assert (H : forall n s, length s <= n -> exists out, expand_prowse_iml (Some f) s = Ret out); [|by eapply H].
  clear s. induction n as [|n IH]; intros [|c s] Hn; simpl in Hn; [by exists []|lia|by exists []|].
  destruct (parse_macro (c :: s)) as [[[m args] e]|] eqn:E.
  - rewrite (expand_form _ _ _ _ _ E). apply parse_macro_length in E. destruct (Hf m args) as [x ->].
    destruct (IH e) as [out ->]; [simpl in E; lia|]. eexists. done.
  - rewrite (expand_char _ _ _ E). destruct (IH s) as [out ->]; [lia|]. eexists. done.
Qed.

(** No form starts in the text. *)
Definition macro_free (t : bytes) : bool := match find_sub macro_start t with None => true | Some _ => false end.

Lemma macro_free_cons c t : macro_free (c :: t) = true -> starts_with macro_start (c :: t) = false /\ macro_free t = true.
Proof.
  unfold macro_free. cbn [find_sub]. destruct (starts_with macro_start (c :: t)); [done|].
  by destruct (find_sub macro_start t).
Qed.

Lemma starts_into pat c s t k :
  head_is (fun d => d =c "(") k = true -> none (fun d => d =c "(") pat = true ->
  starts_with (c :: pat) (s ++ k) = true -> nonempty s = true -> starts_with (c :: pat) (s ++ t) = true.
Proof.
  intros Hk Hp. destruct s as [|d s]; [done|]. cbn [app starts_with]. intros [-> H]%andb_prop _. cbn [andb].
  revert s H. induction pat as [|p pat IH]; intros [|d' s]; cbn [app starts_with]; try done.
  - destruct k as [|d' k]; [done|]. intros [E _]%andb_prop. apply eqc_true in E as ->. simpl in Hp, Hk.
    apply andb_prop in Hp as [Hp _]. by rewrite Hk in Hp.
  - simpl in Hp. split_andb. intros [-> H']%andb_prop. cbn [andb]. auto.
Qed.

Lemma expand_text ex t k :
  macro_free t = true -> head_is (fun d => d =c "(") k = true ->
  expand_prowse_iml ex (t ++ k) = (out ← expand_prowse_iml ex k; Ret (t ++ out)).
Proof.
  intros Ht Hk. induction t as [|c t IH]; [cbn [app]; destruct (expand_prowse_iml ex k); reflexivity|].
  apply macro_free_cons in Ht as [Hs Ht]. cbn [app]. rewrite expand_char.
  - rewrite IH by done. destruct (expand_prowse_iml ex k); reflexivity.
  - unfold parse_macro. destruct (starts_with macro_start (c :: t ++ k)) eqn:E; [|done].
    apply (starts_into (lit "macro ") "("%char (c :: t) [] k) in E; [|done..].
    rewrite app_nil_r in E. change ("("%char :: lit "macro ") with macro_start in E. congruence.
Qed.

(** A page as text with macro calls in it. *)
Abbreviation call := (bytes * (bytes * list bytes))%type.

Definition render_call (c : call) : bytes := c.1 ++ write_macro c.2.1 c.2.2.
Definition render (l : list call) (rest : bytes) : bytes := mjoin (render_call <$> l) ++ rest.

Definition call_ok (c : call) : bool :=
  macro_free c.1 && nonempty c.2.1 && forallb macro_name_char c.2.1.

(** What expansion means: every call replaced by what the expander makes of it, a call it
    answers nothing for left as it is. *)
Fixpoint expansion (f : bytes -> list bytes -> result bytes) (l : list call) (rest : bytes) : result bytes :=
  match l with
  | [] => Ret rest
  | (t, (n, args)) :: l' =>
      x ← f n args;
      out ← expansion f l' rest;
      Ret (t ++ (if nonempty x then x else write_macro n args) ++ out)
  end.

Lemma expand_render f l rest :
  forallb call_ok l = true -> macro_free rest = true ->
  expand_prowse_iml (Some f) (render l rest) = expansion f l rest.
Proof.
  intros Hl Hr. unfold render. induction l as [|[t [n args]] l IH].
  - cbn [fmap list_fmap mjoin list_join app expansion].
    rewrite <- (app_nil_r rest) at 1. rewrite expand_text by done. cbn. by rewrite app_nil_r.
  - simpl in Hl. unfold call_ok in Hl at 1. cbn [fst snd] in Hl. split_andb.
    rewrite mjoin_fmap_cons. unfold render_call at 1. cbn [fst snd]. rewrite <- !app_assoc.
    rewrite expand_text by done. cbn [expansion].
    set (k := mjoin (render_call <$> l) ++ rest) in *.
    rewrite (expand_form f _ n args k) by (by apply parse_macro_write). rewrite IH by done.
    destruct (f n args) as [x|]; [|done]. cbn [mbind result_bind]. destruct (expansion f l rest) as [out|]; [|done].
    cbn [mbind result_bind]. rewrite length_app, Nat.add_sub, take_app_length. done.
Qed.

(** ** A reader of S-expressions *)

Inductive token := Open | Close | Atom (s : bytes) | Str (s : bytes).

Definition atom_char (c : ascii) : bool :=
  negb (iml_space c || (c =c "(") || (c =c ")") || (c =c dquote)).

Definition atom_ok (s : bytes) : bool := nonempty s && forallb atom_char s.

(** One token, or white space, from the front. *)
Definition lex_step (c : ascii) (r : bytes) : option (list token * bytes) :=
  if iml_space c then Some ([], r)
  else if c =c "(" then Some ([Open], r)
  else if c =c ")" then Some ([Close], r)
  else if c =c dquote then
    '(raw, k) ← quoted_raw r; Some ([Str (unescape_iml_string raw)], k)
  else Some ([Atom (span atom_char (c :: r))], skip atom_char (c :: r)).

Fixpoint lex_loop (fuel : nat) (s : bytes) : option (list token) :=
  match fuel, s with
  | _, [] => Some []
  | O, _ => None
  | S fuel', c :: r => '(t, k) ← lex_step c r; l ← lex_loop fuel' k; Some (t ++ l)
  end.

Definition lex (s : bytes) : option (list token) := lex_loop (length s) s.

Lemma quoted_raw_length s raw k : quoted_raw s = Some (raw, k) -> length k <= length s.
Proof.
  intros E. pose proof (parse_quoted_length dquote s (eqb_refl _)) as H. unfold parse_quoted in H.
  change (dquote =c dquote) with true in H. cbn iota in H. by rewrite E in H.
Qed.

Lemma lex_step_length c r t k : lex_step c r = Some (t, k) -> length k <= length r.
Proof.
  unfold lex_step. destruct (iml_space c) eqn:E1; [intros [= _ <-]; lia|].
  destruct (c =c "(") eqn:E2; [intros [= _ <-]; lia|]. destruct (c =c ")") eqn:E3; [intros [= _ <-]; lia|].
  destruct (c =c dquote) eqn:E4.
  - destruct (quoted_raw r) as [[raw k']|] eqn:E; [|done]. intros [= _ <-]. by apply quoted_raw_length in E.
  - intros [= _ <-]. cbn [skip]. unfold atom_char at 1. rewrite E1, E2, E3, E4. apply length_skip.
Qed.

Lemma lex_fuel f1 f2 s : length s <= f1 -> length s <= f2 -> lex_loop f1 s = lex_loop f2 s.
Proof.
  revert f2 s. induction f1 as [|f1 IH]; intros f2 s H1 H2.
  { destruct s; [|simpl in H1; lia]. by destruct f2. }
  destruct s as [|c r]; [by destruct f2|]. destruct f2 as [|f2]; [simpl in H2; lia|]. cbn [lex_loop length] in *.
  destruct (lex_step c r) as [[t k]|] eqn:E; [|done]. cbn [mbind option_bind]. apply lex_step_length in E.
  by rewrite (IH f2) by lia.
Qed.

Lemma lex_cons c r t k : lex_step c r = Some (t, k) -> lex (c :: r) = app t <$> lex k.
Proof.
  intros H. unfold lex. cbn [lex_loop length]. rewrite H. cbn [mbind option_bind].
  apply lex_step_length in H. rewrite (lex_fuel (length r) (length k)) by lia. by destruct (lex_loop _ k).
Qed.

Lemma app_nil_fmap {A} (o : option (list A)) : app [] <$> o = o.
Proof. by destruct o. Qed.

Lemma app_fmap {A} (a b : list A) (o : option (list A)) : app a <$> (app b <$> o) = app (a ++ b) <$> o.
Proof. destruct o; simpl; [by rewrite app_assoc|done]. Qed.

Lemma lex_space c k : iml_space c = true -> lex (c :: k) = lex k.
Proof. intros H. rewrite (lex_cons c k [] k); [apply app_nil_fmap|]. unfold lex_step. by rewrite H. Qed.

Lemma lex_spaces n k : lex (replicate n " "%char ++ k) = lex k.
Proof. induction n as [|n IH]; [done|]. cbn [replicate app]. by rewrite lex_space. Qed.

Lemma lex_open k : lex ("("%char :: k) = app [Open] <$> lex k.
Proof. by apply lex_cons. Qed.

Lemma lex_close k : lex (")"%char :: k) = app [Close] <$> lex k.
Proof. by apply lex_cons. Qed.

Lemma quote_app s : [dquote] ++ s = dquote :: s.
Proof. done. Qed.

Lemma lex_string t k : lex (dquote :: escape_iml t ++ dquote :: k) = app [Str t] <$> lex k.
Proof.
  apply lex_cons. unfold lex_step. change (iml_space dquote) with false. change (dquote =c "(") with false.
  change (dquote =c ")") with false. change (dquote =c dquote) with true. cbn iota.
  rewrite quoted_escape. cbn [mbind option_bind]. by rewrite unescape_escape.
Qed.

Lemma lex_atom a k :
  atom_ok a = true -> head_is (fun c => negb (atom_char c)) k = true -> lex (a ++ k) = app [Atom a] <$> lex k.
Proof.
  unfold atom_ok. intros [Hn Ha]%andb_prop Hk. assert (Hs : skip atom_char (a ++ k) = k).
  { rewrite skip_app by done. destruct k as [|c k]; [done|]. apply skip_stop. by apply negb_true_iff in Hk. }
  assert (Hp : span atom_char (a ++ k) = a).
  { pose proof (skip_span atom_char (a ++ k)) as H. rewrite Hs in H. by apply app_inv_tail in H. }
  destruct a as [|c a]; [done|]. cbn [app] in Hs, Hp. apply (lex_cons c (a ++ k) [Atom (c :: a)] k). unfold lex_step.
  simpl in Ha. apply andb_prop in Ha as [Hc _]. unfold atom_char in Hc. apply negb_true_iff in Hc.
  rewrite !orb_false_iff in Hc. destruct Hc as [[[-> ->] ->] ->]. by rewrite Hs, Hp.
Qed.

(** ** What the form of a page says *)

Definition attribute_tokens (a : Attribute) : list token :=
  [Open; Atom (attr_name a); Str (attr_value a); Close].

Fixpoint iml_tokens (n : Node) : list token :=
  match type n with
  | Document => [Open; Atom (lit "document")] ++ mjoin (map iml_tokens (children n)) ++ [Close]
  | Element =>
      [Open; Atom (lit "element"); Atom (name n)] ++
      (if nonempty (node_attributes n)
       then [Open; Atom (lit "@")] ++ mjoin (attribute_tokens <$> node_attributes n) ++ [Close] else []) ++
      mjoin (map iml_tokens (children n)) ++ [Close]
  | Text =>
      if is_renderable_text (text n) then [Open; Atom (lit "text"); Str (text n); Close] else []
  | _ => []
  end.

(** Element and attribute names are atoms, and no document is inside another node. *)
Fixpoint iml_ok (n : Node) : bool :=
  (negb (is_iml_element n) ||
   (atom_ok (name n) && forallb (fun a => atom_ok (attr_name a)) (node_attributes n))) &&
  forallb (fun c => iml_ok c && match type c with Document => false | _ => true end) (children n).

Lemma lex_attributes l k :
  forallb (fun a => atom_ok (attr_name a)) l = true ->
  lex (mjoin (iml_attribute <$> l) ++ k) = app (mjoin (attribute_tokens <$> l)) <$> lex k.
Proof.
  induction l as [|a l IH]; intros H; [by rewrite app_nil_fmap|]. simpl in H. apply andb_prop in H as [Ha H].
  rewrite !mjoin_fmap_cons. unfold iml_attribute at 1. rewrite <- !app_assoc.
  change (lit " (" ++ ?x) with (" "%char :: "("%char :: x). rewrite lex_space, lex_open by done.
  rewrite lex_atom by done. change (lit " " ++ ?x) with (" "%char :: x). rewrite lex_space by done.
  rewrite !quote_app, lex_string. change (lit ")" ++ ?x) with (")"%char :: x).
  rewrite lex_close, IH by done. by rewrite !app_fmap.
Qed.

Lemma tokens_quiet n : is_iml_element n = false -> is_iml_text n = false ->
  match type n with Document => false | _ => true end = true -> iml_tokens n = [].
Proof. destruct n as [[] m attrs t cs]; cbn; try done. intros _ H _. by rewrite H. Qed.

Lemma children_quiet l :
  existsb is_iml_element l = false -> existsb is_iml_text l = false ->
  forallb (fun c => iml_ok c && match type c with Document => false | _ => true end) l = true ->
  mjoin (map iml_tokens l) = [].
Proof.
  induction l as [|c l IH]; [done|]. cbn [existsb forallb map]. intros [H1 H2]%orb_false_iff [H3 H4]%orb_false_iff H.
  split_andb. change (mjoin (?x :: ?y)) with (x ++ mjoin y). by rewrite tokens_quiet, IH.
Qed.

Lemma lex_children l indent k :
  Forall (fun c => forall indent k, iml_ok c = true -> lex (emit_iml_node c indent ++ k) = app (iml_tokens c) <$> lex k) l ->
  forallb (fun c => iml_ok c && match type c with Document => false | _ => true end) l = true ->
  lex (mjoin (map (fun c => emit_iml_node c indent) l) ++ k) = app (mjoin (map iml_tokens l)) <$> lex k.
Proof.
  induction 1 as [|c l Hc _ IH]; [by rewrite app_nil_fmap|]. cbn [forallb map]. intros H. split_andb.
  change (mjoin (?x :: ?y)) with (x ++ mjoin y). rewrite <- app_assoc, Hc, IH by done. by rewrite app_fmap.
Qed.

Lemma lex_node n : forall indent k,
  iml_ok n = true -> lex (emit_iml_node n indent ++ k) = app (iml_tokens n) <$> lex k.
Proof.
  induction n as [ty m attrs t cs IH] using Node_rect'. intros indent k Hok.
  cbn [iml_ok children] in Hok. apply andb_prop in Hok as [Hn Hc].
  assert (Hnl : forall x, lex (newline_ ++ x) = lex x) by (intros; by apply lex_space).
  destruct ty; cbn [emit_iml_node iml_tokens type name node_attributes children text].
  - rewrite <- !app_assoc. change (lit "(document" ++ ?x) with ("("%char :: lit "document" ++ x).
    rewrite lex_open, lex_atom, Hnl, lex_children by done. change (lit ")" ++ ?x) with (")"%char :: x).
    rewrite lex_close, Hnl, !app_fmap. done.
  - cbn [is_iml_element type negb orb name node_attributes] in Hn. apply andb_prop in Hn as [Hm Ha].
    rewrite <- !app_assoc, lex_spaces. change (lit "(element " ++ ?x) with ("("%char :: lit "element" ++ " "%char :: x).
    rewrite lex_open, lex_atom, lex_space by done.
    assert (Hlast : forall x, lex ((if negb (existsb is_iml_element cs) && negb (existsb is_iml_text cs)
       then lit ")" ++ newline_
       else newline_ ++ mjoin (map (fun c => emit_iml_node c (indent + 2)) cs) ++
            replicate indent " "%char ++ lit ")" ++ newline_) ++ x) =
       app (mjoin (map iml_tokens cs) ++ [Close]) <$> lex x).
    { intros x. destruct (negb _ && negb _) eqn:E.
      - apply andb_prop in E as [E1%negb_true_iff E2%negb_true_iff]. rewrite children_quiet by done.
        rewrite <- app_assoc. change (lit ")" ++ ?x) with (")"%char :: x). by rewrite lex_close, Hnl.
      - rewrite <- !app_assoc, Hnl, lex_children, lex_spaces by done.
        change (lit ")" ++ ?x) with (")"%char :: x). by rewrite lex_close, Hnl, app_fmap. }
    destruct attrs as [|a attrs].
    + cbn [nonempty app]. rewrite lex_atom; [|done|by destruct (negb _ && negb _)].
      rewrite Hlast. by destruct (lex k).
    + change (nonempty (a :: attrs)) with true. cbn iota. rewrite <- !app_assoc.
      rewrite lex_atom by done. change (lit " (@" ++ ?x) with (" "%char :: "("%char :: lit "@" ++ x).
      rewrite lex_space, lex_open, lex_atom, lex_attributes by done.
      change (lit ")" ++ ?x) with (")"%char :: x). rewrite lex_close, Hlast, !app_fmap. by rewrite <- !app_assoc.
  - cbn [is_renderable_text]. destruct (is_renderable_text t) eqn:Et; [|by rewrite app_nil_fmap].
    rewrite <- !app_assoc, lex_spaces. change (lit "(text " ++ ?x) with ("("%char :: lit "text" ++ " "%char :: x).
    rewrite lex_open, lex_atom, lex_space by done. rewrite !quote_app, lex_string. change (lit ")" ++ ?x) with (")"%char :: x). by rewrite lex_close, Hnl, !app_fmap.
  - by rewrite app_nil_fmap.
  - by rewrite app_nil_fmap.
Qed.

(** A macro call in the text of a page is expanded too: the scanner does not know
    strings. *)
Example macro_in_text_expanded :
  let page := mkNode Element (lit "p") [] [] [mkNode Text [] [] (lit "(macro x)") []] in
  lex (emit_iml_node page 0) =
    Some [Open; Atom (lit "element"); Atom (lit "p"); Open; Atom (lit "text"); Str (lit "(macro x)"); Close; Close] /\
  expand_prowse_iml (Some (fun n args => Ret (lit "expanded"))) (emit_iml_node page 0) =
    Ret (lit "(element p" ++ newline_ ++ lit "  (text " ++ [dquote] ++ lit "expanded" ++ [dquote] ++ lit ")" ++
         newline_ ++ lit ")" ++ newline_).
Proof. split; vm_compute; reflexivity. Qed.

(** ** Properties *)

(** A page whose element and attribute names are atoms is written as exactly one
    S-expression per node: a reader of S-expressions gets back the tree, names,
    attributes and texts of the page, and nothing in an attribute value or a text breaks
    out of its string. *)
Theorem iml_reads_back d root :
  iml_ok (tree_of d root) = true ->
  lex (emit_prowse_iml d root) = Some (iml_tokens (tree_of d root)).
Proof.
  intros H. unfold emit_prowse_iml. rewrite <- (app_nil_r (emit_iml_node _ _)), lex_node by done.
  cbn. by rewrite app_nil_r.
Qed.

(** Macro expansion replaces every call written in a text by what the expander answers
    for its name and its unescaped arguments, from left to right, leaves a call with an
    empty answer and everything else as it is, and passes on the first exception; without
    an expander it changes nothing; and it ends on any input, failing only when the
    expander does. *)
Theorem expand_prowse_iml_spec f l rest :
  forallb call_ok l = true -> macro_free rest = true ->
  expand_prowse_iml (Some f) (render l rest) = expansion f l rest /\
  (forall s, expand_prowse_iml None s = Ret s) /\
  (forall s, (forall n args, exists x, f n args = Ret x) -> exists out, expand_prowse_iml (Some f) s = Ret out).
Proof.
  intros Hl Hr. split; [by apply expand_render|]. split; [apply expand_none|]. intros s Hf. by apply expand_total.
Qed.

(** ** Witnesses *)

Lemma iml_reads_back_witness :
  lex (emit_prowse_iml sample 0) = Some (iml_tokens (tree_of sample 0)) /\
  length (iml_tokens (tree_of sample 0)) = 26.
Proof. split; [apply (iml_reads_back sample 0); vm_compute; reflexivity|vm_compute; reflexivity]. Defined.

Definition sample_calls : list call :=
  [(lit "a", (lit "twice", [lit "b)" ++ [dquote]; lit "c"])); (lit "(x) ", (lit "none", []))].

Definition sample_expander (n : bytes) (args : list bytes) : result bytes :=
  Ret (if n =s lit "twice" then mjoin args ++ mjoin args else []).

Lemma expand_prowse_iml_spec_witness :
  expand_prowse_iml (Some sample_expander) (render sample_calls (lit "d")) =
  Ret (lit "ab)" ++ [dquote] ++ lit "cb)" ++ [dquote] ++ lit "c(x) (macro none)d").
Proof.
  destruct (expand_prowse_iml_spec sample_expander sample_calls (lit "d")) as [H _];
    [vm_compute; reflexivity|vm_compute; reflexivity|].
  rewrite H. vm_compute. reflexivity.
Defined.
