(* ===== verification/IrFilter.v ===== *)
(** * Selecting events by XPath: [src/core/ir_filter.cpp]

    The XPath engine is a third-party library: [evaluate_xpath] is a parameter, about
    which nothing is assumed.  It answers a value (of which the filter reads the type and
    the matched elements) or throws. *)
From S2P Require Import Prelude Html HtmlTree Dom Ir.

Inductive XPathValueType := NodeSet | StringValue | NumberValue | BooleanValue.

(** The fields of [XPathValue] the filter reads; [None] is a null element. *)
Record XPathValue := { xv_type : XPathValueType; xv_nodes : list (option nat) }.

Inductive XPathLegality := Legal | EmptyExpression | Rejected (error : ErrorCode).

(** Climb from a path through the scopes above it.  Every turn shortens the path, so its
    length is enough fuel. *)
Fixpoint climb (fuel : nat) (selected : gset bytes) (scope : bytes) : bool :=
  if decide (scope ∈ selected) then true
  else match fuel with
  | O => false
  | S fuel' =>
      match find_last_if (fun c => c =c "/") scope with
      | None => false
      | Some slash =>
          if starts_with (lit "text()[") (drop (S slash) scope) then climb fuel' selected (take slash scope)
          else
            match find_last_if (fun c => c =c "[") scope with
            | None => false
            | Some bracket =>
                if (bracket <? S slash)%nat ||
                   negb match last scope with Some c => c =c "]" | None => false end
                then false
                else
                  let up := take slash scope in
                  if negb (nonempty up) then false else climb fuel' selected up
            end
      end
  end.

Section Xpath.
Variable evaluate_xpath : dom -> nat -> bytes -> result XPathValue.

Definition check_xpath_legality (d : dom) (root : nat) (expression : bytes) : XPathLegality :=
  if negb (nonempty expression) then EmptyExpression
  else match evaluate_xpath d root expression with
       | Ret _ => Legal
       | Throw e => Rejected e
       end.

Definition is_valid_xpath_expression (d : dom) (root : nat) (expression : bytes) : bool :=
  match check_xpath_legality d root expression with Legal => true | _ => false end.

Definition selected_paths (paths : gmap nat bytes) (matches : list (option nat)) : gset bytes :=
  list_to_set (omap (fun n => i ← n; paths !! i) matches).

Definition filter_prowse_xas (d : dom) (root : nat) (xpath_expression : bytes) : result ProwseEventStream :=
  if negb (nonempty xpath_expression) then Ret []
  else
    ir ← build_ir d root;
    match evaluate_xpath d root xpath_expression with
    | Throw _ => Ret []
    | Ret matches =>
        match xv_type matches with
        | NodeSet =>
            let selected := selected_paths (node_paths ir) (xv_nodes matches) in
            if decide (selected = ∅) then Ret []
            else Ret (List.filter (fun e => climb (length (e_xpath e)) selected (e_xpath e)) (b_events ir))
        | _ => Ret []
        end
    end.

End Xpath.

(** ** Climbing *)

(** A segment the climb passes: it has no slash, and is a text step or ends in an index. *)
Definition seg_ok (s : bytes) : bool :=
  no_slash s &&
  (starts_with (lit "text()[") s ||
   (existsb (fun c => c =c "[") s && match last s with Some c => c =c "]" | None => false end)).

Definition joined (segments : list bytes) : bytes := mjoin ((fun s => "/"%char :: s) <$> segments).

Lemma joined_snoc l s : joined (l ++ [s]) = joined l ++ "/"%char :: s.
Proof. unfold joined. rewrite fmap_app, join_app. cbn. by rewrite app_nil_r. Qed.

(** The scopes of a path are itself and the scopes of what is above its last segment. *)
Lemma within_snoc a s p :
  no_slash s = true ->
  is_within_scope (a ++ "/"%char :: s) p = (a ++ "/"%char :: s =s p) || is_within_scope a p.
Proof.
  intros Hs. unfold is_within_scope. destruct (a ++ "/"%char :: s =s p) eqn:E1; [done|]. cbn [orb].
  apply eq_true_iff_eq. rewrite orb_true_iff, !andb_true_iff. split.
  - intros [[H1 H2] H3]. apply starts_with_spec in H2. set (r := drop (length p) (a ++ "/"%char :: s)) in *.
    rewrite H2, lookup_app_r, Nat.sub_diag in H3 by done. destruct r as [|c r]; [done|]. simpl in H3.
    apply eqc_true in H3 as ->.
    destruct (decide (length p < length a)) as [Hl|Hl].
    + right. assert (Ha : a = p ++ "/"%char :: take (length a - S (length p)) r).
      { apply (f_equal (take (length a))) in H2. rewrite take_app_length, take_app_ge in H2 by lia.
        replace (length a - length p) with (S (length a - S (length p))) in H2 by lia. exact H2. }
      rewrite Ha. rewrite starts_with_app, length_app. cbn [length].
      rewrite lookup_app_r, Nat.sub_diag by done. split; [split; [apply Nat.ltb_lt; lia|done]|done].
    + left. assert (length p = length a).
      { apply Nat.ltb_lt in H1. rewrite length_app in H1. cbn [length] in H1.
        destruct (decide (length p = length a)) as [|Hn]; [done|exfalso].
        apply (f_equal (fun l => l !! length p)) in H2. rewrite lookup_app_r in H2 by lia.
        rewrite lookup_app_r, Nat.sub_diag in H2 by done. cbn in H2.
        replace (length p - length a) with (S (length p - S (length a))) in H2 by lia. cbn in H2.
        unfold no_slash in Hs. rewrite forallb_forall in Hs.
        apply list_elem_of_lookup_2 in H2. apply list_elem_of_In, Hs in H2. done. }
      apply app_inj_1 in H2 as [-> _]; [|lia]. by apply bool_decide_eq_true.
  - intros [H|[[H1 H2] H3]].
    + apply bool_decide_eq_true in H as ->. rewrite length_app, starts_with_app. cbn [length].
      rewrite lookup_app_r, Nat.sub_diag by done. split; [split; [apply Nat.ltb_lt; lia|done]|done].
    + apply Nat.ltb_lt in H1. rewrite length_app, starts_with_long by lia. rewrite lookup_app_l by done.
      split; [split; [apply Nat.ltb_lt; lia|done]|done].
Qed.

Lemma last_bracket a s :
  existsb (fun c => c =c "[") s = true ->
  exists n, find_last_if (fun c => c =c "[") (a ++ "/"%char :: s) = Some n /\ S (length a) <= n.
Proof.
  intros H. apply existsb_exists in H as (c & Hc & Ec). apply list_elem_of_In in Hc.
  assert (Hn : exists n, find_last_if (fun c => c =c "[") s = Some n).
  { clear -Hc Ec. induction s as [|d s IH]; [set_solver|]. cbn [find_last_if].
    apply elem_of_cons in Hc as [<-|Hc].
    - rewrite Ec. destruct (find_last_if _ s); eauto.
    - destruct (IH Hc) as [n ->]. eauto. }
  destruct Hn as [n Hn]. exists (length (a ++ ["/"%char]) + n). split; [|rewrite length_app; simpl; lia].
  change ("/"%char :: s) with (["/"%char] ++ s). rewrite app_assoc. clear -Hn. generalize (a ++ ["/"%char]) as b.
  intros b. induction b as [|d b IH]; [exact Hn|]. cbn [app find_last_if length]. by rewrite IH.
Qed.

Lemma climb_spec (selected : gset bytes) l : forall fuel,
  [] ∉ selected -> forallb seg_ok l = true -> length (joined l) <= fuel ->
  climb fuel selected (joined l) = bool_decide (exists p, p ∈ selected /\ is_within_scope (joined l) p = true).
Proof.
  intros fuel Hne. revert fuel. induction l as [|s l IH] using rev_ind; intros fuel Hl Hf.
  - assert (E : climb fuel selected (joined []) = false).
    { change (joined []) with (@nil ascii). destruct fuel; cbn [climb]; by rewrite decide_False. }
    rewrite E. symmetry. apply bool_decide_eq_false. intros (p & Hp & H). unfold is_within_scope in H.
    change (joined []) with (@nil ascii) in H. destruct p; [done|]. done.
  - rewrite forallb_app in Hl. cbn [forallb] in Hl. rewrite andb_true_r in Hl. apply andb_prop in Hl as [Hl Hs].
    rewrite joined_snoc in *. set (a := joined l) in *. unfold seg_ok in Hs. apply andb_prop in Hs as [Hns Hs].
    rewrite length_app in Hf. cbn [length] in Hf.
    assert (Hup : forall fuel, length a <= fuel -> (a ++ "/"%char :: s) ∉ selected ->
       climb fuel selected a = bool_decide (exists p, p ∈ selected /\ is_within_scope (a ++ "/"%char :: s) p = true)).
    { intros f Hlf Hin. rewrite IH by done. apply bool_decide_ext. split; intros (p & Hp & H); exists p; (split; [done|]).
      - rewrite within_snoc by done. by rewrite H, orb_true_r.
      - rewrite within_snoc in H by done. apply orb_prop in H as [H|H]; [|done].
        apply bool_decide_eq_true in H as <-. done. }
    destruct fuel as [|fuel]; [lia|]. cbn [climb]. destruct (decide (a ++ "/"%char :: s ∈ selected)) as [Hin|Hin].
    { symmetry. apply bool_decide_eq_true. exists (a ++ "/"%char :: s). split; [done|].
      unfold is_within_scope. by rewrite eqb_bytes_refl. }
    rewrite find_last_if_mid by done. rewrite drop_app_ge by lia.
    replace (S (length a) - length a) with 1 by lia. rewrite skipn_cons, drop_0, take_app_length.
    destruct (starts_with (lit "text()[") s) eqn:Et; [apply Hup; [lia|done]|]. cbn [orb] in Hs.
    apply andb_prop in Hs as [Hb Hlast]. destruct (last_bracket a s Hb) as (n & -> & Hn).
    rewrite (proj2 (Nat.ltb_ge _ _)) by done. cbn [orb].
    assert (last (a ++ "/"%char :: s) = last s) as ->.
    { destruct s as [|c s] using rev_ind; [done|]. change ("/"%char :: s ++ [c]) with (("/"%char :: s) ++ [c]).
      by rewrite app_assoc, !last_snoc. }
    rewrite Hlast. cbn [negb]. destruct (nonempty a) eqn:Ea; cbn [negb]; [apply Hup; [lia|done]|].
    rewrite <- (Hup 0); [|destruct a; [simpl; lia|done]|done]. destruct a; [|done]. cbn [climb]. by rewrite decide_False.
Qed.

(** ** The paths of a page *)

Definition named (d : dom) : Prop := forall i, is_element d i = true -> no_slash (name_of d i) = true.

Lemma path_segment_ok d i : no_slash (name_of d i) = true -> seg_ok (path_segment d i) = true.
Proof.
  intros H. unfold seg_ok. rewrite segment_no_slash by done. unfold path_segment.
  change (lit "[" ++ ?x) with ("["%char :: x). rewrite existsb_app. cbn [existsb].
  change ("["%char =c "[") with true. cbn [orb]. rewrite orb_true_r.
  change (lit "]") with ["]"%char]. rewrite app_comm_cons, app_assoc, last_snoc. by rewrite orb_true_r.
Qed.

Lemma path_segments_ok d up : named d -> forallb seg_ok (path_segments d up) = true.
Proof.
  intros Hn. induction up as [|i up IH]; [done|]. cbn [path_segments]. rewrite forallb_app.
  destruct (is_element d i) eqn:Ei; cbn [forallb]; [rewrite path_segment_ok by auto|]; cbn [andb];
    (destruct up as [|p up]; [done|]); by destruct (is_document d p).
Qed.

Definition ok_path (p : bytes) : Prop := exists l, forallb seg_ok l = true /\ p = joined l.

Lemma element_path_ok d i : named d -> ok_path (element_path d i).
Proof.
  intros Hn. unfold element_path. destruct (is_element d i); [|by exists []].
  exists (reverse (path_segments d (self_and_ancestors d i))). split; [|done].
  pose proof (path_segments_ok d (self_and_ancestors d i) Hn) as H. rewrite forallb_forall in *.
  intros x Hx. apply H. by rewrite <- list_elem_of_In, <- elem_of_reverse, list_elem_of_In.
Qed.

Lemma text_path_ok d i n : named d -> ok_path (element_path d i ++ lit "/text()[" ++ print_N n ++ lit "]").
Proof.
  intros Hn. destruct (element_path_ok d i Hn) as (l & Hl & ->).
  exists (l ++ [lit "text()[" ++ print_N n ++ lit "]"]). split; [|by rewrite joined_snoc].
  rewrite forallb_app, Hl. cbn [forallb]. rewrite andb_true_r. cbn [andb].
  unfold seg_ok. rewrite starts_with_app, orb_true_l, andb_true_r.
  unfold no_slash. rewrite !none_app. destruct (print_N_spec n) as [Hd _].
  pose proof (digits_no_slash _ Hd) as Hs. unfold no_slash in Hs. by rewrite Hs.
Qed.

Lemma node_events_ok d fuel node depth :
  named d -> Forall (fun e => ok_path (e_xpath e)) (node_events fuel d node depth).
Proof.
  intros Hn. revert node depth. induction fuel as [|fuel IH]; intros node depth; [constructor|].
  cbn [node_events]. destruct (is_document d node).
  { induction (children_of d node) as [|c l IHl]; [constructor|]. cbn [map].
    rewrite mjoin_cons. by apply Forall_app. }
  destruct (is_element d node) eqn:He; cbn [negb]; [|constructor].
  pose proof (element_path_ok d node Hn) as Hp.
  constructor; [exact Hp|]. apply Forall_app. split; [|apply Forall_app; split].
  - apply Forall_map, Forall_true. intros. exact Hp.
  - generalize 0%N. induction (children_of d node) as [|c l IHl]; intros index; [constructor|].
    cbn [children_events]. destruct (_ && _).
    + constructor; [by apply text_path_ok|apply IHl].
    + destruct (is_element d c); [|apply IHl]. apply Forall_app. split; [apply IH|apply IHl].
  - by repeat constructor.
Qed.

(** ** The paths the walk records *)

(** [records out l m]: [m] records the elements among [l], under their paths. *)
Definition records (d : dom) (out : IrBuild) (l : list nat) (m : result IrBuild) : Prop :=
  match m with
  | Ret out' => forall i, node_paths out' !! i =
                  if decide (i ∈ List.filter (is_element d) l) then Some (element_path d i) else node_paths out !! i
  | Throw _ => True
  end.

Lemma records_nil d out : records d out [] (Ret out).
Proof. intros i. by rewrite decide_False by set_solver. Qed.

Lemma records_bind d out l1 l2 m k :
  records d out l1 m -> (forall out', records d out' l2 (k out')) -> records d out (l1 ++ l2) (x ← m; k x).
Proof.
  destruct m as [out'|]; [|done]. intros H1 H2. cbn [mbind result_bind]. specialize (H2 out').
  destruct (k out') as [out''|]; [|done]. intros i. rewrite (H2 i), (H1 i), List.filter_app.
  set (f := List.filter (is_element d)).
  destruct (decide (i ∈ f l2)), (decide (i ∈ f l1)), (decide (i ∈ f l1 ++ f l2)); set_solver.
Qed.

Lemma records_push d e out : records d out [] (push_event e out).
Proof.
  unfold push_event. destruct (consume e (b_budget out)); [|done]. cbn [mbind result_bind].
  intros i. by rewrite decide_False by set_solver.
Qed.

Lemma records_pushes d l out : records d out [] (push_events l out).
Proof.
  revert out. induction l as [|e l IH]; intros out; [apply records_nil|].
  apply (records_bind d out [] []); [apply records_push|auto].
Qed.

Lemma records_children d walk node depth index l out (q : nat -> list nat) :
  (forall c out, c ∈ l -> is_element d c = true -> records d out (q c) (walk c out)) ->
  (forall c, c ∈ l -> is_element d c = false -> List.filter (is_element d) (q c) = []) ->
  (forall c, is_text_node d c = true -> is_element d c = false) ->
  records d out (mjoin (map q l)) (walk_children d walk node depth index l out).
Proof.
  intros Hw Hq Ht. revert index out. induction l as [|c l IH]; intros index out; [apply records_nil|].
  assert (Hl : forall index out, records d out (mjoin (map q l)) (walk_children d walk node depth index l out)).
  { intros i o. apply IH; intros; [apply Hw|apply Hq]; (done || by constructor). }
  assert (Hskip : forall out m, is_element d c = false -> records d out (mjoin (map q l)) m ->
            records d out (q c ++ mjoin (map q l)) m).
  { intros o m He. destruct m; [|done]. cbn. intros H i. rewrite (H i), List.filter_app, (Hq c); [done|by constructor|done]. }
  cbn [walk_children map]. rewrite mjoin_cons. destruct (is_text_node d c && _) eqn:E.
  - apply andb_prop in E as [E _]. apply Hskip; [auto|].
    apply (records_bind d out [] _); [apply records_push|auto].
  - destruct (is_element d c) eqn:Ee; [|by apply Hskip].
    apply records_bind; [apply Hw; [by constructor|done]|auto].
Qed.

Lemma element_not d i : is_document d i = true \/ is_text_node d i = true -> is_element d i = false.
Proof.
  unfold is_document, is_text_node, is_element. destruct (nodes d !! i); [|by intros [|]].
  intros [H|H]; apply bool_decide_eq_true in H; by rewrite H.
Qed.

Lemma records_node d fuel node depth out :
  page_shape d -> records d out (preorder fuel d node) (walk_tree fuel d node depth out).
Proof.
  intros [Hs1 Hs2]. revert node depth out. induction fuel as [|fuel IH]; intros node depth out; [done|].
  cbn [preorder walk_tree]. change (node :: ?x) with ([node] ++ x). destruct (is_document d node) eqn:Ed.
  { assert (Hf : List.filter (is_element d) [node] = []) by (cbn; by rewrite element_not by auto).
    assert (H : records d out (mjoin (map (preorder fuel d) (children_of d node)))
                  (walk_all (fun c => walk_tree fuel d c depth) (children_of d node) out)).
    { generalize out. induction (children_of d node) as [|c l IHl]; intros o; [apply records_nil|].
      cbn [walk_all map]. rewrite mjoin_cons. by apply records_bind. }
    destruct (walk_all _ _ _); [|done]. intros i. rewrite (H i), List.filter_app, Hf. done. }
  destruct (is_element d node) eqn:Ee; cbn [negb].
  - destruct (_ || _); [done|]. cbn [throw_if mbind result_bind].
    set (l := mjoin (map (preorder fuel d) (children_of d node))). rewrite <- (app_nil_r l).
    change (records d out ([node] ++ l ++ [])
      (out1 ← Ret (record_path node (element_path d node) out);
       out2 ← push_event (start_event d node depth) out1;
       out3 ← push_events (map (attribute_event d node depth) (attributes_of d node)) out2;
       out4 ← walk_children d (fun c => walk_tree fuel d c (depth + 1)) node depth 0 (children_of d node) out3;
       push_event (end_event d node depth) out4)).
    apply records_bind.
    { intros i. cbn [List.filter]. rewrite Ee. cbn [node_paths record_path]. case_decide as Hi.
      - apply list_elem_of_singleton in Hi as ->. by rewrite lookup_insert_eq.
      - rewrite lookup_insert_ne by set_solver. done. }
    intros out1. apply (records_bind d out1 [] (l ++ [])); [apply records_push|]. intros out2.
    apply (records_bind d out2 [] (l ++ [])); [apply records_pushes|]. intros out3.
    apply records_bind; [|intros; apply records_push].
    apply records_children; [by intros; apply IH| |by intros; apply element_not; right].
    intros c Hc He. destruct fuel as [|fuel]; [done|]. cbn [preorder List.filter].
    by rewrite He, (Hs1 c He (Hs2 node c Hc)).
  - rewrite (Hs1 node Ee Ed). intros i. cbn [map mjoin list_join app List.filter]. rewrite Ee.
    by rewrite decide_False by set_solver.
Qed.

Lemma build_paths d root b :
  page_shape d -> build_ir d root = Ret b ->
  forall i, node_paths b !! i =
    if decide (i ∈ List.filter (is_element d) (doc_order d root)) then Some (element_path d i) else None.
Proof.
  intros Hs Hb i. unfold build_ir in Hb. pose proof (records_node d (size (nodes d)) root 0 empty_build Hs) as H.
  rewrite Hb in H. rewrite (H i). unfold doc_order. by destruct (decide _).
Qed.

Lemma element_path_nonempty d i : dom_wf d -> is_element d i = true -> element_path d i <> [].
Proof.
  intros Hwf He. assert (Hi : is_Some (nodes d !! i)).
  { unfold is_element in He. destruct (nodes d !! i); [eauto|done]. }
  unfold element_path. rewrite He. fold (segments_of d i). rewrite (segments_of_eq d Hwf i Hi He).
  unfold join_path. rewrite reverse_cons, fmap_app, join_app. cbn. intros H.
  apply (f_equal length) in H. rewrite length_app in H. simpl in H. lia.
Qed.

(** The elements of the page among the matches. *)
Definition matched_elements (d : dom) (root : nat) (matches : list (option nat)) : list nat :=
  List.filter (fun i => bool_decide (i ∈ List.filter (is_element d) (doc_order d root))) (omap (fun n => n) matches).

Lemma selected_spec d root b matches p :
  page_shape d -> build_ir d root = Ret b ->
  p ∈ selected_paths (node_paths b) matches <-> exists i, i ∈ matched_elements d root matches /\ p = element_path d i.
Proof.
  intros Hs Hb. unfold selected_paths, matched_elements. rewrite elem_of_list_to_set, list_elem_of_omap. split.
  - intros ([i|] & Hm & H); [|done]. cbn [mbind option_bind] in H. rewrite (build_paths d root b Hs Hb) in H.
    case_decide as Hi; [|done]. injection H as <-. exists i. split; [|done].
    rewrite list_elem_of_In, filter_In, <- list_elem_of_In. split; [|by apply bool_decide_eq_true].
    apply list_elem_of_omap. by exists (Some i).
  - intros (i & Hi & ->). rewrite list_elem_of_In, filter_In, <- list_elem_of_In in Hi. destruct Hi as [Hm Hi].
    apply bool_decide_eq_true in Hi. apply list_elem_of_omap in Hm as ([j|] & Hm & [= ->]).
    exists (Some i). split; [done|]. cbn [mbind option_bind]. rewrite (build_paths d root b Hs Hb). by rewrite decide_True.
Qed.

Lemma filter_ext_Forall {A} (p q : A -> bool) l :
  Forall (fun x => p x = q x) l -> List.filter p l = List.filter q l.
Proof. induction 1 as [|x l Hx _ IH]; simpl; [done|]. by rewrite Hx, IH. Qed.

(** ** Properties *)

(** C11: filtering by XPath keeps, in order, exactly the events of the page whose path is
    the path of a matched element or lies below it, whatever the XPath engine answers;
    an expression that is empty, fails, has another type or matches nothing selects no
    event, and only a page that exceeds the budget is an error. *)
Theorem filter_prowse_xas_exact evaluate d root expression :
  dom_wf d -> is_Some (nodes d !! root) -> parent_of d root = None -> page_shape d -> named d ->
  nonempty expression = true ->
  filter_prowse_xas evaluate d root expression =
  l ← emit_prowse_events d root;
  Ret match evaluate d root expression with
      | Ret {| xv_type := NodeSet; xv_nodes := matches |} =>
          List.filter (fun e => existsb (fun i => is_within_scope (e_xpath e) (element_path d i))
                                  (matched_elements d root matches)) l
      | _ => []
      end.
Proof.
  intros Hwf Hr Hp Hs Hn He. unfold filter_prowse_xas, emit_prowse_events. rewrite He. cbn [negb].
  pose proof (build_ir_spec d Hwf root Hr Hp) as Hb. destruct (build_ir d root) as [b|] eqn:Eb; [|done].
  cbn [mbind result_bind]. destruct Hb as [Hb _].
  destruct (evaluate d root expression) as [[ty matches]|]; [|done]. destruct ty; [|done..].
  cbn [xv_type xv_nodes].
  pose proof (fun p => selected_spec d root b matches p Hs Eb) as Hsel.
  set (selected := selected_paths (node_paths b) matches) in *.
  assert (Hne : [] ∉ selected).
  { intros (i & Hi & H)%Hsel. unfold matched_elements in Hi. rewrite list_elem_of_In, filter_In in Hi.
    destruct Hi as [_ Hi%bool_decide_eq_true]. rewrite list_elem_of_In, filter_In in Hi. destruct Hi as [_ Hi].
    by apply (element_path_nonempty d i Hwf Hi). }
  assert (Hf : List.filter (fun e => climb (length (e_xpath e)) selected (e_xpath e)) (b_events b) =
    List.filter (fun e => existsb (fun i => is_within_scope (e_xpath e) (element_path d i))
                            (matched_elements d root matches)) (b_events b)).
  { apply filter_ext_Forall. rewrite Hb. eapply Forall_impl; [by apply node_events_ok|]. intros e (l & Hl & ->).
    rewrite climb_spec by done. apply eq_true_iff_eq. rewrite bool_decide_eq_true, existsb_exists. split.
    - intros (p & (i & Hi & ->)%Hsel & H). exists i. split; [by apply list_elem_of_In|done].
    - intros (i & Hi & H). exists (element_path d i). split; [|done]. apply Hsel. exists i.
      split; [by apply list_elem_of_In|done]. }
  case_decide as Hempty; [|by rewrite Hf]. f_equal. symmetry.
  assert (Hm : matched_elements d root matches = []).
  { destruct (matched_elements d root matches) as [|i l] eqn:E; [done|]. exfalso.
    assert (H : element_path d i ∈ selected) by (apply Hsel; exists i; split; [constructor|done]).
    rewrite Hempty in H. set_solver. }
  rewrite Hm. cbn [existsb]. clear. by induction (b_events b).
Qed.

(** ** Witness *)

(** An engine that matches the second element under the root, and a null node. *)
Definition sample_xpath (d : dom) (root : nat) (expression : bytes) : result XPathValue :=
  Ret {| xv_type := NodeSet; xv_nodes := [None; Some 3] |}.

Lemma filter_prowse_xas_exact_witness :
  (l ← filter_prowse_xas sample_xpath sample 0 (lit "//p"); Ret (map (fun e => (e_kind e, e_xpath e)) l)) =
  Ret [(lit "start", lit "/div[1]/p[1]"); (lit "attribute", lit "/div[1]/p[1]"); (lit "end", lit "/div[1]/p[1]")].
Proof.
  destruct sample_facts as [H1 H2].
  rewrite (filter_prowse_xas_exact sample_xpath sample 0 (lit "//p") sample_wf H1 H2 sample_shape).
  - vm_compute. reflexivity.
  - unfold named. apply (sample_nodes (fun k => is_element sample k = true -> no_slash (name_of sample k) = true)).
    + intros i Hi. do 5 (destruct i as [|i]; [vm_compute; congruence|]). lia.
    + intros i Hi. unfold is_element. by rewrite Hi.
  - reflexivity.
Defined.
