(* ===== verification/IrRegistry.v ===== *)
(** * Named emitters: [src/core/ir_registry.cpp]

    Every method is one step under the mutex; an emitter runs after the lock is released.
    An emitter is a function of the document; the empty [std::function] is [None]. *)
From S2P Require Import Prelude Html HtmlTree Dom Ir IrCodec IrIml.

Abbreviation Emitter := (dom -> nat -> result bytes).

Record IrEmitterRegistry := { text_ : gmap bytes Emitter; binary_ : gmap bytes Emitter }.

Definition emit_events_text (d : dom) (root : nat) : result bytes :=
  events ← emit_prowse_events d root; Ret (encode_prowse_events_ndjson events).

Definition new_registry : IrEmitterRegistry :=
  {| text_ := <[lit "events" := emit_events_text]>
               {[lit "iml" := fun d root => Ret (emit_prowse_iml d root)]};
     binary_ := {[lit "vtd" := emit_prowse_vtd]} |}.

Definition register_text (name : bytes) (emitter : option Emitter) (r : IrEmitterRegistry) : bool * IrEmitterRegistry :=
  match emitter with
  | Some f => if nonempty name then (true, {| text_ := <[name := f]> (text_ r); binary_ := binary_ r |}) else (false, r)
  | None => (false, r)
  end.

Definition register_binary (name : bytes) (emitter : option Emitter) (r : IrEmitterRegistry) : bool * IrEmitterRegistry :=
  match emitter with
  | Some f => if nonempty name then (true, {| text_ := text_ r; binary_ := <[name := f]> (binary_ r) |}) else (false, r)
  | None => (false, r)
  end.

Definition has_key (name : bytes) (m : gmap bytes Emitter) : bool := bool_decide (is_Some (m !! name)).

Definition unregister (name : bytes) (r : IrEmitterRegistry) : bool * IrEmitterRegistry :=
  (has_key name (text_ r) || has_key name (binary_ r),
   {| text_ := delete name (text_ r); binary_ := delete name (binary_ r) |}).

Definition built_in_text (name : bytes) : bool := (name =s lit "events") || (name =s lit "iml").
Definition built_in_binary (name : bytes) : bool := name =s lit "vtd".

Definition clear_custom (r : IrEmitterRegistry) : IrEmitterRegistry :=
  {| text_ := filter (fun p => built_in_text p.1 = true) (text_ r);
     binary_ := filter (fun p => built_in_binary p.1 = true) (binary_ r) |}.

Definition contains (name : bytes) (r : IrEmitterRegistry) : bool :=
  has_key name (text_ r) || has_key name (binary_ r).

Definition emitter_names (r : IrEmitterRegistry) : list bytes :=
  merge_sort key_order ((map_to_list (text_ r)).*1 ++ (map_to_list (binary_ r)).*1).

(** An unknown name is [None]. *)
Definition emit_from (m : gmap bytes Emitter) (d : dom) (root : nat) (name : bytes) : result (option bytes) :=
  match m !! name with
  | None => Ret None
  | Some f => out ← f d root; Ret (Some out)
  end.

Definition emit_text (d : dom) (root : nat) (name : bytes) (r : IrEmitterRegistry) : result (option bytes) :=
  emit_from (text_ r) d root name.
Definition emit_binary (d : dom) (root : nat) (name : bytes) (r : IrEmitterRegistry) : result (option bytes) :=
  emit_from (binary_ r) d root name.

(** A name registered both ways is listed twice. *)
Example name_listed_twice :
  emitter_names (register_text (lit "vtd") (Some (fun _ _ => Ret [])) new_registry).2 =
  [lit "events"; lit "iml"; lit "vtd"; lit "vtd"].
Proof. vm_compute. reflexivity. Qed.

(** Clearing the custom emitters brings back neither a replaced nor an unregistered
    built-in one. *)
Example clear_keeps_replacement :
  emit_text sample 0 (lit "iml")
    (clear_custom (register_text (lit "iml") (Some (fun _ _ => Ret (lit "mine"))) new_registry).2) =
    Ret (Some (lit "mine")) /\
  emit_text sample 0 (lit "iml") (clear_custom (unregister (lit "iml") new_registry).2) = Ret None.
Proof. split; vm_compute; reflexivity. Qed.

Lemma emit_from_filter (P : bytes -> bool) m d root name :
  emit_from (filter (fun p => P p.1 = true) m) d root name = if P name then emit_from m d root name else Ret None.
Proof.
  unfold emit_from. destruct (P name) eqn:E.
  - destruct (m !! name) as [f|] eqn:Em.
    + by rewrite (map_lookup_filter_Some_2 _ _ _ f).
    + by rewrite map_lookup_filter_None_2 by auto.
  - rewrite map_lookup_filter_None_2; [done|]. right. intros f _. cbn. congruence.
Qed.

Lemma has_key_elem name m : has_key name m = true <-> name ∈ (map_to_list m).*1.
Proof.
  unfold has_key. rewrite bool_decide_eq_true, list_elem_of_fmap. split.
  - intros [f Hf]. exists (name, f). split; [done|]. by apply elem_of_map_to_list.
  - intros ([n f] & -> & Hf). apply elem_of_map_to_list in Hf. eauto.
Qed.

(** ** Properties *)

(** The registry is a pair of maps from names to emitters: registering under a name
    changes what that name, and no other, emits, and is refused only for an empty name
    or emitter; unregistering makes the name unknown both ways; clearing keeps exactly
    the emitters that are under a built-in name; and the names are listed in order,
    each once for every map that has it. *)
Theorem registry_spec r name f d root other :
  (let '(ok, r') := register_text name (Some f) r in
   ok = nonempty name /\
   emit_text d root other r' =
     (if nonempty name && (other =s name) then out ← f d root; Ret (Some out) else emit_text d root other r) /\
   emit_binary d root other r' = emit_binary d root other r) /\
  (let '(known, r') := unregister name r in
   known = contains name r /\
   emit_text d root other r' = (if other =s name then Ret None else emit_text d root other r) /\
   emit_binary d root other r' = (if other =s name then Ret None else emit_binary d root other r)) /\
  emit_text d root other (clear_custom r) = (if built_in_text other then emit_text d root other r else Ret None) /\
  emit_binary d root other (clear_custom r) = (if built_in_binary other then emit_binary d root other r else Ret None) /\
  Sorted key_order (emitter_names r) /\
  emitter_names r ≡ₚ (map_to_list (text_ r)).*1 ++ (map_to_list (binary_ r)).*1 /\
  (contains other r = true <-> other ∈ emitter_names r).
Proof.
  assert (Hp : emitter_names r ≡ₚ (map_to_list (text_ r)).*1 ++ (map_to_list (binary_ r)).*1) by apply merge_sort_Permutation.
  split_and!.
  - unfold register_text. destruct (nonempty name) eqn:En; cbn [andb]; [|done]. split; [done|].
    split; [|done]. unfold emit_text, emit_from. cbn [text_]. destruct (other =s name) eqn:E.
    + apply bool_decide_eq_true in E as ->. by rewrite lookup_insert_eq.
    + apply bool_decide_eq_false in E. by rewrite lookup_insert_ne by done.
  - unfold unregister. split; [done|]. unfold emit_text, emit_binary, emit_from. cbn [text_ binary_].
    destruct (other =s name) eqn:E.
    + apply bool_decide_eq_true in E as ->. by rewrite !lookup_delete_eq.
    + apply bool_decide_eq_false in E. by rewrite !lookup_delete_ne by done.
  - apply (emit_from_filter built_in_text).
  - apply (emit_from_filter built_in_binary).
  - apply Sorted_merge_sort, _.
  - exact Hp.
  - rewrite Hp, elem_of_app, <- !has_key_elem. unfold contains. by rewrite orb_true_iff.
Qed.
