(* ===== verification/CookieRecord.v ===== *)
(** * Cookie records: the encoders of [src/session/encrypted_storage.cpp] and of
    [src/session/tokyocabinet_storage.cpp]

    The persistent back ends keep cookies as sequences of fields, each behind its length in
    four bytes, the most significant first.  A position in a record is the suffix that is
    left. *)
From S2P Require Import Prelude Html Url Storage.

(** ** Integers *)

Definition write_u32 (value : N) : bytes :=
  map (fun shift => byte (N.land (N.shiftr value shift) 255)) [24; 16; 8; 0]%N.

Definition read_u32 (input : bytes) : option (N * bytes) :=
  if (length input <? 4)%nat then None
  else Some (foldl (fun v c => N.lor (N.shiftl v 8) (code c)) 0%N (take 4 input), drop 4 input).

(** [std::to_string] and [std::stoll] of 64-bit integers. *)
Definition to_string (z : Z) : bytes :=
  (if z <? 0 then "-"%char :: print_N (Z.to_N (- z)) else print_N (Z.to_N z))%Z.

Definition int64 (z : Z) : bool := ((- 2 ^ 63 <=? z) && (z <? 2 ^ 63))%Z.

Definition stoll (s : bytes) : option Z :=
  let s1 := skip is_space s in
  let sign := match s1 with c :: _ => (c =c "-") || (c =c "+") | [] => false end in
  let negative := match s1 with c :: _ => c =c "-" | [] => false end in
  let ds := span is_digit (if sign then tail s1 else s1) in
  if nonempty ds then
    let v := (if negative then - Z.of_N (read_N ds) else Z.of_N (read_N ds))%Z in
    if int64 v then Some v else None
  else None.

(** ** Fields *)

Definition max_u32 : N := 2 ^ 32 - 1.

Definition write_field (value : bytes) : result bytes :=
  _ ← throw_if (max_u32 <? N.of_nat (length value))%N Internal;
  Ret (write_u32 (N.of_nat (length value)) ++ value).

Definition read_field (input : bytes) : option (bytes * bytes) :=
  match read_u32 input with
  | None => None
  | Some (n, r) => if (N.of_nat (length r) <? n)%N then None else Some (take (N.to_nat n) r, drop (N.to_nat n) r)
  end.

Fixpoint write_fields (l : list bytes) : result bytes :=
  match l with [] => Ret [] | v :: l' => a ← write_field v; b ← write_fields l'; Ret (a ++ b) end.

Fixpoint read_fields (n : nat) (input : bytes) : option (list bytes * bytes) :=
  match n with
  | O => Some ([], input)
  | S n' =>
      match read_field input with
      | None => None
      | Some (v, r) => match read_fields n' r with Some (l, r') => Some (v :: l, r') | None => None end
      end
  end.

(** ** Cookies *)

Definition flag (b : bool) : bytes := if b then lit "1" else lit "0".
Definition is_flag (s : bytes) : bool := s =s lit "1".

Definition cookie_fields (c : Cookie) : list bytes :=
  [c_name c; c_value c; c_domain c; c_path c; flag (secure c); flag (http_only c); flag (host_only c);
   match expires_unix c with Some t => to_string t | None => [] end; same_site c].

(** The expiration of a record; [None] when it is not a number. *)
Definition read_expiration (s : bytes) : option (option Z) :=
  if nonempty s then match stoll s with Some t => Some (Some t) | None => None end else Some None.

Definition cookie_of_fields (l : list bytes) : option Cookie :=
  match l with
  | [name; value; domain; path; sec; http; host; expiration; same] =>
      match read_expiration expiration with
      | None => None
      | Some t =>
          Some {| c_name := name; c_value := value; c_domain := domain; c_path := path; secure := is_flag sec;
                  http_only := is_flag http; host_only := is_flag host; expires_unix := t; same_site := same |}
      end
  | _ => None
  end.

(** ** The jar's record of the encrypted storage *)

Definition COOKIE_MAGIC : bytes := lit "PTKC1".

Fixpoint serialize_list (cookies : list Cookie) : result bytes :=
  match cookies with
  | [] => Ret []
  | c :: l => a ← write_fields (cookie_fields c); b ← serialize_list l; Ret (a ++ b)
  end.

Definition serialize_cookies (cookies : list Cookie) : result bytes :=
  body ← serialize_list cookies;
  Ret (COOKIE_MAGIC ++ write_u32 (N.of_nat (length cookies) mod 2 ^ 32) ++ body).

(** The loop over the cookies; the length of the input is enough fuel, since a cookie takes
    36 bytes at least. *)
Fixpoint deserialize_loop (fuel : nat) (count : N) (input : bytes) : option (list Cookie * bytes) :=
  if (count =? 0)%N then Some ([], input)
  else match fuel with
       | O => None
       | S fuel' =>
           match read_fields 9 input with
           | None => None
           | Some (fields, r) =>
               match cookie_of_fields fields, deserialize_loop fuel' (count - 1) r with
               | Some c, Some (l, r') => Some (if nonempty (c_name c) then c :: l else l, r')
               | _, _ => None
               end
           end
       end.

Definition deserialize_cookies (input : bytes) : list Cookie :=
  if negb (starts_with COOKIE_MAGIC input) then []
  else match read_u32 (drop (length COOKIE_MAGIC) input) with
       | None => []
       | Some (count, r) =>
           match deserialize_loop (length r) count r with
           | Some (l, []) => l
           | _ => []
           end
       end.

(** ** One cookie of the Tokyo Cabinet storage *)

Definition RECORD_MAGIC : bytes := lit "PTK1".

(** [field]: the length is cut to 32 bits. *)
Definition record_field (value : bytes) : bytes := write_u32 (N.of_nat (length value) mod 2 ^ 32) ++ value.

Definition serialize_cookie (c : Cookie) : bytes := RECORD_MAGIC ++ mjoin (map record_field (cookie_fields c)).

(** [Cookie{}]. *)
Definition empty_cookie : Cookie :=
  {| c_name := []; c_value := []; c_domain := []; c_path := lit "/"; secure := false; http_only := false;
     host_only := true; expires_unix := None; same_site := [] |}.

Definition deserialize_cookie (data : bytes) : Cookie :=
  if negb (starts_with RECORD_MAGIC data) then empty_cookie
  else match read_fields 9 (drop (length RECORD_MAGIC) data) with
       | Some (fields, []) => default empty_cookie (cookie_of_fields fields)
       | _ => empty_cookie
       end.

(** ** Reading back *)

Lemma land_255 n : N.land n 255 = (n mod 256)%N.
Proof. change 255%N with (N.ones 8). by rewrite N.land_ones. Qed.

Lemma code_of_byte n : (n < 256)%N -> code (byte n) = n.
Proof. apply code_byte. Qed.

Lemma length_write_u32 v : length (write_u32 v) = 4.
Proof. done. Qed.

Lemma read_write_u32_be v k : (v < 2 ^ 32)%N -> read_u32 (write_u32 v ++ k) = Some (v, k).
Proof.
  intros Hv. unfold read_u32. rewrite length_app, length_write_u32. change (4 + length k <? 4)%nat with false. cbn iota.
  rewrite take_app_length' by done. rewrite drop_app_length' by done. do 2 f_equal.
  unfold write_u32. cbn [map foldl]. rewrite !land_255, !code_of_byte by (apply N.mod_lt; done).
  rewrite !N.shiftr_div_pow2. change (2 ^ 24)%N with 16777216%N. change (2 ^ 16)%N with 65536%N. change (2 ^ 8)%N with 256%N.
  change (2 ^ 0)%N with 1%N. rewrite !(lor_shiftl _ 8) by (apply N.mod_lt; done). change (2 ^ 8)%N with 256%N.
  rewrite N.div_1_r, ?N.shiftl_0_l, ?N.lor_0_l, ?N.mul_0_l, ?N.add_0_l.
  pose proof (N.Div0.div_mod v 256). pose proof (N.Div0.div_mod (v / 256) 256). pose proof (N.Div0.div_mod (v / 256 / 256) 256).
  rewrite !N.Div0.div_div in *. change (256 * 256 * 256)%N with 16777216%N in *. change (256 * 256)%N with 65536%N in *.
  assert (v / 16777216 < 256)%N by (apply N.Div0.div_lt_upper_bound; lia). rewrite (N.mod_small (v / 16777216)) by done. lia.
Qed.

Lemma write_field_Ret v s : write_field v = Ret s <-> (N.of_nat (length v) < 2 ^ 32)%N /\ s = write_u32 (N.of_nat (length v)) ++ v.
Proof.
  unfold write_field, throw_if, max_u32. generalize (write_u32 (N.of_nat (length v)) ++ v). intros w.
  destruct (N.ltb_spec (2 ^ 32 - 1) (N.of_nat (length v))) as [H|H]; cbn [mbind result_bind].
  - split; [done|]. intros [? _]. lia.
  - split; [intros [= <-]; split; [lia|done]|]. by intros [_ ->].
Qed.

Lemma read_field_app v k : (N.of_nat (length v) < 2 ^ 32)%N -> read_field (write_u32 (N.of_nat (length v)) ++ v ++ k) = Some (v, k).
Proof.
  intros H. unfold read_field. rewrite read_write_u32_be by done. rewrite length_app.
  rewrite (proj2 (N.ltb_ge _ _)) by lia. rewrite Nat2N.id. by rewrite take_app_length, drop_app_length.
Qed.

Lemma read_fields_write l s k : write_fields l = Ret s -> read_fields (length l) (s ++ k) = Some (l, k).
Proof.
  revert s. induction l as [|v l IH]; intros s; cbn [write_fields length read_fields]; [by intros [= <-]|].
  intros (a & Ha & (b & Hb & [= <-])%bind_Ret)%bind_Ret. apply write_field_Ret in Ha as [Hv ->].
  rewrite <- !app_assoc. rewrite read_field_app by done. by rewrite (IH b).
Qed.

Lemma record_field_small v : (N.of_nat (length v) < 2 ^ 32)%N -> record_field v = write_u32 (N.of_nat (length v)) ++ v.
Proof. intros H. unfold record_field. by rewrite N.mod_small. Qed.

Lemma write_fields_mjoin l s : write_fields l = Ret s ->
  s = mjoin (map record_field l) /\ Forall (fun v => N.of_nat (length v) < 2 ^ 32)%N l.
Proof.
  revert s. induction l as [|v l IH]; intros s; cbn [write_fields map]; [by intros [= <-]|].
  intros (a & Ha & (b & Hb & [= <-])%bind_Ret)%bind_Ret. apply write_field_Ret in Ha as [Hv ->].
  destruct (IH b Hb) as [-> Hl]. split; [|by constructor]. rewrite <- record_field_small by done. done.
Qed.

Lemma write_fields_ok l : Forall (fun v => N.of_nat (length v) < 2 ^ 32)%N l -> write_fields l = Ret (mjoin (map record_field l)).
Proof.
  induction 1 as [|v l Hv _ IH]; [done|]. cbn [write_fields map]. rewrite (proj2 (write_field_Ret v _)) by done.
  cbn [mbind result_bind]. rewrite IH. cbn [mbind result_bind]. by rewrite <- record_field_small by done.
Qed.

Lemma digits_not_space c : is_digit c = true -> is_space c = false /\ (c =c "-") = false /\ (c =c "+") = false.
Proof. by_ascii c. Qed.

Lemma span_digits_all s : forallb is_digit s = true -> span is_digit s = s.
Proof. apply span_all. Qed.

(** A 64-bit integer is read back. *)
Lemma stoll_to_string z : int64 z = true -> stoll (to_string z) = Some z /\ to_string z <> [].
Proof.
  intros Hz. unfold stoll, to_string. destruct (Z.ltb_spec z 0) as [H|H].
  - destruct (print_N_spec (Z.to_N (- z))) as (H1 & H2 & H3). split; [|done]. rewrite skip_stop by done.
    change ("-"%char =c "-") with true. cbn [orb tail]. cbn iota. rewrite span_all by done. rewrite H2.
    destruct (print_N _) eqn:E; [done|]. cbn [nonempty]. rewrite Z2N.id by lia. by rewrite Z.opp_involutive, Hz.
  - destruct (print_N_spec (Z.to_N z)) as (H1 & H2 & H3). split; [|done].
    destruct (print_N (Z.to_N z)) as [|c r] eqn:E; [done|]. pose proof H1 as Hd. cbn [forallb] in Hd. apply andb_true_iff in Hd as [Hd _].
    destruct (digits_not_space c Hd) as (S1 & S2 & S3). rewrite skip_stop by done. rewrite S2, S3. cbn [orb]. cbn iota.
    rewrite span_all by done. cbn [nonempty]. rewrite H2, Z2N.id by lia. by rewrite Hz.
Qed.

(** What a record can hold: fields of less than 4 GiB and a 64-bit expiration. *)
Definition cookie_fits (c : Cookie) : Prop :=
  Forall (fun v => N.of_nat (length v) < 2 ^ 32)%N (cookie_fields c) /\
  match expires_unix c with Some t => int64 t = true | None => True end.

Lemma is_flag_flag b : is_flag (flag b) = b.
Proof. by destruct b. Qed.

Lemma cookie_of_cookie_fields c : match expires_unix c with Some t => int64 t = true | None => True end ->
  cookie_of_fields (cookie_fields c) = Some c.
Proof.
  intros H. unfold cookie_fields, cookie_of_fields, read_expiration. rewrite !is_flag_flag.
  destruct c as [n v d p s h o [t|] ss]; cbn [expires_unix c_name c_value c_domain c_path secure http_only host_only same_site] in *; [|done].
  destruct (stoll_to_string t H) as [-> Hn]. destruct (to_string t); [done|]. done.
Qed.

(** A cookie record of the Tokyo Cabinet storage decodes to the cookie it was made of. *)
Theorem cookie_record_roundtrip c : cookie_fits c -> deserialize_cookie (serialize_cookie c) = c.
Proof.
  intros [Hf Ht]. unfold deserialize_cookie, serialize_cookie. rewrite starts_with_app. cbn [negb].
  rewrite drop_app_length. apply write_fields_ok in Hf.
  pose proof (read_fields_write _ _ [] Hf) as H. rewrite app_nil_r in H. change 9 with (length (cookie_fields c)). rewrite H.
  by rewrite cookie_of_cookie_fields.
Qed.

Lemma serialize_list_Ret l s : serialize_list l = Ret s -> Forall (fun c => Forall (fun v => N.of_nat (length v) < 2 ^ 32)%N (cookie_fields c)) l.
Proof.
  revert s. induction l as [|c l IH]; intros s; cbn [serialize_list]; [constructor|].
  intros (a & Ha & (b & Hb & _)%bind_Ret)%bind_Ret. constructor; [by apply write_fields_mjoin in Ha as [_ ?]|by eapply IH].
Qed.

(** Cookies a jar can hold: named, with a 64-bit expiration. *)
Definition jar_cookie (c : Cookie) : Prop :=
  c_name c <> [] /\ match expires_unix c with Some t => int64 t = true | None => True end.

Lemma read_fields_length n s l r : read_fields n s = Some (l, r) -> length r + 4 * n <= length s.
Proof.
  revert s l. induction n as [|n IH]; intros s l; cbn [read_fields]; [intros [= _ ->]; lia|].
  unfold read_field, read_u32. destruct (Nat.ltb_spec (length s) 4); [done|]. destruct (_ <? _)%N; [done|].
  destruct (read_fields n _) as [[l' r']|] eqn:E; [|done]. intros [= _ ->]. apply IH in E. rewrite !length_drop in E. lia.
Qed.

Lemma deserialize_loop_serialize l : forall s fuel,
  Forall jar_cookie l -> serialize_list l = Ret s -> length s <= fuel ->
  deserialize_loop fuel (N.of_nat (length l)) s = Some (l, []).
Proof.
  induction l as [|c l IH]; intros s fuel Hl; cbn [serialize_list].
  { intros [= <-] _. by destruct fuel. }
  intros (a & Ha & (b & Hb & [= <-])%bind_Ret)%bind_Ret Hfuel. apply Forall_cons in Hl as [[Hn Ht] Hl].
  pose proof (read_fields_write _ _ b Ha) as Hr. change (length (cookie_fields c)) with 9 in Hr.
  pose proof (read_fields_length _ _ _ _ Hr) as Hlen. destruct fuel as [|fuel]; [lia|].
  cbn [deserialize_loop length]. rewrite (proj2 (N.eqb_neq _ _)) by lia. rewrite Hr, cookie_of_cookie_fields by done.
  replace (N.of_nat (S (length l)) - 1)%N with (N.of_nat (length l)) by lia.
  rewrite IH by (done || lia). by destruct (c_name c).
Qed.

Lemma Ret_inj {A} (a b : A) : Ret a = Ret b -> a = b.
Proof. by intros [= ->]. Qed.

Lemma deserialize_serialize l s :
  Forall jar_cookie l -> (N.of_nat (length l) < 2 ^ 32)%N -> serialize_cookies l = Ret s -> deserialize_cookies s = l.
Proof.
  intros Hl Hn (body & Hb & H)%bind_Ret. apply Ret_inj in H. subst s. unfold deserialize_cookies. rewrite starts_with_app. cbn [negb].
  rewrite drop_app_length, N.mod_small by done. rewrite read_write_u32_be by done.
  by rewrite (deserialize_loop_serialize l body).
Qed.

(** The record of the encrypted jar decodes to the cookies of the jar, in their order: no
    field is cut or split, whatever bytes it holds. *)
Theorem cookie_jar_roundtrip l s :
  Forall jar_cookie l -> (N.of_nat (length l) < 2 ^ 32)%N -> serialize_cookies l = Ret s -> deserialize_cookies s = l.
Proof. apply deserialize_serialize. Qed.
