(* ===== verification/Backend.v ===== *)
(** * The storage interface: [include/prowsetk/storage.hpp]

    What a storage back end promises to its clients, as a class of operations with its laws,
    and the in-memory storage as an instance.  A reference to a store is named by its kind and
    its session, and an operation on it asks for the store first, as [local_storage] and
    [session_storage] do.  An operation may throw, and the state it leaves is returned in
    either case. *)
From S2P Require Import Prelude Url Storage.

(** ** The interface *)

(** [Storage], with [KeyValueStore] at a kind and a session. *)
Class StorageBackend (S : Type) := {
  b_get : StoreKind -> bytes -> bytes -> op S (option bytes);
  b_set : StoreKind -> bytes -> bytes -> bytes -> op S unit;
  b_remove : StoreKind -> bytes -> bytes -> op S bool;
  b_clear : StoreKind -> bytes -> op S unit;
  b_keys : StoreKind -> bytes -> op S (list bytes);
  (** [set_access_listener] of one store. *)
  b_listen_store : StoreKind -> bytes -> option nat -> op S unit;
  b_release : bytes -> S -> S;
  b_listen : option nat -> S -> S }.

(** The maps of the stores after a change of one. *)
Definition changed (f : StoreKind -> bytes -> gmap bytes bytes) (k : StoreKind) (i : bytes) (m : gmap bytes bytes)
  (k' : StoreKind) (i' : bytes) : gmap bytes bytes :=
  if decide ((k', i') = (k, i)) then m else f k' i'.

Class StorageLaws (S : Type) {B : StorageBackend S} := {
  held : S -> StoreKind -> bytes -> gmap bytes bytes;
  get_law k i key s r s' : b_get k i key s = (r, s') ->
    (forall k' i', held s' k' i' = held s k' i') /\ (forall v, r = Ret v -> v = held s k i !! key);
  set_law k i key v s r s' : b_set k i key v s = (r, s') ->
    match r with
    | Ret _ => forall k' i', held s' k' i' = changed (held s) k i (<[key := v]> (held s k i)) k' i'
    | Throw _ => forall k' i', held s' k' i' = held s k' i'
    end;
  remove_law k i key s r s' : b_remove k i key s = (r, s') ->
    match r with
    | Ret b => b = bool_decide (is_Some (held s k i !! key)) /\
        forall k' i', held s' k' i' = changed (held s) k i (delete key (held s k i)) k' i'
    | Throw _ => forall k' i', held s' k' i' = held s k' i'
    end;
  clear_law k i s r s' : b_clear k i s = (r, s') ->
    match r with
    | Ret _ => forall k' i', held s' k' i' = changed (held s) k i ∅ k' i'
    | Throw _ => forall k' i', held s' k' i' = held s k' i'
    end;
  keys_law k i s r s' : b_keys k i s = (r, s') ->
    (forall k' i', held s' k' i' = held s k' i') /\ (forall l, r = Ret l -> l ≡ₚ elements (dom (held s k i)));
  listen_store_law k i l s r s' : b_listen_store k i l s = (r, s') -> forall k' i', held s' k' i' = held s k' i';
  listen_law l s k' i' : held (b_listen l s) k' i' = held s k' i';
  (** The session's store of a released session is gone; its local store may be kept. *)
  release_others i s k' i' : i' <> i -> held (b_release i s) k' i' = held s k' i';
  release_session_law i s : held (b_release i s) SessionStore i = ∅;
  release_local_law i s : held (b_release i s) Local i = ∅ \/ held (b_release i s) Local i = held s Local i }.

(** ** [MemoryStorage] *)

Definition on_memory {A} (k : StoreKind) (i : bytes) (f : KeyValueStore -> A * KeyValueStore) : op MemoryStorage A :=
  fun s => let '(a, s') := on_store k i f s in (Ret a, s').

Definition store_listen (l : option nat) (st : KeyValueStore) : KeyValueStore :=
  {| values_ := values_ st; store_name := store_name st; listener_ := l; accesses := accesses st |}.

#[export] Instance memory_backend : StorageBackend MemoryStorage := {|
  b_get k i key := on_memory k i (kv_get key);
  b_set k i key v := on_memory k i (fun st => (tt, kv_set key v st));
  b_remove k i key := on_memory k i (kv_remove key);
  b_clear k i := on_memory k i (fun st => (tt, kv_clear st));
  b_keys k i := on_memory k i (fun st => (kv_keys st, st));
  b_listen_store k i l := on_memory k i (fun st => (tt, store_listen l st));
  b_release := release_session;
  b_listen := set_access_listener |}.

Lemma on_memory_spec {A} k i (f : KeyValueStore -> A * KeyValueStore) s r s' :
  on_memory k i f s = (r, s') ->
  r = Ret (f (get_store k i s).1).1 /\
  forall k' i', contents k' i' s' = if decide ((k', i') = (k, i)) then values_ (f (get_store k i s).1).2 else contents k' i' s.
Proof.
  unfold on_memory. pose proof (on_store_contents k i f s) as H. unfold on_store in *.
  destruct (get_store k i s) as [st s1]. cbn [fst] in *. destruct (f st) as [a st']. cbn [fst snd] in *.
  intros [= <- <-]. by split.
Qed.

Lemma changed_same f k i k' i' : changed f k i (f k i) k' i' = f k' i'.
Proof. unfold changed. case_decide as E; [by injection E as -> ->|done]. Qed.

#[export] Instance memory_laws : StorageLaws MemoryStorage.
Proof.
  refine {| held s k i := contents k i s |}.
  - intros k i key s r s' (-> & H)%on_memory_spec. unfold kv_get in *. cbn [fst snd] in *.
    rewrite values_report, get_store_values in H. rewrite get_store_values. split; [|by intros v [= <-]].
    intros k' i'. rewrite H. apply (changed_same (fun k i => contents k i s)).
  - intros k i key v s r s' (-> & H)%on_memory_spec. intros k' i'. rewrite H. cbn [snd kv_set with_values values_].
    by rewrite get_store_values.
  - intros k i key s r s' (-> & H)%on_memory_spec. cbn [kv_remove fst snd with_values values_] in *.
    rewrite get_store_values in *. split; [done|]. intros k' i'. by rewrite H.
  - intros k i s r s' (-> & H)%on_memory_spec. intros k' i'. by rewrite H.
  - intros k i s r s' (-> & H)%on_memory_spec. cbn [fst snd] in *. rewrite get_store_values in H. split.
    + intros k' i'. rewrite H. apply (changed_same (fun k i => contents k i s)).
    + intros l [= <-]. unfold kv_keys. rewrite get_store_values. apply merge_sort_Permutation.
  - intros k i l s r s' (_ & H)%on_memory_spec k' i'. rewrite H. cbn [snd store_listen values_].
    rewrite get_store_values. apply (changed_same (fun k i => contents k i s)).
  - by intros l s [] i'.
  - intros i s [] i' Hi; unfold contents, b_release, memory_backend, release_session; cbn [stores local session];
      by rewrite lookup_delete_ne.
  - intros i s. unfold contents. cbn. by rewrite lookup_delete_eq.
  - intros i s. left. unfold contents. cbn. by rewrite lookup_delete_eq.
Defined.
