(* ===== verification/Encrypted.v ===== *)
(** * Encrypted storage: [src/session/encrypted_storage.cpp]

    A storage that keeps its values and its cookies encrypted in another one.  It is a client
    of the interface [StorageBackend]; the library that derives keys, encrypts and draws random
    bytes is the interface [Cipher], in which [None] is an error the library reports (the code
    throws then).  The state of the random generator is the number of its calls. *)
From S2P Require Import Prelude Html Url Storage CookieRecord Backend.

Class Cipher := {
  random_bytes : nat -> nat -> option bytes;
  derive_key : bytes -> bytes -> option bytes;
  gcm_encrypt : bytes -> bytes -> bytes -> bytes -> option (bytes * bytes);
  gcm_decrypt : bytes -> bytes -> bytes -> bytes -> bytes -> option bytes }.

Definition SALT_SIZE : nat := 16.
Definition NONCE_SIZE : nat := 12.
Definition TAG_SIZE : nat := 16.
Definition VALUE_MAGIC : bytes := lit "PTE3".
Definition COOKIE_RECORD_KEY : bytes := lit "__prowsetk_encrypted_cookies".
Definition COOKIE_SESSION_ID : bytes := lit "__prowsetk_encrypted_cookie_jar".
Definition STORAGE_AAD : bytes := lit "prowsetk-storage-v3".

Section Values.
Context {C : Cipher}.

(** What an error of the library becomes. *)
Definition or_throw {A} (x : option A) : result A :=
  match x with Some a => Ret a | None => Throw Internal end.

Definition draw (size : nat) : op nat bytes := fun n => (or_throw (random_bytes n size), S n).

Definition lift {S A} (m : result A) : op S A := fun s => (m, s).

Definition encrypt_value (password plaintext : bytes) : op nat bytes :=
  salt ← draw SALT_SIZE;
  nonce ← draw NONCE_SIZE;
  key ← lift (or_throw (derive_key password salt));
  x ← lift (or_throw (gcm_encrypt key nonce STORAGE_AAD plaintext));
  mret (VALUE_MAGIC ++ salt ++ nonce ++ x.2 ++ x.1).

(** [envelope.substr(pos, size)]. *)
Definition substr (pos size : nat) (s : bytes) : bytes := take size (drop pos s).

Definition decrypt_value (password envelope : bytes) : result (option bytes) :=
  if (length envelope <? length VALUE_MAGIC + SALT_SIZE + NONCE_SIZE + TAG_SIZE)%nat || negb (starts_with VALUE_MAGIC envelope)
  then Ret None
  else
    let pos := length VALUE_MAGIC in
    let salt := substr pos SALT_SIZE envelope in
    let nonce := substr (pos + SALT_SIZE) NONCE_SIZE envelope in
    let tag := substr (pos + SALT_SIZE + NONCE_SIZE) TAG_SIZE envelope in
    let ciphertext := drop (pos + SALT_SIZE + NONCE_SIZE + TAG_SIZE) envelope in
    key ← or_throw (derive_key password salt);
    Ret (gcm_decrypt key nonce STORAGE_AAD ciphertext tag).

End Values.

(** ** The storage *)

(** [local_stores] and [session_stores] hold the listeners of the wrapped stores. *)
Record EncryptedStorage (S : Type) := {
  backend : S; password : bytes; salt : bytes; key : bytes; entropy : nat;
  cookies_ : list Cookie; jar_listener : option nat;
  local_stores : gmap bytes (option nat); session_stores : gmap bytes (option nat);
  e_listener : option nat; e_accesses : list access }.
Arguments backend {S} _. Arguments password {S} _. Arguments salt {S} _. Arguments key {S} _.
Arguments entropy {S} _. Arguments cookies_ {S} _. Arguments jar_listener {S} _.
Arguments local_stores {S} _. Arguments session_stores {S} _. Arguments e_listener {S} _.
Arguments e_accesses {S} _. Arguments Build_EncryptedStorage {S}.

Section Encrypted.
Context {C : Cipher} {S : Type} {B : StorageBackend S}.

Abbreviation storage := (EncryptedStorage S).

Definition with_backend (b : S) (s : storage) : storage :=
  {| backend := b; password := password s; salt := salt s; key := key s; entropy := entropy s; cookies_ := cookies_ s;
     jar_listener := jar_listener s; local_stores := local_stores s; session_stores := session_stores s;
     e_listener := e_listener s; e_accesses := e_accesses s |}.
Definition with_entropy (n : nat) (s : storage) : storage :=
  {| backend := backend s; password := password s; salt := salt s; key := key s; entropy := n; cookies_ := cookies_ s;
     jar_listener := jar_listener s; local_stores := local_stores s; session_stores := session_stores s;
     e_listener := e_listener s; e_accesses := e_accesses s |}.
Definition with_cookies (l : list Cookie) (s : storage) : storage :=
  {| backend := backend s; password := password s; salt := salt s; key := key s; entropy := entropy s; cookies_ := l;
     jar_listener := jar_listener s; local_stores := local_stores s; session_stores := session_stores s;
     e_listener := e_listener s; e_accesses := e_accesses s |}.
Definition with_accesses (l : list access) (s : storage) : storage :=
  {| backend := backend s; password := password s; salt := salt s; key := key s; entropy := entropy s; cookies_ := cookies_ s;
     jar_listener := jar_listener s; local_stores := local_stores s; session_stores := session_stores s;
     e_listener := e_listener s; e_accesses := l |}.
Definition with_wrappers (local session : gmap bytes (option nat)) (s : storage) : storage :=
  {| backend := backend s; password := password s; salt := salt s; key := key s; entropy := entropy s; cookies_ := cookies_ s;
     jar_listener := jar_listener s; local_stores := local; session_stores := session;
     e_listener := e_listener s; e_accesses := e_accesses s |}.
Definition with_listener (l : option nat) (s : storage) : storage :=
  {| backend := backend s; password := password s; salt := salt s; key := key s; entropy := entropy s; cookies_ := cookies_ s;
     jar_listener := l; local_stores := local_stores s; session_stores := session_stores s;
     e_listener := l; e_accesses := e_accesses s |}.

(** An operation of the back end, and one that draws random bytes. *)
Definition on_backend {A} (m : op S A) : op storage A :=
  fun s => let '(r, b) := m (backend s) in (r, with_backend b s).
Definition on_entropy {A} (m : op nat A) : op storage A :=
  fun s => let '(r, n) := m (entropy s) in (r, with_entropy n s).
Definition modify (f : storage -> storage) : op storage unit := fun s => (Ret tt, f s).
Definition ask {A} (f : storage -> A) : op storage A := fun s => (Ret (f s), s).

(** [report]; an exception of the listener is swallowed. *)
Definition report_to (l : option nat) (store operation key : bytes) (s : storage) : storage :=
  match l with
  | Some h => with_accesses (e_accesses s ++ [{| a_listener := h; a_store := store; a_key := key; a_operation := operation |}]) s
  | None => s
  end.

(** ** [EncryptedKeyValueStore] *)

Definition wrappers (k : StoreKind) (s : storage) : gmap bytes (option nat) :=
  match k with Local => local_stores s | SessionStore => session_stores s end.

Definition add_wrapper (k : StoreKind) (i : bytes) (s : storage) : storage :=
  match k with
  | Local => with_wrappers (<[i := e_listener s]> (local_stores s)) (session_stores s) s
  | SessionStore => with_wrappers (local_stores s) (<[i := e_listener s]> (session_stores s)) s
  end.

(** [local_storage] and [session_storage]: the wrapper, made when it is first asked for, with
    the listener of the storage; the listener of the store it wraps is removed. *)
Definition get_wrapper (k : StoreKind) (i : bytes) : op storage unit := fun s =>
  match wrappers k s !! i with
  | Some _ => (Ret tt, s)
  | None => (_ ← on_backend (b_listen_store k i None); modify (add_wrapper k i)) s
  end.

Definition report_store (k : StoreKind) (i operation key : bytes) : op storage unit :=
  modify (fun s => report_to (default None (wrappers k s !! i)) (kind_name k) operation key s).

Definition decrypt (x : option bytes) : op storage (option bytes) := fun s =>
  match x with None => (Ret None, s) | Some e => (decrypt_value (password s) e, s) end.

Definition encrypt (v : bytes) : op storage bytes := fun s => on_entropy (encrypt_value (password s) v) s.

Definition enc_get (k : StoreKind) (i key : bytes) : op storage (option bytes) :=
  _ ← get_wrapper k i;
  encrypted ← on_backend (b_get k i key);
  _ ← report_store k i (lit "get") key;
  decrypt encrypted.

Definition enc_set (k : StoreKind) (i key v : bytes) : op storage unit :=
  _ ← get_wrapper k i;
  encrypted ← encrypt v;
  _ ← on_backend (b_set k i key encrypted);
  report_store k i (lit "set") key.

Definition enc_remove (k : StoreKind) (i key : bytes) : op storage bool :=
  _ ← get_wrapper k i;
  removed ← on_backend (b_remove k i key);
  _ ← report_store k i (lit "remove") key;
  mret removed.

Definition enc_clear (k : StoreKind) (i : bytes) : op storage unit :=
  _ ← get_wrapper k i;
  _ ← on_backend (b_clear k i);
  report_store k i (lit "clear") [].

Definition enc_keys (k : StoreKind) (i : bytes) : op storage (list bytes) :=
  _ ← get_wrapper k i; on_backend (b_keys k i).

(** ** [EncryptedCookieJar] *)

(** A moved-from string holds a value the language leaves open. *)
Variable moved_from : bytes -> bytes.

Definition jar_report (operation key : bytes) : op storage unit :=
  modify (fun s => report_to (jar_listener s) (lit "cookies") operation key s).

(** The jar's own wrapper reports to nobody. *)
Definition save_locked : op storage unit :=
  l ← ask cookies_;
  encoded ← lift (serialize_cookies l);
  encrypted ← encrypt encoded;
  on_backend (b_set Local COOKIE_SESSION_ID COOKIE_RECORD_KEY encrypted).

Definition cookie_set (now : Z) (origin : Url) (c : Cookie) : op storage unit :=
  match admit_cookie origin c with
  | None => mret tt
  | Some c' =>
      _ ← modify (fun s => with_cookies (jar_set now origin c (cookies_ s)) s);
      _ ← save_locked;
      jar_report (lit "set") (if expired now c' then c_name c' else moved_from (c_name c'))
  end.

Definition cookie_get (now : Z) (origin : Url) : op storage (list Cookie) :=
  l ← ask (fun s => jar_get now origin (cookies_ s));
  _ ← jar_report (lit "get") (host origin);
  mret l.

Definition cookie_line (now : Z) (origin : Url) : op storage bytes :=
  l ← cookie_get now origin; mret (foldl add_to_header [] l).

Definition cookie_clear : op storage unit :=
  _ ← modify (with_cookies []);
  _ ← on_backend (b_remove Local COOKIE_SESSION_ID COOKIE_RECORD_KEY);
  jar_report (lit "clear") [].

Definition cookie_all (now : Z) : op storage (list Cookie) :=
  l ← ask (fun s => List.filter (fun c => negb (expired now c)) (cookies_ s));
  _ ← jar_report (lit "get") (lit "all");
  mret l.

(** ** [EncryptedStorage] *)

(** The constructor, over a back end, from a state of the random generator. *)
Definition open_storage (pw : bytes) (b : S) (n : nat) : result storage * S * nat :=
  match draw SALT_SIZE n with
  | (Throw e, n') => (Throw e, b, n')
  | (Ret sa, n') =>
      match or_throw (derive_key pw sa) with
      | Throw e => (Throw e, b, n')
      | Ret k =>
          let '(r, b') := b_get Local COOKIE_SESSION_ID COOKIE_RECORD_KEY b in
          (encrypted ← r;
           decoded ← (match encrypted with None => Ret None | Some e => decrypt_value pw e end);
           Ret {| backend := b'; password := pw; salt := sa; key := k; entropy := n';
                  cookies_ := match decoded with Some t => deserialize_cookies t | None => [] end;
                  jar_listener := None; local_stores := ∅; session_stores := ∅; e_listener := None; e_accesses := [] |}, b', n')
      end
  end.

Definition enc_release (i : bytes) : op storage unit :=
  modify (fun s => with_backend (b_release i (backend s))
                     (with_wrappers (delete i (local_stores s)) (delete i (session_stores s)) s)).

(** The listener of the back end's stores is removed, one by one. *)
Definition silence (k : StoreKind) (l : list bytes) (b : S) : S := foldl (fun b i => (b_listen_store k i None b).2) b l.

Definition enc_listen (l : option nat) : op storage unit :=
  modify (fun s =>
    let b1 := silence Local (map fst (map_to_list (local_stores s))) (backend s) in
    let b2 := silence SessionStore (map fst (map_to_list (session_stores s))) b1 in
    with_backend (b_listen None b2)
      (with_wrappers ((fun _ => l) <$> local_stores s) ((fun _ => l) <$> session_stores s) (with_listener l s))).

End Encrypted.

(** ** Values *)

(** What the cipher promises: it undoes itself, with tags and random bytes of the right size. *)
Class CipherLaws (C : Cipher) : Prop := {
  gcm_law key nonce aad text cipher tag :
    gcm_encrypt key nonce aad text = Some (cipher, tag) -> gcm_decrypt key nonce aad cipher tag = Some text;
  tag_size key nonce aad text cipher tag : gcm_encrypt key nonce aad text = Some (cipher, tag) -> length tag = TAG_SIZE;
  random_size n size b : random_bytes n size = Some b -> length b = size }.

Lemma op_bind_Throw {S A B} (m : op S A) (f : A -> op S B) s e s' :
  (x ← m; f x) s = (Throw e, s') -> m s = (Throw e, s') \/ exists a s1, m s = (Ret a, s1) /\ f a s1 = (Throw e, s').
Proof. unfold mbind, op_bind. destruct (m s) as [[a|e'] s1]; [eauto|]. intros [= -> ->]. by left. Qed.

Section ValuesSpec.
Context {C : Cipher} {L : CipherLaws C}.

Lemma substr_app_l pos size a b : length a = pos -> substr pos size (a ++ b) = take size b.
Proof using. intros <-. unfold substr. by rewrite drop_app_length. Qed.

Lemma or_throw_Ret {A} (x : option A) a : or_throw x = Ret a -> x = Some a.
Proof using. destruct x; [by intros [= ->]|done]. Qed.

Lemma draw_Ret size n b n' : draw size n = (Ret b, n') -> length b = size.
Proof using L. unfold draw. intros [= H _]. apply or_throw_Ret in H. by eapply random_size. Qed.

(** What is behind a prefix. *)
Lemma decrypt_encrypt pw v n e n' : encrypt_value pw v n = (Ret e, n') -> decrypt_value pw e = Ret (Some v).
Proof using L.
  unfold encrypt_value. intros (sa & n1 & Hs & (no & n2 & Hn & (k & n3 & Hk & (x & n4 & Hx & H)%op_bind_Ret)%op_bind_Ret)%op_bind_Ret)%op_bind_Ret.
  apply draw_Ret in Hs, Hn. unfold lift in Hk, Hx. injection Hk as Hk _. injection Hx as Hx _.
  apply or_throw_Ret in Hk, Hx. destruct x as [ct tag]. cbn [fst snd] in H. apply (f_equal fst) in H. cbn [fst mret op_ret] in H.
  apply Ret_inj in H. subst e. pose proof (tag_size _ _ _ _ _ _ Hx) as Ht. unfold decrypt_value.
  rewrite starts_with_app. cbn [negb]. rewrite orb_false_r. rewrite (proj2 (Nat.ltb_ge _ _)) by (rewrite !length_app; lia).
  cbn zeta. rewrite (substr_app_l (length VALUE_MAGIC)) by done. rewrite (take_app_length' sa) by done.
  rewrite (app_assoc VALUE_MAGIC). rewrite (substr_app_l (length VALUE_MAGIC + SALT_SIZE)) by (rewrite length_app; lia).
  rewrite (take_app_length' no) by done. rewrite Hk. cbn [or_throw mbind result_bind].
  rewrite (app_assoc (VALUE_MAGIC ++ sa)). rewrite (substr_app_l (length VALUE_MAGIC + SALT_SIZE + NONCE_SIZE)) by (rewrite !length_app; lia).
  rewrite (take_app_length' tag) by done. rewrite (app_assoc ((VALUE_MAGIC ++ sa) ++ no)).
  rewrite drop_app_length' by (rewrite !length_app; lia). by rewrite (gcm_law _ _ _ _ _ _ Hx).
Qed.

(** A value that was not made by [encrypt_value] is no value, or an error of the library. *)
Lemma decrypt_short pw e : length e < 48 -> decrypt_value pw e = Ret None.
Proof using. intros H. unfold decrypt_value. by rewrite (proj2 (Nat.ltb_lt _ _)) by done. Qed.
End ValuesSpec.

(** ** What the storage promises: plain maps and a list of cookies *)

Record spec := { maps : StoreKind -> bytes -> gmap bytes bytes; jar_of : list Cookie }.

Inductive call :=
  | CGet (k : StoreKind) (i key : bytes)
  | CSet (k : StoreKind) (i key v : bytes)
  | CRemove (k : StoreKind) (i key : bytes)
  | CClear (k : StoreKind) (i : bytes)
  | CKeys (k : StoreKind) (i : bytes)
  | CRelease (i : bytes)
  | CListen (l : option nat)
  | CookieSet (now : Z) (origin : Url) (c : Cookie)
  | CookieGet (now : Z) (origin : Url)
  | CookieAll (now : Z)
  | CookieClear.

Inductive answer :=
  | ADone
  | AValue (v : option bytes)
  | ARemoved (b : bool)
  | AKeys (l : list bytes)
  | ACookies (l : list Cookie).

Definition with_maps (sp : spec) (f : StoreKind -> bytes -> gmap bytes bytes) : spec := {| maps := f; jar_of := jar_of sp |}.
Definition with_jar (sp : spec) (l : list Cookie) : spec := {| maps := maps sp; jar_of := l |}.

(** The maps of a storage after a session's release: its session store is empty, its local
    store is empty or kept. *)
Definition released (i : bytes) (f g : StoreKind -> bytes -> gmap bytes bytes) : Prop :=
  (forall k i', i' <> i -> g k i' = f k i') /\ g SessionStore i = ∅ /\ (g Local i = ∅ \/ g Local i = f Local i).

Inductive spec_step (sp : spec) : call -> answer -> spec -> Prop :=
  | step_get k i key : spec_step sp (CGet k i key) (AValue (maps sp k i !! key)) sp
  | step_set k i key v : spec_step sp (CSet k i key v) ADone (with_maps sp (changed (maps sp) k i (<[key := v]> (maps sp k i))))
  | step_remove k i key : spec_step sp (CRemove k i key) (ARemoved (bool_decide (is_Some (maps sp k i !! key))))
      (with_maps sp (changed (maps sp) k i (delete key (maps sp k i))))
  | step_clear k i : spec_step sp (CClear k i) ADone (with_maps sp (changed (maps sp) k i ∅))
  | step_keys k i l : l ≡ₚ elements (dom (maps sp k i)) -> spec_step sp (CKeys k i) (AKeys l) sp
  | step_release i g : released i (maps sp) g -> spec_step sp (CRelease i) ADone (with_maps sp g)
  | step_listen l : spec_step sp (CListen l) ADone sp
  | step_cookie_set now origin c : spec_step sp (CookieSet now origin c) ADone (with_jar sp (jar_set now origin c (jar_of sp)))
  | step_cookie_get now origin : spec_step sp (CookieGet now origin) (ACookies (jar_get now origin (jar_of sp))) sp
  | step_cookie_all now :
      spec_step sp (CookieAll now) (ACookies (List.filter (fun c => negb (expired now c)) (jar_of sp))) sp
  | step_cookie_clear : spec_step sp CookieClear ADone (with_jar sp []).

Section Refinement.
Context {C : Cipher} {L : CipherLaws C} {S : Type} {B : StorageBackend S} {BL : StorageLaws S}.
Context (moved_from : bytes -> bytes).

Abbreviation storage := (EncryptedStorage S).

Definition fmap_op {A} (f : A -> answer) (m : op storage A) : op storage answer := x ← m; mret (f x).

Definition run_call (c : call) : op storage answer :=
  match c with
  | CGet k i key => fmap_op AValue (enc_get k i key)
  | CSet k i key v => fmap_op (fun _ => ADone) (enc_set k i key v)
  | CRemove k i key => fmap_op ARemoved (enc_remove k i key)
  | CClear k i => fmap_op (fun _ => ADone) (enc_clear k i)
  | CKeys k i => fmap_op AKeys (enc_keys k i)
  | CRelease i => fmap_op (fun _ => ADone) (enc_release i)
  | CListen l => fmap_op (fun _ => ADone) (enc_listen l)
  | CookieSet now origin c => fmap_op (fun _ => ADone) (cookie_set moved_from now origin c)
  | CookieGet now origin => fmap_op ACookies (cookie_get now origin)
  | CookieAll now => fmap_op ACookies (cookie_all now)
  | CookieClear => fmap_op (fun _ => ADone) cookie_clear
  end.

(** A store that no session may name: the jar keeps its record there. *)
Definition reserved (k : StoreKind) (i : bytes) : Prop := k = Local /\ i = COOKIE_SESSION_ID.

(** Expirations are 64-bit integers, sessions do not use the reserved name. *)
Definition call_ok (c : call) : Prop :=
  match c with
  | CGet k i _ | CSet k i _ _ | CRemove k i _ | CClear k i | CKeys k i => ~ reserved k i
  | CRelease i => i <> COOKIE_SESSION_ID
  | CookieSet _ _ c => match expires_unix c with Some t => int64 t = true | None => True end
  | _ => True
  end.

(** An encrypted map and its plain values. *)
Definition sealed (pw : bytes) (m p : gmap bytes bytes) : Prop := forall key,
  match p !! key with
  | Some v => exists e, m !! key = Some e /\ decrypt_value pw e = Ret (Some v)
  | None => m !! key = None
  end.

Definition stores_sealed (pw : bytes) (b : S) (f : StoreKind -> bytes -> gmap bytes bytes) : Prop :=
  forall k i, ~ reserved k i -> sealed pw (held b k i) (f k i).

(** The record of the jar. *)
Definition record_ok (pw : bytes) (m : gmap bytes bytes) (l : list Cookie) : Prop :=
  match m !! COOKIE_RECORD_KEY with
  | None => l = []
  | Some e => exists t, decrypt_value pw e = Ret (Some t) /\ deserialize_cookies t = l
  end.

Definition represents (s : storage) (sp : spec) : Prop :=
  stores_sealed (password s) (backend s) (maps sp) /\ cookies_ s = jar_of sp /\ Forall jar_cookie (jar_of sp) /\
  record_ok (password s) (held (backend s) Local COOKIE_SESSION_ID) (jar_of sp).

(** Two states that hold the same: the same password, cookies and stored maps. *)
Definition same_content (s s' : storage) : Prop :=
  password s' = password s /\ cookies_ s' = cookies_ s /\ forall k i, held (backend s') k i = held (backend s) k i.

#[local] Instance same_content_preorder : PreOrder same_content.
Proof. split; [by intros s|]. intros a b c (E1 & E2 & H1) (E3 & E4 & H2). split; [congruence|]. split; [congruence|]. intros. by rewrite H2. Qed.

Lemma represents_same s s' sp : same_content s s' -> represents s sp -> represents s' sp.
Proof using.
  intros (Hp & Hc & Hh) (H1 & H2 & H3 & H4). split_and!; [|by rewrite Hc|done|].
  - intros k i Hr. rewrite Hp, Hh. by apply H1.
  - by rewrite Hp, Hh.
Qed.

Lemma report_same l store operation k s : same_content s (report_to l store operation k s).
Proof using. unfold report_to. by destruct l. Qed.

Lemma get_wrapper_same k i s r s' : get_wrapper k i s = (r, s') -> same_content s s'.
Proof using.
  unfold get_wrapper. destruct (wrappers k s !! i); [by intros [= _ <-]|].
  unfold mbind, op_bind, on_backend. destruct (b_listen_store k i None (backend s)) as [[u|e] b] eqn:E.
  - intros [= _ <-]. pose proof (listen_store_law _ _ _ _ _ _ E) as H. destruct k; split; [done| |done|]; (split; [done|]); intros; apply H.
  - intros [= _ <-]. split; [done|]. split; [done|]. intros. apply (listen_store_law _ _ _ _ _ _ E).
Qed.

Lemma encrypt_same v s r s' : encrypt v s = (r, s') ->
  same_content s s' /\ forall e, r = Ret e -> decrypt_value (password s) e = Ret (Some v).
Proof using L.
  unfold encrypt, on_entropy. destruct (encrypt_value (password s) v (entropy s)) as [r' n] eqn:E. intros [= <- <-].
  split; [done|]. intros e ->. by eapply decrypt_encrypt.
Qed.

Lemma sealed_insert pw m p k v e : decrypt_value pw e = Ret (Some v) -> sealed pw m p -> sealed pw (<[k := e]> m) (<[k := v]> p).
Proof using.
  intros He H k'. specialize (H k'). destruct (decide (k' = k)) as [->|Hk].
  - rewrite !lookup_insert_eq. eauto.
  - by rewrite !lookup_insert_ne.
Qed.

Lemma sealed_delete pw m p k : sealed pw m p -> sealed pw (delete k m) (delete k p).
Proof using.
  intros H k'. specialize (H k'). destruct (decide (k' = k)) as [->|Hk].
  - by rewrite !lookup_delete_eq.
  - by rewrite !lookup_delete_ne.
Qed.

Lemma sealed_empty pw : sealed pw ∅ ∅.
Proof using. intros k. by rewrite !lookup_empty. Qed.

Lemma sealed_dom pw m p : sealed pw m p -> dom m = dom p.
Proof using.
  intros H. apply set_eq. intros k. rewrite !elem_of_dom. specialize (H k). destruct (p !! k) as [v|].
  - destruct H as (e & -> & _). by split.
  - by rewrite H.
Qed.

Lemma changed_sealed pw b b' f k i m p :
  ~ reserved k i -> stores_sealed pw b f -> sealed pw m p ->
  (forall k' i', held b' k' i' = changed (held b) k i m k' i') -> stores_sealed pw b' (changed f k i p).
Proof using.
  intros Hr H Hm Hb k' i' Hr'. rewrite Hb. unfold changed. case_decide as E; [done|by apply H].
Qed.

Lemma changed_record b b' k i m : ~ reserved k i ->
  (forall k' i', held b' k' i' = changed (held b) k i m k' i') ->
  held b' Local COOKIE_SESSION_ID = held b Local COOKIE_SESSION_ID.
Proof using. intros Hr Hb. rewrite Hb. unfold changed. case_decide as E; [|done]. destruct Hr. by injection E as <- <-. Qed.

(** The calls that change the jar in memory before they store it. *)
Definition cookie_change (c : call) : bool := match c with CookieSet _ _ _ | CookieClear => true | _ => false end.

(** What a call may do: an answer of the specification, or an exception that loses nothing. *)
Definition simulates (sp : spec) (c : call) (m : result answer * storage) : Prop :=
  match m with
  | (Ret a, s') => exists sp', spec_step sp c a sp' /\ represents s' sp'
  | (Throw _, s') =>
      stores_sealed (password s') (backend s') (maps sp) /\ (cookie_change c = false -> represents s' sp)
  end.

Lemma simulates_throw s sp c e : represents s sp -> simulates sp c (Throw e, s).
Proof using. intros H. split; [apply H|done]. Qed.

(** The steps every key/value operation begins with. *)
Lemma simulates_wrapper {A} sp c k i (f : unit -> op storage A) (g : A -> answer) s :
  represents s sp -> (forall s1, represents s1 sp -> simulates sp c (fmap_op g (f tt) s1)) ->
  simulates sp c (fmap_op g (x ← get_wrapper k i; f x) s).
Proof using BL.
  intros Hs Hf. unfold fmap_op, mbind, op_bind in *. destruct (get_wrapper k i s) as [[[]|e] s1] eqn:E.
  - apply get_wrapper_same in E. apply Hf. by eapply represents_same.
  - apply get_wrapper_same in E. apply simulates_throw. by eapply represents_same.
Qed.

Lemma simulates_bind {A D} sp c (m : op storage A) (f : A -> op storage D) (g : D -> answer) s :
  (forall e s1, m s = (Throw e, s1) -> represents s1 sp) ->
  (forall a s1, m s = (Ret a, s1) -> simulates sp c (fmap_op g (f a) s1)) ->
  simulates sp c (fmap_op g (x ← m; f x) s).
Proof using.
  intros He Hf. unfold fmap_op, mbind, op_bind in *. destruct (m s) as [[a|e] s1] eqn:E; [by apply (Hf a)|].
  apply simulates_throw. by eapply He.
Qed.

Lemma on_backend_eq {A} (m : op S A) s r s' : on_backend m s = (r, s') ->
  exists b, m (backend s) = (r, b) /\ s' = with_backend b s.
Proof using. unfold on_backend. destruct (m (backend s)) as [r' b]. intros [= <- <-]. eauto. Qed.

Lemma with_backend_same s b : (forall k i, held b k i = held (backend s) k i) -> same_content s (with_backend b s).
Proof using. intros H. by split. Qed.

Lemma represents_changed s sp b k i m p :
  represents s sp -> ~ reserved k i -> sealed (password s) m p ->
  (forall k' i', held b k' i' = changed (held (backend s)) k i m k' i') ->
  represents (with_backend b s) (with_maps sp (changed (maps sp) k i p)).
Proof using.
  intros (H1 & H2 & H3 & H4) Hr Hm Hb. split_and!; [|done|done|].
  - by eapply changed_sealed.
  - cbn [password with_backend backend]. rewrite (changed_record _ _ _ _ _ Hr Hb). done.
Qed.

Lemma fmap_mret {A} (g : A -> answer) a s : fmap_op g (mret a) s = (Ret (g a), s).
Proof using. done. Qed.

Lemma simulates_modify {A} sp c (f : storage -> storage) (h : op storage A) (g : A -> answer) s :
  simulates sp c (fmap_op g h (f s)) -> simulates sp c (fmap_op g (_ ← modify f; h) s).
Proof using. done. Qed.

Lemma simulate_get k i key s sp : represents s sp -> ~ reserved k i -> simulates sp (CGet k i key) (run_call (CGet k i key) s).
Proof using BL.
  intros Hs Hr. apply (simulates_wrapper _ _ k i (fun _ => _)); [done|]. intros s1 H1.
  apply simulates_bind.
  - intros e s2 (b & Hb & ->)%on_backend_eq. apply get_law in Hb as [Hb _]. by eapply represents_same, H1; apply with_backend_same.
  - intros x s2 (b & Hb & ->)%on_backend_eq. apply get_law in Hb as [Hb Hx]. specialize (Hx x eq_refl).
    assert (H2 : represents (with_backend b s1) sp) by (eapply represents_same, H1; by apply with_backend_same).
    apply simulates_modify. set (s3 := report_to _ _ _ _ _). assert (H3 : represents s3 sp) by (eapply represents_same, H2; apply report_same).
    assert (Hp : password s3 = password s1) by (subst s3; unfold report_to; by destruct (default _ _)).
    destruct H1 as (H1 & _). specialize (H1 k i Hr key). unfold fmap_op, mbind, op_bind, decrypt. rewrite Hp, Hx.
    destruct (maps sp k i !! key) as [v|] eqn:E.
    + destruct H1 as (e & -> & ->). exists sp. split; [|done]. rewrite <- E. constructor.
    + rewrite H1. exists sp. split; [|done]. rewrite <- E. constructor.
Qed.

Lemma simulate_set k i key v s sp : represents s sp -> ~ reserved k i -> simulates sp (CSet k i key v) (run_call (CSet k i key v) s).
Proof using BL L.
  intros Hs Hr. apply (simulates_wrapper _ _ k i (fun _ => _)); [done|]. intros s1 H1.
  apply simulates_bind.
  { intros e s2 E. apply encrypt_same in E as [E _]. by eapply represents_same. }
  intros x s2 E. apply encrypt_same in E as [E Hx]. specialize (Hx x eq_refl).
  assert (H2 : represents s2 sp) by (by eapply represents_same). destruct E as (Hp & _ & _). rewrite <- Hp in Hx.
  apply simulates_bind.
  - intros e s3 (b & Hb & ->)%on_backend_eq. apply set_law in Hb. by eapply represents_same, H2; apply with_backend_same.
  - intros [] s3 (b & Hb & ->)%on_backend_eq. apply set_law in Hb. unfold report_store, fmap_op. eexists. split; [constructor|].
    eapply represents_same; [apply report_same|]. eapply represents_changed; [done|done| |done].
    apply sealed_insert; [done|]. by apply H2.
Qed.

Lemma simulate_remove k i key s sp : represents s sp -> ~ reserved k i -> simulates sp (CRemove k i key) (run_call (CRemove k i key) s).
Proof using BL.
  intros Hs Hr. apply (simulates_wrapper _ _ k i (fun _ => _)); [done|]. intros s1 H1.
  apply simulates_bind.
  - intros e s2 (b & Hb & ->)%on_backend_eq. apply remove_law in Hb. by eapply represents_same, H1; apply with_backend_same.
  - intros x s2 (b & Hb & ->)%on_backend_eq. apply remove_law in Hb as [-> Hb]. apply simulates_modify. rewrite fmap_mret.
    pose proof H1 as (Hm & _). specialize (Hm k i Hr). eexists. split.
    + assert (bool_decide (is_Some (held (backend s1) k i !! key)) = bool_decide (is_Some (maps sp k i !! key))) as ->; [|constructor].
      specialize (Hm key). destruct (maps sp k i !! key); [|by rewrite Hm]. destruct Hm as (e & -> & _).
      by rewrite !bool_decide_eq_true_2 by eauto.
    + eapply represents_same; [apply report_same|]. eapply represents_changed; [done|done| |done]. by apply sealed_delete.
Qed.

Lemma simulate_clear k i s sp : represents s sp -> ~ reserved k i -> simulates sp (CClear k i) (run_call (CClear k i) s).
Proof using BL.
  intros Hs Hr. apply (simulates_wrapper _ _ k i (fun _ => _)); [done|]. intros s1 H1.
  apply simulates_bind.
  - intros e s2 (b & Hb & ->)%on_backend_eq. apply clear_law in Hb. by eapply represents_same, H1; apply with_backend_same.
  - intros [] s2 (b & Hb & ->)%on_backend_eq. apply clear_law in Hb. unfold report_store, fmap_op. eexists. split; [constructor|].
    eapply represents_same; [apply report_same|]. eapply represents_changed; [done|done|apply sealed_empty|done].
Qed.

Lemma simulate_keys k i s sp : represents s sp -> ~ reserved k i -> simulates sp (CKeys k i) (run_call (CKeys k i) s).
Proof using BL.
  intros Hs Hr. apply (simulates_wrapper _ _ k i (fun _ => _)); [done|]. intros s1 H1.
  unfold fmap_op, mbind, op_bind. destruct (on_backend (b_keys k i) s1) as [[l|e] s2] eqn:E;
    apply on_backend_eq in E as (b & Hb & ->); apply keys_law in Hb as [Hb Hl].
  - exists sp. split; [|by eapply represents_same, H1; apply with_backend_same]. constructor. rewrite (Hl l eq_refl).
    by rewrite (sealed_dom _ _ _ (proj1 H1 k i Hr)).
  - apply simulates_throw. by eapply represents_same, H1; apply with_backend_same.
Qed.

Lemma simulate_release i s sp : represents s sp -> i <> COOKIE_SESSION_ID -> simulates sp (CRelease i) (run_call (CRelease i) s).
Proof using BL.
  intros (H1 & H2 & H3 & H4) Hi.
  set (g l := fun k i' => if decide (i' = i) then match k with SessionStore => ∅ | Local => l end else maps sp k i').
  assert (Hg : forall l, (l = ∅ \/ l = maps sp Local i) -> released i (maps sp) (g l)).
  { intros l Hl. unfold released, g. split; [intros k i' Hi'; by rewrite decide_False|]. rewrite !decide_True by done. by split. }
  assert (Hs : forall l, sealed (password s) (held (b_release i (backend s)) Local i) l -> (l = ∅ \/ l = maps sp Local i) ->
    exists sp', spec_step sp (CRelease i) ADone sp' /\ represents (with_backend (b_release i (backend s))
      (with_wrappers (delete i (local_stores s)) (delete i (session_stores s)) s)) sp').
  { intros l Hl Hor. exists (with_maps sp (g l)). split; [by constructor; apply Hg|]. split_and!; [|done|done|].
    - intros k i' Hr. cbn [maps with_maps]. unfold g.
      destruct (decide (i' = i)) as [->|Hn].
      + destruct k; [done|]. cbn. rewrite release_session_law. apply sealed_empty.
      + cbn. rewrite release_others by done. by apply H1.
    - cbn. by rewrite release_others by done. }
  destruct (release_local_law i (backend s)) as [E|E].
  - apply (Hs ∅); [rewrite E; apply sealed_empty|by left].
  - apply (Hs (maps sp Local i)); [rewrite E; apply H1; by intros [_ ?]|by right].
Qed.

Lemma held_silence k l b k' i' : held (silence k l b) k' i' = held b k' i'.
Proof using.
  unfold silence. revert b. induction l as [|i l IH]; intros b; [done|]. cbn [foldl]. rewrite IH.
  destruct (b_listen_store k i None b) as [r b'] eqn:E. by apply (listen_store_law _ _ _ _ _ _ E).
Qed.

Lemma simulate_listen l s sp : represents s sp -> simulates sp (CListen l) (run_call (CListen l) s).
Proof using BL.
  intros H. exists sp. split; [constructor|]. eapply represents_same; [|exact H]. split; [done|]. split; [done|].
  intros k i. cbn. by rewrite listen_law, !held_silence.
Qed.

Lemma jar_report_same operation k s : same_content s (report_to (jar_listener s) (lit "cookies") operation k s).
Proof using. apply report_same. Qed.

Lemma simulate_cookie_get now origin s sp : represents s sp -> simulates sp (CookieGet now origin) (run_call (CookieGet now origin) s).
Proof using.
  intros H. exists sp. split; [|by eapply represents_same; [apply jar_report_same|]].
  destruct H as (_ & -> & _). constructor.
Qed.

Lemma simulate_cookie_all now s sp : represents s sp -> simulates sp (CookieAll now) (run_call (CookieAll now) s).
Proof using.
  intros H. exists sp. split; [|by eapply represents_same; [apply jar_report_same|]].
  destruct H as (_ & -> & _). constructor.
Qed.

(** What the jar's operations do to the stores of the sessions: nothing. *)
Lemma reserved_stores pw b b' f m : stores_sealed pw b f ->
  (forall k i, held b' k i = changed (held b) Local COOKIE_SESSION_ID m k i) -> stores_sealed pw b' f.
Proof using.
  intros H Hb k i Hr. rewrite Hb. unfold changed. case_decide as E; [|by apply H]. destruct Hr. by injection E as -> ->.
Qed.

Lemma reserved_record b b' m : (forall k i, held b' k i = changed (held b) Local COOKIE_SESSION_ID m k i) ->
  held b' Local COOKIE_SESSION_ID = m.
Proof using. intros Hb. rewrite Hb. unfold changed. by rewrite decide_True. Qed.

Lemma simulate_cookie_clear s sp : represents s sp -> simulates sp CookieClear (run_call CookieClear s).
Proof using BL.
  intros (H1 & H2 & H3 & H4). unfold run_call, cookie_clear, fmap_op, mbind, op_bind, modify.
  destruct (on_backend _ (with_cookies [] s)) as [[x|e] s2] eqn:E; apply on_backend_eq in E as (b & Hb & ->);
    apply remove_law in Hb.
  - destruct Hb as [_ Hb]. exists (with_jar sp []). split; [constructor|]. eapply represents_same; [apply jar_report_same|].
    split_and!; [by eapply reserved_stores|done|constructor|]. cbn [backend with_backend password with_cookies].
    rewrite (reserved_record _ _ _ Hb). unfold record_ok. by rewrite lookup_delete_eq.
  - split; [|done]. intros k i Hr. cbn [backend with_backend]. rewrite Hb. by apply H1.
Qed.

Lemma admitted_jar_cookie origin c c' : admit_cookie origin c = Some c' ->
  match expires_unix c with Some t => int64 t = true | None => True end -> jar_cookie c'.
Proof using.
  intros Ha Ht. pose proof (admit_cookie_spec _ _ _ Ha) as (A1 & _ & _ & A4 & _). unfold jar_cookie. rewrite A1, A4. split; [|done].
  unfold admit_cookie in Ha. by destruct (c_name c).
Qed.

Lemma jar_set_cookies now origin c l :
  match expires_unix c with Some t => int64 t = true | None => True end ->
  Forall jar_cookie l -> Forall jar_cookie (jar_set now origin c l).
Proof using.
  intros Ht Hl. rewrite Forall_forall in *. intros x [Hx|Hx]%jar_set_elem; [by apply Hl|]. by eapply admitted_jar_cookie.
Qed.

Lemma jar_set_length now origin c l : length (jar_set now origin c l) <= length l + 1.
Proof using.
  unfold jar_set. destruct (admit_cookie origin c) as [c'|]; [|lia]. set (kept := List.filter _ l).
  assert (length kept <= length l) by (unfold kept; apply List.filter_length_le).
  destruct (expired now c'); [lia|]. rewrite length_app. cbn [length]. lia.
Qed.

(** Storing the jar: its record is the jar's, or nothing has changed. *)
Lemma save_spec s sp r s' :
  stores_sealed (password s) (backend s) (maps sp) -> Forall jar_cookie (cookies_ s) ->
  (N.of_nat (length (cookies_ s)) < 2 ^ 32)%N -> save_locked s = (r, s') ->
  stores_sealed (password s') (backend s') (maps sp) /\
  (r = Ret tt -> represents s' (with_jar sp (cookies_ s))).
Proof using BL L.
  intros H1 Hj Hn. unfold save_locked, ask, lift, mbind, op_bind.
  destruct (serialize_cookies (cookies_ s)) as [t|e] eqn:Et; [|by intros [= <- <-]].
  destruct (encrypt t s) as [[x|e] s1] eqn:Ee; apply encrypt_same in Ee as [(Hp & Hc & Hh) Hx].
  2:{ intros [= <- <-]. split; [|done]. intros k i Hr. rewrite Hp, Hh. by apply H1. }
  specialize (Hx x eq_refl). intros (b & Hb & ->)%on_backend_eq. apply set_law in Hb.
  assert (Hs : stores_sealed (password s1) (backend s1) (maps sp)) by (intros k i Hr; rewrite Hp, Hh; by apply H1).
  destruct r as [[]|e].
  - split; [by eapply reserved_stores|]. intros _. split_and!; [by eapply reserved_stores|done|done|].
    cbn [backend with_backend password jar_of with_jar]. rewrite (reserved_record _ _ _ Hb). unfold record_ok.
    rewrite lookup_insert_eq. exists t. rewrite Hp. split; [done|]. by apply deserialize_serialize.
  - split; [|done]. intros k i Hr. cbn [backend with_backend]. rewrite Hb. by apply Hs.
Qed.

Lemma simulate_cookie_set now origin c s sp :
  represents s sp -> match expires_unix c with Some t => int64 t = true | None => True end ->
  (N.of_nat (length (jar_of sp)) < 2 ^ 32 - 1)%N ->
  simulates sp (CookieSet now origin c) (run_call (CookieSet now origin c) s).
Proof using BL L.
  intros Hs Ht Hn. pose proof Hs as (H1 & H2 & H3 & H4). unfold run_call, cookie_set.
  assert (Hlen := jar_set_length now origin c (jar_of sp)). assert (Hok := jar_set_cookies now origin c _ Ht H3).
  destruct (admit_cookie origin c) as [c'|] eqn:Ea.
  2:{ exists (with_jar sp (jar_set now origin c (jar_of sp))). split; [constructor|]. unfold jar_set. rewrite Ea. by destruct sp. }
  unfold fmap_op, mbind, op_bind, modify. cbn beta iota. rewrite H2.
  destruct (save_locked _) as [[[]|e] s1] eqn:E; apply (save_spec _ sp) in E as [Hst Hr]; try done; cbn [cookies_ with_cookies] in *.
  - exists (with_jar sp (jar_set now origin c (jar_of sp))). split; [constructor|].
    eapply represents_same; [apply jar_report_same|]. by apply Hr.
  - lia.
  - lia.
Qed.

Lemma run_call_simulates c s sp :
  represents s sp -> call_ok c -> (N.of_nat (length (jar_of sp)) < 2 ^ 32 - 1)%N -> simulates sp c (run_call c s).
Proof using BL L.
  intros Hs Hc Hn. destruct c; cbn [call_ok] in Hc.
  - by apply simulate_get.
  - by apply simulate_set.
  - by apply simulate_remove.
  - by apply simulate_clear.
  - by apply simulate_keys.
  - by apply simulate_release.
  - by apply simulate_listen.
  - by apply simulate_cookie_set.
  - by apply simulate_cookie_get.
  - by apply simulate_cookie_all.
  - by apply simulate_cookie_clear.
Qed.

(** ** Sequences of calls, exceptions included *)

Fixpoint run_calls (l : list call) (s : storage) : list (result answer) * storage :=
  match l with
  | [] => ([], s)
  | c :: l' => let '(r, s1) := run_call c s in let '(rs, s') := run_calls l' s1 in (r :: rs, s')
  end.

(** The specification of a sequence: a call that throws has no effect. *)
Inductive spec_runs : spec -> list call -> list (result answer) -> spec -> Prop :=
  | runs_nil sp : spec_runs sp [] [] sp
  | runs_answer sp c a sp1 l rs sp' : spec_step sp c a sp1 -> spec_runs sp1 l rs sp' -> spec_runs sp (c :: l) (Ret a :: rs) sp'
  | runs_throw sp c e l rs sp' : spec_runs sp l rs sp' -> spec_runs sp (c :: l) (Throw e :: rs) sp'.

Definition jar_stored (c : call) (r : result answer) : Prop :=
  match r with Ret _ => True | Throw _ => cookie_change c = false end.

Lemma step_jar_length sp c a sp' : spec_step sp c a sp' -> length (jar_of sp') <= length (jar_of sp) + 1.
Proof using.
  intros H. inversion H; subst; cbn [jar_of with_jar with_maps]; try lia.
  - apply jar_set_length.
  - simpl. lia.
Qed.

(** C15: the encrypted storage over any back end that keeps the promises of the interface is
    plain maps and a list of cookies: every sequence of calls, on any number of sessions, gives
    the answers of the specification (a value that was set is read back, nothing else changes,
    removal, clearing, listing and release act on their store only, and the jar behaves as the
    in-memory one), and a call that throws has no effect.  Sessions do not use the reserved
    name, and the changes of the jar do not fail (see the note on them). *)
Theorem encrypted_refines calls s sp rs s' :
  represents s sp -> Forall call_ok calls -> (N.of_nat (length (jar_of sp) + length calls) < 2 ^ 32 - 1)%N ->
  run_calls calls s = (rs, s') -> Forall2 jar_stored calls rs ->
  exists sp', spec_runs sp calls rs sp' /\ represents s' sp'.
Proof using BL L.
  revert s sp rs. induction calls as [|c calls IH]; intros s sp rs Hs Hok Hn; cbn [run_calls].
  { intros [= <- <-] _. exists sp. split; [constructor|done]. }
  apply Forall_cons in Hok as [Hc Hok]. cbn [length] in Hn. pose proof (run_call_simulates c s sp Hs Hc ltac:(lia)) as Hsim.
  destruct (run_call c s) as [r s1]. destruct (run_calls calls s1) as [rs1 s2] eqn:E. intros [= <- <-] [Hj Hjs]%Forall2_cons.
  destruct r as [a|e]; cbn [simulates jar_stored] in *.
  - destruct Hsim as (sp1 & Hstep & H1). pose proof (step_jar_length _ _ _ _ Hstep) as Hl.
    destruct (IH s1 sp1 rs1 H1 Hok ltac:(lia) E Hjs) as (sp' & Hr & H2). exists sp'. split; [|done]. by econstructor.
  - destruct Hsim as [_ Hsim]. destruct (IH s1 sp rs1 (Hsim Hj) Hok ltac:(lia) E Hjs) as (sp' & Hr & H2). exists sp'.
    split; [|done]. by constructor.
Qed.

(** What was stored survives: a storage opened with the same password over what a former one
    has left in its back end holds the same maps and the same cookies, in the same order. *)
Theorem encrypted_reopens s sp n s' b n' :
  represents s sp -> open_storage (password s) (backend s) n = (Ret s', b, n') ->
  represents s' sp /\ backend s' = b.
Proof using BL.
  intros (H1 & H2 & H3 & H4). unfold open_storage. destruct (draw SALT_SIZE n) as [[sa|e] m]; [|done].
  destruct (or_throw _) as [k|e]; [|done]. destruct (b_get _ _ _ (backend s)) as [[x|e] b'] eqn:E; [|done].
  apply get_law in E as [Hh Hx]. specialize (Hx x eq_refl). cbn [mbind result_bind].
  assert (Hr : forall d, (match x with None => Ret None | Some e => decrypt_value (password s) e end) = Ret d ->
    match d with Some t => deserialize_cookies t | None => [] end = jar_of sp).
  { intros d. unfold record_ok in H4. rewrite <- Hx in H4. destruct x as [e|].
    - destruct H4 as (t & -> & Ht). by intros [= <-].
    - by intros [= <-]. }
  destruct (match x with None => Ret None | Some e => decrypt_value (password s) e end) as [d|e]; cbn [mbind result_bind]; [|done].
  specialize (Hr d eq_refl). intros [= <- <- _]. split; [|done]. split_and!; [|done|done|].
  - intros k' i Hi. cbn [password backend]. rewrite Hh. by apply H1.
  - cbn [password backend]. by rewrite Hh.
Qed.

(** A new storage over an empty back end. *)
Lemma open_empty pw b n s' b' n' : (forall k i, held b k i = ∅) -> open_storage pw b n = (Ret s', b', n') ->
  represents s' {| maps := fun _ _ => ∅; jar_of := [] |}.
Proof using BL.
  intros Hb. unfold open_storage. destruct (draw SALT_SIZE n) as [[sa|e] m]; [|done].
  destruct (or_throw _) as [k|e]; [|done]. destruct (b_get _ _ _ b) as [[x|e] b1] eqn:E; [|done].
  apply get_law in E as [Hh Hx]. specialize (Hx x eq_refl). rewrite Hb, lookup_empty in Hx. subst x.
  cbn [mbind result_bind]. intros [= <- _ _]. split_and!; [|done|constructor|].
  - intros k' i _. cbn [backend]. rewrite Hh, Hb. apply sealed_empty.
  - cbn [backend]. rewrite Hh, Hb. done.
Qed.

(** ** Progress *)

(** The library and the back end do not fail. *)
Record works : Prop := {
  random_works n size : is_Some (random_bytes n size);
  derive_works pw sa : is_Some (derive_key pw sa);
  encrypt_works k n a t : is_Some (gcm_encrypt k n a t);
  get_works k i key b : exists v b', b_get k i key b = (Ret v, b');
  set_works k i key v b : exists b', b_set k i key v b = (Ret tt, b');
  remove_works k i key b : exists x b', b_remove k i key b = (Ret x, b');
  clear_works k i b : exists b', b_clear k i b = (Ret tt, b');
  keys_works k i b : exists l b', b_keys k i b = (Ret l, b');
  listen_works k i l b : exists b', b_listen_store k i l b = (Ret tt, b') }.

Definition answers {A} (m : op storage A) (s : storage) : Prop := exists a s', m s = (Ret a, s').

Lemma answers_bind {A D} (m : op storage A) (f : A -> op storage D) s :
  answers m s -> (forall a s1, answers (f a) s1) -> answers (x ← m; f x) s.
Proof using. intros (a & s1 & E) H. destruct (H a s1) as (d & s2 & E2). exists d, s2. unfold mbind, op_bind. by rewrite E. Qed.

Lemma answers_backend {A} (m : op S A) s : (exists a b, m (backend s) = (Ret a, b)) -> answers (on_backend m) s.
Proof using. intros (a & b & E). exists a, (with_backend b s). unfold on_backend. by rewrite E. Qed.

Section Progress.
Context (W : works).

Lemma answers_wrapper k i s : answers (get_wrapper k i) s.
Proof using W.
  unfold answers, get_wrapper. destruct (wrappers k s !! i); [eauto|]. unfold mbind, op_bind, on_backend.
  destruct (listen_works W k i None (backend s)) as [b ->]. cbn. eauto.
Qed.

Lemma answers_encrypt v s : answers (encrypt v) s.
Proof using W.
  unfold answers, encrypt, on_entropy, encrypt_value, mbind, op_bind, draw, lift.
  destruct (random_works W (entropy s) SALT_SIZE) as [sa ->]. cbn [or_throw].
  destruct (random_works W (Datatypes.S (entropy s)) NONCE_SIZE) as [no ->]. cbn [or_throw].
  destruct (derive_works W (password s) sa) as [k ->]. cbn [or_throw].
  destruct (encrypt_works W k no STORAGE_AAD v) as [x ->]. cbn. eauto.
Qed.

Lemma answers_decrypt x s : answers (decrypt x) s.
Proof using W.
  unfold answers, decrypt. destruct x as [e|]; [|eauto]. unfold decrypt_value. destruct (_ || _); [eauto|]. cbn zeta.
  destruct (derive_works W (password s) (substr (length VALUE_MAGIC) SALT_SIZE e)) as [k ->]. cbn. eauto.
Qed.

Lemma answers_modify f s : answers (modify f) s.
Proof using. unfold answers, modify. eauto. Qed.

Lemma answers_mret {A} (a : A) s : answers (mret a) s.
Proof using. unfold answers. eauto. Qed.

Lemma answers_ask {A} (f : storage -> A) s : answers (ask f) s.
Proof using. unfold answers, ask. eauto. Qed.

Lemma answers_from {A D} (m : op storage A) (f : A -> op storage D) s a s1 :
  m s = (Ret a, s1) -> answers (f a) s1 -> answers (x ← m; f x) s.
Proof using. intros E (d & s2 & E2). exists d, s2. unfold mbind, op_bind. by rewrite E. Qed.

Lemma answers_save s : Forall cookie_fits (cookies_ s) -> answers save_locked s.
Proof using W.
  intros Hf. unfold save_locked, ask. unfold answers, mbind, op_bind. cbn beta iota. unfold lift.
  assert (exists t, serialize_cookies (cookies_ s) = Ret t) as [t ->].
  { unfold serialize_cookies. assert (exists b, serialize_list (cookies_ s) = Ret b) as [b ->]; [|by eexists].
    induction Hf as [|c l [Hc _] _ [b IH]]; [by eexists|]. cbn [serialize_list]. rewrite (write_fields_ok _ Hc), IH. by eexists. }
  destruct (answers_encrypt t s) as (x & s1 & ->). apply answers_backend.
  destruct (set_works W Local COOKIE_SESSION_ID COOKIE_RECORD_KEY x (backend s1)) as [b ->]. eauto.
Qed.

Create HintDb progress.
#[local] Hint Resolve answers_wrapper answers_encrypt answers_decrypt answers_modify answers_mret answers_ask : progress.
#[local] Hint Resolve get_works set_works remove_works clear_works keys_works : progress.

Ltac progress_steps :=
  repeat first [apply answers_bind; [|intros ? ?]|apply answers_backend|solve [eauto with progress]|apply answers_modify].

(** Every call answers when the library and the back end do not fail and the fields of the
    jar fit their 32-bit lengths: no state and no content of the stores makes a call throw,
    not even values that are not encrypted or that were encrypted with another password. *)
Theorem encrypted_progress c s :
  match c with CookieSet now origin ck => Forall cookie_fits (jar_set now origin ck (cookies_ s)) | _ => True end ->
  answers (run_call c) s.
Proof using W.
  intros Hc. destruct c; cbn [run_call]; unfold fmap_op; (apply answers_bind; [|intros; apply answers_mret]).
  - unfold enc_get, report_store. progress_steps.
  - unfold enc_set, report_store. progress_steps.
  - unfold enc_remove, report_store. progress_steps.
  - unfold enc_clear, report_store. progress_steps.
  - unfold enc_keys. progress_steps.
  - apply answers_modify.
  - apply answers_modify.
  - unfold cookie_set, jar_report. destruct (admit_cookie origin c); [|apply answers_mret].
    eapply answers_from; [reflexivity|]. apply answers_bind; [by apply answers_save|]. intros. apply answers_modify.
  - unfold cookie_get, jar_report. progress_steps.
  - unfold cookie_all, jar_report. progress_steps.
  - unfold cookie_clear, jar_report. progress_steps.
Qed.
End Progress.
End Refinement.

(** A value is read back: what [encrypt_value] returns for a text, [decrypt_value] decodes to
    that text under the same password, for any text and whatever the random bytes are. *)
Theorem encrypt_decrypt_value {C : Cipher} {L : CipherLaws C} pw v n e n' :
  encrypt_value pw v n = (Ret e, n') -> decrypt_value pw e = Ret (Some v).
Proof. apply decrypt_encrypt. Qed.

(** ** Witnesses *)

Definition toy_tag (k n : bytes) : bytes := take TAG_SIZE (rev k ++ n ++ replicate TAG_SIZE "t"%char).

(** A cipher that can be evaluated. *)
Definition toy_cipher : Cipher := {|
  random_bytes n size := Some (replicate size (byte (97 + N.of_nat n mod 26)));
  derive_key pw sa := Some (sa ++ pw);
  gcm_encrypt k n a t := Some (rev t, toy_tag k n);
  gcm_decrypt k n a ct tag := if tag =s toy_tag k n then Some (rev ct) else None |}.

#[export] Instance toy_laws : CipherLaws toy_cipher.
Proof.
  split.
  - intros k n a t ct tag [= <- <-]. cbn [gcm_decrypt toy_cipher]. by rewrite eqb_bytes_refl, rev_involutive.
  - intros k n a t ct tag [= _ <-]. unfold toy_tag. rewrite length_take, !length_app, length_replicate. lia.
  - intros n size b [= <-]. apply length_replicate.
Qed.

Definition opened : EncryptedStorage MemoryStorage :=
  match open_storage (C := toy_cipher) (lit "pw") new_storage 0 with
  | (Ret s, _, _) => s
  | _ => {| backend := new_storage; password := []; salt := []; key := []; entropy := 0; cookies_ := []; jar_listener := None;
            local_stores := ∅; session_stores := ∅; e_listener := None; e_accesses := [] |}
  end.

Definition nothing : spec := {| maps := fun _ _ => ∅; jar_of := [] |}.

Lemma opened_eq : exists b n', open_storage (C := toy_cipher) (lit "pw") new_storage 0 = (Ret opened, b, n').
Proof. eexists _, _. reflexivity. Qed.

Lemma opened_represents : represents (C := toy_cipher) opened nothing.
Proof.
  destruct opened_eq as (b & n' & E). apply (open_empty (lit "pw") new_storage 0 opened b n'); [|exact E].
  intros [] i; reflexivity.
Qed.

Definition demo_calls : list call :=
  [CSet Local (lit "s1") (lit "k") (lit "secret"); CGet Local (lit "s1") (lit "k"); CGet Local (lit "s2") (lit "k");
   CookieSet 0 sample_url sample_cookie; CookieGet 5 sample_url].

Definition demo_answers : list (result answer) :=
  [Ret ADone; Ret (AValue (Some (lit "secret"))); Ret (AValue None); Ret ADone; Ret (ACookies [stored_cookie])].

Definition demo_state : EncryptedStorage MemoryStorage :=
  (run_calls (C := toy_cipher) (fun _ => []) demo_calls opened).2.

Lemma demo_run : run_calls (C := toy_cipher) (fun _ => []) demo_calls opened = (demo_answers, demo_state).
Proof.
  unfold demo_state. rewrite (surjective_pairing (run_calls (fun _ => []) demo_calls opened)) at 1.
  apply (f_equal2 pair); [vm_compute; reflexivity|reflexivity].
Qed.

Lemma demo_ok : Forall call_ok demo_calls.
Proof. repeat constructor; intros [? ?]; discriminate. Qed.

Lemma encrypted_refines_witness :
  exists sp', spec_runs nothing demo_calls demo_answers sp' /\ represents (C := toy_cipher) demo_state sp'.
Proof.
  apply (encrypted_refines (C := toy_cipher) (fun _ => []) demo_calls opened nothing demo_answers demo_state).
  - exact opened_represents.
  - exact demo_ok.
  - vm_compute. reflexivity.
  - exact demo_run.
  - repeat constructor.
Defined.

Lemma encrypted_reopens_witness :
  exists s' b n', open_storage (C := toy_cipher) (password opened) (backend opened) 7 = (Ret s', b, n') /\
    represents (C := toy_cipher) s' nothing.
Proof.
  destruct (open_storage (C := toy_cipher) (password opened) (backend opened) 7) as [[[s'|e] b] n'] eqn:E.
  - exists s', b, n'. split; [done|].
    exact (proj1 (encrypted_reopens (C := toy_cipher) opened nothing 7 s' b n' opened_represents E)).
  - exfalso. vm_compute in E. discriminate E.
Defined.

Lemma memory_works : works (C := toy_cipher) (S := MemoryStorage).
Proof.
  split; try (intros; by eexists).
  - intros k i ky b. unfold b_get, memory_backend, on_memory. destruct (on_store _ _ _ _). eauto.
  - intros k i ky v b. unfold b_set, memory_backend, on_memory. destruct (on_store _ _ _ _) as [[] ?]. eauto.
  - intros k i ky b. unfold b_remove, memory_backend, on_memory. destruct (on_store _ _ _ _). eauto.
  - intros k i b. unfold b_clear, memory_backend, on_memory. destruct (on_store _ _ _ _) as [[] ?]. eauto.
  - intros k i b. unfold b_keys, memory_backend, on_memory. destruct (on_store _ _ _ _). eauto.
  - intros k i l b. unfold b_listen_store, memory_backend, on_memory. destruct (on_store _ _ _ _) as [[] ?]. eauto.
Qed.

Lemma encrypted_progress_witness :
  answers (run_call (C := toy_cipher) (fun _ => []) (CGet Local (lit "s") (lit "k"))) opened.
Proof. apply (encrypted_progress (C := toy_cipher) (fun _ => []) memory_works). exact I. Defined.

Lemma encrypt_decrypt_value_witness :
  exists e n', encrypt_value (C := toy_cipher) (lit "pw") (lit "text") 3 = (Ret e, n') /\
    decrypt_value (C := toy_cipher) (lit "pw") e = Ret (Some (lit "text")).
Proof.
  eexists _, _. split; [reflexivity|]. eapply (encrypt_decrypt_value (C := toy_cipher)). reflexivity.
Defined.

(** A value stored under another password is no value. *)
Example wrong_password :
  (let '(r, _) := encrypt_value (C := toy_cipher) (lit "pw") (lit "text") 3 in
   match r with Ret e => decrypt_value (C := toy_cipher) (lit "other") e | Throw e => Throw e end) = Ret None.
Proof. vm_compute. reflexivity. Qed.
