(* ===== verification/Tcb.v ===== *)
(** * Persistent storage: [src/session/tokyocabinet_storage.cpp]

    A storage whose local stores and cookies are Tokyo Cabinet B+ tree files, with the session
    stores in memory.  The library is the interface [BTree]: a file opens, or an error is
    reported ([None]); a cursor visits the entries of a tree.  The directory is a map from file
    names to trees. *)
From S2P Require Import Prelude Html Url Storage CookieRecord Backend.

Class BTree := {
  tree : Type;
  (** [tcbdbopen] of a file that is there or not, creating it. *)
  t_open : option tree -> option tree;
  t_get : bytes -> tree -> option bytes;
  t_put : bytes -> bytes -> tree -> option tree;
  t_out : bytes -> tree -> bool * tree;
  t_vanish : tree -> tree;
  t_entries : tree -> list (bytes * bytes) }.

Section Tcb.
Context {T : BTree}.

(** ** Files *)

Definition hex_byte (c : ascii) : bytes :=
  let digit n := if (n <? 10)%N then byte (48 + n) else byte (87 + n) in
  [digit (N.shiftr (code c) 4); digit (N.land (code c) 15)].

Definition local_path (session_id : bytes) : bytes := lit "local_" ++ mjoin (map hex_byte session_id) ++ lit ".tcb".
Definition cookies_path : bytes := lit "cookies.tcb".

(** [stores_] are the open local stores with their listeners; [jar_listener] is the cookie
    jar's. *)
Record TCBStorage := {
  disk : gmap bytes tree; stores_ : gmap bytes (option nat); sessions : MemoryStorage;
  t_listener : option nat; jar_listener : option nat; t_accesses : list access }.

Definition with_disk (d : gmap bytes tree) (s : TCBStorage) : TCBStorage :=
  {| disk := d; stores_ := stores_ s; sessions := sessions s; t_listener := t_listener s;
     jar_listener := jar_listener s; t_accesses := t_accesses s |}.
Definition with_handles (m : gmap bytes (option nat)) (s : TCBStorage) : TCBStorage :=
  {| disk := disk s; stores_ := m; sessions := sessions s; t_listener := t_listener s;
     jar_listener := jar_listener s; t_accesses := t_accesses s |}.
Definition with_sessions (m : MemoryStorage) (s : TCBStorage) : TCBStorage :=
  {| disk := disk s; stores_ := stores_ s; sessions := m; t_listener := t_listener s;
     jar_listener := jar_listener s; t_accesses := t_accesses s |}.

Definition t_report (l : option nat) (store operation key : bytes) (s : TCBStorage) : TCBStorage :=
  match l with
  | Some h => {| disk := disk s; stores_ := stores_ s; sessions := sessions s; t_listener := t_listener s; jar_listener := jar_listener s;
                 t_accesses := t_accesses s ++ [{| a_listener := h; a_store := store; a_key := key; a_operation := operation |}] |}
  | None => s
  end.

(** ** [TCBKeyValueStore] *)

(** [local_storage]: the open store, opened when it is first asked for. *)
Definition open_local (i : bytes) : op TCBStorage unit := fun s =>
  match stores_ s !! i with
  | Some _ => (Ret tt, s)
  | None =>
      match t_open (disk s !! local_path i) with
      | None => (Throw Internal, s)
      | Some t => (Ret tt, with_handles (<[i := t_listener s]> (stores_ s)) (with_disk (<[local_path i := t]> (disk s)) s))
      end
  end.

(** The tree of an open store, after the report of the operation. *)
Definition on_tree {A} (i operation key : bytes) (f : tree -> result A * tree) : op TCBStorage A := fun s =>
  let s1 := t_report (default None (stores_ s !! i)) (lit "local") operation key s in
  match disk s1 !! local_path i with
  | None => (Throw Internal, s1)
  | Some t => let '(r, t') := f t in (r, with_disk (<[local_path i := t']> (disk s1)) s1)
  end.

Definition tree_get (key : bytes) (t : tree) : result (option bytes) * tree := (Ret (t_get key t), t).
Definition tree_set (key v : bytes) (t : tree) : result unit * tree :=
  match t_put key v t with Some t' => (Ret tt, t') | None => (Throw Internal, t) end.
Definition tree_remove (key : bytes) (t : tree) : result bool * tree := let '(b, t') := t_out key t in (Ret b, t').
Definition tree_clear (t : tree) : result unit * tree := (Ret tt, t_vanish t).

Definition local_get (i key : bytes) : op TCBStorage (option bytes) := _ ← open_local i; on_tree i (lit "get") key (tree_get key).
Definition local_set (i key v : bytes) : op TCBStorage unit := _ ← open_local i; on_tree i (lit "set") key (tree_set key v).
Definition local_remove (i key : bytes) : op TCBStorage bool := _ ← open_local i; on_tree i (lit "remove") key (tree_remove key).
Definition local_clear (i : bytes) : op TCBStorage unit := _ ← open_local i; on_tree i (lit "clear") [] tree_clear.

(** [keys] reports nothing. *)
Definition tree_keys (i : bytes) : op TCBStorage (list bytes) := fun s =>
  match disk s !! local_path i with
  | None => (Throw Internal, s)
  | Some t => (Ret (map fst (t_entries t)), s)
  end.
Definition local_keys (i : bytes) : op TCBStorage (list bytes) := _ ← open_local i; tree_keys i.

Definition listen_handle (i : bytes) (l : option nat) : op TCBStorage unit :=
  fun s => (Ret tt, with_handles (<[i := l]> (stores_ s)) s).
Definition local_listen (i : bytes) (l : option nat) : op TCBStorage unit := _ ← open_local i; listen_handle i l.

(** ** [TCBCookieJar] *)

Definition nul : ascii := byte 0.

Definition cookie_db_key (c : Cookie) : bytes := c_domain c ++ nul :: c_path c ++ nul :: c_name c.

Definition jar_tree (s : TCBStorage) : option tree := disk s !! cookies_path.

Definition jar_report (operation key : bytes) (s : TCBStorage) : TCBStorage :=
  t_report (jar_listener s) (lit "cookies") operation key s.

Definition cookie_set (now : Z) (origin : Url) (c : Cookie) : op TCBStorage unit := fun s =>
  match admit_cookie origin c, jar_tree s with
  | Some c', Some t =>
      if expired now c' then
        (Ret tt, jar_report (lit "remove") (c_name c') (with_disk (<[cookies_path := (t_out (cookie_db_key c') t).2]> (disk s)) s))
      else match t_put (cookie_db_key c') (serialize_cookie c') t with
           | None => (Throw Internal, s)
           | Some t' => (Ret tt, jar_report (lit "set") (c_name c') (with_disk (<[cookies_path := t']> (disk s)) s))
           end
  | _, _ => (Ret tt, s)
  end.

(** The cookies of the entries, in the order of the cursor. *)
Definition stored_cookies (t : tree) : list Cookie := map (fun p => deserialize_cookie p.2) (t_entries t).

Definition cookie_get (now : Z) (origin : Url) : op TCBStorage (list Cookie) := fun s =>
  let l := match jar_tree s with Some t => stored_cookies t | None => [] end in
  (Ret (sort_cookies (List.filter (fun c => nonempty (c_name c) && sent_to now origin c) l)), jar_report (lit "get") (host origin) s).

Definition cookie_line (now : Z) (origin : Url) : op TCBStorage bytes :=
  l ← cookie_get now origin; mret (foldl add_to_header [] l).

Definition cookie_clear : op TCBStorage unit := fun s =>
  (Ret tt, jar_report (lit "clear") []
     (with_disk (match jar_tree s with Some t => <[cookies_path := t_vanish t]> (disk s) | None => disk s end) s)).

Definition cookie_all (now : Z) : op TCBStorage (list Cookie) := fun s =>
  let l := match jar_tree s with Some t => stored_cookies t | None => [] end in
  (Ret (List.filter (fun c => negb (expired now c)) l), jar_report (lit "get") (lit "all") s).

(** ** [TCBStorage] *)

(** The constructor over a directory.  The jar's first listener forwards to the listener of
    the storage, of which there is none yet. *)
Definition open_tcb (d : gmap bytes tree) : result TCBStorage :=
  match t_open (d !! cookies_path) with
  | None => Throw Internal
  | Some t => Ret {| disk := <[cookies_path := t]> d; stores_ := ∅; sessions := new_storage; t_listener := None;
                     jar_listener := None; t_accesses := [] |}
  end.

(** An operation on the session stores, which are the memory storage's. *)
Definition on_sessions {A} (m : op MemoryStorage A) : op TCBStorage A :=
  fun s => let '(r, x) := m (sessions s) in (r, with_sessions x s).

Definition tcb_release (i : bytes) (s : TCBStorage) : TCBStorage :=
  with_handles (delete i (stores_ s)) (with_sessions (release_session i (sessions s)) s).

Definition tcb_listen (l : option nat) (s : TCBStorage) : TCBStorage :=
  {| disk := disk s; stores_ := (fun _ => l) <$> stores_ s; sessions := set_access_listener l (sessions s);
     t_listener := l; jar_listener := l; t_accesses := t_accesses s |}.

#[export] Instance tcb_backend : StorageBackend TCBStorage := {|
  b_get k i key := match k with Local => local_get i key | SessionStore => on_sessions (b_get k i key) end;
  b_set k i key v := match k with Local => local_set i key v | SessionStore => on_sessions (b_set k i key v) end;
  b_remove k i key := match k with Local => local_remove i key | SessionStore => on_sessions (b_remove k i key) end;
  b_clear k i := match k with Local => local_clear i | SessionStore => on_sessions (b_clear k i) end;
  b_keys k i := match k with Local => local_keys i | SessionStore => on_sessions (b_keys k i) end;
  b_listen_store k i l := match k with Local => local_listen i l | SessionStore => on_sessions (b_listen_store k i l) end;
  b_release := tcb_release;
  b_listen := tcb_listen |}.

End Tcb.

(** ** The library's promises *)

Class BTreeLaws (T : BTree) := {
  t_content : tree -> gmap bytes bytes;
  open_law old t : t_open old = Some t -> t_content t = from_option t_content ∅ old;
  get_tree_law key t : t_get key t = t_content t !! key;
  put_law key v t t' : t_put key v t = Some t' -> t_content t' = <[key := v]> (t_content t);
  out_law key t b t' : t_out key t = (b, t') ->
    b = bool_decide (is_Some (t_content t !! key)) /\ t_content t' = delete key (t_content t);
  vanish_law t : t_content (t_vanish t) = ∅;
  entries_law t : t_entries t ≡ₚ map_to_list (t_content t) }.

(** ** Files of different sessions are different files *)

Lemma hex_byte_inj c d : hex_byte c = hex_byte d -> c = d.
Proof.
  assert (H : forall c, exists h l, hex_byte c = [h; l] /\ c = byte
    (N.lor (N.shiftl (if (code h <? 58)%N then code h - 48 else code h - 87) 4) (if (code l <? 58)%N then code l - 48 else code l - 87))).
  { intros x. eexists _, _. split; [done|]. by_ascii x. }
  destruct (H c) as (h & l & Hc & ->), (H d) as (h' & l' & Hd & ->). rewrite Hc, Hd. by intros [= -> ->].
Qed.

Lemma mjoin_hex_inj a b : mjoin (map hex_byte a) = mjoin (map hex_byte b) -> a = b.
Proof.
  revert b. induction a as [|x a IH]; intros [|y b]; [done|done|done|]. cbn [map].
  change (mjoin (?h :: ?l)) with (h ++ mjoin l). intros H.
  assert (Hl : forall c, length (hex_byte c) = 2) by done.
  apply app_inj_1 in H as [Hx H]; [|by rewrite !Hl]. apply hex_byte_inj in Hx as ->. f_equal. by apply IH.
Qed.

Lemma local_path_inj i j : local_path i = local_path j -> i = j.
Proof. unfold local_path. intros H. apply app_inv_head, app_inv_tail in H. by apply mjoin_hex_inj. Qed.

Lemma local_path_cookies i : local_path i <> cookies_path.
Proof. done. Qed.

Section Laws.
Context {T : BTree} {L : BTreeLaws T}.

Definition tcb_held (s : TCBStorage) (k : StoreKind) (i : bytes) : gmap bytes bytes :=
  match k with
  | Local => from_option t_content ∅ (disk s !! local_path i)
  | SessionStore => contents SessionStore i (sessions s)
  end.

(** The same stores and the same cookie file. *)
Definition keeps (s s' : TCBStorage) : Prop :=
  sessions s' = sessions s /\ disk s' !! cookies_path = disk s !! cookies_path /\
  forall i, from_option t_content ∅ (disk s' !! local_path i) = from_option t_content ∅ (disk s !! local_path i).

Lemma keeps_held s s' k i : keeps s s' -> tcb_held s' k i = tcb_held s k i.
Proof using. intros (Hs & _ & Hl). destruct k; cbn [tcb_held]; [apply Hl|by rewrite Hs]. Qed.

Lemma t_report_keeps l store operation key s : keeps s (t_report l store operation key s).
Proof using. unfold t_report. by destruct l. Qed.

Lemma keeps_trans s1 s2 s3 : keeps s1 s2 -> keeps s2 s3 -> keeps s1 s3.
Proof using.
  intros (A1 & A2 & A3) (B1 & B2 & B3). split; [congruence|]. split; [congruence|]. intros i. by rewrite B3.
Qed.

Lemma open_local_keeps i s r s' : open_local i s = (r, s') -> keeps s s'.
Proof using.
  unfold open_local. destruct (stores_ s !! i); [by intros [= _ <-]|].
  destruct (t_open _) as [t|] eqn:E; [|by intros [= _ <-]]. apply open_law in E. intros [= _ <-].
  split; [done|]. split; [cbn; by rewrite lookup_insert_ne by apply local_path_cookies|].
  intros j. cbn. destruct (decide (local_path j = local_path i)) as [Hp|Hp].
  - rewrite Hp, lookup_insert_eq. done.
  - by rewrite lookup_insert_ne by done.
Qed.

(** An operation on the tree of a session changes that tree only. *)
Lemma on_tree_spec {A} i operation key (f : tree -> result A * tree) s r s' :
  on_tree i operation key f s = (r, s') ->
  (keeps s s' /\ exists e, r = Throw e) \/
  exists t t', disk s !! local_path i = Some t /\ f t = (r, t') /\
    forall k' i', tcb_held s' k' i' = changed (tcb_held s) Local i (t_content t') k' i'.
Proof using.
  unfold on_tree. set (s1 := t_report _ _ _ _ s). assert (Hk : keeps s s1) by apply t_report_keeps.
  assert (Hd : disk s1 = disk s) by (unfold s1, t_report; by destruct (default _ _)).
  rewrite Hd. destruct (disk s !! local_path i) as [t|] eqn:E; [|intros [= <- <-]; left; eauto].
  destruct (f t) as [r' t'] eqn:Ef. intros [= <- <-]. right. exists t, t'. split; [done|]. split; [done|].
  intros k' i'. unfold changed. case_decide as Hc.
  - injection Hc as -> ->. cbn. by rewrite lookup_insert_eq.
  - destruct k'; [|by apply (keeps_held s s1 SessionStore)]. cbn. rewrite lookup_insert_ne; [done|].
    intros Hp%local_path_inj. by subst.
Qed.

Lemma tree_held s i t : disk s !! local_path i = Some t -> tcb_held s Local i = t_content t.
Proof using. cbn. by intros ->. Qed.

Lemma open_then {A} i (m : op TCBStorage A) s r s' :
  (_ ← open_local i; m) s = (r, s') ->
  exists s1, (forall k j, tcb_held s1 k j = tcb_held s k j) /\ ((exists e, r = Throw e /\ s' = s1) \/ m s1 = (r, s')).
Proof using.
  unfold mbind, op_bind. destruct (open_local i s) as [[[]|e] s1] eqn:E; pose proof (open_local_keeps _ _ _ _ E) as Hk;
    intros H; exists s1; (split; [intros; by apply keeps_held|]); [by right|]. injection H as <- <-. left. eauto.
Qed.

Lemma changed_ext f g k i m k' i' : (forall k i, f k i = g k i) -> changed f k i m k' i' = changed g k i m k' i'.
Proof using. intros H. unfold changed. case_decide; auto. Qed.

Lemma on_sessions_held {A} (m : op MemoryStorage A) s r s' : on_sessions m s = (r, s') ->
  exists x, m (sessions s) = (r, x) /\ tcb_held s' SessionStore = (fun i => contents SessionStore i x) /\
    (forall i, tcb_held s' Local i = tcb_held s Local i).
Proof using. unfold on_sessions. destruct (m (sessions s)) as [r' x]. intros [= <- <-]. eauto. Qed.

Lemma sessions_changed s s' x i m :
  tcb_held s' SessionStore = (fun i => contents SessionStore i x) -> (forall j, tcb_held s' Local j = tcb_held s Local j) ->
  (forall k' i', contents k' i' x = changed (fun k i => contents k i (sessions s)) SessionStore i m k' i') ->
  forall k' i', tcb_held s' k' i' = changed (tcb_held s) SessionStore i m k' i'.
Proof using.
  intros Hs Hl Hx [] i'; [by rewrite Hl|]. rewrite Hs, Hx. unfold changed. by case_decide.
Qed.

Lemma sessions_same s s' x :
  tcb_held s' SessionStore = (fun i => contents SessionStore i x) -> (forall j, tcb_held s' Local j = tcb_held s Local j) ->
  (forall k' i', contents k' i' x = contents k' i' (sessions s)) ->
  forall k' i', tcb_held s' k' i' = tcb_held s k' i'.
Proof using. intros Hs Hl Hx [] i'; [done|]. by rewrite Hs, Hx. Qed.

#[export] Instance tcb_laws : StorageLaws TCBStorage.
Proof using L.
  refine {| held := tcb_held |}.
  - intros [] i key s r s'; cbn [b_get tcb_backend].
    + intros (s1 & H1 & [(e & -> & ->)|H])%open_then; [split; [apply H1|done]|].
      apply on_tree_spec in H as [(Hk & e & ->)|(t & t' & Ht & Hf & Hc)].
      * split; [|done]. intros. rewrite (keeps_held _ _ _ _ Hk). apply H1.
      * injection Hf as <- <-. pose proof (tree_held _ _ _ Ht) as Hh. rewrite get_tree_law, <- Hh. split.
        -- intros k' i'. rewrite Hc, <- Hh, changed_same. apply H1.
        -- intros v Hv%Ret_inj. subst v. by rewrite <- H1.
    + intros (x & Hx & Hs & Hl)%on_sessions_held. apply get_law in Hx as [Ha Hb]. split; [by eapply sessions_same|]. exact Hb.
  - intros [] i key v s r s'; cbn [b_set tcb_backend].
    + intros (s1 & H1 & [(e & -> & ->)|H])%open_then; [apply H1|].
      apply on_tree_spec in H as [(Hk & e & ->)|(t & t' & Ht & Hf & Hc)].
      * intros. rewrite (keeps_held _ _ _ _ Hk). apply H1.
      * pose proof (tree_held _ _ _ Ht) as Hh. unfold tree_set in Hf. destruct (t_put key v t) as [t''|] eqn:Ep; injection Hf as <- <-.
        -- apply put_law in Ep. intros k' i'. rewrite Hc, Ep, <- Hh, H1. by apply changed_ext.
        -- intros k' i'. rewrite Hc, <- Hh, changed_same. apply H1.
    + intros (x & Hx & Hs & Hl)%on_sessions_held. apply set_law in Hx. destruct r; [by eapply sessions_changed|by eapply sessions_same].
  - intros [] i key s r s'; cbn [b_remove tcb_backend].
    + intros (s1 & H1 & [(e & -> & ->)|H])%open_then; [apply H1|].
      apply on_tree_spec in H as [(Hk & e & ->)|(t & t' & Ht & Hf & Hc)].
      * intros. rewrite (keeps_held _ _ _ _ Hk). apply H1.
      * pose proof (tree_held _ _ _ Ht) as Hh. unfold tree_remove in Hf. destruct (t_out key t) as [b t''] eqn:Ep. injection Hf as <- <-.
        apply out_law in Ep as [-> Ep]. rewrite <- Hh, H1 in Ep. rewrite <- Hh, H1. split; [done|]. intros k' i'. rewrite Hc, Ep. by apply changed_ext.
    + intros (x & Hx & Hs & Hl)%on_sessions_held. apply remove_law in Hx. destruct r; [|by eapply sessions_same].
      destruct Hx as [-> Hx]. split; [done|]. by eapply sessions_changed.
  - intros [] i s r s'; cbn [b_clear tcb_backend].
    + intros (s1 & H1 & [(e & -> & ->)|H])%open_then; [apply H1|].
      apply on_tree_spec in H as [(Hk & e & ->)|(t & t' & Ht & Hf & Hc)].
      * intros. rewrite (keeps_held _ _ _ _ Hk). apply H1.
      * injection Hf as <- <-. intros k' i'. rewrite Hc, vanish_law. by apply changed_ext.
    + intros (x & Hx & Hs & Hl)%on_sessions_held. apply clear_law in Hx. destruct r; [by eapply sessions_changed|by eapply sessions_same].
  - intros [] i s r s'; cbn [b_keys tcb_backend].
    + intros (s1 & H1 & [(e & -> & ->)|H])%open_then; [split; [apply H1|done]|].
      unfold tree_keys in H. destruct (disk s1 !! local_path i) as [t|] eqn:Et; injection H as <- <-; (split; [apply H1|]); [|done].
      intros l [= <-]. rewrite <- H1, (tree_held _ _ _ Et), entries_law.
      change (map fst (map_to_list (t_content t))) with ((map_to_list (t_content t)).*1).
      apply NoDup_Permutation; [apply NoDup_fst_map_to_list|apply NoDup_elements|]. intros k.
      rewrite elem_of_elements, elem_of_dom, list_elem_of_fmap. split.
      * intros ([k' v] & -> & Hin). apply elem_of_map_to_list in Hin. eauto.
      * intros [v Hv]. exists (k, v). split; [done|]. by apply elem_of_map_to_list.
    + intros (x & Hx & Hs & Hl)%on_sessions_held. apply keys_law in Hx as [Ha Hb]. split; [by eapply sessions_same|]. exact Hb.
  - intros [] i l s r s'; cbn [b_listen_store tcb_backend].
    + intros (s1 & H1 & [(e & -> & ->)|H])%open_then; [apply H1|]. injection H as <- <-. intros k' i'. rewrite <- (H1 k' i'). by destruct k'.
    + intros (x & Hx & Hs & Hl)%on_sessions_held. pose proof (listen_store_law _ _ _ _ _ _ Hx) as Hh. by eapply sessions_same.
  - intros l s [] i'; [done|]. exact (listen_law l (sessions s) SessionStore i').
  - intros i s [] i' Hi; [done|]. cbn. exact (release_others i (sessions s) SessionStore i' Hi).
  - intros i s. exact (release_session_law i (sessions s)).
  - intros i s. by right.
Defined.

(** ** The cookie jar *)

(** Cookies the file can tell apart and hold: no zero byte in the domain or the path. *)
Definition plain_cookie (c : Cookie) : Prop :=
  cookie_fits c /\ c_name c <> [] /\ nul ∉ c_domain c /\ nul ∉ c_path c.

Lemma cut_at_nul a b x y : nul ∉ a -> nul ∉ b -> a ++ nul :: x = b ++ nul :: y -> a = b /\ x = y.
Proof using.
  revert b. induction a as [|c a IH]; intros [|d b] Ha Hb; cbn [app]; intros H.
  - by injection H.
  - injection H as <- _. exfalso. apply Hb. constructor.
  - injection H as -> _. exfalso. apply Ha. constructor.
  - injection H as -> H. destruct (IH b) as [-> ->]; [set_solver..|done|done].
Qed.

Lemma cookie_db_key_inj c d : plain_cookie c -> plain_cookie d -> cookie_db_key c = cookie_db_key d -> cookie_key c = cookie_key d.
Proof using.
  intros (_ & _ & C1 & C2) (_ & _ & D1 & D2) H. unfold cookie_db_key in H.
  apply cut_at_nul in H as [Hd H]; [|done|done]. apply cut_at_nul in H as [Hp Hn]; [|done|done]. unfold cookie_key. congruence.
Qed.

Lemma cookie_db_key_eq c d : cookie_key c = cookie_key d -> cookie_db_key c = cookie_db_key d.
Proof using. unfold cookie_key, cookie_db_key. by intros [= -> -> ->]. Qed.

(** The file holds exactly the cookies of a jar. *)
Definition file_holds (t : tree) (j : jar) : Prop :=
  Forall plain_cookie j /\ NoDup (map cookie_key j) /\
  forall k v, t_content t !! k = Some v <-> exists c, c ∈ j /\ k = cookie_db_key c /\ v = serialize_cookie c.

Lemma decode_record c : plain_cookie c -> deserialize_cookie (serialize_cookie c) = c.
Proof using.
  intros [Hf _]. by apply cookie_record_roundtrip.
Qed.

Lemma db_keys_nodup j : Forall plain_cookie j -> NoDup (map cookie_key j) -> NoDup (map cookie_db_key j).
Proof using.
  induction j as [|c j IH]; cbn [map]; [constructor|]. intros [Hc Hj]%Forall_cons [Hn Hnd]%NoDup_cons.
  apply NoDup_cons. split; [|by apply IH]. intros Hin. apply list_elem_of_fmap in Hin as (d & Hd & Hin).
  apply Hn. apply list_elem_of_fmap. exists d. split; [|done]. apply cookie_db_key_inj; [done| |done].
  rewrite Forall_forall in Hj. by apply Hj.
Qed.

Lemma stored_cookies_jar t j : file_holds t j -> stored_cookies t ≡ₚ j.
Proof using L.
  intros (Hp & Hn & Hc). unfold stored_cookies.
  assert (He : t_entries t ≡ₚ map (fun c => (cookie_db_key c, serialize_cookie c)) j).
  { rewrite entries_law. apply NoDup_Permutation; [apply NoDup_map_to_list| |].
    - pose proof (db_keys_nodup j Hp Hn) as H. apply (NoDup_fmap_1 fst). rewrite <- list_fmap_compose. exact H.
    - intros [k v]. rewrite elem_of_map_to_list, Hc. rewrite list_elem_of_fmap. split.
      + intros (c & Hin & -> & ->). eauto.
      + intros (c & [= -> ->] & Hin). eauto. }
  rewrite He, map_map. cbn [snd]. clear -Hp. induction j as [|c j IH]; [done|]. apply Forall_cons in Hp as [Hc Hp].
  cbn [map]. rewrite decode_record by done. by rewrite IH.
Qed.

(** An admissible change keeps the file and the jar together. *)
Lemma same_cookie_false c e : same_cookie c e = false <-> cookie_key e <> cookie_key c.
Proof using. rewrite <- same_cookie_key. by destruct (same_cookie c e). Qed.

Lemma kept_in c j x : x ∈ List.filter (fun e => negb (same_cookie c e)) j <-> x ∈ j /\ cookie_key x <> cookie_key c.
Proof using. rewrite !list_elem_of_In, filter_In, negb_true_iff, same_cookie_false. done. Qed.

Lemma file_holds_out t t' b c j : file_holds t j -> plain_cookie c -> t_out (cookie_db_key c) t = (b, t') ->
  file_holds t' (List.filter (fun e => negb (same_cookie c e)) j).
Proof using.
  intros (Hp & Hn & Hc) Hplain [_ Ho]%out_law. split_and!.
  - rewrite Forall_forall in *. intros x [Hx _]%kept_in. by apply Hp.
  - clear -Hn. induction j as [|e j IH]; [done|]. cbn [List.filter map] in *. apply NoDup_cons in Hn as [He Hn].
    destruct (negb _); [|by apply IH]. cbn [map]. apply NoDup_cons. split; [|by apply IH].
    intros Hin. apply He. apply list_elem_of_fmap in Hin as (x & -> & [Hx _]%kept_in). apply list_elem_of_fmap. eauto.
  - intros k v. rewrite Ho, lookup_delete_Some, Hc. split.
    + intros [Hk (x & Hx & -> & ->)]. exists x. split; [|done]. apply kept_in. split; [done|]. intros He. by apply Hk, cookie_db_key_eq.
    + intros (x & [Hx He]%kept_in & -> & ->). split; [|eauto]. intros Hk. apply He. symmetry in Hk.
      rewrite Forall_forall in Hp. apply cookie_db_key_inj in Hk; [done|by apply Hp|done].
Qed.

Lemma file_holds_put t t' c j : file_holds t j -> plain_cookie c -> t_put (cookie_db_key c) (serialize_cookie c) t = Some t' ->
  file_holds t' (List.filter (fun e => negb (same_cookie c e)) j ++ [c]).
Proof using.
  intros Ht Hplain Hput%put_law. pose proof (file_holds_out t (t_out (cookie_db_key c) t).2 (t_out (cookie_db_key c) t).1 c j Ht Hplain (surjective_pairing _)) as (Hp & Hn & Hc).
  destruct (out_law (cookie_db_key c) t _ _ (surjective_pairing _)) as [_ Hd]. split_and!.
  - apply Forall_app. by split; [|constructor].
  - rewrite map_app. apply NoDup_app. split; [done|]. split; [|apply NoDup_singleton].
    intros x Hx Hs%list_elem_of_singleton. subst x. apply list_elem_of_fmap in Hx as (x & He & [_ Hne]%kept_in). by apply Hne.
  - intros k v. rewrite Hput. rewrite lookup_insert_Some. split.
    + intros [[<- <-]|[Hk Hv]].
      * exists c. split; [|done]. apply elem_of_app. right. constructor.
      * assert (Hv' : t_content (t_out (cookie_db_key c) t).2 !! k = Some v) by (rewrite Hd, lookup_delete_ne; done).
        apply Hc in Hv' as (x & Hx & Heq). exists x. split; [|done]. apply elem_of_app. by left.
    + intros (x & [Hx|Hx%list_elem_of_singleton]%elem_of_app & -> & ->); [|subst x; by left]. right.
      assert (Hv' : t_content (t_out (cookie_db_key c) t).2 !! cookie_db_key x = Some (serialize_cookie x)) by (apply Hc; eauto).
      rewrite Hd in Hv'. by apply lookup_delete_Some in Hv' as [? ?].
Qed.

(** The cookies that a call stores are plain. *)
Definition plain_call (k : set_call) : Prop :=
  forall c, admit_cookie (s_origin k) (s_cookie k) = Some c -> plain_cookie c.

(** A history of [set] calls on the file. *)
Fixpoint run_file (calls : list set_call) (s : TCBStorage) : result unit * TCBStorage :=
  match calls with
  | [] => (Ret tt, s)
  | k :: calls' => (_ ← cookie_set (s_now k) (s_origin k) (s_cookie k); run_file calls') s
  end.

Lemma cookie_set_file now origin c s t j s' :
  jar_tree s = Some t -> file_holds t j -> plain_call {| s_now := now; s_origin := origin; s_cookie := c |} ->
  cookie_set now origin c s = (Ret tt, s') ->
  exists t', jar_tree s' = Some t' /\ file_holds t' (jar_set now origin c j).
Proof using.
  intros Ht Hj Hp. unfold cookie_set, jar_set. rewrite Ht. unfold plain_call in Hp. cbn [s_origin s_cookie] in Hp.
  assert (Hrep : forall op k s, jar_tree (jar_report op k s) = jar_tree s) by (intros; unfold jar_report, t_report; by destruct (jar_listener _)).
  destruct (admit_cookie origin c) as [c'|]; [|intros [= <-]; by exists t]. specialize (Hp c' eq_refl).
  destruct (expired now c').
  - intros H. injection H as <-. destruct (t_out (cookie_db_key c') t) as [b t'] eqn:E. exists t'. split; [|by eapply file_holds_out].
    rewrite Hrep. unfold jar_tree. cbn. by rewrite lookup_insert_eq.
  - destruct (t_put _ _ t) as [t'|] eqn:E; [|done]. intros H. injection H as <-. exists t'. split; [|by eapply file_holds_put].
    rewrite Hrep. unfold jar_tree. cbn. by rewrite lookup_insert_eq.
Qed.

Lemma run_file_holds calls : forall s t j s',
  jar_tree s = Some t -> file_holds t j -> Forall plain_call calls -> run_file calls s = (Ret tt, s') ->
  exists t', jar_tree s' = Some t' /\ file_holds t' (foldl (fun j k => jar_set (s_now k) (s_origin k) (s_cookie k) j) j calls).
Proof using.
  induction calls as [|k calls IH]; intros s t j s' Ht Hj Hp; cbn [run_file foldl]; [intros [= <-]; eauto|].
  apply Forall_cons in Hp as [Hk Hp]. unfold mbind, op_bind.
  destruct (cookie_set _ _ _ s) as [[[]|e] s1] eqn:E; [|done]. intros H.
  eapply cookie_set_file in E as (t1 & Ht1 & Hj1); [|exact Ht|exact Hj|by destruct k]. by eapply IH.
Qed.

Lemma filter_permutation {A} (p : A -> bool) l1 l2 : l1 ≡ₚ l2 -> List.filter p l1 ≡ₚ List.filter p l2.
Proof using.
  induction 1 as [|x l1 l2 _ IH|x y l|l1 l2 l3 _ IH1 _ IH2]; cbn [List.filter]; [done| | |by etrans].
  - destruct (p x); [by rewrite IH|done].
  - destruct (p x), (p y); try done. apply Permutation_swap.
Qed.

Lemma insert_cookie_permutation c l : insert_cookie c l ≡ₚ c :: l.
Proof using.
  induction l as [|e l IH]; [done|]. cbn [insert_cookie]. destruct (_ <? _)%nat; [|done]. rewrite IH. apply Permutation_swap.
Qed.

Lemma sort_cookies_permutation l : sort_cookies l ≡ₚ l.
Proof using.
  induction l as [|c l IH]; [done|]. cbn [sort_cookies foldr]. fold (sort_cookies l). rewrite insert_cookie_permutation. by rewrite IH.
Qed.

(** The cookie file is a cookie jar: after any history of [set] calls on a new file, [get]
    answers, for any URL and time, exactly the cookies that the in-memory jar answers after the
    same history, each with all its fields, and longer paths come first; only the order of
    cookies whose paths are equally long may differ.  The stored cookies have fields of less
    than 4 GiB, 64-bit expirations, and no zero byte in their domain and path. *)
Theorem cookie_file_is_jar calls s t s' now origin l s'' :
  jar_tree s = Some t -> t_content t = ∅ -> Forall plain_call calls ->
  run_file calls s = (Ret tt, s') -> cookie_get now origin s' = (Ret l, s'') ->
  l ≡ₚ jar_get now origin (run_sets calls) /\ StronglySorted longer l.
Proof using L.
  intros Ht Hempty Hp Hrun Hget.
  assert (H0 : file_holds t []).
  { split; [constructor|]. split; [constructor|]. intros k v. rewrite Hempty, lookup_empty. split; [done|]. intros (c & Hc & _). by apply elem_of_nil in Hc. }
  destruct (run_file_holds calls s t [] s' Ht H0 Hp Hrun) as (t' & Ht' & Hj). fold (run_sets calls) in Hj.
  unfold cookie_get in Hget. rewrite Ht' in Hget. apply (f_equal fst) in Hget. cbn [fst] in Hget. apply Ret_inj in Hget. subst l.
  split; [|apply sort_cookies_sorted]. unfold jar_get. rewrite !sort_cookies_permutation.
  rewrite (filter_permutation _ _ _ (stored_cookies_jar _ _ Hj)). destruct Hj as (Hpl & _). clear -Hpl.
  induction (run_sets calls) as [|c j IH]; [done|]. apply Forall_cons in Hpl as [(_ & Hn & _) Hpl]. cbn [List.filter].
  destruct (c_name c); [done|]. cbn [nonempty andb]. destruct (sent_to now origin c); [by rewrite IH|by apply IH].
Qed.
End Laws.

(** ** Witnesses *)

(** Trees as finite maps. *)
Definition map_tree : BTree := {|
  tree := gmap bytes bytes;
  t_open old := Some (default ∅ old);
  t_get key t := t !! key;
  t_put key v t := Some (<[key := v]> t);
  t_out key t := (bool_decide (is_Some (t !! key)), delete key t);
  t_vanish _ := ∅;
  t_entries t := map_to_list t |}.

#[export] Instance map_tree_laws : BTreeLaws map_tree.
Proof.
  refine {| t_content (t : @tree map_tree) := (t : gmap bytes bytes) |}.
  - intros old t [= <-]. by destruct old.
  - done.
  - by intros key v t t' [= <-].
  - by intros key t b t' [= <- <-].
  - done.
  - done.
Defined.

Definition new_file : @TCBStorage map_tree :=
  {| disk := {[cookies_path := ∅]}; stores_ := ∅; sessions := new_storage; t_listener := None; jar_listener := None;
     t_accesses := [] |}.

Definition after_sets : @TCBStorage map_tree := (run_file Storage.sample_calls new_file).2.

Lemma sample_calls_plain : Forall plain_call Storage.sample_calls.
Proof.
  apply Forall_singleton. intros c Hc.
  assert (c = stored_cookie) as -> by (vm_compute in Hc |- *; injection Hc; congruence).
  assert (Hn : forall s, none (fun d => d =c nul) s = true -> nul ∉ s).
  { intros s Hs Hin. rewrite forallb_forall in Hs. apply list_elem_of_In, Hs in Hin. done. }
  split; [split; [|done]|split; [done|split; apply Hn; done]].
  repeat (apply Forall_cons; split; [vm_compute; reflexivity|]). by apply Forall_nil.
Qed.

Lemma cookie_file_is_jar_witness :
  [stored_cookie] ≡ₚ jar_get 5 sample_url (run_sets Storage.sample_calls) /\ StronglySorted longer [stored_cookie].
Proof.
  apply (cookie_file_is_jar (L := map_tree_laws) Storage.sample_calls new_file ∅ after_sets 5 sample_url [stored_cookie]
           (cookie_get 5 sample_url after_sets).2).
  - reflexivity.
  - reflexivity.
  - exact sample_calls_plain.
  - unfold after_sets. rewrite (surjective_pairing (run_file Storage.sample_calls new_file)) at 1.
    apply (f_equal2 pair); [vm_compute; reflexivity|reflexivity].
  - rewrite (surjective_pairing (cookie_get 5 sample_url after_sets)) at 1.
    apply (f_equal2 pair); [vm_compute; reflexivity|reflexivity].
Defined.

(** With a zero byte in its path a cookie takes the place of another one, of another name and
    path. *)
Definition colliding (name path : bytes) : Cookie :=
  {| c_name := name; c_value := []; c_domain := []; c_path := path; secure := false; http_only := false;
     host_only := true; expires_unix := None; same_site := [] |}.

Example zero_byte_collision :
  let a := colliding (lit "b" ++ nul :: lit "c") (lit "/a") in
  let b := colliding (lit "c") (lit "/a" ++ nul :: lit "b") in
  cookie_db_key a = cookie_db_key b /\ cookie_key a <> cookie_key b.
Proof. by vm_compute. Qed.

(** A record that cannot be decoded is skipped by [get] and listed by [all], as a cookie
    without a name. *)
Definition broken_file : @TCBStorage map_tree :=
  {| disk := {[cookies_path := {[lit "k" := lit "garbage"]}]}; stores_ := ∅; sessions := new_storage; t_listener := None;
     jar_listener := None; t_accesses := [] |}.

Example broken_record_listed :
  (cookie_get 0 sample_url broken_file).1 = Ret [] /\ (cookie_all 0 broken_file).1 = Ret [empty_cookie].
Proof. split; vm_compute; reflexivity. Qed.
