(* ===== verification/Redaction.v ===== *)
(** * Redaction of secrets: [src/core/redaction.cpp]

    A redactor hides the values of sensitive headers and query parameters, and the user-info
    and the fragment of a URL. *)
From S2P Require Import Prelude Url.

Definition contains_case_insensitive (names : list bytes) (candidate : bytes) : bool :=
  let lowered := to_lower candidate in existsb (fun name => to_lower name =s lowered) names.

(** The value of a hexadecimal digit; -1 is [None]. *)
Definition hex (c : ascii) : option N :=
  if is_digit c then Some (code c - 48)%N
  else if in_range 97 102 c then Some (code c - 87)%N
  else if in_range 65 70 c then Some (code c - 55)%N
  else None.

(** One iteration reads one character, or the three of an escape. *)
Fixpoint decode_parameter_name (name : bytes) : bytes :=
  match name with
  | [] => []
  | c :: rest =>
      let plain := if c =c "+" then " "%char else c in
      match rest with
      | h :: l :: rest2 =>
          if c =c "%" then
            match hex h, hex l with
            | Some high, Some low => ascii_of_N (high * 16 + low) :: decode_parameter_name rest2
            | _, _ => plain :: decode_parameter_name rest
            end
          else plain :: decode_parameter_name rest
      | _ => plain :: decode_parameter_name rest
      end
  end.

Record RedactionPolicy := {
  header_names : list bytes; query_parameter_names : list bytes; replacement : bytes }.

(** [RedactionPolicy::defaults]. *)
Definition defaults : RedactionPolicy :=
  {| header_names := map lit ["authorization"; "proxy-authorization"; "cookie"; "set-cookie";
       "x-api-key"; "api-key"; "x-auth-token"; "x-csrf-token"]%string;
     query_parameter_names := map lit ["token"; "access_token"; "refresh_token"; "id_token";
       "api_key"; "apikey"; "password"; "passwd"; "secret"; "client_secret"; "session";
       "sessionid"; "auth"; "signature"; "sig"]%string;
     replacement := lit "[REDACTED]" |}.

Section Redactor.
Context (policy : RedactionPolicy).

Definition is_sensitive_header (name : bytes) : bool :=
  contains_case_insensitive (header_names policy) name.

Definition is_sensitive_query_parameter (name : bytes) : bool :=
  contains_case_insensitive (query_parameter_names policy) name.

Definition redact_header (name value : bytes) : bytes :=
  if is_sensitive_header name then replacement policy else value.

(** One pair of the query. *)
Definition redact_pair (item : bytes) : bytes :=
  let key := (cut_off (fun c => c =c "=") item).1.1 in
  if is_sensitive_query_parameter (decode_parameter_name key)
  then key ++ lit "=" ++ replacement policy
  else item.

(** The loop over the pairs of the query; [rest] starts at [start]. *)
Fixpoint redact_loop (fuel : nat) (rest : bytes) (first : bool) (rebuilt : bytes) : bytes :=
  match fuel with
  | O => rebuilt
  | S fuel =>
      let '(item, next, amp) := cut_off (fun c => c =c "&") rest in
      let rebuilt := rebuilt ++ opt_bytes (negb first) (lit "&") ++ redact_pair item in
      if amp then redact_loop fuel next false rebuilt else rebuilt
  end.

Definition redact_query (query : bytes) : bytes := redact_loop (S (length query)) query true [].

Definition redact_url (url : bytes) : bytes :=
  match parse_url url with
  | Throw _ => url
  | Ret parsed =>
      let private_components := nonempty (userinfo parsed) || has_fragment parsed in
      let bare q :=
        {| scheme := scheme parsed; userinfo := []; host := host parsed; port := port parsed;
           path := path parsed; query := q; fragment := [];
           has_authority := has_authority parsed; has_query := has_query parsed;
           has_fragment := false |} in
      if negb (has_query parsed) then
        if private_components then to_string (bare (query parsed)) else url
      else to_string (bare (redact_query (query parsed)))
  end.

Definition redact_headers (headers : list (bytes * bytes)) : list (bytes * bytes) :=
  map (fun '(name, value) => (name, redact_header name value)) headers.

End Redactor.

Example redact_ex :
  redact_url defaults (lit "https://me:pw@Host/p?q=1&access%5Ftoken=abc&Token&x=y=z#part") =
  lit "https://host/p?q=1&access%5Ftoken=[REDACTED]&Token=[REDACTED]&x=y=z".
Proof. vm_compute. reflexivity. Qed.

(** A password that holds an ['@'] is cut at the first one, and its tail stays in the host. *)
Example password_tail_shown :
  redact_url defaults (lit "http://user:p@ss@host/x") = lit "http://ss@host/x".
Proof. vm_compute. reflexivity. Qed.

(** A URL that does not parse is returned with everything it holds. *)
Example unparsable_shown :
  redact_url defaults (lit "http://me:pw@[::1/?token=abc") = lit "http://me:pw@[::1/?token=abc".
Proof. vm_compute. reflexivity. Qed.

(** ** The loop, as a map over the pairs *)

(** The parts between the separators [c]; never empty. *)
Fixpoint split_on (c : ascii) (cur s : bytes) : list bytes :=
  match s with
  | [] => [cur]
  | d :: s' => if d =c c then cur :: split_on c [] s' else split_on c (cur ++ [d]) s'
  end.

Definition pairs (query : bytes) : list bytes := split_on "&" [] query.

Fixpoint join_with (sep : bytes) (l : list bytes) : bytes :=
  match l with
  | [] => []
  | [x] => x
  | x :: l' => x ++ sep ++ join_with sep l'
  end.

Lemma join_with_cons sep x l :
  join_with sep (x :: l) = x ++ mjoin (map (fun y => sep ++ y) l).
Proof.
  revert x. induction l as [|y l IH]; intros x; [symmetry; apply app_nil_r|].
  change (join_with sep (x :: y :: l)) with (x ++ sep ++ join_with sep (y :: l)).
  rewrite IH. simpl. by rewrite <- !app_assoc.
Qed.

Lemma split_on_span c cur s :
  split_on c cur s =
  let '(a, b, found) := cut_off (fun d => d =c c) s in
  (cur ++ a) :: (if found then split_on c [] b else []).
Proof.
  revert cur. induction s as [|d s IH]; intros cur; [cbn; by rewrite app_nil_r|].
  cbn [split_on]. unfold cut_off. cbn [find_if]. destruct (d =c c) eqn:E.
  - cbn. by rewrite app_nil_r.
  - rewrite IH. unfold cut_off. destruct (find_if _ s) as [n|]; cbn; by rewrite <- app_assoc.
Qed.

Lemma cut_off_length p s a b : cut_off p s = (a, b, true) -> length b < length s.
Proof.
  unfold cut_off. destruct (find_if p s) as [n|] eqn:E; [|done]. intros [= <- <-].
  apply find_if_lt in E. rewrite length_drop. lia.
Qed.

Lemma pairs_none c cur s : none (fun d => d =c c) cur = true ->
  Forall (fun p => none (fun d => d =c c) p = true) (split_on c cur s).
Proof.
  revert cur. induction s as [|d s IH]; intros cur Hc; simpl; [by constructor|].
  destruct (d =c c) eqn:E; [constructor; auto|]. apply IH. rewrite none_app, Hc. simpl. by rewrite E.
Qed.

Lemma split_on_join c l : Forall (fun p => none (fun d => d =c c) p = true) l -> l <> [] ->
  split_on c [] (join_with [c] l) = l.
Proof.
  induction l as [|x l IH]; intros Hl Hne; [done|]. inversion Hl as [|? ? Hx Hl']; subst.
  rewrite join_with_cons, split_on_span. destruct l as [|y l].
  - simpl. rewrite app_nil_r, cut_off_none by done. done.
  - specialize (IH Hl' ltac:(done)). rewrite join_with_cons in IH.
    cbn [map mjoin]. unfold mjoin. cbn [list_join]. rewrite <- app_assoc. cbn [app].
    rewrite cut_off_mid; [by f_equal|done|apply Ascii.eqb_refl].
Qed.

Section Loop.
Context (policy : RedactionPolicy).

Lemma redact_loop_spec fuel rest first rebuilt : length rest < fuel ->
  redact_loop policy fuel rest first rebuilt =
  rebuilt ++ opt_bytes (negb first) (lit "&") ++
  join_with (lit "&") (map (redact_pair policy) (pairs rest)).
Proof.
  revert rest first rebuilt. induction fuel as [|fuel IH]; intros rest first rebuilt Hf; [lia|].
  cbn [redact_loop]. unfold pairs. rewrite split_on_span.
  destruct (cut_off _ rest) as [[item next] amp] eqn:E. destruct amp; [|by rewrite app_nil_l].
  pose proof (cut_off_length _ _ _ _ E). rewrite IH by lia. cbn [map]. fold (pairs next).
  rewrite app_nil_l, join_with_cons. destruct (pairs next) as [|x l] eqn:Ep.
  { unfold pairs in Ep. rewrite split_on_span in Ep. by destruct (cut_off _ next) as [[??][]]. }
  cbn [map]. rewrite join_with_cons. unfold mjoin. cbn [list_join negb opt_bytes].
  by rewrite <- !app_assoc.
Qed.

Lemma redact_query_spec query :
  redact_query policy query = join_with (lit "&") (map (redact_pair policy) (pairs query)).
Proof. unfold redact_query. rewrite redact_loop_spec by lia. done. Qed.

End Loop.

(** ** What a redacted URL is *)

Definition item_key (item : bytes) : bytes := (cut_off (fun c => c =c "=") item).1.1.
Definition item_value (item : bytes) : bytes := (cut_off (fun c => c =c "=") item).1.2.

Section Redacted.
Context (policy : RedactionPolicy).

(** The URL without its user-info and its fragment, with the values of its sensitive
    parameters replaced. *)
Definition redacted (u : Url) : Url :=
  {| scheme := scheme u; userinfo := []; host := host u; port := port u; path := path u;
     query := if has_query u
              then join_with (lit "&") (map (redact_pair policy) (pairs (query u)))
              else query u;
     fragment := []; has_authority := has_authority u; has_query := has_query u;
     has_fragment := false |}.

Lemma item_key_none item : none (fun c => c =c "=") (item_key item) = true.
Proof.
  unfold item_key. destruct (cut_off _ item) as [[a b] f] eqn:E. by apply cut_off_spec in E as [H _].
Qed.

Lemma item_key_prefix item : exists t, item = item_key item ++ t.
Proof.
  unfold item_key. destruct (cut_off _ item) as [[a b] f] eqn:E. apply cut_off_spec in E as [_ H].
  destruct f; [destruct H as (? & _ & ->)|destruct H as [-> _]]; [by eexists|].
  exists []. by rewrite app_nil_r.
Qed.

Lemma redact_pair_cut item :
  is_sensitive_query_parameter policy (decode_parameter_name (item_key item)) = true ->
  cut_off (fun c => c =c "=") (redact_pair policy item) = (item_key item, replacement policy, true).
Proof.
  intros H. unfold redact_pair. fold (item_key item). rewrite H.
  change (lit "=") with ["="%char]. apply cut_off_mid; [apply item_key_none|done].
Qed.

Lemma redact_pair_key item : item_key (redact_pair policy item) = item_key item.
Proof.
  destruct (is_sensitive_query_parameter policy (decode_parameter_name (item_key item))) eqn:H.
  - unfold item_key at 1. by rewrite redact_pair_cut.
  - unfold redact_pair. fold (item_key item). by rewrite H.
Qed.

Lemma redact_pair_idem item : redact_pair policy (redact_pair policy item) = redact_pair policy item.
Proof.
  unfold redact_pair at 1. fold (item_key (redact_pair policy item)). rewrite redact_pair_key.
  unfold redact_pair. fold (item_key item). by destruct (is_sensitive_query_parameter _ _).
Qed.

Lemma redact_pair_none (p : ascii -> bool) item : p "="%char = false ->
  none p (replacement policy) = true -> none p item = true -> none p (redact_pair policy item) = true.
Proof.
  intros He Hr Hi. unfold redact_pair. fold (item_key item). destruct (is_sensitive_query_parameter _ _); [|done].
  destruct (item_key_prefix item) as [t Ht]. rewrite Ht, none_app in Hi.
  apply andb_prop in Hi as [Hi _]. rewrite !none_app, Hi, Hr. change (lit "=") with ["="%char]. simpl. by rewrite He.
Qed.

Lemma none_join_with (p : ascii -> bool) sep l : none p sep = true ->
  Forall (fun x => none p x = true) l -> none p (join_with sep l) = true.
Proof.
  intros Hs. induction 1 as [|x l Hx Hl IH]; [done|]. destruct l as [|y l]; [done|].
  change (join_with sep (x :: y :: l)) with (x ++ sep ++ join_with sep (y :: l)).
  by rewrite !none_app, Hx, Hs, IH.
Qed.

Lemma split_on_none (p : ascii -> bool) c cur s : none p cur = true -> none p s = true ->
  Forall (fun x => none p x = true) (split_on c cur s).
Proof.
  revert cur. induction s as [|d s IH]; intros cur Hc Hs; simpl in *; [by constructor|].
  apply andb_prop in Hs as [Hd Hs]. destruct (d =c c); [constructor; auto|].
  apply IH; [|done]. rewrite none_app, Hc. simpl. by rewrite Hd.
Qed.

Lemma pairs_not_nil q : pairs q <> [].
Proof. unfold pairs. rewrite split_on_span. by destruct (cut_off _ q) as [[??]?]. Qed.

Hypothesis Hrep : none (fun c => (c =c "#") || (c =c "&")) (replacement policy) = true.

Lemma redacted_pairs q :
  pairs (join_with (lit "&") (map (redact_pair policy) (pairs q))) = map (redact_pair policy) (pairs q).
Proof using Hrep.
  unfold pairs at 1. apply (split_on_join "&").
  - apply Forall_map. eapply Forall_impl; [apply (pairs_none "&" [] q eq_refl)|].
    intros x Hx. apply redact_pair_none; [done| |done].
    eapply none_impl; [|exact Hrep]. intros c. simpl. intros ->. apply orb_true_r.
  - intros H%map_eq_nil. by apply pairs_not_nil in H.
Qed.

Lemma redacted_ok u : url_ok u -> none (fun c => c =c "@") (host u ++ port u) = true ->
  url_ok (redacted u).
Proof using Hrep.
  intros Hu Hat. destruct Hu. constructor; simpl; auto.
  - intros Ha. destruct (ok_authority Ha). constructor; simpl; auto.
    rewrite none_app in ok_end. by apply andb_prop in ok_end as [_ ?].
  - intros Ha. destruct (ok_no_authority Ha) as (? & ? & ? & ?). auto.
  - destruct (has_query u); [|done]. apply none_join_with; [done|]. apply Forall_map.
    eapply Forall_impl; [exact (split_on_none (fun c => c =c "#") "&" [] (query u) eq_refl ok_query)|]. intros x Hx.
    apply redact_pair_none; [done| |done].
    eapply none_impl; [|exact Hrep]. intros c. simpl. by intros ->.
  - intros H. rewrite H. auto.
Qed.

Lemma redacted_idem u : redacted (redacted u) = redacted u.
Proof using Hrep.
  unfold redacted. simpl. destruct (has_query u); [|done]. f_equal. rewrite redacted_pairs, map_map.
  f_equal. apply map_ext. apply redact_pair_idem.
Qed.

(** A URL is printed again unless there is nothing to hide or to look through. *)
Lemma redact_url_cases s u : parse_url s = Ret u ->
  redact_url policy s =
  if has_query u || nonempty (userinfo u) || has_fragment u then to_string (redacted u) else s.
Proof using Type.
  intros Hs. unfold redact_url, redacted. rewrite Hs.
  destruct (has_query u); simpl; [by rewrite redact_query_spec|done].
Qed.

Lemma redact_url_parses s u : parse_url s = Ret u ->
  none (fun c => c =c "@") (host u ++ port u) = true ->
  parse_url (redact_url policy s) = Ret (redacted u).
Proof using Hrep.
  intros Hs Hat. pose proof (parse_url_ok s u Hs (fun _ => Hat)) as Hu.
  rewrite (redact_url_cases s u Hs).
  destruct (has_query u) eqn:Hq, (userinfo u) eqn:Hi, (has_fragment u) eqn:Hf; cbn [orb nonempty];
    try (apply parse_to_string, redacted_ok; assumption).
  rewrite Hs. f_equal. unfold redacted. pose proof (ok_has_fragment u Hu Hf) as Hff.
  destruct u; simpl in *; by subst.
Qed.

End Redacted.

(** Redacting a URL whose host holds no ['@'] yields a URL that parses, without user-info
    and fragment, with the same scheme, host, port and path and the same parameters in the
    same order; the value of each sensitive parameter is the replacement and every other
    parameter is unchanged.  Redacting again changes nothing. *)
Theorem redact_url_spec policy s u :
  parse_url s = Ret u -> none (fun c => c =c "@") (host u ++ port u) = true ->
  none (fun c => (c =c "#") || (c =c "&")) (replacement policy) = true ->
  exists v, parse_url (redact_url policy s) = Ret v /\
    (scheme v, host v, port v, path v, has_authority v, has_query v) =
      (scheme u, host u, port u, path u, has_authority u, has_query u) /\
    (userinfo v, fragment v, has_fragment v) = ([], [], false) /\
    (has_query u = true -> Forall2 (fun before after =>
       item_key after = item_key before /\
       if is_sensitive_query_parameter policy (decode_parameter_name (item_key before))
       then item_value after = replacement policy else after = before)
       (pairs (query u)) (pairs (query v))) /\
    redact_url policy (redact_url policy s) = redact_url policy s.
Proof.
  intros Hs Hat Hrep. pose proof (redact_url_parses policy Hrep s u Hs Hat) as Hv.
  exists (redacted policy u). split_and!; try done.
  - intros Hq. simpl. rewrite Hq, redacted_pairs by done. clear. induction (pairs (query u)); constructor; [|done].
    split; [apply redact_pair_key|].
    destruct (is_sensitive_query_parameter _ _) eqn:E.
    + unfold item_value. by rewrite redact_pair_cut.
    + unfold redact_pair. fold (item_key a). by rewrite E.
  - rewrite (redact_url_cases policy _ _ Hv), redacted_idem by done. simpl.
    destruct (has_query u) eqn:Hq; simpl; [|done]. by rewrite (redact_url_cases policy _ _ Hs), Hq.
Qed.

Lemma redact_url_spec_witness :
  exists v, parse_url (redact_url defaults (lit "http://me@h/p?sig=1&b#f")) = Ret v /\
    pairs (query v) = [lit "sig=[REDACTED]"; lit "b"] /\
    redact_url defaults (lit "http://h/p?sig=[REDACTED]&b") = lit "http://h/p?sig=[REDACTED]&b".
Proof.
  destruct (redact_url_spec defaults (lit "http://me@h/p?sig=1&b#f") _ eq_refl eq_refl eq_refl)
    as (v & Hv & _ & _ & _ & Hi).
  exists v. split; [exact Hv|]. split; [|exact Hi].
  assert (E : parse_url (redact_url defaults (lit "http://me@h/p?sig=1&b#f")) =
    parse_url (lit "http://h/p?sig=[REDACTED]&b")) by (vm_compute; reflexivity).
  rewrite E in Hv. vm_compute in Hv. injection Hv as <-. reflexivity.
Defined.

(** An escape in the name of a parameter stands for the character it encodes. *)
Lemma decode_escape a b rest : hex a <> None -> hex b <> None ->
  exists c, decode_parameter_name ("%"%char :: a :: b :: rest) = c :: decode_parameter_name rest /\
    code c = (default 0 (hex a) * 16 + default 0 (hex b))%N.
Proof.
  intros Ha Hb. simpl. destruct (hex a) as [x|] eqn:Ea; [|done]. destruct (hex b) as [y|] eqn:Eb; [|done].
  eexists. split; [reflexivity|]. apply N_ascii_embedding. simpl.
  assert (B : forall c z, hex c = Some z -> (z < 16)%N).
  { clear. intros c z H. by ascii_cases c; vm_compute in H; try done; injection H as <-. }
  pose proof (B _ _ Ea). pose proof (B _ _ Eb). lia.
Qed.
