(* ===== verification/Proxy.v ===== *)
(** * Proxies: the first part of [src/core/network_client.cpp]

    The proxy a request goes through: its URL ([parse_proxy_url], [proxy_to_string]), its
    selection from the environment with the exclusions of [NO_PROXY], and the
    [Proxy-Authorization] header.  The environment is the parameter [getenv]. *)
From S2P Require Import Prelude Url Redaction.

(** [trim] of [network_client.cpp] and of [browser.cpp]: [std::isspace]. *)
Definition trim (value : bytes) : bytes := rstrip is_blank (skip is_blank value).

(** The texts [std::getline] answers one after the other: what stands behind the last
    delimiter counts when it is not empty. *)
Definition getlines (delimiter : ascii) (s : bytes) : list bytes :=
  let l := split_on delimiter [] s in
  match last l with Some [] => removelast l | _ => l end.

(** ** The configuration *)

Inductive ProxyScheme := NoScheme | Http | Https | Socks5.

#[export] Instance ProxyScheme_eq_dec : EqDecision ProxyScheme.
Proof. solve_decision. Defined.

Record ProxyConfig := {
  p_scheme : ProxyScheme;
  p_host : bytes;
  p_port : bytes;
  username : bytes;
  password : bytes }.

Definition no_proxy_config : ProxyConfig :=
  {| p_scheme := NoScheme; p_host := []; p_port := []; username := []; password := [] |}.

Definition enabled (proxy : ProxyConfig) : bool :=
  negb (bool_decide (p_scheme proxy = NoScheme)) && nonempty (p_host proxy) && nonempty (p_port proxy).

Definition is_ch (c : ascii) (d : ascii) : bool := d =c c.

(** [host.front() == '[' && host.back() == ']']. *)
Definition unbracket_host (host : bytes) : bytes :=
  if (2 <? length host) && starts_with (lit "[") host && ends_with (lit "]") host
  then take (length host - 2) (drop 1 host) else host.

(** ** Credentials *)

Definition hex (c : ascii) : option N :=
  if is_digit c then Some (code c - 48)%N
  else if in_range 97 102 c then Some (code c - 87)%N
  else if in_range 65 70 c then Some (code c - 55)%N
  else None.

(** [static_cast<unsigned char>(c) < 0x20 || c == 0x7f]. *)
Definition is_control (c : ascii) : bool := (code c <? 32)%N || (code c =? 127)%N.

Fixpoint decode_proxy_credential (value : bytes) : result bytes :=
  match value with
  | [] => Ret []
  | c :: rest =>
      if c =c "%" then
        match rest with
        | h1 :: h2 :: rest' =>
            match hex h1, hex h2 with
            | Some a, Some b =>
                let d := ascii_of_N (N.lor (N.shiftl a 4) b) in
                _ ← throw_if (is_control d) InvalidUrl;
                r ← decode_proxy_credential rest'; Ret (d :: r)
            | _, _ => Throw InvalidUrl
            end
        | _ => Throw InvalidUrl
        end
      else
        _ ← throw_if (is_control c) InvalidUrl;
        r ← decode_proxy_credential rest; Ret (c :: r)
  end.

Definition hex_upper (n : N) : ascii := if (n <? 10)%N then ascii_of_N (48 + n) else ascii_of_N (55 + n).

Definition unreserved (c : ascii) : bool :=
  is_alnum c || (c =c "-") || (c =c ".") || (c =c "_") || (c =c "~").

Definition encode_byte (c : ascii) : bytes :=
  if unreserved c then [c]
  else ["%"%char; hex_upper (N.shiftr (code c) 4); hex_upper (N.land (code c) 15)].

Definition encode_proxy_credential (value : bytes) : bytes := mjoin (encode_byte <$> value).

(** ** Proxy URLs *)

(** [std::from_chars] into an [unsigned]: the number and the rest, unless there is no digit
    or the number does not fit. *)
Definition from_chars_unsigned (s : bytes) : option (N * bytes) :=
  let d := span is_digit s in
  if nonempty d && (read_N d <? 2 ^ 32)%N then Some (read_N d, skip is_digit s) else None.

Definition valid_port (port : bytes) : bool :=
  match from_chars_unsigned port with
  | Some (n, rest) => negb (nonempty rest) && negb (n =? 0)%N && (n <=? 65535)%N
  | None => false
  end.

Definition proxy_host_char (c : ascii) : bool := is_alnum c || (c =c ".") || (c =c "-") || (c =c ":").

Definition valid_host (host : bytes) : bool :=
  nonempty host && (length host <=? 255) && forallb proxy_host_char host.

Definition proxy_scheme (scheme : bytes) : result ProxyScheme :=
  if scheme =s lit "http" then Ret Http
  else if scheme =s lit "https" then Ret Https
  else if (scheme =s lit "socks5") || (scheme =s lit "socks5h") then Ret Socks5
  else Throw Unsupported.

(** The part of the authority before a path, which may only be a slash. *)
Definition without_slash (authority : bytes) : result bytes :=
  match find_if (is_ch "/") authority with
  | Some slash =>
      _ ← throw_if (negb (drop slash authority =s lit "/")) InvalidUrl; Ret (take slash authority)
  | None => Ret authority
  end.

(** The user-info in front of the last at sign. *)
Definition cut_userinfo (authority : bytes) : bytes * bytes :=
  match find_last_if (is_ch "@") authority with
  | Some at_ => (take at_ authority, drop (at_ + 1) authority)
  | None => ([], authority)
  end.

(** The user name and the password of the user-info. *)
Definition decode_userinfo (userinfo : bytes) : result (bytes * bytes) :=
  if nonempty userinfo then
    let '(user, pass, found) := cut_off (is_ch ":") userinfo in
    u ← decode_proxy_credential user;
    if found : bool then p ← decode_proxy_credential pass; Ret (u, p) else Ret (u, [])
  else Ret ([], []).

Definition proxy_url_blank (c : ascii) : bool := (code c <=? 32)%N || (code c =? 127)%N.

Definition parse_proxy_url (value : bytes) : result ProxyConfig :=
  if negb (nonempty value) then Ret no_proxy_config else
  _ ← throw_if ((8192 <? N.of_nat (length value))%N || existsb proxy_url_blank value) InvalidUrl;
  match find_sub (lit "://") value with
  | None => Throw InvalidUrl
  | Some scheme_end =>
      scheme ← proxy_scheme (to_lower (take scheme_end value));
      authority ← without_slash (drop (scheme_end + 3) value);
      _ ← throw_if (existsb (fun c => (c =c "?") || (c =c "#")) authority) InvalidUrl;
      let '(userinfo, authority) := cut_userinfo authority in
      match find_last_if (is_ch ":") authority with
      | None => Throw InvalidUrl
      | Some colon =>
          _ ← throw_if ((colon =? 0) || (length authority <=? colon + 1)) InvalidUrl;
          let host := unbracket_host (to_lower (take colon authority)) in
          let port := drop (colon + 1) authority in
          '(user, pass) ← decode_userinfo userinfo;
          _ ← throw_if (negb (valid_port port)) InvalidUrl;
          _ ← throw_if (negb (valid_host host)) InvalidUrl;
          _ ← throw_if (bool_decide (scheme = Socks5) && ((255 <? length user) || (255 <? length pass))) InvalidUrl;
          Ret {| p_scheme := scheme; p_host := host; p_port := port; username := user; password := pass |}
      end
  end.

Definition scheme_name (s : ProxyScheme) : bytes :=
  match s with Socks5 => lit "socks5" | Https => lit "https" | _ => lit "http" end.

Definition proxy_to_string (proxy : ProxyConfig) (redact : bool) : bytes :=
  if negb (enabled proxy) then [] else
  scheme_name (p_scheme proxy) ++ lit "://" ++
  (if nonempty (username proxy)
   then encode_proxy_credential (username proxy) ++ lit ":" ++
        (if redact then lit "[REDACTED]" else encode_proxy_credential (password proxy)) ++ lit "@"
   else []) ++
  (match find_if (is_ch ":") (p_host proxy) with
   | None => p_host proxy | Some _ => lit "[" ++ p_host proxy ++ lit "]" end) ++ lit ":" ++ p_port proxy.

(** ** Selection from the environment *)

(** The host and the port an entry of [NO_PROXY] asks for; [None] when it is skipped. *)
Definition entry_parts (entry : bytes) : option (bytes * bytes) :=
  if starts_with (lit "[") entry then
    match find_if (is_ch "]") entry with
    | None => None
    | Some close =>
        let name := take (close - 1) (drop 1 entry) in
        match drop (close + 1) entry with
        | [] => Some (name, [])
        | c :: required => if c =c ":" then Some (name, required) else None
        end
    end
  else
    let '(name, required, found) := cut_off (is_ch ":") entry in
    if found && none (is_ch ":") required then Some (name, required) else Some (entry, []).

Definition entry_name (entry : bytes) : bytes :=
  let entry := if starts_with (lit "*.") entry then drop 2 entry
               else if starts_with (lit ".") entry then drop 1 entry else entry in
  if ends_with (lit ".") entry then removelast entry else entry.

Definition entry_excludes (host port entry : bytes) : bool :=
  let entry := to_lower (trim entry) in
  if entry =s lit "*" then true else
  match entry_parts entry with
  | None => false
  | Some (entry, required_port) =>
      if nonempty required_port && negb (required_port =s port) then false else
      let entry := entry_name entry in
      nonempty entry && ((host =s entry) || ends_with (lit "." ++ entry) host)
  end.

Definition default_port (u : Url) : bytes :=
  if nonempty (port u) then port u else if scheme u =s lit "https" then lit "443" else lit "80".

Definition excluded_host (u : Url) : bytes :=
  let host := unbracket_host (to_lower (host u)) in
  if ends_with (lit ".") host then removelast host else host.

Section Environment.
Context (getenv : bytes -> option bytes).

(** A null pointer and an empty value are the same to every caller. *)
Definition environment_value (upper lower : bytes) : bytes :=
  match getenv upper with
  | Some ((_ :: _) as value) => value
  | _ => default [] (getenv lower)
  end.

Definition proxy_excluded (target : Url) : bool :=
  let excluded := environment_value (lit "NO_PROXY") (lit "no_proxy") in
  existsb (entry_excludes (excluded_host target) (default_port target)) (getlines "," excluded).

Definition proxy_from_environment (target_url : bytes) : result ProxyConfig :=
  target ← parse_url target_url;
  if proxy_excluded target then Ret no_proxy_config else
  let value := if scheme target =s lit "https" then environment_value (lit "HTTPS_PROXY") (lit "https_proxy")
               else environment_value (lit "HTTP_PROXY") (lit "http_proxy") in
  let value := if nonempty value then value else environment_value (lit "ALL_PROXY") (lit "all_proxy") in
  if nonempty value then parse_proxy_url value else Ret no_proxy_config.

End Environment.

(** ** The header [Proxy-Authorization] *)

Definition alphabet : bytes := lit "ABCDEFGHIJKLMNOPQRSTUVWXYZabcdefghijklmnopqrstuvwxyz0123456789+/".
Definition letter (n : N) : ascii := default "="%char (alphabet !! N.to_nat n).

(** The letters of three bytes, of which [b] and [c] may be missing. *)
Fixpoint base64 (plain : bytes) : bytes :=
  match plain with
  | [] => []
  | a :: rest =>
      let b := match rest with b :: _ => code b | [] => 0%N end in
      let c := match rest with _ :: c :: _ => code c | _ => 0%N end in
      letter (N.shiftr (code a) 2) ::
      letter (N.lor (N.shiftl (N.land (code a) 3) 4) (N.shiftr b 4)) ::
      match rest with
      | [] => lit "=="
      | _ :: rest' =>
          letter (N.lor (N.shiftl (N.land b 15) 2) (N.shiftr c 6)) ::
          match rest' with
          | [] => lit "="
          | _ :: rest'' => letter (N.land c 63) :: base64 rest''
          end
      end
  end.

Definition crlf : bytes := [ascii_of_N 13; ascii_of_N 10].

Definition proxy_authorization (proxy : ProxyConfig) : bytes :=
  if nonempty (username proxy)
  then crlf ++ lit "Proxy-Authorization: Basic " ++ base64 (username proxy ++ lit ":" ++ password proxy)
  else [].

Example base64_known : base64 (lit "user:pass") = lit "dXNlcjpwYXNz" /\ base64 (lit "a:bc") = lit "YTpiYw==".
Proof. vm_compute. done. Qed.

Example parse_proxy_example :
  parse_proxy_url (lit "HTTP://us%40er:p%3Aw@[::1]:8080/") =
  Ret {| p_scheme := Http; p_host := lit "::1"; p_port := lit "8080"; username := lit "us@er"; password := lit "p:w" |}.
Proof. vm_compute. done. Qed.

(** ** What printing and parsing do to each other *)

Lemma existsb_none (p : ascii -> bool) s : existsb p s = negb (none p s).
Proof. induction s as [|c s IH]; [done|]. simpl. rewrite IH. by destruct (p c). Qed.

Lemma hex_hex_upper c :
  hex (hex_upper (N.shiftr (code c) 4)) = Some (N.shiftr (code c) 4) /\
  hex (hex_upper (N.land (code c) 15)) = Some (N.land (code c) 15) /\
  ascii_of_N (N.lor (N.shiftl (N.shiftr (code c) 4) 4) (N.land (code c) 15)) = c.
Proof. ascii_cases c; vm_compute; done. Qed.

Lemma unreserved_not_percent c : unreserved c = true -> (c =c "%") = false.
Proof. by_ascii c. Qed.

Lemma decode_encode_byte c t : is_control c = false ->
  decode_proxy_credential (encode_byte c ++ t) = (r ← decode_proxy_credential t; Ret (c :: r)).
Proof.
  intros Hc. unfold encode_byte. destruct (unreserved c) eqn:Hu; cbn [app decode_proxy_credential].
  - by rewrite unreserved_not_percent, Hc by done.
  - rewrite Ascii.eqb_refl. destruct (hex_hex_upper c) as (-> & -> & ->). by rewrite Hc.
Qed.

Lemma credential_decode_encode s : none is_control s = true -> decode_proxy_credential (encode_proxy_credential s) = Ret s.
Proof.
  unfold encode_proxy_credential. induction s as [|c s IH]; [done|]. cbn [forallb]. intros [Hc Hs]%andb_prop.
  apply negb_true_iff in Hc. rewrite mjoin_fmap_cons, decode_encode_byte, IH by done. done.
Qed.

Definition credential_char (c : ascii) : bool := unreserved c || (c =c "%").

Lemma encode_chars s : forallb credential_char (encode_proxy_credential s) = true.
Proof.
  unfold encode_proxy_credential. induction s as [|c s IH]; [done|]. rewrite mjoin_fmap_cons, forallb_app, IH, andb_true_r.
  clear. by_ascii c.
Qed.

Lemma none_credential (p : ascii -> bool) s :
  (forall c, credential_char c = true -> p c = false) -> none p (encode_proxy_credential s) = true.
Proof. intros H. eapply none_forallb; [exact H|apply encode_chars]. Qed.

Lemma encode_nonempty s : nonempty s = true -> nonempty (encode_proxy_credential s) = true.
Proof. destruct s as [|c s]; [done|]. intros _. unfold encode_proxy_credential. rewrite mjoin_fmap_cons. unfold encode_byte. by destruct (unreserved c). Qed.

(** What [parse_proxy_url] answers, an absent proxy apart. *)
Record proxy_ok (p : ProxyConfig) : Prop := {
  ok_scheme : p_scheme p <> NoScheme;
  ok_host : valid_host (p_host p) = true;
  ok_lower : to_lower (p_host p) = p_host p;
  ok_port : valid_port (p_port p) = true;
  ok_username : none is_control (username p) = true;
  ok_password : none is_control (password p) = true;
  ok_socks : p_scheme p = Socks5 -> length (username p) <= 255 /\ length (password p) <= 255 }.

Lemma valid_port_digits s : valid_port s = true -> forallb is_digit s = true /\ nonempty s = true /\ (1 <= read_N s <= 65535)%N.
Proof.
  unfold valid_port, from_chars_unsigned. destruct (nonempty (span is_digit s)) eqn:Hn; [|done].
  destruct (_ <? _)%N; [|done]. cbn [andb]. intros H. split_andb.
  assert (skip is_digit s = []) as Hs by (by destruct (skip is_digit s)).
  pose proof (skip_span is_digit s) as E. rewrite Hs, app_nil_r in E. rewrite E in *.
  split_and!; [|done| |by apply N.leb_le].
  - rewrite <- E. clear. induction s as [|c s IH]; [done|]. simpl. destruct (is_digit c) eqn:Ec; [|done]. simpl. by rewrite Ec.
  - apply N.eqb_neq in H1. lia.
Qed.

Lemma decode_no_control n s r : length s <= n -> decode_proxy_credential s = Ret r -> none is_control r = true.
Proof.
  revert s r. induction n as [|n IH]; intros [|c s] r Hn; cbn [decode_proxy_credential length] in *; try (by intros [= <-]); [lia|].
  destruct (c =c "%").
  - destruct s as [|h1 [|h2 s]]; [done..|]. destruct (hex h1); [|done]. destruct (hex h2); [|done].
    intros H. inv_ret. cbn [forallb]. rewrite H. cbn. eapply IH; [|done]. cbn [length] in Hn. lia.
  - intros H. inv_ret. cbn [forallb]. rewrite H. cbn. eapply IH; [|done]. lia.
Qed.

Definition bracketed (host : bytes) : bytes :=
  match find_if (is_ch ":") host with None => host | Some _ => lit "[" ++ host ++ lit "]" end.

Definition userinfo_text (p : ProxyConfig) : bytes :=
  if nonempty (username p)
  then encode_proxy_credential (username p) ++ lit ":" ++ encode_proxy_credential (password p) ++ lit "@" else [].

Definition authority_text (p : ProxyConfig) : bytes := userinfo_text p ++ bracketed (p_host p) ++ lit ":" ++ p_port p.

Lemma proxy_to_string_eq p : enabled p = true ->
  proxy_to_string p false = scheme_name (p_scheme p) ++ lit "://" ++ authority_text p.
Proof.
  intros H. unfold proxy_to_string, authority_text, userinfo_text, bracketed. rewrite H. cbn [negb].
  destruct (nonempty _); [|done]. by rewrite <- !app_assoc.
Qed.

Lemma proxy_ok_enabled p : proxy_ok p -> enabled p = true.
Proof.
  intros [Hs Hh _ Hp _ _ _]. unfold enabled. rewrite bool_decide_false by done.
  apply valid_port_digits in Hp as (_ & -> & _). unfold valid_host in Hh. by split_andb; rewrite H.
Qed.

Definition authority_char (c : ascii) : bool :=
  credential_char c || (c =c ":") || (c =c "@") || (c =c "[") || (c =c "]").

Lemma bracketed_chars h : forallb proxy_host_char h = true -> forallb authority_char (bracketed h) = true.
Proof.
  intros H. assert (forallb authority_char h = true) as Hh.
  { eapply forallb_impl; [|exact H]. clear. intros c. by_ascii c. }
  unfold bracketed. destruct (find_if _ h); [|done]. rewrite !forallb_app, Hh. done.
Qed.

Lemma authority_chars p : proxy_ok p -> forallb authority_char (authority_text p) = true.
Proof.
  intros [_ Hh _ Hp _ _ _]. unfold valid_host in Hh. split_andb. apply valid_port_digits in Hp as (Hd & _).
  unfold authority_text. rewrite !forallb_app, bracketed_chars by done.
  rewrite (forallb_impl is_digit authority_char (p_port p)) by (done || intros c; by_ascii c).
  assert (He : forall s, forallb authority_char (encode_proxy_credential s) = true).
  { intros s. eapply forallb_impl; [|apply encode_chars]. intros c. by_ascii c. }
  unfold userinfo_text. destruct (nonempty (username p)); [|done]. by rewrite !forallb_app, !He.
Qed.

Lemma none_authority (q : ascii -> bool) p :
  (forall c, authority_char c = true -> q c = false) -> proxy_ok p -> none q (authority_text p) = true.
Proof. intros Hq Hp. eapply none_forallb; [exact Hq|by apply authority_chars]. Qed.

Lemma find_scheme_end s k : s <> NoScheme ->
  find_sub (lit "://") (scheme_name s ++ lit "://" ++ k) = Some (length (scheme_name s)).
Proof. by destruct s. Qed.

Lemma proxy_scheme_name s : s <> NoScheme -> proxy_scheme (to_lower (scheme_name s)) = Ret s.
Proof. by destruct s. Qed.

Lemma cut_userinfo_text p : proxy_ok p ->
  cut_userinfo (authority_text p) =
  (if nonempty (username p) then encode_proxy_credential (username p) ++ lit ":" ++ encode_proxy_credential (password p) else [],
   bracketed (p_host p) ++ lit ":" ++ p_port p).
Proof.
  intros [_ Hh _ Hp _ _ _]. unfold valid_host in Hh. split_andb. apply valid_port_digits in Hp as (Hd & _).
  assert (Hn : none (is_ch "@") (bracketed (p_host p) ++ lit ":" ++ p_port p) = true).
  { rewrite !none_app. apply andb_true_intro. split.
    - unfold bracketed. assert (none (is_ch "@") (p_host p) = true) as Hx.
      { eapply none_forallb; [|done]. intros c. by_ascii c. }
      destruct (find_if _ _); [by rewrite !none_app, Hx|done].
    - apply andb_true_intro. split; [done|]. eapply none_forallb; [|exact Hd]. intros c. by_ascii c. }
  unfold cut_userinfo, authority_text, userinfo_text. destruct (nonempty (username p)).
  - rewrite <- !app_assoc. rewrite (app_assoc (lit ":")), (app_assoc (encode_proxy_credential (username p))).
    cbn [app lit String.list_ascii_of_string]. change (lit "@") with ["@"%char]. cbn [app].
    rewrite find_last_if_mid by done. by rewrite take_app_length, drop_app_S.
  - cbn [app]. by apply find_last_if_None in Hn as ->.
Qed.

Lemma decode_userinfo_text p : proxy_ok p -> (username p = [] -> password p = []) ->
  decode_userinfo (if nonempty (username p)
                   then encode_proxy_credential (username p) ++ lit ":" ++ encode_proxy_credential (password p) else []) =
  Ret (username p, password p).
Proof.
  intros [_ _ _ _ Hu Hw _] He. destruct (nonempty (username p)) eqn:Hn.
  - unfold decode_userinfo.
    assert (nonempty (encode_proxy_credential (username p) ++ lit ":" ++ encode_proxy_credential (password p)) = true) as ->.
    { apply encode_nonempty in Hn. by destruct (encode_proxy_credential (username p)). }
    change (lit ":") with [":"%char]. cbn [app]. rewrite cut_off_mid; [|apply none_credential; intros c; by_ascii c|done].
    cbv iota beta. rewrite !credential_decode_encode by done. done.
  - destruct (username p); [|done]. by rewrite He.
Qed.

Lemma unbracket_bracketed h : valid_host h = true -> unbracket_host (bracketed h) = h.
Proof.
  unfold valid_host. intros H. split_andb. unfold bracketed. destruct (find_if _ h) eqn:Ef.
  - assert (0 < length h) by (destruct h; [done|cbn; lia]).
    unfold unbracket_host. rewrite !length_app. change (length (lit "[")) with 1. change (length (lit "]")) with 1.
    rewrite (proj2 (Nat.ltb_lt _ _)) by lia. rewrite starts_with_app, app_assoc, ends_with_app. cbn [andb].
    rewrite <- app_assoc. change (drop 1 (lit "[" ++ h ++ lit "]")) with (h ++ lit "]").
    replace (1 + (length h + 1) - 2) with (length h) by lia. apply take_app_length.
  - unfold unbracket_host. destruct h as [|c h]; [done|].
    assert (starts_with (lit "[") (c :: h) = false) as ->; [|by rewrite andb_false_r].
    cbn in H0. apply andb_prop in H0 as [H0 _]. revert H0. clear. by_ascii c.
Qed.

Lemma to_lower_bracketed h : to_lower (bracketed h) = bracketed (to_lower h).
Proof.
  unfold bracketed. rewrite find_if_to_lower by (intros c; by_ascii c).
  destruct (find_if _ h); [|done]. by rewrite !to_lower_app.
Qed.

Lemma length_bracketed h : valid_host h = true -> 0 < length (bracketed h).
Proof. unfold valid_host, bracketed. intros H. split_andb. destruct h; [done|]. destruct (find_if _ _); [rewrite !length_app|]; cbn [length]; lia. Qed.

Lemma parse_print p : proxy_ok p -> (username p = [] -> password p = []) ->
  (N.of_nat (length (proxy_to_string p false)) <= 8192)%N -> parse_proxy_url (proxy_to_string p false) = Ret p.
Proof.
  intros Hp He Hl. pose proof (proxy_ok_enabled p Hp) as Hen. rewrite proxy_to_string_eq in * by done.
  unfold parse_proxy_url. rewrite (proj2 (N.ltb_ge _ _)) by done. rewrite existsb_none, !none_app.
  rewrite (none_authority _ p) by (done || intros c; by_ascii c).
  assert (none proxy_url_blank (scheme_name (p_scheme p)) = true) as -> by (by destruct (p_scheme p)).
  assert (nonempty (scheme_name (p_scheme p) ++ lit "://" ++ authority_text p) = true) as -> by (by destruct (p_scheme p)).
  cbn [negb orb andb throw_if mbind result_bind]. pose proof (ok_scheme p Hp) as Hs.
  rewrite find_scheme_end, take_app_length, proxy_scheme_name by done. cbn [mbind result_bind].
  rewrite <- drop_drop, drop_app_length. change (drop 3 (lit "://" ++ authority_text p)) with (authority_text p).
  unfold without_slash. rewrite (proj2 (find_if_None _ _)) by (apply none_authority; [intros c; by_ascii c|done]).
  cbn [mbind result_bind]. rewrite existsb_none, (none_authority _ p) by (done || intros c; by_ascii c).
  cbn [negb throw_if mbind result_bind]. rewrite cut_userinfo_text by done. cbv iota beta.
  pose proof (valid_port_digits _ (ok_port p Hp)) as (Hd & Hne & _). change (lit ":") with [":"%char]. cbn [app].
  rewrite find_last_if_mid; [|done|eapply none_forallb; [|exact Hd]; intros c; by_ascii c].
  pose proof (length_bracketed _ (ok_host p Hp)) as Hb. rewrite length_app. cbn [length].
  assert (0 < length (p_port p)) by (destruct (p_port p); [done|cbn; lia]).
  rewrite (proj2 (Nat.eqb_neq _ _)), (proj2 (Nat.leb_gt _ _)) by lia. cbn [orb throw_if mbind result_bind].
  rewrite take_app_length, drop_app_S, to_lower_bracketed, (ok_lower p Hp), unbracket_bracketed by apply Hp.
  change [":"%char] with (lit ":"). change (":"%char :: ?x) with (lit ":" ++ x).
  rewrite decode_userinfo_text by done. cbn [mbind result_bind]. rewrite (ok_port p Hp), (ok_host p Hp).
  cbn [negb throw_if mbind result_bind].
  assert (bool_decide (p_scheme p = Socks5) && ((255 <? length (username p)) || (255 <? length (password p))) = false) as ->.
  { case_bool_decide as E; [|done]. destruct (ok_socks p Hp E). cbn [andb]. rewrite !(proj2 (Nat.ltb_ge _ _)) by lia. done. }
  cbn. by destruct p.
Qed.

Lemma to_lower_take n s : to_lower (take n s) = take n (to_lower s).
Proof. unfold to_lower. symmetry. apply firstn_map. Qed.

Lemma to_lower_drop n s : to_lower (drop n s) = drop n (to_lower s).
Proof. unfold to_lower. symmetry. apply skipn_map. Qed.

Lemma to_lower_unbracket s : to_lower (unbracket_host (to_lower s)) = unbracket_host (to_lower s).
Proof. unfold unbracket_host. destruct (_ && _); [rewrite to_lower_take, to_lower_drop|]; by rewrite to_lower_idemp. Qed.

Lemma decode_userinfo_ok s u w : decode_userinfo s = Ret (u, w) -> none is_control u = true /\ none is_control w = true.
Proof.
  unfold decode_userinfo. destruct (nonempty s); [|by intros [= <- <-]].
  destruct (cut_off _ s) as [[a b] f]. intros H. inv_ret. apply (decode_no_control (length a)) in H; [|done].
  destruct f; inv_ret; split; try done. by eapply decode_no_control.
Qed.

Lemma parse_proxy_url_ok v p : parse_proxy_url v = Ret p -> p = no_proxy_config \/ proxy_ok p.
Proof.
  unfold parse_proxy_url. destruct (negb (nonempty v)); [intros [= <-]; by left|]. intros H. inv_ret.
  destruct (find_sub _ v) as [n|]; [|done]. inv_ret. rename H0 into Hs.
  destruct (cut_userinfo _) as [ui au]. destruct (find_last_if _ au) as [colon|]; [|done].
  inv_ret. match goal with x : bytes * bytes |- _ => destruct x as [u w] end. inv_ret. right.
  match goal with E : decode_userinfo _ = _ |- _ => apply decode_userinfo_ok in E as [Hu Hw] end.
  repeat match goal with E : negb _ = false |- _ => apply negb_false_iff in E end.
  split; cbn [p_scheme p_host p_port username password]; try done.
  - unfold proxy_scheme in Hs. repeat case_match; by simplify_eq.
  - apply to_lower_unbracket.
  - intros ->. rewrite bool_decide_true in * by done. cbn [andb] in *.
    match goal with E : _ || _ = false |- _ => apply orb_false_iff in E as [?%Nat.ltb_ge ?%Nat.ltb_ge] end. done.
Qed.

(** *** The exclusions, by what their entries say *)

(** An entry of [NO_PROXY]: every host, or a domain with its subdomains at some port, that
    may be written behind a dot or behind a star and a dot. *)
Inductive NoProxyEntry :=
  | Everything
  | Domain (prefix : string) (name : bytes) (required : bytes).

Definition entry_text (e : NoProxyEntry) : bytes :=
  match e with
  | Everything => lit "*"
  | Domain prefix name required => lit prefix ++ name ++ (if nonempty required then lit ":" ++ required else [])
  end.

Definition domain_char (c : ascii) : bool := is_alnum c || (c =c "-") || (c =c ".").

Definition entry_ok (e : NoProxyEntry) : Prop :=
  match e with
  | Everything => True
  | Domain prefix name required =>
      (prefix = "" \/ prefix = "." \/ prefix = "*.")%string /\
      forallb domain_char name = true /\ nonempty name = true /\ starts_with (lit ".") name = false /\
      ends_with (lit ".") name = false /\ to_lower name = name /\ forallb is_digit required = true
  end.

(** The declarative meaning: the host is the domain or one below it, at the port. *)
Definition covers (host port : bytes) (e : NoProxyEntry) : Prop :=
  match e with
  | Everything => True
  | Domain _ name required =>
      (required = [] \/ required = port) /\ (host = name \/ exists sub, host = sub ++ lit "." ++ name)
  end.

Lemma blank_stripped s : none is_blank s = true -> trim s = s.
Proof.
  intros H. unfold trim. assert (skip is_blank s = s) as ->.
  { destruct s as [|c s]; [done|]. cbn in H. split_andb. cbn. by rewrite H. }
  induction s as [|c s IH]; [done|]. cbn in H. split_andb. cbn. rewrite IH by done.
  rewrite H. by destruct s.
Qed.

Lemma entry_chars e : entry_ok e -> forallb (fun c => domain_char c || (c =c "*") || (c =c ":")) (entry_text e) = true.
Proof.
  destruct e as [|prefix name required]; [done|]. intros (Hx & Hn & _ & _ & _ & _ & Hr). cbn [entry_text].
  rewrite !forallb_app. rewrite (forallb_impl domain_char _ name) by (done || intros c ->; done).
  assert (forallb (fun c => domain_char c || (c =c "*") || (c =c ":")) (lit prefix) = true) as -> by (by destruct Hx as [-> | [-> | ->]]).
  destruct (nonempty required); [|done]. rewrite forallb_app.
  rewrite (forallb_impl is_digit _ required) by (done || intros c; by_ascii c). done.
Qed.

Lemma entry_text_lower e : entry_ok e -> to_lower (trim (entry_text e)) = entry_text e.
Proof.
  intros He. rewrite blank_stripped; [|eapply none_forallb; [|by apply entry_chars]; intros c; by_ascii c].
  destruct e as [|prefix name required]; [done|]. destruct He as (Hx & _ & _ & _ & _ & Hl & Hr). cbn [entry_text].
  rewrite !to_lower_app, Hl. f_equal; [by destruct Hx as [-> | [-> | ->]]|]. f_equal.
  destruct (nonempty required); [|done]. rewrite to_lower_app. f_equal. revert Hr. clear.
  induction required as [|c r IH]; [done|]. cbn [forallb]. intros [Hc Hr]%andb_prop.
  change (to_lower (c :: r)) with (tolower c :: to_lower r). rewrite IH by done. f_equal. revert Hc. by_ascii c.
Qed.

Lemma entry_name_prefix prefix name :
  (prefix = "" \/ prefix = "." \/ prefix = "*.")%string -> starts_with (lit ".") name = false ->
  forallb domain_char name = true -> ends_with (lit ".") name = false -> entry_name (lit prefix ++ name) = name.
Proof.
  intros Hx Hs Hn He. unfold entry_name.
  assert ((if starts_with (lit "*.") (lit prefix ++ name) then drop 2 (lit prefix ++ name)
           else if starts_with (lit ".") (lit prefix ++ name) then drop 1 (lit prefix ++ name) else lit prefix ++ name) = name) as ->.
  { destruct Hx as [-> | [-> | ->]]; [|done..]. change (lit "" ++ name) with name.
    destruct name as [|c name]; [done|]. cbn in Hn. split_andb. rewrite Hs.
    assert (starts_with (lit "*.") (c :: name) = false) as ->; [|done]. revert H. clear. by_ascii c. }
  by rewrite He.
Qed.

Lemma entry_excludes_spec host port e : entry_ok e -> entry_excludes host port (entry_text e) = true <-> covers host port e.
Proof.
  intros He. unfold entry_excludes. rewrite entry_text_lower by done.
  destruct e as [|prefix name required]; [done|]. destruct He as (Hx & Hn & Hne & Hs & Hd & _ & Hr).
  cbn [entry_text covers]. set (base := lit prefix ++ name).
  assert (Hb : none (is_ch ":") base = true).
  { unfold base. rewrite none_app. apply andb_true_intro. split; [by destruct Hx as [-> | [-> | ->]]|].
    eapply none_forallb; [|exact Hn]. intros c. by_ascii c. }
  assert (Hparts : entry_parts (lit prefix ++ name ++ (if nonempty required then lit ":" ++ required else [])) = Some (base, required)).
  { unfold entry_parts. rewrite app_assoc. fold base.
    assert (starts_with (lit "[") (base ++ (if nonempty required then lit ":" ++ required else [])) = false) as ->.
    { unfold base. destruct Hx as [-> | [-> | ->]]; [|done..]. destruct name as [|c name]; [done|].
      cbn in Hn. apply andb_prop in Hn as [Hc _]. revert Hc. clear. by_ascii c. }
    destruct required as [|c r]; cbn [nonempty].
    - rewrite app_nil_r, cut_off_none by done. done.
    - change (lit ":" ++ c :: r) with (":"%char :: c :: r). rewrite cut_off_mid by done.
      rewrite (none_forallb (is_ch ":") is_digit (c :: r)) by (done || (intros d; by_ascii d)). done. }
  assert (lit prefix ++ name ++ (if nonempty required then lit ":" ++ required else []) =s lit "*" = false) as ->.
  { apply eqb_bytes_false. intros E. destruct name as [|c name]; [done|].
    destruct Hx as [-> | [-> | ->]]; try discriminate E. injection E as -> _. discriminate Hn. }
  rewrite Hparts. unfold base. rewrite entry_name_prefix, Hne by done. cbn [andb].
  destruct (nonempty required) eqn:En; cbn [andb].
  - destruct (required =s port) eqn:Ep; cbn [negb].
    + apply eqb_bytes_true in Ep. rewrite orb_true_iff, eqb_bytes_true, ends_with_spec. naive_solver.
    + apply eqb_bytes_false in Ep. destruct required; [done|]. naive_solver.
  - destruct required; [|done]. rewrite orb_true_iff, eqb_bytes_true, ends_with_spec. naive_solver.
Qed.

Lemma getlines_join c l : Forall (fun p => none (fun d => d =c c) p = true) l ->
  (forall x, last l = Some x -> x <> []) -> getlines c (join_with [c] l) = l.
Proof.
  intros Hl Hx. unfold getlines. destruct l as [|x l]; [done|]. rewrite split_on_join by done.
  destruct (last (x :: l)) as [[|? ?]|] eqn:E; [by destruct (Hx [])|done..].
Qed.

Lemma proxy_excluded_entries getenv es u :
  Forall entry_ok es -> environment_value getenv (lit "NO_PROXY") (lit "no_proxy") = join_with (lit ",") (map entry_text es) ->
  proxy_excluded getenv u = true <-> Exists (covers (excluded_host u) (default_port u)) es.
Proof.
  intros Hes E. unfold proxy_excluded. rewrite E. change (lit ",") with [","%char]. rewrite getlines_join.
  - clear E. induction Hes as [|e es He Hes IH]; [by rewrite Exists_nil|].
    cbn [map existsb]. by rewrite orb_true_iff, entry_excludes_spec, IH, Exists_cons.
  - rewrite Forall_map. eapply Forall_impl; [exact Hes|]. intros e He. eapply none_forallb; [|by apply entry_chars].
    intros c. by_ascii c.
  - intros x Hx%last_Some_elem_of. apply list_elem_of_In, in_map_iff in Hx as (e & <- & He%list_elem_of_In).
    rewrite Forall_forall in Hes. specialize (Hes e He). destruct e as [|prefix name required]; [done|].
    destruct Hes as (_ & _ & Hne & _). cbn [entry_text]. intros [_ [H _]%app_eq_nil]%app_eq_nil. by rewrite H in Hne.
Qed.

(** *** The credentials of the header can be read back *)

(** A reference decoder of RFC 4648. *)
Definition letter_value (c : ascii) : option N := N.of_nat <$> find_if (is_ch c) alphabet.

Fixpoint base64_decode (s : bytes) : option bytes :=
  match s with
  | [] => Some []
  | x :: y :: z :: w :: rest =>
      x ← letter_value x; y ← letter_value y;
      let a := ascii_of_N (x * 4 + y / 16) in
      match letter_value z with
      | None => if z =c "=" then Some [a] else None
      | Some z =>
          let b := ascii_of_N (y mod 16 * 16 + z / 4) in
          match letter_value w with
          | None => if w =c "=" then Some [a; b] else None
          | Some w => t ← base64_decode rest; Some (a :: b :: ascii_of_N (z mod 4 * 64 + w) :: t)
          end
      end
  | _ => None
  end.

Lemma letter_value_letter n : (n < 64)%N -> letter_value (letter n) = Some n.
Proof.
  intros H. assert (Hall : forallb (fun n => bool_decide (letter_value (letter (N.of_nat n)) = Some (N.of_nat n))) (seq 0 64) = true) by (vm_compute; done).
  rewrite forallb_forall in Hall. specialize (Hall (N.to_nat n)). rewrite N2Nat.id in Hall.
  eapply bool_decide_eq_true_1, Hall, in_seq. lia.
Qed.

Lemma code_lt c : (code c < 256)%N.
Proof. apply N_ascii_bounded. Qed.

(** The four groups of six bits of three bytes. *)
Lemma sextets a b c : (a < 256)%N -> (b < 256)%N -> (c < 256)%N ->
  let w := N.shiftr a 2 in let x := N.lor (N.shiftl (N.land a 3) 4) (N.shiftr b 4) in
  let y := N.lor (N.shiftl (N.land b 15) 2) (N.shiftr c 6) in let z := N.land c 63 in
  (w < 64 /\ x < 64 /\ y < 64 /\ z < 64 /\
   w * 4 + x / 16 = a /\ x mod 16 * 16 + y / 4 = b /\ y mod 4 * 64 + z = c)%N.
Proof.
  intros Ha Hb Hc. cbv zeta. rewrite !N.shiftr_div_pow2.
  change 3%N with (N.ones 2). change 15%N with (N.ones 4). change 63%N with (N.ones 6). rewrite !N.land_ones.
  change (2 ^ 2)%N with 4%N. change (2 ^ 4)%N with 16%N. change (2 ^ 6)%N with 64%N.
  rewrite !lor_shiftl by (cbn; apply N.Div0.div_lt_upper_bound; lia).
  change (2 ^ 2)%N with 4%N. change (2 ^ 4)%N with 16%N.
  pose proof (N.div_mod a 4 ltac:(done)). pose proof (N.mod_lt a 4 ltac:(done)).
  pose proof (N.div_mod b 16 ltac:(done)). pose proof (N.mod_lt b 16 ltac:(done)).
  pose proof (N.div_mod c 64 ltac:(done)). pose proof (N.mod_lt c 64 ltac:(done)).
  assert (b / 16 < 16)%N by (apply N.Div0.div_lt_upper_bound; lia).
  assert (c / 64 < 4)%N by (apply N.Div0.div_lt_upper_bound; lia). assert (a / 4 < 64)%N by (apply N.Div0.div_lt_upper_bound; lia).
  rewrite !(N.add_comm (_ * _) _). rewrite !N.div_add, !N.Div0.mod_add by done.
  rewrite !(N.div_small (_ / _)), !(N.mod_small (_ / _)) by done. lia.
Qed.

Lemma base64_decode_encode n s : length s <= n -> base64_decode (base64 s) = Some s.
Proof.
  revert s. induction n as [|n IH]; intros s Hn; [destruct s; [done|cbn in Hn; lia]|].
  destruct s as [|a [|b [|c s]]]; [done| | |]; cbn [base64 base64_decode length] in *.
  - change (lit "==") with ["="%char; "="%char]. destruct (sextets (code a) 0 0 (code_lt a)) as (H1 & H2 & _ & _ & H3 & _); [lia..|].
    cbn [base64_decode]. rewrite !letter_value_letter by done. cbn [mbind option_bind]. rewrite H3.
    unfold code. by rewrite ascii_N_embedding.
  - change (lit "=") with ["="%char]. destruct (sextets (code a) (code b) 0 (code_lt a) (code_lt b)) as (H1 & H2 & H3 & _ & H4 & H5 & _); [lia|].
    cbn [base64_decode]. rewrite !letter_value_letter by done. cbn [mbind option_bind]. rewrite H4, H5.
    unfold code. by rewrite !ascii_N_embedding.
  - destruct (sextets (code a) (code b) (code c)) as (H1 & H2 & H3 & H4 & H5 & H6 & H7); [apply code_lt..|].
    rewrite !letter_value_letter by done. cbn [mbind option_bind]. rewrite IH by lia. cbn [mbind option_bind].
    rewrite H5, H6, H7. unfold code. by rewrite !ascii_N_embedding.
Qed.

Lemma authorization_credentials p : nonempty (username p) = true ->
  exists text, proxy_authorization p = crlf ++ lit "Proxy-Authorization: Basic " ++ text /\
    base64_decode text = Some (username p ++ lit ":" ++ password p).
Proof.
  intros H. unfold proxy_authorization. rewrite H. eexists. split; [done|]. by eapply base64_decode_encode.
Qed.

(** The redacted form does not depend on the password. *)
Lemma redacted_password p w : proxy_to_string p true =
  proxy_to_string {| p_scheme := p_scheme p; p_host := p_host p; p_port := p_port p; username := username p; password := w |} true.
Proof. done. Qed.

(** A proxy that [parse_proxy_url] answers has a scheme, a host and a port in range and
    credentials without control characters, and printing it and parsing again gives it back
    (a password without a user name is not printed, and the text may not exceed 8192 bytes). *)
Theorem proxy_url_roundtrip v p : parse_proxy_url v = Ret p -> enabled p = true ->
  proxy_ok p /\
  ((username p = [] -> password p = []) -> (N.of_nat (length (proxy_to_string p false)) <= 8192)%N ->
   parse_proxy_url (proxy_to_string p false) = Ret p).
Proof.
  intros [-> |Hok]%parse_proxy_url_ok He; [done|]. split; [done|]. by apply parse_print.
Qed.

Lemma proxy_url_roundtrip_witness :
  let p := {| p_scheme := Socks5; p_host := lit "::1"; p_port := lit "9050"; username := lit "a b"; password := lit "p@:" |} in
  proxy_ok p /\ parse_proxy_url (proxy_to_string p false) = Ret p.
Proof.
  intros p. destruct (proxy_url_roundtrip (lit "SOCKS5H://a%20b:p%40%3a@[::1]:9050") p) as [H1 H2].
  - vm_compute. reflexivity.
  - vm_compute. reflexivity.
  - split; [exact H1|]. apply H2; [done|]. vm_compute. done.
Defined.
