(* ===== verification/Message.v ===== *)
(** * HTTP messages: [include/prowsetk/network_client.hpp]

    The request and the response that pass between the network client, the sessions and the
    detection of bot challenges. *)
From S2P Require Import Prelude Proxy.

Definition header_list : Type := list (bytes * bytes).

Record HttpResponse := {
  status : Z;
  headers : header_list;
  body : bytes;
  final_url : bytes;
  redirect_chain : list bytes }.

(** [HttpResponse::header]. *)
Definition header_of (l : header_list) (name : bytes) : bytes :=
  match List.find (fun '(key, _) => to_lower key =s to_lower name) l with Some (_, value) => value | None => [] end.
Definition header (r : HttpResponse) : bytes -> bytes := header_of (headers r).

Definition ok (r : HttpResponse) : bool := (200 <=? status r)%Z && (status r <? 300)%Z.

Record HttpRequest := {
  method : bytes;
  request_url : bytes;
  request_headers : header_list;
  request_body : bytes;
  timeout_ms : Z;
  max_response_bytes : N;
  request_proxy : ProxyConfig }.
