(* ===== verification/AntiBot.v ===== *)
(** * Detection of bot challenges: [src/core/anti_bot_detection.cpp]

    A detection collects signals, each with a confidence; a confidence is a literal of the
    code with two decimals, and is counted here in hundredths. *)
From S2P Require Import Prelude Proxy Message HtmlTree Dom Selector SelectorMatch Document.

Definition contains (haystack : bytes) (needle : string) : bool :=
  match find_sub (lit needle) haystack with Some _ => true | None => false end.

Record AntiBotSignal := {
  source : bytes; sig_name : bytes; detail : bytes; sig_confidence : N }.

Record AntiBotDetection := {
  activated : bool; category : bytes; det_url : bytes; det_status : Z;
  confidence : N; signals : list AntiBotSignal }.

Definition new_detection (url : bytes) (status : Z) : AntiBotDetection :=
  {| activated := false; category := []; det_url := url; det_status := status;
     confidence := 0; signals := [] |}.

Definition add_signal (src name det : bytes) (conf : N) (d : AntiBotDetection) : AntiBotDetection :=
  let top := N.max (confidence d) conf in
  {| activated := (55 <=? top)%N; category := category d; det_url := det_url d;
     det_status := det_status d; confidence := top;
     signals := signals d ++ [{| source := src; sig_name := name; detail := det;
                                 sig_confidence := conf |}] |}.

(** [if (b) add_signal(...)]. *)
Definition add_if (b : bool) (src name det : bytes) (conf : N) (d : AntiBotDetection) : AntiBotDetection :=
  if b then add_signal src name det conf d else d.

(** ** Classification *)

Definition signal_text (s : AntiBotSignal) : bytes := to_lower (sig_name s ++ lit " " ++ detail s).

Definition contains_any (text : bytes) (needles : list string) : bool := existsb (contains text) needles.

Definition captcha_words : list string :=
  ["captcha"; "recaptcha"; "hcaptcha"; "turnstile"; "human-verification"]%string.
Definition rate_words : list string := ["rate limit"; "too many requests"]%string.
Definition waf_words : list string :=
  ["cloudflare"; "akamai"; "imperva"; "distil"; "datadome"]%string.

(** The three flags after the loop over the signals. *)
Definition classify_loop (l : list AntiBotSignal) : bool * bool * bool :=
  foldl (fun '(captcha, rate_limit, waf) s =>
           let name := signal_text s in
           (captcha || contains_any name captcha_words,
            rate_limit || contains_any name rate_words,
            waf || contains_any name waf_words)) (false, false, false) l.

Definition with_category (c : bytes) (d : AntiBotDetection) : AntiBotDetection :=
  {| activated := activated d; category := c; det_url := det_url d; det_status := det_status d;
     confidence := confidence d; signals := signals d |}.

Definition classify (d : AntiBotDetection) : AntiBotDetection :=
  let '(captcha, rate_limit, waf) := classify_loop (signals d) in
  if captcha then with_category (lit "captcha") d
  else if rate_limit then with_category (lit "rate-limit") d
  else if waf then with_category (lit "waf-challenge") d
  else if nonempty (signals d) then with_category (lit "anti-bot") d
  else d.

(** ** Inspection *)

Definition inspect_text (src raw : bytes) (d : AntiBotDetection) : AntiBotDetection :=
  let text := to_lower raw in
  let d := add_if (contains text "g-recaptcha" || contains text "google.com/recaptcha")
             src (lit "recaptcha") (lit "Google reCAPTCHA marker") 90 d in
  let d := add_if (contains text "h-captcha" || contains text "hcaptcha.com")
             src (lit "hcaptcha") (lit "hCaptcha marker") 90 d in
  let d := add_if (contains text "cf-turnstile" || contains text "challenges.cloudflare.com")
             src (lit "turnstile") (lit "Cloudflare Turnstile marker") 90 d in
  let d := add_if (contains text "captcha")
             src (lit "captcha-text") (lit "page text mentions captcha") 70 d in
  let d := add_if (contains text "verify you are human" || contains text "are you a human" ||
                   contains text "unusual traffic")
             src (lit "human-verification") (lit "human verification challenge text") 75 d in
  add_if (contains text "access denied" && (contains text "bot" || contains text "automated"))
    src (lit "access-denied-bot") (lit "access denied text references automation") 70 d.

Definition inspect_status (s : Z) (d : AntiBotDetection) : AntiBotDetection :=
  if (s =? 403)%Z then
    add_signal (lit "http") (lit "forbidden") (lit "HTTP 403 can indicate a WAF or bot challenge") 55 d
  else if (s =? 429)%Z then
    add_signal (lit "http") (lit "rate-limit") (lit "HTTP 429 Too Many Requests") 70 d
  else if (s =? 503)%Z then
    add_signal (lit "http") (lit "service-unavailable")
      (lit "HTTP 503 can indicate a temporary challenge page") 45 d
  else d.

Definition inspect_header (d : AntiBotDetection) (header : bytes * bytes) : AntiBotDetection :=
  let '(name, value) := header in
  let header_name := to_lower name in
  let header_value := to_lower value in
  let d := add_if ((header_name =s lit "cf-mitigated") && (header_value =s lit "challenge"))
             (lit "header") (lit "cloudflare-challenge") (lit "cf-mitigated header reports challenge") 95 d in
  let d := add_if ((header_name =s lit "server") && contains header_value "cloudflare")
             (lit "header") (lit "cloudflare-server") (lit "Cloudflare server header") 35 d in
  add_if ((header_name =s lit "x-datadome") || (header_name =s lit "x-distil-cs"))
    (lit "header") (lit "bot-protection-header") name 85 d.

Definition inspect_response (request_url : bytes) (r : HttpResponse) : AntiBotDetection :=
  let d := new_detection (if nonempty (final_url r) then final_url r else request_url) (status r) in
  let d := inspect_status (status r) d in
  let d := foldl inspect_header d (headers r) in
  classify (inspect_text (lit "response-body") (body r) d).

Definition captcha_selector : bytes := lit "[name*=captcha], [id*=captcha], [class*=captcha]".

Definition found (doc : Document) (id : string) : bool :=
  match get_element_by_id (doc_dom doc) (root_ doc) (lit id) with Some _ => true | None => false end.

Definition inspect_document (doc : Document) : result AntiBotDetection :=
  let d := new_detection (url_ doc) 0 in
  page_title ← title doc;
  let d := inspect_text (lit "document") page_title d in
  let d := inspect_text (lit "document") (doc_text doc) d in
  let d := inspect_text (lit "document") (doc_html doc) d in
  let d := add_if (found doc "captcha" || found doc "recaptcha" || found doc "hcaptcha")
             (lit "document") (lit "captcha-element-id") (lit "captcha-like element id") 80 d in
  hits ← doc_query_all doc captcha_selector;
  let d := add_if (nonempty hits) (lit "document") (lit "captcha-selector")
             (lit "captcha-like form field or element") 80 d in
  Ret (classify d).

Definition merge (first second : AntiBotDetection) : AntiBotDetection :=
  classify
    {| det_url := if nonempty (det_url first) then det_url first else det_url second;
       det_status := if (det_status first =? 0)%Z then det_status second else det_status first;
       signals := signals first ++ signals second;
       confidence := N.max (confidence first) (confidence second);
       activated := activated first || activated second;
       category :=
         if negb (nonempty (category first)) then category second
         else if negb (category first =s lit "captcha") && (category second =s lit "captcha")
         then category second else category first |}.

Definition detection_to_string (d : AntiBotDetection) : bytes :=
  if activated d then lit "activated" else lit "not_detected".

Example inspect_response_ex :
  let d := inspect_response (lit "http://h/")
    {| status := 403; final_url := []; headers := [(lit "Server", lit "Cloudflare")];
       body := lit "Please solve this CAPTCHA"; redirect_chain := [] |} in
  (activated d, category d, confidence d, map sig_name (signals d)) =
  (true, lit "captcha", 70%N, [lit "forbidden"; lit "cloudflare-server"; lit "captcha-text"]).
Proof. vm_compute. reflexivity. Qed.

(** A category is reported for signals too weak to activate the detection. *)
Example category_without_activation :
  let d := inspect_response (lit "http://h/") {| status := 503; final_url := []; headers := []; body := []; redirect_chain := [] |} in
  (detection_to_string d, category d) = (lit "not_detected", lit "anti-bot").
Proof. vm_compute. reflexivity. Qed.

(** ** What a detection says of its signals *)

Definition mentions (words : list string) (l : list AntiBotSignal) : bool :=
  existsb (fun s => contains_any (signal_text s) words) l.

Definition category_of (l : list AntiBotSignal) : bytes :=
  if mentions captcha_words l then lit "captcha"
  else if mentions rate_words l then lit "rate-limit"
  else if mentions waf_words l then lit "waf-challenge"
  else if nonempty l then lit "anti-bot" else [].

(** The confidence is that of the strongest signal, and activation is the threshold on it. *)
Definition tracked (d : AntiBotDetection) : Prop :=
  confidence d = maxN sig_confidence (signals d) /\ activated d = (55 <=? confidence d)%N.

Definition sound (d : AntiBotDetection) : Prop := tracked d /\ category d = category_of (signals d).

Lemma classify_loop_spec l :
  classify_loop l = (mentions captcha_words l, mentions rate_words l, mentions waf_words l).
Proof.
  unfold classify_loop, mentions.
  assert (H : forall a b c, foldl (fun '(captcha, rate_limit, waf) s =>
      let name := signal_text s in
      (captcha || contains_any name captcha_words, rate_limit || contains_any name rate_words,
       waf || contains_any name waf_words)) (a, b, c) l =
    (a || existsb (fun s => contains_any (signal_text s) captcha_words) l,
     b || existsb (fun s => contains_any (signal_text s) rate_words) l,
     c || existsb (fun s => contains_any (signal_text s) waf_words) l)).
  { induction l as [|s l IH]; intros a b c; cbn [foldl existsb]; [by rewrite !orb_false_r|].
    cbv zeta. by rewrite IH, <- !orb_assoc. }
  apply H.
Qed.

Lemma classify_spec d :
  category (classify d) = (if nonempty (signals d) then category_of (signals d) else category d) /\
  signals (classify d) = signals d /\ confidence (classify d) = confidence d /\
  activated (classify d) = activated d /\ det_url (classify d) = det_url d /\
  det_status (classify d) = det_status d.
Proof.
  unfold classify, category_of. rewrite classify_loop_spec.
  assert (H : forall w, nonempty (signals d) = false -> mentions w (signals d) = false).
  { intros w. by destruct (signals d). }
  destruct (nonempty (signals d)) eqn:E; [|by rewrite !H by done].
  destruct (mentions captcha_words _); [by split_and!|].
  destruct (mentions rate_words _); [by split_and!|].
  destruct (mentions waf_words _); by split_and!.
Qed.

(** [grows d d']: [d'] has the signals of [d] and perhaps more behind, and is still tracked
    and not yet classified. *)
Definition grows (d d' : AntiBotDetection) : Prop :=
  (tracked d -> tracked d') /\ (exists l, signals d' = signals d ++ l) /\ category d' = category d.

#[local] Instance grows_preorder : PreOrder grows.
Proof.
  split.
  - intros d. split_and!; [done|exists []; by rewrite app_nil_r|done].
  - intros a b c (T1 & [l1 E1] & C1) (T2 & [l2 E2] & C2). split_and!; [auto| |congruence].
    exists (l1 ++ l2). by rewrite E2, E1, app_assoc.
Qed.

Lemma grows_add src name det conf d : grows d (add_signal src name det conf d).
Proof.
  split_and!; [|by eexists|done]. intros [Hc _]. split; [|done]. simpl.
  rewrite maxN_app, Hc. unfold maxN at 3. simpl. lia.
Qed.

Lemma grows_add_if b src name det conf d : grows d (add_if b src name det conf d).
Proof. destruct b; [apply grows_add|reflexivity]. Qed.

#[local] Hint Resolve grows_add grows_add_if : core.

Ltac grow := repeat first [ done | apply grows_add_if | apply grows_add
                          | etransitivity; [|apply grows_add_if] ].

Lemma grows_text src raw d : grows d (inspect_text src raw d).
Proof. unfold inspect_text. cbv zeta. grow. Qed.

Lemma grows_status s d : grows d (inspect_status s d).
Proof. unfold inspect_status. repeat case_match; auto. reflexivity. Qed.

Lemma grows_headers l d : grows d (foldl inspect_header d l).
Proof.
  revert d. induction l as [|[n v] l IH]; intros d; [reflexivity|]. simpl.
  etransitivity; [|apply IH]. unfold inspect_header. cbv zeta. grow.
Qed.

Lemma new_tracked u s : tracked (new_detection u s).
Proof. by split. Qed.

Lemma classify_sound u s d : grows (new_detection u s) d -> sound (classify d).
Proof.
  intros (Ht & _ & Hc). specialize (Ht (new_tracked u s)).
  destruct (classify_spec d) as (E1 & E2 & E3 & E4 & _). unfold sound, tracked.
  rewrite E1, E2, E3, E4. split; [exact Ht|]. rewrite Hc. by destruct (signals d).
Qed.

(** A signal of confidence 0.55 and more activates the detection. *)
Lemma sound_signal d s : sound d -> s ∈ signals d -> (55 <= sig_confidence s)%N ->
  contains_any (signal_text s) captcha_words = true ->
  activated d = true /\ category d = lit "captcha".
Proof.
  intros [[Hc Ha] Hk] Hs Hconf Hw. rewrite Ha, Hk, Hc. split.
  - apply N.leb_le. transitivity (sig_confidence s); [done|]. clear -Hs. unfold maxN.
    induction Hs; simpl; lia.
  - unfold category_of, mentions.
    assert (existsb (fun s => contains_any (signal_text s) captcha_words) (signals d) = true) as ->; [|done].
    apply existsb_exists. exists s. split; [by apply list_elem_of_In|done].
Qed.

(** ** Documents *)

Section InspectDocument.
Context (doc : Document).
Hypothesis Hwf : dom_wf (doc_dom doc).
Hypothesis Hroot : is_Some (nodes (doc_dom doc) !! root_ doc).

(** An element whose name, id or class holds the word. *)
Definition captcha_marked (i : nat) : bool :=
  existsb (fun a => match attribute (doc_dom doc) i (lit a) with
                    | Some v => contains v "captcha" | None => false end)
    ["name"; "id"; "class"]%string.

Definition substring_compound (a : string) : Compound :=
  mkCompound false [] [] []
    [{| sel_name := lit a; sel_op := Substring; sel_value := lit "captcha"; ascii_insensitive := false |}] [].

Lemma query_captcha :
  doc_query_all doc captcha_selector = Ret (elements_where doc captcha_marked).
Proof using Hwf Hroot.
  apply (query_where doc Hwf Hroot _ (map substring_compound ["name"; "id"; "class"]%string));
    [vm_compute; reflexivity|by repeat constructor|done|].
  intros i. unfold captcha_marked. cbn [map existsb]. rewrite !orb_false_r.
  unfold match_simple, match_attr, substring_compound, contains. cbn -[find_sub lit].
  change (nonempty (lit "captcha")) with true. cbn -[find_sub lit].
  destruct (is_element _ i); [|done]. simpl. by rewrite !andb_true_r.
Qed.

Lemma inspect_document_total : exists d, inspect_document doc = Ret d /\ sound d /\
  (nonempty (elements_where doc captcha_marked) = true ->
   activated d = true /\ category d = lit "captcha").
Proof using Hwf Hroot.
  unfold inspect_document. rewrite (title_spec doc Hwf Hroot). simpl. rewrite query_captcha. simpl.
  set (d0 := add_if (found doc "captcha" || _ || _) _ _ _ _ _).
  assert (Hg : forall b, grows (new_detection (url_ doc) 0)
    (add_if b (lit "document") (lit "captcha-selector") (lit "captcha-like form field or element") 80 d0)).
  { intros b. unfold d0. grow. }
  eexists. split; [reflexivity|]. split; [eapply classify_sound, Hg|].
  intros Hn. rewrite Hn. eapply sound_signal; [eapply classify_sound, (Hg true)| | |].
  - destruct (classify_spec (add_if true (lit "document") (lit "captcha-selector")
      (lit "captcha-like form field or element") 80 d0)) as (_ & -> & _).
    simpl. apply list_elem_of_In, in_or_app. right. by left.
  - simpl. lia.
  - vm_compute. reflexivity.
Qed.

End InspectDocument.

Lemma merge_sound a b : sound a -> sound b -> sound (merge a b).
Proof.
  intros [[Hca Haa] Hka] [[Hcb Hab] Hkb]. unfold merge.
  match goal with |- sound (classify ?x) => set (m := x) end.
  destruct (classify_spec m) as (E1 & E2 & E3 & E4 & _). unfold sound, tracked.
  rewrite E1, E2, E3, E4. unfold m. simpl. split_and!.
  - by rewrite maxN_app, Hca, Hcb.
  - rewrite Haa, Hab. apply eq_bool_prop_intro. rewrite orb_True, !Is_true_true, !N.leb_le. lia.
  - destruct (signals a) as [|s l] eqn:Ea; [|done]. destruct (signals b) as [|s l] eqn:Eb; [|done].
    simpl. rewrite Hka, Hkb. done.
Qed.

(** What the detector can answer. *)
Inductive detected : AntiBotDetection -> Prop :=
  | detected_response url r : detected (inspect_response url r)
  | detected_document doc d : inspect_document doc = Ret d ->
      dom_wf (doc_dom doc) -> is_Some (nodes (doc_dom doc) !! root_ doc) -> detected d
  | detected_merge a b : detected a -> detected b -> detected (merge a b).

(** In every answer of the detector, merged ones included, the confidence is that of the
    strongest signal (zero without signals), the detection is activated exactly from 0.55 on,
    and the category is decided by the signals: a captcha before a rate limit before a
    firewall before an unspecific one, and none exactly when there is no signal. *)
Theorem detection_sound d : detected d ->
  confidence d = maxN sig_confidence (signals d) /\
  activated d = (55 <=? confidence d)%N /\
  category d = category_of (signals d).
Proof.
  intros H. assert (Hs : sound d); [|destruct Hs as [[]]; auto].
  induction H as [url r|doc d Hd Hwf Hroot|a b _ Ha _ Hb].
  - eapply classify_sound. etransitivity; [|apply grows_text].
    etransitivity; [|apply grows_headers]. apply grows_status.
  - destruct (inspect_document_total doc Hwf Hroot) as (d' & E & Hs & _). congruence.
  - by apply merge_sound.
Qed.

Definition captcha_page : bytes := lit "<form><input NAME=my-captcha-field></form>".

Lemma detection_sound_witness :
  exists r, category (merge (inspect_response (lit "u") r) (inspect_response (lit "v") r)) = lit "rate-limit" /\
    confidence (merge (inspect_response (lit "u") r) (inspect_response (lit "v") r)) = 70%N.
Proof.
  exists {| status := 429; final_url := []; headers := []; body := []; redirect_chain := [] |}.
  match goal with |- context [merge ?a ?b] =>
    destruct (detection_sound (merge a b)) as (H1 & _ & H3) end.
  { apply detected_merge; apply detected_response. }
  rewrite H1, H3. by vm_compute.
Defined.

(** Inspecting a document never fails, and an element whose name, id or class holds the
    word [captcha] activates the detection with that category, whatever else the page
    holds. *)
Theorem inspect_document_captcha doc :
  dom_wf (doc_dom doc) -> is_Some (nodes (doc_dom doc) !! root_ doc) ->
  exists d, inspect_document doc = Ret d /\
    (forall i a v, i ∈ doc_order (doc_dom doc) (root_ doc) -> is_element (doc_dom doc) i = true ->
       a = "name"%string \/ a = "id"%string \/ a = "class"%string ->
       attribute (doc_dom doc) i (lit a) = Some v -> contains v "captcha" = true ->
       activated d = true /\ category d = lit "captcha").
Proof.
  intros Hwf Hroot. destruct (inspect_document_total doc Hwf Hroot) as (d & Hd & _ & Hc).
  exists d. split; [done|]. intros i a v Hi He Ha Hv Hw. apply Hc.
  assert (In i (elements_where doc (captcha_marked doc))) as Hin; [|by destruct (elements_where _ _)].
  apply filter_In. split; [by apply list_elem_of_In|]. rewrite He. apply existsb_exists.
  exists a. rewrite Hv. split; [|done]. destruct Ha as [-> | [-> | ->]]; simpl; tauto.
Qed.

Definition captcha_document : Document :=
  default sample_document (match parse_html captcha_page (lit "u") [] with Ret doc => Some doc | _ => None end).

Lemma captcha_document_wf : dom_wf (doc_dom captcha_document).
Proof.
  unfold captcha_document, parse_html. destruct (parse_html_tree captcha_page) as [t|]; simpl;
    [apply load_document_wf|exact sample_wf].
Qed.

Lemma inspect_document_captcha_witness :
  exists d, inspect_document captcha_document = Ret d /\ activated d = true /\ category d = lit "captcha".
Proof.
  destruct (inspect_document_captcha captcha_document captcha_document_wf) as (d & Hd & Hc);
    [vm_compute; eauto|].
  exists d. split; [exact Hd|].
  assert (exists i, i ∈ doc_order (doc_dom captcha_document) (root_ captcha_document) /\
    is_element (doc_dom captcha_document) i = true /\
    attribute (doc_dom captcha_document) i (lit "name") = Some (lit "my-captcha-field")) as (i & Hi & He & Ha).
  { exists 2. split_and!; [apply list_elem_of_In; vm_compute; tauto|by vm_compute|by vm_compute]. }
  exact (Hc i "name"%string _ Hi He (or_introl eq_refl) Ha eq_refl).
Defined.
