(* ===== verification/CookieImport.v ===== *)
(** * Import of browser cookies: [src/core/cookie_import.cpp]

    A parser of JSON of its own, and the import of its values into a cookie jar.  A position
    in the text is the suffix that is left.  The numbers of the C++ library are the interface
    [LibDouble]; [std::stod] may throw [std::out_of_range], which is not an [Error].  An
    import that throws has changed the jar by the entries before: the jar is returned in
    either case. *)
From S2P Require Import Prelude Url Storage Backend.

(** ** Exceptions and parsers *)

Inductive exception := Error (e : ErrorCode) | StdOutOfRange.

Inductive attempt (A : Type) :=
  | Value (a : A)
  | Raise (x : exception).
Arguments Value {A} a.
Arguments Raise {A} x.

(** A computation on the text that is left. *)
Definition parser (A : Type) : Type := bytes -> attempt (A * bytes).

#[export] Instance parser_ret : MRet parser := fun A a s => Value (a, s).
#[export] Instance parser_bind : MBind parser := fun A B f m s =>
  match m s with Value (a, s') => f a s' | Raise x => Raise x end.

Definition raise {A} (x : exception) : parser A := fun _ => Raise x.
Definition fail {A} : parser A := raise (Error ParseError).

(** The text that is left, or a new one. *)
Definition rest : parser bytes := fun s => Value (s, s).
Definition seek (s : bytes) : parser unit := fun _ => Value (tt, s).

Class LibDouble := {
  number : Type;
  (** [std::stod] of a token of the grammar; [None] is [std::out_of_range]. *)
  stod : bytes -> option number;
  (** [value <= 0.0]. *)
  not_positive : number -> bool;
  finite : number -> bool;
  (** [static_cast<std::int64_t>]. *)
  truncate : number -> Z }.

Section CookieImport.
Context {D : LibDouble}.

(** The member of [Json] its type selects. *)
#[warnings="-register-all"]
Inductive Json :=
  | Null
  | Bool (boolean : bool)
  | Number (value : number)
  | String (text : bytes)
  | Array (array : list Json)
  | Object (object : list (bytes * Json)).

Fixpoint lookup_key {A} (key : bytes) (l : list (bytes * A)) : option A :=
  match l with
  | [] => None
  | (k, v) :: l' => if k =s key then Some v else lookup_key key l'
  end.

Definition member (v : Json) (key : bytes) : option Json :=
  match v with Object l => lookup_key key l | _ => None end.

(** [std::map::emplace]: the first value of a key stays. *)
Definition emplace (key : bytes) (v : Json) (l : list (bytes * Json)) : list (bytes * Json) :=
  match lookup_key key l with Some _ => l | None => l ++ [(key, v)] end.

(** ** The parser *)

Definition skip_ws : parser unit := fun s => Value (tt, skip is_blank s).

Definition consume (expected : ascii) : parser bool :=
  _ ← skip_ws; s ← rest;
  match s with
  | c :: s' => if c =c expected then _ ← seek s'; mret true else mret false
  | [] => mret false
  end.

Definition expect (expected : ascii) : parser unit :=
  b ← consume expected; if b : bool then mret tt else fail.

Definition literal {A} (word : string) (a : A) (otherwise : parser A) : parser A :=
  s ← rest;
  if starts_with (lit word) s then _ ← seek (drop (length (lit word)) s); mret a else otherwise.

Definition parse_null : parser Json := literal "null" Null fail.
Definition parse_bool : parser Json := literal "true" (Bool true) (literal "false" (Bool false) fail).

(** The digits here, of which there must be one. *)
Definition some_digits : parser unit :=
  s ← rest;
  match s with
  | c :: _ => if is_digit c then seek (skip is_digit s) else fail
  | [] => fail
  end.

(** Skip one character that satisfies [p], if it comes next. *)
Definition optional (p : ascii -> bool) : parser bool :=
  s ← rest;
  match s with
  | c :: s' => if p c then _ ← seek s'; mret true else mret false
  | [] => mret false
  end.

Definition parse_number : parser Json :=
  start ← rest;
  _ ← optional (fun c => c =c "-");
  zero ← optional (fun c => c =c "0");
  _ ← (if zero : bool then mret tt else some_digits);
  dot ← optional (fun c => c =c ".");
  _ ← (if dot : bool then some_digits else mret tt);
  exponent ← optional (fun c => (c =c "e") || (c =c "E"));
  _ ← (if exponent : bool
       then _ ← optional (fun c => (c =c "+") || (c =c "-")); some_digits else mret tt);
  stop ← rest;
  match stod (take (length start - length stop) start) return parser Json with
  | Some value => mret (Number value)
  | None => raise StdOutOfRange
  end.

Definition hex_value (c : ascii) : option N :=
  if is_digit c then Some (code c - 48)%N
  else if in_range 97 102 c then Some (code c - 87)%N
  else if in_range 65 70 c then Some (code c - 55)%N
  else None.

(** The four digits behind [\u]. *)
Definition codepoint (a b c d : ascii) : option N :=
  a ← hex_value a; b ← hex_value b; c ← hex_value c; d ← hex_value d;
  Some (((a * 16 + b) * 16 + c) * 16 + d)%N.

Definition simple_escape (c : ascii) : option ascii :=
  if (c =c "034") || (c =c "\") || (c =c "/") then Some c
  else if c =c "b" then Some "008"%char
  else if c =c "f" then Some "012"%char
  else if c =c "n" then Some "010"%char
  else if c =c "r" then Some "013"%char
  else if c =c "t" then Some "009"%char
  else None.

(** The loop of [parse_string], behind the opening quote. *)
Fixpoint string_loop (s output : bytes) : attempt (bytes * bytes) :=
  match s with
  | [] => Raise (Error ParseError)
  | c :: s =>
      if c =c "034" then Value (output, s)
      else if (code c <? 32)%N then Raise (Error ParseError)
      else if negb (c =c "\") then string_loop s (output ++ [c])
      else
        match s with
        | [] => Raise (Error ParseError)
        | escaped :: s =>
            if escaped =c "u" then
              match s with
              | d1 :: d2 :: d3 :: d4 :: s =>
                  match codepoint d1 d2 d3 d4 with
                  | Some n => string_loop s (output ++ [if (n <=? 127)%N then ascii_of_N n else "?"%char])
                  | None => Raise (Error ParseError)
                  end
              | _ => Raise (Error ParseError)
              end
            else
              match simple_escape escaped with
              | Some ch => string_loop s (output ++ [ch])
              | None => Raise (Error ParseError)
              end
        end
  end.

Definition string_rest : parser bytes := fun s => string_loop s [].
Definition parse_string : parser bytes := _ ← expect "034"; string_rest.

(** The recursion of [parse_value] and the loops of [parse_array] (behind the bracket, when
    there is an element) and [parse_object]. *)
Fixpoint parse_value (fuel : nat) : parser Json :=
  match fuel with
  | O => raise (Error Internal)
  | S fuel =>
      _ ← skip_ws; s ← rest;
      match s return parser Json with
      | [] => fail
      | c :: _ =>
          if c =c "034" then text ← parse_string; mret (String text)
          else if c =c "[" then
            _ ← expect "["; _ ← skip_ws; closed ← consume "]";
            if closed : bool then mret (Array []) else array_loop fuel []
          else if c =c "{" then
            _ ← expect "{"; _ ← skip_ws; closed ← consume "}";
            if closed : bool then mret (Object []) else object_loop fuel []
          else if (c =c "t") || (c =c "f") then parse_bool
          else if c =c "n" then parse_null
          else if (c =c "-") || is_digit c then parse_number
          else fail
      end
  end
with array_loop (fuel : nat) (array : list Json) : parser Json :=
  match fuel with
  | O => raise (Error Internal)
  | S fuel =>
      value ← parse_value fuel; closed ← consume "]";
      if closed : bool then mret (Array (array ++ [value]))
      else _ ← expect ","; array_loop fuel (array ++ [value])
  end
with object_loop (fuel : nat) (object : list (bytes * Json)) : parser Json :=
  match fuel with
  | O => raise (Error Internal)
  | S fuel =>
      _ ← skip_ws; s ← rest;
      match s return parser Json with
      | [] => fail
      | c :: _ =>
          if negb (c =c "034") then fail
          else
            key ← parse_string; _ ← expect ":"; value ← parse_value fuel;
            closed ← consume "}";
            if closed : bool then mret (Object (emplace key value object))
            else _ ← expect ","; object_loop fuel (emplace key value object)
      end
  end.

(** [JsonParser::parse]. *)
Definition parse (input : bytes) : attempt Json :=
  match (_ ← skip_ws; value ← parse_value (S (2 * length input)); _ ← skip_ws; mret value) input with
  | Value (value, []) => Value value
  | Value (_, _ :: _) => Raise (Error ParseError)
  | Raise x => Raise x
  end.

(** ** The import *)

Definition json_string (object : Json) (key : string) : option bytes :=
  match member object (lit key) with Some (String s) => Some s | _ => None end.
Definition json_bool (object : Json) (key : string) : option bool :=
  match member object (lit key) with Some (Bool b) => Some b | _ => None end.
Definition json_number (object : Json) (key : string) : option number :=
  match member object (lit key) with Some (Number n) => Some n | _ => None end.

Definition or_else {A} (a b : option A) : option A := match a with Some _ => a | None => b end.

Definition bool_any (object : Json) (first second : string) : option bool :=
  or_else (json_bool object first) (json_bool object second).

Definition expires_from (object : Json) : option Z :=
  let value := or_else (or_else (json_number object "expirationDate") (json_number object "expires"))
                 (json_number object "expires_unix") in
  match value with
  | Some v => if not_positive v || negb (finite v) then None else Some (truncate v)
  | None => None
  end.

Definition strip_leading_dot (domain : bytes) : bytes := skip (fun d => d =c ".") domain.

Definition origin_for_cookie (cookie : Cookie) (url : option bytes) (default_origin : bytes) : bytes :=
  match url with
  | Some ((_ :: _) as url) => url
  | _ =>
      if nonempty (c_domain cookie) then
        (if secure cookie then lit "https://" else lit "http://") ++
        strip_leading_dot (c_domain cookie) ++
        (if nonempty (c_path cookie) then c_path cookie else lit "/")
      else default_origin
  end.

Record CookieImportResult := { imported : N; skipped : N; warnings : list bytes }.

Definition skip_entry (warning : string) (r : CookieImportResult) : CookieImportResult :=
  {| imported := imported r; skipped := skipped r + 1; warnings := warnings r ++ [lit warning] |}.

(** The cookie an object describes. *)
Definition cookie_of (item : Json) (name value : bytes) : Cookie :=
  let domain := default [] (json_string item "domain") in
  {| c_name := name; c_value := value; c_domain := domain;
     c_path := default (lit "/") (json_string item "path");
     secure := default false (json_bool item "secure");
     http_only := default false (bool_any item "httpOnly" "http_only");
     host_only := match bool_any item "hostOnly" "host_only" with
                  | Some host_only => host_only
                  | None => negb (nonempty domain) || (nonempty domain && negb (starts_with (lit ".") domain))
                  end;
     expires_unix := expires_from item;
     same_site := default (default [] (json_string item "same_site")) (json_string item "sameSite") |}.

(** One iteration of [import_cookie_array], at a time [now]. *)
Definition import_entry (now : Z) (default_origin : bytes) (r : CookieImportResult) (item : Json)
  : op jar CookieImportResult :=
  match item with
  | Object _ =>
      match json_string item "name", json_string item "value" with
      | Some ((_ :: _) as name), Some value =>
          let cookie := cookie_of item name value in
          match origin_for_cookie cookie (json_string item "url") default_origin with
          | [] => mret (skip_entry "skipped cookie without domain or URL" r)
          | origin => fun j =>
              match parse_url origin with
              | Ret u => (Ret {| imported := imported r + 1; skipped := skipped r; warnings := warnings r |},
                          jar_set now u cookie j)
              | Throw e => (Throw e, j)
              end
          end
      | _, _ => mret (skip_entry "skipped cookie missing name or value" r)
      end
  | _ => mret (skip_entry "skipped non-object cookie entry" r)
  end.

Fixpoint import_loop (now : Z) (default_origin : bytes) (r : CookieImportResult) (cookies : list Json)
  : op jar CookieImportResult :=
  match cookies with
  | [] => mret r
  | item :: cookies =>
      r ← import_entry now default_origin r item; import_loop now default_origin r cookies
  end.

Definition import_cookie_array (now : Z) (cookies : list Json) (default_origin : bytes)
  : op jar CookieImportResult :=
  import_loop now default_origin {| imported := 0; skipped := 0; warnings := [] |} cookies.

(** The array of cookies a document holds. *)
Definition cookie_entries (root : Json) : option (list Json) :=
  match root with
  | Array l => Some l
  | Object _ => match member root (lit "cookies") with Some (Array l) => Some l | _ => None end
  | _ => None
  end.

Definition import_cookies_json (now : Z) (contents default_origin : bytes) (j : jar)
  : attempt CookieImportResult * jar :=
  match parse contents with
  | Raise x => (Raise x, j)
  | Value root =>
      match cookie_entries root with
      | Some l =>
          match import_cookie_array now l default_origin j with
          | (Ret r, j') => (Value r, j')
          | (Throw e, j') => (Raise (Error e), j')
          end
      | None => (Raise (Error ParseError), j)
      end
  end.

(** A file that cannot be opened is [None]. *)
Definition import_cookies_json_file (now : Z) (file : option bytes) (default_origin : bytes) (j : jar)
  : attempt CookieImportResult * jar :=
  match file with
  | None => (Raise (Error IoError), j)
  | Some contents => import_cookies_json now contents default_origin j
  end.

End CookieImport.

(** ** An implementation of the numbers, for evaluations: integers, the rest ignored *)

Definition read_sign (s : bytes) : Z * bytes :=
  match s with c :: r => if c =c "-" then ((-1)%Z, r) else (1%Z, s) | [] => (1%Z, s) end.

#[export] Instance integers : LibDouble := {|
  number := Z;
  stod s := let '(sign, r) := read_sign s in
            let n := span is_digit r in
            if (300 <? length n)%nat then None else Some (sign * Z.of_N (read_N n))%Z;
  not_positive z := (z <=? 0)%Z;
  finite z := true;
  truncate z := z |}.

Definition import_text (s : string) : attempt CookieImportResult * jar :=
  import_cookies_json 100 (map (fun c => if c =c "'" then "034"%char else c) (lit s)) [] [].

Example import_ex :
  let '(r, j) := import_text
    "{'cookies': [{'name':'a','value':'\u0041','domain':'.Example.org','expires':200}, {'name':'b'}, 7]}" in
  (r, map (fun c => (c_name c, c_value c, c_domain c, host_only c, expires_unix c)) j) =
  (Value {| imported := 1; skipped := 2;
            warnings := [lit "skipped cookie missing name or value"; lit "skipped non-object cookie entry"] |},
   [(lit "a", lit "A", lit "example.org", false, Some 200%Z)]).
Proof. vm_compute. reflexivity. Qed.

(** An entry counts as imported when the jar refuses it: a path without a slash in front is
    glued to the host of the origin the code makes up. *)
Example refused_counts_as_imported :
  import_text "[{'name':'a','value':'1','domain':'example.org','path':'x'}]" =
  (Value {| imported := 1; skipped := 0; warnings := [] |}, []).
Proof. vm_compute. reflexivity. Qed.

(** An origin that does not parse stops the import; the entries before it stay. *)
Example import_stops :
  let '(r, j) := import_text
    "[{'name':'a','value':'1','domain':'h'},{'name':'b','value':'2','url':'http://[x'}]" in
  (r, map c_name j) = (Raise (Error InvalidUrl), [lit "a"]).
Proof. vm_compute. reflexivity. Qed.

Example number_out_of_range :
  (import_text (String.append "[1" (String.append
     (String.concat "0" (repeat ""%string 400)) "]"))).1 = Raise StdOutOfRange.
Proof. vm_compute. reflexivity. Qed.

(** ** The parser ends, and fails in two ways only *)

Section Parser.
Context {D : LibDouble}.

Definition json_exception (x : exception) : Prop := x = Error ParseError \/ x = StdOutOfRange.

(** [m] returns with at most [b] characters left, or raises a [json_exception]. *)
Definition leaves {A} (b : nat) (m : attempt (A * bytes)) : Prop :=
  match m with Value (_, s') => length s' <= b | Raise x => json_exception x end.

Lemma leaves_bind {A B} (b b' : nat) (m : parser A) (k : A -> parser B) s :
  leaves b (m s) -> (forall a s', m s = Value (a, s') -> length s' <= b -> leaves b' (k a s')) ->
  leaves b' ((x ← m; k x) s).
Proof.
  unfold leaves, mbind, parser_bind. destruct (m s) as [[a s']|x]; [|auto]. intros H Hk. by apply Hk.
Qed.

Lemma leaves_weaken {A} (b b' : nat) (m : attempt (A * bytes)) : leaves b m -> b <= b' -> leaves b' m.
Proof. unfold leaves. destruct m as [[a s']|x]; [lia|done]. Qed.

Lemma leaves_skip_ws s : leaves (length s) (skip_ws s).
Proof. apply length_skip. Qed.

Lemma optional_cons p c s :
  optional p (c :: s) = if p c then Value (true, s) else Value (false, c :: s).
Proof. unfold optional, mbind, parser_bind. simpl. by destruct (p c). Qed.

Lemma leaves_optional p s : leaves (length s) (optional p s).
Proof.
  destruct s as [|c s]; [by constructor|]. rewrite optional_cons. destruct (p c); simpl; lia.
Qed.

Lemma consume_skip c s :
  consume c s = match skip is_blank s with
                | d :: s' => if d =c c then Value (true, s') else Value (false, d :: s')
                | [] => Value (false, [])
                end.
Proof.
  unfold consume, mbind, parser_bind. simpl. destruct (skip is_blank s) as [|d s']; [done|].
  by destruct (d =c c).
Qed.

Lemma leaves_consume c s : match consume c s with
  | Value (true, s') => length s' < length s
  | Value (false, s') => length s' <= length s
  | Raise _ => False
  end.
Proof.
  rewrite consume_skip. pose proof (length_skip is_blank s). destruct (skip is_blank s) as [|d s'].
  - simpl. lia.
  - cbn [length] in H. destruct (d =c c); cbn [length]; lia.
Qed.

Lemma leaves_expect c s : leaves (length s - 1) (expect c s).
Proof.
  pose proof (leaves_consume c s) as H. unfold expect, mbind, parser_bind.
  destruct (consume c s) as [[[] s']|x]; [cbn; lia|by left|done].
Qed.

Lemma leaves_some_digits s : leaves (length s - 1) (some_digits s).
Proof.
  destruct s as [|c s]; [by left|]. unfold some_digits, mbind, parser_bind. simpl.
  destruct (is_digit c) eqn:E; [|by left]. simpl. pose proof (length_skip is_digit s). lia.
Qed.

Lemma leaves_string s : forall output, leaves (length s) (string_loop s output).
Proof.
  remember (length s) as n eqn:Hn. assert (Hl : length s <= n) by lia. clear Hn.
  revert s Hl. induction n as [|n IH]; intros s Hl output.
  - destruct s; [by left|simpl in Hl; lia].
  - destruct s as [|c s]; [by left|]. simpl in Hl. cbn [string_loop].
    destruct (c =c "034"); [cbn; lia|]. destruct (code c <? 32)%N; [by left|].
    assert (W : forall t o, length t <= n -> leaves (S n) (string_loop t o)).
    { intros t o Ht. eapply leaves_weaken; [by apply IH|lia]. }
    destruct (negb _); [apply W; lia|]. destruct s as [|e s]; [by left|]. simpl in Hl.
    destruct (e =c "u").
    + destruct s as [|d1 [|d2 [|d3 [|d4 s]]]]; try by left. simpl in Hl.
      destruct (codepoint _ _ _ _); [|by left]. apply W. lia.
    + destruct (simple_escape e); [|by left]. apply W. lia.
Qed.

Lemma leaves_parse_string s : leaves (length s - 1) (parse_string s).
Proof.
  eapply leaves_bind; [apply leaves_expect|]. intros [] s' _ Hs.
  eapply leaves_weaken; [apply leaves_string|lia].
Qed.


Lemma optional_true p s s' : optional p s = Value (true, s') -> length s' < length s.
Proof.
  destruct s as [|c s]; [done|]. rewrite optional_cons. destruct (p c); [|done].
  intros [= <-]. simpl. lia.
Qed.

(** A step that keeps at most [b] characters. *)
Ltac step_leaves := eapply leaves_bind;
  [ first [ apply leaves_optional | apply leaves_expect | apply leaves_skip_ws
          | apply leaves_parse_string | apply leaves_some_digits ]
  | let a := fresh "a" in let t := fresh "t" in let Ht := fresh "Ht" in intros a t ? Ht ].

Lemma leaves_parse_number s : leaves (length s - 1) (parse_number s).
Proof.
  unfold parse_number. change (rest s) with (@Value (bytes * bytes) (s, s)).
  eapply (leaves_bind (length s)); [simpl; lia|]. intros start t0 [= <- <-] _.
  step_leaves. step_leaves. eapply (leaves_bind (length s - 1)).
  { destruct a0.
    - apply optional_true in H0. cbn. lia.
    - eapply leaves_weaken; [apply leaves_some_digits|lia]. }
  intros [] t1 _ Ht1. step_leaves. eapply (leaves_bind (length s - 1)).
  { destruct a1; [eapply leaves_weaken; [apply leaves_some_digits|]; lia|cbn; lia]. }
  intros [] t3 _ Ht3. step_leaves. eapply (leaves_bind (length s - 1)).
  { destruct a2; [|cbn; lia]. step_leaves.
    eapply leaves_weaken; [apply leaves_some_digits|lia]. }
  intros [] t5 _ Ht5. change (rest t5) with (@Value (bytes * bytes) (t5, t5)).
  eapply (leaves_bind (length s - 1)); [simpl; lia|]. intros stop t6 [= <- <-] _.
  destruct (stod _); [simpl; lia|by right].
Qed.

Lemma leaves_consume_le c s : leaves (length s) (consume c s).
Proof. pose proof (leaves_consume c s). destruct (consume c s) as [[[] ?]|]; cbn; [lia|lia|done]. Qed.

(** [m], run on [s], leaves less than [s]. *)
Definition shrinks {A} (s : bytes) (m : attempt (A * bytes)) : Prop :=
  match m with Value (_, s') => length s' < length s | Raise x => json_exception x end.

Lemma leaves_shrinks {A} b (s : bytes) (m : attempt (A * bytes)) : leaves b m -> b < length s -> shrinks s m.
Proof. unfold leaves, shrinks. destruct m as [[a s']|x]; [lia|done]. Qed.

Lemma shrinks_bind {A B} b (s : bytes) (m : parser A) (k : A -> parser B) t :
  leaves b (m t) -> (forall a t', length t' <= b -> shrinks s (k a t')) -> shrinks s ((x ← m; k x) t).
Proof.
  unfold leaves, mbind, parser_bind. destruct (m t) as [[a t']|x]; [|auto]. intros H Hk. by apply Hk.
Qed.

(** One step of a computation that must shrink its text. *)
Ltac step_shrinks := eapply shrinks_bind;
  [ first [ apply leaves_expect | apply leaves_skip_ws | apply leaves_parse_string | apply leaves_consume_le ]
  | let a := fresh "a" in let t := fresh "t" in let Ht := fresh "Ht" in intros a t Ht ].

Definition parses_within (fuel : nat) : Prop :=
  (forall s, 2 * length s < fuel -> shrinks s (parse_value fuel s)) /\
  (forall array s, 2 * length s + 1 < fuel -> shrinks s (array_loop fuel array s)) /\
  (forall object s, 2 * length s + 1 < fuel -> shrinks s (object_loop fuel object s)).

(** What follows an element: the closing bracket, or a comma and the rest of the loop. *)
Lemma shrinks_loop {A} close (done_ : A) (next : parser A) (s t : bytes) :
  length t < length s -> (forall t', length t' <= length t -> shrinks s (next t')) ->
  shrinks s ((closed ← consume close; if closed : bool then mret done_ else _ ← expect ","; next) t).
Proof.
  intros Ht Hn. step_shrinks. destruct a; [cbn; lia|]. step_shrinks. apply Hn. lia.
Qed.

Lemma shrinks_weaken {A} (s t : bytes) (m : attempt (A * bytes)) :
  shrinks t m -> length t <= length s -> shrinks s m.
Proof. unfold shrinks. destruct m as [[a s']|x]; [lia|done]. Qed.

Lemma rest_bind {A} (k : bytes -> parser A) s : (x ← rest; k x) s = k s s.
Proof. done. Qed.

Lemma shrinks_literal {A} w (a : A) otherwise s : nonempty (lit w) = true ->
  shrinks s (otherwise s) -> shrinks s (literal w a otherwise s).
Proof.
  intros Hw H. unfold literal. rewrite rest_bind. destruct (starts_with (lit w) s) eqn:E; [|done].
  apply starts_with_spec, (f_equal length) in E. rewrite length_app in E.
  unfold mbind, parser_bind. simpl. destruct (lit w); [done|]. simpl in *. lia.
Qed.

Lemma parse_value_step fuel : parses_within fuel ->
  forall s, 2 * length s < S fuel -> shrinks s (parse_value (S fuel) s).
Proof.
  intros (IHv & IHa & IHo) s Hs. cbn [parse_value]. step_shrinks. rewrite rest_bind.
  destruct t as [|c t]; [by left|].
  assert (W : forall A (m : attempt (A * bytes)), shrinks (c :: t) m -> shrinks s m).
  { intros A m Hm. eapply shrinks_weaken; [exact Hm|done]. }
  destruct (c =c "034"); [step_shrinks; simpl in *; lia|].
  destruct (c =c "[").
  { step_shrinks. step_shrinks. step_shrinks. cbn [length] in *. destruct a2; [simpl in *; lia|].
    eapply shrinks_weaken; [apply IHa|]; lia. }
  destruct (c =c "{").
  { step_shrinks. step_shrinks. step_shrinks. cbn [length] in *. destruct a2; [simpl in *; lia|].
    eapply shrinks_weaken; [apply IHo|]; lia. }
  apply W. destruct ((c =c "t") || (c =c "f")).
  { do 2 (apply shrinks_literal; [done|]). by left. }
  destruct (c =c "n"); [apply shrinks_literal; [done|by left]|].
  destruct ((c =c "-") || is_digit c); [|by left].
  eapply leaves_shrinks; [apply leaves_parse_number|simpl; lia].
Qed.

Lemma parses_within_all fuel : parses_within fuel.
Proof.
  induction fuel as [|fuel IH]; [repeat split; intros; lia|].
  pose proof (parse_value_step fuel IH) as Hv. destruct IH as (IHv & IHa & IHo).
  split_and!; [exact Hv| |].
  - intros array s Hs. cbn [array_loop].
    assert (H : shrinks s (parse_value fuel s)) by (apply IHv; lia).
    unfold mbind at 1, parser_bind at 1. destruct (parse_value fuel s) as [[v t]|x]; [|exact H].
    apply shrinks_loop; [done|]. intros t' Ht'. simpl in H. eapply shrinks_weaken; [apply IHa; lia|lia].
  - intros object s Hs. cbn [object_loop]. step_shrinks. rewrite rest_bind.
    destruct t as [|c t]; [by left|]. destruct (negb _); [by left|]. cbn [length] in *.
    step_shrinks. cbn [length] in *. step_shrinks.
    assert (H : shrinks t1 (parse_value fuel t1)) by (apply IHv; lia).
    unfold mbind at 1, parser_bind at 1. destruct (parse_value fuel t1) as [[v t2]|x]; [|exact H].
    simpl in H. eapply shrinks_weaken; [apply shrinks_loop; [exact H|]|lia].
    intros t' Ht'. eapply shrinks_weaken; [apply IHo; lia|lia].
Qed.

Lemma parse_ends input :
  match parse input with Value _ => True | Raise x => json_exception x end.
Proof.
  unfold parse. pose proof (length_skip is_blank input) as Hl.
  unfold mbind, parser_bind. change (skip_ws input) with (@Value (unit * bytes) (tt, skip is_blank input)). cbv iota beta.
  destruct (parses_within_all (S (2 * length input))) as (Hv & _ & _).
  specialize (Hv (skip is_blank input) ltac:(lia)).
  destruct (parse_value _ (skip is_blank input)) as [[v t]|x]; [|exact Hv].
  simpl. destruct (skip is_blank t); [done|by left].
Qed.

End Parser.

(** ** What an import does to the jar *)

Section Importing.
Context {D : LibDouble}.
Context (now : Z) (default_origin : bytes).

(** What an entry asks for: the warning it is skipped with, or an origin and a cookie. *)
Definition reading (item : Json) : string + bytes * Cookie :=
  match item with
  | Object _ =>
      match json_string item "name", json_string item "value" with
      | Some name, Some value =>
          let cookie := cookie_of item name value in
          let origin := origin_for_cookie cookie (json_string item "url") default_origin in
          if negb (nonempty name) then inl "skipped cookie missing name or value"%string
          else if nonempty origin then inr (origin, cookie)
          else inl "skipped cookie without domain or URL"%string
      | _, _ => inl "skipped cookie missing name or value"%string
      end
  | _ => inl "skipped non-object cookie entry"%string
  end.

Definition put (item : Json) (j : jar) : jar :=
  match reading item with
  | inr (origin, cookie) =>
      match parse_url origin with Ret u => jar_set now u cookie j | Throw _ => j end
  | inl _ => j
  end.

(** The origin of the entry is not a URL. *)
Definition stops (item : Json) : bool :=
  match reading item with
  | inr (origin, _) => match parse_url origin with Ret _ => false | Throw _ => true end
  | inl _ => false
  end.

Definition is_read (item : Json) : bool := match reading item with inr _ => true | inl _ => false end.

Definition count_entry (r : CookieImportResult) (item : Json) : CookieImportResult :=
  match reading item with
  | inl w => skip_entry w r
  | inr _ => {| imported := imported r + 1; skipped := skipped r; warnings := warnings r |}
  end.

Lemma parse_url_error s e : parse_url s = Throw e -> e = InvalidUrl.
Proof.
  unfold parse_url. destruct (split_scheme s) as [sch r].
  destruct (if starts_with _ r then _ else _) as [a r2]. destruct (starts_with _ r); [|
    destruct (cut_off _ r2) as [[??]?]; simpl; destruct (cut_off _ _) as [[??]?]; done].
  unfold parse_authority. destruct (split_userinfo a) as [ui a2].
  unfold split_host_port. destruct (starts_bracket a2); [destruct (find_if _ a2); [|by intros [= <-]]|];
    simpl; repeat (destruct (cut_off _ _) as [[??]?]; simpl); done.
Qed.

Lemma import_entry_spec r item j :
  import_entry now default_origin r item j =
  if stops item then (Throw InvalidUrl, j) else (Ret (count_entry r item), put item j).
Proof.
  unfold import_entry, stops, count_entry, put, reading. destruct item; try done.
  destruct (json_string _ "name") as [[|x name]|]; [by destruct (json_string _ "value")| |done].
  destruct (json_string _ "value") as [v|]; [|done]. cbv zeta. cbn [nonempty negb].
  destruct (origin_for_cookie _ _ _) as [|y o] eqn:Eo; [done|]. cbn [nonempty].
  destruct (parse_url (y :: o)) as [u|e] eqn:Eu; [done|]. by rewrite (parse_url_error _ _ Eu).
Qed.

Lemma import_loop_spec l r j :
  (Forall (fun x => stops x = false) l /\
   import_loop now default_origin r l j = (Ret (foldl count_entry r l), foldl (fun j x => put x j) j l)) \/
  (exists pre item post, l = pre ++ item :: post /\ Forall (fun x => stops x = false) pre /\
   stops item = true /\
   import_loop now default_origin r l j = (Throw InvalidUrl, foldl (fun j x => put x j) j pre)).
Proof.
  revert r j. induction l as [|x l IH]; intros r j; [left; by split|].
  cbn [import_loop]. unfold mbind, op_bind. rewrite import_entry_spec. destruct (stops x) eqn:E.
  - right. by exists [], x, l.
  - destruct (IH (count_entry r x) (put x j)) as [[H1 ->]|(pre & item & post & -> & H1 & H2 & ->)].
    + left. split; [by constructor|done].
    + right. exists (x :: pre), item, post. split_and!; try done. by constructor.
Qed.

Definition import_warnings : list bytes :=
  map lit ["skipped non-object cookie entry"; "skipped cookie missing name or value";
           "skipped cookie without domain or URL"]%string.

Lemma reading_warning item w : reading item = inl w -> lit w ∈ import_warnings.
Proof.
  unfold reading, import_warnings. destruct item; try (intros [= <-]; simpl; set_solver).
  destruct (json_string _ "name") as [n|]; [|intros [= <-]; simpl; set_solver].
  destruct (json_string _ "value") as [v|]; [|intros [= <-]; simpl; set_solver].
  destruct (negb (nonempty n)); [intros [= <-]; simpl; set_solver|].
  destruct (nonempty _); intros [= <-]; simpl; set_solver.
Qed.

Lemma count_entries_spec l r :
  imported (foldl count_entry r l) = (imported r + N.of_nat (length (List.filter is_read l)))%N /\
  skipped (foldl count_entry r l) =
    (skipped r + N.of_nat (length (List.filter (fun x => negb (is_read x)) l)))%N /\
  exists ws, warnings (foldl count_entry r l) = warnings r ++ ws /\
    length ws = length (List.filter (fun x => negb (is_read x)) l) /\
    Forall (fun w => w ∈ import_warnings) ws.
Proof.
  revert r. induction l as [|x l IH]; intros r; simpl.
  { split_and!; [lia|lia|]. exists []. by rewrite app_nil_r. }
  destruct (IH (count_entry r x)) as (E1 & E2 & ws & E3 & E4 & E5). rewrite E1, E2, E3.
  unfold count_entry. destruct (is_read x) eqn:Ei; unfold is_read in Ei;
    destruct (reading x) as [w|[o c]] eqn:Er; try done; simpl.
  - split_and!; [lia|lia|]. by exists ws.
  - split_and!; [lia|lia|]. exists (lit w :: ws). rewrite <- app_assoc. simpl. split_and!; [done|lia|].
    constructor; [by eapply reading_warning|done].
Qed.

End Importing.

(** Importing an array of entries puts the cookies of the entries into the jar in order,
    up to the first entry whose origin is not a URL; there it throws [InvalidUrl] and leaves
    what the entries before it stored.  If there is none, every entry is counted as imported
    or skipped, each skipped one has one warning, and a warning is one of three fixed texts
    (so none holds a value). *)
Theorem import_exact `{LibDouble} now default_origin l j :
  let '(r, j') := import_cookie_array now l default_origin j in
  exists pre post, l = pre ++ post /\ Forall (fun x => stops default_origin x = false) pre /\
    j' = foldl (fun j x => put now default_origin x j) j pre /\
    match r with
    | Ret r => post = [] /\
        imported r = N.of_nat (length (List.filter (is_read default_origin) l)) /\
        (imported r + skipped r = N.of_nat (length l))%N /\
        skipped r = N.of_nat (length (warnings r)) /\
        Forall (fun w => w ∈ import_warnings) (warnings r)
    | Throw e => e = InvalidUrl /\ exists item rest, post = item :: rest /\ stops default_origin item = true
    end.
Proof.
  unfold import_cookie_array.
  destruct (import_loop_spec now default_origin l {| imported := 0; skipped := 0; warnings := [] |} j)
    as [[H1 ->]|(pre & item & post & -> & H1 & H2 & ->)].
  - exists l, []. rewrite app_nil_r.
    destruct (count_entries_spec default_origin l {| imported := 0; skipped := 0; warnings := [] |})
      as (E1 & E2 & ws & E3 & E4 & E5). rewrite E1, E2, E3. cbn [imported skipped warnings].
    pose proof (List.filter_length (is_read default_origin) l).
    split_and!; try done; rewrite ?N.add_0_l, ?app_nil_l; [lia|by rewrite E4].
  - exists pre, (item :: post). split_and!; try done. by exists item, post.
Qed.

(** A number literal outside the range of a double is the only other way to fail. *)
Lemma import_raises `{LibDouble} now contents default_origin j x j' :
  import_cookies_json now contents default_origin j = (Raise x, j') ->
  x = Error InvalidUrl \/ (json_exception x /\ j' = j).
Proof.
  unfold import_cookies_json. pose proof (parse_ends contents) as Hp.
  destruct (parse contents) as [root|y]; [|intros [= -> ->]; by right].
  destruct (cookie_entries root) as [l|]; [|intros [= <- <-]; right; by split; [left|]].
  unfold import_cookie_array.
  destruct (import_loop_spec now default_origin l {| imported := 0; skipped := 0; warnings := [] |} j)
    as [[_ ->]|(pre & item & post & _ & _ & _ & ->)]; [done|]. intros [= <- _]. by left.
Qed.

(** An import ends on every text.  A text that is not JSON of the two shapes, or that
    spells a number [std::stod] cannot hold, is an error that leaves the jar as it was; the
    only other error is the [InvalidUrl] of an origin. *)
Theorem import_errors `{LibDouble} now contents default_origin j :
  match import_cookies_json now contents default_origin j with
  | (Value r, j') => exists root l, parse contents = Value root /\ cookie_entries root = Some l /\
      import_cookie_array now l default_origin j = (Ret r, j')
  | (Raise (Error e), j') => e = InvalidUrl \/ (e = ParseError /\ j' = j)
  | (Raise StdOutOfRange, j') => parse contents = Raise StdOutOfRange /\ j' = j
  end.
Proof.
  destruct (import_cookies_json now contents default_origin j) as [[r|x] j'] eqn:E.
  - unfold import_cookies_json in E. destruct (parse contents) as [root|]; [|done].
    destruct (cookie_entries root) as [l|] eqn:El; [|done]. exists root, l. split_and!; try done.
    destruct (import_cookie_array _ _ _ _) as [[]?]; by simplify_eq.
  - pose proof (import_raises _ _ _ _ _ _ E) as [-> |[[-> | ->] ->]]; [by left|by right|].
    split; [|done]. unfold import_cookies_json in E. destruct (parse contents) as [root|y]; [|by simplify_eq].
    destruct (cookie_entries root); [|done]. by destruct (import_cookie_array _ _ _ _) as [[]?].
Qed.

(** ** An imported cookie is sent *)

Lemma parse_origin sch h p : sch = lit "http" \/ sch = lit "https" ->
  none (fun c => is_authority_end c || (c =c "@") || (c =c ":")) h = true -> starts_bracket h = false ->
  head_is is_slash p = true -> none (fun c => (c =c "?") || (c =c "#")) p = true ->
  parse_url (sch ++ lit "://" ++ h ++ p) =
  Ret {| scheme := sch; userinfo := []; host := to_lower h; port := []; path := p; query := [];
         fragment := []; has_authority := true; has_query := false; has_fragment := false |}.
Proof.
  intros Hs Hh Hb Hp Hq. unfold parse_url.
  assert (N1 : none is_authority_end h = true).
  { eapply none_impl; [|exact Hh]. intros c. simpl. by intros ->. }
  assert (N2 : none (fun c => c =c "@") h = true).
  { eapply none_impl; [|exact Hh]. intros c. simpl. intros ->. by rewrite orb_true_r. }
  assert (N3 : none (fun c => c =c ":") h = true).
  { eapply none_impl; [|exact Hh]. intros c. simpl. intros ->. by rewrite !orb_true_r. }
  change (lit "://" ++ h ++ p) with (":"%char :: lit "//" ++ h ++ p).
  rewrite split_scheme_app by (destruct Hs as [-> | ->]; reflexivity || done).
  rewrite starts_with_app. change (drop 2 (lit "//" ++ ?t)) with t.
  assert (Hpe : head_is is_authority_end p = true).
  { destruct p as [|c p]; [done|]. simpl in *. unfold is_authority_end. by rewrite Hp. }
  rewrite cut_at_app by done. unfold parse_authority, split_userinfo.
  apply find_if_None in N2. rewrite N2. unfold split_host_port. rewrite Hb, (cut_off_none _ h) by exact N3. simpl.
  rewrite (cut_off_none _ p).
  2:{ eapply none_impl; [|exact Hq]. intros c. simpl. intros ->. apply orb_true_r. }
  rewrite (cut_off_none _ p); [done|]. eapply none_impl; [|exact Hq]. intros c. simpl. by intros ->.
Qed.

Lemma jar_set_stored now u c j : c_name c <> [] -> host u <> [] ->
  to_lower (strip_leading_dot (c_domain c)) = host u -> head_is is_slash (c_path c) = true -> c_path c <> [] ->
  expired now c = false ->
  with_domain (host u) (host_only c) c ∈ jar_set now u c j.
Proof.
  intros Hn Hh Hd Hp Hpn He. unfold jar_set, admit_cookie.
  assert (Hne : nonempty (c_domain c) = true) by (destruct (c_domain c); [by rewrite <- Hd in Hh|done]).
  rewrite Hne. fold (strip_leading_dot (c_domain c)). rewrite Hd.
  assert (nonempty (c_name c) = true /\ nonempty (host u) = true) as [-> ->] by
    (split; [by destruct (c_name c)|by destruct (host u)]).
  assert (domain_matches (with_domain (host u) (host_only c) c) (host u) = true) as ->.
  { apply domain_matches_spec. split; [done|]. by left. }
  cbn [negb orb andb c_path with_domain]. destruct (c_path c) as [|d p] eqn:Ep; [done|].
  cbn in Hp. unfold is_slash in Hp. rewrite Hp.
  assert (expired now (with_domain (host u) (host_only c) c) = false) as -> by exact He.
  apply elem_of_app. right. by apply list_elem_of_singleton.
Qed.

(** A stored cookie is sent to its own host and path. *)
Lemma stored_is_sent now u c j : c ∈ j -> expired now c = false -> host u <> [] ->
  c_domain c = host u -> path u = c_path c -> c_path c <> [] ->
  scheme u = lit "https" \/ secure c = false -> c ∈ jar_get now u j.
Proof.
  intros Hc He Hh Hd Hp Hpn Hs. apply sort_cookies_elem, list_elem_of_In, filter_In.
  split; [by apply list_elem_of_In|]. unfold sent_to. rewrite He, Hp.
  assert (domain_matches c (host u) = true) as ->.
  { apply domain_matches_spec. split; [by rewrite Hd|left; by rewrite Hd]. }
  assert (path_matches c (if nonempty (c_path c) then c_path c else lit "/") = true) as ->.
  { apply path_matches_spec. right. right. exists []. rewrite app_nil_r.
    split; [by destruct (c_path c)|by left]. }
  destruct Hs as [-> | ->]; [by rewrite andb_false_r|done].
Qed.

(** After importing an entry with a name, a value, a domain that is a host name (dots in
    front of it aside), an absolute path and no expiry that has passed, the jar sends the
    cookie with that value on a secure request for that host and path; also on an insecure
    one unless the entry is secure. *)
Theorem imported_cookie_sent `{LibDouble} now default_origin item j name v d p :
  json_string item "name" = Some name -> name <> [] -> json_string item "value" = Some v ->
  json_string item "domain" = Some d -> json_string item "path" = Some p -> json_string item "url" = None ->
  let h := strip_leading_dot d in
  h <> [] -> none (fun c => is_authority_end c || (c =c "@") || (c =c ":")) h = true -> starts_bracket h = false ->
  p <> [] -> head_is is_slash p = true -> none (fun c => (c =c "?") || (c =c "#")) p = true ->
  match expires_from item with Some t => (now < t)%Z | None => True end ->
  exists r j', import_cookie_array now [item] default_origin j = (Ret r, j') /\ imported r = 1%N /\
    forall sch, sch = lit "https" \/ (sch = lit "http" /\ default false (json_bool item "secure") = false) ->
    exists u c, parse_url (sch ++ lit "://" ++ h ++ p) = Ret u /\ c ∈ jar_get now u j' /\
      c_name c = name /\ c_value c = v /\ c_domain c = to_lower h /\ c_path c = p.
Proof.
  intros En Hn Ev Ed Ep Eu h Hh Hc Hb Hpn Hp Hq Hx.
  set (c := cookie_of item name v).
  assert (c_domain c = d /\ c_path c = p /\ secure c = default false (json_bool item "secure") /\
    c_name c = name /\ c_value c = v /\ expires_unix c = expires_from item) as (Fd & Fp & Fs & Fn & Fv & Fx).
  { unfold c, cookie_of. simpl. by rewrite Ed, Ep. }
  set (sch0 := if secure c then lit "https" else lit "http").
  assert (Hr : reading default_origin item = inr (sch0 ++ lit "://" ++ h ++ p, c)).
  { unfold reading. destruct item; try done. rewrite En, Ev, Eu. cbv zeta. fold c.
    assert (nonempty name = true) as -> by (by destruct name). cbn [negb].
    unfold origin_for_cookie. rewrite Fd, Fp.
    assert (nonempty d = true) as -> by (subst h; by destruct d).
    assert (nonempty p = true) as -> by (by destruct p). subst sch0 h. by destruct (secure c). }
  clearbody c.
  assert (Hs0 : sch0 = lit "http" \/ sch0 = lit "https") by (subst sch0; destruct (secure c); auto).
  pose proof (parse_origin sch0 h p Hs0 Hc Hb Hp Hq) as Ho. set (u0 := Build_Url _ _ _ _ _ _ _ _ _ _) in Ho.
  assert (Hex : expired now c = false).
  { unfold expired. rewrite Fx. destruct (expires_from item); [lia|done]. }
  pose proof (jar_set_stored now u0 c j) as Hst.
  rewrite Fn, Fd, Fp in Hst. change (host u0) with (to_lower h) in Hst.
  specialize (Hst Hn ltac:(by destruct h) eq_refl Hp Hpn Hex).
  exists {| imported := 1; skipped := 0; warnings := [] |}, (jar_set now u0 c j). split_and!; [|done|].
  { unfold import_cookie_array, import_loop, mbind, op_bind. rewrite import_entry_spec.
    unfold stops, count_entry, put. by rewrite Hr, Ho. }
  intros sch Hsch. eexists _, (with_domain (to_lower h) (host_only c) c). split; [apply parse_origin; tauto|].
  split_and!; try done.
  apply stored_is_sent; cbn [with_domain c_domain c_path secure host path scheme]; rewrite ?Fp; try done.
  - by destruct h.
  - destruct Hsch as [-> |[-> Hsec]]; [by left|right; by rewrite Fs].
Qed.

Definition sample_entry : Json :=
  Object [(lit "name", String (lit "id")); (lit "value", String (lit "42"));
          (lit "domain", String (lit ".Example.org")); (lit "path", String (lit "/a"));
          (lit "secure", Bool true); (lit "expirationDate", Number 200%Z)].

Lemma imported_cookie_sent_witness :
  exists r j', import_cookie_array 100 [sample_entry] [] [] = (Ret r, j') /\ imported r = 1%N /\
    exists u c, parse_url (lit "https" ++ lit "://" ++ lit "Example.org" ++ lit "/a") = Ret u /\
      c ∈ jar_get 100 u j' /\ c_value c = lit "42".
Proof.
  destruct (imported_cookie_sent 100 [] sample_entry [] (lit "id") (lit "42") (lit ".Example.org") (lit "/a")
    eq_refl ltac:(done) eq_refl eq_refl eq_refl eq_refl ltac:(done) eq_refl eq_refl ltac:(done) eq_refl eq_refl
    ltac:(vm_compute; reflexivity)) as (r & j' & E & Ei & H).
  exists r, j'. split; [exact E|]. split; [exact Ei|].
  destruct (H (lit "https") (or_introl eq_refl)) as (u & c & Hu & Hc & _ & Hv & _). exists u, c.
  split; [exact Hu|]. split; [exact Hc|exact Hv].
Defined.
