(* ===== verification/Json.v ===== *)
(** * JSON values: [flatworm-modules/rpc/src/json.hpp], [json.cpp], [json_parser.cpp],
    [json_encoder.cpp]

    A [Failure] carries one of two statuses, the error codes [InvalidArgument] and
    [ResourceLimit].  A position in a text is the suffix that is left; [peek] at the end
    is the zero byte.  Binary floating point is the interface [Binary64]: the conversions
    of the C++ library and the tests the protocol makes on a number. *)
From S2P Require Import Prelude Html.

Definition max_json_depth : nat := 64.
Definition max_json_values : N := 16384.
Definition max_value_bytes : N := 1024 * 1024.

(** Finite numbers.  [from_chars] answers the number a whole token stands for, or [None]
    (an error, a rest, or an infinite value); [to_chars] is the shortest spelling; [of_integer]
    converts an unsigned integer. *)
Class Binary64 := {
  double : Type;
  from_chars : bytes -> option double;
  to_chars : double -> bytes;
  is_trunc : double -> bool;
  within_safe : double -> bool;
  is_zero : double -> bool;
  zero : double;
  of_integer : N -> double }.

Section Json.
Context {F : Binary64}.

(** The fields of [Json] its kind uses. *)
#[warnings="-register-all"]
Inductive Json :=
  | JNull
  | JBoolean (boolean : bool)
  | JNumber (number : double) (text : bytes)
  | JString (text : bytes)
  | JArray (array : list Json)
  | JObject (object : list (bytes * Json)).

Abbreviation invalid := (Throw InvalidArgument).

(** ** UTF-8 *)

Fixpoint continuation (count : nat) (value : N) (s : bytes) : result (N * bytes) :=
  match count with
  | O => Ret (value, s)
  | S count' =>
      match s with
      | [] => invalid
      | next :: r =>
          if negb (N.land (code next) 0xc0 =? 0x80)%N then invalid
          else continuation count' (N.lor (N.shiftl value 6) (N.land (code next) 0x3f)) r
      end
  end.

(** The range checks behind the bytes of a sequence. *)
Definition scalar_checked (minimum : N) (x : N * bytes) : result (N * bytes) :=
  (if (x.1 <? minimum) || (0x10ffff <? x.1) || ((0xd800 <=? x.1) && (x.1 <=? 0xdfff)) then invalid
   else Ret x)%N.

(** Called on a non-empty suffix only. *)
Definition utf8_scalar (s : bytes) : result (N * bytes) :=
  match s with
  | [] => Throw Internal
  | c :: r =>
      let first := code c in
      (if first <? 0x80 then Ret (first, r)
       else if (0xc2 <=? first) && (first <=? 0xdf) then
         x ← continuation 1 (N.land first 0x1f) r; scalar_checked 0x80 x
       else if (0xe0 <=? first) && (first <=? 0xef) then
         x ← continuation 2 (N.land first 0x0f) r; scalar_checked 0x800 x
       else if (0xf0 <=? first) && (first <=? 0xf4) then
         x ← continuation 3 (N.land first 0x07) r; scalar_checked 0x10000 x
       else invalid)%N
  end.

Fixpoint validate_loop (fuel : nat) (s : bytes) : result unit :=
  match s, fuel with
  | [], _ => Ret tt
  | _, O => Throw Internal
  | _, S fuel' => '(_, r) ← utf8_scalar s; validate_loop fuel' r
  end.

Definition validate_utf8 (s : bytes) : result unit := validate_loop (length s) s.

Definition append_scalar (value : N) : bytes :=
  (if value <? 0x80 then [byte value]
   else if value <? 0x800 then
     [byte (N.lor 0xc0 (N.shiftr value 6)); byte (N.lor 0x80 (N.land value 0x3f))]
   else if value <? 0x10000 then
     [byte (N.lor 0xe0 (N.shiftr value 12)); byte (N.lor 0x80 (N.land (N.shiftr value 6) 0x3f));
      byte (N.lor 0x80 (N.land value 0x3f))]
   else
     [byte (N.lor 0xf0 (N.shiftr value 18)); byte (N.lor 0x80 (N.land (N.shiftr value 12) 0x3f));
      byte (N.lor 0x80 (N.land (N.shiftr value 6) 0x3f)); byte (N.lor 0x80 (N.land value 0x3f))])%N.

(** ** Values *)

Definition boolean_value (value : bool) : Json := JBoolean value.
Definition number_value (value : double) : Json := JNumber value (to_chars value).

Definition parsed_number (token : bytes) : result Json :=
  match from_chars token with
  | Some number => Ret (JNumber number token)
  | None => invalid
  end.

Definition string_value (value : bytes) : result Json := _ ← validate_utf8 value; Ret (JString value).

Fixpoint find_member (key : bytes) (l : list (bytes * Json)) : option Json :=
  match l with
  | [] => None
  | (name, value) :: l' => if name =s key then Some value else find_member key l'
  end.

Definition json_find (key : bytes) (v : Json) : option Json :=
  match v with JObject l => find_member key l | _ => None end.

(** [put] of an object. *)
Definition json_put (key : bytes) (value : Json) (v : Json) : Json :=
  match v with JObject l => JObject (l ++ [(key, value)]) | _ => v end.

(** ** Parser *)

Definition peek (s : bytes) : ascii := match s with c :: _ => c | [] => byte 0 end.

Definition json_space (c : ascii) : bool := (c =c " ") || (c =c byte 9) || (c =c byte 13) || (c =c byte 10).
Definition whitespace (s : bytes) : bytes := skip json_space s.

(** [take], and the test of what it answers. *)
Definition expect_char (c : ascii) (s : bytes) : result bytes :=
  match s with d :: r => if d =c c then Ret r else invalid | [] => invalid end.

Definition literal (word s : bytes) : result bytes :=
  if starts_with word s then Ret (drop (length word) s) else invalid.

Fixpoint hex_loop (n : nat) (value : N) (s : bytes) : result (N * bytes) :=
  match n with
  | O => Ret (value, s)
  | S n' =>
      match s with
      | [] => invalid
      | c :: r =>
          let part := digit_value c in
          if (part <? 16)%N then hex_loop n' (N.lor (N.shiftl value 4) part) r else invalid
      end
  end.

Definition hex4 (s : bytes) : result (N * bytes) := hex_loop 4 0 s.

Definition unicode_escape (s : bytes) : result (bytes * bytes) :=
  '(value, r) ← hex4 s;
  (if (0xd800 <=? value) && (value <=? 0xdbff) then
     r1 ← expect_char backslash r;
     r2 ← expect_char "u" r1;
     '(low, r3) ← hex4 r2;
     if (low <? 0xdc00) || (0xdfff <? low) then invalid
     else Ret (append_scalar (0x10000 + N.shiftl (value - 0xd800) 10 + (low - 0xdc00)), r3)
   else if (0xdc00 <=? value) && (value <=? 0xdfff) then invalid
   else Ret (append_scalar value, r))%N.

(** Behind a backslash. *)
Definition json_escape (s : bytes) : result (bytes * bytes) :=
  match s with
  | [] => invalid
  | e :: r =>
      if e =c dquote then Ret ([dquote], r)
      else if e =c backslash then Ret ([backslash], r)
      else if e =c "/" then Ret (lit "/", r)
      else if e =c "b" then Ret ([byte 8], r)
      else if e =c "f" then Ret ([byte 12], r)
      else if e =c "n" then Ret ([byte 10], r)
      else if e =c "r" then Ret ([byte 13], r)
      else if e =c "t" then Ret ([byte 9], r)
      else if e =c "u" then unicode_escape r
      else invalid
  end.

(** One turn of the loop of [string] at the byte [c]: what it appends, and what is left. *)
Definition string_piece (c : ascii) (r : bytes) : result (bytes * bytes) :=
  if (code c <? 0x20)%N then invalid
  else if (0x80 <=? code c)%N then
    '(_, k) ← utf8_scalar (c :: r); Ret (take (length (c :: r) - length k) (c :: r), k)
  else if negb (c =c backslash) then Ret ([c], r)
  else json_escape r.

(** The loop up to the closing quote; a turn takes a byte at least. *)
Fixpoint string_loop (fuel : nat) (s : bytes) : result (bytes * bytes) :=
  match fuel, s with
  | O, _ => Throw Internal
  | S _, [] => invalid
  | S fuel', c :: r =>
      if c =c dquote then Ret ([], r)
      else
        '(piece, k) ← string_piece c r;
        '(out, e) ← string_loop fuel' k;
        Ret (piece ++ out, e)
  end.

Definition read_string (s : bytes) : result (bytes * bytes) :=
  r ← expect_char dquote s; string_loop (S (length r)) r.

Definition digits_required (s : bytes) : result bytes :=
  if is_digit (peek s) then Ret (skip is_digit s) else invalid.

(** What is left behind a number. *)
Definition number_end (s : bytes) : result bytes :=
  let s1 := if peek s =c "-" then tail s else s in
  s2 ← (if peek s1 =c "0" then Ret (tail s1)
        else if in_range 49 57 (peek s1) then Ret (skip is_digit s1) else invalid);
  s3 ← (if peek s2 =c "." then digits_required (tail s2) else Ret s2);
  if (peek s3 =c "e") || (peek s3 =c "E") then
    let s4 := tail s3 in
    digits_required (if (peek s4 =c "+") || (peek s4 =c "-") then tail s4 else s4)
  else Ret s3.

Definition read_number (s : bytes) : result (Json * bytes) :=
  r ← number_end s;
  v ← parsed_number (take (length s - length r) s);
  Ret (v, r).

Section Loops.
(** The recursive call, one level deeper; [n] counts the values. *)
Variable read : bytes -> N -> result (Json * bytes * N).

Fixpoint array_loop (fuel : nat) (s : bytes) (n : N) : result (list Json * bytes * N) :=
  match fuel with
  | O => Throw Internal
  | S fuel' =>
      '(v, s1, n1) ← read s n;
      match whitespace s1 with
      | [] => invalid
      | c :: r =>
          if c =c "]" then Ret ([v], r, n1)
          else if negb (c =c ",") then invalid
          else '(l, e, n2) ← array_loop fuel' r n1; Ret (v :: l, e, n2)
      end
  end.

Fixpoint object_loop (fuel : nat) (names : gset bytes) (s : bytes) (n : N)
  : result (list (bytes * Json) * bytes * N) :=
  match fuel with
  | O => Throw Internal
  | S fuel' =>
      '(key, s1) ← read_string (whitespace s);
      _ ← throw_if (bool_decide (key ∈ names)) InvalidArgument;
      s2 ← expect_char ":" (whitespace s1);
      '(v, s3, n1) ← read s2 n;
      match whitespace s3 with
      | [] => invalid
      | c :: r =>
          if c =c "}" then Ret ([(key, v)], r, n1)
          else if negb (c =c ",") then invalid
          else '(l, e, n2) ← object_loop fuel' ({[key]} ∪ names) r n1; Ret ((key, v) :: l, e, n2)
      end
  end.

End Loops.

(** [levels] is the number of depths left, [max_json_depth + 1 - depth]. *)
Fixpoint read_value (levels : nat) (s : bytes) (n : N) : result (Json * bytes * N) :=
  match levels with
  | O => Throw ResourceLimit
  | S levels' =>
      let n := (n + 1)%N in
      _ ← throw_if (max_json_values <? n)%N ResourceLimit;
      let s := whitespace s in
      if peek s =c "n" then r ← literal (lit "null") s; Ret (JNull, r, n)
      else if peek s =c "t" then r ← literal (lit "true") s; Ret (boolean_value true, r, n)
      else if peek s =c "f" then r ← literal (lit "false") s; Ret (boolean_value false, r, n)
      else if peek s =c dquote then
        '(text, r) ← read_string s; v ← string_value text; Ret (v, r, n)
      else if peek s =c "[" then
        let r := whitespace (tail s) in
        if peek r =c "]" then Ret (JArray [], tail r, n)
        else '(l, e, n') ← array_loop (read_value levels') (S (length r)) r n; Ret (JArray l, e, n')
      else if peek s =c "{" then
        let r := whitespace (tail s) in
        if peek r =c "}" then Ret (JObject [], tail r, n)
        else '(l, e, n') ← object_loop (read_value levels') (S (length r)) ∅ r n; Ret (JObject l, e, n')
      else '(v, r) ← read_number s; Ret (v, r, n)
  end.

Definition parse_json (source : bytes) : result Json :=
  _ ← throw_if (max_value_bytes <? N.of_nat (length source))%N ResourceLimit;
  '(value, r, _) ← read_value (S max_json_depth) source 0;
  match whitespace r with [] => Ret value | _ => invalid end.

(** ** Encoder *)

Record Encoder := { output_ : bytes; values_ : N }.

Definition append (s : bytes) (st : Encoder) : result Encoder :=
  _ ← throw_if (size_sub max_value_bytes (N.of_nat (length (output_ st))) <? N.of_nat (length s))%N ResourceLimit;
  Ret {| output_ := output_ st ++ s; values_ := values_ st |}.

Definition json_hex (n : N) : ascii := if (n <? 10)%N then byte (48 + n) else byte (87 + n).

Definition quoted_char (c : ascii) : bytes :=
  if c =c dquote then [backslash; dquote]
  else if c =c backslash then [backslash; backslash]
  else if (code c <? 0x20)%N then
    [backslash; "u"%char; "0"%char; "0"%char; json_hex (N.shiftr (code c) 4); json_hex (N.land (code c) 15)]
  else [c].

Fixpoint append_all (l : list bytes) (st : Encoder) : result Encoder :=
  match l with [] => Ret st | s :: l' => st' ← append s st; append_all l' st' end.

Definition quoted (text : bytes) (st : Encoder) : result Encoder :=
  _ ← validate_utf8 text;
  st1 ← append [dquote] st;
  st2 ← append_all (quoted_char <$> text) st1;
  append [dquote] st2.

(** The items of an array or an object, with commas between them. *)
Definition write_list {A} (item : A -> Encoder -> result Encoder) : bool -> list A -> Encoder -> result Encoder :=
  fix go (first : bool) (l : list A) (st : Encoder) : result Encoder :=
    match l with
    | [] => Ret st
    | x :: l' =>
        st1 ← (if first then Ret st else append (lit ",") st);
        st2 ← item x st1;
        go false l' st2
    end.

Fixpoint write (v : Json) (depth : nat) (st : Encoder) {struct v} : result Encoder :=
  _ ← throw_if ((max_json_depth <? depth)%nat || (max_json_values <? values_ st + 1)%N) ResourceLimit;
  let st := {| output_ := output_ st; values_ := values_ st + 1 |} in
  match v with
  | JNull => append (lit "null") st
  | JBoolean b => append (if b then lit "true" else lit "false") st
  | JNumber _ text => append text st
  | JString text => quoted text st
  | JArray l =>
      st1 ← append (lit "[") st;
      st2 ← write_list (fun x => write x (S depth)) true l st1;
      append (lit "]") st2
  | JObject l =>
      st1 ← append (lit "{") st;
      st2 ← write_list (fun '(key, x) st => st1 ← quoted key st; st2 ← append (lit ":") st1; write x (S depth) st2)
              true l st1;
      append (lit "}") st2
  end.

Definition encode_json (v : Json) : result bytes :=
  st ← write v 0 {| output_ := []; values_ := 0 |}; Ret (output_ st).

End Json.

(** ** UTF-8: what is read, and what is written *)

Lemma skip_app_stop p a k : head_is (fun c => negb (p c)) k = true -> skip p (a ++ k) = skip p a ++ k.
Proof.
  intros Hk. induction a as [|c a IH]; cbn [app skip].
  - destruct k as [|c k]; [done|]. apply skip_stop. by apply negb_true_iff in Hk.
  - by destruct (p c).
Qed.

Lemma continuation_spec count value s v r :
  continuation count value s = Ret (v, r) ->
  exists chunk, s = chunk ++ r /\ Forall (fun c => (0x80 <= code c)%N) chunk /\
    forall k, continuation count value (chunk ++ k) = Ret (v, k).
Proof.
  revert value s. induction count as [|count IH]; intros value s; cbn [continuation].
  - intros [= <- <-]. exists []. done.
  - destruct s as [|next s]; [done|]. destruct (N.land (code next) 0xc0 =? 0x80)%N eqn:E; [|done].
    cbn [negb]. intros (chunk & -> & Hc & H)%IH. exists (next :: chunk). split; [done|]. split.
    + constructor; [|done]. revert E. clear. by_ascii next.
    + intros k. cbn [app continuation]. rewrite E. apply H.
Qed.

Lemma scalar_checked_Ret m x y : scalar_checked m x = Ret y -> y = x.
Proof. unfold scalar_checked. destruct (_ || _); [done|]. by intros [= <-]. Qed.

Lemma checked_spec count m value c r v s' :
  (0x80 <= code c)%N ->
  (x ← continuation count value r; scalar_checked m x) = Ret (v, s') ->
  exists chunk, c :: r = chunk ++ s' /\ chunk <> [] /\ Forall (fun c => (0x80 <= code c)%N) chunk /\
    exists t, chunk = c :: t /\ forall k, (x ← continuation count value (t ++ k); scalar_checked m x) = Ret (v, k).
Proof.
  intros Hc. destruct (continuation count value r) as [[v' r']|] eqn:E; [|done]. cbn [mbind result_bind].
  intros H. pose proof (scalar_checked_Ret _ _ _ H) as [= <- <-].
  apply continuation_spec in E as (t & -> & Ht & Hk). exists (c :: t). split; [done|]. split; [done|].
  split; [by constructor|]. exists t. split; [done|]. intros k. rewrite Hk. cbn [mbind result_bind].
  revert H. unfold scalar_checked. cbn [fst]. destruct (_ || _); [done|done].
Qed.

(** A sequence is read by its own bytes, whatever is behind it; it is one byte below 128
    or bytes from 128 on. *)
Lemma utf8_scalar_spec s v r :
  utf8_scalar s = Ret (v, r) ->
  exists chunk, s = chunk ++ r /\ chunk <> [] /\
    ((exists c, chunk = [c] /\ (code c < 0x80)%N) \/ Forall (fun c => (0x80 <= code c)%N) chunk) /\
    forall k, utf8_scalar (chunk ++ k) = Ret (v, k).
Proof.
  destruct s as [|c s]; [done|]. cbn [utf8_scalar]. destruct (N.ltb_spec (code c) 0x80) as [H|H].
  { intros [= <- <-]. exists [c]. split; [done|]. split; [done|]. split; [left; eauto|]. intros k.
    cbn [app utf8_scalar]. by rewrite (proj2 (N.ltb_lt _ _) H). }
  assert (Hk : forall t k, utf8_scalar ((c :: t) ++ k) = utf8_scalar (c :: t ++ k)) by done.
  destruct (_ && _) eqn:E1; [|destruct ((0xe0 <=? _)%N && _) eqn:E2; [|destruct ((0xf0 <=? _)%N && _) eqn:E3; [|done]]];
    intros Hx; apply (checked_spec _ _ _ c) in Hx as (chunk & H1 & H2 & H3 & t & -> & H4); try done;
    (exists (c :: t); split; [done|]; split; [done|]; split; [by right|]; intros k;
     cbn [app utf8_scalar]; rewrite (proj2 (N.ltb_ge _ _) H), ?E1, ?E2, ?E3; apply H4).
Qed.

Lemma utf8_scalar_length s v r : utf8_scalar s = Ret (v, r) -> length r < length s.
Proof.
  intros (chunk & -> & H & _)%utf8_scalar_spec. rewrite length_app. destruct chunk; [done|]. simpl. lia.
Qed.

Lemma validate_fuel f1 f2 s : length s <= f1 -> length s <= f2 -> validate_loop f1 s = validate_loop f2 s.
Proof.
  revert f2 s. induction f1 as [|f1 IH]; intros f2 s H1 H2.
  { destruct s; [|simpl in H1; lia]. by destruct f2. }
  destruct s as [|c s]; [by destruct f2|]. destruct f2 as [|f2]; [simpl in H2; lia|]. cbn [validate_loop].
  destruct (utf8_scalar (c :: s)) as [[v r]|] eqn:E; [|done]. cbn [mbind result_bind].
  apply utf8_scalar_length in E. simpl in *. apply IH; lia.
Qed.

Lemma validate_cons s v r : utf8_scalar s = Ret (v, r) -> validate_utf8 s = validate_utf8 r.
Proof.
  intros H. pose proof (utf8_scalar_length _ _ _ H) as Hl. unfold validate_utf8.
  destruct s as [|c s]; [done|]. cbn [validate_loop length]. rewrite H. cbn [mbind result_bind].
  apply validate_fuel; simpl in *; lia.
Qed.

(** Induction over the sequences of a valid text. *)
Lemma utf8_ind (P : bytes -> Prop) :
  P [] ->
  (forall s v r, utf8_scalar s = Ret (v, r) -> validate_utf8 r = Ret tt -> P r -> P s) ->
  forall s, validate_utf8 s = Ret tt -> P s.
Proof.
  intros H0 H s. assert (Hn : forall n s, length s <= n -> validate_utf8 s = Ret tt -> P s); [|by eapply Hn].
  clear s. induction n as [|n IH]; intros [|c s] Hl Hv; try done; [simpl in Hl; lia|].
  destruct (utf8_scalar (c :: s)) as [[v r]|] eqn:E.
  - pose proof (utf8_scalar_length _ _ _ E) as Hr. rewrite (validate_cons _ _ _ E) in Hv.
    eapply H; [exact E|exact Hv|]. apply IH; [simpl in *; lia|done].
  - unfold validate_utf8 in Hv. cbn [validate_loop length] in Hv. by rewrite E in Hv.
Qed.

Lemma validate_app a b : validate_utf8 a = Ret tt -> validate_utf8 (a ++ b) = validate_utf8 b.
Proof.
  revert a. apply (utf8_ind (fun a => validate_utf8 (a ++ b) = validate_utf8 b)); [done|].
  intros s v r H _ IH. apply utf8_scalar_spec in H as (chunk & -> & _ & _ & Hk).
  rewrite <- app_assoc. by rewrite (validate_cons _ _ _ (Hk (r ++ b))).
Qed.

Lemma validate_errors s : validate_utf8 s = Ret tt \/ validate_utf8 s = Throw InvalidArgument.
Proof.
  assert (He : forall s e, s <> [] -> utf8_scalar s = Throw e -> e = InvalidArgument).
  { intros [|c t] e; [done|]. intros _. cbn [utf8_scalar].
    assert (Hc : forall n v s e, continuation n v s = Throw e -> e = InvalidArgument).
    { induction n as [|n IH]; intros v u e'; [done|]. cbn [continuation]. destruct u as [|next u]; [by intros [= <-]|].
      destruct (negb _); [by intros [= <-]|]. apply IH. }
    assert (Hx : forall n v m, (x ← continuation n v t; scalar_checked m x) = Throw e -> e = InvalidArgument).
    { intros n v m. destruct (continuation n v t) as [x|e'] eqn:E; cbn [mbind result_bind].
      - unfold scalar_checked. destruct (_ || _); [by intros [= <-]|done].
      - intros [= <-]. by eapply Hc. }
    destruct (_ <? _)%N; [done|]. destruct (_ && _); [apply Hx|]. destruct (_ && _); [apply Hx|].
    destruct (_ && _); [apply Hx|]. by intros [= <-]. }
  assert (Hn : forall n s, length s <= n -> validate_utf8 s = Ret tt \/ validate_utf8 s = Throw InvalidArgument); [|by eapply Hn].
  clear s. induction n as [|n IH]; intros [|c s] Hl; [by left|simpl in Hl; lia|by left|].
  destruct (utf8_scalar (c :: s)) as [[v r]|e] eqn:E.
  - pose proof (utf8_scalar_length _ _ _ E). rewrite (validate_cons _ _ _ E). apply IH. simpl in *. lia.
  - right. unfold validate_utf8. cbn [validate_loop length]. rewrite E. cbn. by rewrite (He (c :: s) e ltac:(done) E).
Qed.

(** ** Strings *)

Lemma hex_loop_length n value s v r : hex_loop n value s = Ret (v, r) -> length r <= length s.
Proof.
  revert value s. induction n as [|n IH]; intros value s; cbn [hex_loop]; [by intros [= _ <-]|].
  destruct s as [|c s]; [done|]. destruct (_ <? 16)%N; [|done]. intros H%IH. simpl. lia.
Qed.

Lemma expect_char_length c s r : expect_char c s = Ret r -> length s = S (length r).
Proof. unfold expect_char. destruct s as [|d s]; [done|]. destruct (d =c c); [|done]. by intros [= <-]. Qed.

Lemma json_escape_length s p k : json_escape s = Ret (p, k) -> length k <= length s.
Proof.
  unfold json_escape. destruct s as [|e r]; [done|]. cbn [length].
  do 8 (destruct (e =c _); [intros [= _ <-]; lia|]). destruct (e =c "u"); [|done]. unfold unicode_escape, hex4.
  destruct (hex_loop 4 0 r) as [[v r1]|] eqn:E1; [|done]. cbn [mbind result_bind].
  apply hex_loop_length in E1. destruct (_ && _).
  - destruct (expect_char backslash r1) as [r2|] eqn:E2; [|done]. cbn [mbind result_bind].
    destruct (expect_char "u" r2) as [r3|] eqn:E3; [|done]. cbn [mbind result_bind].
    destruct (hex_loop 4 0 r3) as [[low r4]|] eqn:E4; [|done]. cbn [mbind result_bind].
    destruct (_ || _); [done|]. intros [= _ <-].
    apply expect_char_length in E2, E3. apply hex_loop_length in E4. lia.
  - destruct (_ && _); [done|]. intros [= _ <-]. lia.
Qed.

Lemma string_piece_length c r p k : string_piece c r = Ret (p, k) -> length k <= length r.
Proof.
  unfold string_piece. destruct (_ <? _)%N; [done|]. destruct (_ <=? _)%N.
  - destruct (utf8_scalar (c :: r)) as [[v k']|] eqn:E; [|done]. cbn [mbind result_bind]. intros [= _ <-].
    apply utf8_scalar_length in E. simpl in E. lia.
  - destruct (negb _); [by intros [= _ <-]|]. apply json_escape_length.
Qed.

Lemma string_fuel f1 f2 s : length s < f1 -> length s < f2 -> string_loop f1 s = string_loop f2 s.
Proof.
  revert f2 s. induction f1 as [|f1 IH]; intros f2 s H1 H2; [lia|]. destruct f2 as [|f2]; [lia|].
  destruct s as [|c r]; [done|]. cbn [string_loop length] in *. destruct (c =c dquote); [done|].
  destruct (string_piece c r) as [[p k]|] eqn:E; [|done]. cbn [mbind result_bind].
  apply string_piece_length in E. by rewrite (IH f2) by lia.
Qed.

Definition string_text (s : bytes) : result (bytes * bytes) := string_loop (S (length s)) s.

Lemma string_text_cons c r p k :
  (c =c dquote) = false -> string_piece c r = Ret (p, k) ->
  string_text (c :: r) = ('(out, e) ← string_text k; Ret (p ++ out, e)).
Proof.
  intros Hc H. unfold string_text. change (length (c :: r)) with (S (length r)).
  change (string_loop (S (S (length r))) (c :: r)) with
    (if c =c dquote then Ret ([], r)
     else '(piece, k) ← string_piece c r; '(out, e) ← string_loop (S (length r)) k; Ret (piece ++ out, e)).
  rewrite Hc, H. cbn [mbind result_bind]. apply string_piece_length in H.
  by rewrite (string_fuel (S (length r)) (S (length k))) by lia.
Qed.

Lemma quoted_char_low c :
  (code c < 0x80)%N ->
  exists d t, quoted_char c = d :: t /\ (d =c dquote) = false /\ forall k, string_piece d (t ++ k) = Ret ([c], k).
Proof.
  intros Hc. assert (H : (code c <? 0x80)%N = true) by (by apply N.ltb_lt). clear Hc. revert H.
  ascii_cases c; try (intros H; vm_compute in H; discriminate H); intros _;
    (eexists _, _; split; [reflexivity|]; split; [reflexivity|]; intros k; reflexivity).
Qed.

Lemma quoted_char_high c : (0x80 <= code c)%N -> quoted_char c = [c].
Proof.
  intros Hc. unfold quoted_char. destruct (c =c dquote) eqn:E1; [apply eqc_true in E1 as ->; done|].
  destruct (c =c backslash) eqn:E2; [apply eqc_true in E2 as ->; done|].
  by rewrite (proj2 (N.ltb_ge _ _)) by lia.
Qed.

Lemma quoted_high l : Forall (fun c => (0x80 <= code c)%N) l -> mjoin (quoted_char <$> l) = l.
Proof.
  induction 1 as [|c l Hc _ IH]; [done|]. by rewrite mjoin_fmap_cons, quoted_char_high, IH.
Qed.

Lemma quoted_app a b : mjoin (quoted_char <$> (a ++ b)) = mjoin (quoted_char <$> a) ++ mjoin (quoted_char <$> b).
Proof. by rewrite fmap_app, join_app. Qed.

Lemma string_text_quoted t k :
  validate_utf8 t = Ret tt -> string_text (mjoin (quoted_char <$> t) ++ dquote :: k) = Ret (t, k).
Proof.
  revert t. apply (utf8_ind (fun t => string_text (mjoin (quoted_char <$> t) ++ dquote :: k) = Ret (t, k))).
  { done. }
  intros s v r H _ IH. apply utf8_scalar_spec in H as (chunk & -> & Hne & Hc & Hk).
  rewrite quoted_app, <- app_assoc. destruct Hc as [(c & -> & Hc)|Hc].
  - rewrite mjoin_fmap_cons. cbn [fmap list_fmap mjoin list_join]. rewrite app_nil_r.
    destruct (quoted_char_low c Hc) as (d & t & -> & Hd & Hp). cbn [app].
    rewrite (string_text_cons d _ [c] (mjoin (quoted_char <$> r) ++ dquote :: k)) by (done || apply Hp).
    by rewrite IH.
  - rewrite quoted_high by done. destruct chunk as [|c chunk]; [done|]. cbn [app].
    inversion Hc as [|? ? Hc1 _]; subst.
    rewrite (string_text_cons c _ (c :: chunk) (mjoin (quoted_char <$> r) ++ dquote :: k)).
    + by rewrite IH.
    + destruct (c =c dquote) eqn:E; [apply eqc_true in E as ->; done|done].
    + unfold string_piece. rewrite (proj2 (N.ltb_ge _ _)) by lia. rewrite (proj2 (N.leb_le _ _)) by lia.
      rewrite app_comm_cons, Hk. cbn [mbind result_bind]. do 2 f_equal.
      rewrite length_app, Nat.add_sub. apply take_app_length.
Qed.

(** A test of all numbers below a bound, by evaluation. *)
Lemma low_check (p : N -> bool) k : forallb (fun x => p (N.of_nat x)) (seq 0 (N.to_nat k)) = true ->
  forall x, (x < k)%N -> p x = true.
Proof.
  intros H x Hx. rewrite forallb_forall in H. specialize (H (N.to_nat x)).
  rewrite N2Nat.id in H. apply H, in_seq. lia.
Qed.

Lemma continuation_step count value m k :
  (m < 64)%N -> continuation (S count) value (byte (0x80 + m) :: k) = continuation count (value * 64 + m) k.
Proof.
  intros Hm. cbn [continuation].
  assert (H : (N.land (0x80 + m) 0xc0 =? 0x80)%N && (N.land (0x80 + m) 0x3f =? m)%N = true).
  { revert m Hm. by apply (low_check (fun m => (N.land (0x80 + m) 0xc0 =? 0x80)%N && (N.land (0x80 + m) 0x3f =? m)%N)). }
  apply andb_prop in H as [H1 H2%N.eqb_eq]. rewrite code_byte by lia. rewrite H1, H2. cbn [negb].
  by rewrite lor_shiftl.
Qed.

Ltac n_tests := repeat match goal with
  | |- context [(?a <=? ?b)%N] => first [rewrite (proj2 (N.leb_le a b)) by lia|rewrite (proj2 (N.leb_gt a b)) by lia]
  | |- context [(?a <? ?b)%N] => first [rewrite (proj2 (N.ltb_lt a b)) by lia|rewrite (proj2 (N.ltb_ge a b)) by lia]
  end; cbn [andb orb negb].

Lemma land_check base mask n :
  forallb (fun x => N.land (base + N.of_nat x) mask =? N.of_nat x)%N (seq 0 (N.to_nat n)) = true ->
  forall a, (a < n)%N -> N.land (base + a) mask = a.
Proof. intros H a Ha. apply N.eqb_eq. revert a Ha. by apply (low_check (fun a => N.land (base + a) mask =? a)%N). Qed.

Lemma scalar_cases v k :
  (v < 0xd800 \/ 0xe000 <= v <= 0x10ffff)%N -> utf8_scalar (append_scalar v ++ k) = Ret (v, k).
Proof.
  intros Hv. unfold append_scalar.
  pose proof (N.div_mod v 64 ltac:(done)) as D1. pose proof (N.mod_lt v 64 ltac:(done)) as M1.
  pose proof (N.div_mod (v / 64) 64 ltac:(done)) as D2. pose proof (N.mod_lt (v / 64) 64 ltac:(done)) as M2.
  pose proof (N.div_mod (v / 4096) 64 ltac:(done)) as D3. pose proof (N.mod_lt (v / 4096) 64 ltac:(done)) as M3.
  assert (v / 64 / 64 = v / 4096)%N as Q1 by (by rewrite N.Div0.div_div).
  assert (v / 4096 / 64 = v / 262144)%N as Q2 by (by rewrite N.Div0.div_div).
  rewrite Q1 in D2. rewrite Q2 in D3.
  change 0x3f%N with 63%N. rewrite !lor_cont, !shiftr_div. change (2 ^ 6)%N with 64%N. change (2 ^ 12)%N with 4096%N.
  change (2 ^ 18)%N with 262144%N. clear Q1 Q2. revert D1 M1 D2 M2 D3 M3.
  generalize ((v / 4096) mod 64)%N as m3, ((v / 64) mod 64)%N as m2, (v mod 64)%N as m1.
  generalize (v / 262144)%N as q3, (v / 4096)%N as q2, (v / 64)%N as q1.
  intros q3 q2 q1 m3 m2 m1 D1 M1 D2 M2 D3 M3.
  destruct (N.ltb_spec v 0x80).
  { cbn [app utf8_scalar]. rewrite code_byte by lia. by n_tests. }
  destruct (N.ltb_spec v 0x800).
  { rewrite lor_lead2 by lia. cbn [app utf8_scalar]. rewrite code_byte by lia. n_tests.
    rewrite (land_check 0xc0 0x1f 32) by (done || lia).
    rewrite continuation_step by done. cbn [continuation mbind result_bind]. unfold scalar_checked. cbn [fst].
    n_tests. do 2 f_equal. lia. }
  destruct (N.ltb_spec v 0x10000).
  { rewrite lor_lead3 by lia. cbn [app utf8_scalar]. rewrite code_byte by lia. n_tests.
    rewrite (land_check 0xe0 0x0f 16) by (done || lia).
    rewrite !continuation_step by done. cbn [continuation mbind result_bind]. unfold scalar_checked. cbn [fst].
    destruct (N.leb_spec 0xd800 (((q2 * 64 + m2) * 64) + m1)); n_tests; do 2 f_equal; lia. }
  rewrite lor_lead4 by lia. cbn [app utf8_scalar]. rewrite code_byte by lia. n_tests.
  rewrite (land_check 0xf0 0x07 8) by (done || lia).
  rewrite !continuation_step by done. cbn [continuation mbind result_bind]. unfold scalar_checked. cbn [fst].
  n_tests. do 2 f_equal. lia.
Qed.

(** What was read is valid UTF-8. *)
Lemma append_scalar_valid v : (v < 0xd800 \/ 0xe000 <= v <= 0x10ffff)%N -> validate_utf8 (append_scalar v) = Ret tt.
Proof.
  intros Hv. pose proof (scalar_cases v [] Hv) as H. rewrite app_nil_r in H. by rewrite (validate_cons _ _ _ H).
Qed.

Lemma hex_loop_bound n value s v r :
  hex_loop n value s = Ret (v, r) -> (v < (value + 1) * 16 ^ N.of_nat n)%N.
Proof.
  revert value s. induction n as [|n IH]; intros value s; cbn [hex_loop].
  - intros [= <- _]. change (16 ^ N.of_nat 0)%N with 1%N. lia.
  - destruct s as [|c s]; [done|]. destruct (N.ltb_spec (digit_value c) 16) as [Hd|]; [|done].
    rewrite (lor_shiftl value 4) by done. intros H%IH. rewrite Nat2N.inj_succ, N.pow_succ_r'.
    change (2 ^ 4)%N with 16%N in H. nia.
Qed.

Lemma one_byte_valid c : (code c < 0x80)%N -> validate_utf8 [c] = Ret tt.
Proof. intros Hc. unfold validate_utf8. cbn [length validate_loop utf8_scalar]. by rewrite (proj2 (N.ltb_lt _ _) Hc). Qed.

Lemma json_escape_valid s p k : json_escape s = Ret (p, k) -> validate_utf8 p = Ret tt.
Proof.
  unfold json_escape. destruct s as [|e r]; [done|].
  do 8 (destruct (e =c _); [intros [= <- _]; by apply one_byte_valid|]). destruct (e =c "u"); [|done].
  unfold unicode_escape, hex4. destruct (hex_loop 4 0 r) as [[v r1]|] eqn:E1; [|done]. cbn [mbind result_bind].
  apply hex_loop_bound in E1. change ((0 + 1) * 16 ^ N.of_nat 4)%N with 65536%N in E1.
  destruct (N.leb_spec 0xd800 v), (N.leb_spec v 0xdbff); cbn [andb].
  - destruct (expect_char backslash r1) as [r2|]; [|done]. cbn [mbind result_bind].
    destruct (expect_char "u" r2) as [r3|]; [|done]. cbn [mbind result_bind].
    destruct (hex_loop 4 0 r3) as [[low r4]|]; [|done]. cbn [mbind result_bind].
    destruct (N.ltb_spec low 0xdc00), (N.ltb_spec 0xdfff low); cbn [orb]; try done.
    intros [= <- _]. apply append_scalar_valid. rewrite N.shiftl_mul_pow2. change (2 ^ 10)%N with 1024%N. lia.
  - destruct (N.leb_spec 0xdc00 v), (N.leb_spec v 0xdfff); cbn [andb]; try done;
      intros [= <- _]; apply append_scalar_valid; lia.
  - destruct (N.leb_spec 0xdc00 v), (N.leb_spec v 0xdfff); cbn [andb]; try done;
      intros [= <- _]; apply append_scalar_valid; lia.
  - lia.
Qed.

Lemma string_piece_valid c r p k : string_piece c r = Ret (p, k) -> validate_utf8 p = Ret tt.
Proof.
  unfold string_piece. destruct (_ <? _)%N; [done|]. destruct (N.leb_spec 0x80 (code c)).
  - destruct (utf8_scalar (c :: r)) as [[v k']|] eqn:E; [|done]. cbn [mbind result_bind]. 
    apply utf8_scalar_spec in E as (chunk & Hs & _ & _ & Hk). rewrite Hs, length_app, Nat.add_sub, take_app_length.
    intros [= <- _].
    specialize (Hk []). rewrite app_nil_r in Hk. by rewrite (validate_cons _ _ _ Hk).
  - destruct (negb _); [intros [= <- _]; by apply one_byte_valid|apply json_escape_valid].
Qed.

(** A string is read to its end with no fuel missing, and is valid. *)
Definition fails (e : ErrorCode) : Prop := e = InvalidArgument \/ e = ResourceLimit.

Lemma utf8_scalar_fails s : s <> [] -> outcome fails (fun _ => True) (utf8_scalar s).
Proof.
  intros Hs. pose proof (validate_errors s) as H. destruct (utf8_scalar s) as [[v r]|e] eqn:E; [done|].
  unfold validate_utf8 in H. destruct s as [|c s]; [done|]. cbn [validate_loop length] in H. rewrite E in H.
  destruct H as [H|H]; [done|]. cbn in H. injection H as ->. by left.
Qed.

Lemma hex_loop_fails n value s : outcome fails (fun _ => True) (hex_loop n value s).
Proof.
  revert value s. induction n as [|n IH]; intros value [|c s]; cbn [hex_loop]; try done; [by left|].
  destruct (_ <? 16)%N; [apply IH|by left].
Qed.

Lemma expect_char_fails c s : outcome fails (fun r => length s = S (length r)) (expect_char c s).
Proof. unfold expect_char. destruct s as [|d r]; [by left|]. destruct (d =c c); [done|by left]. Qed.

Lemma json_escape_fails s : outcome fails (fun _ => True) (json_escape s).
Proof.
  unfold json_escape. destruct s as [|e r]; [by left|]. do 8 (destruct (e =c _); [done|]).
  destruct (e =c "u"); [|by left]. unfold unicode_escape, hex4.
  eapply outcome_bind; [apply hex_loop_fails|]. intros [v r1] _. destruct (_ && _).
  - eapply outcome_bind; [apply expect_char_fails|]. intros r2 _.
    eapply outcome_bind; [apply expect_char_fails|]. intros r3 _.
    eapply outcome_bind; [apply hex_loop_fails|]. intros [low r4] _. destruct (_ || _); [by left|done].
  - destruct (_ && _); [by left|done].
Qed.

Lemma string_piece_fails c r : outcome fails (fun _ => True) (string_piece c r).
Proof.
  unfold string_piece. destruct (_ <? _)%N; [by left|]. destruct (_ <=? _)%N.
  - eapply outcome_bind; [by apply utf8_scalar_fails|]. by intros [].
  - destruct (negb _); [done|apply json_escape_fails].
Qed.

Lemma string_loop_spec fuel s :
  length s < fuel ->
  outcome fails (fun '(t, k) => validate_utf8 t = Ret tt /\ length k < length s) (string_loop fuel s).
Proof.
  revert s. induction fuel as [|fuel IH]; intros s Hf; [lia|]. destruct s as [|c r]; [by left|].
  cbn [string_loop]. destruct (c =c dquote); [split; [done|simpl; lia]|].
  pose proof (string_piece_fails c r) as Hp. destruct (string_piece c r) as [[p k]|] eqn:E; [|exact Hp].
  cbn [mbind result_bind]. pose proof (string_piece_length _ _ _ _ E) as Hl. apply string_piece_valid in E.
  simpl in Hf. eapply outcome_bind_pair; [apply IH; lia|]. intros t e [Ht He]. cbn. split; [|simpl; lia].
  by rewrite validate_app.
Qed.

Lemma read_string_spec s :
  outcome fails (fun '(t, k) => validate_utf8 t = Ret tt /\ length k < length s) (read_string s).
Proof.
  unfold read_string. eapply outcome_bind; [apply expect_char_fails|]. intros r Hr. cbn beta in Hr.
  eapply outcome_impl; [apply string_loop_spec; lia|]. intros [t k] [H1 H2]. split; [done|lia].
Qed.

(** ** Numbers *)

Definition digits (s : bytes) : Prop := s <> [] /\ forallb is_digit s = true.

(** The grammar of numbers. *)
Definition json_number (t : bytes) : Prop :=
  exists sign int frac exp, t = sign ++ int ++ frac ++ exp /\
    (sign = [] \/ sign = lit "-") /\
    (int = lit "0" \/ exists c ds, int = c :: ds /\ in_range 49 57 c = true /\ forallb is_digit ds = true) /\
    (frac = [] \/ exists ds, frac = "."%char :: ds /\ digits ds) /\
    (exp = [] \/ exists e sg ds, exp = e :: sg ++ ds /\ (e = "e"%char \/ e = "E"%char) /\
                   (sg = [] \/ sg = lit "+" \/ sg = lit "-") /\ digits ds).

(** What may not follow a number. *)
Definition number_stop (c : ascii) : bool := negb (is_digit c || (c =c ".") || (c =c "e") || (c =c "E")).

Lemma span_digits s : forallb is_digit (span is_digit s) = true.
Proof. induction s as [|c s IH]; [done|]. cbn [span]. destruct (is_digit c) eqn:E; [|done]. simpl. by rewrite E. Qed.

Lemma digits_required_spec s r :
  digits_required s = Ret r <-> exists ds, s = ds ++ r /\ digits ds /\ head_is (fun c => negb (is_digit c)) r = true.
Proof.
  unfold digits_required. split.
  - destruct (is_digit (peek s)) eqn:E; [|done]. intros [= <-]. exists (span is_digit s). split; [by rewrite skip_span|].
    split.
    + split; [|apply span_digits]. destruct s as [|c s]; [done|]. cbn [peek] in E. cbn [span]. by rewrite E.
    + clear. induction s as [|c s IH]; [done|]. cbn [skip]. destruct (is_digit c) eqn:E; [done|]. simpl. by rewrite E.
  - intros (ds & -> & [Hne Hd] & Hr). rewrite skip_app_stop by done.
    assert (skip is_digit ds = []) as ->.
    { rewrite <- (app_nil_r ds), skip_app by done. done. }
    destruct ds as [|c ds]; [done|]. cbn [app peek]. simpl in Hd. apply andb_prop in Hd as [-> _]. done.
Qed.

Lemma peek_eq s c : c <> byte 0 -> (peek s =c c) = true -> s = c :: tail s.
Proof. intros Hc. destruct s as [|d s]; cbn [peek tail]; intros H%eqc_true; congruence. Qed.

Lemma number_end_sound s r : number_end s = Ret r -> exists t, s = t ++ r /\ json_number t.
Proof.
  unfold number_end.
  assert (H1 : exists sign s1, s = sign ++ s1 /\ (sign = [] \/ sign = lit "-") /\
                 (if peek s =c "-" then tail s else s) = s1).
  { destruct (peek s =c "-") eqn:E; [|exists [], s; auto]. apply peek_eq in E; [|done].
    exists (lit "-"), (tail s). auto. }
  destruct H1 as (sign & s1 & Hs & Hsign & ->). subst s.
  assert (H2 : forall s2, (if peek s1 =c "0" then Ret (tail s1)
        else if in_range 49 57 (peek s1) then Ret (skip is_digit s1) else Throw InvalidArgument) = Ret s2 ->
     exists int, s1 = int ++ s2 /\
       (int = lit "0" \/ exists c ds, int = c :: ds /\ in_range 49 57 c = true /\ forallb is_digit ds = true)).
  { intros s2. destruct (peek s1 =c "0") eqn:E.
    - intros [= <-]. exists (lit "0"). split; [by apply peek_eq in E|by left].
    - destruct (in_range 49 57 (peek s1)) eqn:E2; [|done]. intros [= <-]. exists (span is_digit s1).
      split; [by rewrite skip_span|]. right. destruct s1 as [|c s1]; [done|]. cbn [peek] in E2.
      assert (Hc : is_digit c = true) by (revert E2; clear; by_ascii c).
      cbn [span]. rewrite Hc. exists c, (span is_digit s1). split; [done|]. split; [done|]. apply span_digits. }
  destruct (if peek s1 =c "0" then _ else _) as [s2|]; [|done]. destruct (H2 s2 eq_refl) as (int & -> & Hint).
  cbn [mbind result_bind].
  assert (H3 : forall s3, (if peek s2 =c "." then digits_required (tail s2) else Ret s2) = Ret s3 ->
     exists frac, s2 = frac ++ s3 /\ (frac = [] \/ exists ds, frac = "."%char :: ds /\ digits ds)).
  { intros s3. destruct (peek s2 =c ".") eqn:E; [|intros [= <-]; exists []; auto].
    intros (ds & Hs & Hd & _)%digits_required_spec. exists ("."%char :: ds). split; [|right; eauto].
    apply peek_eq in E; [|done]. by rewrite E, Hs. }
  destruct (if peek s2 =c "." then _ else _) as [s3|]; [|done]. destruct (H3 s3 eq_refl) as (frac & -> & Hfrac).
  cbn [mbind result_bind]. clear H2 H3.
  assert (H4 : forall e, (peek s3 =c e) = true -> e = "e"%char \/ e = "E"%char ->
     digits_required (if (peek (tail s3) =c "+") || (peek (tail s3) =c "-") then tail (tail s3) else tail s3) = Ret r ->
     exists exp, s3 = exp ++ r /\ exists e sg ds, exp = e :: sg ++ ds /\ (e = "e"%char \/ e = "E"%char) /\
                   (sg = [] \/ sg = lit "+" \/ sg = lit "-") /\ digits ds).
  { intros e He Hee (ds & Hs & Hd & _)%digits_required_spec. apply peek_eq in He; [|by destruct Hee; subst].
    set (s4 := tail s3) in *.
    assert (Hsg : exists sg, s4 = sg ++ ds ++ r /\ (sg = [] \/ sg = lit "+" \/ sg = lit "-")).
    { destruct (peek s4 =c "+") eqn:E1; cbn [orb] in Hs.
      - apply peek_eq in E1; [|done]. exists (lit "+"). rewrite E1, Hs. auto.
      - destruct (peek s4 =c "-") eqn:E2; [|exists []; auto]. apply peek_eq in E2; [|done].
        exists (lit "-"). rewrite E2, Hs. auto. }
    destruct Hsg as (sg & Hs4 & Hsg). exists (e :: sg ++ ds). split; [cbn [app]; by rewrite <- app_assoc, <- Hs4|].
    exists e, sg, ds. auto. }
  destruct (peek s3 =c "e") eqn:E1; [|destruct (peek s3 =c "E") eqn:E2]; cbn [orb].
  { intros H. apply (H4 _ E1) in H as (exp & -> & Hexp); [|by left]. exists (sign ++ int ++ frac ++ exp).
    split; [by rewrite <- !app_assoc|]. exists sign, int, frac, exp. auto 6. }
  { intros H. apply (H4 _ E2) in H as (exp & -> & Hexp); [|by right]. exists (sign ++ int ++ frac ++ exp).
    split; [by rewrite <- !app_assoc|]. exists sign, int, frac, exp. auto 6. }
  intros [= ->]. exists (sign ++ int ++ frac). split; [by rewrite <- !app_assoc|]. exists sign, int, frac, [].
  rewrite app_nil_r. auto 6.
Qed.

Lemma skip_digits ds k : forallb is_digit ds = true -> head_is (fun c => negb (is_digit c)) k = true ->
  skip is_digit (ds ++ k) = k.
Proof.
  intros Hd Hk. rewrite skip_app by done. destruct k as [|c k]; [done|]. apply skip_stop. by apply negb_true_iff in Hk.
Qed.

Lemma number_end_complete t k :
  json_number t -> head_is number_stop k = true -> number_end (t ++ k) = Ret k.
Proof.
  intros (sign & int & frac & exp & -> & Hsign & Hint & Hfrac & Hexp) Hk. rewrite <- !app_assoc.
  assert (Hkd : head_is (fun c => negb (is_digit c)) k = true).
  { destruct k as [|c k]; [done|]. revert Hk. simpl. clear. by_ascii c. }
  assert (Hed : head_is (fun c => negb (is_digit c)) (exp ++ k) = true).
  { destruct Hexp as [->|(e & sg & ds & -> & He & _)]; [done|]. by destruct He; subst. }
  assert (Hfd : head_is (fun c => negb (is_digit c)) (frac ++ exp ++ k) = true).
  { destruct Hfrac as [->|(ds & -> & _)]; done. }
  assert (Hlast : forall s3, s3 = exp ++ k ->
    (if (peek s3 =c "e") || (peek s3 =c "E") then
       digits_required (if (peek (tail s3) =c "+") || (peek (tail s3) =c "-") then tail (tail s3) else tail s3)
     else Ret s3) = Ret k).
  { intros s3 ->. destruct Hexp as [->|(e & sg & ds & -> & He & Hsg & Hd)].
    - cbn [app]. assert ((peek k =c "e") || (peek k =c "E") = false) as ->; [|done].
      destruct k as [|c k]; [done|]. revert Hk. simpl. clear. by_ascii c.
    - assert ((peek ((e :: sg ++ ds) ++ k) =c "e") || (peek ((e :: sg ++ ds) ++ k) =c "E") = true) as ->
        by (by destruct He; subst).
      cbn [app tail]. rewrite <- app_assoc.
      assert (Ht : (if (peek (sg ++ ds ++ k) =c "+") || (peek (sg ++ ds ++ k) =c "-")
                    then tail (sg ++ ds ++ k) else sg ++ ds ++ k) = ds ++ k).
      { destruct Hsg as [->|[->| ->]]; [|done|done]. destruct Hd as [Hne Hd]. destruct ds as [|c ds]; [done|].
        cbn [app peek]. simpl in Hd. apply andb_prop in Hd as [Hc _].
        assert ((c =c "+") || (c =c "-") = false) as -> by (revert Hc; clear; by_ascii c). done. }
      rewrite Ht. apply digits_required_spec. eauto. }
  assert (Hint1 : forall s1, s1 = int ++ frac ++ exp ++ k ->
     (if peek s1 =c "0" then Ret (tail s1) else if in_range 49 57 (peek s1) then Ret (skip is_digit s1)
      else Throw InvalidArgument) = Ret (frac ++ exp ++ k)).
  { intros s1 ->. destruct Hint as [->|(c & ds & -> & Hc & Hd)]; [done|]. cbn [app peek].
    assert ((c =c "0") = false) as -> by (revert Hc; clear; by_ascii c). rewrite Hc. f_equal.
    assert (Hcd : is_digit c = true) by (revert Hc; clear; by_ascii c). cbn [skip]. rewrite Hcd. by apply skip_digits. }
  unfold number_end. assert (Hs1 : (if peek (sign ++ int ++ frac ++ exp ++ k) =c "-"
     then tail (sign ++ int ++ frac ++ exp ++ k) else sign ++ int ++ frac ++ exp ++ k) = int ++ frac ++ exp ++ k).
  { destruct Hsign as [->| ->]; [|done]. destruct Hint as [->|(c & ds & -> & Hc & _)]; [done|]. cbn [app peek].
    assert ((c =c "-") = false) as -> by (revert Hc; clear; by_ascii c). done. }
  rewrite Hs1, Hint1 by done. cbn [mbind result_bind].
  destruct Hfrac as [->|(ds & -> & Hd)].
  - cbn [app]. assert ((peek (exp ++ k) =c ".") = false) as ->.
    { destruct Hexp as [->|(e & sg & ds & -> & He & _)]; [|by destruct He; subst].
      destruct k as [|c k]; [done|]. revert Hk. simpl. clear. by_ascii c. }
    cbn [mbind result_bind]. by apply Hlast.
  - change (peek (("."%char :: ds) ++ exp ++ k) =c ".") with true. cbn iota. cbn [app tail].
    rewrite (proj2 (digits_required_spec (ds ++ exp ++ k) (exp ++ k))) by eauto. cbn [mbind result_bind]. by apply Hlast.
Qed.

(** ** The text, the size and the depth of a value *)

Section Spec.
Context {F : Binary64}.

Fixpoint commas (first : bool) (l : list bytes) : bytes :=
  match l with
  | [] => []
  | x :: l' => (if first then [] else lit ",") ++ x ++ commas false l'
  end.

Definition quoted_text (t : bytes) : bytes := dquote :: mjoin (quoted_char <$> t) ++ [dquote].

Fixpoint text_of (v : Json) : bytes :=
  match v with
  | JNull => lit "null"
  | JBoolean b => if b then lit "true" else lit "false"
  | JNumber _ text => text
  | JString text => quoted_text text
  | JArray l => lit "[" ++ commas true (map text_of l) ++ lit "]"
  | JObject l => lit "{" ++ commas true (map (fun '(key, x) => quoted_text key ++ lit ":" ++ text_of x) l) ++ lit "}"
  end.

Fixpoint value_count (v : Json) : N :=
  match v with
  | JArray l => 1 + sumN value_count l
  | JObject l => 1 + sumN (fun '(_, x) => value_count x) l
  | _ => 1
  end%N.

(** The depth of the innermost value. *)
Fixpoint height (v : Json) : nat :=
  match v with
  | JArray l => foldr (fun x h => S (height x) `max` h) 0 l
  | JObject l => foldr (fun '(_, x) h => S (height x) `max` h) 0 l
  | _ => 0
  end.

Definition valid (t : bytes) : Prop := validate_utf8 t = Ret tt.

(** Valid texts, numbers of the grammar with their value, distinct keys. *)
Fixpoint json_ok (v : Json) : Prop :=
  match v with
  | JNumber number text => json_number text /\ from_chars text = Some number
  | JString text => valid text
  | JArray l => foldr (fun x P => json_ok x /\ P) True l
  | JObject l => NoDup l.*1 /\ foldr (fun '(key, x) P => (valid key /\ json_ok x) /\ P) True l
  | _ => True
  end.

Lemma Json_ind' (P : Json -> Prop) :
  P JNull -> (forall b, P (JBoolean b)) -> (forall n t, P (JNumber n t)) -> (forall t, P (JString t)) ->
  (forall l, Forall P l -> P (JArray l)) -> (forall l, Forall (fun p => P p.2) l -> P (JObject l)) ->
  forall v, P v.
Proof.
  intros H1 H2 H3 H4 H5 H6. fix IH 1. intros [|b|n t|t|l|l]; [apply H1|apply H2|apply H3|apply H4| |].
  - apply H5. induction l; constructor; [apply IH|assumption].
  - apply H6. induction l; constructor; [apply IH|assumption].
Qed.

(** ** Encoding *)

Lemma append_Ret s st st' : append s st = Ret st' ->
  output_ st' = output_ st ++ s /\ values_ st' = values_ st /\
  ((N.of_nat (length (output_ st)) <= max_value_bytes)%N -> (N.of_nat (length (output_ st')) <= max_value_bytes)%N).
Proof.
  unfold append. intros H. inv_ret. apply N.ltb_ge in H. cbn [output_ values_]. split_and!; [done..|].
  intros Hl. rewrite size_sub_exact in H by done. rewrite length_app. lia.
Qed.

(** [written t n st m]: if [m] returns, it has appended [t], counted [n] values and kept
    the bound on the size. *)
Definition written (t : bytes) (n : N) (st : Encoder) (m : result Encoder) : Prop :=
  forall st', m = Ret st' ->
    output_ st' = output_ st ++ t /\ values_ st' = (values_ st + n)%N /\
    ((N.of_nat (length (output_ st)) <= max_value_bytes)%N -> (N.of_nat (length (output_ st')) <= max_value_bytes)%N).

Lemma written_append s st : written s 0 st (append s st).
Proof. intros st' H%append_Ret. by rewrite N.add_0_r. Qed.

Lemma written_bind t1 t2 n1 n2 st m k :
  written t1 n1 st m -> (forall st', written t2 n2 st' (k st')) -> written (t1 ++ t2) (n1 + n2) st (x ← m; k x).
Proof.
  intros H1 H2 st' H. apply bind_Ret in H as (st1 & Hm & Hk). destruct (H1 _ Hm) as (A1 & A2 & A3).
  destruct (H2 _ _ Hk) as (B1 & B2 & B3). split_and!; [by rewrite B1, A1, app_assoc|rewrite B2, A2; lia|by auto].
Qed.

Lemma written_all l st : written (mjoin l) 0 st (append_all l st).
Proof.
  revert st. induction l as [|s l IH]; intros st; cbn [append_all].
  - intros st' [= <-]. by rewrite app_nil_r, N.add_0_r.
  - change (mjoin (s :: l)) with (s ++ mjoin l). by apply (written_bind s (mjoin l) 0 0); [apply written_append|].
Qed.

Lemma written_quoted t st : written (quoted_text t) 0 st (quoted t st) /\ (forall st', quoted t st = Ret st' -> valid t).
Proof.
  unfold quoted. destruct (validate_errors t) as [E|E]; rewrite E; [|done]. cbn [mbind result_bind]. split; [|done].
  unfold quoted_text. change (dquote :: ?x) with ([dquote] ++ x).
  apply (written_bind [dquote] _ 0 0); [apply written_append|]. intros st1.
  apply (written_bind _ [dquote] 0 0); [apply written_all|]. intros st2. apply written_append.
Qed.

Lemma written_list {A} (item : A -> Encoder -> result Encoder) (t : A -> bytes) (n : A -> N) first l st :
  (forall x st, x ∈ l -> written (t x) (n x) st (item x st)) ->
  written (commas first (map t l)) (sumN n l) st (write_list item first l st).
Proof.
  revert first st. induction l as [|x l IH]; intros first st Hi; cbn [write_list map commas].
  - intros st' [= <-]. by rewrite app_nil_r, N.add_0_r.
  - change (sumN n (x :: l)) with (0 + (n x + sumN n l))%N.
    apply written_bind.
    + destruct first; [|apply written_append]. intros st' [= <-]. by rewrite app_nil_r, N.add_0_r.
    + intros st1. apply written_bind; [apply Hi; constructor|]. intros st2. apply IH. intros. apply Hi. by constructor.
Qed.

Lemma write_list_items {A} (item : A -> Encoder -> result Encoder) (Q : A -> Prop) first l st st' :
  (forall x st st', x ∈ l -> item x st = Ret st' -> Q x) -> write_list item first l st = Ret st' -> Forall Q l.
Proof.
  revert first st. induction l as [|x l IH]; intros first st Hi; cbn [write_list]; [constructor|].
  intros (st1 & _ & (st2 & H1 & H2)%bind_Ret)%bind_Ret. constructor.
  - eapply Hi; [constructor|exact H1].
  - eapply IH; [|exact H2]. intros. eapply Hi; [by constructor|eassumption].
Qed.

Lemma write_written v : forall depth st, written (text_of v) (value_count v) st (write v depth st).
Proof.
  induction v as [|b|n t|t|l IH|l IH] using Json_ind'; intros depth st st' H; cbn [write] in H;
    apply bind_Ret in H as (u & _ & H); cbn zeta in H.
  1-3: by apply written_append in H as (-> & -> & ?); cbn [output_ values_ text_of value_count] in *;
    rewrite N.add_0_r; auto.
  - apply written_quoted in H as (-> & -> & ?). cbn [output_ values_ text_of value_count] in *. by rewrite N.add_0_r.
  - cbn [text_of value_count].
    assert (Hw : written (lit "[" ++ commas true (map text_of l) ++ lit "]") (0 + (sumN value_count l + 0))
      {| output_ := output_ st; values_ := values_ st + 1 |} (Ret st')); [rewrite <- H|].
    + apply written_bind; [apply written_append|]. intros st1.
      apply written_bind; [|intros; apply written_append]. apply written_list. intros x s Hx.
      rewrite Forall_forall in IH. by apply IH.
    + destruct (Hw st' eq_refl) as (-> & -> & ?). cbn [output_ values_] in *. split_and!; [done|lia|done].
  - cbn [text_of value_count].
    assert (Hw : written (lit "{" ++ commas true (map (fun '(key, x) => quoted_text key ++ lit ":" ++ text_of x) l) ++ lit "}")
      (0 + (sumN (fun '(_, x) => value_count x) l + 0))
      {| output_ := output_ st; values_ := values_ st + 1 |} (Ret st')); [rewrite <- H|].
    + apply written_bind; [apply written_append|]. intros st1.
      apply written_bind; [|intros; apply written_append]. apply written_list. intros [key x] s Hx.
      rewrite Forall_forall in IH. apply (written_bind (quoted_text key) _ 0 (value_count x)); [apply written_quoted|].
      intros st2. apply (written_bind (lit ":") (text_of x) 0 (value_count x)); [apply written_append|].
      intros st3. by apply (IH (key, x)).
    + destruct (Hw st' eq_refl) as (-> & -> & ?). cbn [output_ values_] in *. split_and!; [done|lia|done].
Qed.

(** Every text of a value that was encoded. *)
Fixpoint texts_valid (v : Json) : Prop :=
  match v with
  | JString text => valid text
  | JArray l => foldr (fun x P => texts_valid x /\ P) True l
  | JObject l => foldr (fun '(key, x) P => (valid key /\ texts_valid x) /\ P) True l
  | _ => True
  end.

Lemma foldr_and {A} (Q : A -> Prop) l : foldr (fun x P => Q x /\ P) True l <-> Forall Q l.
Proof. induction l; simpl; [split; [constructor|done]|]. rewrite Forall_cons. tauto. Qed.

Lemma foldr_and_pair {A B} (Q : A -> B -> Prop) l :
  foldr (fun '(a, b) P => Q a b /\ P) True l <-> Forall (fun p => Q p.1 p.2) l.
Proof. induction l as [|[a b] l IH]; simpl; [split; [constructor|done]|]. rewrite Forall_cons. cbn [fst snd]. tauto. Qed.

Lemma foldr_max_le {A} (f : A -> nat) l m : Forall (fun x => f x <= m) l -> foldr (fun x h => f x `max` h) 0 l <= m.
Proof. induction 1; simpl; lia. Qed.

Lemma foldr_max_le_pair {A B} (f : B -> nat) (l : list (A * B)) m :
  Forall (fun p => f p.2 <= m) l -> foldr (fun '(_, x) h => f x `max` h) 0 l <= m.
Proof. induction 1 as [|[a b] l H _ IH]; cbn [foldr snd] in *; lia. Qed.

Lemma write_limits v : forall depth st st', write v depth st = Ret st' ->
  depth + height v <= max_json_depth /\ (values_ st + 1 <= max_json_values)%N /\ texts_valid v.
Proof.
  induction v as [|b|n t|t|l IH|l IH] using Json_ind'; intros depth st st' H; cbn [write] in H;
    apply bind_Ret in H as (u & Hu & H); apply throw_if_Ret, orb_false_iff in Hu as [Hd%Nat.ltb_ge Hv%N.ltb_ge];
    cbn zeta in H; cbn [height texts_valid].
  1-3: split_and!; [lia|done|done].
  - split_and!; [lia|done|]. by apply written_quoted in H.
  - apply bind_Ret in H as (st1 & _ & (st2 & H & _)%bind_Ret). rewrite foldr_and.
    apply (write_list_items _ (fun x => S depth + height x <= max_json_depth /\ texts_valid x)) in H.
    + split_and!; [|done|by eapply Forall_impl; [exact H|intros x []]].
      assert (foldr (fun x h => S (height x) `max` h) 0 l <= max_json_depth - depth); [|lia].
      apply foldr_max_le. eapply Forall_impl; [exact H|]. intros x [Hx _]. cbn beta in *. lia.
    + intros x s s' Hx Hs. rewrite Forall_forall in IH. destruct (IH x Hx _ _ _ Hs) as (A1 & _ & A2). auto.
  - apply bind_Ret in H as (st1 & _ & (st2 & H & _)%bind_Ret). rewrite foldr_and_pair.
    apply (write_list_items _ (fun p => S depth + height p.2 <= max_json_depth /\ valid p.1 /\ texts_valid p.2)) in H.
    + split_and!; [|done|by eapply Forall_impl; [exact H|intros p [_ ?]]].
      assert (foldr (fun '(_, x) h => S (height x) `max` h) 0 l <= max_json_depth - depth); [|lia].
      apply (foldr_max_le_pair (fun x => S (height x))). eapply Forall_impl; [exact H|]. intros p [Hx _]. cbn beta in *. lia.
    + intros [key x] s s' Hx (s1 & Hq & (s2 & _ & Hs)%bind_Ret)%bind_Ret. rewrite Forall_forall in IH.
      destruct (IH _ Hx _ _ _ Hs) as (A1 & _ & A2). apply written_quoted in Hq. auto.
Qed.

(** ** Reading back *)

(** What every text of a value begins with. *)
Lemma text_head v : json_ok v -> exists c t, text_of v = c :: t /\ json_space c = false /\ (c =c "]") = false.
Proof.
  destruct v as [|b|n t|t|l|l]; cbn [text_of json_ok]; intros H.
  - by eexists _, _.
  - destruct b; by eexists _, _.
  - destruct H as [(sign & int & frac & exp & -> & Hs & Hi & _) _].
    destruct Hs as [->| ->]; [|by eexists _, _]. destruct Hi as [->|(c & ds & -> & Hc & _)]; [by eexists _, _|].
    eexists c, _. split; [done|]. revert Hc. clear. by_ascii c.
  - by eexists _, _.
  - by eexists _, _.
  - by eexists _, _.
Qed.

Lemma whitespace_stop c s : json_space c = false -> whitespace (c :: s) = c :: s.
Proof. intros H. by apply skip_stop. Qed.

Lemma whitespace_text v k : json_ok v -> whitespace (text_of v ++ k) = text_of v ++ k.
Proof. intros (c & t & -> & H & _)%text_head. by apply whitespace_stop. Qed.

Lemma read_quoted t k : valid t -> read_string (quoted_text t ++ k) = Ret (t, k).
Proof.
  intros H. unfold read_string, quoted_text. cbn [app expect_char]. change (dquote =c dquote) with true. cbn iota.
  cbn [mbind result_bind]. rewrite <- app_assoc. by apply string_text_quoted.
Qed.

Lemma read_number_text text number k :
  json_number text -> from_chars text = Some number -> head_is number_stop k = true ->
  read_number (text ++ k) = Ret (JNumber number text, k).
Proof.
  intros H1 H2 Hk. unfold read_number. rewrite number_end_complete by done. cbn [mbind result_bind].
  rewrite length_app, Nat.add_sub, take_app_length. unfold parsed_number. by rewrite H2.
Qed.

Lemma array_loop_text read (f : Json -> N) l : forall x fuel k n,
  (forall y k n, y ∈ x :: l -> head_is number_stop k = true -> (n + f y <= max_json_values)%N ->
     read (text_of y ++ k) n = Ret (y, k, n + f y)%N) ->
  length l < fuel -> (n + (f x + sumN f l) <= max_json_values)%N ->
  array_loop read fuel (text_of x ++ commas false (map text_of l) ++ "]"%char :: k) n =
  Ret (x :: l, k, n + (f x + sumN f l))%N.
Proof.
  induction l as [|y l IH]; intros x fuel k n Hr Hf Hn; (destruct fuel as [|fuel]; [simpl in Hf; lia|]); cbn [array_loop].
  - cbn [map commas app]. unfold sumN in *. cbn [foldr] in *. rewrite Hr; [|constructor|done|lia].
    cbn [mbind result_bind]. rewrite whitespace_stop by done. change ("]"%char =c "]") with true. cbn iota.
    do 3 f_equal. lia.
  - change (sumN f (y :: l)) with (f y + sumN f l)%N in *.
    cbn [map commas]. rewrite <- !app_assoc. change (lit "," ++ ?e) with (","%char :: e).
    rewrite Hr; [|constructor|done|lia]. cbn [mbind result_bind]. rewrite whitespace_stop by done.
    change (","%char =c "]") with false. change (negb (","%char =c ",")) with false. cbn iota.
    rewrite IH; [| |simpl in Hf; lia|lia].
    + cbn [mbind result_bind]. do 2 f_equal. lia.
    + intros z k' n' Hz. apply Hr. by constructor.
Qed.

Definition member_text (p : bytes * Json) : bytes := quoted_text p.1 ++ lit ":" ++ text_of p.2.

Lemma object_loop_text read (f : Json -> N) l : forall x fuel names k n,
  (forall y k n, y ∈ x :: l -> head_is number_stop k = true -> (n + f y.2 <= max_json_values)%N ->
     read (text_of y.2 ++ k) n = Ret (y.2, k, n + f y.2)%N) ->
  Forall (fun p => valid p.1) (x :: l) -> NoDup (x :: l).*1 -> (forall p, p ∈ x :: l -> p.1 ∉ names) ->
  length l < fuel -> (n + (f x.2 + sumN (fun p => f p.2) l) <= max_json_values)%N ->
  object_loop read fuel names (member_text x ++ commas false (map member_text l) ++ "}"%char :: k) n =
  Ret (x :: l, k, n + (f x.2 + sumN (fun p => f p.2) l))%N.
Proof.
  induction l as [|y l IH]; intros [key v] fuel names k n Hr Hv Hd Hnames Hf Hn;
    (destruct fuel as [|fuel]; [simpl in Hf; lia|]); cbn [object_loop].
  all: assert (Hmt : forall e, member_text (key, v) ++ e = quoted_text key ++ ":"%char :: text_of v ++ e)
         by (intros; unfold member_text; cbn [fst snd]; by rewrite <- !app_assoc).
  all: rewrite Hmt; assert (Hw : forall e, whitespace (quoted_text key ++ e) = quoted_text key ++ e) by done.
  all: rewrite Hw; pose proof (Forall_inv Hv) as Hkey; cbn [fst] in Hkey; rewrite read_quoted by done.
  all: cbn [mbind result_bind]; rewrite bool_decide_eq_false_2 by (apply (Hnames (key, v)); constructor).
  all: cbn [throw_if mbind result_bind]; rewrite whitespace_stop by done.
  all: cbn [expect_char]; change (":"%char =c ":") with true; cbn iota; cbn [mbind result_bind].
  - cbn [map commas app]. unfold sumN in *. cbn [foldr snd] in *.
    rewrite (Hr (key, v)); [|constructor|done|cbn [snd]; lia]. cbn [mbind result_bind snd].
    rewrite whitespace_stop by done. change ("}"%char =c "}") with true. cbn iota. do 3 f_equal. lia.
  - change (sumN (fun p => f p.2) (y :: l)) with (f y.2 + sumN (fun p => f p.2) l)%N in *. cbn [snd] in *.
    cbn [map commas]. rewrite <- !app_assoc. change (lit "," ++ ?e) with (","%char :: e).
    rewrite (Hr (key, v)); [|constructor|done|cbn [snd]; lia]. cbn [mbind result_bind snd].
    rewrite whitespace_stop by done. change (","%char =c "}") with false. change (negb (","%char =c ",")) with false.
    cbn iota. rewrite IH; [| | | | |simpl in Hf; lia|lia].
    + cbn [mbind result_bind]. do 2 f_equal. lia.
    + intros z k' n' Hz. apply Hr. by constructor.
    + by inversion Hv.
    + by inversion Hd.
    + intros p Hp. apply not_elem_of_union. split; [|apply Hnames; by constructor].
      apply not_elem_of_singleton. intros Heq. cbn in Hd. apply NoDup_cons in Hd as [Hd _]. apply Hd. rewrite <- Heq.
      change (y.1 :: l.*1) with ((y :: l).*1). apply list_elem_of_fmap. eauto.
Qed.

Lemma commas_length {A} (f : A -> bytes) l : length l <= length (commas false (map f l)).
Proof. induction l; cbn [map commas length]; [lia|]. rewrite !length_app. simpl. lia. Qed.

Lemma sumN_pair {A} (f : Json -> N) (l : list (A * Json)) : sumN (fun '(_, x) => f x) l = sumN (fun p => f p.2) l.
Proof. unfold sumN. induction l as [|[a x] l IH]; cbn [foldr snd]; [done|]. by rewrite IH. Qed.

Lemma height_elem {A} (f : A -> nat) l x : x ∈ l -> S (f x) <= foldr (fun x h => S (f x) `max` h) 0 l.
Proof. induction 1; cbn [foldr]; lia. Qed.

Lemma height_elem_pair {A B} (f : B -> nat) (l : list (A * B)) x :
  x ∈ l -> S (f x.2) <= foldr (fun '(_, x) h => S (f x) `max` h) 0 l.
Proof. induction 1 as [[a x] l|[a x] [b y] l H IH]; cbn [foldr snd] in *; lia. Qed.

Lemma read_value_array levels r n :
  (n + 1 <= max_json_values)%N ->
  read_value (S levels) ("["%char :: r) n =
  let r := whitespace r in
  if peek r =c "]" then Ret (JArray [], tail r, n + 1)%N
  else '(l, e, n') ← array_loop (read_value levels) (S (length r)) r (n + 1)%N; Ret (JArray l, e, n').
Proof. intros H. cbn [read_value]. by rewrite (proj2 (N.ltb_ge _ _) H), whitespace_stop. Qed.

Lemma read_value_object levels r n :
  (n + 1 <= max_json_values)%N ->
  read_value (S levels) ("{"%char :: r) n =
  let r := whitespace r in
  if peek r =c "}" then Ret (JObject [], tail r, n + 1)%N
  else '(l, e, n') ← object_loop (read_value levels) (S (length r)) ∅ r (n + 1)%N; Ret (JObject l, e, n').
Proof. intros H. cbn [read_value]. by rewrite (proj2 (N.ltb_ge _ _) H), whitespace_stop. Qed.

Lemma read_value_text v : forall levels k n,
  json_ok v -> height v < levels -> (n + value_count v <= max_json_values)%N -> head_is number_stop k = true ->
  read_value levels (text_of v ++ k) n = Ret (v, k, n + value_count v)%N.
Proof.
  induction v as [|b|num t|t|l IH|l IH] using Json_ind'; intros levels k n Hok Hh Hn Hk;
    (destruct levels as [|levels]; [lia|]).
  1-4: cbn [read_value]; rewrite (proj2 (N.ltb_ge _ _)) by (cbn [value_count] in Hn; lia);
    cbn [throw_if mbind result_bind]; rewrite whitespace_text by done.
  - done.
  - by destruct b.
  - cbn [text_of value_count]. destruct Hok as [H1 H2].
    assert (Hp : forall c, c ∈ [lit "n"; lit "t"; lit "f"; [dquote]; lit "["; lit "{"] -> (peek (t ++ k) =c peek c) = false).
    { destruct H1 as (sign & int & frac & exp & -> & Hs & Hi & _). intros c Hc.
      destruct Hs as [->| ->]; [|by (repeat (apply elem_of_cons in Hc as [->|Hc]; [done|])); apply elem_of_nil in Hc].
      destruct Hi as [->|(d & ds & -> & Hd & _)]; [by (repeat (apply elem_of_cons in Hc as [->|Hc]; [done|])); apply elem_of_nil in Hc|].
      cbn [app peek]. revert Hd. repeat (apply elem_of_cons in Hc as [->|Hc]; [clear; cbn [peek]; by_ascii d|]).
      by apply elem_of_nil in Hc. }
    assert (P : forall c, c ∈ ["n"; "t"; "f"; dquote; "["; "{"]%char -> (peek (t ++ k) =c c) = false).
    { intros c Hc. apply (Hp [c]). set_solver. }
    rewrite !P by set_solver. by rewrite (read_number_text t num k).
  - cbn [text_of value_count]. change (peek (quoted_text t ++ k)) with dquote.
    change (dquote =c "n") with false. change (dquote =c "t") with false. change (dquote =c "f") with false.
    change (dquote =c dquote) with true. cbn iota. rewrite read_quoted by done. cbn [mbind result_bind]. unfold string_value.
    cbn [json_ok] in Hok. unfold valid in Hok. by rewrite Hok.
  - cbn [text_of value_count height json_ok] in *. rewrite foldr_and in Hok. rewrite <- !app_assoc.
    change (lit "[" ++ ?e) with ("["%char :: e). rewrite read_value_array by lia. cbv zeta.
    destruct l as [|x l]; [done|]. cbn [map commas]. rewrite <- !app_assoc, app_nil_l.
    change (lit "]" ++ k) with ("]"%char :: k). change (lit "}" ++ k) with ("}"%char :: k).
    rewrite Forall_forall in IH, Hok.
    rewrite whitespace_text by (apply Hok; constructor).
    assert ((peek (text_of x ++ commas false (map text_of l) ++ "]"%char :: k) =c "]") = false) as ->.
    { destruct (text_head x) as (c & t & -> & _ & Hc); [apply Hok; constructor|done]. }
    rewrite (array_loop_text _ value_count).
    + cbn [mbind result_bind]. do 2 f_equal. change (sumN value_count (x :: l)) with (value_count x + sumN value_count l)%N. lia.
    + intros y k' n' Hy Hk' Hn'. apply IH; [done|by apply Hok| |done|done].
      pose proof (height_elem height (x :: l) y Hy). lia.
    + pose proof (commas_length text_of l). rewrite !length_app. cbn [length]. lia.
    + change (sumN value_count (x :: l)) with (value_count x + sumN value_count l)%N in Hn. lia.
  - cbn [text_of value_count height json_ok] in *. rewrite foldr_and_pair in Hok. destruct Hok as [Hd Hok].
    rewrite sumN_pair in *.
    assert (Hm : map (fun '(key, x) => quoted_text key ++ lit ":" ++ text_of x) l = map member_text l)
      by (apply map_ext; by intros []).
    rewrite Hm, <- !app_assoc. change (lit "{" ++ ?e) with ("{"%char :: e).
    rewrite read_value_object by lia. cbv zeta.
    destruct l as [|x l]; [done|]. cbn [map commas]. rewrite <- !app_assoc, app_nil_l.
    change (lit "]" ++ k) with ("]"%char :: k). change (lit "}" ++ k) with ("}"%char :: k).
    assert (Hw : whitespace (member_text x ++ commas false (map member_text l) ++ "}"%char :: k) =
                 member_text x ++ commas false (map member_text l) ++ "}"%char :: k) by done.
    rewrite Hw. change (peek (member_text x ++ ?e)) with dquote. change (dquote =c "}") with false. cbn iota.
    rewrite Forall_forall in IH, Hok.
    rewrite (object_loop_text _ value_count).
    + cbn [mbind result_bind]. do 2 f_equal.
      change (sumN (fun p => value_count p.2) (x :: l)) with (value_count x.2 + sumN (fun p => value_count p.2) l)%N. lia.
    + intros y k' n' Hy Hk' Hn'. apply IH; [done|by apply Hok| |done|done].
      pose proof (height_elem_pair height (x :: l) y Hy). lia.
    + apply Forall_forall. intros p Hp. by apply Hok.
    + done.
    + set_solver.
    + pose proof (commas_length member_text l). rewrite !length_app. cbn [length]. lia.
    + change (sumN (fun p => value_count p.2) (x :: l)) with (value_count x.2 + sumN (fun p => value_count p.2) l)%N in Hn. lia.
Qed.


(** ** What the parser accepts *)

Lemma whitespace_length s : length (whitespace s) <= length s.
Proof. apply length_skip. Qed.

Lemma read_json_number_spec s :
  outcome fails (fun '(v, r) => json_ok v /\ height v = 0 /\ value_count v = 1%N /\ texts_valid v /\ length r <= length s)
    (read_number s).
Proof.
  unfold read_number. destruct (number_end s) as [r|e] eqn:E.
  - cbn [mbind result_bind]. apply number_end_sound in E as (t & -> & Ht).
    rewrite length_app, Nat.add_sub, take_app_length. unfold parsed_number.
    destruct (from_chars t) as [x|] eqn:Ef; [|by left]. cbn. split_and!; [done..|lia].
  - assert (He : fails e); [|exact He]. revert E. unfold number_end.
    assert (Hd : forall s e, digits_required s = Throw e -> fails e).
    { intros u e'. unfold digits_required. destruct (is_digit _); [done|]. intros [= <-]. by left. }
    set (s1 := if peek s =c "-" then tail s else s). clearbody s1.
    destruct (peek s1 =c "0"); [|destruct (in_range _ _ _); [|intros [= <-]; by left]];
      cbn [mbind result_bind];
      match goal with |- context [peek ?s2 =c "."] => generalize s2 end; intros s2;
      (destruct (peek s2 =c "."); [destruct (digits_required (tail s2)) as [s3|e3] eqn:E3;
         cbn [mbind result_bind]; [|intros [= <-]; by eapply Hd]|cbn [mbind result_bind]; generalize s2; intros s3]);
      (destruct (_ || _); [apply Hd|done]).
Qed.

Definition read_ok (levels : nat) (s : bytes) (n : N) (m : result (Json * bytes * N)) : Prop :=
  outcome fails (fun '(v, r, n') => json_ok v /\ height v < levels /\ texts_valid v /\
    n' = (n + value_count v)%N /\ (n' <= max_json_values)%N /\ length r <= length s) m.

Section LoopsSpec.
Context (levels : nat) (read : bytes -> N -> result (Json * bytes * N)).
Context (Hread : forall s n, read_ok levels s n (read s n)).

Lemma array_loop_spec fuel : forall s n, length s < fuel ->
  outcome fails (fun '(l, r, n') => Forall json_ok l /\ Forall (fun v => height v < levels) l /\ Forall texts_valid l /\
    n' = (n + sumN value_count l)%N /\ (n' <= max_json_values)%N /\ length r < length s) (array_loop read fuel s n).
Proof using Hread.
  induction fuel as [|fuel IH]; intros s n Hf; [lia|]. cbn [array_loop].
  eapply outcome_bind; [apply Hread|]. intros [[v s1] n1] (H1 & H2 & H3 & H4 & H5 & H6).
  pose proof (whitespace_length s1) as Hw. destruct (whitespace s1) as [|c r]; [by left|]. cbn [length] in Hw.
  destruct (c =c "]").
  { cbn. split_and!; [by constructor..| |done|lia]. unfold sumN. cbn. lia. }
  destruct (negb _); [by left|]. eapply outcome_bind; [apply (IH r n1); lia|].
  intros [[l e] n2] (A1 & A2 & A3 & A4 & A5 & A6). cbn.
  split_and!; [by constructor..| |done|lia]. unfold sumN in *. cbn [foldr]. lia.
Qed.

Lemma object_loop_spec fuel : forall names s n, length s < fuel ->
  outcome fails (fun '(l, r, n') => (NoDup l.*1 /\ (forall k, k ∈ l.*1 -> k ∉ names)) /\
    Forall (fun p => (valid p.1 /\ json_ok p.2) /\ height p.2 < levels /\ texts_valid p.2) l /\
    n' = (n + sumN (fun p => value_count p.2) l)%N /\ (n' <= max_json_values)%N /\ length r < length s)
    (object_loop read fuel names s n).
Proof using Hread.
  induction fuel as [|fuel IH]; intros names s n Hf; [lia|]. cbn [object_loop].
  pose proof (whitespace_length s) as Hw0. eapply outcome_bind; [apply read_string_spec|].
  intros [key s1] [Hkey Hl1]. destruct (bool_decide (key ∈ names)) eqn:En; [by left|].
  apply bool_decide_eq_false in En. cbn [throw_if mbind result_bind]. pose proof (whitespace_length s1) as Hw1.
  eapply outcome_bind; [apply expect_char_fails|]. intros s2 Hs2. cbn beta in Hs2.
  eapply outcome_bind; [apply Hread|]. intros [[v s3] n1] (H1 & H2 & H3 & H4 & H5 & H6).
  pose proof (whitespace_length s3) as Hw3. destruct (whitespace s3) as [|c r]; [by left|]. cbn [length] in Hw3.
  destruct (c =c "}").
  { cbn. split_and!; [apply NoDup_singleton|set_solver|by repeat constructor| |done|lia]. unfold sumN. cbn. lia. }
  destruct (negb _); [by left|]. eapply outcome_bind; [apply (IH ({[key]} ∪ names) r n1); lia|].
  intros [[l e] n2] ((A1 & A2) & A3 & A4 & A5 & A6). cbn.
  split_and!; [|intros k Hk|by repeat constructor| |done|lia].
  - apply NoDup_cons. split; [|done]. intros Hin. apply (A2 _ Hin). set_solver.
  - apply elem_of_cons in Hk as [->|Hk]; [done|]. specialize (A2 _ Hk). set_solver.
  - unfold sumN in *. cbn [foldr snd]. lia.
Qed.
End LoopsSpec.

Lemma Forall_height (l : list Json) levels :
  Forall (fun v => height v < levels) l -> foldr (fun x h => S (height x) `max` h) 0 l < S levels.
Proof. intros H. assert (foldr (fun x h => S (height x) `max` h) 0 l <= levels); [by apply foldr_max_le|lia]. Qed.

Lemma read_value_spec levels : forall s n, read_ok levels s n (read_value levels s n).
Proof.
  induction levels as [|levels IH]; intros s n; [by right|]. cbn [read_value].
  unfold throw_if. destruct (N.ltb_spec max_json_values (n + 1)) as [Hn|Hn]; [by right|]. cbn [mbind result_bind].
  pose proof (whitespace_length s) as Hw. set (s1 := whitespace s) in *. clearbody s1.
  assert (Hlit : forall w v, value_count v = 1%N -> height v = 0 -> json_ok v -> texts_valid v ->
    read_ok (S levels) s n (r ← literal w s1; Ret (v, r, (n + 1)%N))).
  { intros w v Hc Hh Ho Ht. unfold literal, read_ok. destruct (starts_with w s1); [|by left]. cbn.
    rewrite Hc, Hh, length_drop. split_and!; [done|lia|done|done|done|lia]. }
  assert (Htl : length (tail s1) <= length s) by (destruct s1; simpl in *; lia).
  destruct (_ =c "n"); [by apply Hlit|]. destruct (_ =c "t"); [by apply Hlit|]. destruct (_ =c "f"); [by apply Hlit|].
  destruct (_ =c dquote).
  { eapply outcome_bind; [apply read_string_spec|]. intros [t r] [Ht Hr]. unfold string_value. rewrite Ht. cbn.
    split_and!; [done|lia|done|done|done|lia]. }
  pose proof (whitespace_length (tail s1)) as Hwt. set (r := whitespace (tail s1)) in *. clearbody r.
  assert (Hr : length (tail r) <= length r) by (destruct r; simpl; lia).
  destruct (_ =c "[").
  { destruct (_ =c "]"); [cbn; split_and!; [done|lia|done|done|done|lia]|].
    eapply outcome_bind; [apply (array_loop_spec levels); [apply IH|lia]|].
    intros [[l e] n'] (A1 & A2 & A3 & A4 & A5 & A6). cbn -[height value_count].
    rewrite !foldr_and. cbn [height value_count]. split_and!; [done|by apply Forall_height|done|lia|done|lia]. }
  destruct (_ =c "{").
  { destruct (_ =c "}"); [cbn; split_and!; [constructor|done|lia|done|done|done|lia]|].
    eapply outcome_bind; [apply (object_loop_spec levels); [apply IH|lia]|].
    intros [[l e] n'] ((A1 & _) & A3 & A4 & A5 & A6). cbn -[height value_count].
    rewrite !foldr_and_pair. cbn [height value_count]. rewrite sumN_pair.
    split_and!; [done|by eapply Forall_impl; [exact A3|intros p [? _]]| | |lia|done|lia].
    - assert (foldr (fun '(_, x) h => S (height x) `max` h) 0 l <= levels); [|lia].
      apply (foldr_max_le_pair (fun x => S (height x))). eapply Forall_impl; [exact A3|]. intros p (_ & ? & _). lia.
    - eapply Forall_impl; [exact A3|]. intros p ((? & _) & _ & ?). done. }
  eapply outcome_bind; [apply read_json_number_spec|]. intros [v e] (H1 & H2 & H3 & H4 & H5). cbn.
  rewrite H2, H3. split_and!; [done|lia|done|done|done|lia].
Qed.

(** ** The limits of the encoder, and the two directions *)

Definition counted (m : result Encoder) : Prop := outcome fails (fun st => values_ st <= max_json_values)%N m.

Lemma counted_append s st : (values_ st <= max_json_values)%N -> counted (append s st).
Proof. intros H. unfold append, throw_if. destruct (_ <? _)%N; [by right|done]. Qed.

Lemma counted_bind m k :
  counted m -> (forall st, (values_ st <= max_json_values)%N -> counted (k st)) -> counted (x ← m; k x).
Proof. apply outcome_bind. Qed.

Lemma counted_quoted t st : (values_ st <= max_json_values)%N -> counted (quoted t st).
Proof.
  intros H. unfold quoted. destruct (validate_errors t) as [E|E]; rewrite E; [|by left]. apply counted_bind; [by apply counted_append|].
  clear st H. intros st H. apply counted_bind; [|intros; by apply counted_append].
  revert st H. induction (quoted_char <$> t) as [|s l IH]; intros st H; [done|]. cbn [append_all].
  apply counted_bind; [by apply counted_append|]. apply IH.
Qed.

Lemma counted_list {A} (item : A -> Encoder -> result Encoder) first l st :
  (forall x st, x ∈ l -> (values_ st <= max_json_values)%N -> counted (item x st)) ->
  (values_ st <= max_json_values)%N -> counted (write_list item first l st).
Proof.
  revert first st. induction l as [|x l IH]; intros first st Hi H; [done|]. cbn [write_list].
  apply counted_bind; [destruct first; [done|by apply counted_append]|]. intros st1 H1.
  apply counted_bind; [apply Hi; [constructor|done]|]. intros st2 H2. apply IH; [|done].
  intros. apply Hi; [by constructor|done].
Qed.

Lemma counted_write v : forall depth st, counted (write v depth st).
Proof.
  induction v as [|b|n t|t|l IH|l IH] using Json_ind'; intros depth st; cbn [write]; unfold throw_if;
    (destruct (_ || _) eqn:E; [by right|]); apply orb_false_iff in E as [_ E%N.ltb_ge]; cbn [mbind result_bind];
    cbn zeta; try (by apply counted_append); [by apply counted_quoted|..];
    (apply counted_bind; [by apply counted_append|]; intros st1 H1;
     apply counted_bind; [|intros; by apply counted_append]; apply counted_list; [|done]);
    rewrite Forall_forall in IH.
  - intros x st' Hx _. by apply IH.
  - intros [key x] st' Hx H. apply counted_bind; [by apply counted_quoted|]. intros st2 H2.
    apply counted_bind; [by apply counted_append|]. intros st3 _. apply (IH _ Hx).
Qed.

Lemma encode_fails v : outcome fails (fun _ => True) (encode_json v).
Proof.
  unfold encode_json. eapply outcome_bind; [apply (counted_write v 0)|]. done.
Qed.

Lemma encode_text v s : encode_json v = Ret s ->
  s = text_of v /\ (N.of_nat (length s) <= max_value_bytes)%N /\ height v <= max_json_depth /\
  (value_count v <= max_json_values)%N /\ texts_valid v.
Proof.
  unfold encode_json. intros (st & H & [= <-])%bind_Ret.
  pose proof (counted_write v 0 {| output_ := []; values_ := 0 |}) as Hc. rewrite H in Hc. cbn in Hc.
  pose proof (write_limits _ _ _ _ H) as (A1 & _ & A2). apply write_written in H as (H1 & H2 & H3).
  cbn [output_ values_ app N.add] in *. split_and!; [done|by apply H3|lia|lia|done].
Qed.

Lemma parse_text v : json_ok v -> (N.of_nat (length (text_of v)) <= max_value_bytes)%N ->
  height v <= max_json_depth -> (value_count v <= max_json_values)%N -> parse_json (text_of v) = Ret v.
Proof.
  intros Hok Hs Hh Hn. unfold parse_json, throw_if.
  rewrite (proj2 (N.ltb_ge _ _)) by done. cbn [mbind result_bind].
  rewrite <- (app_nil_r (text_of v)) at 1. rewrite (read_value_text v) by (done || lia). done.
Qed.

Lemma parse_encoded v s : json_ok v -> encode_json v = Ret s -> parse_json s = Ret v.
Proof. intros Hok (-> & Hs & Hh & Hn & _)%encode_text. by apply parse_text. Qed.

Lemma parse_json_spec s :
  outcome fails (fun v => json_ok v /\ texts_valid v /\ height v <= max_json_depth /\ (value_count v <= max_json_values)%N /\
    (N.of_nat (length s) <= max_value_bytes)%N) (parse_json s).
Proof.
  unfold parse_json, throw_if. destruct (N.ltb_spec max_value_bytes (N.of_nat (length s))) as [H|H]; [by right|].
  cbn [mbind result_bind]. eapply outcome_bind; [apply (read_value_spec (S max_json_depth))|].
  intros [[v r] n] (H1 & H2 & H3 & H4 & H5 & _). destruct (whitespace r); [|by left]. cbn.
  split_and!; [done..|lia|lia|done].
Qed.
(** What the encoder writes for a well-formed value (texts of valid UTF-8, numbers in the
    grammar with their value, distinct member names) the parser reads back as that same value,
    with the members in the same order and every number with the same spelling: when the
    encoder answers, the depth, the number of values and the size it has checked are within
    what the parser allows, so the parser never rejects an encoded value. *)
Theorem json_roundtrip v s : json_ok v -> encode_json v = Ret s -> parse_json s = Ret v.
Proof. apply parse_encoded. Qed.

(** C12: the parser ends on every input, with a well-formed value or one of the two documented
    errors: a text of more than one MiB is refused, and a value it answers has only valid
    texts, numbers of the JSON grammar, distinct member names, at most 64 levels below its
    root and at most 16384 values.  The recursion of the code is bounded by the depth. *)
Theorem json_parse_sound s :
  outcome fails (fun v => json_ok v /\ texts_valid v /\ height v <= max_json_depth /\ (value_count v <= max_json_values)%N /\
    (N.of_nat (length s) <= max_value_bytes)%N) (parse_json s).
Proof. apply parse_json_spec. Qed.
End Spec.

(** ** Witnesses *)

(** Integers, in decimal notation. *)
Definition decimal_chars (s : bytes) : option Z :=
  match s with
  | [] => None
  | c :: r =>
      let ds := if c =c "-" then r else s in
      if nonempty ds && forallb is_digit ds then
        Some (if c =c "-" then - Z.of_N (read_N ds) else Z.of_N (read_N ds))%Z
      else None
  end.

Definition decimal : Binary64 := {|
  double := Z;
  from_chars := decimal_chars;
  to_chars := fun z => (if z <? 0 then "-"%char :: print_N (Z.to_N (- z)) else print_N (Z.to_N z))%Z;
  is_trunc := fun _ => true;
  within_safe := fun z => (Z.abs z <=? 9007199254740991)%Z;
  is_zero := fun z => (z =? 0)%Z;
  zero := 0%Z;
  of_integer := Z.of_N |}.

Definition sample_json : @Json decimal :=
  JObject [(lit "a", JArray [JNull; @JNumber decimal (-20)%Z (lit "-20"); JString (lit "x\y")]); (lit "b", JBoolean true)].

Definition sample_json_text : bytes :=
  lit "{" ++ [dquote] ++ lit "a" ++ [dquote] ++ lit ":[null,-20," ++ [dquote] ++ lit "x\\y" ++ [dquote] ++ lit "],"
    ++ [dquote] ++ lit "b" ++ [dquote] ++ lit ":true}".

Lemma json_roundtrip_witness :
  json_ok sample_json /\ encode_json sample_json = Ret sample_json_text /\
  @parse_json decimal sample_json_text = Ret sample_json.
Proof.
  assert (Hok : json_ok sample_json).
  { cbn. split; [repeat constructor; set_solver|].
    repeat apply conj; try exact I; try (vm_compute; reflexivity).
    exists (lit "-"), (lit "20"), [], []. split; [reflexivity|]. split; [by right|]. split; [|split; by left].
    right. exists "2"%char, (lit "0"). done. }
  assert (He : encode_json sample_json = Ret sample_json_text) by (vm_compute; reflexivity).
  split; [exact Hok|]. split; [exact He|]. exact (json_roundtrip sample_json sample_json_text Hok He).
Defined.

(** The text of what the parser reads, or its error. *)
Definition reprint (s : bytes) : result bytes := v ← @parse_json decimal s; encode_json v.

Example parse_examples :
  reprint (lit " [ 1 , [ ] ] ") = Ret (lit "[1,[]]") /\
  reprint (lit "[1,]") = Throw InvalidArgument /\
  reprint (lit "01") = Throw InvalidArgument /\
  reprint (lit "{" ++ [dquote; dquote] ++ lit ":1," ++ [dquote; dquote] ++ lit ":2}") = Throw InvalidArgument /\
  reprint (replicate 66 "["%char) = Throw ResourceLimit.
Proof. repeat apply conj; vm_compute; reflexivity. Qed.
