(* ===== verification/Rpc.v ===== *)
(** * The JSON-RPC module: [flatworm-modules/rpc/src/protocol.cpp], [module.cpp]

    The checks of JSON-RPC 2.0 messages, their construction, the correlation of responses
    with requests, and the functions the module exports to a host through the C interface
    of [include/Flatwork-Module.h].  A pointer that may be null is an [option] (or a
    constructor of its own); the state of a module is its next automatic identifier.  The
    host's [set_result] is a parameter of each call. *)
From S2P Require Import Prelude Html Json.

Section Rpc.
Context {F : Binary64}.

Definition max_batch_size : nat := 128.
Definition max_method_bytes : nat := 1024.
Definition max_safe_integer : N := 9007199254740991.

Abbreviation invalid := (Throw InvalidArgument).

(** ** Identifiers *)

Definition exponent_mark (c : ascii) : bool := (c =c "e") || (c =c "E").

(** [mantissa], [fraction], [exponent] and [trailing_zeros] of [safe_integer]. *)
Definition mantissa (token : bytes) : bytes :=
  match find_if exponent_mark token with Some n => take n token | None => token end.

Definition fraction (m : bytes) : Z :=
  match find_if (fun c => c =c ".") m with
  | Some dot => Z.of_nat (length m) - Z.of_nat dot - 1
  | None => 0
  end.

Definition exponent_cap : Z := Z.of_N max_value_bytes + 32.

Definition exponent_digits (s : bytes) : Z :=
  foldl (fun e c => Z.min exponent_cap (e * 10 + (Z.of_N (code c) - 48)))%Z 0%Z s.

Definition exponent (token : bytes) : Z :=
  match find_if exponent_mark token with
  | None => 0
  | Some n =>
      let s := drop (n + 1) token in
      let negative := peek s =c "-" in
      let e := exponent_digits (if negative || (peek s =c "+") then tail s else s) in
      if negative then - e else e
  end.

(** The loop from the end of the mantissa; [shift] is [fraction - exponent]. *)
Fixpoint trailing_loop (shift trailing_zeros : Z) (reversed : bytes) : bool :=
  match reversed with
  | [] => true
  | c :: r =>
      if (c =c ".") || (c =c "-") then trailing_loop shift trailing_zeros r
      else if negb (c =c "0") then (shift <=? trailing_zeros)%Z
      else trailing_loop shift (trailing_zeros + 1) r
  end.

Definition integral_token (token : bytes) : bool :=
  trailing_loop (fraction (mantissa token) - exponent token) 0 (reverse (mantissa token)).

Definition safe_integer (v : Json) : bool :=
  match v with
  | JNumber number text => is_trunc number && within_safe number && integral_token text
  | _ => false
  end.

Definition validate_id (id : Json) : result unit :=
  match id with
  | JNull | JString _ => Ret tt
  | _ => throw_if (negb (safe_integer id)) InvalidArgument
  end.

Definition id_key (id : Json) : result bytes :=
  _ ← validate_id id;
  Ret (match id with
       | JNull => lit "null"
       | JString text => lit "s:" ++ text
       | JNumber number _ => lit "n:" ++ to_chars (if is_zero number then zero else number)
       | _ => []
       end).

Definition same_id (left right : Json) : result bool :=
  l ← id_key left; r ← id_key right; Ret (l =s r).

(** ** Messages *)

Definition method_name (method : bytes) : result unit :=
  _ ← throw_if (max_method_bytes <? length method)%nat ResourceLimit;
  _ ← throw_if (starts_with (lit "rpc.") method) InvalidArgument;
  validate_utf8 method.

Definition params_value (params : Json) : result unit :=
  match params with JObject _ | JArray _ => Ret tt | _ => invalid end.

Definition version (v : Json) : result unit :=
  match json_find (lit "jsonrpc") v with
  | Some (JString text) => throw_if (negb (text =s lit "2.0")) InvalidArgument
  | _ => invalid
  end.

(** A check of an optional member. *)
Definition when_some (check : Json -> result unit) (x : option Json) : result unit :=
  match x with Some v => check v | None => Ret tt end.

Definition has (key : string) (v : Json) : bool := bool_decide (is_Some (json_find (lit key) v)).

(** [each_message] with the state its visitor captures. *)
Fixpoint visit_all {S} (visit : Json -> S -> result S) (l : list Json) (s : S) : result S :=
  match l with
  | [] => Ret s
  | x :: l' => s' ← visit x s; visit_all visit l' s'
  end.

Definition each_message {S} (value : Json) (visit : Json -> S -> result S) (s : S) : result S :=
  match value with
  | JArray l =>
      _ ← throw_if (bool_decide (l = [])) InvalidArgument;
      _ ← throw_if (max_batch_size <? length l)%nat ResourceLimit;
      visit_all visit l s
  | _ => visit value s
  end.

Definition validate_request (v : Json) : result unit :=
  _ ← version v;
  match json_find (lit "method") v with
  | Some (JString method) =>
      _ ← throw_if (has "result" v || has "error" v) InvalidArgument;
      _ ← method_name method;
      _ ← when_some params_value (json_find (lit "params") v);
      when_some validate_id (json_find (lit "id") v)
  | _ => invalid
  end.

Definition validate_requests (v : Json) : result unit := each_message v (fun x _ => validate_request x) tt.

(** The members of an error object. *)
Definition validate_error (failed : Json) : result unit :=
  match json_find (lit "code") failed, json_find (lit "message") failed with
  | Some code, Some (JString _) => throw_if (negb (safe_integer code)) InvalidArgument
  | _, _ => invalid
  end.

Definition validate_response (v : Json) : result unit :=
  _ ← version v;
  match json_find (lit "id") v with
  | None => invalid
  | Some id =>
      _ ← throw_if (Bool.eqb (negb (has "result" v)) (negb (has "error" v)) || has "method" v || has "params" v) InvalidArgument;
      _ ← validate_id id;
      when_some validate_error (json_find (lit "error") v)
  end.

Definition validate_responses (v : Json) : result unit := each_message v (fun x _ => validate_response x) tt.

(** ** Construction *)

Definition envelope (id : Json) : result Json :=
  _ ← validate_id id;
  version_value ← string_value (lit "2.0");
  Ret (json_put (lit "id") id (json_put (lit "jsonrpc") version_value (JObject []))).

(** [put] of a member that may be missing. *)
Definition put_some (key : bytes) (x : option Json) (v : Json) : Json :=
  match x with Some y => json_put key y v | None => v end.

Definition request (method : bytes) (params id : option Json) : result Json :=
  _ ← method_name method;
  _ ← when_some params_value params;
  _ ← when_some validate_id id;
  version_value ← string_value (lit "2.0");
  method_value ← string_value method;
  Ret (put_some (lit "id") id (put_some (lit "params") params
        (json_put (lit "method") method_value (json_put (lit "jsonrpc") version_value (JObject []))))).

(** [result] and [error] of the source. *)
Definition result_reply (id value : Json) : result Json :=
  reply ← envelope id; Ret (json_put (lit "result") value reply).

Definition error_reply (id code : Json) (message : bytes) (data : option Json) : result Json :=
  _ ← throw_if (negb (safe_integer code)) InvalidArgument;
  reply ← envelope id;
  message_value ← string_value message;
  Ret (json_put (lit "error")
        (put_some (lit "data") data (json_put (lit "message") message_value (json_put (lit "code") code (JObject [])))) reply).

(** ** Batches *)

(** Insertion of an identifier's key, which must be new. *)
Definition insert_id (item : Json) (ids : gset bytes) : result (gset bytes) :=
  match json_find (lit "id") item with
  | None => Ret ids
  | Some id =>
      key ← id_key id;
      _ ← throw_if (bool_decide (key ∈ ids)) InvalidArgument;
      Ret ({[key]} ∪ ids)
  end.

Definition batch (requests : Json) : result Json :=
  match requests with
  | JArray l =>
      _ ← validate_requests requests;
      _ ← visit_all insert_id l ∅;
      Ret requests
  | _ => invalid
  end.

(** The first visitor of [correlate]: [order] and [expected]. *)
Definition expect_id (item : Json) (st : list bytes * gset bytes) : result (list bytes * gset bytes) :=
  match json_find (lit "id") item with
  | None => Ret st
  | Some id =>
      key ← id_key id;
      _ ← throw_if (bool_decide (key ∈ st.2)) InvalidArgument;
      Ret (st.1 ++ [key], {[key]} ∪ st.2)
  end.

(** The second one: [received]. *)
Definition receive (expected : gset bytes) (item : Json) (received : gmap bytes Json) : result (gmap bytes Json) :=
  match json_find (lit "id") item with
  | None => Throw Internal
  | Some id =>
      key ← id_key id;
      _ ← throw_if (negb (bool_decide (key ∈ expected)) || bool_decide (is_Some (received !! key))) InvalidArgument;
      Ret (<[key := item]> received)
  end.

Definition is_array (v : Json) : bool := match v with JArray _ => true | _ => false end.

(** [received.at] of every key. *)
Fixpoint collect (received : gmap bytes Json) (order : list bytes) : result (list Json) :=
  match order with
  | [] => Ret []
  | key :: order' =>
      match received !! key with
      | None => Throw Internal
      | Some v => l ← collect received order'; Ret (v :: l)
      end
  end.

Definition correlate (requests : Json) (responses : option Json) : result Json :=
  _ ← validate_requests requests;
  '(order, expected) ← each_message requests expect_id ([], ∅);
  match responses with
  | None => _ ← throw_if (negb (bool_decide (order = []))) InvalidArgument; Ret (JArray [])
  | Some responses =>
      _ ← throw_if (bool_decide (order = []) || negb (Bool.eqb (is_array requests) (is_array responses))) InvalidArgument;
      _ ← validate_responses responses;
      received ← each_message responses (receive expected) ∅;
      _ ← throw_if (negb (size received =? length order)%nat) InvalidArgument;
      l ← collect received order;
      Ret (JArray l)
  end.

(** ** The module *)

Inductive FlatwormStatus := STATUS_OK | STATUS_ERROR | STATUS_INVALID_ARGUMENT | STATUS_RESOURCE_LIMIT.

(** A pointer and a size. *)
Inductive FlatwormBytes := Bytes (data : bytes) | NullBytes (size : N).

(** The type code with the field it selects; a number that is not finite is [None]. *)
Inductive FlatwormValue :=
  | VUndefined
  | VNull
  | VBoolean (boolean : bool)
  | VNumber (number : option double)
  | VString (b : FlatwormBytes)
  | VJson (b : FlatwormBytes)
  | VUnknown (type : N).

Record FlatwormModuleHostApi := {
  abi_version : N; struct_size : N; set_result : option (bytes -> FlatwormStatus) }.

(** [arguments] and [argument_count]. *)
Inductive FlatwormArguments := ArgumentList (l : list FlatwormValue) | NullArguments (count : nat).

Record Instance_ := { next_id : N }.

(** The call's [instance] is the state of the module, or null. *)
Record FlatwormCall := { api : option FlatwormModuleHostApi; call_instance : bool; arguments : FlatwormArguments }.

Record Output := { value : Json; advance_id : bool }.

(** [sizeof(FlatwormModuleHostApi)] depends on the platform. *)
Variable host_api_size : N.

Definition host_api (a : option FlatwormModuleHostApi) : option (bytes -> FlatwormStatus) :=
  match a with
  | Some a => if (abi_version a =? 1)%N && (host_api_size <=? struct_size a)%N then set_result a else None
  | None => None
  end.

(** [bytes] of the source. *)
Definition bytes_of (b : FlatwormBytes) : bytes := match b with Bytes s => s | NullBytes _ => [] end.
Definition bytes_size (b : FlatwormBytes) : N := match b with Bytes s => N.of_nat (length s) | NullBytes n => n end.

Definition string_argument (v : FlatwormValue) : result bytes :=
  match v with VString b => Ret (bytes_of b) | _ => invalid end.

Definition json_argument (v : FlatwormValue) : result Json :=
  match v with
  | VNull => Ret JNull
  | VBoolean b => Ret (boolean_value b)
  | VNumber (Some x) => Ret (number_value x)
  | VString b => string_value (bytes_of b)
  | VJson b => parse_json (bytes_of b)
  | _ => invalid
  end.

Definition wire_argument (v : FlatwormValue) : result Json :=
  match v with VString b => parse_json (bytes_of b) | _ => json_argument v end.

Definition optional_json (args : list FlatwormValue) (index : nat) : result (option Json) :=
  match args !! index with
  | None | Some VUndefined => Ret None
  | Some v => x ← json_argument v; Ret (Some x)
  end.

(** [args[index]]: the count has been checked. *)
Definition argument (args : list FlatwormValue) (index : nat) : result FlatwormValue :=
  match args !! index with Some v => Ret v | None => Throw Internal end.

Abbreviation Operation := (list FlatwormValue -> Instance_ -> result Output).

Definition plain (v : Json) : Output := {| value := v; advance_id := false |}.

Definition request_operation (args : list FlatwormValue) (i : Instance_) : result Output :=
  params ← optional_json args 1;
  id ← optional_json args 2;
  let automatic := bool_decide (id = None) in
  id ← (match id with
        | Some id => Ret id
        | None => _ ← throw_if (max_safe_integer <? next_id i)%N ResourceLimit; Ret (number_value (of_integer (next_id i)))
        end);
  a ← argument args 0;
  method ← string_argument a;
  v ← request method params (Some id);
  Ret {| value := v; advance_id := automatic |}.

Definition notification_operation (args : list FlatwormValue) (_ : Instance_) : result Output :=
  params ← optional_json args 1;
  a ← argument args 0;
  method ← string_argument a;
  v ← request method params None;
  Ret (plain v).

Definition batch_operation (args : list FlatwormValue) (_ : Instance_) : result Output :=
  a ← argument args 0;
  x ← wire_argument a;
  v ← batch x;
  Ret (plain v).

Definition result_operation (args : list FlatwormValue) (_ : Instance_) : result Output :=
  a ← argument args 0; b ← argument args 1;
  id ← json_argument a; x ← json_argument b;
  v ← result_reply id x;
  Ret (plain v).

Definition error_operation (args : list FlatwormValue) (_ : Instance_) : result Output :=
  data ← optional_json args 3;
  a ← argument args 0; b ← argument args 1; c ← argument args 2;
  id ← json_argument a; code ← json_argument b; message ← string_argument c;
  v ← error_reply id code message data;
  Ret (plain v).

Definition parse_request_operation (args : list FlatwormValue) (_ : Instance_) : result Output :=
  a ← argument args 0;
  v ← wire_argument a;
  _ ← validate_requests v;
  Ret (plain v).

Definition parse_response_operation (args : list FlatwormValue) (_ : Instance_) : result Output :=
  a ← argument args 0;
  v ← wire_argument a;
  _ ← validate_responses v;
  expected ← optional_json args 1;
  _ ← when_some (fun expected =>
         match json_find (lit "id") v with
         | None => invalid
         | Some id => same ← same_id id expected; throw_if (negb same) InvalidArgument
         end) expected;
  Ret (plain v).

(** Two arguments, the second neither undefined nor null nor a blank string. *)
Definition has_responses (args : list FlatwormValue) : bool :=
  match args with
  | [_; VUndefined] | [_; VNull] => false
  | [_; VString b] => negb (forallb json_space (bytes_of b))
  | [_; _] => true
  | _ => false
  end.

Definition correlate_operation (args : list FlatwormValue) (_ : Instance_) : result Output :=
  a ← argument args 0;
  requests ← wire_argument a;
  responses ← (if has_responses args then b ← argument args 1; x ← wire_argument b; Ret (Some x) else Ret None);
  v ← correlate requests responses;
  Ret (plain v).

(** The sizes of the arguments, whose sum is bounded. *)
Fixpoint check_arguments (total : N) (args : list FlatwormValue) : result unit :=
  match args with
  | [] => Ret tt
  | VUnknown _ :: _ => invalid
  | (VString b | VJson b) :: args' =>
      _ ← throw_if (size_sub max_value_bytes total <? bytes_size b)%N ResourceLimit;
      _ ← throw_if (match b with NullBytes n => negb (n =? 0)%N | _ => false end) InvalidArgument;
      check_arguments (total + bytes_size b) args'
  | _ :: args' => check_arguments total args'
  end.

Definition argument_count (a : FlatwormArguments) : nat :=
  match a with ArgumentList l => length l | NullArguments n => n end.
Definition argument_list (a : FlatwormArguments) : list FlatwormValue :=
  match a with ArgumentList l => l | NullArguments _ => [] end.
Definition null_arguments (a : FlatwormArguments) : bool :=
  match a with NullArguments n => negb (n =? 0)%nat | _ => false end.

(** The checks of a call; its host's [set_result]. *)
Definition checked_call (call : option FlatwormCall) (minimum maximum : nat)
  : result (FlatwormCall * (bytes -> FlatwormStatus)) :=
  match call with
  | None => invalid
  | Some call =>
      match host_api (api call) with
      | None => invalid
      | Some set_result =>
          let n := argument_count (arguments call) in
          _ ← throw_if (negb (call_instance call) || (n <? minimum)%nat || (maximum <? n)%nat ||
                        null_arguments (arguments call)) InvalidArgument;
          Ret (call, set_result)
      end
  end.

Definition failure_status (e : ErrorCode) : FlatwormStatus :=
  match e with
  | InvalidArgument => STATUS_INVALID_ARGUMENT
  | ResourceLimit => STATUS_RESOURCE_LIMIT
  | _ => STATUS_ERROR
  end.

Definition is_ok (s : FlatwormStatus) : bool := match s with STATUS_OK => true | _ => false end.

(** The status with the next state of the module, and what was given to [set_result]. *)
Definition invoke (call : option FlatwormCall) (minimum maximum : nat) (operation : Operation) (i : Instance_)
  : FlatwormStatus * Instance_ * option bytes :=
  match
    '(call, set_result) ← checked_call call minimum maximum;
    let args := argument_list (arguments call) in
    _ ← check_arguments 0 args;
    output ← operation args i;
    encoded ← encode_json (value output);
    Ret (set_result, output, encoded)
  with
  | Throw e => (failure_status e, i, None)
  | Ret (set_result, output, encoded) =>
      let status := set_result encoded in
      (status, if is_ok status && advance_id output then {| next_id := next_id i + 1 |} else i, Some encoded)
  end.

Inductive Function_ :=
  | FRequest | FNotification | FBatch | FResult | FError | FParseRequest | FParseResponse | FCorrelate.

(** The exported functions and their callbacks. *)
Definition functions : list (bytes * nat * Function_) :=
  [(lit "request", 3, FRequest); (lit "notification", 2, FNotification); (lit "batch", 1, FBatch);
   (lit "result", 2, FResult); (lit "error", 4, FError); (lit "parseRequest", 1, FParseRequest);
   (lit "parseResponse", 2, FParseResponse); (lit "correlate", 2, FCorrelate)].

Definition callback (f : Function_) (call : option FlatwormCall) : Instance_ -> FlatwormStatus * Instance_ * option bytes :=
  match f with
  | FRequest => invoke call 1 3 request_operation
  | FNotification => invoke call 1 2 notification_operation
  | FBatch => invoke call 1 1 batch_operation
  | FResult => invoke call 2 2 result_operation
  | FError => invoke call 3 4 error_operation
  | FParseRequest => invoke call 1 1 parse_request_operation
  | FParseResponse => invoke call 1 2 parse_response_operation
  | FCorrelate => invoke call 1 2 correlate_operation
  end.

(** The host's own API, and the module's state at start. *)
Definition initialize (a : option FlatwormModuleHostApi) (instance : bool) : FlatwormStatus * option Instance_ :=
  if negb instance then (STATUS_INVALID_ARGUMENT, None)
  else match host_api a with
       | None => (STATUS_INVALID_ARGUMENT, None)
       | Some _ => (STATUS_OK, Some {| next_id := 1 |})
       end.

End Rpc.

(** ** Integral decimal numbers *)

(** The signed exponent of a number's exponent part. *)
Definition exponent_value (exp : bytes) : Z :=
  match exp with
  | [] => 0
  | _ :: s =>
      if peek s =c "-" then - Z.of_N (read_N (tail s))
      else Z.of_N (read_N (if peek s =c "+" then tail s else s))
  end.

Definition power10 (n : Z) : Z := 10 ^ Z.max 0 n.

(** [digits_value * 10 ^ (exponent - length fraction)] is an integer. *)
Definition integral_value (int frac exp : bytes) : Prop :=
  let m := Z.of_N (read_N (int ++ tail frac)) in
  let p := (exponent_value exp - Z.of_nat (length (tail frac)))%Z in
  exists n : Z, (m * power10 p = n * power10 (- p))%Z.

Lemma read_N_snoc s c : read_N (s ++ [c]) = (read_N s * 10 + (code c - 48))%N.
Proof. unfold read_N. by rewrite foldl_snoc. Qed.

Lemma power10_pos n : (0 < power10 n)%Z.
Proof. unfold power10. lia. Qed.

Lemma power10_step n : (0 < n)%Z -> power10 n = (10 * power10 (n - 1))%Z.
Proof.
  intros H. unfold power10. rewrite !Z.max_r by lia. replace n with (Z.succ (n - 1)) at 1 by lia.
  by rewrite Z.pow_succ_r by lia.
Qed.

Lemma power10_zero n : (n <= 0)%Z -> power10 n = 1%Z.
Proof. intros H. unfold power10. by rewrite Z.max_l by lia. Qed.

Lemma integral_divide int frac exp :
  integral_value int frac exp <->
  (power10 (Z.of_nat (length (tail frac)) - exponent_value exp) | Z.of_N (read_N (int ++ tail frac)))%Z.
Proof.
  unfold integral_value. cbn zeta. set (m := Z.of_N _). set (f := Z.of_nat _). set (e := exponent_value exp).
  replace (- (e - f))%Z with (f - e)%Z by lia. destruct (Z.le_gt_cases (f - e) 0) as [H|H].
  - rewrite (power10_zero (f - e)) by done. split; [intros _; apply Z.divide_1_l|]. intros _.
    exists (m * power10 (e - f))%Z. lia.
  - rewrite (power10_zero (e - f)) by lia. unfold Z.divide. by setoid_rewrite Z.mul_1_r at 1.
Qed.

(** What the loop over the mantissa decides. *)
Lemma trailing_loop_spec m : forall shift z, forallb (fun c => is_digit c || (c =c ".") || (c =c "-")) m = true ->
  trailing_loop shift z (reverse m) = true <->
  (power10 (shift - z) | Z.of_N (read_N (filter (fun c => is_digit c = true) m)))%Z.
Proof.
  induction m as [|c m IH] using rev_ind; intros shift z Hm.
  { cbn. split; [intros _; apply Z.divide_0_r|done]. }
  rewrite forallb_app in Hm. apply andb_true_iff in Hm as [Hm Hc]. cbn [forallb] in Hc. rewrite andb_true_r in Hc.
  rewrite reverse_snoc, filter_app. cbn [trailing_loop].
  assert (Hd : is_digit c = true \/ (is_digit c = false /\ ((c =c ".") || (c =c "-")) = true)) by (revert Hc; clear; by_ascii c; auto).
  destruct Hd as [Hd|[Hd Hp]].
  - rewrite (filter_cons_True _ c) by done. rewrite filter_nil, read_N_snoc.
    assert (((c =c ".") || (c =c "-")) = false) as -> by (revert Hd; clear; by_ascii c).
    set (M := read_N _) in *. destruct (c =c "0") eqn:E0; cbn [negb].
    + apply eqc_true in E0 as ->. rewrite IH by done. fold M. change (code "0" - 48)%N with 0%N. rewrite N.add_0_r, N2Z.inj_mul.
      change (Z.of_N 10) with 10%Z. destruct (Z.le_gt_cases (shift - z) 0) as [H|H].
      * rewrite !power10_zero by lia. split; intros _; apply Z.divide_1_l.
      * rewrite (power10_step (shift - z)) by lia. replace (shift - z - 1)%Z with (shift - (z + 1))%Z by lia.
        rewrite (Z.mul_comm _ 10). split; [apply Z.mul_divide_mono_l|apply Z.mul_divide_cancel_l; lia].
    + assert (Hr : (0 < code c - 48 < 10)%N) by (revert Hd E0; clear; by_ascii c).
      rewrite Z.leb_le. split.
      * intros H. rewrite power10_zero by lia. apply Z.divide_1_l.
      * intros H. destruct (Z.le_gt_cases (shift - z) 0) as [?|Hp]; [lia|exfalso].
        rewrite (power10_step (shift - z)) in H by lia. destruct H as [k H]. rewrite N2Z.inj_add, N2Z.inj_mul in H. lia.
  - rewrite Hp, IH by done. rewrite (filter_cons_False _ c) by (by rewrite Hd). by rewrite filter_nil, app_nil_r.
Qed.

Lemma read_N_cons c ds : read_N (c :: ds) = ((code c - 48) * 10 ^ N.of_nat (length ds) + read_N ds)%N.
Proof.
  induction ds as [|d ds IH] using rev_ind; [cbn; lia|].
  change (c :: ds ++ [d]) with ((c :: ds) ++ [d]). rewrite !read_N_snoc, IH, length_app. cbn [length].
  rewrite Nat2N.inj_add, N.pow_add_r. change (10 ^ N.of_nat 1)%N with 10%N. lia.
Qed.

Lemma read_N_bound ds : forallb is_digit ds = true -> (read_N ds < 10 ^ N.of_nat (length ds))%N.
Proof.
  induction ds as [|d ds IH] using rev_ind; intros H; [cbn; lia|].
  rewrite forallb_app in H. apply andb_true_iff in H as [H Hd]. cbn [forallb] in Hd. rewrite andb_true_r in Hd.
  rewrite read_N_snoc, length_app. cbn [length]. rewrite Nat2N.inj_add, N.pow_add_r. change (10 ^ N.of_nat 1)%N with 10%N.
  assert (code d - 48 < 10)%N by (revert Hd; clear; by_ascii d). specialize (IH H). lia.
Qed.

Lemma capped_digits cap ds : (0 <= cap)%Z -> forallb is_digit ds = true ->
  foldl (fun e c => Z.min cap (e * 10 + (Z.of_N (code c) - 48)))%Z 0%Z ds = Z.min cap (Z.of_N (read_N ds)).
Proof.
  intros Hc. induction ds as [|d ds IH] using rev_ind; intros H; [cbn; lia|].
  rewrite forallb_app in H. apply andb_true_iff in H as [H Hd]. cbn [forallb] in Hd. rewrite andb_true_r in Hd.
  rewrite foldl_snoc, read_N_snoc, IH by done.
  assert (48 <= code d)%N by (revert Hd; clear; by_ascii d). lia.
Qed.

Lemma none_digits (p : ascii -> bool) ds :
  (forall c, is_digit c = true -> p c = false) -> forallb is_digit ds = true -> none p ds = true.
Proof.
  intros Hp. induction ds as [|d ds IH]; [done|]. cbn [forallb]. intros [Hd H]%andb_true_iff. by rewrite Hp, IH.
Qed.

(** The parts of a token of the grammar. *)
Record parts (sign int frac exp : bytes) : Prop := {
  p_sign : sign = [] \/ sign = lit "-";
  p_int : digits int;
  p_frac : frac = [] \/ exists ds, frac = "."%char :: ds /\ digits ds;
  p_exp : exp = [] \/ exists e sg ds, exp = e :: sg ++ ds /\ (e = "e"%char \/ e = "E"%char) /\
            (sg = [] \/ sg = lit "+" \/ sg = lit "-") /\ digits ds }.

Lemma number_parts t : json_number t -> exists sign int frac exp, t = sign ++ int ++ frac ++ exp /\ parts sign int frac exp.
Proof.
  intros (sign & int & frac & exp & -> & Hs & Hi & Hf & He). exists sign, int, frac, exp. split; [done|]. split; try done.
  destruct Hi as [->|(c & ds & -> & Hc & Hd)]; [done|]. split; [done|]. cbn [forallb]. rewrite Hd, andb_true_r.
  revert Hc. clear. by_ascii c.
Qed.

Section Parts.
Context (sign int frac exp : bytes) (P : parts sign int frac exp).

Let m := sign ++ int ++ frac.

Lemma parts_no_mark : none exponent_mark m = true.
Proof using P.
  destruct P as [Hs [_ Hi] Hf _]. unfold m. rewrite !none_app.
  rewrite (none_digits _ int) by (done || intros c; by_ascii c).
  apply andb_true_iff. split; [by destruct Hs as [->| ->]|].
  destruct Hf as [->|(ds & -> & _ & Hd)]; [done|]. cbn [forallb]. rewrite (none_digits _ ds) by (done || intros c; by_ascii c). done.
Qed.

Lemma exp_head : exp = [] \/ exists e s, exp = e :: s /\ exponent_mark e = true.
Proof using P. destruct P as [_ _ _ [->|(e & sg & ds & -> & [->| ->] & _)]]; [by left|right..]; by eexists _, _. Qed.

Lemma parts_mark : find_if exponent_mark (m ++ exp) = match exp with [] => None | _ => Some (length m) end.
Proof using P.
  pose proof parts_no_mark as Hn. destruct exp_head as [->|(e & s & -> & He)].
  - rewrite app_nil_r. by apply find_if_None.
  - by apply find_if_mid.
Qed.

Lemma parts_mantissa : mantissa (m ++ exp) = m.
Proof using P. unfold mantissa. rewrite parts_mark. destruct exp; [by rewrite app_nil_r|by rewrite take_app_length]. Qed.

Lemma parts_fraction : fraction m = Z.of_nat (length (tail frac)).
Proof using P.
  destruct P as [Hs [_ Hi] Hf _]. unfold fraction, m. rewrite app_assoc.
  assert (Hn : none (fun c => c =c ".") (sign ++ int) = true).
  { rewrite none_app, (none_digits _ int) by (done || intros c; by_ascii c). by destruct Hs as [->| ->]. }
  destruct Hf as [->|(ds & -> & _ & Hd)].
  - rewrite app_nil_r. by rewrite (proj2 (find_if_None _ _) Hn).
  - rewrite find_if_mid by done. rewrite !length_app. cbn [length tail]. lia.
Qed.

Lemma parts_exponent : exponent (m ++ exp) =
  (if exponent_value exp <? 0 then - Z.min exponent_cap (- exponent_value exp)
   else Z.min exponent_cap (exponent_value exp))%Z.
Proof using P.
  unfold exponent. rewrite parts_mark. destruct P as [_ _ _ He]. destruct He as [->|(e & sg & ds & -> & _ & Hsg & Hne & Hd)].
  { unfold exponent_cap. cbn [exponent_value]. change (0 <? 0)%Z with false. cbn iota. lia. }
  rewrite drop_app_S. unfold exponent_value, exponent_digits.
  assert (H0 : (0 <= exponent_cap)%Z) by (unfold exponent_cap; lia).
  assert (Hp : (peek ds =c "-") = false /\ (peek ds =c "+") = false).
  { destruct ds as [|d ds]; [done|]. cbn [forallb] in Hd. apply andb_true_iff in Hd as [Hd _]. cbn [peek].
    revert Hd. clear. by_ascii d. }
  destruct Hp as [Hp1 Hp2].
  destruct Hsg as [->|[->| ->]]; cbn [app].
  - rewrite Hp1, Hp2. cbn [orb]. rewrite capped_digits by done. rewrite (proj2 (Z.ltb_ge _ _)) by lia. done.
  - change (peek (lit "+" ++ ds) =c "-") with false. change (peek (lit "+" ++ ds) =c "+") with true.
    cbn [orb]. cbn iota. change (tail (lit "+" ++ ds)) with ds. rewrite capped_digits by done.
    rewrite (proj2 (Z.ltb_ge _ _)) by lia. done.
  - change (peek (lit "-" ++ ds) =c "-") with true. cbn [orb]. cbn iota. change (tail (lit "-" ++ ds)) with ds.
    rewrite capped_digits by done. destruct (Z.ltb_spec (- Z.of_N (read_N ds)) 0); lia.
Qed.

Lemma parts_digits : filter (fun c => is_digit c = true) m = int ++ tail frac.
Proof using P.
  assert (Hf : forall ds, forallb is_digit ds = true -> filter (fun c => is_digit c = true) ds = ds).
  { induction ds as [|d ds IH]; [done|]. cbn [forallb]. intros [Hd H]%andb_true_iff. rewrite filter_cons_True by done. by rewrite IH. }
  destruct P as [Hs [_ Hi] Hfr _]. unfold m. rewrite !filter_app, (Hf int) by done.
  assert (filter (fun c => is_digit c = true) sign = []) as -> by (by destruct Hs as [->| ->]).
  destruct Hfr as [->|(ds & -> & _ & Hd)]; [done|]. rewrite filter_cons_False by done. by rewrite Hf.
Qed.

Lemma parts_loop : forallb (fun c => is_digit c || (c =c ".") || (c =c "-")) m = true.
Proof using P.
  assert (Hf : forall ds, forallb is_digit ds = true -> forallb (fun c => is_digit c || (c =c ".") || (c =c "-")) ds = true).
  { induction ds as [|d ds IH]; [done|]. cbn [forallb]. intros [-> H]%andb_true_iff. by rewrite IH. }
  destruct P as [Hs [_ Hi] Hfr _]. unfold m. rewrite !forallb_app, (Hf int) by done.
  apply andb_true_iff. split; [by destruct Hs as [->| ->]|].
  destruct Hfr as [->|(ds & -> & _ & Hd)]; [done|]. cbn [forallb]. by rewrite Hf.
Qed.
End Parts.

Lemma power10_divides_bound k (m : Z) (n : N) : (0 <= m < 10 ^ Z.of_N n)%Z -> (Z.of_N n <= k)%Z -> (power10 k | m)%Z -> m = 0%Z.
Proof.
  intros Hm Hk Hd. destruct (Z.eq_dec m 0) as [?|Hn]; [done|exfalso]. apply Z.divide_pos_le in Hd; [|lia].
  assert (10 ^ Z.of_N n <= power10 k)%Z; [|lia]. unfold power10. apply Z.pow_le_mono_r; lia.
Qed.

(** The textual check of a numeric identifier is exact: for a token of the JSON grammar
    within the size limit, it accepts exactly when the decimal number the token spells, with
    its fraction and its exponent of any size, is an integer.  The cap on the exponent, which
    keeps the arithmetic in 64 bits, never changes the answer. *)
Theorem integral_token_exact sign int frac exp :
  parts sign int frac exp -> (N.of_nat (length (sign ++ int ++ frac ++ exp)) <= max_value_bytes)%N ->
  integral_token (sign ++ int ++ frac ++ exp) = true <-> integral_value int frac exp.
Proof.
  intros P Hl. rewrite integral_divide. unfold integral_token.
  replace (sign ++ int ++ frac ++ exp) with ((sign ++ int ++ frac) ++ exp) by (by rewrite <- !app_assoc).
  rewrite (parts_mantissa _ _ _ _ P), (parts_fraction _ _ _ _ P), (parts_exponent _ _ _ _ P), trailing_loop_spec by (by eapply parts_loop).
  rewrite (parts_digits _ _ _ _ P), Z.sub_0_r.
  assert (Hb : (read_N (int ++ tail frac) < 10 ^ N.of_nat (length (int ++ tail frac)))%N).
  { apply read_N_bound. destruct P as [_ [_ Hi] Hfr _]. rewrite forallb_app, Hi. by destruct Hfr as [->|(ds & -> & _ & Hd)]. }
  assert (Hlen : (Z.of_nat (length (int ++ tail frac)) < exponent_cap /\ Z.of_nat (length (tail frac)) < exponent_cap)%Z).
  { unfold exponent_cap. rewrite !length_app in *. destruct frac; cbn [tail length] in *; lia. }
  assert (H0 : (0 <= exponent_cap)%Z) by lia. clear Hl. generalize dependent exponent_cap. intros cap [Hl1 Hl2] H0.
  set (f := Z.of_nat (length (tail frac))) in *. set (e := exponent_value exp). set (M := read_N (int ++ tail frac)) in *.
  set (L := length (int ++ tail frac)) in *.
  assert (HM : (0 <= Z.of_N M < 10 ^ Z.of_N (N.of_nat L))%Z).
  { change 10%Z with (Z.of_N 10). rewrite <- N2Z.inj_pow. lia. }
  destruct (Z.ltb_spec e 0) as [He|He].
  - destruct (Z.le_gt_cases (- e) cap) as [H|H]; [by rewrite Z.min_r, Z.opp_involutive by lia|].
    rewrite Z.min_l by lia. split; intros Hd; apply (power10_divides_bound _ _ (N.of_nat L) HM) in Hd; try lia;
      rewrite Hd; apply Z.divide_0_r.
  - destruct (Z.le_gt_cases e cap) as [H|H]; [by rewrite Z.min_r by lia|].
    rewrite Z.min_l by lia. rewrite !power10_zero by lia. done.
Qed.

(** ** Correlation *)

Section Correlation.
Context {F : Binary64}.

Definition messages (v : Json) : list Json := match v with JArray l => l | _ => [v] end.

(** The key of a message's identifier. *)
Definition item_key (item : Json) : option bytes :=
  match json_find (lit "id") item with
  | Some id => match id_key id with Ret key => Some key | Throw _ => None end
  | None => None
  end.

Definition keyed (l : list Json) : list (bytes * Json) :=
  omap (fun x => (fun k => (k, x)) <$> item_key x) l.

Lemma keyed_keys l : (keyed l).*1 = omap item_key l.
Proof. unfold keyed. induction l as [|x l IH]; [done|]. cbn. destruct (item_key x); cbn; by rewrite <- IH. Qed.

Lemma keyed_all l : Forall (fun x => is_Some (item_key x)) l -> (keyed l).*2 = l.
Proof. unfold keyed. induction 1 as [|x l [k Hk] _ IH]; [done|]. cbn. rewrite Hk. cbn. by rewrite IH. Qed.

Lemma keyed_in l k x : (k, x) ∈ keyed l <-> x ∈ l /\ item_key x = Some k.
Proof.
  unfold keyed. rewrite list_elem_of_omap. split.
  - intros (y & Hy & H). destruct (item_key y) eqn:E; [|done]. by injection H as -> ->.
  - intros [Hx H]. exists x. by rewrite H.
Qed.

Lemma visit_all_unit (check : Json -> result unit) l :
  visit_all (fun x _ => check x) l tt = Ret tt <-> Forall (fun x => check x = Ret tt) l.
Proof.
  induction l as [|x l IH]; cbn [visit_all]; [by split|]. rewrite Forall_cons, <- IH.
  destruct (check x) as [[]|]; cbn [mbind result_bind]; [tauto|]. split; [done|]. by intros [? _].
Qed.

(** A value whose messages all pass a check. *)
Lemma each_message_checked (check : Json -> result unit) v :
  each_message v (fun x _ => check x) tt = Ret tt <->
  messages v <> [] /\ (is_array v = true -> length (messages v) <= max_batch_size) /\ Forall (fun x => check x = Ret tt) (messages v).
Proof.
  assert (H1 : forall x, Forall (fun x => check x = Ret tt) [x] <-> check x = Ret tt).
  { intros x. rewrite Forall_singleton. done. }
  destruct v; cbn [each_message messages is_array]; rewrite ?H1; [naive_solver..| |naive_solver].
  unfold throw_if. destruct (bool_decide_reflect (array = [])) as [->|Hn]; [by split; [|intros [? _]]|].
  cbn [mbind result_bind]. destruct (Nat.ltb_spec max_batch_size (length array)) as [Hl|Hl].
  - split; [done|]. intros (_ & H & _). specialize (H eq_refl). lia.
  - cbn [mbind result_bind]. rewrite visit_all_unit. naive_solver.
Qed.

Lemma each_message_visit {S} (visit : Json -> S -> result S) v s :
  messages v <> [] -> (is_array v = true -> length (messages v) <= max_batch_size) ->
  each_message v visit s = visit_all visit (messages v) s.
Proof.
  intros Hn Hl. destruct v; cbn [each_message messages is_array visit_all] in *; try (by destruct (visit _ s)).
  rewrite bool_decide_eq_false_2 by done. specialize (Hl eq_refl).
  by rewrite (proj2 (Nat.ltb_ge _ _)) by done.
Qed.

Lemma id_key_valid id : validate_id id = Ret tt -> exists k, id_key id = Ret k.
Proof. unfold id_key. intros ->. cbn. eauto. Qed.

Lemma validate_id_fails id : outcome fails (fun _ => True) (validate_id id).
Proof. unfold validate_id, throw_if. destruct id; try destruct (negb _); try done; by left. Qed.

Lemma id_key_fails id : outcome fails (fun _ => True) (id_key id).
Proof. unfold id_key. eapply outcome_bind; [apply validate_id_fails|done]. Qed.

Lemma request_id v : validate_request v = Ret tt -> forall id, json_find (lit "id") v = Some id -> validate_id id = Ret tt.
Proof.
  unfold validate_request. intros (u & _ & H)%bind_Ret id Hid. destruct (json_find (lit "method") v) as [[]|]; try done.
  apply bind_Ret in H as (? & _ & (? & _ & (? & _ & H)%bind_Ret)%bind_Ret). by rewrite Hid in H.
Qed.

Lemma response_id v : validate_response v = Ret tt -> is_Some (item_key v).
Proof.
  unfold validate_response, item_key. intros (u & _ & H)%bind_Ret.
  destruct (json_find (lit "id") v) as [id|]; [|done]. apply bind_Ret in H as (? & _ & (? & H & _)%bind_Ret).
  destruct x0. by destruct (id_key_valid _ H) as [k ->].
Qed.

Lemma expect_id_key x st : validate_request x = Ret tt ->
  expect_id x st =
    match item_key x with
    | None => Ret st
    | Some key => if decide (key ∈ st.2) then Throw InvalidArgument else Ret (st.1 ++ [key], {[key]} ∪ st.2)
    end.
Proof.
  intros Hx. unfold expect_id, item_key. destruct (json_find (lit "id") x) as [id|] eqn:E; [|done].
  destruct (id_key_valid id) as [k ->]; [by eapply request_id|]. cbn [mbind result_bind]. unfold throw_if.
  case_bool_decide; by case_decide.
Qed.

Lemma receive_key expected x received k : item_key x = Some k ->
  receive expected x received =
    if decide (k ∈ expected /\ received !! k = None) then Ret (<[k := x]> received) else Throw InvalidArgument.
Proof.
  unfold receive, item_key. destruct (json_find (lit "id") x) as [id|]; [|done]. destruct (id_key id) as [k'|]; [|done].
  intros [= ->]. cbn [mbind result_bind]. unfold throw_if.
  destruct (received !! k) as [y|] eqn:E.
  - rewrite (bool_decide_eq_true_2 (is_Some _)) by eauto. rewrite orb_true_r. rewrite decide_False; [done|by intros []].
  - rewrite (bool_decide_eq_false_2 (is_Some _)) by (by intros []). rewrite orb_false_r.
    case_bool_decide; case_decide; naive_solver.
Qed.

(** The keys of a list of items, taken in order. *)
Lemma expect_spec l : forall order (expected : gset bytes),
  Forall (fun x => validate_request x = Ret tt) l ->
  visit_all expect_id l (order, expected) =
    if decide (NoDup (omap item_key l) /\ Forall (fun k => k ∉ expected) (omap item_key l))
    then Ret (order ++ omap item_key l, list_to_set (omap item_key l) ∪ expected) else Throw InvalidArgument.
Proof.
  induction l as [|x l IH]; intros order expected H; cbn [visit_all].
  { cbn. rewrite decide_True by (split; constructor). by rewrite app_nil_r, (left_id_L ∅ (∪)). }
  apply Forall_cons in H as [Hx H]. rewrite (expect_id_key x) by done. cbn [omap list_omap].
  destruct (item_key x) as [k|]; [|cbn [mbind result_bind]; by apply IH].
  cbn [fst snd]. case_decide as Hin; cbn [mbind result_bind].
  { rewrite decide_False; [done|]. intros [_ H']. by apply Forall_cons in H' as [? _]. }
  rewrite IH by done. destruct (decide _) as [[H1 H2]|Hd]; [|rewrite decide_False; [done|]].
  - rewrite decide_True.
    + f_equal. f_equal; [by rewrite <- app_assoc|]. set_solver.
    + rewrite NoDup_cons, Forall_cons. rewrite Forall_forall in *. set_solver.
  - intros [[H1 H2]%NoDup_cons [H3 H4]%Forall_cons]. apply Hd. split; [done|].
    rewrite Forall_forall in *. set_solver.
Qed.

Lemma receive_spec expected l : forall received r,
  Forall (fun x => validate_response x = Ret tt) l ->
  visit_all (receive expected) l received = Ret r <->
  (NoDup (keyed l).*1 /\ (forall k, k ∈ (keyed l).*1 -> k ∈ expected /\ received !! k = None)) /\
  r = list_to_map (keyed l) ∪ received.
Proof.
  induction l as [|x l IH]; intros received r H; cbn [visit_all].
  { cbn. rewrite (left_id_L ∅ (∪)). split; [intros [= ->]|intros [_ ->]; done]. split; [|done]. split; [constructor|]. set_solver. }
  apply Forall_cons in H as [Hx H]. destruct (response_id _ Hx) as [k Hk].
  assert (Hc : keyed (x :: l) = (k, x) :: keyed l) by (unfold keyed; cbn; by rewrite Hk). rewrite Hc.
  rewrite (receive_key _ _ _ k) by done. cbn [fmap list_fmap fst list_to_map].
  case_decide as Hd; cbn [mbind result_bind].
  2:{ split; [done|]. intros [[_ H'] _]. destruct Hd. apply H'. by constructor. }
  destruct Hd as [He Hrk]. rewrite IH by done.
  rewrite NoDup_cons. split.
  - intros [[H1 H2] ->]. split; [split; [split; [|done]|]|].
    + intros Hin. apply H2 in Hin as [_ Hin]. by rewrite lookup_insert_eq in Hin.
    + intros k' [->|Hk']%elem_of_cons; [done|]. destruct (H2 _ Hk') as [? Hn]. split; [done|].
      destruct (decide (k = k')) as [->|]; [done|]. by rewrite lookup_insert_ne in Hn.
    + assert ((list_to_map (keyed l) : gmap bytes Json) !! k = None).
      { apply not_elem_of_list_to_map. intros Hin. apply H2 in Hin as [_ Hin]. by rewrite lookup_insert_eq in Hin. }
      rewrite <- insert_union_r by done. by rewrite insert_union_l.
  - intros [[[H1 H2] H3] ->]. split; [split; [done|]|].
    + intros k' Hk'. destruct (H3 k') as [? Hn]; [by constructor|]. split; [done|].
      rewrite lookup_insert_ne; [done|]. intros ->. done.
    + rewrite <- insert_union_r by (by apply not_elem_of_list_to_map). by rewrite insert_union_l.
Qed.

Lemma collect_spec received order l :
  collect received order = Ret l <-> Forall2 (fun k x => received !! k = Some x) order l.
Proof.
  revert l. induction order as [|k order IH]; intros l; cbn [collect].
  { split; [intros [= <-]; constructor|]. by intros ->%Forall2_nil_inv_l. }
  destruct (received !! k) as [x|] eqn:E.
  - destruct (collect received order) as [l'|] eqn:El; cbn [mbind result_bind].
    + split; [intros [= <-]; constructor; [done|by apply IH]|]. intros (y & l'' & Hy & H & ->)%Forall2_cons_inv_l.
      apply IH in H. congruence.
    + split; [done|]. intros (y & l'' & Hy & H & ->)%Forall2_cons_inv_l. by apply IH in H.
  - split; [done|]. intros (y & l'' & Hy & H & ->)%Forall2_cons_inv_l. congruence.
Qed.

Lemma checked_requests v : validate_requests v = Ret tt ->
  messages v <> [] /\ (is_array v = true -> length (messages v) <= max_batch_size) /\
  Forall (fun x => validate_request x = Ret tt) (messages v).
Proof. apply each_message_checked. Qed.

Lemma checked_responses v : validate_responses v = Ret tt ->
  messages v <> [] /\ (is_array v = true -> length (messages v) <= max_batch_size) /\
  Forall (fun x => validate_response x = Ret tt) (messages v).
Proof. apply each_message_checked. Qed.

(** The pairs of keys and responses in the order of the requests. *)
Lemma keyed_zip order l : map item_key l = Some <$> order -> keyed l = zip order l.
Proof.
  revert l. induction order as [|k order IH]; intros [|x l]; try done. cbn [map fmap list_fmap zip zip_with].
  intros [= Hk H]. unfold keyed in *. cbn. rewrite Hk. cbn. f_equal. by apply IH.
Qed.

(** The responses that are received, collected in order. *)
Lemma collect_keyed (kl : list (bytes * Json)) order l :
  NoDup kl.*1 -> NoDup order -> length kl = length order -> Forall (fun p => item_key p.2 = Some p.1) kl ->
  (forall k, k ∈ kl.*1 -> k ∈ order) ->
  collect (list_to_map kl) order = Ret l <-> l ≡ₚ kl.*2 /\ map item_key l = Some <$> order.
Proof.
  intros Hkl Ho Hlen Hall Hsub. rewrite collect_spec, Forall_forall in *.
  assert (Hl : forall k x, (list_to_map kl : gmap bytes Json) !! k = Some x <-> (k, x) ∈ kl).
  { intros k x. symmetry. by apply elem_of_list_to_map. }
  split.
  - intros H. pose proof (Forall2_length _ _ _ H) as Hlen2.
    assert (Hz : zip order l ≡ₚ kl).
    { symmetry. apply submseteq_length_Permutation; [|rewrite length_zip_with; lia].
      apply NoDup_submseteq; [by eapply NoDup_fmap_1|].
      intros [k x] Hin. apply Hl in Hin as Hx.
      assert (Hk : k ∈ order) by (apply Hsub, list_elem_of_fmap; by exists (k, x)).
      apply list_elem_of_lookup in Hk as [i Hi]. destruct (Forall2_lookup_l _ _ _ _ _ H Hi) as (y & Hy & Hky).
      assert (x = y) as -> by congruence. apply list_elem_of_lookup. exists i.
      apply lookup_zip_with_Some. eauto. }
    split; [by rewrite <- Hz, snd_zip by lia|].
    clear -H Hl Hall. induction H as [|k x order l Hk _ IH]; [done|]. cbn. rewrite IH. f_equal.
    apply Hl in Hk. by apply (Hall _ Hk).
  - intros [Hp Hm]. apply keyed_zip in Hm as Hz.
    assert (Hz' : zip order l ≡ₚ kl).
    { rewrite <- Hz. unfold keyed. rewrite Hp. clear -Hall. induction kl as [|[k x] kl IH]; [done|]. cbn.
      assert (item_key x = Some k) as -> by (apply (Hall (k, x)); constructor). cbn. rewrite IH; [done|]. intros p Hin. apply Hall. by constructor. }
    apply Forall2_same_length_lookup_2.
    + apply (f_equal length) in Hm. by rewrite length_map, length_fmap in Hm.
    + intros i k x Hi Hx. apply Hl. rewrite <- Hz'. apply list_elem_of_lookup. exists i. apply lookup_zip_with_Some. eauto.
Qed.

(** C13: correlation answers exactly the exchanges it should, and the answer is determined: with
    responses, [correlate] succeeds with a list exactly when both sides are valid, both or
    neither are batches, at least one request expects a response, the identifiers of the
    requests are distinct, and the list holds the received responses, each once, in the order
    of the requests with their identifiers: no response is unknown, missing or repeated. *)
Theorem correlate_spec requests responses l :
  correlate requests (Some responses) = Ret (JArray l) <->
  validate_requests requests = Ret tt /\ validate_responses responses = Ret tt /\
  is_array requests = is_array responses /\
  let order := omap item_key (messages requests) in
  order <> [] /\ NoDup order /\ l ≡ₚ messages responses /\ map item_key l = Some <$> order.
Proof.
  unfold correlate. destruct (validate_requests requests) as [[]|e] eqn:Eq; [|naive_solver].
  destruct (checked_requests _ Eq) as (Hn & Hb & Hall). cbn [mbind result_bind].
  rewrite each_message_visit, expect_spec by done. cbn zeta. set (order := omap item_key (messages requests)).
  assert (HF : Forall (fun k => k ∉ (∅ : gset bytes)) order) by (apply Forall_forall; set_solver).
  destruct (decide _) as [[Ho _]|Hd]; cbn [mbind result_bind]; [|split; [done|]; intros (_ & _ & _ & _ & ? & _); by destruct Hd].
  unfold throw_if. cbn [app]. case_bool_decide as H0; cbn [orb]; [split; [done|]; by intros (_ & _ & _ & ? & _)|].
  destruct (Bool.eqb_spec (is_array requests) (is_array responses)) as [Ha|Ha]; cbn [negb mbind result_bind]; [|naive_solver].
  destruct (validate_responses responses) as [[]|e'] eqn:Er; [|naive_solver]. cbn [mbind result_bind].
  destruct (checked_responses _ Er) as (Hn' & Hb' & Hall'). rewrite each_message_visit by done.
  pose proof (receive_spec (list_to_set order ∪ ∅) (messages responses) ∅) as HR.
  assert (HK : Forall (fun x => is_Some (item_key x)) (messages responses)).
  { eapply Forall_impl; [exact Hall'|]. apply response_id. }
  assert (HI : Forall (fun p : bytes * Json => item_key p.2 = Some p.1) (keyed (messages responses))).
  { apply Forall_forall. intros [k x] Hin. by apply keyed_in in Hin as [_ ?]. }
  assert (H2 := keyed_all _ HK). set (kl := keyed (messages responses)) in *. rewrite <- H2 in *.
  destruct (visit_all _ _ ∅) as [received|e']; cbn [mbind result_bind].
  - destruct (proj1 (HR received Hall') eq_refl) as [[Hnd Hin] ->]. rewrite (right_id_L ∅ (∪)), map_size_list_to_map by done.
    destruct (Nat.eqb_spec (length kl) (length order)) as [Hlen|Hlen]; cbn [negb mbind result_bind].
    + pose proof (collect_keyed kl order l Hnd Ho Hlen HI ltac:(set_solver)) as Hc.
      destruct (collect _ order) as [l'|] eqn:El; cbn [mbind result_bind].
      * split; [intros [= ->]|]; [by destruct (proj1 Hc eq_refl)|]. intros (_ & _ & _ & _ & _ & H).
        apply Hc in H. by injection H as ->.
      * split; [done|]. intros (_ & _ & _ & _ & _ & H). by apply Hc in H.
    + split; [done|]. intros (_ & _ & _ & _ & _ & Hp & Hm). destruct Hlen.
      apply (f_equal length) in Hm. rewrite length_map, length_fmap in Hm. rewrite <- Hm.
      rewrite (Permutation_length Hp). by rewrite length_fmap.
  - split; [done|]. intros (_ & _ & _ & _ & _ & Hp & Hm). exfalso.
    assert (Hk : kl.*1 ≡ₚ order).
    { unfold kl. rewrite <- H2, keyed_keys, <- Hp. clear -Hm. revert l Hm.
      induction order as [|k order IH]; intros [|x l] Hm; try done. injection Hm as Hx Hm. cbn. rewrite Hx. by rewrite (IH l). }
    destruct (HR (list_to_map kl ∪ ∅) Hall') as [_ HR']. discriminate HR'. split; [|done]. split; [by rewrite Hk|].
    intros k Hin. rewrite Hk in Hin. set_solver.
Qed.
End Correlation.

(** ** The messages that are built *)

(** What the C++ library documents of its conversions, for the numbers the module uses. *)
Class Binary64Laws (F : Binary64) := {
  from_to x : from_chars (to_chars x) = Some x;
  to_number x : json_number (to_chars x);
  is_zero_zero : is_zero zero = true;
  is_zero_integer n : is_zero (of_integer n) = (n =? 0)%N;
  of_integer_inj n m : (n <= max_safe_integer)%N -> (m <= max_safe_integer)%N -> of_integer n = of_integer m -> n = m }.

Section Messages.
Context {F : Binary64}.

(** Equality of identifiers, by value. *)
Definition same_value (a b : Json) : Prop :=
  match a, b with
  | JNull, JNull => True
  | JString s, JString t => s = t
  | JNumber x _, JNumber y _ => x = y \/ (is_zero x = true /\ is_zero y = true)
  | _, _ => False
  end.

Lemma valid_fails t : outcome fails (fun _ => valid t) (validate_utf8 t).
Proof. unfold valid. destruct (validate_errors t) as [H|H]; rewrite H; [done|by left]. Qed.

Lemma throw_fails b e : fails e -> outcome fails (fun _ => b = false) (throw_if b e).
Proof. unfold throw_if. by destruct b. Qed.

Lemma string_value_fails t : outcome fails (fun v => v = JString t /\ valid t) (string_value t).
Proof. unfold string_value. eapply outcome_bind; [apply valid_fails|]. by intros [] H. Qed.

Lemma method_name_fails t : outcome fails (fun _ => method_name t = Ret tt /\ valid t) (method_name t).
Proof.
  destruct (method_name t) as [[]|e] eqn:E.
  - split; [done|]. unfold method_name in E. by apply bind_Ret in E as (? & _ & (? & _ & E)%bind_Ret).
  - unfold method_name, throw_if in E. destruct (_ <? _)%nat; [injection E as <-; by right|].
    destruct (starts_with _ _); [injection E as <-; by left|]. cbn [mbind result_bind] in E.
    exact (outcome_Throw _ _ _ _ (valid_fails t) E).
Qed.

Lemma params_value_fails v : outcome fails (fun _ => params_value v = Ret tt) (params_value v).
Proof. destruct v; try done; by left. Qed.

Lemma validate_id_outcome v : outcome fails (fun _ => validate_id v = Ret tt) (validate_id v).
Proof. pose proof (validate_id_fails v). by destruct (validate_id v) as [[]|]. Qed.

Lemma when_some_fails check x :
  (forall v, outcome fails (fun _ => check v = Ret tt) (check v)) ->
  outcome fails (fun _ => forall v, x = Some v -> check v = Ret tt) (when_some check x).
Proof.
  intros H. destruct x as [v|]; cbn [when_some]; [|done]. specialize (H v). destruct (check v) as [[]|] eqn:E; [|done].
  cbn. by intros ? [= <-].
Qed.

Definition option_ok (x : option Json) : Prop := forall v, x = Some v -> json_ok v.

Lemma json_ok_put key x l : json_ok (JObject l) -> key ∉ l.*1 -> valid key -> json_ok x -> json_ok (JObject (l ++ [(key, x)])).
Proof.
  cbn [json_ok]. rewrite !foldr_and_pair. intros [H1 H2] Hk Hv Hx. rewrite fmap_app, Forall_app. split.
  - apply NoDup_app. split; [done|]. split; [|apply NoDup_singleton]. intros k Hin Hs. apply list_elem_of_singleton in Hs as ->. done.
  - split; [done|]. by repeat constructor.
Qed.

Lemma json_ok_empty : json_ok (JObject []).
Proof. split; [constructor|done]. Qed.

Lemma when_some_ok check x : (forall v, x = Some v -> check v = Ret tt) -> when_some check x = Ret tt.
Proof. destruct x; [intros H; by apply H|done]. Qed.

Lemma validate_request_intro v method params id :
  json_find (lit "jsonrpc") v = Some (JString (lit "2.0")) -> json_find (lit "method") v = Some (JString method) ->
  json_find (lit "result") v = None -> json_find (lit "error") v = None ->
  json_find (lit "params") v = params -> json_find (lit "id") v = id ->
  method_name method = Ret tt -> (forall p, params = Some p -> params_value p = Ret tt) ->
  (forall i, id = Some i -> validate_id i = Ret tt) -> validate_request v = Ret tt.
Proof.
  unfold validate_request, version, has. intros -> -> -> -> -> -> Hm Hp Hi.
  change (negb (lit "2.0" =s lit "2.0")) with false. cbn [throw_if mbind result_bind].
  rewrite !bool_decide_eq_false_2 by (by intros []). cbn [orb throw_if mbind result_bind]. rewrite Hm. cbn [mbind result_bind].
  rewrite (when_some_ok _ _ Hp). cbn [mbind result_bind]. by apply when_some_ok.
Qed.

Lemma validate_response_intro v id failed :
  json_find (lit "jsonrpc") v = Some (JString (lit "2.0")) -> json_find (lit "id") v = Some id ->
  json_find (lit "method") v = None -> json_find (lit "params") v = None -> json_find (lit "error") v = failed ->
  (is_Some (json_find (lit "result") v) <-> failed = None) ->
  validate_id id = Ret tt -> (forall e, failed = Some e -> validate_error e = Ret tt) -> validate_response v = Ret tt.
Proof.
  unfold validate_response, version, has. intros -> -> -> -> -> Hr Hi He.
  change (negb (lit "2.0" =s lit "2.0")) with false. cbn [throw_if mbind result_bind].
  assert (bool_decide (is_Some (json_find (lit "result") v)) = negb (bool_decide (is_Some failed))) as ->.
  { destruct failed; [rewrite bool_decide_eq_false_2; [by rewrite bool_decide_eq_true_2|]|].
    - rewrite Hr. done.
    - rewrite bool_decide_eq_true_2 by (by apply Hr). by rewrite bool_decide_eq_false_2 by (by intros []). }
  rewrite !(bool_decide_eq_false_2 (is_Some None)) by (by intros []).
  destruct (bool_decide (is_Some failed)); cbn [negb Bool.eqb orb throw_if mbind result_bind];
    rewrite Hi; cbn [mbind result_bind]; by apply when_some_ok.
Qed.

(** Objects of one to four members. *)
Ltac json_members :=
  repeat first [apply (json_ok_put _ _ [_; _; _])|apply (json_ok_put _ _ [_; _])|apply (json_ok_put _ _ [_])
    |apply (json_ok_put _ _ [])|apply json_ok_empty];
  try (cbn [fmap list_fmap fst app]; set_solver); try (unfold valid; vm_compute; reflexivity); eauto; try done.

Lemma request_spec method params id :
  option_ok params -> option_ok id ->
  outcome fails (fun v => json_ok v /\ validate_request v = Ret tt /\ is_array v = false /\ json_find (lit "id") v = id)
    (request method params id).
Proof.
  intros Hp Hi. unfold request. eapply outcome_bind; [apply method_name_fails|]. intros _ [Hm Hv]. cbn beta.
  eapply outcome_bind; [apply when_some_fails, params_value_fails|]. intros [] Hp'. cbn beta in Hp'.
  eapply outcome_bind; [apply when_some_fails, validate_id_outcome|]. intros [] Hi'. cbn beta in Hi'.
  eapply outcome_bind; [apply string_value_fails|]. intros ? [-> H2].
  eapply outcome_bind; [apply string_value_fails|]. intros ? [-> _].
  cbn [outcome]. split; [|split; [|destruct params, id; done]].
  - destruct params as [p|], id as [i|]; cbn [put_some json_put app]; json_members.
  - eapply (validate_request_intro _ method params id); try done; by destruct params, id.
Qed.

Lemma envelope_spec id :
  json_ok id -> outcome fails (fun v => v = JObject [(lit "jsonrpc", JString (lit "2.0")); (lit "id", id)] /\ json_ok v /\ validate_id id = Ret tt) (envelope id).
Proof.
  intros Hi. unfold envelope. eapply outcome_bind; [apply validate_id_outcome|]. intros [] Hi'. cbn beta in Hi'.
  eapply outcome_bind; [apply string_value_fails|]. intros ? [-> H2]. cbn [outcome]. split; [done|]. split; [|done].
  cbn [json_put app]. json_members.
Qed.

Lemma result_reply_spec id x : json_ok id -> json_ok x ->
  outcome fails (fun v => json_ok v /\ validate_response v = Ret tt /\ is_array v = false) (result_reply id x).
Proof.
  intros Hi Hx. unfold result_reply. eapply outcome_bind; [by apply envelope_spec|]. intros ? (-> & Hok & Hv).
  cbn [outcome json_put]. split; [|split; [|done]].
  - json_members.
  - eapply (validate_response_intro _ id None); done.
Qed.

Lemma error_reply_spec id code message data : json_ok id -> json_ok code -> option_ok data ->
  outcome fails (fun v => json_ok v /\ validate_response v = Ret tt /\ is_array v = false) (error_reply id code message data).
Proof.
  intros Hi Hc Hd. unfold error_reply. eapply outcome_bind; [apply throw_fails; by left|]. intros [] Hs. cbn beta in Hs.
  eapply outcome_bind; [by apply envelope_spec|]. intros ? (-> & Hok & Hv).
  eapply outcome_bind; [apply string_value_fails|]. intros ? [-> Hm].
  set (detail := put_some _ _ _). assert (Hdo : json_ok detail) by (unfold detail; destruct data; cbn [put_some json_put app]; json_members).
  cbn [outcome json_put]. split; [|split; [|done]].
  - json_members.
  - eapply (validate_response_intro _ id (Some detail)); try done; [split; [by intros []|done]|]. intros ? [= <-]. unfold validate_error.
    assert (json_find (lit "code") detail = Some code) as -> by (by destruct data).
    assert (json_find (lit "message") detail = Some (JString message)) as -> by (by destruct data). by rewrite Hs.
Qed.

Context {L : Binary64Laws F}.

Lemma to_chars_inj x y : to_chars x = to_chars y -> x = y.
Proof using L. intros H. apply (f_equal from_chars) in H. rewrite !from_to in H. by injection H. Qed.

(** Identifiers are compared by value and never across kinds: for two valid identifiers the
    comparison answers true exactly for two nulls, two equal strings, or two equal numbers,
    however they are spelled (and for zero of either sign). *)
Theorem same_id_exact a b : validate_id a = Ret tt -> validate_id b = Ret tt ->
  exists r, same_id a b = Ret r /\ (r = true <-> same_value a b).
Proof using L.
  intros Ha Hb. unfold same_id, id_key. rewrite Ha, Hb. cbn [mbind result_bind]. eexists. split; [done|].
  rewrite eqb_bytes_true. destruct a as [|?|x s|s|?|?], b as [|?|y t|t|?|?]; try discriminate Ha; try discriminate Hb;
    cbn [same_value]; try (split; [discriminate|done]); [done| |].
  - split.
    + intros H. change (lit "n:" ++ ?e) with ("n"%char :: ":"%char :: e) in H. injection H as H. apply to_chars_inj in H.
      destruct (is_zero x) eqn:Ex, (is_zero y) eqn:Ey; [by right| | |by left].
      * subst y. by rewrite is_zero_zero in Ey.
      * subst x. by rewrite is_zero_zero in Ex.
    + by intros [->|[-> ->]].
  - split; [|by intros ->]. change (lit "s:" ++ ?e) with ("s"%char :: ":"%char :: e). by intros [= ->].
Qed.


End Messages.

(** ** Errors: every check fails with one of the two documented statuses *)

Section Outcomes.
Context {F : Binary64}.

Lemma visit_all_outcome {S} (visit : Json -> S -> result S) l s :
  (forall x s, x ∈ l -> outcome fails (fun _ => True) (visit x s)) -> outcome fails (fun _ => True) (visit_all visit l s).
Proof.
  revert s. induction l as [|x l IH]; intros s H; cbn [visit_all]; [done|].
  eapply outcome_bind; [apply H; constructor|]. intros s' _. apply IH. intros. apply H. by constructor.
Qed.

Lemma each_message_outcome {S} (visit : Json -> S -> result S) v s :
  (forall x s, x ∈ messages v -> outcome fails (fun _ => True) (visit x s)) -> outcome fails (fun _ => True) (each_message v visit s).
Proof.
  intros H. destruct v; cbn [each_message messages] in *; try (apply H; constructor).
  eapply outcome_bind; [apply throw_fails; by left|]. intros [] _. eapply outcome_bind; [apply throw_fails; by right|].
  intros [] _. by apply visit_all_outcome.
Qed.

Lemma version_fails v : outcome fails (fun _ => True) (version v).
Proof.
  unfold version. destruct (json_find _ v) as [[]|]; try (by left). eapply outcome_impl; [apply throw_fails; by left|done].
Qed.

Lemma validate_request_fails v : outcome fails (fun _ => True) (validate_request v).
Proof.
  unfold validate_request. eapply outcome_bind; [apply version_fails|]. intros [] _.
  destruct (json_find _ v) as [[]|]; try (by left). eapply outcome_bind; [apply throw_fails; by left|]. intros [] _.
  eapply outcome_bind; [apply method_name_fails|]. intros [] _.
  eapply outcome_bind; [apply when_some_fails, params_value_fails|]. intros [] _.
  eapply outcome_impl; [apply when_some_fails, validate_id_outcome|done].
Qed.

Lemma validate_error_fails v : outcome fails (fun _ => validate_error v = Ret tt) (validate_error v).
Proof.
  unfold validate_error. destruct (json_find _ v); [|by left]. destruct (json_find _ v) as [[]|]; try (by left).
  unfold throw_if. destruct (negb _); [by left|done].
Qed.

Lemma validate_response_fails v : outcome fails (fun _ => True) (validate_response v).
Proof.
  unfold validate_response. eapply outcome_bind; [apply version_fails|]. intros [] _.
  destruct (json_find _ v) as [id|]; [|by left]. eapply outcome_bind; [apply throw_fails; by left|]. intros [] _.
  eapply outcome_bind; [apply validate_id_outcome|]. intros [] _.
  eapply outcome_impl; [apply when_some_fails, validate_error_fails|done].
Qed.

Lemma outcome_self {A} (E : ErrorCode -> Prop) (m : result A) : outcome E (fun _ => True) m -> outcome E (fun a => m = Ret a) m.
Proof. by destruct m. Qed.

Lemma validate_requests_fails v : outcome fails (fun u => validate_requests v = Ret u) (validate_requests v).
Proof. apply outcome_self, each_message_outcome. intros. apply validate_request_fails. Qed.

Lemma validate_responses_fails v : outcome fails (fun u => validate_responses v = Ret u) (validate_responses v).
Proof. apply outcome_self, each_message_outcome. intros. apply validate_response_fails. Qed.

Lemma batch_spec v : json_ok v -> outcome fails (fun r => json_ok r /\ validate_requests r = Ret tt) (batch v).
Proof.
  intros Hok. unfold batch. destruct v; try (by left). eapply outcome_bind; [apply validate_requests_fails|].
  intros [] Hv. eapply outcome_bind; [apply (visit_all_outcome insert_id)|by intros].
  intros x s _. unfold insert_id. destruct (json_find _ x) as [id|]; [|done].
  eapply outcome_bind; [apply id_key_fails|]. intros k _. eapply outcome_bind; [apply throw_fails; by left|]. done.
Qed.

Lemma messages_ok v : json_ok v -> Forall json_ok (messages v).
Proof. destruct v; cbn [messages]; try (intros; by constructor). cbn [json_ok]. by rewrite foldr_and. Qed.

(** What [correlate] answers: an array of the responses, which are valid. *)
Definition responses_of (v : Json) : Prop :=
  exists l, v = JArray l /\ Forall (fun x => validate_response x = Ret tt) l /\ Forall json_ok l.

Lemma receive_outcome expected responses : Forall (fun x => validate_response x = Ret tt) responses ->
  outcome fails (fun r => r = list_to_map (keyed responses) /\ NoDup (keyed responses).*1 /\
    forall k, k ∈ (keyed responses).*1 -> k ∈ expected) (visit_all (receive expected) responses ∅).
Proof.
  intros H. pose proof (receive_spec expected responses ∅) as HR.
  assert (Ho : outcome fails (fun _ => True) (visit_all (receive expected) responses ∅)).
  { apply visit_all_outcome. intros x s Hx. rewrite Forall_forall in H.
    destruct (response_id _ (H x Hx)) as [k Hk]. rewrite (receive_key _ _ _ k) by done. case_decide; [done|by left]. }
  destruct (visit_all _ _ ∅) as [r|]; [|done]. destruct (proj1 (HR r H) eq_refl) as [[H1 H2] ->]. cbn.
  rewrite (right_id_L ∅ (∪)). split; [done|]. split; [done|]. intros k Hk. by apply H2.
Qed.

Lemma collect_all (kl : list (bytes * Json)) order :
  NoDup kl.*1 -> length kl = length order -> (forall k, k ∈ kl.*1 -> k ∈ order) ->
  exists l, collect (list_to_map kl) order = Ret l /\ forall x, x ∈ l -> x ∈ kl.*2.
Proof.
  intros Hkl Hlen Hsub.
  assert (Hp : kl.*1 ≡ₚ order).
  { apply submseteq_length_Permutation; [by apply NoDup_submseteq|rewrite length_fmap; lia]. }
  assert (Ha : forall k, k ∈ order -> exists x, (list_to_map kl : gmap bytes Json) !! k = Some x /\ x ∈ kl.*2).
  { intros k Hk. rewrite <- Hp in Hk. apply list_elem_of_fmap in Hk as ([k' x] & -> & Hin). exists x.
    split; [by apply elem_of_list_to_map|]. apply list_elem_of_fmap. by exists (k', x). }
  clear -Ha. induction order as [|k order IH]; cbn [collect]; [exists []; split; [done|set_solver]|].
  destruct (Ha k) as (x & -> & Hx); [constructor|]. destruct IH as (l & -> & Hl); [intros; apply Ha; by constructor|].
  cbn [mbind result_bind]. exists (x :: l). split; [done|]. intros y [->|Hy]%elem_of_cons; auto.
Qed.

Lemma correlate_outcome requests responses :
  (forall v, responses = Some v -> json_ok v) -> outcome fails responses_of (correlate requests responses).
Proof.
  intros Hok. unfold correlate. eapply outcome_bind; [apply validate_requests_fails|]. intros [] Hv.
  destruct (checked_requests _ Hv) as (Hn & Hb & Hall). rewrite each_message_visit, expect_spec by done.
  destruct (decide _) as [[Ho _]|]; cbn [mbind result_bind]; [|by left].
  set (order := omap item_key (messages requests)) in *. cbn [app].
  destruct responses as [responses|].
  2:{ eapply outcome_bind; [apply throw_fails; by left|]. intros _ _. exists []. split; [done|]. split; constructor. }
  eapply outcome_bind; [apply throw_fails; by left|]. intros [] _.
  eapply outcome_bind; [apply validate_responses_fails|]. intros [] Hr. cbn beta in Hr.
  destruct (checked_responses _ Hr) as (Hn' & Hb' & Hall'). rewrite each_message_visit by done.
  eapply outcome_bind; [by apply receive_outcome|]. intros received (-> & H1 & H2).
  eapply outcome_bind; [apply throw_fails; by left|]. intros [] Hlen. cbn beta in Hlen.
  apply negb_false_iff, Nat.eqb_eq in Hlen. rewrite map_size_list_to_map in Hlen by done.
  destruct (collect_all (keyed (messages responses)) order) as (l & -> & Hl); [done|done|set_solver|].
  cbn [mbind result_bind outcome]. exists l. split; [done|].
  assert (HK : (keyed (messages responses)).*2 = messages responses).
  { apply keyed_all. eapply Forall_impl; [exact Hall'|]. apply response_id. }
  rewrite HK in Hl. pose proof (messages_ok _ (Hok _ eq_refl)) as Hm. rewrite Forall_forall in Hm, Hall'.
  rewrite !Forall_forall. split; intros x Hx; auto.
Qed.
End Outcomes.

(** ** The exported functions *)

Section Module_.
Context {F : Binary64} {L : Binary64Laws F}.
Context (host_api_size : N).

Abbreviation call_function f call i := (callback host_api_size f call i).

Lemma parse_json_ok s : outcome fails json_ok (parse_json s).
Proof. eapply outcome_impl; [apply parse_json_spec|by intros v []]. Qed.

Lemma number_value_ok x : json_ok (number_value x).
Proof. split; [apply to_number|apply from_to]. Qed.

Lemma string_value_ok s : outcome fails json_ok (string_value s).
Proof. eapply outcome_impl; [apply string_value_fails|]. by intros v [-> ?]. Qed.

Lemma json_argument_spec v : outcome fails json_ok (json_argument v).
Proof.
  destruct v as [| |b|[x|]|b|b|n]; cbn [json_argument]; try done; try (by left).
  - apply number_value_ok.
  - apply string_value_ok.
  - apply parse_json_ok.
Qed.

Lemma wire_argument_spec v : outcome fails json_ok (wire_argument v).
Proof. destruct v; try apply json_argument_spec. apply parse_json_ok. Qed.

Lemma string_argument_fails v : outcome fails (fun _ => True) (string_argument v).
Proof. destruct v; try done; by left. Qed.

Lemma optional_json_spec args n :
  outcome fails (fun x => option_ok x /\ (x = None <-> args !! n = None \/ args !! n = Some VUndefined)) (optional_json args n).
Proof.
  unfold optional_json. destruct (args !! n) as [v|]; [|cbn; split; [done|split; auto]].
  assert (H : v <> VUndefined -> outcome fails (fun x => option_ok x /\ (x = None <-> Some v = None \/ Some v = Some VUndefined))
    (x ← json_argument v; Ret (Some x))).
  { intros Hv. eapply outcome_bind; [apply json_argument_spec|]. intros x Hx. cbn. split; [by intros ? [= <-]|]. split; [done|]. intros [?|[= ->]]; [done|by destruct Hv]. }
  destruct v; try (by apply H). cbn; split; [done|split; auto].
Qed.

Lemma argument_lookup args n : n < length args -> exists v, args !! n = Some v /\ argument args n = Ret v.
Proof. intros [v H]%lookup_lt_is_Some_2. exists v. split; [done|]. unfold argument. by rewrite H. Qed.

Definition minimum (f : Function_) : nat :=
  match f with FResult => 2 | FError => 3 | _ => 1 end.
Definition maximum (f : Function_) : nat :=
  match f with FRequest => 3 | FNotification | FResult | FParseResponse | FCorrelate => 2 | FError => 4 | _ => 1 end.
Definition operation (f : Function_) : list FlatwormValue -> Instance_ -> result Output :=
  match f with
  | FRequest => request_operation
  | FNotification => notification_operation
  | FBatch => batch_operation
  | FResult => result_operation
  | FError => error_operation
  | FParseRequest => parse_request_operation
  | FParseResponse => parse_response_operation
  | FCorrelate => correlate_operation
  end.

Lemma callback_invoke f call i : call_function f call i = invoke host_api_size call (minimum f) (maximum f) (operation f) i.
Proof. by destruct f. Qed.

(** What a function's answer is: a valid request, response, or list of responses. *)
Definition function_message (f : Function_) (v : Json) : Prop :=
  match f with
  | FRequest | FNotification | FBatch | FParseRequest => validate_requests v = Ret tt
  | FResult | FError | FParseResponse => validate_responses v = Ret tt
  | FCorrelate => exists l, v = JArray l /\ Forall (fun x => validate_response x = Ret tt) l
  end.

(** An answer with an automatic identifier. *)
Definition automatic_message (n : N) (v : Json) : Prop :=
  (n <= max_safe_integer)%N /\ json_find (lit "id") v = Some (number_value (of_integer n)) /\
  validate_id (number_value (of_integer n)) = Ret tt.

Definition output_ok (f : Function_) (args : list FlatwormValue) (i : Instance_) (o : Output) : Prop :=
  json_ok (value o) /\ function_message f (value o) /\
  (advance_id o = true <-> f = FRequest /\ (args !! 2 = None \/ args !! 2 = Some VUndefined)) /\
  (advance_id o = true -> automatic_message (next_id i) (value o)).

Lemma single_request v : is_array v = false -> validate_requests v = validate_request v.
Proof using. by destruct v. Qed.

Lemma single_response v : is_array v = false -> validate_responses v = validate_response v.
Proof using. by destruct v. Qed.

Lemma plain_ok f args i v : f <> FRequest -> json_ok v -> function_message f v -> output_ok f args i (plain v).
Proof using. intros Hf H1 H2. split; [done|]. split; [done|]. split; [|done]. split; [done|]. by intros [? _]. Qed.

(** Steps through an operation's bindings with the outcome lemmas. *)
Create HintDb outcomes.
#[local] Hint Resolve json_argument_spec wire_argument_spec string_argument_fails optional_json_spec : outcomes.
Ltac step := eapply outcome_bind; [solve [eauto with outcomes]|].

Lemma operation_spec f args i : minimum f <= length args -> outcome fails (output_ok f args i) (operation f args i).
Proof using L.
  intros Hl.
  assert (Ha : forall n, n < minimum f -> exists v, argument args n = Ret v).
  { intros n Hn. destruct (argument_lookup args n) as (v & _ & ?); [lia|eauto]. }
  destruct f; cbn [minimum] in Ha; cbn [operation];
    unfold request_operation, notification_operation, batch_operation, result_operation, error_operation,
      parse_request_operation, parse_response_operation, correlate_operation;
    (destruct (Ha 0) as [a0 E0]; [lia|]); try (destruct (Ha 1) as [a1 E1]; [lia|]); try (destruct (Ha 2) as [a2 E2]; [lia|]).
  - step. intros params [Hp _]. step. intros id [Hi Hnone]. cbn zeta. destruct id as [id|].
    + cbn [mbind result_bind]. rewrite E0. cbn [mbind result_bind]. step. intros method _.
      eapply outcome_bind; [by apply request_spec|]. intros v (H1 & H2 & H3 & _). split; [done|].
      split; [by cbn; rewrite single_request|]. split; [|done]. split; [done|]. intros [_ H]. by apply Hnone in H.
    + destruct (throw_if _ _) as [[]|e] eqn:Et; cbn [mbind result_bind].
      2:{ unfold throw_if in Et. destruct (_ <? _)%N; [|done]. injection Et as <-. by right. }
      apply throw_if_Ret, N.ltb_ge in Et. rewrite E0. cbn [mbind result_bind]. step. intros method _.
      eapply outcome_bind; [apply request_spec; [done|]; intros ? [= <-]; apply number_value_ok|].
      intros v (H1 & H2 & H3 & H4). split; [done|]. split; [by cbn; rewrite single_request|].
      split; [split; [|done]; intros _; split; [done|]; by apply Hnone|].
      intros _. split; [done|]. split; [done|]. by eapply request_id.
  - step. intros params [Hp _]. rewrite E0. cbn [mbind result_bind]. step. intros method _.
    eapply outcome_bind; [by apply request_spec|]. intros v (H1 & H2 & H3 & _). apply plain_ok; [done..|].
    by cbn; rewrite single_request.
  - rewrite E0. cbn [mbind result_bind]. step. intros x Hx. eapply outcome_bind; [by apply batch_spec|].
    intros v [H1 H2]. by apply plain_ok.
  - rewrite E0, E1. cbn [mbind result_bind]. step. intros id Hid. step. intros x Hx.
    eapply outcome_bind; [by apply result_reply_spec|]. intros v (H1 & H2 & H3). apply plain_ok; [done..|].
    by cbn; rewrite single_response.
  - step. intros data [Hd _]. rewrite E0, E1, E2. cbn [mbind result_bind]. step. intros id Hid. step. intros code Hc.
    step. intros message _. eapply outcome_bind; [by apply error_reply_spec|]. intros v (H1 & H2 & H3).
    apply plain_ok; [done..|]. by cbn; rewrite single_response.
  - rewrite E0. cbn [mbind result_bind]. step. intros v Hv. eapply outcome_bind; [apply validate_requests_fails|].
    intros [] H. by apply plain_ok.
  - rewrite E0. cbn [mbind result_bind]. step. intros v Hv. eapply outcome_bind; [apply validate_responses_fails|].
    intros [] H. step. intros expected _.
    eapply (outcome_bind _ (fun _ => True)).
    + destruct expected as [e|]; cbn [when_some]; [|done]. destruct (json_find _ v); [|by left].
      unfold same_id. eapply (outcome_bind _ (fun _ => True)).
      * eapply outcome_bind; [apply id_key_fails|]. intros k _. eapply outcome_bind; [apply id_key_fails|]. by intros.
      * intros b _. eapply outcome_impl; [apply throw_fails; by left|done].
    + intros [] _. by apply plain_ok.
  - rewrite E0. cbn [mbind result_bind]. step. intros requests Hr.
    eapply (outcome_bind _ (fun o => forall v, o = Some v -> json_ok v)).
    + destruct (has_responses args) eqn:Eh; [|done]. destruct (argument_lookup args 1) as (b & _ & ->).
      { revert Eh. unfold has_responses. destruct args as [|? [|? ?]]; [done|by cbn|cbn; lia]. }
      cbn [mbind result_bind]. step. intros x Hx. by intros ? [= <-].
    + intros responses Ho. eapply outcome_bind; [by apply correlate_outcome|]. intros v (l & -> & H1 & H2).
      apply plain_ok; [done| |by exists l]. cbn [json_ok]. by rewrite foldr_and.
Qed.

Lemma checked_call_spec call mn mx :
  outcome fails (fun '(c, set) => call = Some c /\ host_api host_api_size (api c) = Some set /\
    mn <= length (argument_list (arguments c)) /\ length (argument_list (arguments c)) <= mx) (checked_call host_api_size call mn mx).
Proof using.
  unfold checked_call. destruct call as [c|]; [|by left]. destruct (host_api _ _) as [set|] eqn:Es; [|by left].
  apply outcome_throw_if; [by left|]. intros H. cbn [outcome]. apply orb_false_iff in H as [H Hn].
  apply orb_false_iff in H as [H Hx%Nat.ltb_ge]. apply orb_false_iff in H as [_ Hm%Nat.ltb_ge].
  destruct (arguments c) as [l|n]; cbn [argument_list argument_count null_arguments] in *; [done|].
  apply negb_false_iff, Nat.eqb_eq in Hn as ->. done.
Qed.

Lemma check_arguments_spec total args :
  outcome fails (fun _ => True) (check_arguments total args).
Proof using.
  revert total. induction args as [|a args IH]; intros total; cbn [check_arguments]; [done|].
  destruct a; try apply IH; try (by left); (apply outcome_throw_if; [by right|]; intros _; apply outcome_throw_if; [by left|]; intros _; apply IH).
Qed.

(** What a call does: it fails with no effect, or hands a text of a good value to the host. *)
Lemma callback_cases f call i :
  (exists e, fails e /\ call_function f call i = (failure_status e, i, None)) \/
  exists c set o text, call = Some c /\ host_api host_api_size (api c) = Some set /\
    output_ok f (argument_list (arguments c)) i o /\ encode_json (value o) = Ret text /\
    call_function f call i = (set text, if is_ok (set text) && advance_id o then {| next_id := next_id i + 1 |} else i, Some text).
Proof using L.
  rewrite callback_invoke. unfold invoke.
  pose proof (checked_call_spec call (minimum f) (maximum f)) as Hc.
  destruct (checked_call _ _ _ _) as [[c set]|e]; cbn [mbind result_bind]; [|left; by exists e].
  destruct Hc as (-> & Hs & Hm & _). pose proof (check_arguments_spec 0 (argument_list (arguments c))) as Ha.
  destruct (check_arguments _ _) as [[]|e]; cbn [mbind result_bind]; [|left; by exists e].
  pose proof (operation_spec f _ i Hm) as Ho. destruct (operation f _ i) as [o|e]; cbn [mbind result_bind]; [|left; by exists e].
  pose proof (encode_fails (value o)) as He. destruct (encode_json (value o)) as [text|e] eqn:Et; cbn [mbind result_bind]; [|left; by exists e].
  right. by exists c, set, o, text.
Qed.

(** C14: what a function of the module hands to its host is a JSON text that the parser of any
    peer reads back, and the value read is a message of the function's kind: a valid request,
    notification or batch, a valid response, or an array of valid responses. *)
Theorem callback_message f call i s i' text :
  call_function f call i = (s, i', Some text) -> exists v, parse_json text = Ret v /\ function_message f v.
Proof using L.
  intros H. destruct (callback_cases f call i) as [(e & _ & E)|(c & set & o & t & _ & _ & (H1 & H2 & _) & Ht & E)];
    rewrite E in H; [done|]. injection H as _ _ <-. exists (value o). split; [by apply parse_encoded|done].
Qed.

(** Errors of a call: whatever the call holds (null pointers, unknown type codes, wrong
    counts, malformed text), nothing reaches the host and the state is unchanged when the module
    fails, and the status is then one of the two documented ones, never the catch-all error; a
    text that is handed over is at most one MiB, and the status is the host's own. *)
Theorem callback_errors f call i :
  match call_function f call i with
  | (s, i', None) => i' = i /\ (s = STATUS_INVALID_ARGUMENT \/ s = STATUS_RESOURCE_LIMIT)
  | (s, i', Some text) =>
      (N.of_nat (length text) <= max_value_bytes)%N /\ (s <> STATUS_OK -> i' = i) /\
      exists c set, call = Some c /\ host_api host_api_size (api c) = Some set /\ s = set text
  end.
Proof using L.
  destruct (callback_cases f call i) as [(e & He & E)|(c & set & o & t & Hc & Hs & _ & Ht & E)]; rewrite E.
  - split; [done|]. destruct He as [->| ->]; [by left|by right].
  - apply encode_text in Ht as (_ & Hl & _). split; [done|]. split; [|by exists c, set]. by destruct (set t).
Qed.

(** ** Sequences of calls *)

(** The calls of a session with what they handed over, from the module's state. *)
Fixpoint run (i : Instance_) (calls : list (Function_ * option FlatwormCall))
  : list (FlatwormStatus * option bytes) * Instance_ :=
  match calls with
  | [] => ([], i)
  | (f, call) :: calls' =>
      let '(s, i1, out) := call_function f call i in
      let '(l, i') := run i1 calls' in
      ((s, out) :: l, i')
  end.

(** A request without an identifier. *)
Definition automatic (x : Function_ * option FlatwormCall) : bool :=
  match x with
  | (FRequest, Some c) =>
      match argument_list (arguments c) !! 2 with None | Some VUndefined => true | _ => false end
  | _ => false
  end.

(** The texts that the host has accepted of such requests. *)
Definition delivered (calls : list (Function_ * option FlatwormCall)) (l : list (FlatwormStatus * option bytes)) : list bytes :=
  omap (fun '(x, (s, out)) => if automatic x && is_ok s then out else None) (zip calls l).

Lemma run_delivered calls i :
  (next_id i <= max_safe_integer + 1)%N ->
  let '(l, i') := run i calls in
  let texts := delivered calls l in
  next_id i' = (next_id i + N.of_nat (length texts))%N /\ (next_id i' <= max_safe_integer + 1)%N /\
  forall k text, texts !! k = Some text ->
    exists v, parse_json text = Ret v /\ automatic_message (next_id i + N.of_nat k) v.
Proof using L.
  revert i. induction calls as [|[f call] calls IH]; intros i Hi; cbn [run].
  { cbn. split_and!; [lia|lia|done]. }
  destruct (callback_cases f call i) as [(e & He & E)|(c & set & o & t & -> & _ & (H1 & _ & H3 & H4) & Ht & E)]; rewrite E.
  - specialize (IH i Hi). destruct (run i calls) as [l i']. unfold delivered in *. cbn [zip zip_with omap list_omap].
    assert ((if automatic (f, call) && is_ok (failure_status e) then @None bytes else None) = None) as -> by (by destruct (_ && _)).
    done.
  - assert (Ha : automatic (f, Some c) = advance_id o).
    { apply eq_true_iff_eq. rewrite H3. destruct f; cbn [automatic]; try (split; [done|by intros []]).
      destruct (argument_list (arguments c) !! 2) as [[]|]; naive_solver. }
    destruct (is_ok (set t) && advance_id o) eqn:Eo.
    + apply andb_true_iff in Eo as [Es Eo]. pose proof (H4 Eo) as Hm. pose proof Hm as (Hn & _).
      specialize (IH {| next_id := next_id i + 1 |}). cbn [next_id] in IH. specialize (IH ltac:(lia)).
      destruct (run _ calls) as [l i']. unfold delivered in *. cbn [zip zip_with omap list_omap]. rewrite Ha, Eo, Es. cbn [andb].
      cbn zeta in *. set (texts := omap _ (zip calls l)) in *. destruct IH as (I1 & I2 & I3). cbn [length].
      split_and!; [lia|done|]. intros [|k] text; cbn [lookup list_lookup].
      * intros [= <-]. exists (value o). split; [by apply parse_encoded|]. by rewrite N.add_0_r.
      * intros Hk. destruct (I3 k text Hk) as (v & Hv & Hav). exists v. split; [done|].
        by replace (next_id i + N.of_nat (S k))%N with (next_id i + 1 + N.of_nat k)%N by lia.
    + specialize (IH i Hi). destruct (run i calls) as [l i']. unfold delivered in *. cbn [zip zip_with omap list_omap].
      rewrite Ha, andb_comm, Eo. done.
Qed.

Lemma automatic_keys n m : (1 <= n)%N -> (1 <= m)%N -> (n <= max_safe_integer)%N -> (m <= max_safe_integer)%N ->
  id_key (number_value (of_integer n)) = id_key (number_value (of_integer m)) ->
  validate_id (number_value (of_integer n)) = Ret tt -> validate_id (number_value (of_integer m)) = Ret tt -> n = m.
Proof using L.
  intros Hn Hm Hn' Hm' H Vn Vm. unfold id_key in H. rewrite Vn, Vm in H. cbn [mbind result_bind number_value] in H.
  rewrite !is_zero_integer, !(proj2 (N.eqb_neq _ _)) in H by lia. injection H as H.
  apply to_chars_inj in H. by apply of_integer_inj.
Qed.

(** Automatic identifiers: over any sequence of calls of a fresh module, with any failures
    and any answers of the host, the requests without an identifier that the host accepts
    carry the identifiers 1, 2, 3 and so on in order, no two of which are the same; the counter
    counts exactly them and stays within the safe integers. *)
Theorem automatic_ids calls :
  let '(l, i') := run {| next_id := 1 |} calls in
  let texts := delivered calls l in
  next_id i' = (1 + N.of_nat (length texts))%N /\ (next_id i' <= max_safe_integer + 1)%N /\
  exists ids : list Json,
    ids = (fun n => number_value (of_integer (N.of_nat n))) <$> seq 1 (length texts) /\
    Forall2 (fun text id => exists v, parse_json text = Ret v /\ json_find (lit "id") v = Some id) texts ids /\
    NoDup (id_key <$> ids).
Proof using L.
  pose proof (run_delivered calls {| next_id := 1 |} ltac:(vm_compute; done)) as H. destruct (run _ calls) as [l i'].
  cbn zeta in *. set (texts := delivered calls l) in *. destruct H as (H1 & H2 & H3). cbn [next_id] in *.
  split; [done|]. split; [done|]. eexists. split; [done|]. split.
  - apply Forall2_same_length_lookup_2; [by rewrite length_fmap, length_seq|]. intros k text id Ht Hid.
    apply list_lookup_fmap_Some in Hid as (n & -> & Hs). apply lookup_seq in Hs as [-> _].
    destruct (H3 k text Ht) as (v & Hv & _ & Hid & _). exists v. split; [done|].
    by replace (N.of_nat (1 + k)) with (1 + N.of_nat k)%N by lia.
  - apply NoDup_alt. intros a b x Ha Hb. rewrite !list_lookup_fmap in Ha, Hb.
    destruct (seq 1 (length texts) !! a) as [n|] eqn:En; [|done]. destruct (seq 1 (length texts) !! b) as [m|] eqn:Em; [|done].
    apply lookup_seq in En as [-> Hla], Em as [-> Hlb]. cbn [fmap option_fmap option_map] in Ha, Hb.
    destruct (lookup_lt_is_Some_2 texts a Hla) as [ta Hta], (lookup_lt_is_Some_2 texts b Hlb) as [tb Htb].
    destruct (H3 _ _ Hta) as (_ & _ & Ma & _ & Va), (H3 _ _ Htb) as (_ & _ & Mb & _ & Vb).
    assert (1 + N.of_nat a = 1 + N.of_nat b)%N; [|lia]. apply automatic_keys; try lia; try done. injection Ha as Ha. injection Hb as Hb. replace (1 + N.of_nat a)%N with (N.of_nat (S a)) by lia. replace (1 + N.of_nat b)%N with (N.of_nat (S b)) by lia. by rewrite Ha, Hb.
Qed.
End Module_.

(** ** Witnesses *)

Lemma print_loop_head fuel n : (n < 2 ^ N.of_nat fuel)%N -> (0 < n)%N ->
  exists c ds, print_loop fuel n = c :: ds /\ in_range 49 57 c = true /\ forallb is_digit ds = true.
Proof.
  revert n. induction fuel as [|fuel IH]; intros n Hn H0; [cbn in Hn; lia|]. cbn [print_loop].
  destruct (N.ltb_spec n 10) as [H|H].
  - exists (digit n), []. split_and!; [done| |done]. unfold in_range. rewrite code_digit by done.
    apply andb_true_iff. rewrite !N.leb_le. lia.
  - rewrite Nat2N.inj_succ, N.pow_succ_r' in Hn.
    assert (Hd : (n / 10 < 2 ^ N.of_nat fuel)%N) by (apply N.Div0.div_lt_upper_bound; lia).
    pose proof (N.mod_lt n 10 ltac:(done)) as Hm.
    destruct (IH (n / 10)%N Hd) as (c & ds & -> & Hc & Hds).
    { apply N.div_str_pos. lia. }
    exists c, (ds ++ [digit (n mod 10)]). split_and!; [done|done|]. rewrite forallb_app, Hds. cbn. by rewrite is_digit_digit.
Qed.

Lemma print_N_head n : (0 < n)%N ->
  exists c ds, print_N n = c :: ds /\ in_range 49 57 c = true /\ forallb is_digit ds = true.
Proof.
  apply print_loop_head. destruct (N.eq_dec n 0) as [->|Hn]; [done|]. pose proof (N.size_gt n) as H.
  replace (N.of_nat (S (N.size_nat n))) with (N.succ (N.size n)); [rewrite N.pow_succ_r'; lia|].
  rewrite Nat2N.inj_succ. f_equal. destruct n as [|p]; [done|]. cbn [N.size N.size_nat].
  assert (H' : Pos.to_nat (Pos.size p) = Pos.size_nat p); [|lia].
  clear. induction p as [p IH|p IH|]; cbn [Pos.size Pos.size_nat]; [rewrite Pos2Nat.inj_succ; lia..|done].
Qed.

Lemma decimal_from_to (z : Z) : @from_chars decimal (@to_chars decimal z) = Some z.
Proof.
  cbn [from_chars to_chars decimal]. destruct (Z.ltb_spec z 0) as [H|H].
  - destruct (print_N_spec (Z.to_N (- z))) as (H1 & H2 & H3). unfold decimal_chars.
    change ("-"%char =c "-") with true. cbn iota. rewrite H1, H2. destruct (print_N _); [done|]. cbn [nonempty andb]. f_equal. lia.
  - destruct (print_N_spec (Z.to_N z)) as (H1 & H2 & H3). destruct (print_N (Z.to_N z)) as [|c r]; [done|].
    assert ((c =c "-") = false) as E.
    { cbn [forallb] in H1. apply andb_true_iff in H1 as [Hc _]. revert Hc. clear. by_ascii c. }
    unfold decimal_chars. rewrite E, H1, H2. cbn [nonempty andb]. f_equal. lia.
Qed.

Lemma decimal_to_number (z : Z) : json_number (@to_chars decimal z).
Proof.
  cbn [to_chars decimal]. destruct (Z.ltb_spec z 0) as [H|H].
  - exists (lit "-"), (print_N (Z.to_N (- z))), [], []. split; [by rewrite !app_nil_r|]. split; [by right|].
    split; [right; apply print_N_head; lia|]. split; by left.
  - exists [], (print_N (Z.to_N z)), [], []. split; [by rewrite !app_nil_r|]. split; [by left|].
    split; [|split; by left]. destruct (Z.eq_dec z 0) as [->|Hz]; [by left|]. right. apply print_N_head. lia.
Qed.

#[export] Instance decimal_laws : Binary64Laws decimal.
Proof.
  split; [exact decimal_from_to|exact decimal_to_number|done| |].
  - intros n. cbn [is_zero of_integer decimal]. destruct n; done.
  - intros n m _ _. cbn [of_integer decimal]. lia.
Qed.

Lemma integral_token_exact_witness :
  integral_token (lit "-12.50e+1") = true /\ integral_value (lit "12") (lit ".50") (lit "e+1").
Proof.
  assert (P : parts (lit "-") (lit "12") (lit ".50") (lit "e+1")).
  { split; [by right|done|right; by exists (lit "50")|]. right. exists "e"%char, (lit "+"), (lit "1").
    split; [done|]. split; [by left|]. split; [right; by left|done]. }
  assert (E : integral_token (lit "-" ++ lit "12" ++ lit ".50" ++ lit "e+1") = true) by (vm_compute; reflexivity).
  split; [exact E|]. apply (integral_token_exact (lit "-") (lit "12") (lit ".50") (lit "e+1") P); [|exact E].
  vm_compute. intros H. discriminate H.
Defined.

Lemma same_id_exact_witness :
  exists r, same_id (@JNumber decimal 7%Z (lit "7")) (@JNumber decimal 7%Z (lit "7.0e0")) = Ret r /\
    (r = true <-> same_value (@JNumber decimal 7%Z (lit "7")) (@JNumber decimal 7%Z (lit "7.0e0"))).
Proof. apply (same_id_exact (L := decimal_laws)); vm_compute; reflexivity. Defined.

(** A host that accepts every answer, and a request without an identifier. *)
Definition sample_api : FlatwormModuleHostApi :=
  {| abi_version := 1; struct_size := 48; set_result := Some (fun _ => STATUS_OK) |}.

Definition sample_call : option FlatwormCall :=
  Some {| api := Some sample_api; call_instance := true;
          arguments := ArgumentList [@VString decimal (Bytes (lit "add")); VJson (Bytes (lit "[1, 2]"))] |}.

Definition quote (s : string) : bytes := dquote :: lit s ++ [dquote].

Definition sample_text : bytes :=
  lit "{" ++ quote "jsonrpc" ++ lit ":" ++ quote "2.0" ++ lit "," ++ quote "method" ++ lit ":" ++ quote "add" ++ lit ","
    ++ quote "params" ++ lit ":[1,2]," ++ quote "id" ++ lit ":1}".

Lemma sample_request :
  callback 48 FRequest sample_call {| next_id := 1 |} = (STATUS_OK, {| next_id := 2 |}, Some sample_text).
Proof. vm_compute. reflexivity. Qed.

Lemma callback_message_witness :
  exists v, @parse_json decimal sample_text = Ret v /\ function_message FRequest v.
Proof.
  exact (callback_message (L := decimal_laws) 48 FRequest sample_call {| next_id := 1 |} STATUS_OK {| next_id := 2 |}
           sample_text sample_request).
Defined.

Lemma callback_errors_witness :
  match callback (F := decimal) 48 FBatch None {| next_id := 5 |} with
  | (s, i', None) => i' = {| next_id := 5 |} /\ (s = STATUS_INVALID_ARGUMENT \/ s = STATUS_RESOURCE_LIMIT)
  | _ => False
  end.
Proof. exact (callback_errors (L := decimal_laws) 48 FBatch None {| next_id := 5 |}). Defined.

Definition sample_calls : list (Function_ * option FlatwormCall) :=
  [(FRequest, sample_call); (FBatch, None); (FRequest, sample_call)].

Lemma automatic_ids_witness :
  length (delivered sample_calls (run (F := decimal) 48 {| next_id := 1 |} sample_calls).1) = 2 /\
  let '(l, i') := run (F := decimal) 48 {| next_id := 1 |} sample_calls in
  next_id i' = (1 + N.of_nat (length (delivered sample_calls l)))%N.
Proof.
  split; [vm_compute; reflexivity|].
  pose proof (automatic_ids (L := decimal_laws) 48 sample_calls) as H.
  destruct (run _ _ _) as [l i']. exact (proj1 H).
Defined.

(** Responses in another order, with another spelling of an identifier; a fractional
    identifier, a repeated response and a missing one are rejected. *)
Definition exchange (requests responses : bytes) : result bytes :=
  q ← @parse_json decimal requests; r ← @parse_json decimal responses; v ← correlate q (Some r); encode_json v.

Definition sample_message (tail : bytes) : bytes := lit "{" ++ quote "jsonrpc" ++ lit ":" ++ quote "2.0" ++ lit "," ++ tail ++ lit "}".
Definition ask (id : string) : bytes := sample_message (quote "method" ++ lit ":" ++ quote "m" ++ lit "," ++ quote "id" ++ lit ":" ++ lit id).
Definition answer (id : string) : bytes := sample_message (quote "id" ++ lit ":" ++ lit id ++ lit "," ++ quote "result" ++ lit ":null").

Example correlate_examples :
  exchange (lit "[" ++ ask "1" ++ lit "," ++ ask "2" ++ lit "]") (lit "[" ++ answer "2" ++ lit "," ++ answer "1" ++ lit "]") =
    Ret (lit "[" ++ answer "1" ++ lit "," ++ answer "2" ++ lit "]") /\
  exchange (ask "1") (answer "2") = Throw InvalidArgument /\
  exchange (lit "[" ++ ask "1" ++ lit "," ++ ask "2" ++ lit "]") (lit "[" ++ answer "2" ++ lit "," ++ answer "2" ++ lit "]") = Throw InvalidArgument /\
  exchange (lit "[" ++ ask "1" ++ lit "," ++ ask "2" ++ lit "]") (lit "[" ++ answer "2" ++ lit "]") = Throw InvalidArgument.
Proof. repeat apply conj; vm_compute; reflexivity. Qed.
