(* ===== verification/PdqlText.v ===== *)
(** * Texts of the query language: the helpers of [src/pdql/pdql.cpp]

    Trimming, quoting, the wildcards of tag selectors, the division of a projection and the
    names that count as sensitive. *)
From S2P Require Import Prelude Html Redaction.

(** [" \t\r\n"]. *)
Definition is_trimmed (c : ascii) : bool := (c =c " ") || (c =c byte 9) || (c =c byte 13) || (c =c byte 10).

Definition trim (s : bytes) : bytes := rstrip is_trimmed (skip is_trimmed s).

Definition hex_char (n : N) : ascii := if (n <? 10)%N then byte (48 + n) else byte (87 + n).

Definition quote_char (c : ascii) : bytes :=
  if (c =c backslash) || (c =c dquote) then [backslash; c]
  else if (code c <? 32)%N then
    lit "\u00" ++ [hex_char (N.shiftr (code c) 4); hex_char (N.land (code c) 15)]
  else [c].

Definition quote (s : bytes) : bytes := dquote :: mjoin (quote_char <$> s) ++ [dquote].

Definition xml_char (c : ascii) : bytes :=
  if c =c "&" then lit "&amp;"
  else if c =c "<" then lit "&lt;"
  else if c =c ">" then lit "&gt;"
  else if c =c dquote then lit "&quot;"
  else [c].

Definition xml (s : bytes) : bytes := mjoin (xml_char <$> s).

(** ** Wildcards

    The state of the loop: what is left of the pattern and of the text, and after a star
    the pattern behind it with the text at [mark]. *)
Fixpoint glob_loop (fuel : nat) (p v : bytes) (star : option (bytes * bytes)) : option bool :=
  match fuel with
  | O => None
  | S fuel =>
      match v with
      | [] => Some (forallb (fun c => c =c "*") p)
      | c :: v' =>
          let backtrack :=
            match star with
            | Some (after, mark) => glob_loop fuel after (tail mark) (Some (after, tail mark))
            | None => Some false
            end in
          match p with
          | x :: p' =>
              if (x =c "?") || (x =c c) then glob_loop fuel p' v' star
              else if x =c "*" then glob_loop fuel p' v (Some (p', v))
              else backtrack
          | [] => backtrack
          end
      end
  end.

Definition glob_fuel (p v : bytes) : nat :=
  S ((length v + 1) * (length p + length v + 2) + length p + length v).

Definition glob (p v : bytes) : bool := default false (glob_loop (glob_fuel p v) p v None).

(** ** Projections *)

(** The loop over the projection: the character before, the open quote, the depth of the
    parentheses, and the expression so far. *)
Fixpoint split_loop (prev quoted : option ascii) (depth : Z) (current s : bytes) : result (list bytes) :=
  match s with
  | [] =>
      _ ← throw_if (match quoted with Some _ => true | None => negb (depth =? 0)%Z end) ParseError;
      Ret [trim current]
  | c :: s' =>
      match quoted with
      | Some q =>
          let ends := (c =c q) && negb (bool_decide (prev = Some backslash)) in
          split_loop (Some c) (if ends then None else quoted) depth (current ++ [c]) s'
      | None =>
          if is_quote c then split_loop (Some c) (Some c) depth (current ++ [c]) s'
          else if c =c "(" then split_loop (Some c) None (depth + 1) (current ++ [c]) s'
          else if c =c ")" then split_loop (Some c) None (depth - 1) (current ++ [c]) s'
          else if (c =c ",") && (depth =? 0)%Z then
            rest ← split_loop (Some c) None depth [] s'; Ret (trim current :: rest)
          else split_loop (Some c) None depth (current ++ [c]) s'
      end
  end.

Definition split (s : bytes) : result (list bytes) := split_loop None None 0 [] s.

Definition unquote (s : bytes) : result bytes :=
  match s, last s with
  | front :: _ :: _, Some back =>
      if is_quote front && (back =c front) then Ret (take (length s - 2) (tail s)) else Throw ParseError
  | _, _ => Throw ParseError
  end.

(** ** Sensitive names *)

Definition sensitive (name : bytes) : bool :=
  let name := to_lower name in
  is_sensitive_header defaults name || is_sensitive_query_parameter defaults name ||
  existsb (fun part => match find_sub (lit part) name with Some _ => true | None => false end)
    ["password"; "token"; "secret"; "cookie"; "authorization"; "api-key"; "api_key"]%string.

Example split_ex :
  split (lit " a: text , attr('data,a'), number( attr('x') )") =
  Ret [lit "a: text"; lit "attr('data,a')"; lit "number( attr('x') )"].
Proof. vm_compute. reflexivity. Qed.

(** A star of the pattern that meets a star of the text stands for that character only. *)
Example star_in_text : glob (lit "*") (lit "*x") = false /\ glob (lit "*") (lit "ax") = true.
Proof. split; vm_compute; reflexivity. Qed.

(** ** What wildcards mean *)

Inductive wild : bytes -> bytes -> Prop :=
  | wild_nil : wild [] []
  | wild_char c p v : c <> "*"%char -> c <> "?"%char -> wild p v -> wild (c :: p) (c :: v)
  | wild_any c p v : wild p v -> wild ("?"%char :: p) (c :: v)
  | wild_star p u v : wild p v -> wild ("*"%char :: p) (u ++ v).
#[local] Hint Constructors wild : core.

Lemma wild_stars p : wild p [] <-> forallb (fun c => c =c "*") p = true.
Proof.
  split.
  - remember [] as v eqn:Hv. induction 1; simpl; try done.
    apply app_eq_nil in Hv as [-> ->]. by rewrite IHwild.
  - induction p as [|c p IH]; [auto|]. simpl. intros [->%eqc_true Hp]%andb_prop.
    change (@nil ascii) with ([] ++ @nil ascii). auto.
Qed.

Lemma wild_star_inv p v : wild ("*"%char :: p) v <-> exists u t, v = u ++ t /\ wild p t.
Proof. split; [inversion 1; subst; try done; eauto|intros (u & t & -> & H); auto]. Qed.

(** A pattern that starts without stars takes as many characters as it has. *)
Lemma wild_prefix q p t : none (fun c => c =c "*") q = true -> wild (q ++ p) t ->
  wild p (drop (length q) t) /\ length q <= length t.
Proof.
  revert t. induction q as [|x q IH]; intros t Hq H; simpl in *; [rewrite drop_0; split; [done|lia]|].
  apply andb_prop in Hq as [Hx Hq]. inversion H; subst; simpl; try done;
    destruct (IH _ Hq ltac:(eassumption)); split; (done || lia).
Qed.

(** The loop has only taken characters since the last star. *)
Definition glob_state (p v : bytes) (star : option (bytes * bytes)) : Prop :=
  match star with
  | Some (after, mark) => exists q seg, after = q ++ p /\ mark = seg ++ v /\ length q = length seg /\
      none (fun c => c =c "*") q = true
  | None => True
  end.

(** The last star may still take more characters. *)
Definition retry (star : option (bytes * bytes)) : Prop :=
  match star with
  | Some (after, mark) => exists u t, u <> [] /\ mark = u ++ t /\ wild after t
  | None => False
  end.

Lemma retry_covered p v star : glob_state ("*"%char :: p) v star -> retry star -> wild ("*"%char :: p) v.
Proof.
  destruct star as [[after mark]|]; [|done]. intros (q & seg & -> & -> & Hl & Hq) (u & t & Hu & Hm & Hw).
  apply wild_prefix in Hw as [Hw Hqt]; [|done]. apply wild_star_inv in Hw as (u' & r & Hr & Hw).
  apply wild_star_inv. assert (Hlen : length seg + length v = length u + length t).
  { apply (f_equal length) in Hm. by rewrite !length_app in Hm. }
  assert (Hv : drop (length u + length q) (seg ++ v) = u' ++ r).
  { rewrite Hm, <- drop_drop, drop_app_length. done. }
  rewrite drop_app_ge in Hv by lia.
  exists (take (length u + length q - length seg) v ++ u'), r. split; [|done].
  rewrite <- app_assoc, <- Hv. symmetry. apply take_drop.
Qed.

Lemma retry_step after mark : retry (Some (after, mark)) <->
  match mark with
  | [] => False
  | _ :: rest => wild after rest \/ retry (Some (after, rest))
  end.
Proof.
  destruct mark as [|c rest]; simpl.
  - split; [|done]. intros (u & t & Hu & H & _). by destruct u.
  - split.
    + intros (u & t & Hu & Hm & Hw). destruct u as [|x u]; [done|]. injection Hm as <- ->.
      destruct u as [|y u]; [by left|].
      right. by exists (y :: u), t.
    + intros [Hw|(u & t & Hu & -> & Hw)]; [by exists [c], rest|by exists (c :: u), t].
Qed.

(** What one comparison means. *)
Lemma wild_cons x p c v : (c =c "*") = false ->
  wild (x :: p) (c :: v) <->
  if (x =c "?") || (x =c c) then wild p v
  else if x =c "*" then wild p (c :: v) \/ retry (Some (p, c :: v)) else False.
Proof.
  intros Hc%eqc_false. destruct (x =c "?") eqn:Eq; [apply eqc_true in Eq as ->|apply eqc_false in Eq].
  { simpl. split; [by inversion 1|auto]. }
  destruct (x =c c) eqn:Ec; [apply eqc_true in Ec as ->|apply eqc_false in Ec]; simpl.
  { split; [inversion 1; by subst|auto]. }
  destruct (x =c "*") eqn:Es; [apply eqc_true in Es as ->|apply eqc_false in Es].
  - rewrite wild_star_inv. split.
    + intros ([|y u] & t & Hm & Hw); [left; by rewrite Hm|right]. by exists (y :: u), t.
    + intros [Hw|(u & t & _ & Hm & Hw)]; [by exists [], (c :: v)|by exists u, t].
  - split; [by inversion 1|done].
Qed.

Lemma retry_nil p star : glob_state p [] star -> ~ retry star.
Proof.
  destruct star as [[after mark]|]; [|by intros _ []].
  intros (q & seg & -> & -> & Hl & Hq) (u & t & Hu & Hm & Hw).
  apply wild_prefix in Hw as [_ Hqt]; [|done]. apply (f_equal length) in Hm.
  rewrite !length_app in Hm. destruct u; [done|]. simpl in Hm. lia.
Qed.

(** Where the loop answers, it answers what the wildcards say. *)
Lemma glob_loop_sound fuel p v star b : none (fun c => c =c "*") v = true ->
  match star with Some (_, mark) => none (fun c => c =c "*") mark = true | None => True end ->
  glob_state p v star -> glob_loop fuel p v star = Some b -> b = true <-> wild p v \/ retry star.
Proof.
  revert p v star. induction fuel as [|fuel IH]; intros p v star Hv Hm Hst; [done|].
  cbn [glob_loop]. destruct v as [|c v'].
  { intros [= <-]. rewrite <- wild_stars. pose proof (retry_nil p star Hst). tauto. }
  pose proof Hv as Hv0. simpl in Hv. apply andb_prop in Hv as [Hc Hv]. apply negb_true_iff in Hc.
  set (backtrack := match star with Some _ => _ | None => _ end).
  assert (Hback : backtrack = Some b -> b = true <-> retry star).
  { subst backtrack. destruct star as [[after mark]|]; [|by intros [= <-]].
    destruct mark as [|y rest].
    { destruct Hst as (q & seg & _ & E & _). by destruct seg. }
    simpl in Hm. apply andb_prop in Hm as [_ Hm]. cbn [tail]. rewrite retry_step. apply IH; try done.
    by exists [], []. }
  clearbody backtrack. destruct p as [|x p'].
  { intros H%Hback. rewrite H. split; [auto|]. intros [Hw|Hw]; [inversion Hw|done]. }
  rewrite (wild_cons x p' c v' Hc). destruct ((x =c "?") || (x =c c)) eqn:Em.
  - apply IH; [done|done|]. destruct star as [[after mark]|]; [|done].
    destruct Hst as (q & seg & -> & -> & Hl & Hq). exists (q ++ [x]), (seg ++ [c]). rewrite <- !app_assoc.
    split_and!; [done|done|rewrite !length_app; simpl; lia|].
    rewrite none_app, Hq. simpl. rewrite andb_true_r. apply negb_true_iff.
    apply orb_true_iff in Em as [->%eqc_true| ->%eqc_true]; done.
  - destruct (x =c "*") eqn:Es.
    + apply eqc_true in Es as ->. intros H. apply IH in H; [|done|done|by exists [], []].
      pose proof (retry_covered p' (c :: v') star Hst) as Hr.
      rewrite (wild_cons "*" p' c v' Hc), Em in Hr. simpl in Hr. tauto.
    + intros H%Hback. tauto.
Qed.

(** ** The loop ends

    A backtrack moves the mark forward; every other step shortens the pattern. *)
Definition glob_sizes (k n : nat) (p v : bytes) (star : option (bytes * bytes)) : Prop :=
  match star with
  | Some (after, mark) =>
      length after + length mark < k /\ length p <= length after /\ length v <= length mark /\ length mark <= n
  | None => length p + length v < k /\ length v <= n
  end.

Definition glob_work (k n : nat) (p v : bytes) (star : option (bytes * bytes)) : nat :=
  match star with Some (_, mark) => length mark | None => S n end * k + length p + length v.

Lemma glob_loop_ends k n fuel p v star :
  glob_sizes k n p v star -> glob_work k n p v star < fuel -> exists b, glob_loop fuel p v star = Some b.
Proof.
  revert p v star. induction fuel as [|fuel IH]; intros p v star Hs Hf; [lia|].
  cbn [glob_loop]. destruct v as [|c v']; [eauto|].
  set (backtrack := match star with Some _ => _ | None => _ end).
  assert (Hback : exists b, backtrack = Some b).
  { subst backtrack. destruct star as [[after mark]|]; [|eauto]. simpl in Hs.
    destruct mark as [|y rest]; simpl in Hs; [lia|].
    apply IH; unfold glob_work in *; simpl in *; [lia|nia]. }
  clearbody backtrack. destruct p as [|x p']; [done|].
  destruct ((x =c "?") || (x =c c)).
  { apply IH; unfold glob_work in *; destruct star as [[after mark]|]; simpl in *; lia. }
  destruct (x =c "*"); [|done].
  apply IH; unfold glob_work in *; destruct star as [[after mark]|]; simpl in *; try lia; nia.
Qed.

Lemma glob_ends p v : exists b, glob_loop (glob_fuel p v) p v None = Some b.
Proof.
  apply (glob_loop_ends (length p + length v + 2) (length v)); unfold glob_work, glob_fuel; simpl; lia.
Qed.

(** The wildcard loop ends on every pattern and text before the bound on its steps, and
    on a text without a star it answers whether the pattern, read with a question mark for any character and
    a star for any text, describes the whole text. *)
Theorem glob_wild p v :
  (exists b, glob_loop (glob_fuel p v) p v None = Some b) /\
  (none (fun c => c =c "*") v = true -> glob p v = true <-> wild p v).
Proof.
  destruct (glob_ends p v) as [b Hb]. split; [by exists b|]. intros Hv. unfold glob. rewrite Hb. simpl.
  rewrite (glob_loop_sound _ p v None b Hv I I Hb). simpl. tauto.
Qed.

Lemma glob_wild_witness : glob (lit "h?*r") (lit "header") = true /\ wild (lit "h?*r") (lit "header").
Proof.
  split; [vm_compute; reflexivity|].
  apply (proj2 (glob_wild (lit "h?*r") (lit "header"))); vm_compute; reflexivity.
Defined.
