(* ===== verification/Pdql.v ===== *)
(** * The query language: [src/pdql/pdql.cpp]

    Queries over a snapshot of a document: the sanitizer, the compiler, the evaluation and
    the output formats.  The XPath engine and the doubles of the C++ library are parameters.
    Positions in a text are numbers of 64 bits where the code subtracts them. *)
From S2P Require Import Prelude Html HtmlTree Dom SelectorMatch Document IrFilter Url Redaction PdqlText.

(** [std::strtod] ([None] when it converts nothing), the arithmetic of the sums, and
    [std::to_string]. *)
Class Doubles := {
  float : Type;
  strtod : bytes -> option float;
  is_finite : float -> bool;
  float_zero : float;
  float_add : float -> float -> float;
  (** The quotient by a number of rows. *)
  float_div : float -> N -> float;
  float_to_string : float -> bytes }.

(** ** Documents *)

(** [Node]; the parent link is borrowed and not modelled.  A repeated attribute keeps its
    first value, as [std::map::emplace] does. *)
#[warnings="-register-all"]
Inductive PdqlNode := mkNode {
  node_tag : bytes; node_text : bytes; node_attributes : gmap bytes bytes; node_children : list PdqlNode }.

Record PdqlDocument := { pd_root : option PdqlNode; source_ : option Document }.

Definition max_pdql_bytes : N := 16 * 1024 * 1024.

Definition first_attributes (l : list Attribute) : gmap bytes bytes :=
  foldl (fun m a => match m !! attr_name a with
                    | Some _ => m
                    | None => <[attr_name a := attr_value a]> m
                    end) ∅ l.

Definition attributes_of (d : dom) (i : nat) : list Attribute := from_option n_attributes [] (nodes d !! i).

(** [mirror]; [size] is the count of text bytes, passed through the recursion. *)
Fixpoint mirror (fuel : nat) (d : dom) (i : nat) (size : N) : result (PdqlNode * N) :=
  match fuel with
  | O => Throw Internal
  | S fuel =>
      let text := element_text d i in
      let size := (size + N.of_nat (length text))%N in
      _ ← throw_if (max_pdql_bytes <? size)%N ResourceLimit;
      '(children, size) ←
        (fix go (l : list nat) (size : N) : result (list PdqlNode * N) :=
           match l with
           | [] => Ret ([], size)
           | c :: l =>
               '(n, size) ← mirror fuel d c size;
               '(ns, size) ← go l size;
               Ret (n :: ns, size)
           end) (element_children d i) size;
      Ret (mkNode (name_of d i) text (first_attributes (attributes_of d i)) children, size)
  end.

(** [Document::parse]. *)
Definition pdql_parse (html : bytes) : result PdqlDocument :=
  source ← parse_html html [] [];
  '(root, _) ← mirror (size (nodes (doc_dom source))) (doc_dom source) (root_ source) 0;
  Ret {| pd_root := Some root; source_ := Some source |}.

(** ** The sanitizer *)

(** What happens to one attribute of an element. *)
Definition sanitize_attribute (tag : bytes) (i : nat) (d : dom) (a : Attribute) : dom :=
  if sensitive (attr_name a) || starts_with (lit "on") (attr_name a) ||
     ((tag =s lit "input") || (tag =s lit "option") || (tag =s lit "button")) &&
     (attr_name a =s lit "value")
  then (remove_attribute i (attr_name a) d).2
  else if (attr_name a =s lit "href") || (attr_name a =s lit "src") || (attr_name a =s lit "action")
  then set_attribute i (attr_name a) (redact_url defaults (attr_value a)) d
  else d.

Definition private_text (tag : bytes) : bool :=
  (tag =s lit "script") || (tag =s lit "style") || (tag =s lit "textarea") || (tag =s lit "select").

(** One element; [element->attributes()] is a copy. *)
Definition sanitize_element (d : dom) (i : nat) : dom :=
  let tag := name_of d i in
  let d := if private_text tag then set_text i [] d else d in
  foldl (sanitize_attribute tag i) d (attributes_of d i).

Definition with_dom (doc : Document) (d : dom) : Document :=
  {| doc_dom := d; root_ := root_ doc; url_ := url_ doc; base_url_ := base_url_ doc |}.

Definition sanitize (doc : Document) : result Document :=
  elements ← doc_query_all doc (lit "*");
  Ret (with_dom doc (foldl sanitize_element (doc_dom doc) elements)).

(** ** Expressions *)

(** [substr(pos, count)] of a text that is long enough. *)
Definition substr (s : bytes) (pos count : N) : bytes :=
  take (N.to_nat (N.min count (N.of_nat (length s)))) (drop (N.to_nat pos) s).

(** [substr(from, size - less)]. *)
Definition inner (s : bytes) (from less : nat) : bytes := take (length s - less) (drop from s).

Definition strip_prefix (pre s : bytes) : bytes := if starts_with pre s then drop (length pre) s else s.

Definition property (d : dom) (i : nat) (expr : bytes) : result bytes :=
  let expr := strip_prefix (lit "node.") expr in
  let trimmed := ends_with (lit ".trim()") expr in
  let expr := if trimmed then take (length expr - 7) expr else expr in
  value ← (if expr =s lit "text" then Ret (element_text d i)
           else if (expr =s lit "tag") || (expr =s lit "tag_name") then Ret (name_of d i)
           else if starts_with (lit "attr(") expr && ends_with (lit ")") expr then
             name ← unquote (trim (inner expr 5 6)); Ret (element_attribute d i name)
           else Throw ParseError);
  Ret (if trimmed then trim value else value).

Definition xpath_source (selector : bytes) : result bytes := unquote (trim (inner selector 6 7)).

(** ** Compilation *)

Record Query := { selector_ : bytes; fields_ : bytes; where_ : bytes }.

Definition max_query : N := 65536.

(** White space outside the quotes becomes one blank, and none in front. *)
Fixpoint fold_loop (prev quoted : option ascii) (folded s : bytes) : result bytes :=
  match s with
  | [] => match quoted with Some _ => Throw ParseError | None => Ret folded end
  | c :: s' =>
      match quoted with
      | Some q =>
          let ends := (c =c q) && negb (bool_decide (prev = Some backslash)) in
          fold_loop (Some c) (if ends then None else quoted) (folded ++ [c]) s'
      | None =>
          if is_quote c then fold_loop (Some c) (Some c) (folded ++ [c]) s'
          else if is_blank c then
            fold_loop (Some c) None
              (match last folded with
               | Some b => if b =c " " then folded else folded ++ lit " "
               | None => folded
               end) s'
          else fold_loop (Some c) None (folded ++ [c]) s'
      end
  end.

(** [s.rfind(pat)]. *)
Fixpoint rfind_sub (pat s : bytes) : option nat :=
  match s with
  | [] => if starts_with pat s then Some 0 else None
  | _ :: s' => match rfind_sub pat s' with
               | Some n => Some (S n)
               | None => if starts_with pat s then Some 0 else None
               end
  end.

(** The body of a [query] block. *)
Definition query_body (text : bytes) : result bytes :=
  if starts_with (lit "query ") text || starts_with (lit "query{") text then
    match find_if (fun c => c =c "{") text with
    | Some brace =>
        if ends_with (lit "}") text then Ret (trim (inner text (brace + 1) (brace + 2))) else Throw ParseError
    | None => Throw ParseError
    end
  else Ret text.

(** The guard behind the selector. *)
Definition split_where (selector fields : bytes) : Query :=
  match find_sub (lit " where ") selector with
  | Some n => {| selector_ := take n selector; fields_ := fields; where_ := trim (drop (n + 7) selector) |}
  | None => {| selector_ := selector; fields_ := fields; where_ := [] |}
  end.

Definition unbrace (fields : bytes) : bytes :=
  if starts_with (lit "{") fields && ends_with (lit "}") fields then trim (inner fields 1 2) else fields.

Definition clauses (text : bytes) : result Query :=
  if starts_with (lit "from ") text then
    match find_sub (lit " select ") text with
    | Some select =>
        Ret (split_where (trim (substr text 5 (size_sub (N.of_nat select) 5)))
                         (unbrace (trim (drop (select + 8) text))))
    | None => Throw ParseError
    end
  else if starts_with (lit "select ") text then
    match find_sub (lit " from ") text with
    | Some from =>
        Ret (split_where (trim (drop (from + 6) text))
                         (trim (substr text 7 (size_sub (N.of_nat from) 7))))
    | None => Throw ParseError
    end
  else Ret {| selector_ := text; fields_ := lit "text"; where_ := [] |}.

(** [abc...xyzABC...XYZ0123456789-_*?]. *)
Definition selector_char (c : ascii) : bool :=
  is_alnum c || (c =c "-") || (c =c "_") || (c =c "*") || (c =c "?").

Definition is_xpath (selector : bytes) : bool := starts_with (lit "xpath(") selector.

Definition aggregates : list string := ["count()"; "count"; "sum()"; "sum"; "avg()"; "avg"; "number"]%string.

(** The name and the expression of a field; without a colon they are the same. *)
Definition field_parts (field : bytes) : bytes * bytes * bool :=
  match find_if (fun c => c =c ":") field with
  | Some colon => (trim (take colon field), trim (drop (colon + 1) field), true)
  | None => (field, field, false)
  end.

Definition is_number_call (expr : bytes) : bool := starts_with (lit "number(") expr && ends_with (lit ")") expr.

Definition number_argument (expr : bytes) : bytes := trim (inner expr 7 8).

(** The key and the text of a guard. *)
Definition guard_key (w : bytes) (equal : nat) : bytes := trim (take equal w).
Definition guard_text (w : bytes) (equal : nat) : result bytes :=
  unquote (trim (drop (equal + (if starts_with (lit "==") (drop equal w) then 2 else 1)) w)).

Section Query.
Context {F : Doubles}.
Variable evaluate_xpath : dom -> nat -> bytes -> result XPathValue.

(** The element the expressions are tried on. *)
Definition probe : result (dom * nat) :=
  doc ← parse_html (lit "<probe>1</probe>") [] [];
  found ← doc_query doc (lit "probe");
  match found with Some i => Ret (doc_dom doc, i) | None => Throw Internal end.

Definition check_field (d : dom) (i : nat) (field : bytes) : result unit :=
  let expr := (field_parts field).1.2 in
  if one_of expr aggregates then Ret tt
  else if is_number_call expr then _ ← property d i (number_argument expr); Ret tt
  else _ ← property d i expr; Ret tt.

Fixpoint check_fields (d : dom) (i : nat) (fields : list bytes) : result unit :=
  match fields with
  | [] => Ret tt
  | f :: fields => _ ← check_field d i f; check_fields d i fields
  end.

Definition check_where (d : dom) (i : nat) (w : bytes) : result unit :=
  if nonempty w then
    match find_if (fun c => c =c "=") w with
    | Some equal => _ ← property d i (guard_key w equal); _ ← guard_text w equal; Ret tt
    | None => Throw ParseError
    end
  else Ret tt.

(** The tests of the selector; a tag loses its angle brackets. *)
Definition check_selector (selector : bytes) : result bytes :=
  if is_xpath selector then
    _ ← throw_if (negb (ends_with (lit ")") selector)) ParseError;
    doc ← parse_html (lit "<probe>text</probe>") [] [];
    source ← xpath_source selector;
    _ ← evaluate_xpath (doc_dom doc) (root_ doc) source;
    Ret selector
  else
    let angle := starts_with (lit "<") selector in
    _ ← throw_if (angle && negb (ends_with (lit ">") selector)) ParseError;
    let tag := if angle then inner selector 1 2 else selector in
    _ ← throw_if (negb (forallb selector_char tag)) ParseError;
    Ret tag.

(** The constructor of [Query]. *)
Definition compile (source : bytes) : result Query :=
  _ ← throw_if (max_query <? N.of_nat (length source))%N ResourceLimit;
  folded ← fold_loop None None [] source;
  text ← query_body (trim folded);
  let text := match rfind_sub (lit " serialize as ") text with Some n => take n text | None => text end in
  q ← clauses text;
  _ ← throw_if (negb (nonempty (selector_ q)) || negb (nonempty (fields_ q))) ParseError;
  selector ← check_selector (selector_ q);
  '(d, i) ← probe;
  fields ← split (fields_ q);
  _ ← check_fields d i fields;
  _ ← check_where d i (where_ q);
  Ret {| selector_ := selector; fields_ := fields_ q; where_ := where_ q |}.

(** ** Execution *)

Record Value := { v_text : bytes; numeric : bool }.

(** [std::map<std::string, Value>], in the order of its keys. *)
Definition Row : Type := list (bytes * Value).

Fixpoint row_emplace (name : bytes) (v : Value) (row : Row) : Row :=
  match row with
  | [] => [(name, v)]
  | (k, x) :: row' =>
      if k =s name then row
      else if bytes_le k name then (k, x) :: row_emplace name v row'
      else (name, v) :: row
  end.

Definition max_rows : N := 10000.

Definition number (text : bytes) : float :=
  match strtod text with
  | Some v => if is_finite v then v else float_zero
  | None => float_zero
  end.

(** The nodes the selector finds; a node of the XPath engine may be null. *)
Definition select_nodes (q : Query) (doc : Document) : result (list (option nat)) :=
  if is_xpath (selector_ q) then
    source ← xpath_source (selector_ q);
    value ← evaluate_xpath (doc_dom doc) (root_ doc) source;
    match xv_type value with NodeSet => Ret (xv_nodes value) | _ => Throw ParseError end
  else
    elements ← doc_query_all doc (lit "*");
    Ret (map Some (List.filter (fun i => glob (to_lower (selector_ q)) (name_of (doc_dom doc) i)) elements)).

(** [std::erase_if] of the nodes that do not pass the guard. *)
Fixpoint guard_nodes (d : dom) (key expected : bytes) (l : list (option nat)) : result (list (option nat)) :=
  match l with
  | [] => Ret []
  | None :: l => guard_nodes d key expected l
  | Some i :: l =>
      v ← property d i key;
      kept ← guard_nodes d key expected l;
      Ret (if v =s expected then Some i :: kept else kept)
  end.

(** The constructor has refused a guard without an equals sign. *)
Definition apply_where (w : bytes) (d : dom) (l : list (option nat)) : result (list (option nat)) :=
  if nonempty w then
    match find_if (fun c => c =c "=") w with
    | Some equal => expected ← guard_text w equal; guard_nodes d (guard_key w equal) expected l
    | None => Throw Internal
    end
  else Ret l.

(** A field of a row: its name and its value. *)
Definition project_field (d : dom) (i : nat) (count : N) (sum : float) (field : bytes)
  : result (bytes * Value) :=
  let '(name, expr, colon) := field_parts field in
  let text v := {| v_text := v; numeric := true |} in
  if (expr =s lit "count") || (expr =s lit "count()") then Ret (name, text (print_N count))
  else if one_of expr ["sum"; "sum()"; "avg"; "avg()"]%string then
    Ret (name, text (float_to_string (if starts_with (lit "avg") expr then float_div sum count else sum)))
  else if expr =s lit "number" then Ret (name, text (float_to_string (number (element_text d i))))
  else if is_number_call expr then
    v ← property d i (number_argument expr); Ret (name, text (float_to_string (number v)))
  else
    v ← property d i expr;
    name ← (if negb colon && starts_with (lit "attr(") expr then unquote (trim (inner expr 5 6)) else Ret name);
    Ret (name, {| v_text := v; numeric := false |}).

(** The fields of one row; [size] is [projected_bytes]. *)
Fixpoint project_fields (d : dom) (i : nat) (count : N) (sum : float) (fields : list bytes) (row : Row) (size : N)
  : result (Row * N) :=
  match fields with
  | [] => Ret (row, size)
  | f :: fields =>
      '(name, v) ← project_field d i count sum f;
      let size := (size + N.of_nat (length name) + N.of_nat (length (v_text v)))%N in
      _ ← throw_if (max_pdql_bytes <? size)%N ResourceLimit;
      project_fields d i count sum fields (row_emplace name v row) size
  end.

Fixpoint project_rows (q : Query) (d : dom) (count : N) (sum : float) (l : list (option nat)) (size : N)
  : result (list Row) :=
  match l with
  | [] => Ret []
  | None :: l => project_rows q d count sum l size
  | Some i :: l =>
      fields ← split (fields_ q);
      '(row, size) ← project_fields d i count sum fields [] size;
      rows ← project_rows q d count sum l size;
      Ret (row :: rows)
  end.

Definition sum_of (d : dom) (l : list (option nat)) : float :=
  foldl (fun s n => match n with Some i => float_add s (number (element_text d i)) | None => s end) float_zero l.

(** [Document::valid]. *)
Definition doc_valid (doc : Document) : bool := bool_decide (is_Some (nodes (doc_dom doc) !! root_ doc)).

(** [Query::execute] on a document of the host. *)
Definition execute_document (q : Query) (document : Document) (redact : bool) : result (list Row) :=
  _ ← throw_if (negb (doc_valid document)) InvalidArgument;
  snapshot ← parse_html (doc_html document) [] [];
  snapshot ← (if redact then sanitize snapshot else Ret snapshot);
  let d := doc_dom snapshot in
  matches ← select_nodes q snapshot;
  matches ← apply_where (where_ q) d matches;
  let count := N.of_nat (length matches) in
  _ ← throw_if (max_rows <? count)%N ResourceLimit;
  project_rows q d count (sum_of d matches) matches 0.

(** [Query::execute] on a document of its own. *)
Definition execute (q : Query) (document : PdqlDocument) : result (list Row) :=
  match source_ document with
  | None => Throw InvalidArgument
  | Some source => execute_document q source false
  end.

End Query.

(** ** Output *)

Inductive Format := FormatJson | FormatYaml | FormatXml | FormatSExpr.

(** What is written for a field; [first] is [j == 0]. *)
Definition serialize_field (format : Format) (first : bool) (name : bytes) (v : Value) : bytes :=
  let encoded := if numeric v then v_text v else quote (v_text v) in
  match format with
  | FormatJson => opt_bytes (negb first) (lit ",") ++ quote name ++ lit ":" ++ encoded
  | FormatYaml => byte 10 :: lit "  " ++ quote name ++ lit ": " ++ encoded
  | FormatXml => lit "<field name=" ++ dquote :: xml name ++ dquote :: lit ">" ++ xml (v_text v) ++ lit "</field>"
  | FormatSExpr => lit "(" ++ quote name ++ lit " " ++ encoded ++ lit ")"
  end.

Fixpoint serialize_fields (format : Format) (first : bool) (row : Row) : bytes :=
  match row with
  | [] => []
  | (name, v) :: row => serialize_field format first name v ++ serialize_fields format false row
  end.

Definition serialize_row (format : Format) (first : bool) (row : Row) : bytes :=
  match format with
  | FormatJson => opt_bytes (negb first) (lit ",") ++ lit "{"
  | FormatYaml => lit "-"
  | FormatXml => lit "<row>"
  | FormatSExpr => lit "("
  end ++ serialize_fields format true row ++
  match format with
  | FormatJson => lit "}"
  | FormatYaml => [byte 10]
  | FormatXml => lit "</row>"
  | FormatSExpr => lit ")"
  end.

Fixpoint serialize_rows (format : Format) (first : bool) (out : bytes) (rows : list Row) : result bytes :=
  match rows with
  | [] => Ret out
  | row :: rows =>
      let out := out ++ serialize_row format first row in
      _ ← throw_if (max_pdql_bytes <? N.of_nat (length out))%N ResourceLimit;
      serialize_rows format false out rows
  end.

Definition pdql_serialize (rows : list Row) (format : Format) : result bytes :=
  match format, rows with
  | FormatYaml, [] => Ret (lit "[]" ++ [byte 10])
  | _, _ =>
      out ← serialize_rows format true
              (match format with
               | FormatJson => lit "["
               | FormatYaml => []
               | FormatXml => lit "<results>"
               | FormatSExpr => lit "("
               end) rows;
      Ret (out ++ match format with
                  | FormatJson => lit "]"
                  | FormatYaml => []
                  | FormatXml => lit "</results>"
                  | FormatSExpr => lit ")"
                  end)
  end.

(** ** The C interface

    A null pointer is [None]; a failure answers null, and its message is not modelled.  The
    caller reads a string up to its first zero byte. *)

Definition c_string (s : bytes) : bytes := span (fun c => negb (c =c byte 0)) s.

Definition boundary {A} (m : result A) : option A := match m with Ret a => Some a | Throw _ => None end.

(** An argument that must not be null. *)
Definition not_null {A} (p : option A) : result A := match p with Some a => Ret a | None => Throw InvalidArgument end.

Definition pt_pdql_document_create (html : option bytes) : option PdqlDocument :=
  boundary (html ← not_null html; pdql_parse html).

Definition pt_pdql_document_root (d : option PdqlDocument) : option PdqlNode := d ≫= pd_root.

Definition pt_pdql_node_child_count (n : option PdqlNode) : nat :=
  match n with Some n => length (node_children n) | None => 0 end.

Definition pt_pdql_node_child (n : option PdqlNode) (i : nat) : option PdqlNode :=
  n ← n; node_children n !! i.

Definition pt_pdql_node_tag (n : option PdqlNode) : option bytes := (fun n => c_string (node_tag n)) <$> n.

Definition pt_pdql_node_text (n : option PdqlNode) : option bytes := (fun n => c_string (node_text n)) <$> n.

Definition pt_pdql_node_attribute (n : option PdqlNode) (key : option bytes) : option bytes :=
  n ← n; key ← key; c_string <$> node_attributes n !! to_lower key.

Section CInterface.
Context {F : Doubles}.
Variable evaluate_xpath : dom -> nat -> bytes -> result XPathValue.

Definition pt_pdql_query_compile (source : option bytes) : option Query :=
  boundary (source ← not_null source; compile evaluate_xpath source).

Definition pt_pdql_query_execute (q : option Query) (d : option PdqlDocument) : option (list Row) :=
  boundary (q ← not_null q; d ← not_null d; execute evaluate_xpath q d).

End CInterface.

(** [PT_PDQL_JSON] to [PT_PDQL_SEXPR]. *)
Definition format_of (n : Z) : option Format :=
  if (n =? 0)%Z then Some FormatJson else if (n =? 1)%Z then Some FormatYaml
  else if (n =? 2)%Z then Some FormatXml else if (n =? 3)%Z then Some FormatSExpr else None.

Definition pt_pdql_result_serialize (r : option (list Row)) (format : Z) : option bytes :=
  boundary (r ← not_null r; f ← not_null (format_of format); c_string <$> pdql_serialize r f).

(** ** Evaluations

    Whole numbers stand for the doubles, and the engine knows one expression. *)

Definition read_int (s : bytes) : option Z :=
  let s := skip is_blank s in
  let '(sign, r) := match s with c :: r => if c =c "-" then ((-1)%Z, r) else (1%Z, s) | [] => (1%Z, s) end in
  let n := span is_digit r in
  if nonempty n then Some (sign * Z.of_N (read_N n))%Z else None.

#[export] Instance whole_numbers : Doubles := {|
  float := Z;
  strtod := read_int;
  is_finite z := true;
  float_zero := 0%Z;
  float_add := Z.add;
  float_div z n := Z.quot z (Z.of_N n);
  float_to_string z := print_Z z ++ lit ".000000" |}.

Definition all_paragraphs (d : dom) (root : nat) (expression : bytes) : result XPathValue :=
  if expression =s lit "//p"
  then Ret {| xv_type := NodeSet; xv_nodes := None :: map Some (List.filter (fun i => name_of d i =s lit "p") (doc_order d root)) |}
  else Throw ParseError.

Definition single_quoted (s : string) : bytes := map (fun c => if c =c "'" then dquote else c) (lit s).

Definition shop : bytes := lit "<p class=x>4</p><P href='http://u:p@h/?token=1' onclick=a>6 </P><p>no</p>".

Definition run_text (query : string) : result bytes :=
  q ← compile all_paragraphs (lit query);
  doc ← parse_html shop [] [];
  rows ← execute_document all_paragraphs q doc true;
  pdql_serialize rows FormatJson.

Example run_select :
  run_text "select name: tag, sum(), attr('href') from <p> where text == '6 '" =
  Ret (single_quoted "[{'href':'http://h/?token=[REDACTED]','name':'p','sum()':6.000000}]").
Proof. vm_compute. reflexivity. Qed.

Example run_xpath :
  run_text "query q { from xpath('//p') select { n: number(text), c: count } }" =
  Ret (single_quoted "[{'c':4,'n':4.000000},{'c':4,'n':6.000000},{'c':4,'n':0.000000}]").
Proof. vm_compute. reflexivity. Qed.

Example attribute_gone : run_text "select a: attr('onclick') from p where node.text.trim() = '6'" = Ret (single_quoted "[{'a':''}]").
Proof. vm_compute. reflexivity. Qed.

(** A projection of an attribute with [.trim()] and no name compiles, and fails on the first
    row. *)
Example trimmed_attribute_fails :
  let q := lit "select attr('class').trim() from p" in
  (match compile all_paragraphs q with Ret _ => true | Throw _ => false end, run_text "select attr('class').trim() from p") =
  (true, Throw ParseError).
Proof. vm_compute. reflexivity. Qed.

(** Empty angle brackets pass the test for an empty selector. *)
Example empty_brackets : run_text "select text from <>" = Ret (lit "[]").
Proof. vm_compute. reflexivity. Qed.
