(* ===== verification/Sanitizer.v ===== *)
(** * What the sanitizer of the query language leaves: [sanitize] of [src/pdql/pdql.cpp]

    The proof that no query of a sanitized document reads a private text, a sensitive
    attribute or a URL that is not redacted. *)
From S2P Require Import Prelude Html HtmlTree Dom SelectorMatch Document Redaction PdqlText Pdql.

(** Attributes that are removed, and attributes that hold URLs. *)
Definition hidden_attribute (tag name : bytes) : bool :=
  sensitive name || starts_with (lit "on") name ||
  ((tag =s lit "input") || (tag =s lit "option") || (tag =s lit "button")) && (name =s lit "value").

Definition link_attribute (name : bytes) : bool :=
  (name =s lit "href") || (name =s lit "src") || (name =s lit "action").

(** ** Changes of attributes only *)

Definition skeleton (n : dnode) : NodeType * bytes * bytes * option nat * list nat :=
  (n_type n, n_name n, n_text n, n_parent n, n_children n).

Definition same_skeleton (d d' : dom) : Prop :=
  (forall j, skeleton <$> nodes d' !! j = skeleton <$> nodes d !! j) /\ next_id d' = next_id d.

#[local] Instance same_skeleton_preorder : PreOrder same_skeleton.
Proof. split; [by split|]. intros a b c [H1 E1] [H2 E2]. split; [intros j; by rewrite H2|congruence]. Qed.

Lemma same_skeleton_attributes i f d info :
  same_skeleton d (report_mutation i info (update i (set_attributes f) d)).
Proof.
  split; [|by rewrite next_id_report]. intros j. rewrite nodes_report. unfold update, with_nodes. cbn [nodes].
  destruct (decide (i = j)) as [->|Hne]; [|by rewrite lookup_alter_ne].
  rewrite lookup_alter_eq. by destruct (nodes d !! j).
Qed.

Lemma skeleton_read d d' : same_skeleton d d' ->
  (forall j, parent_of d' j = parent_of d j) /\ (forall j, children_of d' j = children_of d j) /\
  (forall j, is_Some (nodes d' !! j) <-> is_Some (nodes d !! j)) /\
  (forall j, name_of d' j = name_of d j) /\ (forall j, is_element d' j = is_element d j).
Proof.
  intros [H _]. unfold parent_of, children_of, name_of, is_element.
  split_and!; intros j; specialize (H j);
    destruct (nodes d' !! j) as [n'|] eqn:E', (nodes d !! j) as [n|] eqn:E; try done;
    cbn in H; injection H as E1 E2 E3 E4 E5; cbn; by rewrite ?E1, ?E2, ?E4, ?E5.
Qed.

Lemma skeleton_wf d d' : same_skeleton d d' -> dom_wf d -> dom_wf d'.
Proof.
  intros Hs [Hb Hf]. destruct (skeleton_read d d' Hs) as (P & C & S & _). constructor.
  - intros j. rewrite S, (proj2 Hs). apply Hb.
  - eapply forest_proper; [intros j; apply P|intros j; apply C|exact Hf].
Qed.

(** ** One attribute *)

Lemma sanitize_attribute_eq tag i d a :
  sanitize_attribute tag i d a =
  if hidden_attribute tag (attr_name a) then (remove_attribute i (attr_name a) d).2
  else if link_attribute (attr_name a)
  then set_attribute i (attr_name a) (redact_url defaults (attr_value a)) d else d.
Proof. done. Qed.

Lemma sanitize_attribute_skeleton tag i d a : same_skeleton d (sanitize_attribute tag i d a).
Proof.
  rewrite sanitize_attribute_eq. destruct (hidden_attribute _ _).
  - unfold remove_attribute. destruct (attribute d i _); [apply same_skeleton_attributes|reflexivity].
  - destruct (link_attribute _); [apply same_skeleton_attributes|reflexivity].
Qed.

Lemma sanitize_attribute_read tag i d a j m : is_Some (nodes d !! i) ->
  attribute (sanitize_attribute tag i d a) j m =
  if decide (j = i /\ m = attr_name a) then
    if hidden_attribute tag m then None
    else if link_attribute m then Some (redact_url defaults (attr_value a)) else attribute d j m
  else attribute d j m.
Proof.
  intros Hi. rewrite sanitize_attribute_eq.
  pose proof (attributes_spec d i (attr_name a) (redact_url defaults (attr_value a)) Hi) as H. cbv zeta in H.
  destruct (remove_attribute i (attr_name a) d) as [b d2]. destruct H as (H1 & H2 & _). cbn [snd].
  destruct (decide (j = i /\ m = attr_name a)) as [[-> ->]|Hne].
  - destruct (hidden_attribute _ _); [by rewrite H2, decide_True|].
    destruct (link_attribute _); [by rewrite H1, decide_True|done].
  - destruct (hidden_attribute _ _); [by rewrite H2, decide_False|].
    destruct (link_attribute _); [by rewrite H1, decide_False|done].
Qed.

Lemma sanitize_attributes_skeleton tag i l : forall d, same_skeleton d (foldl (sanitize_attribute tag i) d l).
Proof.
  induction l as [|a l IH]; intros d; [reflexivity|]. simpl.
  etransitivity; [apply sanitize_attribute_skeleton|apply IH].
Qed.

(** The attributes of a node behind the loop over a list of attributes. *)
Lemma sanitize_attributes_read tag i l : forall d j m, is_Some (nodes d !! i) ->
  let d' := foldl (sanitize_attribute tag i) d l in
  if decide (j = i /\ m ∈ map attr_name l) then
    if hidden_attribute tag m then attribute d' j m = None
    else if link_attribute m then exists raw, attribute d' j m = Some (redact_url defaults raw)
    else attribute d' j m = attribute d j m
  else attribute d' j m = attribute d j m.
Proof.
  induction l as [|a l IH]; intros d j m Hi; cbn zeta; cbn [foldl map].
  { by rewrite decide_False by set_solver. }
  pose proof (sanitize_attribute_skeleton tag i d a) as Hs.
  destruct (skeleton_read _ _ Hs) as (_ & _ & S & _).
  specialize (IH (sanitize_attribute tag i d a) j m ltac:(by apply S)). cbn zeta in IH.
  rewrite (sanitize_attribute_read tag i d a j m Hi) in IH.
  destruct (decide (j = i /\ m ∈ map attr_name l)) as [[-> Hm]|Hm].
  - rewrite decide_True by set_solver. destruct (hidden_attribute tag m) eqn:Eh; [done|].
    destruct (link_attribute m) eqn:El; [done|]. by destruct (decide _).
  - rewrite IH. destruct (decide (j = i /\ m = attr_name a)) as [[-> ->]|Hne].
    + rewrite decide_True by set_solver. destruct (hidden_attribute _ _); [done|].
      destruct (link_attribute _); [by eexists|done].
    + rewrite decide_False; [done|]. intros [-> Hin]. apply elem_of_cons in Hin as [->|Hin]; naive_solver.
Qed.

(** ** One element *)

Lemma same_payload_read d1 d2 j : same_payload d1 d2 j ->
  name_of d1 j = name_of d2 j /\ is_element d1 j = is_element d2 j /\
  attributes_of d1 j = attributes_of d2 j /\ (forall m, attribute d1 j m = attribute d2 j m) /\
  (is_Some (nodes d1 !! j) <-> is_Some (nodes d2 !! j)).
Proof.
  unfold same_payload, payload, name_of, is_element, attributes_of, attribute. intros H.
  destruct (nodes d1 !! j) as [n1|], (nodes d2 !! j) as [n2|]; try done.
  injection H as E1 E2 E3 E4 E5. cbn. rewrite E1, E2, E3. by split_and!.
Qed.

(** A node that holds one empty text. *)
Definition blank_children (d : dom) (i : nat) : Prop := exists t,
  children_of d i = [t] /\ children_of d t = [] /\
  (fun n => (n_type n, n_text n)) <$> nodes d !! t = Some (Text, []).

Lemma blank_text d i : dom_wf d -> is_element d i = true -> blank_children d i -> element_text d i = [].
Proof.
  intros Hwf Hi (t & Hc & Hct & Ht). unfold is_element in Hi. destruct (nodes d !! i) as [n|] eqn:En; [|done].
  apply bool_decide_eq_true in Hi. unfold element_text. rewrite (tree_of_eq d Hwf i n En).
  unfold children_of in Hc, Hct. rewrite En in Hc. cbn in Hc. rewrite Hc. cbn [map].
  destruct (nodes d !! t) as [nt|] eqn:Et; [|done]. cbn in Hct. injection Ht as Et1 Et2.
  rewrite (tree_of_eq d Hwf t nt Et), Hi, Et1, Et2. cbn in Hct. rewrite Hct. done.
Qed.

(** What [sanitize_element] does to the store around one element. *)
Definition element_cleaned (d d' : dom) (i : nat) : Prop :=
  dom_wf d' /\
  (forall j, is_Some (nodes d !! j) -> is_Some (nodes d' !! j) /\ name_of d' j = name_of d j /\
     is_element d' j = is_element d j) /\
  (forall j, is_Some (nodes d' !! j) -> is_Some (nodes d !! j) \/ is_element d' j = false) /\
  (forall j p, is_Some (nodes d !! j) -> parent_of d' j = Some p -> parent_of d j = Some p) /\
  (forall j m, is_Some (nodes d !! j) -> j <> i -> attribute d' j m = attribute d j m) /\
  (forall m, if hidden_attribute (name_of d i) m then attribute d' i m = None
             else if link_attribute m then
               (is_Some (attribute d i m) -> exists raw, attribute d' i m = Some (redact_url defaults raw)) /\
               (attribute d i m = None -> attribute d' i m = None)
             else attribute d' i m = attribute d i m) /\
  (private_text (name_of d i) = true -> blank_children d' i) /\
  (forall j, j <> i -> is_Some (nodes d !! j) -> blank_children d j -> blank_children d' j).

Lemma attribute_listed d i m : is_Some (attribute d i m) <-> m ∈ map attr_name (attributes_of d i).
Proof.
  unfold attribute, attributes_of. destruct (nodes d !! i) as [n|]; cbn; [|split; [by intros []|set_solver]].
  induction (n_attributes n) as [|a l IH]; cbn; [split; [by intros []|set_solver]|].
  destruct (attr_name a =s m) eqn:E.
  - apply eqb_bytes_true in E as ->. split; [set_solver|eauto].
  - apply eqb_bytes_false in E. rewrite IH, elem_of_cons. naive_solver.
Qed.

(** The step on the text: the private text is replaced by an empty one. *)
Lemma text_cleaned d i : dom_wf d -> is_element d i = true ->
  let d1 := if private_text (name_of d i) then set_text i [] d else d in
  dom_wf d1 /\
  (forall j, is_Some (nodes d !! j) -> same_payload d1 d j /\
     (forall p, parent_of d1 j = Some p -> parent_of d j = Some p)) /\
  (forall j, is_Some (nodes d1 !! j) -> is_Some (nodes d !! j) \/ is_element d1 j = false) /\
  (private_text (name_of d i) = true -> blank_children d1 i) /\
  (forall j, j <> i -> is_Some (nodes d !! j) -> blank_children d j -> blank_children d1 j).
Proof.
  intros Hwf He. cbn zeta. destruct (private_text _); [|split_and!; auto; done].
  assert (Hi : is_Some (nodes d !! i)) by (unfold is_element in He; destruct (nodes d !! i); eauto; done).
  destruct (set_text_spec d i [] Hwf Hi) as (H1 & H2 & H3 & H4 & H5 & H6).
  set (d1 := set_text i [] d) in *.
  assert (Hfresh : nodes d !! next_id d = None).
  { apply eq_None_not_Some. intros H. apply (wf_bound d Hwf) in H. lia. }
  assert (Hne : forall j, is_Some (nodes d !! j) -> j <> next_id d).
  { intros j [n Hj] ->. congruence. }
  assert (Ht : exists nt, nodes d1 !! next_id d = Some nt /\ n_type nt = Text /\ n_text nt = []).
  { destruct (nodes d1 !! next_id d) as [nt|]; [|done]. exists nt. cbn in H3. by injection H3 as -> _ _ -> _. }
  destruct Ht as (nt & Et & Ety & Ett). split_and!; [done| | | |].
  - intros j Hj. split; [by apply H6, Hne|]. intros p. rewrite H4, decide_False by by apply Hne.
    by case_decide.
  - intros j [n Hj]. destruct (decide (j = next_id d)) as [->|Hjt].
    + right. unfold is_element. rewrite Et, Ety. done.
    + left. specialize (H6 j Hjt). apply same_payload_read in H6 as (_ & _ & _ & _ & <-). eauto.
  - intros _. exists (next_id d). split_and!; [done| |by rewrite Et; cbn; rewrite Ety, Ett].
    rewrite H5 by (intros E; rewrite <- E in Hi; rewrite Hfresh in Hi; by destruct Hi).
    unfold children_of. by rewrite Hfresh.
  - intros j Hji Hj (t & Hc & Hct & Htt). exists t.
    assert (Hs : is_Some (nodes d !! t)) by (destruct (nodes d !! t); [eauto|done]).
    assert (Hti : t <> i).
    { intros ->. unfold is_element in He. destruct (nodes d !! i) as [n|]; [|done].
      cbn in Htt. injection Htt as Hty _. by rewrite Hty in He. }
    rewrite !H5 by done. split_and!; [done|done|].
    pose proof (H6 t (Hne t Hs)) as Hpay. unfold same_payload, payload in Hpay.
    destruct (nodes d1 !! t), (nodes d !! t); try done. cbn in *. injection Hpay as -> _ _ -> _. done.
Qed.

Lemma blank_skeleton d d' i : same_skeleton d d' -> blank_children d i -> blank_children d' i.
Proof.
  intros Hs (t & H1 & H2 & H3). destruct (skeleton_read d d' Hs) as (_ & C & _). exists t. rewrite !C.
  split_and!; [done|done|]. destruct Hs as [Hs _]. specialize (Hs t). unfold skeleton in Hs.
  destruct (nodes d' !! t), (nodes d !! t); try done. cbn in *. injection Hs as -> _ -> _ _. done.
Qed.

Lemma sanitize_element_cleaned d i : dom_wf d -> is_element d i = true ->
  element_cleaned d (sanitize_element d i) i.
Proof.
  intros Hwf Hi. destruct (text_cleaned d i Hwf Hi) as (T1 & T2 & T3 & T4 & T5).
  unfold sanitize_element. set (d1 := if private_text _ then _ else d) in *. set (tag := name_of d i) in *.
  assert (Hs0 : is_Some (nodes d !! i)) by (unfold is_element in Hi; destruct (nodes d !! i); eauto; done).
  pose proof (proj1 (T2 i Hs0)) as Hpi. apply same_payload_read in Hpi as (_ & _ & Hattrs & Hai & Hsi).
  pose proof (proj2 Hsi Hs0) as Hs1.
  pose proof (sanitize_attributes_skeleton tag i (attributes_of d1 i) d1) as Hsk.
  pose proof (fun j m => sanitize_attributes_read tag i (attributes_of d1 i) d1 j m Hs1) as Hrd. cbv zeta in Hrd.
  set (d2 := foldl _ d1 _) in *. destruct (skeleton_read d1 d2 Hsk) as (P & _ & S & Nm & El).
  split_and!.
  - by eapply skeleton_wf.
  - intros j Hj. destruct (T2 j Hj) as [Hp _]. apply same_payload_read in Hp as (E1 & E2 & _ & _ & E3).
    rewrite S, Nm, El, E1, E2. by split_and!; [apply E3| |].
  - intros j. rewrite S, El. apply T3.
  - intros j p Hj. rewrite P. by apply T2.
  - intros j m Hj Hne. specialize (Hrd j m). rewrite decide_False in Hrd by naive_solver. rewrite Hrd.
    destruct (T2 j Hj) as [Hp _]. by apply same_payload_read in Hp as (_ & _ & _ & -> & _).
  - intros m. specialize (Hrd i m). fold tag. rewrite <- Hai. case_decide as Hm.
    + destruct Hm as [_ Hm]. destruct (hidden_attribute tag m); [done|]. destruct (link_attribute m); [|done].
      split; [done|]. intros Hno. apply attribute_listed in Hm. rewrite Hno in Hm. by destruct Hm.
    + assert (Hno : attribute d1 i m = None).
      { apply eq_None_not_Some. rewrite attribute_listed. naive_solver. }
      rewrite Hrd, Hno. destruct (hidden_attribute tag m); [done|]. destruct (link_attribute m); [|done].
      split; [by intros []|done].
  - intros Hp. eapply blank_skeleton; [exact Hsk|by apply T4].
  - intros j Hne Hj Hb. eapply blank_skeleton; [exact Hsk|by apply T5].
Qed.

(** ** All elements *)

(** [d'] is [d] with the elements of [l] cleaned. *)
Record cleaned (d d' : dom) (l : list nat) : Prop := {
  cl_wf : dom_wf d';
  cl_kept : forall j, is_Some (nodes d !! j) ->
    is_Some (nodes d' !! j) /\ name_of d' j = name_of d j /\ is_element d' j = is_element d j;
  cl_fresh : forall j, is_Some (nodes d' !! j) -> is_Some (nodes d !! j) \/ is_element d' j = false;
  cl_parent : forall j p, is_Some (nodes d !! j) -> parent_of d' j = Some p -> parent_of d j = Some p;
  cl_others : forall j m, is_Some (nodes d !! j) -> j ∉ l -> attribute d' j m = attribute d j m;
  cl_attributes : forall j m, j ∈ l ->
    if hidden_attribute (name_of d j) m then attribute d' j m = None
    else if link_attribute m then
      (is_Some (attribute d j m) -> exists raw, attribute d' j m = Some (redact_url defaults raw)) /\
      (attribute d j m = None -> attribute d' j m = None)
    else attribute d' j m = attribute d j m;
  cl_text : forall j, j ∈ l -> private_text (name_of d j) = true -> blank_children d' j }.

Lemma cleaned_nil d : dom_wf d -> cleaned d d [].
Proof. intros H. constructor; auto; set_solver. Qed.

Lemma cleaned_snoc d d' l i : cleaned d d' l -> is_element d i = true -> i ∉ l ->
  (forall j, j ∈ l -> is_Some (nodes d !! j)) ->
  cleaned d (sanitize_element d' i) (l ++ [i]).
Proof.
  intros C Hi Hl Hst. assert (Hs : is_Some (nodes d !! i)) by (unfold is_element in Hi; destruct (nodes d !! i); eauto; done).
  destruct (cl_kept _ _ _ C i Hs) as (Hs' & Hn' & He').
  destruct (sanitize_element_cleaned d' i (cl_wf _ _ _ C) ltac:(congruence))
    as (E1 & E2 & E3 & E4 & E5 & E6 & E7 & E8).
  assert (Hd : forall j, is_Some (nodes d !! j) -> is_Some (nodes d' !! j)) by (intros j Hj; by apply (cl_kept _ _ _ C)).
  constructor.
  - done.
  - intros j Hj. destruct (cl_kept _ _ _ C j Hj) as (K1 & K2 & K3). destruct (E2 j K1) as (F1 & F2 & F3).
    split_and!; [done|congruence|congruence].
  - intros j [Hj|Hj]%E3; [|by right]. destruct (cl_fresh _ _ _ C j Hj) as [H|H]; [by left|right].
    destruct (E2 j Hj) as (_ & _ & ->). done.
  - intros j p Hj Hp. apply (cl_parent _ _ _ C); [done|]. apply E4; auto.
  - intros j m Hj Hn. rewrite not_elem_of_app, not_elem_of_cons in Hn. destruct Hn as (Hn & Hne & _).
    rewrite E5 by auto. by apply (cl_others _ _ _ C).
  - intros j m [Hj|Hj%list_elem_of_singleton]%elem_of_app.
    + pose proof (cl_attributes _ _ _ C j m Hj) as H. rewrite E5; [done|by apply Hd, Hst|by intros ->].
    + subst j. specialize (E6 m). rewrite Hn', (cl_others _ _ _ C i m Hs Hl) in E6. done.
  - intros j [Hj|Hj%list_elem_of_singleton]%elem_of_app Hp.
    + apply E8; [by intros ->|by apply Hd, Hst|]. by apply (cl_text _ _ _ C).
    + subst j. apply E7. by rewrite Hn'.
Qed.

Lemma cleaned_all d l : dom_wf d -> NoDup l -> Forall (fun i => is_element d i = true) l ->
  cleaned d (foldl sanitize_element d l) l.
Proof.
  intros Hwf. induction l as [|i l IH] using rev_ind; intros Hn Hl; [by apply cleaned_nil|].
  apply NoDup_app in Hn as (Hn & Hd & _). apply Forall_app in Hl as [Hl Hi]. inversion_clear Hi as [|? ? Hi0 _].
  rewrite foldl_app. simpl. apply cleaned_snoc; [by apply IH|exact Hi0|intros H; apply (Hd i H); set_solver|].
  intros j Hj. rewrite Forall_forall in Hl. specialize (Hl j Hj). unfold is_element in Hl.
  destruct (nodes d !! j); [eauto|done].
Qed.

(** A node that is still below the root was there before. *)
Lemma cleaned_order d d' l root j : dom_wf d -> cleaned d d' l -> is_Some (nodes d !! root) ->
  j ∈ doc_order d' root -> is_element d' j = true -> j ∈ doc_order d root /\ is_element d j = true.
Proof.
  intros Hwf C Hr Hj He. assert (Hr' : is_Some (nodes d' !! root)) by by apply (cl_kept _ _ _ C).
  pose proof (doc_order_stored d' (cl_wf _ _ _ C) root j Hr' Hj) as Hs'.
  destruct (cl_fresh _ _ _ C j Hs') as [Hs|Hs]; [|congruence].
  destruct (cl_kept _ _ _ C j Hs) as (_ & _ & Hel). split; [|congruence].
  apply (doc_order_spec d' (cl_wf _ _ _ C) root j Hr') in Hj. apply (doc_order_spec d Hwf root j Hr).
  clear He Hs' Hel. induction Hj as [|x y z Hxy _ IH]; [constructor|].
  apply (cl_parent _ _ _ C) in Hxy; [|done]. econstructor; [exact Hxy|]. apply IH; [done|done|].
  by apply (parent_in_store d Hwf) in Hxy as [_ ?].
Qed.

(** The sanitizer ends on every document, with all its elements cleaned. *)
Lemma sanitize_cleaned doc :
  dom_wf (doc_dom doc) -> is_Some (nodes (doc_dom doc) !! root_ doc) ->
  exists d', sanitize doc = Ret (with_dom doc d') /\
    cleaned (doc_dom doc) d' (elements_where doc (fun _ => true)).
Proof.
  intros Hwf Hroot. unfold sanitize. rewrite (query_all_elements doc Hwf Hroot). cbn [mbind result_bind].
  eexists. split; [reflexivity|]. apply cleaned_all; [done| |].
  - unfold elements_where. apply NoDup_ListNoDup, List.NoDup_filter, NoDup_ListNoDup. by apply preorder_nodup.
  - apply Forall_forall. intros i Hi%list_elem_of_In. apply filter_In in Hi as [_ Hi]. by rewrite andb_true_r in Hi.
Qed.

(** C16: a sanitized document keeps its tree below the root well formed, and of its elements
    none has a sensitive attribute, an event handler or the value of a control; every link
    attribute holds a URL as the redactor leaves it, every other attribute is the one of the
    document before; the text of scripts, styles, text areas and selections is empty. *)
Theorem sanitize_private doc :
  dom_wf (doc_dom doc) -> is_Some (nodes (doc_dom doc) !! root_ doc) ->
  exists doc', sanitize doc = Ret doc' /\ dom_wf (doc_dom doc') /\
    forall i, i ∈ doc_order (doc_dom doc') (root_ doc') -> is_element (doc_dom doc') i = true ->
    name_of (doc_dom doc') i = name_of (doc_dom doc) i /\
    (private_text (name_of (doc_dom doc') i) = true -> element_text (doc_dom doc') i = []) /\
    forall m,
      if hidden_attribute (name_of (doc_dom doc') i) m then attribute (doc_dom doc') i m = None
      else if link_attribute m then
        forall v, attribute (doc_dom doc') i m = Some v -> exists raw, v = redact_url defaults raw
      else attribute (doc_dom doc') i m = attribute (doc_dom doc) i m.
Proof.
  intros Hwf Hroot. destruct (sanitize_cleaned doc Hwf Hroot) as (d' & Hd' & C).
  exists (with_dom doc d'). split; [done|]. set (l := elements_where doc (fun _ => true)) in *.
  cbn [with_dom doc_dom root_]. split; [apply C|]. intros i Hi He.
  destruct (cleaned_order _ _ _ _ _ Hwf C Hroot Hi He) as [Ho Hel].
  assert (Hil : i ∈ l).
  { apply list_elem_of_In, filter_In. rewrite Hel. split; [by apply list_elem_of_In|done]. }
  destruct (cl_kept _ _ _ C i) as (_ & Hn & _); [unfold is_element in Hel; destruct (nodes (doc_dom doc) !! i); eauto; done|].
  rewrite Hn. split_and!; [done| |].
  - intros Hp. apply blank_text; [apply C|done|by apply (cl_text _ _ _ C)].
  - intros m. pose proof (cl_attributes _ _ _ C i m Hil) as Hm. destruct (hidden_attribute _ m); [done|].
    destruct (link_attribute m); [|done]. intros v Hv. destruct Hm as [Hm1 Hm2].
    destruct (attribute (doc_dom doc) i m) eqn:Ea; [|by rewrite Hm2 in Hv].
    destruct Hm1 as [raw Hraw]; [eauto|]. exists raw. congruence.
Qed.

Definition shop_document : Document :=
  default sample_document (match parse_html shop [] [] with Ret doc => Some doc | Throw _ => None end).

Lemma shop_document_ok : dom_wf (doc_dom shop_document) /\ is_Some (nodes (doc_dom shop_document) !! root_ shop_document).
Proof.
  unfold shop_document. pose proof (parse_html_ok shop [] []) as H. destruct (parse_html shop [] []) as [doc|]; [exact H|].
  split; [exact sample_wf|exact sample_root].
Qed.

Lemma sanitize_private_witness :
  exists doc', sanitize shop_document = Ret doc' /\
    forall i, i ∈ doc_order (doc_dom doc') (root_ doc') -> is_element (doc_dom doc') i = true ->
      attribute (doc_dom doc') i (lit "onclick") = None.
Proof.
  destruct (sanitize_private shop_document (proj1 shop_document_ok) (proj2 shop_document_ok)) as (doc' & H1 & _ & H2).
  exists doc'. split; [exact H1|]. intros i Hi He. destruct (H2 i Hi He) as (_ & _ & H3).
  specialize (H3 (lit "onclick")).
  assert (Hh : forall t, hidden_attribute t (lit "onclick") = true).
  { intros t. unfold hidden_attribute. change (starts_with (lit "on") (lit "onclick")) with true. by rewrite orb_true_r. }
  by rewrite Hh in H3.
Defined.
