(* ===== verification/PdqlQuery.v ===== *)
(** * What queries answer: the theorems about [src/pdql/pdql.cpp]

    The compiler accepts only queries whose expressions can be evaluated; the execution
    answers a row per selected element; the JSON output is read back by [Json]. *)
From S2P Require Import Prelude Html HtmlTree Dom SelectorMatch Document IrFilter Redaction.
From S2P Require Import Json PdqlText Pdql Sanitizer.

(** ** Expressions *)

Inductive access := ReadText | ReadTag | ReadAttribute (name : bytes).

(** An expression, apart from the element it reads, and whether its value is trimmed. *)
Definition parse_expr (expr : bytes) : result (access * bool) :=
  let expr := strip_prefix (lit "node.") expr in
  let trimmed := ends_with (lit ".trim()") expr in
  let expr := if trimmed then take (length expr - 7) expr else expr in
  a ← (if expr =s lit "text" then Ret ReadText
       else if (expr =s lit "tag") || (expr =s lit "tag_name") then Ret ReadTag
       else if starts_with (lit "attr(") expr && ends_with (lit ")") expr then
         name ← unquote (trim (inner expr 5 6)); Ret (ReadAttribute name)
       else Throw ParseError);
  Ret (a, trimmed).

Definition read_access (d : dom) (i : nat) (x : access * bool) : bytes :=
  let v := match x.1 with
           | ReadText => element_text d i
           | ReadTag => name_of d i
           | ReadAttribute name => element_attribute d i name
           end in
  if x.2 then trim v else v.

Lemma unquote_fails s : outcome (fun e => e = ParseError) (fun _ => True) (unquote s).
Proof. unfold unquote. repeat case_match; done. Qed.

Lemma parse_expr_fails e : outcome (fun e => e = ParseError) (fun _ => True) (parse_expr e).
Proof.
  unfold parse_expr. cbv zeta. eapply (outcome_bind _ (fun _ => True)); [|done].
  destruct (_ =s lit "text"); [done|]. destruct (_ || _); [done|]. destruct (_ && _); [|done].
  eapply outcome_bind; [apply unquote_fails|done].
Qed.

Lemma property_eq d i e : property d i e = (x ← parse_expr e; Ret (read_access d i x)).
Proof.
  unfold property, parse_expr, read_access. cbv zeta.
  destruct (_ =s lit "text"); [done|]. destruct (_ || _); [done|]. destruct (_ && _); [|done].
  by destruct (unquote _).
Qed.

(** ** What the compiler checks *)

Definition readable (e : bytes) : Prop := exists x, parse_expr e = Ret x.

Definition field_expr (field : bytes) : bytes := (field_parts field).1.2.

Definition field_ok (field : bytes) : Prop :=
  let e := field_expr field in
  one_of e aggregates = true \/
  (one_of e aggregates = false /\ readable (if is_number_call e then number_argument e else e)).

Definition where_ok (w : bytes) : Prop :=
  w = [] \/ exists equal t, find_if (fun c => c =c "=") w = Some equal /\ readable (guard_key w equal) /\
    guard_text w equal = Ret t.

(** What is known of every query the constructor has built. *)
Definition query_ok (q : Query) : Prop :=
  fields_ q <> [] /\ (exists fs, split (fields_ q) = Ret fs /\ Forall field_ok fs) /\ where_ok (where_ q) /\
  (is_xpath (selector_ q) = false -> forallb selector_char (selector_ q) = true).

Lemma property_outcome d i e : outcome (fun e => e = ParseError) (fun _ => readable e) (property d i e).
Proof.
  rewrite property_eq. pose proof (parse_expr_fails e). unfold readable. destruct (parse_expr e); simpl in *; eauto.
Qed.

Lemma check_fields_outcome d i fs : outcome (fun e => e = ParseError) (fun _ => Forall field_ok fs) (check_fields d i fs).
Proof.
  induction fs as [|f fs IH]; [constructor|]. cbn [check_fields].
  eapply (outcome_bind _ (fun _ => field_ok f)).
  - unfold check_field, field_ok. fold (field_expr f). cbv zeta. destruct (one_of _ _); [by left|].
    destruct (is_number_call _); eapply outcome_bind; [apply property_outcome|by right|apply property_outcome|by right].
  - intros _ Hf. eapply outcome_impl; [exact IH|]. by constructor.
Qed.

Lemma check_where_outcome d i w : outcome (fun e => e = ParseError) (fun _ => where_ok w) (check_where d i w).
Proof.
  unfold check_where, where_ok. destruct (nonempty w) eqn:En; [|left; by destruct w].
  destruct (find_if _ w) as [n|] eqn:Ef; [|done].
  eapply outcome_bind; [apply property_outcome|]. intros v Hr.
  pose proof (unquote_fails (trim (drop (n + (if starts_with (lit "==") (drop n w) then 2 else 1)) w))) as Hu.
  fold (guard_text w n) in Hu. destruct (guard_text w n) as [t|] eqn:Et; [|exact Hu]. simpl. right. eauto.
Qed.

Section Compile.
Context {F : Doubles}.
Variable evaluate_xpath : dom -> nat -> bytes -> result XPathValue.

(** The errors of a compilation: the two of the language, and those of the engine. *)
Definition compile_error (e : ErrorCode) : Prop :=
  e = ParseError \/ e = ResourceLimit \/ exists d i s, evaluate_xpath d i s = Throw e.

Lemma fold_loop_fails s : forall prev quoted folded, outcome (fun e => e = ParseError) (fun _ => True) (fold_loop prev quoted folded s).
Proof.
  induction s as [|c s IH]; intros prev quoted folded; cbn [fold_loop]; [by destruct quoted|].
  destruct quoted; [apply IH|]. destruct (is_quote c); [apply IH|]. destruct (is_blank c); apply IH.
Qed.

Lemma split_fails s : outcome (fun e => e = ParseError) (fun _ => True) (split s).
Proof.
  unfold split. generalize (@None ascii) at 1 as prev. generalize (@None ascii) as quoted. generalize 0%Z as depth.
  generalize (@nil ascii) as current. induction s as [|c s IH]; intros current depth quoted prev; cbn [split_loop].
  - destruct quoted; [done|]. by destruct (negb _).
  - destruct quoted; [apply IH|]. destruct (is_quote c); [apply IH|]. destruct (c =c "("); [apply IH|].
    destruct (c =c ")"); [apply IH|]. destruct (_ && _); [|apply IH].
    eapply outcome_bind; [apply IH|done].
Qed.

Lemma probe_ok : exists d i, probe = Ret (d, i).
Proof. unfold probe. eexists _, _. vm_compute. reflexivity. Qed.

Lemma weaken_parse {A} (P : A -> Prop) m : outcome (fun e => e = ParseError) P m -> outcome compile_error P m.
Proof. destruct m as [a|e]; [done|]. simpl. intros ->. by left. Qed.

Lemma clauses_fails t : outcome (fun e => e = ParseError) (fun _ => True) (clauses t).
Proof. unfold clauses. repeat case_match; done. Qed.

Lemma query_body_fails t : outcome (fun e => e = ParseError) (fun _ => True) (query_body t).
Proof. unfold query_body. repeat case_match; done. Qed.

Lemma check_selector_outcome sel :
  outcome compile_error (fun s => is_xpath s = false -> forallb selector_char s = true) (check_selector evaluate_xpath sel).
Proof.
  unfold check_selector. destruct (is_xpath sel) eqn:Ex.
  - apply outcome_throw_if; [by left|]. intros _.
    pose proof (parse_html_ok (lit "<probe>text</probe>") [] []) as Hp.
    destruct (parse_html (lit "<probe>text</probe>") [] []) as [doc|e]; [|right; left; exact Hp]. cbn [mbind result_bind].
    eapply (outcome_bind _ (fun _ => True)); [apply weaken_parse, unquote_fails|]. intros src _.
    destruct (evaluate_xpath _ _ src) as [v|e] eqn:Ev; [|right; right; eauto]. cbn. congruence.
  - cbv zeta. apply outcome_throw_if; [by left|]. intros _. apply outcome_throw_if; [by left|].
    intros H%negb_false_iff. cbn. done.
Qed.

Lemma compile_outcome source : outcome compile_error query_ok (compile evaluate_xpath source).
Proof.
  unfold compile. apply outcome_throw_if; [by right; left|]. intros _.
  eapply (outcome_bind _ (fun _ => True)); [apply weaken_parse, fold_loop_fails|]. intros folded _.
  eapply (outcome_bind _ (fun _ => True)); [apply weaken_parse, query_body_fails|]. intros text _. cbv zeta.
  eapply (outcome_bind _ (fun _ => True)); [apply weaken_parse, clauses_fails|]. intros q _.
  apply outcome_throw_if; [by left|]. intros [_ Hf%negb_false_iff]%orb_false_iff.
  eapply outcome_bind; [apply check_selector_outcome|]. intros sel Hsel. cbv beta in Hsel.
  destruct probe_ok as (d & i & ->). cbn [mbind result_bind].
  pose proof (split_fails (fields_ q)) as Hs. destruct (split (fields_ q)) as [fs|e] eqn:Es; [|left; exact Hs].
  cbn [mbind result_bind].
  eapply outcome_bind; [apply weaken_parse, check_fields_outcome|]. intros u1 Hfs.
  eapply outcome_bind; [apply weaken_parse, check_where_outcome|]. intros u2 Hw. cbn.
  split_and!; cbn; [by destruct (fields_ q)|by exists fs|done|done].
Qed.

End Compile.

(** ** Rows *)

(** The keys of a row are strictly increasing. *)
Definition row_sorted (row : Row) : Prop := StronglySorted (fun a b => key_order a b /\ a <> b) row.*1.

Lemma row_emplace_keys name v row x : x ∈ (row_emplace name v row).*1 -> x = name \/ x ∈ row.*1.
Proof.
  induction row as [|[k y] row IH]; cbn [row_emplace]; [cbn; set_solver|].
  destruct (k =s name); [by right|]. destruct (bytes_le k name); cbn; rewrite !elem_of_cons; naive_solver.
Qed.

Lemma row_emplace_sorted name v row : row_sorted row -> row_sorted (row_emplace name v row).
Proof.
  unfold row_sorted. induction row as [|[k x] row IH]; cbn [row_emplace]; intros Hs; [by repeat constructor|].
  destruct (k =s name) eqn:En; [done|]. apply eqb_bytes_false in En.
  cbn in Hs. apply StronglySorted_inv in Hs as [Hs Hk]. destruct (bytes_le k name) eqn:El.
  - cbn. constructor; [by apply IH|]. apply Forall_forall. intros y [->|Hy]%row_emplace_keys; [done|].
    rewrite Forall_forall in Hk. by apply Hk.
  - assert (Hnk : key_order name k) by (destruct (total key_order k name) as [H|H]; [unfold key_order in H; congruence|done]).
    cbn. constructor; [by constructor|]. constructor; [by split; [|apply not_eq_sym]|].
    eapply Forall_impl; [exact Hk|]. intros y [H1 H2]. split; [by etransitivity|].
    intros ->. unfold key_order in H1. congruence.
Qed.

Lemma row_sorted_nodup row : row_sorted row -> NoDup row.*1.
Proof.
  unfold row_sorted. induction 1 as [|k l _ IH Hk]; constructor; [|done].
  intros Hin. rewrite Forall_forall in Hk. by apply Hk in Hin as [_ []].
Qed.

(** ** Projection *)

(** A projection without a name whose attribute is trimmed: the name the code gives it is
    the text between the first parenthesis and the last character, which is no string. *)
Definition late (field : bytes) : bool :=
  let '(_, e, colon) := field_parts field in
  negb colon && starts_with (lit "attr(") e && ends_with (lit ".trim()") e.

Lemma rstrip_stop p a c : p c = false -> rstrip p (a ++ [c]) = a ++ [c].
Proof. intros Hc. induction a as [|x a IH]; cbn; [by rewrite Hc|]. rewrite IH. by destruct a. Qed.

Lemma last_trim s c : last s = Some c -> is_trimmed c = false -> last (trim s) = Some c.
Proof.
  intros Hl Hc. apply last_Some in Hl as [a ->]. unfold trim.
  rewrite skip_app_stop by (simpl; by rewrite Hc). rewrite rstrip_stop by done. apply last_snoc.
Qed.

Lemma unquote_paren s : last s = Some "("%char -> unquote s = Throw ParseError.
Proof.
  intros Hl. unfold unquote. destruct s as [|x [|y s]]; [done|done|]. rewrite Hl.
  destruct (is_quote x) eqn:Ex; [|done]. destruct ("(" =c x) eqn:E; [|done].
  apply eqc_true in E as <-. by vm_compute in Ex.
Qed.

Lemma last_inner t : 5 <= length t -> last (inner (t ++ lit ".trim()") 5 6) = Some "("%char.
Proof.
  intros Hl. replace (t ++ lit ".trim()") with ((t ++ lit ".trim") ++ ["("%char; ")"%char]) by by rewrite <- app_assoc.
  assert (Ha : 5 <= length (t ++ lit ".trim")) by (rewrite length_app; lia).
  generalize dependent (t ++ lit ".trim"). intros a Ha. unfold inner.
  rewrite drop_app_le by done. replace (length _ - 6) with (length (drop 5 a ++ ["("%char])).
  2:{ rewrite !length_app, length_drop. simpl. lia. }
  change ["("%char; ")"%char] with (["("%char] ++ [")"%char]). rewrite app_assoc, take_app_length. apply last_snoc.
Qed.

(** The expression of an attribute, with its prefix. *)
Lemma attr_expr e : starts_with (lit "attr(") e = true ->
  strip_prefix (lit "node.") e = e /\ (e =s lit "text") = false /\
  (e =s lit "tag") || (e =s lit "tag_name") = false /\ one_of e aggregates = false /\
  is_number_call e = false /\ (starts_with (lit "avg") e = false).
Proof.
  intros H. apply starts_with_spec in H. rewrite H. generalize (drop (length (lit "attr(")) e). intros r.
  split_and!; reflexivity.
Qed.

Lemma attr_late e : starts_with (lit "attr(") e = true -> readable e ->
  if ends_with (lit ".trim()") e then unquote (trim (inner e 5 6)) = Throw ParseError
  else exists name, unquote (trim (inner e 5 6)) = Ret name.
Proof.
  intros Ha [x Hx]. destruct (attr_expr e Ha) as (E1 & E2 & E3 & _).
  unfold parse_expr in Hx. rewrite E1 in Hx. destruct (ends_with (lit ".trim()") e) eqn:Et.
  - apply unquote_paren, last_trim; [|done]. apply ends_with_spec in Et as [t ->]. apply last_inner.
    clear -Ha. destruct t as [|c1 [|c2 [|c3 [|c4 [|c5 t]]]]]; simpl in *; try lia;
      by rewrite ?andb_false_r in Ha.
  - rewrite E2, E3, Ha in Hx. cbn [andb] in Hx. destruct (ends_with (lit ")") e); [|done].
    destruct (unquote _) as [name|]; [eauto|done].
Qed.

Section Project.
Context {F : Doubles}.

Lemma project_field_ok d i count sum f : field_ok f ->
  if late f then project_field d i count sum f = Throw ParseError
  else exists x, project_field d i count sum f = Ret x.
Proof.
  unfold field_ok, field_expr, late, project_field.
  destruct (field_parts f) as [[name e] colon]. cbn [fst snd]. intros Hf.
  destruct (negb colon && starts_with (lit "attr(") e) eqn:Ea.
  - apply andb_prop in Ea as [_ Ea]. destruct (attr_expr e Ea) as (_ & _ & _ & E4 & E5 & E6).
    cbn [andb]. destruct Hf as [Hf|[_ Hf]]; [congruence|]. rewrite E5 in *.
    pose proof (attr_late e Ea Hf) as Hl. destruct Hf as [x Hx].
    assert ((e =s lit "count") || (e =s lit "count()") = false /\
            one_of e ["sum"; "sum()"; "avg"; "avg()"]%string = false /\ (e =s lit "number") = false) as (-> & -> & ->).
    { apply starts_with_spec in Ea. rewrite Ea. split_and!; reflexivity. }
    rewrite property_eq, Hx. cbn [mbind result_bind].
    destruct (ends_with _ e); [by rewrite Hl|]. destruct Hl as [n ->]. eauto.
  - cbn [andb]. destruct (_ || _) eqn:E1; [eauto|]. destruct (one_of e ["sum"; "sum()"; "avg"; "avg()"]%string) eqn:E2; [eauto|].
    destruct (e =s lit "number") eqn:E3; [eauto|].
    assert (one_of e aggregates = false) as Hagg.
    { unfold one_of, aggregates in *. cbn [existsb] in *. rewrite E3.
      apply orb_false_iff in E1 as [-> ->]. by repeat (apply orb_false_iff in E2 as [-> E2]). }
    destruct Hf as [Hf|[_ [x Hx]]]; [congruence|]. destruct (is_number_call e).
    + rewrite property_eq, Hx. cbn. eauto.
    + rewrite property_eq, Hx. cbn. eauto.
Qed.

(** The row of an element, when none of the fields is late. *)
Definition row_of (d : dom) (i : nat) (count : N) (sum : float) (fs : list bytes) (row : Row) : Row :=
  foldl (fun row f => match project_field d i count sum f with
                      | Ret (name, v) => row_emplace name v row
                      | Throw _ => row
                      end) row fs.

Definition late_error (fs : list bytes) (e : ErrorCode) : Prop :=
  e = ResourceLimit \/ (e = ParseError /\ Exists (fun f => late f = true) fs).

Lemma late_error_cons f fs e : late_error fs e -> late_error (f :: fs) e.
Proof. intros [H|[H1 H2]]; [by left|right]. split; [done|by constructor]. Qed.

Lemma project_fields_outcome d i count sum fs : Forall field_ok fs -> forall row size,
  outcome (late_error fs) (fun x => x.1 = row_of d i count sum fs row) (project_fields d i count sum fs row size).
Proof.
  induction 1 as [|f fs Hf _ IH]; intros row size; [done|]. cbn [project_fields row_of foldl].
  pose proof (project_field_ok d i count sum f Hf) as Hp. destruct (late f) eqn:El.
  - rewrite Hp. right. split; [done|by constructor].
  - destruct Hp as [[name v] ->]. cbn [mbind result_bind]. cbv zeta.
    apply outcome_throw_if; [by left|]. intros _. specialize (IH (row_emplace name v row)).
    match goal with |- outcome _ _ (project_fields _ _ _ _ _ _ ?n) => specialize (IH n) end.
    destruct (project_fields _ _ _ _ _ _ _); simpl in *; [done|by apply late_error_cons].
Qed.

Lemma row_of_sorted d i count sum fs : forall row, row_sorted row -> row_sorted (row_of d i count sum fs row).
Proof.
  induction fs as [|f fs IH]; intros row Hr; [done|]. cbn [row_of foldl]. apply IH.
  destruct (project_field _ _ _ _ _) as [[n v]|]; [by apply row_emplace_sorted|done].
Qed.

Lemma project_rows_outcome q d count sum fs l : split (fields_ q) = Ret fs -> Forall field_ok fs -> forall size,
  outcome (late_error fs) (fun rows => rows = map (fun i => row_of d i count sum fs []) (omap id l))
    (project_rows q d count sum l size).
Proof.
  intros Hs Hf. induction l as [|[i|] l IH]; intros size; [done| |apply IH]. cbn [project_rows].
  rewrite Hs. cbn [mbind result_bind].
  eapply outcome_bind; [by apply project_fields_outcome|]. intros [row size'] Hr. cbn [fst] in Hr. subst row.
  eapply outcome_bind; [apply IH|]. intros rows ->. done.
Qed.

End Project.

(** ** Selection *)

(** The guard, on one element. *)
Definition passes (w : bytes) (d : dom) (i : nat) : bool :=
  match find_if (fun c => c =c "=") w with
  | Some equal =>
      match parse_expr (guard_key w equal), guard_text w equal with
      | Ret x, Ret t => read_access d i x =s t
      | _, _ => false
      end
  | None => true
  end.

Lemma guard_nodes_spec d key expected x l : parse_expr key = Ret x ->
  guard_nodes d key expected l =
  Ret (map Some (List.filter (fun i => read_access d i x =s expected) (omap id l))).
Proof.
  intros Hx. induction l as [|[i|] l IH]; [done| |exact IH]. cbn [guard_nodes]. rewrite property_eq, Hx.
  cbn [mbind result_bind]. rewrite IH. cbn. by destruct (_ =s expected).
Qed.

Lemma omap_id_Some (l : list nat) : omap id (map Some l) = l.
Proof. induction l as [|i l IH]; [done|]. cbn. by f_equal. Qed.

Lemma apply_where_spec w d l : where_ok w ->
  apply_where w d (map Some l) = Ret (map Some (List.filter (passes w d) l)).
Proof.
  unfold apply_where, passes. intros [->|(equal & t & Hf & [x Hx] & Ht)].
  - cbn. do 2 f_equal. induction l as [|i l IH]; [done|]. cbn. by f_equal.
  - assert (nonempty w = true) as -> by by destruct w. rewrite Hf, Ht, Hx. cbn [mbind result_bind].
    by rewrite (guard_nodes_spec d _ t x _ Hx), omap_id_Some.
Qed.

(** The document a query is evaluated on. *)
Definition snapshot (document : Document) (redact : bool) : result Document :=
  s ← parse_html (doc_html document) [] []; if redact then sanitize s else Ret s.

Lemma snapshot_outcome document redact :
  outcome (fun e => e = ResourceLimit)
    (fun s => dom_wf (doc_dom s) /\ is_Some (nodes (doc_dom s) !! root_ s)) (snapshot document redact).
Proof.
  unfold snapshot. eapply outcome_bind; [apply parse_html_ok|]. intros s [Hwf Hroot].
  destruct redact; [|done]. destruct (sanitize_cleaned s Hwf Hroot) as (d' & -> & C). cbn.
  split; [apply C|by apply (cl_kept _ _ _ C)].
Qed.

(** The elements of the snapshot a query with a tag selector stands for. *)
Definition selected (q : Query) (s : Document) : list nat :=
  List.filter (passes (where_ q) (doc_dom s))
    (elements_where s (fun i => glob (to_lower (selector_ q)) (name_of (doc_dom s) i))).

Section Execute.
Context {F : Doubles}.
Variable evaluate_xpath : dom -> nat -> bytes -> result XPathValue.

Lemma select_nodes_tag q s : dom_wf (doc_dom s) -> is_Some (nodes (doc_dom s) !! root_ s) ->
  is_xpath (selector_ q) = false ->
  select_nodes evaluate_xpath q s =
  Ret (map Some (elements_where s (fun i => glob (to_lower (selector_ q)) (name_of (doc_dom s) i)))).
Proof.
  intros Hwf Hroot Hx. unfold select_nodes. rewrite Hx, (query_all_elements s Hwf Hroot). cbn [mbind result_bind].
  do 2 f_equal. unfold elements_where. rewrite filter_twice. apply List.filter_ext.
  intros i. by rewrite andb_true_r.
Qed.

(** The aggregates of a selection. *)
Definition selection_sum (d : dom) (sel : list nat) : float := sum_of d (map Some sel).

Lemma execute_tag q fs document redact s :
  query_ok q -> split (fields_ q) = Ret fs -> is_xpath (selector_ q) = false ->
  doc_valid document = true -> snapshot document redact = Ret s ->
  outcome (late_error fs)
    (fun rows => (N.of_nat (length (selected q s)) <= max_rows)%N /\
       rows = map (fun i => row_of (doc_dom s) i (N.of_nat (length (selected q s)))
                              (selection_sum (doc_dom s) (selected q s)) fs []) (selected q s))
    (execute_document evaluate_xpath q document redact).
Proof.
  intros (_ & (fs' & Hfs' & Hok) & Hw & _) Hfs Hx Hv Hs. rewrite Hfs in Hfs'. injection Hfs' as <-.
  pose proof (snapshot_outcome document redact) as Ho. rewrite Hs in Ho. destruct Ho as [Hwf Hroot].
  unfold execute_document. rewrite Hv. cbn [negb throw_if mbind result_bind].
  unfold snapshot in Hs. destruct (parse_html (doc_html document) [] []) as [s0|]; [|done].
  cbn [mbind result_bind] in *. rewrite Hs. cbn [mbind result_bind]. cbv zeta.
  rewrite (select_nodes_tag q s Hwf Hroot Hx). cbn [mbind result_bind].
  rewrite (apply_where_spec _ _ _ Hw). cbn [mbind result_bind]. fold (selected q s). rewrite length_map.
  apply outcome_throw_if; [by left|]. intros Hn%N.ltb_ge.
  eapply outcome_impl; [by apply project_rows_outcome|]. intros rows ->.
  split; [done|]. by rewrite omap_id_Some.
Qed.

End Execute.

(** The constructor of a query ends on every text with a query or with an error of the
    language or of the XPath engine; a query it builds has a projection that divides into
    expressions that can be evaluated on any element, a guard that can be evaluated too, and
    a selector that is an XPath call or a tag with wildcards. *)
Theorem compile_sound `{Doubles} evaluate_xpath source :
  outcome (compile_error evaluate_xpath) query_ok (compile evaluate_xpath source).
Proof. apply compile_outcome. Qed.

(** C17: a compiled query with a tag selector answers on every valid document, with two ways to
    fail: a limit is exceeded ([ResourceLimit]), or the projection has a field without a name
    whose trimmed attribute the constructor let pass and the execution cannot name ([late],
    [ParseError], [pdql.cpp:254]).  It answers one row for each element of the (redacted)
    snapshot whose name the wildcards describe and that passes the guard, in document order,
    with the fields of the projection under their names. *)
Theorem execute_rows `{Doubles} evaluate_xpath source q document redact :
  compile evaluate_xpath source = Ret q -> is_xpath (selector_ q) = false -> doc_valid document = true ->
  exists fs, split (fields_ q) = Ret fs /\
    match execute_document evaluate_xpath q document redact with
    | Ret rows => exists s, snapshot document redact = Ret s /\
        let sel := selected q s in
        (N.of_nat (length sel) <= max_rows)%N /\
        Forall2 (fun i row => row_sorted row /\
          row = row_of (doc_dom s) i (N.of_nat (length sel)) (selection_sum (doc_dom s) sel) fs []) sel rows
    | Throw e => late_error fs e
    end.
Proof.
  intros Hq Hx Hv. pose proof (compile_outcome evaluate_xpath source) as Hok. rewrite Hq in Hok. cbn in Hok.
  pose proof Hok as (_ & (fs & Hfs & _) & _). exists fs. split; [done|].
  pose proof (snapshot_outcome document redact) as Ho. destruct (snapshot document redact) as [s|e] eqn:Es.
  - pose proof (execute_tag evaluate_xpath q fs document redact s Hok Hfs Hx Hv Es) as He.
    destruct (execute_document _ _ _ _) as [rows|e]; [|exact He]. destruct He as [Hn ->]. exists s.
    split; [done|]. cbv zeta. split; [done|]. apply Forall2_fmap_r. apply Forall_Forall2_diag, Forall_true.
    intros i. split; [|done]. apply row_of_sorted. constructor.
  - cbn in Ho. subst e. unfold execute_document. rewrite Hv. cbn [negb throw_if mbind result_bind].
    unfold snapshot in Es. destruct (parse_html _ _ _) as [s0|e]; cbn [mbind result_bind] in *; [|injection Es as ->; by left].
    destruct redact; [rewrite Es; by left|done].
Qed.

(** The document of the examples, before and after the sanitizer, under a guard. *)
Definition guarded : bytes := lit "select name: tag, sum(), attr('href') from <p> where text == '6 '".

Definition guarded_query : Query :=
  match compile all_paragraphs guarded with Ret q => q | Throw _ => {| selector_ := []; fields_ := []; where_ := [] |} end.

Lemma execute_rows_witness :
  exists rows, execute_document all_paragraphs guarded_query shop_document true = Ret rows /\ length rows = 1 /\
    Forall row_sorted rows.
Proof.
  assert (Hc : compile all_paragraphs guarded = Ret guarded_query) by (vm_compute; reflexivity).
  assert (Hx : is_xpath (selector_ guarded_query) = false) by (vm_compute; reflexivity).
  assert (Hv : doc_valid shop_document = true) by (vm_compute; reflexivity).
  destruct (execute_rows all_paragraphs guarded guarded_query shop_document true Hc Hx Hv) as (fs & _ & H).
  destruct (execute_document _ _ _ _) as [rows|e] eqn:E.
  - destruct H as (s & _ & H). cbv zeta in H. destruct H as [_ H]. exists rows. split; [done|]. split.
    + assert (Hl : match execute_document all_paragraphs guarded_query shop_document true with
                   | Ret rows => length rows | Throw _ => 0 end = 1) by (vm_compute; reflexivity).
      by rewrite E in Hl.
    + clear E. revert H. generalize (length (selected guarded_query s)).
      generalize (selection_sum (doc_dom s) (selected guarded_query s)).
      generalize (selected guarded_query s). intros sel sum n H.
      induction H as [|? ? ? ? [? _]]; by constructor.
  - assert (Hl : match execute_document all_paragraphs guarded_query shop_document true with
                 | Ret _ => true | Throw _ => false end = true) by (vm_compute; reflexivity).
    by rewrite E in Hl.
Defined.

(** ** The JSON output

    A result set as a value of [Json], with the numbers [num] reads from the numeric texts. *)

Section Output.
Context {B : Binary64}.
Variable num : bytes -> double.

Definition value_json (v : Value) : Json :=
  if numeric v then JNumber (num (v_text v)) (v_text v) else JString (v_text v).

Definition row_json (row : Row) : Json := JObject (map (fun '(name, v) => (name, value_json v)) row).

Definition rows_json (rows : list Row) : Json := JArray (map row_json rows).

(** What the parser asks of a row: the texts are UTF-8, the numeric ones are numbers. *)
Definition value_readable (v : Value) : Prop :=
  if numeric v then json_number (v_text v) /\ from_chars (v_text v) = Some (num (v_text v)) else valid (v_text v).

Definition row_readable (row : Row) : Prop :=
  NoDup row.*1 /\ Forall (fun p => valid p.1 /\ value_readable p.2) row.

Lemma quote_quoted s : quote s = quoted_text s.
Proof.
  unfold quote, quoted_text. do 3 f_equal. apply list_fmap_ext. intros _ c _. revert c.
  assert (H : forallb (fun n => quote_char (byte n) =s quoted_char (byte n)) (map N.of_nat (seq 0 256)) = true)
    by (vm_compute; reflexivity).
  intros c. rewrite forallb_forall in H. rewrite <- (ascii_N_embedding c). apply eqb_bytes_true, H.
  apply in_map_iff. exists (N.to_nat (N_of_ascii c)). split; [apply N2Nat.id|].
  apply in_seq. pose proof (N_ascii_bounded c). lia.
Qed.

Lemma value_text v : (if numeric v then v_text v else quote (v_text v)) = text_of (value_json v).
Proof. unfold value_json. destruct (numeric v); [done|]. apply quote_quoted. Qed.

Lemma fields_text first row :
  serialize_fields FormatJson first row =
  commas first (map (fun '(key, x) => quoted_text key ++ lit ":" ++ text_of x) (map (fun '(name, v) => (name, value_json v)) row)).
Proof.
  revert first. induction row as [|[name v] row IH]; intros first; [done|]. cbn [serialize_fields map commas].
  rewrite IH. unfold serialize_field. rewrite value_text, quote_quoted, <- !app_assoc. by destruct first.
Qed.

Lemma row_text first row :
  serialize_row FormatJson first row = (if first then [] else lit ",") ++ text_of (row_json row).
Proof. unfold serialize_row. rewrite fields_text. cbn [row_json text_of]. by destruct first. Qed.

Lemma rows_text rows : forall first out s, serialize_rows FormatJson first out rows = Ret s ->
  s = out ++ commas first (map text_of (map row_json rows)).
Proof.
  induction rows as [|row rows IH]; intros first out s; cbn [serialize_rows map commas].
  - intros [= <-]. by rewrite app_nil_r.
  - unfold throw_if. destruct (_ <? _)%N; [done|]. cbn [mbind result_bind]. intros ->%IH.
    by rewrite row_text, <- !app_assoc.
Qed.

Lemma serialize_text rows s : pdql_serialize rows FormatJson = Ret s -> s = text_of (rows_json rows).
Proof.
  unfold pdql_serialize. intros (out & ->%rows_text & [= <-])%bind_Ret. done.
Qed.

Lemma value_json_leaf v : height (value_json v) = 0 /\ value_count (value_json v) = 1%N.
Proof. unfold value_json. by destruct (numeric v). Qed.

Lemma row_json_ok row : row_readable row -> json_ok (row_json row).
Proof.
  intros [Hn Hr]. cbn [row_json json_ok]. rewrite foldr_and_pair. split.
  - rewrite <- list_fmap_compose. erewrite list_fmap_ext; [exact Hn|]. by intros ? [].
  - apply Forall_fmap. eapply Forall_impl; [exact Hr|]. intros [name v] [H1 H2]. cbn in *. split; [done|].
    unfold value_json, value_readable in *. by destruct (numeric v).
Qed.

Lemma rows_json_ok rows : Forall row_readable rows -> json_ok (rows_json rows).
Proof.
  intros H. cbn [rows_json json_ok]. rewrite foldr_and. apply Forall_fmap. eapply Forall_impl; [exact H|]. apply row_json_ok.
Qed.

Lemma rows_json_height rows : height (rows_json rows) <= 2.
Proof.
  cbn [rows_json height]. induction rows as [|row rows IH]; [simpl; lia|]. cbn [map foldr].
  assert (height (row_json row) <= 1); [|lia]. clear. cbn [row_json height].
  induction row as [|[name v] row IH]; [simpl; lia|]. cbn [map foldr]. rewrite (proj1 (value_json_leaf v)). lia.
Qed.

(** The number of values of a result set: the rows, the fields and the array. *)
Definition field_count (rows : list Row) : N := 1 + sumN (fun row : Row => 1 + N.of_nat (length row))%N rows.

Lemma sumN_map {A C} (f : C -> N) (g : A -> C) (h : A -> N) l : (forall x, f (g x) = h x) -> sumN f (map g l) = sumN h l.
Proof. intros E. unfold sumN. induction l as [|x l IH]; [done|]. cbn [map foldr]. by rewrite E, IH. Qed.

Lemma rows_json_count rows : value_count (rows_json rows) = field_count rows.
Proof.
  cbn [rows_json value_count]. unfold field_count. f_equal. apply sumN_map. intros row.
  cbn [row_json value_count]. f_equal. rewrite (sumN_map _ _ (fun _ => 1%N)) by (intros [name v]; apply value_json_leaf).
  unfold sumN. induction row as [|p row IH]; [done|]. cbn [foldr length]. rewrite IH. lia.
Qed.

End Output.

(** The JSON output of a result set whose texts are UTF-8 and whose numbers are spelled in
    the grammar of JSON is read back by the JSON parser of the same code base as the array
    of the rows, each an object with the fields in the order of their names, as long as the
    output is within the limits of the parser; no text can break out of its quotes. *)
Theorem serialize_json_roundtrip `{Binary64} num rows s :
  pdql_serialize rows FormatJson = Ret s -> Forall (row_readable num) rows ->
  (N.of_nat (length s) <= max_value_bytes)%N -> (field_count rows <= max_json_values)%N ->
  parse_json s = Ret (rows_json num rows).
Proof.
  intros ->%(serialize_text num) Hr Hs Hn. apply parse_text; [by apply rows_json_ok|done| |by rewrite rows_json_count].
  pose proof (rows_json_height num rows). unfold max_json_depth. lia.
Qed.

(** A result set with a counter and a text with a quotation mark. *)
Definition sample_rows : list Row :=
  [[(lit "count", {| v_text := lit "6"; numeric := true |});
    (lit "text", {| v_text := dquote :: lit "a"; numeric := false |})]].

Definition sample_rows_text : bytes :=
  lit "[{" ++ single_quoted "'count':6,'text':'\" ++ single_quoted "'a'}]".

Lemma serialize_json_roundtrip_witness :
  pdql_serialize sample_rows FormatJson = Ret sample_rows_text /\
  @parse_json decimal sample_rows_text = Ret (@rows_json decimal (fun _ => 6%Z) sample_rows).
Proof.
  assert (Hs : pdql_serialize sample_rows FormatJson = Ret sample_rows_text) by (vm_compute; reflexivity).
  split; [exact Hs|]. apply (@serialize_json_roundtrip decimal (fun _ => 6%Z) sample_rows sample_rows_text Hs).
  - unfold sample_rows. constructor; [|constructor]. split.
    + repeat constructor; set_solver.
    + constructor; [|constructor; [|constructor]]; (split; [vm_compute; reflexivity|]).
      * split; [|reflexivity]. exists [], (lit "6"), [], []. split; [reflexivity|]. split; [by left|].
        split; [|split; by left]. right. exists "6"%char, []. done.
      * vm_compute. reflexivity.
  - vm_compute. discriminate.
  - vm_compute. discriminate.
Defined.
