(* ===== verification/Script.v ===== *)
(** * Endpoints named in scripts: the scanners of [src/endpoint/endpoint_extraction.cpp]

    Heuristic scans of a script for calls and quoted paths.  Positions are offsets in the
    script; [std::string::npos] is [None].  A confidence is a number of hundredths. *)
From S2P Require Import Prelude Html.

(** ** Texts *)

Definition markers : list bytes := map lit
  ["/api"; "/v1"; "/v2"; "/v3"; "/graphql"; "/rest"; "/rpc"; "/json"; ".json"; "/data"; "/ajax";
   "/gateway"; "/service"; "/backend"; "/bff"; "/dml"; "/internal"; "/private";
   "/hotel/hoteladmin"; "/partner-settings"; "/telemetry"; "challenge"; "/beacon"; "/collect"]%string.

Definition contains (pat s : bytes) : bool := bool_decide (is_Some (find_sub pat s)).

Definition looks_like_api_path (path : bytes) : bool := existsb (fun m => contains m path) markers.

Definition methods : list string := ["get"; "post"; "put"; "patch"; "delete"; "head"; "options"]%string.

Definition is_http_method (method : bytes) : bool := one_of method methods.

Definition normalize_method (method fallback : bytes) : bytes :=
  if nonempty method then
    let method := to_lower method in
    if is_http_method method then method else to_lower fallback
  else fallback.

Definition append_unique (values : list bytes) (value : bytes) : list bytes :=
  if negb (nonempty value) || bool_decide (value ∈ values) then values else values ++ [value].

Definition append_unique_all (values incoming : list bytes) : list bytes := foldl append_unique values incoming.

(** The name of a parameter: what is in front of the first equals sign. *)
Definition parameter_name (pair : bytes) : bytes :=
  match find_if (fun c => c =c "=") pair with Some eq => take eq pair | None => pair end.

Fixpoint query_loop (fuel : nat) (parameters : list bytes) (query : bytes) : list bytes :=
  match fuel with
  | O => parameters
  | S fuel =>
      match find_if (fun c => c =c "&") query with
      | Some amp => query_loop fuel (append_unique parameters (parameter_name (take amp query))) (drop (amp + 1) query)
      | None => append_unique parameters (parameter_name query)
      end
  end.

Definition query_parameters (query : bytes) : list bytes := query_loop (S (length query)) [] query.

(** ** Positions in a script *)

(** [s.find(pat, pos)]. *)
Definition find_from (pat s : bytes) (pos : nat) : option nat := Nat.add pos <$> find_sub pat (drop pos s).

(** [s.find_first_of(chars, pos)], with the characters as a predicate. *)
Definition find_first (p : ascii -> bool) (s : bytes) (pos : nat) : option nat := Nat.add pos <$> find_if p (drop pos s).

(** The first position from [i] on that holds no white space. *)
Definition skip_blanks (s : bytes) (i : nat) : nat := i + length (span is_blank (drop i s)).

(** The positions of [pat] from [from] on, [step] apart or more: the sequence of the values
    of [cursor] in [while ((cursor = s.find(pat, cursor)) != npos) { ...; cursor += step; }]. *)
Fixpoint occurrence_loop (fuel step : nat) (pat s : bytes) (from : nat) : list nat :=
  match fuel with
  | O => []
  | S fuel =>
      match find_from pat s from with
      | Some cursor => cursor :: occurrence_loop fuel step pat s (cursor + step)
      | None => []
      end
  end.

Definition occurrences (step : nat) (pat s : bytes) (from : nat) : list nat :=
  occurrence_loop (S (length s)) step pat s from.

Definition is_literal_quote (c : ascii) : bool := (c =c "'") || (c =c dquote) || (c =c "`").

(** The characters behind the opening quote; [pos] is where [s] starts in the script. *)
Fixpoint quoted_loop (quote : ascii) (pos : nat) (out s : bytes) : option (bytes * nat) :=
  match s with
  | [] => None
  | c :: s1 =>
      let plain := if c =c quote then Some (out, pos + 1) else quoted_loop quote (pos + 1) (out ++ [c]) s1 in
      match s1 with
      | d :: s2 => if c =c backslash then quoted_loop quote (pos + 2) (out ++ [d]) s2 else plain
      | [] => plain
      end
  end.

(** [read_quoted]: the text of the literal at [start], and the position behind it. *)
Definition read_quoted (script : bytes) (start : nat) : option (bytes * nat) :=
  match drop start script with
  | quote :: s => if is_literal_quote quote then quoted_loop quote (start + 1) [] s else None
  | [] => None
  end.

(** [read_literal_at]. *)
Definition read_literal_at (script : bytes) (at_ : nat) : option bytes := fst <$> read_quoted script (skip_blanks script at_).

(** ** Calls *)

Record ScriptEndpoint := { se_method : bytes; se_url : bytes; se_confidence : N; se_discovery : bytes }.

(** The default confidence and discovery method. *)
Definition script_endpoint (method url : bytes) : ScriptEndpoint :=
  {| se_method := method; se_url := url; se_confidence := 65; se_discovery := lit "inline-script" |}.

(** The method in the options of a call of [fetch]; the literal is read from the script, so
    it may end behind the options. *)
Definition fetch_options_method (script : bytes) (options_start options_end : nat) : bytes :=
  let fallback := lit "get" in
  if (options_end <=? options_start)%nat then fallback
  else
    let options := take (options_end - options_start) (drop options_start script) in
    match find_sub (lit "method") options with
    | None => fallback
    | Some method =>
        let method := skip_blanks options (method + 6) in
        if bool_decide (options !! method = Some ":"%char) then
          let method := skip_blanks options (method + 1) in
          match read_quoted script (options_start + method) with
          | Some (value, _) => normalize_method value fallback
          | None => fallback
          end
        else fallback
    end.

Definition fetch_call (script : bytes) (cursor : nat) : option ScriptEndpoint :=
  '(url, after_url) ← read_quoted script (skip_blanks script (cursor + 6));
  let method :=
    match find_from (lit ",") script after_url, find_from (lit ")") script after_url with
    | Some comma, Some close =>
        if (comma <? close)%nat then fetch_options_method script (comma + 1) close else lit "get"
    | _, _ => lit "get"
    end in
  Some (script_endpoint (normalize_method method (lit "get")) url).

Definition open_call (script : bytes) (cursor : nat) : option ScriptEndpoint :=
  let i := skip_blanks script (cursor + 6) in
  '(method, _) ← read_quoted script i;
  comma ← find_from (lit ",") script i;
  '(url, _) ← read_quoted script (skip_blanks script (comma + 1));
  Some (script_endpoint (normalize_method method (lit "get")) url).

(** [sendBeacon(url)] and [.post(url)], whose names have [len] characters. *)
Definition post_call (len : nat) (script : bytes) (cursor : nat) : option ScriptEndpoint :=
  '(url, _) ← read_quoted script (skip_blanks script (cursor + len));
  if nonempty url then Some (script_endpoint (lit "post") url) else None.

(** ** Calls with an options object *)

(** A key is not the tail of a longer name. *)
Definition is_key_start (s : bytes) (at_ : nat) : bool :=
  match at_ with
  | O => true
  | S prev =>
      match s !! prev with
      | Some c => (c =c dquote) || (c =c "'") || (c =c "{") || (c =c ",") || (c =c " ") ||
                  (c =c byte 9) || (c =c byte 10) || (c =c "(")
      | None => false
      end
  end.

(** A [post] in quotes behind a [type] or a [method]. *)
Definition post_value (lower_window : bytes) (pos : nat) : bool :=
  let quote_at i := match lower_window !! i with Some c => (c =c "'") || (c =c dquote) | None => false end in
  (0 <? pos)%nat && (pos + 4 <? length lower_window)%nat && quote_at (pos - 1) && quote_at (pos + 4) &&
  (let context := take (pos - (pos - 32)) (drop (pos - 32) lower_window) in
   contains (lit "type") context || contains (lit "method") context).

Definition find_key (s name : bytes) : option nat := List.find (is_key_start s) (occurrences 1 name s 0).

(** The smaller position; the first one when only one is there. *)
Definition first_of (a b : option nat) : option nat :=
  match a, b with
  | Some m, Some n => if (n <? m)%nat then Some n else Some m
  | None, _ => b
  | _, None => a
  end.

Definition ajax_call (script : bytes) (cursor : nat) : option ScriptEndpoint :=
  let head := cursor + 6 in
  let lower_window := to_lower (take 2048 (drop head script)) in
  if existsb (post_value lower_window) (occurrences 1 (lit "post") lower_window 0) then
    key ← first_of (find_key lower_window (lit "url")) (find_key lower_window (lit "uri"));
    colon ← find_from (lit ":") lower_window key;
    '(url, _) ← read_quoted script (skip_blanks script (head + colon + 1));
    if nonempty url then Some (script_endpoint (lit "post") url) else None
  else None.

Definition has_host (url : bytes) : bool :=
  match url with
  | [] => true
  | c :: _ =>
      if c =c "/" then true
      else if negb (starts_with (lit "http") url) then false
      else
        match find_sub (lit "://") url with
        | None => false
        | Some scheme =>
            let host_end := find_first (fun c => (c =c "/") || (c =c "?") || (c =c "#") || (c =c ":")) url (scheme + 3) in
            negb (bool_decide (host_end = Some (scheme + 3)))
        end
  end.

(** The literal behind the [url] or [uri] at [candidate], when it can be an endpoint. *)
Definition url_at (script lower_script : bytes) (to candidate : nat) : option bytes :=
  if is_key_start lower_script candidate then
    url_colon ← find_from (lit ":") lower_script (candidate + 3);
    if (url_colon - candidate <=? 14)%nat && (url_colon <? to)%nat then
      url ← read_literal_at script (url_colon + 1);
      if nonempty url && ((match url with c :: _ => c =c "/" | [] => false end) || starts_with (lit "http") url) && has_host url
      then Some url else None
    else None
  else None.

(** The best literal so far with its distance from the anchor. *)
Definition nearer (script lower_script : bytes) (key_at to : nat) (best : option (bytes * nat)) (candidate : nat)
  : option (bytes * nat) :=
  match url_at script lower_script to candidate with
  | Some url =>
      let distance := if (key_at <? candidate)%nat then candidate - key_at else key_at - candidate in
      match best with
      | Some (_, best_distance) => if (distance <? best_distance)%nat then Some (url, distance) else best
      | None => Some (url, distance)
      end
  | None => best
  end.

Definition nearest_url (script lower_script : bytes) (key_at : nat) : option (bytes * nat) :=
  let from := key_at - 800 in
  let to := Nat.min (length lower_script) (key_at + 400) in
  let candidates name := List.filter (fun c => c <? to)%nat (occurrences 1 name lower_script from) in
  foldl (nearer script lower_script key_at to) None (candidates (lit "url") ++ candidates (lit "uri")).

Definition options_call (script lower_script : bytes) (key_at : nat) : option ScriptEndpoint :=
  if is_key_start lower_script key_at then
    colon ← find_from (lit ":") lower_script (key_at + 6);
    if (14 <? colon - key_at)%nat then None
    else
      value ← read_literal_at script (colon + 1);
      if to_lower value =s lit "post" then
        '(best, _) ← nearest_url script lower_script key_at;
        Some (script_endpoint (lit "post") best)
      else None
  else None.

(** The anchors: the positions of the keys [method] and [type]. *)
Fixpoint anchor_loop (fuel : nat) (lower_script : bytes) (pos : nat) : list nat :=
  match fuel with
  | O => []
  | S fuel =>
      match first_of (find_from (lit "method") lower_script pos) (find_from (lit "type") lower_script pos) with
      | Some key_at => key_at :: anchor_loop fuel lower_script (key_at + 6)
      | None => []
      end
  end.

Definition anchors (lower_script : bytes) : list nat := anchor_loop (S (length lower_script)) lower_script 0.

(** ** Quoted paths *)

Definition valid_path_char (c : ascii) : bool :=
  is_alnum c || (c =c "_") || (c =c ".") || (c =c "/") || (c =c "?") || (c =c "=") || (c =c "&") || (c =c "%") || (c =c "-").

Definition looks_like_quoted_path (candidate : bytes) : bool :=
  match candidate with
  | slash :: first :: _ =>
      (4 <=? length candidate)%nat && (slash =c "/") &&
      (is_alnum first || (first =c "_") || (first =c ".") || (first =c "-") || (first =c "~")) &&
      forallb valid_path_char candidate
  | _ => false
  end.

Definition literal_endpoint (candidate : bytes) : list ScriptEndpoint :=
  if looks_like_quoted_path candidate then
    [{| se_method := lit "get"; se_url := candidate; se_confidence := 30; se_discovery := lit "inline-script-literal" |}]
  else [].

Fixpoint literal_loop (fuel : nat) (script : bytes) (pos : nat) : list ScriptEndpoint :=
  match fuel with
  | O => []
  | S fuel =>
      match find_first is_literal_quote script pos with
      | None => []
      | Some pos =>
          match read_quoted script pos with
          | None => literal_loop fuel script (pos + 1)
          | Some (candidate, stop) => literal_endpoint candidate ++ literal_loop fuel script stop
          end
      end
  end.

Definition literal_endpoints (script : bytes) : list ScriptEndpoint := literal_loop (S (length script)) script 0.

(** ** The scans, in their order *)

Definition scan (pat : bytes) (call : bytes -> nat -> option ScriptEndpoint) (script : bytes) : list ScriptEndpoint :=
  omap (call script) (occurrences (length pat) pat script 0).

Definition script_endpoints (script : bytes) : list ScriptEndpoint :=
  scan (lit "fetch(") fetch_call script ++
  scan (lit ".open(") open_call script ++
  scan (lit "sendBeacon(") (post_call 11) script ++
  scan (lit ".post(") (post_call 6) script ++
  scan (lit ".ajax(") ajax_call script ++
  omap (options_call script (to_lower script)) (anchors (to_lower script)) ++
  literal_endpoints script.

(** ** Evaluations *)

Definition js (s : string) : bytes := lit s.

Definition found_in (s : string) : list (string * string * N) :=
  map (fun e => (String.string_of_list_ascii (se_method e), String.string_of_list_ascii (se_url e), se_confidence e))
      (script_endpoints (js s)).

Example scan_calls :
  found_in "fetch('/a?x=1', {method: 'PUT'}); r.open('POST', '/b'); fetch(`/c`); navigator.sendBeacon('/d')" =
  [("put", "/a?x=1", 65); ("get", "/c", 65); ("post", "/b", 65); ("post", "/d", 65); ("get", "/a?x=1", 30)]%N%string.
Proof. vm_compute. reflexivity. Qed.

Example scan_options :
  found_in "$.ajax({type: 'POST', url: '/e'}); q({uri: '/f/g', method: 'post'})" =
  [("post", "/e", 65); ("post", "/f/g", 65); ("get", "/f/g", 30)]%N%string.
Proof. vm_compute. reflexivity. Qed.

(** The colon of a [type] key is looked for six characters behind the key, so a colon that
    follows it at once is missed. *)
Example type_key_missed :
  found_in "q({type:'post',url:'/abc'})" = [("get", "/abc", 30)]%N%string /\
  found_in "q({type  :'post',url:'/abc'})" = [("post", "/abc", 65); ("get", "/abc", 30)]%N%string.
Proof. split; vm_compute; reflexivity. Qed.

(** A scheme at the end of its literal counts as a host. *)
Example scheme_without_host : found_in "q({method:'post',url:'https://'+h})" = [("post", "https://", 65)]%N%string.
Proof. vm_compute. reflexivity. Qed.

(** A tilde is allowed behind the first slash and nowhere in a path. *)
Example tilde_path : looks_like_quoted_path (lit "/~abc") = false.
Proof. reflexivity. Qed.

(** ** Positions *)

Lemma find_from_Some pat s pos n : find_from pat s pos = Some n ->
  pos <= n /\ starts_with pat (drop n s) = true.
Proof.
  unfold find_from. intros (m & Hm & ->)%fmap_Some. apply find_sub_Some in Hm as [H1 H2].
  rewrite length_drop in H2.
  assert (E : drop (pos + m) s = pat ++ drop (m + length pat) (drop pos s)).
  { rewrite <- drop_drop. rewrite H1 at 1. apply drop_app_length'. rewrite length_take, length_drop. lia. }
  split; [lia|]. by rewrite E, starts_with_app.
Qed.

Lemma find_from_at pat s pos n : pos <= n -> starts_with pat (drop n s) = true ->
  exists m, find_from pat s pos = Some m /\ m <= n.
Proof.
  intros Hp Hn. unfold find_from. replace n with (pos + (n - pos)) in Hn by lia. rewrite <- drop_drop in Hn.
  apply find_sub_at in Hn as (m & -> & Hm). exists (pos + m). split; [done|lia].
Qed.

(** Occurrences of a pattern that cannot overlap itself are all found. *)
Definition no_overlap (step : nat) (pat : bytes) : Prop :=
  forall s n, 0 < n < step -> starts_with pat s = true -> starts_with pat (drop n s) = false.

Lemma no_overlap_step pat : no_overlap 1 pat.
Proof. intros s n ?. lia. Qed.

Lemma occurrence_loop_spec fuel step pat s from n :
  pat <> [] -> 0 < step -> no_overlap step pat -> length s < fuel + from ->
  n ∈ occurrence_loop fuel step pat s from <-> from <= n /\ starts_with pat (drop n s) = true.
Proof.
  intros Hpat Hstep Hov. revert from. induction fuel as [|fuel IH]; intros from Hf; cbn [occurrence_loop].
  - split; [by intros ?%elem_of_nil|]. intros [H1 H2]. rewrite drop_ge in H2 by lia. by destruct pat.
  - destruct (find_from pat s from) as [m|] eqn:E.
    + apply find_from_Some in E as H. destruct H as (H1 & H3). rewrite elem_of_cons, IH by lia. split.
      * intros [->|[H4 H5]]; [done|]. split; [lia|done].
      * intros [H4 H5]. destruct (find_from_at pat s from n H4 H5) as (m' & Hm & Hle). rewrite E in Hm. injection Hm as <-.
        destruct (decide (n = m)) as [->|Hne]; [by left|right]. split; [|done].
        destruct (decide (m + step <= n)) as [|Hlt]; [done|].
        specialize (Hov (drop m s) (n - m) ltac:(lia) H3). rewrite drop_drop in Hov.
        replace (m + (n - m)) with n in Hov by lia. congruence.
    + split; [by intros ?%elem_of_nil|]. intros [H4 H5]. destruct (find_from_at pat s from n H4 H5) as (m & Hm & _). congruence.
Qed.

Lemma occurrences_spec step pat s from n : pat <> [] -> 0 < step -> no_overlap step pat ->
  n ∈ occurrences step pat s from <-> from <= n /\ starts_with pat (drop n s) = true.
Proof. intros. apply occurrence_loop_spec; auto; lia. Qed.

(** ** Literals *)

(** [text] is what the characters [raw] between two quotes say. *)
Inductive spells (quote : ascii) : bytes -> bytes -> Prop :=
  | SpellsNil : spells quote [] []
  | SpellsEscape d raw text : spells quote raw text -> spells quote (backslash :: d :: raw) (d :: text)
  | SpellsChar c raw text : c <> backslash -> c <> quote -> spells quote raw text -> spells quote (c :: raw) (c :: text).

(** At [start] stands a literal that says [text] and ends in front of [stop]. *)
Definition literal_at (script : bytes) (start : nat) (text : bytes) (stop : nat) : Prop :=
  exists quote raw rest, is_literal_quote quote = true /\ drop start script = quote :: raw ++ quote :: rest /\
    spells quote raw text /\ stop = start + length raw + 2.

Lemma quoted_loop_spells quote raw text : is_literal_quote quote = true -> spells quote raw text -> forall pos out rest,
  quoted_loop quote pos out (raw ++ quote :: rest) = Some (out ++ text, pos + length raw + 1).
Proof.
  intros Hq H. induction H as [|d raw text _ IH|c raw text Hb Hc _ IH]; intros pos out rest; cbn [app quoted_loop].
  - rewrite Ascii.eqb_refl, app_nil_r, Nat.add_0_r. destruct rest; [done|].
    destruct (quote =c backslash) eqn:E; [|done]. by apply eqc_true in E as ->.
  - change (backslash =c backslash) with true. cbn iota. rewrite IH, <- app_assoc. cbn [length app]. do 2 f_equal. lia.
  - apply eqc_false in Hb as ->, Hc as ->. destruct (raw ++ quote :: rest) eqn:E; [by destruct raw|].
    rewrite <- E, IH, <- app_assoc. cbn [length app]. do 2 f_equal. lia.
Qed.

(** The loop reads on only as long as the characters spell something. *)
Lemma quoted_loop_sound quote : forall n s pos out text stop, length s <= n -> quoted_loop quote pos out s = Some (text, stop) ->
  exists raw rest t, s = raw ++ quote :: rest /\ spells quote raw t /\ text = out ++ t /\ stop = pos + length raw + 1.
Proof.
  assert (Hstop : forall s' pos out text stop, Some (out, pos + 1) = Some (text, stop) ->
    exists raw rest t, quote :: s' = raw ++ quote :: rest /\ spells quote raw t /\ text = out ++ t /\ stop = pos + length raw + 1).
  { intros s' pos out text stop [= <- <-]. exists [], s', []. split_and!; [done|constructor|by rewrite app_nil_r|simpl; lia]. }
  induction n as [|n IH]; intros [|c s1] pos out text stop Hn; cbn [quoted_loop]; try done; [simpl in Hn; lia|]. simpl in Hn.
  assert (Hplain : c <> backslash \/ s1 = [] ->
    (if c =c quote then Some (out, pos + 1) else quoted_loop quote (pos + 1) (out ++ [c]) s1) = Some (text, stop) ->
    exists raw rest t, c :: s1 = raw ++ quote :: rest /\ spells quote raw t /\ text = out ++ t /\ stop = pos + length raw + 1).
  { intros Hc. destruct (c =c quote) eqn:E; [apply eqc_true in E as ->; by apply Hstop|]. intros H.
    destruct Hc as [Hc| ->]; [|done]. apply eqc_false in E. apply IH in H as (raw & rest & t & -> & H1 & -> & ->); [|lia].
    exists (c :: raw), rest, (c :: t). rewrite <- app_assoc. split_and!; [done|by constructor|done|simpl; lia]. }
  destruct s1 as [|d s2]; [by apply Hplain; right|]. destruct (c =c backslash) eqn:E; [|apply Hplain; left; by apply eqc_false].
  apply eqc_true in E as ->. intros H. apply IH in H as (raw & rest & t & -> & H1 & -> & ->); [|simpl in Hn; lia].
  exists (backslash :: d :: raw), rest, (d :: t). rewrite <- app_assoc. split_and!; [done|by constructor|done|simpl; lia].
Qed.

(** The reader of literals is exact. *)
Lemma read_quoted_spec script start text stop :
  read_quoted script start = Some (text, stop) <-> literal_at script start text stop.
Proof.
  unfold read_quoted, literal_at. split.
  - destruct (drop start script) as [|quote s]; [done|]. destruct (is_literal_quote quote) eqn:Hq; [|done].
    intros (raw & rest & t & -> & H1 & -> & ->)%(quoted_loop_sound quote (length s)); [|done].
    exists quote, raw, rest. split_and!; [done..|lia].
  - intros (quote & raw & rest & Hq & -> & H1 & ->). rewrite Hq, (quoted_loop_spells quote raw text Hq H1).
    do 2 f_equal. lia.
Qed.

(** ** What is found *)

Lemma normalize_method_http method : is_http_method (normalize_method method (lit "get")) = true.
Proof.
  unfold normalize_method. destruct (nonempty method); [|done]. cbv zeta.
  destruct (is_http_method (to_lower method)) eqn:E; [done|]. reflexivity.
Qed.

(** An endpoint is spelled by a literal of the script. *)
Definition spelled (script : bytes) (e : ScriptEndpoint) : Prop :=
  (exists start stop, literal_at script start (se_url e) stop) /\ is_http_method (se_method e) = true /\
  ((se_confidence e = 65%N /\ se_discovery e = lit "inline-script") \/
   (se_confidence e = 30%N /\ se_discovery e = lit "inline-script-literal" /\ se_method e = lit "get" /\
    looks_like_quoted_path (se_url e) = true)).

Lemma spelled_call script method url start stop : read_quoted script start = Some (url, stop) ->
  is_http_method method = true -> spelled script (script_endpoint method url).
Proof. intros H%read_quoted_spec Hm. split; [by exists start, stop|]. split; [done|by left]. Qed.

Lemma fetch_call_spelled script n e : fetch_call script n = Some e -> spelled script e.
Proof.
  unfold fetch_call. intros ([url stop] & Hr & H)%bind_Some. injection H as <-. eapply spelled_call; [exact Hr|].
  apply normalize_method_http.
Qed.

Lemma open_call_spelled script n e : open_call script n = Some e -> spelled script e.
Proof.
  unfold open_call. cbv zeta.
  intros ([method m] & _ & (comma & _ & ([url stop] & Hr & [= <-])%bind_Some)%bind_Some)%bind_Some.
  eapply spelled_call; [exact Hr|]. apply normalize_method_http.
Qed.

Lemma post_call_spelled len script n e : post_call len script n = Some e -> spelled script e.
Proof.
  unfold post_call. intros ([url stop] & Hr & H)%bind_Some. destruct (nonempty url); [|done]. injection H as <-.
  by eapply spelled_call.
Qed.

Lemma ajax_call_spelled script n e : ajax_call script n = Some e -> spelled script e.
Proof.
  unfold ajax_call. cbv zeta. destruct (existsb _ _); [|done].
  intros (key & _ & (colon & _ & ([url stop] & Hr & H)%bind_Some)%bind_Some)%bind_Some.
  destruct (nonempty url); [|done]. injection H as <-. by eapply spelled_call.
Qed.

Lemma url_at_literal script lower to c url : url_at script lower to c = Some url ->
  exists start stop, read_quoted script start = Some (url, stop).
Proof.
  unfold url_at. destruct (is_key_start lower c); [|done]. intros (colon & _ & H)%bind_Some.
  destruct (_ && _); [|done]. apply bind_Some in H as (u & Hu & H). destruct (_ && _); [|done]. injection H as <-.
  unfold read_literal_at in Hu. apply fmap_Some in Hu as ([u' stop] & Hu & ->). eauto.
Qed.

Lemma nearest_url_literal script lower key_at url distance : nearest_url script lower key_at = Some (url, distance) ->
  exists start stop, read_quoted script start = Some (url, stop).
Proof.
  unfold nearest_url. cbv zeta. generalize (Nat.min (length lower) (key_at + 400)) as to. intros to.
  set (l := _ ++ _). clearbody l.
  assert (H : forall best, (forall u d, best = Some (u, d) -> exists start stop, read_quoted script start = Some (u, stop)) ->
    forall u d, foldl (nearer script lower key_at to) best l = Some (u, d) -> exists start stop, read_quoted script start = Some (u, stop)).
  { induction l as [|c l IH]; intros best Hb; [exact Hb|]. cbn [foldl]. apply IH. intros u d. unfold nearer.
    destruct (url_at script lower to c) as [v|] eqn:E; [|apply Hb]. apply url_at_literal in E.
    destruct best as [[w bd]|]; [|by intros [= <- <-]]. destruct (_ <? bd)%nat; [by intros [= <- <-]|apply Hb]. }
  apply H. done.
Qed.

Lemma options_call_spelled script lower n e : options_call script lower n = Some e -> spelled script e.
Proof.
  unfold options_call. destruct (is_key_start lower n); [|done]. intros (colon & _ & H)%bind_Some.
  destruct (14 <? _)%nat; [done|]. apply bind_Some in H as (value & _ & H). destruct (_ =s lit "post"); [|done].
  apply bind_Some in H as ([best d] & (start & stop & Hr)%nearest_url_literal & [= <-]). by eapply spelled_call.
Qed.

Lemma literal_loop_spelled script : forall fuel pos e, e ∈ literal_loop fuel script pos -> spelled script e.
Proof.
  induction fuel as [|fuel IH]; intros pos e; cbn [literal_loop]; [by intros ?%elem_of_nil|].
  destruct (find_first _ _ _) as [p|]; [|by intros ?%elem_of_nil].
  destruct (read_quoted script p) as [[candidate stop]|] eqn:Hr; [|apply IH].
  intros [H|H]%elem_of_app; [|by apply IH in H]. unfold literal_endpoint in H.
  destruct (looks_like_quoted_path candidate) eqn:Hl; [|by apply elem_of_nil in H].
  apply list_elem_of_singleton in H as ->. apply read_quoted_spec in Hr. split; [by exists p, stop|]. split; [done|].
  right. by split_and!.
Qed.

Lemma script_endpoints_spelled script e : e ∈ script_endpoints script -> spelled script e.
Proof.
  unfold script_endpoints, scan. rewrite !elem_of_app, !list_elem_of_omap.
  intros [(n & _ & H)|[(n & _ & H)|[(n & _ & H)|[(n & _ & H)|[(n & _ & H)|[(n & _ & H)|H]]]]]].
  - by eapply fetch_call_spelled.
  - by eapply open_call_spelled.
  - by eapply post_call_spelled.
  - by eapply post_call_spelled.
  - by eapply ajax_call_spelled.
  - by eapply options_call_spelled.
  - by eapply literal_loop_spelled.
Qed.

(** ** What is not missed *)

Lemma no_overlap_check pat :
  forallb (fun n => negb (starts_with (drop n pat) pat)) (seq 1 (length pat - 1)) = true -> no_overlap (length pat) pat.
Proof.
  intros H s n Hn Hs. rewrite forallb_forall in H. specialize (H n ltac:(apply in_seq; lia)). apply negb_true_iff in H.
  apply starts_with_spec in Hs. rewrite Hs, drop_app_le by lia. destruct (starts_with pat _) eqn:E; [|done].
  apply starts_with_spec in E. revert H. rewrite <- (take_drop (length (drop n pat)) pat) at 2.
  apply (f_equal (take (length (drop n pat)))) in E.
  rewrite take_app_length, take_app_le in E by (rewrite length_drop; lia). rewrite <- E. by rewrite starts_with_app.
Qed.

Lemma scan_found pat call script n e :
  nonempty pat = true -> forallb (fun n => negb (starts_with (drop n pat) pat)) (seq 1 (length pat - 1)) = true ->
  starts_with pat (drop n script) = true -> call script n = Some e -> e ∈ scan pat call script.
Proof.
  intros Hne Hov Hn He. unfold scan. rewrite list_elem_of_omap. exists n. split; [|done].
  apply occurrences_spec; [by destruct pat|destruct pat; [done|simpl; lia]|by apply no_overlap_check|]. split; [lia|done].
Qed.

Lemma quoted_path_scan_drop fuel script k pos : literal_loop fuel script (k + pos) = literal_loop fuel (drop k script) pos.
Proof.
  revert pos. induction fuel as [|fuel IH]; intros pos; cbn [literal_loop]; [done|].
  unfold find_first. rewrite drop_drop. destruct (find_if _ (drop (k + pos) script)) as [m|]; cbn [fmap option_fmap option_map]; [|done].
  replace (k + pos + m) with (k + (pos + m)) by lia.
  assert (Hr : read_quoted script (k + (pos + m)) = prod_map id (Nat.add k) <$> read_quoted (drop k script) (pos + m)).
  { destruct (read_quoted script (k + (pos + m))) as [[t stop]|] eqn:E.
    - apply read_quoted_spec in E as (q & raw & rest & Hq & Hd & Hs & ->).
      rewrite (proj2 (read_quoted_spec (drop k script) (pos + m) t (pos + m + length raw + 2))).
      + cbn. do 2 f_equal. lia.
      + exists q, raw, rest. by rewrite drop_drop.
    - destruct (read_quoted (drop k script) (pos + m)) as [[t stop]|] eqn:E'; [|done].
      apply read_quoted_spec in E' as (q & raw & rest & Hq & Hd & Hs & ->). rewrite drop_drop in Hd.
      rewrite (proj2 (read_quoted_spec script (k + (pos + m)) t (k + (pos + m) + length raw + 2))) in E; [done|].
      by exists q, raw, rest. }
  rewrite Hr. destruct (read_quoted (drop k script) (pos + m)) as [[t stop]|]; cbn [fmap option_fmap option_map prod_map fst snd id].
  - by rewrite IH.
  - by rewrite <- Nat.add_assoc, IH.
Qed.

Lemma literal_loop_fuel script : forall f1 f2 pos, length script < f1 + pos -> length script < f2 + pos ->
  literal_loop f1 script pos = literal_loop f2 script pos.
Proof.
  assert (Hend : forall f pos, length script <= pos -> literal_loop f script pos = []).
  { intros [|f] pos Hp; cbn [literal_loop]; [done|]. unfold find_first. by rewrite drop_ge by lia. }
  induction f1 as [|f1 IH]; intros f2 pos H1 H2; [rewrite !Hend by lia; done|].
  destruct f2 as [|f2]; [rewrite !Hend by lia; done|]. cbn [literal_loop]. unfold find_first.
  destruct (find_if _ _) as [m|]; cbn [fmap option_fmap option_map]; [|done].
  destruct (read_quoted script (pos + m)) as [[t stop]|] eqn:E.
  - apply read_quoted_spec in E as (q & raw & rest & _ & _ & _ & ->). f_equal. apply IH; lia.
  - apply IH; lia.
Qed.

Lemma literal_endpoints_step pre quote raw text rest :
  forallb (fun c => negb (is_literal_quote c)) pre = true -> is_literal_quote quote = true -> spells quote raw text ->
  literal_endpoints (pre ++ quote :: raw ++ quote :: rest) = literal_endpoint text ++ literal_endpoints rest.
Proof.
  intros Hpre Hq Hs. unfold literal_endpoints. set (script := pre ++ _).
  set (others := literal_loop (S (length rest)) rest 0). cbn [literal_loop]. unfold find_first. rewrite drop_0.
  assert (Hf : find_if is_literal_quote script = Some (length pre)).
  { apply find_if_mid; [|done]. exact Hpre. }
  rewrite Hf. cbn [fmap option_fmap option_map Nat.add].
  rewrite (proj2 (read_quoted_spec script (length pre) text (length pre + length raw + 2))).
  2:{ exists quote, raw, rest. split_and!; [done| |done|done]. unfold script. by rewrite drop_app_length. }
  f_equal. replace (length pre + length raw + 2) with ((length pre + length raw + 2) + 0) by lia.
  rewrite quoted_path_scan_drop.
  assert (Hd : drop (length pre + length raw + 2) script = rest).
  { unfold script. replace (pre ++ quote :: raw ++ quote :: rest) with ((pre ++ quote :: raw ++ [quote]) ++ rest)
      by (rewrite <- app_assoc; cbn [app]; by rewrite <- app_assoc).
    apply drop_app_length'. rewrite length_app. cbn [length]. rewrite length_app. cbn [length]. lia. }
  rewrite Hd. unfold others. apply literal_loop_fuel; [|lia]. unfold script. rewrite !length_app. simpl. rewrite length_app. simpl. lia.
Qed.

(** Whatever the text of a script, every endpoint a scan reports is spelled by a quoted
    literal of that script, has one of the methods of HTTP, and carries the confidence of its
    scan: 0.65 for calls, 0.30 for quoted paths, which are all requests with GET and have
    the form of a path. *)
Theorem script_endpoints_sound script e : e ∈ script_endpoints script ->
  (exists start stop, literal_at script start (se_url e) stop) /\ is_http_method (se_method e) = true /\
  ((se_confidence e = 65%N /\ se_discovery e = lit "inline-script") \/
   (se_confidence e = 30%N /\ se_discovery e = lit "inline-script-literal" /\ se_method e = lit "get" /\
    looks_like_quoted_path (se_url e) = true)).
Proof. apply script_endpoints_spelled. Qed.

Lemma script_endpoints_sound_witness :
  exists e, e ∈ script_endpoints (js "fetch('/a\'b')") /\ se_url e = lit "/a'b" /\ is_http_method (se_method e) = true.
Proof.
  exists (script_endpoint (lit "get") (lit "/a'b")).
  assert (H : script_endpoint (lit "get") (lit "/a'b") ∈ script_endpoints (js "fetch('/a\'b')")).
  { replace (script_endpoints (js "fetch('/a\'b')")) with [script_endpoint (lit "get") (lit "/a'b")] by (vm_compute; reflexivity).
    constructor. }
  split; [exact H|]. split; [reflexivity|]. exact (proj1 (proj2 (script_endpoints_sound _ _ H))).
Defined.

(** The scans miss no call with a literal: wherever a script calls [fetch], [open],
    [sendBeacon] or [post] and the argument in question is a quoted literal, the endpoint is
    reported with the URL the literal says and the method of the call; and the quoted paths
    are found one literal after the other, wherever the scan starts. *)
Theorem script_endpoints_complete script n url stop :
  (starts_with (lit "fetch(") (drop n script) = true -> literal_at script (skip_blanks script (n + 6)) url stop ->
     exists e, e ∈ script_endpoints script /\ se_url e = url /\ se_discovery e = lit "inline-script") /\
  (forall method comma stop', starts_with (lit ".open(") (drop n script) = true ->
     literal_at script (skip_blanks script (n + 6)) method stop' ->
     find_from (lit ",") script (skip_blanks script (n + 6)) = Some comma ->
     literal_at script (skip_blanks script (comma + 1)) url stop ->
     script_endpoint (normalize_method method (lit "get")) url ∈ script_endpoints script) /\
  (url <> [] -> starts_with (lit "sendBeacon(") (drop n script) = true ->
     literal_at script (skip_blanks script (n + 11)) url stop -> script_endpoint (lit "post") url ∈ script_endpoints script) /\
  (url <> [] -> starts_with (lit ".post(") (drop n script) = true ->
     literal_at script (skip_blanks script (n + 6)) url stop -> script_endpoint (lit "post") url ∈ script_endpoints script) /\
  (forall pre quote raw text rest, forallb (fun c => negb (is_literal_quote c)) pre = true ->
     is_literal_quote quote = true -> spells quote raw text ->
     literal_endpoints (pre ++ quote :: raw ++ quote :: rest) = literal_endpoint text ++ literal_endpoints rest).
Proof.
  assert (Hne : url <> [] -> nonempty url = true) by by destruct url.
  unfold script_endpoints. split_and!.
  - intros Hn Hl%read_quoted_spec.
    destruct (fetch_call script n) as [e|] eqn:E; [|by unfold fetch_call in E; rewrite Hl in E].
    exists e. split; [|by unfold fetch_call in E; rewrite Hl in E; injection E as <-].
    apply elem_of_app. left. by eapply scan_found.
  - intros method comma stop' Hn Hm%read_quoted_spec Hc Hl%read_quoted_spec. rewrite !elem_of_app. right; left.
    eapply scan_found; [done|done|exact Hn|]. unfold open_call. cbv zeta. rewrite Hm. cbn. rewrite Hc. cbn. by rewrite Hl.
  - intros Hu Hn Hl%read_quoted_spec. rewrite !elem_of_app. do 2 right; left.
    eapply scan_found; [done|done|exact Hn|]. unfold post_call. rewrite Hl. cbn. by rewrite (Hne Hu).
  - intros Hu Hn Hl%read_quoted_spec. rewrite !elem_of_app. do 3 right; left.
    eapply scan_found; [done|done|exact Hn|]. unfold post_call. rewrite Hl. cbn. by rewrite (Hne Hu).
  - apply literal_endpoints_step.
Qed.

Lemma script_endpoints_complete_witness :
  let script := js "if(a){navigator.sendBeacon( '/t',1)}" in
  script_endpoint (lit "post") (lit "/t") ∈ script_endpoints script.
Proof.
  cbv zeta. set (script := js "if(a){navigator.sendBeacon( '/t',1)}").
  pose proof (script_endpoints_complete script 16 (lit "/t") 32) as (_ & _ & H & _).
  apply H; [done|vm_compute; reflexivity|]. exists "'"%char, (lit "/t"), (lit ",1)}").
  split; [reflexivity|]. split; [vm_compute; reflexivity|]. split; [|vm_compute; reflexivity].
  repeat (apply SpellsChar; [done|done|]). apply SpellsNil.
Defined.
