(* ===== verification/Endpoint.v ===== *)
(** * Endpoint extraction: [src/endpoint/endpoint_extraction.cpp]

    What a page, its scripts and the observed requests say about the endpoints of a server:
    the sightings are merged by method and path, reported and printed as OpenAPI.  The
    doubles of the confidences are behind the class [Confidences]. *)
From S2P Require Import Prelude Url Html Dom SelectorMatch Document Event Redaction Script.

(** Doubles: [hundredths n] is the literal [n / 100], [lower] is [<], [to_fixed] prints two
    decimals. *)
Class Confidences := {
  level : Type;
  hundredths : N -> level;
  lower : level -> level -> bool;
  to_fixed : level -> bytes }.

Class ConfidenceLaws (C : Confidences) := {
  lower_irreflexive : forall a, lower a a = false;
  lower_transitive : forall a b c, lower a b = true -> lower b c = true -> lower a c = true;
  (** A literal is a number. *)
  lower_split : forall a b n, lower a b = true -> lower a (hundredths n) = true \/ lower (hundredths n) b = true;
  (** A printed number has no line end. *)
  fixed_line : forall a, none (fun c => c =c byte 10) (to_fixed a) = true }.

Section Endpoint.
Context {C : Confidences}.

Record EndpointExtractionOptions := {
  follow_links : bool; inspect_scripts : bool; observe_network : bool; infer_schemas : bool;
  include_provenance : bool; redact_secrets : bool; max_depth : N; max_pages : N;
  minimum_confidence : level; openapi_version : bytes; scrape_all_paths : bool }.

Record DiscoveredEndpoint := {
  ep_url : bytes; ep_path : bytes; ep_method : bytes; ep_source : bytes; ep_discovery : bytes;
  ep_confidence : level; ep_parameters : list bytes; ep_request_type : bytes;
  ep_response_type : bytes; ep_notes : list bytes }.

Record EndpointExtractionResult := {
  openapi_yaml : bytes; endpoints : list DiscoveredEndpoint; warnings : list bytes }.

Record EndpointExtractor := {
  options_ : EndpointExtractionOptions; observed_ : list DiscoveredEndpoint;
  observed_scripts_ : list DiscoveredEndpoint; event_dispatcher_ : option EventDispatcher }.

Definition new_extractor (options : EndpointExtractionOptions) : EndpointExtractor :=
  {| options_ := options; observed_ := []; observed_scripts_ := []; event_dispatcher_ := None |}.

Definition or_slash (path : bytes) : bytes := if nonempty path then path else lit "/".

(** The path and the parameters of a URL that may not parse. *)
Definition url_parts (url : bytes) : bytes * list bytes :=
  match parse_url url with
  | Ret parsed => (or_slash (path parsed), query_parameters (query parsed))
  | Throw _ => (lit "/", [])
  end.

(** ** What was observed *)

Definition observed_endpoint (method url : bytes) (status : Z) (content_type : bytes) : DiscoveredEndpoint :=
  {| ep_url := url; ep_path := (url_parts url).1; ep_method := normalize_method method (lit "get");
     ep_source := url; ep_discovery := lit "observed-network"; ep_confidence := hundredths 95;
     ep_parameters := (url_parts url).2; ep_request_type := []; ep_response_type := content_type;
     ep_notes := [lit "observed response status " ++ print_Z status] |}.

Definition observe (method url : bytes) (status : Z) (content_type : bytes) (x : EndpointExtractor) : EndpointExtractor :=
  {| options_ := options_ x; observed_ := observed_ x ++ [observed_endpoint method url status content_type];
     observed_scripts_ := observed_scripts_ x; event_dispatcher_ := event_dispatcher_ x |}.

Section Moved.
(** A moved-from string holds a value the language leaves open. *)
Variable moved_from : bytes -> bytes.

(** The loop moves the source into every endpoint. *)
Fixpoint observed_script_endpoints (source_url : bytes) (l : list ScriptEndpoint) : list DiscoveredEndpoint :=
  match l with
  | [] => []
  | ep :: l =>
      if nonempty (se_url ep) then
        {| ep_url := se_url ep; ep_path := (url_parts (se_url ep)).1;
           ep_method := normalize_method (se_method ep) (lit "get"); ep_source := source_url;
           ep_discovery := se_discovery ep; ep_confidence := hundredths (se_confidence ep);
           ep_parameters := (url_parts (se_url ep)).2; ep_request_type := []; ep_response_type := [];
           ep_notes := [lit "inferred from a fetch/XMLHttpRequest call in an external script"] |}
        :: observed_script_endpoints (moved_from source_url) l
      else observed_script_endpoints source_url l
  end.

Definition observe_script (source_url script_text : bytes) (x : EndpointExtractor) : EndpointExtractor :=
  {| options_ := options_ x; observed_ := observed_ x;
     observed_scripts_ := observed_scripts_ x ++ observed_script_endpoints source_url (script_endpoints script_text);
     event_dispatcher_ := event_dispatcher_ x |}.

End Moved.

Definition set_event_dispatcher (d : option EventDispatcher) (x : EndpointExtractor) : EndpointExtractor :=
  {| options_ := options_ x; observed_ := observed_ x; observed_scripts_ := observed_scripts_ x;
     event_dispatcher_ := d |}.

(** ** Merging

    [found] with the index [seen] of the keys in it. *)

Record Found := { found : list DiscoveredEndpoint; seen : gmap bytes nat }.

Definition endpoint_key (e : DiscoveredEndpoint) : bytes := ep_method e ++ lit " " ++ ep_path e.

Definition or_else (a b : bytes) : bytes := if nonempty a then a else b.

(** A further sighting of an endpoint that is there. *)
Definition merge_endpoint (endpoint existing : DiscoveredEndpoint) : DiscoveredEndpoint :=
  let better := lower (ep_confidence existing) (ep_confidence endpoint) in
  {| ep_url := if better then ep_url endpoint else ep_url existing;
     ep_path := ep_path existing; ep_method := ep_method existing;
     ep_source := if better then ep_source endpoint else ep_source existing;
     ep_discovery := if better then ep_discovery endpoint else ep_discovery existing;
     ep_confidence := if better then ep_confidence endpoint else ep_confidence existing;
     ep_parameters := append_unique_all (ep_parameters existing) (ep_parameters endpoint);
     ep_request_type := or_else (ep_request_type existing) (ep_request_type endpoint);
     ep_response_type := or_else (ep_response_type existing) (ep_response_type endpoint);
     ep_notes := append_unique_all (ep_notes existing) (ep_notes endpoint) |}.

Definition add (st : Found) (endpoint : DiscoveredEndpoint) : Found :=
  match seen st !! endpoint_key endpoint with
  | Some index => {| found := alter (merge_endpoint endpoint) index (found st); seen := seen st |}
  | None => {| found := found st ++ [endpoint]; seen := <[endpoint_key endpoint := length (found st)]> (seen st) |}
  end.

(** ** The sightings of a page *)

Section Page.
Variable options : EndpointExtractionOptions.
Variable document : Document.
Variable base : bytes.

Definition resolve (reference : bytes) : bytes :=
  if nonempty reference then
    catch (if nonempty base then resolve_url_string base reference else normalize_url reference) reference
  else reference.

(** An empty reference, or one into the page. *)
Definition no_target (reference : bytes) : bool := match reference with c :: _ => c =c "#" | [] => true end.

Definition inferred (url path method discovery : bytes) (confidence : level) (parameters : list bytes) (request_type note : bytes)
  : DiscoveredEndpoint :=
  {| ep_url := url; ep_path := path; ep_method := method; ep_source := url_ document; ep_discovery := discovery;
     ep_confidence := confidence; ep_parameters := parameters; ep_request_type := request_type;
     ep_response_type := []; ep_notes := [note] |}.

Definition link_endpoint (link : nat) : option DiscoveredEndpoint :=
  let href := doc_attribute document link (lit "href") in
  if no_target href then None
  else
    let url := resolve href in
    match parse_url url with
    | Throw _ => None
    | Ret parsed =>
        let is_api := looks_like_api_path (path parsed) in
        if negb (scrape_all_paths options) && negb is_api then None
        else
          Some (inferred url (path parsed) (lit "get") (lit "html-link")
                  (if scrape_all_paths options then (if is_api then hundredths 75 else hundredths 60) else hundredths 40)
                  (query_parameters (query parsed)) []
                  (if scrape_all_paths options then
                     (if is_api then lit "inferred from an anchor href (api)"
                      else lit "inferred from an anchor href (comprehensive)")
                   else lit "inferred from an anchor href"))
    end.

(** A reference that is added unless its key is there; the key has the path as it is. *)
Definition add_unseen (url discovery note : bytes) (confidence : level) (st : Found) : Found :=
  match parse_url url with
  | Throw _ => st
  | Ret parsed =>
      match seen st !! (lit "get " ++ path parsed) with
      | Some _ => st
      | None => add st (inferred url (or_slash (path parsed)) (lit "get") discovery confidence
                          (query_parameters (query parsed)) [] note)
      end
  end.

Definition add_resource (st : Found) (ref : bytes) : Found :=
  if no_target ref then st
  else add_unseen ref (lit "resource-url") (lit "inferred from a resource url (img/script/link/iframe)") (hundredths 55) st.

Definition add_href (st : Found) (el : nat) : Found :=
  let href := doc_attribute document el (lit "href") in
  if no_target href || (name_of (doc_dom document) el =s lit "a") then st
  else add_unseen (resolve href) (lit "attribute-href") (lit "inferred from an href attribute") (hundredths 50) st.

Definition method_from_form (form : nat) : bytes :=
  let method := doc_attribute document form (lit "method") in
  if nonempty method then if to_lower method =s lit "post" then lit "post" else lit "get" else lit "get".

Definition form_parameters (form : nat) : result (list bytes) :=
  controls ← query_selector_all (doc_dom document) form (lit "input[name], select[name], textarea[name]") false;
  Ret (append_unique_all [] (map (fun control => doc_attribute document control (lit "name")) controls)).

Definition form_endpoint (form : nat) : result (option DiscoveredEndpoint) :=
  let action := doc_attribute document form (lit "action") in
  let url := resolve (if nonempty action then action else url_ document) in
  match parse_url url with
  | Throw _ => Ret None
  | Ret parsed =>
      let method := method_from_form form in
      let is_get := method =s lit "get" in
      parameters ← form_parameters form;
      Ret (Some (inferred url (or_slash (path parsed)) method (lit "html-form")
                   (if is_get then hundredths 55 else hundredths 75)
                   (append_unique_all parameters (query_parameters (query parsed)))
                   (if is_get then [] else lit "application/x-www-form-urlencoded")
                   (lit "inferred from a form action")))
  end.

Definition inline_endpoint (ep : ScriptEndpoint) : option DiscoveredEndpoint :=
  if nonempty (se_url ep) then
    let url := resolve (se_url ep) in
    match parse_url url with
    | Throw _ => None
    | Ret parsed =>
        Some (inferred url (or_slash (path parsed)) (normalize_method (se_method ep) (lit "get")) (se_discovery ep)
                (hundredths (se_confidence ep)) (query_parameters (query parsed)) []
                (if se_discovery ep =s lit "inline-script-literal"
                 then lit "inferred from a quoted string literal in script"
                 else lit "inferred from a fetch/XMLHttpRequest call"))
    end
  else None.

Definition inline_endpoints (script : nat) : list DiscoveredEndpoint :=
  if has_attribute (doc_dom document) script (lit "src") then []
  else omap inline_endpoint (script_endpoints (element_text (doc_dom document) script)).

Fixpoint form_endpoints (l : list nat) : result (list DiscoveredEndpoint) :=
  match l with
  | [] => Ret []
  | form :: l =>
      e ← form_endpoint form;
      es ← form_endpoints l;
      Ret (match e with Some e => e :: es | None => es end)
  end.

End Page.

(** The part of [extract] that fills [found]. *)
Definition collect (x : EndpointExtractor) (document : Document) : result Found :=
  let options := options_ x in
  let st := {| found := []; seen := ∅ |} in
  let st := if observe_network options then foldl add st (observed_ x) else st in
  let st := if inspect_scripts options then foldl add st (observed_scripts_ x) else st in
  base ← base_url document;
  st ← (if follow_links options then
          ls ← links document;
          let st := foldl add st (omap (link_endpoint options document base) ls) in
          if scrape_all_paths options then
            refs ← resource_urls document;
            let st := foldl (add_resource document) st refs in
            els ← doc_query_all document (lit "[href]");
            Ret (foldl (add_href document base) st els)
          else Ret st
        else Ret st);
  fs ← forms document;
  es ← form_endpoints document base fs;
  let st := foldl add st es in
  if inspect_scripts options then
    ss ← scripts document;
    Ret (foldl add st (mjoin (map (inline_endpoints document base) ss)))
  else Ret st.

(** ** OpenAPI *)

(** [std::map] from paths to the endpoints of the path. *)
Fixpoint group_add (endpoint : DiscoveredEndpoint) (by_path : list (bytes * list DiscoveredEndpoint))
  : list (bytes * list DiscoveredEndpoint) :=
  match by_path with
  | [] => [(ep_path endpoint, [endpoint])]
  | (p, entries) :: rest =>
      if p =s ep_path endpoint then (p, entries ++ [endpoint]) :: rest
      else if bytes_le p (ep_path endpoint) then (p, entries) :: group_add endpoint rest
      else (ep_path endpoint, [endpoint]) :: by_path
  end.

Definition group_by_path (l : list DiscoveredEndpoint) : list (bytes * list DiscoveredEndpoint) :=
  foldl (fun by_path endpoint => group_add endpoint by_path) [] l.

Definition newline : ascii := byte 10.

Definition yaml_char (c : ascii) : bytes :=
  if c =c "'" then lit "''" else if c =c newline then [backslash; "n"%char] else [c].

Definition yaml_quote (value : bytes) : bytes := lit "'" ++ mjoin (yaml_char <$> value) ++ lit "'".

(** Each double underscore becomes a single one, from the left. *)
Fixpoint squeeze (fuel : nat) (id : bytes) : bytes :=
  match fuel with
  | O => id
  | S fuel =>
      match find_sub (lit "__") id with
      | Some n => squeeze fuel (take n id ++ lit "_" ++ drop (n + 2) id)
      | None => id
      end
  end.

Definition is_underscore (c : ascii) : bool := c =c "_".

Definition operation_id (method path : bytes) : bytes :=
  let id := map (fun c => if is_alnum c then c else "_"%char) (to_lower method ++ lit "_" ++ path) in
  let id := squeeze (length id) id in
  let id := match id with c :: id' => if is_underscore c then id' else id | [] => [] end in
  match last id with Some c => if is_underscore c then take (length id - 1) id else id | None => id end.

(** The lines of the document, without their line ends. *)
Section Yaml.
Variable options : EndpointExtractionOptions.
Variable policy : RedactionPolicy.

Definition parameter_lines (parameter : bytes) : list bytes :=
  [lit "        - name: " ++ yaml_quote parameter;
   lit "          in: query"; lit "          required: false"; lit "          schema:";
   lit "            type: string"].

Definition request_lines (e : DiscoveredEndpoint) : list bytes :=
  if nonempty (ep_request_type e) then
    [lit "      requestBody:"; lit "        content:";
     lit "          " ++ yaml_quote (ep_request_type e) ++ lit ":";
     lit "            schema:"; lit "              type: object"; lit "              x-inferred: true"]
  else [].

Definition response_lines (e : DiscoveredEndpoint) : list bytes :=
  if nonempty (ep_response_type e) then
    [lit "      responses:"; lit "        '200':"; lit "          description: Observed response";
     lit "          content:"; lit "            " ++ yaml_quote (ep_response_type e) ++ lit ":";
     lit "              schema:"; lit "                type: object"; lit "                x-inferred: true"]
  else [lit "      responses:"; lit "        '200':"; lit "          description: Inferred response"].

(** A URL as it is shown. *)
Definition shown (url : bytes) : bytes := if redact_secrets options then redact_url policy url else url.

Definition provenance_lines (e : DiscoveredEndpoint) : list bytes :=
  if include_provenance options then
    [lit "      x-prowsetk-provenance:";
     lit "        source: " ++ yaml_quote (shown (ep_source e));
     lit "        url: " ++ yaml_quote (shown (ep_url e));
     lit "        discovery-method: " ++ yaml_quote (ep_discovery e);
     lit "        confidence: " ++ to_fixed (ep_confidence e);
     lit "        inferred: true"] ++
    (if nonempty (ep_notes e) then
       lit "        notes:" :: map (fun note => lit "          - " ++ yaml_quote note) (ep_notes e)
     else [])
  else [].

Definition endpoint_lines (e : DiscoveredEndpoint) : list bytes :=
  [lit "    " ++ ep_method e ++ lit ":"; lit "      operationId: " ++ operation_id (ep_method e) (ep_path e)] ++
  (if nonempty (ep_parameters e) then lit "      parameters:" :: mjoin (map parameter_lines (ep_parameters e)) else []) ++
  request_lines e ++ response_lines e ++
  (if infer_schemas options then [lit "      x-inferred: true"] else []) ++ provenance_lines e.

Definition path_lines (group : bytes * list DiscoveredEndpoint) : list bytes :=
  (lit "  " ++ yaml_quote group.1 ++ lit ":") :: mjoin (map endpoint_lines group.2).

Definition header_lines : list bytes :=
  [lit "openapi: " ++ openapi_version options; lit "info:"; lit "  title: 'Discovered API'";
   lit "  version: '0.1.0'"; lit "  description: >-";
   lit "    Generated by ProwseTk endpoint extraction. Endpoints are";
   lit "    heuristic discoveries, not authoritative API documentation.";
   lit "    Inferred values are marked and carry provenance and"; lit "    confidence.";
   lit "x-prowsetk-generated: true"].

Definition document_lines (l : list DiscoveredEndpoint) : list bytes :=
  header_lines ++
  match group_by_path l with
  | [] => [lit "paths: {}"]
  | by_path => lit "paths:" :: mjoin (map path_lines by_path)
  end.

Definition render_openapi_yaml (l : list DiscoveredEndpoint) : bytes :=
  mjoin (map (fun line => line ++ [newline]) (document_lines l)).

End Yaml.

(** ** The report *)

(** The order of [std::sort]: by path, then by method. *)
Definition endpoint_order (a b : DiscoveredEndpoint) : Prop :=
  if decide (ep_path a = ep_path b) then key_order (ep_method a) (ep_method b) else key_order (ep_path a) (ep_path b).

#[export] Instance endpoint_order_dec : RelDecision endpoint_order.
Proof. intros a b. unfold endpoint_order. destruct (decide (ep_path a = ep_path b)); apply _. Defined.

Definition sort_parameters (e : DiscoveredEndpoint) : DiscoveredEndpoint :=
  {| ep_url := ep_url e; ep_path := ep_path e; ep_method := ep_method e; ep_source := ep_source e;
     ep_discovery := ep_discovery e; ep_confidence := ep_confidence e;
     ep_parameters := merge_sort key_order (ep_parameters e); ep_request_type := ep_request_type e;
     ep_response_type := ep_response_type e; ep_notes := ep_notes e |}.

Definition discovered_event (e : DiscoveredEndpoint) : Event :=
  {| type := EndpointDiscovered; Event.url := ep_url e; ev_name := ep_method e ++ lit " " ++ ep_path e;
     message := [];
     attributes := <[lit "confidence" := to_fixed (ep_confidence e)]> (<[lit "discovery-method" := ep_discovery e]>
                     (<[lit "path" := ep_path e]> (<[lit "method" := ep_method e]> ∅)));
     cancelled := false; session_id := [] |}.

Definition warning (e : DiscoveredEndpoint) : bytes :=
  lit "skipped low-confidence endpoint " ++ ep_path e ++ lit " (" ++ to_fixed (ep_confidence e) ++ lit ")".

Section Report.
Variable react : nat -> Event -> EventDispatcher -> Event * EventDispatcher * option ErrorCode.
Variable minimum : level.

(** The endpoints and the warnings; a handler may throw. *)
Fixpoint report (l : list DiscoveredEndpoint) (d : option EventDispatcher)
  : option EventDispatcher * result (list DiscoveredEndpoint * list bytes) :=
  match l with
  | [] => (d, Ret ([], []))
  | e :: l =>
      if lower (ep_confidence e) minimum then
        let '(d, r) := report l d in (d, '(es, ws) ← r; Ret (es, warning e :: ws))
      else
        let e := sort_parameters e in
        match d with
        | None => let '(d, r) := report l None in (d, '(es, ws) ← r; Ret (e :: es, ws))
        | Some d =>
            let '(_, _, d, x) := emit react (discovered_event e) d in
            match x with
            | Some code => (Some d, Throw code)
            | None => let '(d, r) := report l (Some d) in (d, '(es, ws) ← r; Ret (e :: es, ws))
            end
        end
  end.

End Report.

(** [EndpointExtractor::extract], with the dispatcher it leaves. *)
Definition extract (react : nat -> Event -> EventDispatcher -> Event * EventDispatcher * option ErrorCode)
  (x : EndpointExtractor) (document : Document) : option EventDispatcher * result EndpointExtractionResult :=
  match collect x document with
  | Throw e => (event_dispatcher_ x, Throw e)
  | Ret st =>
      let '(d, r) := report react (minimum_confidence (options_ x)) (found st) (event_dispatcher_ x) in
      (d, '(es, ws) ← r;
          let es := merge_sort endpoint_order es in
          Ret {| openapi_yaml := render_openapi_yaml (options_ x) defaults es; endpoints := es; warnings := ws |})
  end.

End Endpoint.

(** ** Evaluations

    Hundredths stand for the doubles. *)

#[export] Instance exact_hundredths : Confidences := {|
  level := N;
  hundredths n := n;
  lower := N.ltb;
  to_fixed n := print_N (n / 100) ++ lit "." ++ print_N (n / 10 mod 10) ++ print_N (n mod 10) |}.

Lemma print_line n : none (fun c => c =c byte 10) (print_N n) = true.
Proof.
  destruct (print_N_spec n) as [H _]. revert H. generalize (print_N n). intros s. induction s as [|c s IH]; [done|].
  cbn [forallb]. intros [Hc Hs]%andb_prop. rewrite IH, andb_true_r by done. revert Hc. by_ascii c.
Qed.

#[export] Instance exact_hundredths_laws : ConfidenceLaws exact_hundredths.
Proof.
  split.
  - intros a. apply N.ltb_irrefl.
  - intros a b c H1%N.ltb_lt H2%N.ltb_lt. apply N.ltb_lt. lia.
  - intros a b n H%N.ltb_lt. cbn. destruct (N.ltb_spec a n); [by left|right]. apply N.ltb_lt. lia.
  - intros a. cbn [to_fixed exact_hundredths]. rewrite !none_app, !print_line. done.
Qed.

Definition default_options : EndpointExtractionOptions := {|
  follow_links := true; inspect_scripts := true; observe_network := true; infer_schemas := true;
  include_provenance := true; redact_secrets := true; max_depth := 2; max_pages := 100;
  minimum_confidence := 50%N; openapi_version := lit "3.1.0"; scrape_all_paths := false |}.

Definition shop_page : bytes :=
  lit "<a href=/api/x>1</a><form action='/buy?id=1' method=POST><input name=n></form><script>fetch('/api/x?q=2')</script>".

Definition shop_report : result EndpointExtractionResult :=
  doc ← parse_html shop_page (lit "http://h/") [];
  (extract (fun _ ev d => (ev, d, None)) (new_extractor default_options) doc).2.

Definition summary (e : DiscoveredEndpoint) : string * string * string * N * list string :=
  let s := String.string_of_list_ascii in
  (s (ep_method e), s (ep_path e), s (ep_discovery e), ep_confidence e, map s (ep_parameters e)).

Example shop_endpoints :
  (r ← shop_report; Ret (map summary (endpoints r), map String.string_of_list_ascii (warnings r))) =
  Ret ([("get", "/api/x", "inline-script", 65, ["q"]); ("post", "/buy", "html-form", 75, ["id"; "n"])],
       [])%N%string.
Proof. vm_compute. reflexivity. Qed.

(** The source of a script is moved into its first endpoint, and the others are left with
    what the move leaves. *)
Example source_moved :
  map (fun e => (String.string_of_list_ascii (ep_path e), String.string_of_list_ascii (ep_source e)))
    (observed_script_endpoints (fun _ => []) (lit "http://h/s.js") (script_endpoints (lit "fetch('/a1');fetch('/b1')"))) =
  [("/a1", "http://h/s.js"); ("/b1", "")]%string.
Proof. vm_compute. reflexivity. Qed.

(** ** Lists without repetitions *)

Definition names_ok (l : list bytes) : Prop := NoDup l /\ Forall (fun v => v <> []) l.

Lemma elem_of_append_unique l v x : x ∈ append_unique l v <-> x ∈ l \/ (x = v /\ v <> []).
Proof.
  unfold append_unique. destruct v as [|c v]; cbn [nonempty negb orb]; [naive_solver|].
  case_bool_decide; [naive_solver|]. rewrite elem_of_app, list_elem_of_singleton. naive_solver.
Qed.

Lemma append_unique_ok l v : names_ok l -> names_ok (append_unique l v).
Proof.
  intros [Hn Hf]. unfold append_unique. destruct v as [|c v]; cbn [nonempty negb orb]; [done|].
  case_bool_decide as Hv; [done|]. split.
  - apply NoDup_app. split_and!; [done|intros x Hx ->%list_elem_of_singleton; done|apply NoDup_singleton].
  - apply Forall_app. split; [done|]. by repeat constructor.
Qed.

Lemma append_unique_all_ok l vs : names_ok l -> names_ok (append_unique_all l vs).
Proof. unfold append_unique_all. revert l. induction vs as [|v vs IH]; intros l Hl; [done|]. by apply IH, append_unique_ok. Qed.

Lemma elem_of_append_unique_all l vs x : x ∈ append_unique_all l vs <-> x ∈ l \/ (x ∈ vs /\ x <> []).
Proof.
  unfold append_unique_all. revert l. induction vs as [|v vs IH]; intros l; cbn [foldl]; [set_solver|].
  rewrite IH, elem_of_append_unique, elem_of_cons. naive_solver.
Qed.

Lemma query_parameters_ok q : names_ok (query_parameters q).
Proof.
  unfold query_parameters. generalize (S (length q)) as fuel. intros fuel.
  assert (H : forall ps, names_ok ps -> names_ok (query_loop fuel ps q)); [|apply H; by split; constructor].
  revert q. induction fuel as [|fuel IH]; intros q ps Hps; cbn [query_loop]; [done|].
  destruct (find_if _ q); [apply IH|]; by apply append_unique_ok.
Qed.

(** ** The merge *)

Section Merge.
Context {C : Confidences}.

(** The linear search [add] avoids by its index. *)
Fixpoint sighted (l : list DiscoveredEndpoint) (e : DiscoveredEndpoint) : list DiscoveredEndpoint :=
  match l with
  | [] => [e]
  | x :: l => if endpoint_key x =s endpoint_key e then merge_endpoint e x :: l else x :: sighted l e
  end.

Definition index_of (k : bytes) (keys : list bytes) : option nat := fst <$> list_find (fun k' => k' = k) keys.

Definition keys (l : list DiscoveredEndpoint) : list bytes := map endpoint_key l.

(** The index is the position of every key. *)
Definition index_ok (st : Found) : Prop := forall k, seen st !! k = index_of k (keys (found st)).

Lemma index_of_cons k k' l : index_of k (k' :: l) = if decide (k' = k) then Some 0 else S <$> index_of k l.
Proof.
  unfold index_of. cbn [list_find]. destruct (decide (k' = k)); [done|].
  destruct (list_find _ l) as [[i x]|]; done.
Qed.

Lemma index_of_snoc k k' l : index_of k (l ++ [k']) =
  match index_of k l with Some i => Some i | None => if decide (k' = k) then Some (length l) else None end.
Proof.
  induction l as [|y l IH]; [cbn [app]; by rewrite index_of_cons|]. cbn [app]. rewrite !index_of_cons. destruct (decide (y = k)); [done|].
  rewrite IH. destruct (index_of k l); [done|]. by destruct (decide (k' = k)).
Qed.

Lemma merge_key e x : endpoint_key (merge_endpoint e x) = endpoint_key x.
Proof. done. Qed.

Lemma add_sighted_aux e l :
  match index_of (endpoint_key e) (keys l) with
  | Some i => alter (merge_endpoint e) i l
  | None => l ++ [e]
  end = sighted l e.
Proof.
  induction l as [|x l IH]; [done|]. cbn [keys map sighted]. fold (keys l). rewrite index_of_cons.
  destruct (decide (endpoint_key x = endpoint_key e)) as [H|H].
  - by rewrite H, eqb_bytes_refl.
  - apply eqb_bytes_false in H as ->. rewrite <- IH. by destruct (index_of _ (keys l)).
Qed.

Lemma keys_alter e i l : keys (alter (merge_endpoint e) i l) = keys l.
Proof. revert i. induction l as [|x l IH]; intros [|i]; [done..|]. cbn. f_equal. apply IH. Qed.

Lemma add_sighted st e : index_ok st -> found (add st e) = sighted (found st) e /\ index_ok (add st e).
Proof.
  intros Hst. rewrite <- add_sighted_aux. unfold add. rewrite Hst.
  destruct (index_of (endpoint_key e) (keys (found st))) as [i|] eqn:E; cbn [found].
  - split; [done|]. intros k. cbn [found seen]. by rewrite keys_alter.
  - split; [done|]. intros k. cbn [found seen]. unfold keys. rewrite map_app. fold (keys (found st)). cbn [map].
    rewrite index_of_snoc. destruct (decide (endpoint_key e = k)) as [<-|Hk].
    + rewrite lookup_insert_eq, E. unfold keys. by rewrite length_map.
    + rewrite lookup_insert_ne, Hst by done. by destruct (index_of k _).
Qed.

Definition no_endpoints : Found := {| found := []; seen := ∅ |}.

Lemma foldl_add_sighted l : found (foldl add no_endpoints l) = foldl sighted [] l /\ index_ok (foldl add no_endpoints l).
Proof.
  induction l as [|e l IH] using rev_ind.
  - split; [done|]. intros k. cbn. by rewrite lookup_empty.
  - rewrite !foldl_app. cbn [foldl]. destruct IH as [<- IH]. by apply add_sighted.
Qed.

(** ** The merge by groups *)

Definition same_key (k : bytes) (e : DiscoveredEndpoint) : bool := endpoint_key e =s k.

(** The sightings of one endpoint, put together in their order. *)
Definition merged (l : list DiscoveredEndpoint) : option DiscoveredEndpoint :=
  match l with
  | [] => None
  | first :: rest => Some (foldl (fun acc e => merge_endpoint e acc) first rest)
  end.

Definition add_key (ks : list bytes) (k : bytes) : list bytes := if decide (k ∈ ks) then ks else ks ++ [k].

(** The keys in the order of their first sightings. *)
Definition distinct_keys (l : list DiscoveredEndpoint) : list bytes := foldl add_key [] (keys l).

Lemma keys_sighted l e : keys (sighted l e) = add_key (keys l) (endpoint_key e).
Proof.
  unfold keys. induction l as [|x l IH]; [done|]. cbn [sighted]. unfold add_key in *.
  destruct (endpoint_key x =s endpoint_key e) eqn:E; cbn [map].
  - apply eqb_bytes_true in E. rewrite E, decide_True by by left. by rewrite merge_key, E.
  - apply eqb_bytes_false in E. rewrite IH.
    destruct (decide (endpoint_key e ∈ map endpoint_key l)) as [H|H].
    + by rewrite decide_True by by right.
    + rewrite decide_False by by intros [?|?]%elem_of_cons. done.
Qed.

Lemma add_key_nodup ks k : NoDup ks -> NoDup (add_key ks k).
Proof.
  intros H. unfold add_key. case_decide; [done|]. apply NoDup_app. split_and!; [done|intros ? ? ?%list_elem_of_singleton; by subst|apply NoDup_singleton].
Qed.

Lemma sighted_nodup l e : NoDup (keys l) -> NoDup (keys (sighted l e)).
Proof. intros H. rewrite keys_sighted. by apply add_key_nodup. Qed.

Lemma merged_snoc l e : merged (l ++ [e]) = match merged l with Some x => Some (merge_endpoint e x) | None => Some e end.
Proof. destruct l as [|x l]; [done|]. cbn. by rewrite foldl_app. Qed.

Lemma merged_key l e k : merged l = Some e -> Forall (fun x => same_key k x = true) l -> endpoint_key e = k.
Proof.
  revert e. induction l as [|x l IH] using rev_ind; intros e; [done|]. rewrite merged_snoc, Forall_app, Forall_singleton.
  intros He [Hl Hx]. apply eqb_bytes_true in Hx. destruct (merged l) as [y|]; injection He as <-; [|done].
  rewrite merge_key. by apply IH.
Qed.

Lemma elem_of_distinct_keys l k : k ∈ distinct_keys l <-> k ∈ keys l.
Proof.
  unfold distinct_keys. induction (keys l) as [|y ks IH] using rev_ind; [done|].
  rewrite foldl_app, elem_of_app, list_elem_of_singleton. cbn [foldl]. unfold add_key.
  case_decide as H; [|rewrite elem_of_app, list_elem_of_singleton]; rewrite <- IH; [|done]. split; [by left|].
  by intros [?| ->].
Qed.

Lemma absent_key l k : k ∉ distinct_keys l -> List.filter (same_key k) l = [].
Proof.
  rewrite elem_of_distinct_keys. unfold keys. induction l as [|y l IH]; [done|]. cbn [List.filter map].
  rewrite not_elem_of_cons. intros [H1 H2]. unfold same_key at 1.
  rewrite (proj2 (eqb_bytes_false _ _)) by congruence. by apply IH.
Qed.

(** What [sighted] leaves in the list. *)
Lemma elem_of_sighted l x e : NoDup (keys l) -> e ∈ sighted l x ->
  (e ∈ l /\ endpoint_key e <> endpoint_key x) \/
  (exists y, y ∈ l /\ endpoint_key y = endpoint_key x /\ e = merge_endpoint x y) \/ (endpoint_key x ∉ keys l /\ e = x).
Proof.
  unfold keys. induction l as [|y l IH]; cbn [sighted map].
  - intros _ ->%list_elem_of_singleton. right; right. split; [by intros ?%elem_of_nil|done].
  - intros [Hy Hn]%NoDup_cons. destruct (endpoint_key y =s endpoint_key x) eqn:E.
    + apply eqb_bytes_true in E. intros [->|He]%elem_of_cons; [right; left; exists y; by split; [left|]|].
      left. split; [by right|]. intros Hk. apply Hy. rewrite E, <- Hk. by apply list_elem_of_fmap_2.
    + apply eqb_bytes_false in E. intros [->|He]%elem_of_cons; [left; by split; [left|]|].
      destruct (IH Hn He) as [[H1 H2]|[(z & H1 & H2 & H3)|[H1 H2]]].
      * left. by split; [right|].
      * right; left. exists z. by split; [right|].
      * right; right. split; [|done]. rewrite elem_of_cons. intros [H|H]; [congruence|done].
Qed.

(** Each entry holds the sightings of its key, and every key has its entry. *)
Lemma sighted_groups l :
  NoDup (keys (foldl sighted [] l)) /\ keys (foldl sighted [] l) = distinct_keys l /\
  forall e, e ∈ foldl sighted [] l -> merged (List.filter (same_key (endpoint_key e)) l) = Some e.
Proof.
  induction l as [|x l (IH1 & IH2 & IH3)] using rev_ind; [split_and!; [constructor|done|by intros ? ?%elem_of_nil]|].
  unfold distinct_keys. unfold keys at 3. rewrite map_app, !foldl_app. cbn [foldl map]. fold (keys l) (distinct_keys l).
  set (F := foldl sighted [] l) in *. split_and!; [by apply sighted_nodup|by rewrite keys_sighted, IH2|].
  assert (Hno : endpoint_key x ∉ keys F -> List.filter (same_key (endpoint_key x)) l = []).
  { rewrite IH2. apply absent_key. }
  intros e He. rewrite List.filter_app. cbn [List.filter].
  destruct (elem_of_sighted F x e IH1 He) as [[H1 H2]|[(y & H1 & H2 & ->)|[H1 ->]]].
  - unfold same_key at 2. rewrite (proj2 (eqb_bytes_false _ _)) by congruence. rewrite app_nil_r. by apply IH3.
  - rewrite merge_key. unfold same_key at 2. rewrite H2, eqb_bytes_refl, merged_snoc, <- H2, (IH3 y H1). done.
  - unfold same_key at 2. rewrite eqb_bytes_refl, Hno by done. done.
Qed.

End Merge.

(** ** Sound endpoints *)

Section Sound.
Context {C : Confidences} {CL : ConfidenceLaws C}.

(** A method of HTTP, parameters without repetition, a confidence that is a number. *)
Definition endpoint_ok (e : DiscoveredEndpoint) : Prop :=
  is_http_method (ep_method e) = true /\ names_ok (ep_parameters e) /\ exists n, ep_confidence e = hundredths n.

Definition extractor_ok (x : EndpointExtractor) : Prop :=
  Forall endpoint_ok (observed_ x) /\ Forall endpoint_ok (observed_scripts_ x).

Lemma url_parts_ok url : names_ok (url_parts url).2.
Proof. unfold url_parts. destruct (parse_url url); [apply query_parameters_ok|by split; constructor]. Qed.

Lemma new_extractor_ok options : extractor_ok (new_extractor options).
Proof. by split; constructor. Qed.

Lemma observe_ok method url status content_type x : extractor_ok x -> extractor_ok (observe method url status content_type x).
Proof.
  intros [H1 H2]. split; [|done]. apply Forall_app. split; [done|]. apply Forall_singleton. split_and!.
  - apply normalize_method_http.
  - apply url_parts_ok.
  - by exists 95%N.
Qed.

Lemma observe_script_ok moved_from source_url text x : extractor_ok x -> extractor_ok (observe_script moved_from source_url text x).
Proof.
  intros [H1 H2]. split; [done|]. apply Forall_app. split; [done|]. generalize (script_endpoints text) as l. intros l.
  revert source_url. induction l as [|ep l IH]; intros source_url; cbn [observed_script_endpoints]; [constructor|].
  destruct (nonempty (se_url ep)); [|apply IH]. constructor; [|apply IH]. split_and!.
  - apply normalize_method_http.
  - apply url_parts_ok.
  - by exists (se_confidence ep).
Qed.

Lemma merge_ok e x : endpoint_ok e -> endpoint_ok x -> endpoint_ok (merge_endpoint e x).
Proof.
  intros (H1 & H2 & n & H3) (H4 & H5 & m & H6). split_and!; [done|by apply append_unique_all_ok|].
  cbn. destruct (lower _ _); eauto.
Qed.

Lemma merged_ok l e : merged l = Some e -> Forall endpoint_ok l -> endpoint_ok e.
Proof.
  revert e. induction l as [|x l IH] using rev_ind; intros e; [done|]. rewrite merged_snoc, Forall_app, Forall_singleton.
  intros He [Hl Hx]. destruct (merged l) as [y|]; injection He as <-; [|done]. apply merge_ok; auto.
Qed.

(** A merged endpoint is at least as certain as each sighting, and has its parameters. *)
Lemma merged_covers l e : merged l = Some e -> Forall endpoint_ok l ->
  Forall (fun c => lower (ep_confidence e) (ep_confidence c) = false /\ forall p, p ∈ ep_parameters c -> p ∈ ep_parameters e) l.
Proof.
  revert e. induction l as [|x l IH] using rev_ind; intros e; [done|]. rewrite merged_snoc, !Forall_app, !Forall_singleton.
  intros He [Hl Hx]. destruct (merged l) as [y|] eqn:Ey.
  - injection He as <-. specialize (IH y eq_refl Hl). cbn. split.
    + eapply Forall_impl; [exact IH|]. intros c [H1 H2]. split.
      * destruct (lower (ep_confidence y) (ep_confidence x)) eqn:E; [|done].
        destruct (lower (ep_confidence x) (ep_confidence c)) eqn:E'; [|done].
        by rewrite (lower_transitive _ _ _ E E') in H1.
      * intros p Hp. apply elem_of_append_unique_all. left. by apply H2.
    + split.
      * destruct (lower (ep_confidence y) (ep_confidence x)) eqn:E; [apply lower_irreflexive|done].
      * intros p Hp. apply elem_of_append_unique_all. right. split; [done|].
        destruct Hx as (_ & [_ Hx] & _). rewrite Forall_forall in Hx. by apply Hx.
  - injection He as <-. destruct l; [|done]. split; [constructor|]. split; [apply lower_irreflexive|done].
Qed.

Lemma http_method_no_line m : is_http_method m = true -> none (fun c => c =c byte 10) m = true.
Proof.
  unfold is_http_method, one_of, methods. intros H.
  repeat (apply orb_prop in H as [H|H]; [apply eqb_bytes_true in H as ->; reflexivity|]). done.
Qed.

(** A key tells the method and the path apart. *)
Lemma http_method_none p m : (forall c, p c = true -> is_lower c = false) ->
  is_http_method m = true -> none p m = true.
Proof.
  intros Hp H. assert (Hl : forallb is_lower m = true).
  { revert H. unfold is_http_method, one_of, methods. intros H.
    repeat (apply orb_prop in H as [H|H]; [apply eqb_bytes_true in H as ->; reflexivity|]). done. }
  clear H. induction m as [|c m IH]; [done|]. cbn [forallb] in *. apply andb_prop in Hl as [Hc Hl].
  rewrite IH, andb_true_r by done. destruct (p c) eqn:E; [|done]. apply Hp in E. congruence.
Qed.

(** A key tells the method and the path apart. *)
Lemma http_method_no_space m : is_http_method m = true -> none (fun c => c =c " ") m = true.
Proof.
  unfold is_http_method, one_of, methods. intros H.
  repeat (apply orb_prop in H as [H|H]; [apply eqb_bytes_true in H as ->; reflexivity|]). done.
Qed.

Lemma key_inj a b : endpoint_ok a -> endpoint_ok b -> endpoint_key a = endpoint_key b ->
  ep_method a = ep_method b /\ ep_path a = ep_path b.
Proof.
  intros [Ha _] [Hb _] H.
  apply (http_method_none (fun c => c =c " ")) in Ha, Hb; try (by intros c ->%eqc_true). unfold endpoint_key in H.
  change (lit " " ++ ?x) with (" "%char :: x) in H.
  pose proof (find_if_mid (fun c => c =c " ") (ep_method a) " "%char (ep_path a) Ha eq_refl) as Ea.
  pose proof (find_if_mid (fun c => c =c " ") (ep_method b) " "%char (ep_path b) Hb eq_refl) as Eb.
  rewrite H, Eb in Ea. injection Ea as Ea. apply app_inj_1 in H as [-> H]; [|done]. by injection H as ->.
Qed.

(** ** The sightings of a page *)

Definition extends_by (st st' : Found) (P : DiscoveredEndpoint -> Prop) : Prop :=
  exists l, st' = foldl add st l /\ Forall endpoint_ok l /\ forall e, P e -> e ∈ l.

Lemma extends_refl st P : (forall e, ~ P e) -> extends_by st st P.
Proof. intros H. exists []. split_and!; [done|constructor|]. intros e He. by apply H in He. Qed.

Lemma extends_trans st1 st2 st3 P Q : extends_by st1 st2 P -> extends_by st2 st3 Q ->
  extends_by st1 st3 (fun e => P e \/ Q e).
Proof.
  intros (l1 & -> & H1 & H2) (l2 & -> & H3 & H4). exists (l1 ++ l2). split_and!.
  - by rewrite foldl_app.
  - by apply Forall_app.
  - intros e [H|H]; apply elem_of_app; [left|right]; auto.
Qed.

Lemma extends_impl st st' (P Q : DiscoveredEndpoint -> Prop) : (forall e, Q e -> P e) -> extends_by st st' P -> extends_by st st' Q.
Proof. intros H (l & H1 & H2 & H3). exists l. split_and!; auto. Qed.

Lemma extends_list st l : Forall endpoint_ok l -> extends_by st (foldl add st l) (fun e => e ∈ l).
Proof. intros H. by exists l. Qed.

Lemma extends_foldl {A} (f : Found -> A -> Found) l st :
  (forall st a, extends_by st (f st a) (fun _ => False)) -> extends_by st (foldl f st l) (fun _ => False).
Proof.
  intros H. revert st. induction l as [|a l IH]; intros st; [apply extends_refl; tauto|].
  eapply extends_impl; [|eapply extends_trans; [apply H|apply IH]]. tauto.
Qed.

Section Sightings.
Variable options : EndpointExtractionOptions.
Variable document : Document.
Variable base : bytes.

Lemma inferred_ok url path method discovery n parameters request_type note :
  is_http_method method = true -> names_ok parameters ->
  endpoint_ok (inferred document url path method discovery (hundredths n) parameters request_type note).
Proof. intros H1 H2. split_and!; [done|done|by exists n]. Qed.

Lemma link_endpoint_ok link e : link_endpoint options document base link = Some e -> endpoint_ok e.
Proof.
  unfold link_endpoint. cbv zeta. destruct (no_target _); [done|]. destruct (parse_url _) as [u|]; [|done].
  destruct (_ && _); [done|]. intros [= <-]. split_and!; [done|apply query_parameters_ok|].
  cbn. repeat case_match; eauto.
Qed.

Lemma add_unseen_extends url discovery note n st :
  extends_by st (add_unseen document url discovery note (hundredths n) st) (fun _ => False).
Proof.
  unfold add_unseen. destruct (parse_url url) as [u|]; [|apply extends_refl; tauto].
  destruct (seen st !! _); [apply extends_refl; tauto|].
  eexists [_]. split_and!; [reflexivity| |tauto]. apply Forall_singleton, inferred_ok; [done|apply query_parameters_ok].
Qed.

Lemma add_resource_extends st ref : extends_by st (add_resource document st ref) (fun _ => False).
Proof. unfold add_resource. destruct (no_target ref); [apply extends_refl; tauto|apply add_unseen_extends]. Qed.

Lemma add_href_extends st el : extends_by st (add_href document base st el) (fun _ => False).
Proof. unfold add_href. cbv zeta. destruct (_ || _); [apply extends_refl; tauto|apply add_unseen_extends]. Qed.

Lemma form_endpoint_ok form e : form_endpoint document base form = Ret (Some e) -> endpoint_ok e.
Proof.
  unfold form_endpoint. cbv zeta. destruct (parse_url _) as [u|]; [|done].
  intros (ps & Hp & [= <-])%bind_Ret. split_and!.
  - cbn. unfold method_from_form. repeat case_match; done.
  - cbn. apply append_unique_all_ok. unfold form_parameters in Hp. apply bind_Ret in Hp as (cs & _ & [= <-]).
    apply append_unique_all_ok. by split; constructor.
  - cbn. case_match; eauto.
Qed.

Lemma form_endpoints_spec l es : form_endpoints document base l = Ret es ->
  Forall endpoint_ok es /\ forall form e, form ∈ l -> form_endpoint document base form = Ret (Some e) -> e ∈ es.
Proof.
  revert es. induction l as [|f l IH]; intros es; cbn [form_endpoints].
  - intros [= <-]. split; [constructor|]. by intros ? ? ?%elem_of_nil.
  - intros (o & Hf & (es' & Hes & [= <-])%bind_Ret)%bind_Ret. apply IH in Hes as [H1 H2]. split.
    + destruct o as [e|]; [|done]. constructor; [by eapply form_endpoint_ok|done].
    + intros form e [->|Hin]%elem_of_cons He; [rewrite Hf in He; injection He as ->; by left|].
      specialize (H2 form e Hin He). destruct o; [by right|done].
Qed.

Lemma inline_endpoints_ok script : Forall endpoint_ok (inline_endpoints document base script).
Proof.
  unfold inline_endpoints. destruct (has_attribute _ _ _); [constructor|]. apply Forall_forall. intros e He.
  apply list_elem_of_omap in He as (ep & _ & He). unfold inline_endpoint in He. destruct (nonempty _); [|done].
  cbv zeta in He. destruct (parse_url _) as [u|]; [|done]. injection He as <-.
  apply inferred_ok; [apply normalize_method_http|apply query_parameters_ok].
Qed.

End Sightings.

(** What a page and the observations say at least; the references that are added only when
    their key is new are left out. *)
Inductive sighting (x : EndpointExtractor) (document : Document) : DiscoveredEndpoint -> Prop :=
  | SightObserved e : observe_network (options_ x) = true -> e ∈ observed_ x -> sighting x document e
  | SightScript e : inspect_scripts (options_ x) = true -> e ∈ observed_scripts_ x -> sighting x document e
  | SightLink base ls link e : follow_links (options_ x) = true -> base_url document = Ret base ->
      links document = Ret ls -> link ∈ ls -> link_endpoint (options_ x) document base link = Some e -> sighting x document e
  | SightForm base fs form e : base_url document = Ret base -> forms document = Ret fs -> form ∈ fs ->
      form_endpoint document base form = Ret (Some e) -> sighting x document e
  | SightInline base ss script e : inspect_scripts (options_ x) = true -> base_url document = Ret base ->
      scripts document = Ret ss -> script ∈ ss -> e ∈ inline_endpoints document base script -> sighting x document e.

Lemma collect_sightings x document st : extractor_ok x -> collect x document = Ret st ->
  extends_by no_endpoints st (sighting x document).
Proof.
  intros [Hx1 Hx2]. unfold collect. cbv zeta. fold no_endpoints.
  set (st1 := if observe_network _ then _ else _). set (st2 := if inspect_scripts _ then foldl add st1 _ else _).
  assert (H1 : extends_by no_endpoints st1 (fun e => observe_network (options_ x) = true /\ e ∈ observed_ x)).
  { unfold st1. destruct (observe_network _); [|apply extends_refl; naive_solver].
    eapply extends_impl; [|by apply extends_list]. naive_solver. }
  assert (H2 : extends_by st1 st2 (fun e => inspect_scripts (options_ x) = true /\ e ∈ observed_scripts_ x)).
  { unfold st2. destruct (inspect_scripts _); [|apply extends_refl; naive_solver].
    eapply extends_impl; [|by apply extends_list]. naive_solver. }
  clearbody st1 st2. intros (base & Hb & (st3 & H3 & (fs & Hfs & (es & Hes & H5)%bind_Ret)%bind_Ret)%bind_Ret)%bind_Ret.
  assert (H3' : extends_by st2 st3 (fun e => follow_links (options_ x) = true /\ exists ls link, links document = Ret ls /\
    link ∈ ls /\ link_endpoint (options_ x) document base link = Some e)).
  { destruct (follow_links _); [|injection H3 as <-; apply extends_refl; naive_solver].
    apply bind_Ret in H3 as (ls & Hls & H3). rewrite Hls.
    assert (Hl : extends_by st2 (foldl add st2 (omap (link_endpoint (options_ x) document base) ls))
      (fun e => e ∈ omap (link_endpoint (options_ x) document base) ls)).
    { apply extends_list, Forall_forall. intros e (link & _ & He)%list_elem_of_omap. by eapply link_endpoint_ok. }
    eapply (extends_impl _ _ (fun e => e ∈ omap (link_endpoint (options_ x) document base) ls \/ False)).
    { intros e (_ & ls' & link & [= <-] & Hin & He). left. apply list_elem_of_omap. eauto. }
    destruct (scrape_all_paths _).
    - apply bind_Ret in H3 as (refs & _ & (els & _ & [= <-])%bind_Ret).
      eapply extends_impl; [|eapply extends_trans; [exact Hl|eapply extends_trans;
        [apply (extends_foldl (add_resource document)), add_resource_extends|
         apply (extends_foldl (add_href document base)), add_href_extends]]]. naive_solver.
    - injection H3 as <-. eapply extends_impl; [|exact Hl]. naive_solver. }
  apply form_endpoints_spec in Hes as [Hes1 Hes2].
  set (st4 := foldl add st3 es) in *.
  assert (H4 : extends_by st3 st4 (fun e => e ∈ es)) by by apply extends_list. clearbody st4.
  assert (H5' : extends_by st4 st (fun e => inspect_scripts (options_ x) = true /\ exists ss script, scripts document = Ret ss /\
    script ∈ ss /\ e ∈ inline_endpoints document base script)).
  { destruct (inspect_scripts _); [|injection H5 as <-; apply extends_refl; naive_solver].
    apply bind_Ret in H5 as (ss & Hss & [= <-]). rewrite Hss.
    eapply extends_impl; [|apply extends_list].
    - intros e (_ & ss' & script & [= <-] & Hin & He). apply list_elem_of_join.
      exists (inline_endpoints document base script). split; [done|]. by apply list_elem_of_fmap_2.
    - apply Forall_forall. intros e (l & He & (script & -> & _)%list_elem_of_fmap)%list_elem_of_join.
      pose proof (inline_endpoints_ok document base script) as Hok. rewrite Forall_forall in Hok. by apply Hok. }
  eapply extends_impl; [|eapply extends_trans; [exact H1|eapply extends_trans; [exact H2|eapply extends_trans; [exact H3'|
    eapply extends_trans; [exact H4|exact H5']]]]].
  intros e He. inversion He as [? ? ?|? ? ?|b ls link ? ? Hb' ? ? ?|b fs' form ? Hb' Hfs' ? ?|b ss script ? ? Hb' ? ? ?]; subst.
  - by left.
  - by right; left.
  - rewrite Hb in Hb'. injection Hb' as <-. right; right; left. eauto 10.
  - rewrite Hb in Hb'. injection Hb' as <-. rewrite Hfs in Hfs'. injection Hfs' as <-. right; right; right; left. by eapply Hes2.
  - rewrite Hb in Hb'. injection Hb' as <-. right; right; right; right. eauto 10.
Qed.

End Sound.

(** ** The report *)

#[export] Instance endpoint_order_total `{Confidences} : Total endpoint_order.
Proof.
  intros a b. unfold endpoint_order. destruct (decide (ep_path a = ep_path b)) as [E|E].
  - rewrite decide_True by done. apply total, _.
  - rewrite decide_False by congruence. apply total, _.
Qed.

Lemma key_order_antisym a b : key_order a b -> key_order b a -> a = b.
Proof.
  unfold key_order. revert b. induction a as [|x a IH]; intros [|y b]; simpl; try done.
  rewrite !orb_true_iff, !andb_true_iff, !N.ltb_lt, !eqc_true.
  intros [H1|[-> H1]] [H2|[H2 H3]]; try lia; subst; try lia. f_equal. by apply IH.
Qed.

#[export] Instance endpoint_order_trans `{Confidences} : Transitive endpoint_order.
Proof.
  intros a b c. unfold endpoint_order.
  destruct (decide (ep_path a = ep_path b)) as [E1|E1], (decide (ep_path b = ep_path c)) as [E2|E2].
  - rewrite decide_True by congruence. by etransitivity.
  - rewrite decide_False by congruence. by rewrite E1.
  - rewrite decide_False by congruence. by rewrite E2.
  - intros H1 H2. rewrite decide_False; [by etransitivity|]. intros E. rewrite <- E in H2.
    apply E1. by apply key_order_antisym.
Qed.

Lemma length_filters {A} (p : A -> bool) l :
  length (List.filter p l) + length (List.filter (fun a => negb (p a)) l) = length l.
Proof. induction l as [|a l IH]; [done|]. cbn [List.filter]. destruct (p a); cbn [negb length]; lia. Qed.

(** A sorted list without repetitions is strictly sorted. *)
Lemma strictly_sorted {A B} (R : A -> A -> Prop) (f : A -> B) l :
  StronglySorted R l -> NoDup (map f l) -> StronglySorted (fun a b => R a b /\ f a <> f b) l.
Proof.
  induction 1 as [|a l Hl IH Ha]; cbn [map]; [constructor|]. intros [Hn Hd]%NoDup_cons. constructor; [by apply IH|].
  rewrite Forall_forall in *. intros b Hb. split; [by apply Ha|]. intros E. apply Hn. rewrite E. by apply list_elem_of_fmap_2.
Qed.

Section ReportSpec.
Context {C : Confidences} {CL : ConfidenceLaws C}.
Variable react : nat -> Event -> EventDispatcher -> Event * EventDispatcher * option ErrorCode.

Lemma report_spec minimum l d es ws : (report react minimum l d).2 = Ret (es, ws) ->
  es = map sort_parameters (List.filter (fun e => negb (lower (ep_confidence e) minimum)) l) /\
  ws = map warning (List.filter (fun e => lower (ep_confidence e) minimum) l).
Proof.
  revert d es ws. induction l as [|e l IH]; intros d es ws; cbn [report List.filter].
  - intros [= <- <-]. done.
  - destruct (lower (ep_confidence e) minimum); cbn [negb].
    + specialize (IH d). destruct (report react minimum l d) as [d' r]. cbn [snd] in *.
      intros ([es' ws'] & -> & [= <- <-])%bind_Ret. destruct (IH es' ws' eq_refl) as [-> ->]. done.
    + destruct d as [d|].
      * destruct (emit react _ d) as [[[calls ev] d1] [x|]]; [done|].
        specialize (IH (Some d1)). destruct (report react minimum l (Some d1)) as [d' r]. cbn [snd] in *.
        intros ([es' ws'] & -> & [= <- <-])%bind_Ret. destruct (IH es' ws' eq_refl) as [-> ->]. done.
      * specialize (IH None). destruct (report react minimum l None) as [d' r]. cbn [snd] in *.
        intros ([es' ws'] & -> & [= <- <-])%bind_Ret. destruct (IH es' ws' eq_refl) as [-> ->]. done.
Qed.

(** What a report holds, in terms of what was found. *)
Lemma extract_report x document r : (extract react x document).2 = Ret r ->
  exists st, collect x document = Ret st /\
    let certain e := negb (lower (ep_confidence e) (minimum_confidence (options_ x))) in
    endpoints r ≡ₚ map sort_parameters (List.filter certain (found st)) /\
    StronglySorted endpoint_order (endpoints r) /\
    warnings r = map warning (List.filter (fun e => negb (certain e)) (found st)) /\
    openapi_yaml r = render_openapi_yaml (options_ x) defaults (endpoints r).
Proof.
  unfold extract. destruct (collect x document) as [st|e]; [|done]. intros H. exists st. split; [done|]. cbv zeta.
  pose proof (report_spec (minimum_confidence (options_ x)) (found st) (event_dispatcher_ x)) as Hs.
  destruct (report react _ (found st) _) as [d m]. cbn [snd] in *.
  apply bind_Ret in H as ([es ws] & -> & [= <-]). destruct (Hs es ws eq_refl) as [-> ->]. cbn [endpoints warnings openapi_yaml].
  split_and!; [apply merge_sort_Permutation|apply StronglySorted_merge_sort; apply _| |done].
  f_equal. apply List.filter_ext. intros e. by rewrite negb_involutive.
Qed.

Lemma sighting_number x document c st : extractor_ok x -> collect x document = Ret st -> sighting x document c ->
  exists n, ep_confidence c = hundredths n.
Proof.
  intros Hx (l & _ & Hl & Hs)%collect_sightings Hc; [|done]. rewrite Forall_forall in Hl. by apply Hl, Hs.
Qed.

Lemma found_ok x document st : extractor_ok x -> collect x document = Ret st ->
  NoDup (keys (found st)) /\ Forall endpoint_ok (found st) /\
  forall c, sighting x document c -> exists e, e ∈ found st /\ ep_method e = ep_method c /\ ep_path e = ep_path c /\
    lower (ep_confidence e) (ep_confidence c) = false /\ forall p, p ∈ ep_parameters c -> p ∈ ep_parameters e.
Proof.
  intros Hx (l & -> & Hl & Hs)%collect_sightings; [|done]. destruct (foldl_add_sighted l) as [-> _].
  destruct (sighted_groups l) as (H1 & H2 & H3).
  assert (Hg : forall k, Forall endpoint_ok (List.filter (same_key k) l)).
  { intros k. apply Forall_forall. intros e [He _]%list_elem_of_In%filter_In. rewrite Forall_forall in Hl.
    by apply Hl, list_elem_of_In. }
  split_and!; [done| |].
  - apply Forall_forall. intros e He. eapply merged_ok; [by apply H3|apply Hg].
  - intros c Hc%Hs. assert (Hk : endpoint_key c ∈ keys (foldl sighted [] l)).
    { rewrite H2. apply elem_of_distinct_keys. by apply list_elem_of_fmap_2. }
    apply list_elem_of_fmap in Hk as (e & Hk & He). exists e. specialize (H3 e He).
    assert (Hcin : c ∈ List.filter (same_key (endpoint_key e)) l).
    { apply list_elem_of_In, filter_In. split; [by apply list_elem_of_In|]. unfold same_key. by rewrite Hk, eqb_bytes_refl. }
    pose proof (merged_covers _ e H3 (Hg _)) as Hcov. rewrite Forall_forall in Hcov. destruct (Hcov c Hcin) as [Hc1 Hc2].
    assert (Heok : endpoint_ok e) by (eapply merged_ok; [exact H3|apply Hg]).
    rewrite Forall_forall in Hl. destruct (key_inj e c Heok (Hl c Hc)) as [Hm Hp]; [done|]. by split_and!.
Qed.

End ReportSpec.

(** Merging by the index of the keys is merging by groups: after any sequence of sightings
    there is one entry per method and path, in the order of the first sightings, and it
    holds exactly the sightings of its key put together in their order. *)
Theorem add_merges_groups `{Confidences} (l : list DiscoveredEndpoint) :
  let st := foldl add no_endpoints l in
  map endpoint_key (found st) = distinct_keys l /\ NoDup (map endpoint_key (found st)) /\
  (forall e, e ∈ found st -> merged (List.filter (same_key (endpoint_key e)) l) = Some e) /\
  forall k, seen st !! k = index_of k (map endpoint_key (found st)).
Proof.
  cbv zeta. destruct (foldl_add_sighted l) as [E Hi]. rewrite E.
  destruct (sighted_groups l) as (H1 & H2 & H3). split_and!; [done|done|done|]. intros k. rewrite <- E. apply Hi.
Qed.

(** C18: every report is in order and free of repetitions: the endpoints are strictly increasing
    by path and method, each has a method of HTTP, strictly increasing nonempty parameter
    names and a confidence that is not below the minimum; there is one warning for each
    endpoint left out; and the document is the one of these endpoints. *)
Theorem extract_sound `{C : Confidences} `{!ConfidenceLaws C} react x document r :
  extractor_ok x -> (extract react x document).2 = Ret r ->
  StronglySorted (fun a b => endpoint_order a b /\ (ep_path a, ep_method a) <> (ep_path b, ep_method b)) (endpoints r) /\
  Forall (fun e => is_http_method (ep_method e) = true /\
    StronglySorted (fun a b => key_order a b /\ a <> b) (ep_parameters e) /\ Forall (fun p => p <> []) (ep_parameters e) /\
    lower (ep_confidence e) (minimum_confidence (options_ x)) = false) (endpoints r) /\
  (exists st, collect x document = Ret st /\ length (endpoints r) + length (warnings r) = length (found st)) /\
  openapi_yaml r = render_openapi_yaml (options_ x) defaults (endpoints r).
Proof.
  intros Hx (st & Hst & Hp & Hs & Hw & Hy)%extract_report. cbv zeta in *.
  destruct (found_ok x document st Hx Hst) as (Hn & Hok & _).
  set (certain := fun e => negb (lower (ep_confidence e) (minimum_confidence (options_ x)))) in *.
  assert (Hall : forall e, e ∈ endpoints r -> exists e', e' ∈ found st /\ certain e' = true /\ e = sort_parameters e').
  { intros e He. rewrite Hp in He. apply list_elem_of_fmap in He as (e' & -> & He').
    apply list_elem_of_In, filter_In in He' as [H1 H2]. exists e'. split_and!; [by apply list_elem_of_In|done|done]. }
  split_and!; [| |exists st; split; [done|]|done].
  - apply strictly_sorted with (f := fun e => (ep_path e, ep_method e)); [done|].
    assert (Hperm : map endpoint_key (endpoints r) ≡ₚ map endpoint_key (List.filter certain (found st))).
    { rewrite Hp, map_map. done. }
    assert (Hkeys : NoDup (map endpoint_key (endpoints r))).
    { rewrite Hperm. clear -Hn. unfold keys in Hn. induction (found st) as [|e l IH]; [constructor|]. cbn [List.filter map] in *.
      apply NoDup_cons in Hn as [H1 H2]. destruct (certain e); [|by apply IH]. cbn [map]. constructor; [|by apply IH].
      intros (e' & E & He')%list_elem_of_fmap. apply H1. rewrite E. apply list_elem_of_fmap_2.
      apply list_elem_of_In in He'. apply filter_In in He' as [He' _]. by apply list_elem_of_In. }
    apply (NoDup_fmap_1 (fun pm : bytes * bytes => pm.2 ++ lit " " ++ pm.1)). rewrite <- list_fmap_compose. exact Hkeys.
  - apply Forall_forall. intros e (e' & He' & Hc & ->)%Hall. rewrite Forall_forall in Hok.
    destruct (Hok e' He') as (O1 & [O2 O3] & _). cbn [sort_parameters ep_method ep_parameters ep_confidence].
    pose proof (merge_sort_Permutation key_order (ep_parameters e')) as Hq. split_and!; [done| | |by apply negb_true_iff].
    + apply strictly_sorted with (f := fun p : bytes => p); [apply StronglySorted_merge_sort; apply _|].
      rewrite map_id, Hq. done.
    + by rewrite Hq.
  - rewrite Hp, Hw, !length_map. apply length_filters.
Qed.

(** C19: nothing that was seen is lost: every observed request, link, form and script call whose
    confidence reaches the minimum is in the report under its method and path, with all its
    parameters and a confidence that is no lower, whatever else was seen of the endpoint. *)
Theorem extract_complete `{C : Confidences} `{!ConfidenceLaws C} react x document r c :
  extractor_ok x -> (extract react x document).2 = Ret r -> sighting x document c ->
  lower (ep_confidence c) (minimum_confidence (options_ x)) = false ->
  exists e, e ∈ endpoints r /\ ep_method e = ep_method c /\ ep_path e = ep_path c /\
    lower (ep_confidence e) (ep_confidence c) = false /\ forall p, p ∈ ep_parameters c -> p ∈ ep_parameters e.
Proof.
  intros Hx (st & Hst & Hp & _)%extract_report Hc Hm. cbv zeta in *.
  destruct (found_ok x document st Hx Hst) as (_ & Hok & Hs).
  destruct (Hs c Hc) as (e & He & H1 & H2 & H3 & H4). exists (sort_parameters e). split_and!; [|done|done|done|].
  - rewrite Hp. apply list_elem_of_fmap_2, list_elem_of_In, filter_In. split; [by apply list_elem_of_In|].
    apply negb_true_iff. destruct (lower (ep_confidence e) (minimum_confidence (options_ x))) eqn:E; [|done].
    destruct (sighting_number x document c st Hx Hst Hc) as [n Hn]. rewrite Hn in *.
    apply (lower_split _ _ n) in E as [E|E]; congruence.
  - intros p Hin. cbn [sort_parameters ep_parameters]. rewrite merge_sort_Permutation. by apply H4.
Qed.

(** ** The document *)

Definition put_char (c : ascii) (r : bytes * bytes) : bytes * bytes := (c :: r.1, r.2).

(** A single-quoted scalar of YAML, and what follows it. *)
Fixpoint read_scalar (s : bytes) : option (bytes * bytes) :=
  match s with
  | [] => None
  | c :: s1 =>
      if c =c "'" then
        match s1 with
        | d :: s2 => if d =c "'" then put_char d <$> read_scalar s2 else Some ([], s1)
        | [] => Some ([], [])
        end
      else put_char c <$> read_scalar s1
  end.

(** A line end is written as two characters, which no YAML reader turns back. *)
Definition newline_shown (c : ascii) : bytes := if c =c newline then [backslash; "n"%char] else [c].

Definition on_one_line (s : bytes) : Prop := none (fun c => c =c newline) s = true.

Lemma read_scalar_quote v k : head_is (fun c => negb (c =c "'")) k = true ->
  exists s, yaml_quote v ++ k = "'"%char :: s /\ read_scalar s = Some (mjoin (newline_shown <$> v), k).
Proof.
  intros Hk. exists ((mjoin (yaml_char <$> v) ++ lit "'") ++ k). split; [done|]. change (lit "'") with ["'"%char].
  rewrite <- app_assoc. induction v as [|c v IH].
  - destruct k as [|d k]; [done|]. cbn in Hk |- *. apply negb_true_iff in Hk. by rewrite Hk.
  - rewrite !mjoin_fmap_cons, <- app_assoc. set (others := mjoin (yaml_char <$> v) ++ _) in *.
    assert (Hc : (c = "'"%char /\ yaml_char c = ["'"; "'"]%char /\ newline_shown c = ["'"%char]) \/
                 (yaml_char c = [backslash; "n"%char] /\ newline_shown c = [backslash; "n"%char]) \/
                 ((c =c "'") = false /\ yaml_char c = [c] /\ newline_shown c = [c])).
    { unfold yaml_char, newline_shown. destruct (c =c "'") eqn:E1; [apply eqc_true in E1 as ->; by left|].
      right. destruct (c =c newline); [by left|by right]. }
    destruct Hc as [(-> & -> & ->)|[(-> & ->)|(E & -> & ->)]]; cbn [app read_scalar].
    + change ("'" =c "'") with true. cbn iota. by rewrite IH.
    + change (backslash =c "'") with false. change ("n" =c "'") with false. cbn iota. by rewrite IH.
    + by rewrite E, IH.
Qed.

Lemma yaml_quote_line v : on_one_line (yaml_quote v).
Proof.
  unfold on_one_line, yaml_quote. rewrite !none_app, none_mjoin; [done|]. intros c. unfold yaml_char.
  destruct (c =c "'"); [done|]. destruct (c =c newline) eqn:E; [done|]. cbn [forallb]. by rewrite E.
Qed.

Lemma squeeze_none p fuel id : p "_"%char = false -> none p id = true -> none p (squeeze fuel id) = true.
Proof.
  intros Hp. revert id. induction fuel as [|fuel IH]; intros id H; cbn [squeeze]; [done|].
  destruct (find_sub _ id) as [n|]; [|done]. apply IH. rewrite !none_app, none_take, none_drop by done.
  change (lit "_") with ["_"%char]. cbn [forallb]. by rewrite Hp.
Qed.

(** The identifier of an operation is a word. *)
Lemma operation_id_word method path : none (fun c => negb (is_alnum c || (c =c "_"))) (operation_id method path) = true.
Proof.
  pose (p := fun c => negb (is_alnum c || (c =c "_"))). change (none p (operation_id method path) = true).
  unfold operation_id. cbv zeta.
  assert (H : none p (map (fun c => if is_alnum c then c else "_"%char) (to_lower method ++ lit "_" ++ path)) = true).
  { generalize (to_lower method ++ lit "_" ++ path). intros s. induction s as [|c s IH]; [done|]. cbn [map forallb].
    rewrite IH, andb_true_r. unfold p. destruct (is_alnum c) eqn:E; [by rewrite E|reflexivity]. }
  set (id0 := map _ _) in *. clearbody id0.
  pose proof (squeeze_none p (length id0) id0 eq_refl H) as H1. set (id1 := squeeze _ _) in *. clearbody id1.
  assert (H2 : none p match id1 with [] => [] | c :: id' => if is_underscore c then id' else id1 end = true).
  { destruct id1 as [|c id']; [done|]. destruct (is_underscore c); [|done]. by apply andb_prop in H1 as [_ H1]. }
  set (id2 := match id1 with [] => [] | _ => _ end) in *. clearbody id2.
  destruct (last id2) as [c|]; [|done]. destruct (is_underscore c); [by apply none_take|done].
Qed.

Lemma operation_id_line method path : on_one_line (operation_id method path).
Proof.
  eapply none_impl; [|apply (operation_id_word method path)]. intros c Hc. apply eqc_true in Hc as ->. reflexivity.
Qed.

(** ** Lines *)

Lemma split_lines l : Forall on_one_line l ->
  split_on newline [] (mjoin (map (fun line => line ++ [newline]) l)) = l ++ [[]].
Proof.
  assert (H : forall cur s k, on_one_line s -> split_on newline cur (s ++ newline :: k) = (cur ++ s) :: split_on newline [] k).
  { intros cur s k. revert cur. induction s as [|c s IH]; intros cur Hs; cbn [app split_on].
    - change (newline =c newline) with true. cbn iota. by rewrite app_nil_r.
    - apply andb_prop in Hs as [Hc%negb_true_iff Hs]. rewrite Hc, IH by done. by rewrite <- app_assoc. }
  induction 1 as [|s l Hs _ IH]; [done|]. cbn [map]. change (mjoin (?x :: ?y)) with (x ++ mjoin y).
  rewrite <- app_assoc. cbn [app]. by rewrite H, IH.
Qed.

Lemma one_line_app a b : on_one_line a -> on_one_line b -> on_one_line (a ++ b).
Proof. unfold on_one_line. rewrite none_app. by intros -> ->. Qed.

Create HintDb lines.
#[local] Hint Resolve one_line_app yaml_quote_line operation_id_line : lines.
#[local] Hint Extern 1 (on_one_line (lit _)) => vm_compute; reflexivity : lines.

(** Every part of a line is one of the texts above. *)
Ltac one_line := repeat (apply Forall_cons; split); try apply Forall_nil; try exact I; auto 8 with lines.

Section Yaml.
Context {C : Confidences} {CL : ConfidenceLaws C}.
Variable options : EndpointExtractionOptions.
Variable policy : RedactionPolicy.

Lemma endpoint_lines_one e : on_one_line (ep_method e) -> Forall on_one_line (endpoint_lines options policy e).
Proof.
  intros Hm. unfold endpoint_lines. rewrite !Forall_app. split_and!.
  - one_line.
  - destruct (nonempty (ep_parameters e)); [|constructor]. constructor; [auto with lines|]. apply Forall_join, Forall_fmap, Forall_true.
    intros p. unfold compose, parameter_lines. one_line.
  - unfold request_lines. destruct (nonempty _); one_line.
  - unfold response_lines. destruct (nonempty _); one_line.
  - destruct (infer_schemas options); one_line.
  - unfold provenance_lines. destruct (include_provenance options); [|constructor]. apply Forall_app. split.
    + pose proof (fixed_line (ep_confidence e)). one_line.
    + destruct (nonempty (ep_notes e)); [|constructor]. constructor; [auto with lines|]. apply Forall_fmap, Forall_true.
      intros n. unfold compose. auto with lines.
Qed.

(** ** Groups *)

Lemma group_add_keys e g p : p ∈ (group_add e g).*1 <-> p = ep_path e \/ p ∈ g.*1.
Proof.
  induction g as [|[q es] g IH]; cbn [group_add fmap list_fmap fst]; [set_solver|].
  destruct (q =s ep_path e) eqn:E.
  - apply eqb_bytes_true in E. cbn [fmap list_fmap fst]. rewrite !elem_of_cons. naive_solver.
  - destruct (bytes_le q (ep_path e)); cbn [fmap list_fmap fst]; rewrite !elem_of_cons; [|done].
    unfold fmap in IH. rewrite IH. naive_solver.
Qed.

Definition groups_sorted (g : list (bytes * list DiscoveredEndpoint)) : Prop :=
  StronglySorted (fun a b => key_order a b /\ a <> b) g.*1.

Lemma group_add_sorted e g : groups_sorted g -> groups_sorted (group_add e g).
Proof.
  unfold groups_sorted. induction g as [|[q es] g IH]; cbn [group_add]; intros Hs; [by repeat constructor|].
  destruct (q =s ep_path e) eqn:E; [done|]. apply eqb_bytes_false in E.
  cbn in Hs. apply StronglySorted_inv in Hs as [Hs Hq]. destruct (bytes_le q (ep_path e)) eqn:El.
  - cbn. constructor; [by apply IH|]. apply Forall_forall. intros p [->|Hp]%group_add_keys; [done|].
    rewrite Forall_forall in Hq. by apply Hq.
  - assert (Hqe : key_order (ep_path e) q).
    { destruct (total key_order q (ep_path e)) as [H|H]; [unfold key_order in H; congruence|done]. }
    cbn. constructor; [by constructor|]. constructor; [by split; [|apply not_eq_sym]|].
    eapply Forall_impl; [exact Hq|]. intros p [H1 H2]. split; [by etransitivity|].
    intros Ep. rewrite <- Ep in H1. unfold key_order in H1. congruence.
Qed.

Definition on_path (p : bytes) (e : DiscoveredEndpoint) : bool := ep_path e =s p.

Lemma elem_of_group_add e g p es : groups_sorted g ->
  (p, es) ∈ group_add e g <->
  (p <> ep_path e /\ (p, es) ∈ g) \/
  (p = ep_path e /\ ((exists es0, (p, es0) ∈ g /\ es = es0 ++ [e]) \/ (p ∉ g.*1 /\ es = [e]))).
Proof.
  unfold groups_sorted. induction g as [|[q qs] g IH]; cbn [group_add]; intros Hs.
  - rewrite list_elem_of_singleton. split.
    + intros [= -> ->]. right. split; [done|]. right. split; [by intros ?%elem_of_nil|done].
    + intros [[_ H%elem_of_nil]|[-> [(? & H%elem_of_nil & _)|[_ ->]]]]; done.
  - cbn in Hs. apply StronglySorted_inv in Hs as [Hs Hq]. rewrite Forall_forall in Hq. cbn [fmap list_fmap fst].
    assert (Hqg : forall es, (q, es) ∉ g) by (intros es' H%(list_elem_of_fmap_2 fst); by apply Hq in H as [_ []]).
    destruct (q =s ep_path e) eqn:E; [apply eqb_bytes_true in E as ->|apply eqb_bytes_false in E].
    + rewrite !elem_of_cons. split.
      * intros [[= -> ->]|H]; [right; split; [done|]; left; exists qs; by split; [left|]|].
        left. split; [intros ->; by apply Hqg in H|by right].
      * intros [[H1 [H2|H2]]|[-> [(es0 & [H|H]%elem_of_cons & ->)|[H _]]]].
        -- congruence.
        -- by right.
        -- left. congruence.
        -- by apply Hqg in H.
        -- destruct H. by left.
    + destruct (bytes_le q (ep_path e)) eqn:El.
      * rewrite !elem_of_cons, IH by done. split.
        -- intros [H|[[H1 H2]|[H1 H2]]].
           ++ injection H as -> ->. left. split; [done|by left].
           ++ left. split; [done|by right].
           ++ right. split; [done|]. destruct H2 as [(es0 & H2 & Hes)|[H2 Hes]]; subst es.
              ** left. exists es0. by split; [right|].
              ** right. split; [|done]. intros [H3|H3]; [congruence|done].
        -- intros [[H1 [H2|H2]]|[H1 [(es0 & [H2|H2]%elem_of_cons & ->)|[H2 ->]]]].
           ++ by left.
           ++ right; left. done.
           ++ congruence.
           ++ right; right. split; [done|]. left. by exists es0.
           ++ right; right. split; [done|]. right. split; [|done]. intros H3. apply H2. by right.
      * assert (Hno : ep_path e ∉ q :: g.*1).
        { intros [H|H]%elem_of_cons; [congruence|]. apply Hq in H as [H _]. unfold key_order in H. congruence. }
        rewrite elem_of_cons. split.
        -- intros [H|H]; [injection H as -> ->; right; split; [done|]; right; split; [exact Hno|done]|].
           left. split; [|exact H]. intros Ep. apply Hno. rewrite <- Ep. by apply (list_elem_of_fmap_2 fst ((q, qs) :: g)) in H.
        -- intros [[H1 H2]|[-> [(es0 & H & _)|[_ ->]]]]; [by right| |by left].
           destruct Hno. by apply (list_elem_of_fmap_2 fst ((q, qs) :: g)) in H.
Qed.

(** The groups are the endpoints of each path, in their order. *)
Lemma group_by_path_spec l : groups_sorted (group_by_path l) /\
  forall p es, (p, es) ∈ group_by_path l <-> es = List.filter (on_path p) l /\ es <> [].
Proof.
  unfold group_by_path. induction l as [|e l [IH1 IH2]] using rev_ind.
  - split; [constructor|]. intros p es. cbn. split; [by intros ?%elem_of_nil|by intros [-> []]].
  - rewrite foldl_app. cbn [foldl]. set (g := foldl _ _ _) in *. split; [by apply group_add_sorted|]. intros p es.
    rewrite (elem_of_group_add e g p es IH1), List.filter_app. cbn [List.filter]. unfold on_path at 2.
    destruct (decide (p = ep_path e)) as [->|Hne].
    + rewrite eqb_bytes_refl. split.
      * intros [[H _]|[_ [(es0 & [-> _]%IH2 & ->)|[H ->]]]]; [done|split; [done|by destruct (List.filter _ l)]|].
        destruct (List.filter (on_path (ep_path e)) l) as [|x es0] eqn:E; [done|]. destruct H.
        apply (list_elem_of_fmap_2 fst _ (ep_path e, x :: es0)). by apply IH2.
      * intros [-> _]. right. split; [done|]. destruct (List.filter (on_path (ep_path e)) l) as [|x es0] eqn:E.
        -- right. split; [|done]. intros ([p es0] & Hp & [Hes Hn]%IH2)%list_elem_of_fmap. cbn in Hp. subst p. congruence.
        -- left. exists (x :: es0). split; [|done]. by apply IH2.
    + rewrite (proj2 (eqb_bytes_false _ _)), app_nil_r by congruence. rewrite IH2. naive_solver.
Qed.

Lemma document_lines_one l : on_one_line (openapi_version options) -> Forall (fun e => on_one_line (ep_method e)) l ->
  Forall on_one_line (document_lines options policy l).
Proof.
  intros Hv Hl. unfold document_lines. apply Forall_app. split; [unfold header_lines; one_line|].
  assert (Hg : Forall (Forall on_one_line) (map (path_lines options policy) (group_by_path l))).
  { apply Forall_fmap, Forall_forall. intros [p es] [-> _]%group_by_path_spec. unfold compose, path_lines. cbn [fst snd].
    constructor; [auto 8 with lines|]. apply Forall_join, Forall_fmap, Forall_forall. intros e He. apply endpoint_lines_one.
    rewrite Forall_forall in Hl. apply list_elem_of_In, filter_In in He as [He _]. by apply Hl, list_elem_of_In. }
  destruct (group_by_path l) as [|g gs]; [one_line|]. constructor; [auto with lines|]. by apply Forall_join.
Qed.

End Yaml.

(** The printed document has exactly the lines of its endpoints: no text of a page or a
    script can add a line or leave its quotes, and a reader of YAML gets every quoted text
    back, except that a line end is shown as two characters; the paths are in strictly
    increasing order, each with its endpoints in the order of the report. *)
Theorem openapi_lines `{C : Confidences} `{!ConfidenceLaws C} react x document r :
  extractor_ok x -> (extract react x document).2 = Ret r -> on_one_line (openapi_version (options_ x)) ->
  split_on newline [] (openapi_yaml r) = document_lines (options_ x) defaults (endpoints r) ++ [[]] /\
  groups_sorted (group_by_path (endpoints r)) /\
  (forall p es, (p, es) ∈ group_by_path (endpoints r) <->
     es = List.filter (on_path p) (endpoints r) /\ es <> []) /\
  forall v k, head_is (fun c => negb (c =c "'")) k = true ->
    exists s, yaml_quote v ++ k = "'"%char :: s /\ read_scalar s = Some (mjoin (newline_shown <$> v), k).
Proof.
  intros Hx (st & Hst & Hp & _ & _ & ->)%extract_report Hv. cbv zeta in *.
  destruct (found_ok x document st Hx Hst) as (_ & Hok & _). split_and!; [|apply group_by_path_spec..|apply read_scalar_quote].
  apply split_lines, document_lines_one; [done|]. apply Forall_forall. intros e He. rewrite Hp in He.
  apply list_elem_of_fmap in He as (e' & -> & He'). apply list_elem_of_In, filter_In in He' as [He' _].
  rewrite Forall_forall in Hok. destruct (Hok e') as (Hm & _); [by apply list_elem_of_In|].
  cbn [sort_parameters ep_method]. apply http_method_none; [by intros c ->%eqc_true|done].
Qed.

(** ** Witnesses *)

Definition quiet (h : nat) (ev : Event) (d : EventDispatcher) : Event * EventDispatcher * option ErrorCode := (ev, d, None).

Definition shop_endpoint_document : Document :=
  match parse_html shop_page (lit "http://h/") [] with Ret doc => doc | Throw _ => sample_document end.

Definition shop_result : EndpointExtractionResult :=
  match (extract quiet (new_extractor default_options) shop_endpoint_document).2 with
  | Ret r => r
  | Throw _ => {| openapi_yaml := []; endpoints := []; warnings := [] |}
  end.

Lemma shop_extract : (extract quiet (new_extractor default_options) shop_endpoint_document).2 = Ret shop_result.
Proof. vm_compute. reflexivity. Qed.

Lemma extract_sound_witness :
  extractor_ok (new_extractor default_options) /\ length (endpoints shop_result) = 2 /\
  StronglySorted (fun a b => endpoint_order a b /\ (ep_path a, ep_method a) <> (ep_path b, ep_method b)) (endpoints shop_result).
Proof.
  split; [apply new_extractor_ok|]. split; [vm_compute; reflexivity|].
  exact (proj1 (extract_sound quiet _ _ _ (new_extractor_ok default_options) shop_extract)).
Defined.

(** The form of the page. *)
Definition shop_form : DiscoveredEndpoint :=
  match (base ← base_url shop_endpoint_document; fs ← forms shop_endpoint_document; form_endpoints shop_endpoint_document base fs) with
  | Ret (e :: _) => e
  | _ => observed_endpoint [] [] 0 []
  end.

Lemma shop_form_seen : sighting (new_extractor default_options) shop_endpoint_document shop_form.
Proof.
  destruct (base_url shop_endpoint_document) as [base|] eqn:Eb; [|by vm_compute in Eb].
  destruct (forms shop_endpoint_document) as [fs|] eqn:Ef; [|by vm_compute in Ef].
  destruct fs as [|f fs']; [by vm_compute in Ef|].
  apply (SightForm _ _ base (f :: fs') f); [done|done|by left|].
  vm_compute in Eb. injection Eb as <-. vm_compute in Ef. injection Ef as <- <-. vm_compute. reflexivity.
Qed.

Lemma extract_complete_witness :
  exists e, e ∈ endpoints shop_result /\ ep_method e = lit "post" /\ ep_path e = lit "/buy".
Proof.
  assert (Hc : lower (ep_confidence shop_form) (minimum_confidence (options_ (new_extractor default_options))) = false)
    by (vm_compute; reflexivity).
  destruct (extract_complete quiet _ _ _ shop_form (new_extractor_ok default_options) shop_extract shop_form_seen Hc)
    as (e & H1 & H2 & H3 & _).
  exists e. split; [exact H1|]. split; [rewrite H2|rewrite H3]; vm_compute; reflexivity.
Defined.

Lemma openapi_lines_witness :
  length (split_on newline [] (openapi_yaml shop_result)) = S (length (document_lines default_options defaults (endpoints shop_result))).
Proof.
  assert (Hv : on_one_line (openapi_version (options_ (new_extractor default_options)))) by (vm_compute; reflexivity).
  rewrite (proj1 (openapi_lines quiet _ _ _ (new_extractor_ok default_options) shop_extract Hv)).
  rewrite length_app. cbn [length]. rewrite Nat.add_1_r. reflexivity.
Defined.

(** With all paths asked for, a resource of the page is not reported when a script has named
    its path in a quoted literal before: the literal takes its place, and is then too
    uncertain for the report. *)
Example literal_hides_resource :
  let options := {| follow_links := true; inspect_scripts := true; observe_network := true; infer_schemas := true;
                    include_provenance := true; redact_secrets := true; max_depth := 2; max_pages := 100;
                    minimum_confidence := 50%N; openapi_version := lit "3.1.0"; scrape_all_paths := true |} in
  let run x := doc ← parse_html (lit "<img src=/logo.png>") (lit "http://h/") []; (extract quiet x doc).2 in
  let x := new_extractor options in
  let y := observe_script (fun _ => []) (lit "http://h/s.js") (lit "a='/logo.png'") x in
  (r ← run x; Ret (map summary (endpoints r))) = Ret [("get", "/logo.png", "resource-url", 55, [])]%N%string /\
  (r ← run y; Ret (endpoints r, map String.string_of_list_ascii (warnings r))) =
    Ret ([], ["skipped low-confidence endpoint /logo.png (0.30)"])%string.
Proof. split; vm_compute; reflexivity. Qed.
