(* ===== verification/Wire.v ===== *)
(** * Connections and responses: [src/core/network_client.cpp]

    [SocketConnection], the loops that write and read, and [read_response] with the three
    ways a body is framed.  What the network does is part of the state: the segments that
    arrive, how the stream ends, how much each write takes, and how each TLS handshake ends.
    The kernel and OpenSSL are seen through these answers only. *)
From S2P Require Import Prelude Url Proxy Message.

(** ** Connections *)

(** How the incoming bytes end: the peer closed, nothing more came in time, the connection
    failed, or the deadline of the connection (if it has one) was over. *)
Inductive Ending := Closed | Stalled | Broken | Expired.

Record Feed := { segments : list bytes; ending : Ending }.

(** What one call of [send] or [SSL_write_ex] does. *)
Inductive WriteOutcome := Accept (n : nat) | WriteStalled | WriteBroken | WriteExpired.

(** What leaves the process, the newest first. *)
Inductive WireEvent := Sent (data : bytes) | Handshake (host : bytes).

Record Connection := {
  feed : Feed;
  writes : list WriteOutcome;
  handshakes : list (result Feed);
  tls : bool;
  deadline_set : bool;
  wire : list WireEvent }.

Definition with_feed (f : Feed) (c : Connection) : Connection :=
  {| feed := f; writes := writes c; handshakes := handshakes c; tls := tls c; deadline_set := deadline_set c; wire := wire c |}.
Definition with_writes (w : list WriteOutcome) (e : list WireEvent) (c : Connection) : Connection :=
  {| feed := feed c; writes := w; handshakes := handshakes c; tls := tls c; deadline_set := deadline_set c; wire := e |}.

(** Bytes that leave one after the other are one event. *)
Definition push_sent (data : bytes) (w : list WireEvent) : list WireEvent :=
  match data, w with
  | [], _ => w
  | _, Sent d :: w' => Sent (d ++ data) :: w'
  | _, _ => Sent data :: w
  end.

Abbreviation io := (op Connection).

(** [deadline]. *)
Definition deadline : io unit := fun c =>
  (Ret tt, {| feed := feed c; writes := writes c; handshakes := handshakes c; tls := tls c; deadline_set := true; wire := wire c |}).

(** [enable_tls]: the handshake goes over the stream there is; when the library accepts the
    peer for this host, what arrives afterwards is another stream. *)
Definition enable_tls (host : bytes) : io unit := fun c =>
  let '(r, later) := match handshakes c with r :: later => (r, later) | [] => (Throw NetworkError, []) end in
  match r with
  | Ret f => (Ret tt, {| feed := f; writes := writes c; handshakes := later; tls := true; deadline_set := deadline_set c;
                         wire := Handshake host :: wire c |})
  | Throw e => (Throw e, {| feed := feed c; writes := writes c; handshakes := later; tls := tls c; deadline_set := deadline_set c;
                            wire := Handshake host :: wire c |})
  end.

(** The answer of [read]: bytes ([Data []] is zero), or a negative number, with [errno]
    [EAGAIN] or another one. *)
Inductive Received := Data (b : bytes) | Again | Failure.

Fixpoint next_segment (l : list bytes) : option (bytes * list bytes) :=
  match l with
  | [] => None
  | [] :: l' => next_segment l'
  | s :: l' => Some (s, l')
  end.

Definition read (size : nat) : io Received := fun c =>
  match next_segment (segments (feed c)) with
  | Some (s, l) =>
      (Ret (Data (take size s)),
       with_feed {| segments := if nonempty (drop size s) then drop size s :: l else l; ending := ending (feed c) |} c)
  | None =>
      (match ending (feed c) with
       | Closed => Ret (Data [])
       | Stalled => if tls c then Throw Timeout else Ret Again
       | Broken => if tls c then Throw NetworkError else Ret Failure
       | Expired => if deadline_set c || tls c then Throw Timeout else Ret Again
       end, c)
  end.

Inductive Written := Wrote (n : nat) | WriteAgain | WriteFailure.

Definition write (data : bytes) : io Written := fun c =>
  let '(o, later) := match writes c with o :: later => (o, later) | [] => (Accept (length data), []) end in
  match o with
  | Accept n => (Ret (Wrote (min n (length data))), with_writes later (push_sent (take n data) (wire c)) c)
  | WriteStalled => (if tls c then Throw Timeout else Ret WriteAgain, with_writes later (wire c) c)
  | WriteBroken => (if tls c then Throw NetworkError else Ret WriteFailure, with_writes later (wire c) c)
  | WriteExpired => (if deadline_set c || tls c then Throw Timeout else Ret WriteAgain, with_writes later (wire c) c)
  end.

(** The loop of [write_all], of [SocketWebSocket::frame] and of [send]; [stalled] is the
    error for a write that would block. *)
Fixpoint write_loop (fuel : nat) (stalled : ErrorCode) (data : bytes) : io unit :=
  match data, fuel with
  | [], _ => mret tt
  | _, O => throw_op Internal
  | _, S fuel' =>
      w ← write data;
      match w with
      | Wrote (S n) => write_loop fuel' stalled (drop (S n) data)
      | WriteAgain => throw_op stalled
      | _ => throw_op NetworkError
      end
  end.

Definition write_all (payload : bytes) : io unit := write_loop (length payload) NetworkError payload.

(** ** Reading a response *)

(** [raw.find(needle, offset)], a [std::size_t]. *)
Definition find_at (needle raw : bytes) (offset : N) : option N :=
  if (offset <=? N.of_nat (length raw))%N
  then (fun n => offset + N.of_nat n)%N <$> find_sub needle (drop (N.to_nat offset) raw)
  else None.

(** Addition of [std::size_t]. *)
Definition size_add (a b : N) : N := ((a + b) mod 2 ^ 64)%N.

Definition recv_more (raw : bytes) : io (bool * bytes) :=
  n ← read 8192;
  match n with
  | Again => throw_op Timeout
  | Failure | Data [] => mret (false, raw)
  | Data b => mret (true, raw ++ b)
  end.

(** The bytes that are still to come bound the number of reads. *)
Definition pending (c : Connection) : nat := length (mjoin (segments (feed c))).

Fixpoint fill_loop (fuel : nat) (raw : bytes) (offset : N) (needle : bytes) : io (bool * bytes) :=
  match find_at needle raw offset, fuel with
  | Some _, _ => mret (true, raw)
  | None, O => throw_op Internal
  | None, S fuel' =>
      '(more, raw) ← recv_more raw;
      if more : bool then fill_loop fuel' raw offset needle else mret (false, raw)
  end.

Definition fill_until (raw : bytes) (offset : N) (needle : bytes) : io (bool * bytes) :=
  fun c => fill_loop (S (pending c)) raw offset needle c.

(** [raw.substr(offset, count)], at an offset inside the string. *)
Definition slice (raw : bytes) (offset count : N) : bytes :=
  if (N.of_nat (length raw) <=? count)%N then drop (N.to_nat offset) raw
  else take (N.to_nat count) (drop (N.to_nat offset) raw).

(** The digits of [std::strtoul], behind white space, a sign and, in base 16, a prefix. *)
Definition digit_in (base : N) (c : ascii) : option N :=
  match hex c with Some d => if (d <? base)%N then Some d else None | None => None end.
Definition is_digit_in (base : N) (c : ascii) : bool := bool_decide (is_Some (digit_in base c)).

Definition sign_of (s : bytes) : bool * bytes :=
  match s with
  | c :: s' => if c =c "-" then (true, s') else if c =c "+" then (false, s') else (false, s)
  | [] => (false, s)
  end.

Definition without_prefix (base : N) (s : bytes) : bytes :=
  match s with
  | z :: x :: d :: _ =>
      if (base =? 16)%N && (z =c "0") && ((x =c "x") || (x =c "X")) && is_digit_in 16 d then drop 2 s else s
  | _ => s
  end.

Definition read_digits (base : N) (s : bytes) : N := foldl (fun v c => v * base + default 0 (digit_in base c))%N 0%N s.

(** The sign and the magnitude; [None] when nothing is converted. *)
Definition strto (base : N) (s : bytes) : option (bool * N) :=
  let '(negative, s) := sign_of (skip is_blank s) in
  let digits := span (is_digit_in base) (without_prefix base s) in
  if nonempty digits then Some (negative, read_digits base digits) else None.

Definition strtoul (base : N) (s : bytes) : option N :=
  '(negative, v) ← strto base s;
  Some (if 2 ^ 64 <=? v then 2 ^ 64 - 1 else if negative : bool then (2 ^ 64 - v) mod 2 ^ 64 else v)%N.

(** [std::strtol], which saturates. *)
Definition strtol (s : bytes) : option Z :=
  '(negative, v) ← strto 10 s;
  Some (Z.max (- 2 ^ 63) (Z.min (2 ^ 63 - 1) (if negative : bool then - Z.of_N v else Z.of_N v))).

(** [std::atoi]: the conversion to [int] wraps. *)
Definition atoi (s : bytes) : Z := ((default 0 (strtol s) + 2 ^ 31) mod 2 ^ 32 - 2 ^ 31)%Z.

(** The chunk size of a line, without its extensions. *)
Definition chunk_line (line : bytes) : bytes :=
  trim (match find_if (is_ch ";") line with Some n => take n line | None => line end).

(** [decode_chunked].  Nothing bounds the number of its turns: see [chunked_never_ends]. *)
Fixpoint chunk_loop (fuel : nat) (max_bytes : N) (raw : bytes) (offset : N) (body : bytes) : io bytes :=
  match fuel with
  | O => throw_op Internal
  | S fuel' =>
      '(found, raw) ← fill_until raw offset crlf;
      if negb found then throw_op NetworkError else
      let line_end := default 0%N (find_at crlf raw offset) in
      let line := chunk_line (slice raw offset (line_end - offset)) in
      let offset := size_add line_end 2 in
      if negb (nonempty line) then throw_op NetworkError else
      match strtoul 16 line with
      | None => throw_op NetworkError
      | Some chunk_size =>
          if (chunk_size =? 0)%N then
            '(found, raw) ← fill_until raw offset crlf;
            if found : bool then mret body else throw_op NetworkError
          else if (max_bytes <? size_add (N.of_nat (length body)) chunk_size)%N then throw_op ResourceLimit else
          '(found, raw) ← fill_until raw (size_add offset chunk_size) crlf;
          if negb found then throw_op NetworkError else
          chunk_loop fuel' max_bytes raw (size_add offset (size_add chunk_size 2)) (body ++ slice raw offset chunk_size)
      end
  end.

Definition decode_chunked (fuel : nat) (raw : bytes) (offset : N) (max_bytes : N) : io bytes :=
  chunk_loop fuel max_bytes raw offset [].

(** The header lines behind the status line. *)
Fixpoint line_loop (fuel : nat) (s : bytes) : list bytes :=
  match s, fuel with
  | [], _ | _, O => []
  | _, S fuel' =>
      match find_sub crlf s with
      | None => [s]
      | Some n => take n s :: line_loop fuel' (drop (n + 2) s)
      end
  end.

Definition header_line (line : bytes) : header_list :=
  match find_if (is_ch ":") line with
  | Some colon => [(trim (take colon line), trim (drop (colon + 1) line))]
  | None => []
  end.

Definition parse_headers (s : bytes) : header_list := mjoin (header_line <$> line_loop (length s) s).

Definition status_of (status_line : bytes) : Z :=
  match find_if (is_ch " ") status_line with
  | Some first_space => atoi (drop (first_space + 1) status_line)
  | None => 0
  end.

(** The status and the header fields of the text in front of the empty line. *)
Definition parse_head (head : bytes) : Z * header_list :=
  match find_sub crlf head with
  | Some line_end => (status_of (take line_end head), parse_headers (drop (line_end + 2) head))
  | None => (status_of head, [])
  end.

(** Read until [wanted raw] holds; [false] at the end of the stream. *)
Fixpoint read_while (fuel : nat) (short : bytes -> bool) (raw : bytes) : io (bool * bytes) :=
  if short raw then
    match fuel with
    | O => throw_op Internal
    | S fuel' => '(more, raw) ← recv_more raw; if more : bool then read_while fuel' short raw else mret (false, raw)
    end
  else mret (true, raw).

Definition read_for (short : bytes -> bool) (raw : bytes) : io (bool * bytes) :=
  fun c => read_while (S (pending c)) short raw c.

Definition response_of (p : Z * header_list) (body : bytes) : HttpResponse :=
  {| status := p.1; headers := p.2; body := body; final_url := []; redirect_chain := [] |}.

Definition read_body (fuel : nat) (max_bytes : N) (fields : header_list) (raw : bytes) (body_offset : N) : io bytes :=
  if bool_decide (is_Some (find_sub (lit "chunked") (to_lower (header_of fields (lit "Transfer-Encoding")))))
  then decode_chunked fuel raw body_offset max_bytes
  else
    let content_length := header_of fields (lit "Content-Length") in
    if nonempty content_length then
      let length := default 0%N (strtoul 10 content_length) in
      if (max_bytes <? length)%N then throw_op ResourceLimit else
      '(enough, raw) ← read_for (fun raw => N.of_nat (List.length raw) <? size_add body_offset length)%N raw;
      if enough : bool then mret (slice raw body_offset length) else throw_op NetworkError
    else
      '(_, raw) ← read_for (fun raw => N.of_nat (List.length raw) - body_offset <? max_bytes)%N raw;
      if (max_bytes <? N.of_nat (List.length raw) - body_offset)%N then throw_op ResourceLimit
      else mret (drop (N.to_nat body_offset) raw).

Definition read_response (fuel : nat) (max_bytes : N) : io HttpResponse :=
  '(found, raw) ← fill_until [] 0 (crlf ++ crlf);
  if negb found then throw_op NetworkError else
  let header_end := default 0 (find_sub (crlf ++ crlf) raw) in
  let parsed := parse_head (take header_end raw) in
  body ← read_body fuel max_bytes parsed.2 raw (N.of_nat (header_end + 4));
  mret (response_of parsed body).

(** ** The stream behind the segments *)

Definition incoming (c : Connection) : bytes := mjoin (segments (feed c)).

(** [advanced raw c raw' c']: from [c] to [c'] some of the incoming bytes went from the
    network to the end of [raw], and nothing else happened. *)
Record advanced (raw : bytes) (c : Connection) (raw' : bytes) (c' : Connection) : Prop := {
  adv_stream : raw' ++ incoming c' = raw ++ incoming c;
  adv_prefix : exists got, raw' = raw ++ got;
  adv_rest : with_feed (feed c) c' = c;
  adv_ending : ending (feed c') = ending (feed c) }.

Lemma with_feed_same c : with_feed (feed c) c = c.
Proof. by destruct c. Qed.

Lemma advanced_refl raw c : advanced raw c raw c.
Proof. split; [done|exists []; by rewrite app_nil_r|apply with_feed_same|done]. Qed.

Lemma advanced_trans raw c raw1 c1 raw2 c2 :
  advanced raw c raw1 c1 -> advanced raw1 c1 raw2 c2 -> advanced raw c raw2 c2.
Proof.
  intros [H1 [g1 ->] H3 H4] [K1 [g2 ->] K3 K4]. split; [congruence|exists (g1 ++ g2); by rewrite app_assoc| |congruence].
  rewrite <- H3, <- K3. by destruct c2.
Qed.

Lemma advanced_tls raw c raw' c' : advanced raw c raw' c' -> tls c' = tls c /\ deadline_set c' = deadline_set c /\ wire c' = wire c.
Proof. intros [_ _ H _]. by rewrite <- H. Qed.

Lemma next_segment_join l : match next_segment l with
  | Some (s, l') => s <> [] /\ mjoin l = s ++ mjoin l' | None => mjoin l = [] end.
Proof. induction l as [|[|x s] l IH]; [done| |done]. exact IH. Qed.

(** One read: some bytes, or the end of the stream. *)
Lemma read_spec size c : 0 < size ->
  match read size c with
  | (Ret (Data ((_ :: _) as b)), c') => incoming c = b ++ incoming c' /\ length b <= size /\
      with_feed (feed c) c' = c /\ ending (feed c') = ending (feed c)
  | (Ret (Data []), c') => incoming c = [] /\ c' = c /\ ending (feed c) = Closed
  | (Ret Failure, c') => incoming c = [] /\ c' = c /\ ending (feed c) = Broken /\ tls c = false
  | (Ret Again, c') => incoming c = [] /\ c' = c /\ ending (feed c) <> Closed
  | (Throw e, c') => incoming c = [] /\ c' = c /\ ending (feed c) <> Closed /\ (e = Timeout \/ e = NetworkError)
  end.
Proof.
  intros Hs. unfold read. pose proof (next_segment_join (segments (feed c))) as H.
  destruct (next_segment _) as [[s l]|].
  - destruct H as [Hne Hj]. destruct s as [|x s]; [done|]. destruct size as [|size]; [lia|]. cbn [take].
    split_and!; [|cbn [length]; rewrite length_take; lia|by destruct c|done].
    unfold incoming. cbn [with_feed feed segments]. rewrite Hj. cbn [drop app].
    destruct (drop size s) as [|y t] eqn:E; cbn [nonempty].
    + rewrite take_ge; [done|]. apply (f_equal length) in E. rewrite length_drop in E. cbn in E. lia.
    + rewrite <- E. change (mjoin (drop size s :: l)) with (drop size s ++ mjoin l). by rewrite app_assoc, take_drop.
  - destruct (ending (feed c)) eqn:Ee; destruct (tls c) eqn:Et; repeat case_match; simplify_eq; auto.
Qed.

Lemma recv_more_spec raw c :
  match recv_more raw c with
  | (Ret (true, raw'), c') => advanced raw c raw' c' /\ length (incoming c') < length (incoming c)
  | (Ret (false, raw'), c') => raw' = raw /\ c' = c /\ incoming c = [] /\ (ending (feed c) = Closed \/ ending (feed c) = Broken /\ tls c = false)
  | (Throw e, c') => c' = c /\ incoming c = [] /\ ending (feed c) <> Closed /\ (e = Timeout \/ e = NetworkError)
  end.
Proof.
  unfold recv_more. bind_step. pose proof (read_spec 8192 c ltac:(by apply Nat.ltb_lt)) as H.
  destruct (read 8192 c) as [[[[|x b]| |]|e] c']; cbn [mret op_ret throw_op lift_op]; [naive_solver| |naive_solver..].
  - destruct H as (H1 & _ & H2 & H3). split; [|rewrite H1; cbn; rewrite length_app; lia].
    split; [by rewrite H1, app_assoc|by eexists|done|done].
Qed.

Lemma find_at_app needle raw k offset p : find_at needle raw offset = Some p -> find_at needle (raw ++ k) offset = Some p.
Proof.
  unfold find_at. destruct (N.leb_spec offset (N.of_nat (length raw))) as [H|H]; [|done].
  intros (n & Hn & ->)%fmap_Some. rewrite (proj2 (N.leb_le _ _)) by (rewrite length_app; lia).
  rewrite drop_app_le by lia. by rewrite (find_sub_app _ _ _ _ Hn).
Qed.

Lemma find_at_bound needle raw offset p : find_at needle raw offset = Some p ->
  (offset <= p)%N /\ (p + N.of_nat (length needle) <= N.of_nat (length raw))%N /\
  drop (N.to_nat offset) raw = slice raw offset (p - offset) ++ needle ++ drop (N.to_nat (p + N.of_nat (length needle))) raw.
Proof.
  unfold find_at. destruct (N.leb_spec offset (N.of_nat (length raw))) as [H|H]; [|done].
  intros (n & Hn & ->)%fmap_Some. apply find_sub_Some in Hn as [Hd Hl]. rewrite length_drop in Hl. split_and!; [lia..|].
  unfold slice. rewrite (N.add_comm offset), N.add_sub. destruct (N.leb_spec (N.of_nat (length raw)) (N.of_nat n)).
  - assert (n = length raw) as -> by lia. assert (length needle = 0) by lia. destruct needle; [|done].
    rewrite (drop_ge _ (N.to_nat (_ + _))) by (cbn; lia). by rewrite app_nil_r.
  - rewrite Nat2N.id, Hd at 1. do 2 f_equal. rewrite drop_drop. f_equal. lia.
Qed.

(** Reading until a text appears: it is the first occurrence in the whole stream. *)
Lemma fill_loop_spec fuel raw offset needle c : length (incoming c) < fuel ->
  match fill_loop fuel raw offset needle c with
  | (Ret (true, raw'), c') => advanced raw c raw' c' /\
      exists p, find_at needle raw' offset = Some p /\ find_at needle (raw ++ incoming c) offset = Some p
  | (Ret (false, raw'), c') => advanced raw c raw' c' /\ incoming c' = [] /\ find_at needle (raw ++ incoming c) offset = None
  | (Throw e, c') => advanced raw c (raw ++ incoming c) c' /\ find_at needle (raw ++ incoming c) offset = None /\ (e = Timeout \/ e = NetworkError)
  end.
Proof.
  revert raw c. induction fuel as [|fuel IH]; intros raw c Hf; [lia|]. cbn [fill_loop].
  destruct (find_at needle raw offset) as [p|] eqn:Ep.
  - cbn. split; [apply advanced_refl|]. exists p. split; [done|]. by apply find_at_app.
  - bind_step. pose proof (recv_more_spec raw c) as H. destruct (recv_more raw c) as [[[[] raw1]|e] c1].
    + destruct H as [Ha Hl]. specialize (IH raw1 c1 ltac:(lia)). rewrite (adv_stream _ _ _ _ Ha) in IH.
      destruct (fill_loop fuel raw1 offset needle c1) as [[[[] raw2]|e] c2];
        destruct IH as [IH1 IH2]; (split; [by eapply advanced_trans|done]).
    + destruct H as (-> & -> & Hi & _). cbn. rewrite Hi, app_nil_r. split_and!; [apply advanced_refl|done..].
    + destruct H as (-> & Hi & _ & He). rewrite Hi, app_nil_r. split_and!; [apply advanced_refl|done..].
Qed.

Lemma fill_until_spec raw offset needle c :
  match fill_until raw offset needle c with
  | (Ret (true, raw'), c') => advanced raw c raw' c' /\
      exists p, find_at needle raw' offset = Some p /\ find_at needle (raw ++ incoming c) offset = Some p
  | (Ret (false, raw'), c') => advanced raw c raw' c' /\ incoming c' = [] /\ find_at needle (raw ++ incoming c) offset = None
  | (Throw e, c') => advanced raw c (raw ++ incoming c) c' /\ find_at needle (raw ++ incoming c) offset = None /\ (e = Timeout \/ e = NetworkError)
  end.
Proof. apply fill_loop_spec. unfold pending, incoming. lia. Qed.

(** When the text is in the stream, it is found. *)
Lemma fill_until_found raw offset needle c p : find_at needle (raw ++ incoming c) offset = Some p ->
  exists raw' c', fill_until raw offset needle c = (Ret (true, raw'), c') /\ advanced raw c raw' c' /\ find_at needle raw' offset = Some p.
Proof.
  intros Hp. pose proof (fill_until_spec raw offset needle c) as H.
  destruct (fill_until raw offset needle c) as [[[[] raw']|e] c'].
  - destruct H as (Ha & q & Hq & Hq'). rewrite Hp in Hq'. injection Hq' as ->. by exists raw', c'.
  - destruct H as (_ & _ & H). congruence.
  - destruct H as (_ & H & _). congruence.
Qed.

(** Reading until there are enough bytes, for tests that more bytes can only turn off. *)
Lemma read_while_spec fuel short raw c : length (incoming c) < fuel ->
  match read_while fuel short raw c with
  | (Ret (true, raw'), c') => advanced raw c raw' c' /\ short raw' = false
  | (Ret (false, raw'), c') => advanced raw c raw' c' /\ incoming c' = [] /\ short raw' = true
  | (Throw e, c') => advanced raw c (raw ++ incoming c) c' /\ short (raw ++ incoming c) = true /\
      (ending (feed c) <> Closed) /\ (e = Timeout \/ e = NetworkError)
  end.
Proof.
  revert raw c. induction fuel as [|fuel IH]; intros raw c Hf; [lia|]. cbn [read_while].
  destruct (short raw) eqn:Es; [|cbn; split; [apply advanced_refl|done]].
  bind_step. pose proof (recv_more_spec raw c) as H. destruct (recv_more raw c) as [[[[] raw1]|e] c1].
  - destruct H as [Ha Hl]. specialize (IH raw1 c1 ltac:(lia)). rewrite (adv_stream _ _ _ _ Ha), (adv_ending _ _ _ _ Ha) in IH.
    destruct (read_while fuel short raw1 c1) as [[[[] raw2]|e] c2];
      destruct IH as [IH1 IH2]; (split; [by eapply advanced_trans|done]).
  - destruct H as (-> & -> & Hi & _). cbn. split_and!; [apply advanced_refl|done..].
  - destruct H as (-> & Hi & He). rewrite Hi, app_nil_r. split_and!; [apply advanced_refl|done|apply He..].
Qed.

(** ** Chunked bodies *)

Lemma size_add_exact a b : (a + b < 2 ^ 64)%N -> size_add a b = (a + b)%N.
Proof. intros H. unfold size_add. by apply N.mod_small. Qed.

(** A part of the stream that has been read. *)
Lemma slice_prefix raw rest off a k :
  N.to_nat off + length a <= length raw -> drop (N.to_nat off) (raw ++ rest) = a ++ k ->
  slice raw off (N.of_nat (length a)) = a.
Proof.
  intros Hl Hd. rewrite drop_app_le in Hd by lia.
  assert (Ht : take (length a) (drop (N.to_nat off) raw) = a).
  { apply (f_equal (take (length a))) in Hd. rewrite take_app_length, take_app_le in Hd; [done|]. rewrite length_drop. lia. }
  unfold slice. destruct (N.leb_spec (N.of_nat (length raw)) (N.of_nat (length a))); [|by rewrite Nat2N.id].
  by rewrite take_ge in Ht by (rewrite length_drop; lia).
Qed.

Lemma find_at_intro needle raw off a k :
  N.to_nat off <= length raw -> drop (N.to_nat off) raw = a ++ needle ++ k ->
  find_sub needle (a ++ needle) = Some (length a) -> find_at needle raw off = Some (off + N.of_nat (length a))%N.
Proof.
  intros Hl Hd Hf. unfold find_at. rewrite (proj2 (N.leb_le _ _)) by lia. rewrite Hd, app_assoc.
  by rewrite (find_sub_app _ _ _ _ Hf).
Qed.

(** Reading up to the end of a line of the stream. *)
Lemma fill_line raw off c line k :
  N.to_nat off <= length (raw ++ incoming c) -> drop (N.to_nat off) (raw ++ incoming c) = line ++ crlf ++ k ->
  find_sub crlf (line ++ crlf) = Some (length line) ->
  exists raw' c', fill_until raw off crlf c = (Ret (true, raw'), c') /\ advanced raw c raw' c' /\
    find_at crlf raw' off = Some (off + N.of_nat (length line))%N /\
    N.to_nat off + length line + 2 <= length raw' /\ slice raw' off (N.of_nat (length line)) = line.
Proof.
  intros Hl Hd Hf. pose proof (find_at_intro _ _ _ _ _ Hl Hd Hf) as Hp.
  destruct (fill_until_found _ _ _ _ _ Hp) as (raw' & c' & Hr & Ha & Hq). exists raw', c'.
  pose proof (find_at_bound _ _ _ _ Hq) as (_ & Hb & _). change (length crlf) with 2 in Hb.
  split_and!; [done..|lia|]. apply (slice_prefix raw' (incoming c') off line (crlf ++ k)); [lia|].
  by rewrite (adv_stream _ _ _ _ Ha).
Qed.

(** A chunk as its size line, extensions included, and its data. *)
Definition chunk_text (chunk : bytes * bytes) : bytes := chunk.1 ++ crlf ++ chunk.2 ++ crlf.
Definition chunked_text (chunks : list (bytes * bytes)) (last : bytes) : bytes :=
  mjoin (chunk_text <$> chunks) ++ last ++ crlf ++ crlf.

Definition size_line (line : bytes) (size : N) : Prop :=
  find_sub crlf (line ++ crlf) = Some (length line) /\ nonempty (chunk_line line) = true /\
  strtoul 16 (chunk_line line) = Some size.

Definition chunk_ok (chunk : bytes * bytes) : Prop :=
  size_line chunk.1 (N.of_nat (length chunk.2)) /\ 0 < length chunk.2.

Definition chunk_data (chunks : list (bytes * bytes)) : bytes := mjoin (snd <$> chunks).

Lemma advanced_drop raw c raw' c' off t :
  advanced raw c raw' c' -> drop off (raw ++ incoming c) = t -> drop off (raw' ++ incoming c') = t.
Proof. intros [-> _ _ _]. done. Qed.

Lemma drop_next {A} n m (s a k : list A) : drop n s = a ++ k -> m = n + length a -> drop m s = k.
Proof. intros H ->. by rewrite <- drop_drop, H, drop_app_length. Qed.

Lemma chunk_loop_complete max chunks last extra fuel raw off body c :
  Forall chunk_ok chunks -> size_line last 0 -> length chunks < fuel ->
  drop (N.to_nat off) (raw ++ incoming c) = chunked_text chunks last ++ extra ->
  (N.of_nat (length (raw ++ incoming c)) < 2 ^ 64)%N -> (max < 2 ^ 64)%N ->
  (N.of_nat (length body + length (chunk_data chunks)) <= max)%N -> N.to_nat off <= length (raw ++ incoming c) ->
  exists c', chunk_loop fuel max raw off body c = (Ret (body ++ chunk_data chunks), c').
Proof.
  intros Hc Hlast. revert fuel raw off body c. induction Hc as [|[line piece] chunks Hok Hc IH];
    intros fuel raw off body c Hf Hd HS Hmax Hb Ho; (destruct fuel as [|fuel]; [cbn in Hf; lia|]); cbn [chunk_loop].
  - destruct Hlast as (Hl1 & Hl2 & Hl3). change (chunked_text [] last) with (last ++ crlf ++ crlf) in Hd. rewrite <- !app_assoc in Hd.
    destruct (fill_line raw off c last (crlf ++ extra) Ho Hd Hl1) as (raw1 & c1 & Hr & Ha & Hq & Hlen & Hsl).
    bind_step. rewrite Hr. cbn [negb]. rewrite Hq. cbn [default from_option id]. rewrite (N.add_sub_swap off) by lia. rewrite N.sub_diag, N.add_0_l, Hsl, Hl2. cbn [negb].
    rewrite Hl3. cbn [N.eqb].
    pose proof (adv_stream _ _ _ _ Ha) as HS1. rewrite size_add_exact by (rewrite <- HS1, length_app in HS; lia).
    destruct (fill_line raw1 (off + N.of_nat (length last) + 2) c1 [] extra) as (raw2 & c2 & Hr2 & _).
    + rewrite HS1. rewrite <- HS1, length_app. lia.
    + rewrite HS1. eapply drop_next; [rewrite app_assoc in Hd; exact Hd|]. rewrite length_app. cbn [crlf length]. lia.
    + done.
    + bind_step. rewrite Hr2. cbn. rewrite app_nil_r. by eexists.
  - destruct Hok as [(Hl1 & Hl2 & Hl3) Hp]. cbn [fst snd] in *.
    assert (Hd' : drop (N.to_nat off) (raw ++ incoming c) = line ++ crlf ++ piece ++ crlf ++ chunked_text chunks last ++ extra).
    { rewrite Hd. unfold chunked_text, chunk_text. rewrite mjoin_fmap_cons. cbn [fst snd]. by rewrite <- !app_assoc. }
    destruct (fill_line raw off c line _ Ho Hd' Hl1) as (raw1 & c1 & Hr & Ha & Hq & Hlen & Hsl).
    bind_step. rewrite Hr. cbn [negb]. rewrite Hq. cbn [default from_option id]. rewrite (N.add_sub_swap off) by lia. rewrite N.sub_diag, N.add_0_l, Hsl, Hl2. cbn [negb].
    pose proof (adv_stream _ _ _ _ Ha) as HS1.
    rewrite Hl3. rewrite (proj2 (N.eqb_neq _ _)) by lia. unfold chunk_data in Hb. rewrite fmap_cons in Hb.
    change (mjoin (snd (line, piece) :: (snd <$> chunks))) with (piece ++ chunk_data chunks) in Hb. rewrite length_app in Hb.
    assert (Htot : N.to_nat off + length line + 2 + length piece + 2 <= length (raw ++ incoming c)).
    { apply (f_equal length) in Hd'. rewrite length_drop, !length_app in Hd'. change (length crlf) with 2 in Hd'. rewrite length_app in *. lia. }
    rewrite (size_add_exact (off + N.of_nat (length line)) 2), (size_add_exact (N.of_nat (length piece)) 2), !size_add_exact by lia.
    rewrite (proj2 (N.ltb_ge _ _)) by lia.
    set (off1 := (off + N.of_nat (length line) + 2 + N.of_nat (length piece))%N).
    assert (Hd1 : drop (N.to_nat off1) (raw1 ++ incoming c1) = [] ++ crlf ++ chunked_text chunks last ++ extra).
    { rewrite HS1. eapply drop_next; [rewrite app_assoc, app_assoc in Hd'; exact Hd'|]. rewrite !length_app. change (length crlf) with 2. unfold off1. lia. }
    destruct (fill_line raw1 off1 c1 [] (chunked_text chunks last ++ extra)) as (raw2 & c2 & Hr2 & Ha2 & Hq2 & Hlen2 & _); [rewrite HS1; unfold off1; lia|exact Hd1|done|].
    bind_step. rewrite Hr2. cbn [negb]. pose proof (adv_stream _ _ _ _ Ha2) as HS2. rewrite HS1 in HS2.
    rewrite (slice_prefix raw2 (incoming c2) _ piece (crlf ++ chunked_text chunks last ++ extra)).
    + destruct (IH fuel raw2 (off + N.of_nat (length line) + 2 + (N.of_nat (length piece) + 2))%N (body ++ piece) c2) as [c3 H3].
      * cbn in Hf. lia.
      * rewrite HS2. rewrite HS1 in Hd1. eapply drop_next; [exact Hd1|]. unfold off1. cbn. lia.
      * by rewrite HS2.
      * done.
      * rewrite length_app. lia.
      * rewrite HS2. lia.
      * exists c3. rewrite H3, <- app_assoc. done.
    + unfold off1 in Hlen2. cbn [length] in Hlen2. lia.
    + rewrite HS2. eapply drop_next; [rewrite app_assoc in Hd'; exact Hd'|]. rewrite length_app. change (length crlf) with 2. lia.
Qed.

(** ** Heads *)

Abbreviation no_cr s := (none (is_ch (ascii_of_N 13)) s).

Lemma find_sub_cons pat c s :
  find_sub pat (c :: s) = if starts_with pat (c :: s) then Some 0 else S <$> find_sub pat s.
Proof. done. Qed.

Lemma find_sub_skip pat a s : no_cr a = true ->
  find_sub (ascii_of_N 13 :: pat) (a ++ s) = (fun n => length a + n) <$> find_sub (ascii_of_N 13 :: pat) s.
Proof.
  induction a as [|c a IH]; intros Ha; [cbn [app length Nat.add]; by destruct (find_sub _ s)|]. cbn [forallb] in Ha. split_andb.
  unfold is_ch in H. cbn [app find_sub starts_with]. rewrite Ascii.eqb_sym, H. cbn [andb]. rewrite IH by done. by destruct (find_sub _ s).
Qed.

Lemma find_crlf_line a k : no_cr a = true -> find_sub crlf (a ++ crlf ++ k) = Some (length a).
Proof. intros H. unfold crlf. rewrite find_sub_skip by done. transitivity (Some (length a + 0)); [reflexivity|f_equal; lia]. Qed.

Lemma find_crlf_none a : no_cr a = true -> find_sub crlf a = None.
Proof. intros H. rewrite <- (app_nil_r a). unfold crlf. by rewrite find_sub_skip by done. Qed.

(** Lines, none of which is empty, up to the empty line. *)
Fixpoint lines_text (l : list bytes) : bytes :=
  match l with [] => [] | [x] => x | x :: l' => x ++ crlf ++ lines_text l' end.

Definition line_ok (x : bytes) : Prop := no_cr x = true /\ nonempty x = true.

Lemma lines_text_cons x l : lines_text (x :: l) = x ++ mjoin ((fun y => crlf ++ y) <$> l).
Proof.
  revert x. induction l as [|y l IH]; intros x; [by rewrite app_nil_r|].
  change (lines_text (x :: y :: l)) with (x ++ crlf ++ lines_text (y :: l)). rewrite IH, mjoin_fmap_cons. by rewrite <- !app_assoc.
Qed.

Lemma find_empty_line l k : Forall line_ok l -> l <> [] ->
  find_sub (crlf ++ crlf) (lines_text l ++ crlf ++ crlf ++ k) = Some (length (lines_text l)).
Proof.
  intros Hl. induction Hl as [|x l [Hx _] Hl IH]; [done|]. intros _. unfold crlf in *. cbn [app] in *.
  destruct l as [|y l].
  - cbn [lines_text]. rewrite find_sub_skip by done. transitivity (Some (length x + 0)); [reflexivity|f_equal; lia].
  - specialize (IH ltac:(done)). change (lines_text (x :: y :: l)) with (x ++ crlf ++ lines_text (y :: l)).
    rewrite <- app_assoc, find_sub_skip by done. unfold crlf. cbn [app]. inversion Hl as [|? ? [Hy Hy'] _]; subst.
    destruct y as [|d y]; [done|]. cbn [forallb] in Hy. split_andb. unfold is_ch in H.
    assert (Hd : exists t, lines_text ((d :: y) :: l) = d :: t) by (rewrite lines_text_cons; by eexists).
    destruct Hd as [t Ht]. rewrite Ht in *. cbn [app] in *. rewrite !(find_sub_cons _ (ascii_of_N _)).
    change (starts_with [ascii_of_N 13; ascii_of_N 10; ascii_of_N 13; ascii_of_N 10] (ascii_of_N 13 :: ascii_of_N 10 :: d :: ?r))
      with ((ascii_of_N 13 =c d) && starts_with [ascii_of_N 10] r).
    rewrite (Ascii.eqb_sym _ d), H. cbn [andb].
    change (starts_with [ascii_of_N 13; ascii_of_N 10; ascii_of_N 13; ascii_of_N 10] (ascii_of_N 10 :: ?r)) with false. cbv iota.
    rewrite IH. cbn. f_equal. rewrite length_app. cbn [length]. lia.
Qed.

Lemma line_loop_lines l fuel : Forall line_ok l -> length (lines_text l) <= fuel -> line_loop fuel (lines_text l) = l.
Proof.
  intros Hl. revert fuel. induction Hl as [|x l [Hx Hn] Hl IH]; intros fuel Hf; [by destruct fuel|].
  destruct l as [|y l].
  - cbn [lines_text] in *. destruct x as [|c x]; [done|]. destruct fuel as [|fuel]; [cbn in Hf; lia|]. cbn [line_loop].
    by rewrite find_crlf_none.
  - change (lines_text (x :: y :: l)) with (x ++ crlf ++ lines_text (y :: l)) in *. rewrite !length_app in Hf. change (length crlf) with 2 in Hf.
    destruct fuel as [|fuel]; [lia|]. destruct x as [|c x]; [done|].
    change (line_loop (S fuel) ((c :: x) ++ crlf ++ lines_text (y :: l)))
      with (match find_sub crlf ((c :: x) ++ crlf ++ lines_text (y :: l)) with
            | None => [(c :: x) ++ crlf ++ lines_text (y :: l)]
            | Some n => take n ((c :: x) ++ crlf ++ lines_text (y :: l)) :: line_loop fuel (drop (n + 2) ((c :: x) ++ crlf ++ lines_text (y :: l)))
            end).
    rewrite find_crlf_line by done. rewrite take_app_length, <- drop_drop, drop_app_length. f_equal. apply IH. cbn [length] in Hf. lia.
Qed.

Definition field_text (f : bytes * bytes) : bytes := f.1 ++ lit ": " ++ f.2.

Definition field_ok (f : bytes * bytes) : Prop :=
  no_cr f.1 = true /\ no_cr f.2 = true /\ none (is_ch ":") f.1 = true /\ trim f.1 = f.1 /\ trim f.2 = f.2.

Lemma field_line f : field_ok f -> line_ok (field_text f) /\ header_line (field_text f) = [f].
Proof.
  destruct f as [k v]. intros (Hk & Hv & Hc & Htk & Htv). cbn [fst snd] in *. unfold field_text. cbn [fst snd]. split.
  - split; [by rewrite !none_app, Hk, Hv|]. by destruct k.
  - unfold header_line. change (lit ": " ++ v) with (":"%char :: " "%char :: v). rewrite find_if_mid by done.
    rewrite take_app_length, drop_app_S, Htk. do 2 f_equal. exact Htv.
Qed.

Lemma fields_lines fields : Forall field_ok fields ->
  Forall line_ok (field_text <$> fields) /\ mjoin (header_line <$> (field_text <$> fields)) = fields.
Proof.
  induction 1 as [|f fields Hf H [IH1 IH2]]; [done|]. apply field_line in Hf as [H1 H2]. rewrite !fmap_cons. split; [by constructor|].
  change (mjoin (header_line (field_text f) :: ?l)) with (header_line (field_text f) ++ mjoin l). by rewrite H2, IH2.
Qed.

(** The head of a response as a server prints it. *)
Definition status_text (version : bytes) (status : N) (reason : bytes) : bytes :=
  version ++ lit " " ++ print_N status ++ lit " " ++ reason.

Definition head_text (version : bytes) (status : N) (reason : bytes) (fields : header_list) : bytes :=
  lines_text (status_text version status reason :: (field_text <$> fields)).

Lemma hex_is_digit c : is_digit_in 10 c = is_digit c /\ (is_digit c = true -> default 0%N (digit_in 10 c) = (code c - 48)%N).
Proof. ascii_cases c; vm_compute; done. Qed.

Lemma span_ext p q s : (forall c, p c = q c) -> span p s = span q s.
Proof. intros H. induction s as [|c s IH]; [done|]. cbn. by rewrite H, IH. Qed.

Lemma read_digits_10 s : forallb is_digit s = true -> read_digits 10 s = read_N s.
Proof.
  unfold read_digits, read_N. assert (H : forall v, forallb is_digit s = true ->
    foldl (fun v c => v * 10 + default 0 (digit_in 10 c))%N v s = foldl (fun v c => v * 10 + (code c - 48))%N v s); [|apply H].
  induction s as [|c s IH]; intros v; [done|]. cbn [forallb foldl]. intros H. split_andb.
  destruct (hex_is_digit c) as [_ Hc]. rewrite Hc by done. by apply IH.
Qed.

Lemma strto_digits s k : forallb is_digit s = true -> nonempty s = true -> head_is (fun c => negb (is_digit c)) k = true ->
  strto 10 (s ++ k) = Some (false, read_N s).
Proof.
  intros Hs Hn Hk. unfold strto. destruct s as [|c s]; [done|]. cbn [forallb] in Hs. split_andb.
  assert (Hb : is_blank c = false /\ (c =c "-") = false /\ (c =c "+") = false) by (revert H; clear; by_ascii c).
  destruct Hb as (Hb & Hm & Hp). cbn [app skip]. rewrite Hb. cbn [sign_of]. rewrite Hm, Hp.
  assert (without_prefix 10 (c :: s ++ k) = c :: s ++ k) as -> by (by destruct (s ++ k) as [|? [|? ?]]).
  rewrite (span_ext _ is_digit) by (intros d; apply hex_is_digit). change (c :: s ++ k) with ((c :: s) ++ k).
  rewrite span_app by (cbn; by rewrite H, H0). replace (span is_digit k) with (@nil ascii).
  - rewrite app_nil_r. cbn [nonempty]. rewrite read_digits_10; [done|cbn; by rewrite H, H0].
  - destruct k as [|d k]; [done|]. cbn in Hk |- *. apply negb_true_iff in Hk. by rewrite Hk.
Qed.

Lemma atoi_digits s k : forallb is_digit s = true -> nonempty s = true -> head_is (fun c => negb (is_digit c)) k = true ->
  (read_N s < 2 ^ 31)%N -> atoi (s ++ k) = Z.of_N (read_N s).
Proof.
  intros Hs Hn Hk Hl. unfold atoi, strtol. rewrite strto_digits by done. cbn [mbind option_bind default from_option id].
  rewrite Z.min_r, Z.max_r by lia. rewrite Z.mod_small by lia. lia.
Qed.

Lemma parse_head_text version status reason fields :
  no_cr version = true -> none (is_ch " ") version = true -> no_cr reason = true -> (status < 2 ^ 31)%N -> Forall field_ok fields ->
  parse_head (head_text version status reason fields) = (Z.of_N status, fields).
Proof.
  intros Hv Hv' Hr Hs Hf. destruct (print_N_spec status) as (Hd & Hread & Hne).
  assert (Hcr : no_cr (print_N status) = true) by (eapply none_forallb; [|exact Hd]; intros c; by_ascii c).
  assert (Hl : no_cr (status_text version status reason) = true).
  { unfold status_text. by rewrite !none_app, Hv, Hcr, Hr. }
  assert (Hst : status_of (status_text version status reason) = Z.of_N status).
  { unfold status_of, status_text. change (lit " " ++ ?x) with (" "%char :: x). rewrite find_if_mid by done. rewrite drop_app_S.
    rewrite atoi_digits; [by rewrite Hread|done| |done|by rewrite Hread]. by destruct (print_N status). }
  destruct (fields_lines fields Hf) as [Hlines Hjoin]. unfold parse_head, head_text. rewrite lines_text_cons.
  destruct fields as [|f fields].
  - cbn [fmap list_fmap mjoin list_join]. rewrite app_nil_r, find_crlf_none by done. by rewrite Hst.
  - rewrite fmap_cons, mjoin_fmap_cons, <- app_assoc. rewrite find_crlf_line by done.
    rewrite take_app_length, <- drop_drop, drop_app_length, Hst. f_equal.
    change (drop 2 (crlf ++ ?x)) with x. unfold parse_headers. rewrite <- (lines_text_cons (field_text f)).
    rewrite line_loop_lines; [exact Hjoin|exact Hlines|done].
Qed.

Lemma head_text_ends version status reason fields k :
  no_cr version = true -> no_cr reason = true -> Forall field_ok fields ->
  find_sub (crlf ++ crlf) (head_text version status reason fields ++ crlf ++ crlf ++ k) = Some (length (head_text version status reason fields)).
Proof.
  intros Hv Hr Hf. apply find_empty_line; [|done]. constructor; [|by apply fields_lines].
  assert (Hcr : no_cr (print_N status) = true) by (eapply none_forallb; [|apply print_N_spec]; intros c; by_ascii c).
  unfold status_text. split; [by rewrite !none_app, Hv, Hcr, Hr|]. by destruct version.
Qed.

(** ** Responses *)

Definition is_chunked (fields : header_list) : bool :=
  bool_decide (is_Some (find_sub (lit "chunked") (to_lower (header_of fields (lit "Transfer-Encoding"))))).

(** What follows the head of a message with these fields, for a body: the chunks, the bytes
    of [Content-Length], or everything up to the end of the stream. *)
Inductive framed (fields : header_list) (how : Ending) (body : bytes) : bytes -> Prop :=
  | framed_chunked chunks last extra :
      is_chunked fields = true -> Forall chunk_ok chunks -> size_line last 0 -> body = chunk_data chunks ->
      framed fields how body (chunked_text chunks last ++ extra)
  | framed_sized extra :
      is_chunked fields = false -> strtoul 10 (header_of fields (lit "Content-Length")) = Some (N.of_nat (length body)) ->
      framed fields how body (body ++ extra)
  | framed_close :
      is_chunked fields = false -> header_of fields (lit "Content-Length") = [] -> how = Closed ->
      framed fields how body body.

Lemma read_for_spec short raw c :
  match read_for short raw c with
  | (Ret (true, raw'), c') => advanced raw c raw' c' /\ short raw' = false
  | (Ret (false, raw'), c') => advanced raw c raw' c' /\ incoming c' = [] /\ short raw' = true
  | (Throw e, c') => advanced raw c (raw ++ incoming c) c' /\ short (raw ++ incoming c) = true /\
      (ending (feed c) <> Closed) /\ (e = Timeout \/ e = NetworkError)
  end.
Proof. apply read_while_spec. unfold pending, incoming. lia. Qed.

Lemma chunks_short chunks last extra : Forall chunk_ok chunks -> length chunks < length (chunked_text chunks last ++ extra).
Proof.
  intros H. unfold chunked_text. rewrite !length_app. change (length crlf) with 2.
  enough (length chunks <= length (mjoin (chunk_text <$> chunks))) by lia.
  induction H as [|ch chunks _ _ IH]; [done|]. rewrite mjoin_fmap_cons, length_app. cbn [length]. unfold chunk_text at 1.
  rewrite !length_app. change (length crlf) with 2. lia.
Qed.

Lemma read_body_complete fuel max fields raw off c body text :
  framed fields (ending (feed c)) body text -> drop (N.to_nat off) (raw ++ incoming c) = text -> N.to_nat off <= length raw ->
  (N.of_nat (length (raw ++ incoming c)) < 2 ^ 64)%N -> (max < 2 ^ 64)%N -> (N.of_nat (length body) <= max)%N -> length text <= fuel ->
  exists c', read_body fuel max fields raw off c = (Ret body, c').
Proof.
  intros Hfr Hd Ho HS Hmax Hb Hf. unfold read_body. fold (is_chunked fields). destruct Hfr as [chunks last extra Hch Hok Hlast ->|extra Hch Hcl|Hch Hcl Hend].
  - rewrite Hch. pose proof (chunks_short chunks last extra Hok). apply (chunk_loop_complete max chunks last extra fuel raw off [] c); try done; [lia|].
    rewrite length_app. lia.
  - rewrite Hch. destruct (nonempty (header_of fields (lit "Content-Length"))) eqn:Hne.
    2:{ destruct (header_of fields (lit "Content-Length")); done. }
    rewrite Hcl. cbn [default from_option id]. rewrite (proj2 (N.ltb_ge _ _)) by done. bind_step.
    set (short := fun r => (N.of_nat (length r) <? size_add off (N.of_nat (length body)))%N).
    assert (Hlen : N.to_nat off + length body <= length (raw ++ incoming c)).
    { apply (f_equal length) in Hd. rewrite length_drop, length_app in Hd. rewrite length_app in *. lia. }
    pose proof (read_for_spec short raw c) as H. destruct (read_for short raw c) as [[[[] raw']|e] c'].
    + destruct H as [Ha Hs]. exists c'. cbv iota beta. ret_step. do 2 f_equal. unfold short in Hs.
      rewrite size_add_exact in Hs by lia. apply N.ltb_ge in Hs.
      apply (slice_prefix raw' (incoming c') off body extra); [lia|]. by rewrite (adv_stream _ _ _ _ Ha).
    + destruct H as (Ha & Hi & Hs). exfalso. unfold short in Hs. rewrite size_add_exact in Hs by lia. apply N.ltb_lt in Hs.
      pose proof (adv_stream _ _ _ _ Ha) as E. rewrite Hi, app_nil_r in E. rewrite <- E in Hlen. lia.
    + destruct H as (_ & Hs & _). exfalso. unfold short in Hs. rewrite size_add_exact in Hs by lia. apply N.ltb_lt in Hs. lia.
  - rewrite Hch, Hcl. cbn [nonempty]. bind_step. set (short := fun r => (N.of_nat (length r) - off <? max)%N).
    assert (Hlen : length body = length (raw ++ incoming c) - N.to_nat off).
    { apply (f_equal length) in Hd. rewrite length_drop in Hd. lia. }
    pose proof (read_for_spec short raw c) as H. destruct (read_for short raw c) as [[[b raw']|e] c']; [|by destruct H as (_ & _ & H & _)].
    assert (raw' = raw ++ incoming c) as ->.
    { destruct b; [|destruct H as (Ha & Hi & _); rewrite <- (adv_stream _ _ _ _ Ha), Hi; by rewrite app_nil_r].
      destruct H as [Ha Hs]. unfold short in Hs. apply N.ltb_ge in Hs. pose proof (adv_stream _ _ _ _ Ha) as E.
      destruct (adv_prefix _ _ _ _ Ha) as [got Hg]. apply (f_equal length) in Hg. rewrite length_app in Hg.
      assert (incoming c' = []) as Hi; [|rewrite <- E, Hi; by rewrite app_nil_r].
      apply (f_equal length) in E. rewrite (length_app raw' _) in E. destruct (incoming c'); [done|]. cbn [length] in E. lia. }
    exists c'. cbv iota beta. rewrite (proj2 (N.ltb_ge _ _)) by lia. by rewrite Hd.
Qed.

(** The whole response, however the network cuts it. *)
Lemma read_response_complete_raw fuel max head body text c :
  (forall k, find_sub (crlf ++ crlf) (head ++ crlf ++ crlf ++ k) = Some (length head)) ->
  framed (parse_head head).2 (ending (feed c)) body text -> incoming c = head ++ crlf ++ crlf ++ text ->
  (N.of_nat (length (incoming c)) < 2 ^ 64)%N -> (max < 2 ^ 64)%N -> (N.of_nat (length body) <= max)%N -> length text <= fuel ->
  exists c', read_response fuel max c = (Ret (response_of (parse_head head) body), c').
Proof.
  intros Hh Hfr Hi HS Hmax Hb Hf. unfold read_response.
  assert (Hp : find_at (crlf ++ crlf) ([] ++ incoming c) 0 = Some (0 + N.of_nat (length head))%N).
  { unfold find_at. rewrite (proj2 (N.leb_le _ _)) by (cbn; lia). change (drop (N.to_nat 0) ([] ++ incoming c)) with (incoming c). rewrite Hi, Hh. done. }
  destruct (fill_until_found _ _ _ _ _ Hp) as (raw & c1 & Hr & Ha & Hq). bind_step. rewrite Hr. cbv iota beta. cbn [negb].
  pose proof (find_at_bound _ _ _ _ Hq) as (_ & Hl & _). change (length (crlf ++ crlf)) with 4 in Hl.
  pose proof (adv_stream _ _ _ _ Ha) as HS1. cbn [app] in HS1.
  assert (Hend : find_sub (crlf ++ crlf) raw = Some (length head)).
  { unfold find_at in Hq. change (drop (N.to_nat 0) raw) with raw in Hq. destruct (_ <=? _)%N; [|done].
    destruct (find_sub (crlf ++ crlf) raw); [|done]. cbn in Hq. injection Hq as Hq. f_equal. lia. }
  rewrite Hend. cbn [default from_option id]. assert (take (length head) raw = head) as ->.
  { apply (f_equal (take (length head))) in HS1. rewrite Hi, take_app_length, take_app_le in HS1; [done|lia]. }
  bind_step. destruct (read_body_complete fuel max (parse_head head).2 raw (N.of_nat (length head + 4)) c1 body text) as [c2 ->]; try done.
  - by rewrite (adv_ending _ _ _ _ Ha).
  - rewrite HS1, Hi, Nat2N.id, <- drop_drop, drop_app_length. by destruct text.
  - lia.
  - by rewrite HS1.
  - by eexists.
Qed.

(** *** What a response that is answered can be *)

(** A size line that makes the sum of sizes wrap. *)
Definition hostile (max : N) (stream : bytes) : Prop :=
  exists pre line post n, stream = pre ++ line ++ crlf ++ post /\ strtoul 16 (chunk_line line) = Some n /\ (2 ^ 64 <= max + n)%N.

Lemma length_slice raw off n : (N.of_nat (length (slice raw off n)) <= n)%N.
Proof.
  unfold slice. destruct (N.leb_spec (N.of_nat (length raw)) n); rewrite ?length_take, length_drop; lia.
Qed.

Lemma strtoul_bound base s n : strtoul base s = Some n -> (n < 2 ^ 64)%N.
Proof.
  unfold strtoul. destruct (strto base s) as [[neg v]|]; [|done]. cbn [mbind option_bind]. intros [= <-].
  destruct (N.leb_spec (2 ^ 64) v); [lia|]. destruct neg; [|done]. by apply N.mod_lt.
Qed.

Lemma fill_until_true raw off needle c raw' c' : fill_until raw off needle c = (Ret (true, raw'), c') ->
  advanced raw c raw' c' /\ exists p, find_at needle raw' off = Some p.
Proof.
  intros H. pose proof (fill_until_spec raw off needle c) as Hs. rewrite H in Hs. destruct Hs as (Ha & p & Hp & _). by eauto.
Qed.

Lemma chunk_loop_bounded fuel max raw off body c b c' : (N.of_nat (length body) <= max < 2 ^ 64)%N ->
  chunk_loop fuel max raw off body c = (Ret b, c') -> (N.of_nat (length b) <= max)%N \/ hostile max (raw ++ incoming c).
Proof.
  revert raw off body c. induction fuel as [|fuel IH]; intros raw off body c Hb; cbn [chunk_loop]; [done|].
  rewrite op_bind_Ret. intros ([found raw1] & c1 & H1 & H). destruct found; cbn [negb] in H; [|done].
  apply fill_until_true in H1 as (Ha1 & p & Hp). rewrite Hp in H. cbn [default from_option id] in H.
  pose proof (find_at_bound _ _ _ _ Hp) as (_ & _ & Hd). set (line := slice raw1 off (p - off)) in *.
  destruct (nonempty (chunk_line line)); cbn [negb] in H; [|done].
  destruct (strtoul 16 (chunk_line line)) as [n|] eqn:En; [|done]. pose proof (strtoul_bound _ _ _ En) as Hn.
  destruct (N.eqb_spec n 0).
  { apply op_bind_Ret in H as ([f raw2] & c2 & _ & H). destruct f; [|done]. injection H as <- <-. left. lia. }
  destruct (N.lt_ge_cases (N.of_nat (length body) + n) (2 ^ 64)) as [Hlt|Hge].
  - rewrite size_add_exact in H by done. destruct (N.ltb_spec max (N.of_nat (length body) + n)) as [|Hle]; [done|].
    apply op_bind_Ret in H as ([f raw2] & c2 & H2 & H). destruct f; cbn [negb] in H; [|done].
    apply fill_until_true in H2 as (Ha2 & _). rewrite <- (adv_stream _ _ _ _ Ha1), <- (adv_stream _ _ _ _ Ha2).
    eapply IH; [|exact H]. pose proof (length_slice raw2 (size_add p 2) n). rewrite length_app. lia.
  - right. exists (take (N.to_nat off) raw1), line, (drop (N.to_nat (p + N.of_nat (length crlf))) raw1 ++ incoming c1), n.
    split_and!; [|done|lia]. rewrite <- (adv_stream _ _ _ _ Ha1), <- (take_drop (N.to_nat off) raw1) at 1. rewrite Hd. by rewrite <- !app_assoc.
Qed.

(** The body a response may have, given what follows its head. *)
Definition body_sound (max : N) (fields : header_list) (stream rest body : bytes) : Prop :=
  if is_chunked fields then (N.of_nat (length body) <= max)%N \/ hostile max stream
  else
    let content_length := header_of fields (lit "Content-Length") in
    if nonempty content_length then
      let n := default 0%N (strtoul 10 content_length) in
      (n <= max)%N /\ (n <= N.of_nat (length rest))%N /\ body = take (N.to_nat n) rest
    else (N.of_nat (length body) <= max)%N /\ exists k, rest = body ++ k /\ (k = [] \/ N.of_nat (length body) = max).

Lemma drop_prefix {A} n (raw inc : list A) : n <= length raw -> drop n (raw ++ inc) = drop n raw ++ inc.
Proof. intros H. by apply drop_app_le. Qed.

Lemma read_body_sound fuel max fields raw off c body c' :
  N.to_nat off <= length raw -> (N.of_nat (length (raw ++ incoming c)) + max < 2 ^ 64)%N ->
  read_body fuel max fields raw off c = (Ret body, c') ->
  body_sound max fields (raw ++ incoming c) (drop (N.to_nat off) (raw ++ incoming c)) body.
Proof.
  intros Ho HS. unfold read_body, body_sound. fold (is_chunked fields). destruct (is_chunked fields).
  { intros H. eapply chunk_loop_bounded; [|exact H]. cbn. lia. }
  destruct (nonempty _).
  - set (n := default 0%N _). destruct (N.ltb_spec max n) as [|Hn]; [done|].
    rewrite op_bind_Ret. intros ([enough raw'] & c1 & H1 & H). destruct enough; [|done]. injection H as <- <-.
    pose proof (read_for_spec (fun raw => N.of_nat (length raw) <? size_add off n)%N raw c) as Hr. rewrite H1 in Hr.
    destruct Hr as [Ha Hs]. rewrite size_add_exact in Hs by (rewrite length_app in HS; lia). apply N.ltb_ge in Hs.
    pose proof (adv_stream _ _ _ _ Ha) as E. rewrite <- E, drop_prefix by lia.
    split_and!; [done|rewrite length_app, length_drop; lia|]. rewrite take_app_le by (rewrite length_drop; lia).
    unfold slice. destruct (N.leb_spec (N.of_nat (length raw')) n); [|done]. rewrite take_ge; [done|]. rewrite length_drop. lia.
  - rewrite op_bind_Ret. intros ([enough raw'] & c1 & H1 & H).
    pose proof (read_for_spec (fun raw => N.of_nat (length raw) - off <? max)%N raw c) as Hr. rewrite H1 in Hr.
    destruct (N.ltb_spec max (N.of_nat (length raw') - off)) as [|Hle]; [done|]. injection H as <- <-.
    assert (Ha : advanced raw c raw' c1) by (destruct enough; apply Hr).
    destruct (adv_prefix _ _ _ _ Ha) as [got Hg]. assert (Hl : length raw <= length raw') by (rewrite Hg, length_app; lia).
    rewrite length_drop. split; [lia|]. exists (incoming c1). rewrite <- (adv_stream _ _ _ _ Ha), drop_prefix by lia. split; [done|].
    destruct enough.
    + destruct Hr as [_ Hs]. apply N.ltb_ge in Hs. right. lia.
    + left. apply Hr.
Qed.

(** What [read_response] answers is what arrived: the status and the fields of the text in
    front of the first empty line; of what follows, exactly the [Content-Length] bytes, or,
    without that field, a prefix within the limit that is everything unless the limit is
    reached.  A chunked body is within the limit, unless a size line makes the sum of the
    sizes wrap around. *)
Theorem read_response_sound fuel max c r c' : (N.of_nat (length (incoming c)) + max < 2 ^ 64)%N ->
  read_response fuel max c = (Ret r, c') ->
  exists head rest, incoming c = head ++ crlf ++ crlf ++ rest /\ parse_head head = (status r, headers r) /\
    body_sound max (headers r) (incoming c) rest (body r).
Proof.
  intros HS. unfold read_response. rewrite op_bind_Ret. intros ([found raw] & c1 & H1 & H). destruct found; cbn [negb] in H; [|done].
  apply fill_until_true in H1 as (Ha & p & Hp). pose proof (adv_stream _ _ _ _ Ha) as E. cbn [app] in E.
  unfold find_at in Hp. destruct (_ <=? _)%N; [|done]. change (drop (N.to_nat 0) raw) with raw in Hp.
  destruct (find_sub (crlf ++ crlf) raw) as [n|] eqn:En; [|done]. clear Hp. cbn [default from_option id] in H.
  apply find_sub_Some in En as [Hraw Hl]. change (length (crlf ++ crlf)) with 4 in *.
  apply op_bind_Ret in H as (b & c2 & H & Hr). injection Hr as <- _. exists (take n raw), (drop (n + 4) raw ++ incoming c1).
  split_and!.
  - rewrite <- E, Hraw at 1. by rewrite <- !app_assoc.
  - cbn. by destruct (parse_head (take n raw)).
  - apply read_body_sound in H; [|lia|by rewrite E]. rewrite E in H. rewrite Nat2N.id, <- E, drop_prefix in H by done. by rewrite E in H.
Qed.

(** *** A response that is never finished *)

(** A chunk of six bytes, and then one whose size is minus six: the sum of the sizes is zero,
    the end of the data is found in front of the size line, and the loop reads that line again. *)
Definition backward_chunk : bytes := lit "6" ++ crlf ++ lit "abcdef" ++ crlf ++ lit "-6" ++ crlf.

Definition after_first_chunk : Connection :=
  {| feed := {| segments := []; ending := Closed |}; writes := []; handshakes := []; tls := false; deadline_set := false; wire := [] |}.

Definition endless_text : bytes :=
  lit "HTTP/1.1 200 OK" ++ crlf ++ lit "Transfer-Encoding: chunked" ++ crlf ++ crlf ++ backward_chunk.

Definition plain_connection (l : list bytes) (e : Ending) : Connection :=
  {| feed := {| segments := l; ending := e |}; writes := []; handshakes := []; tls := false; deadline_set := false; wire := [] |}.

Lemma chunk_loop_turns fuel :
  fst (chunk_loop fuel 1000 endless_text 58 (lit "abcdef") (plain_connection [] Closed)) = Throw Internal.
Proof.
  induction fuel as [|fuel IH]; [done|].
  assert (H : chunk_loop (S fuel) 1000 endless_text 58 (lit "abcdef") (plain_connection [] Closed) =
    chunk_loop fuel 1000 endless_text 58 (lit "abcdef") (plain_connection [] Closed)) by reflexivity. by rewrite H.
Qed.

(** C21: on the response [endless_text] the loop of [decode_chunked] never comes to an end, for
    no number of turns: it goes back to the same size line each time, and reads nothing. *)
Theorem chunked_never_ends fuel : fst (read_response fuel 1000 (plain_connection [endless_text] Closed)) = Throw Internal.
Proof.
  destruct fuel as [|fuel]; [vm_compute; done|].
  assert (H : read_response (S fuel) 1000 (plain_connection [endless_text] Closed) =
    match chunk_loop fuel 1000 endless_text 58 (lit "abcdef") (plain_connection [] Closed) with
    | (Ret b, c') => (Ret (response_of (parse_head (take 43 endless_text)) b), c') | (Throw e, c') => (Throw e, c') end) by reflexivity.
  rewrite H. generalize (chunk_loop_turns fuel). generalize (chunk_loop fuel 1000 endless_text 58 (lit "abcdef") (plain_connection [] Closed)).
  intros [[b|e] c'] Hl; [discriminate Hl|]. cbn [fst] in *. by injection Hl as ->.
Qed.

(** C20: reading a response gives back what a server sent, for every way the network cuts the
    bytes into segments: the status, the fields in order, and the body, be it chunked (with
    any size lines, extensions included), of the announced length, or ended by closing. *)
Theorem response_roundtrip version status reason fields body text fuel max c :
  no_cr version = true -> none (is_ch " ") version = true -> no_cr reason = true -> (status < 2 ^ 31)%N -> Forall field_ok fields ->
  framed fields (ending (feed c)) body text ->
  incoming c = head_text version status reason fields ++ crlf ++ crlf ++ text ->
  (N.of_nat (length (incoming c)) < 2 ^ 64)%N -> (max < 2 ^ 64)%N -> (N.of_nat (length body) <= max)%N -> length text <= fuel ->
  exists c', read_response fuel max c = (Ret (response_of (Z.of_N status, fields) body), c').
Proof.
  intros Hv Hv' Hr Hs Hf Hfr Hi HS Hmax Hb Hfuel. rewrite <- (parse_head_text version status reason fields) by done.
  apply (read_response_complete_raw fuel max _ body text); try done.
  - intros k. by apply head_text_ends.
  - by rewrite parse_head_text.
Qed.

(** A chunked response, cut in the middle of its lines. *)
Definition cut_response : Connection :=
  plain_connection [lit "HTTP/1.1 20"; lit "0 OK" ++ [ascii_of_N 13]; [ascii_of_N 10] ++ lit "Transfer-Encoding: chunked" ++ crlf ++ crlf ++ lit "3;q";
    lit "=1" ++ crlf ++ lit "ab"; lit "c" ++ crlf ++ lit "0" ++ crlf ++ crlf] Stalled.

Lemma response_roundtrip_witness : exists c',
  read_response 20 100 cut_response = (Ret (response_of (200%Z, [(lit "Transfer-Encoding", lit "chunked")]) (lit "abc")), c').
Proof.
  apply (response_roundtrip (lit "HTTP/1.1") 200 (lit "OK") [(lit "Transfer-Encoding", lit "chunked")] (lit "abc")
    (chunked_text [(lit "3;q=1", lit "abc")] (lit "0") ++ []) 20 100 cut_response); try (vm_compute; done).
  - constructor; [vm_compute; done|done].
  - apply framed_chunked; [vm_compute; done| |vm_compute; done|vm_compute; done].
    constructor; [|done]. split; [vm_compute; done|]. apply Nat.ltb_lt. reflexivity.
  - apply Nat.leb_le. reflexivity.
Defined.

Lemma read_response_sound_witness : exists head rest, incoming cut_response = head ++ crlf ++ crlf ++ rest /\
  parse_head head = (200%Z, [(lit "Transfer-Encoding", lit "chunked")]) /\
  body_sound 100 [(lit "Transfer-Encoding", lit "chunked")] (incoming cut_response) rest (lit "abc").
Proof.
  eapply (read_response_sound 20 100 cut_response (response_of (200%Z, [(lit "Transfer-Encoding", lit "chunked")]) (lit "abc"))).
  - vm_compute. done.
  - vm_compute. reflexivity.
Defined.

(** The end of a body that has no length is where the limit is when a read ends there, and an
    error otherwise. *)
Example limit_depends_on_segments :
  let head := lit "HTTP/1.1 200 OK" ++ crlf ++ crlf in
  (fst (read_response 0 3 (plain_connection [head ++ lit "abc"; lit "def"] Closed)) = Ret (response_of (200%Z, []) (lit "abc"))) /\
  (fst (read_response 0 3 (plain_connection [head ++ lit "abcdef"] Closed)) = Throw ResourceLimit).
Proof. vm_compute. done. Qed.
