(* ===== verification/Http.v ===== *)
(** * HTTP requests: [SocketNetworkClient] and [MemoryNetworkClient] of
    [src/core/network_client.cpp]

    The choice of an address, the handshakes with a proxy, the text of a request, and [send].
    What the resolver and [connect] answer is a [Network]; everything after the connection is
    an operation on a [Wire.Connection]. *)
From S2P Require Import Prelude Url Redaction Proxy Message Wire.

(** ** Connecting *)

Inductive Errno := ETIMEDOUT | EINPROGRESS | ECONNREFUSED | OtherErrno.

#[export] Instance Errno_eq_dec : EqDecision Errno.
Proof. solve_decision. Defined.

(** What [poll] answers: ready, with the pending error of the socket; ready, but not for
    writing; no answer in time; an error. *)
Inductive PollResult := Ready (socket_error : option Errno) | NotWritable | PollTimeout | PollFailed.

(** What happens to a candidate of [getaddrinfo]: no socket, connected at once, an error of
    [connect], and behind [EINPROGRESS] the answer of [poll]. *)
Inductive Attempt := NoSocket | Connects | Refused (errno : Errno) | InProgress (p : PollResult).

(** The loop of [open_connection] over the candidates: the index of the one in use. *)
Fixpoint open_loop (bounded : bool) (i : nat) (candidates : list Attempt) (last_error : Errno) : result nat :=
  match candidates with
  | [] => Throw (if decide (last_error = ETIMEDOUT) then Timeout else NetworkError)
  | NoSocket :: l => open_loop bounded (S i) l last_error
  | Connects :: _ => Ret i
  | Refused errno :: l => open_loop bounded (S i) l errno
  | InProgress p :: l =>
      if bounded then
        match p with
        | Ready None => Ret i
        | Ready (Some socket_error) => open_loop bounded (S i) l socket_error
        | PollTimeout => open_loop bounded (S i) l ETIMEDOUT
        | NotWritable | PollFailed => open_loop bounded (S i) l last_error
        end
      else open_loop bounded (S i) l EINPROGRESS
  end.

(** The candidates of a host and a port ([None]: the resolver failed), and the connection to
    each. *)
Record Network := {
  resolve : bytes -> bytes -> option (list Attempt);
  connection : bytes -> bytes -> nat -> Connection }.

Definition open_connection (net : Network) (host port : bytes) (timeout_ms : Z) : result Connection :=
  match resolve net host port with
  | None | Some [] => Throw NetworkError
  | Some candidates =>
      i ← open_loop (0 <? timeout_ms)%Z 0 candidates ECONNREFUSED; Ret (connection net host port i)
  end.

(** ** Handshakes with a proxy *)

(** One byte at a time up to the empty line, at most [limit] bytes. *)
Fixpoint head_loop (fuel : nat) (limit : N) (stalled : ErrorCode) (raw : bytes) : io bytes :=
  if ends_with (crlf ++ crlf) raw then mret raw
  else if (limit <=? N.of_nat (length raw))%N then throw_op ResourceLimit
  else
    match fuel with
    | O => throw_op Internal
    | S fuel' =>
        n ← read 1;
        match n with
        | Data ((_ :: _) as b) => head_loop fuel' limit stalled (raw ++ b)
        | Again => throw_op stalled
        | _ => throw_op NetworkError
        end
    end.

Definition read_head (stalled : ErrorCode) : io bytes := fun c => head_loop (S (pending c)) 65536 stalled [] c.

(** [std::from_chars] into an [int], when all three characters have to be read. *)
Definition three_digits (s : bytes) : option Z :=
  match s with
  | [a; b; c] =>
      if is_digit a && is_digit b && is_digit c then Some (Z.of_N (read_N s))
      else if (a =c "-") && is_digit b && is_digit c then Some (- Z.of_N (read_N [b; c]))%Z
      else None
  | _ => None
  end.

Definition connect_accepted (raw : bytes) : bool :=
  let line := match find_sub crlf raw with Some n => take n raw | None => raw end in
  if (length line <? 12) || negb (starts_with (lit "HTTP/1.1 ") line || starts_with (lit "HTTP/1.0 ") line) ||
     match line !! 12 with Some c => negb (c =c " ") | None => false end
  then false
  else match three_digits (take 3 (drop 9 line)) with
       | Some status => (200 <=? status)%Z && (status <? 300)%Z
       | None => false
       end.

Definition read_proxy_connect : io unit :=
  raw ← read_head Timeout; if connect_accepted raw then mret tt else throw_op NetworkError.

(** [connection.read(buffer, n) != n]. *)
Definition read_exactly (n : nat) : io bytes :=
  r ← read n;
  match r with
  | Data b => if length b =? n then mret b else throw_op NetworkError
  | _ => throw_op NetworkError
  end.

Fixpoint skip_loop (fuel : nat) (skip : nat) : io unit :=
  match skip, fuel with
  | O, _ => mret tt
  | _, O => throw_op Internal
  | _, S fuel' =>
      n ← read (min skip 256);
      match n with
      | Data ((_ :: _) as b) => skip_loop fuel' (skip - length b)
      | _ => throw_op NetworkError
      end
  end.

(** [std::stoi]: its exceptions are not of the class [Error]; here they are [Internal]. *)
Definition stoi (s : bytes) : result Z :=
  match strtol s with
  | Some v => if ((- 2 ^ 31 <=? v) && (v <? 2 ^ 31))%Z then Ret v else Throw Internal
  | None => Throw Internal
  end.

(** [static_cast<char>] of a number. *)
Definition char_of (n : Z) : ascii := ascii_of_N (Z.to_N (n mod 256)).
Definition size_char (s : bytes) : ascii := char_of (Z.of_nat (length s)).

Definition socks_hello (proxy : ProxyConfig) : bytes :=
  if nonempty (username proxy) then map ascii_of_N [5; 2; 0; 2]%N else map ascii_of_N [5; 1; 0]%N.

Definition socks_auth (proxy : ProxyConfig) : bytes :=
  [ascii_of_N 1; size_char (username proxy)] ++ username proxy ++ [size_char (password proxy)] ++ password proxy.

Definition socks_request (host : bytes) (port : Z) : bytes :=
  map ascii_of_N [5; 1; 0; 3]%N ++ [size_char host] ++ host ++
  [char_of (Z.land (Z.shiftr port 8) 255); char_of (Z.land port 255)].

Definition byte_at (b : bytes) (i : nat) : N := default 0%N (code <$> b !! i).

Definition socks5_handshake (proxy : ProxyConfig) (host port : bytes) : io unit :=
  _ ← write_all (socks_hello proxy);
  reply ← read_exactly 2;
  if negb (byte_at reply 0 =? 5)%N || (byte_at reply 1 =? 255)%N then throw_op NetworkError else
  _ ← (if (byte_at reply 1 =? 2)%N then
         _ ← write_all (socks_auth proxy);
         ar ← read_exactly 2;
         if (byte_at ar 1 =? 0)%N then mret tt else throw_op NetworkError
       else mret tt : io unit);
  p ← (lift_op (stoi port) : io Z);
  _ ← write_all (socks_request host p);
  head ← read_exactly 4;
  if negb (byte_at head 1 =? 0)%N then throw_op NetworkError else
  let kind := byte_at head 3 in
  skip ← (if (kind =? 3)%N then n ← read_exactly 1; mret (N.to_nat (byte_at n 0))
          else mret (if (kind =? 1)%N then 4 else if (kind =? 4)%N then 16 else 0)%nat : io nat);
  skip_loop skip skip.

(** ** Requests *)

Definition request_path (u : Url) : bytes :=
  (if nonempty (path u) then path u else lit "/") ++ (if has_query u then lit "?" ++ query u else []).

Definition connect_text (proxy : ProxyConfig) (u : Url) (port : bytes) : bytes :=
  lit "CONNECT " ++ host u ++ lit ":" ++ port ++ lit " HTTP/1.1" ++ crlf ++ lit "Host: " ++ host u ++ lit ":" ++ port ++
  proxy_authorization proxy ++ crlf ++ crlf.

(** A plain request that the proxy forwards. *)
Definition forward_proxy (proxy : ProxyConfig) (u : Url) : bool :=
  enabled proxy && negb (bool_decide (p_scheme proxy = Socks5)) && (scheme u =s lit "http").

Definition is_field (name : string) (f : bytes * bytes) : bool := to_lower f.1 =s lit name.

Definition sent_headers (l : header_list) : header_list :=
  List.filter (fun f => negb (is_field "proxy-authorization" f)) l.

Definition request_payload (proxy : ProxyConfig) (u : Url) (request : HttpRequest) : bytes :=
  let path := (if forward_proxy proxy u then origin u else []) ++ request_path u in
  method request ++ lit " " ++ path ++ lit " HTTP/1.1" ++ crlf ++ lit "Host: " ++ host u ++
  (if nonempty (port u) then lit ":" ++ port u else []) ++
  mjoin ((fun f => crlf ++ f.1 ++ lit ": " ++ f.2) <$> sent_headers (request_headers request)) ++
  (if existsb (is_field "user-agent") (sent_headers (request_headers request)) then []
   else crlf ++ lit "User-Agent: ProwseTk/0.1") ++
  (if forward_proxy proxy u then proxy_authorization proxy else []) ++
  crlf ++ lit "Connection: close" ++ crlf ++
  (if nonempty (request_body request)
   then lit "Content-Length: " ++ print_N (N.of_nat (length (request_body request))) ++ crlf else []) ++
  crlf ++ request_body request.

(** From the open connection to the one that carries the request: TLS to the proxy, the
    handshake with it, TLS to the origin. *)
Definition establish (proxy : ProxyConfig) (u : Url) (port : bytes) : io unit :=
  _ ← (if bool_decide (p_scheme proxy = Https) then enable_tls (p_host proxy) else mret tt : io unit);
  _ ← (if bool_decide (p_scheme proxy = Socks5) then socks5_handshake proxy (host u) port
       else if enabled proxy && (scheme u =s lit "https")
       then _ ← write_all (connect_text proxy u port); read_proxy_connect
       else mret tt : io unit);
  if scheme u =s lit "https" then enable_tls (unbracket_host (host u)) else mret tt.

Definition with_final_url (u : bytes) (r : HttpResponse) : HttpResponse :=
  {| status := status r; headers := headers r; body := body r; final_url := u; redirect_chain := redirect_chain r |}.

Definition exchange (fuel : nat) (proxy : ProxyConfig) (u : Url) (request : HttpRequest) : io HttpResponse :=
  _ ← establish proxy u (default_port u);
  let payload := request_payload proxy u request in
  _ ← write_loop (length payload) Timeout payload;
  response ← read_response fuel (max_response_bytes request);
  mret (with_final_url (request_url request) response).

Section Client.
Context (getenv : bytes -> option bytes) (net : Network).

(** The proxy of the request, of the client, or of the environment. *)
Definition select_proxy (request_proxy client_proxy : ProxyConfig) (url : bytes) : result ProxyConfig :=
  if enabled request_proxy then Ret request_proxy
  else if enabled client_proxy then Ret client_proxy
  else proxy_from_environment getenv url.

Definition connect_to (proxy : ProxyConfig) (u : Url) (timeout_ms : Z) : result Connection :=
  if enabled proxy then open_connection net (p_host proxy) (p_port proxy) timeout_ms
  else open_connection net (unbracket_host (host u)) (default_port u) timeout_ms.

(** [SocketNetworkClient::send]: the response, and the connection as the exchange left it. *)
Definition send (fuel : nat) (client_proxy : ProxyConfig) (request : HttpRequest) : result HttpResponse * option Connection :=
  match (u ← parse_url (request_url request);
         selected ← select_proxy (request_proxy request) client_proxy (request_url request);
         _ ← throw_if (negb ((scheme u =s lit "http") || (scheme u =s lit "https"))) Unsupported;
         c ← connect_to selected u (timeout_ms request);
         Ret (u, selected, c)) with
  | Ret (u, selected, c) => let '(r, c') := exchange fuel selected u request c in (r, Some c')
  | Throw e => (Throw e, None)
  end.

End Client.

(** ** [MemoryNetworkClient] *)

Record MemoryNetworkClient := {
  responses : gmap bytes HttpResponse;
  handler : option (HttpRequest -> result HttpResponse);
  requests : list HttpRequest }.

Definition set_response (url : bytes) (response : HttpResponse) (m : MemoryNetworkClient) : MemoryNetworkClient :=
  {| responses := <[url := response]> (responses m); handler := handler m; requests := requests m |}.

Definition set_handler (h : option (HttpRequest -> result HttpResponse)) (m : MemoryNetworkClient) : MemoryNetworkClient :=
  {| responses := responses m; handler := h; requests := requests m |}.

Definition memory_send (request : HttpRequest) : op MemoryNetworkClient HttpResponse := fun m =>
  let m' := {| responses := responses m; handler := handler m; requests := requests m ++ [request] |} in
  let found := match handler m with
    | Some h => h request
    | None => match responses m !! request_url request with Some r => Ret r | None => Throw NotFound end
    end in
  (response ← found;
   Ret (if nonempty (final_url response) then response else with_final_url (request_url request) response), m').

(** ** What leaves the process *)

Definition emit (w : list WireEvent) (e : WireEvent) : list WireEvent :=
  match e with Sent d => push_sent d w | Handshake _ => e :: w end.

(** [cut plan done]: what was done when the plan was given up somewhere. *)
Inductive cut : list WireEvent -> list WireEvent -> Prop :=
  | cut_nil plan : cut plan []
  | cut_part d n plan : cut (Sent d :: plan) [Sent (take n d)]
  | cut_cons e plan done : cut plan done -> cut (e :: plan) (e :: done).

(** The operation emits one of the plans, or, when it throws, the beginning of one. *)
Definition traces {A} (m : io A) (P : list WireEvent -> Prop) : Prop := forall c r c', m c = (r, c') ->
  exists plan done, P plan /\ cut plan done /\ wire c' = foldl emit (wire c) done /\ (forall a, r = Ret a -> done = plan).

Lemma cut_refl plan : cut plan plan.
Proof. induction plan; constructor; done. Qed.

Lemma cut_app_l p1 p2 d : cut p1 d -> cut (p1 ++ p2) d.
Proof. induction 1; cbn; by constructor. Qed.

Lemma cut_app_r p1 p2 d : cut p2 d -> cut (p1 ++ p2) (p1 ++ d).
Proof. induction p1; cbn; [done|]. intros H. constructor. auto. Qed.

Lemma traces_impl {A} (m : io A) (P Q : list WireEvent -> Prop) : (forall p, P p -> Q p) -> traces m P -> traces m Q.
Proof. intros HPQ H c r c' E. destruct (H c r c' E) as (plan & d & ? & ? & ? & ?). exists plan, d. auto. Qed.

Lemma traces_bind {A B} (m : io A) (k : A -> io B) (P Q : list WireEvent -> Prop) :
  traces m P -> (forall a, traces (k a) Q) -> (exists q, Q q) -> traces (x ← m; k x) (fun p => exists p1 p2, p = p1 ++ p2 /\ P p1 /\ Q p2).
Proof.
  intros Hm Hk [q Hq] c r c'. rewrite op_bind_eq. destruct (m c) as [[a|e] c1] eqn:E; intros H.
  - destruct (Hm _ _ _ E) as (p1 & d1 & HP & _ & Hw1 & Hd1). specialize (Hd1 a eq_refl) as ->.
    destruct (Hk a _ _ _ H) as (p2 & d2 & HQ & Hc2 & Hw2 & Hd2). exists (p1 ++ p2), (p1 ++ d2). split_and!.
    + by exists p1, p2.
    + by apply cut_app_r.
    + by rewrite Hw2, Hw1, foldl_app.
    + intros b Hb. by rewrite (Hd2 b Hb).
  - injection H as <- <-. destruct (Hm _ _ _ E) as (p1 & d1 & HP & Hc1 & Hw1 & _). exists (p1 ++ q), d1. split_and!; [by exists p1, q|by apply cut_app_l|done|done].
Qed.

(** Sequences of operations with a single plan each. *)
Definition follows {A} (m : io A) (plan : list WireEvent) : Prop := traces m (eq plan).

Lemma follows_bind {A B} (m : io A) (k : A -> io B) p1 p2 :
  follows m p1 -> (forall a, follows (k a) p2) -> follows (x ← m; k x) (p1 ++ p2).
Proof.
  intros Hm Hk. eapply traces_impl; [|eapply traces_bind; [exact Hm|exact Hk|by exists p2]].
  intros p (q1 & q2 & -> & <- & <-). done.
Qed.

Lemma silent {A} (m : io A) : (forall c, wire (m c).2 = wire c) -> follows m [].
Proof. intros H c r c' E. exists [], []. specialize (H c). rewrite E in H. cbn in H. split_and!; [done|constructor|done|done]. Qed.

Lemma follows_ret {A} (a : A) : follows (mret a) [].
Proof. by apply silent. Qed.

Lemma follows_throw {A} plan e : follows (throw_op e : io A) plan.
Proof. intros c r c' [= <- <-]. exists plan, []. split_and!; [done|constructor|done|done]. Qed.

Lemma follows_lift {A} (m : result A) : follows (lift_op m) [].
Proof. by apply silent. Qed.

Lemma follows_silent_bind {A B} (m : io A) (k : A -> io B) plan :
  follows m [] -> (forall a, follows (k a) plan) -> follows (x ← m; k x) plan.
Proof. apply follows_bind. Qed.

Create HintDb wire.
#[export] Hint Resolve follows_ret follows_throw follows_lift : wire.

Lemma follows_read n : follows (read n) [].
Proof. apply silent. intros c. unfold read. by repeat case_match. Qed.
#[export] Hint Resolve follows_read : wire.

Lemma push_sent_nil w : push_sent [] w = w.
Proof. by destruct w as [|[] w]. Qed.

Lemma push_sent_app a b w : push_sent (a ++ b) w = push_sent b (push_sent a w).
Proof.
  destruct a as [|x a]; [cbn [app]; by rewrite push_sent_nil|]. destruct b as [|y b]; [rewrite app_nil_r, push_sent_nil; done|].
  destruct w as [|[d|h] w]; cbn; [done| |done]. by rewrite <- app_assoc.
Qed.

Lemma write_spec data c r c' : write data c = (r, c') ->
  match r with
  | Ret (Wrote n) => n <= length data /\ wire c' = push_sent (take n data) (wire c)
  | _ => wire c' = wire c
  end /\ feed c' = feed c /\ handshakes c' = handshakes c /\ tls c' = tls c /\ deadline_set c' = deadline_set c.
Proof.
  unfold write. destruct (match writes c with [] => _ | o :: l => (o, l) end) as [[n| | |] later];
    destruct (tls c) eqn:Et, (deadline_set c) eqn:Ed; cbn [orb]; intros [= <- <-]; cbn; split_and!; try done; try lia.
  all: destruct (Nat.le_ge_cases n (length data)); [by rewrite Nat.min_l by done|]; rewrite Nat.min_r by done; by rewrite !take_ge by lia.
Qed.

(** The loop of [write_all] sends exactly the payload, or a beginning of it. *)
Lemma write_loop_spec fuel stalled data c r c' : length data <= fuel -> write_loop fuel stalled data c = (r, c') ->
  (exists n, wire c' = push_sent (take n data) (wire c) /\ (forall a, r = Ret a -> n = length data)) /\
  feed c' = feed c /\ handshakes c' = handshakes c /\ tls c' = tls c /\ deadline_set c' = deadline_set c /\
  (r <> Throw Internal \/ stalled = Internal).
Proof.
  revert data c. induction fuel as [|fuel IH]; intros data c Hf.
  - destruct data; [|cbn in Hf; lia]. intros [= <- <-]. split_and!; try done; [|by left]. exists 0. by rewrite push_sent_nil.
  - destruct data as [|x data]; [intros [= <- <-]; split_and!; try done; [exists 0; by rewrite push_sent_nil|by left]|].
    cbn [write_loop]. rewrite op_bind_eq. destruct (write (x :: data) c) as [w c1] eqn:E. pose proof (write_spec _ _ _ _ E) as (Hw & Hfe & Hh & Ht & Hd).
    destruct w as [[[|n]| |]|e]; cbv beta iota in Hw |- *.
    + intros [= <- <-]. destruct Hw as [_ Hw]. split_and!; try done; [exists 0; by rewrite Hw|by left].
    + destruct Hw as [Hn Hw]. intros H. apply IH in H as ((m & Hm & Hr) & ? & ? & ? & ? & ?); [|rewrite length_drop; cbn [length] in *; lia].
      split_and!; try congruence. exists (S n + m). rewrite Hm, Hw, <- push_sent_app. split.
      * f_equal. by rewrite take_take_drop.
      * intros a Ha. specialize (Hr a Ha). rewrite Hr, length_drop. lia.
    + intros [= <- <-]. split_and!; try done; [exists 0; by rewrite push_sent_nil|]. destruct (decide (stalled = Internal)); [by right|left; congruence].
    + intros [= <- <-]. split_and!; try done; [exists 0; by rewrite push_sent_nil|by left].
    + intros [= <- <-]. split_and!; try done; [exists 0; by rewrite push_sent_nil|]. left.
      unfold write in E. repeat case_match; simplify_eq; try done; by intros [= ].
Qed.

Lemma follows_write fuel stalled data : length data <= fuel -> follows (write_loop fuel stalled data) [Sent data].
Proof.
  intros Hf c r c' E. destruct (write_loop_spec _ _ _ _ _ _ Hf E) as ((n & Hw & Hr) & _).
  exists [Sent data], [Sent (take n data)]. split_and!; [done|constructor|done|]. intros a Ha. by rewrite (Hr a Ha), take_ge.
Qed.

Lemma follows_write_all data : follows (write_all data) [Sent data].
Proof. by apply follows_write. Qed.

Lemma follows_enable_tls h : follows (enable_tls h) [Handshake h].
Proof.
  intros c r c' E. exists [Handshake h], [Handshake h]. split_and!; [done|by repeat constructor| |done].
  unfold enable_tls in E. repeat case_match; by simplify_eq.
Qed.

Lemma follows_state {A} (f : Connection -> io A) plan : (forall c, follows (f c) plan) -> follows (fun c => f c c) plan.
Proof. intros H c. apply (H c). Qed.

Ltac follow :=
  repeat match goal with
  | |- follows (match ?x with _ => _ end) _ => destruct x
  | |- follows (@mret _ _ _ _) _ => apply follows_ret
  | |- follows (throw_op _) _ => apply follows_throw
  | |- follows (@mbind _ _ _ _ _ _) _ => apply follows_silent_bind; [solve [eauto with wire]|intros ?]
  | |- follows (let _ := _ in _) _ => cbv zeta
  end; try solve [eauto with wire].

Lemma follows_head_loop fuel limit stalled raw : follows (head_loop fuel limit stalled raw) [].
Proof. revert raw. induction fuel as [|fuel IH]; intros raw; cbn [head_loop]; follow. Qed.

Lemma follows_read_head stalled : follows (read_head stalled) [].
Proof. apply (follows_state (fun c => head_loop (S (pending c)) 65536 stalled [])). intros c. apply follows_head_loop. Qed.
#[export] Hint Resolve follows_head_loop follows_read_head : wire.

Lemma follows_read_proxy_connect : follows read_proxy_connect [].
Proof. unfold read_proxy_connect. follow. Qed.

Lemma follows_read_exactly n : follows (read_exactly n) [].
Proof. unfold read_exactly. follow. Qed.
#[export] Hint Resolve follows_read_proxy_connect follows_read_exactly : wire.

Lemma follows_skip_loop fuel n : follows (skip_loop fuel n) [].
Proof. revert n. induction fuel as [|fuel IH]; intros [|n]; cbn [skip_loop]; follow. Qed.

Lemma follows_recv_more raw : follows (recv_more raw) [].
Proof. unfold recv_more. follow. Qed.
#[export] Hint Resolve follows_skip_loop follows_recv_more : wire.

Lemma follows_fill_until raw off needle : follows (fill_until raw off needle) [].
Proof.
  apply (follows_state (fun c => fill_loop (S (pending c)) raw off needle)). intros c. generalize (S (pending c)). clear.
  intros fuel. revert raw. induction fuel as [|fuel IH]; intros raw; cbn [fill_loop]; follow.
Qed.

Lemma follows_read_for short raw : follows (read_for short raw) [].
Proof.
  apply (follows_state (fun c => read_while (S (pending c)) short raw)). intros c. generalize (S (pending c)). clear.
  intros fuel. revert raw. induction fuel as [|fuel IH]; intros raw; cbn [read_while]; follow.
Qed.
#[export] Hint Resolve follows_fill_until follows_read_for : wire.

Lemma follows_chunk_loop fuel max raw off body : follows (chunk_loop fuel max raw off body) [].
Proof. revert raw off body. induction fuel as [|fuel IH]; intros raw off body; cbn [chunk_loop]; follow. Qed.
#[export] Hint Resolve follows_chunk_loop : wire.

Lemma follows_read_body fuel max fields raw off : follows (read_body fuel max fields raw off) [].
Proof. unfold read_body, decode_chunked. follow. Qed.
#[export] Hint Resolve follows_read_body : wire.

Lemma follows_read_response fuel max : follows (read_response fuel max) [].
Proof. unfold read_response. follow. Qed.
#[export] Hint Resolve follows_read_response follows_write_all follows_enable_tls : wire.

Lemma traces_pre {A B} (m : io A) (k : A -> io B) p1 (Q : list WireEvent -> Prop) :
  follows m p1 -> (forall a, traces (k a) Q) -> (exists q, Q q) -> traces (x ← m; k x) (fun p => exists q, p = p1 ++ q /\ Q q).
Proof.
  intros Hm Hk Hq. eapply traces_impl; [|eapply traces_bind; eassumption]. intros p (q1 & q2 & -> & <- & H). by exists q2.
Qed.

Lemma traces_post {A B} (m : io A) (k : A -> io B) (P : list WireEvent -> Prop) p2 :
  traces m P -> (forall a, follows (k a) p2) -> traces (x ← m; k x) (fun p => exists q, p = q ++ p2 /\ P q).
Proof.
  intros Hm Hk. eapply traces_impl; [|eapply traces_bind; [exact Hm|exact Hk|by exists p2]].
  intros p (q1 & q2 & -> & H & <-). by exists q1.
Qed.

Lemma follows_lift_bind {A B} (m : result A) (k : A -> io B) plan :
  (forall a, m = Ret a -> follows (k a) plan) -> follows (x ← lift_op m; k x) plan.
Proof. intros H. destruct m as [a|e]; [exact (H a eq_refl)|exact (follows_throw plan e)]. Qed.

(** The messages of the SOCKS5 handshake; [auth]: the server asked for the credentials. *)
Definition socks_plan (auth : bool) (proxy : ProxyConfig) (host : bytes) (port : bytes) : list WireEvent :=
  [Sent (socks_hello proxy)] ++ (if auth then [Sent (socks_auth proxy)] else []) ++
  [Sent (socks_request host (match stoi port with Ret p => p | Throw _ => 0%Z end))].

Lemma traces_socks5 proxy host port : traces (socks5_handshake proxy host port) (fun p => exists auth, p = socks_plan auth proxy host port).
Proof.
  unfold socks5_handshake. eapply traces_impl; [|eapply (traces_pre _ _ [Sent (socks_hello proxy)] (fun q => exists auth : bool, q = (if auth then [Sent (socks_auth proxy)] else []) ++
    [Sent (socks_request host (match stoi port with Ret p => p | Throw _ => 0%Z end))])); [apply follows_write_all| |]].
  - intros p (q & -> & auth & ->). by exists auth.
  - intros _. eapply traces_impl; [|eapply (traces_pre (read_exactly 2) _ [] (fun q => exists auth : bool, q = (if auth then [Sent (socks_auth proxy)] else []) ++
    [Sent (socks_request host (match stoi port with Ret p => p | Throw _ => 0%Z end))])); [eauto with wire| |]].
    + intros p (q & -> & Hq). cbn [app]. exact Hq.
    + intros reply. case_match.
      { eapply traces_impl; [|apply (follows_throw [Sent (socks_request host (match stoi port with Ret p => p | Throw _ => 0%Z end))])].
        intros p <-. by exists false. }
      eapply traces_impl; [|eapply (traces_post _ _ (fun p => p = [] \/ p = [Sent (socks_auth proxy)]))].
      * intros p (q & -> & [-> | ->]); [by exists false|by exists true].
      * case_match.
        { eapply traces_impl; [|eapply (follows_bind _ _ [Sent (socks_auth proxy)] []); [eauto with wire|intros ?; follow]]. intros p <-. by right. }
        eapply traces_impl; [|apply follows_ret]. intros p <-. by left.
      * intros _. apply follows_lift_bind. intros p ->. apply (follows_bind _ _ [Sent (socks_request host p)] []); [eauto with wire|intros _].
        apply follows_silent_bind; [eauto with wire|intros head]. case_match; [apply follows_throw|]. apply follows_silent_bind; follow.
    + eexists. by exists false.
  - eexists. by exists false.
Qed.

(** ** The exchange *)

Definition establish_plan (auth : bool) (proxy : ProxyConfig) (u : Url) (port : bytes) : list WireEvent :=
  (if bool_decide (p_scheme proxy = Https) then [Handshake (p_host proxy)] else []) ++
  (if bool_decide (p_scheme proxy = Socks5) then socks_plan auth proxy (host u) port
   else if enabled proxy && (scheme u =s lit "https") then [Sent (connect_text proxy u port)] else []) ++
  (if scheme u =s lit "https" then [Handshake (unbracket_host (host u))] else []).

Definition exchange_plan (auth : bool) (proxy : ProxyConfig) (u : Url) (request : HttpRequest) : list WireEvent :=
  establish_plan auth proxy u (default_port u) ++ [Sent (request_payload proxy u request)].

Lemma traces_establish proxy u port : traces (establish proxy u port) (fun p => exists auth, p = establish_plan auth proxy u port).
Proof.
  unfold establish, establish_plan.
  set (last := if scheme u =s lit "https" then [Handshake (unbracket_host (host u))] else []).
  set (mid := fun auth => if bool_decide (p_scheme proxy = Socks5) then socks_plan auth proxy (host u) port
    else if enabled proxy && (scheme u =s lit "https") then [Sent (connect_text proxy u port)] else []).
  eapply traces_impl; [|eapply (traces_pre _ _ (if bool_decide (p_scheme proxy = Https) then [Handshake (p_host proxy)] else [])
    (fun q => exists auth, q = mid auth ++ last)); [| |eexists; by exists false]].
  - intros p (q & -> & auth & ->). by exists auth.
  - case_bool_decide; follow.
  - intros _. eapply traces_impl; [|eapply (traces_post _ _ (fun q => exists auth, q = mid auth))].
    + intros p (q & -> & auth & ->). by exists auth.
    + unfold mid. case_bool_decide; [apply traces_socks5|]. eapply (traces_impl _ (eq _)); [intros p <-; by exists false|].
      destruct (enabled proxy && (scheme u =s lit "https")); [|apply follows_ret].
      apply (follows_bind _ _ [Sent (connect_text proxy u port)] []); [eauto with wire|intros _; eauto with wire].
    + intros _. unfold last. destruct (scheme u =s lit "https"); follow.
Qed.

Lemma traces_exchange fuel proxy u request :
  traces (exchange fuel proxy u request) (fun p => exists auth, p = exchange_plan auth proxy u request).
Proof.
  unfold exchange, exchange_plan. eapply traces_impl; [|eapply (traces_post _ _ (fun q => exists auth, q = establish_plan auth proxy u (default_port u)));
    [apply traces_establish|]].
  - intros p (q & -> & auth & ->). by exists auth.
  - intros _. cbv zeta. apply (follows_bind _ _ [Sent (request_payload proxy u request)] []); [by apply follows_write|intros _]. follow.
Qed.

(** What [send] lets out of the process, on every outcome: the handshakes and messages that
    lead to the origin, in their order, and only then the request, whole when a response is
    answered; when it throws, a beginning of this.  In particular nothing of the request
    leaves before the TLS handshake of an [https] URL. *)
Theorem send_wire getenv net fuel client_proxy request r c' :
  (forall h p i, wire (connection net h p i) = []) ->
  send getenv net fuel client_proxy request = (r, Some c') ->
  exists u proxy auth done,
    parse_url (request_url request) = Ret u /\
    select_proxy getenv (request_proxy request) client_proxy (request_url request) = Ret proxy /\
    cut (exchange_plan auth proxy u request) done /\ wire c' = foldl emit [] done /\
    (forall a, r = Ret a -> done = exchange_plan auth proxy u request).
Proof.
  intros Hfresh. unfold send. destruct (parse_url _) as [u|]; [|done]. cbn [mbind result_bind].
  destruct (select_proxy _ _ _ _) as [proxy|]; [|done]. cbn [mbind result_bind].
  destruct (throw_if _ _); [|done]. cbn [mbind result_bind].
  destruct (connect_to net proxy u (timeout_ms request)) as [c|] eqn:Ec; [|done]. cbn [mbind result_bind].
  assert (Hw : wire c = []).
  { unfold connect_to, open_connection in Ec. by destruct (enabled proxy); repeat case_match; inv_ret. }
  destruct (exchange fuel proxy u request c) as [r1 c1] eqn:E. intros [= <- <-].
  destruct (traces_exchange fuel proxy u request c r1 c1 E) as (plan & d & (auth & ->) & Hcut & Hwire & Hr).
  rewrite Hw in Hwire. by exists u, proxy, auth, d.
Qed.

(** *** The request as a server reads it *)

Definition request_line (proxy : ProxyConfig) (u : Url) (request : HttpRequest) : bytes :=
  method request ++ lit " " ++ ((if forward_proxy proxy u then origin u else []) ++ request_path u) ++ lit " HTTP/1.1".

Definition host_field (u : Url) : bytes := host u ++ (if nonempty (port u) then lit ":" ++ port u else []).

Definition authorization_field (proxy : ProxyConfig) (u : Url) : header_list :=
  if forward_proxy proxy u && nonempty (username proxy)
  then [(lit "Proxy-Authorization", lit "Basic " ++ base64 (username proxy ++ lit ":" ++ password proxy))] else [].

Definition request_fields (proxy : ProxyConfig) (u : Url) (request : HttpRequest) : header_list :=
  [(lit "Host", host_field u)] ++ sent_headers (request_headers request) ++
  (if existsb (is_field "user-agent") (sent_headers (request_headers request)) then [] else [(lit "User-Agent", lit "ProwseTk/0.1")]) ++
  authorization_field proxy u ++ [(lit "Connection", lit "close")] ++
  (if nonempty (request_body request) then [(lit "Content-Length", print_N (N.of_nat (length (request_body request))))] else []).

Definition request_head (proxy : ProxyConfig) (u : Url) (request : HttpRequest) : bytes :=
  lines_text (request_line proxy u request :: (field_text <$> request_fields proxy u request)).

Definition field_line_text (f : bytes * bytes) : bytes := crlf ++ f.1 ++ lit ": " ++ f.2.

Lemma header_lines_text l : mjoin ((fun y => crlf ++ y) <$> (field_text <$> l)) = mjoin (field_line_text <$> l).
Proof. by rewrite <- list_fmap_compose. Qed.

Lemma fields_text_one f : mjoin (field_line_text <$> [f]) = crlf ++ f.1 ++ lit ": " ++ f.2.
Proof. rewrite mjoin_fmap_cons. apply app_nil_r. Qed.

Lemma payload_head proxy u request :
  request_payload proxy u request = request_head proxy u request ++ crlf ++ crlf ++ request_body request.
Proof.
  unfold request_payload, request_head, request_line, request_fields, authorization_field, host_field, proxy_authorization.
  rewrite lines_text_cons, header_lines_text, !mjoin_fmap_app, !fields_text_one. fold field_line_text.
  destruct (existsb _ _), (forward_proxy proxy u), (nonempty (username proxy)), (nonempty (request_body request)); cbn [andb];
    rewrite ?fields_text_one; cbn [fst snd fmap list_fmap mjoin list_join app]; rewrite ?app_nil_r, <- ?app_assoc; reflexivity.
Qed.

Lemma base64_chars n s : length s <= n -> forallb (fun c => is_alnum c || (c =c "+") || (c =c "/") || (c =c "=")) (base64 s) = true.
Proof.
  assert (Hl : forall m, (is_alnum (letter m) || (letter m =c "+") || (letter m =c "/") || (letter m =c "=")) = true).
  { intros m. unfold letter. destruct (alphabet !! N.to_nat m) as [c|] eqn:E; [|done]. cbn [default from_option id].
    assert (Hall : forallb (fun c => is_alnum c || (c =c "+") || (c =c "/") || (c =c "=")) alphabet = true) by (vm_compute; done).
    rewrite forallb_forall in Hall. by apply Hall, list_elem_of_In, (list_elem_of_lookup_2 _ (N.to_nat m)). }
  revert s. induction n as [|n IH]; intros [|a [|b [|c s]]] Hn; cbn [base64 length] in *; try done; try lia;
    cbn [forallb]; rewrite !Hl; cbn [andb]; try done. apply IH. lia.
Qed.

Lemma authorization_ok proxy u : Forall field_ok (authorization_field proxy u).
Proof.
  unfold authorization_field. destruct (_ && _); [|done]. constructor; [|done].
  pose proof (base64_chars _ (username proxy ++ lit ":" ++ password proxy) (le_n _)) as Hb. remember (base64 (username proxy ++ lit ":" ++ password proxy)) as b eqn:Hbe.
  assert (Hblank : none is_blank b = true) by (eapply none_forallb; [|exact Hb]; intros c; by_ascii c).
  split_and!; cbn [fst snd]; try done.
  - rewrite none_app. apply andb_true_intro. split; [done|]. eapply none_forallb; [|exact Hb]. intros c. by_ascii c.
  - unfold trim. change (skip is_blank (lit "Basic " ++ b)) with (lit "Basic " ++ b). apply rstrip_app; [by apply rstrip_none|]. intros ->.
    destruct (username proxy) as [|? [|? [|? ?]]]; discriminate.
Qed.

Lemma sent_headers_spec l f : f ∈ sent_headers l <-> f ∈ l /\ is_field "proxy-authorization" f = false.
Proof. unfold sent_headers. rewrite !list_elem_of_In, filter_In, negb_true_iff. done. Qed.

(** A server that reads the request as [parse_head] and the first empty line say finds
    exactly [request_fields] and the body, when no part of the request holds a carriage return
    or a name with a colon.  A [Proxy-Authorization] field is there only if the request goes
    in the clear to an HTTP proxy; it then holds the credentials of that proxy, whatever the
    caller put among the headers. *)
Theorem request_read proxy u request :
  no_cr (request_line proxy u request) = true -> nonempty (method request) = true ->
  field_ok (lit "Host", host_field u) -> Forall field_ok (request_headers request) ->
  let head := request_head proxy u request in
  request_payload proxy u request = head ++ crlf ++ crlf ++ request_body request /\
  find_sub (crlf ++ crlf) (request_payload proxy u request) = Some (length head) /\
  (parse_head head).2 = request_fields proxy u request /\
  (forall f, f ∈ request_fields proxy u request -> is_field "proxy-authorization" f = true ->
    forward_proxy proxy u = true /\ exists text, f.2 = lit "Basic " ++ text /\
      base64_decode text = Some (username proxy ++ lit ":" ++ password proxy)).
Proof.
  intros Hline Hm Hhost Hhs head.
  assert (Hfields : Forall field_ok (request_fields proxy u request)).
  { unfold request_fields. repeat rewrite Forall_app. split_and!.
    - by constructor.
    - rewrite Forall_forall in *. intros f [Hf _]%sent_headers_spec. by apply Hhs.
    - destruct (existsb _ _); [done|]. constructor; [|done]. split_and!; vm_compute; done.
    - apply authorization_ok.
    - constructor; [|done]. split_and!; vm_compute; done.
    - destruct (nonempty (request_body request)); [|done]. constructor; [|done].
      destruct (print_N_spec (N.of_nat (length (request_body request)))) as (Hd & _).
      split_and!; cbn [fst snd]; try done; [eapply none_forallb; [|exact Hd]; intros c; by_ascii c|].
      apply blank_stripped. eapply none_forallb; [|exact Hd]. intros c. by_ascii c. }
  destruct (fields_lines _ Hfields) as [Hlines Hjoin]. split_and!.
  - apply payload_head.
  - rewrite payload_head. apply find_empty_line; [|done]. constructor; [|done]. split; [done|]. unfold request_line. by destruct (method request).
  - unfold head, request_head. rewrite lines_text_cons. unfold parse_head.
    assert (exists f fs, request_fields proxy u request = f :: fs) as (f & fs & E) by (unfold request_fields; cbn [app]; by eexists _, _).
    rewrite E in *. rewrite fmap_cons in *. rewrite mjoin_fmap_cons, <- app_assoc, find_crlf_line by done. cbn [snd].
    rewrite <- drop_drop, drop_app_length. change (drop 2 (crlf ++ ?x)) with x. unfold parse_headers.
    rewrite <- (lines_text_cons (field_text f)). by rewrite line_loop_lines.
  - intros f Hf Hp. unfold request_fields in Hf. repeat rewrite elem_of_app in Hf.
    destruct Hf as [Hf|[Hf|[Hf|[Hf|[Hf|Hf]]]]].
    + apply list_elem_of_singleton in Hf as ->. discriminate Hp.
    + apply sent_headers_spec in Hf as [_ Hf]. congruence.
    + destruct (existsb _ _); [by apply elem_of_nil in Hf|]. apply list_elem_of_singleton in Hf as ->. discriminate Hp.
    + unfold authorization_field in Hf. destruct (forward_proxy proxy u && _) eqn:E; [|by apply elem_of_nil in Hf].
      apply andb_prop in E as [-> _]. apply list_elem_of_singleton in Hf as ->. split; [done|]. eexists. split; [done|]. by eapply base64_decode_encode.
    + apply list_elem_of_singleton in Hf as ->. discriminate Hp.
    + destruct (nonempty (request_body request)); [|by apply elem_of_nil in Hf]. apply list_elem_of_singleton in Hf as ->. discriminate Hp.
Qed.

(** *** Witnesses: [https] through an HTTP proxy with credentials *)

Definition demo_proxy : ProxyConfig :=
  {| p_scheme := Http; p_host := lit "proxy"; p_port := lit "3128"; username := lit "me"; password := lit "pw" |}.

Definition demo_request : HttpRequest :=
  {| method := lit "POST"; request_url := lit "https://example.org/a?b"; request_headers := [(lit "proxy-authorization", lit "x"); (lit "A", lit "1")];
     request_body := lit "data"; timeout_ms := 1000; max_response_bytes := 100; request_proxy := demo_proxy |}.

Definition demo_network : Network :=
  {| resolve _ _ := Some [Refused ECONNREFUSED; Connects];
     connection _ _ _ :=
       {| feed := {| segments := [lit "HTTP/1.1 200 OK" ++ crlf ++ crlf]; ending := Stalled |}; writes := [Accept 7; Accept 1];
          handshakes := [Ret {| segments := [lit "HTTP/1.1 204 No Content" ++ crlf ++ crlf]; ending := Closed |}];
          tls := false; deadline_set := false; wire := [] |} |}.

Definition demo_sent : Connection :=
  default (plain_connection [] Closed) (send (fun _ => None) demo_network 5 no_proxy_config demo_request).2.

Lemma send_wire_witness : exists u proxy auth done,
  parse_url (request_url demo_request) = Ret u /\
  select_proxy (fun _ => None) demo_proxy no_proxy_config (request_url demo_request) = Ret proxy /\
  cut (exchange_plan auth proxy u demo_request) done /\ wire demo_sent = foldl emit [] done /\
  (forall a, @Ret HttpResponse (with_final_url (request_url demo_request) (response_of (204%Z, []) [])) = Ret a -> done = exchange_plan auth proxy u demo_request).
Proof.
  eapply (send_wire (fun _ => None) demo_network 5 no_proxy_config demo_request); [done|]. vm_compute. reflexivity.
Defined.

Example demo_wire : exists u, parse_url (request_url demo_request) = Ret u /\
  wire demo_sent = [Sent (request_payload demo_proxy u demo_request); Handshake (lit "example.org"); Sent (connect_text demo_proxy u (lit "443"))].
Proof. vm_compute. by eexists. Qed.

Lemma request_read_witness :
  let u := {| scheme := lit "http"; userinfo := []; host := lit "example.org"; port := []; path := lit "/a"; query := []; fragment := [];
              has_authority := true; has_query := false; has_fragment := false |} in
  forward_proxy demo_proxy u = true /\
  let head := request_head demo_proxy u demo_request in
  request_payload demo_proxy u demo_request = head ++ crlf ++ crlf ++ request_body demo_request /\
  find_sub (crlf ++ crlf) (request_payload demo_proxy u demo_request) = Some (length head) /\
  (parse_head head).2 = request_fields demo_proxy u demo_request /\
  (forall f, f ∈ request_fields demo_proxy u demo_request -> is_field "proxy-authorization" f = true ->
    forward_proxy demo_proxy u = true /\ exists text, f.2 = lit "Basic " ++ text /\
      base64_decode text = Some (username demo_proxy ++ lit ":" ++ password demo_proxy)).
Proof.
  intros u. split; [vm_compute; done|]. apply request_read.
  - vm_compute. done.
  - vm_compute. done.
  - split_and!; vm_compute; done.
  - constructor; [|constructor; [|done]]; split_and!; vm_compute; done.
Defined.

(** ** The address in use *)

Definition succeeds (bounded : bool) (a : Attempt) : bool :=
  match a with Connects => true | InProgress (Ready None) => bounded | _ => false end.

(** The error a failed attempt reports. *)
Definition reported (bounded : bool) (a : Attempt) : option Errno :=
  match a with
  | Refused errno => Some errno
  | InProgress p =>
      if bounded then match p with Ready e => e | PollTimeout => Some ETIMEDOUT | _ => None end else Some EINPROGRESS
  | _ => None
  end.

(** [open_connection] takes the first address that answers; when there is none, the error is
    [Timeout] exactly if the last report was a time-out. *)
Lemma open_loop_spec bounded i candidates last_error :
  match open_loop bounded i candidates last_error with
  | Ret j => exists l a l', candidates = l ++ a :: l' /\ j = i + length l /\ succeeds bounded a = true /\
      forallb (fun a => negb (succeeds bounded a)) l = true
  | Throw e => forallb (fun a => negb (succeeds bounded a)) candidates = true /\
      e = if decide (default last_error (last (omap (reported bounded) candidates)) = ETIMEDOUT) then Timeout else NetworkError
  end.
Proof.
  revert i last_error. induction candidates as [|a l IH]; intros i last_error; [done|].
  assert (Hs : forall e', succeeds bounded a = false -> reported bounded a = None /\ e' = last_error \/ reported bounded a = Some e' ->
    match open_loop bounded (S i) l e' with
    | Ret j => exists l0 a0 l', a :: l = l0 ++ a0 :: l' /\ j = i + length l0 /\ succeeds bounded a0 = true /\
        forallb (fun a => negb (succeeds bounded a)) l0 = true
    | Throw e => forallb (fun a => negb (succeeds bounded a)) (a :: l) = true /\
        e = if decide (default last_error (last (omap (reported bounded) (a :: l))) = ETIMEDOUT) then Timeout else NetworkError
    end).
  { intros e' Ha He. specialize (IH (S i) e'). destruct (open_loop bounded (S i) l e') as [j|e].
    - destruct IH as (l0 & a0 & l' & -> & -> & H1 & H2). exists (a :: l0), a0, l'. cbn [length forallb]. rewrite Ha. split_and!; [done|lia|done|done].
    - destruct IH as [H1 ->]. cbn [forallb]. rewrite Ha, H1. split; [done|].
      change (omap (reported bounded) (a :: l)) with
        (match reported bounded a with Some y => y :: omap (reported bounded) l | None => omap (reported bounded) l end).
      destruct He as [[-> ->]| ->]; [done|]. destruct (omap (reported bounded) l) as [|x t]; [done|]. rewrite last_cons_cons.
      destruct (last (x :: t)) eqn:E; [done|]. by apply last_None in E. }
  cbn [open_loop]. destruct a as [| |errno|p]; try (apply Hs; [done|]; solve [by left | by right]).
  - exists [], Connects, l. split_and!; [done|cbn [length]; lia|done|done].
  - destruct bounded, p as [[e|]| | |]; try (apply Hs; [done|]; solve [by left | by right]).
    exists [], (InProgress (Ready None)), l. split_and!; [done|cbn [length]; lia|done|done].
Qed.

(** ** SOCKS5 *)

(** The answer of [CONNECT] ends with the address and the port the proxy is bound to (RFC
    1928, section 6), but the handshake stops behind the address: the two bytes of the port
    stay in the stream, in front of what the origin sends. *)
Lemma socks5_leaves_port (a b c d p1 p2 : ascii) rest :
  let after := socks5_handshake no_proxy_config (lit "origin") (lit "443")
    (plain_connection [map ascii_of_N [5; 0]; map ascii_of_N [5; 0; 0; 1] ++ [a; b; c; d; p1; p2] ++ rest]%N Stalled) in
  after.1 = Ret tt /\ incoming after.2 = p1 :: p2 :: rest.
Proof.
  split; [reflexivity|]. transitivity ((p1 :: p2 :: rest) ++ []); [reflexivity|apply app_nil_r].
Qed.

(** The length of the host is one byte: a longer name is cut by the conversion. *)
Example socks_long_host : let host := replicate 300 "a"%char in
  take 5 (socks_request host 80) = map ascii_of_N [5; 1; 0; 3; 44]%N.
Proof. vm_compute. done. Qed.

(** ** The client of the tests *)

(** A request is recorded whatever happens; the handler takes precedence over the registered
    responses; an answer without a final URL gets the URL of the request. *)
Lemma memory_send_spec request m :
  requests (memory_send request m).2 = requests m ++ [request] /\
  (handler m = None -> responses m !! request_url request = None -> (memory_send request m).1 = Throw NotFound) /\
  (forall r, (memory_send request m).1 = Ret r -> request_url request <> [] -> final_url r <> []).
Proof.
  unfold memory_send. split_and!; [done|intros H1 H2; cbn [fst]; by rewrite H1, H2|].
  cbn [fst]. intros r H Hu. apply bind_Ret in H as (r0 & _ & [= <-]). by destruct (final_url r0) eqn:E; cbn [nonempty]; [|rewrite E].
Qed.
