(* ===== verification/WebSocket.v ===== *)
(** * WebSockets: [SocketWebSocket] and [open_websocket] of [src/core/network_client.cpp]

    The frames of RFC 6455 that the client writes and reads over a [Wire.Connection], the
    message loop, and the opening handshake.  The random generator and the digest of OpenSSL
    and its base64 encoder are parameters. *)
From S2P Require Import Prelude Url Html Json Redaction Proxy Message Wire Http.

(** ** Frames *)

(** The [count] low bytes of a number, the highest first. *)
Fixpoint big_endian (count : nat) (n : N) : bytes :=
  match count with
  | O => []
  | S count' => byte (N.land (N.shiftr n (8 * N.of_nat count')) 255) :: big_endian count' n
  end.

(** [text[i] ^ mask[i % 4]]. *)
Fixpoint masked (mask : bytes) (i : nat) (text : bytes) : bytes :=
  match text with
  | [] => []
  | c :: text' => byte (N.lxor (code c) (byte_at mask (i mod 4))) :: masked mask (S i) text'
  end.

(** The length of the text, behind the bit that says it is masked. *)
Definition length_text (n : N) : bytes :=
  if (n <? 126)%N then [byte (N.lor 128 n)]
  else
    let count := if (n <=? 65535)%N then 2 else 8 in
    byte (N.lor 128 (if count =? 2 then 126 else 127)) :: big_endian count n.

Definition frame_text (opcode : N) (mask text : bytes) : bytes :=
  byte (N.lor 128 opcode) :: length_text (N.of_nat (length text)) ++ mask ++ masked mask 0 text.

(** A WebSocket: its connection and how many times the random generator was used. *)
Record WebSocket := { socket : Connection; drawn : nat; ws_timeout : Z; limit_ : N }.

Definition with_socket (c : Connection) (w : WebSocket) : WebSocket :=
  {| socket := c; drawn := drawn w; ws_timeout := ws_timeout w; limit_ := limit_ w |}.

Definition on_socket {A} (m : io A) : op WebSocket A := fun w =>
  let '(r, c) := m (socket w) in (r, with_socket c w).

(** [SocketWebSocket::read]: exactly [size] bytes. *)
Fixpoint full_loop (fuel size : nat) : io bytes :=
  match size, fuel with
  | O, _ => mret []
  | _, O => throw_op Internal
  | _, S fuel' =>
      n ← read size;
      match n with
      | Data ((_ :: _) as b) => rest ← full_loop fuel' (size - length b); mret (b ++ rest)
      | _ => throw_op NetworkError
      end
  end.

(** A size beyond what is to come ends with the stream, whatever it is. *)
Definition read_full (size : N) : io bytes := fun c =>
  if (N.of_nat (pending c) <? size)%N then full_loop (S (pending c)) (S (pending c)) c
  else full_loop (N.to_nat size) (N.to_nat size) c.

Definition big_endian_value (s : bytes) : N := foldl (fun size b => N.lor (N.shiftl size 8) (code b))%N 0%N s.

Section Socket.
(** [RAND_bytes], by the number of the call and the count of bytes. *)
Context (random_bytes : nat -> nat -> option bytes).

Definition draw (count : nat) : op WebSocket bytes := fun w =>
  (match random_bytes (drawn w) count with Some b => Ret b | None => Throw Internal end,
   {| socket := socket w; drawn := S (drawn w); ws_timeout := ws_timeout w; limit_ := limit_ w |}).

Definition frame (opcode : N) (text : bytes) : op WebSocket unit :=
  mask ← draw 4; on_socket (write_all (frame_text opcode mask text)).

(** [SocketWebSocket::send]. *)
Definition ws_send (text : bytes) : op WebSocket unit := fun w =>
  (_ ← on_socket deadline;
   if (limit_ w <? N.of_nat (length text))%N then throw_op ResourceLimit else
   match validate_utf8 text with
   | Ret _ => frame 1 text
   | Throw _ => throw_op ParseError
   end) w.

(** The size of a frame: the short one, or the two or eight bytes behind it, which may not
    say what fits in a shorter form. *)
Definition read_size (short : N) : io N :=
  if (short =? 126)%N || (short =? 127)%N then
    extended ← read_full (if (short =? 126)%N then 2 else 8);
    let size := big_endian_value extended in
    if (length extended =? 2) && (size <? 126)%N || (length extended =? 8) && ((size <? 65536)%N || negb (N.shiftr size 63 =? 0)%N)
    then throw_op ParseError else mret size
  else mret short.

(** The head of a frame: is it the last one of its message, its opcode, its size. *)
Definition read_frame_head : io (bool * N * N) :=
  head ← read_full 2;
  let first := byte_at head 0 in
  let second := byte_at head 1 in
  if negb (N.land first 112 =? 0)%N || negb (N.land second 128 =? 0)%N then throw_op ParseError else
  size ← read_size (N.land second 127);
  mret (negb (N.land first 128 =? 0)%N, N.land first 15, size).

(** The loop of [receive]; [frames] are left of the 4096. *)
Fixpoint receive_loop (frames : nat) (message : bytes) (started : bool) : op WebSocket bytes := fun w =>
  match frames with
  | O => (Throw ResourceLimit, w)
  | S frames' =>
      ('(final, opcode, size) ← on_socket read_frame_head;
       if (8 <=? opcode)%N && (negb final || (125 <? size)%N) then throw_op ParseError else
       if (limit_ w <? size)%N || (opcode <? 8)%N && (size_sub (limit_ w) (N.of_nat (length message)) <? size)%N
       then throw_op ResourceLimit else
       payload ← on_socket (read_full size);
       if (opcode =? 8)%N then throw_op NetworkError
       else if (opcode =? 9)%N then _ ← frame 10 payload; receive_loop frames' message started
       else if (opcode =? 10)%N then receive_loop frames' message started
       else if negb ((opcode =? 0)%N || (opcode =? 1)%N) || (opcode =? 0)%N && negb started || (opcode =? 1)%N && started
       then throw_op ParseError
       else
         let message := message ++ payload in
         if final : bool then
           match validate_utf8 message with Ret _ => mret message | Throw _ => throw_op ParseError end
         else receive_loop frames' message true) w
  end.

Definition receive : op WebSocket bytes := receive_loop 4096 [] false.

(** ** The opening handshake *)

Context (sha1 : bytes -> bytes) (encode_block : bytes -> bytes).

Definition ws_blank (c : ascii) : bool := (code c <=? 32)%N || (code c =? 127)%N.

Definition valid_ws_request (request : HttpRequest) : bool :=
  ((1 <=? timeout_ms request) && (timeout_ms request <=? 300000))%Z &&
  ((1 <=? max_response_bytes request) && (max_response_bytes request <=? 16777216) &&
   (N.of_nat (length (request_url request)) <=? 8192))%N &&
  none (fun c => (c =c "@") || (c =c "#") || ws_blank c) (request_url request).

(** The [http] or [https] URL of the endpoint. *)
Definition ws_endpoint (url : bytes) : result bytes :=
  if starts_with (lit "wss://") url then Ret (lit "https" ++ drop 3 url)
  else if starts_with (lit "ws://") url then Ret (lit "http" ++ drop 2 url)
  else Throw InvalidUrl.

Definition ws_header_ok (name value : bytes) : bool :=
  let lower := to_lower name in
  nonempty name && forallb (fun c => is_alnum c || (c =c "-")) name && none is_control value &&
  negb (one_of lower ["host"; "connection"; "upgrade"; "proxy-authorization"; "content-length"; "transfer-encoding"]%string) &&
  negb (starts_with (lit "sec-websocket") lower).

(** The header lines of the caller; [n] bytes of names and values came before. *)
Fixpoint ws_headers (n : N) (l : header_list) : result bytes :=
  match l with
  | [] => Ret []
  | (name, value) :: l' =>
      let n := (n + N.of_nat (length name + length value))%N in
      _ ← throw_if (negb (ws_header_ok name value) || (32768 <? n)%N) InvalidArgument;
      rest ← ws_headers n l'; Ret (crlf ++ name ++ lit ": " ++ value ++ rest)
  end.

Definition ws_request_text (u : Url) (port key : bytes) : bytes :=
  lit "GET " ++ request_path u ++ lit " HTTP/1.1" ++ crlf ++ lit "Host: " ++ host u ++ lit ":" ++ port ++ crlf ++
  lit "Upgrade: websocket" ++ crlf ++ lit "Connection: Upgrade" ++ crlf ++ lit "Sec-WebSocket-Version: 13" ++ crlf ++
  lit "Sec-WebSocket-Key: " ++ key.

(** The fields of the answer that matter: [connection] and [upgrade] are joined, the others
    of the protocol may occur once. *)
Fixpoint handshake_fields (lines : list bytes) (m : gmap bytes bytes) : result (gmap bytes bytes) :=
  match lines with
  | [] => Ret m
  | line :: rest =>
      if line =s [ascii_of_N 13] then Ret m else
      match find_if (is_ch ":") line with
      | None | Some O => Throw NetworkError
      | Some colon =>
          _ ← throw_if (starts_with (lit " ") line || starts_with [ascii_of_N 9] line) NetworkError;
          let name := to_lower (take colon line) in
          let value := trim (drop (colon + 1) line) in
          if one_of name ["connection"; "upgrade"]%string
          then handshake_fields rest (<[name := match m !! name with Some v => v ++ lit "," ++ value | None => value end]> m)
          else if starts_with (lit "sec-websocket-") name
          then match m !! name with
               | Some _ => Throw NetworkError
               | None => handshake_fields rest (<[name := value]> m)
               end
          else handshake_fields rest m
      end
  end.

Definition has_token (l : bytes) (wanted : bytes) : bool :=
  existsb (fun token => trim token =s wanted) (getlines "," (to_lower l)).

Definition field_value (m : gmap bytes bytes) (name : string) : bytes := default [] (m !! lit name).

Definition guid : bytes := lit "258EAFA5-E914-47DA-95CA-C5AB0DC85B11".

Definition accept_key (key : bytes) : bytes := encode_block (sha1 (key ++ guid)).

(** The answer to the opening request, up to its empty line. *)
Definition accepted (key response : bytes) : result unit :=
  _ ← throw_if (negb (starts_with (lit "HTTP/1.1 101 ") response)) NetworkError;
  let lines := getlines (ascii_of_N 10) (drop (default 0 (find_sub crlf response) + 2) response) in
  m ← handshake_fields lines ∅;
  throw_if (negb (has_token (field_value m "upgrade") (lit "websocket")) ||
            negb (has_token (field_value m "connection") (lit "upgrade")) ||
            negb (field_value m "sec-websocket-accept" =s accept_key key) ||
            bool_decide (is_Some (m !! lit "sec-websocket-extensions")) ||
            bool_decide (is_Some (m !! lit "sec-websocket-protocol"))) NetworkError.

(** The loop that reads the answer one byte at a time. *)
Definition read_handshake : io bytes := fun c => head_loop (S (pending c)) 65536 NetworkError [] c.

(** The connection up to the origin; unlike [establish], a proxy gets a [CONNECT] for a plain
    endpoint, too. *)
Definition ws_establish (proxy : ProxyConfig) (u : Url) (port : bytes) : io unit :=
  _ ← deadline;
  _ ← (if bool_decide (p_scheme proxy = Https) then enable_tls (p_host proxy) else mret tt : io unit);
  _ ← (if bool_decide (p_scheme proxy = Socks5) then socks5_handshake proxy (host u) port
       else if enabled proxy then _ ← write_all (connect_text proxy u port); read_proxy_connect
       else mret tt : io unit);
  if scheme u =s lit "https" then enable_tls (unbracket_host (host u)) else mret tt.

Definition upgrade (request : HttpRequest) (u : Url) (port : bytes) : op WebSocket unit :=
  nonce ← draw 16;
  let key := encode_block nonce in
  fields ← (lift_op (ws_headers 0 (request_headers request)) : op WebSocket bytes);
  _ ← on_socket (write_all (ws_request_text u port key ++ fields ++ crlf ++ crlf));
  response ← on_socket read_handshake;
  lift_op (accepted key response).

(** [SocketNetworkClient::open_websocket]. *)
Definition open_websocket (getenv : bytes -> option bytes) (net : Network) (client_proxy : ProxyConfig) (request : HttpRequest)
  : result WebSocket :=
  _ ← throw_if (negb (valid_ws_request request)) InvalidArgument;
  endpoint ← ws_endpoint (request_url request);
  u ← parse_url endpoint;
  selected ← select_proxy getenv (request_proxy request) client_proxy endpoint;
  c ← connect_to net selected u (timeout_ms request);
  let w := {| socket := c; drawn := 0; ws_timeout := timeout_ms request; limit_ := max_response_bytes request |} in
  match (_ ← on_socket (ws_establish selected u (default_port u)); upgrade request u (default_port u)) w with
  | (Ret _, w') => Ret w'
  | (Throw e, _) => Throw e
  end.

End Socket.

(** ** Numbers in frames *)

Lemma byte_value n : (n < 256)%N -> code (byte n) = n.
Proof. apply N_ascii_embedding. Qed.

Lemma big_endian_length k n : length (big_endian k n) = k.
Proof. induction k as [|k IH]; [done|]. cbn. by rewrite IH. Qed.

Lemma big_endian_fold k n v :
  foldl (fun size b => N.lor (N.shiftl size 8) (code b))%N v (big_endian k n) = (v * 2 ^ (8 * N.of_nat k) + n mod 2 ^ (8 * N.of_nat k))%N.
Proof.
  revert v. induction k as [|k IH]; intros v.
  - cbn [big_endian foldl]. change (8 * N.of_nat 0)%N with 0%N. rewrite N.pow_0_r, N.mod_1_r. lia.
  - cbn [big_endian foldl]. change 255%N with (N.ones 8). rewrite N.land_ones, N.shiftr_div_pow2. change (2 ^ 8)%N with 256%N.
    set (p := (2 ^ (8 * N.of_nat k))%N). assert (Hp : (p <> 0)%N) by (apply N.pow_nonzero; done).
    pose proof (N.mod_lt (n / p) 256 ltac:(done)) as Hlt. rewrite byte_value by done. rewrite lor_shiftl by done. rewrite IH. fold p.
    replace (2 ^ (8 * N.of_nat (S k)))%N with (p * 256)%N.
    + rewrite N.Div0.mod_mul_r. change (2 ^ 8)%N with 256%N. lia.
    + unfold p. rewrite Nat2N.inj_succ, N.mul_succ_r, N.pow_add_r. done.
Qed.

Lemma big_endian_roundtrip k n : (n < 2 ^ (8 * N.of_nat k))%N -> big_endian_value (big_endian k n) = n.
Proof. intros H. unfold big_endian_value. rewrite big_endian_fold, N.mod_small by done. lia. Qed.

(** Decide a statement about a number below a bound by listing all of them. *)
Lemma below_all (bound : nat) (P : N -> bool) : forallb (fun n => P (N.of_nat n)) (seq 0 bound) = true ->
  forall n, (n < N.of_nat bound)%N -> P n = true.
Proof.
  intros H n Hn. rewrite forallb_forall in H. specialize (H (N.to_nat n)). rewrite N2Nat.id in H. apply H, in_seq. lia.
Qed.

(** ** Reading an exact number of bytes *)

Lemma full_loop_ok fuel size c : size <= fuel -> size <= length (incoming c) ->
  exists c', full_loop fuel size c = (Ret (take size (incoming c)), c') /\ advanced [] c (take size (incoming c)) c'.
Proof.
  revert size c. induction fuel as [|fuel IH]; intros size c Hf Hs.
  { assert (size = 0) as -> by lia. exists c. split; [done|apply advanced_refl]. }
  destruct size as [|size]; [exists c; split; [done|apply advanced_refl]|]. cbn [full_loop]. bind_step.
  pose proof (read_spec (S size) c ltac:(lia)) as H. destruct (read (S size) c) as [[[[|x b]| |]|e] c1];
    try (destruct H as [H _]; rewrite H in Hs; cbn in Hs; lia).
  destruct H as (Hi & Hb & Hw & He). destruct (IH (S size - length (x :: b)) c1) as (c2 & Hr & Ha).
  - cbn [length] in *. lia.
  - rewrite Hi, length_app in Hs. lia.
  - cbv iota beta. bind_step. rewrite Hr. exists c2. rewrite Hi, take_app_ge by done. split; [done|].
    destruct Ha as [Ha1 _ Ha3 Ha4]. cbn [app] in Ha1. split; [rewrite <- app_assoc, Ha1; by rewrite Hi|by eexists| |congruence].
    rewrite <- Hw, <- Ha3. by destruct c2.
Qed.

Lemma read_full_ok p rest c : incoming c = p ++ rest ->
  exists c', read_full (N.of_nat (length p)) c = (Ret p, c') /\ advanced [] c p c' /\ incoming c' = rest.
Proof.
  intros Hi. unfold read_full. assert (Hp : pending c = length (incoming c)) by done. rewrite Hp.
  rewrite (proj2 (N.ltb_ge _ _)) by (rewrite Hi, length_app; lia). rewrite Nat2N.id.
  destruct (full_loop_ok (length p) (length p) c (le_n _)) as (c' & Hr & Ha); [rewrite Hi, length_app; lia|].
  rewrite Hi, take_app_length in *. exists c'. split_and!; [done..|]. pose proof (adv_stream _ _ _ _ Ha) as E. cbn [app] in E.
  rewrite Hi in E. by apply app_inv_head in E.
Qed.

(** ** The frames of a server *)

Definition server_length (n : N) : bytes :=
  if (n <? 126)%N then [byte n] else if (n <=? 65535)%N then byte 126 :: big_endian 2 n else byte 127 :: big_endian 8 n.

(** A frame without a mask. *)
Definition server_frame (final : bool) (opcode : N) (payload : bytes) : bytes :=
  byte (N.lor (if final then 128 else 0) opcode) :: server_length (N.of_nat (length payload)) ++ payload.

Lemma head_bits (final : bool) opcode : (opcode < 16)%N ->
  let first := code (byte (N.lor (if final then 128 else 0) opcode)) in
  N.land first 112 = 0%N /\ N.land first 15 = opcode /\ negb (N.land first 128 =? 0)%N = final.
Proof.
  intros Ho. pose proof (below_all 16 (fun o => forallb (fun f : bool =>
    let first := code (byte (N.lor (if f then 128 else 0) o)) in
    (N.land first 112 =? 0)%N && (N.land first 15 =? o)%N && Bool.eqb (negb (N.land first 128 =? 0)%N) f) [true; false]) eq_refl opcode Ho) as H.
  rewrite forallb_forall in H. specialize (H final ltac:(destruct final; cbn; auto)). cbv zeta in *.
  rewrite !andb_true_iff, !N.eqb_eq, Bool.eqb_true_iff in H. tauto.
Qed.

Lemma short_bits n : (n < 126)%N ->
  N.land (code (byte n)) 128 = 0%N /\ N.land (code (byte n)) 127 = n /\ (n =? 126)%N = false /\ (n =? 127)%N = false.
Proof.
  intros Hn. pose proof (below_all 126 (fun n => (N.land (code (byte n)) 128 =? 0)%N && (N.land (code (byte n)) 127 =? n)%N) eq_refl n Hn) as H.
  rewrite !andb_true_iff, !N.eqb_eq in H. rewrite !N.eqb_neq. lia.
Qed.

Lemma advanced_head raw c p c1 q c2 : advanced [] c p c1 -> advanced [] c1 q c2 -> raw = p ++ q -> advanced [] c raw c2.
Proof.
  intros [H1 _ H3 H4] [K1 _ K3 K4] ->. cbn [app] in *. split; [cbn [app]; by rewrite <- H1, <- K1, <- app_assoc|by eexists| |congruence].
  rewrite <- H3, <- K3. by destruct c2.
Qed.

Lemma read_size_long short k n rest c : (short = 126 /\ k = 2%nat \/ short = 127 /\ k = 8%nat)%N ->
  ((if short =? 126 then 126 else 65536) <= n < 2 ^ (8 * N.of_nat k))%N -> (n < 2 ^ 63)%N ->
  incoming c = big_endian k n ++ rest ->
  exists c', read_size short c = (Ret n, c') /\ advanced [] c (big_endian k n) c' /\ incoming c' = rest.
Proof.
  intros Hk Hn Hl Hi. destruct (read_full_ok (big_endian k n) rest c Hi) as (c' & Hr & Ha & Hi'). rewrite big_endian_length in Hr.
  exists c'. split; [|done]. pose proof (big_endian_roundtrip k n ltac:(lia)) as Hv.
  assert (Hsh : (N.shiftr n 63 =? 0)%N = true) by (rewrite N.shiftr_div_pow2, N.div_small by done; done).
  unfold read_size. destruct Hk as [[-> ->]|[-> ->]]; cbn [N.eqb Pos.eqb orb] in *; bind_step;
    [change (N.of_nat 2) with 2%N in Hr|change (N.of_nat 8) with 8%N in Hr]; rewrite Hr; cbv zeta; rewrite Hv, big_endian_length, ?Hsh;
    cbn [Nat.eqb andb orb negb]; rewrite (proj2 (N.ltb_ge _ _)) by lia; done.
Qed.

Lemma frame_head_read final opcode payload rest c : (opcode < 16)%N -> (N.of_nat (length payload) < 2 ^ 63)%N ->
  incoming c = server_frame final opcode payload ++ rest ->
  exists head c', read_frame_head c = (Ret (final, opcode, N.of_nat (length payload)), c') /\ advanced [] c head c' /\
    incoming c' = payload ++ rest.
Proof.
  intros Ho Hl Hi. destruct (head_bits final opcode Ho) as (Hb1 & Hb2 & Hb3). unfold server_frame, server_length in Hi.
  set (first := byte (N.lor _ _)) in *. set (n := N.of_nat (length payload)) in *.
  assert (Hhead : forall tag more short, code tag = short -> N.land short 128 = 0%N -> incoming c = [first; tag] ++ more ->
    (forall c1, incoming c1 = more -> exists e c2, read_size (N.land short 127) c1 = (Ret n, c2) /\ advanced [] c1 e c2 /\ incoming c2 = payload ++ rest) ->
    exists head c', read_frame_head c = (Ret (final, opcode, n), c') /\ advanced [] c head c' /\ incoming c' = payload ++ rest).
  { intros tag more short <- Hs Hi' Hsize. destruct (read_full_ok [first; tag] more c Hi') as (c1 & Hr & Ha & Hi1).
    destruct (Hsize c1 Hi1) as (e & c2 & Hr2 & Ha2 & Hi2). exists ([first; tag] ++ e), c2. split; [|split; [by eapply advanced_head|done]].
    unfold read_frame_head. change (N.of_nat (length [first; tag])) with 2%N in Hr. bind_step. rewrite Hr. unfold byte_at.
    cbn [lookup list_lookup fmap option_fmap option_map default from_option id]. rewrite Hb1, Hs. cbn [N.eqb negb orb].
    bind_step. rewrite Hr2. by rewrite Hb2, Hb3. }
  clear Hb1 Hb2 Hb3. destruct (N.ltb_spec n 126) as [Hs|Hs]; [|destruct (N.leb_spec n 65535) as [Hm|Hm]].
  - destruct (short_bits n Hs) as (Hc1 & Hc2 & Hc3 & Hc4). eapply Hhead; [done|done|exact Hi|].
    intros c1 Hi1. rewrite Hc2. unfold read_size. rewrite Hc3, Hc4. exists [], c1. split_and!; [done|apply advanced_refl|done].
  - apply (Hhead (byte 126) (big_endian 2 n ++ payload ++ rest) 126%N eq_refl eq_refl).
    { rewrite Hi. cbn [app]. by rewrite <- !app_assoc. }
    intros c1 Hi1. destruct (read_size_long 126 2 n (payload ++ rest) c1) as (c2 & ?); [by left|cbn; lia|done|done|]. by exists (big_endian 2 n), c2.
  - apply (Hhead (byte 127) (big_endian 8 n ++ payload ++ rest) 127%N eq_refl eq_refl).
    { rewrite Hi. cbn [app]. by rewrite <- !app_assoc. }
    intros c1 Hi1. destruct (read_size_long 127 8 n (payload ++ rest) c1) as (c2 & ?); [by right|cbn [N.eqb Pos.eqb]; change (2 ^ (8 * N.of_nat 8))%N with (2 * 2 ^ 63)%N; lia|done|done|].
    by exists (big_endian 8 n), c2.
Qed.

(** ** Messages *)

(** What a server may send in a message: pings and pongs between its parts. *)
Inductive Item := Ping (p : bytes) | Pong (p : bytes) | Part (p : bytes).

Definition data_opcode (started : bool) : N := if started then 0 else 1.

(** The frames of a message: the items, and then its last part. *)
Fixpoint stream_text (started : bool) (items : list Item) (last : bytes) : bytes :=
  match items with
  | [] => server_frame true (data_opcode started) last
  | Ping p :: l => server_frame true 9 p ++ stream_text started l last
  | Pong p :: l => server_frame true 10 p ++ stream_text started l last
  | Part p :: l => server_frame false (data_opcode started) p ++ stream_text true l last
  end.

Definition parts (items : list Item) : bytes := mjoin ((fun i => match i with Part p => p | _ => [] end) <$> items).
Definition pings (items : list Item) : list bytes := omap (fun i => match i with Ping p => Some p | _ => None end) items.

Definition item_ok (limit : N) (i : Item) : Prop :=
  match i with Ping p | Pong p => (N.of_nat (length p) <= 125 /\ N.of_nat (length p) <= limit)%N | Part _ => True end.

Definition accepts (o : WriteOutcome) : Prop := match o with Accept (S _) => True | _ => False end.

Lemma write_all_accepts data c : Forall accepts (writes c) ->
  exists c', write_all data c = (Ret tt, c') /\ feed c' = feed c /\ Forall accepts (writes c') /\ wire c' = push_sent data (wire c) /\
    handshakes c' = handshakes c /\ tls c' = tls c /\ deadline_set c' = deadline_set c.
Proof.
  intros Hw. unfold write_all. assert (H : forall fuel data c, length data <= fuel -> Forall accepts (writes c) ->
    exists c', write_loop fuel NetworkError data c = (Ret tt, c') /\ Forall accepts (writes c')).
  { clear. induction fuel as [|fuel IH]; intros data c Hl Hw; (destruct data as [|x data]; [by exists c|]); [cbn in Hl; lia|].
    cbn [write_loop]. bind_step. unfold write. cbn [length] in Hl. destruct (writes c) as [|[[|n]| | |] later] eqn:E; inversion Hw as [|? ? Ha Hw']; subst; try done.
    - cbn [length]. rewrite Nat.min_id. rewrite drop_ge by done. exists (with_writes [] (push_sent (take (S (length data)) (x :: data)) (wire c)) c).
      split; [by destruct fuel|constructor].
    - cbn [length]. change (min (S n) (S (length data))) with (S (min n (length data))). apply IH; [cbn [drop]; rewrite length_drop; lia|done]. }
  destruct (H (length data) data c (le_n _) Hw) as (c' & Hr & Hw'). exists c'.
  destruct (write_loop_spec _ _ _ _ _ _ (le_n _) Hr) as ((n & Hn & Hn') & Hf & Hh & Ht & Hd & _).
  specialize (Hn' tt eq_refl) as ->. rewrite take_ge in Hn by done. by split_and!.
Qed.

Lemma on_socket_eq {A} (m : io A) w r c : m (socket w) = (r, c) -> on_socket m w = (r, with_socket c w).
Proof. unfold on_socket. by intros ->. Qed.

Section Receive.
Context (random_bytes : nat -> nat -> option bytes) (mask : nat -> bytes).
Context (Hmask : forall i, random_bytes i 4 = Some (mask i)).

(** The pongs that answer a list of pings, from the [d]-th draw on. *)
Fixpoint pong_text (d : nat) (l : list bytes) : bytes :=
  match l with [] => [] | p :: l' => frame_text 10 (mask d) p ++ pong_text (S d) l' end.

Lemma frame_ok opcode text w : Forall accepts (writes (socket w)) ->
  exists c', frame random_bytes opcode text w =
      (Ret tt, {| socket := c'; drawn := S (drawn w); ws_timeout := ws_timeout w; limit_ := limit_ w |}) /\
    feed c' = feed (socket w) /\ Forall accepts (writes c') /\ wire c' = push_sent (frame_text opcode (mask (drawn w)) text) (wire (socket w)).
Proof using Hmask.
  intros Hw. destruct (write_all_accepts (frame_text opcode (mask (drawn w)) text) (socket w) Hw) as (c' & Hr & Hf & Hw' & Hwire & _).
  exists c'. split_and!; try done. unfold frame. bind_step. unfold draw. rewrite Hmask. unfold on_socket. cbn [socket]. by rewrite Hr.
Qed.

(** One frame of the stream. *)
Lemma receive_step frames message started final opcode payload rest w :
  (opcode < 16)%N -> (N.of_nat (length payload) < 2 ^ 63)%N -> incoming (socket w) = server_frame final opcode payload ++ rest ->
  (8 <= opcode -> final = true /\ N.of_nat (length payload) <= 125)%N -> (N.of_nat (length payload) <= limit_ w)%N ->
  (opcode < 8 -> N.of_nat (length message) + N.of_nat (length payload) <= limit_ w)%N ->
  exists c', incoming c' = rest /\ writes c' = writes (socket w) /\ wire c' = wire (socket w) /\
    receive_loop random_bytes (S frames) message started w =
    (if (opcode =? 8)%N then throw_op NetworkError
     else if (opcode =? 9)%N then _ ← frame random_bytes 10 payload; receive_loop random_bytes frames message started
     else if (opcode =? 10)%N then receive_loop random_bytes frames message started
     else if negb ((opcode =? 0)%N || (opcode =? 1)%N) || (opcode =? 0)%N && negb started || (opcode =? 1)%N && started
     then throw_op ParseError
     else if final : bool then
       match validate_utf8 (message ++ payload) with Ret _ => mret (message ++ payload) | Throw _ => throw_op ParseError end
     else receive_loop random_bytes frames (message ++ payload) true) (with_socket c' w).
Proof.
  intros Ho Hl Hi Hc Hlim Hmsg. destruct (frame_head_read final opcode payload rest (socket w) Ho Hl Hi) as (head & c1 & Hr1 & Ha1 & Hi1).
  destruct (read_full_ok payload rest c1 Hi1) as (c2 & Hr2 & Ha2 & Hi2). exists c2.
  assert (Hsame : writes c2 = writes (socket w) /\ wire c2 = wire (socket w)).
  { destruct Ha1 as [_ _ <- _], Ha2 as [_ _ <- _]. done. }
  split_and!; [done|apply Hsame|apply Hsame|]. cbn [receive_loop]. bind_step. rewrite (on_socket_eq _ _ _ _ Hr1). cbv iota beta.
  assert ((8 <=? opcode)%N && (negb final || (125 <? N.of_nat (length payload))%N) = false) as ->.
  { destruct (N.leb_spec 8 opcode) as [H8|H8]; [|done]. destruct (Hc H8) as [-> Hp]. by rewrite (proj2 (N.ltb_ge _ _)). }
  assert ((limit_ w <? N.of_nat (length payload))%N || (opcode <? 8)%N && (size_sub (limit_ w) (N.of_nat (length message)) <? N.of_nat (length payload))%N = false) as ->.
  { rewrite (proj2 (N.ltb_ge _ _)) by done. destruct (N.ltb_spec opcode 8) as [H8|H8]; [|done]. specialize (Hmsg H8).
    rewrite size_sub_exact by lia. cbn. apply N.ltb_ge. lia. }
  bind_step. rewrite (on_socket_eq (read_full _) (with_socket c1 w) _ _ Hr2). reflexivity.
Qed.

Lemma receive_loop_ok items last rest frames message started w :
  Forall (item_ok (limit_ w)) items -> length items < frames -> Forall accepts (writes (socket w)) ->
  incoming (socket w) = stream_text started items last ++ rest -> (limit_ w < 2 ^ 63)%N ->
  (N.of_nat (length message + length (parts items) + length last) <= limit_ w)%N ->
  validate_utf8 (message ++ parts items ++ last) = Ret tt ->
  exists w', receive_loop random_bytes frames message started w = (Ret (message ++ parts items ++ last), w') /\
    incoming (socket w') = rest /\ wire (socket w') = push_sent (pong_text (drawn w) (pings items)) (wire (socket w)).
Proof using Hmask.
  intros Hok. revert frames message started w Hok. induction items as [|i items IH]; intros frames message started w Hok Hf Hw Hi Hlim Hm Hv;
    (destruct frames as [|frames]; [cbn in Hf; lia|]).
  - change (parts []) with (@nil ascii) in *. cbn [app length] in *.
    destruct (receive_step frames message started true (data_opcode started) last rest w) as (c' & Hr & _ & Hwire & ->).
    + by destruct started.
    + lia.
    + done.
    + by destruct started.
    + lia.
    + lia.
    + destruct started; cbn [data_opcode N.eqb Pos.eqb orb andb negb]; rewrite Hv; exists (with_socket c' w); split_and!; try done; by rewrite push_sent_nil.
  - inversion Hok as [|? ? Hi1 Hok']; subst. cbn [length] in Hf. destruct i as [p|p|p]; cbn [stream_text] in Hi; rewrite <- app_assoc in Hi.
    + change (parts (Ping p :: items)) with (parts items) in *. change (pings (Ping p :: items)) with (p :: pings items).
      destruct Hi1 as [H125 Hpl].
      destruct (receive_step frames message started true 9 p _ w ltac:(done) ltac:(lia) Hi) as (c' & Hr & Hw' & Hwire & ->); [done|done|done|].
      cbn [N.eqb Pos.eqb]. bind_step. destruct (frame_ok 10 p (with_socket c' w)) as (c2 & -> & Hfeed & Hw2 & Hwire2); [by cbn [with_socket socket]; rewrite Hw'|].
      cbv iota beta. set (w2 := {| socket := c2; drawn := _; ws_timeout := _; limit_ := _ |}).
      destruct (IH frames message started w2) as (w' & Hr' & Hrest & Hwire'); try done; [lia|unfold w2, incoming; cbn [socket]; by rewrite Hfeed|].
      exists w'. split_and!; [done..|]. rewrite Hwire'. unfold w2. cbn [socket drawn]. rewrite Hwire2. cbn [with_socket socket drawn pong_text].
      by rewrite push_sent_app, Hwire.
    + change (parts (Pong p :: items)) with (parts items) in *. change (pings (Pong p :: items)) with (pings items).
      destruct Hi1 as [H125 Hpl].
      destruct (receive_step frames message started true 10 p _ w ltac:(done) ltac:(lia) Hi) as (c' & Hr & Hw' & Hwire & ->); [done|done|done|].
      cbn [N.eqb Pos.eqb]. destruct (IH frames message started (with_socket c' w)) as (w' & Hr' & Hrest & Hwire'); try done; [lia|by cbn [with_socket socket]; rewrite Hw'|].
      exists w'. split_and!; [done..|]. rewrite Hwire'. cbn [with_socket socket drawn]. by rewrite Hwire.
    + change (parts (Part p :: items)) with (p ++ parts items) in *. change (pings (Part p :: items)) with (pings items).
      rewrite length_app in Hm. rewrite <- (app_assoc p) in *.
      destruct (receive_step frames message started false (data_opcode started) p (stream_text true items last ++ rest) w) as (c' & Hr & Hw' & Hwire & ->); [by destruct started|lia|exact Hi|by destruct started|lia|lia|].
      destruct (IH frames (message ++ p) true (with_socket c' w)) as (w' & Hr' & Hrest & Hwire'); try done; [lia|by cbn [with_socket socket]; rewrite Hw'|rewrite length_app; cbn [with_socket limit_]; lia|by rewrite <- app_assoc|].
      exists w'. rewrite <- app_assoc in Hr'. rewrite <- Hr'. destruct started; cbn [data_opcode N.eqb Pos.eqb orb andb negb]; (split_and!; [done..|]);
        rewrite Hwire'; cbn [with_socket socket drawn]; by rewrite Hwire.
Qed.

End Receive.

(** C22: [receive] answers the message a server sent: the parts of its frames put together,
    whatever the network's segments, with pings answered by pongs of the same text, in order,
    and pongs ignored; what comes behind the message is left in the stream.  The message has
    to be UTF-8, within the limit, and of at most 4096 frames. *)
Theorem ws_receive random_bytes mask items last rest w :
  (forall i, random_bytes i 4 = Some (mask i)) ->
  Forall (item_ok (limit_ w)) items -> length items < 4096 -> Forall accepts (writes (socket w)) -> (limit_ w < 2 ^ 63)%N ->
  incoming (socket w) = stream_text false items last ++ rest ->
  (N.of_nat (length (parts items ++ last)) <= limit_ w)%N -> validate_utf8 (parts items ++ last) = Ret tt ->
  exists w', receive random_bytes w = (Ret (parts items ++ last), w') /\ incoming (socket w') = rest /\
    wire (socket w') = push_sent (pong_text mask (drawn w) (pings items)) (wire (socket w)).
Proof.
  intros Hmask Hok Hf Hw Hlim Hi Hl Hv. unfold receive. generalize dependent 4096. intros frames Hf. rewrite length_app in Hl.
  apply (receive_loop_ok random_bytes mask Hmask items last rest frames [] false w); try done.
Qed.

Definition demo_mask (i : nat) : bytes := [byte (N.of_nat i); "m"; "a"; "s"]%char.

Definition demo_ws : WebSocket :=
  {| socket := plain_connection [take 3 (stream_text false [Part (lit "he"); Ping (lit "now"); Pong []; Part (lit "ll")] (lit "o"));
       drop 3 (stream_text false [Part (lit "he"); Ping (lit "now"); Pong []; Part (lit "ll")] (lit "o")) ++ lit "next"] Stalled;
     drawn := 7; ws_timeout := 1000; limit_ := 100 |}.

Lemma ws_receive_witness : exists w',
  receive (fun i _ => Some (demo_mask i)) demo_ws = (Ret (lit "hello"), w') /\ incoming (socket w') = lit "next" /\
  wire (socket w') = [Sent (frame_text 10 (demo_mask 7) (lit "now"))].
Proof.
  destruct (ws_receive (fun i _ => Some (demo_mask i)) demo_mask [Part (lit "he"); Ping (lit "now"); Pong []; Part (lit "ll")] (lit "o") (lit "next") demo_ws)
    as (w' & H1 & H2 & H3).
  - done.
  - repeat (apply Forall_cons_2; [first [done | split; vm_compute; done]|]). constructor.
  - apply Nat.ltb_lt. reflexivity.
  - constructor.
  - done.
  - vm_compute. done.
  - vm_compute. done.
  - vm_compute. done.
  - exists w'. split_and!; [exact H1|exact H2|exact H3].
Defined.

(** ** Frames of the client *)

(** What a server reads: opcode and text of a frame that has to be masked. *)
Definition read_client_frame (s : bytes) : option (N * bytes * bytes) :=
  match s with
  | first :: second :: r =>
      if (N.land (code second) 128 =? 0)%N then None else
      let short := N.land (code second) 127 in
      let k := if (short =? 126)%N then 2 else if (short =? 127)%N then 8 else 0 in
      let n := if k =? 0 then short else big_endian_value (take k r) in
      let r := drop k r in
      Some (N.land (code first) 15, masked (take 4 r) 0 (take (N.to_nat n) (drop 4 r)), drop (N.to_nat n) (drop 4 r))
  | _ => None
  end.

Lemma lxor_byte a b : (a < 256)%N -> (b < 256)%N -> (N.lxor a b < 256)%N.
Proof.
  intros Ha Hb. destruct (N.eq_dec (N.lxor a b) 0) as [->|H0]; [done|]. change 256%N with (2 ^ 8)%N. apply N.log2_lt_pow2; [lia|].
  eapply N.le_lt_trans; [apply N.log2_lxor|]. apply N.max_lub_lt.
  - destruct (N.eq_dec a 0) as [->|]; [done|]. apply N.log2_lt_pow2; [lia|done].
  - destruct (N.eq_dec b 0) as [->|]; [done|]. apply N.log2_lt_pow2; [lia|done].
Qed.

Lemma byte_at_lt b i : (byte_at b i < 256)%N.
Proof. unfold byte_at. destruct (b !! i); [apply code_lt|done]. Qed.

Lemma masked_length mask i text : length (masked mask i text) = length text.
Proof. revert i. induction text as [|c text IH]; intros i; [done|]. cbn. by rewrite IH. Qed.

Lemma masked_twice mask i text : masked mask i (masked mask i text) = text.
Proof.
  revert i. induction text as [|c text IH]; intros i; [done|]. cbn [masked]. rewrite IH.
  rewrite byte_value by (apply lxor_byte; [apply code_lt|apply byte_at_lt]). rewrite N.lxor_assoc, N.lxor_nilpotent, N.lxor_0_r.
  f_equal. apply ascii_N_embedding.
Qed.

Lemma client_frame_roundtrip opcode mask text k :
  (opcode < 16)%N -> length mask = 4 -> (N.of_nat (length text) < 2 ^ 64)%N ->
  read_client_frame (frame_text opcode mask text ++ k) = Some (opcode, text, k).
Proof.
  intros Ho Hm Hl. unfold frame_text, length_text. set (n := N.of_nat (length text)) in *.
  assert (Hop : N.land (code (byte (N.lor 128 opcode))) 15 = opcode) by apply (head_bits true opcode Ho).
  assert (Htail : forall r, r = mask ++ masked mask 0 text ++ k ->
    masked (take 4 r) 0 (take (N.to_nat n) (drop 4 r)) = text /\ drop (N.to_nat n) (drop 4 r) = k).
  { intros r ->. rewrite <- Hm, take_app_length, drop_app_length. unfold n. rewrite Nat2N.id, <- (masked_length mask 0 text).
    by rewrite take_app_length, drop_app_length, masked_twice. }
  assert (Hlong : forall tag (kk : nat), code tag = (if (kk =? 2)%nat then 254 else 255)%N -> (kk = 2 \/ kk = 8) -> (n < 2 ^ (8 * N.of_nat kk))%N ->
    read_client_frame (byte (N.lor 128 opcode) :: tag :: big_endian kk n ++ mask ++ masked mask 0 text ++ k) = Some (opcode, text, k)).
  { intros tag kk Ht Hk Hn. destruct (Htail _ eq_refl) as [H1 H2]. unfold read_client_frame. rewrite Ht.
    destruct Hk as [-> | ->]; cbn [Nat.eqb];
      [change (N.land 254 128 =? 0)%N with false; change (N.land 254 127 =? 126)%N with true; cbv iota; cbn [Nat.eqb]
      |change (N.land 255 128 =? 0)%N with false; change (N.land 255 127 =? 126)%N with false; change (N.land 255 127 =? 127)%N with true; cbv iota; cbn [Nat.eqb]];
      rewrite (take_app_length' (big_endian _ n)), (drop_app_length' (big_endian _ n)), big_endian_roundtrip by (done || by rewrite big_endian_length);
      by rewrite H1, H2, Hop. }
  destruct (N.ltb_spec n 126) as [Hs|Hs]; [|destruct (N.leb_spec n 65535) as [Hs'|Hs']].
  - pose proof (below_all 126 (fun n => let s := code (byte (N.lor 128 n)) in negb (N.land s 128 =? 0)%N && (N.land s 127 =? n)%N) eq_refl n Hs) as H.
    cbv zeta in H. rewrite andb_true_iff, negb_true_iff, N.eqb_eq in H. destruct H as [H1 H2].
    destruct (Htail _ eq_refl) as [H3 H4]. cbn [app]. rewrite <- app_assoc. unfold read_client_frame. rewrite H1, H2, Hop.
    rewrite (proj2 (N.eqb_neq n 126)), (proj2 (N.eqb_neq n 127)) by lia. cbn [Nat.eqb]. rewrite drop_0. by rewrite H3, H4.
  - cbn [Nat.eqb app]. rewrite <- !app_assoc. apply Hlong; [done|by left|cbn; lia].
  - cbn [Nat.eqb app]. rewrite <- !app_assoc. apply Hlong; [done|by right|exact Hl].
Qed.

(** *** The opening handshake, on the example of RFC 6455 *)
Example rfc_handshake :
  let key := lit "dGhlIHNhbXBsZSBub25jZQ==" in
  let sha1 s := if s =s key ++ guid then lit "digest" else [] in
  let encode s := if s =s lit "digest" then lit "s3pPLMBiTxaQ9kYGzzhZRbK+xOo=" else s in
  let answer upgrade accept := lit "HTTP/1.1 101 Switching Protocols" ++ crlf ++ lit "Upgrade: " ++ upgrade ++ crlf ++
    lit "Connection: keep-alive, Upgrade" ++ crlf ++ lit "Sec-WebSocket-Accept: " ++ accept ++ crlf ++ crlf in
  accepted sha1 encode key (answer (lit "WebSocket") (lit "s3pPLMBiTxaQ9kYGzzhZRbK+xOo=")) = Ret tt /\
  accepted sha1 encode key (answer (lit "WebSocket") (lit "s3pPLMBiTxaQ9kYGzzhZRbK+xOo")) = Throw NetworkError /\
  accepted sha1 encode key (answer (lit "h2c") (lit "s3pPLMBiTxaQ9kYGzzhZRbK+xOo=")) = Throw NetworkError.
Proof. vm_compute. done. Qed.
