(* ===== verification/Plugins.v ===== *)
(** * Plugins: [src/core/plugin_registry.cpp]

    The registry of loaded plugins: what it accepts, the calls of their functions, and the
    hooks around requests, responses and documents.  A plugin is code outside of the
    repository: its functions are operations on the state [W] of the whole program, and what
    the dynamic linker finds at a path is the parameter [open_library].  The mutex of the
    registry is held while a plugin runs, so the list of plugins does not change meanwhile. *)
From S2P Require Import Event.
From S2P Require Import Prelude Redaction Proxy Message.

Inductive PluginType := NativeType | LuaType | WasmType | OtherType.

Record PluginDescriptor := {
  d_name : bytes; d_version : bytes; d_abi_version : bytes; d_description : bytes; d_path : bytes;
  d_lua_module : bytes; d_wasm_world : bytes; d_type : PluginType; d_capabilities : list bytes; d_initialized : bool }.

(** [ProwseTkPluginInfo], whose strings may be null pointers. *)
Record PluginInfo := {
  i_name : option bytes; i_version : option bytes; i_abi_version : option bytes; i_description : option bytes;
  i_lua_module : option bytes; i_wasm_world : option bytes; i_type : PluginType; i_capabilities : list (option bytes) }.

(** [ProwseTkHttpRequest]: a null pointer may stand for the bytes and for the headers. *)
Record CRequest := {
  cr_method : option bytes; cr_url : option bytes; cr_headers : option (list (option bytes * option bytes)); cr_header_count : N;
  cr_body : option bytes; cr_body_size : N; cr_timeout : Z; cr_max_bytes : N }.

Record CResponse := { cs_status : Z; cs_headers : list (option bytes * option bytes); cs_body : bytes; cs_final_url : bytes }.

Inductive HookAction := HookContinue | HookReject | HookReplace | HookOther.
Record HookResult := { hr_action : HookAction; hr_replacement : option CRequest }.

Definition abi_string : bytes := lit "2".

Definition valid_plugin_type (t : PluginType) : bool := match t with OtherType => false | _ => true end.

Definition string_or_empty (value : option bytes) : bytes := default [] value.

(** What a C string of these bytes shows: [c_str()] ends at the first null byte. *)
Definition c_str (s : bytes) : bytes := span (fun c => negb (c =c ascii_of_N 0)) s.

Definition make_headers (headers : header_list) : list (option bytes * option bytes) :=
  (fun '(name, value) => (Some (c_str name), Some (c_str value))) <$> headers.

Definition make_c_request (request : HttpRequest) : CRequest :=
  {| cr_method := Some (c_str (method request)); cr_url := Some (c_str (request_url request));
     cr_headers := Some (make_headers (request_headers request)); cr_header_count := N.of_nat (length (request_headers request));
     cr_body := Some (request_body request); cr_body_size := N.of_nat (length (request_body request));
     cr_timeout := (timeout_ms request mod 2 ^ 32)%Z; cr_max_bytes := max_response_bytes request |}.

(** [std::clamp] of the status to sixteen bits. *)
Definition make_c_response (response : HttpResponse) : CResponse :=
  {| cs_status := Z.max 0 (Z.min (status response) 65535); cs_headers := make_headers (headers response);
     cs_body := body response; cs_final_url := c_str (final_url response) |}.

(** The conversion of a [std::uint32_t] to [int]. *)
Definition to_int (n : Z) : Z := ((n + 2 ^ 31) mod 2 ^ 32 - 2 ^ 31)%Z.

Definition copy_request (request : CRequest) : result HttpRequest :=
  match cr_method request, cr_url request with
  | Some m, Some u =>
      _ ← throw_if (match cr_body request with None => negb (cr_body_size request =? 0)%N | Some _ => false end) PluginError;
      _ ← throw_if (match cr_headers request with None => negb (cr_header_count request =? 0)%N | Some _ => false end) PluginError;
      Ret {| method := m; request_url := u;
             request_headers := omap (fun '(name, value) => n ← name; v ← value; Some (n : bytes, v : bytes)) (default [] (cr_headers request));
             request_body := default [] (cr_body request); timeout_ms := to_int (cr_timeout request);
             max_response_bytes := cr_max_bytes request; request_proxy := no_proxy_config |}
  | _, _ => Throw PluginError
  end.

Section Registry.
(** The state of the program, and the emission of an event: [events().emit]. *)
Context {W : Type} (emit : Event -> Prelude.op W Event).

(** The functions of a [ProwseTkPlugin]; each may be null. *)
Record NativeCode := {
  initialize : option (Prelude.op W Z);
  configure : option (header_list -> Prelude.op W Z);
  before_request : option (CRequest -> Prelude.op W (Z * HookResult));
  after_response : option (CRequest -> CResponse -> Prelude.op W (Z * HookResult));
  on_document : option (bytes -> bytes -> bytes -> bytes -> Prelude.op W Z);
  shutdown : option (Prelude.op W unit) }.

Record LoadedPlugin := { descriptor : PluginDescriptor; code_of : option NativeCode }.

(** What [dlopen], [dlsym] and the entry function give. *)
Inductive Library := LoadFails | NoEntry | NoPlugin | Provides (info : option PluginInfo) (code : NativeCode).

Context (open_library : bytes -> Library) (stem : bytes -> bytes).

Abbreviation plugin_list := (list LoadedPlugin).

Definition native_descriptor (path name abi : bytes) (info : PluginInfo) : PluginDescriptor :=
  {| d_name := name; d_version := string_or_empty (i_version info); d_abi_version := abi;
     d_description := string_or_empty (i_description info); d_path := path; d_lua_module := string_or_empty (i_lua_module info);
     d_wasm_world := string_or_empty (i_wasm_world info); d_type := i_type info;
     d_capabilities := List.filter nonempty (omap (fun c => c) (i_capabilities info)); d_initialized := false |}.

Definition load_native (path : bytes) (l : plugin_list) : result plugin_list :=
  match open_library path with
  | Provides (Some info) code =>
      match i_name info with
      | None => Throw PluginError
      | Some name =>
          _ ← throw_if (negb (nonempty name)) PluginError;
          _ ← throw_if (negb (valid_plugin_type (i_type info))) PluginError;
          match i_abi_version info with
          | Some abi =>
              _ ← throw_if (negb (abi_string =s abi)) PluginError;
              Ret (l ++ [{| descriptor := native_descriptor path name abi info; code_of := Some code |}])
          | None => Throw PluginError
          end
      end
  | _ => Throw PluginError
  end.

(** [load_lua] and [load_wasm]: only the path is recorded. *)
Definition load_path (t : PluginType) (path : bytes) (l : plugin_list) : plugin_list :=
  l ++ [{| descriptor := {| d_name := stem path; d_version := []; d_abi_version := []; d_description := []; d_path := path;
                            d_lua_module := []; d_wasm_world := []; d_type := t; d_capabilities := []; d_initialized := false |};
           code_of := None |}].

Definition load_lua := load_path LuaType.
Definition load_wasm := load_path WasmType.

Definition plugin_event (t : EventType) (d : PluginDescriptor) : Event :=
  {| type := t; url := d_path d; ev_name := d_name d; message := []; attributes := {[lit "version" := d_version d]};
     cancelled := false; session_id := [] |}.

Definition with_initialized (b : bool) (p : LoadedPlugin) : LoadedPlugin :=
  let d := descriptor p in
  {| descriptor := {| d_name := d_name d; d_version := d_version d; d_abi_version := d_abi_version d; d_description := d_description d;
       d_path := d_path d; d_lua_module := d_lua_module d; d_wasm_world := d_wasm_world d; d_type := d_type d;
       d_capabilities := d_capabilities d; d_initialized := b |}; code_of := code_of p |}.

(** [try { rc = ...; } catch (...) { rc = error; }]: an exception never leaves a plugin. *)
Definition no_throw {A} (fallback : A) (m : Prelude.op W A) : W -> A * W := fun w =>
  match m w with (Ret a, w') => (a, w') | (Throw _, w') => (fallback, w') end.

(** [initialize_all].  The list is what the registry holds afterwards, on a failure too. *)
Fixpoint initialize_all (l : plugin_list) (w : W) : result N * plugin_list * W :=
  match l with
  | [] => (Ret 0%N, [], w)
  | p :: l' =>
      match (if d_initialized (descriptor p) then None else code_of p) with
      | None => let '(r, l'', w') := initialize_all l' w in (r, p :: l'', w')
      | Some code =>
          let '(rc, w1) := match initialize code with Some f => no_throw (-1)%Z f w | None => (0%Z, w) end in
          if negb (rc =? 0)%Z then (Throw PluginError, l, w1) else
          let p' := with_initialized true p in
          match emit (plugin_event PluginInit (descriptor p')) w1 with
          | (Throw e, w2) => (Throw e, p' :: l', w2)
          | (Ret _, w2) =>
              let '(r, l'', w') := initialize_all l' w2 in
              ((fun n => n + 1)%N <$> r, p' :: l'', w')
          end
      end
  end.

(** The function of a plugin that takes part: it is initialized, native, and not null. *)
Definition active {A} (f : NativeCode -> option A) (p : LoadedPlugin) : option A :=
  if d_initialized (descriptor p) then code_of p ≫= f else None.

Fixpoint configure_loop (entries : header_list) (l : plugin_list) (w : W) : result N * W :=
  match l with
  | [] => (Ret 0%N, w)
  | p :: l' =>
      match active configure p with
      | None => configure_loop entries l' w
      | Some f =>
          let '(rc, w') := no_throw 1%Z (f entries) w in
          if negb (rc =? 0)%Z then (Throw PluginError, w')
          else let '(r, w'') := configure_loop entries l' w' in ((fun n => n + 1)%N <$> r, w'')
      end
  end.

Definition configure_all (l : plugin_list) (entries : header_list) : Prelude.op W N :=
  configure_loop ((fun '(key, value) => (c_str key, c_str value)) <$> entries) l.

Definition no_hook : Z * HookResult := (1%Z, {| hr_action := HookContinue; hr_replacement := None |}).

(** The effect of the answer of [before_request] on the request. *)
Definition hooked_request (request : HttpRequest) (answer : Z * HookResult) : result HttpRequest :=
  let '(rc, h) := answer in
  _ ← throw_if (negb (rc =? 0)%Z) PluginError;
  match hr_action h with
  | HookContinue => Ret request
  | HookReject => Throw SecurityViolation
  | HookReplace => match hr_replacement h with None => Throw PluginError | Some c => copy_request c end
  | HookOther => Throw PluginError
  end.

Fixpoint dispatch_before_request (l : plugin_list) (request : HttpRequest) : Prelude.op W HttpRequest := fun w =>
  match l with
  | [] => (Ret request, w)
  | p :: l' =>
      match active before_request p with
      | None => dispatch_before_request l' request w
      | Some f =>
          let '(answer, w') := no_throw no_hook (f (make_c_request request)) w in
          match hooked_request request answer with
          | Throw e => (Throw e, w')
          | Ret request' => dispatch_before_request l' request' w'
          end
      end
  end.

(** The verdict of [after_response]. *)
Definition hooked_response (answer : Z * HookResult) : result unit :=
  let '(rc, h) := answer in
  _ ← throw_if (negb (rc =? 0)%Z) PluginError;
  match hr_action h with
  | HookContinue => Ret tt
  | HookReject => Throw SecurityViolation
  | _ => Throw PluginError
  end.

Fixpoint dispatch_after_response (l : plugin_list) (request : HttpRequest) (response : HttpResponse) : Prelude.op W unit := fun w =>
  match l with
  | [] => (Ret tt, w)
  | p :: l' =>
      match active after_response p with
      | None => dispatch_after_response l' request response w
      | Some f =>
          let '(answer, w') := no_throw no_hook (f (make_c_request request) (make_c_response response)) w in
          match hooked_response answer with
          | Throw e => (Throw e, w')
          | Ret _ => dispatch_after_response l' request response w'
          end
      end
  end.

Fixpoint dispatch_document (l : plugin_list) (url title html text : bytes) : Prelude.op W unit := fun w =>
  match l with
  | [] => (Ret tt, w)
  | p :: l' =>
      match active on_document p with
      | None => dispatch_document l' url title html text w
      | Some f =>
          let '(rc, w') := no_throw 1%Z (f (c_str url) (c_str title) (c_str html) (c_str text)) w in
          if negb (rc =? 0)%Z then (Throw PluginError, w') else dispatch_document l' url title html text w'
      end
  end.

(** [shutdown_all].  An exception of an event handler leaves the rest as it is. *)
Fixpoint shutdown_all (l : plugin_list) (w : W) : result unit * plugin_list * W :=
  match l with
  | [] => (Ret tt, [], w)
  | p :: l' =>
      match emit (plugin_event PluginShutdown (descriptor p)) w with
      | (Throw e, w1) => (Throw e, l, w1)
      | (Ret _, w1) =>
          let w2 := match active shutdown p with Some f => (no_throw tt f w1).2 | None => w1 end in
          match shutdown_all l' w2 with
          | (Ret _, _, w3) => (Ret tt, [], w3)
          | (Throw e, l'', w3) => (Throw e, with_initialized false p :: l'', w3)
          end
      end
  end.

Definition find_plugin (name : bytes) (l : plugin_list) : option PluginDescriptor :=
  List.find (fun d => d_name d =s name) (descriptor <$> l).

Definition has_capability (capability : bytes) (l : plugin_list) : bool :=
  existsb (fun p => existsb (fun c => c =s capability) (d_capabilities (descriptor p))) l.

(** [discover] over the regular files of a directory: what is loaded, and the files that
    failed. *)
Fixpoint discover (extension : bytes -> bytes) (files : list bytes) (l : plugin_list) : N * list bytes * plugin_list :=
  match files with
  | [] => (0%N, [], l)
  | path :: files' =>
      let lower := to_lower (extension path) in
      if one_of lower [".so"; ".dylib"; ".dll"]%string then
        match load_native path l with
        | Ret l' => let '(n, warnings, l'') := discover extension files' l' in ((n + 1)%N, warnings, l'')
        | Throw _ => let '(n, warnings, l'') := discover extension files' l in (n, path :: warnings, l'')
        end
      else if lower =s lit ".lua" then
        let '(n, warnings, l'') := discover extension files' (load_lua path l) in ((n + 1)%N, warnings, l'')
      else if lower =s lit ".wasm" then
        let '(n, warnings, l'') := discover extension files' (load_wasm path l) in ((n + 1)%N, warnings, l'')
      else discover extension files' l
  end.

(** *** What plugins may call: [ProwseTkHostApi] *)

(** [emit_event_bridge]. *)
Definition bridge_event (t name text : option bytes) : Event :=
  let parsed := parse_event_type (string_or_empty t) in
  {| type := default Console parsed; url := []; ev_name := string_or_empty name; message := string_or_empty text;
     attributes := match parsed, t with None, Some t => {[lit "plugin-event-type" := t]} | _, _ => ∅ end;
     cancelled := false; session_id := [] |}.

(** [redact_bridge]: the text for a buffer of that size, the final null byte included. *)
Definition redact_bridge (policy : RedactionPolicy) (value : bytes) (output_size : N) : Z * option bytes :=
  if (output_size =? 0)%N then (2%Z, None) else
  let redacted := redact_url policy value in
  if (output_size <? N.of_nat (length redacted) + 1)%N then (2%Z, None) else (0%Z, Some (redacted ++ [ascii_of_N 0])).

End Registry.

(** ** The registry holds only what was checked *)

Section Properties.
Context {W : Type} (emit : Event -> Prelude.op W Event) (open_library : bytes -> @Library W) (stem : bytes -> bytes) (extension : bytes -> bytes).

Abbreviation plugin := (@LoadedPlugin W).

(** A native plugin has a name, the ABI version and a type of this program, and no empty
    capability; the others have no code, and are never initialized. *)
Definition plugin_ok (p : plugin) : Prop :=
  match code_of p with
  | Some _ =>
      d_name (descriptor p) <> [] /\ d_abi_version (descriptor p) = abi_string /\ valid_plugin_type (d_type (descriptor p)) = true /\
      Forall (fun c => c <> []) (d_capabilities (descriptor p))
  | None => d_initialized (descriptor p) = false /\ (d_type (descriptor p) = LuaType \/ d_type (descriptor p) = WasmType)
  end.

Definition registry_ok (l : list plugin) : Prop := Forall plugin_ok l.

Lemma load_native_ok path l l' : load_native open_library path l = Ret l' -> registry_ok l ->
  registry_ok l' /\ exists p, l' = l ++ [p] /\ d_path (descriptor p) = path /\ d_initialized (descriptor p) = false /\ code_of p <> None.
Proof.
  unfold load_native. destruct (open_library path) as [| | |[info|] code]; try done. destruct (i_name info) as [name|]; [|done].
  intros H. inv_ret. destruct (i_abi_version info) as [abi|]; [|done]. inv_ret. intros Hl.
  repeat match goal with E : negb _ = false |- _ => apply negb_false_iff in E end.
  match goal with E : (_ =s _) = true |- _ => apply eqb_bytes_true in E end.
  split; [|eexists; split_and!; done]. apply Forall_app. split; [done|]. constructor; [|done]. unfold plugin_ok. cbn [code_of descriptor native_descriptor d_name d_abi_version d_type d_capabilities].
  split_and!; [by destruct name|done|done|]. apply Forall_forall. intros c Hc%list_elem_of_In%filter_In. destruct Hc as [_ Hc]. by destruct c.
Qed.

Lemma load_path_ok t path l : t = LuaType \/ t = WasmType -> registry_ok l -> registry_ok (load_path stem t path l).
Proof. intros Ht Hl. apply Forall_app. split; [done|]. by constructor. Qed.

Lemma with_initialized_ok p b : plugin_ok p -> (b = true -> code_of p <> None) -> plugin_ok (with_initialized b p).
Proof.
  unfold plugin_ok. cbn [with_initialized code_of]. destruct (code_of p); [by intros ? _|]. intros [_ Ht] Hb. cbn. split; [|done].
  destruct b; [by destruct (Hb eq_refl)|done].
Qed.

Lemma initialize_all_ok l w r l' w' : initialize_all emit l w = (r, l', w') -> registry_ok l -> registry_ok l'.
Proof.
  intros H Hl. revert w r l' w' H. induction Hl as [|p l Hp Hl IH]; intros w r l' w'; cbn [initialize_all]; [intros [= <- <- <-]; by constructor|].
  destruct (if d_initialized (descriptor p) then None else code_of p) as [code|] eqn:Ec.
  - assert (Hc : code_of p <> None) by (destruct (d_initialized (descriptor p)); congruence).
    destruct (match initialize code with Some f => _ | None => _ end) as [rc w1]. destruct (negb (rc =? 0)%Z); [intros [= <- <- <-]; by constructor|].
    destruct (emit _ w1) as [[ev|e] w2].
    + destruct (initialize_all emit l w2) as [[r2 l2] w3] eqn:E. intros [= <- <- <-]. constructor; [by apply with_initialized_ok|by eapply IH].
    + intros [= <- <- <-]. constructor; [by apply with_initialized_ok|done].
  - destruct (initialize_all emit l w) as [[r2 l2] w3] eqn:E. intros [= <- <- <-]. constructor; [done|by eapply IH].
Qed.

Lemma shutdown_all_ok l w r l' w' : shutdown_all emit l w = (r, l', w') -> registry_ok l -> registry_ok l' /\ (r = Ret tt -> l' = []).
Proof.
  intros H Hl. revert w r l' w' H. induction Hl as [|p l Hp Hl IH]; intros w r l' w'; cbn [shutdown_all]; [intros [= <- <- <-]; split; [by constructor|done]|].
  destruct (emit _ w) as [[ev|e] w1]; [|intros [= <- <- <-]; split; [by constructor|done]].
  destruct (shutdown_all emit l _) as [[r2 l2] w3] eqn:E. destruct (IH _ _ _ _ E) as [H1 H2].
  destruct r2 as [[]|e]; intros [= <- <- <-]; (split; [|done]); [by apply Forall_nil|]. constructor; [by apply (with_initialized_ok p false Hp)|done].
Qed.

Lemma discover_ok files l n ws l' : discover open_library stem extension files l = (n, ws, l') -> registry_ok l ->
  registry_ok l' /\ N.of_nat (length l') = (N.of_nat (length l) + n)%N.
Proof.
  revert l n ws l'. induction files as [|path files IH]; intros l n ws l'; cbn [discover]; [intros [= <- <- <-]; split; [done|lia]|].
  destruct (one_of _ _).
  - destruct (load_native open_library path l) as [l1|e] eqn:El.
    + destruct (discover _ _ _ files l1) as [[n1 ws1] l2] eqn:E. intros [= <- <- <-] Hl.
      destruct (load_native_ok _ _ _ El Hl) as (Hl1 & p & -> & _). destruct (IH _ _ _ _ E Hl1) as [H1 H2].
      rewrite length_app in H2. cbn in H2. split; [done|lia].
    + destruct (discover _ _ _ files l) as [[n1 ws1] l2] eqn:E. intros [= <- <- <-] Hl. by destruct (IH _ _ _ _ E Hl).
  - destruct (_ =s lit ".lua").
    + destruct (discover _ _ _ files _) as [[n1 ws1] l2] eqn:E. intros [= <- <- <-] Hl.
      destruct (IH _ _ _ _ E) as [H1 H2]; [apply load_path_ok; auto|]. unfold load_lua, load_path in H2. rewrite length_app in H2. cbn in H2. split; [done|lia].
    + destruct (_ =s lit ".wasm"); [|by apply IH].
      destruct (discover _ _ _ files _) as [[n1 ws1] l2] eqn:E. intros [= <- <- <-] Hl.
      destruct (IH _ _ _ _ E) as [H1 H2]; [apply load_path_ok; auto|]. unfold load_wasm, load_path in H2. rewrite length_app in H2. cbn in H2. split; [done|lia].
Qed.

(** The operations that change the registry. *)
Inductive RegistryOp := LoadNative (path : bytes) | LoadLua (path : bytes) | LoadWasm (path : bytes) | Discover (files : list bytes)
  | InitializeAll | ShutdownAll.

Definition registry_step (o : RegistryOp) (s : list plugin * W) : list plugin * W :=
  let '(l, w) := s in
  match o with
  | LoadNative path => (match load_native open_library path l with Ret l' => l' | Throw _ => l end, w)
  | LoadLua path => (load_lua stem path l, w)
  | LoadWasm path => (load_wasm stem path l, w)
  | Discover files => ((discover open_library stem extension files l).2, w)
  | InitializeAll => let '(_, l', w') := initialize_all emit l w in (l', w')
  | ShutdownAll => let '(_, l', w') := shutdown_all emit l w in (l', w')
  end.

(** C24: whatever is loaded, discovered, initialized and shut down in whatever order, and
    whether or not it succeeds: every native plugin of the registry has a name, the ABI
    version and a type of this program, and only plugins with code are ever initialized. *)
Theorem registry_reachable ops w :
  registry_ok (foldl (fun s o => registry_step o s) ([], w) ops).1.
Proof.
  assert (H : forall ops s, registry_ok s.1 -> registry_ok (foldl (fun s o => registry_step o s) s ops).1); [|by apply H, Forall_nil].
  clear. induction ops as [|o ops IH]; intros [l w] Hl; [done|]. cbn [foldl]. apply IH. cbn [fst] in Hl.
  destruct o as [path|path|path|files| |]; cbn [registry_step].
  - destruct (load_native open_library path l) eqn:E; [|done]. cbn. by eapply load_native_ok.
  - apply load_path_ok; auto.
  - apply load_path_ok; auto.
  - destruct (discover open_library stem extension files l) as [[n ws] l'] eqn:E. cbn. by eapply discover_ok.
  - destruct (initialize_all emit l w) as [[r l'] w'] eqn:E. cbn. by eapply initialize_all_ok.
  - destruct (shutdown_all emit l w) as [[r l'] w'] eqn:E. cbn. by eapply shutdown_all_ok.
Qed.

(** Initialization ends with every plugin that has code initialized, and counts those that
    were not; doing it again does nothing. *)
Lemma initialize_all_complete l w n l' w' : initialize_all emit l w = (Ret n, l', w') ->
  Forall (fun p => code_of p <> None -> d_initialized (descriptor p) = true) l' /\
  n = N.of_nat (length (List.filter (fun p => negb (d_initialized (descriptor p)) && bool_decide (is_Some (code_of p))) l)) /\
  forall w2, initialize_all emit l' w2 = (Ret 0%N, l', w2).
Proof.
  revert w n l' w'. induction l as [|p l IH]; intros w n l' w'; cbn [initialize_all]; [intros [= <- <- <-]; by constructor|].
  destruct (d_initialized (descriptor p)) eqn:Ei; [|destruct (code_of p) as [code|] eqn:Ec].
  - destruct (initialize_all emit l w) as [[r2 l2] w3] eqn:E. intros [= -> <- <-]. destruct (IH _ _ _ _ E) as (H1 & -> & H3).
    cbn [List.filter]. rewrite Ei. cbn [negb andb]. split_and!; [by constructor|done|]. intros w2. cbn [initialize_all]. by rewrite Ei, H3.
  - destruct (match initialize code with Some f => _ | None => _ end) as [rc w1]. destruct (negb (rc =? 0)%Z); [done|].
    destruct (emit _ w1) as [[ev|e] w2]; [|done]. destruct (initialize_all emit l w2) as [[r2 l2] w3] eqn:E. intros [= Hr <- <-].
    destruct r2 as [n2|]; [|done]. injection Hr as <-. destruct (IH _ _ _ _ E) as (H1 & -> & H3).
    cbn [List.filter]. rewrite Ei, Ec. cbn [negb andb]. rewrite bool_decide_true by eauto. cbn [length]. split_and!; [by constructor|lia|].
    intros w4. cbn [initialize_all with_initialized descriptor d_initialized]. by rewrite H3.
  - destruct (initialize_all emit l w) as [[r2 l2] w3] eqn:E. intros [= -> <- <-]. destruct (IH _ _ _ _ E) as (H1 & -> & H3).
    cbn [List.filter]. rewrite Ei, Ec. cbn [negb andb]. rewrite bool_decide_false by (intros [? ?]; done). split_and!; [constructor; [done|done]|done|].
    intros w2. cbn [initialize_all]. by rewrite Ei, Ec, H3.
Qed.

(** *** Hooks *)

(** The hooks of the plugins that take part, one after the other on the request the one
    before left. *)
Fixpoint hook_chain (fs : list (CRequest -> Prelude.op W (Z * HookResult))) (request : HttpRequest) : Prelude.op W HttpRequest := fun w =>
  match fs with
  | [] => (Ret request, w)
  | f :: fs' =>
      let '(answer, w') := no_throw no_hook (f (make_c_request request)) w in
      match hooked_request request answer with Throw e => (Throw e, w') | Ret request' => hook_chain fs' request' w' end
  end.

Lemma dispatch_chain l request w :
  dispatch_before_request l request w = hook_chain (omap (active before_request) l) request w.
Proof.
  revert request w. induction l as [|p l IH]; intros request w; [done|]. cbn [dispatch_before_request].
  change (omap (active before_request) (p :: l)) with
    (match active before_request p with Some y => y :: omap (active before_request) l | None => omap (active before_request) l end).
  destruct (active before_request p); [|apply IH]. cbn [hook_chain]. destruct (no_throw _ _ w) as [answer w'].
  destruct (hooked_request request answer); [apply IH|done].
Qed.

(** A request passes unchanged when every hook that runs says so, and no hook of a plugin that
    is not initialized runs. *)
Lemma dispatch_unchanged l request w :
  Forall (fun f => forall c v, exists v' : W, f c v = (Ret (0%Z, {| hr_action := HookContinue; hr_replacement := None |}), v'))
    (omap (active before_request) l) ->
  exists w', dispatch_before_request l request w = (Ret request, w').
Proof.
  rewrite dispatch_chain. generalize (omap (active before_request) l). intros fs Hfs. revert w.
  induction Hfs as [|f fs Hf Hfs IH]; intros w; [by eexists|]. cbn [hook_chain]. unfold no_throw.
  destruct (Hf (make_c_request request) w) as [w' ->]. apply IH.
Qed.

End Properties.

(** A replacement goes through the C structures and back; the proxy of the request does not. *)
Example replaced_request_loses_proxy r :
  copy_request (make_c_request r) = Ret r -> request_proxy r = no_proxy_config.
Proof. unfold copy_request, make_c_request. cbn. by intros [= <-]. Qed.
