(* ===== verification/SetCookie.v ===== *)
(** * Cookies of responses: the first part of [src/core/browser.cpp]

    [parse_set_cookie] reads one [Set-Cookie] header for the URL that sent it; the sessions
    ([Session]) put the result into the jar of [Storage].  The clock is the argument [now];
    [read_time] is [std::get_time] with one of the three formats followed by [timegm]. *)
From S2P Require Import Prelude Url Redaction Proxy Message Storage CookieRecord.

(** ** Headers *)

Definition header_name_equal (left right : bytes) : bool := to_lower left =s to_lower right.

Definition sensitive_redirect_header (name : bytes) : bool :=
  header_name_equal name (lit "Authorization") || header_name_equal name (lit "Proxy-Authorization") ||
  header_name_equal name (lit "Cookie").

Definition same_origin (left right : Url) : bool :=
  (scheme left =s scheme right) && (host left =s host right) && (port left =s port right) &&
  has_authority left && has_authority right.

Definition header_value (l : header_list) (name : bytes) : bytes :=
  match List.find (fun '(key, _) => header_name_equal key name) l with Some (_, value) => value | None => [] end.

(** ** Times *)

Definition int64_max : Z := 2 ^ 63 - 1.
Definition int64_min : Z := - 2 ^ 63.
Definition in_int64 (n : Z) : bool := (int64_min <=? n)%Z && (n <=? int64_max)%Z.

(** The sums of the code do not wrap for a [timestamp] that is not negative. *)
Definition add_seconds (timestamp seconds : Z) : Z :=
  if (0 <? seconds)%Z && (int64_max - timestamp <? seconds)%Z then int64_max
  else if (seconds <? 0)%Z && (seconds <? int64_min + timestamp)%Z then int64_min
  else (timestamp + seconds)%Z.

(** [std::from_chars] into a [std::int64_t], when it has to read everything. *)
Definition parse_seconds (s : bytes) : option Z :=
  let '(negative, digits) := match s with c :: s' => if c =c "-" then (true, s') else (false, s) | [] => (false, s) end in
  if nonempty digits && forallb is_digit digits then
    let n := if negative then (- Z.of_N (read_N digits))%Z else Z.of_N (read_N digits) in
    if in_int64 n then Some n else None
  else None.

Definition date_formats : list bytes :=
  [lit "%a, %d %b %Y %H:%M:%S GMT"; lit "%A, %d-%b-%y %H:%M:%S GMT"; lit "%a %b %d %H:%M:%S %Y"].

(** ** [Set-Cookie] *)

Definition default_cookie_path (origin : Url) : bytes :=
  let p := if nonempty (path origin) then path origin else lit "/" in
  if negb (starts_with (lit "/") p) then lit "/"
  else match find_last_if is_slash p with
       | Some (S n) => take (S n) p
       | _ => lit "/"
       end.

Definition cookie_named (name value p : bytes) : Cookie :=
  {| c_name := name; c_value := value; c_domain := []; c_path := p; secure := false; http_only := false;
     host_only := true; expires_unix := None; same_site := [] |}.

Definition with_expires (t : option Z) (c : Cookie) : Cookie :=
  {| c_name := c_name c; c_value := c_value c; c_domain := c_domain c; c_path := c_path c; secure := secure c;
     http_only := http_only c; host_only := host_only c; expires_unix := t; same_site := same_site c |}.

Definition with_flags (s h : bool) (c : Cookie) : Cookie :=
  {| c_name := c_name c; c_value := c_value c; c_domain := c_domain c; c_path := c_path c; secure := s;
     http_only := h; host_only := host_only c; expires_unix := expires_unix c; same_site := same_site c |}.

Definition with_same_site (v : bytes) (c : Cookie) : Cookie :=
  {| c_name := c_name c; c_value := c_value c; c_domain := c_domain c; c_path := c_path c; secure := secure c;
     http_only := http_only c; host_only := host_only c; expires_unix := expires_unix c; same_site := v |}.

(** What the loop over the attributes carries: the cookie, [max_age] and [expires_date]. *)
Definition reading : Type := Cookie * option Z * option Z.

(** [host] is the domain or ends with a dot and the domain. *)
Definition covered_by (domain host : bytes) : bool :=
  (domain =s host) ||
  ((length domain <? length host) && (drop (length host - length domain) host =s domain) &&
   match host !! (length host - length domain - 1) with Some c => c =c "." | None => false end).

Section Clock.
Context (read_time : bytes -> bytes -> option Z) (now : Z).

Definition parse_cookie_date (value : bytes) : option Z :=
  head (omap (fun format => read_time format value) date_formats).

(** The effect of an attribute by its name. *)
Definition apply_attribute (name value : bytes) (s : reading) : reading :=
  let '(c, max_age, expires_date) := s in
  if (name =s lit "domain") && nonempty value then (with_domain value false c, max_age, expires_date)
  else if (name =s lit "path") && starts_with (lit "/") value then (with_cookie_path value c, max_age, expires_date)
  else if name =s lit "secure" then (with_flags true (http_only c) c, max_age, expires_date)
  else if name =s lit "httponly" then (with_flags (secure c) true c, max_age, expires_date)
  else if name =s lit "samesite" then (with_same_site value c, max_age, expires_date)
  else if name =s lit "max-age" then
    (c, match parse_seconds value with Some n => Some n | None => max_age end, expires_date)
  else if name =s lit "expires" then
    (c, max_age, match parse_cookie_date value with Some t => Some t | None => expires_date end)
  else s.

(** One round of the loop. *)
Definition cookie_attribute (s : reading) (text : bytes) : reading :=
  let '(n, v, _) := cut_off (is_ch "=") (trim text) in
  apply_attribute (to_lower (trim n)) (trim v) s.

(** What the code does after the loop: the expiry, and the checks against the origin. *)
Definition finish_cookie (origin : Url) (s : reading) : option Cookie :=
  let '(c, max_age, expires_date) := s in
  let c := match max_age, expires_date with
           | Some n, _ => with_expires (Some (add_seconds now n)) c
           | None, Some t => with_expires (Some t) c
           | None, None => c
           end in
  if secure c && negb (scheme origin =s lit "https") then None
  else if nonempty (c_domain c) then
    let c := with_domain (to_lower (skip (is_ch ".") (c_domain c))) (host_only c) c in
    if covered_by (c_domain c) (host origin) then Some c else None
  else Some c.

Definition parse_set_cookie (header : bytes) (origin : Url) : option Cookie :=
  let '(first, rest, _) := cut_off (is_ch ";") header in
  let '(n, v, equals) := cut_off (is_ch "=") (trim first) in
  if negb equals || negb (nonempty n) then None
  else
    let name := trim n in
    if negb (nonempty name) then None
    else finish_cookie origin (foldl cookie_attribute (cookie_named name (trim v) (default_cookie_path origin), None, None) (getlines ";" rest)).

End Clock.

(** ** Times *)

(** The end of a cookie with [Max-Age]: it is a number of 64 bits, exact when it fits, and in
    the future exactly for a positive age. *)
Lemma add_seconds_spec timestamp seconds :
  (0 <= timestamp < int64_max)%Z -> in_int64 seconds = true ->
  in_int64 (add_seconds timestamp seconds) = true /\
  (timestamp < add_seconds timestamp seconds <-> 0 < seconds)%Z /\
  ((0 <= seconds)%Z -> add_seconds timestamp seconds = Z.min int64_max (timestamp + seconds)).
Proof.
  unfold in_int64, add_seconds, int64_max, int64_min. intros Ht Hs.
  apply andb_prop in Hs as [Hs1%Z.leb_le Hs2%Z.leb_le].
  destruct (Z.ltb_spec 0 seconds); cbn [andb].
  - destruct (Z.ltb_spec (2 ^ 63 - 1 - timestamp) seconds).
    + rewrite andb_true_iff, !Z.leb_le. lia.
    + destruct (Z.ltb_spec seconds 0); [lia|]. cbn [andb]. rewrite andb_true_iff, !Z.leb_le. lia.
  - destruct (Z.ltb_spec seconds 0); cbn [andb].
    + destruct (Z.ltb_spec seconds (- 2 ^ 63 + timestamp)); rewrite andb_true_iff, !Z.leb_le; lia.
    + rewrite andb_true_iff, !Z.leb_le. lia.
Qed.

(** ** Tokens *)

(** A text without white space at its ends. *)
Definition trimmed (s : bytes) : Prop := skip is_blank s = s /\ rstrip is_blank s = s.

Lemma trim_trimmed s : trimmed s -> trim s = s.
Proof. intros [H1 H2]. unfold trim. by rewrite H1. Qed.

Lemma trimmed_head s : trimmed s -> s <> [] -> exists c t, s = c :: t /\ is_blank c = false.
Proof.
  intros [H _] Hs. destruct s as [|c t]; [done|]. exists c, t. split; [done|]. cbn in H. destruct (is_blank c) eqn:E; [|done].
  pose proof (length_skip is_blank t) as Hl. rewrite H in Hl. cbn in Hl. lia.
Qed.

Lemma skip_cons p s c t : skip p s = c :: t -> p c = false.
Proof. induction s as [|d s IH]; cbn; [done|]. destruct (p d) eqn:E; [done|]. by intros [= <- _]. Qed.

Lemma trim_is_trimmed s : trimmed (trim s).
Proof.
  unfold trim. split; [|apply rstrip_idem]. destruct (skip is_blank s) as [|c t] eqn:E; [done|].
  apply skip_cons in E. destruct (rstrip_head is_blank c t E) as [r ->]. by apply skip_stop.
Qed.

(** ** What a header gives *)

Lemma covered_by_spec domain host :
  covered_by domain host = true <-> host = domain \/ exists sub, host = sub ++ lit "." ++ domain.
Proof.
  unfold covered_by. rewrite orb_true_iff, eqb_bytes_true. split.
  - intros [->|H]; [by left|right]. split_andb. apply Nat.ltb_lt in H. apply eqb_bytes_true in H1.
    destruct (host !! (length host - length domain - 1)) as [c|] eqn:Ec; [|done]. apply eqc_true in H0 as ->.
    exists (take (length host - length domain - 1) host). rewrite <- H1 at 2. rewrite <- (take_drop_middle host _ _ Ec) at 1.
    change (lit "." ++ ?x) with ("."%char :: x). do 2 f_equal. f_equal. lia.
  - intros [->|[sub ->]]; [by left|right]. change (lit "." ++ domain) with ("."%char :: domain). rewrite length_app. cbn [length].
    rewrite (proj2 (Nat.ltb_lt _ _)) by lia. replace (length sub + S (length domain) - length domain) with (length sub + 1) by lia.
    rewrite drop_app_S, eqb_bytes_refl. replace (length sub + 1 - 1) with (length sub) by lia. by rewrite list_lookup_middle.
Qed.

Lemma starts_with_one c d p : starts_with [c] (d :: p) = (d =c c).
Proof. cbn. by rewrite andb_true_r, Ascii.eqb_sym. Qed.

Section Properties.
Context (read_time : bytes -> bytes -> option Z) (now : Z).

Definition reading_ok (name value : bytes) (c : Cookie) : Prop :=
  c_name c = name /\ c_value c = value /\ starts_with (lit "/") (c_path c) = true /\
  (c_domain c = [] <-> host_only c = true).

Lemma read_attribute_ok name value s text :
  reading_ok name value s.1.1 -> reading_ok name value (cookie_attribute read_time s text).1.1.
Proof.
  destruct s as [[c age] date]. unfold reading_ok, cookie_attribute. destruct (cut_off (is_ch "=") (trim text)) as [[n v] f]. unfold apply_attribute.
  generalize (to_lower (trim n)) (trim v). clear. intros k v (H1 & H2 & H3 & H4). cbn [fst] in *.
  destruct ((k =s lit "domain") && nonempty v) eqn:E1.
  { apply andb_prop in E1 as [_ Hv]. cbn. split_and!; [done..|]. by destruct v. }
  destruct ((k =s lit "path") && starts_with (lit "/") v) eqn:E2; [by apply andb_prop in E2 as [_ E2]|].
  repeat match goal with |- context [if ?b then _ else _] => destruct b end; done.
Qed.

Lemma read_attributes_ok name value l s :
  reading_ok name value s.1.1 -> reading_ok name value (foldl (cookie_attribute read_time) s l).1.1.
Proof. revert s. induction l as [|text l IH]; intros s H; [done|]. cbn [foldl]. by apply IH, read_attribute_ok. Qed.

Lemma default_cookie_path_slash origin : starts_with (lit "/") (default_cookie_path origin) = true.
Proof.
  unfold default_cookie_path. set (p := if nonempty (path origin) then _ else _). destruct (starts_with (lit "/") p) eqn:E; [|done].
  cbn [negb]. destruct (find_last_if is_slash p) as [[|n]|]; [done| |done]. by destruct p.
Qed.

Lemma lower_undotted s : starts_with (lit ".") (to_lower (skip (is_ch ".") s)) = false.
Proof.
  destruct (skip (is_ch ".") s) as [|c t] eqn:E; [done|]. apply skip_cons in E. change (("."%char =c tolower c) && true = false).
  revert E. by_ascii c.
Qed.

(** A cookie is accepted only with a name, a rooted path, over [https] when it is secure, and
    for the domain of the host that sends it; its name and value are in the header. *)
Lemma set_cookie_sound header origin c :
  parse_set_cookie read_time now header origin = Some c ->
  c_name c <> [] /\ trimmed (c_name c) /\ trimmed (c_value c) /\
  starts_with (lit "/") (c_path c) = true /\
  (secure c = true -> scheme origin = lit "https") /\
  ((c_domain c = [] /\ host_only c = true) \/
   (host_only c = false /\ covered_by (c_domain c) (host origin) = true /\ to_lower (c_domain c) = c_domain c /\
    starts_with (lit ".") (c_domain c) = false)).
Proof.
  unfold parse_set_cookie. destruct (cut_off (is_ch ";") header) as [[first rest] f]. destruct (cut_off (is_ch "=") (trim first)) as [[n v] equals].
  destruct (negb equals || negb (nonempty n)); [done|]. destruct (nonempty (trim n)) eqn:En; cbn [negb]; [|done].
  pose proof (read_attributes_ok (trim n) (trim v) (getlines ";" rest) (cookie_named (trim n) (trim v) (default_cookie_path origin), None, None)) as H.
  destruct (foldl (cookie_attribute read_time) _ _) as [[c0 age] date].
  destruct H as (H1 & H2 & H3 & H4); [split_and!; [done..|apply default_cookie_path_slash|done]|]. cbn [fst] in *.
  unfold finish_cookie. set (c1 := match age, date with Some n, _ => _ | None, Some t => _ | None, None => _ end).
  assert (Hc1 : c_name c1 = trim n /\ c_value c1 = trim v /\ c_path c1 = c_path c0 /\ secure c1 = secure c0 /\ c_domain c1 = c_domain c0 /\ host_only c1 = host_only c0)
    by (destruct age, date; done).
  clearbody c1. destruct Hc1 as (D1 & D2 & D3 & D4 & D5 & D6).
  destruct (secure c1 && negb (scheme origin =s lit "https")) eqn:Es; [done|].
  assert (Hs : secure c1 = true -> scheme origin = lit "https").
  { intros E. rewrite E in Es. cbn in Es. by apply negb_false_iff, eqb_bytes_true in Es. }
  destruct (nonempty (c_domain c1)) eqn:Ed.
  - destruct (covered_by _ _) eqn:Ec; [|done]. intros [= <-]. cbn [with_domain c_name c_value c_path secure c_domain host_only] in *.
    rewrite D1, D2, D3, D6. split_and!; try done; [by destruct (trim n)|apply trim_is_trimmed..|].
    right. split_and!; [|done|apply to_lower_idemp|apply lower_undotted]. destruct (host_only c0) eqn:Eh; [|done].
    rewrite D5, (proj2 H4) in Ed by done. done.
  - intros [= <-]. rewrite D1, D2, D3. split_and!; try done; [by destruct (trim n)|apply trim_is_trimmed..|].
    left. rewrite D5, D6 in *. assert (c_domain c0 = []) as E by (by destruct (c_domain c0)). split; [done|]. by apply H4.
Qed.

Lemma covered_in_domain c h : to_lower h = h -> to_lower (c_domain c) = c_domain c -> covered_by (c_domain c) h = true ->
  (host_only c = false) -> in_domain c h.
Proof.
  intros Hh Hd Hc Ho. unfold in_domain. rewrite Hh, Hd. apply covered_by_spec in Hc as [->|[sub ->]]; [by left|].
  right. split; [done|]. by exists sub.
Qed.

(** What [parse_set_cookie] accepts, the jar accepts too. *)
Lemma accepted_is_admitted header origin c :
  parse_set_cookie read_time now header origin = Some c -> host origin <> [] -> to_lower (host origin) = host origin ->
  exists c', admit_cookie origin c = Some c' /\ c_path c' = c_path c.
Proof.
  intros H Hh Hl. apply set_cookie_sound in H as (H1 & _ & _ & H2 & _ & H3). unfold admit_cookie.
  assert (nonempty (c_name c) = true) as -> by (by destruct (c_name c)). assert (nonempty (host origin) = true) as -> by (by destruct (host origin)).
  cbn [negb orb].
  assert (Hp : forall x, c_path x = c_path c -> match c_path x with [] => with_cookie_path (lit "/") x | d :: _ => if d =c "/" then x else with_cookie_path (lit "/") x end = x).
  { intros x ->. destruct (c_path c) as [|d p]; [done|]. change (lit "/") with ["/"%char] in H2. rewrite starts_with_one in H2. by rewrite H2. }
  destruct (c_domain c) as [|d0 dom] eqn:Ed; cbn [nonempty andb].
  - exists (with_domain (to_lower (host origin)) true c). by rewrite Hp.
  - destruct H3 as [[? _]|(Ho & Hc & Hlow & Hdot)]; [done|].
    assert (skip (fun d => d =c ".") (d0 :: dom) = d0 :: dom) as ->.
    { change (lit ".") with ["."%char] in Hdot. rewrite starts_with_one in Hdot. cbn. by rewrite Hdot. }
    rewrite Hlow. set (c1 := with_domain _ _ c).
    assert (domain_matches c1 (host origin) = true) as ->.
    { apply domain_matches_spec. split; [done|]. apply covered_in_domain; [done|done|done|done]. }
    cbn [negb]. exists c1. by rewrite Hp.
Qed.

Lemma jar_set_stores origin c c' j : admit_cookie origin c = Some c' -> expired now c = false -> c' ∈ jar_set now origin c j.
Proof.
  intros Ha He. unfold jar_set. rewrite Ha. apply admit_cookie_spec in Ha as (_ & _ & _ & Hx & _).
  assert (expired now c' = false) as -> by (unfold expired in *; by rewrite Hx). apply elem_of_app. right. constructor.
Qed.

(** A cookie that a response sets comes back: whatever [parse_set_cookie] accepts for the
    URL of a response, unless it has expired, the jar keeps with its name, value and path in
    place of what had its name, domain and path, for a domain of the sending host, and sends
    to a URL of the same scheme and host exactly when the path of the cookie covers its
    path. *)
Theorem set_cookie_sent header origin c j u :
  parse_set_cookie read_time now header origin = Some c -> host origin <> [] -> to_lower (host origin) = host origin ->
  expired now c = false -> scheme u = scheme origin -> host u = host origin ->
  exists c', c_name c' = c_name c /\ c_value c' = c_value c /\ c_path c' = c_path c /\ in_domain c' (host origin) /\
    c' ∈ jar_set now origin c j /\
    (c' ∈ jar_get now u (jar_set now origin c j) <->
     path_matches c (if nonempty (path u) then path u else lit "/") = true).
Proof.
  intros H Hh Hl He Hs Hu. destruct (accepted_is_admitted _ _ _ H Hh Hl) as (c' & Ha & Hp).
  exists c'. destruct (admit_cookie_spec _ _ _ Ha) as (A1 & A2 & A3 & A4 & A5 & A6 & _). split_and!; try done; [by apply jar_set_stores|].
  unfold jar_get. rewrite sort_cookies_elem, list_elem_of_In, filter_In, <- list_elem_of_In.
  assert (Hm : path_matches c' (if nonempty (path u) then path u else lit "/") = path_matches c (if nonempty (path u) then path u else lit "/"))
    by (unfold path_matches; by rewrite Hp).
  rewrite <- Hm. unfold sent_to. assert (expired now c' = false) as -> by (unfold expired in *; by rewrite A4).
  rewrite Hu, (proj2 (domain_matches_spec c' (host origin))) by done. rewrite A3, Hs.
  assert (secure c && negb (scheme origin =s lit "https") = false) as ->.
  { apply set_cookie_sound in H as (_ & _ & _ & _ & H & _). destruct (secure c); [|done]. rewrite H, eqb_bytes_refl by done. done. }
  cbn [negb andb]. split; [tauto|]. intros Hm'. split; [by apply jar_set_stores|done].
Qed.

(** ** Reading a printed cookie *)

Definition field_text (s : bytes) : Prop := none (is_ch ";") s = true /\ trimmed s.

Record cookie_ok (c : Cookie) : Prop := {
  name_field : field_text (c_name c); name_plain : none (is_ch "=") (c_name c) = true; name_nonempty : c_name c <> [];
  value_field : field_text (c_value c); path_field : field_text (c_path c); path_rooted : starts_with (lit "/") (c_path c) = true;
  domain_field : field_text (c_domain c); domain_lower : to_lower (c_domain c) = c_domain c;
  domain_undotted : starts_with (lit ".") (c_domain c) = false; domain_host : host_only c = negb (nonempty (c_domain c));
  same_site_field : field_text (same_site c) }.

Definition attribute_text (key value : bytes) : bytes := lit " " ++ key ++ lit "=" ++ value.

Definition attribute_texts (c : Cookie) (age : option Z) : list bytes :=
  attribute_text (lit "Path") (c_path c) ::
  (if nonempty (c_domain c) then [attribute_text (lit "Domain") (c_domain c)] else []) ++
  (if secure c then [lit " Secure"] else []) ++ (if http_only c then [lit " HttpOnly"] else []) ++
  (if nonempty (same_site c) then [attribute_text (lit "SameSite") (same_site c)] else []) ++
  match age with Some n => [attribute_text (lit "Max-Age") (print_Z n)] | None => [] end.

(** A header for the cookie, with a [Max-Age] when it expires. *)
Definition cookie_text (c : Cookie) (age : option Z) : bytes :=
  c_name c ++ lit "=" ++ c_value c ++ lit ";" ++ join_with (lit ";") (attribute_texts c age).

Lemma trim_pair k v : trimmed k -> k <> [] -> trimmed v -> trim (k ++ lit "=" ++ v) = k ++ lit "=" ++ v.
Proof.
  intros Hk Hn [_ Hv]. destruct (trimmed_head k Hk Hn) as (c & t & -> & Hc). unfold trim. cbn [app]. rewrite (skip_stop is_blank c) by done.
  apply (rstrip_app is_blank (c :: t) (lit "=" ++ v)); [|done]. change (lit "=" ++ v) with ("="%char :: v). cbn [rstrip].
  rewrite Hv. by destruct v.
Qed.

Lemma cookie_attribute_text key value s : trimmed key -> key <> [] -> none (is_ch "=") key = true -> trimmed value ->
  cookie_attribute read_time s (attribute_text key value) = apply_attribute read_time (to_lower key) value s.
Proof.
  intros Hk Hn He Hv. unfold cookie_attribute, attribute_text.
  assert (trim (lit " " ++ key ++ lit "=" ++ value) = key ++ lit "=" ++ value) as -> by exact (trim_pair key value Hk Hn Hv).
  change (lit "=" ++ value) with ("="%char :: value). rewrite cut_off_mid by done. by rewrite !trim_trimmed.
Qed.

Lemma none_blank_trimmed s : none is_blank s = true -> trimmed s.
Proof. intros H. rewrite <- (blank_stripped s H). apply trim_is_trimmed. Qed.

Lemma print_Z_chars n : forallb (fun c => is_digit c || (c =c "-")) (print_Z n) = true.
Proof.
  unfold print_Z. rewrite forallb_app. apply andb_true_intro. split; [by destruct (n <? 0)%Z|].
  eapply forallb_impl; [|apply print_N_spec]. intros c Hc. by rewrite Hc.
Qed.

Lemma print_Z_none p n : (forall c, is_digit c || (c =c "-") = true -> p c = false) -> none p (print_Z n) = true.
Proof. intros H. eapply none_forallb; [exact H|apply print_Z_chars]. Qed.

Lemma parse_print_seconds n : in_int64 n = true -> parse_seconds (print_Z n) = Some n.
Proof.
  intros Hn. unfold parse_seconds, print_Z. destruct (print_N_spec (Z.abs_N n)) as (H1 & H2 & H3).
  destruct (Z.ltb_spec n 0); cbn [opt_bytes app].
  - change (lit "-" ++ print_N (Z.abs_N n)) with ("-"%char :: print_N (Z.abs_N n)). cbv iota beta. rewrite Ascii.eqb_refl, H1, H2.
    assert (nonempty (print_N (Z.abs_N n)) = true) as -> by (by destruct (print_N _)). cbn [andb].
    assert ((- Z.of_N (Z.abs_N n))%Z = n) as -> by lia. by rewrite Hn.
  - destruct (print_N (Z.abs_N n)) as [|c t] eqn:E; [done|]. cbv iota beta. assert ((c =c "-") = false) as ->.
    { cbn in H1. apply andb_prop in H1 as [Hc _]. revert Hc. clear. by_ascii c. }
    rewrite H1, H2. cbn [nonempty andb]. assert (Z.of_N (Z.abs_N n) = n) as -> by lia. by rewrite Hn.
Qed.

Lemma attribute_texts_ok c age : cookie_ok c ->
  Forall (fun t => none (fun d => d =c ";") t = true /\ t <> []) (attribute_texts c age).
Proof.
  intros [N1 N2 N3 V P1 P2 D1 D2 D3 D4 S]. unfold attribute_texts, attribute_text.
  assert (Ha : forall key value, none (is_ch ";") (lit key) = true -> none (is_ch ";") value = true ->
    none (fun d => d =c ";") (lit " " ++ lit key ++ lit "=" ++ value) = true /\ lit " " ++ lit key ++ lit "=" ++ value <> []).
  { intros key value Hk Hv. split; [|done].
    change (none (is_ch ";") (lit " " ++ lit key ++ lit "=" ++ value) = true). by rewrite !none_app, Hk, Hv. }
  constructor; [by apply Ha, P1|]. repeat (apply Forall_app; split).
  - destruct (nonempty (c_domain c)); [|done]. constructor; [by apply Ha, D1|done].
  - destruct (secure c); [by repeat constructor|done].
  - destruct (http_only c); [by repeat constructor|done].
  - destruct (nonempty (same_site c)); [|done]. constructor; [by apply Ha, S|done].
  - destruct age as [n|]; [|done]. constructor; [apply Ha; [done|]|done]. apply print_Z_none. intros d. by_ascii d.
Qed.

(** Decide the name of an attribute. *)
Ltac decide_name :=
  unfold apply_attribute; cbv iota beta;
  repeat match goal with |- context [(lit ?a =s lit ?b)] =>
    let x := eval vm_compute in (lit a =s lit b) in change (lit a =s lit b) with x; cbv iota; cbn [andb] end.

Lemma read_flag key s : trimmed (lit key) -> none (is_ch "=") (lit key) = true -> lit key <> [] ->
  cookie_attribute read_time s (lit " " ++ lit key) = apply_attribute read_time (to_lower (lit key)) [] s.
Proof.
  intros Hk He Hn. unfold cookie_attribute. assert (trim (lit " " ++ lit key) = lit key) as -> by exact (trim_trimmed _ Hk).
  by rewrite cut_off_none, trim_trimmed.
Qed.

Definition session_cookie (c : Cookie) : Cookie := with_expires None c.

Lemma read_attribute_texts c p age : cookie_ok c -> (forall n, age = Some n -> in_int64 n = true) ->
  foldl (cookie_attribute read_time) (cookie_named (c_name c) (c_value c) p, None, None) (attribute_texts c age) =
  (session_cookie c, age, None).
Proof.
  intros [N1 N2 N3 V P1 P2 D1 D2 D3 D4 S] Hage. unfold attribute_texts. cbn [foldl].
  rewrite cookie_attribute_text by (done || apply P1). change (to_lower (lit "Path")) with (lit "path"). decide_name. rewrite P2. cbv iota.
  rewrite !foldl_app. unfold session_cookie, with_expires, with_cookie_path, cookie_named.
  cbn [c_name c_value c_domain c_path secure http_only host_only expires_unix same_site].
  set (s0 := foldl _ _ (if nonempty (c_domain c) then _ else _)).
  assert (s0 = ({| c_name := c_name c; c_value := c_value c; c_domain := c_domain c; c_path := c_path c; secure := false;
    http_only := false; host_only := host_only c; expires_unix := None; same_site := [] |}, None, None)) as ->.
  { subst s0. rewrite D4. destruct (nonempty (c_domain c)) eqn:E; cbn [foldl].
    - rewrite cookie_attribute_text by (done || apply D1). change (to_lower (lit "Domain")) with (lit "domain"). decide_name. by rewrite E.
    - by destruct (c_domain c). }
  set (s1 := foldl _ _ (if secure c then _ else _)).
  assert (s1 = ({| c_name := c_name c; c_value := c_value c; c_domain := c_domain c; c_path := c_path c; secure := secure c;
    http_only := false; host_only := host_only c; expires_unix := None; same_site := [] |}, None, None)) as ->.
  { subst s1. destruct (secure c); [|done]. cbn [foldl]. by apply (read_flag "Secure"). }
  set (s2 := foldl _ _ (if http_only c then _ else _)).
  assert (s2 = ({| c_name := c_name c; c_value := c_value c; c_domain := c_domain c; c_path := c_path c; secure := secure c;
    http_only := http_only c; host_only := host_only c; expires_unix := None; same_site := [] |}, None, None)) as ->.
  { subst s2. destruct (http_only c); [|done]. cbn [foldl]. by apply (read_flag "HttpOnly"). }
  set (s3 := foldl _ _ (if nonempty (same_site c) then _ else _)).
  assert (s3 = ({| c_name := c_name c; c_value := c_value c; c_domain := c_domain c; c_path := c_path c; secure := secure c;
    http_only := http_only c; host_only := host_only c; expires_unix := None; same_site := same_site c |}, None, None)) as ->.
  { subst s3. destruct (nonempty (same_site c)) eqn:E; cbn [foldl].
    - rewrite cookie_attribute_text by (done || apply S). change (to_lower (lit "SameSite")) with (lit "samesite"). by decide_name.
    - by destruct (same_site c). }
  destruct age as [n|]; [|done]. cbn [foldl]. rewrite cookie_attribute_text.
  - change (to_lower (lit "Max-Age")) with (lit "max-age"). decide_name. by rewrite parse_print_seconds by auto.
  - done.
  - done.
  - done.
  - apply none_blank_trimmed, print_Z_none. intros d. by_ascii d.
Qed.

(** Every cookie whose parts can be written in a header is read back from the header
    written for it, in full: name, value, path, domain, flags, [SameSite] and, when it has a
    [Max-Age], the end that age gives; provided that the origin may set it. *)
Theorem set_cookie_roundtrip origin c age :
  cookie_ok c -> (secure c = true -> scheme origin = lit "https") ->
  (c_domain c <> [] -> covered_by (c_domain c) (host origin) = true) ->
  (forall n, age = Some n -> in_int64 n = true) -> expires_unix c = add_seconds now <$> age ->
  parse_set_cookie read_time now (cookie_text c age) origin = Some c.
Proof.
  intros Hok Hs Hd Hage He. pose proof (attribute_texts_ok c age Hok) as Ht. pose proof (read_attribute_texts c (default_cookie_path origin) age Hok Hage) as Hr.
  destruct Hok as [N1 N2 N3 V P1 P2 D1 D2 D3 D4 S]. unfold parse_set_cookie, cookie_text.
  replace (c_name c ++ lit "=" ++ c_value c ++ lit ";" ++ join_with (lit ";") (attribute_texts c age))
    with ((c_name c ++ lit "=" ++ c_value c) ++ ";"%char :: join_with [";"%char] (attribute_texts c age)) by (by rewrite <- !app_assoc).
  rewrite cut_off_mid by (done || by rewrite !none_app, (proj1 N1), (proj1 V)).
  rewrite trim_pair by (done || apply N1 || apply V). change (lit "=" ++ c_value c) with ("="%char :: c_value c).
  rewrite cut_off_mid by done. rewrite !trim_trimmed by (apply N1 || apply V).
  assert (nonempty (c_name c) = true) as -> by (by destruct (c_name c)). cbn [negb orb].
  rewrite getlines_join, Hr.
  - unfold finish_cookie. set (c1 := match age with Some n => _ | None => _ end).
    assert (c1 = c) as ->. { subst c1. destruct c, age; cbn in *; by rewrite He. }
    destruct (secure c && negb (scheme origin =s lit "https")) eqn:E.
    { destruct (secure c); [|done]. rewrite Hs, eqb_bytes_refl in E by done. done. }
    destruct (nonempty (c_domain c)) eqn:En; [|done].
    assert (skip (is_ch ".") (c_domain c) = c_domain c) as ->.
    { destruct (c_domain c) as [|d t]; [done|]. change (lit ".") with ["."%char] in D3. rewrite starts_with_one in D3. cbn. unfold is_ch. by rewrite D3. }
    rewrite D2. assert (with_domain (c_domain c) (host_only c) c = c) as -> by (by destruct c). rewrite Hd; [done|]. by destruct (c_domain c).
  - eapply Forall_impl; [exact Ht|]. by intros t [? _].
  - intros x Hx%last_Some_elem_of. rewrite Forall_forall in Ht. by apply Ht.
Qed.

End Properties.

(** *** Witnesses *)

Definition demo_origin : Url :=
  {| scheme := lit "https"; userinfo := []; host := lit "shop.example.org"; port := []; path := lit "/cart/view";
     query := []; fragment := []; has_authority := true; has_query := false; has_fragment := false |}.

Definition demo_cookie : Cookie :=
  {| c_name := lit "sid"; c_value := lit "a=b"; c_domain := lit "example.org"; c_path := lit "/cart"; secure := true; http_only := true;
     host_only := false; expires_unix := Some 160%Z; same_site := lit "Lax" |}.

Definition demo_set_cookie : bytes := lit "sid=a=b; Domain=.Example.org; path=/cart; SECURE; HttpOnly; SameSite=Lax; Max-Age=60".

Definition no_dates (format value : bytes) : option Z := None.

Example demo_parsed : parse_set_cookie no_dates 100 demo_set_cookie demo_origin = Some demo_cookie.
Proof. vm_compute. reflexivity. Qed.

Example default_path_parsed : c_path <$> parse_set_cookie no_dates 100 (lit "a=1") demo_origin = Some (lit "/cart").
Proof. vm_compute. reflexivity. Qed.

Example foreign_domain_rejected : parse_set_cookie no_dates 100 (lit "a=1; Domain=hop.example.org") demo_origin = None.
Proof. vm_compute. reflexivity. Qed.

Lemma set_cookie_sent_witness :
  exists c', c_name c' = lit "sid" /\ c' ∈ jar_get 100 demo_origin (jar_set 100 demo_origin demo_cookie []).
Proof.
  destruct (set_cookie_sent no_dates 100 demo_set_cookie demo_origin demo_cookie [] demo_origin) as (c' & H1 & _ & _ & _ & _ & H2).
  - vm_compute. reflexivity.
  - done.
  - vm_compute. reflexivity.
  - vm_compute. reflexivity.
  - reflexivity.
  - reflexivity.
  - exists c'. split; [exact H1|]. apply H2. vm_compute. reflexivity.
Defined.

Lemma demo_cookie_ok : cookie_ok demo_cookie.
Proof. split; try (split; [|split]); try (vm_compute; reflexivity). done. Qed.

Lemma set_cookie_roundtrip_witness :
  parse_set_cookie no_dates 100 (cookie_text demo_cookie (Some 60%Z)) demo_origin = Some demo_cookie.
Proof.
  apply set_cookie_roundtrip.
  - exact demo_cookie_ok.
  - reflexivity.
  - intros _. vm_compute. reflexivity.
  - intros n [= <-]. vm_compute. reflexivity.
  - vm_compute. reflexivity.
Defined.
