(* ===== verification/Session.v ===== *)
(** * Sessions: requests, in [src/core/browser.cpp]

    [Session::request] and what it calls: the headers of the session, the cookies of the
    jar, the events around a request, the hooks of plugins, the report of bot challenges and
    the loop over redirects.  The caller's code is a parameter: [react] is what the handlers
    of an event do, [plugins] the plugins that are loaded, [network] the network client (one
    of them is [Http.send]).  They may change everything a session keeps. *)
From S2P Require Import Event.
From S2P Require Import Prelude Url Redaction Proxy Message Storage SetCookie AntiBot Plugins.

(** The fields of [BrowserConfig] that the functions of this file read. *)
Record BrowserConfig := {
  user_agent : bytes; follow_redirects : bool; max_redirects : Z; b_timeout_ms : Z; b_max_response_bytes : N;
  unsupported_api_behavior : bytes; b_proxy : ProxyConfig }.

(** A request that was given to the network client, with the clock and the cookies of that moment. *)
Record Sending := { sent_request : HttpRequest; sent_at : Z; sent_jar : jar }.

(** What a session keeps, the jar of its browser, and the [rest] of the program; [w_log] is the
    history of the requests given to the network client. *)
Record World {X : Type} := {
  w_jar : jar; w_headers : header_list; w_url : bytes; w_closed : bool; w_detection : option AntiBotDetection;
  w_log : list Sending; rest : X }.
Arguments World : clear implicits.

Section State.
Context {X : Type}.

Definition w_sent (w : World X) : list HttpRequest := sent_request <$> w_log w.

Definition set_jar (j : jar) (w : World X) : World X :=
  {| w_jar := j; w_headers := w_headers w; w_url := w_url w; w_closed := w_closed w; w_detection := w_detection w;
     w_log := w_log w; rest := rest w |}.
Definition set_headers (l : header_list) (w : World X) : World X :=
  {| w_jar := w_jar w; w_headers := l; w_url := w_url w; w_closed := w_closed w; w_detection := w_detection w;
     w_log := w_log w; rest := rest w |}.
Definition set_closed (b : bool) (w : World X) : World X :=
  {| w_jar := w_jar w; w_headers := w_headers w; w_url := w_url w; w_closed := b; w_detection := w_detection w;
     w_log := w_log w; rest := rest w |}.
Definition set_detection (d : option AntiBotDetection) (w : World X) : World X :=
  {| w_jar := w_jar w; w_headers := w_headers w; w_url := w_url w; w_closed := w_closed w; w_detection := d;
     w_log := w_log w; rest := rest w |}.
Definition add_sent (now : Z) (r : HttpRequest) (w : World X) : World X :=
  {| w_jar := w_jar w; w_headers := w_headers w; w_url := w_url w; w_closed := w_closed w; w_detection := w_detection w;
     w_log := w_log w ++ [{| sent_request := r; sent_at := now; sent_jar := w_jar w |}]; rest := rest w |}.

(** *** Headers of the session *)

Fixpoint replace_header (name value : bytes) (l : header_list) : option header_list :=
  match l with
  | [] => None
  | (key, existing) :: l' =>
      if header_name_equal key name then Some ((key, value) :: l') else (fun r => (key, existing) :: r) <$> replace_header name value l'
  end.

(** [Session::set_header]. *)
Definition set_header (name value : bytes) (l : header_list) : header_list :=
  match replace_header name value l with Some l' => l' | None => l ++ [(name, value)] end.

Definition clear_headers (l : header_list) : header_list := [].

End State.

(** [if (header_value(headers, name).empty()) headers.emplace_back(name, value);] *)
Definition default_header (l : header_list) (header : bytes * bytes) : header_list :=
  if nonempty (header_value l header.1) then l else l ++ [header].

Definition with_headers (l : header_list) (r : HttpRequest) : HttpRequest :=
  {| method := method r; request_url := request_url r; request_headers := l; request_body := request_body r;
     timeout_ms := timeout_ms r; max_response_bytes := max_response_bytes r; request_proxy := request_proxy r |}.

Definition accepted_types : bytes := lit "text/html,application/xhtml+xml,*/*;q=0.8".

Definition is_redirect (status : Z) : bool :=
  (status =? 301)%Z || (status =? 302)%Z || (status =? 303)%Z || (status =? 307)%Z || (status =? 308)%Z.

(** [final_url] and [redirect_chain] of what [request] returns. *)
Definition with_final (u : bytes) (chain : list bytes) (r : HttpResponse) : HttpResponse :=
  {| status := status r; headers := headers r; body := body r; final_url := u; redirect_chain := chain |}.

(** 303 reissues as GET; 301 and 302 do, but for GET and HEAD; 307 and 308 do not. *)
Definition reissued_as_get (status : Z) (m : bytes) : bool :=
  (status =? 303)%Z ||
  (negb (status =? 307)%Z && negb (status =? 308)%Z && negb (m =s lit "GET") && negb (m =s lit "HEAD")).

(** The request behind a redirect from [parsed] to [location]. *)
Definition redirected (request : HttpRequest) (parsed : Url) (status : Z) (location : bytes) : result HttpRequest :=
  redirected_url ← resolve_url_string (request_url request) location;
  target ← parse_url redirected_url;
  let kept := if same_origin parsed target then request_headers request
              else List.filter (fun h => negb (sensitive_redirect_header h.1)) (request_headers request) in
  let get := reissued_as_get status (method request) in
  Ret {| method := if get then lit "GET" else method request; request_url := redirected_url; request_headers := kept;
         request_body := if get then [] else request_body request; timeout_ms := timeout_ms request;
         max_response_bytes := max_response_bytes request; request_proxy := request_proxy request |}.

(** [std::to_string] of a confidence. *)
Definition confidence_text (n : N) : bytes :=
  print_N (n / 100) ++ lit "." ++ [digit (n / 10 mod 10); digit (n mod 10)] ++ lit "0000".

Definition event_of (t : EventType) (u name text : bytes) (attrs : gmap bytes bytes) : Event :=
  {| type := t; url := u; ev_name := name; Event.message := text; attributes := attrs; cancelled := false; session_id := [] |}.

Definition in_session (id : bytes) (ev : Event) : Event :=
  {| type := type ev; url := url ev; ev_name := ev_name ev; Event.message := Event.message ev; attributes := attributes ev;
     cancelled := cancelled ev; session_id := id |}.

Definition signal_attributes (prefix : bytes) (s : AntiBotSignal) : list (bytes * bytes) :=
  [(prefix ++ lit "source", source s); (prefix ++ lit "name", sig_name s); (prefix ++ lit "confidence", confidence_text (sig_confidence s))].

(** The event of [report_anti_bot_detection]; the assignments in the order of the code. *)
Definition detection_event (current_url : bytes) (d : AntiBotDetection) : Event :=
  event_of AntiBotDetected (if nonempty (det_url d) then det_url d else current_url) (category d)
    (lit "anti-bot challenge detected heuristically; inspect signals")
    (foldl (fun m '(k, v) => <[k := v]> m) ∅
       ([(lit "confidence", confidence_text (confidence d)); (lit "signal-count", print_N (N.of_nat (length (signals d))));
         (lit "status", print_Z (det_status d))] ++
        mjoin (imap (fun i s => signal_attributes (lit "signal." ++ print_N (N.of_nat i) ++ lit ".") s) (signals d)))).

Section Session.
Context {X : Type} (config : BrowserConfig) (id : bytes)
  (react : Event -> Prelude.op (World X) Event) (plugins : World X -> list (@LoadedPlugin (World X)))
  (network : HttpRequest -> Prelude.op (World X) HttpResponse)
  (read_time : bytes -> bytes -> option Z) (clock : World X -> Z).

Abbreviation io := (Prelude.op (World X)).

Definition get {A} (f : World X -> A) : io A := fun w => (Ret (f w), w).
Definition modify (f : World X -> World X) : io unit := fun w => (Ret tt, f w).

(** [emit_event]: the event as the handlers leave it. *)
Definition emit_event (ev : Event) : io Event := react (in_session id ev).

(** [handle_unsupported_api]. *)
Definition handle_unsupported_api (name text : bytes) : io unit :=
  let behavior := unsupported_api_behavior config in
  if one_of behavior ["exception"; "abort"]%string then throw_op Unsupported
  else if one_of behavior ["default"; "dummy"]%string then mret tt
  else _ ← react (event_of UnsupportedApi [] name text ∅); mret tt.

Definition cookie_event (origin : Url) (c : Cookie) : Event :=
  event_of CookieChange (to_string origin) (c_name c) []
    (<[lit "path" := c_path c]> {[lit "domain" := if nonempty (c_domain c) then c_domain c else host origin]}).

Fixpoint apply_response_cookies (origin : Url) (l : header_list) : io unit :=
  match l with
  | [] => mret tt
  | (name, value) :: l' =>
      now ← get clock;
      match (if header_name_equal name (lit "Set-Cookie") then parse_set_cookie read_time now value origin else None) with
      | None => apply_response_cookies origin l'
      | Some c =>
          set_at ← get clock;
          _ ← modify (fun w => set_jar (jar_set set_at origin c (w_jar w)) w);
          _ ← react (cookie_event origin c);
          apply_response_cookies origin l'
      end
  end.

Definition report_anti_bot_detection (d : AntiBotDetection) : io unit :=
  if negb (activated d) then mret tt
  else
    _ ← modify (set_detection (Some d));
    current ← get w_url;
    _ ← emit_event (detection_event current d);
    mret tt.

(** [Session::build_request]. *)
Definition build_request (u : bytes) : io HttpRequest :=
  l ← get w_headers;
  mret {| method := lit "GET"; request_url := u;
          request_headers := default_header (default_header l (lit "User-Agent", user_agent config)) (lit "Accept", accepted_types);
          request_body := []; timeout_ms := b_timeout_ms config; max_response_bytes := b_max_response_bytes config;
          request_proxy := b_proxy config |}.

(** The network client, and the history. *)
Definition network_send (request : HttpRequest) : io HttpResponse :=
  _ ← modify (fun w => add_sent (clock w) request w); network request.

(** The headers that [request] adds itself, and the cookies for the URL. *)
Definition with_defaults (request : HttpRequest) : HttpRequest :=
  with_headers (default_header (default_header (request_headers request) (lit "User-Agent", user_agent config))
    (lit "Accept", accepted_types)) request.

Definition with_cookie_header (cookie : bytes) (request : HttpRequest) : HttpRequest :=
  if nonempty cookie && negb (nonempty (header_value (request_headers request) (lit "Cookie")))
  then with_headers (request_headers request ++ [(lit "Cookie", cookie)]) request else request.

Definition after_event (request : HttpRequest) (response : HttpResponse) : Event :=
  let content_type := header response (lit "Content-Type") in
  let attrs := <[lit "status" := print_Z (status response)]> {[lit "method" := method request]} in
  event_of AfterResponse (request_url request) [] [] (if nonempty content_type then <[lit "content-type" := content_type]> attrs else attrs).

(** One round of the loop up to the question of a redirect: the request as it was sent, its
    URL, and the response. *)
Definition fetch (request : HttpRequest) : io (HttpRequest * Url * HttpResponse) :=
  let request := with_defaults request in
  before ← emit_event (event_of BeforeRequest (request_url request) [] [] {[lit "method" := method request]});
  if cancelled before then throw_op SecurityViolation
  else
    loaded ← get plugins;
    request ← dispatch_before_request loaded request;
    parsed ← lift_op (parse_url (request_url request));
    now ← get clock;
    j ← get w_jar;
    let request := with_cookie_header (cookie_header now parsed j) request in
    response ← network_send request;
    _ ← apply_response_cookies parsed (headers response);
    _ ← emit_event (after_event request response);
    loaded ← get plugins;
    _ ← dispatch_after_response loaded request response;
    _ ← report_anti_bot_detection (inspect_response (request_url request) response);
    mret (request, parsed, response).

(** [left]: the redirects that may still be followed. *)
Fixpoint request_loop (left : nat) (chain : list bytes) (request : HttpRequest) : io HttpResponse :=
  '(request, parsed, response) ← fetch request;
  let location := header response (lit "Location") in
  if negb (is_redirect (status response)) || negb (nonempty location) || negb (follow_redirects config) then
    mret (with_final (if nonempty (final_url response) then final_url response else request_url request) chain response)
  else match left with
  | O => throw_op TooManyRedirects
  | S left' =>
      ev ← emit_event (event_of BeforeRedirect (request_url request) [] [] {[lit "location" := location]});
      if cancelled ev then mret (with_final (request_url request) chain response)
      else
        next ← lift_op (redirected request parsed (status response) location);
        request_loop left' (chain ++ [request_url request]) next
  end.

(** [Session::request]. *)
Definition request (r : HttpRequest) : io HttpResponse :=
  is_closed ← get w_closed;
  if (is_closed : bool) then throw_op InvalidArgument
  else
    l ← get w_headers;
    request_loop (Z.to_nat (max_redirects config)) [] (with_headers (foldl default_header (request_headers r) l) r).

(** [Session::close]; [release] empties the stores of the session. *)
Definition close (release : io unit) : io unit :=
  is_closed ← get w_closed;
  if (is_closed : bool) then mret tt
  else
    _ ← modify (set_closed true);
    _ ← release;
    _ ← emit_event (event_of SessionDestroyed [] id [] ∅);
    mret tt.

End Session.

(** [create_session]: the identifier of the session, and the event. *)
Definition session_name (counter : N) : bytes := lit "session-" ++ print_N ((counter + 1) mod 2 ^ 64).

Definition create_session {X} (react : Event -> Prelude.op (World X) Event) (counter : N) : Prelude.op (World X) bytes :=
  _ ← react (event_of SessionCreated [] (session_name counter) [] ∅); mret (session_name counter).

(** ** What a request sends *)

(** The parsed URL, a request and the cookies of the jar make the request that is sent. *)
Definition sent_for (config : BrowserConfig) (r : HttpRequest) (s : Sending) : Prop :=
  exists u, parse_url (request_url r) = Ret u /\
    sent_request s = with_cookie_header (cookie_header (sent_at s) u (sent_jar s)) (with_defaults config r).

(** The network client answers the request that was sent last. *)
Definition answers {X} (network : HttpRequest -> Prelude.op (World X) HttpResponse) (s : Sending) (p : HttpResponse) : Prop :=
  exists w w', last (w_log w) = Some s /\ network (sent_request s) w = (Ret p, w').

(** [b] is sent when the answer to [a] is a redirect. *)
Definition next_hop {X} (config : BrowserConfig) (network : HttpRequest -> Prelude.op (World X) HttpResponse) (a b : Sending) : Prop :=
  exists p u c, answers network a p /\ parse_url (request_url (sent_request a)) = Ret u /\ is_redirect (status p) = true /\
    redirected (sent_request a) u (status p) (header p (lit "Location")) = Ret c /\ sent_for config c b.

(** Each element stands in the relation to the one behind it. *)
Fixpoint consecutive {A} (R : A -> A -> Prop) (l : list A) : Prop :=
  match l with
  | [] => True
  | a :: l' => match l' with [] => True | b :: _ => R a b end /\ consecutive R l'
  end.

Lemma consecutive_app {A} (R : A -> A -> Prop) l1 l2 : consecutive R (l1 ++ l2) -> consecutive R l1 /\ consecutive R l2.
Proof.
  induction l1 as [|a l1 IH]; [done|]. cbn [app consecutive]. intros [H1 H2]. destruct (IH H2) as [H3 H4].
  split; [|done]. split; [|done]. by destruct l1.
Qed.

Section Hops.
Context {X : Type} (config : BrowserConfig) (id : bytes)
  (react : Event -> Prelude.op (World X) Event) (plugins : World X -> list (@LoadedPlugin (World X)))
  (network : HttpRequest -> Prelude.op (World X) HttpResponse)
  (read_time : bytes -> bytes -> option Z) (clock : World X -> Z).

Abbreviation io := (Prelude.op (World X)).

(** An operation that sends nothing. *)
Definition keeps {A} (m : io A) : Prop := forall w, w_log (m w).2 = w_log w.

(** The caller's code sends no requests of its own, and plugins leave the request as it is. *)
Record quiet : Prop := {
  quiet_react : forall ev, keeps (react ev);
  quiet_network : forall r, keeps (network r);
  quiet_before : forall w r, keeps (dispatch_before_request (plugins w) r);
  unchanged_before : forall w r w1 r' w2, dispatch_before_request (plugins w) r w1 = (Ret r', w2) -> r' = r;
  quiet_after : forall w r p, keeps (dispatch_after_response (plugins w) r p) }.

Lemma keeps_bind {A B} (m : io A) (k : A -> io B) : keeps m -> (forall a, keeps (k a)) -> keeps (x ← m; k x).
Proof. intros Hm Hk w. specialize (Hm w). bind_step. destruct (m w) as [[a|e] w1]; cbn in Hm; [|done]. by rewrite Hk. Qed.

Lemma keeps_ret {A} (a : A) : keeps (mret a).
Proof. done. Qed.

Lemma keeps_get {A} (f : World X -> A) : keeps (get f).
Proof. done. Qed.

Lemma keeps_get_bind {A B} (f : World X -> A) (k : A -> io B) : (forall v, keeps (k (f v))) -> keeps (x ← get f; k x).
Proof. intros Hk w. exact (Hk w w). Qed.

Lemma keeps_modify f : (forall w, w_log (f w) = w_log w) -> keeps (modify f).
Proof. intros Hf w. exact (Hf w). Qed.

Context (Q : quiet).

Lemma keeps_cookies origin l : keeps (apply_response_cookies react read_time clock origin l).
Proof.
  induction l as [|[name value] l IH]; [done|]. apply keeps_bind; [done|]. intros now. destruct (if header_name_equal _ _ then _ else _); [|done].
  apply keeps_bind; [done|]. intros set_at. apply keeps_bind; [by apply keeps_modify|]. intros []. apply keeps_bind; [apply Q|done].
Qed.

Lemma keeps_report d : keeps (report_anti_bot_detection id react d).
Proof.
  unfold report_anti_bot_detection. destruct (negb (activated d)); [done|]. apply keeps_bind; [by apply keeps_modify|].
  intros []. apply keeps_bind; [done|]. intros u. apply keeps_bind; [apply Q|done].
Qed.

Abbreviation run_fetch := (fetch config id react plugins network read_time clock).
Abbreviation run_loop := (request_loop config id react plugins network read_time clock).

(** A round sends at most the one request it is for. *)
Lemma fetch_sends r w res w' : run_fetch r w = (res, w') ->
  (w_log w' = w_log w /\ exists e, res = Throw e) \/
  exists s, w_log w' = w_log w ++ [s] /\ sent_for config r s /\
    forall x u p, res = Ret (x, u, p) -> x = sent_request s /\ parse_url (request_url x) = Ret u /\ answers network s p.
Proof.
  unfold fetch. bind_step. pose proof (quiet_react Q (in_session id (event_of BeforeRequest (request_url (with_defaults config r)) [] [] {[lit "method" := method (with_defaults config r)]})) w) as H1.
  unfold emit_event at 1. destruct (react _ w) as [[before|e] w1]; cbn in H1; [|intros [= <- <-]; left; eauto].
  destruct (cancelled before); [intros [= <- <-]; left; eauto|]. bind_step. cbn [get].
  bind_step. pose proof (quiet_before Q w1 (with_defaults config r) w1) as H2. pose proof (unchanged_before Q w1 (with_defaults config r) w1) as H3.
  destruct (dispatch_before_request _ _ w1) as [[r1|e] w2]; cbn in H2; [|intros [= <- <-]; left; rewrite H2, H1; eauto].
  rewrite (H3 _ _ eq_refl). clear r1 H3. bind_step. unfold lift_op. change (request_url (with_defaults config r)) with (request_url r).
  destruct (parse_url (request_url r)) as [u|e] eqn:Eu; [|intros [= <- <-]; left; rewrite H2, H1; eauto].
  do 2 (bind_step; cbn [get]). set (sent := with_cookie_header _ _). intros H. right.
  exists {| sent_request := sent; sent_at := clock w2; sent_jar := w_jar w2 |}.
  assert (Hu : request_url sent = request_url r) by (subst sent; unfold with_cookie_header; by case_match).
  set (s := {| sent_request := sent; sent_at := clock w2; sent_jar := w_jar w2 |}).
  assert (Hs : sent_for config r s) by (exists u; done).
  revert H. unfold network_send. bind_step. bind_step. cbn [modify].
  pose proof (quiet_network Q sent (add_sent (clock w2) sent w2)) as H4.
  destruct (network sent (add_sent (clock w2) sent w2)) as [[response|e] w3] eqn:En; cbn in H4.
  - match goal with |- ?k w3 = _ -> _ => assert (K : keeps k) end.
    { apply keeps_bind; [apply keeps_cookies|]. intros []. apply keeps_bind; [apply Q|]. intros ev. apply keeps_get_bind. intros v.
      apply keeps_bind; [apply Q|]. intros []. apply keeps_bind; [apply keeps_report|]. done. }
    intros H. specialize (K w3). rewrite H in K. cbn in K. split_and!; [by rewrite K, H4, H2, H1|done|].
    intros x u' p ->. repeat (apply op_bind_Ret in H as (? & ? & _ & H)). injection H as <- <- <- _. rewrite Hu. split_and!; [done..|].
    exists (add_sent (clock w2) sent w2), w3. split; [apply last_snoc|done].
  - intros [= <- <-]. by rewrite H4, H2, H1.
Qed.

(** What the loop adds to the history for a request. *)
Record trail (left : nat) (chain : list bytes) (r : HttpRequest) (res : result HttpResponse) (l : list Sending) : Prop := {
  trail_length : length l <= S left;
  trail_first : forall a, head l = Some a -> sent_for config r a;
  trail_hops : consecutive (next_hop config network) l;
  trail_chain : forall p, res = Ret p -> l <> [] /\ redirect_chain p = chain ++ (request_url ∘ sent_request <$> removelast l) }.

Lemma trail_none left chain r e : trail left chain r (Throw e) [].
Proof. split; (done || cbn; lia). Qed.

Lemma trail_one left chain r a e : sent_for config r a -> trail left chain r (Throw e) [a].
Proof. split; cbn; try (done || lia). by intros ? [= <-]. Qed.

Lemma trail_last left chain r a p : sent_for config r a -> redirect_chain p = chain -> trail left chain r (Ret p) [a].
Proof. split; cbn; try (done || lia). - by intros ? [= <-]. - intros ? [= <-]. split; [done|]. by rewrite app_nil_r. Qed.

Lemma loop_sends left chain r w res w' : run_loop left chain r w = (res, w') ->
  exists l, w_log w' = w_log w ++ l /\ trail left chain r res l.
Proof.
  revert chain r w res w'. induction left as [|left IH]; intros chain r w res w'; cbn [request_loop]; bind_step;
    destruct (run_fetch r w) as [[[[a u] p]|e] w1] eqn:Ef; apply fetch_sends in Ef as [[Hs [e' He]]|(a' & Hs & Ha & Hx)]; try discriminate He.
  all: try (intros [= <- <-]; first [exists []; rewrite app_nil_r; split; [done|apply trail_none] | exists [a']; split; [done|by apply trail_one]]).
  all: destruct (Hx _ _ _ eq_refl) as (-> & Hu & Hans); clear Hx; rename a' into a.
  - destruct (negb (is_redirect (status p)) || negb (nonempty (header p (lit "Location"))) || negb (follow_redirects config)).
    + intros [= <- <-]. exists [a]. split; [done|by apply trail_last].
    + intros [= <- <-]. exists [a]. split; [done|by apply trail_one].
  - destruct (negb (is_redirect (status p)) || negb (nonempty (header p (lit "Location"))) || negb (follow_redirects config)) eqn:Er.
    { intros [= <- <-]. exists [a]. split; [done|by apply trail_last]. }
    apply orb_false_elim in Er as [[Er1%negb_false_iff _]%orb_false_elim _]. bind_step. unfold emit_event.
    set (ev0 := in_session _ _). pose proof (quiet_react Q ev0 w1) as Hq. destruct (react ev0 w1) as [[ev|e] w2]; cbn in Hq.
    2:{ intros [= <- <-]. exists [a]. split; [by rewrite Hq|by apply trail_one]. }
    destruct (cancelled ev); [intros [= <- <-]; exists [a]; split; [by rewrite Hq|by apply trail_last]|].
    bind_step. unfold lift_op. destruct (redirected (sent_request a) u (status p) (header p (lit "Location"))) as [c|e] eqn:Ec.
    2:{ intros [= <- <-]. exists [a]. split; [by rewrite Hq|by apply trail_one]. }
    intros H. destruct (IH _ _ _ _ _ H) as (l & Hl & [L1 L2 L3 L4]). exists (a :: l). split; [by rewrite Hl, Hq, Hs, <- app_assoc|].
    split.
    + cbn. lia.
    + by intros ? [= <-].
    + split; [|done]. destruct l as [|b l]; [done|]. exists p, u, c. split_and!; [done..|by apply L2].
    + intros q ->. destruct (L4 q eq_refl) as [Hn ->]. split; [done|]. destruct l as [|b l]; [done|]. cbn. by rewrite <- app_assoc.
Qed.

End Hops.

(** ** What a redirect keeps *)

Lemma header_name_sensitive name : sensitive_redirect_header name = true <->
  to_lower name = lit "authorization" \/ to_lower name = lit "proxy-authorization" \/ to_lower name = lit "cookie".
Proof.
  unfold sensitive_redirect_header, header_name_equal. rewrite !orb_true_iff, !eqb_bytes_true.
  change (to_lower (lit "Authorization")) with (lit "authorization"). change (to_lower (lit "Proxy-Authorization")) with (lit "proxy-authorization").
  change (to_lower (lit "Cookie")) with (lit "cookie"). tauto.
Qed.

Lemma default_header_in l h x : x ∈ default_header l h -> x ∈ l \/ x = h.
Proof. unfold default_header. destruct (nonempty _); [auto|]. intros [H|H%list_elem_of_singleton]%elem_of_app; auto. Qed.

(** The headers of a request that is sent: those it had, the two defaults, and the cookies. *)
Lemma sent_headers_of config r a h : sent_for config r a -> h ∈ request_headers (sent_request a) ->
  h ∈ request_headers r \/ sensitive_redirect_header h.1 = false \/
  exists u, parse_url (request_url r) = Ret u /\ h = (lit "Cookie", cookie_header (sent_at a) u (sent_jar a)).
Proof.
  intros (u & Hu & ->) H. unfold with_cookie_header in H.
  assert (Hd : forall x, x ∈ request_headers (with_defaults config r) -> x ∈ request_headers r \/ sensitive_redirect_header x.1 = false).
  { intros x. cbn [with_defaults with_headers request_headers].
    intros [[Hx| ->]%default_header_in| ->]%default_header_in; [by left|by right..]. }
  destruct (nonempty (cookie_header _ _ _) && _).
  - cbn [with_headers request_headers] in H. apply elem_of_app in H as [H|H%list_elem_of_singleton]; [apply Hd in H; tauto|].
    right. right. eauto.
  - apply Hd in H. tauto.
Qed.

Lemma default_header_keeps l h x : x ∈ l -> x ∈ default_header l h.
Proof. unfold default_header. destruct (nonempty _); [done|]. intros H. apply elem_of_app. by left. Qed.

Lemma sent_keeps config r a h : sent_for config r a -> h ∈ request_headers r -> h ∈ request_headers (sent_request a).
Proof.
  intros (u & _ & ->) H. assert (h ∈ request_headers (with_defaults config r)) as Hd by (by apply default_header_keeps, default_header_keeps).
  unfold with_cookie_header. destruct (_ && _); [|done]. cbn [with_headers request_headers]. apply elem_of_app. by left.
Qed.

Lemma sent_for_fields config r a : sent_for config r a ->
  request_url (sent_request a) = request_url r /\ method (sent_request a) = method r /\ request_body (sent_request a) = request_body r.
Proof. intros (u & _ & ->). unfold with_cookie_header. by case_match. Qed.

(** *** The rules of one redirect *)

(** Two URLs that differ in the scheme, the host or the port, or that have no host at all. *)
Definition cross_origin (u v : Url) : Prop :=
  scheme u <> scheme v \/ host u <> host v \/ port u <> port v \/ has_authority u = false \/ has_authority v = false.

Lemma same_origin_spec u v : same_origin u v = false <-> cross_origin u v.
Proof.
  unfold same_origin, cross_origin. rewrite !andb_false_iff, !eqb_bytes_false. tauto.
Qed.

(** The names of credentials, in any case of letters. *)
Definition secret_name (name : bytes) : Prop := to_lower name ∈ [lit "authorization"; lit "proxy-authorization"; lit "cookie"].

Lemma secret_name_spec name : sensitive_redirect_header name = true <-> secret_name name.
Proof. rewrite header_name_sensitive. unfold secret_name. set_solver. Qed.

(** 303 asks for the target with [GET], 301 and 302 do so for what is neither [GET] nor [HEAD]. *)
Definition asks_with_get (status : Z) (m : bytes) : Prop :=
  status = 303%Z \/ (status = 301%Z \/ status = 302%Z) /\ m ∉ [lit "GET"; lit "HEAD"].

Lemma reissued_as_get_spec st m : is_redirect st = true -> reissued_as_get st m = true <-> asks_with_get st m.
Proof.
  intros Hr. unfold is_redirect, reissued_as_get, asks_with_get in *. rewrite !orb_true_iff, !Z.eqb_eq in Hr. rewrite !not_elem_of_cons.
  rewrite orb_true_iff, !andb_true_iff, !negb_true_iff, !eqb_bytes_false, Z.eqb_eq, !Z.eqb_neq. pose proof (not_elem_of_nil m). naive_solver lia.
Qed.

(** The target, the method and body, the headers that stay, and the secrets: when [a] was answered by a redirect, [b] goes
    where that answer says; a header stays unless it is a secret and the origin changes; and behind a change of the origin the
    only secret is the cookies that the jar holds for the new URL when [b] is sent. *)
Record redirect_rules {X} (network : HttpRequest -> Prelude.op (World X) HttpResponse) (a b : Sending) : Prop := {
  rule_answer : exists p, answers network a p /\ is_redirect (status p) = true /\
    resolve_url_string (request_url (sent_request a)) (header p (lit "Location")) = Ret (request_url (sent_request b)) /\
    (asks_with_get (status p) (method (sent_request a)) -> method (sent_request b) = lit "GET" /\ request_body (sent_request b) = []) /\
    (~ asks_with_get (status p) (method (sent_request a)) ->
       method (sent_request b) = method (sent_request a) /\ request_body (sent_request b) = request_body (sent_request a));
  rule_kept : forall u v h, parse_url (request_url (sent_request a)) = Ret u -> parse_url (request_url (sent_request b)) = Ret v ->
    h ∈ request_headers (sent_request a) -> ~ cross_origin u v \/ ~ secret_name h.1 -> h ∈ request_headers (sent_request b);
  rule_secrets : forall u v h, parse_url (request_url (sent_request a)) = Ret u -> parse_url (request_url (sent_request b)) = Ret v ->
    cross_origin u v -> h ∈ request_headers (sent_request b) -> secret_name h.1 ->
    h = (lit "Cookie", cookie_header (sent_at b) v (sent_jar b)) }.

Lemma next_hop_rules {X} config (network : HttpRequest -> Prelude.op (World X) HttpResponse) a b : next_hop config network a b -> redirect_rules network a b.
Proof.
  intros (p & u & c & Ha & Hu & Hp & Hc & Hb). unfold redirected in Hc.
  apply bind_Ret in Hc as (t & Ht & Hc). apply bind_Ret in Hc as (v & Hv & [= <-]). pose proof (sent_for_fields _ _ _ Hb) as (B1 & B2 & B3).
  cbn [request_url method request_body] in *. pose proof (reissued_as_get_spec (status p) (method (sent_request a)) Hp) as Hget. split.
  - exists p. rewrite B1, B2, B3. split_and!; [done..| |].
    + intros Hg. by apply Hget in Hg as ->.
    + intros Hg. rewrite <- Hget in Hg. by apply not_true_is_false in Hg as ->.
  - intros u' v' h Hu' Hv' Hh Hs. rewrite Hu in Hu'. injection Hu' as <-. rewrite B1, Hv in Hv'. injection Hv' as <-.
    apply (sent_keeps _ _ _ _ Hb). cbn [request_headers]. destruct (same_origin u v) eqn:Eo; [done|]. apply same_origin_spec in Eo.
    apply list_elem_of_In, filter_In. rewrite <- list_elem_of_In. split; [done|]. apply negb_true_iff, not_true_is_false. rewrite secret_name_spec. tauto.
  - intros u' v' h Hu' Hv' Ho Hh Hs. rewrite Hu in Hu'. injection Hu' as <-. rewrite B1, Hv in Hv'. injection Hv' as <-.
    apply same_origin_spec in Ho. apply secret_name_spec in Hs.
    destruct (sent_headers_of _ _ _ _ Hb Hh) as [Hin|[Hin|(w & Hw & ->)]]; cbn [request_headers request_url] in *.
    + rewrite Ho in Hin. apply list_elem_of_In, filter_In in Hin as [_ Hin]. by rewrite Hs in Hin.
    + congruence.
    + rewrite Hv in Hw. by injection Hw as <-.
Qed.

Lemma consecutive_impl {A} (R S : A -> A -> Prop) l : (forall a b, R a b -> S a b) -> consecutive R l -> consecutive S l.
Proof. intros H. induction l as [|a l IH]; [done|]. cbn [consecutive]. intros [H1 H2]. split; [destruct l; auto|auto]. Qed.

(** C23: when handlers, plugins and the network client send no requests of their own and leave the
    requests they see as they are ([quiet]), a request is sent at most once more than redirects may
    be followed, first to its own URL; each request behind the first goes where the redirect that
    answered the one before points, with its method and body or as a [GET] without body, as the
    status says; it keeps the headers, but across origins (scheme, host or port) it carries no
    authorization, and no cookies but those that the jar holds for its own URL at that moment; and
    the answer lists exactly the URLs that redirected. *)
Theorem request_hops {X} config id react plugins network read_time clock r (w : World X) res w' :
  quiet react plugins network -> request config id react plugins network read_time clock r w = (res, w') ->
  exists l, w_log w' = w_log w ++ l /\ length l <= S (Z.to_nat (max_redirects config)) /\
    (forall a, head l = Some a -> request_url (sent_request a) = request_url r /\ method (sent_request a) = method r /\ request_body (sent_request a) = request_body r) /\
    consecutive (redirect_rules network) l /\
    (w_closed w = true -> res = Throw InvalidArgument /\ l = []) /\
    (forall p, res = Ret p -> exists l' a, l = l' ++ [a] /\ redirect_chain p = request_url ∘ sent_request <$> l').
Proof.
  intros Q. unfold request. bind_step. cbn [get]. destruct (w_closed w).
  { intros [= <- <-]. exists []. rewrite app_nil_r. split_and!; (done || cbn; lia). }
  bind_step. cbn [get]. intros (l & Hl & [L1 L2 L3 L4])%loop_sends; [|done]. exists l. split_and!; [done|done| | |done|].
  - intros a Ha. by apply (sent_for_fields _ _ _ (L2 a Ha)).
  - eapply consecutive_impl; [|exact L3]. apply next_hop_rules.
  - intros p ->. destruct (L4 p eq_refl) as [Hn Hc]. destruct l as [|a0 l0]; [done|].
    exists (removelast (a0 :: l0)), (List.last (a0 :: l0) a0). split; [by apply app_removelast_last|done].
Qed.

(** *** Witnesses *)

Definition demo_config : BrowserConfig :=
  {| user_agent := lit "ua"; follow_redirects := true; max_redirects := 10; b_timeout_ms := 30000; b_max_response_bytes := 1000;
     unsupported_api_behavior := lit "warn"; b_proxy := no_proxy_config |}.

Definition answer (st : Z) (l : header_list) : HttpResponse :=
  {| status := st; headers := l; body := lit "ok"; final_url := []; redirect_chain := [] |}.

(** A network of three pages: [/in] sets a cookie and redirects, [/out] redirects to another
    host, everything else is a page. *)
Definition demo_network (r : HttpRequest) : Prelude.op (World unit) HttpResponse := fun w =>
  (Ret (if request_url r =s lit "https://a.test/in" then answer 302 [(lit "Set-Cookie", lit "t=2; Path=/"); (lit "Location", lit "/out")]
        else if request_url r =s lit "https://a.test/out" then answer 307 [(lit "Location", lit "https://b.test/")]
        else answer 200 []), w).

Definition quiet_handler (ev : Event) : Prelude.op (World unit) Event := mret ev.
Definition no_plugins (w : World unit) : list (@LoadedPlugin (World unit)) := [].

Definition demo_world (j : jar) : World unit :=
  {| w_jar := j; w_headers := [(lit "Authorization", lit "secret")]; w_url := []; w_closed := false; w_detection := None;
     w_log := []; rest := tt |}.

Definition demo_request (u : bytes) : HttpRequest :=
  {| method := lit "POST"; request_url := u; request_headers := []; request_body := lit "b"; timeout_ms := 0; max_response_bytes := 9;
     request_proxy := no_proxy_config |}.

Definition demo_run (j : jar) (u : bytes) : result HttpResponse * World unit :=
  request demo_config (lit "s") quiet_handler no_plugins demo_network no_dates (fun _ => 0%Z) (demo_request u) (demo_world j).

Lemma demo_quiet : quiet quiet_handler no_plugins demo_network.
Proof. split; try done. intros w r w1 r' w2. by intros [= <- _]. Qed.

Definition shown_request (r : HttpRequest) : bytes * bytes * bytes * bytes :=
  (method r, request_url r, header_value (request_headers r) (lit "Authorization"), header_value (request_headers r) (lit "Cookie")).

(** The authorization stays behind; the 302 has made the [POST] a [GET]. *)
Example demo_hops : shown_request <$> w_sent (demo_run [] (lit "https://a.test/in")).2 =
  [(lit "POST", lit "https://a.test/in", lit "secret", []); (lit "GET", lit "https://a.test/out", lit "secret", lit "t=2");
   (lit "GET", lit "https://b.test/", [], [])].
Proof. vm_compute. reflexivity. Qed.

Definition old_cookie : Cookie :=
  {| c_name := lit "t"; c_value := lit "1"; c_domain := lit "a.test"; c_path := lit "/"; secure := false; http_only := false;
     host_only := true; expires_unix := None; same_site := [] |}.

(** A [Cookie] header stays on the request across redirects of one origin: the cookie that the
    first answer replaced is sent again. *)
Example replaced_cookie_resent : (fun r => header_value (request_headers r) (lit "Cookie")) <$>
  w_sent (demo_run [old_cookie] (lit "https://a.test/in")).2 = [lit "t=1"; lit "t=1"; []].
Proof. vm_compute. reflexivity. Qed.

Lemma request_hops_witness :
  consecutive (redirect_rules demo_network) (w_log (demo_run [] (lit "https://a.test/in")).2) /\
  length (w_log (demo_run [] (lit "https://a.test/in")).2) = 3.
Proof.
  destruct (demo_run [] (lit "https://a.test/in")) as [res w'] eqn:E.
  destruct (request_hops demo_config (lit "s") quiet_handler no_plugins demo_network no_dates (fun _ => 0%Z)
              (demo_request (lit "https://a.test/in")) (demo_world []) res w' demo_quiet E) as (l & Hl & _ & _ & Hc & _).
  cbn [w_log demo_world app] in Hl. cbn [snd]. split.
  - rewrite Hl. exact Hc.
  - rewrite <- (f_equal snd E : _ = w'). vm_compute. reflexivity.
Defined.

(** *** The headers of a session *)

(** [set_header] replaces the value of the first header of that name, or adds one. *)
Lemma set_header_value name value l : header_value (set_header name value l) name = value.
Proof.
  unfold set_header, header_value. assert (H : match replace_header name value l with
    | Some l' => List.find (fun '(key, _) => header_name_equal key name) l' = None \/ exists k, List.find (fun '(key, _) => header_name_equal key name) l' = Some (k, value)
    | None => List.find (fun '(key, _) => header_name_equal key name) l = None end).
  { induction l as [|[k v] l IH]; [done|]. cbn [replace_header]. destruct (header_name_equal k name) eqn:E.
    - right. exists k. cbn. by rewrite E.
    - destruct (replace_header name value l) as [l'|]; cbn; rewrite E; exact IH. }
  destruct (replace_header name value l) as [l'|] eqn:Er.
  - destruct H as [H|[k ->]]; [|done]. exfalso. revert l' Er H. induction l as [|[k v] l IH]; intros l'; cbn [replace_header]; [done|].
    destruct (header_name_equal k name) eqn:E; [intros [= <-]; cbn; by rewrite E|]. intros (r & Hr & ->)%fmap_Some. cbn. rewrite E. by eapply IH.
  - clear Er. induction l as [|[k v] l IH]; cbn in H |- *.
    + unfold header_name_equal. by rewrite eqb_bytes_refl.
    + destruct (header_name_equal k name); [done|]. by apply IH.
Qed.

(** A closed session stays closed, and is closed once: its stores are released and the event
    is sent the first time only. *)
Lemma close_twice {X} id react release (w : World X) : w_closed w = true ->
  close id react release w = (Ret tt, w).
Proof. intros H. unfold close. bind_step. cbn [get]. by rewrite H. Qed.
