(* ===== verification/ScriptHost.v ===== *)
(** * The host of page scripts: [src/core/flatworm_host.cpp]

    Scripts address nodes by handles: numbers that the host interns.  The store of [Dom] holds
    the nodes of the document and those that scripts have made or removed; a node is alive
    while the document or a handle owns it or one of its ancestors, and the weak link to a
    parent that is not alive is empty.  The counter of the handles (64 bits) is an [N]: it
    counts nodes that were allocated.  [stores] are what the storage hook of a session
    answers for the session area and for every other one; without it the host has maps of its
    own.  The other hooks are only called ([Session] gives them). *)
From Stdlib Require Import QArith.
From S2P Require Import Prelude Url Html HtmlTree Dom Selector SelectorMatch Document Storage.

#[local] Open Scope nat_scope.

(** A [double] is a rational number, or none. *)
Inductive Ratio := Finite (q : Q) | NotFinite.
Record ViewportInfo := { width : Z; height : Z; device_pixel_ratio : Ratio }.

Record PendingNavigation := { nav_url : bytes; nav_method : bytes; nav_body : bytes }.
Definition no_navigation : PendingNavigation := {| nav_url := []; nav_method := lit "GET"; nav_body := [] |}.

Record PageInfo := { page_url : bytes; referrer : bytes; page_title : bytes }.

(** The document is its root, its URL and its base URL. *)
Record FlatwormScriptHost := {
  h_dom : dom; h_document : option (nat * bytes * bytes); h_base_url : bytes; h_referrer : bytes;
  pending_ : PendingNavigation; viewport_ : ViewportInfo;
  registry_ : gmap N nat; node_to_handle_ : gmap nat N; next_handle_ : N;
  storage_hook : option (KeyValueStore * KeyValueStore);
  fallback_local_ : gmap bytes bytes; fallback_session_ : gmap bytes bytes }.

(** [FlatwormScriptHost()]. *)
Definition new_host : FlatwormScriptHost :=
  {| h_dom := {| nodes := ∅; next_id := 0; log := [] |}; h_document := None; h_base_url := []; h_referrer := []; pending_ := no_navigation;
     viewport_ := {| width := 1280; height := 800; device_pixel_ratio := Finite 1 |};
     registry_ := ∅; node_to_handle_ := ∅; next_handle_ := 1; storage_hook := None; fallback_local_ := ∅; fallback_session_ := ∅ |}.

Definition with_dom (d : dom) (h : FlatwormScriptHost) : FlatwormScriptHost :=
  {| h_dom := d; h_document := h_document h; h_base_url := h_base_url h; h_referrer := h_referrer h; pending_ := pending_ h;
     viewport_ := viewport_ h; registry_ := registry_ h; node_to_handle_ := node_to_handle_ h; next_handle_ := next_handle_ h;
     storage_hook := storage_hook h; fallback_local_ := fallback_local_ h; fallback_session_ := fallback_session_ h |}.
Definition with_pending (p : PendingNavigation) (h : FlatwormScriptHost) : FlatwormScriptHost :=
  {| h_dom := h_dom h; h_document := h_document h; h_base_url := h_base_url h; h_referrer := h_referrer h; pending_ := p;
     viewport_ := viewport_ h; registry_ := registry_ h; node_to_handle_ := node_to_handle_ h; next_handle_ := next_handle_ h;
     storage_hook := storage_hook h; fallback_local_ := fallback_local_ h; fallback_session_ := fallback_session_ h |}.
Definition with_registry (r : gmap N nat) (m : gmap nat N) (n : N) (h : FlatwormScriptHost) : FlatwormScriptHost :=
  {| h_dom := h_dom h; h_document := h_document h; h_base_url := h_base_url h; h_referrer := h_referrer h; pending_ := pending_ h;
     viewport_ := viewport_ h; registry_ := r; node_to_handle_ := m; next_handle_ := n;
     storage_hook := storage_hook h; fallback_local_ := fallback_local_ h; fallback_session_ := fallback_session_ h |}.
Definition with_storage (s : option (KeyValueStore * KeyValueStore)) (l m : gmap bytes bytes) (h : FlatwormScriptHost) : FlatwormScriptHost :=
  {| h_dom := h_dom h; h_document := h_document h; h_base_url := h_base_url h; h_referrer := h_referrer h; pending_ := pending_ h;
     viewport_ := viewport_ h; registry_ := registry_ h; node_to_handle_ := node_to_handle_ h; next_handle_ := next_handle_ h;
     storage_hook := s; fallback_local_ := l; fallback_session_ := m |}.
Definition with_page (v : ViewportInfo) (r : bytes) (h : FlatwormScriptHost) : FlatwormScriptHost :=
  {| h_dom := h_dom h; h_document := h_document h; h_base_url := h_base_url h; h_referrer := r; pending_ := pending_ h;
     viewport_ := v; registry_ := registry_ h; node_to_handle_ := node_to_handle_ h; next_handle_ := next_handle_ h;
     storage_hook := storage_hook h; fallback_local_ := fallback_local_ h; fallback_session_ := fallback_session_ h |}.

Definition set_referrer (r : bytes) (h : FlatwormScriptHost) : FlatwormScriptHost := with_page (viewport_ h) r h.

Definition valid_viewport (v : ViewportInfo) : bool :=
  (1 <=? width v)%Z && (width v <=? 16384)%Z && (1 <=? height v)%Z && (height v <=? 16384)%Z &&
  match device_pixel_ratio v with Finite q => negb (Qle_bool q 0) && Qle_bool q 8 | NotFinite => false end.

Definition set_viewport (v : ViewportInfo) (h : FlatwormScriptHost) : result FlatwormScriptHost :=
  _ ← throw_if (negb (valid_viewport v)) InvalidArgument; Ret (with_page v (h_referrer h) h).

Definition host_document (h : FlatwormScriptHost) : option Document :=
  (fun '(r, u, b) => {| doc_dom := h_dom h; root_ := r; url_ := u; base_url_ := b |}) <$> h_document h.

(** [install]: the handles of the document before are forgotten, their numbers are not used
    again. *)
Definition install (document : option Document) (base : bytes) (h : FlatwormScriptHost) : result FlatwormScriptHost :=
  base ← match base, document with [], Some doc => base_url doc | _, _ => Ret base end;
  Ret {| h_dom := match document with Some doc => doc_dom doc | None => h_dom h end;
         h_document := (fun doc => (root_ doc, url_ doc, base_url_ doc)) <$> document; h_base_url := base;
         h_referrer := h_referrer h; pending_ := no_navigation; viewport_ := viewport_ h; registry_ := ∅; node_to_handle_ := ∅;
         next_handle_ := next_handle_ h; storage_hook := storage_hook h; fallback_local_ := fallback_local_ h;
         fallback_session_ := fallback_session_ h |}.

(** ** Handles *)

Abbreviation io := (op FlatwormScriptHost).

Definition read {A} (f : FlatwormScriptHost -> A) : io A := fun h => (Ret (f h), h).
Definition modify (f : FlatwormScriptHost -> FlatwormScriptHost) : io unit := fun h => (Ret tt, f h).
Definition change_dom (f : dom -> dom) : io unit := modify (fun h => with_dom (f (h_dom h)) h).

Definition resolve (handle : N) (h : FlatwormScriptHost) : option nat := registry_ h !! handle.

(** [intern]: [0] stands for no node. *)
Definition intern (node : option nat) : io N := fun h =>
  match node with
  | None => (Ret 0%N, h)
  | Some i =>
      match node_to_handle_ h !! i with
      | Some x => (Ret x, h)
      | None => (Ret (next_handle_ h),
                 with_registry (<[next_handle_ h := i]> (registry_ h)) (<[i := next_handle_ h]> (node_to_handle_ h)) (next_handle_ h + 1) h)
      end
  end.

Fixpoint intern_all (l : list nat) : io (list N) :=
  match l with [] => mret [] | i :: l' => x ← intern (Some i); xs ← intern_all l'; mret (x :: xs) end.

(** [make_node] and [intern]. *)
Definition make_interned (n : dnode) : io N := fun h =>
  let '(i, d) := make_node n (h_dom h) in intern (Some i) (with_dom d h).

Definition alive (h : FlatwormScriptHost) (i : nat) : bool :=
  existsb (fun a => bool_decide (is_Some (node_to_handle_ h !! a)) ||
                    match h_document h with Some (r, _, _) => bool_decide (a = r) | None => false end)
    (self_and_ancestors (h_dom h) i).

Definition shared_parent (h : FlatwormScriptHost) (i : nat) : option nat :=
  match parent_of (h_dom h) i with Some p => if alive h p then Some p else None | None => None end.

(** ** The document *)

Definition document_url (h : FlatwormScriptHost) : bytes := match h_document h with Some (_, u, _) => u | None => [] end.

Definition host_base_url (h : FlatwormScriptHost) : bytes := if nonempty (h_base_url h) then h_base_url h else document_url h.

Definition document_element_node (h : FlatwormScriptHost) : result (option nat) :=
  match host_document h with
  | None => Ret None
  | Some doc => html ← doc_query doc (lit "html"); Ret match html with Some i => Some i | None => Some (root_ doc) end
  end.

Definition head_node (h : FlatwormScriptHost) : result (option nat) :=
  match host_document h with None => Ret None | Some doc => doc_query doc (lit "head") end.

Definition document_element_class_name (h : FlatwormScriptHost) : result bytes :=
  root ← document_element_node h;
  Ret match root with Some i => default [] (attribute (h_dom h) i (lit "class")) | None => [] end.

Definition set_document_element_class_name (value : bytes) : io unit := fun h =>
  match document_element_node h with
  | Throw e => (Throw e, h)
  | Ret None => (Ret tt, h)
  | Ret (Some i) => change_dom (set_attribute i (lit "class") value) h
  end.

Definition page_info (h : FlatwormScriptHost) : result PageInfo :=
  t ← match host_document h with Some doc => title doc | None => Ret [] end;
  Ret {| page_url := document_url h; referrer := h_referrer h; page_title := t |}.

(** [set_document_title]: a title is made in the head, or at the root, when there is none. *)
Definition set_document_title (t : bytes) : io unit := fun h =>
  match host_document h with
  | None => (Ret tt, h)
  | Some doc =>
      match doc_query doc (lit "title") with
      | Throw e => (Throw e, h)
      | Ret (Some i) => change_dom (set_text i t) h
      | Ret None =>
          match (head ← head_node h; match head with Some i => Ret (Some i) | None => document_element_node h end) with
          | Throw e => (Throw e, h)
          | Ret None => (Ret tt, h)
          | Ret (Some parent) =>
              change_dom (fun d => let '(node, d1) := make_node (new_node Element (lit "title") []) d in
                let '(text, d2) := make_node (new_node Text [] t) d1 in
                append_child parent node (append_child node text d2)) h
          end
      end
  end.

(** ** Navigation *)

(** [try { resolve_url(...) } catch (const Error&) { the URL as it is }], from where the page is. *)
Definition navigation_target (u : bytes) (h : FlatwormScriptHost) : bytes :=
  let current := if nonempty (document_url h) then document_url h else host_base_url h in
  match resolve_url_string current u with Ret t => t | Throw _ => u end.

Definition request_navigation (u : bytes) (h : FlatwormScriptHost) : FlatwormScriptHost :=
  if negb (nonempty u) || starts_with (lit "#") u then h
  else with_pending {| nav_url := navigation_target u h; nav_method := lit "GET"; nav_body := [] |} h.

Definition request_form_submission (u m b : bytes) (h : FlatwormScriptHost) : FlatwormScriptHost :=
  with_pending {| nav_url := navigation_target u h; nav_method := if nonempty m then m else lit "GET"; nav_body := b |} h.

Definition consume_pending_navigation (h : FlatwormScriptHost) : option PendingNavigation * FlatwormScriptHost :=
  if nonempty (nav_url (pending_ h)) then (Some (pending_ h), with_pending no_navigation h) else (None, h).

(** ** Storage *)

(** The store the hook answers for an area, an operation on it, and its counterpart on the
    map of the host. *)
Definition on_area {A} (area : bytes) (f : KeyValueStore -> A * KeyValueStore) (g : gmap bytes bytes -> A * gmap bytes bytes)
  (h : FlatwormScriptHost) : A * FlatwormScriptHost :=
  match storage_hook h with
  | Some (local, session) =>
      if area =s lit "session" then let '(a, s) := f session in (a, with_storage (Some (local, s)) (fallback_local_ h) (fallback_session_ h) h)
      else let '(a, s) := f local in (a, with_storage (Some (s, session)) (fallback_local_ h) (fallback_session_ h) h)
  | None =>
      if area =s lit "session" then let '(a, m) := g (fallback_session_ h) in (a, with_storage None (fallback_local_ h) m h)
      else let '(a, m) := g (fallback_local_ h) in (a, with_storage None m (fallback_session_ h) h)
  end.

Definition storage_item (area key : bytes) : FlatwormScriptHost -> bytes * FlatwormScriptHost :=
  on_area area (fun s => let '(v, s') := kv_get key s in (default [] v, s')) (fun m => (default [] (m !! key), m)).

Definition set_storage_item (area key value : bytes) : FlatwormScriptHost -> unit * FlatwormScriptHost :=
  on_area area (fun s => (tt, kv_set key value s)) (fun m => (tt, <[key := value]> m)).

Definition remove_storage_item (area key : bytes) : FlatwormScriptHost -> unit * FlatwormScriptHost :=
  on_area area (fun s => (tt, (kv_remove key s).2)) (fun m => (tt, delete key m)).

Definition storage_keys (area : bytes) : FlatwormScriptHost -> list bytes * FlatwormScriptHost :=
  on_area area (fun s => (kv_keys s, s)) (fun m => (merge_sort key_order (map_to_list m).*1, m)).

Definition clear_storage (area : bytes) : FlatwormScriptHost -> unit * FlatwormScriptHost :=
  on_area area (fun s => (tt, kv_clear s)) (fun m => (tt, ∅)).

(** ** Reading nodes *)

Definition host_query_selector_all (selector : bytes) : io (list N) := fun h =>
  match host_document h with
  | None => (Ret [], h)
  | Some doc => match doc_query_all doc selector with Ret l => intern_all l h | Throw e => (Throw e, h) end
  end.

Definition query_selector_all_in (scope : N) (selector : bytes) : io (list N) := fun h =>
  match resolve scope h with
  | None => (Ret [], h)
  | Some i =>
      match query_selector_all (h_dom h) i selector true with
      | Ret l => intern_all (List.filter (fun n => negb (bool_decide (n = i))) l) h
      | Throw e => (Throw e, h)
      end
  end.

Definition host_element_matches (element : N) (selector : bytes) (h : FlatwormScriptHost) : result bool :=
  match resolve element h with
  | Some i => if is_element (h_dom h) i then element_matches (h_dom h) i selector else Ret false
  | None => Ret false
  end.

Definition root_element : io N := fun h =>
  match document_element_node h with Ret i => intern i h | Throw e => (Throw e, h) end.

Definition node_type_code (t : NodeType) : Z :=
  match t with Element => 1 | Text => 3 | Comment => 8 | HtmlTree.Document => 9 | Doctype => 10 end.

Definition element_tag_name (element : N) (h : FlatwormScriptHost) : bytes :=
  match resolve element h with
  | Some i => if is_element (h_dom h) i then name_of (h_dom h) i else lit "#text"
  | None => []
  end.

Definition element_node_type (element : N) (h : FlatwormScriptHost) : Z :=
  match resolve element h ≫= (fun i => nodes (h_dom h) !! i) with Some n => node_type_code (n_type n) | None => 0 end.

Definition attributes_of (d : dom) (i : nat) : list Attribute := from_option n_attributes [] (nodes d !! i).

(** The attribute of that name in any case. *)
Definition folded_attribute (name : bytes) (l : list Attribute) : option Attribute :=
  List.find (fun a => to_lower (attr_name a) =s to_lower name) l.

Definition host_element_attribute (element : N) (name : bytes) (h : FlatwormScriptHost) : bytes :=
  match resolve element h with
  | None => []
  | Some i =>
      match attribute (h_dom h) i name with
      | Some v => v
      | None => if negb (to_lower name =s name) then match folded_attribute name (attributes_of (h_dom h) i) with Some a => attr_value a | None => [] end
                else []
      end
  end.

Definition element_has_attribute (element : N) (name : bytes) (h : FlatwormScriptHost) : bool :=
  match resolve element h with
  | None => false
  | Some i => match attribute (h_dom h) i name with
              | Some _ => true
              | None => match folded_attribute name (attributes_of (h_dom h) i) with Some _ => true | None => false end
              end
  end.

Definition element_attributes (element : N) (h : FlatwormScriptHost) : list (bytes * bytes) :=
  match resolve element h with
  | Some i => (fun a => (attr_name a, attr_value a)) <$> attributes_of (h_dom h) i
  | None => []
  end.

Definition host_element_text (element : N) (h : FlatwormScriptHost) : bytes :=
  match resolve element h with Some i => element_text (h_dom h) i | None => [] end.

Definition element_inner_html (element : N) (h : FlatwormScriptHost) : bytes :=
  match resolve element h with Some i => inner_html (h_dom h) i | None => [] end.

Definition element_outer_html (element : N) (h : FlatwormScriptHost) : bytes :=
  match resolve element h with
  | Some i => serialize (tree_of (h_dom h) i) (from_option (name_of (h_dom h)) [] (shared_parent h i))
  | None => []
  end.

Definition element_child_nodes (element : N) : io (list N) := fun h =>
  match resolve element h with Some i => intern_all (children_of (h_dom h) i) h | None => (Ret [], h) end.

Definition host_element_parent (element : N) : io N := fun h =>
  match resolve element h with Some i => intern (shared_parent h i) h | None => (Ret 0%N, h) end.

(** The loops over the siblings. *)
Fixpoint node_behind (i : nat) (l : list nat) : option nat :=
  match l with
  | [] => None
  | s :: l' => if decide (s = i) then head l' else node_behind i l'
  end.

Fixpoint node_before (i : nat) (previous : option nat) (l : list nat) : option nat :=
  match l with
  | [] => None
  | s :: l' => if decide (s = i) then previous else node_before i (Some s) l'
  end.

Definition element_next_sibling (element : N) : io N := fun h =>
  match resolve element h with
  | Some i => match shared_parent h i with Some p => intern (node_behind i (children_of (h_dom h) p)) h | None => (Ret 0%N, h) end
  | None => (Ret 0%N, h)
  end.

Definition element_previous_sibling (element : N) : io N := fun h =>
  match resolve element h with
  | Some i => match shared_parent h i with Some p => intern (node_before i None (children_of (h_dom h) p)) h | None => (Ret 0%N, h) end
  | None => (Ret 0%N, h)
  end.

(** ** Changing nodes *)

(** An operation on the node of a handle; nothing without a node. *)
Definition on_node (element : N) (f : nat -> dom -> dom) (h : FlatwormScriptHost) : FlatwormScriptHost :=
  match resolve element h with Some i => with_dom (f i (h_dom h)) h | None => h end.

Definition element_set_attribute (element : N) (name value : bytes) : FlatwormScriptHost -> FlatwormScriptHost :=
  on_node element (fun i => set_attribute i name value).

(** The second removal passes a view of the name it removes; here, the name. *)
Definition element_remove_attribute (element : N) (name : bytes) : FlatwormScriptHost -> FlatwormScriptHost :=
  on_node element (fun i d =>
    match remove_attribute i name d with
    | (true, d') => d'
    | (false, _) => match folded_attribute name (attributes_of d i) with
                    | Some a => (remove_attribute i (attr_name a) d).2
                    | None => d
                    end
    end).

Definition element_set_text (element : N) (text : bytes) : FlatwormScriptHost -> FlatwormScriptHost :=
  on_node element (fun i => set_text i text).

(** A parsed fragment: its root has no owner. *)
Definition load_fragment (n : Node) (d : dom) : nat * dom :=
  let '(r, d1) := make_node (bare n) d in (r, load_list r (HtmlTree.children n) d1).

Definition not_doctype (d : dom) (i : nat) : bool :=
  match nodes d !! i with Some n => negb (bool_decide (n_type n = Doctype)) | None => true end.

(** The children are gone when the parser throws.  The links to the root of the fragment, which
    nobody owns or listens to, are cut at once. *)
Definition element_set_inner_html (element : N) (markup : bytes) : io unit := fun h =>
  match resolve element h with
  | None => (Ret tt, h)
  | Some i =>
      let d := clear_children i (h_dom h) in
      match parse_html_tree markup with
      | Throw e => (Throw e, with_dom d h)
      | Ret tree =>
          let '(r, d1) := load_fragment tree d in
          let l := List.filter (not_doctype d1) (children_of d1 r) in
          (Ret tt, with_dom (foldl (fun d c => append_child i c d) (clear_children r d1) l) h)
      end
  end.

Definition parse_html_fragment (markup : bytes) : io (list N) := fun h =>
  match parse_html_tree markup with
  | Throw e => (Throw e, h)
  | Ret tree => let '(r, d1) := load_fragment tree (h_dom h) in intern_all (List.filter (not_doctype d1) (children_of d1 r)) (with_dom d1 h)
  end.

Definition host_create_element (tag_name : bytes) : io N := make_interned (new_node Element (to_lower tag_name) []).
Definition create_text_node (text : bytes) : io N := make_interned (new_node Text [] text).
Definition create_comment (text : bytes) : io N := make_interned (new_node Comment [] text).

Definition host_append_child (parent child : N) (h : FlatwormScriptHost) : bool * FlatwormScriptHost :=
  match resolve parent h, resolve child h with
  | Some p, Some c => (true, with_dom (append_child p c (h_dom h)) h)
  | _, _ => (false, h)
  end.

Definition host_remove_child (parent child : N) (h : FlatwormScriptHost) : bool * FlatwormScriptHost :=
  match resolve parent h, resolve child h with
  | Some p, Some c => let '(b, d) := remove_child p c (h_dom h) in (b, with_dom d h)
  | _, _ => (false, h)
  end.

(** [std::find] in the children. *)
Fixpoint position (x : nat) (l : list nat) : option nat :=
  match l with [] => None | y :: l' => if decide (y = x) then Some 0 else S <$> position x l' end.

(** [children.insert(position, node)]. *)
Definition insert_at (n x : nat) (l : list nat) : list nat := take n l ++ x :: drop n l.

(** The end of [insert_before].  The iterator is found before the node leaves its former
    parent; when that is the same one, the removal in front of the iterator moves the
    children below it, and it stays at its index.  (Leaving a parent that is not alive shows
    nowhere.) *)
Definition insert_child (p c n : nat) (d : dom) : dom :=
  let d1 := match parent_of d c with Some old => (remove_child old c d).2 | None => d end in
  let d2 := update p (set_children (insert_at n c)) (update c (set_parent (Some p)) d1) in
  report_mutation p (child_info ChildAdded (name_of d2 c)) d2.

Definition insert_before (parent node reference : N) (h : FlatwormScriptHost) : bool * FlatwormScriptHost :=
  if (reference =? 0)%N then host_append_child parent node h
  else
    match resolve parent h, resolve node h, resolve reference h with
    | Some p, Some c, Some r =>
        match position r (children_of (h_dom h) p) with
        | None => host_append_child parent node h
        | Some n => (true, with_dom (insert_child p c n (h_dom h)) h)
        end
    | _, _, _ => (false, h)
    end.

Definition detach_element (node : N) (h : FlatwormScriptHost) : bool * FlatwormScriptHost :=
  match resolve node h with
  | Some c => match shared_parent h c with
              | Some p => let '(b, d) := remove_child p c (h_dom h) in (b, with_dom d h)
              | None => (false, h)
              end
  | None => (false, h)
  end.

(** ** The forest is kept *)

Abbreviation stored d j := (is_Some (nodes d !! j)).

(** [d'] is what an operation leaves of [d]: a forest again, with every node. *)
Definition dom_le (d d' : dom) : Prop := dom_wf d -> dom_wf d' /\ forall j, stored d j -> stored d' j.

Lemma dom_le_refl d : dom_le d d.
Proof. by split. Qed.

Lemma dom_le_trans d1 d2 d3 : dom_le d1 d2 -> dom_le d2 d3 -> dom_le d1 d3.
Proof. intros H1 H2 Hd. destruct (H1 Hd) as [A1 A2]. destruct (H2 A1) as [B1 B2]. split; [done|]. intros j Hj. by apply B2, A2. Qed.

Lemma payload_stored d d' j : same_payload d' d j -> stored d j -> stored d' j.
Proof. unfold same_payload. intros H [n Hn]. rewrite Hn in H. destruct (nodes d' !! j); [done|]. by cbn in H. Qed.

Lemma dom_le_report d d' i info : dom_le d d' -> dom_le d (report_mutation i info d').
Proof.
  intros H Hd. destruct (H Hd) as [A1 A2]. split.
  - constructor; [intros j; rewrite nodes_report, next_id_report; apply A1|].
    eapply forest_proper; [intros j; apply parent_of_report|intros j; apply children_of_report|apply A1].
  - intros j Hj. rewrite is_Some_report. by apply A2.
Qed.

Lemma dom_le_attributes d i f : dom_le d (update i (set_attributes f) d).
Proof.
  intros Hd. destruct (update_attributes_links i f d) as (P1 & P2 & _). split.
  - constructor; [intros j; rewrite is_Some_update; apply Hd|]. eapply forest_proper; [exact P1|exact P2|apply Hd].
  - intros j. by rewrite is_Some_update.
Qed.

Lemma dom_le_set_attribute d i name value : dom_le d (set_attribute i name value d).
Proof. apply dom_le_report, dom_le_attributes. Qed.

Lemma dom_le_remove_attribute d i name : dom_le d (remove_attribute i name d).2.
Proof. unfold remove_attribute. destruct (attribute d i name); [apply dom_le_report, dom_le_attributes|apply dom_le_refl]. Qed.

Lemma dom_le_append d p c : stored d p -> stored d c -> dom_le d (append_child p c d).
Proof.
  intros Hp Hc Hd. destruct (decide (c ∈ self_and_ancestors d p)) as [Hi|Hi].
  - rewrite append_child_ancestor by (done || by apply self_and_ancestors_spec). by split.
  - destruct (append_child_links d p c Hd Hp Hc) as (H1 & _ & _ & H4); [by intros H%self_and_ancestors_spec|].
    split; [done|]. intros j. by apply payload_stored.
Qed.

Lemma dom_le_remove d p c : dom_le d (remove_child p c d).2.
Proof.
  intros Hd. destruct (decide (c ∈ children_of d p)) as [Hi|Hi].
  - destruct (remove_child_links d p c Hd Hi) as (H1 & _ & _ & H4). split; [done|]. intros j. by apply payload_stored.
  - unfold remove_child. rewrite decide_False by done. by split.
Qed.

Lemma dom_le_set_text d i t : stored d i -> dom_le d (set_text i t d).
Proof.
  intros Hi Hd. destruct (set_text_spec d i t Hd Hi) as (H1 & _ & _ & _ & _ & H6). split; [done|]. intros j Hj.
  destruct (decide (j = next_id d)) as [->|Hne]; [|eapply payload_stored; [by apply H6|done]].
  apply (wf_bound d Hd) in Hj. lia.
Qed.

Lemma dom_le_make d n : n_children n = [] -> n_parent n = None ->
  dom_le d (make_node n d).2 /\ stored (make_node n d).2 (make_node n d).1.
Proof.
  intros Hc Hp. unfold make_node. cbn [fst snd]. split; [|cbn [nodes]; rewrite lookup_insert_eq; eauto]. intros Hd.
  assert (Hf : nodes d !! next_id d = None).
  { apply eq_None_not_Some. intros H%(wf_bound d Hd). lia. }
  assert (Hn : forall j, <[next_id d := n]> (nodes d) !! j = if decide (j = next_id d) then Some n else nodes d !! j).
  { intros j. destruct (decide (j = next_id d)) as [->|Hne]; [by rewrite lookup_insert_eq|by rewrite lookup_insert_ne]. }
  split.
  - constructor; cbn [nodes Dom.next_id].
    + intros j. rewrite Hn. case_decide; [lia|]. intros Hj%(wf_bound d Hd). lia.
    + eapply forest_proper; [| |apply Hd]; intros j; [unfold parent_of|unfold children_of]; cbn [nodes]; rewrite Hn; case_decide as E; subst; rewrite ?Hf; done.
  - intros j. cbn [nodes]. rewrite Hn. case_decide; eauto.
Qed.

Lemma forest_clear P C i : forest P C ->
  forest (fun j => if decide (j ∈ C i) then None else P j) (fun j => if decide (j = i) then [] else C j).
Proof.
  intros [Ha Hn Hac]. constructor.
  - intros c p. destruct (decide (p = i)) as [->|Hp].
    + split; [set_solver|]. case_decide as Hc; [done|]. by intros H%Ha.
    + rewrite Ha. case_decide as Hc; [|done]. apply Ha in Hc. naive_solver.
  - intros p. case_decide; [constructor|done].
  - eapply cut_acyclic; [done|]. intros c p. simpl. case_decide; naive_solver.
Qed.

Lemma dom_le_clear d i : stored d i -> dom_le d (clear_children i d).
Proof.
  intros Hi Hd. destruct (clear_children_spec i d Hd Hi) as (H1 & H2 & H3 & _ & H5). split.
  - constructor; [intros j; rewrite H3, H5; apply Hd|].
    eapply forest_proper; [intros j; apply H1|intros j; apply H2|]. apply forest_clear, Hd.
  - intros j. by rewrite H3.
Qed.

Lemma child_stored d i c : dom_wf d -> c ∈ children_of d i -> stored d c.
Proof. intros Hd Hc. apply (fo_agree _ _ (wf_forest d Hd)) in Hc. by apply (parent_in_store d Hd) in Hc as [? _]. Qed.

Lemma dom_le_fragment d n : dom_le d (load_fragment n d).2 /\ (dom_wf d -> stored (load_fragment n d).2 (load_fragment n d).1).
Proof.
  unfold load_fragment. destruct (dom_le_make d (bare n) eq_refl eq_refl) as [H1 H2]. destruct (make_node (bare n) d) as [r d1]. cbn [fst snd] in *.
  assert (Hl : forall d1, stored d1 r -> dom_wf d1 -> dom_wf (load_list r (HtmlTree.children n) d1) /\ forall j, stored d1 j -> stored (load_list r (HtmlTree.children n) d1) j).
  { intros d2 Hr Hd. apply load_list_wf; [|done|done]. apply Forall_true. intros m p d0. apply load_wf. }
  split.
  - intros Hd. destruct (H1 Hd) as [A1 A2]. destruct (Hl d1 H2 A1) as [B1 B2]. split; [done|]. intros j Hj. by apply B2, A2.
  - intros Hd. destruct (H1 Hd) as [A1 _]. by apply (Hl d1 H2 A1).
Qed.

Lemma dom_le_append_all p l : forall d, stored d p -> Forall (fun c => stored d c) l ->
  dom_le d (foldl (fun d c => append_child p c d) d l).
Proof.
  induction l as [|c l IH]; intros d Hp Hl; [apply dom_le_refl|]. apply Forall_cons in Hl as [Hc Hl]. cbn [foldl].
  pose proof (dom_le_append d p c Hp Hc) as H. intros Hd. destruct (H Hd) as [H1 H2].
  destruct (IH (append_child p c d)) as [H3 H4]; [by apply H2| |done|].
  - eapply Forall_impl; [exact Hl|]. intros x. apply H2.
  - split; [done|]. intros j Hj. by apply H4, H2.
Qed.

Lemma insert_at_permutation n x l : insert_at n x l ≡ₚ l ++ [x].
Proof. unfold insert_at. rewrite <- (take_drop n l) at 3. rewrite <- app_assoc. apply Permutation_app_head. by rewrite Permutation_app_comm. Qed.

Lemma forest_reorder P C D : forest P C -> (forall j, D j ≡ₚ C j) -> forest P D.
Proof. intros [Ha Hn Hac] H. constructor; [intros c p; rewrite H; apply Ha|intros p; rewrite H; apply Hn|done]. Qed.

(** The end of [insert_before] for a node that is not above the parent. *)
Lemma insert_child_links d p c n : dom_wf d -> stored d p -> stored d c -> ~ rtc (edge d) p c ->
  let d' := insert_child p c n d in
  dom_wf d' /\
  (forall j, parent_of d' j = if decide (j = c) then Some p else parent_of d j) /\
  (forall j, children_of d' j = if decide (j = p) then insert_at n c (erase c (children_of d p)) else erase c (children_of d j)) /\
  (forall j, same_payload d' d j).
Proof.
  intros Hd Hp Hc Hr. unfold insert_child. set (d1 := match parent_of d c with Some old => _ | None => d end).
  pose proof (wf_forest d Hd) as Hf.
  assert (H1 : dom_wf d1 /\ (forall j, parent_of d1 j = if decide (j = c) then None else parent_of d j) /\
    (forall j, children_of d1 j = erase c (children_of d j)) /\ (forall j, same_payload d1 d j)).
  { subst d1. destruct (parent_of d c) as [old|] eqn:Eo.
    - assert (Hin : c ∈ children_of d old) by by apply Hf.
      destruct (remove_child_links d old c Hd Hin) as (A1 & A2 & A3 & A4). split_and!; [done|done| |done].
      intros j. rewrite A3. case_decide as E; [by subst|]. rewrite erase_not_in; [done|]. intros H%Hf. congruence.
    - split_and!; [done| | |done].
      + intros j. case_decide as E; [by subst|done].
      + intros j. rewrite erase_not_in; [done|]. intros H%Hf. congruence. }
  destruct H1 as (W1 & W2 & W3 & W4).
  assert (Hp1 : stored d1 p) by (eapply payload_stored; [apply W4|done]).
  assert (Hc1 : stored d1 c) by (eapply payload_stored; [apply W4|done]).
  set (d2 := update p _ _).
  assert (P2 : forall j, parent_of d2 j = if decide (j = c) then Some p else parent_of d j).
  { intros j. subst d2. rewrite parent_of_set_children, parent_of_set_parent by done. rewrite W2.
    by destruct (decide (c = j)), (decide (j = c)). }
  assert (C2 : forall j, children_of d2 j = if decide (j = p) then insert_at n c (erase c (children_of d p)) else erase c (children_of d j)).
  { intros j. subst d2. rewrite children_of_set_children by by rewrite is_Some_update. rewrite !children_of_set_parent, !W3.
    by destruct (decide (p = j)), (decide (j = p)); subst. }
  cbn zeta. split_and!.
  - constructor.
    + intros j. rewrite nodes_report, next_id_report. subst d2. rewrite !is_Some_update. apply W1.
    + eapply forest_proper; [intros j; rewrite parent_of_report; apply P2|intros j; rewrite children_of_report; apply C2|].
      eapply forest_reorder; [apply (forest_append _ _ p c Hf Hr)|]. intros j. cbn beta. case_decide; [apply insert_at_permutation|done].
  - intros j. by rewrite parent_of_report.
  - intros j. by rewrite children_of_report.
  - intros j. eapply same_payload_trans; [apply payload_report|]. subst d2.
    repeat (eapply same_payload_trans; [by apply payload_update|]). apply W4.
Qed.

(** ** Handles stay with their nodes *)

Record host_ok (h : FlatwormScriptHost) : Prop := {
  ok_dom : dom_wf (h_dom h);
  ok_handles : forall x i, registry_ h !! x = Some i <-> node_to_handle_ h !! i = Some x;
  ok_range : forall x i, registry_ h !! x = Some i -> (0 < x < next_handle_ h)%N;
  ok_next : (0 < next_handle_ h)%N;
  ok_stored : forall x i, registry_ h !! x = Some i -> stored (h_dom h) i;
  ok_root : forall r u b, h_document h = Some (r, u, b) -> stored (h_dom h) r }.

(** [h'] keeps the handles of [h], and the document. *)
Record extends (h h' : FlatwormScriptHost) : Prop := {
  ext_ok : host_ok h';
  ext_registry : forall x i, resolve x h = Some i -> resolve x h' = Some i;
  ext_next : (next_handle_ h <= next_handle_ h')%N;
  ext_fresh : forall x i, resolve x h' = Some i -> resolve x h = Some i \/ (next_handle_ h <= x)%N;
  ext_document : h_document h' = h_document h;
  ext_stored : forall j, stored (h_dom h) j -> stored (h_dom h') j }.

Lemma host_extends_refl h : host_ok h -> extends h h.
Proof. split; auto; lia. Qed.

Lemma host_extends_trans h1 h2 h3 : extends h1 h2 -> (host_ok h2 -> extends h2 h3) -> extends h1 h3.
Proof.
  intros [A1 A2 A3 A4 A5 A6] H. destruct (H A1) as [B1 B2 B3 B4 B5 B6].
  split; [done|intros x i Hx; by apply B2, A2|lia| |congruence|intros j Hj; by apply B6, A6].
  intros x i [Hx%A4|Hx]%B4; [done|right; lia].
Qed.

Lemma host_extends_dom h d : host_ok h -> dom_le (h_dom h) d -> extends h (with_dom d h).
Proof.
  intros [H1 H2 H3 H4 H5 H6] Hd. destruct (Hd H1) as [A1 A2]. split; [|done|cbn; lia|by left|done|exact A2]. split; try done.
  - intros x i Hx. eapply A2, H5, Hx.
  - intros r u b Hr. eapply A2, H6, Hr.
Qed.

Lemma host_extends_same h h' : host_ok h -> h_dom h' = h_dom h -> h_document h' = h_document h -> registry_ h' = registry_ h ->
  node_to_handle_ h' = node_to_handle_ h -> next_handle_ h' = next_handle_ h -> extends h h'.
Proof.
  intros [H1 H2 H3 H4 H5 H6] E1 E2 E3 E4 E5. split; rewrite ?E1, ?E2, ?E3, ?E4, ?E5; try (done || lia).
  - split; rewrite ?E1, ?E2, ?E3, ?E4, ?E5; done.
  - intros x i. unfold resolve. by rewrite E3.
  - intros x i. unfold resolve. rewrite E3. by left.
Qed.

(** Interning answers the handle of the node: the one it has, or a new one. *)
Lemma intern_spec h i : host_ok h -> stored (h_dom h) i ->
  exists x h', intern (Some i) h = (Ret x, h') /\ extends h h' /\ resolve x h' = Some i /\ h_dom h' = h_dom h.
Proof.
  intros Hok Hi. pose proof Hok as [H1 H2 H3 H4 H5 H6]. unfold intern. destruct (node_to_handle_ h !! i) as [x|] eqn:Ex.
  { exists x, h. split_and!; [done|by apply host_extends_refl|by apply H2|done]. }
  eexists _, _. split; [done|].
  assert (Hn : forall j, registry_ h !! next_handle_ h <> Some j) by (intros j Hj%H3; lia).
  split_and!; [|unfold resolve; cbn; by rewrite lookup_insert_eq|done]. split; cbn; try done; [|intros x j|lia|intros x j].
  - split; cbn; try done; [intros x j| |lia|].
    + destruct (decide (x = next_handle_ h)) as [->|Hx].
      * rewrite lookup_insert_eq. destruct (decide (j = i)) as [->|Hj]; [by rewrite lookup_insert_eq|].
        rewrite lookup_insert_ne by done. rewrite <- H2. split; [naive_solver|]. by intros ?%Hn.
      * rewrite lookup_insert_ne by done. destruct (decide (j = i)) as [->|Hj].
        { rewrite lookup_insert_eq. rewrite H2, Ex. naive_solver. }
        rewrite lookup_insert_ne by done. apply H2.
    + intros x j. destruct (decide (x = next_handle_ h)) as [->|Hx]; [lia|]. rewrite lookup_insert_ne by done. intros Hx'%H3. lia.
    + intros x j. destruct (decide (x = next_handle_ h)) as [->|Hx]; [rewrite lookup_insert_eq; by intros [= <-]|].
      rewrite lookup_insert_ne by done. apply H5.
  - unfold resolve. cbn. intros Hx. rewrite lookup_insert_ne; [done|]. intros <-. by apply Hn in Hx.
  - unfold resolve. cbn. destruct (decide (x = next_handle_ h)) as [->|Hx]; [by right|]. rewrite lookup_insert_ne by done. by left.
Qed.

Lemma intern_extends h i : host_ok h -> (forall j, i = Some j -> stored (h_dom h) j) -> extends h (intern i h).2.
Proof.
  intros Hok Hi. destruct i as [i|]; [|by apply host_extends_refl].
  destruct (intern_spec h i Hok (Hi i eq_refl)) as (x & h' & -> & H & _). done.
Qed.

Lemma intern_all_spec l : forall h, host_ok h -> Forall (fun i => stored (h_dom h) i) l ->
  exists xs h', intern_all l h = (Ret xs, h') /\ extends h h' /\ Forall2 (fun x i => resolve x h' = Some i) xs l.
Proof.
  induction l as [|i l IH]; intros h Hok Hl; [exists [], h; split_and!; [done|by apply host_extends_refl|constructor]|].
  apply Forall_cons in Hl as [Hi Hl]. cbn [intern_all]. destruct (intern_spec h i Hok Hi) as (x & h1 & E1 & X1 & R1 & D1).
  destruct (IH h1 (ext_ok _ _ X1)) as (xs & h2 & E2 & X2 & R2); [eapply Forall_impl; [exact Hl|]; intros j; apply X1|].
  exists (x :: xs), h2. rewrite op_bind_eq, E1, op_bind_eq, E2. split_and!; [done|by eapply host_extends_trans|].
  constructor; [by eapply ext_registry|done].
Qed.

Lemma intern_all_extends h l : host_ok h -> Forall (fun i => stored (h_dom h) i) l -> extends h (intern_all l h).2.
Proof. intros Hok Hl. destruct (intern_all_spec l h Hok Hl) as (xs & h' & -> & H & _). done. Qed.

(** *** The operations *)

Inductive HostOp :=
  | Install (document : option Document.Document) (base : bytes)
  | QueryAll (selector : bytes) | QueryAllIn (scope : N) (selector : bytes) | RootElement
  | ChildNodes (e : N) | Parent (e : N) | NextSibling (e : N) | PreviousSibling (e : N)
  | SetAttribute (e : N) (name value : bytes) | RemoveAttribute (e : N) (name : bytes)
  | SetText (e : N) (text : bytes) | SetInnerHtml (e : N) (markup : bytes) | ParseFragment (markup : bytes)
  | CreateElement (tag : bytes) | CreateTextNode (text : bytes) | CreateComment (text : bytes)
  | AppendChild (parent child : N) | RemoveChild (parent child : N) | InsertBefore (parent node reference : N) | Detach (e : N)
  | SetTitle (t : bytes) | SetClassName (value : bytes)
  | Navigate (u : bytes) | SubmitForm (u m b : bytes) | ConsumeNavigation
  | SetItem (area key value : bytes) | SetViewport (v : ViewportInfo).

(** The host after the call, also when it throws. *)
Definition host_step (h : FlatwormScriptHost) (o : HostOp) : FlatwormScriptHost :=
  match o with
  | Install document base => match install document base h with Ret h' => h' | Throw _ => h end
  | QueryAll s => (host_query_selector_all s h).2
  | QueryAllIn e s => (query_selector_all_in e s h).2
  | RootElement => (root_element h).2
  | ChildNodes e => (element_child_nodes e h).2
  | Parent e => (host_element_parent e h).2
  | NextSibling e => (element_next_sibling e h).2
  | PreviousSibling e => (element_previous_sibling e h).2
  | SetAttribute e n v => element_set_attribute e n v h
  | RemoveAttribute e n => element_remove_attribute e n h
  | SetText e t => element_set_text e t h
  | SetInnerHtml e m => (element_set_inner_html e m h).2
  | ParseFragment m => (parse_html_fragment m h).2
  | CreateElement t => (host_create_element t h).2
  | CreateTextNode t => (create_text_node t h).2
  | CreateComment t => (create_comment t h).2
  | AppendChild p c => (host_append_child p c h).2
  | RemoveChild p c => (host_remove_child p c h).2
  | InsertBefore p c r => (insert_before p c r h).2
  | Detach e => (detach_element e h).2
  | SetTitle t => (set_document_title t h).2
  | SetClassName v => (set_document_element_class_name v h).2
  | Navigate u => request_navigation u h
  | SubmitForm u m b => request_form_submission u m b h
  | ConsumeNavigation => (consume_pending_navigation h).2
  | SetItem a k v => (set_storage_item a k v h).2
  | SetViewport v => match set_viewport v h with Ret h' => h' | Throw _ => h end
  end.

(** A document that is installed is a forest, as [parse_html] makes it ([parse_html_ok]); the
    node of [insert_before] is not above the parent, which [insert_before] does not check. *)
Definition allowed (h : FlatwormScriptHost) (o : HostOp) : Prop :=
  match o with
  | Install (Some doc) _ => dom_wf (doc_dom doc) /\ stored (doc_dom doc) (root_ doc)
  | InsertBefore p c _ => forall i j, resolve p h = Some i -> resolve c h = Some j -> j ∉ self_and_ancestors (h_dom h) i
  | _ => True
  end.

Definition is_install (o : HostOp) : bool := match o with Install _ _ => true | _ => false end.

(** *** What the queries answer is stored *)

Lemma query_stored d root text r l : dom_wf d -> stored d root -> query_selector_all d root text r = Ret l ->
  Forall (fun i => stored d i) l.
Proof.
  intros Hd Hr E. pose proof (query_all_spec d root text r Hd Hr) as H. rewrite E in H. destruct H as (sels & _ & _ & _ & H & _).
  apply Forall_forall. intros i (Hi & _)%H. apply (doc_order_stored d Hd root); [done|]. by apply doc_order_spec.
Qed.

Lemma type_stored doc n i : dom_wf (doc_dom doc) -> stored (doc_dom doc) (root_ doc) -> nonempty (lit n) = true ->
  parse (lit n) = Ret [single (type_compound n [])] -> doc_query doc (lit n) = Ret (Some i) -> stored (doc_dom doc) i.
Proof.
  intros Hd Hr Hn Hp H. destruct (query_type doc Hd Hr n Hn Hp) as [_ Hq]. rewrite Hq in H. injection H as H.
  apply head_Some_elem_of, list_elem_of_In, filter_In in H as [H _]. apply list_elem_of_In in H. by apply (doc_order_stored (doc_dom doc) Hd (root_ doc)).
Qed.

Lemma document_ok h doc : host_ok h -> host_document h = Some doc ->
  doc_dom doc = h_dom h /\ dom_wf (doc_dom doc) /\ stored (doc_dom doc) (root_ doc).
Proof.
  intros Hok. unfold host_document. destruct (h_document h) as [[[r u] b]|] eqn:E; [|done]. intros [= <-]. cbn.
  split_and!; [done|apply Hok|by eapply ok_root].
Qed.

Lemma element_node_stored h i : host_ok h -> document_element_node h = Ret (Some i) -> stored (h_dom h) i.
Proof.
  intros Hok. unfold document_element_node. destruct (host_document h) as [doc|] eqn:Ed; [|done].
  destruct (document_ok h doc Hok Ed) as (<- & Hd & Hr). destruct (doc_query doc (lit "html")) as [[j|]|e] eqn:Eq; cbn; [| |done]; intros [= <-]; [|done].
  eapply (type_stored doc "html"); [done|done|done|vm_compute; reflexivity|done].
Qed.

Lemma head_node_stored h i : host_ok h -> head_node h = Ret (Some i) -> stored (h_dom h) i.
Proof.
  intros Hok. unfold head_node. destruct (host_document h) as [doc|] eqn:Ed; [|done]. destruct (document_ok h doc Hok Ed) as (<- & Hd & Hr).
  eapply (type_stored doc "head"); [done|done|done|vm_compute; reflexivity].
Qed.

Lemma shared_parent_stored h i p : host_ok h -> shared_parent h i = Some p -> stored (h_dom h) p.
Proof.
  intros Hok. unfold shared_parent. destruct (parent_of (h_dom h) i) as [q|] eqn:E; [|done]. destruct (alive h q); [|done]. intros [= <-].
  by destruct (parent_in_store _ (ok_dom h Hok) _ _ E).
Qed.

Lemma node_behind_in i l j : node_behind i l = Some j -> j ∈ l.
Proof.
  induction l as [|s l IH]; cbn [node_behind]; [done|]. case_decide; [intros ?%head_Some_elem_of; by right|]. intros Hj. right. by apply IH.
Qed.

Lemma node_before_in i prev l j : node_before i prev l = Some j -> prev = Some j \/ j ∈ l.
Proof.
  revert prev. induction l as [|s l IH]; intros prev; cbn [node_before]; [done|]. case_decide; [by left|].
  intros [[= ->]|Hj]%IH; right; [by left|by right].
Qed.

(** *** Every operation keeps the invariant *)

Lemma on_node_extends e f h : host_ok h -> (forall i, stored (h_dom h) i -> dom_le (h_dom h) (f i (h_dom h))) -> extends h (on_node e f h).
Proof.
  intros Hok Hf. unfold on_node. destruct (resolve e h) as [i|] eqn:E; [|by apply host_extends_refl]. apply host_extends_dom; [done|].
  eapply Hf, ok_stored; [done|exact E].
Qed.

Lemma make_interned_extends n h : host_ok h -> n_children n = [] -> n_parent n = None -> extends h (make_interned n h).2.
Proof.
  intros Hok Hc Hp. unfold make_interned. destruct (dom_le_make (h_dom h) n Hc Hp) as [H1 H2]. destruct (make_node n (h_dom h)) as [i d]. cbn [fst snd] in *.
  eapply host_extends_trans; [by apply (host_extends_dom h d)|]. intros Hok2. apply intern_extends; [done|]. intros j [= <-]. done.
Qed.

Lemma fragment_children_stored d n : dom_wf d ->
  let '(r, d1) := load_fragment n d in dom_le d d1 /\ stored d1 r /\ Forall (fun c => stored d1 c) (List.filter (not_doctype d1) (children_of d1 r)).
Proof.
  intros Hd. destruct (dom_le_fragment d n) as [H1 H2]. specialize (H2 Hd). destruct (load_fragment n d) as [r d1]. cbn [fst snd] in *.
  split_and!; [done|done|]. apply Forall_forall. intros c [Hc _]%list_elem_of_In%filter_In. apply list_elem_of_In in Hc.
  eapply child_stored; [by apply H1|exact Hc].
Qed.

Lemma set_inner_html_extends e m h : host_ok h -> extends h (element_set_inner_html e m h).2.
Proof.
  intros Hok. unfold element_set_inner_html. destruct (resolve e h) as [i|] eqn:E; [|by apply host_extends_refl].
  assert (Hi : stored (h_dom h) i) by by eapply ok_stored. pose proof (dom_le_clear (h_dom h) i Hi) as H1. set (d := clear_children i (h_dom h)) in *.
  destruct (parse_html_tree m) as [tree|err]; [|by apply host_extends_dom]. destruct (H1 (ok_dom h Hok)) as [W1 S1].
  pose proof (fragment_children_stored d tree W1) as Hf. destruct (load_fragment tree d) as [r d1]. destruct Hf as (F1 & F2 & F3). cbn [snd].
  apply host_extends_dom; [done|]. eapply dom_le_trans; [exact H1|]. eapply dom_le_trans; [exact F1|]. destruct (F1 W1) as [W2 S2].
  pose proof (dom_le_clear d1 r F2) as H3. destruct (H3 W2) as [W3 S3].
  eapply dom_le_trans; [exact H3|]. apply dom_le_append_all; [by apply S3, S2, S1|]. eapply Forall_impl; [exact F3|]. intros c. apply S3.
Qed.

Lemma host_append_extends p c h : host_ok h -> extends h (host_append_child p c h).2.
Proof.
  intros Hok. unfold host_append_child. destruct (resolve p h) as [i|] eqn:E1; [|by apply host_extends_refl]. destruct (resolve c h) as [j|] eqn:E2; [|by apply host_extends_refl].
  apply host_extends_dom; [done|]. apply dom_le_append; by eapply ok_stored.
Qed.

Lemma insert_before_extends p c r h : host_ok h -> allowed h (InsertBefore p c r) -> extends h (insert_before p c r h).2.
Proof.
  intros Hok Ha. unfold insert_before. destruct (r =? 0)%N; [by apply host_append_extends|].
  destruct (resolve p h) as [i|] eqn:E1; [|by apply host_extends_refl]. destruct (resolve c h) as [j|] eqn:E2; [|by apply host_extends_refl].
  destruct (resolve r h) as [k|]; [|by apply host_extends_refl]. destruct (position k _) as [n|]; [|by apply host_append_extends].
  assert (Hi : stored (h_dom h) i) by by eapply ok_stored. assert (Hj : stored (h_dom h) j) by by eapply ok_stored.
  apply host_extends_dom; [done|]. intros Hd. destruct (insert_child_links (h_dom h) i j n Hd Hi Hj) as (H1 & _ & _ & H4).
  - intros Hr. eapply (Ha i j E1 E2), self_and_ancestors_spec; [done|done|exact Hr].
  - split; [done|]. intros x. by apply payload_stored.
Qed.

Lemma set_title_extends t h : host_ok h -> extends h (set_document_title t h).2.
Proof.
  intros Hok. unfold set_document_title. destruct (host_document h) as [doc|] eqn:Ed; [|by apply host_extends_refl].
  destruct (document_ok h doc Hok Ed) as (Hdd & Hd & Hr).
  destruct (doc_query doc (lit "title")) as [[i|]|e] eqn:Eq; [| |by apply host_extends_refl].
  { apply host_extends_dom; [done|]. apply dom_le_set_text. rewrite <- Hdd. eapply (type_stored doc "title"); [done|done|done|vm_compute; reflexivity|exact Eq]. }
  destruct (head ← head_node h; _) as [[p|]|e] eqn:Ep; [|by apply host_extends_refl..].
  assert (Hp : stored (h_dom h) p).
  { destruct (head_node h) as [[q|]|e] eqn:Eh; cbn in Ep; [| |done]; [injection Ep as <-; by eapply head_node_stored|by eapply element_node_stored]. }
  apply host_extends_dom; [done|]. pose proof (dom_le_make (h_dom h) (new_node Element (lit "title") []) eq_refl eq_refl) as [H1 H2].
  destruct (make_node _ (h_dom h)) as [node d1]. pose proof (dom_le_make d1 (new_node Text [] t) eq_refl eq_refl) as [H3 H4].
  destruct (make_node _ d1) as [text d2]. cbn [fst snd] in *. intros W. destruct (H1 W) as [W1 S1]. destruct (H3 W1) as [W2 S2].
  assert (Hn2 : stored d2 node) by by apply S2. destruct (dom_le_append d2 node text Hn2 H4 W2) as [W3 S3].
  destruct (dom_le_append (append_child node text d2) p node (S3 _ (S2 _ (S1 _ Hp))) (S3 _ Hn2) W3) as [W4 S4].
  split; [done|]. intros j Hj. by apply S4, S3, S2, S1.
Qed.

Lemma on_area_extends {A} area (f : KeyValueStore -> A * KeyValueStore) g h : host_ok h -> extends h (on_area area f g h).2.
Proof.
  intros Hok. unfold on_area. destruct (storage_hook h) as [[l s]|].
  - destruct (_ =s _); [destruct (f s)|destruct (f l)]; by apply host_extends_same.
  - destruct (_ =s _); [destruct (g (fallback_session_ h))|destruct (g (fallback_local_ h))]; by apply host_extends_same.
Qed.

Lemma sibling_extends e h (f : list nat -> option nat) : host_ok h -> (forall l j, f l = Some j -> j ∈ l) ->
  extends h (match resolve e h with
             | Some i => match shared_parent h i with Some p => intern (f (children_of (h_dom h) p)) h | None => (Ret 0%N, h) end
             | None => (Ret 0%N, h) end).2.
Proof.
  intros Hok Hf. destruct (resolve e h) as [i|]; [|by apply host_extends_refl]. destruct (shared_parent h i) as [p|]; [|by apply host_extends_refl].
  apply intern_extends; [done|]. intros j Hj%Hf. eapply child_stored; [apply Hok|exact Hj].
Qed.

Lemma query_all_extends q h : host_ok h -> extends h (host_query_selector_all q h).2.
Proof.
  intros Hok. unfold host_query_selector_all. destruct (host_document h) as [doc|] eqn:Ed; [|by apply host_extends_refl].
  destruct (document_ok h doc Hok Ed) as (Hdd & Hd & Hr). destruct (doc_query_all doc q) as [l|e] eqn:Eq; [|by apply host_extends_refl].
  apply intern_all_extends; [done|]. rewrite <- Hdd. by eapply query_stored.
Qed.

Lemma query_all_in_extends e q h : host_ok h -> extends h (query_selector_all_in e q h).2.
Proof.
  intros Hok. unfold query_selector_all_in. destruct (resolve e h) as [i|] eqn:E; [|by apply host_extends_refl].
  destruct (query_selector_all _ _ _ _) as [l|err] eqn:Eq; [|by apply host_extends_refl]. apply intern_all_extends; [done|].
  apply query_stored in Eq; [|apply Hok|by eapply ok_stored]. apply Forall_forall. intros j [Hj _]%list_elem_of_In%filter_In.
  rewrite Forall_forall in Eq. apply Eq. by apply list_elem_of_In.
Qed.

Lemma parse_fragment_extends m h : host_ok h -> extends h (parse_html_fragment m h).2.
Proof.
  intros Hok. unfold parse_html_fragment. destruct (parse_html_tree m) as [tree|err]; [|by apply host_extends_refl].
  pose proof (fragment_children_stored (h_dom h) tree (ok_dom h Hok)) as Hf. destruct (load_fragment tree (h_dom h)) as [r d1]. destruct Hf as (F1 & _ & F3).
  eapply host_extends_trans; [by apply (host_extends_dom h d1)|]. intros Hok2. by apply intern_all_extends.
Qed.

(** The end of [remove_child] and of [detach_element]. *)
Lemma removal_extends h i j : host_ok h -> extends h (let '(b, d) := remove_child i j (h_dom h) in (b, with_dom d h)).2.
Proof. intros Hok. pose proof (dom_le_remove (h_dom h) i j) as H. destruct (remove_child i j (h_dom h)). by apply host_extends_dom. Qed.

Lemma step_extends h o : host_ok h -> allowed h o -> is_install o = false -> extends h (host_step h o).
Proof.
  intros Hok Ha Hi. destruct o; try discriminate Hi; cbn [host_step].
  - by apply query_all_extends.
  - by apply query_all_in_extends.
  - unfold root_element. destruct (document_element_node h) as [i|e] eqn:E; [|by apply host_extends_refl].
    apply intern_extends; [done|]. intros j ->. by apply element_node_stored.
  - unfold element_child_nodes. destruct (resolve e h) as [i|] eqn:E; [|by apply host_extends_refl]. apply intern_all_extends; [done|].
    apply Forall_forall. intros j Hj. eapply child_stored; [apply Hok|exact Hj].
  - unfold host_element_parent. destruct (resolve e h) as [i|]; [|by apply host_extends_refl]. apply intern_extends; [done|].
    intros j. by apply shared_parent_stored.
  - apply (sibling_extends e h (fun l => match resolve e h with Some i => node_behind i l | None => None end)) in Hok.
    + unfold element_next_sibling. destruct (resolve e h); exact Hok.
    + intros l j. destruct (resolve e h); [apply node_behind_in|done].
  - apply (sibling_extends e h (fun l => match resolve e h with Some i => node_before i None l | None => None end)) in Hok.
    + unfold element_previous_sibling. destruct (resolve e h); exact Hok.
    + intros l j. destruct (resolve e h); [intros [?|?]%node_before_in; done|done].
  - apply on_node_extends; [done|]. intros i _. apply dom_le_set_attribute.
  - apply on_node_extends; [done|]. intros i _. pose proof (dom_le_remove_attribute (h_dom h) i name) as H.
    destruct (remove_attribute i name (h_dom h)) as [[|] d]; [exact H|]. destruct (folded_attribute _ _); [apply dom_le_remove_attribute|apply dom_le_refl].
  - apply on_node_extends; [done|]. intros i Hs. by apply dom_le_set_text.
  - by apply set_inner_html_extends.
  - by apply parse_fragment_extends.
  - by apply make_interned_extends.
  - by apply make_interned_extends.
  - by apply make_interned_extends.
  - by apply host_append_extends.
  - unfold host_remove_child. destruct (resolve parent h), (resolve child h); try by apply host_extends_refl. by apply removal_extends.
  - by apply insert_before_extends.
  - unfold detach_element. destruct (resolve e h) as [j|]; [|by apply host_extends_refl]. destruct (shared_parent h j); [|by apply host_extends_refl]. by apply removal_extends.
  - by apply set_title_extends.
  - unfold set_document_element_class_name. destruct (document_element_node h) as [[i|]|e] eqn:E; [|by apply host_extends_refl..].
    apply host_extends_dom; [done|]. apply dom_le_set_attribute.
  - unfold request_navigation. destruct (_ || _); by apply host_extends_same.
  - by apply host_extends_same.
  - unfold consume_pending_navigation. destruct (nonempty _); by apply host_extends_same.
  - by apply on_area_extends.
  - unfold set_viewport. destruct (negb (valid_viewport v)); by apply host_extends_same.
Qed.

Lemma new_host_ok : host_ok new_host.
Proof.
  split; cbn; try done.
  constructor; [by intros i [? ?]|]. constructor.
  - intros c p. unfold parent_of, children_of. cbn. rewrite !lookup_empty. cbn. split; [set_solver|done].
  - intros p. unfold children_of. cbn. rewrite lookup_empty. constructor.
  - intros i Hi. inversion Hi as [? ? H|? ? ? H]; unfold parent_of in H; cbn in H; by rewrite lookup_empty in H.
Qed.

(** A document is installed with no handle left of the one before. *)
Lemma install_ok h document base h' : host_ok h -> allowed h (Install document base) -> install document base h = Ret h' ->
  host_ok h' /\ (forall x, resolve x h' = None) /\ next_handle_ h' = next_handle_ h.
Proof.
  intros [H1 H2 H3 H4 H5 H6] Ha. unfold install. destruct (match base with [] => _ | _ => _ end) as [b|e]; [|done].
  intros [= <-]. split_and!; [|done|done]. split; cbn; try done.
  - destruct document as [doc|]; [apply Ha|exact H1].
  - intros r u b0. destruct document as [doc|]; cbn; [|done]. intros [= <- _ _]. apply Ha.
Qed.

(** Each operation is allowed where it happens. *)
Fixpoint all_allowed (h : FlatwormScriptHost) (ops : list HostOp) : Prop :=
  match ops with [] => True | o :: ops' => allowed h o /\ all_allowed (host_step h o) ops' end.

Lemma install_total h document base : allowed h (Install document base) -> exists h', install document base h = Ret h'.
Proof.
  unfold install. destruct base as [|c base]; [|eauto]. destruct document as [doc|]; [|eauto]. intros [Hd Hr].
  assert (exists b, base_url doc = Ret b) as [b ->]; [|eauto]. unfold base_url. destruct (nonempty (base_url_ doc)); [eauto|].
  rewrite query_base by done. cbn. eauto.
Qed.

(** A handle that was given out, or not, before the operations. *)
Lemma run_ok ops : forall h, host_ok h -> all_allowed h ops -> host_ok (foldl host_step h ops) /\
  forall x, (x < next_handle_ h)%N ->
    resolve x (foldl host_step h ops) = if existsb is_install ops then None else resolve x h.
Proof.
  induction ops as [|o ops IH]; intros h Hok Ha; [done|]. destruct Ha as [Ho Ha]. cbn [foldl existsb]. destruct (is_install o) eqn:Ei; cbn [orb].
  - destruct o as [document base| | | | | | | | | | | | | | | | | | | | | | | | | |]; try discriminate Ei. cbn [host_step] in *.
    destruct (install_total h document base Ho) as [h' E]. rewrite E in *. destruct (install_ok h document base h' Hok Ho E) as (O1 & O2 & O3).
    destruct (IH h' O1 Ha) as [I1 I2]. split; [done|]. intros x Hx. rewrite I2, O2 by lia. by destruct (existsb _ _).
  - destruct (step_extends h o Hok Ho Ei) as [X1 X2 X3 X4 X5 X6]. destruct (IH _ X1 Ha) as [I1 I2]. split; [done|].
    intros x Hx. rewrite I2 by lia. destruct (existsb is_install ops); [done|].
    destruct (resolve x h) as [i|] eqn:E; [by apply X2|]. destruct (resolve x (host_step h o)) as [i|] eqn:E'; [|done].
    destruct (X4 x i E'); [congruence|lia].
Qed.

(** C25: in every history of the host's operations, one call after the other and failing calls included, in which no
    [insertBefore] puts a node before a child of itself or of its own descendant, and every document that is installed is
    a forest (as [parse_html] makes it), the nodes stay a forest and every handle the handle of one node; a handle
    keeps its node until the next document is installed, and means nothing ever after.  The excluded [insertBefore] is one
    that the code carries out, and that makes a cycle ([insert_before_cycle], [flatworm_host.cpp:532]). *)
Theorem handles_stable before after x i :
  all_allowed new_host (before ++ after) ->
  let h := foldl host_step new_host before in
  let h' := foldl host_step new_host (before ++ after) in
  host_ok h' /\ (resolve x h = Some i -> resolve x h' = if existsb is_install after then None else Some i).
Proof.
  intros Ha h h'. destruct (run_ok _ _ new_host_ok Ha) as [H1 _]. split; [done|]. intros Hx.
  assert (Hs : forall l1 l2 h0, all_allowed h0 (l1 ++ l2) -> all_allowed h0 l1 /\ all_allowed (foldl host_step h0 l1) l2).
  { induction l1 as [|o l1 IH]; intros l2 h0; [by split|]. cbn. intros [Ho Hl]. by destruct (IH _ _ Hl). }
  destruct (Hs _ _ _ Ha) as [Hb Hc]. destruct (run_ok _ _ new_host_ok Hb) as [H2 _]. fold h in H2, Hc.
  destruct (run_ok _ _ H2 Hc) as [_ H3]. subst h'. rewrite foldl_app. fold h. rewrite H3, Hx; [done|].
  apply ok_range in Hx; [lia|done].
Qed.

(** Interning twice gives the same handle, and different nodes have different ones. *)
Lemma intern_injective h i j : host_ok h -> stored (h_dom h) i -> stored (h_dom h) j ->
  exists x y h1 h2, intern (Some i) h = (Ret x, h1) /\ intern (Some j) h1 = (Ret y, h2) /\ (x = y <-> i = j).
Proof.
  intros Hok Hi Hj. destruct (intern_spec h i Hok Hi) as (x & h1 & E1 & X1 & R1 & D1).
  destruct (intern_spec h1 j (ext_ok _ _ X1)) as (y & h2 & E2 & X2 & R2 & D2); [by rewrite D1|].
  exists x, y, h1, h2. split_and!; [done|done|]. pose proof (ext_registry _ _ X2 _ _ R1) as R1'.
  split; [intros ->; congruence|]. intros ->. pose proof (ext_ok _ _ X2) as [_ H _ _ _ _]. apply H in R1', R2. congruence.
Qed.

(** *** [insert_before] *)

Lemma position_split r l n : position r l = Some n -> exists l1 l2, l = l1 ++ r :: l2 /\ length l1 = n /\ r ∉ l1.
Proof.
  revert n. induction l as [|y l IH]; intros n; cbn [position]; [done|]. case_decide as E.
  - intros [= <-]. subst. exists [], l. split_and!; [done|done|set_solver].
  - intros (m & Hm & ->)%fmap_Some. destruct (IH m Hm) as (l1 & l2 & -> & <- & H). exists (y :: l1), l2. split_and!; [done|done|set_solver].
Qed.

(** [insert_before] puts a node directly in front of the reference, keeps every other link
    and the forest, unless the node is one of the children in front of the reference: then
    it comes one place too far, behind the reference. *)
Theorem insert_before_spec h parent node reference p c r l1 l2 :
  host_ok h -> resolve parent h = Some p -> resolve node h = Some c -> resolve reference h = Some r ->
  ~ rtc (edge (h_dom h)) p c -> c <> r -> children_of (h_dom h) p = l1 ++ r :: l2 ->
  let '(answer, h') := insert_before parent node reference h in
  answer = true /\ dom_wf (h_dom h') /\
  children_of (h_dom h') p = (if decide (c ∈ l1) then erase c l1 ++ r :: c :: l2 else l1 ++ c :: r :: erase c l2) /\
  (forall j, parent_of (h_dom h') j = if decide (j = c) then Some p else parent_of (h_dom h) j) /\
  (forall j, j <> p -> children_of (h_dom h') j = erase c (children_of (h_dom h) j)).
Proof.
  intros Hok Hp Hc Hr Ha Hne Hl. pose proof (ok_dom h Hok) as Hd. pose proof (fo_nodup _ _ (wf_forest _ Hd) p) as Hnd. rewrite Hl in Hnd.
  unfold insert_before. assert ((reference =? 0)%N = false) as -> by (apply N.eqb_neq; intros ->; apply ok_range in Hr; [lia|done]).
  rewrite Hp, Hc, Hr. destruct (position r (children_of (h_dom h) p)) as [n|] eqn:En.
  2:{ exfalso. rewrite Hl in En. clear -En. induction l1 as [|y l1 IH]; cbn in En; [by rewrite decide_True in En|].
      case_decide; [done|]. apply IH. by destruct (position r (l1 ++ r :: l2)). }
  destruct (insert_child_links (h_dom h) p c n Hd) as (W1 & W2 & W3 & _); [by eapply ok_stored..|done|]. cbn [h_dom with_dom].
  split_and!; [done|done| |done|intros j Hj; by rewrite W3, decide_False].
  rewrite W3, decide_True by done. rewrite Hl in *. apply NoDup_app in Hnd as (N1 & N2 & N3). apply NoDup_cons in N3 as [N3 N4].
  assert (n = length l1) as ->.
  { clear -En N2. revert n En. induction l1 as [|y l1 IH]; intros n; cbn; [rewrite decide_True by done; by intros [= <-]|].
    rewrite decide_False by (intros ->; apply (N2 r); set_solver). intros (m & Hm & ->)%fmap_Some. f_equal. apply IH; [|done]. intros z Hz. apply N2. by right. }
  unfold insert_at. case_decide as Ec.
  - rewrite erase_app by done. assert (Hlen : length l1 = S (length (erase c l1))).
    { clear -Ec. induction l1 as [|y l1 IH]; [set_solver|]. cbn. case_decide; [done|]. cbn. rewrite <- IH; [done|set_solver]. }
    rewrite Hlen. rewrite take_app_ge, drop_app_ge by lia. replace (S (length (erase c l1)) - length (erase c l1)) with 1 by lia. cbn.
    by rewrite take_0, drop_0, <- app_assoc.
  - assert (E : erase c (l1 ++ r :: l2) = l1 ++ r :: erase c l2).
    { clear -Ec Hne. induction l1 as [|y l1 IH]; cbn; [by rewrite decide_False|]. rewrite decide_False by set_solver. f_equal. apply IH. set_solver. }
    by rewrite E, take_app_length, drop_app_length.
Qed.

(** *** Examples and witnesses *)

Definition demo_ops : list HostOp :=
  [CreateElement (lit "DIV"); CreateElement (lit "a"); CreateElement (lit "b"); CreateElement (lit "i");
   AppendChild 1 2; AppendChild 1 3; AppendChild 1 4].

Definition demo_host : FlatwormScriptHost := foldl host_step new_host demo_ops.

Lemma demo_allowed : all_allowed new_host demo_ops.
Proof. vm_compute. tauto. Qed.

Lemma demo_host_ok : host_ok demo_host.
Proof. apply (run_ok demo_ops new_host new_host_ok demo_allowed). Qed.

Example demo_markup : element_outer_html 1 demo_host = lit "<div><a></a><b></b><i></i></div>".
Proof. vm_compute. reflexivity. Qed.

(** [a] in front of [i] is asked for; [a] comes behind [i]. *)
Example insert_before_too_far : element_inner_html 1 (insert_before 1 2 4 demo_host).2 = lit "<b></b><i></i><a></a>".
Proof. vm_compute. reflexivity. Qed.

(** A node can be put below itself: [a], a child of [div], gets [div] as a child. *)
Example insert_before_cycle :
  let h := (insert_before 2 1 3 (host_append_child 2 3 demo_host).2).2 in
  (parent_of (h_dom h) 0, parent_of (h_dom h) 1) = (Some 1, Some 0).
Proof. vm_compute. reflexivity. Qed.

(** The text of a text node does not change: the new text becomes a child of the node. *)
Example text_node_unchanged :
  let h := element_set_text 1 (lit "new") (create_text_node (lit "old") new_host).2 in
  (host_element_text 1 h, element_outer_html 1 h) = (lit "old", lit "old").
Proof. vm_compute. reflexivity. Qed.

(** A markup beyond the limits of the parser empties the element. *)
Example fragment_handles : (parse_html_fragment (lit "<p>x</p>y") demo_host).1 = Ret [5; 6]%N.
Proof. vm_compute. reflexivity. Qed.

Example navigation_resolved :
  let h := request_navigation (lit "b") (request_form_submission (lit "/f") (lit "POST") (lit "q=1") new_host) in
  (fst (consume_pending_navigation h), fst (consume_pending_navigation (consume_pending_navigation h).2)) =
  (Some {| nav_url := lit "b"; nav_method := lit "GET"; nav_body := [] |}, None).
Proof. vm_compute. reflexivity. Qed.

Lemma handles_stable_witness :
  resolve 4 (foldl host_step new_host (demo_ops ++ [InsertBefore 1 4 2; SetText 1 (lit "x")])) = Some 3 /\
  resolve 4 (foldl host_step new_host (demo_ops ++ [Install None (lit "u"); CreateComment (lit "c")])) = None.
Proof.
  split.
  - apply (handles_stable demo_ops [InsertBefore 1 4 2; SetText 1 (lit "x")] 4 3); [|vm_compute; reflexivity].
    cbn [all_allowed demo_ops app]. repeat (split; [exact I|]). split; [|vm_compute; tauto]. intros i j Hi Hj.
    vm_compute in Hi, Hj. injection Hi as <-. injection Hj as <-. vm_compute. intros H. apply list_elem_of_In in H. vm_compute in H. lia.
  - apply (handles_stable demo_ops [Install None (lit "u"); CreateComment (lit "c")] 4 3); [|vm_compute; reflexivity].
    vm_compute. tauto.
Defined.

Lemma insert_before_spec_witness :
  (insert_before 1 4 2 demo_host).1 = true /\ children_of (h_dom (insert_before 1 4 2 demo_host).2) 0 = [3; 1; 2].
Proof.
  pose proof (insert_before_spec demo_host 1 4 2 0 3 1 [] [2; 3] demo_host_ok) as H.
  destruct (insert_before 1 4 2 demo_host) as [answer h'] eqn:E. destruct H as (H1 & _ & H2 & _).
  - vm_compute. reflexivity.
  - vm_compute. reflexivity.
  - vm_compute. reflexivity.
  - intros Hr. inversion Hr as [|? y ? Hy _]; subst. vm_compute in Hy. discriminate Hy.
  - discriminate.
  - vm_compute. reflexivity.
  - cbn [fst snd]. split; [exact H1|]. rewrite H2. vm_compute. reflexivity.
Defined.
