(* ===== verification/Config.v ===== *)
(** * Config: [src/core/project_config.cpp]

    The project configuration, [Prowse.toml]: the reading of a TOML document to the structures
    of [include/prowsetk/project_config.hpp].  The TOML library is outside of the repository:
    a document is the data [toml], and what [toml::parse] makes of a text is a parameter.  The
    fields of [ProjectConfig] that one section sets are a record of their own here. *)
From S2P Require Import Prelude.
From Stdlib Require Import SpecFloat.

(** ** TOML documents

    The library keeps a table as a [std::map]: its keys are distinct, and the list is its
    iteration.  An integer has 64 bits; a float is a double.  Dates and times are not read. *)
Inductive toml :=
  | TString (s : bytes)
  | TInteger (z : Z)
  | TFloat (f : spec_float)
  | TBoolean (b : bool)
  | TTime
  | TArray (items : list toml)
  | TTable (entries : list (bytes * toml)).

Abbreviation table := (list (bytes * toml)).

Fixpoint find (t : table) (key : bytes) : option toml :=
  match t with
  | [] => None
  | (k, v) :: t' => if k =s key then Some v else find t' key
  end.

Definition as_string (v : toml) : option bytes := match v with TString s => Some s | _ => None end.
Definition as_integer (v : toml) : option Z := match v with TInteger z => Some z | _ => None end.
Definition as_floating_point (v : toml) : option spec_float := match v with TFloat f => Some f | _ => None end.
Definition as_boolean (v : toml) : option bool := match v with TBoolean b => Some b | _ => None end.
Definition as_array (v : toml) : option (list toml) := match v with TArray l => Some l | _ => None end.
Definition as_table (v : toml) : option table := match v with TTable t => Some t | _ => None end.

Definition find_table (root : table) (key : bytes) : option table := it ← find root key; as_table it.
Definition find_array (root : table) (key : bytes) : option (list toml) := it ← find root key; as_array it.

Definition table_string (t : table) (key fallback : bytes) : bytes := default fallback (it ← find t key; as_string it).
Definition table_bool (t : table) (key : bytes) (fallback : bool) : bool := default fallback (it ← find t key; as_boolean it).
Definition table_int (t : table) (key : bytes) (fallback : Z) : Z := default fallback (it ← find t key; as_integer it).
Definition table_float (t : table) (key : bytes) (fallback : spec_float) : spec_float :=
  default fallback (it ← find t key; as_floating_point it).
Definition table_string_array (t : table) (key : bytes) : list bytes := omap as_string (default [] (find_array t key)).

(** [static_cast] of a [std::int64_t] to [std::uint32_t], [int] and [std::size_t], and back from [std::size_t]. *)
Definition to_uint32 (z : Z) : Z := (z mod 2 ^ 32)%Z.
Definition to_int (z : Z) : Z := ((z + 2 ^ 31) mod 2 ^ 32 - 2 ^ 31)%Z.
Definition to_size (z : Z) : Z := (z mod 2 ^ 64)%Z.
Definition to_int64 (z : Z) : Z := ((z + 2 ^ 63) mod 2 ^ 64 - 2 ^ 63)%Z.

(** ** Arrays of tables *)

Record ConfigArgument := {
  arg_name : bytes; arg_type : bytes; required : bool; secret : bool; default_value : bytes }.

Record DriverConfig := {
  driver_name : bytes; driver_description : bytes; script : bytes; entrypoint : bytes; driver_enabled : bool;
  driver_arguments : list ConfigArgument }.

Record ExtensionConfig := {
  extension_name : bytes; extension_description : bytes; extension_type : bytes; module : bytes;
  extension_enabled : bool; extension_autoload : bool; required_modules : list bytes; events : list bytes }.

Record PluginConfig := {
  plugin_name : bytes; plugin_description : bytes; plugin_type : bytes; plugin_path : bytes;
  plugin_enabled : bool; plugin_autoload : bool; capabilities : list bytes; lua_modules : list bytes }.

Record CommandConfig := {
  command_name : bytes; command_description : bytes; handler : bytes; command_driver : bytes; command_output : bytes;
  command_arguments : list ConfigArgument }.

(** The loop over an array: what is not a table is passed over, and so is a table without a name. *)
Definition parse_items {A} (parse : table -> A) (name : A -> bytes) (items : list toml) : list A :=
  omap (fun item => t ← as_table item; if nonempty (name (parse t)) then Some (parse t) else None) items.

Definition parse_argument (t : table) : ConfigArgument :=
  {| arg_name := table_string t (lit "name") []; arg_type := table_string t (lit "type") (lit "string");
     required := table_bool t (lit "required") false; secret := table_bool t (lit "secret") false;
     default_value := table_string t (lit "default") [] |}.

Definition parse_arguments (items : option (list toml)) : list ConfigArgument :=
  parse_items parse_argument arg_name (default [] items).

Definition parse_driver (t : table) : DriverConfig :=
  {| driver_name := table_string t (lit "name") []; driver_description := table_string t (lit "description") [];
     script := table_string t (lit "script") []; entrypoint := table_string t (lit "entrypoint") (lit "main");
     driver_enabled := table_bool t (lit "enabled") true; driver_arguments := parse_arguments (find_array t (lit "arguments")) |}.

Definition parse_extension (t : table) : ExtensionConfig :=
  {| extension_name := table_string t (lit "name") []; extension_description := table_string t (lit "description") [];
     extension_type := table_string t (lit "type") (lit "lua"); module := table_string t (lit "module") [];
     extension_enabled := table_bool t (lit "enabled") true; extension_autoload := table_bool t (lit "autoload") true;
     required_modules := table_string_array t (lit "requires"); events := table_string_array t (lit "events") |}.

Definition parse_plugin (t : table) : PluginConfig :=
  {| plugin_name := table_string t (lit "name") []; plugin_description := table_string t (lit "description") [];
     plugin_type := table_string t (lit "type") []; plugin_path := table_string t (lit "path") [];
     plugin_enabled := table_bool t (lit "enabled") true; plugin_autoload := table_bool t (lit "autoload") false;
     capabilities := table_string_array t (lit "capabilities"); lua_modules := table_string_array t (lit "lua_modules") |}.

Definition parse_command (t : table) : CommandConfig :=
  {| command_name := table_string t (lit "name") []; command_description := table_string t (lit "description") [];
     handler := table_string t (lit "handler") []; command_driver := table_string t (lit "driver") [];
     command_output := table_string t (lit "output") []; command_arguments := parse_arguments (find_array t (lit "arguments")) |}.

Definition parse_drivers (root : table) : list DriverConfig :=
  parse_items parse_driver driver_name (default [] (find_array root (lit "drivers"))).
Definition parse_extensions (root : table) : list ExtensionConfig :=
  parse_items parse_extension extension_name (default [] (find_array root (lit "extensions"))).
Definition parse_plugins (root : table) : list PluginConfig :=
  parse_items parse_plugin plugin_name (default [] (find_array root (lit "plugins"))).
Definition parse_commands (root : table) : list CommandConfig :=
  parse_items parse_command command_name (default [] (find_array root (lit "commands"))).

(** ** Tables with free keys *)

Record PluginSandboxConfig := {
  component : option bool; wasi : option bool; max_memory_mb : option Z; execution_timeout_ms : option Z;
  filesystem : option bytes; network : option bytes }.

Definition parse_sandbox (t : table) : PluginSandboxConfig :=
  {| component := it ← find t (lit "component"); as_boolean it; wasi := it ← find t (lit "wasi"); as_boolean it;
     max_memory_mb := to_size <$> (it ← find t (lit "max_memory_mb"); as_integer it);
     execution_timeout_ms := to_uint32 <$> (it ← find t (lit "execution_timeout_ms"); as_integer it);
     filesystem := it ← find t (lit "filesystem"); as_string it; network := it ← find t (lit "network"); as_string it |}.

(** The loop over a table: the values that [read] gives are kept under their keys. *)
Definition parse_map {A} (read : toml -> option A) (t : table) : gmap bytes A :=
  foldl (fun m '(key, value) => match read value with Some a => <[key := a]> m | None => m end) ∅ t.

Definition parse_plugin_config (root : table) : gmap bytes PluginSandboxConfig :=
  parse_map (fun v => parse_sandbox <$> as_table v) (default [] (find_table root (lit "plugin_config"))).

Definition parse_variables (root : table) : gmap bytes bytes :=
  parse_map as_string (default [] (find_table root (lit "variables"))).

(** ** Sections *)

Record EndpointExtractionConfig := {
  enabled : bool; plugin : bytes; base_urls : list bytes; follow_links : bool; inspect_forms : bool;
  inspect_inline_scripts : bool; inspect_external_scripts : bool; observe_network : bool; inspect_json_config : bool;
  max_depth : Z; max_pages : Z; max_requests : Z; same_origin_only : bool; allowed_hosts : list bytes;
  blocked_path_patterns : list bytes; infer_parameters : bool; infer_request_bodies : bool;
  infer_response_schemas : bool; infer_status_codes : bool; minimum_confidence : spec_float; openapi_version : bytes;
  output : bytes; include_examples : bool; include_provenance : bool; redact_cookies : bool;
  redact_authorization_headers : bool; redact_query_parameters : list bytes }.

(** The double 0.5. *)
Definition one_half : spec_float := S754_finite false 4503599627370496 (-53).

Definition default_endpoint_extraction : EndpointExtractionConfig :=
  {| enabled := true; plugin := lit "endpoint-extraction"; base_urls := []; follow_links := true; inspect_forms := true;
     inspect_inline_scripts := true; inspect_external_scripts := true; observe_network := true; inspect_json_config := true;
     max_depth := 2; max_pages := 100; max_requests := 500; same_origin_only := true; allowed_hosts := [];
     blocked_path_patterns := []; infer_parameters := true; infer_request_bodies := true; infer_response_schemas := true;
     infer_status_codes := true; minimum_confidence := one_half; openapi_version := lit "3.1.0";
     output := lit "build/openapi.yaml"; include_examples := true; include_provenance := true; redact_cookies := true;
     redact_authorization_headers := true; redact_query_parameters := [] |}.

Definition parse_endpoint_extraction (root : table) (c : EndpointExtractionConfig) : EndpointExtractionConfig :=
  match find_table root (lit "endpoint_extraction") with
  | None => c
  | Some t =>
      {| enabled := table_bool t (lit "enabled") (enabled c); plugin := table_string t (lit "plugin") (plugin c);
         base_urls := table_string_array t (lit "base_urls"); follow_links := table_bool t (lit "follow_links") (follow_links c);
         inspect_forms := table_bool t (lit "inspect_forms") (inspect_forms c);
         inspect_inline_scripts := table_bool t (lit "inspect_inline_scripts") (inspect_inline_scripts c);
         inspect_external_scripts := table_bool t (lit "inspect_external_scripts") (inspect_external_scripts c);
         observe_network := table_bool t (lit "observe_network") (observe_network c);
         inspect_json_config := table_bool t (lit "inspect_json_config") (inspect_json_config c);
         max_depth := to_uint32 (table_int t (lit "max_depth") (max_depth c));
         max_pages := to_uint32 (table_int t (lit "max_pages") (max_pages c));
         max_requests := to_uint32 (table_int t (lit "max_requests") (max_requests c));
         same_origin_only := table_bool t (lit "same_origin_only") (same_origin_only c);
         allowed_hosts := table_string_array t (lit "allowed_hosts");
         blocked_path_patterns := table_string_array t (lit "blocked_path_patterns");
         infer_parameters := table_bool t (lit "infer_parameters") (infer_parameters c);
         infer_request_bodies := table_bool t (lit "infer_request_bodies") (infer_request_bodies c);
         infer_response_schemas := table_bool t (lit "infer_response_schemas") (infer_response_schemas c);
         infer_status_codes := table_bool t (lit "infer_status_codes") (infer_status_codes c);
         minimum_confidence := table_float t (lit "minimum_confidence") (minimum_confidence c);
         openapi_version := table_string t (lit "openapi_version") (openapi_version c);
         output := table_string t (lit "output") (output c);
         include_examples := table_bool t (lit "include_examples") (include_examples c);
         include_provenance := table_bool t (lit "include_provenance") (include_provenance c);
         redact_cookies := table_bool t (lit "redact_cookies") (redact_cookies c);
         redact_authorization_headers := table_bool t (lit "redact_authorization_headers") (redact_authorization_headers c);
         redact_query_parameters := table_string_array t (lit "redact_query_parameters") |}
  end.

Record SecurityConfig := {
  allowed_schemes : list bytes; allow_file_urls : bool; allow_private_networks : bool; allow_loopback : bool;
  allow_native_lua : bool; allow_dynamic_plugin_loading : bool }.

Definition default_security : SecurityConfig :=
  {| allowed_schemes := [lit "https"; lit "http"]; allow_file_urls := false; allow_private_networks := false;
     allow_loopback := false; allow_native_lua := true; allow_dynamic_plugin_loading := false |}.

(** [if (!values.empty()) field = values]. *)
Definition unless_empty (values field : list bytes) : list bytes := if nonempty values then values else field.

Definition parse_security (root : table) (c : SecurityConfig) : SecurityConfig :=
  match find_table root (lit "security") with
  | None => c
  | Some t =>
      {| allowed_schemes := unless_empty (table_string_array t (lit "allowed_schemes")) (allowed_schemes c);
         allow_file_urls := table_bool t (lit "allow_file_urls") (allow_file_urls c);
         allow_private_networks := table_bool t (lit "allow_private_networks") (allow_private_networks c);
         allow_loopback := table_bool t (lit "allow_loopback") (allow_loopback c);
         allow_native_lua := table_bool t (lit "allow_native_lua") (allow_native_lua c);
         allow_dynamic_plugin_loading := table_bool t (lit "allow_dynamic_plugin_loading") (allow_dynamic_plugin_loading c) |}
  end.

Record SessionDefaultsConfig := {
  default_profile : bytes; reuse_cookies : bool; persist_session : bool; isolate_storage : bool; cookies_json : bytes }.

Definition default_sessions : SessionDefaultsConfig :=
  {| default_profile := lit "default"; reuse_cookies := false; persist_session := false; isolate_storage := true;
     cookies_json := [] |}.

Definition parse_sessions (root : table) (c : SessionDefaultsConfig) : SessionDefaultsConfig :=
  match find_table root (lit "sessions") with
  | None => c
  | Some t =>
      {| default_profile := table_string t (lit "default_profile") (default_profile c);
         reuse_cookies := table_bool t (lit "reuse_cookies") (reuse_cookies c);
         persist_session := table_bool t (lit "persist_session") (persist_session c);
         isolate_storage := table_bool t (lit "isolate_storage") (isolate_storage c);
         cookies_json := table_string t (lit "cookies_json") (cookies_json c) |}
  end.

Record AssistantBrowserConfig := {
  assistant_enabled : bool; command : bytes; assistant_method : bytes; endpoint : bytes; debug_port : Z; wait_timeout_ms : Z }.

Definition default_assistant : AssistantBrowserConfig :=
  {| assistant_enabled := false; command := lit "assistant-browser"; assistant_method := lit "webdriver"; endpoint := [];
     debug_port := 0; wait_timeout_ms := 300000 |}.

Definition parse_assistant_browser (root : table) (c : AssistantBrowserConfig) : AssistantBrowserConfig :=
  match union (find_table root (lit "assistant_browser")) (find_table root (lit "assistant-browser")) with
  | None => c
  | Some t =>
      {| assistant_enabled := table_bool t (lit "enabled") (assistant_enabled c);
         command := table_string t (lit "command") (command c);
         assistant_method := table_string t (lit "method") (assistant_method c);
         endpoint := table_string t (lit "endpoint") (endpoint c);
         debug_port := to_uint32 (table_int t (lit "debug_port") (debug_port c));
         wait_timeout_ms := to_uint32 (table_int t (lit "wait_timeout_ms") (wait_timeout_ms c)) |}
  end.

Record OauthConfig := {
  authorization_endpoint : bytes; token_endpoint : bytes; client_id : bytes; redirect_uri : bytes; scopes : bytes }.

Definition default_oauth : OauthConfig :=
  {| authorization_endpoint := lit "https://dash.cloudflare.com/oauth2/auth";
     token_endpoint := lit "https://dash.cloudflare.com/oauth2/token"; client_id := [];
     redirect_uri := lit "http://localhost:8976/oauth/callback"; scopes := [] |}.

Definition parse_oauth (root : table) (c : OauthConfig) : OauthConfig :=
  match find_table root (lit "oauth") with
  | None => c
  | Some t =>
      {| client_id := table_string t (lit "client_id") []; scopes := table_string t (lit "scopes") [];
         redirect_uri := table_string t (lit "redirect_uri") (redirect_uri c);
         authorization_endpoint := table_string t (lit "authorization_endpoint") (authorization_endpoint c);
         token_endpoint := table_string t (lit "token_endpoint") (token_endpoint c) |}
  end.

(** The fields that [cloudflare], [project], [engine], [lua] and [network] set. *)
Record CloudflareConfig := { account_id : bytes; api_token : bytes }.
Record ProjectSection := { name : bytes; version : bytes; description : bytes; project_root : bytes }.
Record EngineConfig := {
  user_agent : bytes; javascript : bool; follow_redirects : bool; max_redirects : Z; timeout_ms : Z;
  unsupported_api_behavior : bytes; engine_observe_network : bool }.
Record LuaConfig := {
  lua_version : bytes; lua_libraries : list bytes; lua_preload : list bytes; allow_extensions : bool;
  lua_max_memory_mb : Z; lua_execution_timeout_ms : Z }.

Definition default_cloudflare : CloudflareConfig := {| account_id := []; api_token := [] |}.
Definition default_project : ProjectSection := {| name := []; version := []; description := []; project_root := lit "." |}.
Definition default_engine : EngineConfig :=
  {| user_agent := []; javascript := true; follow_redirects := true; max_redirects := 10; timeout_ms := 30000;
     unsupported_api_behavior := lit "warn"; engine_observe_network := false |}.
Definition default_lua : LuaConfig :=
  {| lua_version := lit "5.4"; lua_libraries := [lit "lprowse"; lit "lprowsext"]; lua_preload := []; allow_extensions := true;
     lua_max_memory_mb := 128; lua_execution_timeout_ms := 30000 |}.

Definition parse_cloudflare (root : table) (c : CloudflareConfig) : CloudflareConfig :=
  match find_table root (lit "cloudflare") with
  | None => c
  | Some t => {| account_id := table_string t (lit "account_id") []; api_token := table_string t (lit "api_token") [] |}
  end.

Definition parse_project (root : table) (c : ProjectSection) : ProjectSection :=
  match find_table root (lit "project") with
  | None => c
  | Some t =>
      {| name := table_string t (lit "name") (name c); version := table_string t (lit "version") (version c);
         description := table_string t (lit "description") (description c);
         project_root := table_string t (lit "root") (project_root c) |}
  end.

Definition parse_engine (root : table) (c : EngineConfig) : EngineConfig :=
  match find_table root (lit "engine") with
  | None => c
  | Some t =>
      {| user_agent := table_string t (lit "user_agent") (user_agent c);
         javascript := table_bool t (lit "javascript") (javascript c);
         follow_redirects := table_bool t (lit "follow_redirects") (follow_redirects c);
         max_redirects := to_int (table_int t (lit "max_redirects") (max_redirects c));
         timeout_ms := to_int (table_int t (lit "timeout_ms") (timeout_ms c));
         unsupported_api_behavior := table_string t (lit "unsupported_api_behavior") (unsupported_api_behavior c);
         engine_observe_network := table_bool t (lit "observe_network") (engine_observe_network c) |}
  end.

Definition parse_lua (root : table) (c : LuaConfig) : LuaConfig :=
  match find_table root (lit "lua") with
  | None => c
  | Some t =>
      {| lua_version := table_string t (lit "version") (lua_version c);
         lua_libraries := unless_empty (table_string_array t (lit "libraries")) (lua_libraries c);
         lua_preload := table_string_array t (lit "preload");
         allow_extensions := table_bool t (lit "allow_extensions") (allow_extensions c);
         lua_max_memory_mb := to_size (table_int t (lit "max_memory_mb") (to_int64 (lua_max_memory_mb c)));
         lua_execution_timeout_ms := to_uint32 (table_int t (lit "execution_timeout_ms") (to_int64 (lua_execution_timeout_ms c))) |}
  end.

Definition parse_network (root : table) (proxy : bytes) : bytes :=
  match find_table root (lit "network") with None => proxy | Some t => table_string t (lit "proxy") proxy end.

Record ProjectConfig := {
  project : ProjectSection; engine : EngineConfig; lua : LuaConfig; network_proxy : bytes; cloudflare : CloudflareConfig;
  oauth : OauthConfig; drivers : list DriverConfig; extensions : list ExtensionConfig; plugins : list PluginConfig;
  plugin_config : gmap bytes PluginSandboxConfig; commands : list CommandConfig;
  endpoint_extraction : EndpointExtractionConfig; security : SecurityConfig; sessions : SessionDefaultsConfig;
  assistant_browser : AssistantBrowserConfig; variables : gmap bytes bytes }.

Definition parse_root (root : table) : ProjectConfig :=
  {| cloudflare := parse_cloudflare root default_cloudflare; oauth := parse_oauth root default_oauth;
     project := parse_project root default_project; engine := parse_engine root default_engine;
     lua := parse_lua root default_lua; network_proxy := parse_network root [];
     drivers := parse_drivers root; extensions := parse_extensions root; plugins := parse_plugins root;
     plugin_config := parse_plugin_config root; commands := parse_commands root;
     endpoint_extraction := parse_endpoint_extraction root default_endpoint_extraction;
     security := parse_security root default_security; sessions := parse_sessions root default_sessions;
     assistant_browser := parse_assistant_browser root default_assistant; variables := parse_variables root |}.

(** ** Files

    [has_toml] is whether the build has the TOML library, [parse] is [toml::parse], which gives
    nothing for what it throws [toml::parse_error] at, and [open_file] is what a stream reads. *)
Section Files.
Context (has_toml : bool) (parse : bytes -> option table) (open_file : bytes -> option bytes).

Definition parse_project_config (contents : bytes) : result ProjectConfig :=
  if has_toml then
    match parse contents with
    | Some root => Ret (parse_root root)
    | None => Throw ParseError
    end
  else Throw Unsupported.

Definition load_project_config (path : bytes) : result ProjectConfig :=
  if has_toml then
    match open_file path with
    | None => Throw IoError
    | Some contents => parse_project_config contents
    end
  else Throw Unsupported.

End Files.

(** ** Writing a configuration

    A document that says everything about a configuration. *)

Definition TStrings (l : list bytes) : toml := TArray (TString <$> l).
Definition entry (key : string) (v : toml) : bytes * toml := (lit key, v).
Definition entry_if {A} (key : string) (f : A -> toml) (v : option A) : table := from_option (fun a => [entry key (f a)]) [] v.

Definition argument_table (a : ConfigArgument) : table :=
  [entry "name" (TString (arg_name a)); entry "type" (TString (arg_type a)); entry "required" (TBoolean (required a));
   entry "secret" (TBoolean (secret a)); entry "default" (TString (default_value a))].

Definition arguments_array (l : list ConfigArgument) : toml := TArray ((fun a => TTable (argument_table a)) <$> l).

Definition driver_table (d : DriverConfig) : table :=
  [entry "name" (TString (driver_name d)); entry "description" (TString (driver_description d));
   entry "script" (TString (script d)); entry "entrypoint" (TString (entrypoint d));
   entry "enabled" (TBoolean (driver_enabled d)); entry "arguments" (arguments_array (driver_arguments d))].

Definition extension_table (e : ExtensionConfig) : table :=
  [entry "name" (TString (extension_name e)); entry "description" (TString (extension_description e));
   entry "type" (TString (extension_type e)); entry "module" (TString (module e));
   entry "enabled" (TBoolean (extension_enabled e)); entry "autoload" (TBoolean (extension_autoload e));
   entry "requires" (TStrings (required_modules e)); entry "events" (TStrings (events e))].

Definition plugin_table (p : PluginConfig) : table :=
  [entry "name" (TString (plugin_name p)); entry "description" (TString (plugin_description p));
   entry "type" (TString (plugin_type p)); entry "path" (TString (plugin_path p));
   entry "enabled" (TBoolean (plugin_enabled p)); entry "autoload" (TBoolean (plugin_autoload p));
   entry "capabilities" (TStrings (capabilities p)); entry "lua_modules" (TStrings (lua_modules p))].

Definition command_table (c : CommandConfig) : table :=
  [entry "name" (TString (command_name c)); entry "description" (TString (command_description c));
   entry "handler" (TString (handler c)); entry "driver" (TString (command_driver c));
   entry "output" (TString (command_output c)); entry "arguments" (arguments_array (command_arguments c))].

Definition sandbox_table (s : PluginSandboxConfig) : table :=
  entry_if "component" TBoolean (component s) ++ entry_if "wasi" TBoolean (wasi s) ++
  entry_if "max_memory_mb" (fun n => TInteger (to_int64 n)) (max_memory_mb s) ++
  entry_if "execution_timeout_ms" TInteger (execution_timeout_ms s) ++
  entry_if "filesystem" TString (filesystem s) ++ entry_if "network" TString (network s).

Definition endpoint_table (c : EndpointExtractionConfig) : table :=
  [entry "enabled" (TBoolean (enabled c)); entry "plugin" (TString (plugin c)); entry "base_urls" (TStrings (base_urls c));
   entry "follow_links" (TBoolean (follow_links c)); entry "inspect_forms" (TBoolean (inspect_forms c));
   entry "inspect_inline_scripts" (TBoolean (inspect_inline_scripts c));
   entry "inspect_external_scripts" (TBoolean (inspect_external_scripts c));
   entry "observe_network" (TBoolean (observe_network c)); entry "inspect_json_config" (TBoolean (inspect_json_config c));
   entry "max_depth" (TInteger (max_depth c)); entry "max_pages" (TInteger (max_pages c));
   entry "max_requests" (TInteger (max_requests c)); entry "same_origin_only" (TBoolean (same_origin_only c));
   entry "allowed_hosts" (TStrings (allowed_hosts c)); entry "blocked_path_patterns" (TStrings (blocked_path_patterns c));
   entry "infer_parameters" (TBoolean (infer_parameters c)); entry "infer_request_bodies" (TBoolean (infer_request_bodies c));
   entry "infer_response_schemas" (TBoolean (infer_response_schemas c)); entry "infer_status_codes" (TBoolean (infer_status_codes c));
   entry "minimum_confidence" (TFloat (minimum_confidence c)); entry "openapi_version" (TString (openapi_version c));
   entry "output" (TString (output c)); entry "include_examples" (TBoolean (include_examples c));
   entry "include_provenance" (TBoolean (include_provenance c)); entry "redact_cookies" (TBoolean (redact_cookies c));
   entry "redact_authorization_headers" (TBoolean (redact_authorization_headers c));
   entry "redact_query_parameters" (TStrings (redact_query_parameters c))].

Definition security_table (c : SecurityConfig) : table :=
  [entry "allowed_schemes" (TStrings (allowed_schemes c)); entry "allow_file_urls" (TBoolean (allow_file_urls c));
   entry "allow_private_networks" (TBoolean (allow_private_networks c)); entry "allow_loopback" (TBoolean (allow_loopback c));
   entry "allow_native_lua" (TBoolean (allow_native_lua c));
   entry "allow_dynamic_plugin_loading" (TBoolean (allow_dynamic_plugin_loading c))].

Definition sessions_table (c : SessionDefaultsConfig) : table :=
  [entry "default_profile" (TString (default_profile c)); entry "reuse_cookies" (TBoolean (reuse_cookies c));
   entry "persist_session" (TBoolean (persist_session c)); entry "isolate_storage" (TBoolean (isolate_storage c));
   entry "cookies_json" (TString (cookies_json c))].

Definition assistant_table (c : AssistantBrowserConfig) : table :=
  [entry "enabled" (TBoolean (assistant_enabled c)); entry "command" (TString (command c));
   entry "method" (TString (assistant_method c)); entry "endpoint" (TString (endpoint c));
   entry "debug_port" (TInteger (debug_port c)); entry "wait_timeout_ms" (TInteger (wait_timeout_ms c))].

Definition oauth_table (c : OauthConfig) : table :=
  [entry "client_id" (TString (client_id c)); entry "scopes" (TString (scopes c)); entry "redirect_uri" (TString (redirect_uri c));
   entry "authorization_endpoint" (TString (authorization_endpoint c)); entry "token_endpoint" (TString (token_endpoint c))].

Definition cloudflare_table (c : CloudflareConfig) : table :=
  [entry "account_id" (TString (account_id c)); entry "api_token" (TString (api_token c))].

Definition project_table (c : ProjectSection) : table :=
  [entry "name" (TString (name c)); entry "version" (TString (version c)); entry "description" (TString (description c));
   entry "root" (TString (project_root c))].

Definition engine_table (c : EngineConfig) : table :=
  [entry "user_agent" (TString (user_agent c)); entry "javascript" (TBoolean (javascript c));
   entry "follow_redirects" (TBoolean (follow_redirects c)); entry "max_redirects" (TInteger (max_redirects c));
   entry "timeout_ms" (TInteger (timeout_ms c)); entry "unsupported_api_behavior" (TString (unsupported_api_behavior c));
   entry "observe_network" (TBoolean (engine_observe_network c))].

Definition lua_table (c : LuaConfig) : table :=
  [entry "version" (TString (lua_version c)); entry "libraries" (TStrings (lua_libraries c));
   entry "preload" (TStrings (lua_preload c)); entry "allow_extensions" (TBoolean (allow_extensions c));
   entry "max_memory_mb" (TInteger (to_int64 (lua_max_memory_mb c)));
   entry "execution_timeout_ms" (TInteger (lua_execution_timeout_ms c))].

Definition tables {A} (write : A -> table) (l : list A) : toml := TArray ((fun a => TTable (write a)) <$> l).

Definition config_table (c : ProjectConfig) : table :=
  [entry "cloudflare" (TTable (cloudflare_table (cloudflare c))); entry "oauth" (TTable (oauth_table (oauth c)));
   entry "project" (TTable (project_table (project c))); entry "engine" (TTable (engine_table (engine c)));
   entry "lua" (TTable (lua_table (lua c))); entry "network" (TTable [entry "proxy" (TString (network_proxy c))]);
   entry "drivers" (tables driver_table (drivers c)); entry "extensions" (tables extension_table (extensions c));
   entry "plugins" (tables plugin_table (plugins c));
   entry "plugin_config" (TTable ((fun '(k, s) => (k, TTable (sandbox_table s))) <$> map_to_list (plugin_config c)));
   entry "commands" (tables command_table (commands c));
   entry "endpoint_extraction" (TTable (endpoint_table (endpoint_extraction c)));
   entry "security" (TTable (security_table (security c))); entry "sessions" (TTable (sessions_table (sessions c)));
   entry "assistant_browser" (TTable (assistant_table (assistant_browser c)));
   entry "variables" (TTable ((fun '(k, v) => (k, TString v)) <$> map_to_list (variables c)))].

(** ** What configurations there are *)

Definition uint32_ok (z : Z) : Prop := (0 <= z < 2 ^ 32)%Z.
Definition int_ok (z : Z) : Prop := (- 2 ^ 31 <= z < 2 ^ 31)%Z.
Definition size_ok (z : Z) : Prop := (0 <= z < 2 ^ 64)%Z.
Definition option_ok (P : Z -> Prop) (z : option Z) : Prop := match z with Some n => P n | None => True end.

Definition arguments_ok (l : list ConfigArgument) : Prop := Forall (fun a => arg_name a <> []) l.
Definition driver_ok (d : DriverConfig) : Prop := driver_name d <> [] /\ arguments_ok (driver_arguments d).
Definition command_ok (c : CommandConfig) : Prop := command_name c <> [] /\ arguments_ok (command_arguments c).
Definition sandbox_ok (s : PluginSandboxConfig) : Prop :=
  option_ok size_ok (max_memory_mb s) /\ option_ok uint32_ok (execution_timeout_ms s).
Definition endpoint_ok (c : EndpointExtractionConfig) : Prop :=
  uint32_ok (max_depth c) /\ uint32_ok (max_pages c) /\ uint32_ok (max_requests c).
Definition assistant_ok (c : AssistantBrowserConfig) : Prop := uint32_ok (debug_port c) /\ uint32_ok (wait_timeout_ms c).
Definition engine_ok (c : EngineConfig) : Prop := int_ok (max_redirects c) /\ int_ok (timeout_ms c).
Definition lua_ok (c : LuaConfig) : Prop :=
  lua_libraries c <> [] /\ size_ok (lua_max_memory_mb c) /\ uint32_ok (lua_execution_timeout_ms c).

(** What has a name has one that is not empty, the lists with a default are not empty, and the
    numbers are those of their types. *)
Record config_ok (c : ProjectConfig) : Prop := {
  ok_drivers : Forall driver_ok (drivers c);
  ok_extensions : Forall (fun e => extension_name e <> []) (extensions c);
  ok_plugins : Forall (fun p => plugin_name p <> []) (plugins c);
  ok_commands : Forall command_ok (commands c);
  ok_plugin_config : map_Forall (fun _ => sandbox_ok) (plugin_config c);
  ok_endpoint : endpoint_ok (endpoint_extraction c);
  ok_security : allowed_schemes (security c) <> [];
  ok_assistant : assistant_ok (assistant_browser c);
  ok_engine : engine_ok (engine c);
  ok_lua : lua_ok (lua c) }.

(** ** Casts *)

Lemma to_uint32_ok z : uint32_ok (to_uint32 z).
Proof. unfold uint32_ok, to_uint32. apply Z.mod_pos_bound. lia. Qed.

Lemma to_int_ok z : int_ok (to_int z).
Proof. unfold int_ok, to_int. pose proof (Z.mod_pos_bound (z + 2 ^ 31) (2 ^ 32)). lia. Qed.

Lemma to_size_ok z : size_ok (to_size z).
Proof. unfold size_ok, to_size. apply Z.mod_pos_bound. lia. Qed.

Lemma to_uint32_id z : uint32_ok z -> to_uint32 z = z.
Proof. apply Z.mod_small. Qed.

Lemma to_int_id z : int_ok z -> to_int z = z.
Proof. unfold int_ok, to_int. intros H. rewrite Z.mod_small; lia. Qed.

Lemma to_size_int64 z : size_ok z -> to_size (to_int64 z) = z.
Proof.
  unfold size_ok, to_size, to_int64. intros H. destruct (decide (z < 2 ^ 63)%Z).
  - rewrite (Z.mod_small (z + 2 ^ 63)) by lia. replace (z + 2 ^ 63 - 2 ^ 63)%Z with z by lia. apply Z.mod_small. lia.
  - replace (z + 2 ^ 63)%Z with ((z - 2 ^ 63) + 1 * 2 ^ 64)%Z by lia. rewrite Z.mod_add, (Z.mod_small (z - 2 ^ 63)) by lia.
    replace (z - 2 ^ 63 - 2 ^ 63)%Z with (z + (-1) * 2 ^ 64)%Z by lia. rewrite Z.mod_add by lia. apply Z.mod_small. lia.
Qed.

(** A number that was cast, or a default. *)
Ltac in_range := first [apply to_uint32_ok | apply to_int_ok | apply to_size_ok | vm_compute; intuition discriminate].

(** ** Every configuration that is read is well formed *)

Lemma parse_items_ok {A} (P : A -> Prop) parse (name : A -> bytes) items :
  (forall t, name (parse t) <> [] -> P (parse t)) -> Forall P (parse_items parse name items).
Proof.
  intros H. apply Forall_forall. intros a (item & _ & Ha)%list_elem_of_omap.
  destruct item; try discriminate Ha. simpl in Ha. destruct (name (parse entries)) eqn:E; [discriminate Ha|].
  injection Ha as <-. apply H. congruence.
Qed.

Lemma parse_map_ok {A} (P : A -> Prop) (read : toml -> option A) t :
  (forall v a, read v = Some a -> P a) -> map_Forall (fun _ => P) (parse_map read t).
Proof.
  intros H. unfold parse_map. assert (map_Forall (fun _ : bytes => P) (∅ : gmap bytes A)) as Hm by apply map_Forall_empty.
  revert Hm. generalize (∅ : gmap bytes A). induction t as [|[k v] t IH]; intros m Hm; [done|]. simpl. apply IH.
  destruct (read v) eqn:E; [|done]. apply map_Forall_insert_2; eauto.
Qed.

Lemma unless_empty_ok values field : field <> [] -> unless_empty values field <> [].
Proof. by destruct values. Qed.

Lemma parse_arguments_ok items : arguments_ok (parse_arguments items).
Proof. by apply parse_items_ok. Qed.

Lemma parse_sandbox_ok t : sandbox_ok (parse_sandbox t).
Proof.
  split; simpl; [destruct (it ← find t (lit "max_memory_mb"); _)|destruct (it ← find t (lit "execution_timeout_ms"); _)];
    simpl; first [exact I|in_range].
Qed.

Lemma parse_root_ok root : config_ok (parse_root root).
Proof.
  split; simpl.
  1, 4: apply parse_items_ok; intros t Ht; split; [exact Ht|apply parse_arguments_ok].
  1, 2: by apply parse_items_ok.
  - apply parse_map_ok. intros v s. destruct v; try discriminate. intros [= <-]. apply parse_sandbox_ok.
  - unfold parse_endpoint_extraction. destruct find_table; (split; [|split]); in_range.
  - unfold parse_security. destruct find_table; [by apply unless_empty_ok|done].
  - unfold parse_assistant_browser. destruct (union _ _); split; in_range.
  - unfold parse_engine. destruct find_table; split; in_range.
  - unfold parse_lua. destruct find_table; (split; [|split]); try in_range. by apply unless_empty_ok.
Qed.

(** ** Reading what was written *)

Lemma find_same k v t : find ((k, v) :: t) k = Some v.
Proof. simpl. by rewrite eqb_bytes_refl. Qed.

Lemma strings_read (l : list bytes) : omap as_string (TString <$> l) = l.
Proof. induction l as [|s l IH]; [done|]. simpl. f_equal. exact IH. Qed.

Lemma items_read {A} parse (write : A -> table) (name : A -> bytes) (P : A -> Prop) l :
  (forall a, P a -> parse (write a) = a) -> (forall a, P a -> name a <> []) ->
  Forall P l -> parse_items parse name ((fun a => TTable (write a)) <$> l) = l.
Proof.
  intros Hr Hn. induction 1 as [|a l Ha _ IH]; [done|]. unfold parse_items in *. simpl. rewrite (Hr a Ha).
  pose proof (Hn a Ha). destruct (name a); [done|]. simpl. f_equal. exact IH.
Qed.

Lemma map_read {A} (read : toml -> option A) (write : A -> toml) (m : gmap bytes A) :
  map_Forall (fun _ a => read (write a) = Some a) m ->
  parse_map read ((fun '(k, a) => (k, write a)) <$> map_to_list m) = m.
Proof.
  intros H. unfold parse_map. rewrite <- (list_to_map_to_list m) at 2.
  assert (Forall (fun '(k, a) => read (write a) = Some a) (map_to_list m)) as Hl
    by (apply Forall_forall; intros [k a] Ha; apply (H k), elem_of_map_to_list, Ha).
  pose proof (NoDup_fst_map_to_list m) as Hd. revert Hl Hd. generalize (map_to_list m). clear H m.
  intros l Hl Hd. enough (forall m0, (forall k, k ∈ l.*1 -> m0 !! k = None) ->
    foldl (fun m '(key, value) => match read value with Some a => <[key := a]> m | None => m end) m0
      ((fun '(k, a) => (k, write a)) <$> l) = list_to_map l ∪ m0) as E
    by (rewrite E by (intros; apply lookup_empty); apply map_union_empty).
  induction Hl as [|[k a] l Ha _ IH]; intros m0 Hm; simpl; [by rewrite map_empty_union|].
  apply NoDup_cons in Hd as [Hk Hd]. rewrite Ha, IH.
  - rewrite <- insert_union_l, insert_union_r; [done|]. by apply not_elem_of_list_to_map_1.
  - done.
  - intros k' Hk'. rewrite lookup_insert_ne by (intros ->; done). apply Hm. by right.
Qed.

Lemma argument_read a : parse_argument (argument_table a) = a.
Proof. by destruct a. Qed.

Lemma arguments_read l : arguments_ok l -> parse_arguments (Some ((fun a => TTable (argument_table a)) <$> l)) = l.
Proof. apply (items_read _ _ _ (fun a => arg_name a <> [])); [intros a _; apply argument_read|done]. Qed.

Lemma driver_read d : driver_ok d -> parse_driver (driver_table d) = d.
Proof.
  destruct d. intros [_ H]. unfold parse_driver. change (find_array _ _) with
    (Some ((fun a => TTable (argument_table a)) <$> driver_arguments0)). by rewrite arguments_read.
Qed.

Lemma strings_at t key l : find t key = Some (TStrings l) -> table_string_array t key = l.
Proof. intros H. unfold table_string_array, find_array. rewrite H. apply strings_read. Qed.

Lemma extension_read e : parse_extension (extension_table e) = e.
Proof. destruct e. unfold parse_extension. by erewrite !strings_at by reflexivity. Qed.

Lemma plugin_read p : parse_plugin (plugin_table p) = p.
Proof. destruct p. unfold parse_plugin. by erewrite !strings_at by reflexivity. Qed.

Lemma command_read c : command_ok c -> parse_command (command_table c) = c.
Proof.
  destruct c. intros [_ H]. unfold parse_command. change (find_array _ _) with
    (Some ((fun a => TTable (argument_table a)) <$> command_arguments0)). by rewrite arguments_read.
Qed.

Lemma sandbox_read s : sandbox_ok s -> parse_sandbox (sandbox_table s) = s.
Proof.
  destruct s as [component wasi memory timeout filesystem network]. intros [Hm Ht]. simpl in Hm, Ht.
  transitivity {| component := component; wasi := wasi; max_memory_mb := to_size <$> (to_int64 <$> memory);
    execution_timeout_ms := to_uint32 <$> timeout; filesystem := filesystem; network := network |}.
  - by destruct component, wasi, memory, timeout, filesystem, network.
  - f_equal; [destruct memory|destruct timeout]; try done; simpl; f_equal; [by apply to_size_int64|by apply to_uint32_id].
Qed.

Lemma plugin_config_read m :
  map_Forall (fun _ => sandbox_ok) m ->
  parse_map (fun v => parse_sandbox <$> as_table v) ((fun '(k, s) => (k, TTable (sandbox_table s))) <$> map_to_list m) = m.
Proof. intros H. apply (map_read _ (fun s => TTable (sandbox_table s))). intros k s Hs. simpl. f_equal. apply sandbox_read, (H k s Hs). Qed.

Lemma variables_read m : parse_map as_string ((fun '(k, v) => (k, TString v)) <$> map_to_list m) = m.
Proof. by apply (map_read as_string TString). Qed.

Lemma endpoint_read root c d :
  find_table root (lit "endpoint_extraction") = Some (endpoint_table c) -> endpoint_ok c -> parse_endpoint_extraction root d = c.
Proof.
  intros H (H1 & H2 & H3). unfold parse_endpoint_extraction. rewrite H. erewrite !strings_at by reflexivity.
  destruct c. simpl in H1, H2, H3. f_equal; by apply to_uint32_id.
Qed.

Lemma unless_empty_id values field : values <> [] -> unless_empty values field = values.
Proof. by destruct values. Qed.

Lemma security_read root c d :
  find_table root (lit "security") = Some (security_table c) -> allowed_schemes c <> [] -> parse_security root d = c.
Proof.
  intros H H1. unfold parse_security. rewrite H. erewrite !strings_at by reflexivity. rewrite unless_empty_id by exact H1. by destruct c.
Qed.

Lemma assistant_read root c d :
  find_table root (lit "assistant_browser") = Some (assistant_table c) -> assistant_ok c -> parse_assistant_browser root d = c.
Proof.
  intros H (H1 & H2). unfold parse_assistant_browser. rewrite H. destruct (find_table root (lit "assistant-browser")), c;
    simpl in H1, H2; unfold union, option_union, union_with; simpl; f_equal; by apply to_uint32_id.
Qed.

Lemma engine_read root c d : find_table root (lit "engine") = Some (engine_table c) -> engine_ok c -> parse_engine root d = c.
Proof.
  intros H (H1 & H2). unfold parse_engine. rewrite H. destruct c. simpl in H1, H2. f_equal; by apply to_int_id.
Qed.

Lemma lua_read root c d : find_table root (lit "lua") = Some (lua_table c) -> lua_ok c -> parse_lua root d = c.
Proof.
  intros H (H1 & H2 & H3). unfold parse_lua. rewrite H. erewrite !strings_at by reflexivity. rewrite unless_empty_id by exact H1.
  destruct c. simpl in H1, H2, H3. f_equal; [by apply to_size_int64|by apply to_uint32_id].
Qed.

Lemma oauth_read root c d : find_table root (lit "oauth") = Some (oauth_table c) -> parse_oauth root d = c.
Proof. intros H. unfold parse_oauth. rewrite H. by destruct c. Qed.

Lemma items_at {A} root key parse (write : A -> table) (name : A -> bytes) (P : A -> Prop) l :
  find root key = Some (tables write l) -> (forall a, P a -> parse (write a) = a) -> (forall a, P a -> name a <> []) ->
  Forall P l -> parse_items parse name (default [] (find_array root key)) = l.
Proof. intros H Hr Hn Hl. unfold find_array. rewrite H. by apply (items_read _ _ _ P). Qed.

Lemma config_read c : config_ok c -> parse_root (config_table c) = c.
Proof.
  intros [Hd He Hp Hc Hpc Hx Hs Ha Hg Hl]. unfold parse_root.
  assert (parse_drivers (config_table c) = drivers c) as ->
    by (eapply items_at; [done|apply driver_read|by intros ? []|done]).
  assert (parse_extensions (config_table c) = extensions c) as ->
    by (eapply items_at; [done| | |exact He]; [intros a _; apply extension_read|done]).
  assert (parse_plugins (config_table c) = plugins c) as ->
    by (eapply items_at; [done| | |exact Hp]; [intros a _; apply plugin_read|done]).
  assert (parse_commands (config_table c) = commands c) as ->
    by (eapply items_at; [done|apply command_read|by intros ? []|done]).
  assert (parse_plugin_config (config_table c) = plugin_config c) as -> by by apply plugin_config_read.
  assert (parse_variables (config_table c) = variables c) as -> by apply variables_read.
  rewrite (endpoint_read _ (endpoint_extraction c)), (security_read _ (security c)), (assistant_read _ (assistant_browser c)),
    (engine_read _ (engine c)), (lua_read _ (lua c)), (oauth_read _ (oauth c)) by done.
  by destruct c as [[] ? ? ? [] ? ? ? ? ? ? ? ? [] ? ?].
Qed.

(** ** Unknown keys

    What is left of a document when the keys that nothing documents are removed, at every level. *)

Abbreviation shape := (toml -> toml).

Definition any : shape := fun v => v.

Fixpoint shape_of (known : list (string * shape)) (key : bytes) : option shape :=
  match known with
  | [] => None
  | (k, p) :: known' => if lit k =s key then Some p else shape_of known' key
  end.

Definition prune (known : list (string * shape)) (t : table) : table :=
  omap (fun '(k, v) => p ← shape_of known k; Some (k, p v)) t.

(** A table with these keys; an array of such values; a table of such values under any key. *)
Definition keys (known : list (string * shape)) : shape :=
  fun v => match v with TTable t => TTable (prune known t) | _ => v end.
Definition each (p : shape) : shape := fun v => match v with TArray l => TArray (p <$> l) | _ => v end.
Definition each_key (p : shape) : shape :=
  fun v => match v with TTable t => TTable ((fun '(k, v) => (k, p v)) <$> t) | _ => v end.

Definition values (names : list string) : list (string * shape) := (fun n => (n, any)) <$> names.

Definition argument_keys := values ["name"; "type"; "required"; "secret"; "default"].
Definition driver_keys := values ["name"; "description"; "script"; "entrypoint"; "enabled"] ++ [("arguments", each (keys argument_keys))].
Definition extension_keys := values ["name"; "description"; "type"; "module"; "enabled"; "autoload"; "requires"; "events"].
Definition plugin_keys := values ["name"; "description"; "type"; "path"; "enabled"; "autoload"; "capabilities"; "lua_modules"].
Definition command_keys :=
  values ["name"; "description"; "handler"; "driver"; "output"] ++ [("arguments", each (keys argument_keys))].
Definition sandbox_keys := values ["component"; "wasi"; "max_memory_mb"; "execution_timeout_ms"; "filesystem"; "network"].
Definition endpoint_keys := values ["enabled"; "plugin"; "base_urls"; "follow_links"; "inspect_forms"; "inspect_inline_scripts";
  "inspect_external_scripts"; "observe_network"; "inspect_json_config"; "max_depth"; "max_pages"; "max_requests";
  "same_origin_only"; "allowed_hosts"; "blocked_path_patterns"; "infer_parameters"; "infer_request_bodies";
  "infer_response_schemas"; "infer_status_codes"; "minimum_confidence"; "openapi_version"; "output"; "include_examples";
  "include_provenance"; "redact_cookies"; "redact_authorization_headers"; "redact_query_parameters"].
Definition security_keys := values ["allowed_schemes"; "allow_file_urls"; "allow_private_networks"; "allow_loopback";
  "allow_native_lua"; "allow_dynamic_plugin_loading"].
Definition sessions_keys := values ["default_profile"; "reuse_cookies"; "persist_session"; "isolate_storage"; "cookies_json"].
Definition assistant_keys := values ["enabled"; "command"; "method"; "endpoint"; "debug_port"; "wait_timeout_ms"].
Definition oauth_keys := values ["client_id"; "scopes"; "redirect_uri"; "authorization_endpoint"; "token_endpoint"].
Definition engine_keys := values ["user_agent"; "javascript"; "follow_redirects"; "max_redirects"; "timeout_ms";
  "unsupported_api_behavior"; "observe_network"].
Definition lua_keys := values ["version"; "libraries"; "preload"; "allow_extensions"; "max_memory_mb"; "execution_timeout_ms"].

Definition known_keys : list (string * shape) :=
  [("cloudflare", keys (values ["account_id"; "api_token"])); ("oauth", keys oauth_keys);
   ("project", keys (values ["name"; "version"; "description"; "root"])); ("engine", keys engine_keys); ("lua", keys lua_keys);
   ("network", keys (values ["proxy"])); ("drivers", each (keys driver_keys)); ("extensions", each (keys extension_keys));
   ("plugins", each (keys plugin_keys)); ("plugin_config", each_key (keys sandbox_keys)); ("commands", each (keys command_keys));
   ("endpoint_extraction", keys endpoint_keys); ("security", keys security_keys); ("sessions", keys sessions_keys);
   ("assistant_browser", keys assistant_keys); ("assistant-browser", keys assistant_keys); ("variables", any)]%string.

Lemma find_prune known t key : find (prune known t) key = (p ← shape_of known key; p <$> find t key).
Proof.
  induction t as [|[k v] t IH]; simpl; [by destruct (shape_of known key)|].
  destruct (decide (k = key)) as [->|Hk].
  - rewrite eqb_bytes_refl. destruct (shape_of known key); [simpl; by rewrite eqb_bytes_refl|exact IH].
  - apply eqb_bytes_false in Hk as Hk'. rewrite Hk'. destruct (shape_of known k); [|exact IH]. simpl. by rewrite Hk'.
Qed.

Lemma find_value known t key : shape_of known key = Some any -> find (prune known t) key = find t key.
Proof. intros H. rewrite find_prune, H. simpl. by destruct (find t key). Qed.

Lemma table_known root known sub key :
  shape_of known key = Some (keys sub) -> find_table (prune known root) key = prune sub <$> find_table root key.
Proof. intros H. unfold find_table. rewrite find_prune, H. simpl. by destruct (find root key) as [[]|]. Qed.

Lemma array_known root known p key :
  shape_of known key = Some (each p) -> find_array (prune known root) key = fmap (M:=option) (fmap (M:=list) p) (find_array root key).
Proof. intros H. unfold find_array. rewrite find_prune, H. simpl. by destruct (find root key) as [[]|]. Qed.

Lemma items_known {A} root known sub key (parse : table -> A) name :
  shape_of known key = Some (each (keys sub)) -> (forall t, parse (prune sub t) = parse t) ->
  parse_items parse name (default [] (find_array (prune known root) key)) = parse_items parse name (default [] (find_array root key)).
Proof.
  intros H Hp. erewrite array_known by exact H. destruct (find_array root key) as [l|]; [|done]. simpl. unfold parse_items.
  induction l as [|item l IH]; [done|]. destruct item; try exact IH. simpl. rewrite Hp.
  destruct (nonempty _); [f_equal|]; exact IH.
Qed.

Lemma map_known {A} (read : toml -> option A) p t :
  (forall v, read (p v) = read v) -> parse_map read ((fun '(k, v) => (k, p v)) <$> t) = parse_map read t.
Proof.
  intros H. unfold parse_map. generalize (∅ : gmap bytes A). induction t as [|[k v] t IH]; intros m; [done|].
  simpl. rewrite H. apply IH.
Qed.

(** A reader of a section does not see that its table was pruned. *)
Ltac pruned_values :=
  unfold table_string, table_bool, table_int, table_float, table_string_array, find_array;
  repeat (erewrite find_value by reflexivity); reflexivity.

Ltac pruned_section :=
  intros; erewrite table_known by reflexivity; destruct (find_table _ _) as [t|]; [|done]; simpl fmap; cbv iota beta; pruned_values.

Lemma argument_pruned t : parse_argument (prune argument_keys t) = parse_argument t.
Proof. unfold parse_argument. pruned_values. Qed.

Lemma arguments_pruned known t :
  shape_of known (lit "arguments") = Some (each (keys argument_keys)) ->
  parse_arguments (find_array (prune known t) (lit "arguments")) = parse_arguments (find_array t (lit "arguments")).
Proof. intros H. by apply (items_known _ _ _ _ _ _ H), argument_pruned. Qed.

Lemma driver_pruned t : parse_driver (prune driver_keys t) = parse_driver t.
Proof. unfold parse_driver. rewrite arguments_pruned by reflexivity. pruned_values. Qed.

Lemma extension_pruned t : parse_extension (prune extension_keys t) = parse_extension t.
Proof. unfold parse_extension. pruned_values. Qed.

Lemma plugin_pruned t : parse_plugin (prune plugin_keys t) = parse_plugin t.
Proof. unfold parse_plugin. pruned_values. Qed.

Lemma command_pruned t : parse_command (prune command_keys t) = parse_command t.
Proof. unfold parse_command. rewrite arguments_pruned by reflexivity. pruned_values. Qed.

Lemma sandbox_pruned t : parse_sandbox (prune sandbox_keys t) = parse_sandbox t.
Proof. unfold parse_sandbox. pruned_values. Qed.

Lemma endpoint_pruned root c : parse_endpoint_extraction (prune known_keys root) c = parse_endpoint_extraction root c.
Proof. unfold parse_endpoint_extraction. pruned_section. Qed.

Lemma sections_pruned root :
  (forall c, parse_security (prune known_keys root) c = parse_security root c) /\
  (forall c, parse_sessions (prune known_keys root) c = parse_sessions root c) /\
  (forall c, parse_oauth (prune known_keys root) c = parse_oauth root c) /\
  (forall c, parse_cloudflare (prune known_keys root) c = parse_cloudflare root c) /\
  (forall c, parse_project (prune known_keys root) c = parse_project root c) /\
  (forall c, parse_engine (prune known_keys root) c = parse_engine root c) /\
  (forall c, parse_lua (prune known_keys root) c = parse_lua root c) /\
  (forall c, parse_network (prune known_keys root) c = parse_network root c).
Proof.
  unfold parse_security, parse_sessions, parse_oauth, parse_cloudflare, parse_project, parse_engine, parse_lua, parse_network.
  split_and!; pruned_section.
Qed.

Lemma assistant_pruned root c : parse_assistant_browser (prune known_keys root) c = parse_assistant_browser root c.
Proof.
  unfold parse_assistant_browser. do 2 (erewrite table_known by reflexivity).
  destruct (find_table root (lit "assistant_browser")) as [t|], (find_table root (lit "assistant-browser")) as [t'|];
    simpl fmap; unfold union, option_union, union_with; simpl; [pruned_values..|done].
Qed.

Lemma arrays_pruned root :
  parse_drivers (prune known_keys root) = parse_drivers root /\ parse_extensions (prune known_keys root) = parse_extensions root /\
  parse_plugins (prune known_keys root) = parse_plugins root /\ parse_commands (prune known_keys root) = parse_commands root.
Proof.
  unfold parse_drivers, parse_extensions, parse_plugins, parse_commands.
  split_and!; (eapply items_known; [reflexivity|]);
    auto using driver_pruned, extension_pruned, plugin_pruned, command_pruned.
Qed.

Lemma maps_pruned root :
  parse_plugin_config (prune known_keys root) = parse_plugin_config root /\
  parse_variables (prune known_keys root) = parse_variables root.
Proof.
  unfold parse_plugin_config, parse_variables, find_table. split.
  - rewrite find_prune. simpl. destruct (find root (lit "plugin_config")) as [[]|]; try done.
    apply map_known. intros [| | | | | |t]; try done. simpl. f_equal. apply sandbox_pruned.
  - by erewrite find_value by reflexivity.
Qed.

Lemma parse_root_pruned root : parse_root (prune known_keys root) = parse_root root.
Proof.
  unfold parse_root. destruct (sections_pruned root) as (-> & -> & -> & -> & -> & -> & -> & ->).
  destruct (arrays_pruned root) as (-> & -> & -> & ->), (maps_pruned root) as [-> ->].
  by rewrite endpoint_pruned, assistant_pruned.
Qed.

(** ** Properties *)

(** Exactly the well formed configurations can be written in a document and are read back
    from it: what a document gives always has names that are not empty, numbers of their types
    and at least one scheme and one library, whatever the types and the values in the document
    are, and the document that says everything about such a configuration gives it back. *)
Theorem config_roundtrip (c : ProjectConfig) :
  (exists root, parse_root root = c) <-> config_ok c /\ parse_root (config_table c) = c.
Proof.
  split; [intros [root <-]|intros [_ H]; by eexists].
  pose proof (parse_root_ok root). auto using config_read.
Qed.

(** Keys that nothing documents are ignored at every level, in a build with the TOML
    library: a file has the same configuration, or the same error, as a file whose document
    has lost these keys. *)
Theorem unknown_keys_ignored (parse : bytes -> option table) (open_file : bytes -> option bytes) (path path' : bytes) contents contents' :
  open_file path = Some contents -> open_file path' = Some contents' ->
  parse contents' = prune known_keys <$> parse contents ->
  load_project_config true parse open_file path = load_project_config true parse open_file path'.
Proof.
  unfold load_project_config, parse_project_config. intros -> -> ->. destruct (parse contents) as [root|]; [|done].
  simpl. by rewrite parse_root_pruned.
Qed.

(** ** Evaluations *)

(** A section of the engine with a key that nothing documents. *)
Definition demo_root : table :=
  [entry "engine" (TTable [entry "max_redirects" (TInteger 3); entry "colour" (TString (lit "red"))]);
   entry "theme" (TTable []); entry "variables" (TTable [entry "home" (TString (lit "/srv"))]);
   entry "drivers" (TArray [TTable [entry "name" (TString (lit "crawl")); entry "speed" (TInteger 7)]; TTable []; TInteger 1])].

(** The two files of the witness. *)
Definition demo_open (path : bytes) : option bytes := if nonempty path then Some path else None.
Definition demo_parse (contents : bytes) : option table :=
  if contents =s lit "pruned" then Some (prune known_keys demo_root) else Some demo_root.

Lemma unknown_keys_ignored_witness :
  prune known_keys demo_root <> demo_root /\
  load_project_config true demo_parse demo_open (lit "a") = load_project_config true demo_parse demo_open (lit "pruned").
Proof.
  split; [by vm_compute|].
  apply (unknown_keys_ignored demo_parse demo_open (lit "a") (lit "pruned") (lit "a") (lit "pruned")); reflexivity.
Defined.

Example demo_redirects : max_redirects (engine (parse_root demo_root)) = 3%Z /\ length (drivers (parse_root demo_root)) = 1.
Proof. split; reflexivity. Qed.

(** A depth of -1 is one of 4294967295. *)
Example negative_depth :
  max_depth (parse_endpoint_extraction [entry "endpoint_extraction" (TTable [entry "max_depth" (TInteger (-1))])]
    default_endpoint_extraction) = 4294967295%Z.
Proof. reflexivity. Qed.

(** A confidence that is written as an integer is passed over for the default. *)
Example integer_confidence :
  minimum_confidence (parse_endpoint_extraction [entry "endpoint_extraction" (TTable [entry "minimum_confidence" (TInteger 1)])]
    default_endpoint_extraction) = one_half.
Proof. reflexivity. Qed.

(** An empty list of schemes is the default list, not the absence of schemes. *)
Example no_schemes :
  parse_security [entry "security" (TTable [entry "allowed_schemes" (TArray [])])] default_security = default_security.
Proof. reflexivity. Qed.

(** A file that cannot be opened is an [IoError]. *)
Example missing_file : load_project_config true demo_parse demo_open [] = Throw IoError.
Proof. reflexivity. Qed.
