(* ===== verification/Cdp.v ===== *)
(** * Cdp: [src/core/protocol_json.hpp] and [src/core/cdp.cpp]

    The JSON helpers of the remote protocols, and the client of the Chrome DevTools Protocol:
    one command at a time over a message transport, which the host owns and which is a
    parameter, as operations on the state [W] of the rest of the program.  The transport's
    exceptions are those of the library. *)
From S2P Require Import Prelude Json Rpc.

Section Protocol.
Context {F : Binary64}.

(** [catch (...)]: every failure is this error. *)
Definition or_throw {A} (m : result A) (e : ErrorCode) : result A := match m with Ret a => Ret a | Throw _ => Throw e end.

Definition parse (text : bytes) : result Json := or_throw (parse_json text) ParseError.
Definition encode (value : Json) : result bytes := or_throw (encode_json value) ResourceLimit.

Definition string_field (value : Json) (key : bytes) : result bytes :=
  match json_find key value with Some (JString text) => Ret text | _ => Throw ParseError end.

Definition put (value : Json) (key text : bytes) : result Json :=
  or_throw (v ← string_value text; Ret (json_put key v value)) InvalidArgument.

Definition is_object (value : Json) : bool := match value with JObject _ => true | _ => false end.

Section Client.
Context {W : Type} (transport_send : bytes -> op W unit) (transport_receive : op W bytes).

(** [connected] is whether the client has its transport. *)
Record CdpClient := { connected : bool; next_id_ : N; events_ : list bytes; event_bytes_ : N; active_ : bool }.

Definition new_client : CdpClient := {| connected := true; next_id_ := 0; events_ := []; event_bytes_ := 0; active_ := false |}.

Definition with_active (b : bool) (c : CdpClient) : CdpClient :=
  {| connected := connected c; next_id_ := next_id_ c; events_ := events_ c; event_bytes_ := event_bytes_ c; active_ := b |}.
Definition with_id (n : N) (c : CdpClient) : CdpClient :=
  {| connected := connected c; next_id_ := n; events_ := events_ c; event_bytes_ := event_bytes_ c; active_ := active_ c |}.
Definition with_events (l : list bytes) (n : N) (c : CdpClient) : CdpClient :=
  {| connected := connected c; next_id_ := next_id_ c; events_ := l; event_bytes_ := n; active_ := active_ c |}.
Definition disconnect (c : CdpClient) : CdpClient :=
  {| connected := false; next_id_ := next_id_ c; events_ := events_ c; event_bytes_ := event_bytes_ c; active_ := active_ c |}.

Abbreviation state := (W * CdpClient)%type.

Definition on_transport {A} (m : op W A) : op state A := fun '(w, c) => let '(r, w') := m w in (r, (w', c)).
Definition get_client : op state CdpClient := fun '(w, c) => (Ret c, (w, c)).
Definition set_client (f : CdpClient -> CdpClient) : op state unit := fun '(w, c) => (Ret tt, (w, f c)).

Definition method_char (c : ascii) : bool := is_alnum c || (c =c ".") || (c =c "_").

Definition bad_command (method params session_id : bytes) : bool :=
  negb (nonempty method) || (256 <? N.of_nat (length method))%N || none (fun c => c =c ".") method ||
  negb (forallb method_char method) || (1024 * 1024 <? N.of_nat (length params))%N || (256 <? N.of_nat (length session_id))%N.

Definition envelope (id : N) (method session_id : bytes) (arguments : Json) : result Json :=
  request ← put (json_put (lit "id") (number_value (of_integer id)) (JObject [])) (lit "method") method;
  let request := json_put (lit "params") arguments request in
  if nonempty session_id then put request (lit "sessionId") session_id else Ret request.

(** Whether a message with an identifier answers the command. *)
Definition correlated (id : N) (session_id : bytes) (reply_id : Json) (sid : option Json) : bool :=
  match reply_id with JNumber _ text => text =s print_N id | _ => false end &&
  match session_id, sid with
  | [], None => true
  | [], Some _ => false
  | _, Some (JString text) => text =s session_id
  | _, _ => false
  end.

Definition reply_result (id : N) (session_id : bytes) (reply_id reply : Json) : result bytes :=
  _ ← throw_if (negb (correlated id session_id reply_id (json_find (lit "sessionId") reply))) ParseError;
  _ ← throw_if (match json_find (lit "error") reply with Some _ => true | None => false end) Unsupported;
  match json_find (lit "result") reply with
  | Some r => _ ← throw_if (negb (is_object r)) ParseError; encode r
  | None => Throw ParseError
  end.

(** A message without identifier: the notification is kept, within the bounds of the queue. *)
Definition keep_event (wire : bytes) (reply : Json) : op state unit :=
  _ ← lift_op (string_field reply (lit "method"));
  c ← get_client;
  _ ← lift_op (throw_if ((1024 <=? N.of_nat (length (events_ c)))%N ||
        (size_sub (4 * 1024 * 1024) (event_bytes_ c) <? N.of_nat (length wire))%N) ResourceLimit);
  set_client (fun c => with_events (events_ c ++ [wire]) (event_bytes_ c + N.of_nat (length wire))%N c).

Fixpoint receive_loop (n : nat) (id : N) (session_id : bytes) : op state bytes :=
  match n with
  | O => throw_op ResourceLimit
  | S n' =>
      wire ← on_transport transport_receive;
      _ ← lift_op (throw_if (1024 * 1024 <? N.of_nat (length wire))%N ResourceLimit);
      reply ← lift_op (parse wire);
      _ ← lift_op (throw_if (negb (is_object reply)) ParseError);
      match json_find (lit "id") reply with
      | Some reply_id => lift_op (reply_result id session_id reply_id reply)
      | None => _ ← keep_event wire reply; receive_loop n' id session_id
      end
  end.

(** The [try] block: what is thrown in it closes the connection. *)
Definition exchange (id : N) (session_id : bytes) (request : Json) : op state bytes := fun s =>
  match (text ← lift_op (encode request); _ ← on_transport (transport_send text); receive_loop (N.to_nat 1024) id session_id) s with
  | (Throw e, (w, c)) => (Throw e, (w, disconnect c))
  | answer => answer
  end.

Definition call_guarded (method params session_id : bytes) : op state bytes :=
  c ← get_client;
  _ ← lift_op (throw_if (negb (connected c)) InvalidArgument);
  _ ← lift_op (throw_if (bad_command method params session_id) InvalidArgument);
  arguments ← lift_op (parse params);
  _ ← lift_op (throw_if (negb (is_object arguments)) InvalidArgument);
  let id := ((next_id_ c + 1) mod 2 ^ 64)%N in
  _ ← set_client (with_id id);
  _ ← lift_op (throw_if (max_safe_integer <? id)%N ResourceLimit);
  request ← lift_op (envelope id method session_id arguments);
  exchange id session_id request.

(** [CdpClient::call], under its guard against reentry. *)
Definition call (method params session_id : bytes) : op state bytes := fun '(w, c) =>
  if active_ c then (Throw InvalidArgument, (w, c))
  else let '(r, (w', c')) := call_guarded method params session_id (w, with_active true c) in (r, (w', with_active false c')).

Definition take_events (c : CdpClient) : list bytes * CdpClient := (events_ c, with_events [] 0 c).

(** ** What a command does *)

(** The messages that the transport gives, one after the other. *)
Inductive receives : W -> list bytes -> W -> Prop :=
  | receives_none w : receives w [] w
  | receives_one w wire w1 l w2 : transport_receive w = (Ret wire, w1) -> receives w1 l w2 -> receives w (wire :: l) w2.

Definition notification (wire : bytes) : Prop :=
  exists v name, parse wire = Ret v /\ json_find (lit "id") v = None /\ json_find (lit "method") v = Some (JString name).

(** The message is the answer to the command with this identifier, with the result [text]. *)
Definition answers (id : N) (session_id wire text : bytes) : Prop :=
  exists v reply_id r, parse wire = Ret v /\ json_find (lit "id") v = Some reply_id /\
    correlated id session_id reply_id (json_find (lit "sessionId") v) = true /\ json_find (lit "error") v = None /\
    json_find (lit "result") v = Some r /\ is_object r = true /\ encode r = Ret text.

Definition wire_size (wire : bytes) : N := N.of_nat (length wire).

Definition queue (l : list bytes) (c : CdpClient) : CdpClient :=
  with_events (events_ c ++ l) (event_bytes_ c + sumN wire_size l)%N c.

(** The bounds of the queue of notifications. *)
Record client_ok (c : CdpClient) : Prop := {
  ok_count : (N.of_nat (length (events_ c)) <= 1024)%N;
  ok_bytes : event_bytes_ c = sumN wire_size (events_ c);
  ok_size : (event_bytes_ c <= 4 * 1024 * 1024)%N }.

Lemma queue_nil c : queue [] c = c.
Proof. destruct c. unfold queue, with_events. simpl. by rewrite app_nil_r, N.add_0_r. Qed.

Lemma queue_cons wire l c : queue l (queue [wire] c) = queue (wire :: l) c.
Proof. unfold queue, with_events. simpl. by rewrite <- app_assoc, N.add_0_r, N.add_assoc. Qed.

Lemma string_field_Ret v key t : string_field v key = Ret t <-> json_find key v = Some (JString t).
Proof. unfold string_field. destruct (json_find key v) as [[]|]; naive_solver. Qed.

Lemma lift_bind {S A B} (m : result A) (k : A -> op S B) s :
  (x ← lift_op m; k x) s = match m with Ret a => k a s | Throw e => (Throw e, s) end.
Proof. by destruct m. Qed.

Lemma keep_event_spec wire v w c :
  client_ok c -> parse wire = Ret v -> json_find (lit "id") v = None ->
  match keep_event wire v (w, c) with
  | (Ret _, s) => s = (w, queue [wire] c) /\ client_ok (queue [wire] c) /\ notification wire
  | (Throw _, s) => s = (w, c)
  end.
Proof.
  intros [H1 H2 H3] Hp Hi. unfold keep_event. rewrite lift_bind. destruct (string_field v (lit "method")) as [t|e] eqn:Em; [|done].
  apply string_field_Ret in Em. unfold lift_op at 1. bind_step. unfold get_client at 1. bind_step.
  destruct (_ || _)%bool eqn:E; [done|]. simpl throw_if. cbv iota beta. unfold set_client. apply orb_false_iff in E as [E1 E2].
  apply N.leb_gt in E1. apply N.ltb_ge in E2. rewrite size_sub_exact in E2 by exact H3.
  unfold queue. simpl. rewrite N.add_0_r. split; [done|]. split; [|by exists v, t].
  split; simpl; rewrite ?length_app, ?sumN_app; simpl; unfold wire_size in *; lia.
Qed.

Lemma reply_result_spec id session_id wire v reply_id text :
  parse wire = Ret v -> json_find (lit "id") v = Some reply_id ->
  reply_result id session_id reply_id v = Ret text -> answers id session_id wire text.
Proof.
  unfold reply_result. intros Hp Hi H. inv_ret. destruct (json_find (lit "error") v) eqn:Ee; [done|].
  destruct (json_find (lit "result") v) as [r|] eqn:Er; [|done]. inv_ret.
  exists v, reply_id, r. split_and!; try done; by apply negb_false_iff.
Qed.

Lemma receive_loop_spec n id session_id : forall w c, client_ok c ->
  match receive_loop n id session_id (w, c) with
  | (Ret text, (w', c')) => exists l last, receives w (l ++ [last]) w' /\ Forall notification l /\
      answers id session_id last text /\ c' = queue l c /\ client_ok c' /\ length l < n
  | (Throw _, (w', c')) => exists l, c' = queue l c /\ client_ok c'
  end.
Proof.
  induction n as [|n IH]; intros w c Hc; simpl; [exists []; by rewrite queue_nil|].
  bind_step. unfold on_transport. destruct (transport_receive w) as [[wire|e] w1] eqn:Er; [|exists []; by rewrite queue_nil].
  rewrite lift_bind. destruct (1024 * 1024 <? _)%N; [exists []; by rewrite queue_nil|]. simpl throw_if. cbv iota beta.
  rewrite lift_bind. destruct (parse wire) as [v|e] eqn:Ep; [|exists []; by rewrite queue_nil].
  rewrite lift_bind. destruct (is_object v) eqn:Eo; [|exists []; by rewrite queue_nil]. simpl throw_if. cbv iota beta.
  destruct (json_find (lit "id") v) as [reply_id|] eqn:Ei.
  - unfold lift_op. destruct (reply_result id session_id reply_id v) as [text|e] eqn:Ea; [|exists []; by rewrite queue_nil].
    exists [], wire. rewrite queue_nil. split_and!; try done; [|by eapply reply_result_spec|simpl; lia].
    by eapply receives_one, receives_none.
  - bind_step. pose proof (keep_event_spec wire v w1 c Hc Ep Ei) as Hk.
    destruct (keep_event wire v (w1, c)) as [[[]|e] s]; [|subst s; exists []; by rewrite queue_nil].
    destruct Hk as (-> & Hq & Hn). specialize (IH w1 (queue [wire] c) Hq).
    destruct (receive_loop n id session_id (w1, queue [wire] c)) as [[text|e] [w' c']].
    + destruct IH as (l & last & H1 & H2 & H3 & H4 & H5 & H6). exists (wire :: l), last. rewrite H4, queue_cons in *.
      split_and!; try done; [by eapply receives_one|by constructor|simpl; lia].
    + destruct IH as (l & -> & Hl). exists (wire :: l). split; [apply queue_cons|done].
Qed.

Lemma exchange_spec id session_id request w c : client_ok c ->
  match exchange id session_id request (w, c) with
  | (Ret text, (w', c')) => exists wire w1 l last, encode request = Ret wire /\ transport_send wire w = (Ret tt, w1) /\
      receives w1 (l ++ [last]) w' /\ Forall notification l /\ answers id session_id last text /\
      length l < 1024 /\ c' = queue l c /\ client_ok c'
  | (Throw _, (w', c')) => exists l, c' = disconnect (queue l c) /\ client_ok c'
  end.
Proof.
  intros Hc. assert (client_ok (disconnect c)) as Hd by by destruct Hc.
  assert (exists l, disconnect c = disconnect (queue l c) /\ client_ok (disconnect c)) as Hno
    by (exists []; by rewrite queue_nil).
  unfold exchange. rewrite lift_bind. destruct (encode request) as [wire|e]; [|exact Hno].
  bind_step. unfold on_transport at 1. destruct (transport_send wire w) as [[[]|e] w1] eqn:Es; [|exact Hno].
  pose proof (receive_loop_spec (N.to_nat 1024) id session_id w1 c Hc) as H.
  destruct (receive_loop (N.to_nat 1024) id session_id (w1, c)) as [[text|e] [w' c']].
  - destruct H as (l & last & H1 & H2 & H3 & H4 & H5 & H6). exists wire, w1, l, last. split_and!; try done.
  - destruct H as (l & -> & Hl). exists l. split; [done|]. by destruct Hl.
Qed.

(** The command that is sent. *)
Definition request_of (id : N) (method params session_id : bytes) (wire : bytes) : Prop :=
  exists arguments request, parse params = Ret arguments /\ is_object arguments = true /\
    envelope id method session_id arguments = Ret request /\ encode request = Ret wire.

(** What a call does that returns [text], or throws. *)
Definition call_returns (method params session_id text : bytes) (w : W) (c : CdpClient) (w' : W) (c' : CdpClient) : Prop :=
  let id := ((next_id_ c + 1) mod 2 ^ 64)%N in
  connected c = true /\ (id <= max_safe_integer)%N /\
  exists wire w1 l last, request_of id method params session_id wire /\ transport_send wire w = (Ret tt, w1) /\
    receives w1 (l ++ [last]) w' /\ Forall notification l /\ answers id session_id last text /\
    length l < 1024 /\ c' = queue l (with_id id c).

Definition call_throws (w : W) (c : CdpClient) (w' : W) (c' : CdpClient) : Prop :=
  connected c' = false \/ w' = w /\ (c' = c \/ c' = with_id ((next_id_ c + 1) mod 2 ^ 64)%N c).

Lemma call_guarded_spec method params session_id w c : client_ok c ->
  match call_guarded method params session_id (w, c) with
  | (Ret text, (w', c')) => client_ok c' /\ call_returns method params session_id text w c w' c'
  | (Throw _, (w', c')) => client_ok c' /\ call_throws w c w' c'
  end.
Proof.
  intros Hc. unfold call_guarded. bind_step. unfold get_client at 1. rewrite lift_bind.
  destruct (connected c) eqn:Econ; [|split; [done|by right; auto]]. simpl throw_if. cbv iota beta. rewrite lift_bind.
  destruct (bad_command method params session_id); [split; [done|by right; auto]|]. simpl throw_if. cbv iota beta. rewrite lift_bind.
  destruct (parse params) as [arguments|e] eqn:Ep; [|split; [done|by right; auto]]. rewrite lift_bind.
  destruct (is_object arguments) eqn:Eo; [|split; [done|by right; auto]]. simpl throw_if. cbv iota beta zeta.
  bind_step. unfold set_client at 1. set (id := ((next_id_ c + 1) mod 2 ^ 64)%N). rewrite lift_bind.
  assert (client_ok (with_id id c)) as Hid by by destruct Hc.
  destruct (max_safe_integer <? id)%N eqn:Em; [split; [done|by right; auto]|]. apply N.ltb_ge in Em.
  simpl throw_if. cbv iota beta. rewrite lift_bind.
  destruct (envelope id method session_id arguments) as [request|e] eqn:Ee; [|split; [done|by right; auto]].
  pose proof (exchange_spec id session_id request w _ Hid) as H.
  destruct (exchange id session_id request (w, with_id id c)) as [[text|e] [w' c']].
  - destruct H as (wire & w1 & l & last & H1 & H2 & H3 & H4 & H5 & H6 & -> & H8).
    split; [done|]. unfold call_returns. cbv zeta. fold id. split_and!; [done..|].
    exists wire, w1, l, last. split_and!; try done. by exists arguments, request.
  - destruct H as (l & -> & Hl). split; [done|]. by left.
Qed.

Lemma active_ok b c : client_ok (with_active b c) <-> client_ok c.
Proof. by split; intros []. Qed.

(** ** Histories *)

(** A client after any calls and any taking of its events. *)
Inductive cdp_history : list bytes -> W -> CdpClient -> Prop :=
  | history_new w : cdp_history [] w new_client
  | history_call taken w c method params session_id r w' c' :
      cdp_history taken w c -> call method params session_id (w, c) = (r, (w', c')) -> cdp_history taken w' c'
  | history_take taken w c l c' : cdp_history taken w c -> take_events c = (l, c') -> cdp_history (taken ++ l) w c'
  | history_other taken w c w' : cdp_history taken w c -> cdp_history taken w' c.

Lemma call_active method params session_id w c : active_ c = false ->
  call method params session_id (w, c) =
  let '(r, (w', c')) := call_guarded method params session_id (w, with_active true c) in (r, (w', with_active false c')).
Proof. intros H. unfold call. by rewrite H. Qed.

Lemma history_ok taken w c : cdp_history taken w c -> client_ok c /\ active_ c = false.
Proof.
  induction 1 as [w|taken w c m p sid r w' c' _ [IH Ha] H|taken w c l c' _ [_ Ha] H|taken w c w' _ IH].
  - done.
  - rewrite call_active in H by exact Ha. pose proof (call_guarded_spec m p sid w (with_active true c)) as Hg.
    rewrite active_ok in Hg. specialize (Hg IH).
    destruct (call_guarded m p sid (w, with_active true c)) as [[text|e] [w1 c1]]; destruct Hg as [Hg _];
      injection H as <- <- <-; by rewrite active_ok.
  - injection H as <- <-. done.
  - done.
Qed.

(** A call of the DevTools client that returns sent one command, with an identifier of its
    own and the method, the parameters and the session it was given, and then read messages
    until the answer to it: the text it returns is the result of the one message that has this
    identifier and this session and no error, and the notifications that came before are
    appended to the queue, in their order.  A call that throws has closed the connection, or
    has not touched it.  The queue never holds more than 1024 messages and 4 MiB. *)
Theorem cdp_call taken w c method params session_id : cdp_history taken w c ->
  match call method params session_id (w, c) with
  | (Ret text, (w', c')) => call_returns method params session_id text w c w' c'
  | (Throw _, (w', c')) => call_throws w c w' c'
  end /\ client_ok (call method params session_id (w, c)).2.2.
Proof.
  intros [Hc Ha]%history_ok. rewrite call_active by exact Ha.
  pose proof (call_guarded_spec method params session_id w (with_active true c)) as H.
  rewrite active_ok in H. specialize (H Hc). assert (with_active false (with_active true c) = c) as Ec by (destruct c; by simpl in *; subst).
  destruct (call_guarded method params session_id (w, with_active true c)) as [[text|e] [w' c']]; destruct H as [H1 H2].
  - split; [|by apply active_ok]. destruct H2 as (H2 & H3 & wire & w1 & l & last & H). split; [exact H2|]. split; [exact H3|].
    exists wire, w1, l, last. decompose [and] H. split_and!; try done. subst c'. clear -Ha. destruct c. simpl in Ha. by subst.
  - split; [|by apply active_ok]. destruct H2 as [H2|[-> [-> | ->]]]; [by left|right..]; (split; [done|]); rewrite ?Ec; auto.
    right. clear -Ha. destruct c. simpl in Ha. by subst.
Qed.

End Client.
End Protocol.

(** ** Evaluations *)

(** A transport with the messages that arrive and those that were sent. *)
Definition demo_send (text : bytes) : op (list bytes * list bytes) unit := fun '(arriving, sent) => (Ret tt, (arriving, sent ++ [text])).
Definition demo_receive : op (list bytes * list bytes) bytes := fun '(arriving, sent) =>
  match arriving with [] => (Throw NetworkError, (arriving, sent)) | text :: rest => (Ret text, (rest, sent)) end.

Definition demo_text (v : @Json decimal) : bytes := match encode v with Ret text => text | Throw _ => [] end.

Definition demo_event : bytes := demo_text (JObject [(lit "method", JString (lit "Page.loaded"))]).
Definition demo_answer (id : N) : bytes :=
  demo_text (JObject [(lit "id", number_value (of_integer id)); (lit "result", JObject [])]).
Definition demo_command (id : N) : bytes :=
  demo_text (JObject [(lit "id", number_value (of_integer id)); (lit "method", JString (lit "Page.reload")); (lit "params", JObject [])]).

Definition demo_call (arriving : list bytes) :=
  call (F := decimal) demo_send demo_receive (lit "Page.reload") (lit "{}") [] ((arriving, []), new_client).

Lemma cdp_call_witness :
  demo_call [demo_event; demo_answer 1] =
    (Ret (lit "{}"), (([], [demo_command 1]), {| connected := true; next_id_ := 1; events_ := [demo_event];
       event_bytes_ := wire_size demo_event; active_ := false |})) /\
  client_ok (demo_call [demo_event; demo_answer 1]).2.2.
Proof.
  split; [vm_compute; reflexivity|].
  destruct (cdp_call (F := decimal) demo_send demo_receive [] ([demo_event; demo_answer 1], []) new_client (lit "Page.reload")
    (lit "{}") [] (history_new _ _ _)) as [_ H]. exact H.
Defined.

(** The answer to another command closes the connection. *)
Example other_answer : (demo_call [demo_answer 2]).1 = Throw ParseError /\ connected (demo_call [demo_answer 2]).2.2 = false.
Proof. split; vm_compute; reflexivity. Qed.

(** An identifier is compared by its spelling: 1.0 is not the answer to the command 1. *)
Example other_spelling :
  (demo_call [demo_text (JObject [(lit "id", JNumber (of_integer 1) (lit "1.0")); (lit "result", JObject [])])]).1 = Throw ParseError.
Proof. vm_compute. reflexivity. Qed.
