(* ===== verification/Oauth.v ===== *)
(** * Oauth: [plugins/oauth-assist]

    The authorization-code flow with PKCE ([src/oauth.cpp]) and the record that caches a token
    ([src/cache.cpp]).  Parameters are the network client, as operations on the state [W] of the
    rest of the program, the two clocks, the random generator, the functions of the cryptographic
    library and the integer that a double equals; the file system around the cached record is
    left out, and the checks of what it says about the file are [file_trusted]. *)
From S2P Require Import Url.
From S2P Require Import Config.
From S2P Require Import Prelude Proxy Message Json Rpc Cdp.

(** ** Fields *)

Definition checked_text (text : bytes) : result unit :=
  throw_if (negb (nonempty text) || (16384 <? N.of_nat (length text))%N || negb (none is_control text)) InvalidArgument.

Definition escape_char (c : ascii) : bytes :=
  if unreserved c then [c]
  else ["%"%char; hex_upper (N.shiftr (code c) 4); hex_upper (N.land (code c) 15)].
Definition escape (text : bytes) : bytes := mjoin (escape_char <$> text).

Fixpoint decode_loop (text : bytes) : result bytes :=
  match text with
  | [] => Ret []
  | c :: rest =>
      if c =c "%" then
        match rest with
        | h1 :: h2 :: rest' =>
            match hex h1, hex h2 with
            | Some a, Some b => r ← decode_loop rest'; Ret (ascii_of_N (N.lor (N.shiftl a 4) b) :: r)
            | _, _ => Throw ParseError
            end
        | _ => Throw ParseError
        end
      else r ← decode_loop rest; Ret ((if c =c "+" then " "%char else c) :: r)
  end.

Definition decode (text : bytes) : result bytes := r ← decode_loop text; _ ← checked_text r; Ret r.

(** ** Configuration *)

Definition url_special (c : ascii) : bool := (c =c "@") || (c =c "?") || (c =c "#") || (c =c " ").

Definition validate_endpoint (endpoint : bytes) : result unit :=
  _ ← checked_text endpoint;
  url ← parse_url endpoint;
  throw_if (negb (scheme url =s lit "https") || negb (nonempty (host url)) || negb (none url_special endpoint)) SecurityViolation.

Definition validate (config : OauthConfig) : result unit :=
  _ ← checked_text (client_id config);
  _ ← checked_text (scopes config);
  _ ← validate_endpoint (authorization_endpoint config);
  _ ← validate_endpoint (token_endpoint config);
  _ ← checked_text (redirect_uri config);
  redirect ← parse_url (redirect_uri config);
  throw_if (negb (none url_special (redirect_uri config)) || negb (nonempty (host redirect)) ||
    (negb (scheme redirect =s lit "https") &&
     negb ((scheme redirect =s lit "http") && ((host redirect =s lit "localhost") || (host redirect =s lit "127.0.0.1")))))
    SecurityViolation.

Record Token := { access_token : bytes; refresh_token : bytes; expires_at : Z }.

Record Authorization := {
  config_ : OauthConfig; verifier_ : bytes; state_ : bytes; challenge_ : bytes; deadline_ : Z; consumed_ : bool }.

(** [values.emplace] of what a pair says. *)
Definition query_pair (pair : bytes) (values : gmap bytes bytes) : result (gmap bytes bytes) :=
  match find_if (fun c => c =c "=") pair with
  | None => Throw ParseError
  | Some eq =>
      key ← decode (take eq pair);
      value ← decode (drop (eq + 1) pair);
      match values !! key with Some _ => Throw ParseError | None => Ret (<[key := value]> values) end
  end.

(** The parameters of a redirect. *)
Fixpoint query_loop (fuel : nat) (query : bytes) (values : gmap bytes bytes) : result (gmap bytes bytes) :=
  match query, fuel with
  | [], _ => Ret values
  | _, O => Throw Internal
  | _, S fuel' =>
      match find_if (fun c => c =c "&") query with
      | None => query_pair query values
      | Some n => values ← query_pair (take n query) values; query_loop fuel' (drop (n + 1) query) values
      end
  end.

Definition read_query (query : bytes) : result (gmap bytes bytes) := query_loop (length query) query ∅.

Section Flow.
Context {F : Binary64} {W : Type}.
Context (send : HttpRequest -> op W HttpResponse) (system_now steady_now : W -> Z).
Context (has_openssl : bool) (random_bytes : op W bytes) (sha256 encode_block : bytes -> bytes) (whole : double -> option Z).

Definition base64url (data : bytes) : bytes :=
  (fun c => if c =c "+" then "-"%char else if c =c "/" then "_"%char else c) <$> rstrip (fun c => c =c "=") (encode_block data).

Definition random : op W bytes := fun w =>
  match random_bytes w with (Ret data, w') => (Ret (base64url data), w') | (Throw _, w') => (Throw Internal, w') end.

(** The constructor of [Authorization]. *)
Definition authorize (config : OauthConfig) : op W Authorization := fun w =>
  let deadline := (steady_now w + 300)%Z in
  (_ ← lift_op (validate config);
   _ ← lift_op (throw_if (negb has_openssl) Unsupported);
   verifier ← random;
   state ← random;
   mret {| config_ := config; verifier_ := verifier; state_ := state; challenge_ := base64url (sha256 verifier);
           deadline_ := deadline; consumed_ := false |}) w.

Definition authorization_url (a : Authorization) : bytes :=
  authorization_endpoint (config_ a) ++ lit "?response_type=code&client_id=" ++ escape (client_id (config_ a)) ++
  lit "&redirect_uri=" ++ escape (redirect_uri (config_ a)) ++ lit "&scope=" ++ escape (scopes (config_ a)) ++
  lit "&state=" ++ state_ a ++ lit "&code_challenge=" ++ challenge_ a ++ lit "&code_challenge_method=S256".

(** [expires_in]: a whole number of seconds, at most a year. *)
Definition seconds_in (limit : Z) (v : option Json) : result Z :=
  match v with
  | Some (JNumber number _) =>
      match whole number with
      | Some n => if ((1 <=? n) && (n <=? limit))%Z then Ret n else Throw ParseError
      | None => Throw ParseError
      end
  | _ => Throw ParseError
  end.

Definition token_request (config : OauthConfig) (body : bytes) : HttpRequest :=
  {| method := lit "POST"; request_url := token_endpoint config;
     request_headers := [(lit "Content-Type", lit "application/x-www-form-urlencoded"); (lit "Accept", lit "application/json")];
     request_body := body ++ lit "&client_id=" ++ escape (client_id config); timeout_ms := 30000; max_response_bytes := 65536;
     request_proxy := no_proxy_config |}.

Definition rejected (url : bytes) (r : HttpResponse) : bool :=
  negb (status r =? 200)%Z || nonempty (redirect_chain r) || (nonempty (final_url r) && negb (final_url r =s url)) ||
  (65536 <? N.of_nat (length (body r)))%N.

(** What the answer of the server says at the time [now]. *)
Definition token_of (now : Z) (response : HttpResponse) : result Token :=
  json ← parse (body response);
  kind ← string_field json (lit "token_type");
  _ ← throw_if (negb (kind =s lit "bearer") && negb (kind =s lit "Bearer")) ParseError;
  access ← string_field json (lit "access_token");
  _ ← checked_text access;
  refresh ← match json_find (lit "refresh_token") json with
            | Some _ => r ← string_field json (lit "refresh_token"); _ ← checked_text r; Ret r
            | None => Ret []
            end;
  seconds ← seconds_in 31536000 (json_find (lit "expires_in") json);
  Ret {| access_token := access; refresh_token := refresh; expires_at := (now + seconds)%Z |}.

Definition exchange (config : OauthConfig) (body : bytes) : op W Token := fun w =>
  match validate config with
  | Throw e => (Throw e, w)
  | Ret _ =>
      let request := token_request config body in
      match send request w with
      | (Throw _, w') => (Throw NetworkError, w')
      | (Ret response, w') =>
          (_ ← throw_if (rejected (request_url request) response) NetworkError; token_of (system_now w') response, w')
      end
  end.

Definition consume (a : Authorization) : Authorization :=
  {| config_ := config_ a; verifier_ := verifier_ a; state_ := state_ a; challenge_ := challenge_ a; deadline_ := deadline_ a;
     consumed_ := true |}.

Definition code_body (a : Authorization) (code : bytes) : bytes :=
  lit "grant_type=authorization_code&code=" ++ escape code ++ lit "&redirect_uri=" ++ escape (redirect_uri (config_ a)) ++
  lit "&code_verifier=" ++ escape (verifier_ a).

(** The code of a redirect. *)
Definition redirect_code (a : Authorization) (redirect_url : bytes) : result bytes :=
  let start := redirect_uri (config_ a) ++ lit "?" in
  _ ← throw_if ((32768 <? N.of_nat (length redirect_url))%N || negb (starts_with start redirect_url) ||
                negb (none (fun c => c =c "#") redirect_url)) SecurityViolation;
  values ← read_query (drop (length start) redirect_url);
  let code := default [] (values !! lit "code") in
  _ ← throw_if (negb (default [] (values !! lit "state") =s state_ a) ||
                match values !! lit "error" with Some _ => true | None => false end || negb (nonempty code)) SecurityViolation;
  Ret code.

Definition finish (redirect_url : bytes) : op (W * Authorization) Token := fun '(w, a) =>
  if consumed_ a || (deadline_ a <=? steady_now w)%Z then (Throw Timeout, (w, a))
  else
    let a := consume a in
    match redirect_code a redirect_url with
    | Throw e => (Throw e, (w, a))
    | Ret code => let '(r, w') := exchange (config_ a) (code_body a code) w in (r, (w', a))
    end.

Definition refresh (config : OauthConfig) (token : Token) : op W Token :=
  _ ← lift_op (checked_text (refresh_token token));
  r ← exchange config (lit "grant_type=refresh_token&refresh_token=" ++ escape (refresh_token token));
  mret (if nonempty (refresh_token r) then r
        else {| access_token := access_token r; refresh_token := refresh_token token; expires_at := expires_at r |}).

Definition expired (now : Z) (token : Token) : bool := (expires_at token <=? now + 30)%Z.

(** ** The cached record *)

Definition identity (config : OauthConfig) : result Json :=
  j ← put (JObject []) (lit "issuer") (token_endpoint config);
  j ← put j (lit "client") (client_id config);
  j ← put j (lit "redirect") (redirect_uri config);
  put j (lit "scopes") (scopes config).

Definition max_time : Z := 9007199254740991.

(** The bytes that [save] writes. *)
Definition token_record (config : OauthConfig) (token : Token) : result bytes :=
  _ ← throw_if (negb (nonempty (access_token token)) || (16384 <? N.of_nat (length (access_token token)))%N ||
        (16384 <? N.of_nat (length (refresh_token token)))%N || (expires_at token <=? 0)%Z || (max_time <? expires_at token)%Z)
        InvalidArgument;
  j ← identity config;
  j ← put j (lit "access_token") (access_token token);
  j ← put j (lit "refresh_token") (refresh_token token);
  let j := json_put (lit "expires_at") (number_value (of_integer (Z.to_N (expires_at token)))) j in
  text ← encode j;
  _ ← throw_if (65536 <? N.of_nat (length text))%N ResourceLimit;
  Ret text.

(** What [fstat] says about the file, and what [load] requires of it. *)
Record FileStatus := { regular : bool; owned : bool; mode : N; links : N; size : Z }.

Definition file_trusted (s : FileStatus) : bool :=
  regular s && owned s && (N.land (mode s) 63 =? 0)%N && (links s =? 1)%N && (1 <=? size s)%Z && (size s <=? 65536)%Z.

(** What [load] makes of the bytes of the file. *)
Definition read_record (config : OauthConfig) (content : bytes) : result Token :=
  json ← parse content;
  issuer ← string_field json (lit "issuer");
  _ ← throw_if (negb (issuer =s token_endpoint config)) SecurityViolation;
  client ← string_field json (lit "client");
  _ ← throw_if (negb (client =s client_id config)) SecurityViolation;
  redirect ← string_field json (lit "redirect");
  _ ← throw_if (negb (redirect =s redirect_uri config)) SecurityViolation;
  granted ← string_field json (lit "scopes");
  _ ← throw_if (negb (granted =s scopes config)) SecurityViolation;
  expires ← seconds_in max_time (json_find (lit "expires_at") json);
  access ← string_field json (lit "access_token");
  refresh ← string_field json (lit "refresh_token");
  Ret {| access_token := access; refresh_token := refresh; expires_at := expires |}.

Definition load_file (config : OauthConfig) (s : FileStatus) (content : bytes) : result Token :=
  _ ← throw_if (negb (file_trusted s)) SecurityViolation; read_record config content.

End Flow.

(** ** Escapes *)

Lemma decode_escaped_char c t : decode_loop (escape_char c ++ t) = (r ← decode_loop t; Ret (c :: r)).
Proof.
  unfold escape_char. destruct (unreserved c) eqn:Hu; cbn [app decode_loop].
  - rewrite unreserved_not_percent by done. destruct (c =c "+") eqn:E; [apply eqc_true in E as ->; discriminate Hu|done].
  - rewrite Ascii.eqb_refl. by destruct (hex_hex_upper c) as (-> & -> & ->).
Qed.

Lemma decode_escape_eq s : checked_text s = Ret tt -> decode (escape s) = Ret s.
Proof.
  intros H. unfold decode. assert (decode_loop (escape s) = Ret s) as ->; [|simpl; by rewrite H].
  unfold escape. clear H. induction s as [|c s IH]; [done|]. by rewrite mjoin_fmap_cons, decode_escaped_char, IH.
Qed.

Definition url_char (c : ascii) : bool := is_alnum c || (c =c "-") || (c =c "_").

Lemma decode_plain s : forallb url_char s = true -> checked_text s = Ret tt -> decode s = Ret s.
Proof.
  intros Hs H. rewrite <- (decode_escape_eq s H). f_equal. unfold escape. clear H. induction s as [|c s IH]; [done|].
  simpl in Hs. apply andb_prop in Hs as [Hc Hs]. rewrite mjoin_fmap_cons, <- IH by done. unfold escape_char.
  assert (unreserved c = true) as -> by (revert Hc; by_ascii c). done.
Qed.

Definition escaped_char (c : ascii) : bool := unreserved c || (c =c "%").

Lemma escape_chars s : forallb escaped_char (escape s) = true.
Proof.
  unfold escape. induction s as [|c s IH]; [done|]. rewrite mjoin_fmap_cons, forallb_app, IH, andb_true_r.
  by_ascii c.
Qed.

Lemma none_escaped (p : ascii -> bool) s : (forall c, escaped_char c = true -> p c = false) -> none p (escape s) = true.
Proof. intros H. eapply none_forallb; [|apply escape_chars]. exact H. Qed.

(** ** Parameters of an address *)

Fixpoint query_of (l : list (bytes * bytes)) : bytes :=
  match l with
  | [] => []
  | (k, v) :: l' => k ++ lit "=" ++ v ++ match l' with [] => [] | _ => lit "&" ++ query_of l' end
  end.

Definition separator (c : ascii) : bool := (c =c "&") || (c =c "=").

(** A piece of an address, and the parameter it stands for. *)
Definition stands_for (p q : bytes * bytes) : Prop :=
  none separator p.1 = true /\ none (fun c => c =c "&") p.2 = true /\ decode p.1 = Ret q.1 /\ decode p.2 = Ret q.2.

Lemma query_pair_read k v k' v' m : stands_for (k, v) (k', v') -> m !! k' = None ->
  query_pair (k ++ "="%char :: v) m = Ret (<[k' := v']> m).
Proof.
  intros (Hk & _ & Dk & Dv) Hm. simpl in *. unfold query_pair.
  rewrite find_if_mid; [|by eapply none_impl, Hk; intros c; unfold separator; intros ->; rewrite orb_true_r|done].
  rewrite take_app_length, drop_app_S, Dk. simpl. rewrite Dv. simpl. by rewrite Hm.
Qed.

Lemma query_step k v k' v' l fuel m : stands_for (k, v) (k', v') -> m !! k' = None ->
  query_loop (S fuel) (query_of ((k, v) :: l)) m =
  match l with [] => Ret (<[k' := v']> m) | _ => query_loop fuel (query_of l) (<[k' := v']> m) end.
Proof.
  intros H Hm. pose proof (query_pair_read _ _ _ _ m H Hm) as Hp. destruct H as (Hk & Hv & _ & _). simpl in Hk, Hv.
  assert (none (fun c => c =c "&") (k ++ "="%char :: v) = true) as Hn.
  { rewrite none_app. simpl. rewrite Hv, (none_impl separator) by (done || by intros c; unfold separator; intros ->). done. }
  destruct l as [|p l].
  - assert (query_of [(k, v)] = k ++ "="%char :: v) as -> by (simpl; by rewrite app_nil_r).
    assert (exists x r, k ++ "="%char :: v = x :: r) as (x & r & Ex) by (destruct k; simpl; eauto).
    rewrite Ex in *. cbn [query_loop]. rewrite (proj2 (find_if_None _ (x :: r)) Hn). exact Hp.
  - assert (query_of ((k, v) :: p :: l) = (k ++ "="%char :: v) ++ "&"%char :: query_of (p :: l)) as -> by (by rewrite <- app_assoc).
    assert (exists x r, k ++ "="%char :: v = x :: r) as (x & r & Ex) by (destruct k; simpl; eauto).
    rewrite Ex in *. cbn [query_loop app]. change (x :: r ++ "&"%char :: query_of (p :: l)) with ((x :: r) ++ "&"%char :: query_of (p :: l)).
    rewrite find_if_mid by (exact Hn || done). rewrite take_app_length, drop_app_S, Hp. done.
Qed.

Lemma query_read l l' : Forall2 stands_for l l' -> NoDup l'.*1 -> forall fuel m,
  length (query_of l) <= fuel -> (forall k, k ∈ l'.*1 -> m !! k = None) -> query_loop fuel (query_of l) m = Ret (list_to_map l' ∪ m).
Proof.
  induction 1 as [|[k v] [k' v'] l l' H Hl IH]; intros Hd fuel m Hf Hm; [by destruct fuel; simpl; rewrite map_empty_union|].
  simpl in Hd, Hm. apply NoDup_cons in Hd as [Hk' Hd].
  destruct fuel as [|fuel]; [simpl in Hf; rewrite !length_app in Hf; simpl in Hf; lia|].
  rewrite (query_step _ _ k' v') by (done || by apply Hm; left). simpl. rewrite <- insert_union_l.
  destruct l as [|p l]; [inversion Hl; subst l'; simpl; by rewrite map_empty_union|].
  rewrite IH; [rewrite insert_union_r; [done|by apply not_elem_of_list_to_map_1]|done| |].
  - change (query_of ((k, v) :: p :: l)) with (k ++ lit "=" ++ v ++ lit "&" ++ query_of (p :: l)) in Hf. rewrite !length_app in Hf. change (length (lit "=")) with 1 in Hf. change (length (lit "&")) with 1 in Hf. lia.
  - intros k1 Hk1. rewrite lookup_insert_ne by (intros ->; done). apply Hm. by right.
Qed.

Lemma read_query_of l l' : Forall2 stands_for l l' -> NoDup l'.*1 -> read_query (query_of l) = Ret (list_to_map l').
Proof. intros Hl Hd. unfold read_query. rewrite (query_read l l') by (done || intros; apply lookup_empty). by rewrite map_union_empty. Qed.

(** ** Base64 *)

Definition base64_char (c : ascii) : bool := is_alnum c || (c =c "+") || (c =c "/").

Lemma letter_char n : (n < 64)%N -> base64_char (letter n) = true.
Proof.
  intros H. assert (forallb (fun m => base64_char (letter (N.of_nat m))) (seq 0 64) = true) as Hall by (vm_compute; done).
  rewrite forallb_forall in Hall. rewrite <- (N2Nat.id n). apply Hall, in_seq. lia.
Qed.

Lemma lor_bound a b n : (a < 2 ^ n)%N -> (b < 2 ^ n)%N -> (N.lor a b < 2 ^ n)%N.
Proof.
  intros Ha Hb. apply (N.div_small_iff _ (2 ^ n)); [by apply N.pow_nonzero|].
  rewrite <- N.shiftr_div_pow2, N.shiftr_lor, !N.shiftr_div_pow2, !N.div_small by done. done.
Qed.

Lemma code_parts c :
  (N.shiftr (code c) 2 < 64 /\ N.shiftr (code c) 4 < 64 /\ N.shiftr (code c) 6 < 64 /\ N.land (code c) 63 < 64 /\
   N.shiftl (N.land (code c) 3) 4 < 64 /\ N.shiftl (N.land (code c) 15) 2 < 64)%N.
Proof. by_ascii c. Qed.

Lemma base64_shape n s : length s <= n ->
  exists text pad, base64 s = text ++ pad /\ forallb base64_char text = true /\ forallb (fun c => c =c "=") pad = true /\
    length text <= 2 * length s /\ (s <> [] -> text <> []).
Proof.
  revert s. induction n as [|n IH]; intros [|a s] Hn; try (exists [], []; simpl; split_and!; (done || lia)); [simpl in Hn; lia|].
  destruct (code_parts a) as (A1 & _ & _ & _ & A2 & _). destruct s as [|b s].
  - eexists [_; _], [_; _]. split; [reflexivity|]. simpl. rewrite letter_char, letter_char; [split_and!; done|by apply (lor_bound _ _ 6)|done].
  - destruct (code_parts b) as (_ & B1 & _ & _ & _ & B2). destruct s as [|c s].
    + eexists [_; _; _], [_]. split; [reflexivity|]. simpl.
      rewrite !letter_char; [split_and!; (done || lia)|by apply (lor_bound _ _ 6)..|done].
    + destruct (code_parts c) as (_ & _ & C1 & C2 & _ & _). destruct (IH s) as (text & pad & E & H1 & H2 & H3 & _); [simpl in Hn; lia|].
      eexists (_ :: _ :: _ :: _ :: text), pad. split; [cbn [base64 app]; by rewrite E|]. simpl. rewrite !letter_char, H1, H2;
        [split_and!; (done || lia)|done|by apply (lor_bound _ _ 6)..|done].
Qed.

(** The random texts of an authorization: their letters need no escape. *)
Definition text_ok (s : bytes) : Prop := forallb url_char s = true /\ checked_text s = Ret tt.

Lemma checked_url_text s : forallb url_char s = true -> s <> [] -> (N.of_nat (length s) <= 16384)%N -> checked_text s = Ret tt.
Proof.
  intros H Hn Hl. unfold checked_text. destruct s as [|c s]; [done|]. cbn [nonempty negb orb].
  rewrite (proj2 (N.ltb_ge _ _)) by exact Hl. assert (none is_control (c :: s) = true) as -> by (eapply none_forallb, H; intros x; by_ascii x). done.
Qed.

Section FlowFacts.
Context {F : Binary64} {W : Type}.
Context (send : HttpRequest -> op W HttpResponse) (system_now steady_now : W -> Z).
Context (has_openssl : bool) (random_bytes : op W bytes) (sha256 encode_block : bytes -> bytes) (whole : double -> option Z).

(** What the cryptographic library documents: the block encoder is base64, and both the random
    bytes and a digest are thirty-two. *)
Context (encode_block_base64 : forall s, encode_block s = base64 s).
Context (random_length : forall w data w', random_bytes w = (Ret data, w') -> length data = 32).
Context (sha256_length : forall s, length (sha256 s) = 32).

Lemma base64url_ok data : length data = 32 -> text_ok (base64url encode_block data).
Proof using encode_block_base64.
  intros Hl. unfold base64url. rewrite encode_block_base64. destruct (base64_shape _ data (le_n _)) as (text & pad & -> & H1 & H2 & H3 & H4).
  rewrite rstrip_app_all, rstrip_none; [|by eapply none_forallb, H1; intros c; by_ascii c|done].
  set (f := fun c : ascii => if c =c "+" then "-"%char else if c =c "/" then "_"%char else c).
  assert (forallb url_char (f <$> text) = true) as Hu.
  { clear H3 H4. induction text as [|c text IH]; [done|]. simpl in *. apply andb_prop in H1 as [Hc Ht].
    apply andb_true_intro. split; [|exact (IH Ht)]. revert Hc. subst f. by_ascii c. }
  split; [exact Hu|]. apply checked_url_text; [exact Hu| |rewrite length_fmap; lia].
  intros E%fmap_nil_inv. apply H4; [|exact E]. by intros ->.
Qed.

(** An authorization as the constructor and [finish] leave it. *)
Record issued (a : Authorization) : Prop := {
  issued_config : validate (config_ a) = Ret tt;
  issued_state : text_ok (state_ a);
  issued_verifier : text_ok (verifier_ a);
  issued_challenge : challenge_ a = base64url encode_block (sha256 (verifier_ a)) }.

Lemma authorize_issued config w a w' :
  authorize steady_now has_openssl random_bytes sha256 encode_block config w = (Ret a, w') ->
  issued a /\ config_ a = config /\ consumed_ a = false /\ deadline_ a = (steady_now w + 300)%Z.
Proof using encode_block_base64 random_length.
  unfold authorize. rewrite lift_bind. destruct (validate config) as [[]|e] eqn:Ev; [|done]. rewrite lift_bind.
  destruct has_openssl; [|done]. simpl throw_if. cbv iota beta. bind_step. unfold random at 1.
  destruct (random_bytes w) as [[v|e] w1] eqn:E1; [|done]. bind_step. unfold random at 1.
  destruct (random_bytes w1) as [[s|e] w2] eqn:E2; [|done].
  ret_step. intros [= <- _]. simpl. split; [|done]. split; simpl; eauto using base64url_ok.
Qed.

Lemma text_ok_stands name v : forallb url_char name = true -> name <> [] -> (N.of_nat (length name) <= 16384)%N ->
  text_ok v -> stands_for (name, v) (name, v).
Proof using.
  intros H1 H2 H3 [H4 H5]. split_and!; simpl.
  - eapply none_forallb, H1. intros c. by_ascii c.
  - eapply none_forallb, H4. intros c. by_ascii c.
  - apply decode_plain; [done|]. by apply checked_url_text.
  - by apply decode_plain.
Qed.

Lemma escape_stands name v : forallb url_char name = true -> name <> [] -> (N.of_nat (length name) <= 16384)%N ->
  checked_text v = Ret tt -> stands_for (name, escape v) (name, v).
Proof using.
  intros H1 H2 H3 H4. split_and!; simpl.
  - eapply none_forallb, H1. intros c. by_ascii c.
  - apply none_escaped. intros c. by_ascii c.
  - apply decode_plain; [done|]. by apply checked_url_text.
  - by apply decode_escape_eq.
Qed.

Lemma checked_Ret s u : checked_text s = Ret u -> checked_text s = Ret tt.
Proof using. by destruct u. Qed.

Lemma endpoint_Ret e u : validate_endpoint e = Ret u ->
  checked_text e = Ret tt /\ none url_special e = true /\
  exists url, parse_url e = Ret url /\ scheme url = lit "https" /\ host url <> [].
Proof using.
  unfold validate_endpoint. intros H. inv_ret. rename select (_ || _ = false) into E.
  apply orb_false_iff in E as [[E1%negb_false_iff E2%negb_false_iff]%orb_false_iff E3%negb_false_iff].
  split_and!; [by eapply checked_Ret|done|]. eexists. split_and!; [done|by apply eqb_bytes_true|].
  intros E. by rewrite E in E2.
Qed.

Lemma validate_Ret config u : validate config = Ret u ->
  (checked_text (client_id config) = Ret tt /\ checked_text (scopes config) = Ret tt) /\
  (none url_special (authorization_endpoint config) = true /\ none url_special (token_endpoint config) = true) /\
  (exists url, parse_url (token_endpoint config) = Ret url /\ scheme url = lit "https" /\ host url <> []) /\
  checked_text (redirect_uri config) = Ret tt /\ none url_special (redirect_uri config) = true.
Proof using.
  unfold validate. intros H. inv_ret.
  repeat match goal with H : validate_endpoint _ = Ret _ |- _ => apply endpoint_Ret in H as (? & ? & ?) end.
  rename select (_ || _ || _ = false) into E. apply orb_false_iff in E as [[E1%negb_false_iff _]%orb_false_iff _].
  split_and!; eauto using checked_Ret.
Qed.

Definition authorization_params (config : OauthConfig) (state challenge : bytes) : list (bytes * bytes) :=
  [(lit "response_type", lit "code"); (lit "client_id", client_id config); (lit "redirect_uri", redirect_uri config);
   (lit "scope", scopes config); (lit "state", state); (lit "code_challenge", challenge); (lit "code_challenge_method", lit "S256")].

Lemma url_read a : issued a ->
  exists query, authorization_url a = authorization_endpoint (config_ a) ++ lit "?" ++ query /\
    read_query query = Ret (list_to_map (authorization_params (config_ a) (state_ a) (challenge_ a))).
Proof using encode_block_base64 sha256_length.
  intros [(Hc & Ha & _ & Hr & _)%validate_Ret Hs _ Hch].
  set (l := [(lit "response_type", lit "code"); (lit "client_id", escape (client_id (config_ a)));
    (lit "redirect_uri", escape (redirect_uri (config_ a))); (lit "scope", escape (scopes (config_ a))); (lit "state", state_ a);
    (lit "code_challenge", challenge_ a); (lit "code_challenge_method", lit "S256")]).
  exists (query_of l). split; [reflexivity|]. apply read_query_of.
  - assert (text_ok (challenge_ a)) as Hk by (rewrite Hch; apply base64url_ok, sha256_length). destruct Hc as [Hc1 Hc2].
    repeat (constructor; [first [by apply text_ok_stands|by apply escape_stands]|]). constructor.
  - apply (bool_decide_unpack (NoDup _)). vm_compute. exact I.
Qed.

Lemma issued_redirect a code : issued a -> checked_text code = Ret tt ->
  let redirect := redirect_uri (config_ a) ++ lit "?code=" ++ escape code ++ lit "&state=" ++ state_ a in
  (N.of_nat (length redirect) <= 32768)%N -> redirect_code a redirect = Ret code.
Proof using.
  intros [(_ & _ & _ & _ & Hr)%validate_Ret Hs _ _] Hcode redirect Hl.
  assert (redirect = (redirect_uri (config_ a) ++ lit "?") ++ query_of [(lit "code", escape code); (lit "state", state_ a)]) as E
    by (unfold redirect; rewrite <- app_assoc; simpl; by rewrite app_nil_r).
  assert (none (fun c => c =c "#") redirect = true) as Hn.
  { unfold redirect. rewrite !none_app. destruct Hs as [Hs _].
    rewrite (none_impl url_special) by (done || by intros c; unfold url_special; intros ->; rewrite orb_true_r).
    rewrite none_escaped by (intros c; by_ascii c). assert (none (fun c => c =c "#") (state_ a) = true) as -> by (eapply none_forallb, Hs; intros c; by_ascii c). done. }
  unfold redirect_code. rewrite (proj2 (N.ltb_ge _ _)), Hn by exact Hl. rewrite E, starts_with_app, drop_app_length. cbn [negb orb throw_if mbind result_bind].
  rewrite (read_query_of _ [(lit "code", code); (lit "state", state_ a)]).
  - simpl. rewrite lookup_insert_eq, lookup_insert_ne, lookup_insert_eq, !lookup_insert_ne, lookup_empty by done.
    simpl. rewrite eqb_bytes_refl. simpl. unfold checked_text in Hcode. by destruct code.
  - constructor; [by apply escape_stands|]. constructor; [by apply text_ok_stands|constructor].
  - simpl. constructor; [by apply not_elem_of_cons; split; [|apply not_elem_of_nil]|]. constructor; [apply not_elem_of_nil|constructor].
Qed.

(** ** The exchange of a code for a token *)

(** An answer that came from the server that was asked, in one hop. *)
Definition trusted (config : OauthConfig) (r : HttpResponse) : Prop :=
  status r = 200%Z /\ redirect_chain r = [] /\ (final_url r = [] \/ final_url r = token_endpoint config) /\
  (N.of_nat (length (body r)) <= 65536)%N.

Lemma rejected_false config r : rejected (token_endpoint config) r = false -> trusted config r.
Proof using.
  unfold rejected, trusted. intros [[[H1%negb_false_iff H2]%orb_false_iff H3]%orb_false_iff H4%N.ltb_ge]%orb_false_iff.
  split_and!; [by apply Z.eqb_eq|by destruct (redirect_chain r)| |done].
  apply andb_false_iff in H3 as [H3|H3%negb_false_iff]; [left; by destruct (final_url r)|right; by apply eqb_bytes_true].
Qed.

Lemma seconds_in_Ret limit v n : seconds_in whole limit v = Ret n -> (1 <= n <= limit)%Z.
Proof using.
  unfold seconds_in. destruct v as [[]|]; try done. destruct (whole number); [|done]. destruct (_ && _) eqn:E; [|done].
  intros [= <-]. apply andb_prop in E as [E1%Z.leb_le E2%Z.leb_le]. lia.
Qed.

Lemma token_of_Ret now r t : token_of whole now r = Ret t ->
  access_token t <> [] /\ (now < expires_at t <= now + 31536000)%Z.
Proof using.
  unfold token_of. intros H. inv_ret.
  repeat match goal with H : seconds_in _ _ _ = Ret _ |- _ => apply seconds_in_Ret in H end.
  simpl. split; [|lia]. intros ->. rename select (checked_text [] = Ret _) into E. discriminate E.
Qed.

(** What one request for a token gives. *)
Definition asked (config : OauthConfig) (body : bytes) (w w' : W) (r : result Token) : Prop :=
  exists answer, send (token_request config body) w = (answer, w') /\
    forall t, r = Ret t -> exists response, answer = Ret response /\ trusted config response /\
      token_of whole (system_now w') response = Ret t /\
      access_token t <> [] /\ (system_now w' < expires_at t <= system_now w' + 31536000)%Z.

Lemma exchange_asked config body w r w' : validate config = Ret tt ->
  exchange send system_now whole config body w = (r, w') -> asked config body w w' r.
Proof using.
  intros Hv. unfold exchange, asked. rewrite Hv. destruct (send (token_request config body) w) as [[response|e] w1].
  - intros [= <- <-]. exists (Ret response). split; [done|]. intros t H. exists response.
    change (request_url (token_request config body)) with (token_endpoint config) in H.
    destruct (rejected (token_endpoint config) response) eqn:E; [done|]. simpl in H.
    pose proof (token_of_Ret _ _ _ H) as [H1 H2]. split_and!; try done; by apply rejected_false || lia.
  - intros [= <- <-]. by exists (Throw e).
Qed.

(** A redirect that answers the authorization [a] with [code]. *)
Definition answers_with (a : Authorization) (url code : bytes) : Prop :=
  exists query values, url = redirect_uri (config_ a) ++ lit "?" ++ query /\ none (fun c => c =c "#") url = true /\
    read_query query = Ret values /\ values !! lit "state" = Some (state_ a) /\ values !! lit "error" = None /\
    values !! lit "code" = Some code /\ code <> [].

Lemma redirect_code_Ret a url code : state_ a <> [] -> redirect_code a url = Ret code -> answers_with a url code.
Proof using.
  unfold redirect_code, answers_with. intros Hs H. inv_ret. rename select (gmap bytes bytes) into values.
  rename select (_ || negb (nonempty _) = false) into E2. revert E2. rename select (_ || _ = false) into E. intros E2.
  apply orb_false_iff in E as [[_ E%negb_false_iff]%orb_false_iff E1%negb_false_iff].
  apply orb_false_iff in E2 as [[E2%negb_false_iff E3]%orb_false_iff E4%negb_false_iff].
  apply starts_with_spec in E. rewrite <- app_assoc in E. eexists _, values. split; [exact E|]. split; [done|].
  apply eqb_bytes_true in E2. split_and!; try done.
  - destruct (values !! lit "state"); simpl in E2; [by rewrite E2|by subst].
  - by destruct (values !! lit "error").
  - by destruct (values !! lit "code").
  - by destruct (default [] (values !! lit "code")).
Qed.

Lemma issued_consume a : issued a -> issued (consume a).
Proof using. by intros []. Qed.

Abbreviation do_finish := (finish send system_now steady_now whole).

Lemma finish_spec a url w r w' a' : issued a -> do_finish url (w, a) = (r, (w', a')) ->
  (a' = a /\ w' = w /\ r = Throw Timeout) \/
  (a' = consume a /\ consumed_ a = false /\ (steady_now w < deadline_ a)%Z /\
   ((w' = w /\ exists e, r = Throw e) \/
    exists code, answers_with a url code /\ asked (config_ a) (code_body a code) w w' r)).
Proof using.
  intros Ha. unfold finish. destruct (consumed_ a) eqn:Ec; [intros [= <- <- <-]; by left|].
  destruct (Z.leb_spec (deadline_ a) (steady_now w)) as [Hd|Hd]; [intros [= <- <- <-]; by left|]. simpl.
  destruct (redirect_code (consume a) url) as [code|e] eqn:E; [|intros [= <- <- <-]; right; naive_solver].
  destruct (exchange send system_now whole (config_ a) (code_body (consume a) code) w) as [r1 w1] eqn:Ex.
  intros [= <- <- <-]. right. split_and!; try done. right. exists code. split.
  - apply (redirect_code_Ret (consume a)); [|done]. destruct Ha as [_ [_ Hs] _ _]. simpl. intros E'. rewrite E' in Hs. discriminate Hs.
  - eapply exchange_asked; [apply Ha|exact Ex].
Qed.

(** C26: An authorization is good for one request.  What it says in its address reads back as its
    configuration, its state and the digest of its verifier.  A redirect that was not read to
    this state, or came late, or second, sends nothing and throws; otherwise exactly one request
    is sent, to the token endpoint, with the code of the redirect and the verifier, and a token
    is returned only when that server answered in one hop, with a lifetime of at most a year;
    after that, and after any refused redirect, every redirect is refused.  *)
Theorem authorization_once config w0 a w1 url w r w' a' :
  authorize steady_now has_openssl random_bytes sha256 encode_block config w0 = (Ret a, w1) ->
  do_finish url (w, a) = (r, (w', a')) ->
  (exists query, authorization_url a = authorization_endpoint config ++ lit "?" ++ query /\
    read_query query = Ret (list_to_map (authorization_params config (state_ a) (base64url encode_block (sha256 (verifier_ a)))))) /\
  ((w' = w /\ exists e, r = Throw e) \/
   (steady_now w < steady_now w0 + 300)%Z /\
   exists code, answers_with a url code /\ asked config (code_body a code) w w' r) /\
  (r <> Throw Timeout -> forall url2 w2, do_finish url2 (w2, a') = (Throw Timeout, (w2, a'))).
Proof using encode_block_base64 random_length sha256_length.
  intros (Ha & Hc & Hn & Hd)%authorize_issued Hf. pose proof (url_read a Ha) as (query & Hu & Hq).
  rewrite (issued_challenge a Ha), Hc in *. split; [by exists query|].
  destruct (finish_spec a url w r w' a' Ha Hf) as [(-> & -> & ->)|(-> & _ & Hs & H)].
  - split; [left; eauto|done].
  - split; [|done]. destruct H as [H|(code & H1 & H2)]; [by left|]. right. rewrite Hd in Hs. rewrite Hc in H2. eauto.
Qed.

(** The redirect of an honest server is accepted: the address that sends the code and the
    state of the authorization back to its redirect address, in time and for the first time,
    makes the one request for a token with that code. *)
Theorem honest_redirect config w0 a w1 code w :
  authorize steady_now has_openssl random_bytes sha256 encode_block config w0 = (Ret a, w1) ->
  checked_text code = Ret tt -> (steady_now w < steady_now w0 + 300)%Z ->
  let redirect := redirect_uri config ++ lit "?code=" ++ escape code ++ lit "&state=" ++ state_ a in
  (N.of_nat (length redirect) <= 32768)%N ->
  exists r w', do_finish redirect (w, a) = (r, (w', consume a)) /\ asked config (code_body a code) w w' r.
Proof using encode_block_base64 random_length.
  intros (Ha & Hc & Hn & Hd)%authorize_issued Hcode Ht redirect Hl. unfold finish. rewrite Hn, Hd.
  destruct (Z.leb_spec (steady_now w0 + 300)%Z (steady_now w)) as [?|_]; [lia|]. simpl.
  unfold redirect in *. rewrite <- Hc in *. change (redirect_uri (config_ a)) with (redirect_uri (config_ (consume a))) in *.
  change (state_ a) with (state_ (consume a)) in *.
  rewrite (issued_redirect (consume a) code) by (done || by apply issued_consume).
  destruct (exchange send system_now whole _ _ w) as [r w'] eqn:E. exists r, w'. split; [done|].
  eapply exchange_asked; [apply Ha|exact E].
Qed.

(** ** The record *)

Context {L : Binary64Laws F}.
Context (whole_integer : forall n, (n <= max_safe_integer)%N -> whole (of_integer n) = Some (Z.of_N n)).

Lemma put_Ret l key text j : put (JObject l) key text = Ret j -> j = JObject (l ++ [(key, JString text)]) /\ valid text.
Proof using.
  unfold put, string_value, valid. destruct (validate_utf8 text) as [[]|] eqn:E; [|done]. simpl. by intros [= <-].
Qed.

Lemma or_throw_returns {A} (m : result A) e a : or_throw m e = Ret a -> m = Ret a.
Proof using. by destruct m. Qed.

(** What the record says. *)
Definition record_of (config : OauthConfig) (token : Token) : Json :=
  JObject [(lit "issuer", JString (token_endpoint config)); (lit "client", JString (client_id config));
    (lit "redirect", JString (redirect_uri config)); (lit "scopes", JString (scopes config));
    (lit "access_token", JString (access_token token)); (lit "refresh_token", JString (refresh_token token));
    (lit "expires_at", number_value (of_integer (Z.to_N (expires_at token))))].

Lemma token_record_Ret config token content : token_record config token = Ret content ->
  parse content = Ret (record_of config token) /\ (1 <= expires_at token <= max_time)%Z.
Proof using L.
  unfold token_record, identity. intros H. inv_ret. rename select (_ || _ = false) into E2.
  repeat match goal with H : put _ _ _ = Ret _ |- _ => apply put_Ret in H as [-> ?] end.
  rename select (encode _ = Ret _) into He. apply or_throw_returns in He.
  match type of He with encode_json ?v = _ => change v with (record_of config token) in He end.
  unfold parse. erewrite parse_encoded; [split; [done|]| |exact He].
  - unfold max_time in *.
    apply orb_false_iff in E2 as [[_ E1%Z.leb_gt]%orb_false_iff E2%Z.ltb_ge]. lia.
  - split.
    + apply (bool_decide_unpack (NoDup _)). vm_compute. exact I.
    + simpl. split_and!; try done; [apply to_number|apply from_to].
Qed.

(** A cached token is read back exactly as it was saved, by the configuration it was saved
    for, and is refused for every other issuer, client, redirect address or scope. *)
Theorem cache_bound config token content : token_record config token = Ret content ->
  read_record whole config content = Ret token /\
  forall other, (token_endpoint other, client_id other, redirect_uri other, scopes other) <>
      (token_endpoint config, client_id config, redirect_uri config, scopes config) ->
    read_record whole other content = Throw SecurityViolation.
Proof using L whole_integer.
  intros [Hp Ht]%token_record_Ret. split; [|intros other Ho]; unfold read_record; rewrite Hp; cbn [mbind result_bind].
  - simpl. rewrite !eqb_bytes_refl. simpl. rewrite whole_integer by (unfold max_safe_integer, max_time in *; lia).
    rewrite Z2N.id by lia. rewrite (proj2 (Z.leb_le _ _)), (proj2 (Z.leb_le _ _)) by lia. by destruct token.
  - simpl. repeat match goal with |- context [?a =s ?b] => destruct (a =s b) eqn:?; simpl; [|done] end.
    repeat match goal with H : _ =s _ = true |- _ => apply eqb_bytes_true in H end. exfalso. apply Ho. congruence.
Qed.

End FlowFacts.

(** ** Evaluations *)

(** A server that grants an hour, over the list of the requests that were sent. *)
Definition demo_grant : bytes :=
  match encode (F := decimal) (JObject [(lit "token_type", JString (lit "Bearer")); (lit "access_token", JString (lit "key"));
    (lit "expires_in", @number_value decimal 3600%Z)]) with Ret text => text | Throw _ => [] end.

Definition demo_send (request : HttpRequest) : op (list HttpRequest) HttpResponse := fun sent =>
  (Ret {| status := 200; headers := []; body := demo_grant; final_url := []; redirect_chain := [] |}, sent ++ [request]).

Definition demo_now (sent : list HttpRequest) : Z := 1000.
Definition demo_random : op (list HttpRequest) bytes := fun sent => (Ret (replicate 32 "r"%char), sent).
Definition demo_digest (s : bytes) : bytes := replicate 32 "d"%char.
Definition demo_whole (z : @double decimal) : option Z := Some z.

Definition demo_oauth : OauthConfig :=
  {| authorization_endpoint := lit "https://a.example/auth"; token_endpoint := lit "https://a.example/token";
     client_id := lit "me & co"; redirect_uri := lit "http://localhost:8976/cb"; scopes := lit "read write" |}.

Definition demo_state : bytes := base64url base64 (replicate 32 "r"%char).

Definition demo_flow : Authorization :=
  {| config_ := demo_oauth; verifier_ := demo_state; state_ := demo_state; challenge_ := base64url base64 (replicate 32 "d"%char);
     deadline_ := 1300; consumed_ := false |}.

Lemma demo_authorize : authorize demo_now true demo_random demo_digest base64 demo_oauth [] = (Ret demo_flow, []).
Proof. vm_compute. reflexivity. Qed.

Lemma demo_random_length w data w' : demo_random w = (Ret data, w') -> length data = 32.
Proof. by intros [= <- _]. Qed.

Definition demo_redirect (code : bytes) : bytes :=
  redirect_uri demo_oauth ++ lit "?code=" ++ escape code ++ lit "&state=" ++ demo_state.

Definition demo_finish (url : bytes) := finish (F := decimal) demo_send demo_now demo_now demo_whole url ([], demo_flow).

Definition demo_token : Token := {| access_token := lit "key"; refresh_token := []; expires_at := 4600 |}.

Lemma demo_finished :
  demo_finish (demo_redirect (lit "a&b")) = (Ret demo_token, ([token_request demo_oauth (code_body demo_flow (lit "a&b"))], consume demo_flow)).
Proof. vm_compute. reflexivity. Qed.

Lemma authorization_once_witness :
  finish (F := decimal) demo_send demo_now demo_now demo_whole (demo_redirect (lit "again")) ([], consume demo_flow)
    = (Throw Timeout, ([], consume demo_flow)).
Proof.
  destruct (authorization_once (F := decimal) demo_send demo_now demo_now true demo_random demo_digest base64 demo_whole
    (fun _ => eq_refl) demo_random_length (fun _ => eq_refl) demo_oauth [] demo_flow [] (demo_redirect (lit "a&b")) []
    (Ret demo_token) _ _ demo_authorize demo_finished) as (_ & _ & H). apply H. discriminate.
Defined.

Lemma honest_redirect_witness :
  exists r w', demo_finish (demo_redirect (lit "a&b")) = (r, (w', consume demo_flow)) /\
    asked (F := decimal) demo_send demo_now demo_whole demo_oauth (code_body demo_flow (lit "a&b")) [] w' r.
Proof.
  apply (honest_redirect (F := decimal) demo_send demo_now demo_now true demo_random demo_digest base64 demo_whole
    (fun _ => eq_refl) demo_random_length demo_oauth [] demo_flow [] (lit "a&b") []);
    [exact demo_authorize|reflexivity|reflexivity|vm_compute; discriminate].
Defined.

Definition demo_content : bytes := match token_record (F := decimal) demo_oauth demo_token with Ret text => text | Throw _ => [] end.

Lemma cache_bound_witness :
  nonempty demo_content = true /\ read_record (F := decimal) demo_whole demo_oauth demo_content = Ret demo_token.
Proof.
  split; [vm_compute; reflexivity|].
  apply (cache_bound (F := decimal) demo_whole (L := decimal_laws) (fun _ _ => eq_refl) demo_oauth demo_token demo_content).
  vm_compute. reflexivity.
Defined.

(** A redirect with another state, and one with the state given twice. *)
Example forged_redirects :
  (demo_finish (redirect_uri demo_oauth ++ lit "?code=x&state=abc")).1 = Throw SecurityViolation /\
  (demo_finish (demo_redirect (lit "x") ++ lit "&state=" ++ demo_state)).1 = Throw ParseError.
Proof. split; vm_compute; reflexivity. Qed.

(** A refused redirect uses the authorization up, too. *)
Example refused_consumes : (demo_finish (redirect_uri demo_oauth)).2 = ([], consume demo_flow).
Proof. vm_compute. reflexivity. Qed.

(** A token without a refresh token can be saved and loaded, but not refreshed. *)
Example no_refresh_token :
  (refresh (F := decimal) demo_send demo_now demo_whole demo_oauth demo_token []).1 = Throw InvalidArgument.
Proof. vm_compute. reflexivity. Qed.
