(* ===== verification/Gfx.v ===== *)
(** * Gfx: [src/core/gfx_encoding.cpp], [gfx_ir.cpp] and [src/gfx_backend/registry.cpp]

    The PGFX1 bytecode of text frames, the lowering of page events to it, and the client of the
    graphics back ends with the headless one.  A back end that the host supplies is a parameter:
    its functions are operations on the state [W] of the rest of the program, and what it
    throws is an error like any other. *)
From S2P Require Import Prelude Html Ir IrCodec.

Definition max_gfx_bytes : N := 4 * 1024 * 1024.
Definition max_gfx_commands : N := 50000.
Definition max_gfx_text_bytes : N := 4096.
Definition max_gfx_dimension : N := 16384.
Definition max_gfx_content_height : N := 1000000.

Record GfxOptions := { width : N; height : N }.
Record GfxText := { g_x : N; g_y : N; g_text : bytes }.
Record GfxFrame := { surface : GfxOptions; f_text : list GfxText }.

(** ** Encoding *)

Definition dimensions (o : GfxOptions) : result unit :=
  throw_if ((width o =? 0)%N || (height o =? 0)%N || (max_gfx_dimension <? width o)%N || (max_gfx_dimension <? height o)%N)
    InvalidArgument.

(** The bytes that follow a first byte. *)
Definition followers (c : N) : N :=
  (if (0xc2 <=? c) && (c <=? 0xdf) then 1 else if (0xe0 <=? c) && (c <=? 0xef) then 2
   else if (0xf0 <=? c) && (c <=? 0xf4) then 3 else 0)%N.

Definition bad_second (c first : N) : bool :=
  (((c =? 0xe0) && (first <? 0xa0)) || ((c =? 0xed) && (0xa0 <=? first)) || ((c =? 0xf0) && (first <? 0x90)) ||
   ((c =? 0xf4) && (0x90 <=? first)))%N.

Definition is_continuation (c : ascii) : bool := (N.land (code c) 0xc0 =? 0x80)%N.

Fixpoint valid_loop (fuel : nat) (text : bytes) : bool :=
  match text, fuel with
  | [], _ => true
  | _, O => false
  | a :: rest, S fuel' =>
      let c := code a in
      if (c <? 32)%N || (c =? 127)%N then false
      else if (c <? 128)%N then valid_loop fuel' rest
      else
        let n := N.to_nat (followers c) in
        if (n =? 0) || (length rest <? n) then false
        else if bad_second c (from_option code 0%N (head rest)) then false
        else forallb is_continuation (take n rest) && valid_loop fuel' (drop n rest)
  end.

Definition valid_text (text : bytes) : bool := valid_loop (length text) text.

Definition check (command : GfxText) (o : GfxOptions) : result unit :=
  throw_if ((width o <=? g_x command)%N || (max_gfx_content_height <? g_y command)%N ||
    (max_gfx_text_bytes <? N.of_nat (length (g_text command)))%N || negb (valid_text (g_text command))) ParseError.

Definition command_size (command : GfxText) : N := (13 + N.of_nat (length (g_text command)))%N.

(** The loop that checks the commands and adds up their sizes. *)
Fixpoint frame_size (o : GfxOptions) (l : list GfxText) (size : N) : result N :=
  match l with
  | [] => Ret size
  | command :: l' =>
      _ ← check command o;
      _ ← throw_if (size_sub max_gfx_bytes size <? command_size command)%N ResourceLimit;
      frame_size o l' (size + command_size command)%N
  end.

Definition command_bytes (command : GfxText) : bytes :=
  byte 1 :: write_u32 (g_x command) ++ write_u32 (g_y command) ++ write_bytes (g_text command).

Definition gfx_magic : bytes := lit "PGFX1".

Definition encode_gfx_frame (frame : GfxFrame) : result bytes :=
  _ ← dimensions (surface frame);
  _ ← throw_if (max_gfx_commands <? N.of_nat (length (f_text frame)))%N ResourceLimit;
  _ ← frame_size (surface frame) (f_text frame) 17;
  Ret (gfx_magic ++ write_u32 (width (surface frame)) ++ write_u32 (height (surface frame)) ++
       write_u32 (N.of_nat (length (f_text frame))) ++ mjoin (command_bytes <$> f_text frame)).

(** ** Decoding *)

Definition read (s : bytes) : result (N * bytes) := match read_u32 s with Some x => Ret x | None => Throw ParseError end.

Definition decode_command (o : GfxOptions) (s : bytes) : result (GfxText * bytes) :=
  match s with
  | [] => Throw ParseError
  | opcode :: s =>
      _ ← throw_if (negb (code opcode =? 1)%N) ParseError;
      '(x, s) ← read s;
      '(y, s) ← read s;
      '(len, s) ← read s;
      _ ← throw_if ((max_gfx_text_bytes <? len)%N || (N.of_nat (length s) <? len)%N) ParseError;
      let command := {| g_x := x; g_y := y; g_text := take (N.to_nat len) s |} in
      _ ← check command o;
      Ret (command, drop (N.to_nat len) s)
  end.

Fixpoint decode_commands (o : GfxOptions) (count : nat) (s : bytes) : result (list GfxText * bytes) :=
  match count with
  | O => Ret ([], s)
  | S count' => '(command, s) ← decode_command o s; '(l, s) ← decode_commands o count' s; Ret (command :: l, s)
  end.

Definition decode_gfx_frame (s : bytes) : result GfxFrame :=
  _ ← throw_if ((N.of_nat (length s) <? 17)%N || (max_gfx_bytes <? N.of_nat (length s))%N || negb (starts_with gfx_magic s)) ParseError;
  '(w, s) ← read (drop 5 s);
  '(h, s) ← read s;
  let o := {| width := w; height := h |} in
  _ ← (match dimensions o with Ret u => Ret u | Throw _ => Throw ParseError end);
  '(count, s) ← read s;
  _ ← throw_if ((max_gfx_commands <? count)%N || (N.of_nat (length s) / 13 <? count)%N) ParseError;
  '(l, s) ← decode_commands o (N.to_nat count) s;
  _ ← throw_if (nonempty s) ParseError;
  Ret {| surface := o; f_text := l |}.

(** ** Lowering *)

Definition is_heading (tag : bytes) : bool :=
  match tag with [h; d] => (h =c "h") && in_range 49 54 d | _ => false end.

Definition block (tag : bytes) : bool :=
  one_of tag ["p"; "div"; "section"; "article"; "main"; "li"; "tr"; "pre"; "blockquote"] || is_heading tag.

Definition hiding_attribute (a : Attribute) : bool :=
  (attr_name a =s lit "hidden") ||
  ((attr_name a =s lit "style") &&
   let style := to_lower (List.filter (fun c => negb (is_blank c)) (attr_value a)) in
   (match find_sub (lit "display:none") style with Some _ => true | None => false end ||
    match find_sub (lit "visibility:hidden") style with Some _ => true | None => false end)).

Definition hidden (event : ProwseEvent) : bool :=
  one_of (e_tag event) ["head"; "script"; "style"; "template"; "textarea"; "select"] ||
  existsb hiding_attribute (e_attributes event).

Record Scope := { s_tag : bytes; s_path : bytes; s_hide : bool }.

Record Lowering := { stack : list Scope; line : bytes; columns : N; space : bool; bytes_used : N; lines : list GfxText }.

Definition with_stack (l : list Scope) (st : Lowering) : Lowering :=
  {| stack := l; line := line st; columns := columns st; space := space st; bytes_used := bytes_used st; lines := lines st |}.
Definition with_space (b : bool) (st : Lowering) : Lowering :=
  {| stack := stack st; line := line st; columns := columns st; space := b; bytes_used := bytes_used st; lines := lines st |}.
Definition with_line (l : bytes) (n : N) (b : bool) (st : Lowering) : Lowering :=
  {| stack := stack st; line := l; columns := n; space := b; bytes_used := bytes_used st; lines := lines st |}.

Definition line_width (o : GfxOptions) : N := N.max 1 ((if (32 <? width o)%N then width o - 32 else 8) / 8)%N.

Definition line_count (st : Lowering) : N := N.of_nat (length (lines st)).

(** The lambda [newline]. *)
Definition newline (o : GfxOptions) (st : Lowering) : result Lowering :=
  match line st with
  | [] => Ret (with_space false st)
  | text =>
      let size := (13 + N.of_nat (length text))%N in
      _ ← throw_if ((max_gfx_commands <=? line_count st)%N || (max_gfx_content_height <? 16 + line_count st * 18)%N ||
            (size_sub max_gfx_bytes (bytes_used st) <? size)%N) ResourceLimit;
      Ret {| stack := stack st; line := []; columns := 0; space := false; bytes_used := bytes_used st + size;
             lines := lines st ++ [{| g_x := N.min 16 (width o - 1); g_y := 16 + line_count st * 18; g_text := text |}] |}
  end.

(** The length of the character that starts with [c]. *)
Definition sequence_length (c : N) : N := if (c <? 128)%N then 1%N else match followers c with 0%N => 0%N | n => (n + 1)%N end.

Definition put_char (text : bytes) (st : Lowering) : Lowering :=
  let st := if space st then with_line (line st ++ lit " ") (columns st + 1) false st else st in
  with_line (line st ++ text) (columns st + 1) (space st) st.

(** The lambda [append]. *)
Fixpoint append_loop (o : GfxOptions) (fuel : nat) (text : bytes) (st : Lowering) : result Lowering :=
  match text, fuel with
  | [], _ => Ret st
  | _, O => Throw Internal
  | a :: rest, S fuel' =>
      let c := code a in
      if (c <=? 32)%N || (c =? 127)%N then append_loop o fuel' rest (with_space (nonempty (line st)) st)
      else
        let n := sequence_length c in
        _ ← throw_if ((n =? 0)%N || (N.of_nat (length text) <? n)%N) ParseError;
        st ← (if (line_width o <=? columns st + (if space st then 1 else 0))%N ||
                 (max_gfx_text_bytes <? N.of_nat (length (line st)) + n + 1)%N
              then newline o st else Ret st);
        append_loop o fuel' (drop (N.to_nat n) text) (put_char (take (N.to_nat n) text) st)
  end.

Definition append_text (o : GfxOptions) (text : bytes) (st : Lowering) : result Lowering := append_loop o (length text) text st.

Definition when (b : bool) (f : Lowering -> result Lowering) (st : Lowering) : result Lowering := if b then f st else Ret st.

Definition depth_of (st : Lowering) : N := N.of_nat (length (stack st)).
Definition top_hides (st : Lowering) : bool := match stack st with s :: _ => s_hide s | [] => false end.
Definition is_tag (e : ProwseEvent) (tag : string) : bool := e_tag e =s lit tag.

Definition on_start (o : GfxOptions) (e : ProwseEvent) (st : Lowering) : result Lowering :=
  _ ← throw_if ((256 <=? depth_of st)%N || negb (e_depth e =? depth_of st)%N || negb (nonempty (e_tag e))) ParseError;
  let hide := top_hides st || hidden e in
  let st := with_stack ({| s_tag := e_tag e; s_path := e_xpath e; s_hide := hide |} :: stack st) st in
  if hide then Ret st
  else
    st ← when (block (e_tag e) || is_tag e "br") (newline o) st;
    st ← when (is_tag e "li") (append_text o (lit "* ")) st;
    st ← when (is_tag e "input") (append_text o (lit "[input]")) st;
    when (is_tag e "img") (append_text o (lit "[image]")) st.

(** Whether an event is about the innermost open element. *)
Definition of_top (e : ProwseEvent) (st : Lowering) : bool :=
  match stack st with
  | s :: outer => (e_depth e =? N.of_nat (length outer))%N && (e_tag e =s s_tag s) && (e_xpath e =s s_path s)
  | [] => false
  end.

Definition on_end (o : GfxOptions) (e : ProwseEvent) (st : Lowering) : result Lowering :=
  _ ← throw_if (negb (of_top e st)) ParseError;
  st ← when (negb (top_hides st) && block (e_tag e)) (newline o) st;
  Ret (with_stack (tail (stack st)) st).

Definition on_text (o : GfxOptions) (e : ProwseEvent) (st : Lowering) : result Lowering :=
  _ ← throw_if (match stack st with s :: _ => negb (e_depth e =? depth_of st)%N || negb (e_tag e =s s_tag s) | [] => true end) ParseError;
  when (negb (top_hides st)) (append_text o (e_value e)) st.

Definition on_event (o : GfxOptions) (e : ProwseEvent) (st : Lowering) : result Lowering :=
  if e_kind e =s lit "start" then on_start o e st
  else if e_kind e =s lit "end" then on_end o e st
  else if e_kind e =s lit "text" then on_text o e st
  else if e_kind e =s lit "attribute" then _ ← throw_if (negb (of_top e st)) ParseError; Ret st
  else Throw ParseError.

Definition lowering_callback (o : GfxOptions) (e : ProwseEvent) (st : Lowering) : Lowering * result EventStreamAction :=
  match on_event o e st with Ret st' => (st', Ret Continue) | Throw x => (st, Throw x) end.

Definition new_lowering : Lowering := {| stack := []; line := []; columns := 0; space := false; bytes_used := 17; lines := [] |}.

Definition emit_gfx_ir (events : ProwseEventStream) (o : GfxOptions) : result bytes :=
  _ ← throw_if (max_event_stream_events <? N.of_nat (length events))%N ResourceLimit;
  _ ← consume_all events new_budget;
  reader ← event_stream_reader events;
  _ ← encode_gfx_frame {| surface := o; f_text := [] |};
  let '(st, answer) := replay (lowering_callback o) true max_event_stream_events reader new_lowering in
  _ ← answer;
  _ ← throw_if (nonempty (stack st)) ParseError;
  st ← newline o st;
  encode_gfx_frame {| surface := o; f_text := lines st |}.

(** ** Back ends *)

Inductive GfxStatus := GfxOk | GfxError | GfxInvalidArgument | GfxUnavailable.

Section Registry.
(** The options of the build. *)
Context (have_x11 have_fltk : bool).

Definition gfx_backends : list (bytes * bool) :=
  [(lit "headless", true); (lit "x11", have_x11); (lit "fltk", have_fltk); (lit "bgfx", false); (lit "imgui", false);
   (lit "wayland", false)].

Definition default_gfx_backend : bytes := if have_fltk then lit "fltk" else if have_x11 then lit "x11" else lit "headless".

(** The name of the definition that [lookup] gives. *)
Definition lookup (name : bytes) : result bytes :=
  if name =s lit "headless" then Ret name
  else if have_x11 && (name =s lit "x11") then Ret name
  else if have_fltk && (name =s lit "fltk") then Ret name
  else if existsb (fun b => b.1 =s name) gfx_backends then Throw Unsupported
  else Throw InvalidArgument.

End Registry.

Definition check_status (value : GfxStatus) : result unit :=
  match value with GfxOk => Ret tt | GfxUnavailable => Throw Unsupported | _ => Throw PluginError end.

Section Backend.
Context {W Instance_ : Type}.

Record GfxDefinition := {
  valid_definition : bool;
  create : GfxOptions -> op W (GfxStatus * option Instance_);
  destroy : Instance_ -> op W unit;
  submit : Instance_ -> bytes -> op W GfxStatus;
  run : Instance_ -> op W GfxStatus }.

Record GfxBackend := { definition : GfxDefinition; instance : Instance_; b_surface : GfxOptions }.

(** [catch (...)]: whatever a call throws is this error. *)
Definition contained {A} (m : op W A) : op W A := fun w => match m w with (Throw _, w') => (Throw PluginError, w') | r => r end.

(** [~Impl], which contains what [destroy] throws. *)
Definition release (d : GfxDefinition) (i : option Instance_) : op W unit := fun w =>
  match i with Some i => (Ret tt, (destroy d i w).2) | None => (Ret tt, w) end.

Definition open_backend (d : GfxDefinition) (o : GfxOptions) : op W GfxBackend :=
  _ ← lift_op (throw_if (negb (valid_definition d)) InvalidArgument);
  _ ← lift_op (encode_gfx_frame {| surface := o; f_text := [] |});
  '(status, i) ← contained (create d o);
  match check_status status, i with
  | Ret _, Some i => mret {| definition := d; instance := i; b_surface := o |}
  | Ret _, None => throw_op PluginError
  | Throw e, _ => _ ← release d i; throw_op e
  end.

Definition close_backend (b : GfxBackend) : op W unit := release (definition b) (Some (instance b)).

Definition submit_frame (b : GfxBackend) (s : bytes) : op W unit :=
  frame ← lift_op (decode_gfx_frame s);
  _ ← lift_op (throw_if (negb (width (surface frame) =? width (b_surface b))%N ||
        negb (height (surface frame) =? height (b_surface b))%N) InvalidArgument);
  status ← contained (submit (definition b) (instance b) s);
  lift_op (check_status status).

Definition run_backend (b : GfxBackend) : op W unit :=
  status ← contained (run (definition b) (instance b));
  lift_op (check_status status).

End Backend.

(** The headless back end: its instance is the frame it was given last. *)
Definition headless_create (o : GfxOptions) : GfxStatus * option GfxFrame :=
  match encode_gfx_frame {| surface := o; f_text := [] |} with
  | Ret _ => (GfxOk, Some {| surface := o; f_text := [] |})
  | Throw _ => (GfxInvalidArgument, None)
  end.

Definition headless_submit (state : GfxFrame) (s : bytes) : GfxStatus * GfxFrame :=
  match decode_gfx_frame s with
  | Ret frame =>
      if negb (width (surface frame) =? width (surface state))%N || negb (height (surface frame) =? height (surface state))%N
      then (GfxInvalidArgument, state) else (GfxOk, frame)
  | Throw _ => (GfxInvalidArgument, state)
  end.

(** ** Bytecode *)

Lemma code_bound c : (code c < 256)%N.
Proof. apply N_ascii_bounded. Qed.

Lemma byte_code c : byte (code c) = c.
Proof. apply ascii_N_embedding. Qed.

Lemma write_four a b c d : (a < 256 -> b < 256 -> c < 256 -> d < 256 ->
  write_u32 (a + 256 * b + 65536 * c + 16777216 * d) = [byte a; byte b; byte c; byte d])%N.
Proof.
  intros Ha Hb Hc Hd. unfold write_u32. change 0xff%N with (N.ones 8). rewrite !N.land_ones, !N.shiftr_div_pow2.
  change (2 ^ 8)%N with 256%N. change (2 ^ 16)%N with 65536%N. change (2 ^ 24)%N with 16777216%N.
  f_equal; [|f_equal; [|f_equal; [|f_equal]]]; f_equal; symmetry.
  - apply (N.mod_unique _ 256 (b + 256 * c + 65536 * d)); lia.
  - rewrite <- (N.div_unique _ 256 (b + 256 * c + 65536 * d) a) by lia. apply (N.mod_unique _ 256 (c + 256 * d)); lia.
  - rewrite <- (N.div_unique _ 65536 (c + 256 * d) (a + 256 * b)) by lia. apply (N.mod_unique _ 256 d); lia.
  - rewrite <- (N.div_unique _ 16777216 d (a + 256 * b + 65536 * c)) by lia. apply (N.mod_unique _ 256 0); lia.
Qed.

Lemma read_four a b c d : (a < 256 -> b < 256 -> c < 256 -> d < 256 ->
  N.lor (N.lor (N.lor a (N.shiftl b 8)) (N.shiftl c 16)) (N.shiftl d 24) = a + 256 * b + 65536 * c + 16777216 * d)%N.
Proof.
  intros Ha Hb Hc Hd.
  rewrite (N.lor_comm a), (lor_shiftl _ 8) by exact Ha. change (2 ^ 8)%N with 256%N.
  rewrite (N.lor_comm (_ + _)), (lor_shiftl _ 16) by (change (2 ^ 16)%N with 65536%N; lia). change (2 ^ 16)%N with 65536%N.
  rewrite (N.lor_comm (_ + _)), (lor_shiftl _ 24) by (change (2 ^ 24)%N with 16777216%N; lia). change (2 ^ 24)%N with 16777216%N. lia.
Qed.

Lemma read_u32_sound s n r : read_u32 s = Some (n, r) -> s = write_u32 n ++ r /\ (n < 2 ^ 32)%N.
Proof.
  intros H. destruct s as [|b0 [|b1 [|b2 [|b3 s]]]]; try discriminate H. cbn [read_u32] in H. injection H as Hn <-.
  pose proof (code_bound b0). pose proof (code_bound b1). pose proof (code_bound b2). pose proof (code_bound b3).
  rewrite read_four in Hn by assumption. subst n. rewrite write_four, !byte_code by assumption. split; [reflexivity|].
  change (2 ^ 32)%N with 4294967296%N. lia.
Qed.

Lemma read_Ret s n r : read s = Ret (n, r) <-> s = write_u32 n ++ r /\ (n < 2 ^ 32)%N.
Proof.
  unfold read. split.
  - destruct (read_u32 s) as [[m t]|] eqn:E; [|done]. intros [= <- <-]. by apply read_u32_sound.
  - intros [-> H]. by rewrite read_write_u32.
Qed.

Lemma throw_if_true b e : throw_if b e = Ret tt <-> b = false.
Proof. by destruct b. Qed.

(** A command that a frame may hold. *)
Definition command_ok (o : GfxOptions) (c : GfxText) : Prop :=
  (g_x c < width o)%N /\ (g_y c <= max_gfx_content_height)%N /\ (N.of_nat (length (g_text c)) <= max_gfx_text_bytes)%N /\
  valid_text (g_text c) = true.

Lemma check_Ret o c u : check c o = Ret u <-> command_ok o c.
Proof.
  unfold check, command_ok. rewrite throw_if_Ret, !orb_false_iff, N.leb_gt, !N.ltb_ge, negb_false_iff. tauto.
Qed.

Definition options_ok (o : GfxOptions) : Prop :=
  (0 < width o <= max_gfx_dimension)%N /\ (0 < height o <= max_gfx_dimension)%N.

Lemma dimensions_Ret o u : dimensions o = Ret u <-> options_ok o.
Proof. unfold dimensions, options_ok. rewrite throw_if_Ret, !orb_false_iff, !N.eqb_neq, !N.ltb_ge. lia. Qed.

Lemma frame_size_Ret o l : forall size n, (size <= max_gfx_bytes)%N ->
  frame_size o l size = Ret n <-> Forall (command_ok o) l /\ n = (size + sumN command_size l)%N /\ (n <= max_gfx_bytes)%N.
Proof.
  induction l as [|c l IH]; intros size n Hs; cbn [frame_size sumN foldr].
  - rewrite N.add_0_r. split; [intros [= <-]; split_and!; [constructor|done|done]|by intros (_ & -> & _)].
  - rewrite bind_Ret. setoid_rewrite check_Ret. setoid_rewrite bind_Ret. setoid_rewrite throw_if_Ret.
    rewrite size_sub_exact by done. setoid_rewrite N.ltb_ge. fold (sumN command_size l). rewrite Forall_cons. split.
    + intros (_ & Hc & _ & Hf & H). apply IH in H; [|lia]. destruct H as (H1 & H2 & H3). split_and!; [done|done|lia|done].
    + intros ([Hc Hl] & Hn & Hb). exists tt. split; [done|]. exists tt. split; [lia|]. apply IH; [lia|]. split_and!; [done|lia|done].
Qed.

Lemma command_bytes_length c : N.of_nat (length (command_bytes c)) = command_size c.
Proof. unfold command_bytes, command_size, write_bytes. cbn [length]. rewrite !length_app, !write_u32_length. lia. Qed.

Lemma commands_length l : N.of_nat (length (mjoin (command_bytes <$> l))) = sumN command_size l.
Proof.
  induction l as [|c l IH]; [done|]. rewrite mjoin_fmap_cons, length_app, Nat2N.inj_add, IH, command_bytes_length. done.
Qed.

Lemma u32_small n m : (n <= m)%N -> (m <= max_gfx_bytes)%N -> (n < 2 ^ 32)%N.
Proof. unfold max_gfx_bytes. change (2 ^ 32)%N with 4294967296%N. lia. Qed.

Lemma write_bytes_small t : (N.of_nat (length t) <= max_gfx_text_bytes)%N -> write_bytes t = write_u32 (N.of_nat (length t)) ++ t.
Proof. intros H. unfold write_bytes, to_u32. rewrite N.mod_small; [done|]. by apply (u32_small _ _ H). Qed.

Lemma decode_command_Ret o s c r : options_ok o ->
  decode_command o s = Ret (c, r) <-> s = command_bytes c ++ r /\ command_ok o c.
Proof.
  intros [[_ Hw] _]. split.
  - unfold decode_command. destruct s as [|op s]; [done|]. intros (u & Hop & H)%bind_Ret. apply throw_if_Ret in Hop.
    apply bind_Ret in H as ([x s1] & Hx%read_Ret & H). apply bind_Ret in H as ([y s2] & Hy%read_Ret & H).
    apply bind_Ret in H as ([len s3] & Hl%read_Ret & H). apply bind_Ret in H as (u2 & Hlen & H). apply throw_if_Ret in Hlen.
    apply bind_Ret in H as (u3 & Hc%check_Ret & [= <- <-]). split; [|done].
    apply negb_false_iff, N.eqb_eq in Hop. apply orb_false_iff in Hlen as [_ Hlen%N.ltb_ge].
    destruct Hx as [-> _], Hy as [-> _], Hl as [-> _]. unfold command_bytes. cbn [g_x g_y g_text].
    rewrite write_bytes_small by (destruct Hc as (_ & _ & Hc & _); exact Hc). rewrite length_take_le by lia. rewrite N2Nat.id.
    rewrite <- (byte_code op), Hop. cbn [app]. rewrite <- !app_assoc, take_drop. done.
  - intros [-> Hc]. destruct Hc as (Hx & Hy & Ht & Hv). unfold decode_command, command_bytes. rewrite write_bytes_small by done.
    cbn [app]. rewrite code_byte by lia. cbn [N.eqb Pos.eqb negb throw_if mbind result_bind]. rewrite <- !app_assoc.
    assert (forall n t, (n <= max_gfx_bytes)%N -> read (write_u32 n ++ t) = Ret (n, t)) as Hread
      by (intros n t Hn; apply read_Ret; split; [done|by apply (u32_small n n)]).
    unfold max_gfx_bytes, max_gfx_dimension, max_gfx_content_height, max_gfx_text_bytes in *.
    rewrite Hread by lia. cbn [mbind result_bind]. rewrite Hread by lia. cbn [mbind result_bind]. rewrite Hread by lia.
    cbn [mbind result_bind]. rewrite (proj2 (N.ltb_ge _ _)) by exact Ht.
    rewrite (proj2 (N.ltb_ge _ _)) by (rewrite length_app; lia). cbn [orb throw_if mbind result_bind].
    rewrite Nat2N.id, take_app_length, drop_app_length.
    assert (forall u, check {| g_x := g_x c; g_y := g_y c; g_text := g_text c |} o = Ret u) as Hchk
      by (intros u; apply check_Ret; by destruct c).
    rewrite (Hchk tt). cbn [mbind result_bind]. by destruct c.
Qed.

Lemma decode_commands_Ret o n : options_ok o -> forall s l r,
  decode_commands o n s = Ret (l, r) <-> s = mjoin (command_bytes <$> l) ++ r /\ Forall (command_ok o) l /\ length l = n.
Proof.
  intros Ho. induction n as [|n IH]; intros s l r; cbn [decode_commands].
  - split; [intros [= <- <-]; by repeat constructor|]. intros (-> & _ & H). by destruct l.
  - rewrite bind_Ret. split.
    + intros ([c s1] & [-> Hc]%decode_command_Ret & H); [|done]. apply bind_Ret in H as ([l1 r1] & H%IH & [= <- <-]).
      destruct H as (-> & H1 & H2). rewrite mjoin_fmap_cons, app_assoc. split; [done|]. split; [by constructor|by cbn [length]; f_equal].
    + intros (-> & Hl & Hn). destruct l as [|c l]; [done|]. apply Forall_cons in Hl as [Hc Hl].
      exists (c, mjoin (command_bytes <$> l) ++ r). split; [apply decode_command_Ret; [done|]; by rewrite mjoin_fmap_cons, <- app_assoc|].
      cbn. rewrite (proj2 (IH _ l r)); [done|]. split_and!; [done|done|]. by injection Hn.
Qed.

(** What frames the format holds. *)
Definition frame_ok (f : GfxFrame) : Prop :=
  options_ok (surface f) /\ (N.of_nat (length (f_text f)) <= max_gfx_commands)%N /\ Forall (command_ok (surface f)) (f_text f) /\
  (17 + sumN command_size (f_text f) <= max_gfx_bytes)%N.

Definition frame_bytes (f : GfxFrame) : bytes :=
  gfx_magic ++ write_u32 (width (surface f)) ++ write_u32 (height (surface f)) ++ write_u32 (N.of_nat (length (f_text f))) ++
  mjoin (command_bytes <$> f_text f).

Lemma encode_Ret f s : encode_gfx_frame f = Ret s <-> frame_ok f /\ s = frame_bytes f.
Proof.
  unfold encode_gfx_frame, frame_ok. rewrite bind_Ret. setoid_rewrite dimensions_Ret. setoid_rewrite bind_Ret.
  setoid_rewrite throw_if_Ret. setoid_rewrite N.ltb_ge. setoid_rewrite bind_Ret.
  assert (forall n, frame_size (surface f) (f_text f) 17 = Ret n <-> _) as Hf by (intros n; apply frame_size_Ret; unfold max_gfx_bytes; lia).
  setoid_rewrite Hf. split.
  - intros (_ & Ho & _ & Hc & n & (Hl & Hn' & Hn) & H).
    subst n. assert (s = frame_bytes f) as -> by (unfold frame_bytes; congruence). split; [|reflexivity]. split; [exact Ho|]. split; [exact Hc|]. by split.
  - intros ((Ho & Hc & Hl & Hn) & ->). exists tt. split; [done|]. exists tt. split; [done|]. eexists. split; [split; [exact Hl|]; split; [reflexivity|exact Hn]|reflexivity].
Qed.

Lemma frame_bytes_length f : N.of_nat (length (frame_bytes f)) = (17 + sumN command_size (f_text f))%N.
Proof. unfold frame_bytes. rewrite !length_app, !write_u32_length, !Nat2N.inj_add, commands_length. change (length gfx_magic) with 5. lia. Qed.

Lemma sum_commands l : (13 * N.of_nat (length l) <= sumN command_size l)%N.
Proof. induction l as [|c l IH]; [done|]. cbn [length sumN foldr]. fold (sumN command_size l). unfold command_size at 1. lia. Qed.

Lemma decode_Ret f s : decode_gfx_frame s = Ret f <-> frame_ok f /\ s = frame_bytes f.
Proof.
  split.
  - unfold decode_gfx_frame. intros (u & H1 & H)%bind_Ret. apply throw_if_Ret in H1.
    apply orb_false_iff in H1 as [[_ H1%N.ltb_ge]%orb_false_iff Hm%negb_false_iff].
    apply starts_with_spec in Hm. change (length gfx_magic) with 5 in Hm.
    apply bind_Ret in H as ([w s1] & [Hw _]%read_Ret & H). apply bind_Ret in H as ([h s2] & [Hh _]%read_Ret & H).
    apply bind_Ret in H as (u2 & Ho & H). destruct (dimensions {| width := w; height := h |}) as [u3|] eqn:Ed; [|done].
    apply dimensions_Ret in Ed. apply bind_Ret in H as ([n s3] & [Hn _]%read_Ret & H).
    apply bind_Ret in H as (u4 & Hc & H). apply throw_if_Ret, orb_false_iff in Hc as [Hc%N.ltb_ge _].
    apply bind_Ret in H as ([l r] & Hl%decode_commands_Ret & H); [|done]. destruct Hl as (-> & Hok & Hlen).
    apply bind_Ret in H as (u5 & Hr & [= <-]). apply throw_if_Ret in Hr. destruct r; [|done]. rewrite app_nil_r in *.
    assert (N.of_nat (length l) = n) as <- by lia.
    assert (s = frame_bytes {| surface := {| width := w; height := h |}; f_text := l |}) as E
      by (rewrite Hm, Hw, Hh, Hn; reflexivity).
    split; [|done]. split_and!; try done. by rewrite E, frame_bytes_length in H1.
  - intros [(Ho & Hc & Hok & Hn) ->]. pose proof (frame_bytes_length f) as Hlen. pose proof (sum_commands (f_text f)) as Hs.
    unfold decode_gfx_frame. rewrite Hlen, (proj2 (N.ltb_ge _ _)), (proj2 (N.ltb_ge _ _)) by lia.
    unfold frame_bytes. rewrite starts_with_app. cbn [orb negb throw_if mbind result_bind].
    change (drop 5 (gfx_magic ++ ?t)) with t.
    assert (forall n t, (n <= max_gfx_bytes)%N -> read (write_u32 n ++ t) = Ret (n, t)) as Hread
      by (intros n t Hm; apply read_Ret; split; [done|by apply (u32_small n n)]).
    destruct Ho as [[Hw1 Hw2] [Hh1 Hh2]]. unfold max_gfx_bytes, max_gfx_dimension, max_gfx_commands in *.
    rewrite Hread by lia. cbn [mbind result_bind]. rewrite Hread by lia. cbn [mbind result_bind].
    assert (dimensions {| width := width (surface f); height := height (surface f) |} = Ret tt) as ->
      by (apply dimensions_Ret; repeat split; unfold max_gfx_dimension; simpl; lia). cbn [mbind result_bind].
    rewrite Hread by lia. cbn [mbind result_bind]. rewrite (proj2 (N.ltb_ge _ _)) by exact Hc.
    rewrite (proj2 (N.ltb_ge _ _)) by (rewrite commands_length; apply N.div_le_lower_bound; lia). cbn [orb throw_if mbind result_bind].
    assert (decode_commands {| width := width (surface f); height := height (surface f) |} (N.to_nat (N.of_nat (length (f_text f))))
      (mjoin (command_bytes <$> f_text f)) = Ret (f_text f, [])) as ->; [|by destruct f as [[] ?]].
    apply decode_commands_Ret; [repeat split; unfold max_gfx_dimension; simpl; lia|]. rewrite app_nil_r, Nat2N.id.
    split_and!; done.
Qed.

(** C27: Bytecode and frames correspond one to one: a byte string decodes to a frame exactly when
    the frame can be encoded and its encoding is that string.  So what is encoded decodes to
    the same frame, and the decoder accepts no other spelling of a frame, nothing behind it,
    and no frame beyond the limits. *)
Theorem gfx_bytecode (s : bytes) (f : GfxFrame) : decode_gfx_frame s = Ret f <-> encode_gfx_frame f = Ret s.
Proof. rewrite decode_Ret, encode_Ret. naive_solver. Qed.

(** ** Lowering *)

(** A character that leaves something on a line, and the text that does. *)
Definition is_ink (c : ascii) : bool := negb ((code c <=? 32)%N || (code c =? 127)%N).
Definition ink (s : bytes) : bytes := List.filter is_ink s.

(** One character: a first byte and those that belong to it. *)
Definition cell (c : bytes) : Prop :=
  match c with [] => False | a :: _ => N.of_nat (length c) = sequence_length (code a) end.

Definition cells (s : bytes) (n : N) : Prop :=
  exists l, s = mjoin l /\ Forall cell l /\ N.of_nat (length l) = n.

(** A line at its place, of at most so many characters. *)
Definition line_ok (o : GfxOptions) (i : nat) (t : GfxText) : Prop :=
  g_x t = N.min 16 (width o - 1) /\ g_y t = (16 + N.of_nat i * 18)%N /\ g_text t <> [] /\
  exists n, cells (g_text t) n /\ (n <= line_width o)%N.

Definition lines_ok (o : GfxOptions) (l : list GfxText) : Prop := forall i t, l !! i = Some t -> line_ok o i t.

Record lowering_ok (o : GfxOptions) (st : Lowering) : Prop := {
  ok_lines : lines_ok o (lines st);
  ok_cells : cells (line st) (columns st);
  ok_width : (columns st <= line_width o)%N }.

(** What was put on lines so far. *)
Definition shown (st : Lowering) : bytes := mjoin (g_text <$> lines st) ++ line st.

Lemma ink_app a b : ink (a ++ b) = ink a ++ ink b.
Proof. apply List.filter_app. Qed.

Lemma cells_nil n : cells [] n -> n = 0%N.
Proof. intros (l & E & Hl & <-). destruct Hl as [|c l Hc Hl]; [done|]. destruct c; [done|discriminate E]. Qed.

Lemma cells_add s n c : cells s n -> cell c -> cells (s ++ c) (n + 1).
Proof.
  intros (l & -> & Hl & <-) Hc. exists (l ++ [c]). split; [by rewrite join_app; cbn [mjoin list_join]; rewrite app_nil_r|].
  split; [by apply Forall_app; repeat constructor|rewrite length_app; cbn [length]; lia].
Qed.

Definition gfx_error (e : ErrorCode) : Prop := e = ParseError \/ e = ResourceLimit.

Lemma newline_spec o st : lowering_ok o st ->
  outcome gfx_error (fun st' => lowering_ok o st' /\ stack st' = stack st /\ line st' = [] /\ columns st' = 0%N /\ space st' = false /\
    shown st' = shown st) (newline o st).
Proof.
  intros [H1 H2 H3]. unfold newline. destruct (line st) as [|c r] eqn:E.
  - apply cells_nil in H2 as H0. unfold shown. cbn. rewrite E, H0. split_and!; try done.
    split; cbn; [exact H1|by rewrite E|exact H3].
  - rewrite <- E in *. apply outcome_throw_if; [by right|]. intros _. unfold shown. cbn. rewrite fmap_app, join_app. cbn.
    rewrite !app_nil_r. split_and!; try done. split; cbn; [|by exists []|lia].
    intros i t Ht. apply lookup_app_Some in Ht as [Ht|[Hi Ht]]; [by apply H1|].
    apply list_lookup_singleton_Some in Ht as [Hi' <-]. split_and!; cbn; [done|unfold line_count; f_equal; lia|by rewrite E|].
    by exists (columns st).
Qed.

Lemma line_width_pos o : (1 <= line_width o)%N.
Proof. unfold line_width. lia. Qed.

Lemma space_cell : cell (lit " ").
Proof. done. Qed.

Lemma put_char_spec o st c : lowering_ok o st -> cell c ->
  (columns st + (if space st then 1 else 0) + 1 <= line_width o)%N ->
  lowering_ok o (put_char c st) /\ stack (put_char c st) = stack st /\ ink (shown (put_char c st)) = ink (shown st ++ c).
Proof.
  intros [H1 H2 H3] Hc Hw. unfold put_char, shown. destruct (space st); cbn; (split; [split; cbn|split; [done|]]).
  - done.
  - by apply cells_add; [apply cells_add; [|apply space_cell]|].
  - lia.
  - rewrite !ink_app. by rewrite app_nil_r, !app_assoc.
  - done.
  - by apply cells_add.
  - lia.
  - by rewrite app_assoc.
Qed.

Lemma append_loop_spec o fuel : forall text st, length text <= fuel -> lowering_ok o st ->
  outcome gfx_error (fun st' => lowering_ok o st' /\ stack st' = stack st /\ ink (shown st') = ink (shown st ++ text))
    (append_loop o fuel text st).
Proof.
  induction fuel as [|fuel IH]; intros [|a rest] st Hf Hok; try (cbn; by rewrite app_nil_r); [cbn in Hf; lia|]. cbn [append_loop].
  destruct ((code a <=? 32)%N || (code a =? 127)%N) eqn:Eb.
  - eapply outcome_impl; [apply IH; [cbn in Hf; lia|]|].
    + destruct Hok. by split.
    + cbn beta. intros st' (G1 & G2 & G3). split_and!; [done|done|]. rewrite G3, !ink_app. unfold shown, ink. cbn.
      unfold is_ink at 4. by rewrite Eb.
  - apply outcome_throw_if; [by left|]. intros [En%N.eqb_neq El%N.ltb_ge]%orb_false_iff.
    set (n := sequence_length (code a)) in *. set (text := a :: rest) in *.
    assert (cell (take (N.to_nat n) text)) as Hcell.
    { unfold text. destruct (N.to_nat n) as [|m] eqn:Em; [lia|]. cbn [take cell]. fold n.
      cbn [length]. rewrite length_take. subst text. cbn [length] in El. lia. }
    apply (outcome_bind _ (fun st1 => lowering_ok o st1 /\ stack st1 = stack st /\ shown st1 = shown st /\
      (columns st1 + (if space st1 then 1 else 0) + 1 <= line_width o)%N)).
    + destruct ((line_width o <=? _)%N || _) eqn:E.
      * eapply outcome_impl; [by apply newline_spec|]. intros st1 (G1 & G2 & G3 & G4 & G5 & G6). rewrite G4, G5.
        pose proof (line_width_pos o). by split_and!.
      * apply orb_false_iff in E as [E%N.leb_gt _]. cbn. split_and!; try done. lia.
    + intros st1 (G1 & G2 & G3 & G4). destruct (put_char_spec o st1 _ G1 Hcell G4) as (P1 & P2 & P3).
      eapply outcome_impl; [apply IH; [|exact P1]|].
      * rewrite length_drop. unfold text in *. cbn [length] in *. lia.
      * cbn beta. intros st' (Q1 & Q2 & Q3). split_and!; [done|congruence|].
        rewrite Q3, ink_app, P3, G3, <- ink_app, <- app_assoc, take_drop. done.
Qed.

Lemma append_text_spec o text st : lowering_ok o st ->
  outcome gfx_error (fun st' => lowering_ok o st' /\ stack st' = stack st /\ ink (shown st') = ink (shown st ++ text)) (append_text o text st).
Proof. by apply append_loop_spec. Qed.

(** What an event shows, below an element that may hide it. *)
Definition event_text (hide : bool) (e : ProwseEvent) : bytes :=
  if e_kind e =s lit "start" then
    if hide || hidden e then []
    else (if is_tag e "li" then lit "* " else []) ++ (if is_tag e "input" then lit "[input]" else []) ++
         (if is_tag e "img" then lit "[image]" else [])
  else if e_kind e =s lit "text" then (if hide then [] else e_value e)
  else [].

(** The open elements behind an event: whether each is hidden. *)
Definition open_after (hides : list bool) (e : ProwseEvent) : list bool :=
  if e_kind e =s lit "start" then (default false (head hides) || hidden e) :: hides
  else if e_kind e =s lit "end" then tail hides
  else hides.

Fixpoint visible_text (hides : list bool) (l : ProwseEventStream) : bytes :=
  match l with
  | [] => []
  | e :: l' => event_text (default false (head hides)) e ++ visible_text (open_after hides e) l'
  end.

Definition hides_of (st : Lowering) : list bool := s_hide <$> stack st.

Lemma hides_top st : default false (head (hides_of st)) = top_hides st.
Proof. unfold hides_of, top_hides. by destruct (stack st). Qed.

(** What a step promises: the open elements, and what it shows. *)
Definition shows (o : GfxOptions) (scopes : list Scope) (text : bytes) (m : result Lowering) : Prop :=
  outcome gfx_error (fun st' => lowering_ok o st' /\ stack st' = scopes /\ ink (shown st') = ink text) m.

Lemma shows_ret o st text : lowering_ok o st -> ink (shown st) = ink text -> shows o (stack st) text (Ret st).
Proof. by intros H1 H2. Qed.

Lemma shows_stack o st l : lowering_ok o st -> lowering_ok o (with_stack l st).
Proof. by intros []. Qed.

Lemma shows_when o b f st text : lowering_ok o st -> (b = true -> shows o (stack st) (shown st ++ text) (f st)) ->
  shows o (stack st) (shown st ++ (if b then text else [])) (when b f st).
Proof. intros Hok H. unfold when. destruct b; [by apply H|]. rewrite app_nil_r. by apply shows_ret. Qed.

Lemma shows_newline o st : lowering_ok o st -> shows o (stack st) (shown st ++ []) (newline o st).
Proof.
  intros H. eapply outcome_impl; [by apply newline_spec|]. intros st' (H1 & H2 & _ & _ & _ & H3).
  rewrite app_nil_r, <- H3. done.
Qed.

Lemma shows_bind o scopes text text' m f :
  shows o scopes text m -> (forall st, lowering_ok o st -> stack st = scopes -> shows o scopes (shown st ++ text') (f st)) ->
  shows o scopes (text ++ text') (st ← m; f st).
Proof.
  intros Hm Hf. eapply outcome_bind; [exact Hm|]. intros st (H1 & H2 & H3).
  eapply outcome_impl; [by apply Hf|]. intros st' (G1 & G2 & G3). split_and!; [done|done|]. by rewrite G3, !ink_app, H3.
Qed.

Lemma on_start_spec o e st : lowering_ok o st ->
  outcome gfx_error (fun st' => lowering_ok o st' /\ hides_of st' = (top_hides st || hidden e) :: hides_of st /\
    ink (shown st') = ink (shown st ++ (if top_hides st || hidden e then []
      else (if is_tag e "li" then lit "* " else []) ++ (if is_tag e "input" then lit "[input]" else []) ++
           (if is_tag e "img" then lit "[image]" else [])))) (on_start o e st).
Proof.
  intros Hok. unfold on_start. apply outcome_throw_if; [by left|]. intros _.
  set (scope := {| s_tag := e_tag e; s_path := e_xpath e; s_hide := top_hides st || hidden e |}).
  assert (lowering_ok o (with_stack (scope :: stack st) st)) as Hs by by apply shows_stack.
  destruct (top_hides st || hidden e) eqn:Eh.
  - cbn. rewrite app_nil_r. by split_and!.
  - assert (forall text, (forall st', lowering_ok o st' /\ stack st' = scope :: stack st /\ ink (shown st') = ink text ->
      lowering_ok o st' /\ hides_of st' = false :: hides_of st /\ ink (shown st') = ink text)) as Hend.
    { intros text st' (H1 & H2 & H3). split_and!; [done| |done]. unfold hides_of. by rewrite H2. }
    match goal with |- outcome _ _ ?m => assert (shows o (scope :: stack st) ((shown st ++ []) ++
      (if is_tag e "li" then lit "* " else []) ++ (if is_tag e "input" then lit "[input]" else []) ++
      (if is_tag e "img" then lit "[image]" else [])) m) as H end;
      [|eapply outcome_impl; [exact H|]; rewrite app_nil_r; apply Hend].
    apply (shows_bind o (scope :: stack st) (shown st ++ [])).
    { rewrite <- (app_nil_r (shown st ++ [])). unfold when. destruct (block _ || is_tag _ _).
      - rewrite app_nil_r. by apply (shows_newline o (with_stack (scope :: stack st) st)).
      - rewrite !app_nil_r. by apply (shows_ret o (with_stack (scope :: stack st) st)). }
    intros st1 H1 E1. rewrite app_assoc. apply shows_bind.
    { rewrite <- E1. apply shows_when; [done|]. intros _. by apply append_text_spec. }
    intros st2 H2 E2. rewrite app_assoc. apply shows_bind.
    { rewrite <- E2. apply shows_when; [done|]. intros _. by apply append_text_spec. }
    intros st3 H3 E3. rewrite <- E3. apply shows_when; [done|]. intros _. by apply append_text_spec.
Qed.

Lemma outcome_weaken {A} (E E' : ErrorCode -> Prop) (P : A -> Prop) m :
  (forall e, E e -> E' e) -> outcome E P m -> outcome E' P m.
Proof. destruct m; simpl; auto. Qed.

Lemma on_event_spec o e st : lowering_ok o st ->
  outcome gfx_error (fun st' => lowering_ok o st' /\ hides_of st' = open_after (hides_of st) e /\
    ink (shown st') = ink (shown st ++ event_text (default false (head (hides_of st))) e)) (on_event o e st).
Proof.
  intros Hok. rewrite hides_top. unfold on_event, event_text, open_after. rewrite hides_top.
  destruct (e_kind e =s lit "start") eqn:K1; [by apply on_start_spec|].
  destruct (e_kind e =s lit "end") eqn:K2.
  - apply eqb_bytes_true in K2. rewrite K2. change (lit "end" =s lit "text") with false. cbv iota.
    unfold on_end. apply outcome_throw_if; [by left|]. intros _.
    apply (outcome_bind _ (fun st' => lowering_ok o st' /\ stack st' = stack st /\ ink (shown st') = ink (shown st ++ []))).
    + unfold when. destruct (negb _ && _); [by apply shows_newline|]. cbn. by rewrite app_nil_r.
    + intros st' (H1 & H2 & H3). cbn. split_and!; [by apply shows_stack| |exact H3]. unfold hides_of. cbn. rewrite H2.
      by destruct (stack st).
  - destruct (e_kind e =s lit "text") eqn:K3.
    + unfold on_text. apply outcome_throw_if; [by left|]. intros _.
      assert (shows o (stack st) (shown st ++ (if negb (top_hides st) then e_value e else []))
        (when (negb (top_hides st)) (append_text o (e_value e)) st)) as H
        by (apply shows_when; [done|]; intros _; by apply append_text_spec).
      eapply outcome_impl; [exact H|]. intros st' (H1 & H2 & H3). unfold hides_of. rewrite H2.
      split_and!; [done|done|]. rewrite H3. by destruct (top_hides st).
    + destruct (e_kind e =s lit "attribute"); [|by left]. apply outcome_throw_if; [by left|]. intros _. cbn.
      by rewrite app_nil_r.
Qed.

Lemma replay_spec_gfx o l : forall st, lowering_ok o st ->
  let '(st', answer) := replay_loop (lowering_callback o) l st in
  outcome gfx_error (fun _ => lowering_ok o st' /\ ink (shown st') = ink (shown st ++ visible_text (hides_of st) l)) answer.
Proof.
  induction l as [|e l IH]; intros st Hok; cbn [replay_loop visible_text]; [cbn; by rewrite app_nil_r|].
  pose proof (on_event_spec o e st Hok) as H. unfold lowering_callback at 1. destruct (on_event o e st) as [st1|x]; [|exact H].
  destruct H as (H1 & H2 & H3). specialize (IH st1 H1). destruct (replay_loop (lowering_callback o) l st1) as [st' answer].
  eapply outcome_impl; [exact IH|]. cbn beta. intros _ [G1 G2]. split; [done|].
  rewrite G2, ink_app, H3, H2, <- ink_app, <- app_assoc. done.
Qed.

Lemma consume_all_reader l b : consume_all l new_budget = Ret b -> (N.of_nat (length l) <= max_event_stream_events)%N ->
  event_stream_reader l = Ret l.
Proof.
  intros Hb Hl. unfold event_stream_reader. rewrite (proj2 (N.ltb_ge _ _)) by exact Hl. cbn [throw_if mbind result_bind]. by rewrite Hb.
Qed.

Lemma consume_all_error l : forall b, outcome (fun e => e = ResourceLimit) (fun _ => True) (consume_all l b).
Proof.
  assert (forall s b, outcome (fun e => e = ResourceLimit) (fun _ => True) (charge_all s b)) as Hc.
  { induction s as [|x s IH]; intros b; [done|]. cbn [charge_all]. apply (outcome_bind _ (fun _ => True)); [|intros b' _; apply IH].
    unfold charge. cbv zeta. apply (outcome_throw_if (fun e => e = ResourceLimit)); [reflexivity|]. intros _. exact I. }
  induction l as [|e l IH]; intros b; [done|]. cbn [consume_all]. apply (outcome_bind _ (fun _ => True)); [|intros b' _; apply IH].
  unfold consume. apply outcome_throw_if; [done|]. intros _. apply Hc.
Qed.

Lemma encode_error f : options_ok (surface f) -> outcome gfx_error (fun s => frame_ok f /\ s = frame_bytes f) (encode_gfx_frame f).
Proof.
  intros Ho. destruct (encode_gfx_frame f) as [s|e] eqn:E; cbn; [by apply encode_Ret|]. revert E. unfold encode_gfx_frame.
  rewrite (proj2 (dimensions_Ret _ tt) Ho). cbn [mbind result_bind].
  assert (forall l n, outcome gfx_error (fun _ => True) (frame_size (surface f) l n)) as Hf.
  { induction l as [|c l IH]; intros n; [done|]. cbn [frame_size]. unfold check.
    apply outcome_throw_if; [by left|]. intros _. apply outcome_throw_if; [by right|]. intros _. apply IH. }
  destruct (max_gfx_commands <? _)%N; cbn [throw_if mbind result_bind]; [intros [= <-]; by right|].
  specialize (Hf (f_text f) 17%N). destruct (frame_size (surface f) (f_text f) 17) as [n|e']; [done|]. by intros [= <-].
Qed.

(** The preview of a page always ends, with an error (bad dimensions, a stream that is not
    well formed, a limit) or with bytecode of the surface that was asked for.  Its lines lie
    below one another, eighteen pixels apart, and none is empty or longer than fits the
    surface; and, spaces apart, they read exactly the text of the elements that are not hidden,
    in the order of the page, with the markers of list items, inputs and images: nothing of a
    hidden element, an attribute or a control is in it, and nothing visible is lost. *)
Theorem gfx_preview events o :
  outcome (fun e => gfx_error e \/ (e = InvalidArgument /\ ~ options_ok o))
    (fun s => exists f, decode_gfx_frame s = Ret f /\ surface f = o /\ lines_ok o (f_text f) /\
       ink (mjoin (g_text <$> f_text f)) = ink (visible_text [] events))
    (emit_gfx_ir events o).
Proof.
  unfold emit_gfx_ir. apply outcome_throw_if; [left; by right|]. intros Hlen%N.ltb_ge.
  pose proof (consume_all_error events new_budget) as Hb.
  destruct (consume_all events new_budget) as [b|e] eqn:Eb; [|cbn in Hb; subst e; left; by right].
  cbn [mbind result_bind]. rewrite (consume_all_reader _ _ Eb Hlen). cbn [mbind result_bind]. clear Hb.
  destruct (encode_gfx_frame {| surface := o; f_text := [] |}) as [s0|e] eqn:E0.
  2: { cbn. revert E0. unfold encode_gfx_frame. cbn. intros E0. right. destruct (dimensions o) as [u|e'] eqn:Ed; [discriminate E0|].
    injection E0 as <-. split; [revert Ed; unfold dimensions; by destruct (_ || _); [intros [= <-]|]|].
    intros H. by rewrite (proj2 (dimensions_Ret o tt) H) in Ed. }
  apply encode_Ret in E0 as [(Ho & _) _]. cbn [surface] in Ho. cbn [mbind result_bind].
  unfold replay. rewrite (proj2 (N.ltb_ge _ _) Hlen). cbn [negb]. change (max_event_stream_events <? max_event_stream_events)%N with false.
  assert (lowering_ok o new_lowering) as H0 by (split; cbn; [done|by exists []|pose proof (line_width_pos o); lia]).
  pose proof (replay_spec_gfx o events new_lowering H0) as Hr.
  destruct (replay_loop (lowering_callback o) events new_lowering) as [st answer].
  destruct answer as [u|e]; [|by left]. destruct Hr as [Hok Hink]. cbn [mbind result_bind].
  apply outcome_throw_if; [left; by left|]. intros _.
  eapply outcome_bind; [eapply outcome_impl; [|intros st' H; exact H]; eapply (outcome_weaken gfx_error); [by left|by apply newline_spec]|].
  cbn beta. intros st' (G1 & _ & G3 & _ & _ & G6).
  eapply (outcome_weaken gfx_error); [by left|]. eapply outcome_impl; [by apply encode_error|]. intros s [Hf ->].
  eexists. split; [by apply decode_Ret|]. split; [done|]. split; [apply G1|]. cbn [f_text].
  unfold shown in G6. rewrite G3, app_nil_r in G6. rewrite G6. exact Hink.
Qed.

(** ** Back ends *)

(** A back end is only given bytecode of a frame for its own surface. *)
Lemma submit_checked {W I : Type} (b : @GfxBackend W I) s w r w' : submit_frame b s w = (r, w') ->
  w' = w \/ exists f, decode_gfx_frame s = Ret f /\ surface f = b_surface b /\ w' = (submit (definition b) (instance b) s w).2.
Proof.
  unfold submit_frame. intros H. rewrite op_bind_eq in H. unfold lift_op in H at 1.
  destruct (decode_gfx_frame s) as [f|e]; [|injection H as _ <-; by left]. rewrite op_bind_eq in H. unfold lift_op in H at 1.
  destruct (throw_if _ _) as [u|e] eqn:E; [|injection H as _ <-; by left].
  apply throw_if_Ret, orb_false_iff in E as [E1%negb_false_iff%N.eqb_eq E2%negb_false_iff%N.eqb_eq].
  right. exists f. split; [done|]. split; [destruct (surface f), (b_surface b); cbn in *; congruence|].
  rewrite op_bind_eq in H. unfold contained in H. destruct (submit (definition b) (instance b) s w) as [[status|e] w1]; cbn in H; by injection H as _ <-.
Qed.

(** A create that fails is undone, and what it leaves is released once. *)
Lemma open_released {W I : Type} (d : @GfxDefinition W I) o w status i w1 e :
  valid_definition d = true -> options_ok o -> create d o w = (Ret (status, Some i), w1) -> check_status status = Throw e ->
  open_backend d o w = (Throw e, (destroy d i w1).2).
Proof.
  intros Hv Ho Hc Hs.
  assert (encode_gfx_frame {| surface := o; f_text := [] |} = Ret (frame_bytes {| surface := o; f_text := [] |})) as E.
  { apply encode_Ret. split; [|reflexivity]. split; [exact Ho|]. split; [unfold max_gfx_commands; cbn; lia|].
    split; [constructor|cbn; unfold max_gfx_bytes; lia]. }
  unfold open_backend. rewrite op_bind_eq, Hv. cbn [negb throw_if lift_op]. rewrite op_bind_eq, E. cbn [lift_op].
  rewrite op_bind_eq. unfold contained. rewrite Hc, Hs. reflexivity.
Qed.

(** The frames of the headless back end can always be encoded, and keep the surface. *)
Lemma headless_ok o status i : headless_create o = (status, Some i) -> frame_ok i /\ surface i = o.
Proof.
  unfold headless_create. destruct (encode_gfx_frame _) eqn:E; [|done]. intros [= _ <-]. by apply encode_Ret in E as [E _].
Qed.

Lemma headless_submit_ok state s : frame_ok state -> frame_ok (headless_submit state s).2 /\ surface (headless_submit state s).2 = surface state.
Proof.
  intros Hok. unfold headless_submit. destruct (decode_gfx_frame s) as [f|] eqn:E; [|done]. destruct (_ || _) eqn:Es; [done|].
  apply decode_Ret in E as [E _]. apply orb_false_iff in Es as [E1%negb_false_iff%N.eqb_eq E2%negb_false_iff%N.eqb_eq].
  split; [exact E|]. cbn. destruct (surface f), (surface state). cbn in *. congruence.
Qed.

(** ** Evaluations *)

Definition demo_event (kind tag : string) (path : bytes) (depth : N) (value : bytes) (attributes : list Attribute) : ProwseEvent :=
  {| e_kind := lit kind; e_xpath := path; e_tag := lit tag; e_name := []; e_value := value; e_depth := depth;
     e_attributes := attributes; e_subtree_text := [] |}.

Definition demo_page : ProwseEventStream :=
  [demo_event "start" "body" (lit "/b") 0 [] []; demo_event "start" "p" (lit "/b/p") 1 [] [];
   demo_event "text" "p" (lit "/b/p/t") 2 (lit "  two   words") []; demo_event "end" "p" (lit "/b/p") 1 [] [];
   demo_event "start" "div" (lit "/b/d") 1 [] [{| attr_name := lit "style"; attr_value := lit "Display : NONE" |}];
   demo_event "text" "div" (lit "/b/d/t") 2 (lit "secret") []; demo_event "end" "div" (lit "/b/d") 1 [] [];
   demo_event "start" "li" (lit "/b/l") 1 [] []; demo_event "text" "li" (lit "/b/l/t") 2 (lit "item") [];
   demo_event "end" "li" (lit "/b/l") 1 [] []; demo_event "end" "body" (lit "/b") 0 [] []].

Definition texts_of (m : result bytes) : result (list bytes) := s ← m; f ← decode_gfx_frame s; Ret (g_text <$> f_text f).

Example demo_preview : texts_of (emit_gfx_ir demo_page {| width := 800; height := 600 |}) = Ret [lit "two words"; lit "* item"].
Proof. vm_compute. reflexivity. Qed.

(** Words are cut at the end of a line. *)
Example narrow_preview :
  texts_of (emit_gfx_ir demo_page {| width := 72; height := 10 |}) = Ret [lit "two w"; lit "ords"; lit "* ite"; lit "m"].
Proof. vm_compute. reflexivity. Qed.

(** A first character of a line keeps no white space in front of it, and a space that falls on the
    end of a line is dropped. *)
Example dropped_space :
  texts_of (emit_gfx_ir [demo_event "start" "p" [] 0 [] []; demo_event "text" "p" [] 1 (lit "abcde fg") []; demo_event "end" "p" [] 0 [] []]
    {| width := 72; height := 10 |}) = Ret [lit "abcde"; lit "fg"].
Proof. vm_compute. reflexivity. Qed.

(** Text that is cut inside a character is an error of the encoder. *)
Example cut_character :
  emit_gfx_ir [demo_event "start" "p" [] 0 [] [];
    {| e_kind := lit "text"; e_xpath := []; e_tag := lit "p"; e_name := []; e_value := [ascii_of_N 0xe2; "a"%char; "b"%char]; e_depth := 1;
       e_attributes := []; e_subtree_text := [] |}; demo_event "end" "p" [] 0 [] []] {| width := 72; height := 10 |} = Throw ParseError.
Proof. vm_compute. reflexivity. Qed.
