(* ===== verification/Css.v ===== *)
(** * Css: the stylesheets of [src/core/render/css_parser.cpp]

    The text helpers of [css_syntax.hpp], selector lists and their specificity, and the parser
    of stylesheets with its budgets.  A position in a text is the suffix that is left; the
    index of a closing brace is counted from the opening one. *)
From S2P Require Import Prelude Html.

(** ** Text *)

Definition trim_css (text : bytes) : bytes := rstrip is_space (skip is_space text).
Definition iequals (a b : bytes) : bool := to_lower a =s to_lower b.

Definition quote_char (c : ascii) : bool := (c =c dquote) || (c =c "'").
Definition opening (c : ascii) : bool := (c =c "(") || (c =c "[").
Definition closing (c : ascii) : bool := (c =c ")") || (c =c "]").

Definition flush (current : bytes) : list bytes := if nonempty current then [current] else [].

(** The loop of [split_top_level]. *)
Fixpoint split_loop (commas : bool) (s : bytes) (depth : nat) (quote : option ascii) (current : bytes) : list bytes :=
  match s with
  | [] => flush current
  | c :: rest =>
      match quote with
      | Some q =>
          if c =c backslash then
            match rest with
            | d :: rest' => split_loop commas rest' depth quote (current ++ [c; d])
            | [] => flush (current ++ [c])
            end
          else split_loop commas rest depth (if c =c q then None else quote) (current ++ [c])
      | None =>
          if quote_char c then split_loop commas rest depth (Some c) (current ++ [c])
          else if opening c then split_loop commas rest (S depth) None (current ++ [c])
          else if closing c then split_loop commas rest (pred depth) None (current ++ [c])
          else if (depth =? 0) && is_space c then flush current ++ split_loop commas rest depth None []
          else if (depth =? 0) && commas && ((c =c ",") || (c =c "/"))
          then flush current ++ [c] :: split_loop commas rest depth None []
          else split_loop commas rest depth None (current ++ [c])
      end
  end.

Definition split_top_level (text : bytes) (commas : bool) : list bytes := split_loop commas text 0 None [].

(** The loop of [split_selector_list]. *)
Fixpoint selectors_loop (s : bytes) (depth : nat) (quote : option ascii) (current : bytes) : list bytes :=
  match s with
  | [] => flush (trim_css current)
  | c :: rest =>
      match quote with
      | Some q =>
          if c =c backslash then
            match rest with
            | d :: rest' => selectors_loop rest' depth quote (current ++ [c; d])
            | [] => flush (trim_css (current ++ [c]))
            end
          else selectors_loop rest depth (if c =c q then None else quote) (current ++ [c])
      | None =>
          if quote_char c then selectors_loop rest depth (Some c) (current ++ [c])
          else if opening c then selectors_loop rest (S depth) None (current ++ [c])
          else if closing c then selectors_loop rest (pred depth) None (current ++ [c])
          else if (depth =? 0) && (c =c ",") then flush (trim_css current) ++ selectors_loop rest depth None []
          else selectors_loop rest depth None (current ++ [c])
      end
  end.

Definition split_selector_list (selectors : bytes) : list bytes := selectors_loop selectors 0 None [].

(** ** Specificity *)

Record Specificity := { ids : N; classes : N; types : N }.

Definition no_specificity : Specificity := {| ids := 0; classes := 0; types := 0 |}.
Definition more_ids (n : Specificity) : Specificity := {| ids := ids n + 1; classes := classes n; types := types n |}.
Definition more_classes (n : Specificity) : Specificity := {| ids := ids n; classes := classes n + 1; types := types n |}.
Definition more_types (n : Specificity) : Specificity := {| ids := ids n; classes := classes n; types := types n + 1 |}.

Definition combinator_char (c : ascii) : bool := (c =c ">") || (c =c "+") || (c =c "~") || is_space c.
Definition name_char (c : ascii) : bool := is_alnum c || (c =c "-") || (c =c "_") || (c =c backslash).

Fixpoint specificity_loop (fuel : nat) (s : bytes) (quote : option ascii) (in_attribute : bool) (n : Specificity) : Specificity :=
  match s, fuel with
  | [], _ => n
  | _, O => n
  | c :: rest, S fuel' =>
      let next := specificity_loop fuel' in
      match quote with
      | Some q =>
          if c =c backslash then next (tail rest) quote in_attribute n
          else next rest (if c =c q then None else quote) in_attribute n
      | None =>
          if quote_char c then next rest (Some c) in_attribute n
          else if in_attribute then next rest None (negb (c =c "]")) n
          else if c =c "[" then next rest None true (more_classes n)
          else if c =c "." then next rest None false (more_classes n)
          else if c =c "#" then next rest None false (more_ids n)
          else if c =c ":" then
            next (match rest with d :: rest' => if d =c ":" then rest' else rest | [] => rest end) None false (more_classes n)
          else if combinator_char c || (c =c "*") || (c =c "(") || (c =c ")") || (c =c ",") then next rest None false n
          else next (skip name_char rest) None false (more_types n)
      end
  end.

Definition compute_specificity (selector : bytes) : Specificity :=
  specificity_loop (length selector) selector None false no_specificity.

(** ** Blocks *)

(** [find_block_end] from the index [pos] on: [s] is the text at that index. *)
Fixpoint block_end (fuel : nat) (s : bytes) (depth : nat) (quote : option ascii) (pos : nat) : option nat :=
  match s, fuel with
  | [], _ => None
  | _, O => None
  | c :: rest, S fuel' =>
      match quote with
      | Some q =>
          if c =c backslash then block_end fuel' (tail rest) depth quote (pos + 2)
          else block_end fuel' rest depth (if c =c q then None else quote) (pos + 1)
      | None =>
          if starts_with (lit "/*") s then
            match find_sub (lit "*/") (tail rest) with
            | None => None
            | Some n => block_end fuel' (drop (n + 2) (tail rest)) depth None (pos + n + 4)
            end
          else if quote_char c then block_end fuel' rest depth (Some c) (pos + 1)
          else if c =c "{" then block_end fuel' rest (S depth) None (pos + 1)
          else if c =c "}" then
            (if pred depth =? 0 then Some pos else block_end fuel' rest (pred depth) None (pos + 1))
          else block_end fuel' rest depth None (pos + 1)
      end
  end.

(** [s] begins with the opening brace. *)
Definition find_block_end (s : bytes) : option nat := block_end (length s) s 0 None 0.

Definition media_applies (prelude : bytes) : bool :=
  let text := trim_css prelude in
  if negb (nonempty text) then true
  else
    let types := trim_css (span (fun c => negb (c =c "(")) text) in
    if negb (nonempty types) then true
    else
      let pieces := List.filter (fun p => negb ((p =s lit ",") || (p =s lit "/") || negb (nonempty p))) (split_top_level types true) in
      forallb (fun p => (p =s lit "all") || (p =s lit "screen")) pieces && nonempty pieces.

(** ** Declarations *)

Record Declaration := { property : bytes; value : bytes; important : bool }.

(** The length of the first declaration of a text; beyond the text when it ends inside a string,
    behind a backslash. *)
Fixpoint declaration_end (s : bytes) (depth : nat) (quote : option ascii) : nat :=
  match s with
  | [] => 0
  | c :: rest =>
      match quote with
      | Some q =>
          if c =c backslash then match rest with _ :: rest' => S (S (declaration_end rest' depth quote)) | [] => 2 end
          else S (declaration_end rest depth (if c =c q then None else quote))
      | None =>
          if quote_char c then S (declaration_end rest depth (Some c))
          else if opening c then S (declaration_end rest (S depth) None)
          else if closing c then S (declaration_end rest (pred depth) None)
          else if (c =c ";") && (depth =? 0) then 0
          else S (declaration_end rest depth None)
      end
  end.

(** What the text of a declaration says, unless it is to be passed over. *)
Definition read_declaration (text : bytes) : option Declaration :=
  let text := trim_css text in
  colon ← find_if (fun c => c =c ":") text;
  let property := trim_css (take colon text) in
  let value := trim_css (drop (colon + 1) text) in
  if negb (nonempty property) || negb (nonempty value) then None
  else
    let '(value, important) :=
      match find_last_if (fun c => c =c "!") value with
      | Some bang =>
          if iequals (trim_css (drop (bang + 1) value)) (lit "important") then (trim_css (take bang value), true) else (value, false)
      | None => (value, false)
      end in
    if nonempty value then Some {| property := property; value := value; important := important |} else None.

Definition is_custom (d : Declaration) : bool := starts_with (lit "--") (property d).

(** The declarations of a block, with the budget that is left. *)
Fixpoint declarations_loop (fuel : nat) (body : bytes) (budget : N) (acc : list Declaration) : result (list Declaration * N) :=
  match fuel with
  | O => Throw Internal
  | S fuel' =>
      let n := declaration_end body 0 None in
      let continue (budget : N) (acc : list Declaration) : result (list Declaration * N) :=
        if length body <=? n then Ret (acc, budget) else declarations_loop fuel' (drop (n + 1) body) budget acc in
      match read_declaration (take n body) with
      | None => continue budget acc
      | Some d =>
          _ ← throw_if (budget =? 0)%N ResourceLimit;
          continue (budget - 1)%N (if is_custom d then acc else acc ++ [d])
      end
  end.

Definition parse_declaration_block (body : bytes) (budget : N) : result (list Declaration * N) :=
  declarations_loop (S (length body)) body budget [].

(** ** Stylesheets *)

Definition max_render_stylesheet_bytes : N := 4 * 1024 * 1024.
Definition max_render_rules : N := 40000.
Definition max_render_declarations : N := 40000.

Record CssRule := { selector : bytes; declarations : list Declaration; specificity : Specificity; order : N }.

Record Sheet := { rules : list CssRule; rule_budget : N; declaration_budget : N }.

Definition with_budget (n : N) (st : Sheet) : Sheet := {| rules := rules st; rule_budget := rule_budget st; declaration_budget := n |}.

(** A selector of a rule gets a rule of its own. *)
Definition add_rule (declared : list Declaration) (text : bytes) (st : Sheet) : result Sheet :=
  _ ← throw_if (rule_budget st =? 0)%N ResourceLimit;
  _ ← throw_if (declaration_budget st <? N.of_nat (length declared))%N ResourceLimit;
  Ret {| rules := rules st ++ [{| selector := text; declarations := declared; specificity := compute_specificity text;
                                  order := N.of_nat (length (rules st)) |}];
         rule_budget := rule_budget st - 1; declaration_budget := declaration_budget st - N.of_nat (length declared) |}.

Fixpoint add_rules (declared : list Declaration) (l : list bytes) (st : Sheet) : result Sheet :=
  match l with
  | [] => Ret st
  | text :: l' => st ← add_rule declared text st; add_rules declared l' st
  end.

(** A rule with this prelude and this block. *)
Definition on_rule (prelude body : bytes) (st : Sheet) : result Sheet :=
  if nonempty prelude then
    '(declared, budget) ← parse_declaration_block body (declaration_budget st);
    let st := with_budget budget st in
    if nonempty declared then add_rules declared (split_selector_list prelude) st else Ret st
  else Ret st.

Definition media_space (c : ascii) : bool := (c =c " ") || (c =c byte 9) || (c =c byte 10).

Fixpoint parse_loop (fuel : nat) (nesting : N) (css : bytes) (st : Sheet) : result Sheet :=
  match css, fuel with
  | [], _ => Ret st
  | _, O => Throw Internal
  | c :: rest, S fuel' =>
      if is_space c then parse_loop fuel' nesting rest st
      else if starts_with (lit "/*") css then
        match find_sub (lit "*/") (tail rest) with
        | None => Ret st
        | Some n => parse_loop fuel' nesting (drop (n + 2) (tail rest)) st
        end
      else if c =c "}" then parse_loop fuel' nesting rest st
      else
        match find_if (fun c => c =c "{") css with
        | None => Ret st
        | Some brace =>
            let semi := find_if (fun c => c =c ";") css in
            if (c =c "@") && match semi with Some n => n <? brace | None => false end
            then parse_loop fuel' nesting (drop (default 0 semi + 1) css) st
            else
              match find_block_end (drop brace css) with
              | None => Ret st
              | Some stop =>
                  let body := take (stop - 1) (drop (brace + 1) css) in
                  let behind := drop (brace + stop + 1) css in
                  if c =c "@" then
                    let prelude := trim_css (take (brace - 1) rest) in
                    let keyword := span (fun c => negb (media_space c)) prelude in
                    if iequals keyword (lit "media") && media_applies (trim_css (drop (length keyword) prelude))
                    then
                      _ ← throw_if (32 <? nesting + 1)%N ResourceLimit;
                      st ← parse_loop fuel' (nesting + 1) body st;
                      parse_loop fuel' nesting behind st
                    else parse_loop fuel' nesting behind st
                  else
                    st ← on_rule (trim_css (take brace css)) body st;
                    parse_loop fuel' nesting behind st
              end
        end
  end.

Definition new_sheet : Sheet := {| rules := []; rule_budget := max_render_rules; declaration_budget := max_render_declarations |}.

Definition parse_stylesheet (css : bytes) : result (list CssRule) :=
  _ ← throw_if (max_render_stylesheet_bytes <? N.of_nat (length css))%N ResourceLimit;
  st ← parse_loop (length css) 0 css new_sheet;
  Ret (rules st).

(** ** Trimmed texts *)

Lemma skip_cases p s : skip p s = [] \/ exists c t, skip p s = c :: t /\ p c = false.
Proof. induction s as [|c s IH]; [by left|]. simpl. destruct (p c) eqn:E; [exact IH|]. right. by exists c, s. Qed.

Lemma trim_idem s : trim_css (trim_css s) = trim_css s.
Proof.
  unfold trim_css. destruct (skip_cases is_space s) as [->|(c & t & -> & Hc)]; [done|].
  destruct (rstrip_head is_space c t Hc) as [u Hu]. rewrite <- (rstrip_idem is_space (c :: t)) at 2. rewrite Hu.
  simpl skip. by rewrite Hc.
Qed.

Definition trimmed (s : bytes) : Prop := trim_css s = s.

(** ** What a stylesheet holds *)

Record declaration_ok (d : Declaration) : Prop := {
  ok_property : property d <> [] /\ trimmed (property d) /\ none (fun c => c =c ":") (property d) = true;
  ok_not_custom : is_custom d = false;
  ok_value : value d <> [] /\ trimmed (value d) }.

(** The commas of a selector stand behind a quote or a bracket. *)
Definition opener (c : ascii) : bool := quote_char c || opening c.
Definition commas_ok (s : bytes) : Prop := none (fun c => c =c ",") s = true \/ none opener s = false.

Record rule_ok (i : nat) (r : CssRule) : Prop := {
  ok_selector : selector r <> [] /\ trimmed (selector r) /\ commas_ok (selector r);
  ok_declarations : declarations r <> [] /\ Forall declaration_ok (declarations r);
  ok_specificity : specificity r = compute_specificity (selector r);
  ok_order : order r = N.of_nat i }.

Definition declared (l : list CssRule) : N := sumN (fun r => N.of_nat (length (declarations r))) l.

(** The rules so far, and budgets that still bound them. *)
Record sheet_ok (st : Sheet) : Prop := {
  ok_rules : forall i r, rules st !! i = Some r -> rule_ok i r;
  ok_rule_budget : (N.of_nat (length (rules st)) + rule_budget st = max_render_rules)%N;
  ok_declaration_budget : (declared (rules st) + declaration_budget st <= max_render_declarations)%N }.

Lemma none_skip p q s : none p s = true -> none p (skip q s) = true.
Proof. induction s as [|c s IH]; [done|]. simpl. intros H. destruct (q c); [|done]. apply andb_prop in H as [_ H]. by apply IH. Qed.

Lemma none_rstrip p q s : none p s = true -> none p (rstrip q s) = true.
Proof.
  induction s as [|c s IH]; [done|]. simpl. intros [Hc Hs]%andb_prop. specialize (IH Hs).
  destruct (rstrip q s); [destruct (q c); simpl; by rewrite ?Hc|]. cbn [forallb] in *. by rewrite Hc.
Qed.

Lemma none_trim p s : (forall c, is_space c = true -> p c = false) -> none p (trim_css s) = none p s.
Proof.
  intros Hp. unfold trim_css. transitivity (none p (skip is_space s)).
  - induction (skip is_space s) as [|c t IH]; [done|]. simpl. rewrite <- IH. destruct (rstrip is_space t) eqn:E; [|done].
    destruct (is_space c) eqn:Ec; [by rewrite (Hp c Ec)|done].
  - induction s as [|c t IH]; [done|]. simpl. destruct (is_space c) eqn:Ec; [by rewrite (Hp c Ec)|done].
Qed.

Lemma commas_trim s : commas_ok s -> commas_ok (trim_css s).
Proof. unfold commas_ok. rewrite !none_trim; [done| |]; intros c; by_ascii c. Qed.

Lemma flush_spec (P : bytes -> Prop) s : (s <> [] -> P s) -> Forall P (flush s).
Proof. intros H. destruct s; constructor; auto. Qed.

Lemma selectors_trimmed s : forall depth quote current, Forall (fun t => t <> [] /\ trimmed t) (selectors_loop s depth quote current).
Proof.
  assert (forall t, Forall (fun t => t <> [] /\ trimmed t) (flush (trim_css t))) as Hf
    by (intros t; apply flush_spec; intros Ht; split; [exact Ht|apply trim_idem]).
  induction s as [s IH] using (induction_ltof1 _ (@length ascii)). unfold ltof in IH. intros depth quote current.
  destruct s as [|c s]; [apply Hf|]. cbn [selectors_loop].
  assert (forall d q u, Forall (fun t => t <> [] /\ trimmed t) (selectors_loop s d q u)) as Hs by (intros; apply IH; simpl; lia).
  destruct quote as [q|].
  - destruct (c =c backslash); [|apply Hs]. destruct s as [|d s]; [apply Hf|]. apply IH. simpl. lia.
  - repeat match goal with |- context [if ?b then _ else _] => destruct b end; try apply Hs. apply Forall_app. split; [apply Hf|apply Hs].
Qed.

(** The invariant of the loop: inside of a string or a bracket its beginning has been read. *)
Lemma selectors_commas s : forall depth quote current, commas_ok current -> (depth <> 0 \/ quote <> None -> none opener current = false) ->
  Forall commas_ok (selectors_loop s depth quote current).
Proof.
  assert (forall t, commas_ok t -> Forall commas_ok (flush (trim_css t))) as Hf by (intros t Ht; apply flush_spec; intros _; by apply commas_trim).
  assert (forall u v, none opener u = false -> none opener (u ++ v) = false) as Happ by (intros u v Hu; by rewrite forallb_app, Hu).
  induction s as [s IH] using (induction_ltof1 _ (@length ascii)). unfold ltof in IH. intros depth quote current Hc Hi.
  destruct s as [|c s]; [by apply Hf|]. cbn [selectors_loop].
  assert (forall n q v, none opener (current ++ v) = false -> Forall commas_ok (selectors_loop s n q (current ++ v))) as Hs
    by (intros n q v Hv; apply IH; [simpl; lia|by right|done]).
  destruct quote as [q|].
  - specialize (Hi ltac:(by right)). destruct (c =c backslash); [|apply Hs; auto].
    destruct s as [|d s]; [apply Hf; right; auto|]. apply IH; [simpl; lia|right; auto|auto].
  - destruct (quote_char c) eqn:Eq; [apply Hs; rewrite forallb_app; unfold opener; cbn; rewrite Eq; apply andb_false_r|].
    destruct (opening c) eqn:Eo; [apply Hs; rewrite forallb_app; unfold opener; cbn; rewrite Eo, orb_true_r; apply andb_false_r|].
    assert (none opener [c] = true) as Hn by (unfold opener; cbn; by rewrite Eq, Eo).
    destruct (closing c) eqn:Ecl.
    { apply IH; [simpl; lia| |].
      - destruct Hc as [Hc|Hc]; [left|right; auto]. rewrite forallb_app, Hc. revert Ecl. by_ascii c.
      - intros [Hd|Hd]; [|done]. apply Happ, Hi. left. by destruct depth. }
    destruct (Nat.eqb_spec depth 0) as [->|Hd]; [|apply Hs; auto]. cbn [andb].
    destruct (c =c ",") eqn:E; [apply Forall_app; split; [by apply Hf|apply IH; [simpl; lia|by left|by intros [?|?]]]|].
    apply IH; [simpl; lia| |by intros [?|?]].
    destruct Hc as [Hc|Hc]; [left|right; auto]. rewrite forallb_app, Hc. cbn. by rewrite E.
Qed.

Lemma read_declaration_ok text d : read_declaration text = Some d -> is_custom d = false -> declaration_ok d.
Proof.
  unfold read_declaration. destruct (find_if _ (trim_css text)) as [colon|] eqn:Ec; [|done]. cbn [mbind option_bind].
  set (p := trim_css (take colon _)). set (v := trim_css (drop _ _)).
  destruct (negb (nonempty p) || negb (nonempty v)) eqn:E; [done|]. apply orb_false_iff in E as [Ep%negb_false_iff _].
  assert (trimmed p /\ none (fun c => c =c ":") p = true) as [Hp1 Hp2].
  { split; [apply trim_idem|]. unfold p, trim_css. apply none_rstrip, none_skip. apply find_if_Some in Ec. naive_solver. }
  assert (trimmed v) as Hv by apply trim_idem.
  assert (forall w i, trimmed w -> (if nonempty w then Some {| property := p; value := w; important := i |} else None) = Some d ->
    is_custom d = false -> declaration_ok d) as H.
  { intros w i Hw Hd Hc. destruct w as [|c w]; [done|]. injection Hd as <-. split; [|done|done]. simpl. split_and!; try done.
    by destruct p. }
  destruct (find_last_if _ v) as [bang|]; [|by apply H]. destruct (iequals _ _); [|by apply H]. apply H. apply trim_idem.
Qed.

Definition limit : ErrorCode -> Prop := eq ResourceLimit.

Lemma declarations_loop_spec fuel : forall body budget acc, length body < fuel -> Forall declaration_ok acc ->
  outcome limit (fun '(l, b) => Forall declaration_ok l /\ (N.of_nat (length l) + b <= N.of_nat (length acc) + budget)%N)
    (declarations_loop fuel body budget acc).
Proof.
  induction fuel as [|fuel IH]; intros body budget acc Hf Hacc; [lia|]. cbn [declarations_loop].
  set (n := declaration_end body 0 None).
  assert (forall b l, Forall declaration_ok l -> (N.of_nat (length l) + b <= N.of_nat (length acc) + budget)%N ->
    outcome limit (fun '(l, b) => Forall declaration_ok l /\ (N.of_nat (length l) + b <= N.of_nat (length acc) + budget)%N)
      (if length body <=? n then Ret (l, b) else declarations_loop fuel (drop (n + 1) body) b l)) as Hk.
  { intros b l Hl Hb. destruct (Nat.leb_spec (length body) n); [by cbn|].
    eapply outcome_impl; [apply IH; [rewrite length_drop; lia|exact Hl]|]. intros [l' b']. cbn. intros [H1 H2]. split; [done|lia]. }
  destruct (read_declaration (take n body)) as [d|] eqn:Ed; [|apply Hk; [done|lia]].
  apply outcome_throw_if; [done|]. intros Hb%N.eqb_neq. destruct (is_custom d) eqn:Ec; [apply Hk; [done|lia]|].
  apply Hk; [apply Forall_app; split; [done|]; constructor; [by eapply read_declaration_ok|constructor]|].
  rewrite length_app. cbn [length]. lia.
Qed.

Lemma declared_app a b : declared (a ++ b) = (declared a + declared b)%N.
Proof. apply sumN_app. Qed.

(** The sheet is well formed, and has the rules of [st] in front. *)
Definition grows (st st' : Sheet) : Prop := sheet_ok st' /\ exists l, rules st' = rules st ++ l.

Lemma grows_refl st : sheet_ok st -> grows st st.
Proof. intros H. split; [done|]. exists []. by rewrite app_nil_r. Qed.

Lemma grows_trans st1 st2 st3 : grows st1 st2 -> grows st2 st3 -> grows st1 st3.
Proof. intros [_ [l1 E1]] [H [l2 E2]]. split; [done|]. exists (l1 ++ l2). by rewrite E2, E1, app_assoc. Qed.

Lemma add_rule_spec l text st : sheet_ok st -> l <> [] -> Forall declaration_ok l -> text <> [] -> trimmed text -> commas_ok text ->
  outcome limit (grows st) (add_rule l text st).
Proof.
  intros [H1 H2 H3] Hl Hd Ht Htr Hco. unfold add_rule. apply outcome_throw_if; [done|]. intros Hr%N.eqb_neq.
  apply outcome_throw_if; [done|]. intros Hb%N.ltb_ge. cbn. split; [|by eexists]. split; cbn.
  - intros i r Hi. apply lookup_app_Some in Hi as [Hi|[Hlen Hi]]; [by apply H1|].
    apply list_lookup_singleton_Some in Hi as [Hi <-]. split; cbn; try done. f_equal. lia.
  - rewrite length_app. cbn [length]. lia.
  - rewrite declared_app. cbn. lia.
Qed.

Lemma add_rules_spec l texts : l <> [] -> Forall declaration_ok l -> Forall (fun t => (t <> [] /\ trimmed t) /\ commas_ok t) texts ->
  forall st, sheet_ok st -> outcome limit (grows st) (add_rules l texts st).
Proof.
  intros Hl Hd. induction 1 as [|t texts [[Ht1 Ht2] Ht3] _ IH]; intros st Hst; [by apply grows_refl|]. cbn [add_rules].
  eapply outcome_bind; [by apply add_rule_spec|]. intros st1 H1. eapply outcome_impl; [apply IH, H1|].
  intros st2 H2. by eapply grows_trans.
Qed.

Lemma on_rule_spec prelude body st : sheet_ok st -> outcome limit (grows st) (on_rule prelude body st).
Proof.
  intros Hst. unfold on_rule. destruct (nonempty prelude); [|by apply grows_refl].
  eapply outcome_bind; [apply declarations_loop_spec; [lia|constructor]|]. intros [l b] [Hl Hb]. cbn [length] in Hb.
  assert (grows st (with_budget b st)) as Hg.
  { destruct Hst as [H1 H2 H3]. split; [|exists []; by rewrite app_nil_r].
    split; [done|done|]. change (declared (rules st) + b <= max_render_declarations)%N. lia. }
  destruct l as [|d l]; [exact Hg|]. cbn [nonempty].
  eapply outcome_impl; [apply add_rules_spec; [done|exact Hl| |apply Hg]|].
  - apply Forall_and. split; [apply selectors_trimmed|]. apply selectors_commas; [by left|by intros [?|?]].
  - intros st2 H2. exact (grows_trans _ _ _ Hg H2).
Qed.

Lemma parse_loop_spec fuel : forall nesting css st, length css <= fuel -> sheet_ok st ->
  outcome limit (grows st) (parse_loop fuel nesting css st).
Proof.
  induction fuel as [|fuel IH]; intros nesting [|c rest] st Hf Hst; try (by apply grows_refl); [cbn in Hf; lia|].
  cbn [parse_loop]. set (css := c :: rest) in *. assert (length css = S (length rest)) as Hlen by done.
  assert (forall n k st1, grows st st1 -> 1 <= k -> outcome limit (grows st) (parse_loop fuel n (drop k css) st1)) as Hgo.
  { intros n k st1 H1 Hk. eapply outcome_impl; [apply IH; [rewrite length_drop; lia|apply H1]|]. intros st2. by apply grows_trans. }
  assert (forall n, outcome limit (grows st) (parse_loop fuel n rest st)) as Hrest by (intros n; apply IH; [lia|done]).
  destruct (is_space c); [apply Hrest|]. destruct (starts_with (lit "/*") css) eqn:Es.
  { destruct (find_sub (lit "*/") (tail rest)) as [n|]; [|by apply grows_refl]. destruct rest as [|d rest].
    { change (lit "/*") with ["/"%char; "*"%char] in Es. simpl in Es. by rewrite andb_false_r in Es. }
    pose proof (Hgo nesting (2 + (n + 2)) st (grows_refl st Hst)) as H. rewrite <- drop_drop in H. apply H. lia. }
  destruct (c =c "}"); [apply Hrest|]. destruct (find_if _ css) as [brace|] eqn:Eb; [|by apply grows_refl].
  destruct ((c =c "@") && _); [apply Hgo; [by apply grows_refl|lia]|].
  destruct (find_block_end (drop brace css)) as [stop|]; [|by apply grows_refl].
  destruct (c =c "@").
  - destruct (_ && _); [|apply Hgo; [by apply grows_refl|lia]]. apply outcome_throw_if; [done|]. intros _.
    eapply outcome_bind; [apply IH; [rewrite length_take, length_drop; lia|exact Hst]|]. intros st1 H1. apply Hgo; [done|lia].
  - eapply outcome_bind; [by apply on_rule_spec|]. intros st1 H1. apply Hgo; [done|lia].
Qed.

Lemma new_sheet_ok : sheet_ok new_sheet.
Proof. split; [done|reflexivity|cbn; lia]. Qed.

(** ** Reading rules that are written plainly *)

Lemma sheet_fuel f1 : forall f2 nesting css st, length css <= f1 -> length css <= f2 ->
  parse_loop f1 nesting css st = parse_loop f2 nesting css st.
Proof.
  induction f1 as [|f1 IH]; intros [|f2] nesting [|c rest] st H1 H2; try done; try (cbn in *; lia). cbn [parse_loop].
  set (css := c :: rest) in *. assert (length css = S (length rest)) as Hlen by done.
  assert (forall n k st1, 1 <= k -> parse_loop f1 n (drop k css) st1 = parse_loop f2 n (drop k css) st1) as Hgo
    by (intros; apply IH; rewrite length_drop; lia).
  assert (forall n, parse_loop f1 n rest st = parse_loop f2 n rest st) as Hrest by (intros n; apply IH; lia).
  destruct (is_space c); [apply Hrest|]. destruct (starts_with (lit "/*") css) eqn:Es.
  { destruct (find_sub (lit "*/") (tail rest)) as [n|]; [|done]. destruct rest as [|d rest]; [by destruct n; cbn; destruct f1, f2|].
    pose proof (Hgo nesting (2 + (n + 2)) st) as H. rewrite <- drop_drop in H. apply H. lia. }
  destruct (c =c "}"); [apply Hrest|]. destruct (find_if _ css) as [brace|] eqn:Eb; [|done].
  destruct ((c =c "@") && _); [apply Hgo; lia|].
  destruct (find_block_end (drop brace css)) as [stop|]; [|done].
  destruct (c =c "@").
  - destruct (_ && _); [|apply Hgo; lia]. destruct (throw_if _ _); [|done]. cbn [mbind result_bind].
    rewrite (IH f2) by (rewrite length_take, length_drop; lia). destruct (parse_loop f2 _ _ st); [|done]. apply Hgo. lia.
  - destruct (on_rule _ _ st); [|done]. apply Hgo. lia.
Qed.

(** Characters that end nothing inside of a block. *)
Definition block_char (c : ascii) : bool :=
  negb (quote_char c || opening c || closing c || (c =c "{") || (c =c "}") || (c =c ";") || (c =c "*") || (c =c "!")).

Definition selector_char (c : ascii) : bool :=
  negb (quote_char c || opening c || closing c || (c =c "{") || (c =c "}") || (c =c ",")).

Definition plain_declaration (d : Declaration) : Prop :=
  declaration_ok d /\ forallb block_char (property d) = true /\ forallb block_char (value d) = true.

Definition plain_selector (s : bytes) : Prop :=
  s <> [] /\ trimmed s /\ forallb selector_char s = true /\ head_is (fun c => negb ((c =c "@") || (c =c "/"))) s = true.

Definition print_declaration (d : Declaration) : bytes :=
  property d ++ lit ":" ++ value d ++ (if important d then lit "!important" else []) ++ lit ";".

Definition print_rule (r : CssRule) : bytes := selector r ++ lit "{" ++ mjoin (print_declaration <$> declarations r) ++ lit "}".

Definition print_sheet (l : list CssRule) : bytes := mjoin (print_rule <$> l).

(** A trimmed text begins and ends with something. *)
Lemma trimmed_cons s : trimmed s -> s <> [] -> exists c t, s = c :: t /\ is_space c = false /\ rstrip is_space s = s.
Proof.
  unfold trimmed, trim_css. intros H Hn. destruct (skip_cases is_space s) as [E|(c & t & E & Hc)]; rewrite E in H; [by subst|].
  destruct (rstrip_head is_space c t Hc) as [u Hu]. rewrite Hu in H. subst s. exists c, u. split; [done|]. split; [done|].
  assert (skip is_space (c :: u) = c :: u) as E2 by (simpl; by rewrite Hc). rewrite E2 in E. assert (u = t) as -> by congruence. exact Hu.
Qed.

Lemma trimmed_app a b c : trimmed a -> a <> [] -> trimmed c -> c <> [] -> trimmed (a ++ b ++ c).
Proof.
  intros Ha Hna Hc Hnc. destruct (trimmed_cons a Ha Hna) as (x & t & -> & Hx & _).
  destruct (trimmed_cons c Hc Hnc) as (_ & _ & _ & _ & Er). unfold trimmed, trim_css. cbn [app skip]. rewrite Hx.
  change (x :: t ++ b ++ c) with ((x :: t) ++ b ++ c). rewrite app_assoc. by apply rstrip_app.
Qed.

Lemma block_char_not c : block_char c = true ->
  quote_char c = false /\ opening c = false /\ closing c = false /\ (c =c "{") = false /\ (c =c "}") = false /\ (c =c ";") = false /\
  (c =c "*") = false /\ (c =c "!") = false.
Proof. unfold block_char. intros H%negb_true_iff. do 7 (apply orb_false_iff in H as [H ?]). by split_and!. Qed.

Definition body_char (c : ascii) : bool := block_char c || (c =c "!") || (c =c ";").

Lemma declaration_end_plain s k : forallb (fun c => block_char c || (c =c "!")) s = true ->
  declaration_end (s ++ ";"%char :: k) 0 None = length s.
Proof.
  induction s as [|c s IH]; [done|]. cbn [forallb app declaration_end length]. intros [Hc Hs]%andb_prop.
  assert (quote_char c = false /\ opening c = false /\ closing c = false /\ (c =c ";") = false) as (-> & -> & -> & ->)
    by (revert Hc; by_ascii c). cbn [andb]. by rewrite IH.
Qed.

Definition declaration_text (d : Declaration) : bytes :=
  property d ++ lit ":" ++ value d ++ (if important d then lit "!important" else []).

Lemma read_plain d : plain_declaration d -> read_declaration (declaration_text d) = Some d.
Proof.
  intros ([(Hp1 & Hp2 & Hp3) _ [Hv1 Hv2]] & Hp & Hv). unfold declaration_text.
  set (mark := if important d then lit "!important" else []).
  assert (trimmed (value d ++ mark) /\ value d ++ mark <> []) as [Hvm Hvn].
  { unfold mark. destruct (important d); [|by rewrite app_nil_r]. split; [|by intros [? ?]%app_nil].
    pose proof (trimmed_app (value d) [] (lit "!important")) as H. apply H; done. }
  assert (trim_css (property d ++ lit ":" ++ value d ++ mark) = property d ++ lit ":" ++ value d ++ mark) as Et
    by by apply trimmed_app.
  unfold read_declaration. rewrite Et. change (lit ":" ++ ?t) with (":"%char :: t).
  assert (find_if (fun c => c =c ":") (property d ++ ":"%char :: value d ++ mark) = Some (length (property d))) as ->
    by (apply find_if_mid; done).
  cbn [mbind option_bind]. rewrite take_app_length, drop_app_S, Hp2, Hvm.
  destruct (property d) as [|c p] eqn:Ep; [done|]. rewrite <- Ep. destruct (value d ++ mark) as [|c' v'] eqn:Ev; [done|]. rewrite <- Ev.
  assert (nonempty (property d) = true) as -> by by rewrite Ep. rewrite Ev at 1. cbn [nonempty negb orb].
  assert (forall s, forallb block_char s = true -> none (fun c => c =c "!") s = true) as Hnb
    by (intros s Hs; eapply none_forallb, Hs; intros x Hx; by apply block_char_not in Hx as (_ & _ & _ & _ & _ & _ & _ & Hx)).
  unfold mark in *. clear Hvm Hvn Et. destruct (important d) eqn:Ei.
  - change (lit "!important") with ("!"%char :: lit "important"). rewrite find_last_if_mid by done.
    rewrite drop_app_S, take_app_length, Hv2. change (iequals (trim_css (lit "important")) (lit "important")) with true. cbv iota.
    destruct (value d) eqn:Evd; [done|]. cbn [nonempty]. rewrite <- Evd, <- Ei. by destruct d.
  - rewrite app_nil_r in *. rewrite (proj2 (find_last_if_None _ _)) by by apply Hnb.
    rewrite Ev. cbn [nonempty]. rewrite <- Ev, <- Ei. by destruct d.
Qed.

Lemma text_chars d : plain_declaration d -> forallb (fun c => block_char c || (c =c "!")) (declaration_text d) = true.
Proof.
  intros (_ & Hp & Hv). unfold declaration_text. rewrite !forallb_app.
  assert (forall s, forallb block_char s = true -> forallb (fun c => block_char c || (c =c "!")) s = true) as H
    by (intros s; apply forallb_impl; intros c ->; done).
  rewrite (H _ Hp), (H _ Hv). by destruct (important d).
Qed.

Lemma print_declaration_text d : print_declaration d = declaration_text d ++ [";"%char].
Proof. unfold print_declaration, declaration_text. by rewrite <- !app_assoc. Qed.

Lemma read_block ds : forall fuel budget acc, Forall plain_declaration ds -> (N.of_nat (length ds) <= budget)%N ->
  length (mjoin (print_declaration <$> ds)) < fuel ->
  declarations_loop fuel (mjoin (print_declaration <$> ds)) budget acc = Ret (acc ++ ds, (budget - N.of_nat (length ds))%N).
Proof.
  induction ds as [|d ds IH]; intros [|fuel] budget acc Hd Hb Hf; try (by inversion Hf).
  { cbn [declarations_loop]. cbn. by rewrite app_nil_r, N.sub_0_r. }
  apply Forall_cons in Hd as [Hd Hds]. cbn [fmap list_fmap mjoin list_join length] in *. rewrite print_declaration_text in *.
  rewrite <- app_assoc in *. cbn [app] in *. set (k := mjoin _) in *. cbn [declarations_loop].
  rewrite declaration_end_plain by by apply text_chars. rewrite take_app_length, drop_app_S, (read_plain d Hd).
  rewrite length_app in *. cbn [length] in *. destruct (N.eqb_spec budget 0); [lia|]. cbn [throw_if mbind result_bind].
  destruct Hd as ([_ Hc _] & _). rewrite Hc. destruct (Nat.leb_spec (length (declaration_text d) + S (length k)) (length (declaration_text d))); [lia|].
  rewrite IH by (done || lia). rewrite <- app_assoc. cbn [app]. do 2 f_equal. lia.
Qed.

Lemma no_comment c t : head_is (fun d => negb (d =c "*")) t = true -> starts_with (lit "/*") (c :: t) = false.
Proof.
  change (lit "/*") with ["/"%char; "*"%char]. destruct t as [|d t]; cbn [starts_with head_is]; [by rewrite andb_false_r|].
  intros Hd%negb_true_iff%eqc_false. assert (("*"%char =c d) = false) as -> by (apply eqc_false; congruence). apply andb_false_r.
Qed.

Lemma body_char_not c : body_char c = true -> quote_char c = false /\ (c =c "{") = false /\ (c =c "}") = false /\ (c =c "*") = false.
Proof. by_ascii c. Qed.

Lemma block_end_body body : forall fuel k pos, forallb body_char body = true -> length body < fuel ->
  block_end fuel (body ++ "}"%char :: k) 1 None pos = Some (pos + length body).
Proof.
  induction body as [|c body IH]; intros [|fuel] k pos Hb Hf; try (by inversion Hf).
  { cbn [app block_end]. change (starts_with (lit "/*") ("}"%char :: k)) with false. cbn. f_equal. lia. }
  cbn [forallb] in Hb. apply andb_prop in Hb as [Hc Hb]. cbn [app block_end].
  rewrite no_comment by (destruct body as [|d body]; [done|]; cbn [forallb] in Hb; apply andb_prop in Hb as [Hd _];
    apply body_char_not in Hd as (_ & _ & _ & Hd); cbn; by rewrite Hd).
  apply body_char_not in Hc as (-> & -> & -> & _). rewrite IH by (done || (cbn in Hf; lia)). f_equal. cbn. lia.
Qed.

Lemma body_chars ds : Forall plain_declaration ds -> forallb body_char (mjoin (print_declaration <$> ds)) = true.
Proof.
  induction 1 as [|d ds Hd _ IH]; [done|]. change (forallb body_char (print_declaration d ++ mjoin (print_declaration <$> ds)) = true).
  rewrite print_declaration_text, !forallb_app, IH, andb_true_r. apply andb_true_intro. split; [|done].
  eapply forallb_impl, text_chars, Hd. intros c Hc. unfold body_char. by rewrite Hc.
Qed.

Lemma selectors_plain s : forall current, forallb selector_char s = true -> selectors_loop s 0 None current = flush (trim_css (current ++ s)).
Proof.
  induction s as [|c s IH]; intros current; [by rewrite app_nil_r|]. cbn [forallb selectors_loop]. intros [Hc Hs]%andb_prop.
  assert (quote_char c = false /\ opening c = false /\ closing c = false /\ (c =c ",") = false) as (-> & -> & -> & ->)
    by (revert Hc; by_ascii c).
  cbn [andb Nat.eqb]. rewrite IH by done. by rewrite <- app_assoc.
Qed.

Definition plain_rule (r : CssRule) : Prop :=
  plain_selector (selector r) /\ declarations r <> [] /\ Forall plain_declaration (declarations r) /\
  specificity r = compute_specificity (selector r).

(** The sheet after a rule whose declarations were counted when they were read and when it was added. *)
Definition after_rule (r : CssRule) (st : Sheet) : Sheet :=
  {| rules := rules st ++ [r]; rule_budget := rule_budget st - 1;
     declaration_budget := declaration_budget st - N.of_nat (length (declarations r)) - N.of_nat (length (declarations r)) |}.

Definition room (r : CssRule) (st : Sheet) : Prop :=
  (1 <= rule_budget st)%N /\ (2 * N.of_nat (length (declarations r)) <= declaration_budget st)%N.

Lemma on_plain_rule r st : plain_rule r -> order r = N.of_nat (length (rules st)) -> room r st ->
  on_rule (selector r) (mjoin (print_declaration <$> declarations r)) st = Ret (after_rule r st).
Proof.
  intros ((Hn & Ht & Hc & _) & Hd & Hds & Hs) Ho [H1 H2]. unfold on_rule, parse_declaration_block, split_selector_list.
  assert (nonempty (selector r) = true) as -> by (by destruct (selector r)).
  rewrite read_block by (done || lia). cbn [mbind result_bind app]. rewrite selectors_plain by done. cbn [app]. rewrite Ht.
  assert (nonempty (declarations r) = true) as -> by (by destruct (declarations r)).
  assert (flush (selector r) = [selector r]) as -> by (by destruct (selector r)).
  cbn [add_rules]. unfold add_rule, with_budget. cbn [rule_budget declaration_budget rules].
  destruct (N.eqb_spec (rule_budget st) 0); [lia|]. cbn [throw_if mbind result_bind].
  destruct (N.ltb_spec (declaration_budget st - N.of_nat (length (declarations r))) (N.of_nat (length (declarations r)))); [lia|].
  cbn [throw_if mbind result_bind]. unfold after_rule. do 4 f_equal. rewrite <- Hs, <- Ho. by destruct r.
Qed.

Lemma selector_no_brace s : forallb selector_char s = true -> none (fun c => c =c "{") s = true.
Proof. apply none_forallb. intros c. by_ascii c. Qed.

Lemma print_rule_app r k : print_rule r ++ k = selector r ++ "{"%char :: mjoin (print_declaration <$> declarations r) ++ "}"%char :: k.
Proof. unfold print_rule. by rewrite <- !app_assoc. Qed.

Lemma find_block_end_body body k : forallb body_char body = true ->
  find_block_end ("{"%char :: body ++ "}"%char :: k) = Some (length body + 1).
Proof.
  intros Hb. unfold find_block_end. cbn [length block_end]. change (starts_with (lit "/*") ("{"%char :: ?t)) with false.
  change (quote_char "{") with false. change ("{" =c "{")%char with true. cbv iota.
  rewrite block_end_body; [f_equal; lia|exact Hb|rewrite length_app; cbn [length]; lia].
Qed.

(** One step at a qualified rule. *)
Lemma parse_loop_rule fuel nesting css st brace stop : head_is (fun c => negb ((c =c "@") || (c =c "/"))) css = true ->
  head_is (fun c => negb (is_space c || (c =c "}"))) css = true -> css <> [] ->
  find_if (fun c => c =c "{") css = Some brace -> find_block_end (drop brace css) = Some stop ->
  parse_loop (S fuel) nesting css st =
    (st ← on_rule (trim_css (take brace css)) (take (stop - 1) (drop (brace + 1) css)) st;
     parse_loop fuel nesting (drop (brace + stop + 1) css) st).
Proof.
  intros H1 H2 Hn Eb Ee. destruct css as [|c rest]; [done|]. cbn [head_is] in H1, H2.
  apply negb_true_iff, orb_false_iff in H1 as [Hat Hsl], H2 as [Hsp Hbr]. cbn [parse_loop]. rewrite Hsp, Hbr.
  assert (starts_with (lit "/*") (c :: rest) = false) as ->.
  { change (lit "/*") with ["/"%char; "*"%char]. cbn [starts_with].
    assert (("/"%char =c c) = false) as -> by (apply eqc_false in Hsl; apply eqc_false; congruence). done. }
  rewrite Eb, Ee, Hat. done.
Qed.

Lemma parse_plain_rule fuel nesting r k st : plain_rule r -> order r = N.of_nat (length (rules st)) -> room r st ->
  length (print_rule r ++ k) <= fuel -> parse_loop fuel nesting (print_rule r ++ k) st = parse_loop fuel nesting k (after_rule r st).
Proof.
  intros Hr Ho Hroom. rewrite print_rule_app. set (body := mjoin _). set (css := selector r ++ _).
  assert (length css = length (selector r) + length body + length k + 2) as Hlen
    by (unfold css; rewrite !length_app; cbn [length]; rewrite length_app; cbn [length]; lia).
  destruct fuel as [|fuel]; [lia|]. intros Hf.
  pose proof Hr as ((Hn & Ht & Hc & Hh) & _ & Hds & _). destruct (trimmed_cons _ Ht Hn) as (c & t & Es & Hsp & _).
  assert (drop (length (selector r) + 1) css = body ++ "}"%char :: k) as Ed by apply drop_app_S.
  rewrite parse_loop_rule with (brace := length (selector r)) (stop := length body + 1).
  - rewrite Ed, Nat.add_sub, take_app_length. assert (take (length (selector r)) css = selector r) as -> by apply take_app_length.
    assert (drop (length (selector r) + (length body + 1) + 1) css = k) as ->.
    { rewrite <- (drop_app_S body "}"%char k), <- Ed, drop_drop. f_equal. lia. }
    rewrite Ht. unfold body. rewrite on_plain_rule by done. cbn [mbind result_bind]. apply sheet_fuel; lia.
  - unfold css. rewrite Es in *. exact Hh.
  - unfold css. rewrite Es in *. cbn [head_is app forallb] in *. rewrite Hsp. apply andb_prop in Hc as [Hc _]. revert Hc. by_ascii c.
  - unfold css. by rewrite Es.
  - apply find_if_mid; [by apply selector_no_brace|done].
  - unfold css. rewrite drop_app_length. by apply find_block_end_body, body_chars.
Qed.

Definition numbered (first : nat) (l : list CssRule) : Prop := forall i r, l !! i = Some r -> order r = N.of_nat (first + i).

Lemma after_rule_ok r st : plain_rule r -> order r = N.of_nat (length (rules st)) -> room r st -> sheet_ok st -> sheet_ok (after_rule r st).
Proof.
  intros ((Hn & Ht & Hc & _) & Hd & Hds & Hs) Ho [R1 R2] [H1 H2 H3]. split.
  - intros i r' Hi. apply lookup_app_Some in Hi as [Hi|[Hlen Hi]]; [by apply H1|].
    apply list_lookup_singleton_Some in Hi as [Hi <-]. split; [| |done|rewrite Ho; f_equal; cbn in *; lia].
    + split_and!; [done|done|]. left. eapply none_forallb, Hc. intros c. by_ascii c.
    + split; [done|]. eapply Forall_impl; [exact Hds|]. by intros d [? _].
  - cbn. rewrite length_app. cbn [length]. lia.
  - change (declared (rules st ++ [r]) + (declaration_budget st - N.of_nat (length (declarations r)) -
      N.of_nat (length (declarations r))) <= max_render_declarations)%N.
    rewrite declared_app. change (declared [r]) with (N.of_nat (length (declarations r)) + 0)%N. lia.
Qed.

Lemma parse_plain_rules l : forall fuel nesting k st, Forall plain_rule l -> numbered (length (rules st)) l ->
  (N.of_nat (length l) <= rule_budget st)%N -> (2 * declared l <= declaration_budget st)%N -> length (print_sheet l ++ k) <= fuel -> sheet_ok st ->
  exists st', parse_loop fuel nesting (print_sheet l ++ k) st = parse_loop fuel nesting k st' /\ sheet_ok st' /\ rules st' = rules st ++ l.
Proof.
  induction l as [|r l IH]; intros fuel nesting k st Hl Ho Hb Hd Hf Hst; [exists st; by rewrite app_nil_r|].
  apply Forall_cons in Hl as [Hr Hl]. change (declared (r :: l)) with (N.of_nat (length (declarations r)) + declared l)%N in Hd.
  change (print_sheet (r :: l)) with (print_rule r ++ print_sheet l) in *. rewrite <- app_assoc in *. cbn [length] in Hb.
  assert (order r = N.of_nat (length (rules st))) as Hor by (specialize (Ho 0 r eq_refl); by rewrite Nat.add_0_r in Ho).
  assert (room r st) as Hroom by (split; lia). rewrite parse_plain_rule by done.
  destruct (IH fuel nesting k (after_rule r st)) as (st' & -> & Hok & E); [done| | | | |by apply after_rule_ok|].
  - intros i r' Hi. cbn. rewrite length_app. cbn [length]. rewrite <- Nat.add_assoc. by apply (Ho (S i)).
  - cbn. lia.
  - cbn. lia.
  - rewrite length_app in Hf. lia.
  - exists st'. split_and!; [done|done|]. rewrite E. cbn. by rewrite <- app_assoc.
Qed.

Lemma parse_stylesheet_rules css :
  outcome limit (fun l => (N.of_nat (length l) <= max_render_rules)%N /\ (declared l <= max_render_declarations)%N /\
                          forall i r, l !! i = Some r -> rule_ok i r) (parse_stylesheet css).
Proof.
  unfold parse_stylesheet. apply outcome_throw_if; [done|]. intros _.
  eapply outcome_bind; [apply parse_loop_spec; [done|apply new_sheet_ok]|]. intros st [[H1 H2 H3] _]. split_and!; [lia|lia|exact H1].
Qed.

(** C30: every stylesheet gives its rules or the resource limit error: at most 40000 rules with at
    most 40000 declarations altogether, every rule with the number of its place, a trimmed
    selector with no comma that would separate two, and the specificity of it, and at least one declaration, none of them custom. *)
Theorem parse_stylesheet_sound css :
  outcome limit (fun l => (N.of_nat (length l) <= max_render_rules)%N /\ (declared l <= max_render_declarations)%N /\
                          forall i r, l !! i = Some r -> rule_ok i r) (parse_stylesheet css).
Proof. apply parse_stylesheet_rules. Qed.

(** Rules that are written plainly are read back exactly, and no text behind them - unclosed
    blocks, broken rules, other rules - takes them away: the sheet is those rules followed by
    what the rest declares, or the budgets run out. *)
Theorem plain_rules_kept l rest : Forall plain_rule l -> numbered 0 l -> (N.of_nat (length l) <= max_render_rules)%N ->
  (2 * declared l <= max_render_declarations)%N -> (N.of_nat (length (print_sheet l ++ rest)) <= max_render_stylesheet_bytes)%N ->
  outcome limit (fun l' => exists more, l' = l ++ more /\ (rest = [] -> more = [])) (parse_stylesheet (print_sheet l ++ rest)).
Proof.
  intros Hl Ho Hn Hd Hs. unfold parse_stylesheet. apply outcome_throw_if; [done|]. intros _.
  destruct (parse_plain_rules l (length (print_sheet l ++ rest)) 0 rest new_sheet) as (st & -> & Hst & E);
    [done|done|done|done|done|apply new_sheet_ok|].
  cbn [rules new_sheet app] in E. destruct rest as [|c rest].
  - assert (parse_loop (length (print_sheet l ++ [])) 0 [] st = Ret st) as -> by (destruct (length (print_sheet l ++ [])); reflexivity).
    cbn [mbind result_bind outcome]. exists []. by rewrite app_nil_r.
  - eapply outcome_bind; [apply parse_loop_spec; [rewrite length_app; lia|exact Hst]|].
    intros st' [_ [more E']]. exists more. rewrite E', E. by split.
Qed.

Definition sample_rules : list CssRule :=
  [{| selector := lit "h1 > a:hover"; declarations := [{| property := lit "color"; value := lit "red"; important := true |};
        {| property := lit "margin"; value := lit "0 4px"; important := false |}];
      specificity := {| ids := 0; classes := 1; types := 3 |}; order := 0 |};
   {| selector := lit "#top"; declarations := [{| property := lit "display"; value := lit "none"; important := false |}];
      specificity := {| ids := 1; classes := 0; types := 1 |}; order := 1 |}].

Example sample_printed : print_sheet sample_rules = lit "h1 > a:hover{color:red!important;margin:0 4px;}#top{display:none;}".
Proof. reflexivity. Qed.

Lemma sample_numbered : numbered 0 sample_rules.
Proof. intros [|[|i]] r Hi; try (injection Hi as <-; reflexivity). discriminate. Qed.

Lemma plain_rules_kept_witness : exists l, l = sample_rules /\
  outcome limit (fun l' => exists more, l' = l ++ more /\ (lit "p{color" = [] -> more = [])) (parse_stylesheet (print_sheet l ++ lit "p{color")).
Proof.
  exists sample_rules. split; [reflexivity|]. apply plain_rules_kept; [|exact sample_numbered|discriminate|discriminate|discriminate].
  repeat (constructor; [repeat split; try reflexivity; try discriminate; repeat (constructor; [repeat split; reflexivity || discriminate|]); constructor|]).
  constructor.
Defined.

(** The name behind a dot, a hash or a colon is counted once more, as a type: the two selectors
    should tie. *)
Example class_counted_twice : (compute_specificity (lit ".a"), compute_specificity (lit "[a]")) =
  ({| ids := 0; classes := 1; types := 1 |}, {| ids := 0; classes := 1; types := 0 |}).
Proof. reflexivity. Qed.

(** A comment inside of a block becomes a part of the property's name. *)
Example comment_in_block : parse_declaration_block (lit "/* a */ color: red") 9 =
  Ret ([{| property := lit "/* a */ color"; value := lit "red"; important := false |}], 8%N).
Proof. reflexivity. Qed.

(** An apostrophe in such a comment takes all that follows. *)
Example apostrophe_in_block : parse_declaration_block (lit "/* don't */ color: red; width: 1px") 9 =
  Ret ([{| property := lit "/* don't */ color"; value := lit "red; width: 1px"; important := false |}], 8%N).
Proof. reflexivity. Qed.

(** A media type before a condition is not understood, a condition alone is taken to hold. *)
Example media_conditions :
  (media_applies (lit "screen and (min-width: 1px)"), media_applies (lit "only screen"), media_applies (lit "(min-width: 1px)"),
   media_applies (lit "all, screen"), media_applies (lit "print")) = (false, false, true, true, false).
Proof. reflexivity. Qed.

(** A declaration is counted when it is read and once more for every selector of its rule. *)
Example counted_twice : on_rule (lit "p") (lit "a:b") {| rules := []; rule_budget := 9; declaration_budget := 1 |} = Throw ResourceLimit.
Proof. reflexivity. Qed.
