(* ===== verification/Bucket.v ===== *)
(** * Bucket: the buckets of rules, [src/core/render/style_resolver.cpp]

    The key of a selector, read from the text of its rightmost compound, and the test whether an
    element can match the rules of a bucket; the parser of [Selector] on selectors without
    escapes, brackets and pseudo-classes shows that no rule that matches is passed over. *)
From S2P Require Import Prelude Html HtmlTree Dom Selector SelectorMatch Css.

(** ** Keys *)

Record BucketKey := { key_id : bytes; key_cls : bytes; key_tag : bytes }.

#[export] Instance BucketKey_eq_dec : EqDecision BucketKey.
Proof. solve_decision. Defined.

Definition no_key : BucketKey := {| key_id := []; key_cls := []; key_tag := [] |}.
Definition is_no_key (key : BucketKey) : bool := negb (nonempty (key_id key) || nonempty (key_cls key) || nonempty (key_tag key)).

Definition unkeyed_char (c : ascii) : bool := (c =c ":") || (c =c backslash) || (c =c "[") || (c =c "(") || (c =c ")").
Definition tag_stop (c : ascii) : bool := (c =c "#") || (c =c ".") || (c =c "[") || (c =c ":").
Definition name_stop (c : ascii) : bool := tag_stop c || (c =c ")") || is_space c.

(** The first id or class of a compound. *)
Fixpoint key_loop (s : bytes) (quote bracket : bool) (key : BucketKey) : BucketKey :=
  match s with
  | [] => key
  | c :: rest =>
      if quote then key_loop rest (negb (quote_char c)) bracket key
      else if quote_char c then key_loop rest true bracket key
      else if c =c "[" then key_loop rest false true key
      else if c =c "]" then key_loop rest false false key
      else if bracket then key_loop rest false bracket key
      else if ((c =c "#") || (c =c ".")) && negb (nonempty (key_id key)) && negb (nonempty (key_cls key)) then
        let name := span (fun c => negb (name_stop c)) rest in
        key_loop rest false bracket
          (if c =c "#" then {| key_id := name; key_cls := key_cls key; key_tag := key_tag key |}
           else {| key_id := key_id key; key_cls := name; key_tag := key_tag key |})
      else key_loop rest false bracket key
  end.

(** The rightmost compound. *)
Definition rightmost (selector : bytes) : bytes :=
  let s := rstrip combinator_char selector in
  match find_last_if combinator_char s with Some i => drop (i + 1) s | None => s end.

Definition bucket_of (selector : bytes) : BucketKey :=
  if negb (none unkeyed_char selector) then no_key
  else
    let compound := rightmost selector in
    let tag := to_lower (span (fun c => negb (tag_stop c)) compound) in
    key_loop compound false false {| key_id := []; key_cls := []; key_tag := if tag =s lit "*" then [] else tag |}.

(** Whether an element can match the rules of a bucket. *)
Definition bucket_compatible (d : dom) (key : BucketKey) (node : nat) : bool :=
  (negb (nonempty (key_tag key)) || (to_lower (name_of d node) =s key_tag key)) &&
  (negb (nonempty (key_id key)) || (default [] (attribute d node (lit "id")) =s key_id key)) &&
  (negb (nonempty (key_cls key)) || match find_sub (key_cls key) (default [] (attribute d node (lit "class"))) with Some _ => true | None => false end).

(** ** Selectors without escapes, brackets and pseudo-classes *)

Definition plain_text (s : bytes) : Prop := none unkeyed_char s = true.

Lemma plain_suffix a b : plain_text (a ++ b) -> plain_text b.
Proof. unfold plain_text. rewrite none_app. by intros [_ ?]%andb_prop. Qed.

(** The characters of a name. *)
Definition plain_char (c : ascii) : bool := is_ident_char c && negb (c =c backslash).

Lemma ident_loop_plain fuel : forall out s o r, plain_text s -> ident_loop fuel out s = Ret (o, r) ->
  exists w, o = out ++ w /\ s = w ++ r /\ forallb plain_char w = true.
Proof.
  induction fuel as [|fuel IH]; intros out [|c s] o r Hp; cbn [ident_loop]; intros E;
    try (injection E as <- <-; exists []; by rewrite app_nil_r); [done|].
  destruct (is_ident_char c) eqn:Ei; [|injection E as <- <-; exists []; by rewrite app_nil_r].
  unfold plain_text in Hp. cbn [forallb] in Hp. apply andb_prop in Hp as [Hc Hs].
  assert ((c =c backslash) = false) as Eb by (revert Hc; by_ascii c). rewrite Eb in E.
  apply IH in E as (w & -> & -> & Hw); [|done]. exists (c :: w). rewrite <- app_assoc. split_and!; [done|done|].
  cbn [forallb]. unfold plain_char at 1. by rewrite Ei, Eb.
Qed.

Lemma read_ident_plain s n r : plain_text s -> read_ident s = Ret (n, r) -> s = n ++ r /\ forallb plain_char n = true.
Proof.
  unfold read_ident. intros Hp. destruct (ident_start s); [|by intros [= <- <-]].
  intros E. apply ident_loop_plain in E as (w & -> & -> & Hw); done.
Qed.

Lemma read_ident_some c s n r : plain_text (c :: s) -> ident_start (c :: s) = true -> read_ident (c :: s) = Ret (n, r) -> n <> [].
Proof.
  unfold read_ident. intros Hp Hi. rewrite Hi. cbn [length ident_loop].
  assert (is_ident_char c = true) as -> by (cbn [ident_start] in Hi; destruct (c =c "-") eqn:E; [apply eqc_true in E as ->; done|revert Hi; by_ascii c]).
  unfold plain_text in Hp. cbn [forallb] in Hp. apply andb_prop in Hp as [Hc Hs].
  assert ((c =c backslash) = false) as -> by (revert Hc; by_ascii c).
  intros E. by apply ident_loop_plain in E as (w & -> & _).
Qed.

Definition item : Type := bool * bytes.
Definition print_item (i : item) : bytes := (if i.1 then "#"%char else "."%char) :: i.2.
Definition print_items (l : list item) : bytes := mjoin (print_item <$> l).
Lemma print_items_cons b n l t : print_items ((b, n) :: l) ++ t = (if b then "#"%char else "."%char) :: n ++ print_items l ++ t.
Proof. change (print_items ((b, n) :: l)) with (((if b then "#"%char else "."%char) :: n) ++ print_items l). by rewrite <- app_assoc. Qed.

Definition item_ids (l : list item) : list bytes := omap (fun i : item => if i.1 then Some i.2 else None) l.
Definition item_classes (l : list item) : list bytes := omap (fun i : item => if i.1 then None else Some i.2) l.
Definition item_ok (i : item) : Prop := i.2 <> [] /\ forallb plain_char i.2 = true.

Lemma read_name_plain s n r : plain_text s -> read_name s = Ret (n, r) -> s = n ++ r /\ item_ok (true, n) /\ item_ok (false, n).
Proof.
  unfold read_name. intros Hp. destruct (read_ident s) as [[n' r']|] eqn:E; [|done]. cbn [mbind result_bind].
  destruct n' as [|c n']; [done|]. intros [= <- <-]. apply read_ident_plain in E as [-> E]; [|done]. by repeat split.
Qed.

Section PlainParser.
Variable parse_nested : parser (list ComplexSelector).

Definition reads_items (k : Compound) (s : bytes) (consumed consumed' : bool) (k' : Compound) (s' : bytes) : Prop :=
  exists items, s = print_items items ++ s' /\ Forall item_ok items /\ (tag k' = tag k /\ universal k' = universal k) /\
    Selector.ids k' = Selector.ids k ++ item_ids items /\ Selector.classes k' = Selector.classes k ++ item_classes items /\
    (consumed' = true -> consumed = true \/ items <> []).

Lemma compound_loop_plain fuel : forall consumed k st consumed' k' st', plain_text (p_rest st) ->
  compound_loop parse_nested fuel consumed k st = Ret (consumed', k', st') -> reads_items k (p_rest st) consumed consumed' k' (p_rest st').
Proof.
  induction fuel as [|fuel IH]; intros consumed k st consumed' k' st' Hp; [done|]. cbn [compound_loop]. unfold compound_step.
  assert (forall k1, Ret (consumed, k1, st) = Ret (consumed', k', st') -> k1 = k -> reads_items k (p_rest st) consumed consumed' k' (p_rest st')) as Hstop.
  { intros k1 [= <- <- <-] ->. exists []. rewrite !app_nil_r. split_and!; [done|constructor|done|done|done|done|by left]. }
  destruct (p_rest st) as [|c r] eqn:Er; [intros E; by eapply Hstop|].
  assert (plain_text r) as Hr by exact (plain_suffix [c] r Hp).
  assert (forall b n r' k1, read_name r = Ret (n, r') -> c = (if b : bool then "#"%char else "."%char) -> tag k1 = tag k /\ universal k1 = universal k ->
    Selector.ids k1 = Selector.ids k ++ item_ids [(b, n)] -> Selector.classes k1 = Selector.classes k ++ item_classes [(b, n)] ->
    compound_loop parse_nested fuel true k1 (set_rest r' st) = Ret (consumed', k', st') ->
    reads_items k (c :: r) consumed consumed' k' (p_rest st')) as Hitem.
  { intros b n r' k1 En -> Et Ei Ec E. apply read_name_plain in En as (-> & Hn1 & Hn2); [|done].
    apply IH in E as (items & E1 & E2 & E3 & E4 & E5 & _); [|by apply plain_suffix in Hr]. cbn [p_rest set_rest] in E1.
    exists ((b, n) :: items). split_and!.
    - by rewrite print_items_cons, E1.
    - constructor; [by destruct b|done].
    - destruct E3, Et. congruence.
    - destruct E3, Et. congruence.
    - rewrite E4, Ei, <- app_assoc. by destruct b.
    - rewrite E5, Ec, <- app_assoc. by destruct b.
    - by right. }
  destruct (c =c ".") eqn:E1.
  { destruct (read_name r) as [[n r']|] eqn:En; [|done]. cbn [mbind result_bind]. intros E. apply eqc_true in E1.
    apply (Hitem false n r' (with_class n k)); [done|done|done|by symmetry; apply app_nil_r|done|exact E]. }
  destruct (c =c "#") eqn:E2.
  { destruct (read_name r) as [[n r']|] eqn:En; [|done]. cbn [mbind result_bind]. intros E. apply eqc_true in E2.
    apply (Hitem true n r' (with_id n k)); [done|done|done|done|by symmetry; apply app_nil_r|exact E]. }
  unfold plain_text in Hp. cbn [forallb] in Hp. apply andb_prop in Hp as [Hc _].
  assert ((c =c "[") = false /\ (c =c ":") = false) as [-> ->] by (revert Hc; by_ascii c).
  cbn [mbind result_bind]. intros E. by eapply Hstop.
Qed.

(** The text of a compound, as the compound says it. *)
Record compound_text (w : bytes) (k : Compound) (head : bytes) (items : list item) : Prop := {
  ct_text : w = head ++ print_items items;
  ct_head : (tag k = [] /\ (head = [] \/ head = lit "*")) \/ (tag k = to_lower head /\ forallb plain_char head = true);
  ct_items : Forall item_ok items;
  ct_ids : Selector.ids k = item_ids items;
  ct_classes : Selector.classes k = item_classes items;
  ct_universal : universal k = true -> tag k = [];
  ct_nonempty : w <> [] }.

Lemma parse_compound_plain st k st' : plain_text (p_rest st) -> parse_compound parse_nested st = Ret (k, st') ->
  exists w head items, p_rest st = w ++ p_rest st' /\ compound_text w k head items.
Proof.
  intros Hp. unfold parse_compound. destruct (throw_if _ _); [|done]. cbn [mbind result_bind].
  destruct (compound_head (p_rest st)) as [[[consumed k0] r]|] eqn:Eh; [|done]. cbn [mbind result_bind].
  assert (exists head, p_rest st = head ++ r /\ Selector.ids k0 = [] /\ Selector.classes k0 = [] /\ (consumed = true -> head <> []) /\ (universal k0 = true -> tag k0 = []) /\
    ((tag k0 = [] /\ (head = [] \/ head = lit "*")) \/ (tag k0 = to_lower head /\ forallb plain_char head = true))) as (head & Er & H1 & H2 & H3 & Hu & H4).
  { unfold compound_head in Eh. destruct (p_rest st) as [|c s] eqn:Es.
    { injection Eh as <- <- <-. exists []. split_and!; auto; try done. }
    destruct (c =c "*") eqn:E1; [injection Eh as <- <- <-; apply eqc_true in E1 as ->; exists (lit "*"); split_and!; auto; try done|].
    destruct (ident_start (c :: s)) eqn:E2; [|injection Eh as <- <- <-; exists []; split_and!; auto; try done].
    destruct (read_ident (c :: s)) as [[n r']|] eqn:En; [|done]. cbn [mbind result_bind] in Eh. injection Eh as <- <- <-.
    assert (n <> []) as Hn.
    { by eapply read_ident_some. }
    apply read_ident_plain in En as [E3 Hc]; [|done]. exists n. split_and!; auto; try done. }
  destruct (compound_loop _ _ _ _ _) as [[[c' k'] st2]|] eqn:El; [|done]. cbn [mbind result_bind].
  destruct c'; [|done]. intros [= <- <-]. apply compound_loop_plain in El as (items & E1 & E2 & [E3 E3'] & E4 & E5 & E6);
    [|cbn [p_rest]; rewrite Er in Hp; by apply plain_suffix in Hp].
  cbn [p_rest] in E1. exists (head ++ print_items items), head, items. split; [rewrite Er, E1; apply app_assoc|].
  split; try done.
  - by rewrite E3.
  - by rewrite E4, H1.
  - by rewrite E5, H2.
  - by rewrite E3, E3'.
  - intros [-> Hi]%app_nil. destruct (E6 eq_refl) as [->|Hne]; [by apply H3|]. by destruct items.
Qed.

End PlainParser.

(** The text in front of a compound: nothing, or it ends with white space or a combinator. *)
Definition separated (pre : bytes) : Prop := pre = [] \/ exists p c, pre = p ++ [c] /\ combinator_char c = true.


(** Neither a quote nor a comma. *)
Definition ordinary (c : ascii) : bool := negb (quote_char c || (c =c ",")).

(** The last compound of a selector stands behind [pre], and only white space behind it. *)
Definition last_compound (text : bytes) (sel : ComplexSelector) (pre w sp : bytes) (k : Compound) : Prop :=
  text = pre ++ w ++ sp /\ (separated pre /\ forallb ordinary pre = true) /\ forallb is_space sp = true /\ last (compounds sel) = Some k /\
  exists head items, compound_text w k head items.

Lemma skip_text p s : exists sp, s = sp ++ skip p s /\ forallb p sp = true.
Proof.
  exists (span p s). rewrite skip_span. split; [done|]. induction s as [|c s IH]; [done|]. simpl. destruct (p c) eqn:E; [|done]. simpl. by rewrite E.
Qed.

Lemma spaces_separated sp : forallb is_space sp = true -> sp <> [] -> separated sp.
Proof.
  intros H Hn. right. destruct (exists_last Hn) as (p & c & ->). exists p, c. split; [done|]. rewrite forallb_app in H.
  apply andb_prop in H as [_ H]. cbn in H. unfold combinator_char. by rewrite andb_true_r in H; rewrite H, !orb_true_r.
Qed.

Lemma separated_spaces p c sp : combinator_char c = true -> forallb is_space sp = true -> separated (p ++ c :: sp).
Proof.
  intros Hc Hs. destruct sp as [|d sp]; [right; by exists p, c|]. right. destruct (spaces_separated (d :: sp) Hs) as [?|(q & e & E & He)]; [done|done|].
  exists (p ++ c :: q), e. rewrite E, <- app_assoc. done.
Qed.

Lemma read_combinator_plain s o r : read_combinator s = Ret (o, r) ->
  exists w, s = w ++ r /\ forallb combinator_char w = true /\ match o with None => forallb is_space w = true | Some _ => separated w /\ w <> [] end.
Proof.
  assert (forall t, forallb is_space t = true -> forallb combinator_char t = true) as Hcs
    by (intros t; apply forallb_impl; intros c Hc; unfold combinator_char; by rewrite Hc, !orb_true_r).
  unfold read_combinator. destruct (skip_text is_space s) as (sp & Es & Hsp). set (r0 := skip is_space s) in *.
  assert (exists comb r1 mid, (match r0 with
    | c :: r' => if c =c ">" then (Child, r') else if c =c "+" then (Adjacent, r') else if c =c "~" then (Sibling, r') else (Descendant, r0)
    | [] => (Descendant, r0) end) = (comb, r1) /\ r0 = mid ++ r1 /\
    ((comb = Descendant /\ mid = []) \/ (comb <> Descendant /\ exists c, mid = [c] /\ combinator_char c = true))) as (comb & r1 & mid & -> & E0 & Hmid).
  { destruct r0 as [|c r']; [exists Descendant, [], []; auto|].
    destruct (c =c ">") eqn:E1; [exists Child, r', [c]; apply eqc_true in E1 as ->; split_and!; [done|done|right; split; [done|by exists ">"%char]]|].
    destruct (c =c "+") eqn:E2; [exists Adjacent, r', [c]; apply eqc_true in E2 as ->; split_and!; [done|done|right; split; [done|by exists "+"%char]]|].
    destruct (c =c "~") eqn:E3; [exists Sibling, r', [c]; apply eqc_true in E3 as ->; split_and!; [done|done|right; split; [done|by exists "~"%char]]|].
    exists Descendant, (c :: r'), []. auto. }
  assert (negb (head_is (fun c => negb (is_space c)) s) = true -> sp <> []) as Hsome.
  { intros H ->. destruct s as [|c s]; [done|]. cbn in H, Es. unfold r0 in Es. cbn in Es. apply negb_true_iff, negb_false_iff in H. rewrite H in Es.
    pose proof (f_equal length Es) as Hl. pose proof (length_skip is_space s). cbn in Hl. lia. }
  destruct (negb (negb (bool_decide (comb = Descendant))) && negb (negb (head_is (fun c => negb (is_space c)) s))) eqn:E1.
  { intros [= <- <-]. apply andb_prop in E1 as [E1 _]. apply negb_true_iff, negb_false_iff, bool_decide_eq_true in E1.
    exists sp. destruct Hmid as [[_ ->]|[? _]]; [|done]. split_and!; [by rewrite Es at 1; rewrite E0|auto|done]. }
  destruct (skip_text is_space r1) as (sp2 & E2 & Hsp2). destruct (ends_complex (skip is_space r1)).
  { destruct (bool_decide_reflect (comb = Descendant)) as [->|Hc]; [|done]. cbn. intros [= <- <-]. destruct Hmid as [[_ ->]|[? _]]; [|done].
    exists (sp ++ sp2). assert (forallb is_space (sp ++ sp2) = true) as Hall by by rewrite forallb_app, Hsp, Hsp2.
    split_and!; [rewrite Es at 1; rewrite E0; cbn [app]; rewrite E2 at 1; apply app_assoc|auto|done]. }
  intros [= <- <-]. exists (sp ++ mid ++ sp2). split; [rewrite Es at 1; rewrite E0; rewrite E2 at 1; by rewrite !app_assoc|].
  split; [rewrite !forallb_app, (Hcs _ Hsp), (Hcs _ Hsp2); destruct Hmid as [[_ ->]|[_ (c & -> & Hc)]]; [done|]; cbn [forallb]; by rewrite Hc|].
  destruct Hmid as [[-> ->]|[Hc (c & -> & Hcc)]].
  - rewrite bool_decide_true in E1 by done. cbn [negb andb] in E1. apply negb_false_iff in E1. specialize (Hsome E1). cbn [app].
    split; [|by intros [? _]%app_nil]. apply spaces_separated; [by rewrite forallb_app, Hsp, Hsp2|]. by intros [? _]%app_nil.
  - split; [by apply separated_spaces|]. by intros [_ ?]%app_nil.
Qed.

Lemma plain_ordinary s : forallb plain_char s = true -> forallb ordinary s = true.
Proof. apply forallb_impl. intros c. by_ascii c. Qed.

Lemma items_ordinary items : Forall item_ok items -> forallb ordinary (print_items items) = true.
Proof.
  induction 1 as [|[b n] items [_ Hn] _ IH]; [done|]. change (print_items ((b, n) :: items)) with (print_item (b, n) ++ print_items items).
  rewrite forallb_app, IH, andb_true_r. cbn [print_item forallb fst snd]. rewrite plain_ordinary by done. by destruct b.
Qed.

Lemma compound_ordinary w k head items : compound_text w k head items -> forallb ordinary w = true.
Proof.
  intros [-> Hh Hi _ _ _ _]. rewrite forallb_app, items_ordinary by done. rewrite andb_true_r.
  destruct Hh as [[_ [->| ->]]|[_ H]]; [done|done|by apply plain_ordinary].
Qed.

Lemma combinators_ordinary s : forallb combinator_char s = true -> forallb ordinary s = true.
Proof. apply forallb_impl. intros c. by_ascii c. Qed.

Lemma spaces_ordinary s : forallb is_space s = true -> forallb ordinary s = true.
Proof. apply forallb_impl. intros c. by_ascii c. Qed.

Lemma ordinary_no_quote s : forallb ordinary s = true -> none quote_char s = true.
Proof. apply forallb_impl. intros c. unfold ordinary. by destruct (quote_char c). Qed.

Section PlainSelectors.
Variable parse_nested : parser (list ComplexSelector).

Lemma separated_app a b : separated b -> b <> [] -> separated (a ++ b).
Proof. intros [->|(p & c & -> & Hc)] Hn; [done|]. right. exists (a ++ p), c. by rewrite app_assoc. Qed.

Lemma complex_loop_plain fuel : forall sel st sel' st' pre w k, plain_text (p_rest st) ->
  complex_loop parse_nested fuel sel st = Ret (sel', st') -> last_compound (pre ++ w) sel pre w [] k ->
  exists pre' w' sp' k', last_compound (pre' ++ w' ++ sp') sel' pre' w' sp' k' /\ pre ++ w ++ p_rest st = (pre' ++ w' ++ sp') ++ p_rest st'.
Proof.
  induction fuel as [|fuel IH]; intros sel st sel' st' pre w k Hp; cbn [complex_loop]; destruct (ends_complex (p_rest st)).
  1, 3: intros [= <- <-] Hk; exists pre, w, [], k; rewrite app_nil_r; split; [done|apply app_assoc].
  { done. }
  destruct (read_combinator (p_rest st)) as [[next r]|] eqn:Er; [|done]. cbn [mbind result_bind].
  apply read_combinator_plain in Er as (v & Ev & Hvc & Hv). intros E (E1 & [E2 E2'] & E3 & E4 & (hd & its & E5)). destruct next as [comb|].
  - destruct (parse_compound parse_nested (set_rest r st)) as [[k2 st2]|] eqn:Ek; [|done]. cbn [mbind result_bind] in E.
    assert (plain_text r) as Hr by (rewrite Ev in Hp; by apply plain_suffix in Hp).
    apply parse_compound_plain in Ek as (w2 & head & items & Ew & Hw2); [|exact Hr]. cbn [p_rest set_rest] in Ew. destruct Hv as [Hv Hvn].
    apply (IH _ _ _ _ (pre ++ w ++ v) w2 k2) in E as (pre' & w' & sp' & k' & H1 & H2).
    + exists pre', w', sp', k'. split; [done|]. rewrite <- H2, Ev, Ew, <- !app_assoc. done.
    + rewrite Ew in Hr. by apply plain_suffix in Hr.
    + split_and!; [by rewrite app_nil_r|rewrite app_assoc; by apply separated_app| |done|cbn; apply last_snoc|by exists head, items].
      by rewrite !forallb_app, E2', (compound_ordinary _ _ _ _ E5), (combinators_ordinary _ Hvc).
  - injection E as <- <-. exists pre, w, v, k. split; [split_and!; try done; by exists hd, its|]. cbn. rewrite Ev, <- !app_assoc. done.
Qed.

Lemma parse_complex_plain st sel st' lead : plain_text (p_rest st) -> forallb is_space lead = true ->
  parse_complex parse_nested st = Ret (sel, st') ->
  exists pre w sp k, last_compound (pre ++ w ++ sp) sel pre w sp k /\ lead ++ p_rest st = (pre ++ w ++ sp) ++ p_rest st'.
Proof.
  intros Hp Hl. unfold parse_complex. destruct (parse_compound parse_nested st) as [[k st1]|] eqn:Ek; [|done]. cbn [mbind result_bind].
  apply parse_compound_plain in Ek as (w & head & items & Ew & Hw); [|done]. intros E.
  apply (complex_loop_plain _ _ _ _ _ lead w k) in E as (pre & w' & sp & k' & H1 & H2).
  - exists pre, w', sp, k'. split; [done|]. by rewrite Ew.
  - rewrite Ew in Hp. by apply plain_suffix in Hp.
  - split_and!; [by rewrite app_nil_r| |by apply spaces_ordinary|done|done|by exists head, items].
    destruct (decide (lead = [])) as [->|]; [by left|by apply spaces_separated].
Qed.

(** What is read behind the first selector. *)
Lemma list_loop_plain fuel : forall sels st sels' st', plain_text (p_rest st) ->
  list_loop parse_nested fuel sels st = Ret (sels', st') -> exists w, p_rest st = w ++ p_rest st' /\ none quote_char w = true.
Proof.
  pose proof ordinary_no_quote as Hord.
  induction fuel as [|fuel IH]; intros sels st sels' st' Hp; cbn [list_loop]; destruct (p_rest st) as [|c r] eqn:Er;
    try (intros [= <- <-]; exists []; by rewrite Er).
  all: destruct (c =c ",") eqn:Ec; [|intros [= <- <-]; exists []; by rewrite Er]. 1: done.
  destruct (parse_complex parse_nested (skip_space (set_rest r st))) as [[sel st1]|] eqn:E1; [|done]. cbn [mbind result_bind]. intros E.
  destruct (skip_text is_space r) as (lead & El & Hl). assert (plain_text r) as Hr by exact (plain_suffix [c] r Hp).
  assert (plain_text (skip is_space r)) as Hr' by (rewrite El in Hr; by apply plain_suffix in Hr).
  apply parse_complex_plain with (lead := lead) in E1 as (pre & w & sp & k & (_ & [_ Ho] & Hsp & _ & (hd & its & Hw)) & E2); [|done|done].
  cbn [p_rest skip_space set_rest] in E2. rewrite <- El in E2.
  destruct (skip_text is_space (p_rest st1)) as (lead2 & El2 & Hl2).
  assert (plain_text (p_rest st1)) as Hp1 by (rewrite E2 in Hr; by apply plain_suffix in Hr).
  apply IH in E as (v & Ev & Hv); [|cbn [p_rest skip_space set_rest]; rewrite El2 in Hp1; by apply plain_suffix in Hp1].
  cbn [p_rest skip_space set_rest] in Ev. apply eqc_true in Ec as ->. exists (","%char :: (pre ++ w ++ sp) ++ lead2 ++ v).
  split; [cbn [app]; rewrite E2, El2, Ev; by rewrite <- !app_assoc|]. cbn [forallb].
  rewrite !forallb_app, Hv, (Hord _ Ho), (Hord _ (compound_ordinary _ _ _ _ Hw)), (Hord _ (spaces_ordinary _ Hsp)), (Hord _ (spaces_ordinary _ Hl2)). done.
Qed.

End PlainSelectors.

(** A selector of a rule without special characters is one selector, and its text ends with its
    last compound. *)
Lemma parse_plain text sels : plain_text text -> commas_ok text -> parse text = Ret sels ->
  exists sel pre w sp k, sels = [sel] /\ last_compound text sel pre w sp k.
Proof.
  intros Hp Hc. unfold parse. destruct (throw_if _ _); [|done]. cbn [mbind result_bind].
  change (parse_list 33 false) with (parse_list_body (parse_list 32 true) false). unfold parse_list_body.
  destruct (parse_complex _ (skip_space (initial_state text))) as [[sel st1]|] eqn:E1; [|done]. cbn [mbind result_bind].
  destruct (skip_text is_space text) as (lead & El & Hl).
  assert (plain_text (p_rest (skip_space (initial_state text)))) as Hp0 by (cbn; rewrite El in Hp; by apply plain_suffix in Hp).
  destruct (parse_complex_plain _ _ _ _ lead Hp0 Hl E1) as (pre & w & sp & k & (_ & [Hs Ho] & Hsp & Hk & (hd & its & Hw)) & E2).
  cbn [p_rest skip_space set_rest initial_state] in E2. rewrite <- El in E2.
  destruct (skip_text is_space (p_rest st1)) as (lead2 & El2 & Hl2).
  assert (text = (pre ++ w ++ sp ++ lead2) ++ p_rest (skip_space st1)) as Et
    by (rewrite E2 at 1; rewrite El2 at 1; cbn; by rewrite <- !app_assoc).
  destruct (list_loop _ _ _ _) as [[sels' st3]|] eqn:E3; [|done]. cbn [mbind result_bind].
  destruct (p_rest (skip_space st1)) as [|c r] eqn:Er.
  { cbn [length list_loop] in E3. rewrite Er in E3. injection E3 as <- <-. rewrite Er. intros [= <-].
    exists sel, pre, w, (sp ++ lead2), k. split; [done|]. rewrite app_nil_r in Et. split_and!; [done|done|done| |done|by exists hd, its].
    by rewrite forallb_app, Hsp, Hl2. }
  intros E4. exfalso. assert (plain_text (p_rest (skip_space st1))) as Hpr by (rewrite Et in Hp; rewrite Er; by apply plain_suffix in Hp).
  destruct (c =c ",") eqn:Ec; [|cbn [length list_loop] in E3; rewrite Er, Ec in E3; injection E3 as <- <-; by rewrite Er in E4].
  apply list_loop_plain in E3 as (v & Ev & Hv); [|done]. destruct (p_rest st3) as [|c3 r3]; [|done]. rewrite app_nil_r in Ev.
  apply eqc_true in Ec as ->. rewrite Er in Ev. destruct Hc as [Hc|Hc].
  - rewrite Et, forallb_app in Hc. apply andb_prop in Hc as [_ Hc]. done.
  - assert (none opener text = true); [|congruence].
    assert (none quote_char text = true) as Hq.
    { pose proof ordinary_no_quote as Hord. rewrite Et, Ev, !forallb_app, Hv, (Hord _ Ho), (Hord _ (compound_ordinary _ _ _ _ Hw)),
        (Hord _ (spaces_ordinary _ Hsp)), (Hord _ (spaces_ordinary _ Hl2)). done. }
    unfold plain_text in Hp. clear - Hp Hq. induction text as [|c s IH]; [done|]. cbn [forallb] in *.
    apply andb_prop in Hp as [Hp1 Hp2], Hq as [Hq1 Hq2]. rewrite IH by done. rewrite andb_true_r. revert Hp1 Hq1. by_ascii c.
Qed.

(** ** No bucket that is passed over holds a rule that matches *)

Lemma compound_no_combinator w k head items : compound_text w k head items -> none combinator_char w = true.
Proof.
  assert (forall s, forallb plain_char s = true -> none combinator_char s = true) as Hp by (intros s; apply forallb_impl; intros c; by_ascii c).
  intros [-> Hh Hi _ _ _ _]. rewrite forallb_app. apply andb_true_intro. split.
  - destruct Hh as [[_ [->| ->]]|[_ H]]; [done|done|by apply Hp].
  - induction Hi as [|[b n] items [_ Hn] _ IH]; [done|]. change (print_items ((b, n) :: items)) with (print_item (b, n) ++ print_items items).
    rewrite forallb_app, IH, andb_true_r. cbn [print_item forallb fst snd]. rewrite Hp by done. by destruct b.
Qed.

Lemma rightmost_last text sel pre w sp k : last_compound text sel pre w sp k -> rightmost text = w.
Proof.
  intros (-> & [Hs _] & Hsp & _ & (head & items & Hw)). pose proof (compound_no_combinator _ _ _ _ Hw) as Hn.
  unfold rightmost. assert (forallb combinator_char sp = true) as Hc
    by (eapply forallb_impl, Hsp; intros c H; unfold combinator_char; by rewrite H, !orb_true_r).
  rewrite app_assoc, rstrip_app_all by done. rewrite rstrip_app; [|by apply rstrip_none|apply Hw].
  destruct Hs as [->|(p & c & -> & Hcc)].
  - cbn [app]. by rewrite (proj2 (find_last_if_None _ _) Hn).
  - rewrite <- app_assoc. cbn [app]. rewrite find_last_if_mid by done. apply drop_app_S.
Qed.

(** Characters that the search for an id or a class passes over. *)
Definition passed (c : ascii) : bool := negb (quote_char c || (c =c "[") || (c =c "]") || (c =c "#") || (c =c ".")).

Lemma key_loop_passed s t key : forallb passed s = true -> key_loop (s ++ t) false false key = key_loop t false false key.
Proof.
  induction s as [|c s IH]; [done|]. cbn [forallb app key_loop]. intros [Hc Hs]%andb_prop. 
  assert (quote_char c = false /\ (c =c "[") = false /\ (c =c "]") = false /\ (c =c "#") = false /\ (c =c ".") = false) as (-> & -> & -> & -> & ->)
    by (revert Hc; by_ascii c).
  cbn [orb andb]. by apply IH.
Qed.

Lemma plain_passed s : forallb plain_char s = true -> forallb passed s = true.
Proof. apply forallb_impl. intros c. by_ascii c. Qed.

Lemma key_loop_done items : forall key, nonempty (key_id key) || nonempty (key_cls key) = true -> Forall item_ok items ->
  key_loop (print_items items) false false key = key.
Proof.
  intros key Hk. induction 1 as [|[b n] items [_ Hn] _ IH]; [done|].
  rewrite <- (app_nil_r (print_items _)), print_items_cons, app_nil_r. cbn [key_loop].
  assert (forall t, key_loop (n ++ t) false false key = key_loop t false false key) as Hskip by (intros t; by apply key_loop_passed, plain_passed).
  destruct b; cbn; rewrite ?andb_true_l; destruct (key_id key), (key_cls key); try done; cbn; by rewrite Hskip.
Qed.

Lemma key_loop_items items tag : Forall item_ok items -> let key := key_loop (print_items items) false false {| key_id := []; key_cls := []; key_tag := tag |} in
  key_tag key = tag /\ (key_id key = [] \/ key_id key ∈ item_ids items) /\ (key_cls key = [] \/ key_cls key ∈ item_classes items).
Proof.
  intros Hi. destruct Hi as [|[b n] items [Hne Hn] Hi]; [cbn; auto|].
  rewrite <- (app_nil_r (print_items _)), print_items_cons, app_nil_r. cbn [key_loop]. cbn [fst snd] in *.
  assert (span (fun c => negb (name_stop c)) (n ++ print_items items) = n) as Hspan.
  { rewrite span_app by (eapply forallb_impl, Hn; intros c; by_ascii c). destruct items as [|[b' n'] items]; [apply app_nil_r|].
    rewrite <- (app_nil_r (print_items _)), print_items_cons, span_stop by (by destruct b'). apply app_nil_r. }
  assert (forall key, nonempty (key_id key) || nonempty (key_cls key) = true -> key_loop (n ++ print_items items) false false key = key) as Hk
    by (intros key H; rewrite key_loop_passed by (by apply plain_passed); by apply key_loop_done).
  destruct n as [|x n]; [done|]. destruct b; cbn [quote_char opening key_id key_cls key_tag nonempty negb andb].
  - change (quote_char "#") with false. change ("#" =c "[")%char with false. change ("#" =c "]")%char with false.
    change ("#" =c "#")%char with true. cbv iota. cbn [orb]. rewrite Hspan, Hk by done. cbn. split_and!; [done|right; left|by left].
  - change (quote_char ".") with false. change ("." =c "[")%char with false. change ("." =c "]")%char with false.
    change ("." =c "#")%char with false. change ("." =c ".")%char with true. cbv iota. cbn [orb]. rewrite Hspan, Hk by done. cbn.
    split_and!; [done|by left|right; left].
Qed.

(** The key of a selector is part of what its last compound asks for. *)
Lemma bucket_of_last text sel pre w sp k : plain_text text -> last_compound text sel pre w sp k ->
  (key_tag (bucket_of text) = [] \/ key_tag (bucket_of text) = tag k) /\
  (key_id (bucket_of text) = [] \/ key_id (bucket_of text) ∈ Selector.ids k) /\
  (key_cls (bucket_of text) = [] \/ key_cls (bucket_of text) ∈ Selector.classes k).
Proof.
  intros Hp Hl. unfold bucket_of. rewrite Hp. cbn [negb]. rewrite (rightmost_last _ _ _ _ _ _ Hl).
  destruct Hl as (_ & _ & _ & _ & (head & items & [-> Hh Hi Hids Hcls _ _])).
  assert (forallb passed head = true /\ forallb (fun c => negb (tag_stop c)) head = true) as [Hpa Hts].
  { destruct Hh as [[_ [->| ->]]|[_ H]]; [done|done|]. split; [by apply plain_passed|]. eapply forallb_impl, H. intros c. by_ascii c. }
  rewrite key_loop_passed by done. rewrite span_app by done.
  assert (span (fun c => negb (tag_stop c)) (print_items items) = []) as ->.
  { destruct items as [|[b n] items]; [done|]. rewrite <- (app_nil_r (print_items _)), print_items_cons. apply span_stop. by destruct b. }
  rewrite app_nil_r, Hids, Hcls. destruct (key_loop_items items (if to_lower head =s lit "*" then [] else to_lower head) Hi) as (-> & H2 & H3).
  split_and!; [|done|done]. destruct Hh as [[_ [->| ->]]|[-> _]]; [by left|by left|]. destruct (to_lower head =s lit "*"); [by left|by right].
Qed.

Section Sound.
Context (d : dom) (node : nat).

Lemma match_last sel k : last (compounds sel) = Some k -> matches d node [sel] = Ret true -> match_simple d node k = true.
Proof.
  intros Hk. unfold matches. cbn [any_of]. unfold match_complex. rewrite last_lookup in Hk.
  replace (length (compounds sel) - 1) with (pred (length (compounds sel))) by lia. set (i := pred _) in *.
  assert (map (match_compound d) (compounds sel) !! i = Some (match_compound d k)) as Hm by (change (map ?f ?l) with (f <$> l); by rewrite list_lookup_fmap, Hk).
  destruct i as [|i]; cbn [match_chain]; rewrite Hm; (destruct k as [? ? ? ? ? ?]; cbn [match_compound]);
    (destruct (match_simple d node _); [done|]); done.
Qed.

Lemma split_loop_part s : forall current w, w ∈ SelectorMatch.split_loop current s -> exists a b, current ++ s = a ++ w ++ b.
Proof.
  induction s as [|c s IH]; intros current w; cbn [SelectorMatch.split_loop].
  - destruct (nonempty current); [|by intros ?%elem_of_nil]. intros ->%list_elem_of_singleton. by exists [], [].
  - destruct (is_space c).
    + assert (w ∈ SelectorMatch.split_loop [] s -> exists a b, current ++ c :: s = a ++ w ++ b) as H.
      { intros (a & b & E)%IH. exists (current ++ c :: a), b. cbn [app] in E. by rewrite E, <- app_assoc. }
      destruct (nonempty current); [|done]. intros [->|Hw]%elem_of_cons; [|auto]. by exists [], (c :: s).
    + intros (a & b & E)%IH. exists a, b. by rewrite <- E, <- app_assoc.
Qed.

Lemma compatible_of_compound key k w head items : compound_text w k head items -> match_simple d node k = true ->
  (key_tag key = [] \/ key_tag key = tag k) -> (key_id key = [] \/ key_id key ∈ Selector.ids k) ->
  (key_cls key = [] \/ key_cls key ∈ Selector.classes k) -> bucket_compatible d key node = true.
Proof.
  intros [_ Hh _ _ _ Hu _] H Ht Hi Hc. unfold match_simple in H. do 4 (apply andb_prop in H as [H ?]). rename H3 into Htag, H2 into Hids, H1 into Hcls.
  unfold bucket_compatible. apply andb_true_intro. split; [apply andb_true_intro; split|].
  - destruct Ht as [->| ->]; [done|]. destruct (tag k) as [|c u] eqn:E; [done|]. cbn [nonempty negb orb] in *.
    destruct (universal k); [specialize (Hu eq_refl); congruence|]. cbn [orb] in Htag. apply eqb_bytes_true in Htag as ->.
    destruct Hh as [[? _]|[-> _]]; [done|]. apply eqb_bytes_true, to_lower_idemp.
  - destruct Hi as [->|Hi]; [done|]. rewrite forallb_forall in Hids. apply list_elem_of_In, Hids in Hi.
    destruct (attribute d node (lit "id")) as [v|]; [|done]. cbn beta iota in Hi. change (default [] (Some v)) with v. rewrite Hi. apply orb_true_r.
  - destruct Hc as [->|Hc]; [done|]. destruct (Selector.classes k) as [|c0 l]; [by apply elem_of_nil in Hc|]. cbn [nonempty negb orb] in Hcls.
    destruct (attribute d node (lit "class")) as [v|]; [|done]. change (default [] (Some v)) with v. cbn beta iota in Hcls. rewrite forallb_forall in Hcls. apply list_elem_of_In, Hcls in Hc.
    apply existsb_exists in Hc as (x & Hx & Ex). apply eqb_bytes_true in Ex as ->. apply list_elem_of_In, split_loop_part in Hx as (a & b & E).
    cbn [app] in E. destruct (find_sub_at (key_cls key) v (length a)) as (m & -> & _); [rewrite E, drop_app_length; apply starts_with_app|]. apply orb_true_r.
Qed.

(** The comment of the source: a bucket miss is a guaranteed non-match. *)
Lemma bucket_sound text : commas_ok text -> element_matches d node text = Ret true -> bucket_compatible d (bucket_of text) node = true.
Proof.
  intros Hc. unfold element_matches. destruct (none unkeyed_char text) eqn:Hp.
  2: { intros _. unfold bucket_of. by rewrite Hp. }
  intros (sels & E & Hm)%bind_Ret. apply parse_plain in E as (sel & pre & w & sp & k & -> & Hl); [|done|done].
  destruct (bucket_of_last _ _ _ _ _ _ Hp Hl) as (H1 & H2 & H3). destruct Hl as (_ & _ & _ & Hk & (head & items & Hw)).
  eapply compatible_of_compound; [exact Hw|by apply (match_last sel)|done|done|done].
Qed.

End Sound.
