(* ===== verification/Cascade.v ===== *)
(** * Cascade: which declarations win, [src/core/render/style_resolver.cpp]

    The rules of the user agent and of the [<style>] elements, their buckets, the order of
    declarations, inline styles, and the loop of [resolve_computed_styles] up to the declared
    values of every element.  The map of the buckets is unordered: it is a list here, and the
    order in which it is visited is a parameter.  Computed values (floating point) are left out. *)
From S2P Require Import Prelude Html HtmlTree Dom Selector SelectorMatch Css Bucket.

(** ** Declarations in order *)

Definition UserAgent : N := 0.
Definition Author : N := 1.

Record Declared := {
  d_value : bytes; d_important : bool; d_origin : N; d_id : N; d_cls : N; d_type : N; d_order : N }.

Definition beats (self other : Declared) : bool :=
  if negb (Bool.eqb (d_important self) (d_important other)) then d_important self
  else if negb (d_origin self =? d_origin other)%N then (d_origin other <? d_origin self)%N
  else if negb (d_id self =? d_id other)%N then (d_id other <? d_id self)%N
  else if negb (d_cls self =? d_cls other)%N then (d_cls other <? d_cls self)%N
  else if negb (d_type self =? d_type other)%N then (d_type other <? d_type self)%N
  else (d_order other <=? d_order self)%N.

Abbreviation DeclaredMap := (gmap bytes Declared).

(** The candidate replaces what it beats. *)
Definition put (name : bytes) (candidate : Declared) (target : DeclaredMap) : DeclaredMap :=
  match target !! name with
  | Some found => if beats candidate found then <[name := candidate]> target else target
  | None => <[name := candidate]> target
  end.

(** ** Rules in buckets *)

Record RuleRef := { ref_rule : CssRule; ref_origin : N }.

Record BucketedSheet := { unkeyed : list RuleRef; keyed : list (BucketKey * list RuleRef) }.

Fixpoint add_keyed (key : BucketKey) (ref : RuleRef) (l : list (BucketKey * list RuleRef)) : list (BucketKey * list RuleRef) :=
  match l with
  | [] => [(key, [ref])]
  | (k, refs) :: l' => if decide (k = key) then (k, refs ++ [ref]) :: l' else (k, refs) :: add_keyed key ref l'
  end.

Definition bucket (rules : list RuleRef) : BucketedSheet :=
  foldl (fun sheet ref =>
    let key := bucket_of (selector (ref_rule ref)) in
    if is_no_key key then {| unkeyed := unkeyed sheet ++ [ref]; keyed := keyed sheet |}
    else {| unkeyed := unkeyed sheet; keyed := add_keyed key ref (keyed sheet) |}) {| unkeyed := []; keyed := [] |} rules.

(** ** The declarations of a rule and of a [style] attribute *)

Fixpoint apply_loop (ref : RuleRef) (l : list Declaration) (order_counter : N) (target : DeclaredMap) : DeclaredMap :=
  match l with
  | [] => target
  | declaration :: l' =>
      apply_loop ref l' (order_counter + 1)
        (put (property declaration)
           {| d_value := value declaration; d_important := important declaration; d_origin := ref_origin ref;
              d_id := Css.ids (specificity (ref_rule ref)); d_cls := Css.classes (specificity (ref_rule ref));
              d_type := types (specificity (ref_rule ref));
              d_order := order (ref_rule ref) * (max_render_declarations + 1) + order_counter mod (max_render_declarations + 1) |}
           target)
  end.

Definition apply (ref : RuleRef) (target : DeclaredMap) : DeclaredMap := apply_loop ref (declarations (ref_rule ref)) 0 target.

Definition trim_view (text : bytes) : bytes := rstrip is_blank (skip is_blank text).

Definition inline_specificity : N := N.shiftl 1 20.

Definition read_inline (text : bytes) : option Declaration :=
  colon ← find_if (fun c => c =c ":") text;
  let property := trim_view (take colon text) in
  let value := trim_view (drop (colon + 1) text) in
  let '(value, important) :=
    match find_last_if (fun c => c =c "!") value with
    | Some bang =>
        if iequals (trim_view (drop (bang + 1) value)) (lit "important") then (trim_view (take bang value), true) else (value, false)
    | None => (value, false)
    end in
  if nonempty property && nonempty value && negb (starts_with (lit "--") property)
  then Some {| property := property; value := value; important := important |} else None.

Definition inline_candidate (d : Declaration) (order_counter : N) : Declared :=
  {| d_value := value d; d_important := important d; d_origin := Author; d_id := inline_specificity; d_cls := 0; d_type := 0;
     d_order := order_counter |}.

Fixpoint inline_loop (fuel : nat) (style_text : bytes) (order_counter : N) (target : DeclaredMap) : DeclaredMap :=
  match fuel with
  | O => target
  | S fuel' =>
      let n := declaration_end style_text 0 None in
      let '(order_counter, target) :=
        match read_inline (take n style_text) with
        | Some d => ((order_counter + 1)%N, put (property d) (inline_candidate d order_counter) target)
        | None => (order_counter, target)
        end in
      if length style_text <=? n then target else inline_loop fuel' (drop (n + 1) style_text) order_counter target
  end.

Definition apply_inline (style_text : bytes) (target : DeclaredMap) (order_counter : N) : DeclaredMap :=
  inline_loop (S (length style_text)) style_text order_counter target.

Definition user_agent_stylesheet : bytes := lit "
html, body, div, p, h1, h2, h3, h4, h5, h6, ul, ol, li, dl, dt, dd, blockquote,
pre, form, fieldset, legend, header, footer, main, nav, section, article, aside,
figure, figcaption, address, hr, table, thead, tbody, tfoot, tr, details,
summary, hgroup, output, fieldset, legend, center, menu, dir, optgroup {
  display: block;
}
head, script, style, template, meta, link, title, base, param, source, track,
datalist { display: none; }
li { display: list-item; }
table { display: table; }
thead, tbody, tfoot, tr { display: table-row; }
td, th { display: table-cell; }
caption { display: table-caption; }
body { margin: 8px; }
p { margin: 1em 0; }
h1 { font-size: 2em; font-weight: bold; margin: 0.67em 0; }
h2 { font-size: 1.5em; font-weight: bold; margin: 0.83em 0; }
h3 { font-size: 1.17em; font-weight: bold; margin: 1em 0; }
h4 { font-weight: bold; margin: 1.33em 0; }
h5 { font-size: 0.83em; font-weight: bold; margin: 1.67em 0; }
h6 { font-size: 0.67em; font-weight: bold; margin: 2.33em 0; }
blockquote { margin: 1em 40px; }
figure { margin: 1em 40px; }
ul, ol, menu, dir { margin: 1em 0; padding-left: 40px; list-style-type: disc; }
ul ul, ul ol, ol ul, ol ol, menu ul, dir ul { margin: 0; }
dl { margin: 1em 0; }
dd { margin-left: 40px; }
hr { margin: 0.5em auto; border-width: 1px; border-style: inset; }
pre { font-family: monospace; white-space: pre; margin: 1em 0; }
code, kbd, samp, tt { font-family: monospace; }
b, strong, th { font-weight: bold; }
i, em, cite, var, dfn, address { font-style: italic; }
u, ins { text-decoration: underline; }
s, strike, del { text-decoration: line-through; }
a[href] { cursor: pointer; }
small { font-size: 0.83em; }
big { font-size: 1.17em; }
sub { vertical-align: sub; font-size: 0.83em; }
sup { vertical-align: super; font-size: 0.83em; }
mark { background-color: #ffff00; color: #000000; }
center { text-align: center; }
table { border-spacing: 2px; }
caption { text-align: center; }
th { text-align: center; }
td, th, tr { vertical-align: middle; }
ol, ol ul, ol ol { list-style-type: decimal; }
ul ul, ul ol { list-style-type: circle; }
ul ul ul, ul ol ul, ul ul ol, ul ol ol { list-style-type: square; }
form { margin-top: 0; }
fieldset { margin: 0 2px; padding: 0.35em 0.75em 0.625em; border-width: 2px;
           border-style: groove; }
legend { padding: 0 2px; }
input, textarea, select, button { display: inline-block; font-size: 1em; }
input { width: 20em; height: 2em; padding: 1px 2px; border-width: 1px;
        border-style: inset; }
textarea { width: 30em; height: 4em; padding: 2px; border-width: 1px;
           border-style: inset; white-space: pre-wrap; }
button, input[type=button], input[type=submit], input[type=reset] {
  width: auto; height: auto; padding: 1px 6px; border-width: 1px;
  border-style: outset; text-align: center; cursor: pointer;
}
select { width: auto; height: 2em; padding: 1px; border-width: 1px;
         border-style: solid; }
input[type=checkbox], input[type=radio] { width: 1.2em; height: 1.2em;
                                          padding: 0; }
input[type=hidden] { display: none; }
summary { cursor: pointer; font-weight: bold; }
[hidden] { display: none; }
dialog:not([open]) { display: none; }
".

(** ** The resolver *)

Definition max_render_elements : N := 40000.
Definition max_matches : N := 2000000.

Section Resolver.
Context (d : dom).

(** [Element::matches], where a selector that cannot be parsed matches nothing. *)
Definition rule_matches (node : nat) (text : bytes) : result bool :=
  match element_matches d node text with Throw ParseError => Ret false | r => r end.

(** [match_budget-- == 0] throws. *)
Definition charge (budget : N) : result N := _ ← throw_if (budget =? 0)%N ResourceLimit; Ret (budget - 1)%N.

Definition matched (star : bool) (node : nat) (ref : RuleRef) : result bool :=
  if star && (selector (ref_rule ref) =s lit "*") then Ret true else rule_matches node (selector (ref_rule ref)).

Fixpoint match_refs (star : bool) (node : nat) (refs : list RuleRef) (declared : DeclaredMap) (budget : N) : result (DeclaredMap * N) :=
  match refs with
  | [] => Ret (declared, budget)
  | ref :: refs' =>
      budget ← charge budget;
      b ← matched star node ref;
      match_refs star node refs' (if b : bool then apply ref declared else declared) budget
  end.

Fixpoint match_buckets (node : nat) (l : list (BucketKey * list RuleRef)) (declared : DeclaredMap) (budget : N) : result (DeclaredMap * N) :=
  match l with
  | [] => Ret (declared, budget)
  | (key, refs) :: l' =>
      budget ← charge budget;
      if bucket_compatible d key node then
        '(declared, budget) ← match_refs false node refs declared budget; match_buckets node l' declared budget
      else match_buckets node l' declared budget
  end.

(** The declarations for an element, with the budgets that are left. *)
Definition declared_for (rule_count : N) (sheets : BucketedSheet) (node : nat) (budget inline_bytes : N) : result (DeclaredMap * N * N) :=
  '(declared, budget) ← match_refs true node (unkeyed sheets) ∅ budget;
  '(declared, budget) ← match_buckets node (keyed sheets) declared budget;
  match attribute d node (lit "style") with
  | None => Ret (declared, budget, inline_bytes)
  | Some inline_style =>
      let inline_bytes := (inline_bytes + N.of_nat (length inline_style))%N in
      _ ← throw_if (max_render_stylesheet_bytes <? inline_bytes)%N ResourceLimit;
      Ret (apply_inline inline_style declared ((rule_count + 1) * (max_render_declarations + 1)), budget, inline_bytes)
  end.

Fixpoint declared_all (rule_count : N) (sheets : BucketedSheet) (elements : list (nat * option nat)) (budget inline_bytes : N)
  : result (list DeclaredMap) :=
  match elements with
  | [] => Ret []
  | (node, _) :: l =>
      '(declared, budget, inline_bytes) ← declared_for rule_count sheets node budget inline_bytes;
      rest ← declared_all rule_count sheets l budget inline_bytes;
      Ret (declared :: rest)
  end.

(** The elements in document order, each with the index of the nearest element above it; the top of
    the stack comes first. *)
Fixpoint gather_loop (fuel : nat) (pending elements : list (nat * option nat)) : result (list (nat * option nat)) :=
  match pending, fuel with
  | [], _ => Ret elements
  | _, O => Throw Internal
  | (node, parent) :: pending', S fuel' =>
      let go (child_parent : option nat) (elements : list (nat * option nat)) :=
        gather_loop fuel' (map (fun c => (c, child_parent)) (children_of d node) ++ pending') elements in
      if is_element d node then
        _ ← throw_if (max_render_elements <=? N.of_nat (length elements))%N ResourceLimit;
        go (Some (length elements)) (elements ++ [(node, parent)])
      else go parent elements
  end.

Definition gather_elements (root : nat) : result (list (nat * option nat)) :=
  gather_loop (size (nodes d)) (map (fun c => (c, None)) (children_of d root)) [].

(** The text of the [<style>] elements, and whether the document or the text was too long. *)
Fixpoint style_loop (fuel : nat) (pending : list nat) (depth : N) (combined : bytes) : bytes * bool :=
  match pending, fuel with
  | [], _ => (combined, false)
  | _, O => (combined, true)
  | node :: pending', S fuel' =>
      let depth := (depth + 1)%N in
      if (max_render_elements <? depth)%N then (combined, true)
      else if is_element d node && (to_lower (name_of d node) =s lit "style") then
        let content := element_text d node in
        if (max_render_stylesheet_bytes <? N.of_nat (length combined + length content))%N then (combined, true)
        else style_loop fuel' (children_of d node ++ pending') depth (combined ++ content ++ [byte 10])
      else style_loop fuel' (children_of d node ++ pending') depth combined
  end.

Definition collect_style_text (root : nat) : bytes * bool := style_loop (size (nodes d)) (children_of d root) 0 [].

(** [append]: the rules of a sheet get the numbers that follow. *)
Definition append (sheet : list CssRule) (origin : N) (rules : list RuleRef) : list RuleRef :=
  rules ++ imap (fun i r =>
    {| ref_rule := {| selector := selector r; declarations := declarations r; specificity := specificity r;
                      order := N.of_nat (length rules + i) |};
       ref_origin := origin |}) sheet.

(** The rules of the user agent and of the document. *)
Definition all_rules (root : nat) : result (list RuleRef * bool) :=
  ua ← parse_stylesheet user_agent_stylesheet;
  let '(author_text, limited) := collect_style_text root in
  author ← (if nonempty author_text then parse_stylesheet author_text else Ret []);
  Ret (append author Author (append ua UserAgent []), limited).

(** [resolve_computed_styles] up to the declared values; [visit] is the order in which the
    unordered map of the buckets is iterated. *)
Definition resolve_declared (visit : list (BucketKey * list RuleRef) -> list (BucketKey * list RuleRef)) (root : nat)
  : result (list (nat * option nat) * list DeclaredMap * bool) :=
  elements ← gather_elements root;
  '(rules, limited) ← all_rules root;
  let sheets := bucket rules in
  l ← declared_all (N.of_nat (length rules)) {| unkeyed := unkeyed sheets; keyed := visit (keyed sheets) |} elements max_matches 0;
  Ret (elements, l, limited).

End Resolver.

(** ** The order of declarations *)

(** Lexicographic order on lists of numbers of the same length. *)
Fixpoint lex_ge (a b : list N) : bool :=
  match a, b with
  | x :: a', y :: b' => if (x =? y)%N then lex_ge a' b' else (y <? x)%N
  | _, _ => true
  end.

Definition rank (c : Declared) : list N :=
  [if d_important c then 1%N else 0%N; d_origin c; d_id c; d_cls c; d_type c; d_order c].

Lemma beats_rank a b : beats a b = lex_ge (rank a) (rank b).
Proof.
  unfold beats, rank. cbn [lex_ge]. assert (forall x y, (y <=? x)%N = if (x =? y)%N then true else (y <? x)%N) as Hle.
  { intros x y. destruct (N.eqb_spec x y) as [->|]; [apply N.leb_refl|]. apply eq_true_iff_eq. rewrite N.leb_le, N.ltb_lt. lia. }
  rewrite Hle. destruct (d_important a), (d_important b); try reflexivity; cbn;
    repeat match goal with |- context [(?x =? ?y)%N] => destruct (x =? y)%N; cbn end; reflexivity.
Qed.

Lemma lex_total a : forall b, lex_ge a b = true \/ lex_ge b a = true.
Proof.
  induction a as [|x a IH]; intros [|y b]; auto. cbn [lex_ge]. rewrite (N.eqb_sym y x). destruct (N.eqb_spec x y); [apply IH|].
  rewrite !N.ltb_lt. lia.
Qed.

Lemma lex_trans a : forall b c, length a = length b -> lex_ge a b = true -> lex_ge b c = true -> lex_ge a c = true.
Proof.
  induction a as [|x a IH]; intros [|y b] [|z c] Hl; try done. cbn [lex_ge]. injection Hl as Hl.
  destruct (N.eqb_spec x y), (N.eqb_spec y z), (N.eqb_spec x z); rewrite ?N.ltb_lt; subst; try lia; try done.
  intros. by eapply IH.
Qed.

Lemma lex_antisym a : forall b, length a = length b -> lex_ge a b = true -> lex_ge b a = true -> a = b.
Proof.
  induction a as [|x a IH]; intros [|y b] Hl; try done. cbn [lex_ge]. rewrite (N.eqb_sym y x). injection Hl as Hl.
  destruct (N.eqb_spec x y) as [->|]; [intros; f_equal; by apply IH|]. rewrite !N.ltb_lt. lia.
Qed.

Lemma beats_refl a : beats a a = true.
Proof. rewrite beats_rank. by destruct (lex_total (rank a) (rank a)). Qed.

Lemma beats_total a b : beats a b = false -> beats b a = true.
Proof. rewrite !beats_rank. intros H. by destruct (lex_total (rank a) (rank b)) as [E|E]; [rewrite E in H|]. Qed.

Lemma beats_trans a b c : beats a b = true -> beats b c = true -> beats a c = true.
Proof. rewrite !beats_rank. by apply lex_trans. Qed.

Lemma beats_antisym a b : beats a b = true -> beats b a = true -> d_order a = d_order b.
Proof. rewrite !beats_rank. intros H1 H2. pose proof (lex_antisym (rank a) (rank b) eq_refl H1 H2) as E. by injection E. Qed.

(** ** The winner of a set of candidates *)

Definition candidate : Type := bytes * Declared.

(** A property keeps the candidate that beats all of its candidates. *)
Definition wins (P : bytes -> Declared -> Prop) (name : bytes) (c : Declared) : Prop :=
  P name c /\ forall c', P name c' -> beats c c' = true.

Definition put_all (l : list candidate) (target : DeclaredMap) : DeclaredMap := foldl (fun m '(name, c) => put name c m) target l.

(** Candidates differ in their order. *)
Definition ordered (P : bytes -> Declared -> Prop) : Prop := forall n1 c1 n2 c2, P n1 c1 -> P n2 c2 -> d_order c1 = d_order c2 -> n1 = n2 /\ c1 = c2.

Definition won (P : bytes -> Declared -> Prop) (m : DeclaredMap) : Prop := forall name c, m !! name = Some c <-> wins P name c.

Lemma put_won P m name c : won P m -> (forall n c', P n c' -> is_Some (m !! n)) -> ordered (fun n c' => P n c' \/ (n, c') = (name, c)) ->
  won (fun n c' => P n c' \/ (n, c') = (name, c)) (put name c m).
Proof.
  intros Hm Hdom Ho n x. unfold put. destruct (decide (n = name)) as [->|Hn].
  2: { assert ((if m !! name is Some found then if beats c found then <[name := c]> m else m else <[name := c]> m) !! n = m !! n) as ->
         by (destruct (m !! name) as [f|]; [destruct (beats c f)|]; rewrite ?lookup_insert_ne by congruence; reflexivity).
       rewrite (Hm n x). unfold wins. split.
       - intros [H1 H2]. split; [by left|]. intros c' [H|[= -> ->]]; [by apply H2|done].
       - intros [[H|[= -> ->]] H2]; [|done]. split; [done|]. auto. }
  destruct (m !! name) as [f|] eqn:E.
  - apply Hm in E as [Ef Hf]. destruct (beats c f) eqn:Eb.
    + rewrite lookup_insert_eq. split.
      * intros [= <-]. split; [by right|]. intros c' [H|[= ->]]; [|apply beats_refl]. eapply beats_trans; [exact Eb|by apply Hf].
      * intros [[H|[= ->]] H2]; [|done]. f_equal. assert (beats x c = true) as Hx by (apply H2; by right).
        assert (beats c x = true) as Hc by (eapply beats_trans; [exact Eb|by apply Hf]).
        pose proof (beats_antisym _ _ Hc Hx) as Heq. by apply (Ho name c name x) in Heq as [_ ->]; [|right|left].
    + assert (m !! name = Some f) as E by (by apply Hm). split.
      * intros Hx. assert (x = f) as -> by congruence. split; [by left|]. intros c' [H|[= ->]]; [by apply Hf|by apply beats_total].
      * intros [Hx H2]. rewrite E. f_equal. assert (beats x f = true) as Hxf by (apply H2; by left). destruct Hx as [Hx|[= ->]]; [|congruence].
        pose proof (beats_antisym _ _ Hxf (Hf x Hx)) as Heq. by apply (Ho name x name f) in Heq as [_ ->]; [|left|left].
  - rewrite lookup_insert_eq. assert (forall c', ~ P name c') as Hno by (intros c' H; apply Hdom in H; rewrite E in H; by destruct H). split.
    + intros [= <-]. split; [by right|]. intros c' [H|[= ->]]; [by apply Hno in H|apply beats_refl].
    + intros [[H|[= ->]] _]; [by apply Hno in H|done].
Qed.

Lemma won_ext P Q m : (forall n c, P n c <-> Q n c) -> won P m -> won Q m.
Proof. intros H Hm n c. rewrite (Hm n c). unfold wins. rewrite H. split; intros [? H2]; (split; [done|]); intros c' ?%H; by apply H2. Qed.

Lemma put_dom name c m n : is_Some (put name c m !! n) <-> is_Some (m !! n) \/ n = name.
Proof.
  unfold put. destruct (m !! name) as [f|] eqn:E; [destruct (beats c f)|]; rewrite ?lookup_insert_is_Some; destruct (decide (n = name)) as [->|];
    rewrite ?E; naive_solver.
Qed.

Lemma put_all_won l : forall P m, won P m -> (forall n c, P n c -> is_Some (m !! n)) ->
  ordered (fun n c => P n c \/ (n, c) ∈ l) -> won (fun n c => P n c \/ (n, c) ∈ l) (put_all l m).
Proof.
  induction l as [|[name c] l IH]; intros P m Hm Hd Ho.
  { eapply won_ext, Hm. intros n c. rewrite elem_of_nil. tauto. }
  eapply won_ext; [|apply (IH (fun n c' => P n c' \/ (n, c') = (name, c)) (put name c m))].
  - intros n c'. rewrite elem_of_cons. tauto.
  - apply put_won; [done|done|]. intros n1 c1 n2 c2 H1 H2. apply Ho; rewrite elem_of_cons; tauto.
  - intros n c' [H|[= -> _]]; apply put_dom; [left; by eapply Hd|by right].
  - intros n1 c1 n2 c2 H1 H2. apply Ho; rewrite elem_of_cons; tauto.
Qed.

Lemma put_all_empty l : ordered (fun n c => (n, c) ∈ l) -> won (fun n c => (n, c) ∈ l) (put_all l ∅).
Proof.
  intros Ho. apply won_ext with (P := fun n c => False \/ (n, c) ∈ l); [tauto|]. apply put_all_won.
  - intros n c. rewrite lookup_empty. split; [done|by intros [[] _]].
  - done.
  - intros n1 c1 n2 c2 [[]|H1] [[]|H2]. by apply Ho.
Qed.

Lemma put_all_app l1 l2 m : put_all (l1 ++ l2) m = put_all l2 (put_all l1 m).
Proof. apply foldl_app. Qed.

(** The same candidates in any order. *)
Lemma put_all_ext l1 l2 : ordered (fun n c => (n, c) ∈ l1) -> (forall x, x ∈ l1 <-> x ∈ l2) -> put_all l1 ∅ = put_all l2 ∅.
Proof.
  intros Ho H. pose proof (put_all_empty l1 Ho) as H1.
  assert (won (fun n c => (n, c) ∈ l1) (put_all l2 ∅)) as H2.
  { eapply won_ext; [|apply put_all_empty]; [intros n c; symmetry; apply H|].
    intros n1 c1 n2 c2 E1 E2. by apply Ho; apply H. }
  apply map_eq. intros n. apply option_eq. intros c. by rewrite (H1 n c), (H2 n c).
Qed.

(** ** The candidates of a rule and of an inline style *)

Fixpoint candidates_from (ref : RuleRef) (counter : N) (l : list Declaration) : list candidate :=
  match l with
  | [] => []
  | d :: l' =>
      (property d,
       {| d_value := value d; d_important := important d; d_origin := ref_origin ref; d_id := Css.ids (specificity (ref_rule ref));
          d_cls := Css.classes (specificity (ref_rule ref)); d_type := types (specificity (ref_rule ref));
          d_order := order (ref_rule ref) * (max_render_declarations + 1) + counter mod (max_render_declarations + 1) |})
      :: candidates_from ref (counter + 1) l'
  end.

Definition rule_candidates (ref : RuleRef) : list candidate := candidates_from ref 0 (declarations (ref_rule ref)).

Lemma apply_put_all ref m : apply ref m = put_all (rule_candidates ref) m.
Proof.
  unfold apply, rule_candidates. generalize 0%N. revert m. generalize (declarations (ref_rule ref)).
  intros l. induction l as [|d l IH]; intros m k; [done|]. cbn [apply_loop candidates_from put_all foldl]. apply IH.
Qed.

Fixpoint inline_from (fuel : nat) (style_text : bytes) (order_counter : N) : list candidate :=
  match fuel with
  | O => []
  | S fuel' =>
      let n := declaration_end style_text 0 None in
      let rest (k : N) := if length style_text <=? n then [] else inline_from fuel' (drop (n + 1) style_text) k in
      match read_inline (take n style_text) with
      | Some d => (property d, inline_candidate d order_counter) :: rest (order_counter + 1)%N
      | None => rest order_counter
      end
  end.

Definition inline_candidates (style_text : bytes) (order_counter : N) : list candidate :=
  inline_from (S (length style_text)) style_text order_counter.

Lemma apply_inline_put_all text m k : apply_inline text m k = put_all (inline_candidates text k) m.
Proof.
  unfold apply_inline, inline_candidates. generalize (S (length text)) as fuel. intros fuel. revert text m k.
  induction fuel as [|fuel IH]; intros text m k; [done|]. cbn [inline_loop inline_from].
  destruct (read_inline _) as [d|]; destruct (length text <=? _); cbn [put_all foldl]; try done; apply IH.
Qed.

(** The declarations of a rule are numbered from its own number on. *)
Lemma candidates_from_order ref l : forall k n c, (k + N.of_nat (length l) <= max_render_declarations + 1)%N -> (n, c) ∈ candidates_from ref k l ->
  exists i d, l !! i = Some d /\ n = property d /\ d_value c = value d /\ d_important c = important d /\ d_origin c = ref_origin ref /\
    d_id c = Css.ids (specificity (ref_rule ref)) /\ d_cls c = Css.classes (specificity (ref_rule ref)) /\ d_type c = types (specificity (ref_rule ref)) /\
    d_order c = (order (ref_rule ref) * (max_render_declarations + 1) + (k + N.of_nat i))%N.
Proof.
  induction l as [|d l IH]; intros k n c Hk Hin; cbn [candidates_from length] in *; [by apply elem_of_nil in Hin|].
  apply elem_of_cons in Hin as [E|Hin].
  - injection E as -> ->. exists 0, d. cbn [d_value d_important d_origin d_id d_cls d_type d_order]. split_and!; try done.
    rewrite N.mod_small by lia. lia.
  - destruct (IH (k + 1)%N n c) as (i & d' & H1 & H2 & H3 & H4 & H5 & H6 & H7 & H8 & H9); [lia|done|].
    exists (S i), d'. split_and!; try done. rewrite H9. lia.
Qed.

Lemma inline_from_order fuel : forall text k n c, (n, c) ∈ inline_from fuel text k ->
  d_origin c = Author /\ d_id c = inline_specificity /\ (k <= d_order c)%N.
Proof.
  induction fuel as [|fuel IH]; intros text k n c Hin; cbn [inline_from] in Hin; [by apply elem_of_nil in Hin|].
  assert (forall j, (k <= j)%N -> (n, c) ∈ (if length text <=? declaration_end text 0 None then [] else inline_from fuel (drop (declaration_end text 0 None + 1) text) j) ->
    d_origin c = Author /\ d_id c = inline_specificity /\ (k <= d_order c)%N) as Hr.
  { intros j Hj H. destruct (length text <=? _); [by apply elem_of_nil in H|]. apply IH in H as (? & ? & ?). split_and!; [done|done|lia]. }
  destruct (read_inline _) as [d|]; [|by apply (Hr k)]. apply elem_of_cons in Hin as [[= -> ->]|Hin]; [|by apply (Hr (k + 1)%N); [lia|]].
  by split_and!.
Qed.

Lemma inline_from_ordered fuel : forall text k n1 c1 n2 c2, (n1, c1) ∈ inline_from fuel text k -> (n2, c2) ∈ inline_from fuel text k ->
  d_order c1 = d_order c2 -> n1 = n2 /\ c1 = c2.
Proof.
  induction fuel as [|fuel IH]; intros text k n1 c1 n2 c2 H1 H2 E; cbn [inline_from] in *; [by apply elem_of_nil in H1|].
  destruct (read_inline _) as [d|]; destruct (length text <=? _); try (by apply elem_of_nil in H1); try (by apply IH with (1 := H1) (2 := H2)).
  - apply elem_of_cons in H1 as [[= -> ->]|H1], H2 as [[= -> ->]|H2]; try (by apply elem_of_nil in H1); try (by apply elem_of_nil in H2); done.
  - apply elem_of_cons in H1 as [[= -> ->]|H1], H2 as [[= -> ->]|H2]; [done| | |by apply IH with (1 := H1) (2 := H2)].
    + apply inline_from_order in H2 as (_ & _ & H2). cbn in E. lia.
    + apply inline_from_order in H1 as (_ & _ & H1). cbn in E. lia.
Qed.

(** ** The rules of a document *)

Record ref_ok (i : nat) (ref : RuleRef) : Prop := {
  ref_order : order (ref_rule ref) = N.of_nat i;
  ref_length : (N.of_nat (length (declarations (ref_rule ref))) <= max_render_declarations)%N;
  ref_commas : commas_ok (selector (ref_rule ref));
  ref_specificity : specificity (ref_rule ref) = compute_specificity (selector (ref_rule ref));
  ref_from : (ref_origin ref <= Author)%N }.

Definition rules_ok (rules : list RuleRef) : Prop := forall i ref, rules !! i = Some ref -> ref_ok i ref.

(** What the rules of a list and a [style] attribute declare. *)
Definition declared_by (rules : list RuleRef) (inline : option bytes) (start : N) (n : bytes) (c : Declared) : Prop :=
  (exists ref, ref ∈ rules /\ (n, c) ∈ rule_candidates ref) \/ (exists text, inline = Some text /\ (n, c) ∈ inline_candidates text start).

Definition inline_start (rules : list RuleRef) : N := (N.of_nat (length rules) + 1) * (max_render_declarations + 1).

Section Rules.
Context (rules : list RuleRef).
Hypothesis Hrules : rules_ok rules.

Lemma rule_order i ref n c : rules !! i = Some ref -> (n, c) ∈ rule_candidates ref ->
  (N.of_nat i * (max_render_declarations + 1) <= d_order c < (N.of_nat i + 1) * (max_render_declarations + 1))%N.
Proof using Hrules.
  intros Hi Hc. destruct (Hrules i ref Hi) as [Ho Hl _ _ _].
  apply candidates_from_order in Hc as (j & d & Hj & _ & _ & _ & _ & _ & _ & _ & ->); [|lia].
  apply lookup_lt_Some in Hj. rewrite Ho. unfold max_render_declarations in *. lia.
Qed.

Lemma rule_candidates_ordered i1 i2 ref1 ref2 n1 c1 n2 c2 : rules !! i1 = Some ref1 -> rules !! i2 = Some ref2 ->
  (n1, c1) ∈ rule_candidates ref1 -> (n2, c2) ∈ rule_candidates ref2 -> d_order c1 = d_order c2 -> n1 = n2 /\ c1 = c2.
Proof using Hrules.
  intros H1 H2 Hc1 Hc2 E. pose proof (rule_order _ _ _ _ H1 Hc1) as B1. pose proof (rule_order _ _ _ _ H2 Hc2) as B2.
  assert (i1 = i2) as -> by (rewrite E in B1; unfold max_render_declarations in *; nia).
  assert (ref1 = ref2) as -> by congruence. destruct (Hrules _ _ H1) as [_ Hl _ _ _].
  apply candidates_from_order in Hc1 as (j1 & d1 & Hj1 & -> & V1 & I1 & O1 & A1 & C1 & T1 & E1); [|lia].
  apply candidates_from_order in Hc2 as (j2 & d2 & Hj2 & -> & V2 & I2 & O2 & A2 & C2 & T2 & E2); [|lia].
  assert (j1 = j2) as -> by lia. assert (d1 = d2) as -> by congruence. split; [done|]. destruct c1, c2. cbn in *. congruence.
Qed.

Lemma declared_ordered inline : ordered (declared_by rules inline (inline_start rules)).
Proof using Hrules.
  assert (forall ref n c text n' c', ref ∈ rules -> (n, c) ∈ rule_candidates ref -> (n', c') ∈ inline_candidates text (inline_start rules) ->
    d_order c <> d_order c') as Hno.
  { intros ref n c text n' c' [i Hi]%list_elem_of_lookup Hc Hc'. apply inline_from_order in Hc' as (_ & _ & Hc').
    pose proof (rule_order _ _ _ _ Hi Hc) as B. apply lookup_lt_Some in Hi. unfold inline_start, max_render_declarations in *. nia. }
  intros n1 c1 n2 c2 [(ref1 & H1 & C1)|(t1 & -> & C1)] [(ref2 & H2 & C2)|(t2 & E2 & C2)] E.
  - apply list_elem_of_lookup in H1 as [i1 H1], H2 as [i2 H2]. exact (rule_candidates_ordered i1 i2 ref1 ref2 n1 c1 n2 c2 H1 H2 C1 C2 E).
  - by apply (Hno ref1 n1 c1 t2 n2 c2) in E.
  - symmetry in E. by apply (Hno ref2 n2 c2 t1 n1 c1) in E.
  - injection E2 as ->. by eapply inline_from_ordered.
Qed.

End Rules.

(** ** The loops over the rules *)

Section Loops.
Context (d : dom) (node : nat).
Hypothesis Hwf : dom_wf d.
Hypothesis Hnode : is_Some (nodes d !! node).

Lemma rule_matches_error text e : rule_matches d node text = Throw e -> e = ResourceLimit.
Proof using Hwf Hnode.
  unfold rule_matches, element_matches. pose proof (parse_total text) as Hp. destruct (parse text) as [sels|e'].
  - destruct Hp as (H & _). apply andb_prop in H as [_ H]. cbn [mbind result_bind].
    pose proof (matches_spec d Hwf node sels Hnode H) as Hm. destruct (matches d node sels) as [b|e']; [done|].
    destruct Hm as [-> _]. congruence.
  - cbn [mbind result_bind]. cbn in Hp. subst e'. done.
Qed.

Definition fails (star : bool) (ref : RuleRef) : bool := match matched d star node ref with Throw _ => true | Ret _ => false end.
Definition hit (star : bool) (ref : RuleRef) : bool := match matched d star node ref with Ret b => b | Throw _ => false end.

Lemma matched_cases star ref : (fails star ref = true /\ matched d star node ref = Throw ResourceLimit) \/
  (fails star ref = false /\ matched d star node ref = Ret (hit star ref)).
Proof using Hwf Hnode.
  unfold fails, hit. destruct (matched d star node ref) as [b|e] eqn:E; [by right|left]. split; [done|]. f_equal.
  unfold matched in E. destruct (star && _); [done|]. by apply rule_matches_error in E.
Qed.

Definition put_rules (l : list RuleRef) (m : DeclaredMap) : DeclaredMap := put_all (mjoin (rule_candidates <$> l)) m.

(** A loop that succeeds when nothing fails and the budget is enough. *)
Definition loop_result (failed : bool) (cost : N) (l : list RuleRef) (m : DeclaredMap) (budget : N) : result (DeclaredMap * N) :=
  if failed || (budget <? cost)%N then Throw ResourceLimit else Ret (put_rules l m, (budget - cost)%N).

Lemma loop_result_pair (a b : DeclaredMap) (m n : N) : a = b -> m = n -> Ret (a, m) = Ret (b, n).
Proof. by intros -> ->. Qed.

Lemma loop_result_nil m budget : loop_result false 0 [] m budget = Ret (m, budget).
Proof. unfold loop_result. destruct (N.ltb_spec budget 0); [lia|]. by rewrite N.sub_0_r. Qed.

Lemma match_refs_eq star refs : forall m budget, match_refs d star node refs m budget =
  loop_result (existsb (fails star) refs) (N.of_nat (length refs)) (List.filter (hit star) refs) m budget.
Proof using Hwf Hnode.
  induction refs as [|ref refs IH]; intros m budget.
  { by rewrite loop_result_nil. }
  cbn [match_refs existsb List.filter length]. unfold charge, loop_result. destruct (N.eqb_spec budget 0) as [->|Hb].
  { cbn [throw_if mbind result_bind]. destruct (N.ltb_spec 0 (N.of_nat (S (length refs)))); [by rewrite orb_true_r|lia]. }
  cbn [throw_if mbind result_bind]. destruct (matched_cases star ref) as [[-> ->]|[-> ->]]; [done|]. cbn [mbind result_bind orb].
  rewrite IH. unfold loop_result.
  assert ((budget - 1 <? N.of_nat (length refs))%N = (budget <? N.of_nat (S (length refs)))%N) as ->
    by (apply eq_true_iff_eq; rewrite !N.ltb_lt; lia).
  destruct (_ || _); [done|]. apply loop_result_pair; [|lia]. destruct (hit star ref); [|done].
  unfold put_rules. cbn [fmap list_fmap mjoin list_join]. by rewrite put_all_app, apply_put_all.
Qed.

Definition bucket_refs (b : BucketKey * list RuleRef) : list RuleRef := if bucket_compatible d b.1 node then b.2 else [].

Definition bucket_cost (b : BucketKey * list RuleRef) : N := 1 + N.of_nat (length (bucket_refs b)).

Lemma match_buckets_eq l : forall m budget, match_buckets d node l m budget =
  loop_result (existsb (fun b => existsb (fails false) (bucket_refs b)) l) (sumN bucket_cost l)
    (List.filter (hit false) (mjoin (bucket_refs <$> l))) m budget.
Proof using Hwf Hnode.
  induction l as [|[key refs] l IH]; intros m budget.
  { by rewrite loop_result_nil. }
  change (sumN ?f ((key, refs) :: l)) with (f (key, refs) + sumN f l)%N. cbn [match_buckets existsb fmap list_fmap mjoin list_join].
  unfold charge, loop_result. destruct (N.eqb_spec budget 0) as [->|Hb].
  { cbn [throw_if mbind result_bind]. destruct (N.ltb_spec 0 (bucket_cost (key, refs) + sumN bucket_cost l)); [by rewrite orb_true_r|unfold bucket_cost in *; lia]. }
  cbn [throw_if mbind result_bind]. change (bucket_cost (key, refs)) with (1 + N.of_nat (length (bucket_refs (key, refs))))%N.
  set (cost := sumN _ l) in *. assert (bucket_refs (key, refs) = if bucket_compatible d key node then refs else []) as -> by done.
  destruct (bucket_compatible d key node).
  - rewrite match_refs_eq. unfold loop_result at 1.
    destruct (existsb (fails false) refs); [done|]. cbn [orb].
    destruct (N.ltb_spec (budget - 1) (N.of_nat (length refs))) as [H|H]; cbn [mbind result_bind].
    { destruct (N.ltb_spec budget (1 + N.of_nat (length refs) + cost)); [by rewrite orb_true_r|lia]. }
    rewrite IH. unfold loop_result.
    assert ((budget - 1 - N.of_nat (length refs) <? cost)%N = (budget <? 1 + N.of_nat (length refs) + cost)%N) as ->
      by (apply eq_true_iff_eq; rewrite !N.ltb_lt; lia).
    destruct (_ || _); [done|]. apply loop_result_pair; [|lia]. unfold put_rules. rewrite List.filter_app, fmap_app, join_app. by rewrite put_all_app.
  - rewrite IH. unfold loop_result. cbn [existsb orb length].
    assert ((budget - 1 <? cost)%N = (budget <? 1 + N.of_nat 0 + cost)%N) as -> by (apply eq_true_iff_eq; rewrite !N.ltb_lt; lia).
    destruct (_ || _); [done|]. apply loop_result_pair; [done|lia].
Qed.

End Loops.

(** ** What the buckets hold *)

Definition in_keyed (l : list (BucketKey * list RuleRef)) (ref : RuleRef) : Prop := ref ∈ mjoin (snd <$> l).

Lemma in_keyed_cons key refs l x : in_keyed ((key, refs) :: l) x <-> x ∈ refs \/ in_keyed l x.
Proof. apply elem_of_app. Qed.

Lemma in_keyed_elem l x : in_keyed l x <-> exists key refs, (key, refs) ∈ l /\ x ∈ refs.
Proof.
  unfold in_keyed. rewrite list_elem_of_join. split.
  - intros (refs & Hx & ([key r] & -> & Hl)%list_elem_of_fmap). eauto.
  - intros (key & refs & Hl & Hx). exists refs. split; [done|]. apply list_elem_of_fmap. by exists (key, refs).
Qed.

Lemma add_keyed_spec key ref l x : in_keyed (add_keyed key ref l) x <-> in_keyed l x \/ x = ref.
Proof.
  induction l as [|[k refs] l IH]; cbn [add_keyed].
  - rewrite in_keyed_cons, list_elem_of_singleton. tauto.
  - destruct (decide (k = key)); rewrite !in_keyed_cons, ?IH, ?elem_of_app, ?list_elem_of_singleton; tauto.
Qed.

(** Every list stands under the key of its rules. *)
Definition keyed_ok (l : list (BucketKey * list RuleRef)) : Prop :=
  forall key refs ref, (key, refs) ∈ l -> ref ∈ refs -> bucket_of (selector (ref_rule ref)) = key.

Lemma add_keyed_ok ref l : keyed_ok l -> keyed_ok (add_keyed (bucket_of (selector (ref_rule ref))) ref l).
Proof.
  intros H. induction l as [|[k refs] l IH]; intros key rs x; cbn [add_keyed].
  - intros [= -> ->]%list_elem_of_singleton ->%list_elem_of_singleton. done.
  - assert (keyed_ok l) as Hl by (intros ? ? ? ?; apply H; by right).
    destruct (decide _) as [->|Hk]; intros [[= -> ->]|Hin]%elem_of_cons Hx.
    + apply elem_of_app in Hx as [Hx| ->%list_elem_of_singleton]; [|done]. eapply H; [by left|done].
    + eapply H; [by right|done].
    + eapply H; [by left|done].
    + by apply (IH Hl key rs x).
Qed.

Lemma bucket_spec rules : keyed_ok (keyed (bucket rules)) /\
  forall ref, ref ∈ rules <-> ref ∈ unkeyed (bucket rules) \/ in_keyed (keyed (bucket rules)) ref.
Proof.
  unfold bucket. induction rules as [|ref rules [IH1 IH2]] using rev_ind.
  { split; [by intros ? ? ? ?%elem_of_nil|]. intros ref. cbn. unfold in_keyed. cbn. rewrite !elem_of_nil. tauto. }
  rewrite foldl_app. cbn [foldl]. set (sheet := foldl _ _ rules) in *. destruct (is_no_key _); cbn [unkeyed keyed].
  - split; [done|]. intros x. rewrite !elem_of_app, list_elem_of_singleton, IH2. tauto.
  - split; [by apply add_keyed_ok|]. intros x. rewrite elem_of_app, list_elem_of_singleton, add_keyed_spec, IH2. tauto.
Qed.

Section Element.
Context (d : dom) (node : nat).
Hypothesis Hwf : dom_wf d.
Hypothesis Hnode : is_Some (nodes d !! node).

(** The rules that are applied, and when the loops fail. *)
Definition applied (sheets : BucketedSheet) : list RuleRef :=
  List.filter (hit d node true) (unkeyed sheets) ++ List.filter (hit d node false) (mjoin (bucket_refs d node <$> keyed sheets)).
Definition failed (sheets : BucketedSheet) : bool :=
  existsb (fails d node true) (unkeyed sheets) || existsb (fun b => existsb (fails d node false) (bucket_refs d node b)) (keyed sheets).
Definition cost (sheets : BucketedSheet) : N := N.of_nat (length (unkeyed sheets)) + sumN (bucket_cost d node) (keyed sheets).

Definition inline_of : option bytes := attribute d node (lit "style").
Definition inline_size : N := N.of_nat (length (default [] inline_of)).
Definition inline_list (start : N) : list candidate := default [] ((fun t => inline_candidates t start) <$> inline_of).

Lemma declared_for_eq rule_count sheets budget inline_bytes : declared_for d rule_count sheets node budget inline_bytes =
  if failed sheets || (budget <? cost sheets)%N || (bool_decide (is_Some inline_of) && (max_render_stylesheet_bytes <? inline_bytes + inline_size)%N)
  then Throw ResourceLimit
  else Ret (put_all (mjoin (rule_candidates <$> applied sheets) ++ inline_list ((rule_count + 1) * (max_render_declarations + 1))) ∅,
            (budget - cost sheets)%N, (inline_bytes + inline_size)%N).
Proof using Hwf Hnode.
  unfold declared_for, failed, cost, applied. rewrite match_refs_eq by done. unfold loop_result.
  destruct (existsb (fails d node true) (unkeyed sheets)); [done|]. cbn [orb].
  set (n := N.of_nat (length (unkeyed sheets))). set (m := sumN _ _).
  destruct (N.ltb_spec budget n) as [H1|H1]; cbn [mbind result_bind].
  { destruct (N.ltb_spec budget (n + m)); [by rewrite orb_true_r|lia]. }
  rewrite match_buckets_eq by done. unfold loop_result. fold m. destruct (existsb _ (keyed sheets)); [done|]. cbn [orb].
  assert ((budget - n <? m)%N = (budget <? n + m)%N) as -> by (apply eq_true_iff_eq; rewrite !N.ltb_lt; lia).
  destruct (budget <? n + m)%N; [done|]. cbn [mbind result_bind orb]. unfold put_rules. rewrite <- put_all_app, <- join_app, <- fmap_app.
  unfold inline_size, inline_list, inline_of. destruct (attribute d node (lit "style")) as [text|].
  - change (default [] (Some text)) with text. rewrite bool_decide_true by done. cbn [andb].
    destruct (_ <? _)%N; [done|]. cbn [throw_if mbind result_bind]. rewrite apply_inline_put_all, <- put_all_app.
    do 3 f_equal. lia.
  - cbn. rewrite app_nil_r, N.add_0_r. do 3 f_equal. lia.
Qed.

Lemma star_matches : is_element d node = true -> rule_matches d node (lit "*") = Ret true.
Proof.
  intros He. unfold rule_matches, element_matches. change (parse (lit "*")) with (Ret [mkComplex [mkCompound true [] [] [] [] []] []]).
  cbn [mbind result_bind]. unfold matches. cbn [any_of match_complex]. unfold match_complex. cbn. unfold match_simple. cbn. by rewrite He.
Qed.

Section Sheet.
Context (rules : list RuleRef).
Hypothesis Hrules : rules_ok rules.
Context (sheets : BucketedSheet).
Hypothesis Hunkeyed : unkeyed sheets = unkeyed (bucket rules).
Hypothesis Hkeyed : keyed sheets ≡ₚ keyed (bucket rules).

Lemma in_keyed_perm l1 l2 x : l1 ≡ₚ l2 -> in_keyed l1 x <-> in_keyed l2 x.
Proof. intros H. rewrite !in_keyed_elem. by setoid_rewrite H. Qed.

Lemma hit_true star ref : hit d node star ref = true <-> matched d star node ref = Ret true.
Proof. unfold hit. destruct (matched _ _ _ _) as [[]|]; naive_solver. Qed.

Lemma rule_commas ref : ref ∈ rules -> commas_ok (selector (ref_rule ref)).
Proof using Hrules. intros [i Hi]%list_elem_of_lookup. by destruct (Hrules i ref Hi). Qed.

(** Exactly the rules of the sheet that match are applied. *)
Lemma applied_spec ref : is_element d node = true ->
  ref ∈ applied sheets <-> ref ∈ rules /\ rule_matches d node (selector (ref_rule ref)) = Ret true.
Proof using Hrules Hunkeyed Hkeyed.
  intros He. destruct (bucket_spec rules) as [Hok Hin]. unfold applied.
  rewrite elem_of_app, !list_elem_of_In, !filter_In, <- !list_elem_of_In, !hit_true, Hunkeyed, list_elem_of_join.
  assert (forall star, matched d star node ref = Ret true <-> rule_matches d node (selector (ref_rule ref)) = Ret true) as Hm.
  { intros star. unfold matched. destruct (star && _) eqn:E; [|done]. apply andb_prop in E as [_ E]. apply eqb_bytes_true in E as ->.
    rewrite star_matches by done. done. }
  rewrite !Hm, Hin. split.
  - intros [[H1 H2]|[(refs & H1 & ([key r] & -> & H2)%list_elem_of_fmap) H3]]; [tauto|]. split; [|done]. right.
    apply in_keyed_elem. unfold bucket_refs in H1. cbn [fst snd] in H1. destruct (bucket_compatible _ _ _); [|by apply elem_of_nil in H1].
    exists key, r. by rewrite <- Hkeyed.
  - intros [[H1|H1] H2]; [by left|]. right. split; [|done]. pose proof (proj1 (in_keyed_elem _ _) H1) as (key & refs & H3 & H4).
    exists refs. split; [done|]. apply list_elem_of_fmap. exists (key, refs). rewrite Hkeyed. split; [|done]. unfold bucket_refs. cbn [fst snd].
    rewrite <- (Hok _ _ _ H3 H4). rewrite bucket_sound; [done|apply rule_commas, Hin; by right|].
    unfold rule_matches in H2. destruct (element_matches _ _ _) as [b|[]]; congruence.
Qed.

End Sheet.
End Element.

(** ** The elements *)

Section Gather.
Context (d : dom).
Hypothesis Hwf : dom_wf d.

(** The nearest element above a node. *)
Definition nearest (node : nat) : option nat := List.find (is_element d) (ancestors d node).

Lemma ancestors_child c i : parent_of d c = Some i -> ancestors d c = i :: ancestors d i.
Proof using Hwf.
  intros Hp. destruct (parent_in_store d Hwf c i Hp) as [Hc Hi]. unfold ancestors, self_and_ancestors.
  rewrite <- (chain_full_size d Hwf c Hc). cbn [chain tail]. rewrite Hp. pose proof (depth_of_pos d i Hi) as Hpos.
  unfold depth_of, self_and_ancestors in Hpos. destruct (size (nodes d)) as [|n]; [cbn in Hpos; lia|]. done.
Qed.

Definition entry_ok (elements : list (nat * option nat)) (e : nat * option nat) : Prop :=
  (fun j => fst <$> elements !! j) <$> e.2 = Some <$> nearest e.1.

Lemma entry_ok_app l1 l2 e : entry_ok l1 e -> entry_ok (l1 ++ l2) e.
Proof.
  unfold entry_ok. destruct e.2 as [j|]; [|done]. cbn. destruct (nearest e.1) as [p|]; [|done]. cbn. intros [= E]. f_equal.
  destruct (l1 !! j) as [x|] eqn:Ej; [|done]. by rewrite (lookup_app_l_Some _ _ _ _ Ej).
Qed.

Lemma tagged_fst (cp : option nat) (l : list nat) : (map (fun c => (c, cp)) l).*1 = l.
Proof. induction l as [|c l IH]; [done|]. cbn. by f_equal. Qed.

Lemma gather_loop_spec fuel : forall pending elements,
  Forall (fun e => is_Some (nodes d !! e.1) /\ entry_ok elements e) pending -> Forall (entry_ok elements) elements ->
  length (mjoin (map (doc_order d) pending.*1)) <= fuel ->
  outcome (eq ResourceLimit)
    (fun r => r.*1 = elements.*1 ++ List.filter (is_element d) (mjoin (map (doc_order d) pending.*1)) /\ Forall (entry_ok r) r /\
              (N.of_nat (length r) <= N.max max_render_elements (N.of_nat (length elements)))%N)
    (gather_loop d fuel pending elements).
Proof using Hwf.
  induction fuel as [|fuel IH]; intros [|[i parent] p] elements Hp He Hf;
    try (cbn; rewrite app_nil_r; split_and!; [done|done|lia]).
  { apply Forall_cons in Hp as [[Hi _] _]. cbn in Hf. rewrite doc_order_eq in Hf by done. cbn in Hf. lia. }
  apply Forall_cons in Hp as [[Hi Hei] Hp]. cbn [fst snd] in *.
  assert (E : mjoin (map (doc_order d) ((i, parent) :: p).*1) = i :: mjoin (map (doc_order d) (children_of d i ++ p.*1))).
  { cbn [fmap list_fmap map fst]. change (mjoin (?x :: ?y)) with (x ++ mjoin y). rewrite doc_order_eq by done.
    rewrite map_app. cbn [app]. f_equal. symmetry. apply join_app. }
  rewrite E in *. cbn [length] in Hf. cbn [gather_loop List.filter].
  assert (forall cp els, Forall (entry_ok els) els -> Forall (entry_ok els) p -> (forall c, c ∈ children_of d i -> entry_ok els (c, cp)) ->
    outcome (eq ResourceLimit) (fun r => r.*1 = els.*1 ++ List.filter (is_element d) (mjoin (map (doc_order d) (children_of d i ++ p.*1))) /\
      Forall (entry_ok r) r /\ (N.of_nat (length r) <= N.max max_render_elements (N.of_nat (length els)))%N)
      (gather_loop d fuel (map (fun c => (c, cp)) (children_of d i) ++ p) els)) as Hgo.
  { intros cp els H1 H2 H3. specialize (IH (map (fun c => (c, cp)) (children_of d i) ++ p) els).
    rewrite fmap_app, tagged_fst in IH. apply IH; [|done|lia]. apply Forall_app. split.
    - apply Forall_forall. intros x (c & <- & Hc)%list_elem_of_In%in_map_iff. apply list_elem_of_In in Hc. split; [by apply (children_depth d Hwf i c)|by apply H3].
    - apply Forall_and. split; [|done]. eapply Forall_impl; [exact Hp|]. by intros x [? _]. }
  assert (forall c, c ∈ children_of d i -> nearest c = if is_element d i then Some i else nearest i) as Hnear.
  { intros c Hc. apply (wf_forest d Hwf) in Hc. unfold nearest. rewrite (ancestors_child c i Hc). cbn. by destruct (is_element d i). }
  assert (forall e, Forall (entry_ok (elements ++ e)) p) as Hpe by (intros e; eapply Forall_impl; [exact Hp|]; intros x [_ Hx]; by apply entry_ok_app).
  destruct (is_element d i) eqn:Ei.
  - apply outcome_throw_if; [done|]. intros Hn%N.leb_gt. eapply outcome_impl; [apply Hgo|].
    + apply Forall_app. split; [eapply Forall_impl; [exact He|]; intros x; apply entry_ok_app|]. constructor; [|constructor]. by apply entry_ok_app.
    + apply Hpe.
    + intros c Hc. unfold entry_ok. cbn. rewrite list_lookup_middle by done. by rewrite (Hnear c Hc).
    + intros r (H1 & H2 & H3). split_and!; [by rewrite H1, fmap_app, <- app_assoc|done|]. rewrite length_app in H3. cbn in H3. lia.
  - apply Hgo; [done|specialize (Hpe []); by rewrite app_nil_r in Hpe|]. intros c Hc. unfold entry_ok. cbn. rewrite (Hnear c Hc). exact Hei.
Qed.

Lemma gather_elements_spec root : is_Some (nodes d !! root) -> is_element d root = false -> parent_of d root = None ->
  outcome (eq ResourceLimit)
    (fun r => r.*1 = List.filter (is_element d) (doc_order d root) /\ Forall (entry_ok r) r /\ (N.of_nat (length r) <= max_render_elements)%N)
    (gather_elements d root).
Proof using Hwf.
  intros Hr He Hp. unfold gather_elements. pose proof (doc_order_eq d Hwf root Hr) as E. pose proof (doc_order_length d Hwf root Hr) as Hl.
  rewrite E in Hl. cbn in Hl.
  eapply outcome_impl; [apply gather_loop_spec; [|done|rewrite tagged_fst; lia]|].
  - apply Forall_forall. intros x (c & <- & Hc)%list_elem_of_In%in_map_iff. apply list_elem_of_In in Hc. cbn.
    split; [by apply (children_depth d Hwf root c)|]. apply (wf_forest d Hwf) in Hc. unfold entry_ok, nearest. cbn.
    rewrite (ancestors_child c root Hc). cbn. rewrite He. unfold ancestors, self_and_ancestors.
    rewrite <- (chain_full_size d Hwf root Hr). cbn. by rewrite Hp.
  - intros r (H1 & H2 & H3). cbn [fmap list_fmap app] in H1. rewrite tagged_fst in H1. split_and!; [|done|cbn in H3; lia]. rewrite E. cbn. by rewrite He.
Qed.

End Gather.

(** ** The whole cascade *)

Lemma declared_elem l i r : l !! i = Some r -> (N.of_nat (length (declarations r)) <= declared l)%N.
Proof.
  intros Hi. rewrite <- (take_drop_middle l i r Hi), declared_app.
  change (declared (r :: drop (S i) l)) with (N.of_nat (length (declarations r)) + declared (drop (S i) l))%N. lia.
Qed.

Lemma append_ok sheet origin rules : rules_ok rules -> (declared sheet <= max_render_declarations)%N -> (origin <= Author)%N ->
  (forall i r, sheet !! i = Some r -> rule_ok i r) -> rules_ok (append sheet origin rules).
Proof.
  intros Hr Hd Ho Hs i ref Hi. unfold append in Hi. apply lookup_app_Some in Hi as [Hi|[Hl Hi]]; [by apply Hr|].
  rewrite list_lookup_imap in Hi. apply fmap_Some in Hi as (r & Hi & ->). pose proof (declared_elem _ _ _ Hi) as Hlen.
  destruct (Hs _ _ Hi) as [(_ & _ & Hc) _ Hsp _]. split; cbn [ref_rule ref_origin order declarations selector specificity]; try done.
  - f_equal. lia.
  - lia.
Qed.

Lemma all_rules_ok d root : outcome (eq ResourceLimit) (fun '(rules, _) => rules_ok rules) (all_rules d root).
Proof.
  unfold all_rules. eapply outcome_bind; [apply parse_stylesheet_rules|]. intros ua (_ & Hd1 & Hr1).
  destruct (collect_style_text d root) as [text limited].
  eapply outcome_bind with (P := fun l => (declared l <= max_render_declarations)%N /\ forall i r, l !! i = Some r -> rule_ok i r).
  - destruct (nonempty text); [|by split]. eapply outcome_impl; [apply parse_stylesheet_rules|]. intros l (_ & ? & ?). by split.
  - intros author [Hd2 Hr2]. cbn [outcome]. apply append_ok; [|done|done|done]. apply append_ok; [|done|done|done]. by intros i ref.
Qed.

(** What is declared for an element by the rules that match it and by its [style] attribute. *)
Definition declares (d : dom) (rules : list RuleRef) (node : nat) (name : bytes) (c : Declared) : Prop :=
  (exists ref, ref ∈ rules /\ rule_matches d node (selector (ref_rule ref)) = Ret true /\ (name, c) ∈ rule_candidates ref) \/
  (exists text, attribute d node (lit "style") = Some text /\ (name, c) ∈ inline_candidates text (inline_start rules)).

Lemma declares_ordered d rules node : rules_ok rules -> ordered (declares d rules node).
Proof.
  intros Hr n1 c1 n2 c2 H1 H2. apply (declared_ordered rules Hr (attribute d node (lit "style"))); unfold declares, declared_by in *; naive_solver.
Qed.

(** The sheets as one visit of the buckets meets them. *)
Definition visited (visit : list (BucketKey * list RuleRef) -> list (BucketKey * list RuleRef)) (rules : list RuleRef) : BucketedSheet :=
  {| unkeyed := unkeyed (bucket rules); keyed := visit (keyed (bucket rules)) |}.

Section Visits.
Context (d : dom) (rules : list RuleRef).
Hypothesis Hwf : dom_wf d.
Hypothesis Hrules : rules_ok rules.

Definition candidates_of (node : nat) (sheets : BucketedSheet) : list candidate :=
  mjoin (rule_candidates <$> applied d node sheets) ++ inline_list d node (inline_start rules).

Lemma candidates_of_spec visit node n c : (forall l, visit l ≡ₚ l) -> is_Some (nodes d !! node) -> is_element d node = true ->
  (n, c) ∈ candidates_of node (visited visit rules) <-> declares d rules node n c.
Proof using Hwf Hrules.
  intros Hv Hn He. unfold candidates_of, declares. rewrite elem_of_app, list_elem_of_join.
  assert (forall ref, ref ∈ applied d node (visited visit rules) <-> ref ∈ rules /\ rule_matches d node (selector (ref_rule ref)) = Ret true) as Ha
    by (intros ref; apply (applied_spec d node rules Hrules); [done|apply Hv|done]).
  assert ((n, c) ∈ inline_list d node (inline_start rules) <-> exists text, attribute d node (lit "style") = Some text /\ (n, c) ∈ inline_candidates text (inline_start rules)) as ->.
  { unfold inline_list, inline_of. destruct (attribute d node (lit "style")) as [t|]; cbn; [naive_solver|]. rewrite elem_of_nil. naive_solver. }
  apply or_iff_compat_r. split.
  - intros (l & Hc & (ref & -> & Hr)%list_elem_of_fmap). apply Ha in Hr as [? ?]. eauto.
  - intros (ref & H1 & H2 & H3). exists (rule_candidates ref). split; [done|]. apply list_elem_of_fmap. exists ref. split; [done|]. by apply Ha.
Qed.

Lemma declared_all_spec visit elements : (forall l, visit l ≡ₚ l) ->
  Forall (fun e => is_Some (nodes d !! e.1) /\ is_element d e.1 = true) elements -> forall budget inline_bytes,
  outcome (eq ResourceLimit) (Forall2 (fun e m => won (declares d rules e.1) m) elements)
    (declared_all d (N.of_nat (length rules)) (visited visit rules) elements budget inline_bytes).
Proof using Hwf Hrules.
  intros Hv. induction 1 as [|[node parent] elements [Hn He] _ IH]; intros budget ib; [constructor|]. cbn [declared_all fst] in *.
  rewrite declared_for_eq by done. destruct (_ || _ || _); [done|]. cbn [mbind result_bind].
  eapply outcome_bind; [apply IH|]. intros rest Hrest. cbn. constructor; [|done]. cbn [fst].
  apply won_ext with (P := fun n c => (n, c) ∈ candidates_of node (visited visit rules)); [intros n c; by apply candidates_of_spec|].
  apply put_all_empty. intros n1 c1 n2 c2 H1 H2. apply candidates_of_spec in H1, H2; try done. by apply (declares_ordered d rules node Hrules).
Qed.

Lemma sumN_perm {A} (f : A -> N) l1 l2 : l1 ≡ₚ l2 -> sumN f l1 = sumN f l2.
Proof. unfold sumN. induction 1; cbn [foldr]; lia. Qed.

Lemma existsb_perm {A} (f : A -> bool) l1 l2 : l1 ≡ₚ l2 -> existsb f l1 = existsb f l2.
Proof. intros H. apply eq_true_iff_eq. rewrite !existsb_exists. split; intros (x & Hx & Hf); exists x; (split; [|done]); apply list_elem_of_In, list_elem_of_In in Hx; by apply (Permutation_in x H) || by apply (Permutation_in x (symmetry H)). Qed.

Lemma declared_all_visits v1 v2 elements : (forall l, v1 l ≡ₚ l) -> (forall l, v2 l ≡ₚ l) ->
  Forall (fun e => is_Some (nodes d !! e.1) /\ is_element d e.1 = true) elements -> forall budget inline_bytes,
  declared_all d (N.of_nat (length rules)) (visited v1 rules) elements budget inline_bytes =
  declared_all d (N.of_nat (length rules)) (visited v2 rules) elements budget inline_bytes.
Proof using Hwf Hrules.
  intros H1 H2. induction 1 as [|[node parent] elements [Hn He] _ IH]; intros budget ib; [done|]. cbn [declared_all fst] in *.
  assert (keyed (visited v1 rules) ≡ₚ keyed (visited v2 rules)) as Hk by (cbn; by rewrite H1, H2).
  rewrite !declared_for_eq by done.
  assert (failed d node (visited v1 rules) = failed d node (visited v2 rules)) as -> by (unfold failed; f_equal; by apply existsb_perm).
  assert (cost d node (visited v1 rules) = cost d node (visited v2 rules)) as -> by (unfold cost; f_equal; by apply sumN_perm).
  destruct (_ || _ || _); [done|]. cbn [mbind result_bind].
  fold (inline_start rules). fold (candidates_of node (visited v1 rules)). fold (candidates_of node (visited v2 rules)).
  rewrite (put_all_ext (candidates_of node (visited v1 rules)) (candidates_of node (visited v2 rules))); [by rewrite IH| |].
  - intros n1 c1 n2 c2 E1 E2. apply candidates_of_spec in E1, E2; try done. by apply (declares_ordered d rules node Hrules).
  - intros [n c]. by rewrite !candidates_of_spec.
Qed.

End Visits.

Lemma specificity_ids fuel : forall s quote in_attribute n,
  (Css.ids (specificity_loop fuel s quote in_attribute n) <= Css.ids n + N.of_nat (length s))%N.
Proof.
  induction fuel as [|fuel IH]; intros [|c s] quote att n; cbn [specificity_loop length]; try lia.
  assert (forall t q a m, length t <= length s -> (Css.ids m <= Css.ids n)%N ->
    (Css.ids (specificity_loop fuel t q a m) <= Css.ids n + N.of_nat (S (length s)))%N) as Hs
    by (intros t q a m Ht Hm; specialize (IH t q a m); lia).
  destruct quote as [q|]; [destruct (c =c backslash); apply Hs; try lia; destruct s; cbn; lia|].
  destruct (quote_char c); [apply Hs; lia|]. destruct att; [apply Hs; lia|]. destruct (c =c "["); [apply Hs; cbn; lia|].
  destruct (c =c "."); [apply Hs; cbn; lia|]. destruct (c =c "#"); [specialize (IH s None false (more_ids n)); cbn in IH; lia|].
  destruct (c =c ":"); [apply Hs; [destruct s as [|e s]; [done|destruct (e =c ":"); cbn; lia]|cbn; lia]|].
  destruct (_ || _ || _ || _ || _); apply Hs; cbn; try lia. apply length_skip.
Qed.

Lemma matches_length d node text : rule_matches d node text = Ret true -> (N.of_nat (length text) <= max_selector_bytes)%N.
Proof.
  unfold rule_matches, element_matches, parse. destruct (N.ltb_spec max_selector_bytes (N.of_nat (length text))); [done|lia].
Qed.

Lemma elements_stored d (Hwf : dom_wf d) root (elements : list (nat * option nat)) : is_Some (nodes d !! root) ->
  elements.*1 = List.filter (is_element d) (doc_order d root) -> Forall (fun e => is_Some (nodes d !! e.1) /\ is_element d e.1 = true) elements.
Proof.
  intros Hr Hel. apply Forall_forall. intros x Hx. assert (x.1 ∈ elements.*1) as Hin by (apply list_elem_of_fmap; by exists x).
  rewrite Hel in Hin. apply list_elem_of_In, filter_In in Hin as [Hin Hx']. apply list_elem_of_In in Hin.
  split; [by apply (doc_order_stored d Hwf root)|done].
Qed.

Lemma bind_ext {A B} (m : result A) (k1 k2 : A -> result B) : (forall a, m = Ret a -> k1 a = k2 a) -> (x ← m; k1 x) = (x ← m; k2 x).
Proof. intros H. destruct m; [by apply H|done]. Qed.

(** ** Properties *)

(** C28: the cascade, as the files of the repository describe it: the elements come in document
    order, every one with the index of the nearest element above it, and whatever the order in
    which the unordered map of the buckets is visited, the declaration an element gets for a
    property is the one that beats all declarations of that property by the rules whose selector
    matches the element and by its [style] attribute - the buckets lose none.  Nothing else than
    the resource limit is ever reported. *)
Theorem cascade_sound d root visit : dom_wf d -> is_Some (nodes d !! root) -> is_element d root = false -> parent_of d root = None ->
  (forall l, visit l ≡ₚ l) ->
  outcome (eq ResourceLimit)
    (fun '(elements, declared, _) => elements.*1 = List.filter (is_element d) (doc_order d root) /\ Forall (entry_ok d elements) elements /\
       exists rules limited, all_rules d root = Ret (rules, limited) /\
         Forall2 (fun e m => forall name c, m !! name = Some c <-> wins (declares d rules e.1) name c) elements declared)
    (resolve_declared d visit root).
Proof.
  intros Hwf Hr He Hp Hv. unfold resolve_declared. eapply outcome_bind; [by apply gather_elements_spec|]. intros elements (H1 & H2 & _).
  pose proof (all_rules_ok d root) as Hrules. destruct (all_rules d root) as [[rules limited]|e]; [|exact Hrules]. cbn [mbind result_bind].
  eapply outcome_bind; [apply (declared_all_spec d rules Hwf Hrules visit); [done|]|].
  - by apply (elements_stored d Hwf root).
  - intros l Hl. cbn. split_and!; [done|done|]. exists rules, limited. by split.
Qed.

(** The declarations of all elements, and whether they can be resolved at all, do not depend on
    the order in which the unordered map of the buckets is visited. *)
Theorem cascade_order_independent d root v1 v2 : dom_wf d -> is_Some (nodes d !! root) -> is_element d root = false -> parent_of d root = None ->
  (forall l, v1 l ≡ₚ l) -> (forall l, v2 l ≡ₚ l) -> resolve_declared d v1 root = resolve_declared d v2 root.
Proof.
  intros Hwf Hr He Hp H1 H2. unfold resolve_declared. apply bind_ext. intros elements E. apply bind_ext. intros [rules limited] Er.
  pose proof (gather_elements_spec d Hwf root Hr He Hp) as Hg. rewrite E in Hg. destruct Hg as (Hel & _).
  pose proof (all_rules_ok d root) as Hrules. rewrite Er in Hrules.
  pose proof (declared_all_visits d rules Hwf Hrules v1 v2 elements H1 H2 (elements_stored d Hwf root elements Hr Hel) max_matches 0) as Hd.
  unfold visited in Hd. by rewrite Hd.
Qed.

(** A declaration of the [style] attribute loses to no rule of equal importance, whatever the
    specificity of its selector: 2^20 is more than a selector that can match has room for. *)
Theorem inline_outranks d root rules limited node text name c ci : all_rules d root = Ret (rules, limited) ->
  attribute d node (lit "style") = Some text -> (name, ci) ∈ inline_candidates text (inline_start rules) ->
  wins (declares d rules node) name c -> d_important c = d_important ci -> (name, c) ∈ inline_candidates text (inline_start rules).
Proof.
  intros Hr Ht Hci [[(ref & Hin & Hm & Hc)|(t & Ht' & Hc)] Hw] Hi; [|congruence]. exfalso.
  pose proof (all_rules_ok d root) as Hok. rewrite Hr in Hok. cbn in Hok. apply list_elem_of_lookup in Hin as [i Hin].
  destruct (Hok i ref Hin) as [_ Hlen _ Hsp Ho].
  apply candidates_from_order in Hc as (j & dcl & _ & _ & _ & _ & Hor & Hid & _ & _ & _); [|lia].
  pose proof (inline_from_order _ _ _ _ _ Hci) as (Ho' & Hid' & _).
  assert (d_id c <= max_selector_bytes)%N as Hle.
  { rewrite Hid, Hsp. pose proof (specificity_ids (length (selector (ref_rule ref))) (selector (ref_rule ref)) None false no_specificity) as H.
    apply matches_length in Hm. unfold compute_specificity. cbn [Css.ids no_specificity] in H. lia. }
  assert (beats c ci = true) as Hb by (apply Hw; right; exact (ex_intro _ text (conj Ht Hci))). unfold beats in Hb. rewrite Hi, eqb_reflx in Hb. cbn [negb] in Hb.
  rewrite Ho' in Hb. change inline_specificity with 1048576%N in Hid'. change max_selector_bytes with 65536%N in Hle.
  destruct (N.eqb_spec (d_origin c) Author) as [E|E]; cbn [negb] in Hb; [|apply N.ltb_lt in Hb; rewrite Hor in Hb; lia].
  destruct (N.eqb_spec (d_id c) (d_id ci)) as [E'|E']; cbn [negb] in Hb; [lia|]. apply N.ltb_lt in Hb. lia.
Qed.

(** ** Witnesses and examples *)

Definition styled_tree : Node :=
  mkNode Document [] [] []
    [ elem "style" [] [ mkNode Text [] [] (lit "p{color:red} #x{color:blue;width:2px!important} i.k{color:green}") [] ];
      elem "p" [ {| attr_name := lit "id"; attr_value := lit "x" |};
                 {| attr_name := lit "style"; attr_value := lit "width: 1px; color : black" |} ] [ elem "i" [] [] ] ].

Definition styled : dom := load_document styled_tree.

(** The last order in which the buckets could be visited. *)
Definition backwards : list (BucketKey * list RuleRef) -> list (BucketKey * list RuleRef) := fun l => reverse l.

(** The declared values of a property for every element. *)
Definition values (name : string) (r : result (list (nat * option nat) * list DeclaredMap * bool)) : list (nat * option bytes) :=
  match r with
  | Ret (elements, l, _) => zip_with (fun e (m : DeclaredMap) => (e.1, d_value <$> m !! lit name)) elements l
  | Throw _ => []
  end.

(** An important declaration of a rule beats the [style] attribute, other declarations do not. *)
Example styled_values : values "width" (resolve_declared styled backwards 0) = [(1, None); (3, Some (lit "2px")); (4, None)] /\
  values "color" (resolve_declared styled backwards 0) = [(1, None); (3, Some (lit "black")); (4, None)] /\
  values "display" (resolve_declared styled (fun l => l) 0) = [(1, Some (lit "none")); (3, Some (lit "block")); (4, None)].
Proof. vm_compute. auto. Qed.

(** The user agent's sheet has 152 rules. *)
Example user_agent_rules : match parse_stylesheet user_agent_stylesheet with Ret l => length l = 152 | Throw _ => False end.
Proof. vm_compute. reflexivity. Qed.

Example bucket_examples : (bucket_of (lit "ul > LI.a#b"), bucket_of (lit "#main *"), bucket_of (lit "a:hover")) =
  ({| key_id := []; key_cls := lit "a"; key_tag := lit "li" |}, no_key, no_key).
Proof. reflexivity. Qed.

Lemma styled_wf : dom_wf styled.
Proof. apply load_document_wf. Qed.

Lemma styled_root : is_Some (nodes styled !! 0) /\ is_element styled 0 = false /\ parent_of styled 0 = None.
Proof. split; [by vm_compute; eauto|by vm_compute]. Qed.

Lemma backwards_perm l : backwards l ≡ₚ l.
Proof. apply reverse_Permutation. Qed.

Lemma cascade_sound_witness : values "width" (resolve_declared styled backwards 0) = [(1, None); (3, Some (lit "2px")); (4, None)] /\
  outcome (eq ResourceLimit)
    (fun '(elements, declared, _) => elements.*1 = List.filter (is_element styled) (doc_order styled 0) /\ Forall (entry_ok styled elements) elements /\
       exists rules limited, all_rules styled 0 = Ret (rules, limited) /\
         Forall2 (fun e m => forall name c, m !! name = Some c <-> wins (declares styled rules e.1) name c) elements declared)
    (resolve_declared styled backwards 0).
Proof.
  split; [apply styled_values|].
  apply cascade_sound; [exact styled_wf|exact (proj1 styled_root)|exact (proj1 (proj2 styled_root))|exact (proj2 (proj2 styled_root))|exact backwards_perm].
Defined.

Lemma cascade_order_independent_witness : resolve_declared styled backwards 0 = resolve_declared styled (fun l => l) 0.
Proof.
  apply cascade_order_independent; [exact styled_wf|exact (proj1 styled_root)|exact (proj1 (proj2 styled_root))|exact (proj2 (proj2 styled_root))|
    exact backwards_perm|reflexivity].
Defined.

Lemma styled_rules : match all_rules styled 0 with Ret _ => true | Throw _ => false end = true.
Proof. vm_compute. reflexivity. Qed.

Lemma styled_inline k : inline_candidates (lit "width: 1px; color : black") k =
  [(lit "width", inline_candidate {| property := lit "width"; value := lit "1px"; important := false |} k);
   (lit "color", inline_candidate {| property := lit "color"; value := lit "black"; important := false |} (k + 1))].
Proof. reflexivity. Qed.

Lemma inline_outranks_witness : match all_rules styled 0 with
  | Ret (rules, _) => forall c, wins (declares styled rules 3) (lit "color") c -> d_important c = false ->
      (lit "color", c) ∈ inline_candidates (lit "width: 1px; color : black") (inline_start rules)
  | Throw _ => False
  end.
Proof.
  pose proof styled_rules as Hr. destruct (all_rules styled 0) as [[rules limited]|e] eqn:E; [|discriminate Hr]. intros c Hc Hi.
  apply (inline_outranks styled 0 rules limited 3 _ _ c (inline_candidate {| property := lit "color"; value := lit "black"; important := false |} (inline_start rules + 1)) E);
    [vm_compute; reflexivity|rewrite styled_inline; apply list_elem_of_further, list_elem_of_here|exact Hc|exact Hi].
Defined.

(** ** The budget of the matches *)

Definition sheet_size (s : BucketedSheet) : nat := length (unkeyed s) + length (keyed s).

Lemma add_keyed_length key ref l : length l <= length (add_keyed key ref l).
Proof. induction l as [|[k refs] l IH]; cbn [add_keyed]; [cbn; lia|]. destruct (decide _); cbn; lia. Qed.

Lemma bucket_size_app a b : sheet_size (bucket a) <= sheet_size (bucket (a ++ b)).
Proof.
  unfold bucket. rewrite foldl_app. set (start := foldl _ _ a). generalize start as s.
  induction b as [|ref b IH]; intros s; [done|]. cbn [foldl]. etransitivity; [|apply IH]. unfold sheet_size.
  destruct (is_no_key _); cbn [unkeyed keyed]; [rewrite length_app; cbn; lia|].
  pose proof (add_keyed_length (bucket_of (selector (ref_rule ref))) ref (keyed s)). lia.
Qed.

Definition user_agent_size : nat := match parse_stylesheet user_agent_stylesheet with Ret ua => sheet_size (bucket (append ua UserAgent [])) | Throw _ => 0 end.

Lemma user_agent_size_eq : user_agent_size = 94.
Proof. vm_compute. reflexivity. Qed.

Lemma all_rules_size d root rules limited : all_rules d root = Ret (rules, limited) -> 94 <= sheet_size (bucket rules).
Proof.
  unfold all_rules. intros (ua & Hua & H)%bind_Ret. destruct (collect_style_text d root) as [text lim]. apply bind_Ret in H as (author & _ & H).
  injection H as <- _. rewrite <- user_agent_size_eq. unfold user_agent_size. rewrite Hua. apply bucket_size_app.
Qed.

Lemma cost_size d node sheets : (N.of_nat (sheet_size sheets) <= cost d node sheets)%N.
Proof.
  unfold sheet_size, cost. assert (N.of_nat (length (keyed sheets)) <= sumN (bucket_cost d node) (keyed sheets))%N; [|lia].
  induction (keyed sheets) as [|b l IH]; [done|]. change (sumN ?f (b :: l)) with (f b + sumN f l)%N. unfold bucket_cost at 1. cbn [length]. lia.
Qed.

Lemma declared_all_budget d rule_count sheets elements : dom_wf d -> Forall (fun e => is_Some (nodes d !! e.1) /\ is_element d e.1 = true) elements ->
  forall budget inline_bytes l, declared_all d rule_count sheets elements budget inline_bytes = Ret l ->
  (N.of_nat (length elements) * N.of_nat (sheet_size sheets) <= budget)%N.
Proof.
  intros Hwf. induction 1 as [|[node parent] elements [Hn _] _ IH]; intros budget ib l; [cbn [length]; lia|]. cbn [declared_all fst length] in *.
  rewrite declared_for_eq by done. destruct (N.ltb_spec budget (cost d node sheets)) as [H|H]; [by rewrite orb_true_r|].
  destruct (_ || _ || _); [done|]. cbn [mbind result_bind]. intros (rest & Hrest & _)%bind_Ret. apply IH in Hrest.
  pose proof (cost_size d node sheets). lia.
Qed.

(** C29: a document with more than 21276 elements is always refused: every element costs a match for
    each of the 94 buckets and unkeyed rules of the user agent's own sheet, and 2000000 matches
    are allowed, so that the limit of 40000 elements is never met. *)
Theorem element_budget d root visit elements l limited : dom_wf d -> is_Some (nodes d !! root) -> is_element d root = false ->
  parent_of d root = None -> (forall k, visit k ≡ₚ k) -> resolve_declared d visit root = Ret (elements, l, limited) ->
  (N.of_nat (length elements) <= 21276)%N.
Proof.
  intros Hwf Hr He Hp Hv H. unfold resolve_declared in H. apply bind_Ret in H as (els & Hg & H). apply bind_Ret in H as ([rules lim] & Hrules & H).
  apply bind_Ret in H as (l' & Hl & H). injection H as -> -> ->. pose proof (gather_elements_spec d Hwf root Hr He Hp) as Hs. rewrite Hg in Hs.
  destruct Hs as (Hs & _). apply declared_all_budget in Hl; [|done|by apply (elements_stored d Hwf root)].
  assert (sheet_size {| unkeyed := unkeyed (bucket rules); keyed := visit (keyed (bucket rules)) |} = sheet_size (bucket rules)) as E
    by (unfold sheet_size; cbn; by rewrite (Permutation_length (Hv _))).
  rewrite E in Hl. apply all_rules_size in Hrules. unfold max_matches in Hl. nia.
Qed.

Lemma element_budget_witness : match resolve_declared styled backwards 0 with
  | Ret (elements, _, _) => elements.*1 = [1; 3; 4] /\ (N.of_nat (length elements) <= 21276)%N
  | Throw _ => False
  end.
Proof.
  pose proof (proj1 styled_values) as Hv. destruct (resolve_declared styled backwards 0) as [[[elements l] limited]|e] eqn:E; [|discriminate Hv]. split.
  - assert (exists els, gather_elements styled 0 = Ret els /\ els.*1 = [1; 3; 4]) as (els & H1 & H2) by (eexists; split; [vm_compute|]; reflexivity).
    unfold resolve_declared in E. rewrite H1 in E. apply bind_Ret in E as (els' & [= <-] & E). apply bind_Ret in E as ([rules lim] & _ & E).
    apply bind_Ret in E as (l' & _ & E). injection E as <- _ _. exact H2.
  - apply (element_budget styled 0 backwards elements l limited); [exact styled_wf|exact (proj1 styled_root)|exact (proj1 (proj2 styled_root))|
      exact (proj2 (proj2 styled_root))|exact backwards_perm|exact E].
Defined.
