(* ===== verification/Robots.v ===== *)
(** * Robots: the robots rules of the spider, [plugins/spider/src/spider.cpp]

    The parser of [robots.txt], the matcher of a rule's pattern with its backtracking, and the
    verdict of a set of rules.  A position in a pattern or a path is the suffix that is left. *)
From S2P Require Import Prelude Html.

(** ** Patterns *)

Definition star (c : ascii) : bool := c =c "*".

(** The loop of [robot_match]; [back] is what stands behind the last star, and where it was tried. *)
Fixpoint match_loop (fuel : nat) (pattern path : bytes) (back : option (bytes * bytes)) : bool :=
  match path, fuel with
  | [], _ => forallb star pattern
  | _, O => false
  | c :: path', S fuel' =>
      let retry :=
        match back with
        | Some (behind, tried) => match_loop fuel' behind (tail tried) (Some (behind, tail tried))
        | None => false
        end in
      match pattern with
      | x :: pattern' =>
          if x =c c then match_loop fuel' pattern' path' back
          else if star x then match_loop fuel' pattern' path (Some (pattern', path))
          else retry
      | [] => retry
      end
  end.

(** The pattern that is matched as a whole: a final dollar is taken off, or a star put on. *)
Definition whole_pattern (pattern : bytes) : bytes :=
  if ends_with (lit "$") pattern then take (length pattern - 1) pattern else pattern ++ lit "*".

Definition robot_match (pattern path : bytes) : bool :=
  let pattern := whole_pattern pattern in
  match_loop ((length pattern + 1) * (length path + 1)) pattern path None.

(** ** Rules *)

Record RobotRule := { allow : bool; rule_path : bytes }.

(** The characters of a pattern that are not wild. *)
Definition rule_length (r : RobotRule) : nat := length (List.filter (fun c => negb (star c || (c =c "$"))) (rule_path r)).

(** One iteration of the loop of [robots_allow]: whether a rule has matched, its length, the verdict. *)
Definition better (path : bytes) (acc : bool * nat * bool) (rule : RobotRule) : bool * nat * bool :=
  let '(matched, best, verdict) := acc in
  if robot_match (rule_path rule) path then
    let n := rule_length rule in
    if negb matched || (best <? n) || ((n =? best) && allow rule) then (true, n, allow rule) else acc
  else acc.

Definition rules_allow (rules : list RobotRule) (path : bytes) : bool := (foldl (better path) (false, 0, true) rules).2.

(** ** The file *)

(** [std::getline]: an empty line behind the last line end is none. *)
Fixpoint lines_loop (line s : bytes) : list bytes :=
  match s with
  | [] => if nonempty line then [line] else []
  | c :: s' => if c =c byte 10 then line :: lines_loop [] s' else lines_loop (line ++ [c]) s'
  end.

Definition getlines (s : bytes) : list bytes := lines_loop [] s.

Definition robots_blank (c : ascii) : bool := (c =c " ") || (c =c byte 9) || (c =c byte 13).
Definition robots_trim (s : bytes) : bytes := rstrip robots_blank (skip robots_blank s).

Record RobotsState := {
  any : bool; agent : bool; rules_started : bool; specific_group : bool;
  general : list RobotRule; specific : list RobotRule }.

Definition robots_start : RobotsState :=
  {| any := false; agent := false; rules_started := false; specific_group := false; general := []; specific := [] |}.

Definition crawler : bytes := lit "prowsetkspider".

Definition on_agent (value : bytes) (st : RobotsState) : RobotsState :=
  let any0 := any st && negb (rules_started st) in
  let agent0 := agent st && negb (rules_started st) in
  let agent1 := agent0 || (to_lower value =s crawler) in
  {| any := any0 || (value =s lit "*"); agent := agent1; rules_started := false;
     specific_group := specific_group st || agent1; general := general st; specific := specific st |}.

Definition on_robots_rule (allowed : bool) (value : bytes) (st : RobotsState) : result RobotsState :=
  let started := {| any := any st; agent := agent st; rules_started := true; specific_group := specific_group st;
                    general := general st; specific := specific st |} in
  if negb (nonempty value) then Ret started
  else
    _ ← throw_if ((2048 <? length value) && (agent st || any st)) ResourceLimit;
    let rule := {| allow := allowed; rule_path := value |} in
    Ret {| any := any st; agent := agent st; rules_started := true; specific_group := specific_group st;
           general := if negb (agent st) && any st then general st ++ [rule] else general st;
           specific := if agent st then specific st ++ [rule] else specific st |}.

Definition on_line (line : bytes) (st : RobotsState) : result RobotsState :=
  let line := span (fun c => negb (c =c "#")) line in
  match find_if (fun c => c =c ":") line with
  | None => Ret st
  | Some colon =>
      let key := robots_trim (to_lower (take colon line)) in
      let value := robots_trim (drop (colon + 1) line) in
      if key =s lit "user-agent" then Ret (on_agent value st)
      else if (key =s lit "allow") || (key =s lit "disallow") then on_robots_rule (key =s lit "allow") value st
      else Ret st
  end.

Fixpoint lines_run (l : list bytes) (st : RobotsState) : result RobotsState :=
  match l with
  | [] => Ret st
  | line :: l' => st ← on_line line st; lines_run l' st
  end.

Definition max_robots_lines : nat := 2000.

Definition parse_robots (text : bytes) : result (list RobotRule) :=
  let l := getlines text in
  st ← lines_run (take max_robots_lines l) robots_start;
  _ ← throw_if (max_robots_lines <? length l) ResourceLimit;
  Ret (if specific_group st then specific st else general st).

Example robot_match_examples :
  map (fun '(p, s) => robot_match (lit p) (lit s))
    [("/a", "/abc"); ("/a$", "/abc"); ("/a*c$", "/abbc"); ("/*.php", "/x/y.php?z"); ("/*.php$", "/x/y.php5"); ("/**b*", "/aab")]%string =
  [true; false; true; true; false; true].
Proof. reflexivity. Qed.

(** ** What a pattern means *)

Fixpoint glob (pattern path : bytes) : Prop :=
  match pattern with
  | [] => path = []
  | x :: p => if star x then exists a b, path = a ++ b /\ glob p b else exists t, path = x :: t /\ glob p t
  end.

Lemma glob_literal l p s : none star l = true -> glob (l ++ p) s <-> exists t, s = l ++ t /\ glob p t.
Proof.
  revert s. induction l as [|x l IH]; intros s Hl; cbn [app glob].
  - split; [by exists s|]. by intros (t & -> & H).
  - cbn [forallb] in Hl. apply andb_prop in Hl as [Hx%negb_true_iff Hl]. rewrite Hx. setoid_rewrite IH; [|done]. split.
    + intros (t & -> & u & -> & H). by exists u.
    + intros (u & -> & H). exists (l ++ u). split; [done|]. by exists u.
Qed.

Lemma glob_star_app p s : glob (p ++ lit "*") s <-> exists a b, s = a ++ b /\ glob p a.
Proof.
  revert s. induction p as [|x p IH]; intros s.
  - cbn. split; [|intros (a & b & -> & ->); exists b, []; by rewrite app_nil_r]. intros (a & b & -> & ->). exists [], a. by rewrite app_nil_r.
  - cbn [app glob]. destruct (star x); setoid_rewrite IH; split.
    + intros (a & ? & -> & b & c & -> & H). exists (a ++ b), c. split; [by rewrite app_assoc|]. by exists a, b.
    + intros (ab & c & -> & a & b & -> & H). exists a, (b ++ c). split; [by rewrite app_assoc|]. by exists b, c.
    + intros (t & -> & a & b & -> & H). exists (x :: a), b. split; [done|]. by exists a.
    + intros (xa & b & -> & a & -> & H). exists (a ++ b). split; [done|]. by exists a, b.
Qed.

Lemma stars_glob p : forallb star p = true <-> glob p [].
Proof.
  induction p as [|x p IH]; [done|]. cbn [forallb glob]. destruct (star x); cbn [andb].
  - rewrite IH. split; [by exists [], []|]. by intros (a & b & [_ ->]%symmetry%app_nil & H).
  - split; [done|]. by intros (t & ? & _).
Qed.

(** A text that a pattern matches somewhere behind the beginning of [r]. *)
Definition later (back : option (bytes * bytes)) : Prop :=
  match back with Some (q, r) => exists x r', r = x ++ r' /\ x <> [] /\ glob q r' | None => False end.

(** What has been matched since the last star. *)
Definition tried_ok (pattern path : bytes) (back : option (bytes * bytes)) : Prop :=
  match back with Some (q, r) => exists l, q = l ++ pattern /\ r = l ++ path /\ none star l = true | None => True end.

Definition potential (pattern path : bytes) (back : option (bytes * bytes)) : nat :=
  match back with
  | Some (q, r) => S (length pattern) + length r * S (length q)
  | None => S (length pattern) + length path * S (length pattern)
  end.

(** Suffixes of the same text. *)
Lemma suffix_inside {A} (a b c d : list A) : a ++ b = c ++ d -> length b <= length d -> exists e, d = e ++ b.
Proof.
  intros H Hl. exists (drop (length c) a). assert (length a + length b = length c + length d) as E by (rewrite <- !length_app; by rewrite H).
  transitivity (drop (length c) (a ++ b)); [by rewrite H, drop_app_length|]. rewrite drop_app_le by lia. done.
Qed.

Lemma later_end pattern back : tried_ok pattern [] back -> ~ later back.
Proof.
  destruct back as [[q r]|]; [|by intros _ []]. intros (l & -> & -> & Hl) (x & r' & E & Hx & H). apply glob_literal in H as (t & -> & _); [|done].
  apply (f_equal length) in E. rewrite app_nil_r, !length_app in E. destruct x; [done|]. cbn in E. lia.
Qed.

Lemma later_tail q y r : later (Some (q, y :: r)) <-> glob q r \/ later (Some (q, r)).
Proof.
  split.
  - intros ([|z x] & r' & E & Hx & H); [done|]. injection E as -> ->. destruct x as [|w x]; [by left|]. right. by exists (w :: x), r'.
  - intros [H|(x & r' & -> & Hx & H)]; [by exists [y], r|]. by exists (y :: x), r'.
Qed.

(** When a star is met again the earlier one need not be tried any more. *)
Lemma later_star x p path back : star x = true -> tried_ok (x :: p) path back -> later back -> glob (x :: p) path.
Proof.
  intros Hx. destruct back as [[q r]|]; [|done]. intros (l & -> & -> & Hl) (y & r' & E & Hy & H). apply glob_literal in H as (t & -> & Ht); [|done].
  cbn [glob] in *. rewrite Hx in *. destruct Ht as (a & b & -> & Hb). exists (take (length path - length b) path), b. split; [|done].
  destruct (suffix_inside (y ++ l ++ a) b l path) as [e ->].
  - rewrite <- !app_assoc in *. by rewrite E.
  - apply (f_equal length) in E. rewrite !length_app in E. destruct y; [done|]. cbn in E. lia.
  - rewrite length_app, Nat.add_sub, take_app_length. done.
Qed.

Lemma match_loop_spec fuel : forall pattern path back, none star path = true -> tried_ok pattern path back -> potential pattern path back <= fuel + 1 ->
  match_loop fuel pattern path back = true <-> glob pattern path \/ later back.
Proof.
  induction fuel as [|fuel IH]; intros pattern path back Hs Ht Hf; destruct path as [|c path];
    try (cbn [match_loop]; rewrite stars_glob; apply later_end in Ht; tauto).
  { exfalso. destruct back as [[q r]|]; cbn in Hf; [|lia]. destruct Ht as (l & _ & -> & _). rewrite length_app in Hf. cbn in Hf. lia. }
  cbn [match_loop]. pose proof Hs as Hs0. cbn [forallb] in Hs. apply andb_prop in Hs as [Hc%negb_true_iff Hs].
  assert (~ glob pattern (c :: path) -> match back with Some (behind, tried) => match_loop fuel behind (tail tried) (Some (behind, tail tried)) | None => false end = true <->
    glob pattern (c :: path) \/ later back) as Hretry.
  { intros Hn. destruct back as [[q r]|]; [|split; [done|by intros [?|[]]]]. destruct Ht as (l & Eq & Er & Hl). destruct r as [|y r]; [by destruct l|]. cbn [tail].
    rewrite later_tail. rewrite IH; [tauto| | |].
    - assert (none star (y :: r) = true) as Hr by (rewrite Er, none_app, Hl; exact Hs0). cbn [forallb] in Hr. by apply andb_prop in Hr as [_ Hr].
    - by exists [].
    - cbn [potential length] in *. lia. }
  destruct pattern as [|x pattern]; [by apply Hretry|]. destruct (x =c c) eqn:Ec.
  - apply eqc_true in Ec as ->. rewrite IH; [|done| |].
    + cbn [glob]. rewrite Hc. naive_solver.
    + destruct back as [[q r]|]; [|done]. destruct Ht as (l & -> & -> & Hl). exists (l ++ [c]). rewrite <- !app_assoc. split_and!; [done|done|].
      rewrite none_app, Hl. cbn. by rewrite Hc.
    + destruct back as [[q r]|]; cbn [potential length] in *; lia.
  - destruct (star x) eqn:Ex.
    + rewrite IH; [|done|by exists []|].
      * rewrite <- later_tail with (y := c). split.
        -- intros (y & r' & E & Hy & H). left. cbn [glob]. rewrite Ex. destruct y as [|z y]; [done|]. injection E as -> E. by exists y, r'.
        -- intros [H|H]; [|apply (later_star x pattern (c :: path) back Ex Ht) in H]; cbn [glob] in H; rewrite Ex in H; destruct H as (a & b & E & H);
             exists (c :: a), b; split_and!; [cbn; by rewrite E|done|done|cbn; by rewrite E|done|done].
      * destruct back as [[q r]|]; cbn [potential length] in *; [|lia]. destruct Ht as (l & -> & -> & Hl). rewrite !length_app in Hf. cbn [length] in Hf. nia.
    + apply Hretry. cbn [glob]. rewrite Ex. intros (t & [= -> _] & _). apply eqc_false in Ec. done.
Qed.

Lemma robot_match_glob pattern path : none star path = true ->
  robot_match pattern path = true <-> glob (whole_pattern pattern) path.
Proof.
  intros Hs. unfold robot_match. rewrite match_loop_spec; [cbn; tauto|done|done|]. cbn [potential]. lia.
Qed.

(** ** The verdict *)

Section Verdict.
Context (path : bytes).

Definition matching (l : list RobotRule) : list RobotRule := List.filter (fun r => robot_match (rule_path r) path) l.

(** What the loop knows when it has seen the rules [l]. *)
Definition verdict_ok (l : list RobotRule) (acc : bool * nat * bool) : Prop :=
  let '(matched, best, verdict) := acc in
  (matched = nonempty (matching l)) /\
  (matched = false -> verdict = true) /\
  (matched = true -> (forall r, r ∈ matching l -> rule_length r <= best) /\ (exists r, r ∈ matching l /\ rule_length r = best) /\
     (verdict = true <-> exists r, r ∈ matching l /\ rule_length r = best /\ allow r = true)).

Lemma better_ok l r acc : verdict_ok l acc -> verdict_ok (l ++ [r]) (better path acc r).
Proof.
  destruct acc as [[matched best] verdict]. unfold verdict_ok, better, matching. rewrite List.filter_app. cbn [List.filter].
  set (l' := List.filter _ l). intros (H1 & H2 & H3). destruct (robot_match (rule_path r) path); [|by rewrite app_nil_r].
  assert (nonempty (l' ++ [r]) = true) as Hne by (by destruct l').
  destruct matched; cbn [negb orb].
  - destruct (H3 eq_refl) as (Hle & (r0 & Hr0 & E0) & Hv). destruct (Nat.ltb_spec best (rule_length r)) as [Hlt|Hge]; cbn [orb].
    + rewrite Hne. split_and!; [done|done|]. intros _. split_and!.
      * intros x [Hx| ->%list_elem_of_singleton]%elem_of_app; [specialize (Hle x Hx); lia|done].
      * exists r. split; [|done]. apply elem_of_app. right. by apply list_elem_of_singleton.
      * split; [intros Ha; exists r; split_and!; [apply elem_of_app; right; by apply list_elem_of_singleton|done|done]|].
        intros (x & [Hx| ->%list_elem_of_singleton]%elem_of_app & Ex & Ha); [specialize (Hle x Hx); lia|done].
    + destruct ((rule_length r =? best) && allow r) eqn:Eq; rewrite Hne; (split_and!; [done|try done|]).
      * intros _. apply andb_prop in Eq as [Eq Ha]. apply Nat.eqb_eq in Eq. split_and!.
        -- intros x [Hx| ->%list_elem_of_singleton]%elem_of_app; [specialize (Hle x Hx); lia|lia].
        -- exists r. split; [|done]. apply elem_of_app. right. by apply list_elem_of_singleton.
        -- split; [|done]. intros _. exists r. split_and!; [apply elem_of_app; right; by apply list_elem_of_singleton|done|done].
      * intros _. split_and!.
        -- intros x [Hx| ->%list_elem_of_singleton]%elem_of_app; [by apply Hle|lia].
        -- exists r0. split; [|done]. apply elem_of_app. by left.
        -- rewrite Hv. split; intros (x & Hx & Ex & Ha); exists x; (split; [|done]); [apply elem_of_app; by left|].
           apply elem_of_app in Hx as [Hx| ->%list_elem_of_singleton]; [done|]. exfalso. rewrite Ex, Nat.eqb_refl, Ha in Eq. done.
  - destruct l'; [|done]. cbn [app nonempty]. split_and!; [done|done|]. intros _. split_and!.
    + by intros x ->%list_elem_of_singleton.
    + exists r. split; [by apply list_elem_of_singleton|done].
    + split; [intros Ha; exists r; split_and!; [by apply list_elem_of_singleton|done|done]|]. by intros (x & ->%list_elem_of_singleton & _ & Ha).
Qed.

Lemma verdict_fold l : verdict_ok l (foldl (better path) (false, 0, true) l).
Proof.
  induction l as [|r l IH] using rev_ind; [done|]. rewrite foldl_app. by apply better_ok.
Qed.

Lemma rules_allow_spec l : rules_allow l path = true <->
  matching l = [] \/ exists r, r ∈ matching l /\ allow r = true /\ forall r', r' ∈ matching l -> rule_length r' <= rule_length r.
Proof.
  unfold rules_allow. pose proof (verdict_fold l) as H. destruct (foldl _ _ l) as [[matched best] verdict]. destruct H as (H1 & H2 & H3).
  cbn [snd]. destruct matched.
  - destruct (H3 eq_refl) as (Hle & (r0 & Hr0 & E0) & Hv). rewrite Hv. split.
    + intros (r & Hr & Er & Ha). right. exists r. split_and!; [done|done|]. intros r' Hr'. rewrite Er. by apply Hle.
    + intros [E|(r & Hr & Ha & Hmax)]; [by rewrite E in H1|]. exists r. split_and!; [done| |done].
      specialize (Hle r Hr). specialize (Hmax r0 Hr0). lia.
  - destruct (matching l); [|done]. split; [by left|]. intros _. by apply H2.
Qed.

End Verdict.

(** A rule is about a path when its pattern matches it. *)
Definition concerns (path : bytes) (r : RobotRule) : Prop := glob (whole_pattern (rule_path r)) path.

Lemma matching_elem path l r : none star path = true -> r ∈ matching path l <-> r ∈ l /\ concerns path r.
Proof.
  intros Hs. unfold matching. rewrite list_elem_of_In, filter_In, <- list_elem_of_In. unfold concerns. by rewrite robot_match_glob.
Qed.

(** ** Reading a file of groups *)

Record Group := { agents : list bytes; group_rules : list RobotRule }.

Definition line_value (s : bytes) : Prop := robots_trim s = s /\ none (fun c => (c =c "#") || (c =c byte 10)) s = true.

Definition group_ok (g : Group) : Prop :=
  agents g <> [] /\ group_rules g <> [] /\ Forall line_value (agents g) /\
  Forall (fun r => rule_path r <> [] /\ length (rule_path r) <= 2048 /\ line_value (rule_path r)) (group_rules g).

Definition agent_line (a : bytes) : bytes := lit "User-agent: " ++ a.
Definition rule_line (r : RobotRule) : bytes := (if allow r then lit "Allow: " else lit "Disallow: ") ++ rule_path r.
Definition group_lines (g : Group) : list bytes := map agent_line (agents g) ++ map rule_line (group_rules g).
Definition print_lines (l : list bytes) : bytes := mjoin ((fun s => s ++ [byte 10]) <$> l).

Definition names_crawler (g : Group) : bool := existsb (fun a => to_lower a =s crawler) (agents g).
Definition names_any (g : Group) : bool := existsb (fun a => a =s lit "*") (agents g).

(** The groups for this crawler, or else those for everybody. *)
Definition selected (l : list Group) : list RobotRule :=
  mjoin (group_rules <$> List.filter (if existsb names_crawler l then names_crawler else names_any) l).

Lemma getlines_print l : Forall (fun s => none (fun c => c =c byte 10) s = true) l -> getlines (print_lines l) = l.
Proof.
  intros H. unfold getlines. assert (forall s cur t, none (fun c => c =c byte 10) s = true ->
    lines_loop cur (s ++ byte 10 :: t) = (cur ++ s) :: lines_loop [] t) as Hl.
  { induction s as [|c s IH]; intros cur t; [by rewrite app_nil_r|]. cbn [forallb app lines_loop]. intros [Hc%negb_true_iff Hs]%andb_prop.
    rewrite Hc, IH by done. by rewrite <- app_assoc. }
  induction H as [|s l Hs _ IH]; [done|]. change (print_lines (s :: l)) with ((s ++ [byte 10]) ++ print_lines l). rewrite <- app_assoc.
  cbn [app]. by rewrite Hl, IH.
Qed.

Lemma on_line_key key value st : none (fun c => (c =c ":") || (c =c "#")) key = true -> none (fun c => c =c "#") value = true ->
  on_line (key ++ ":"%char :: value) st =
  (let k := robots_trim (to_lower key) in let v := robots_trim value in
   if k =s lit "user-agent" then Ret (on_agent v st)
   else if (k =s lit "allow") || (k =s lit "disallow") then on_robots_rule (k =s lit "allow") v st else Ret st).
Proof.
  intros Hk Hv. unfold on_line. rewrite span_all.
  - rewrite find_if_mid; [|eapply none_impl, Hk; intros c Hc; cbn beta; by rewrite Hc|done]. by rewrite take_app_length, drop_app_S.
  - rewrite forallb_app. cbn [forallb]. rewrite Hv. assert (none (fun c => c =c "#") key = true) as ->; [|done]. eapply none_impl, Hk. intros c Hc. cbn beta. by rewrite Hc, orb_true_r.
Qed.

Lemma value_trim s : line_value s -> robots_trim (" "%char :: s) = s.
Proof. by intros [H _]. Qed.

Lemma on_agent_line a st : line_value a -> on_line (agent_line a) st = Ret (on_agent a st).
Proof.
  intros Ha. change (agent_line a) with (lit "User-agent" ++ ":"%char :: " "%char :: a). rewrite on_line_key.
  - cbv zeta. rewrite value_trim by done. done.
  - done.
  - cbn [forallb]. destruct Ha as [_ Ha]. eapply none_impl, Ha. intros c Hc. cbn beta. by rewrite Hc.
Qed.

Lemma on_rule_line r st : line_value (rule_path r) -> on_line (rule_line r) st = on_robots_rule (allow r) (rule_path r) st.
Proof.
  intros Hr. assert (none (fun c => c =c "#") (" "%char :: rule_path r) = true) as Hn
    by (cbn [forallb]; destruct Hr as [_ Hr]; eapply none_impl, Hr; intros c Hc; cbn beta; by rewrite Hc).
  unfold rule_line. destruct (allow r).
  - change (lit "Allow: " ++ rule_path r) with (lit "Allow" ++ ":"%char :: " "%char :: rule_path r). rewrite on_line_key by done.
    cbv zeta. rewrite value_trim by done. done.
  - change (lit "Disallow: " ++ rule_path r) with (lit "Disallow" ++ ":"%char :: " "%char :: rule_path r). rewrite on_line_key by done.
    cbv zeta. rewrite value_trim by done. done.
Qed.

(** The state behind the agents of a group, and behind its rules. *)
Definition behind_agents (l : list bytes) (st : RobotsState) : RobotsState :=
  {| any := any st || existsb (fun a => a =s lit "*") l; agent := agent st || existsb (fun a => to_lower a =s crawler) l;
     rules_started := false; specific_group := specific_group st || existsb (fun a => to_lower a =s crawler) l;
     general := general st; specific := specific st |}.

Definition behind_rules (l : list RobotRule) (st : RobotsState) : RobotsState :=
  {| any := any st; agent := agent st; rules_started := true; specific_group := specific_group st;
     general := general st ++ (if negb (agent st) && any st then l else []); specific := specific st ++ (if agent st then l else []) |}.

Definition fresh (st : RobotsState) : RobotsState :=
  {| any := false; agent := false; rules_started := false; specific_group := specific_group st; general := general st; specific := specific st |}.

Definition between (st : RobotsState) : Prop := rules_started st = true \/ (any st = false /\ agent st = false).

Definition behind_group (st : RobotsState) (g : Group) : RobotsState := behind_rules (group_rules g) (behind_agents (agents g) (fresh st)).

Lemma on_agent_fresh a st : between st -> on_agent a st = on_agent a (fresh st).
Proof. unfold on_agent. intros [-> |[-> ->]]; cbn; by rewrite ?andb_false_r. Qed.

Lemma on_agent_behind a st : rules_started st = false -> (agent st = true -> specific_group st = true) -> on_agent a st = behind_agents [a] st.
Proof.
  unfold on_agent, behind_agents. intros -> Hs. cbn. rewrite !andb_true_r, !orb_false_r. f_equal.
  destruct (agent st); [by rewrite (Hs eq_refl)|done].
Qed.

Lemma behind_agents_app l a st : behind_agents [a] (behind_agents l st) = behind_agents (l ++ [a]) st.
Proof. unfold behind_agents. cbn. rewrite !existsb_app. cbn. by rewrite !orb_false_r, !orb_assoc. Qed.

Lemma lines_run_app l t st : lines_run (l ++ t) st = (st' ← lines_run l st; lines_run t st').
Proof. revert st. induction l as [|x l IH]; intros st; cbn [lines_run app]; [done|]. destruct (on_line x st); [apply IH|done]. Qed.

Lemma agents_run l st : Forall line_value l -> l <> [] -> between st -> lines_run (map agent_line l) st = Ret (behind_agents l (fresh st)).
Proof.
  intros Hl Hne Hb. induction l as [|a l IH] using rev_ind; [done|]. clear Hne. apply Forall_app in Hl as [Hl [Ha _]%Forall_cons].
  rewrite map_app, lines_run_app. destruct l as [|b l].
  - cbn [map lines_run mbind result_bind]. rewrite on_agent_line, on_agent_fresh by done. rewrite on_agent_behind by done. done.
  - rewrite IH by done. cbn [map lines_run mbind result_bind]. rewrite on_agent_line by done. rewrite on_agent_behind; [by rewrite behind_agents_app|done|].
    unfold behind_agents. cbn [agent specific_group fresh]. intros H. rewrite orb_false_l in H. by rewrite H, orb_true_r.
Qed.

Lemma on_rule_behind r st : rule_path r <> [] -> length (rule_path r) <= 2048 ->
  on_robots_rule (allow r) (rule_path r) st = Ret (behind_rules [r] st).
Proof.
  intros Hne Hle. unfold on_robots_rule, behind_rules. apply Nat.ltb_ge in Hle as ->.
  replace (nonempty (rule_path r)) with true by (by destruct (rule_path r)). destruct r as [al p]. cbn [negb andb throw_if mbind result_bind allow rule_path].
  destruct (agent st), (any st); cbn [negb andb]; by rewrite ?app_nil_r.
Qed.

Lemma rules_run l st : Forall (fun r => rule_path r <> [] /\ length (rule_path r) <= 2048 /\ line_value (rule_path r)) l -> l <> [] ->
  lines_run (map rule_line l) st = Ret (behind_rules l st).
Proof.
  intros Hl Hne. induction l as [|r l IH] using rev_ind; [done|]. clear Hne. apply Forall_app in Hl as [Hl [(H1 & H2 & H3) _]%Forall_cons].
  rewrite map_app, lines_run_app. destruct l as [|b l].
  - cbn [map lines_run mbind result_bind]. rewrite on_rule_line, on_rule_behind by done. done.
  - rewrite IH by done. cbn [map lines_run mbind result_bind]. rewrite on_rule_line, on_rule_behind by done. cbn [mbind result_bind]. f_equal.
    unfold behind_rules. cbn. f_equal; [destruct (negb _ && _)|destruct (agent st)]; by rewrite <- ?app_assoc.
Qed.

Lemma group_run g st : group_ok g -> between st -> lines_run (group_lines g) st = Ret (behind_group st g).
Proof.
  intros (Ha & Hr & Hla & Hlr) Hb. unfold group_lines. rewrite lines_run_app, agents_run by done. cbn [mbind result_bind]. by apply rules_run.
Qed.

Lemma groups_run l st : Forall group_ok l -> between st -> lines_run (mjoin (group_lines <$> l)) st = Ret (foldl behind_group st l).
Proof.
  intros Hl. revert st. induction Hl as [|g l Hg _ IH]; intros st Hb; [done|].
  change (mjoin (group_lines <$> g :: l)) with (group_lines g ++ mjoin (group_lines <$> l)).
  rewrite lines_run_app, group_run by done. cbn [mbind result_bind foldl]. apply IH. by left.
Qed.

Definition rules_of (p : Group -> bool) (l : list Group) : list RobotRule := mjoin (group_rules <$> List.filter p l).

Lemma rules_of_snoc p l g : rules_of p (l ++ [g]) = rules_of p l ++ (if p g then group_rules g else []).
Proof.
  unfold rules_of. rewrite List.filter_app, fmap_app, join_app. f_equal. cbn [List.filter]. destruct (p g); [|done]. apply app_nil_r.
Qed.

Lemma groups_state l : let st := foldl behind_group robots_start l in
  specific_group st = existsb names_crawler l /\ specific st = rules_of names_crawler l /\
  general st = rules_of (fun g => negb (names_crawler g) && names_any g) l.
Proof.
  induction l as [|g l IH] using rev_ind; [done|]. destruct IH as (H1 & H2 & H3). rewrite foldl_app. cbn [foldl].
  rewrite !rules_of_snoc, existsb_app. unfold behind_group at 1 3 5, behind_rules, behind_agents. cbn. rewrite H1, H2, H3, orb_false_r. done.
Qed.

Lemma parse_robots_groups l : Forall group_ok l -> length (mjoin (group_lines <$> l)) <= max_robots_lines ->
  parse_robots (print_lines (mjoin (group_lines <$> l))) = Ret (selected l).
Proof.
  intros Hl Hn. unfold parse_robots. rewrite getlines_print.
  - rewrite take_ge by done. apply Nat.ltb_ge in Hn as ->. rewrite groups_run; [|done|by right]. cbn [mbind result_bind]. unfold throw_if. cbn [mbind result_bind].
    destruct (groups_state l) as (-> & -> & ->). unfold selected. f_equal. destruct (existsb names_crawler l) eqn:E; [done|]. unfold rules_of. f_equal. f_equal.
    apply List.filter_ext_in. intros g Hg. rewrite <- not_true_iff_false, existsb_exists in E. destruct (names_crawler g) eqn:Eg; [|done]. exfalso. apply E. by exists g.
  - apply Forall_forall. intros s (ls & Hs & (g & -> & Hg)%list_elem_of_fmap)%list_elem_of_join. rewrite Forall_forall in Hl.
    destruct (Hl g Hg) as (_ & _ & Ha & Hr). unfold group_lines in Hs. rewrite Forall_forall in Ha. rewrite Forall_forall in Hr.
    assert (forall v, line_value v -> none (fun c => c =c byte 10) v = true) as Hv.
    { intros v [_ Hv]. eapply none_impl, Hv. intros c Hc. cbn beta. by rewrite Hc, orb_true_r. }
    apply elem_of_app in Hs as [Hs|Hs]; apply list_elem_of_In, in_map_iff in Hs as (v & <- & Hin%list_elem_of_In).
    + unfold agent_line. rewrite none_app, (Hv v (Ha v Hin)). done.
    + unfold rule_line. destruct (Hr v Hin) as (_ & _ & Hval). rewrite none_app, (Hv _ Hval). by destruct (allow v).
Qed.

(** ** Properties *)

(** The robots file is read as its groups say: from a text of groups (the agents, then the rules) of at most
    2000 lines, the rules are those of all the groups that name this crawler, in their order, and when no group
    names it those of all the groups for every agent; rules of other groups are never used. *)
Theorem robots_read l : Forall group_ok l -> length (mjoin (group_lines <$> l)) <= max_robots_lines ->
  parse_robots (print_lines (mjoin (group_lines <$> l))) = Ret (selected l).
Proof. apply parse_robots_groups. Qed.

(** C35: what the crawler may fetch, for paths without a star: such a path is refused exactly when some rule's pattern (stars
    for any text, a final dollar for the end, otherwise a prefix) matches it and every longest rule that matches forbids it.
    The matcher, a loop that goes back to its last star only, is equivalent to the meaning of patterns.  For a path with a
    star it is not ([star_in_path], [spider.cpp:105]). *)
Theorem robots_verdict rules path : none star path = true ->
  rules_allow rules path = true <->
  (forall r, r ∈ rules -> ~ concerns path r) \/
  exists r, r ∈ rules /\ concerns path r /\ allow r = true /\
    forall r', r' ∈ rules -> concerns path r' -> rule_length r' <= rule_length r.
Proof.
  intros Hs. rewrite rules_allow_spec. split.
  - intros [E|(r & Hr & Ha & Hmax)].
    + left. intros r Hr Hc. assert (r ∈ matching path rules) as H by (by apply matching_elem). rewrite E in H. by apply elem_of_nil in H.
    + right. exists r. apply matching_elem in Hr as [Hr Hc]; [|done]. split_and!; [done..|]. intros r' H1 H2. apply Hmax. by apply matching_elem.
  - intros [Hn|(r & Hr & Hc & Ha & Hmax)].
    + left. destruct (matching path rules) as [|r l] eqn:E; [done|]. assert (r ∈ matching path rules) as H by (rewrite E; apply elem_of_cons; by left).
      apply matching_elem in H as [Hr Hc]; [|done]. by destruct (Hn r Hr).
    + right. exists r. split_and!; [by apply matching_elem|done|]. intros r' H'. apply matching_elem in H' as [H1 H2]; [|done]. by apply Hmax.
Qed.

(** ** On concrete inputs *)

Definition demo_groups : list Group :=
  [ {| agents := [lit "*"]; group_rules := [{| allow := false; rule_path := lit "/" |}] |};
    {| agents := [lit "other"; lit "ProwseTkSpider"];
       group_rules := [{| allow := false; rule_path := lit "/private" |}; {| allow := true; rule_path := lit "/private/*.html$" |}] |} ].

Definition demo_robots : bytes := print_lines (mjoin (group_lines <$> demo_groups)).

Example demo_groups_selected : selected demo_groups = [{| allow := false; rule_path := lit "/private" |}; {| allow := true; rule_path := lit "/private/*.html$" |}].
Proof. vm_compute. reflexivity. Qed.

Lemma robots_read_witness : parse_robots demo_robots = Ret (selected demo_groups).
Proof.
  apply (robots_read demo_groups); [|vm_compute; lia].
  repeat first [apply List.Forall_nil | apply List.Forall_cons | split]; try (vm_compute; (reflexivity || lia || discriminate)).
Defined.

Lemma robots_verdict_witness :
  (rules_allow (selected demo_groups) (lit "/private/x.html") = true <->
   (forall r, r ∈ selected demo_groups -> ~ concerns (lit "/private/x.html") r) \/
   exists r, r ∈ selected demo_groups /\ concerns (lit "/private/x.html") r /\ allow r = true /\
     forall r', r' ∈ selected demo_groups -> concerns (lit "/private/x.html") r' -> rule_length r' <= rule_length r) /\
  rules_allow (selected demo_groups) (lit "/private/x.html") = true /\
  rules_allow (selected demo_groups) (lit "/private/x.html?y") = false /\
  rules_allow (selected demo_groups) (lit "/public") = true.
Proof. split; [apply (robots_verdict (selected demo_groups) (lit "/private/x.html")); reflexivity|vm_compute; done]. Defined.

(** A star in the path: the test for the same character comes before the one for a wild card, and a rule does not
    match what it should; the crawler fetches a page it was asked to leave alone. *)
Definition star_rules : list RobotRule := [{| allow := false; rule_path := lit "/*private" |}].
Example star_in_path : rules_allow star_rules (lit "/x/private") = false /\ rules_allow star_rules (lit "/*/private") = true.
Proof. vm_compute. done. Qed.

(** A comment ends a line, even inside of a path; an empty rule ends the list of agents but is no rule. *)
Example robots_lines :
  parse_robots (lit "User-agent: *" ++ [byte 10] ++ lit "Disallow: /a#b" ++ [byte 13; byte 10] ++ lit "allow:" ++ [byte 10] ++
    lit "User-Agent: x" ++ [byte 10] ++ lit "Disallow: /c") = Ret [{| allow := false; rule_path := lit "/a" |}].
Proof. vm_compute. reflexivity. Qed.
