(* ===== verification/Frame.v ===== *)
(** * Frame: the wire format of the spider, [plugins/spider/src/protocol.cpp]

    Lists of byte strings as one string ([pack], [unpack]), the frames that carry them over a socket, and the
    loops that send and receive a frame in whatever pieces the system gives.  [std::runtime_error] is [None];
    what the socket does is a list of events. *)
From S2P Require Import Prelude Html.
Local Open Scope N_scope.

Definition max_message_bytes : N := 4 * 1024 * 1024.
Definition size (s : bytes) : N := N.of_nat (length s).

(** ** Packing *)

Definition pack_one (value : bytes) : bytes := print_N (size value) ++ lit ":" ++ value.

Fixpoint pack_loop (values : list bytes) (out : bytes) : option bytes :=
  match values with
  | [] => Some out
  | value :: values' => let out := out ++ pack_one value in if max_message_bytes <? size out then None else pack_loop values' out
  end.

Definition pack (values : list bytes) : option bytes := pack_loop values [].

(** [std::from_chars] into a [std::size_t] when every character has to be read. *)
Definition size_number (s : bytes) : option N :=
  if nonempty s && forallb is_digit s && (read_N s <? 2 ^ 64) then Some (read_N s) else None.

Definition max_values : nat := 30000.

Fixpoint unpack_loop (fuel : nat) (s : bytes) (out : list bytes) : option (list bytes) :=
  match s, fuel with
  | [], _ => Some out
  | _, O => None
  | _, S fuel' =>
      match find_if (fun c => c =c ":") s with
      | None => None
      | Some colon =>
          if (colon =? 0)%nat || (10 <? colon)%nat then None
          else
            match size_number (take colon s) with
            | None => None
            | Some n =>
                if (size s - N.of_nat colon - 1 <? n) || (max_values <=? length out)%nat then None
                else unpack_loop fuel' (drop (colon + 1 + N.to_nat n) s) (out ++ [take (N.to_nat n) (drop (colon + 1) s)])
            end
      end
  end.

Definition unpack (s : bytes) : option (list bytes) :=
  if max_message_bytes <? size s then None else unpack_loop (length s) s [].

(** ** Names and answers *)

Definition hex_digit (n : N) : ascii := if n <? 10 then byte (48 + n) else byte (87 + n).

Definition json_char (c : ascii) : bytes :=
  if (c =c dquote) || (c =c byte 92) then [byte 92; c]
  else if code c <? 32 then lit "\u00" ++ [hex_digit (N.shiftr (code c) 4); hex_digit (N.land (code c) 15)]
  else [c].

Definition json_quote (value : bytes) : bytes := [dquote] ++ mjoin (json_char <$> value) ++ [dquote].

Record Reply := { reply_ok : bool; reply_json : bytes }.

Definition failure_step (normalized : bytes) (c : ascii) : bytes :=
  if is_upper c then (if nonempty normalized then normalized ++ lit "_" else normalized) ++ [tolower c] else normalized ++ [c].

Definition failure (code : bytes) : Reply :=
  {| reply_ok := false; reply_json := lit "{" ++ json_quote (lit "error") ++ lit ":" ++ json_quote (foldl failure_step [] code) ++ lit "}" |}.

Definition name_byte (c : ascii) : bool := is_alnum c || (c =c ".") || (c =c "_") || (c =c "-").

Definition valid_name (name : bytes) : bool :=
  nonempty name && negb (80 <? size name) && negb (head_is (fun c => c =c ".") name) && negb (name =s lit "registry") && forallb name_byte name.

(** ** Frames *)

Definition frame_header (n : N) : bytes := map (fun i => byte (N.shiftr n (24 - 8 * i) mod 256)) [0; 1; 2; 3].

Definition frame (values : list bytes) : option bytes :=
  data ← pack values; Some (frame_header (size data mod 2 ^ 32) ++ data).

Definition header_size (s : bytes) : N := foldl (fun n c => N.lor (N.shiftl n 8) (code c) mod 2 ^ 32) 0 s.

Inductive Taken := Incomplete | Corrupt | Complete (values : list bytes) (buffer : bytes).

(** [size + 4u] is computed in 32 bits; the limit of messages keeps it from wrapping. *)
Definition take_frame (buffer : bytes) : Taken :=
  if size buffer <? 4 then Incomplete
  else
    let n := header_size (take 4 buffer) in
    if max_message_bytes <? n then Corrupt
    else if size buffer <? (n + 4) mod 2 ^ 32 then Incomplete
    else
      match unpack (take (N.to_nat n) (drop 4 buffer)) with
      | None => Corrupt
      | Some values => Complete values (drop (N.to_nat ((n + 4) mod 2 ^ 32)) buffer)
      end.

(** ** The socket *)

(** What one call of [recv] or [send] does: it is interrupted, it fails (or the other end is gone), or it moves
    some bytes: those received, or how many were sent. *)
Inductive Moved (A : Type) := Interrupted | Broken | Moved_some (a : A).
Arguments Interrupted {A}.
Arguments Broken {A}.
Arguments Moved_some {A} a.

Inductive Received := Waiting (buffer : bytes) | ReceiveFailed | Values (values : list bytes).

(** [receive_frame]; [Waiting] when the events are used up. *)
Fixpoint receive_loop (events : list (Moved bytes)) (buffer : bytes) : Received :=
  match take_frame buffer with
  | Complete values _ => Values values
  | Corrupt => ReceiveFailed
  | Incomplete =>
      match events with
      | [] => Waiting buffer
      | Interrupted :: events' => receive_loop events' buffer
      | Broken :: _ => ReceiveFailed
      | Moved_some s :: events' => if nonempty s then receive_loop events' (buffer ++ s) else ReceiveFailed
      end
  end.

Definition receive_frame (events : list (Moved bytes)) : Received := receive_loop events [].

Inductive Sent := Sending | SendFailed | AllSent.

(** [send_frame]; what has gone out is the second component. *)
Fixpoint send_loop (events : list (Moved nat)) (data : bytes) (sent : nat) : Sent * bytes :=
  if (length data <=? sent)%nat then (AllSent, take sent data)
  else
    match events with
    | [] => (Sending, take sent data)
    | Interrupted :: events' => send_loop events' data sent
    | Broken :: _ => (SendFailed, take sent data)
    | Moved_some n :: events' => if (n =? 0)%nat then (SendFailed, take sent data) else send_loop events' data (sent + n)
    end.

Definition send_frame (events : list (Moved nat)) (values : list bytes) : option (Sent * bytes) :=
  data ← frame values; Some (send_loop events data 0).

(** The request and the answer of [control]. *)
Definition control_request (name : bytes) (command : list bytes) : list bytes := name :: command.
Definition control_reply (response : list bytes) : option Reply :=
  match response with
  | [word; json] => Some {| reply_ok := word =s lit "ok"; reply_json := json |}
  | _ => None
  end.

Example frame_example : frame [lit "ok"; lit "{}"] = Some (map byte [0; 0; 0; 8] ++ lit "2:ok2:{}").
Proof. vm_compute. reflexivity. Qed.
Example take_frame_example : take_frame (map byte [0; 0; 0; 8] ++ lit "2:ok2:{}x") = Complete [lit "ok"; lit "{}"] (lit "x").
Proof. vm_compute. reflexivity. Qed.
Example failure_example : reply_json (failure (lit "NotFound")) = lit "{" ++ json_quote (lit "error") ++ lit ":" ++ json_quote (lit "not_found") ++ lit "}".
Proof. vm_compute. reflexivity. Qed.

(** ** Packing is undone by unpacking *)

Definition packed (values : list bytes) : bytes := mjoin (pack_one <$> values).

Lemma size_app a b : size (a ++ b) = size a + size b.
Proof. unfold size. rewrite length_app. lia. Qed.

Lemma pack_loop_spec values out : size out <= max_message_bytes ->
  pack_loop values out = if max_message_bytes <? size (out ++ packed values) then None else Some (out ++ packed values).
Proof.
  revert out. induction values as [|v values IH]; intros out Ho; cbn [pack_loop].
  - unfold packed. cbn. rewrite app_nil_r. by apply N.ltb_ge in Ho as ->.
  - unfold packed. rewrite mjoin_fmap_cons, app_assoc. fold (packed values). cbv zeta. destruct (N.ltb_spec max_message_bytes (size (out ++ pack_one v))) as [H|H].
    + rewrite size_app. destruct (N.ltb_spec max_message_bytes (size (out ++ pack_one v) + size (packed values))); [done|lia].
    + by apply IH.
Qed.

Lemma pack_spec values : pack values = if max_message_bytes <? size (packed values) then None else Some (packed values).
Proof. unfold pack. by rewrite pack_loop_spec. Qed.

Lemma pack_Some values s : pack values = Some s <-> s = packed values /\ size (packed values) <= max_message_bytes.
Proof. rewrite pack_spec. destruct (N.ltb_spec max_message_bytes (size (packed values))); split; [done|intros [_ ?]; lia|intros [= <-]; done|by intros [-> _]]. Qed.

Lemma print_loop_short fuel n k : n < 10 ^ N.of_nat (S k) -> (length (print_loop fuel n) <= S k)%nat.
Proof.
  revert n k. induction fuel as [|fuel IH]; intros n k Hn; cbn [print_loop]; [cbn; lia|]. destruct (N.ltb_spec n 10) as [H|H]; [cbn; lia|].
  rewrite length_app. cbn [length]. destruct k as [|k]; [cbn in Hn; lia|]. specialize (IH (n / 10) k). enough (n / 10 < 10 ^ N.of_nat (S k)) by (specialize (IH ltac:(done)); lia).
  apply N.Div0.div_lt_upper_bound. rewrite <- N.pow_succ_r', <- Nat2N.inj_succ. done.
Qed.

Lemma size_number_print n : n < 2 ^ 64 -> size_number (print_N n) = Some n.
Proof.
  intros Hn. destruct (print_N_spec n) as (Hd & Hr & Hne). unfold size_number. rewrite Hd, Hr. apply N.ltb_lt in Hn as ->. by destruct (print_N n).
Qed.

(** One value of the packed string: any digits that read as the length. *)
Definition length_text (d v : bytes) : Prop := d <> [] /\ forallb is_digit d = true /\ (length d <= 10)%nat /\ read_N d = size v.

Lemma unpack_one fuel d v t out : length_text d v -> size v < 2 ^ 64 -> (length out < max_values)%nat ->
  unpack_loop (S fuel) (d ++ ":"%char :: v ++ t) out = unpack_loop fuel t (out ++ [v]).
Proof.
  intros (Hne & Hd & Hlen & Hr) Hv Hout. cbn [unpack_loop]. destruct (d ++ _) as [|c s] eqn:E; [by destruct d|]. rewrite <- E. clear c s E.
  rewrite find_if_mid; [|apply (none_forallb _ is_digit); [intros c Hc; apply Ascii.eqb_neq; by intros ->|done]|done].
  assert ((length d =? 0)%nat = false) as -> by (apply Nat.eqb_neq; by destruct d).
  apply Nat.ltb_ge in Hlen as ->. cbn [orb]. rewrite take_app_length. unfold size_number. rewrite Hd, Hr. apply N.ltb_lt in Hv as ->.
  assert (nonempty d = true) as -> by (by destruct d). cbn [andb]. rewrite drop_app_S. replace (N.to_nat (size v)) with (length v) by (unfold size; lia).
  assert (size (d ++ ":"%char :: v ++ t) - N.of_nat (length d) - 1 <? size v = false) as ->.
  { apply N.ltb_ge. rewrite size_app. unfold size. cbn [length]. rewrite length_app. lia. }
  assert ((max_values <=? length out)%nat = false) as -> by (apply Nat.leb_gt; lia). cbn [orb].
  rewrite <- drop_drop, drop_app_S, drop_app_length, take_app_length. done.
Qed.

(** What [unpack] accepts: lengths in at most ten decimal digits, zeros in front included. *)
Definition item_text (item : bytes * bytes) : bytes := item.1 ++ lit ":" ++ item.2.

Definition items_ok (items : list (bytes * bytes)) : Prop := Forall (fun i => length_text i.1 i.2) items /\ (length items <= max_values)%nat.

Lemma colon_split s colon : find_if (fun c => c =c ":") s = Some colon -> exists d t, s = d ++ ":"%char :: t /\ colon = length d.
Proof.
  intros (c & E & Hlt & _ & Hc)%find_if_Some. apply Ascii.eqb_eq in Hc as ->. exists (take colon s), (drop (S colon) s). split; [done|].
  rewrite length_take. lia.
Qed.

Lemma size_number_Some d n : size_number d = Some n -> d <> [] /\ forallb is_digit d = true /\ read_N d = n.
Proof.
  unfold size_number. destruct (nonempty d && forallb is_digit d && _) eqn:E; [|done]. intros [= <-].
  apply andb_prop in E as [[Hn Hd]%andb_prop _]. split_and!; [|done|done]. by intros ->.
Qed.

Lemma unpack_items fuel : forall s out l, unpack_loop fuel s out = Some l -> (length out <= max_values)%nat ->
  exists items, Forall (fun i => length_text i.1 i.2) items /\ s = mjoin (item_text <$> items) /\ l = out ++ items.*2 /\ (length l <= max_values)%nat.
Proof.
  induction fuel as [|fuel IH]; intros s out l H Hout; (destruct s as [|c0 s0]; [cbn in H; injection H as <-; exists []; split_and!; [done|done|by rewrite app_nil_r|done]|]).
  { done. }
  cbn [unpack_loop] in H. set (s := c0 :: s0) in *. destruct (find_if _ s) as [colon|] eqn:Ef; [|done].
  apply colon_split in Ef as (d & t & -> & ->). destruct ((length d =? 0)%nat || (10 <? length d)%nat) eqn:El; [done|]. apply orb_false_elim in El as [_ El%Nat.ltb_ge].
  rewrite take_app_length in H. destruct (size_number d) as [n|] eqn:En; [|done]. rewrite <- drop_drop, drop_app_S in H. apply size_number_Some in En as (Hne & Hd & Hr).
  destruct (_ || _) eqn:Eb in H; [done|]. apply orb_false_elim in Eb as [Hn%N.ltb_ge Hm%Nat.leb_gt].
  assert (Hn' : (N.to_nat n <= length t)%nat) by (unfold size in Hn; rewrite length_app in Hn; cbn [length] in Hn; lia).
  apply IH in H as (items & Hi & Ht & -> & Hl); [|rewrite length_app; cbn [length]; lia]. exists ((d, take (N.to_nat n) t) :: items). split_and!.
  - apply List.Forall_cons; [|done]. unfold length_text. cbn [fst snd]. split_and!; [done..|]. rewrite Hr. unfold size. rewrite length_take. lia.
  - rewrite mjoin_fmap_cons, <- Ht. unfold item_text. cbn [fst snd]. rewrite <- !app_assoc. change (lit ":" ++ ?x) with (":"%char :: x). by rewrite take_drop.
  - by rewrite <- app_assoc.
  - done.
Qed.

Lemma items_unpack items : forall fuel out, Forall (fun i => length_text i.1 i.2) items -> size (mjoin (item_text <$> items)) <= max_message_bytes ->
  (length (mjoin (item_text <$> items)) <= fuel)%nat -> (length out + length items <= max_values)%nat ->
  unpack_loop fuel (mjoin (item_text <$> items)) out = Some (out ++ items.*2).
Proof.
  induction items as [|[d v] items IH]; intros fuel out Hi Hs Hf Hl; [destruct fuel; cbn; by rewrite app_nil_r|].
  apply Forall_cons in Hi as [Hd Hi]. rewrite mjoin_fmap_cons in *. unfold item_text at 1 in Hs. unfold item_text at 1 in Hf. unfold item_text at 1.
  cbn [fst snd] in *. rewrite <- !app_assoc in *. change (lit ":" ++ ?x) with (":"%char :: x) in *. unfold size in Hs. rewrite length_app in Hs, Hf. cbn [length] in Hs, Hf, Hl.
  rewrite length_app in Hs, Hf. destruct fuel as [|fuel]; [destruct Hd as [Hd _]; lia|].
  rewrite unpack_one; [|done|unfold size, max_message_bytes in *; lia|lia]. rewrite IH; [by rewrite <- app_assoc|done|unfold size; lia|lia|rewrite length_app; cbn [length]; lia].
Qed.

Lemma unpack_spec s l : unpack s = Some l <->
  size s <= max_message_bytes /\ exists items, items_ok items /\ s = mjoin (item_text <$> items) /\ l = items.*2.
Proof.
  unfold unpack. destruct (N.ltb_spec max_message_bytes (size s)) as [H|H]; [split; [done|intros [? _]; lia]|]. split.
  - intros Hu. apply unpack_items in Hu as (items & Hi & Hs & -> & Hl); [|cbn [length]; lia]. split; [done|]. exists items. split_and!; [split; [done|]|done|done].
    cbn [app] in Hl. by rewrite length_fmap in Hl.
  - intros (_ & items & [Hi Hl] & -> & ->). by apply (items_unpack items _ []).
Qed.

Lemma packed_member v values : v ∈ values -> size v <= size (packed values).
Proof.
  assert (forall w, size w <= size (pack_one w)) as Hp by (intros w; unfold pack_one; rewrite !size_app; lia).
  unfold packed. induction 1 as [v l|v w l _ IH]; rewrite mjoin_fmap_cons, size_app; specialize (Hp v); lia.
Qed.

Lemma print_length_text v : size v <= max_message_bytes -> length_text (print_N (size v)) v.
Proof.
  intros Hv. destruct (print_N_spec (size v)) as (Hd & Hr & Hne). split_and!; [done|done| |done].
  apply (print_loop_short _ _ 9). unfold max_message_bytes in Hv. change (10 ^ N.of_nat 10) with 10000000000. lia.
Qed.

Lemma unpack_pack values s : pack values = Some s -> (length values <= max_values)%nat -> unpack s = Some values.
Proof.
  intros [-> Hs]%pack_Some Hl. apply unpack_spec. split; [done|]. exists ((fun v => (print_N (size v), v)) <$> values). split_and!.
  - split; [|by rewrite length_fmap]. apply Forall_fmap, Forall_forall. intros v Hv. apply print_length_text. by rewrite packed_member.
  - unfold packed. f_equal. by rewrite <- list_fmap_compose.
  - rewrite <- list_fmap_compose. symmetry. apply list_fmap_id.
Qed.

(** ** Frames *)

Lemma header_read n : n < 2 ^ 32 -> header_size (frame_header n) = n.
Proof.
  intros Hn. unfold header_size, frame_header. cbn [map foldl]. rewrite !code_byte by (apply N.mod_lt; done). rewrite !N.shiftr_div_pow2.
  assert (forall a x, a < 2 ^ 24 -> N.lor (N.shiftl a 8) (x mod 256) mod 2 ^ 32 = a * 256 + x mod 256) as Hstep.
  { intros a x Ha. pose proof (N.mod_lt x 256 ltac:(done)). rewrite lor_shiftl by (change (2 ^ 8) with 256; lia). apply N.mod_small. change (2 ^ 8) with 256. lia. }
  change (24 - 8 * 0) with 24. change (24 - 8 * 1) with 16. change (24 - 8 * 2) with 8. change (24 - 8 * 3) with 0.
  assert (n / 2 ^ 24 mod 256 = n / 2 ^ 24) as E1 by (apply N.mod_small, N.Div0.div_lt_upper_bound; lia).
  assert (n / 2 ^ 16 = n / 2 ^ 24 * 256 + n / 2 ^ 16 mod 256) as E2.
  { change (2 ^ 24) with (2 ^ 16 * 256). rewrite <- N.Div0.div_div. pose proof (N.div_mod (n / 2 ^ 16) 256 ltac:(done)). lia. }
  assert (n / 2 ^ 8 = n / 2 ^ 16 * 256 + n / 2 ^ 8 mod 256) as E3.
  { change (2 ^ 16) with (2 ^ 8 * 256). rewrite <- N.Div0.div_div. pose proof (N.div_mod (n / 2 ^ 8) 256 ltac:(done)). lia. }
  assert (n / 2 ^ 0 = n / 2 ^ 8 * 256 + n / 2 ^ 0 mod 256) as E4.
  { change (2 ^ 8) with (2 ^ 0 * 256). rewrite <- N.Div0.div_div. pose proof (N.div_mod (n / 2 ^ 0) 256 ltac:(done)). lia. }
  assert (n / 2 ^ 8 < 2 ^ 24) by (apply N.Div0.div_lt_upper_bound; lia).
  rewrite (Hstep 0), N.mul_0_l, N.add_0_l, E1 by done.
  rewrite (Hstep (n / 2 ^ 24)), <- E2 by (apply N.Div0.div_lt_upper_bound; lia).
  rewrite (Hstep (n / 2 ^ 16)), <- E3 by (apply N.Div0.div_lt_upper_bound; lia).
  rewrite (Hstep (n / 2 ^ 8)), <- E4 by done. apply N.div_1_r.
Qed.

Lemma frame_Some values f : frame values = Some f ->
  exists data, pack values = Some data /\ f = frame_header (size data) ++ data /\ size data <= max_message_bytes.
Proof.
  unfold frame. destruct (pack values) as [data|] eqn:Ep; [|done]. cbn [mbind option_bind]. intros <-%(inj Some). exists data. split; [reflexivity|].
  apply pack_Some in Ep as [-> Hs]. split; [|done]. rewrite N.mod_small; [done|]. unfold max_message_bytes in Hs. lia.
Qed.

Lemma take_header n t : take 4 (frame_header n ++ t) = frame_header n /\ drop 4 (frame_header n ++ t) = t.
Proof. done. Qed.

Lemma take_frame_complete values f rest : frame values = Some f -> (length values <= max_values)%nat -> take_frame (f ++ rest) = Complete values rest.
Proof.
  intros (data & Hp & -> & Hd)%frame_Some Hl. unfold take_frame. rewrite <- app_assoc. destruct (take_header (size data) (data ++ rest)) as [-> ->].
  unfold max_message_bytes in Hd. rewrite header_read by lia. rewrite !(N.mod_small (size data + 4)) by lia.
  assert (size (frame_header (size data) ++ data ++ rest) = size data + 4 + size rest) as -> by (rewrite !size_app; change (size (frame_header (size data))) with 4; lia).
  destruct (N.ltb_spec (size data + 4 + size rest) 4); [lia|]. destruct (N.ltb_spec max_message_bytes (size data)); [unfold max_message_bytes in *; lia|].
  destruct (N.ltb_spec (size data + 4 + size rest) (size data + 4)); [lia|].
  replace (N.to_nat (size data)) with (length data) by (unfold size; lia). rewrite take_app_length, (unpack_pack values) by done.
  f_equal. replace (N.to_nat (size data + 4)) with (4 + length data)%nat by (unfold size; lia). rewrite <- drop_drop.
  destruct (take_header (size data) (data ++ rest)) as [_ ->]. apply drop_app_length.
Qed.

Lemma take_frame_prefix values f a b : frame values = Some f -> f = a ++ b -> b <> [] -> take_frame a = Incomplete.
Proof.
  intros (data & Hp & -> & Hd)%frame_Some E Hb. unfold take_frame. destruct (N.ltb_spec (size a) 4) as [|Ha]; [done|].
  assert (take 4 a = frame_header (size data)) as ->.
  { transitivity (take 4 (frame_header (size data) ++ data)); [|done]. rewrite E. symmetry. apply take_app_le. unfold size in Ha. lia. }
  unfold max_message_bytes in Hd. rewrite header_read by lia. rewrite N.mod_small by lia.
  destruct (N.ltb_spec max_message_bytes (size data)); [unfold max_message_bytes in *; lia|].
  apply (f_equal size) in E. rewrite !size_app in E. change (size (frame_header (size data))) with 4 in E.
  destruct (N.ltb_spec (size a) (size data + 4)); [done|]. destruct b; [done|]. unfold size in *. cbn [length] in E. lia.
Qed.

(** ** Delivery *)

(** The bytes that events of a working connection bring. *)
Definition arrived (e : Moved bytes) : bytes := match e with Moved_some s => s | _ => [] end.
Definition working (e : Moved bytes) : Prop := match e with Interrupted => True | Broken => False | Moved_some s => s <> [] end.
Definition stream (events : list (Moved bytes)) : bytes := mjoin (arrived <$> events).

Lemma receive_complete values f : frame values = Some f -> (length values <= max_values)%nat -> forall events buffer rest, Forall working events ->
  buffer ++ stream events = f ++ rest -> receive_loop events buffer = Values values.
Proof.
  intros Hf Hl events. induction events as [|e events IH]; intros buffer rest Hw E.
  - unfold stream in E. cbn in E. rewrite app_nil_r in E. subst. cbn [receive_loop]. by rewrite (take_frame_complete values).
  - apply Forall_cons in Hw as [He Hw]. destruct (decide (length f <= length buffer)%nat) as [Hle|Hlt].
    + assert (buffer = f ++ drop (length f) buffer) as ->.
      { rewrite <- (take_drop (length f) buffer) at 1. f_equal. rewrite <- (take_app_le buffer (stream (e :: events))) by done. rewrite E. apply take_app_length. }
      cbn [receive_loop]. by rewrite (take_frame_complete values).
    + assert (f = buffer ++ drop (length buffer) f) as Ef.
      { rewrite <- (take_drop (length buffer) f) at 1. f_equal. rewrite <- (take_app_le f rest) by lia. rewrite <- E. apply take_app_length. }
      cbn [receive_loop]. rewrite (take_frame_prefix values f buffer (drop (length buffer) f) Hf Ef);
        [|intros Hd; apply (f_equal length) in Hd; rewrite length_drop in Hd; cbn [length] in Hd; lia].
      change (stream (e :: events)) with (arrived e ++ stream events) in E. destruct e as [| |s]; cbn [arrived] in E; [by apply (IH _ rest)|done|].
      destruct s as [|c s]; [done|]. cbn [nonempty]. apply (IH _ rest Hw). by rewrite <- app_assoc.
Qed.

Lemma receive_waiting values f : frame values = Some f -> forall events buffer b, Forall working events ->
  f = buffer ++ stream events ++ b -> b <> [] -> receive_loop events buffer = Waiting (buffer ++ stream events).
Proof.
  intros Hf events. induction events as [|e events IH]; intros buffer b Hw E Hb.
  - cbn [receive_loop]. rewrite (take_frame_prefix values f buffer b Hf E Hb). unfold stream. cbn. by rewrite app_nil_r.
  - apply Forall_cons in Hw as [He Hw]. cbn [receive_loop]. rewrite (take_frame_prefix values f buffer _ Hf E) by (intros [_ ?]%app_nil; done).
    change (stream (e :: events)) with (arrived e ++ stream events) in *. destruct e as [| |s]; cbn [arrived] in *; [by apply (IH _ b)|done|].
    destruct s as [|c s]; [done|]. cbn [nonempty]. rewrite app_assoc. apply (IH _ b Hw); [|done]. by rewrite <- !app_assoc in *.
Qed.

Lemma send_sent events data sent : (send_loop events data sent).2 `prefix_of` data /\ ((send_loop events data sent).1 = AllSent -> (send_loop events data sent).2 = data).
Proof.
  assert (forall k, take k data `prefix_of` data) as Hp by (intros k; exists (drop k data); by rewrite take_drop).
  revert sent. induction events as [|e events IH]; intros sent; cbn [send_loop]; (destruct (Nat.leb_spec (length data) sent) as [H|H]; [split; [apply Hp|intros _; by apply take_ge]|]).
  - split; [apply Hp|done].
  - destruct e as [| |n]; [apply IH|split; [apply Hp|done]|]. destruct (n =? 0)%nat; [split; [apply Hp|done]|apply IH].
Qed.

Lemma send_complete data events sent : (forall n, Moved_some n ∈ events -> n <> 0%nat) -> Broken ∉ events ->
  (length data <= sent + foldr (fun e n => match e with Moved_some k => k + n | _ => n end)%nat 0%nat events)%nat ->
  (send_loop events data sent).1 = AllSent.
Proof.
  revert sent. induction events as [|e events IH]; intros sent Hn Hb Hl; cbn [send_loop foldr] in *; destruct (Nat.leb_spec (length data) sent) as [H|H]; try done; [lia|].
  destruct e as [| |n]; [apply IH; [|set_solver|done]; intros n Hin; apply Hn; set_solver|set_solver|].
  destruct (Nat.eqb_spec n 0) as [->|_]; [by destruct (Hn 0%nat); [set_solver|]|]. apply IH; [intros k Hin; apply Hn; set_solver|set_solver|lia].
Qed.

(** ** Properties *)

(** A message reaches the other end whole or not at all: whatever pieces the system sends and receives, with
    interruptions anywhere, the receiver returns exactly the values once the frame has gone out (even with bytes of
    a later frame behind it), and keeps waiting as long as only a part of the frame has arrived. *)
Theorem frame_delivered values sends verdict out receives : (length values <= max_values)%nat ->
  send_frame sends values = Some (verdict, out) -> Forall working receives ->
  (verdict = AllSent -> forall rest, stream receives = out ++ rest -> receive_frame receives = Values values) /\
  (stream receives `prefix_of` out -> frame values <> Some (stream receives) -> receive_frame receives = Waiting (stream receives)).
Proof.
  intros Hl Hs Hw. unfold send_frame in Hs. destruct (frame values) as [f|] eqn:Hf; [|done]. cbn [mbind option_bind] in Hs.
  apply (inj Some) in Hs. destruct (send_sent sends f 0) as [[b Hb] Hall]. rewrite Hs in Hb, Hall. cbn [fst snd] in *. split.
  - intros -> rest E. rewrite (Hall eq_refl) in *. by apply (receive_complete values f Hf Hl receives [] rest).
  - intros [c Hc] Hne. apply (receive_waiting values f Hf receives [] (c ++ b) Hw).
    + cbn [app]. by rewrite Hb, Hc, app_assoc.
    + intros [-> ->]%app_nil. rewrite app_nil_r in Hc. apply Hne. by rewrite Hb, Hc, app_nil_r.
Qed.

(** Packed lists are read back, and what [unpack] accepts is exactly a sequence of at most 30000 values, each behind
    its length in one to ten digits and a colon, within four megabytes: anything else is refused. *)
Theorem unpack_exact values s :
  (pack values = Some s -> (length values <= max_values)%nat -> unpack s = Some values) /\
  (unpack s = Some values <->
   size s <= max_message_bytes /\ exists items, items_ok items /\ s = mjoin (item_text <$> items) /\ values = items.*2).
Proof. split; [apply unpack_pack|apply unpack_spec]. Qed.

(** A name that is valid is one component of a path, other than this or the upper directory and than the registry. *)
Lemma valid_name_component name : valid_name name = true ->
  none (fun c => (c =c "/") || (c =c byte 0)) name = true /\ name <> lit "." /\ name <> lit ".." /\ name <> lit "registry" /\ name <> [] /\ size name <= 80.
Proof.
  unfold valid_name. intros [[[[Hn Hs]%andb_prop Hd]%andb_prop Hr]%andb_prop Hb]%andb_prop. apply negb_true_iff in Hs, Hr, Hd. apply N.ltb_ge in Hs.
  split_and!; [|by intros ->..|done].
  eapply none_forallb, Hb. intros c. by ascii_cases c.
Qed.

(** ** On concrete inputs *)

Definition demo_values : list bytes := [lit "demo"; lit "status"].
Definition demo_frame : bytes := frame_header 14 ++ lit "4:demo6:status".
Definition demo_receives : list (Moved bytes) := [Moved_some (take 3 demo_frame); Interrupted; Moved_some (drop 3 demo_frame)].

Lemma demo_few : (length demo_values <= max_values)%nat.
Proof. apply Nat.leb_le. vm_compute. reflexivity. Qed.

Lemma frame_delivered_witness :
  send_frame [Moved_some 10%nat; Interrupted; Moved_some 8%nat] demo_values = Some (AllSent, demo_frame) /\
  receive_frame demo_receives = Values demo_values /\ receive_frame (take 2 demo_receives) = Waiting (take 3 demo_frame).
Proof.
  assert (send_frame [Moved_some 10%nat; Interrupted; Moved_some 8%nat] demo_values = Some (AllSent, demo_frame)) as Hs by (vm_compute; reflexivity).
  assert (Forall working demo_receives) as Hw by (repeat first [apply List.Forall_nil | apply List.Forall_cons]; done).
  split; [exact Hs|]. split.
  - refine (proj1 (frame_delivered demo_values _ _ _ demo_receives _ Hs Hw) eq_refl [] _); [exact demo_few|vm_compute; reflexivity].
  - refine (proj2 (frame_delivered demo_values _ _ _ (take 2 demo_receives) _ Hs _) _ _); [exact demo_few|by apply Forall_take| |].
    + exists (drop 3 demo_frame). vm_compute. reflexivity.
    + vm_compute. discriminate.
Defined.

(** Zeros in front of a length are accepted, an empty or a long one is not. *)
Example unpack_zeros : unpack (lit "0000000002:ab") = Some [lit "ab"] /\ unpack (lit "00000000002:ab") = None /\ unpack (lit ":") = None /\ unpack (lit "3:ab") = None.
Proof. vm_compute. done. Qed.

Lemma unpack_exact_witness : unpack (lit "4:demo6:status") = Some demo_values.
Proof. refine (proj1 (unpack_exact demo_values (lit "4:demo6:status")) _ demo_few). vm_compute. reflexivity. Defined.
