(* ===== verification/SpiderCache.v ===== *)
(** * SpiderCache: the store of a spider, [plugins/spider/src/cache.cpp]

    The transactions of [Cache] over the database of LMDB, which is a map of byte strings whose cursors run in the
    order of the keys.  A transaction writes everything or nothing; whether the database can commit is the caller's
    parameter ([Spider]).  [std::runtime_error] is [None]. *)
From S2P Require Import Prelude Frame.
Local Open Scope N_scope.

Abbreviation store := (gmap bytes bytes).
Abbreviation rows := (list (bytes * bytes)).

Definition row_order (a b : bytes * bytes) : Prop := key_order a.1 b.1.

#[export] Instance row_order_dec : RelDecision row_order.
Proof. intros a b. unfold row_order. apply _. Defined.

(** The rows as a cursor meets them. *)
Definition all_rows (m : store) : rows := merge_sort row_order (map_to_list m).

(** [Cache::get]. *)
Definition get (key : bytes) (m : store) : option bytes := m !! key.

(** [Cache::write] up to the commit. *)
Definition bad_put (put : bytes * bytes) : bool := negb (nonempty put.1) || (500 <? size put.1) || (max_message_bytes <? size put.2).

Definition write (puts : rows) (deletes : list bytes) (m : store) : option store :=
  if existsb bad_put puts then None
  else Some (foldl (fun m '(key, value) => <[key := value]> m) (foldl (fun m key => delete key m) m deletes) puts).

(** [MDB_SET_RANGE]: the first key that is not less. *)
Fixpoint set_range (start : bytes) (l : rows) : rows :=
  match l with
  | [] => []
  | (key, value) :: l' => if bytes_le start key then l else set_range start l'
  end.

Definition greater (a b : bytes) : bool := negb (bytes_le a b).

(** The loop of [Cache::query]; [count] is the number of bytes. *)
Fixpoint query_loop (prefix : bytes) (limit : N) (after : bytes) (l : rows) (count : N) (out : rows) : rows :=
  match l with
  | [] => out
  | (key, value) :: l' =>
      if starts_with prefix key && (N.of_nat (length out) <? limit) then
        if negb (nonempty after) || greater key after then
          let count := count + size key + size value in
          if (1024 * 1024 <? count) && nonempty out then out else query_loop prefix limit after l' count (out ++ [(key, value)])
        else query_loop prefix limit after l' count out
      else out
  end.

Definition query (prefix : bytes) (limit : N) (after : bytes) (m : store) : option rows :=
  if 1000 <? limit then None
  else
    let start := if nonempty after then after else prefix in
    Some (query_loop prefix limit after (if nonempty start then set_range start (all_rows m) else all_rows m) 0 []).

(** [Engine::Impl::record_count] of [spider.cpp]. *)
Fixpoint count_loop (fuel : nat) (after : bytes) (count : N) (m : store) : option N :=
  match fuel with
  | O => None
  | S fuel' =>
      l ← query (lit "record/") 100 after m;
      if negb (nonempty l) then Some count
      else
        let count := count + N.of_nat (length l) in
        let after := List.last (map fst l) [] in
        if 1000 <? count then Some count else count_loop fuel' after count m
  end.

Definition record_count (m : store) : option N := count_loop (S (base.size m)) [] 0 m.

Definition demo_store : store :=
  list_to_map [(lit "state", lit "s"); (lit "record/b", lit "2"); (lit "record/a", lit "1"); (lit "page/000", lit "p"); (lit "record", lit "r")].

Example query_example :
  query (lit "record/") 100 [] demo_store = Some [(lit "record/a", lit "1"); (lit "record/b", lit "2")] /\
  query (lit "record/") 100 (lit "record/a") demo_store = Some [(lit "record/b", lit "2")] /\
  query (lit "record/") 1 [] demo_store = Some [(lit "record/a", lit "1")] /\
  query (lit "page/") 100 (lit "a") demo_store = Some [(lit "page/000", lit "p")] /\
  record_count demo_store = Some 2.
Proof. vm_compute. done. Qed.

(** ** The order of keys *)

#[export] Instance row_order_total : Total row_order.
Proof. intros a b. apply (total key_order). Qed.

#[export] Instance row_order_trans : Transitive row_order.
Proof. intros a b c. unfold row_order. apply transitivity. Qed.

Lemma bytes_le_antisym a b : bytes_le a b = true -> bytes_le b a = true -> a = b.
Proof.
  revert b. induction a as [|x a IH]; intros [|y b]; cbn [bytes_le]; try done. rewrite !orb_true_iff, !andb_true_iff, !N.ltb_lt, !eqc_true.
  intros [H1|[-> H1]] [H2|[E H2]]; try lia; [subst; lia|]. f_equal. by apply IH.
Qed.

Lemma greater_spec a b : greater a b = true <-> bytes_le b a = true /\ a <> b.
Proof.
  unfold greater. rewrite negb_true_iff. split.
  - intros H. destruct (total key_order a b) as [Ht|Ht]; unfold key_order in Ht; [congruence|]. split; [done|]. intros ->. congruence.
  - intros [H1 H2]. destruct (bytes_le a b) eqn:E; [|done]. by destruct H2; apply bytes_le_antisym.
Qed.

Lemma starts_with_le p k : starts_with p k = true -> bytes_le p k = true.
Proof.
  revert k. induction p as [|c p IH]; intros [|x k]; cbn; try done. destruct (c =c x) eqn:E; cbn; [|done]. intros H. by rewrite IH, orb_true_r.
Qed.

(** The keys with one prefix lie side by side. *)
Lemma prefix_block p k k' : bytes_le p k = true -> bytes_le k k' = true -> starts_with p k' = true -> starts_with p k = true.
Proof.
  revert k k'. induction p as [|c p IH]; intros [|x k] [|y k']; cbn [bytes_le starts_with]; try done.
  rewrite !orb_true_iff, !andb_true_iff, !N.ltb_lt, !eqc_true. intros H1 H2 [-> H3]. assert (y = x) as ->.
  { destruct H1 as [H1|[H1 _]], H2 as [H2|[H2 _]]; subst; try done; lia. }
  split; [done|]. destruct H1 as [H1|[_ H1]]; [lia|]. destruct H2 as [H2|[_ H2]]; [lia|]. by eapply IH.
Qed.

Lemma filter_none {A} (p : A -> bool) l : (forall x, List.In x l -> p x = false) -> List.filter p l = [].
Proof.
  induction l as [|x l IH]; intros H; [done|]. cbn. rewrite (H x (or_introl eq_refl)). apply IH. intros y Hy. apply H. by right.
Qed.

(** ** Cursors *)

Definition with_key (p : bytes -> bool) (l : rows) : rows := List.filter (fun row => p row.1) l.

Notation sorted := (StronglySorted row_order).

Lemma set_range_filter start l : sorted l -> set_range start l = with_key (bytes_le start) l.
Proof.
  induction 1 as [|[key value] l Hl IH Hk]; [done|]. cbn [set_range with_key List.filter fst]. destruct (bytes_le start key) eqn:E; [|done].
  f_equal. symmetry. apply forallb_filter_id, forallb_forall. intros row Hrow. rewrite List.Forall_forall in Hk. specialize (Hk row Hrow).
  unfold row_order, key_order in Hk. cbn [fst] in Hk. eapply (transitivity (R := key_order)); [exact E|exact Hk].
Qed.

(** The rows of the loop when there were no limits. *)
Fixpoint enumerated (prefix after : bytes) (l : rows) : rows :=
  match l with
  | [] => []
  | (key, value) :: l' =>
      if starts_with prefix key then
        if negb (nonempty after) || greater key after then (key, value) :: enumerated prefix after l' else enumerated prefix after l'
      else []
  end.

Lemma query_loop_spec prefix limit after l : forall count out, exists p,
  query_loop prefix limit after l count out = out ++ p /\ p `prefix_of` enumerated prefix after l /\
  (p = [] -> enumerated prefix after l = [] \/ limit <= N.of_nat (length out) \/ out <> []) /\ (N.of_nat (length out) <= limit -> N.of_nat (length (out ++ p)) <= limit).
Proof.
  induction l as [|[key value] l IH]; intros count out; cbn [query_loop enumerated].
  { exists []. rewrite app_nil_r. split_and!; [done|done|by left|done]. }
  destruct (starts_with prefix key); cbn [andb]; [|exists []; rewrite app_nil_r; split_and!; [done|done|by left|done]].
  destruct (N.ltb_spec (N.of_nat (length out)) limit) as [Hl|Hl]; [|exists []; rewrite app_nil_r; split_and!; [done|apply prefix_nil|auto|done]].
  destruct (negb (nonempty after) || greater key after); [|apply IH]. cbv zeta. destruct (_ && _) eqn:Eb.
  - exists []. rewrite app_nil_r. split_and!; [done|apply prefix_nil| |done]. intros _. right. right. apply andb_prop in Eb as [_ Eb]. by destruct out.
  - destruct (IH (count + size key + size value) (out ++ [(key, value)])) as (p & -> & Hp & _ & Hlen). exists ((key, value) :: p). rewrite <- app_assoc. split_and!; [done|by apply prefix_cons|done|].
    intros _. rewrite <- app_assoc in Hlen. apply Hlen. rewrite length_app. cbn [length]. lia.
Qed.

Lemma enumerated_filter prefix after l : sorted l -> Forall (fun row => bytes_le prefix row.1 = true) l ->
  enumerated prefix after l = with_key (fun k => starts_with prefix k && (negb (nonempty after) || greater k after)) l.
Proof.
  induction 1 as [|[key value] l Hl IH Hk]; [done|]. intros [Hp Hf]%Forall_cons. cbn [enumerated with_key List.filter fst].
  destruct (starts_with prefix key) eqn:E; cbn [andb]; [by rewrite IH|]. symmetry. apply filter_none. intros row Hrow.
  rewrite List.Forall_forall in Hk. specialize (Hk row Hrow). destruct (starts_with prefix row.1) eqn:Er; [|done]. exfalso.
  cbn [fst] in Hp. rewrite (prefix_block prefix key row.1 Hp Hk Er) in E. done.
Qed.

Lemma bytes_le_refl a : bytes_le a a = true.
Proof. by destruct (total key_order a a). Qed.

(** The rows a query is about. *)
Definition rows_after (prefix after : bytes) (m : store) : rows :=
  with_key (fun k => starts_with prefix k && (negb (nonempty after) || greater k after)) (all_rows m).

Lemma all_rows_sorted m : sorted (all_rows m).
Proof. apply StronglySorted_merge_sort; apply _. Qed.

Lemma with_key_sorted p l : sorted l -> sorted (with_key p l).
Proof.
  induction 1 as [|row l Hl IH Hk]; [constructor|]. cbn. destruct (p row.1); [|done]. constructor; [done|].
  rewrite List.Forall_forall in *. intros x [Hx _]%filter_In. by apply Hk.
Qed.

Lemma query_rows prefix limit after m : 0 < limit <= 1000 -> prefix <> [] -> after = [] \/ starts_with prefix after = true ->
  exists p, query prefix limit after m = Some p /\ p `prefix_of` rows_after prefix after m /\ (p = [] -> rows_after prefix after m = []) /\
    N.of_nat (length p) <= limit.
Proof.
  intros Hlim Hp Ha. unfold query. destruct (N.ltb_spec 1000 limit) as [H|_]; [lia|]. set (start := if nonempty after then after else prefix).
  assert (Hs : bytes_le prefix start = true).
  { unfold start. destruct Ha as [->|Ha]; [apply bytes_le_refl|]. destruct after as [|c after]; [apply bytes_le_refl|]. by apply starts_with_le. }
  assert (nonempty start = true) as -> by (unfold start; destruct after; [by destruct prefix|done]).
  rewrite set_range_filter by apply all_rows_sorted. set (l := with_key (bytes_le start) (all_rows m)).
  assert (enumerated prefix after l = rows_after prefix after m) as He.
  { rewrite enumerated_filter; [|by apply with_key_sorted, all_rows_sorted|].
    - unfold l, rows_after, with_key. rewrite filter_twice. apply List.filter_ext_in. intros row _. destruct (starts_with prefix row.1) eqn:E; cbn [andb]; [|by rewrite andb_false_r].
      unfold start. destruct after as [|c after]; cbn [nonempty negb orb]; [by rewrite (starts_with_le _ _ E)|].
      destruct (greater row.1 (c :: after)) eqn:Eg; [|by rewrite andb_false_r]. apply greater_spec in Eg as [-> _]. done.
    - apply List.Forall_forall. intros row [_ Hrow]%filter_In. eapply (transitivity (R := key_order)); [exact Hs|exact Hrow]. }
  destruct (query_loop_spec prefix limit after l 0 []) as (p & -> & Hpre & Hemp & Hlen). rewrite He in *. exists p. split_and!; [done|done| |apply Hlen; cbn [length]; lia].
  intros E. destruct (Hemp E) as [Hd|[Hd|Hd]]; [done|cbn [length] in Hd; lia|done].
Qed.

Lemma rows_nodup m : NoDup (all_rows m).*1.
Proof. unfold all_rows. rewrite merge_sort_Permutation. apply NoDup_fst_map_to_list. Qed.

Lemma with_key_nodup p l : NoDup l.*1 -> NoDup (with_key p l).*1.
Proof.
  induction l as [|row l IH]; [done|]. intros [Hn Hl]%NoDup_cons. cbn. destruct (p row.1); [|by apply IH]. cbn. apply NoDup_cons. split; [|by apply IH].
  intros (x & E & Hx)%list_elem_of_fmap. apply Hn. rewrite E. apply list_elem_of_fmap. exists x. split; [done|]. apply list_elem_of_In. apply list_elem_of_In, filter_In in Hx. tauto.
Qed.

(** Behind the last of the rows that were seen come the other ones. *)
Lemma rows_after_last prefix m seen row l : prefix <> [] -> rows_after prefix [] m = (seen ++ [row]) ++ l -> rows_after prefix row.1 m = l.
Proof.
  intros Hp E. set (R := rows_after prefix [] m) in *.
  assert (HR : sorted R) by apply with_key_sorted, all_rows_sorted. assert (HN : NoDup R.*1) by apply with_key_nodup, rows_nodup.
  assert (Hpre : forall x, x ∈ R -> starts_with prefix x.1 = true).
  { intros x Hx. apply list_elem_of_In, filter_In in Hx as [_ Hx]. by apply andb_prop in Hx as [Hx _]. }
  transitivity (with_key (fun k => greater k row.1) R).
  - unfold R, rows_after, with_key. rewrite filter_twice. apply List.filter_ext_in. intros x _. cbn [nonempty negb orb]. rewrite andb_true_r.
    assert (starts_with prefix row.1 = true) as Hr by (apply Hpre; rewrite E; set_solver). by destruct row.1; [destruct prefix|].
  - rewrite E in *. unfold with_key. rewrite List.filter_app. transitivity ([] ++ l); [|done]. f_equal.
    + apply filter_none. intros x Hx. apply not_true_iff_false. rewrite greater_spec. intros [Hle Hne]. apply Hne.
      apply list_elem_of_In, elem_of_app in Hx as [Hx|Hx%list_elem_of_singleton]; [|by rewrite Hx].
      apply bytes_le_antisym; [|done]. rewrite <- app_assoc in HR. apply StronglySorted_app_1_elem_of with (x1 := x) (x2 := row) in HR; [exact HR|done|set_solver].
    + apply forallb_filter_id, forallb_forall. intros x Hx. apply greater_spec. split.
      * apply StronglySorted_app_1_elem_of with (x1 := row) (x2 := x) in HR; [exact HR|set_solver|by apply list_elem_of_In].
      * rewrite fmap_app in HN. apply NoDup_app in HN as (_ & HN & _). intros Ex. apply (HN row.1); [rewrite fmap_app; set_solver|].
        rewrite <- Ex. apply list_elem_of_fmap. exists x. split; [done|by apply list_elem_of_In].
Qed.

Definition records (m : store) : rows := rows_after (lit "record/") [] m.

Lemma query_page prefix limit m seen l : 0 < limit <= 1000 -> prefix <> [] -> rows_after prefix [] m = seen ++ l ->
  exists p, query prefix limit (List.last (map fst seen) []) m = Some p /\ p `prefix_of` l /\ (p = [] -> l = []) /\ N.of_nat (length p) <= limit.
Proof.
  intros Hlim Hp E.
  assert (rows_after prefix (List.last (map fst seen) []) m = l) as Hl.
  { destruct seen as [|row seen _] using rev_ind; [by cbn|]. rewrite map_app; cbn [map]; rewrite last_last. by apply (rows_after_last _ _ seen). }
  destruct (query_rows prefix limit (List.last (map fst seen) []) m Hlim Hp) as (p & Hq & Hpre & He & Hlen); [|rewrite Hl in *; by exists p].
  destruct seen as [|row seen _] using rev_ind; [by left|]. right. rewrite map_app; cbn [map]; rewrite last_last.
  assert (row ∈ rows_after prefix [] m) as Hr by (rewrite E; set_solver). apply list_elem_of_In, filter_In in Hr as [_ Hr]. by apply andb_prop in Hr as [Hr _].
Qed.

Lemma last_app_ne {A} (a b : list A) d : b <> [] -> List.last (a ++ b) d = List.last b d.
Proof. destruct b as [|x b _] using rev_ind; [done|]. intros _. by rewrite app_assoc, !last_last. Qed.

Lemma count_loop_spec fuel m seen l : (length l < fuel)%nat -> records m = seen ++ l ->
  exists n, count_loop fuel (List.last (map fst seen) []) (N.of_nat (length seen)) m = Some n /\ (n = N.of_nat (length (records m)) \/ (1000 < n <= N.of_nat (length (records m)))).
Proof.
  revert seen l. induction fuel as [|fuel IH]; intros seen l Hf E; [lia|]. cbn [count_loop].
  destruct (query_page (lit "record/") 100 m seen l) as (p & -> & [l' ->] & He & _); [lia|done|done|]. cbn [mbind option_bind]. destruct p as [|row p].
  - cbn [nonempty negb]. rewrite (He eq_refl), app_nil_r in E. exists (N.of_nat (length seen)). rewrite E. auto.
  - cbn [nonempty negb]. cbv zeta. rewrite app_assoc in E. rewrite <- Nat2N.inj_add, <- length_app.
    destruct (N.ltb_spec 1000 (N.of_nat (length (seen ++ row :: p)))) as [H|H].
    + eexists. split; [done|]. right. rewrite E, (length_app (seen ++ row :: p)). lia.
    + rewrite <- (last_app_ne (map fst seen)), <- map_app by done. apply (IH _ l'); [|done]. rewrite length_app in Hf. cbn [length] in Hf. lia.
Qed.

(** ** Properties *)

(** A query is a page of what it asks for, and the pages cover it: with a limit of 1 to 1000 the rows are the first ones
    whose keys have the prefix and lie behind [after], in the order of keys, at least one when there is any; and the
    query behind the last row of what has been seen goes on with the next one, so no row is skipped or met twice. *)
Theorem query_pages prefix limit m seen l : 0 < limit <= 1000 -> prefix <> [] -> rows_after prefix [] m = seen ++ l ->
  exists p, query prefix limit (List.last (map fst seen) []) m = Some p /\ p `prefix_of` l /\ (p = [] -> l = []) /\ N.of_nat (length p) <= limit.
Proof. apply query_page. Qed.

(** The number of records is counted exactly up to a thousand, and never above what there is. *)
Lemma record_count_spec m : exists n, record_count m = Some n /\
  (n = N.of_nat (length (records m)) \/ (1000 < n <= N.of_nat (length (records m)))).
Proof.
  apply (count_loop_spec _ m [] (records m)); [|done]. unfold records, rows_after, with_key. eapply Nat.le_lt_trans; [apply filter_length_le|].
  unfold all_rows. rewrite merge_sort_Permutation, length_map_to_list. unfold base.size, map_size. lia.
Qed.

Lemma query_pages_witness : exists p, query (lit "record/") 1 (lit "record/a") demo_store = Some p /\ p `prefix_of` [(lit "record/b", lit "2")] /\ (p = [] -> [(lit "record/b", lit "2")] = []) /\ N.of_nat (length p) <= 1.
Proof. refine (query_pages (lit "record/") 1 demo_store [(lit "record/a", lit "1")] [(lit "record/b", lit "2")] _ _ _); [lia|done|vm_compute; reflexivity]. Defined.
