(* ===== verification/PageCopy.v ===== *)
(** * PageCopy: what a spider keeps of a page, the first part of [plugins/spider/src/spider.cpp]

    The copy of a document without what may be secret ([sanitized_html]), the record of a page, and the key it is
    stored under.  The copy is made with the parser, the tree and the selectors of the other files. *)
From S2P Require Import Prelude Redaction Frame Html HtmlTree Dom Selector SelectorMatch Document.

Definition contains (needle s : bytes) : bool := if find_sub needle s then true else false.

Definition sensitive (key : bytes) : bool :=
  let name := to_lower key in
  is_sensitive_query_parameter defaults name || is_sensitive_header defaults name || contains (lit "password") name ||
  contains (lit "token") name || contains (lit "secret") name || contains (lit "cookie") name.

Definition emptied_tag (tag : bytes) : bool := one_of tag ["script"; "style"; "textarea"]%string.
Definition link_attribute (name : bytes) : bool := one_of name ["href"; "src"; "action"]%string.
Definition dropped_attribute (name : bytes) : bool := sensitive name || (name =s lit "value") || starts_with (lit "on") name.

(** One attribute of [element->attributes()], which is a copy of the list. *)
Definition sanitize_attribute (i : nat) (d : dom) (a : Attribute) : dom :=
  if dropped_attribute (attr_name a) then (remove_attribute i (attr_name a) d).2
  else if link_attribute (attr_name a) then set_attribute i (attr_name a) (redact_url defaults (attr_value a)) d
  else d.

Definition attributes_of (d : dom) (i : nat) : list Attribute := from_option n_attributes [] (nodes d !! i).

Definition sanitize_element (d : dom) (i : nat) : dom :=
  let d := if emptied_tag (name_of d i) then set_text i [] d else d in
  foldl (sanitize_attribute i) d (attributes_of d i).

(** The copy, before it is written out. *)
Definition sanitized_copy (doc : Document) : result Document :=
  copy ← parse_html (doc_html doc) [] [];
  elements ← doc_query_all copy (lit "*");
  Ret {| doc_dom := foldl sanitize_element (doc_dom copy) elements; root_ := root_ copy; url_ := url_ copy; base_url_ := base_url_ copy |}.

Definition sanitized_html (doc : Document) : result bytes := doc_html <$> sanitized_copy doc.

(** [std::runtime_error] of [unpack] is [None], an [Error] is [Throw]. *)
Definition page_json (value : bytes) : option (result bytes) :=
  fields ← unpack value;
  Some match fields with
       | [url; title; status; html; fetched_at] =>
           let key n := lit "," ++ json_quote n ++ lit ":" in
           Ret (lit "{" ++ json_quote (lit "url") ++ lit ":" ++ json_quote url ++ key (lit "title") ++ json_quote title ++ key (lit "status") ++ status ++
                key (lit "html") ++ json_quote html ++ key (lit "fetched_at") ++ fetched_at ++
                key (lit "content_omitted") ++ (if nonempty html then lit "false" else lit "true") ++ lit "}")
       | _ => Throw StorageError
       end.

Definition page_key (number : N) : bytes :=
  let digits := print_N (number mod 256) in lit "page/" ++ repeat "0"%char (3 - length digits) ++ digits.

Example sanitize_example :
  (doc ← parse_html (lit "<p onclick=x id=i>a<input name=n value=secret data-Token=t><a href='http://u:p@h/?token=1#f'>l</a><script>s</script>") [] [];
   sanitized_html doc) =
  (doc ← parse_html (lit "<p id=i>a<input name=n><a href='http://h/?token=[REDACTED]'>l</a><script></script>") [] []; Ret (doc_html doc)).
Proof. vm_compute. reflexivity. Qed.

Example page_key_example : page_key 7 = lit "page/007" /\ page_key 263 = lit "page/007" /\ page_key 255 = lit "page/255".
Proof. vm_compute. done. Qed.

(** ** A parsed element has every attribute once *)

Definition distinct (l : list Attribute) : Prop := NoDup (attr_name <$> l).

Lemma keep_attribute_distinct closing l a : distinct l -> distinct (keep_attribute closing l a).
Proof.
  unfold distinct, keep_attribute. intros Hl. destruct a as [a|]; [|done]. destruct (_ && _) eqn:E; [|done]. apply andb_prop in E as [_ E%negb_true_iff].
  rewrite fmap_app. apply NoDup_app. split_and!; [done| |apply NoDup_singleton]. intros n Hn ->%list_elem_of_singleton.
  apply list_elem_of_fmap in Hn as (b & Hb & Hin%list_elem_of_In). rewrite <- not_true_iff_false, existsb_exists in E. apply E. exists b. split; [done|]. by apply eqb_bytes_true.
Qed.

Lemma attr_loop_distinct fuel closing l s : distinct l -> distinct (attr_loop fuel closing l s).1.
Proof.
  revert l s. induction fuel as [|fuel IH]; intros l [|c s] Hl; cbn [attr_loop]; [done..|]. destruct (c =c ">"); [done|].
  destruct (attr_step (c :: s)) as [a rest]. by apply IH, keep_attribute_distinct.
Qed.

Lemma next_distinct tk : distinct (attributes (next tk).1).
Proof.
  assert (distinct []) as H0 by constructor.
  assert (forall s, distinct (attributes (next_markup s).1)) as Hm.
  { intros [|c s]; cbn [next_markup]; [done|]. destruct (negb _); [done|]. destruct (starts_with _ _); [by destruct (cut_text _ _)|].
    destruct (_ || _); [by destruct (cut_text _ _)|]. cbv zeta. destruct (if starts_with (lit "/") s then _ else _) as [|a t]; [done|].
    destruct (is_alpha a); [|done]. unfold next_tag. cbv zeta. destruct (attr_loop _ _ _ _) as [l r] eqn:E. cbn [fst attributes].
    change l with (l, r).1. rewrite <- E. by apply attr_loop_distinct. }
  unfold next. destruct (tk_rest tk) as [|c s]; [done|]. destruct (text_element_ tk); [apply Hm|].
  cbv zeta. destruct (if is_rcdata_element _ then _ else _); [|done]. destruct (drop _ _); [done|apply Hm].
Qed.

Inductive distinct_tree : Node -> Prop :=
  | distinct_node ty n l t cs : distinct l -> Forall distinct_tree cs -> distinct_tree (mkNode ty n l t cs).

Definition distinct_frame (f : frame) : Prop := distinct (f_attributes f) /\ Forall distinct_tree (f_children f).

Lemma push_child_distinct n stack : distinct_tree n -> Forall distinct_frame stack -> Forall distinct_frame (push_child n stack).
Proof.
  intros Hn. destruct stack as [|f stack]; [done|]. intros [[H1 H2] Hs]%Forall_cons. cbn [push_child]. apply Forall_cons. split; [|done].
  split; [done|]. cbn [f_children]. apply Forall_app. split; [done|]. by apply Forall_singleton.
Qed.

Lemma close_frames_distinct m stack : Forall distinct_frame stack -> Forall distinct_frame (close_frames m stack).
Proof.
  revert stack. induction m as [|m IH]; intros [|f [|g stack]] Hs; cbn [close_frames]; try done. apply Forall_cons in Hs as [[H1 H2] Hs].
  apply IH, push_child_distinct; [by constructor|done].
Qed.

Lemma close_scoped_distinct ta ba stack : Forall distinct_frame stack -> Forall distinct_frame (close_scoped ta ba stack).
Proof. unfold close_scoped. destruct (scoped_depth _ _ _); [apply close_frames_distinct|done]. Qed.

Lemma close_for_start_distinct stack n : Forall distinct_frame stack -> Forall distinct_frame (close_for_start stack n).
Proof.
  unfold close_for_start. generalize close_rules as l. intros l. revert stack. induction l as [|[[st ta] ba] l IH]; intros stack Hs; simpl; [done|].
  destruct (one_of n st); [|by apply IH]. by apply IH, close_scoped_distinct.
Qed.

Lemma node_token_distinct token stack tk : distinct (attributes token) -> Forall distinct_frame stack -> Forall distinct_frame (node_token token stack tk).1.
Proof.
  assert (distinct []) as H0 by constructor. intros Ha Hs. unfold node_token.
  destruct (kind token); cbn [fst]; try (apply push_child_distinct; [by constructor|done]).
  destruct (is_void_element _); cbn [fst]; [apply push_child_distinct; [by constructor|done]|]. apply Forall_cons. split; [|done]. by split.
Qed.

Lemma parse_loop_distinct fuel : forall stack count tk stack', Forall distinct_frame stack -> parse_loop fuel stack count tk = Ret stack' -> Forall distinct_frame stack'.
Proof.
  induction fuel as [|fuel IH]; intros stack count tk stack' Hs; cbn [parse_loop]; [done|]. pose proof (next_distinct tk) as Ha. destruct (next tk) as [token tk']. cbn [fst] in Ha.
  assert (forall st, Forall distinct_frame st -> (if (max_nodes <? count + 1)%N || (max_depth <? length st) then Throw ResourceLimit
      else let '(stack2, tk2) := node_token token st tk' in parse_loop fuel stack2 (count + 1)%N tk2) = Ret stack' -> Forall distinct_frame stack') as Hstep.
  { intros st Hst. destruct (_ || _); [done|]. pose proof (node_token_distinct token st tk' Ha Hst) as Hn. destruct (node_token _ _ _) as [s2 tk2]. cbn [fst] in Hn. by apply IH. }
  destruct (kind token); try (by apply Hstep); [by intros [= <-]|by apply Hstep, close_for_start_distinct|].
  apply IH. unfold close_end_tag. destruct (end_tag_depth _ _); [by apply close_frames_distinct|done].
Qed.

Lemma parse_tree_distinct html t : parse_html_tree html = Ret t -> distinct_tree t.
Proof.
  unfold parse_html_tree. destruct (_ <? _)%N; [done|]. destruct (parse_loop _ _ _ _) as [stack|e] eqn:E; [|done]. cbn [mbind result_bind]. intros [= <-].
  assert (distinct_frame document_frame) as Hd by (split; constructor).
  apply parse_loop_distinct in E; [|by apply Forall_singleton]. unfold root_node. apply (close_frames_distinct (length stack)) in E.
  destruct (close_frames _ _) as [|f l]; [by constructor; [constructor|constructor]|]. apply Forall_cons in E as [[H1 H2] _]. by constructor.
Qed.

(** Storing a tree keeps its lists of attributes. *)
Definition distinct_store (d : dom) : Prop := map_Forall (fun _ n => distinct (n_attributes n)) (nodes d).

Lemma update_distinct i f d : (forall n, n_attributes (f n) = n_attributes n) -> distinct_store d -> distinct_store (update i f d).
Proof.
  intros Hf Hd j n. unfold update, with_nodes. cbn [nodes]. destruct (decide (i = j)) as [->|Hne]; [|rewrite lookup_alter_ne by done; apply Hd].
  rewrite lookup_alter_eq. intros (m & Hm & ->)%fmap_Some. rewrite Hf. by apply (Hd j).
Qed.

Lemma hang_distinct p n d : distinct (n_attributes n) -> distinct_store d -> distinct_store (hang p n d).
Proof.
  intros Hn Hd. unfold hang, make_node. apply update_distinct; [done|]. apply update_distinct; [done|]. intros j m. cbn [nodes].
  destruct (decide (j = next_id d)) as [->|Hne]; [by rewrite lookup_insert_eq; intros [= <-]|rewrite lookup_insert_ne by done; apply Hd].
Qed.

Lemma load_list_distinct l : Forall (fun n => forall p d, distinct_store d -> distinct_store (load p n d)) l ->
  forall p d, distinct_store d -> distinct_store (load_list p l d).
Proof. induction 1 as [|n l Hn _ IH]; intros p d Hd; [done|]. apply IH. by apply Hn. Qed.

Lemma load_distinct n : distinct_tree n -> forall p d, distinct_store d -> distinct_store (load p n d).
Proof.
  induction n as [ty nm l tx cs IH] using Node_rect'. intros Hn p d Hd. inversion Hn as [? ? ? ? ? Hl Hcs]; subst. rewrite load_eq. cbn [children].
  apply load_list_distinct; [|by apply hang_distinct]. rewrite Forall_forall in *. intros c Hc. by apply IH, Hcs.
Qed.

Lemma parse_html_distinct html url base doc : parse_html html url base = Ret doc -> distinct_store (doc_dom doc).
Proof.
  unfold parse_html. destruct (parse_html_tree html) as [t|e] eqn:E; [|done]. cbn [mbind result_bind]. intros [= <-]. cbn [doc_dom].
  apply parse_tree_distinct in E. inversion E as [? ? ? ? ? Hl Hcs]; subst. unfold load_document. cbn [children]. apply load_list_distinct.
  - rewrite Forall_forall in *. intros c Hc. by apply load_distinct, Hcs.
  - intros j m. cbn [nodes]. intros [_ <-]%lookup_singleton_Some. exact Hl.
Qed.

(** ** What happens to the attributes of one element *)

Definition sanitize_list (l : list Attribute) (a : Attribute) : list Attribute :=
  if dropped_attribute (attr_name a) then drop_attribute (attr_name a) l
  else if link_attribute (attr_name a) then put_attribute (attr_name a) (redact_url defaults (attr_value a)) l
  else l.

(** What is kept of an attribute. *)
Definition kept (a : Attribute) : option Attribute :=
  if dropped_attribute (attr_name a) then None
  else Some (if link_attribute (attr_name a) then {| attr_name := attr_name a; attr_value := redact_url defaults (attr_value a) |} else a).

Lemma drop_attribute_absent name l : name ∉ (attr_name <$> l) -> drop_attribute name l = l.
Proof.
  intros H. apply forallb_filter_id, forallb_forall. intros a Ha%list_elem_of_In. apply negb_true_iff, not_true_iff_false. intros <-%eqb_bytes_true.
  apply H. apply list_elem_of_fmap. by exists a.
Qed.

Lemma put_attribute_at c a l v : attr_name a ∉ (attr_name <$> c) ->
  put_attribute (attr_name a) v (c ++ a :: l) = c ++ {| attr_name := attr_name a; attr_value := v |} :: l.
Proof.
  induction c as [|b c IH]; cbn [app put_attribute].
  - intros _. by rewrite eqb_bytes_refl.
  - intros H. destruct (attr_name b =s attr_name a) eqn:E; [|rewrite IH; [done|set_solver]]. apply eqb_bytes_true in E. rewrite <- E in H. set_solver.
Qed.

Lemma sanitize_list_step c a l : distinct (c ++ a :: l) -> sanitize_list (c ++ a :: l) a = c ++ option_list (kept a) ++ l.
Proof.
  unfold distinct. rewrite fmap_app. intros (_ & Hd & Hl)%NoDup_app. apply NoDup_cons in Hl as [Ha Hl].
  assert (attr_name a ∉ (attr_name <$> c)) as Hc by (intros H; apply (Hd _ H); set_solver).
  unfold sanitize_list, kept. destruct (dropped_attribute (attr_name a)).
  - unfold drop_attribute. rewrite List.filter_app. cbn [List.filter]. rewrite eqb_bytes_refl. cbn [negb].
    change (drop_attribute (attr_name a) c ++ drop_attribute (attr_name a) l = c ++ l). by rewrite !drop_attribute_absent.
  - destruct (link_attribute (attr_name a)); [by rewrite put_attribute_at|done].
Qed.

Lemma kept_name a b : kept a = Some b -> attr_name b = attr_name a.
Proof. unfold kept. destruct (dropped_attribute _); [done|]. intros [= <-]. by destruct (link_attribute _). Qed.

Lemma sanitize_list_loop l : forall c, distinct (c ++ l) -> foldl sanitize_list (c ++ l) l = c ++ omap kept l.
Proof.
  induction l as [|a l IH]; intros c Hd; [done|]. cbn [foldl]. rewrite sanitize_list_step, app_assoc by done. rewrite IH.
  - rewrite <- app_assoc. f_equal. cbn [omap list_omap]. by destruct (kept a).
  - unfold distinct in *. rewrite <- app_assoc. rewrite !fmap_app in *. apply NoDup_app in Hd as (H1 & H2 & H3%NoDup_cons). destruct H3 as [H3 H4].
    apply NoDup_app. split_and!; [done| |].
    + intros x Hx [Hy|Hy]%elem_of_app; [|apply (H2 x Hx); set_solver]. destruct (kept a) as [b|] eqn:Eb; [|by apply elem_of_nil in Hy].
      apply list_elem_of_singleton in Hy as ->. apply (H2 _ Hx). rewrite (kept_name a b Eb). set_solver.
    + destruct (kept a) as [b|] eqn:Eb; [|done]. cbn. apply NoDup_cons. rewrite (kept_name a b Eb). done.
Qed.

(** The names that stay: none of the redactor's lists, without a word for a secret, no value of a control, no handler. *)
Record unsuspicious (name : bytes) : Prop := {
  not_listed : to_lower name ∉ header_names defaults ++ query_parameter_names defaults;
  no_word : forall w, w ∈ map lit ["password"; "token"; "secret"; "cookie"]%string -> ~ exists a b, to_lower name = a ++ w ++ b;
  not_value : name <> lit "value";
  not_handler : ~ exists r, name = lit "on" ++ r }.

Lemma contains_spec w s : contains w s = true <-> exists a b, s = a ++ w ++ b.
Proof.
  unfold contains. split.
  - destruct (find_sub w s) as [n|] eqn:E; [|done]. intros _. apply find_sub_Some in E as [E _]. eauto.
  - intros (a & b & ->). destruct (find_sub_at w (a ++ w ++ b) (length a)) as (m & -> & _); [|done].
    rewrite drop_app_length. apply starts_with_app.
Qed.

Lemma contains_false w s : contains w s = false <-> ~ exists a b, s = a ++ w ++ b.
Proof. by rewrite <- contains_spec, not_true_iff_false. Qed.

Lemma listed_spec l name : Forall (fun x => to_lower x = x) l -> contains_case_insensitive l name = false <-> to_lower name ∉ l.
Proof.
  intros Hl. unfold contains_case_insensitive. rewrite <- not_true_iff_false, existsb_exists. apply not_iff_compat. split.
  - intros (x & Hx%list_elem_of_In & E%eqb_bytes_true). rewrite Forall_forall in Hl. rewrite (Hl x Hx) in E. by rewrite <- E.
  - intros H. exists (to_lower name). rewrite <- list_elem_of_In. split; [done|]. rewrite to_lower_idemp. apply eqb_bytes_refl.
Qed.

Lemma handler_spec name : starts_with (lit "on") name = false <-> ~ exists r, name = lit "on" ++ r.
Proof.
  rewrite <- not_true_iff_false. apply not_iff_compat. split; [intros ->%starts_with_spec; eauto|]. intros [r ->]. apply starts_with_app.
Qed.

Lemma dropped_spec name : dropped_attribute name = false <-> unsuspicious name.
Proof.
  unfold dropped_attribute, sensitive, is_sensitive_query_parameter, is_sensitive_header. cbv zeta.
  rewrite !orb_false_iff, !listed_spec, !contains_false, to_lower_idemp, eqb_bytes_false, handler_spec by (vm_compute; repeat constructor).
  split.
  - intros [[(((((H1 & H2) & H3) & H4) & H5) & H6) H7] H8]. split; [|  |done|done].
    + rewrite elem_of_app. tauto.
    + intros w. cbn [map]. rewrite !elem_of_cons. intros [->|[->|[->|[->|[]%elem_of_nil]]]]; done.
  - intros [K1 K2 K3 K4]. rewrite elem_of_app in K1. split_and!; try tauto; apply K2; cbn [map]; set_solver.
Qed.

(** What becomes of an attribute that stays. *)
Definition copied (a b : Attribute) : Prop :=
  attr_name b = attr_name a /\
  attr_value b = if decide (attr_name a ∈ [lit "href"; lit "src"; lit "action"]) then redact_url defaults (attr_value a) else attr_value a.

Lemma kept_copied a : (unsuspicious (attr_name a) /\ exists b, kept a = Some b /\ copied a b) \/ (~ unsuspicious (attr_name a) /\ kept a = None).
Proof.
  rewrite <- dropped_spec. unfold kept. destruct (dropped_attribute (attr_name a)); [by right|left]. split; [done|]. eexists. split; [done|].
  unfold copied. destruct (decide _) as [H|H]; destruct (link_attribute (attr_name a)) eqn:E; try done; exfalso.
  - unfold link_attribute, one_of in E. cbn [existsb] in E. rewrite !orb_false_iff, !eqb_bytes_false in E. set_solver.
  - unfold link_attribute, one_of in E. cbn [existsb] in E. rewrite !orb_true_iff, !eqb_bytes_true in E. destruct E as [E|[E|[E|E]]]; [set_solver..|done].
Qed.

(** The attributes of an element in the copy: those whose name is not suspicious, in their order. *)
Definition copied_attributes (before after : list Attribute) : Prop :=
  exists l, sublist l before /\ (forall a, a ∈ l <-> a ∈ before /\ unsuspicious (attr_name a)) /\ Forall2 copied l after.

Lemma omap_kept l : copied_attributes l (omap kept l).
Proof.
  induction l as [|a l (k & H1 & H2 & H3)]; [exists []; split_and!; [done| |constructor]; intros a; rewrite elem_of_nil; tauto|]. cbn [omap list_omap].
  destruct (kept_copied a) as [(Hu & b & -> & Hb)|[Hu ->]].
  - exists (a :: k). split_and!; [by constructor| |by constructor]. intros x. rewrite !elem_of_cons, H2. naive_solver.
  - exists k. split_and!; [by constructor| |done]. intros x. rewrite elem_of_cons, H2. naive_solver.
Qed.

(** ** The store *)

Lemma find_attribute_absent name l : find_attribute name l = None -> name ∉ (attr_name <$> l).
Proof.
  induction l as [|a l IH]; cbn; [set_solver|]. destruct (attr_name a =s name) eqn:E; [done|]. intros H [->|Hin]%elem_of_cons; [by rewrite eqb_bytes_refl in E|by apply IH].
Qed.

Lemma set_attributes_id f n : f (n_attributes n) = n_attributes n -> set_attributes f n = n.
Proof. destruct n. unfold set_attributes. cbn. by intros ->. Qed.

Lemma alter_same {A} (f : A -> A) i (m : gmap nat A) : (forall x, m !! i = Some x -> f x = x) -> alter f i m = m.
Proof.
  intros H. apply map_eq. intros j. destruct (decide (i = j)) as [->|Hne]; [|by rewrite lookup_alter_ne]. rewrite lookup_alter_eq.
  destruct (m !! j) as [x|] eqn:E; [|done]. cbn. by rewrite H.
Qed.

Lemma alter_twice {A} (f g : A -> A) i (m : gmap nat A) : alter g i (alter f i m) = alter (fun x => g (f x)) i m.
Proof.
  apply map_eq. intros j. destruct (decide (i = j)) as [->|Hne]; [|by rewrite !lookup_alter_ne]. rewrite !lookup_alter_eq. by destruct (m !! j).
Qed.

Lemma sanitize_attribute_nodes i d a :
  nodes (sanitize_attribute i d a) = alter (set_attributes (fun l => sanitize_list l a)) i (nodes d) /\ next_id (sanitize_attribute i d a) = next_id d.
Proof.
  unfold sanitize_attribute, sanitize_list. destruct (dropped_attribute (attr_name a)).
  - unfold remove_attribute. destruct (attribute d i (attr_name a)) eqn:E; cbn [snd]; rewrite ?nodes_report, ?next_id_report; [done|]. split; [|done].
    symmetry. apply alter_same. intros n Hn. apply set_attributes_id, drop_attribute_absent, find_attribute_absent. unfold attribute in E. by rewrite Hn in E.
  - destruct (link_attribute (attr_name a)).
    + unfold set_attribute. by rewrite nodes_report, next_id_report.
    + split; [|done]. symmetry. apply alter_same. intros n _. by apply set_attributes_id.
Qed.

Lemma sanitize_attributes_nodes i l d :
  nodes (foldl (sanitize_attribute i) d l) = alter (set_attributes (fun k => foldl sanitize_list k l)) i (nodes d) /\ next_id (foldl (sanitize_attribute i) d l) = next_id d.
Proof.
  revert d. induction l as [|a l IH]; intros d; cbn [foldl].
  - split; [|done]. symmetry. apply alter_same. intros n _. by apply set_attributes_id.
  - destruct (IH (sanitize_attribute i d a)) as [-> ->]. destruct (sanitize_attribute_nodes i d a) as [-> ->]. split; [|done]. by rewrite alter_twice.
Qed.

Lemma attributes_change_links i f d d' : nodes d' = alter (set_attributes f) i (nodes d) -> next_id d' = next_id d ->
  (forall j, parent_of d' j = parent_of d j) /\ (forall j, children_of d' j = children_of d j) /\ (dom_wf d -> dom_wf d').
Proof.
  intros Hn Hi. destruct (update_attributes_links i f d) as (P1 & P2 & _).
  assert (Hp : forall j, parent_of d' j = parent_of d j) by (intros j; rewrite <- P1; unfold parent_of; by rewrite Hn).
  assert (Hc : forall j, children_of d' j = children_of d j) by (intros j; rewrite <- P2; unfold children_of; by rewrite Hn).
  split_and!; [done..|]. intros Hd. constructor.
  - intros j. rewrite Hi, Hn. change (alter (set_attributes f) i (nodes d)) with (nodes (update i (set_attributes f) d)). rewrite is_Some_update. apply Hd.
  - eapply forest_proper; [exact Hp|exact Hc|apply Hd].
Qed.

Section Cleaning.
Context (d0 : dom) (Hwf0 : dom_wf d0) (Hdistinct : distinct_store d0).

Definition emptied (d : dom) (i : nat) : Prop :=
  exists t n, children_of d i = [t] /\ nodes d !! t = Some n /\ n_type n = Text /\ n_text n = [] /\ next_id d0 <= t.

(** A node of the copy, when those of [l] have been treated. *)
Definition treated (l : list nat) (d : dom) (j : nat) (n : dnode) : Prop :=
  exists m, nodes d0 !! j = Some m /\ n_type n = n_type m /\ n_name n = n_name m /\
    n_attributes n = if decide (j ∈ l) then omap kept (n_attributes m) else n_attributes m.

Record cleaning (l : list nat) (d : dom) : Prop := {
  cl_wf : dom_wf d;
  cl_next : next_id d0 <= next_id d;
  cl_stored : forall j, is_Some (nodes d0 !! j) -> is_Some (nodes d !! j);
  cl_nodes : forall j n, nodes d !! j = Some n -> (next_id d0 <= j /\ n_type n = Text) \/ treated l d j n;
  cl_parent : forall j p, parent_of d j = Some p -> p < next_id d0 /\ (j < next_id d0 -> parent_of d0 j = Some p);
  cl_empty : forall i, i ∈ l -> emptied_tag (name_of d0 i) = true -> emptied d i }.

Lemma cleaning_start : cleaning [] d0.
Proof using Hwf0.
  constructor; [done|done|done| | |by intros i Hi%elem_of_nil].
  - intros j n Hn. right. exists n. done.
  - intros j p Hp. split; [|done]. apply (parent_in_store d0 Hwf0) in Hp as [_ Hp]. by apply (wf_bound d0 Hwf0).
Qed.

Lemma payload_inv (n m : dnode) : payload n = payload m -> n_type n = n_type m /\ n_name n = n_name m /\ n_attributes n = n_attributes m /\ n_text n = n_text m.
Proof. unfold payload. by intros [= -> -> -> ->]. Qed.

Lemma payload_lookup d d' j n : same_payload d' d j -> nodes d' !! j = Some n ->
  exists m, nodes d !! j = Some m /\ n_type n = n_type m /\ n_name n = n_name m /\ n_attributes n = n_attributes m /\ n_text n = n_text m.
Proof.
  unfold same_payload. intros E Hn. rewrite Hn in E. destruct (nodes d !! j) as [m|]; [|done]. exists m. split; [done|]. apply payload_inv.
  by apply (inj Some) in E.
Qed.

Lemma cleaning_set_text l d i : cleaning l d -> i ∉ l -> is_Some (nodes d0 !! i) -> cleaning l (set_text i [] d) /\ emptied (set_text i [] d) i.
Proof using Hwf0.
  intros [H1 H2 H3 H4 H5 H6] Hl Hi0. destruct (set_text_spec d i [] H1 (H3 i Hi0)) as (A1 & A2 & A3 & A4 & A5 & A6).
  set (d' := set_text i [] d) in *. destruct (nodes d' !! next_id d) as [t|] eqn:Et; [|by cbn in A3]. cbn [fmap option_fmap option_map] in A3. injection A3 as T1 T2 T3 T4 T5.
  assert (forall j n, j <> next_id d -> nodes d !! j = Some n -> exists n', nodes d' !! j = Some n' /\ n_type n' = n_type n /\ n_text n' = n_text n) as Hkeep.
  { intros j n Hj Hn. destruct (payload_lookup d' d j n (eq_sym (A6 j Hj)) Hn) as (m & Hm & P1 & _ & _ & P4). by exists m. }
  split; [constructor|].
  - done.
  - assert (next_id d < next_id d') by (apply (wf_bound d' A1); by exists t). lia.
  - intros j Hj. destruct (decide (j = next_id d)) as [->|Hne]; [by exists t|]. destruct (H3 j Hj) as [n Hn]. destruct (Hkeep j n Hne Hn) as (n' & Hn' & _). by exists n'.
  - intros j n Hn. destruct (decide (j = next_id d)) as [->|Hne]; [left; split; [done|]; congruence|].
    destruct (payload_lookup d d' j n (A6 j Hne) Hn) as (m & Hm & P1 & P2 & P3 & _). destruct (H4 j m Hm) as [[Hj Ht]|(m0 & Q1 & Q2 & Q3 & Q4)].
    + left. split; [done|congruence].
    + right. exists m0. split_and!; [done|congruence..].
  - intros j p. rewrite A4. case_decide as Ej.
    + intros [= <-]. split; [by apply (wf_bound d0 Hwf0)|]. subst j. lia.
    + case_decide; [done|]. apply H5.
  - intros k Hk He. destruct (H6 k Hk He) as (t' & n & C1 & C2 & C3 & C4 & C5). assert (k <> i) by (by intros ->).
    destruct (Hkeep t' n) as (n' & Hn' & P1 & P2); [|done|]; [assert (t' < next_id d) by (apply (wf_bound d H1); by exists n); lia|].
    exists t', n'. rewrite A5 by done. split_and!; [done|done|congruence|congruence|done].
  - exists (next_id d), t. done.
Qed.

Lemma cleaning_attributes l d i d' : cleaning l d -> i ∉ l -> i < next_id d0 ->
  (emptied_tag (name_of d0 i) = true -> emptied d i) ->
  nodes d' = alter (set_attributes (fun k => foldl sanitize_list k (attributes_of d i))) i (nodes d) -> next_id d' = next_id d -> cleaning (i :: l) d'.
Proof using Hwf0 Hdistinct.
  intros [H1 H2 H3 H4 H5 H6] Hl Hi0 He Hn Hnext. destruct (attributes_change_links i _ d d' Hn Hnext) as (P1 & P2 & P3).
  assert (forall j, emptied d j -> emptied d' j) as Hem.
  { intros j (t & n & C1 & C2 & C3 & C4 & C5). rewrite <- P2 in C1. destruct (decide (i = t)) as [->|Hne]; [lia|].
    exists t, n. rewrite Hn, lookup_alter_ne by done. done. }
  constructor.
  - by apply P3.
  - by rewrite Hnext.
  - intros j Hj. rewrite Hn. change (alter (set_attributes ?f) i (nodes d)) with (nodes (update i (set_attributes f) d)). rewrite is_Some_update. by apply H3.
  - intros j n. rewrite Hn. destruct (decide (i = j)) as [<-|Hne].
    + rewrite lookup_alter_eq. intros (m & Hm & ->)%fmap_Some. destruct (H4 i m Hm) as [[Hj _]|(m0 & Q1 & Q2 & Q3 & Q4)]; [lia|]. right. exists m0. cbn [set_attributes n_type n_name n_attributes].
      split_and!; [done..|]. rewrite decide_True by set_solver. rewrite decide_False in Q4 by done. unfold attributes_of. rewrite Hm. cbn [from_option]. rewrite Q4.
      apply (sanitize_list_loop (n_attributes m0) []). by apply (Hdistinct i).
    + rewrite lookup_alter_ne by done. intros Hm. destruct (H4 j n Hm) as [H|(m0 & Q1 & Q2 & Q3 & Q4)]; [by left|]. right. exists m0. split_and!; [done..|].
      rewrite Q4. destruct (decide (j ∈ l)); [by rewrite decide_True by set_solver|by rewrite decide_False by set_solver].
  - intros j p. rewrite P1. apply H5.
  - intros k [->|Hk]%elem_of_cons Hek; apply Hem; [by apply He|by apply H6].
Qed.

Lemma cleaning_element l d i : cleaning l d -> i ∉ l -> is_Some (nodes d0 !! i) -> cleaning (i :: l) (sanitize_element d i).
Proof using Hwf0 Hdistinct.
  intros Hc Hl Hi. pose proof (wf_bound d0 Hwf0 i Hi) as Hlt. unfold sanitize_element.
  assert (name_of d i = name_of d0 i) as ->.
  { destruct (cl_stored l d Hc i Hi) as [n Hn]. unfold name_of. rewrite Hn. destruct (cl_nodes l d Hc i n Hn) as [[? _]|(m & Hm & _ & E & _)]; [lia|]. by rewrite Hm. }
  destruct (emptied_tag (name_of d0 i)) eqn:Et.
  - destruct (cleaning_set_text l d i Hc Hl Hi) as [Hc' He]. cbv zeta.
    destruct (sanitize_attributes_nodes i (attributes_of (set_text i [] d) i) (set_text i [] d)) as [N1 N2].
    by apply (cleaning_attributes l (set_text i [] d)).
  - cbv zeta. destruct (sanitize_attributes_nodes i (attributes_of d i) d) as [N1 N2]. apply (cleaning_attributes l d); try done. congruence.
Qed.

Lemma cleaning_loop els : forall l d, cleaning l d -> NoDup els -> (forall i, i ∈ els -> i ∉ l /\ is_Some (nodes d0 !! i)) ->
  cleaning (rev els ++ l) (foldl sanitize_element d els).
Proof using Hwf0 Hdistinct.
  induction els as [|i els IH]; intros l d Hc Hd Hi; [done|]. apply NoDup_cons in Hd as [Hni Hd]. cbn [foldl rev]. rewrite <- app_assoc. cbn [app].
  apply IH; [|done|].
  - destruct (Hi i) as [H1 H2]; [set_solver|]. by apply cleaning_element.
  - intros j Hj. destruct (Hi j) as [H1 H2]; [set_solver|]. split; [|done]. set_solver.
Qed.
End Cleaning.

Lemma reachable_before d0 l d i r : dom_wf d0 -> cleaning d0 l d -> i < next_id d0 -> rtc (edge d) i r -> rtc (edge d0) i r.
Proof.
  intros Hwf Hc Hi Hr. induction Hr as [x|x y z Hxy Hr IH]; [constructor|]. destruct (cl_parent d0 l d Hc x y Hxy) as [Hy Hp].
  apply rtc_l with y; [by apply Hp|by apply IH].
Qed.

Lemma sanitized_copy_inv doc c : sanitized_copy doc = Ret c ->
  exists copy, parse_html (doc_html doc) [] [] = Ret copy /\ dom_wf (doc_dom copy) /\ is_Some (nodes (doc_dom copy) !! root_ copy) /\
    root_ c = root_ copy /\ cleaning (doc_dom copy) (rev (elements_where copy (fun _ => true))) (doc_dom c).
Proof.
  unfold sanitized_copy. destruct (parse_html (doc_html doc) [] []) as [copy|e] eqn:Ep; [|done]. cbn [mbind result_bind].
  pose proof (outcome_Ret _ _ _ _ (parse_html_ok (doc_html doc) [] []) Ep) as [Hwf Hroot]. rewrite query_all_elements by done. cbn [mbind result_bind]. intros [= <-].
  exists copy. cbn [root_ doc_dom]. split_and!; [done..|]. rewrite <- (app_nil_r (rev _)). apply cleaning_loop; [done|by apply parse_html_distinct in Ep|by apply cleaning_start| |].
  - unfold elements_where. apply NoDup_ListNoDup, List.NoDup_filter, NoDup_ListNoDup. by apply preorder_nodup.
  - intros i Hi. split; [apply not_elem_of_nil|]. apply list_elem_of_In, filter_In in Hi as [Hi _]. apply list_elem_of_In in Hi. by apply (doc_order_stored _ Hwf (root_ copy)).
Qed.

(** ** Properties *)

(** C36: what a spider stores of a page is stripped at the places it looks at: the copy of any document that can be copied is
    the document that its text parses to, and of every element that can be reached from the root, under the same name, the
    attributes stay, in their order, whose names are not suspicious (on no list of the redactor, without one of four words
    for secrets, not [value], no event handler); of these [href], [src] and [action] hold what [redact_url] makes of them
    (which is not always free of secrets, [Redaction]), all others what they held; and scripts, style sheets and text
    areas are empty. *)
Theorem sanitized_clean doc c i n : sanitized_copy doc = Ret c -> i ∈ doc_order (doc_dom c) (root_ c) ->
  nodes (doc_dom c) !! i = Some n -> n_type n = Element ->
  exists copy m, parse_html (doc_html doc) [] [] = Ret copy /\ nodes (doc_dom copy) !! i = Some m /\ n_type m = Element /\ n_name n = n_name m /\
    copied_attributes (n_attributes m) (n_attributes n) /\
    (n_name n ∈ [lit "script"; lit "style"; lit "textarea"] -> element_text (doc_dom c) i = []).
Proof.
  intros (copy & Ep & Hwf & Hroot & Er & Hc)%sanitized_copy_inv Hi Hn Ht. pose proof (cl_wf _ _ _ Hc) as Hwfc.
  destruct (cl_nodes _ _ _ Hc i n Hn) as [[_ E]|(m & Hm & P1 & P2 & P3)]; [congruence|].
  assert (Hlt : i < next_id (doc_dom copy)) by (apply (wf_bound _ Hwf); by exists m).
  assert (Hel : i ∈ rev (elements_where copy (fun _ => true))).
  { apply list_elem_of_In. rewrite <- in_rev. apply filter_In. split.
    - apply list_elem_of_In. apply doc_order_spec; [done|done|]. eapply reachable_before; [done|exact Hc|done|].
      rewrite Er in Hi. apply preorder_descends in Hi; done.
    - unfold is_element. rewrite Hm. cbn. by rewrite <- P1, Ht. }
  rewrite decide_True in P3 by done. exists copy, m. split_and!; [done|done|congruence|done|rewrite P3; apply omap_kept|].
  - intros He. assert (emptied_tag (n_name n) = true) as Hempty.
    { unfold emptied_tag, one_of. cbn [existsb]. rewrite !orb_true_iff, !eqb_bytes_true. set_solver. }
    clear He. rename Hempty into He. destruct (cl_empty _ _ _ Hc i Hel) as (t & k & C1 & C2 & C3 & C4 & _).
    + unfold name_of. rewrite Hm. cbn. by rewrite <- P2.
    + unfold element_text. rewrite (tree_of_eq _ Hwfc i n Hn). unfold children_of in C1. rewrite Hn in C1. cbn in C1. rewrite C1. cbn [map].
      rewrite (tree_of_eq _ Hwfc t k C2), Ht, C3, C4. done.
Qed.

(** ** On concrete inputs *)

Definition demo_page : Document :=
  {| doc_dom := load_document (mkNode HtmlTree.Document [] [] []
       [mkNode Element (lit "p") [{| attr_name := lit "onclick"; attr_value := lit "x" |}; {| attr_name := lit "id"; attr_value := lit "i" |};
                              {| attr_name := lit "href"; attr_value := lit "http://u:p@h/" |}] [] []]);
     root_ := 0; url_ := []; base_url_ := [] |}.

Definition demo_copy : Document := match sanitized_copy demo_page with Ret c => c | Throw _ => demo_page end.

Lemma demo_copied : sanitized_copy demo_page = Ret demo_copy.
Proof. vm_compute. reflexivity. Qed.

Definition demo_element : dnode := match nodes (doc_dom demo_copy) !! 1 with Some n => n | None => bare (mkNode Text [] [] [] []) end.

Lemma demo_reachable : 1 ∈ doc_order (doc_dom demo_copy) (root_ demo_copy) /\ nodes (doc_dom demo_copy) !! 1 = Some demo_element /\ n_type demo_element = Element.
Proof. split_and!; [apply list_elem_of_In; vm_compute; auto|vm_compute; reflexivity..]. Qed.

Lemma sanitized_clean_witness : exists before, copied_attributes before (n_attributes demo_element) /\
  n_attributes demo_element = [{| attr_name := lit "id"; attr_value := lit "i" |}; {| attr_name := lit "href"; attr_value := lit "http://h/" |}].
Proof.
  destruct demo_reachable as (H1 & H2 & H3).
  destruct (sanitized_clean demo_page demo_copy 1 demo_element demo_copied H1 H2 H3) as (copy & m & _ & _ & _ & _ & H & _).
  exists (n_attributes m). split; [exact H|vm_compute; reflexivity].
Defined.

(** Only names decide: a handler under another name, or a secret in the text, stays; so does an attribute that a script
    would read. *)
Example sanitize_limits :
  (doc ← parse_html (lit "<a formaction=javascript:x data-v=secret1>password: hunter2</a>") [] []; sanitized_html doc) =
  (doc ← parse_html (lit "<a formaction=javascript:x data-v=secret1>password: hunter2</a>") [] []; Ret (doc_html doc)).
Proof. vm_compute. reflexivity. Qed.
