(* ===== verification/Spider.v ===== *)
(** * Spider: the engine of a crawler, the second part of [plugins/spider/src/spider.cpp]

    The state of [Engine::Impl], its durable form, the queue of pages, one step of the crawl ([tick]) and all the
    commands.  The session, the clocks and the commit of the database are the interface [Host], pugixml and the Lua
    runtime the interface [Tools]: the engine's theorems hold for every one of them. *)
From S2P Require Import Prelude Url Redaction Message Html HtmlTree Dom Selector SelectorMatch Document Robots Frame SpiderCache PageCopy.
Local Open Scope N_scope.

(** ** Exceptions: an [Error] of the library, or any other exception *)

Inductive caught (A : Type) := Done (a : A) | Raised (e : ErrorCode) | Failed.
Arguments Done {A} a.
Arguments Raised {A} e.
Arguments Failed {A}.

#[export] Instance caught_bind : MBind caught := fun A B f m =>
  match m with Done a => f a | Raised e => Raised e | Failed => Failed end.

Definition of_result {A} (m : result A) : caught A := match m with Ret a => Done a | Throw e => Raised e end.
Definition of_option {A} (m : option A) : caught A := match m with Some a => Done a | None => Failed end.

(** [integer]. *)
Definition integer (text : bytes) (maximum : N) : caught N :=
  match size_number text with
  | Some value => if maximum <? value then Raised InvalidArgument else Done value
  | None => Raised InvalidArgument
  end.

(** ** URLs of the crawl *)

Definition has_host (u : Url) : bool := has_authority u && nonempty (host u).

Definition without_fragment (u : Url) : Url :=
  {| scheme := scheme u; userinfo := userinfo u; host := host u; port := port u; path := if nonempty (path u) then path u else lit "/";
     Url.query := Url.query u; fragment := []; has_authority := has_authority u; has_query := has_query u; has_fragment := false |}.

Definition canonical (text : bytes) : result bytes :=
  _ ← throw_if ((4096 <? size text) || existsb (fun c => c =c byte 0) text) InvalidUrl;
  normalized ← normalize_url text;
  url ← parse_url normalized;
  _ ← throw_if (negb (has_host url) || negb ((scheme url =s lit "https") || (scheme url =s lit "http")) || nonempty (userinfo url)) SecurityViolation;
  Ret (to_string (without_fragment url)).

(** ** The network of a spider: [OriginNetwork::send] *)

Definition max_page_bytes : N := 2 * 1024 * 1024.

Definition bounded_request (r : HttpRequest) : HttpRequest :=
  {| method := method r; request_url := request_url r; request_headers := request_headers r; request_body := request_body r;
     timeout_ms := Z.max 1 (Z.min (timeout_ms r) 10000); max_response_bytes := N.min (max_response_bytes r) max_page_bytes; request_proxy := request_proxy r |}.

Definition origin_send {S : Type} (origin : bytes) (inner : HttpRequest -> op S HttpResponse) (request : HttpRequest) : op S HttpResponse :=
  url ← lift_op (canonical (request_url request));
  parsed ← lift_op (parse_url url);
  if negb (nonempty origin) || negb (Url.origin parsed =s origin) then throw_op SecurityViolation else inner (bounded_request request).

(** ** The durable state *)

Record Task := { t_url : bytes; t_depth : N; t_attempts : N }.

Record CrawlOptions := { max_pages : N; max_depth : N; interval_ms : N }.

Definition max_frontier : N := 10000.
Definition max_retries : N := 3.
Definition max_seen_bytes : N := 1024 * 1024.

Record Saved := {
  s_origin : bytes; s_options : CrawlOptions; s_pages : N; s_sequence : N; s_errors : N;
  s_frontier : list Task; s_seen : gset bytes; s_watch_url : bytes; s_watch_seconds : N; s_revisit_at : N }.

(** A [std::set] is visited in order. *)
Definition ordered (l : gset bytes) : list bytes := merge_sort key_order (elements l).

Definition pack_task (t : Task) : option bytes := pack [t_url t; print_N (t_depth t); print_N (t_attempts t)].

(** [state()]. *)
Definition state_text (s : Saved) : caught bytes :=
  tasks ← of_option (mapM pack_task (s_frontier s) ≫= pack);
  seen ← of_option (pack (ordered (s_seen s)));
  of_option (pack [lit "2"; s_origin s; print_N (max_pages (s_options s)); print_N (max_depth (s_options s)); print_N (interval_ms (s_options s));
    print_N (s_pages s); print_N (s_sequence s); print_N (s_errors s); tasks; seen; s_watch_url s; print_N (s_watch_seconds s); print_N (s_revisit_at s)]).

Fixpoint read_tasks (l : list bytes) (n : N) : caught (list Task) :=
  match l with
  | [] => Done []
  | data_task :: l' =>
      t ← of_option (unpack data_task);
      match t with
      | [url; depth; attempts] =>
          if max_frontier <=? n then Raised StorageError
          else
            depth ← integer depth 32;
            attempts ← integer attempts 3;
            tasks ← read_tasks l' (n + 1);
            Done ({| t_url := url; t_depth := depth; t_attempts := attempts |} :: tasks)
      | _ => Raised StorageError
      end
  end.

Definition seen_size (l : gset bytes) : N := foldr (fun u n => size u + n) 0 (elements l).

(** [restore] into an empty queue; it answers the state and [seen_bytes].  The fields that the code has assigned when
    it refuses the text are lost with the exception, which nothing catches but the end of the worker. *)
Definition restore (data : bytes) : caught (Saved * N) :=
  f ← of_option (unpack data);
  match f with
  | [version; origin; pages_limit; depth_limit; interval; pages; sequence; errors; tasks; seen; watch_url; watch_seconds; revisit_at] =>
      if negb (version =s lit "2") then Raised StorageError
      else
        pages_limit ← integer pages_limit 10000; depth_limit ← integer depth_limit 32; interval ← integer interval 3600000;
        pages ← integer pages 10000; sequence ← integer sequence 1000000000; errors ← integer errors 1000000000;
        tasks ← of_option (unpack tasks); tasks ← read_tasks tasks 0;
        urls ← of_option (unpack seen);
        watch_seconds ← integer watch_seconds (86400 * 30);
        revisit_at ← integer revisit_at 10000000000;
        let seen : gset bytes := list_to_set urls in
        let seen_bytes := foldr (fun u n => size u + n) 0 urls in
        if (max_frontier <? N.of_nat (base.size seen)) || (max_seen_bytes <? seen_bytes) then Raised StorageError
        else Done ({| s_origin := origin; s_options := {| max_pages := pages_limit; max_depth := depth_limit; interval_ms := interval |};
                      s_pages := pages; s_sequence := sequence; s_errors := errors; s_frontier := tasks; s_seen := seen;
                      s_watch_url := watch_url; s_watch_seconds := watch_seconds; s_revisit_at := revisit_at |}, seen_bytes)
  | _ => Raised StorageError
  end.

Definition new_saved : Saved :=
  {| s_origin := []; s_options := {| max_pages := 1000; max_depth := 5; interval_ms := 1000 |}; s_pages := 0; s_sequence := 0; s_errors := 0;
     s_frontier := []; s_seen := ∅; s_watch_url := []; s_watch_seconds := 0; s_revisit_at := 0 |}.

Example state_example : match state_text new_saved with Done t => restore t = Done (new_saved, 0) | _ => False end.
Proof. vm_compute. reflexivity. Qed.

(** ** The engine *)

(** What the engine is given: the session over the network of the spider ([request], [load_html], [navigate], a click on a
    node of the document and typing into it, the document and its URL), whose requests see the origin, the two clocks in
    milliseconds and in seconds, and whether the database commits. *)
Class Host (W : Type) := {
  host_request : bytes -> bytes -> option N -> W -> caught HttpResponse * W;
  host_load : bytes -> bytes -> bytes -> W -> caught unit * W;
  host_navigate : bytes -> bytes -> W -> caught unit * W;
  host_click : bytes -> nat -> W -> caught bool * W;
  host_type : bytes -> nat -> bytes -> W -> caught bool * W;
  host_document : W -> option Document;
  host_url : W -> bytes;
  steady_now : W -> N * W;
  epoch_now : W -> N * W;
  commits : W -> bool * W }.

(** *** XPath and Lua *)

(** [XPathValue]: the strings of its nodes, or a value; a number as [std::to_string] writes it. *)
Inductive XPathValue := NodeSet (string_values : list bytes) | StringValue (text : bytes) | NumberValue (text : bytes) | BooleanValue (b : bool).

(** What the commands on a page use of other libraries: [evaluate_xpath] over pugixml, and [LuaRuntime] over the
    interpreter: whether it was built in, the source of [lspider.lua], which the build puts into a header; a new
    runtime bound to the browser and the session, whose requests see the origin; a chunk with its name, which succeeds
    or not; a call of a global function with named arguments, its text, or nothing when it fails; and the end of the
    runtime. *)
Class Tools (W : Type) := {
  evaluate_xpath : Document -> bytes -> result XPathValue;
  lua_available : bool;
  spider_lua_source : bytes;
  lua_open : W -> W;
  lua_run : bytes -> bytes -> bytes -> W -> caught bool * W;
  lua_call : bytes -> bytes -> list (bytes * bytes) -> W -> caught (option bytes) * W;
  lua_close : W -> W }.

Definition xpath_string_value {W} {tools : Tools W} (doc : Document) (expression : bytes) : result bytes :=
  value ← evaluate_xpath doc expression;
  Ret match value with
      | StringValue text => text
      | NodeSet (first :: _) => first
      | NodeSet [] => []
      | NumberValue text => text
      | BooleanValue b => if b then lit "true" else lit "false"
      end.

(** [lua_string]: every byte as an escape. *)
Definition hex_digit (n : N) : ascii := byte (if n <? 10 then 48 + n else 87 + n).
Definition lua_string (value : bytes) : bytes :=
  dquote :: mjoin (map (fun c => lit "\x" ++ [hex_digit (N.shiftr (code c) 4); hex_digit (N.land (code c) 15)]) value) ++ [dquote].

(** The chunk that runs before the driver's. *)
Definition lua_restrictions : bytes := lit "
            local instructions = 0
            debug.sethook(function()
                instructions = instructions + 10000
                if instructions > 5000000 then error('driver instruction limit') end
            end, '', 10000)
            print = function() end
            io = nil; os = nil; debug = nil; dofile = nil; loadfile = nil
            package.loadlib = nil; package.path = ''; package.cpath = ''
        ".

Example lua_string_example : lua_string [byte 10; "z"%char] = dquote :: lit "\x0a\x7a" ++ [dquote].
Proof. vm_compute. reflexivity. Qed.

Record Engine {W : Type} := {
  e_name : bytes; e_saved : Saved; e_seen_bytes : N; e_paused : bool; e_next : N; e_robots_expiry : N;
  e_robots : list RobotRule; e_robots_available : bool; e_cache : store; e_world : W }.
Arguments Engine : clear implicits.

Section Engine.
Context {W : Type} {host : Host W}.

Definition act (A : Type) : Type := Engine W -> caught A * Engine W.

#[export] Instance act_ret : MRet act := fun A a e => (Done a, e).
#[export] Instance act_bind : MBind act := fun A B f m e =>
  match m e with (Done a, e') => f a e' | (Raised x, e') => (Raised x, e') | (Failed, e') => (Failed, e') end.

Definition lift_caught {A} (m : caught A) : act A := fun e => (m, e).
Definition raise {A} (x : ErrorCode) : act A := lift_caught (Raised x).
Definition read {A} (f : Engine W -> A) : act A := fun e => (Done (f e), e).
Definition change (f : Engine W -> Engine W) : act unit := fun e => (Done tt, f e).
Definition outside {A} (f : W -> caught A * W) : act A := fun e =>
  let '(r, w) := f (e_world e) in
  (r, {| e_name := e_name e; e_saved := e_saved e; e_seen_bytes := e_seen_bytes e; e_paused := e_paused e; e_next := e_next e;
         e_robots_expiry := e_robots_expiry e; e_robots := e_robots e; e_robots_available := e_robots_available e; e_cache := e_cache e; e_world := w |}).

Definition set_saved (s : Saved) (seen_bytes : N) (e : Engine W) : Engine W :=
  {| e_name := e_name e; e_saved := s; e_seen_bytes := seen_bytes; e_paused := e_paused e; e_next := e_next e; e_robots_expiry := e_robots_expiry e;
     e_robots := e_robots e; e_robots_available := e_robots_available e; e_cache := e_cache e; e_world := e_world e |}.
Definition set_paused (b : bool) (e : Engine W) : Engine W :=
  {| e_name := e_name e; e_saved := e_saved e; e_seen_bytes := e_seen_bytes e; e_paused := b; e_next := e_next e; e_robots_expiry := e_robots_expiry e;
     e_robots := e_robots e; e_robots_available := e_robots_available e; e_cache := e_cache e; e_world := e_world e |}.
Definition set_next (t : N) (e : Engine W) : Engine W :=
  {| e_name := e_name e; e_saved := e_saved e; e_seen_bytes := e_seen_bytes e; e_paused := e_paused e; e_next := t; e_robots_expiry := e_robots_expiry e;
     e_robots := e_robots e; e_robots_available := e_robots_available e; e_cache := e_cache e; e_world := e_world e |}.
Definition set_robots (expiry : N) (rules : list RobotRule) (available : bool) (e : Engine W) : Engine W :=
  {| e_name := e_name e; e_saved := e_saved e; e_seen_bytes := e_seen_bytes e; e_paused := e_paused e; e_next := e_next e; e_robots_expiry := expiry;
     e_robots := rules; e_robots_available := available; e_cache := e_cache e; e_world := e_world e |}.
Definition set_cache (m : store) (e : Engine W) : Engine W :=
  {| e_name := e_name e; e_saved := e_saved e; e_seen_bytes := e_seen_bytes e; e_paused := e_paused e; e_next := e_next e; e_robots_expiry := e_robots_expiry e;
     e_robots := e_robots e; e_robots_available := e_robots_available e; e_cache := m; e_world := e_world e |}.

(** Changes of the durable state. *)
Definition update_saved (f : Saved -> Saved) : act unit := change (fun e => set_saved (f (e_saved e)) (e_seen_bytes e) e).

Definition with_frontier (l : list Task) (s : Saved) : Saved :=
  {| s_origin := s_origin s; s_options := s_options s; s_pages := s_pages s; s_sequence := s_sequence s; s_errors := s_errors s; s_frontier := l; s_seen := s_seen s;
     s_watch_url := s_watch_url s; s_watch_seconds := s_watch_seconds s; s_revisit_at := s_revisit_at s |}.
Definition with_seen (x : gset bytes) (s : Saved) : Saved :=
  {| s_origin := s_origin s; s_options := s_options s; s_pages := s_pages s; s_sequence := s_sequence s; s_errors := s_errors s; s_frontier := s_frontier s; s_seen := x;
     s_watch_url := s_watch_url s; s_watch_seconds := s_watch_seconds s; s_revisit_at := s_revisit_at s |}.
Definition with_counts (pages sequence errors : N) (s : Saved) : Saved :=
  {| s_origin := s_origin s; s_options := s_options s; s_pages := pages; s_sequence := sequence; s_errors := errors; s_frontier := s_frontier s; s_seen := s_seen s;
     s_watch_url := s_watch_url s; s_watch_seconds := s_watch_seconds s; s_revisit_at := s_revisit_at s |}.
Definition with_watch (url : bytes) (seconds revisit : N) (s : Saved) : Saved :=
  {| s_origin := s_origin s; s_options := s_options s; s_pages := s_pages s; s_sequence := s_sequence s; s_errors := s_errors s; s_frontier := s_frontier s; s_seen := s_seen s;
     s_watch_url := url; s_watch_seconds := seconds; s_revisit_at := revisit |}.
Definition with_crawl (origin : bytes) (options : CrawlOptions) (s : Saved) : Saved :=
  {| s_origin := origin; s_options := options; s_pages := s_pages s; s_sequence := s_sequence s; s_errors := s_errors s; s_frontier := s_frontier s; s_seen := s_seen s;
     s_watch_url := s_watch_url s; s_watch_seconds := s_watch_seconds s; s_revisit_at := s_revisit_at s |}.

Definition more_errors (s : Saved) : Saved := with_counts (s_pages s) (s_sequence s) (s_errors s + 1) s.
Definition more_pages (s : Saved) : Saved := with_counts (s_pages s + 1) (s_sequence s) (s_errors s) s.
Definition more_snapshots (s : Saved) : Saved := with_counts (s_pages s) (s_sequence s + 1) (s_errors s) s.
Definition pop_front (s : Saved) : Saved := with_frontier (tail (s_frontier s)) s.

(** The queue, the set of URLs and the counters emptied. *)
Definition new_epoch (s : Saved) : Saved := with_counts 0 (s_sequence s) 0 (with_frontier [] (with_seen ∅ s)).

(** ** The store *)

Definition state : act bytes := s ← read e_saved; lift_caught (state_text s).

Definition committing : act bool := outside (fun w => let '(b, w') := commits w in (Done b, w')).

Definition cache_write (puts : rows) : act unit :=
  m ← read e_cache;
  match write puts [] m with
  | None => lift_caught Failed
  | Some m' =>
      committed ← committing;
      if (committed : bool) then change (set_cache m') else lift_caught Failed
  end.

Definition save : act unit := text ← state; cache_write [(lit "state", text)].

(** ** URLs *)

Definition allowed (origin url : bytes) : result bytes :=
  normalized ← canonical url;
  parsed ← parse_url normalized;
  _ ← throw_if (negb (Url.origin parsed =s origin)) SecurityViolation;
  Ret normalized.

(** The URL is put into the queue, unless it is too deep or has been seen. *)
Definition add_url (normalized : bytes) (depth : N) (e : Engine W) : Engine W :=
  let s := e_saved e in
  set_saved (with_frontier (s_frontier s ++ [{| t_url := normalized; t_depth := depth; t_attempts := 0 |}]) (with_seen ({[normalized]} ∪ s_seen s) s))
            (e_seen_bytes e + size normalized) e.

Definition enqueue (url : bytes) (depth : N) : act unit :=
  s ← read e_saved;
  normalized ← lift_caught (of_result (allowed (s_origin s) url));
  if (max_depth (s_options s) <? depth) || bool_decide (normalized ∈ s_seen s) then mret tt
  else
    seen_bytes ← read e_seen_bytes;
    if (max_frontier <=? N.of_nat (base.size (s_seen s))) || (max_seen_bytes <? seen_bytes + size normalized) then raise ResourceLimit
    else change (add_url normalized depth).

(** ** Answers *)

Definition field (first : bool) (name : string) (value : bytes) : bytes :=
  (if first then [] else lit ",") ++ json_quote (lit name) ++ lit ":" ++ value.

Definition state_word (e : Engine W) : bytes :=
  if e_paused e then lit "paused" else if nonempty (s_frontier (e_saved e)) then lit "running" else lit "idle".

Definition status : act Reply := read (fun e =>
  let s := e_saved e in
  {| reply_ok := true;
     reply_json := lit "{" ++ field true "name" (json_quote (e_name e)) ++ field false "state" (json_quote (state_word e)) ++
       field false "url" (json_quote (redact_url defaults (host_url (e_world e)))) ++ field false "pages" (print_N (s_pages s)) ++
       field false "pending" (print_N (N.of_nat (length (s_frontier s)))) ++ field false "errors" (print_N (s_errors s)) ++
       field false "max_pages" (print_N (max_pages (s_options s))) ++ field false "watch_seconds" (print_N (s_watch_seconds s)) ++
       field false "next_crawl_at" (print_N (s_revisit_at s)) ++ lit "}" |}).

Definition steady : act N := outside (fun w => let '(t, w') := steady_now w in (Done t, w')).
Definition epoch_seconds : act N := outside (fun w => let '(t, w') := epoch_now w in (Done t, w')).

(** [snapshot]: the page and the state are committed together. *)
Definition snapshot (status_code : Z) (puts : rows) : act unit :=
  doc ← read (fun e => host_document (e_world e));
  match doc with
  | None => text ← state; cache_write (puts ++ [(lit "state", text)])
  | Some doc =>
      now ← epoch_seconds;
      sequence ← read (fun e => s_sequence (e_saved e));
      _ ← update_saved more_snapshots;
      html ← lift_caught (of_result (sanitized_html doc));
      url ← read (fun e => host_url (e_world e));
      title ← lift_caught (of_result (title doc));
      value ← lift_caught (of_option (pack [redact_url defaults url; title; print_Z status_code; if 256 * 1024 <? size html then [] else html; print_N now]));
      text ← state;
      cache_write (puts ++ [(page_key sequence, value); (lit "state", text)])
  end.

(** ** The crawl *)

Definition is_available (r : HttpResponse) : bool := ok r || (Message.status r =? 404)%Z || (Message.status r =? 410)%Z.

Definition request (url : bytes) (limit : option N) : act HttpResponse :=
  origin ← read (fun e => s_origin (e_saved e)); outside (host_request origin url limit).

(** The rules are read again when an hour has passed, or at once when they were not available. *)
Definition refresh_robots : act unit :=
  now ← steady;
  expiry ← read e_robots_expiry;
  if expiry <=? now then
    _ ← change (fun e => set_robots (e_robots_expiry e) (e_robots e) false e);
    origin ← read (fun e => s_origin (e_saved e));
    response ← request (origin ++ lit "/robots.txt") (Some 65536);
    _ ← change (fun e => set_robots (e_robots_expiry e) (e_robots e) (is_available response) e);
    rules ← lift_caught (if ok response then of_result (parse_robots (body response)) else Done []);
    _ ← change (fun e => set_robots (e_robots_expiry e) rules (e_robots_available e) e);
    now ← steady;
    change (fun e => set_robots (now + if e_robots_available e then 3600000 else 0) (e_robots e) (e_robots_available e) e)
  else mret tt.

(** What the rules are matched with. *)
Definition robots_path (u : Url) : bytes := path u ++ (if has_query u then lit "?" ++ Url.query u else []).

Definition robots_allow (url : bytes) : act bool :=
  _ ← refresh_robots;
  available ← read e_robots_available;
  if negb available then raise NetworkError
  else
    parsed ← lift_caught (of_result (parse_url url));
    rules ← read e_robots;
    mret (rules_allow rules (robots_path parsed)).

(** The delay of a response that asks to be retried. *)
Definition retry_delay (r : HttpResponse) (interval : N) : N :=
  let delay := header r (lit "Retry-After") in
  if nonempty delay then match integer delay 3600 with Done seconds => seconds * 1000 | _ => interval end else interval.

Definition retryable (r : HttpResponse) : bool := (Message.status r =? 429)%Z || (500 <=? Message.status r)%Z.

(** The links of a page.  An error of one link is ignored, but for a full queue. *)
Fixpoint enqueue_links (doc : Document) (l : list nat) (depth : N) : act unit := fun e =>
  match l with
  | [] => (Done tt, e)
  | link :: l' =>
      match (target ← lift_caught (of_result (base ← base_url doc; resolve_url_string base (doc_attribute doc link (lit "href")))); enqueue target depth) e with
      | (Done _, e') => enqueue_links doc l' depth e'
      | (Raised ResourceLimit, e') => (Done tt, e')
      | (Raised _, e') => enqueue_links doc l' depth e'
      | (Failed, e') => (Failed, e')
      end
  end.

(** How the body of [try] in [tick] is left: by [return true], at its end, or by the error of a retryable response. *)
Inductive attempted := Left_early | Fetched | Retryable (delay : N).

Definition attempt (task : Task) : act attempted :=
  allowed_by_robots ← robots_allow (t_url task);
  if negb allowed_by_robots then _ ← update_saved pop_front; _ ← save; mret Left_early
  else
    interval ← read (fun e => interval_ms (s_options (e_saved e)));
    response ← request (t_url task) None;
    if retryable response then mret (Retryable (retry_delay response interval))
    else if negb (ok response) then _ ← update_saved (fun s => pop_front (more_errors s)); _ ← save; mret Left_early
    else
      origin ← read (fun e => s_origin (e_saved e));
      url ← (if nonempty (final_url response) then lift_caught (of_result (allowed origin (final_url response))) else mret (t_url task));
      _ ← outside (host_load origin (body response) url);
      limit ← read (fun e => max_depth (s_options (e_saved e)));
      doc ← read (fun e => host_document (e_world e));
      _ ← (if t_depth task <? limit then
             match doc with
             | Some doc => l ← lift_caught (of_result (links doc)); enqueue_links doc l (t_depth task + 1)
             | None => mret tt
             end
           else mret tt);
      _ ← update_saved (fun s => more_pages (pop_front s));
      _ ← snapshot (Message.status response) [];
      mret Fetched.

(** The saved state put back. *)
Definition put_back (before : bytes) : act unit :=
  '(s, seen_bytes) ← lift_caught (restore before); change (set_saved s seen_bytes).

Definition set_attempts (n : N) (s : Saved) : Saved :=
  match s_frontier s with
  | t :: l => with_frontier ({| t_url := t_url t; t_depth := t_depth t; t_attempts := n |} :: l) s
  | [] => s
  end.

(** [catch (const Error& e)] in [tick]; it answers the delay. *)
Definition handle (task : Task) (before : bytes) (code : ErrorCode) (delay : N) : act N :=
  _ ← put_back before;
  _ ← update_saved more_errors;
  let attempts := t_attempts task + 1 in
  if bool_decide (code = SecurityViolation) || (max_retries <? attempts) then _ ← update_saved pop_front; _ ← save; mret delay
  else _ ← update_saved (set_attempts attempts); _ ← save; mret (N.max delay (1000 * 2 ^ attempts)).

Definition finish (delay : N) : act bool :=
  now ← steady; _ ← change (set_next (now + delay)); mret true.

(** The part of [tick] behind the choice of the task. *)
Definition visit (task : Task) : act bool := fun e =>
  match (before ← state; interval ← read (fun e => interval_ms (s_options (e_saved e))); mret (before, interval)) e with
  | (Done (before, interval), e0) =>
      match attempt task e0 with
      | (Done Left_early, e1) => (Done true, e1)
      | (Done Fetched, e1) => finish interval e1
      | (Done (Retryable delay), e1) => (delay ← handle task before NetworkError delay; finish delay) e1
      | (Raised code, e1) => (delay ← handle task before code interval; finish delay) e1
      | (Failed, e1) => (Failed, e1)
      end
  | (Raised x, e0) => (Raised x, e0)
  | (Failed, e0) => (Failed, e0)
  end.

Definition visit_front : act bool :=
  frontier ← read (fun e => s_frontier (e_saved e));
  match frontier with task :: _ => visit task | [] => lift_caught Failed end.

(** [Impl::tick]; an empty queue at its end cannot happen (lemma [restart_queue] of [Crawl]). *)
Definition tick_body : act bool :=
  paused ← read e_paused;
  if (paused : bool) then mret false
  else
    now ← steady;
    next ← read e_next;
    if now <? next then mret false
    else
      s ← read e_saved;
      if negb (nonempty (s_frontier s)) || (max_pages (s_options s) <=? s_pages s) then
        if s_watch_seconds s =? 0 then
          _ ← (if max_pages (s_options s) <=? s_pages s then change (set_paused true) else mret tt); mret false
        else if s_revisit_at s =? 0 then
          _ ← update_saved (with_frontier []);
          now ← epoch_seconds;
          _ ← update_saved (fun s => with_watch (s_watch_url s) (s_watch_seconds s) (now + s_watch_seconds s) s);
          _ ← save; mret false
        else
          now ← epoch_seconds;
          if now <? s_revisit_at s then mret false
          else
            _ ← change (fun e => set_saved (with_watch (s_watch_url s) (s_watch_seconds s) 0 (new_epoch (e_saved e))) 0 e);
            _ ← enqueue (s_watch_url s) 0; _ ← save; visit_front
      else visit_front.

(** ** Commands *)

Context {tools : Tools W}.

Definition fail_with (code : string) : act Reply := mret (failure (lit code)).

(** The optional numbers of [create] and [crawl]. *)
Definition option_or (l : list bytes) (i : nat) (maximum default : N) : caught N :=
  match l !! i with Some text => integer text maximum | None => Done default end.

Definition start_crawl (created : bool) (args : list bytes) : act Reply :=
  match args with
  | url :: limits =>
      if (3 <? length limits)%nat then fail_with "InvalidArgument"
      else
        seed ← lift_caught (of_result (canonical url));
        parsed ← lift_caught (of_result (parse_url seed));
        s ← read e_saved;
        if nonempty (s_origin s) && negb (s_origin s =s Url.origin parsed) then fail_with "SecurityViolation"
        else
          pages ← lift_caught (option_or limits 0 10000 (max_pages (s_options s)));
          depth ← lift_caught (option_or limits 1 32 (max_depth (s_options s)));
          interval ← lift_caught (option_or limits 2 3600000 (interval_ms (s_options s)));
          if pages =? 0 then fail_with "InvalidArgument"
          else
            let chosen := {| max_pages := pages; max_depth := depth; interval_ms := interval |} in
            _ ← change (fun e => set_saved (new_epoch (with_watch [] 0 0 (with_crawl (Url.origin parsed) chosen (e_saved e)))) 0 e);
            _ ← enqueue seed 0;
            _ ← change (set_paused created);
            now ← steady; _ ← change (set_next now);
            _ ← save; status
  | [] => fail_with "InvalidArgument"
  end.

Definition watch_command (url seconds : bytes) (limits : list bytes) : act Reply :=
  period ← lift_caught (integer seconds (86400 * 30));
  if period =? 0 then fail_with "InvalidArgument"
  else
    result ← start_crawl false (url :: limits);
    if negb (reply_ok result) then mret result
    else
      origin ← read (fun e => s_origin (e_saved e));
      target ← lift_caught (of_result (allowed origin url));
      _ ← update_saved (with_watch target period 0);
      _ ← save; status.

Definition record_key (key : bytes) : bytes := lit "record/" ++ key.

(** [cache put]. *)
Definition cache_put (key value : bytes) : act Reply :=
  if negb (nonempty key) || (128 <? size key) || (65536 <? size value) then fail_with "ResourceLimit"
  else
    m ← read e_cache;
    full ← (match SpiderCache.get (record_key key) m with Some _ => mret false | None => n ← lift_caught (of_option (record_count m)); mret (1000 <=? n) end);
    if (full : bool) then fail_with "ResourceLimit"
    else _ ← cache_write [(record_key key, if sensitive key then lit "[REDACTED]" else value)]; mret {| reply_ok := true; reply_json := lit "{}" |}.

Definition stored_json (key value : bytes) : caught bytes :=
  if starts_with (lit "page/") key then r ← of_option (page_json value); of_result r else Done (json_quote value).

Definition readable_key (key : bytes) : bool := starts_with (lit "page/") key || starts_with (lit "record/") key.

(** [cache get]. *)
Definition cache_get (key : bytes) : act Reply :=
  if negb (readable_key key) then fail_with "InvalidArgument"
  else
    m ← read e_cache;
    match SpiderCache.get key m with
    | None => fail_with "NotFound"
    | Some value => json ← lift_caught (stored_json key value); mret {| reply_ok := true; reply_json := json |}
    end.

Fixpoint query_items (l : rows) (out : bytes) : caught bytes :=
  match l with
  | [] => Done out
  | (key, value) :: l' =>
      json ← stored_json key value;
      let item := lit "{" ++ field true "key" (json_quote key) ++ field false "value" json ++ lit "}" in
      if max_message_bytes / 2 <? size out + size item then Done out
      else query_items l' ((if 1 <? size out then out ++ lit "," else out) ++ item)
  end.

(** [cache query]; [args] are the prefix, the limit and the last key, as far as they are given. *)
Definition cache_query (args : list bytes) : act Reply :=
  let prefix := default (lit "page/") (args !! 0%nat) in
  if negb (readable_key prefix) then fail_with "InvalidArgument"
  else
    limit ← lift_caught (option_or args 1 100 100);
    m ← read e_cache;
    l ← lift_caught (of_option (SpiderCache.query prefix limit (default [] (args !! 2%nat)) m));
    out ← lift_caught (query_items l (lit "["));
    mret {| reply_ok := true; reply_json := out ++ lit "]" |}.

(** *** [click] and [type] *)

(** [text] is what is typed, or nothing for a click; [position] counts the nodes from one. *)
Definition act_on_node (selector : bytes) (text position : option bytes) : act Reply :=
  doc ← read (fun e => host_document (e_world e));
  match doc with
  | None => fail_with "NotFound"
  | Some doc =>
      nodes ← lift_caught (of_result (doc_query_all doc selector));
      index ← lift_caught (match position with Some n => integer n 250000 | None => Done 1 end);
      if (index =? 0) || (N.of_nat (length nodes) <? index) then fail_with "NotFound"
      else
        let node := default 0%nat (nodes !! N.to_nat (index - 1)) in
        origin ← read (fun e => s_origin (e_saved e));
        ok ← outside (match text with Some text => host_type origin node text | None => host_click origin node end);
        if negb ok then fail_with "InvalidArgument" else _ ← snapshot 0 []; status
  end.

(** *** [query] and [xpath], on a sanitized copy *)

(** The loop over the results; [None] is the end by [ResourceLimit]. *)
Fixpoint results_loop (first : bool) (l : list bytes) (out : bytes) : option bytes :=
  match l with
  | [] => Some out
  | result :: l' =>
      let out := (if first then out else out ++ lit ",") ++ json_quote result in
      if max_message_bytes / 2 <? size out then None else results_loop false l' out
  end.

Definition page_results (by_selector : bool) (text : bytes) (doc : Document) : result (list bytes) :=
  html ← sanitized_html doc;
  safe ← parse_html html [] [];
  if by_selector then
    nodes ← doc_query_all safe text; Ret (map (outer_html (doc_dom safe)) (take 100 nodes))
  else
    value ← evaluate_xpath safe text;
    match value with
    | NodeSet string_values => Ret string_values
    | _ => text ← xpath_string_value safe text; Ret [text]
    end.

Definition query_page (by_selector : bool) (text : bytes) : act Reply :=
  doc ← read (fun e => host_document (e_world e));
  match doc with
  | None => fail_with "NotFound"
  | Some doc =>
      results ← lift_caught (of_result (page_results by_selector text doc));
      match results_loop true (take 100 results) (lit "[") with
      | Some out => mret {| reply_ok := true; reply_json := out ++ lit "]" |}
      | None => fail_with "ResourceLimit"
      end
  end.

(** *** [cache select] *)

Fixpoint matches_loop (d : dom) (l : list nat) (count : N) (matches : bytes) : bytes :=
  match l with
  | [] => matches
  | node :: l' =>
      let count := count + 1 in
      if 100 <? count then matches
      else
        let matches := (if 1 <? size matches then matches ++ lit "," else matches) ++ json_quote (outer_html d node) in
        if 512 * 1024 <? size matches then matches else matches_loop d l' count matches
  end.

Fixpoint select_items (selector : bytes) (l : rows) (out : bytes) : caught bytes :=
  match l with
  | [] => Done out
  | (key, value) :: l' =>
      fields ← of_option (unpack value);
      match fields with
      | [url; _; _; html; _] =>
          if negb (nonempty html) then select_items selector l' out
          else
            doc ← of_result (parse_html html [] []);
            nodes ← of_result (doc_query_all doc selector);
            let item := lit "{" ++ field true "key" (json_quote key) ++ field false "url" (json_quote url) ++
              field false "matches" (matches_loop (doc_dom doc) nodes 0 (lit "[") ++ lit "]") ++ lit "}" in
            if max_message_bytes / 2 <? size out + size item then Done out
            else select_items selector l' ((if 1 <? size out then out ++ lit "," else out) ++ item)
      | _ => select_items selector l' out
      end
  end.

(** [args] are the selector and the limit, if there is one. *)
Definition cache_select (selector : bytes) (limits : list bytes) : act Reply :=
  limit ← lift_caught (option_or limits 0 100 100);
  m ← read e_cache;
  l ← lift_caught (of_option (SpiderCache.query (lit "page/") limit [] m));
  out ← lift_caught (select_items selector l (lit "["));
  mret {| reply_ok := true; reply_json := out ++ lit "]" |}.

(** *** [driver]: a Lua script that stages operations *)

Definition lua_bootstrap (records : rows) : bytes :=
  lit "__spider_records={}" ++
  mjoin (map (fun '(key, value) => byte 10 :: lit "__spider_records[" ++ lua_string (drop 7 key) ++ lit "]=" ++ lua_string value) records).

Definition run_lua (code chunk_name : bytes) : act bool :=
  origin ← read (fun e => s_origin (e_saved e)); outside (lua_run origin code chunk_name).
Definition call_lua (function : bytes) (arguments : list (bytes * bytes)) : act (option bytes) :=
  origin ← read (fun e => s_origin (e_saved e)); outside (lua_call origin function arguments).

(** The calls of the runtime; [None] is the answer [LuaError]. *)
Definition driver_script (script : bytes) (arguments : list (bytes * bytes)) : act (option bytes) :=
  _ ← outside (fun w => (Done tt, lua_open w));
  m ← read e_cache;
  records ← lift_caught (of_option (SpiderCache.query (lit "record/") 128 [] m));
  ok ← run_lua (lua_bootstrap records) (lit "<string>");
  if negb ok then mret None
  else
    ok ← run_lua spider_lua_source (lit "lspider");
    if negb ok then mret None
    else
      ok ← run_lua lua_restrictions (lit "<string>");
      if negb ok then mret None
      else
        ok ← run_lua script (lit "spider-driver");
        if negb ok then mret None
        else
          exit ← call_lua (lit "main") arguments;
          match exit with
          | Some code => if code =s lit "0" then call_lua (lit "__spider_finish") [] else mret None
          | None => mret None
          end.

(** One staged operation: into the queue at once, or one more record. *)
Definition driver_operation (item : bytes) (puts : rows) : act rows :=
  operation ← lift_caught (of_option (unpack item));
  match operation with
  | [kind; key; value] =>
      if kind =s lit "enqueue" then depth ← lift_caught (integer value 32); _ ← enqueue key depth; mret puts
      else if kind =s lit "put" then
        if negb (nonempty key) || (128 <? size key) || (65536 <? size value) then raise ResourceLimit
        else mret (puts ++ [(record_key key, if sensitive key then lit "[REDACTED]" else value)])
      else raise LuaError
  | _ => raise LuaError
  end.

Fixpoint driver_operations (items : list bytes) (puts : rows) : act rows :=
  match items with
  | [] => mret puts
  | item :: items' => puts ← driver_operation item puts; driver_operations items' puts
  end.

Definition new_keys (m : store) (puts : rows) : gset bytes :=
  list_to_set (List.filter (fun key => negb (bool_decide (is_Some (SpiderCache.get key m)))) (map fst puts)).

(** The body of [try]. *)
Definition commit_operations (operations : bytes) : act unit :=
  items ← lift_caught (of_option (unpack operations));
  puts ← driver_operations items [];
  m ← read e_cache;
  count ← lift_caught (of_option (record_count m));
  if 1000 <? count + N.of_nat (base.size (new_keys m puts)) then raise ResourceLimit else snapshot 0 puts.

(** [catch (...)]: the queue and the set as they were, and the same exception. *)
Definition with_queue_of (old : Saved) : Saved -> Saved := fun s => with_frontier (s_frontier old) (with_seen (s_seen old) s).

Definition keeping_queue (m : act unit) : act unit := fun e =>
  match m e with
  | (Done a, e') => (Done a, e')
  | (failed, e') => (failed, (update_saved (with_queue_of (e_saved e)) e').2)
  end.

(** The runtime ends with the command, however that ends. *)
Definition closing_lua {A} (m : act A) : act A := fun e =>
  let '(r, e') := m e in (r, (outside (fun w => (Done tt, lua_close w)) e').2).

Fixpoint argument_pairs (l : list bytes) : list (bytes * bytes) :=
  match l with name :: value :: l' => (name, value) :: argument_pairs l' | _ => [] end.

(** [args] are those behind the name of the command. *)
Definition driver (args : list bytes) : act Reply :=
  if negb lua_available then fail_with "Unsupported"
  else
    match args with
    | script :: arguments =>
        if (65 <? length args)%nat || Nat.odd (length arguments) then fail_with "InvalidArgument"
        else if 256 * 1024 <? size script then fail_with "ResourceLimit"
        else closing_lua (
          operations ← driver_script script (argument_pairs arguments);
          match operations with
          | None => fail_with "LuaError"
          | Some operations => _ ← keeping_queue (commit_operations operations); status
          end)
    | [] => fail_with "InvalidArgument"
    end.

(** *** The choice of a command *)

Definition refused : act Reply := fail_with "InvalidArgument".

Definition cache_command (first : bytes) (others : list bytes) : act Reply :=
  if (first =s lit "select") && (1 <=? length others)%nat && (length others <=? 2)%nat then cache_select (default [] (others !! 0%nat)) (tail others)
  else if (first =s lit "put") && (length others =? 2)%nat then cache_put (default [] (others !! 0%nat)) (default [] (others !! 1%nat))
  else if (first =s lit "get") && (length others =? 1)%nat then cache_get (default [] (others !! 0%nat))
  else if (first =s lit "query") && (length others <=? 3)%nat then cache_query others
  else refused.

Definition command_body (args : list bytes) : act Reply :=
  match args with
  | [] => refused
  | cmd :: rest =>
      let given (word : string) := cmd =s lit word in
      match rest with
      | [] =>
          if given "status" then status
          else if given "pause" || given "resume" then
            _ ← change (set_paused (given "pause")); now ← steady; _ ← change (set_next now); _ ← save; status
          else if given "unwatch" then _ ← update_saved (with_watch [] 0 0); _ ← save; status
          else if given "create" || given "crawl" then start_crawl (given "create") rest
          else if given "driver" then driver rest
          else refused
      | first :: others =>
          if given "watch" && (1 <=? length others)%nat && (length others <=? 4)%nat then watch_command first (default [] (others !! 0%nat)) (tail others)
          else if given "create" || given "crawl" then start_crawl (given "create") rest
          else if given "enqueue" && (length others <=? 1)%nat then
            depth ← lift_caught (option_or others 0 32 0); _ ← enqueue first depth; _ ← save; status
          else if given "load-html" && (length others <=? 1)%nat then
            origin ← read (fun e => s_origin (e_saved e));
            url ← lift_caught (of_result (allowed origin (default (origin ++ lit "/") (others !! 0%nat))));
            _ ← outside (host_load origin first url); _ ← snapshot 0 []; status
          else if given "navigate" && (length others =? 0)%nat then
            origin ← read (fun e => s_origin (e_saved e));
            url ← lift_caught (of_result (allowed origin first));
            _ ← outside (host_navigate origin url); _ ← snapshot 0 []; status
          else if given "driver" then driver rest
          else if given "click" && (length others <=? 1)%nat then act_on_node first None (others !! 0%nat)
          else if given "type" && (1 <=? length others)%nat && (length others <=? 2)%nat then
            act_on_node first (Some (default [] (others !! 0%nat))) (others !! 1%nat)
          else if (given "query" || given "xpath") && (length others =? 0)%nat then query_page (given "query") first
          else if given "cache" then cache_command first others
          else refused
      end
  end.

(** ** The calls of the worker; [Failed] is an exception that leaves the engine *)

Definition tick : act bool := fun e =>
  match state e with
  | (Done before, _) =>
      match tick_body e with
      | (Done b, e') => (Done b, e')
      | (_, e') => (_ ← put_back before; _ ← change (set_paused true); mret false) e'
      end
  | (Raised x, _) => (Raised x, e)
  | (Failed, _) => (Failed, e)
  end.

Definition command (args : list bytes) : act Reply := fun e =>
  match state e with
  | (Done before, _) =>
      match command_body args e with
      | (Done reply, e') => (Done reply, e')
      | (Raised code, e') => (_ ← put_back before; mret (failure (error_to_string code))) e'
      | (Failed, e') => (_ ← put_back before; _ ← change (set_paused true); mret (failure (lit "StorageError"))) e'
      end
  | (Raised x, _) => (Raised x, e)
  | (Failed, _) => (Failed, e)
  end.

(** The constructor: the engine over a stored directory, paused.  The copy of the last page is given back to the session. *)
Definition opening (name : bytes) (m : store) (w : W) : Engine W :=
  {| e_name := name; e_saved := new_saved; e_seen_bytes := 0; e_paused := true; e_next := 0; e_robots_expiry := 0; e_robots := [];
     e_robots_available := false; e_cache := m; e_world := w |}.

Definition load_state : act unit :=
  m ← read e_cache; match SpiderCache.get (lit "state") m with Some data => put_back data | None => mret tt end.

Definition load_page : act unit :=
  m ← read e_cache;
  sequence ← read (fun e => s_sequence (e_saved e));
  if 0 <? sequence then
    match SpiderCache.get (page_key (sequence - 1)) m with
    | Some data =>
        fields ← lift_caught (of_option (unpack data));
        match fields with [url; _; _; html; _] => origin ← read (fun e => s_origin (e_saved e)); outside (host_load origin html url) | _ => mret tt end
    | None => mret tt
    end
  else mret tt.

Definition open_engine (name : bytes) (m : store) (w : W) : caught unit * Engine W :=
  if negb (valid_name name) then (Raised InvalidArgument, opening name m w)
  else (now ← steady; _ ← change (set_next now); _ ← load_state; _ ← load_page; _ ← change (set_paused true); save) (opening name m w).
End Engine.
