(* ===== verification/Crawl.v ===== *)
(** * Crawl: what the engine of [Spider] guarantees

    The invariant of the crawl, its durable form, the end of a crawl, the rules of [robots.txt] and the origin of
    every request, proved for any [Host] and any [Tools]. *)
From S2P Require Import Prelude Url Redaction Message Html HtmlTree Dom Selector SelectorMatch Document Robots Frame SpiderCache PageCopy Spider.
Local Open Scope N_scope.

(** ** URLs do not grow much *)

Definition short (n : N) (s : bytes) : Prop := size s <= n.

Lemma short_take n k s : short n s -> short n (take k s).
Proof. unfold short, size. rewrite length_take. lia. Qed.

Lemma short_drop n k s : short n s -> short n (drop k s).
Proof. unfold short, size. rewrite length_drop. lia. Qed.

Lemma short_lower n s : short n s -> short n (to_lower s).
Proof. unfold short, size, to_lower. by rewrite length_map. Qed.

Lemma short_nil n : short n [].
Proof. unfold short, size. cbn. lia. Qed.

Create HintDb short.
#[local] Hint Resolve short_take short_drop short_lower short_nil : short.

Lemma short_cut_off n p s : short n s -> short n (cut_off p s).1.1 /\ short n (cut_off p s).1.2.
Proof. unfold cut_off. intros H. destruct (find_if p s); cbn [fst snd]; auto with short. Qed.

Lemma short_cut_at n p s : short n s -> short n (cut_at p s).1 /\ short n (cut_at p s).2.
Proof. unfold cut_at. intros H. destruct (find_if p s); cbn [fst snd]; auto with short. Qed.

Lemma short_parse_authority n s ui h p : short n s -> parse_authority s = Ret (ui, h, p) -> short n ui /\ short n h /\ short n p.
Proof.
  intros H. unfold parse_authority.
  assert (short n (split_userinfo s).1 /\ short n (split_userinfo s).2) as [H1 H2] by (unfold split_userinfo; destruct (find_if _ s); cbn [fst snd]; auto with short).
  destruct (split_userinfo s) as [u a]. cbn [fst snd] in *. unfold split_host_port. destruct (starts_bracket a).
  - destruct (find_if _ a) as [k|]; [|done]. cbn [mbind result_bind]. intros [= <- <- <-]. split_and!; auto with short.
    pose proof (short_drop n (k + 1) a H2) as Hd. destruct (drop (k + 1) a) as [|c t]; [done|]. destruct (c =c ":"); [|auto with short].
    unfold short, size in *. cbn [length] in Hd. lia.
  - pose proof (short_cut_off n (fun c => c =c ":") a H2) as [H3 H4]. destruct (cut_off _ a) as [[h' p'] b]. cbn [mbind result_bind fst snd] in *.
    intros [= <- <- <-]. auto with short.
Qed.

Record short_url (n : N) (u : Url) : Prop := {
  short_scheme : short n (scheme u); short_userinfo : short n (userinfo u); short_host : short n (host u); short_port : short n (port u);
  short_path : short n (path u); short_query : short n (Url.query u); short_fragment : short n (fragment u) }.

Lemma short_parse_url n s u : short n s -> parse_url s = Ret u -> short_url n u.
Proof.
  intros H. unfold parse_url.
  assert (short n (split_scheme s).1 /\ short n (split_scheme s).2) as [H1 H2] by (unfold split_scheme; destruct (scheme_length s); cbn [fst snd]; auto with short).
  destruct (split_scheme s) as [sch rest]. cbn [fst snd] in *. set (b := starts_with _ rest).
  assert (short n (if b then cut_at is_authority_end (drop 2 rest) else ([], rest)).1 /\ short n (if b then cut_at is_authority_end (drop 2 rest) else ([], rest)).2) as [H3 H4].
  { destruct b; [apply short_cut_at; auto with short|auto with short]. }
  destruct (if b then cut_at _ _ else _) as [a r]. cbn [fst snd] in *. cbv zeta.
  destruct (if b then parse_authority a else Ret ([], [], [])) as [[[ui h] p]|e] eqn:Ea; [|done]. cbn [mbind result_bind].
  assert (short n ui /\ short n h /\ short n p) as (H5 & H6 & H7) by (destruct b; [by apply (short_parse_authority n a)|injection Ea as <- <- <-; auto with short]).
  pose proof (short_cut_off n (fun c => c =c "#") r H4) as [H8 H9]. destruct (cut_off _ r) as [[r1 f] hf]. cbn [fst snd] in *.
  pose proof (short_cut_off n (fun c => c =c "?") r1 H8) as [H10 H11]. destruct (cut_off _ r1) as [[r2 q] hq]. cbn [fst snd] in *.
  intros [= <-]. by constructor.
Qed.

Lemma short_origin n u : short_url n u -> short (3 * n + 4) (origin u).
Proof.
  intros [H1 H2 H3 H4 H5 H6 H7]. unfold origin, short in *. destruct (has_authority u); [|unfold size; cbn; lia].
  rewrite !size_app. change (size (lit "://")) with 3. destruct (nonempty (port u)); cbn [opt_bytes]; unfold size in *; cbn [length]; lia.
Qed.

Lemma size_opt b s : size (opt_bytes b s) <= size s.
Proof. destruct b; cbn [opt_bytes]; unfold size; cbn [length]; lia. Qed.

Lemma size_cons c s : size (c :: s) = 1 + size s.
Proof. unfold size. cbn [length]. lia. Qed.

Lemma short_to_string n u : short_url n u -> short (7 * n + 8) (to_string u).
Proof.
  intros [H1 H2 H3 H4 H5 H6 H7]. unfold to_string, authority_string, short in *. rewrite !size_app.
  pose proof (size_opt (nonempty (scheme u)) (scheme u ++ lit ":")) as A1.
  pose proof (size_opt (has_authority u) (lit "//" ++ opt_bytes (nonempty (userinfo u)) (userinfo u ++ lit "@") ++ host u ++ opt_bytes (nonempty (port u)) (":"%char :: port u))) as A2.
  pose proof (size_opt (nonempty (userinfo u)) (userinfo u ++ lit "@")) as A3. pose proof (size_opt (nonempty (port u)) (":"%char :: port u)) as A4.
  pose proof (size_opt (has_query u) ("?"%char :: Url.query u)) as A5. pose proof (size_opt (has_fragment u) ("#"%char :: fragment u)) as A6.
  rewrite !size_app in *. rewrite !size_cons in *. change (size (lit ":")) with 1 in *. change (size (lit "//")) with 2 in *. change (size (lit "@")) with 1 in *. lia.
Qed.

Lemma rds_step_total output p : (length (rds_step output p).1 + length (rds_step output p).2 <= length output + length p)%nat.
Proof.
  assert (length (pop_segment output) <= length output)%nat as Hpop by (unfold pop_segment; destruct (find_last_if _ output); cbn [length]; rewrite ?length_take; lia).
  unfold rds_step.
  repeat match goal with
  | |- context [if starts_with ?a ?b then _ else _] => destruct (starts_with a b) eqn:?; [cbn [fst snd]; rewrite ?length_drop; lia|]
  | |- context [if ?x =s ?y then _ else _] => let E := fresh "E" in destruct (x =s y) eqn:E; [apply eqb_bytes_true in E; rewrite E; cbn [fst snd]; change (length (lit "/")) with 1%nat; (change (length (lit "/.")) with 2%nat || change (length (lit "/..")) with 3%nat); lia|]
  end.
  destruct (_ || _); [cbn [fst snd length]; lia|]. cbv zeta. destruct (find_if is_slash _) as [n|]; cbn [fst snd]; rewrite length_app; [|cbn [length]; lia].
  rewrite length_take, length_drop. lia.
Qed.

Lemma rds_loop_total fuel output p : (length (rds_loop fuel output p) <= length output + length p)%nat.
Proof.
  revert output p. induction fuel as [|fuel IH]; intros output [|c p]; cbn [rds_loop]; try lia. pose proof (rds_step_total output (c :: p)) as H.
  destruct (rds_step output (c :: p)) as [o p']. cbn [fst snd] in H. specialize (IH o p'). lia.
Qed.

Lemma short_normalize n u : short_url n u -> short_url (n + 1) (normalize u).
Proof.
  intros [H1 H2 H3 H4 H5 H6 H7]. assert (forall m s, short m s -> short (m + 1) s) as Hm by (unfold short; lia).
  assert (short n (remove_dot_segments (path u))) as Hp.
  { unfold short, size, remove_dot_segments in *. pose proof (rds_loop_total (length (path u)) [] (path u)) as H. cbn [length] in H. lia. }
  unfold normalize. cbv zeta. match goal with |- short_url _ (default_path ?x) => set (v := x) end.
  assert (short_url n v) as [G1 G2 G3 G4 G5 G6 G7].
  { subst v. destruct (_ || _); constructor; cbn [scheme userinfo host port path Url.query fragment with_port]; auto with short. }
  assert (short (n + 1) (lit "/")) as Hs by (unfold short, size; change (length (lit "/")) with 1%nat; lia).
  clearbody v. unfold default_path. destruct (_ && _); constructor; cbn [scheme userinfo host port path Url.query fragment with_path]; first [exact Hs | apply Hm; assumption].
Qed.

(** The longest URL, and the longest origin, that the crawl handles. *)
Definition url_bound : N := 250000.
Definition origin_bound : N := 800000.

Lemma canonical_short t u : canonical t = Ret u -> short url_bound u.
Proof.
  unfold canonical. intros (? & Ht%throw_if_Ret & (z & Hz & (x & Hx & (? & _ & [= <-])%bind_Ret)%bind_Ret)%bind_Ret)%bind_Ret.
  apply orb_false_elim in Ht as [Ht _]. apply N.ltb_ge in Ht. unfold normalize_url in Hz. apply bind_Ret in Hz as (y & Hy & [= <-]).
  assert (short_url 4096 y) as Hu by (by apply (short_parse_url _ t)). apply short_normalize, short_to_string in Hu.
  assert (short_url (7 * (4096 + 1) + 8) x) as [P1 P2 P3 P4 P5 P6 P7] by (by apply (short_parse_url _ (to_string (normalize y)))).
  assert (short_url (7 * (4096 + 1) + 8) (without_fragment x)) as Hw.
  { constructor; cbn [without_fragment scheme userinfo host port path Url.query fragment]; auto with short. destruct (nonempty (path x)); [done|unfold short, size; change (length (lit "/")) with 1%nat; lia]. }
  apply short_to_string in Hw. unfold short, url_bound in *. lia.
Qed.

Lemma origin_short s u : short url_bound s -> parse_url s = Ret u -> short origin_bound (origin u).
Proof. intros H Hu. apply (short_parse_url _ _ _ H), short_origin in Hu. unfold short, url_bound, origin_bound in *. lia. Qed.

(** ** The invariant of the durable state *)

Definition sum {A} (f : A -> N) (l : list A) : N := foldr (fun x n => f x + n) 0 l.

Lemma sum_app {A} (f : A -> N) l k : sum f (l ++ k) = sum f l + sum f k.
Proof. induction l as [|x l IH]; cbn; [done|]. unfold sum in *. rewrite IH. lia. Qed.

Lemma sum_perm {A} (f : A -> N) l k : l ≡ₚ k -> sum f l = sum f k.
Proof. unfold sum. induction 1; cbn; lia. Qed.

(** How many attempts are left: for the pages of the queue, and for those that still fit into the set. *)
Definition chances (t : Task) : N := max_retries + 1 - t_attempts t.
Definition work (s : Saved) : N := sum chances (s_frontier s) + 4 * (max_frontier - N.of_nat (base.size (s_seen s))).

Definition task_ok (s : Saved) (t : Task) : Prop := t_url t ∈ s_seen s /\ t_depth t <= max_depth (s_options s) /\ t_attempts t <= max_retries.

Record crawl_ok (s : Saved) (seen_bytes : N) : Prop := {
  ok_tasks : Forall (task_ok s) (s_frontier s);
  ok_once : NoDup (t_url <$> s_frontier s);
  ok_urls : forall u, u ∈ s_seen s -> exists t, allowed (s_origin s) t = Ret u;
  ok_size : N.of_nat (base.size (s_seen s)) <= max_frontier;
  ok_bytes : seen_bytes = seen_size (s_seen s) /\ seen_bytes <= max_seen_bytes;
  ok_options : 1 <= max_pages (s_options s) <= 10000 /\ max_depth (s_options s) <= 32 /\ interval_ms (s_options s) <= 3600000;
  ok_pages : s_pages s <= max_pages (s_options s);
  ok_work : s_errors s + s_pages s + work s <= 4 * max_frontier;
  ok_watch : s_watch_seconds s <= 86400 * 30 /\ s_revisit_at s <= 10000000000;
  ok_lengths : short url_bound (s_watch_url s) /\ short origin_bound (s_origin s) }.

Lemma new_saved_ok : crawl_ok new_saved 0.
Proof.
  constructor; cbn [new_saved s_frontier s_seen s_options s_pages s_errors s_watch_url s_watch_seconds s_revisit_at s_origin max_pages max_depth interval_ms];
    try (split_and!; lia); [constructor|constructor|set_solver|rewrite size_empty; unfold max_frontier; lia|split; [done|unfold max_seen_bytes; lia]|lia| |split; apply short_nil].
  vm_compute. done.
Qed.

(** ** Reading the durable state *)

Lemma integer_print n m : n <= m -> m < 2 ^ 64 -> integer (print_N n) m = Done n.
Proof.
  intros H Hm. unfold integer. rewrite size_number_print by lia. apply N.ltb_ge in H as ->. done.
Qed.

Lemma packed_size l : size (packed l) <= sum (fun v => size v + 11) l \/ exists v, v ∈ l /\ max_message_bytes < size v.
Proof.
  induction l as [|v l [IH|(w & Hw & H)]]; [left; unfold packed, size; cbn; lia| |right; exists w; split; [set_solver|done]].
  destruct (N.le_gt_cases (size v) max_message_bytes) as [Hv|Hv]; [left|right; exists v; split; [set_solver|done]].
  unfold packed in *. rewrite mjoin_fmap_cons, size_app.
  assert (size (pack_one v) = size (print_N (size v)) + (1 + size v)) as -> by (unfold pack_one; by rewrite !size_app).
  destruct (print_length_text v Hv) as (_ & _ & Hl & _). assert (size (print_N (size v)) <= 10) as Hp by (unfold size at 1; lia). unfold sum in *. cbn [foldr]. lia.
Qed.

Lemma pack_fits l b : sum (fun v => size v + 11) l <= b -> b <= max_message_bytes -> exists s, pack l = Some s /\ size s <= b.
Proof.
  intros Hs Hb. assert (size (packed l) <= b) as H.
  { destruct (packed_size l) as [H|(v & Hv & H)]; [lia|]. exfalso. enough (size v + 11 <= sum (fun v => size v + 11) l) by lia. clear -Hv.
    unfold sum. induction Hv as [v l|v w l _ IH]; cbn [foldr]; [lia|]. etransitivity; [exact IH|]. lia. }
  exists (packed l). split; [|done]. apply pack_Some. split; [done|lia].
Qed.

Lemma print_short n k : n < 10 ^ N.of_nat (S k) -> size (print_N n) <= N.of_nat (S k).
Proof. intros H. pose proof (print_loop_short (S (N.size_nat n)) n k H) as Hl. unfold size, print_N. lia. Qed.

Lemma pack_task_fits t : short max_seen_bytes (t_url t) -> t_depth t <= 32 -> t_attempts t <= 3 -> exists s, pack_task t = Some s /\ size s <= size (t_url t) + 36.
Proof.
  intros Hu Hd Ha. apply pack_fits.
  - unfold sum. cbn [foldr]. pose proof (print_short (t_depth t) 1) as H1. pose proof (print_short (t_attempts t) 0) as H2.
    change (10 ^ N.of_nat 2) with 100 in H1. change (10 ^ N.of_nat 1) with 10 in H2. lia.
  - unfold short, max_seen_bytes, max_message_bytes in *. lia.
Qed.

Lemma few_values n : (n <=? 100 = true)%nat -> (n <= max_values)%nat.
Proof.
  intros H%Nat.leb_le. assert (100 <= max_values)%nat by (apply Nat.leb_le; vm_compute; reflexivity). lia.
Qed.

Lemma many_values n : N.of_nat n <= max_frontier -> (n <= max_values)%nat.
Proof.
  assert (N.of_nat max_values = 30000) as E by (vm_compute; reflexivity). unfold max_frontier. lia.
Qed.

Lemma pack_tasks ts n : Forall (fun t => short max_seen_bytes (t_url t) /\ t_depth t <= 32 /\ t_attempts t <= 3) ts -> n + N.of_nat (length ts) <= max_frontier ->
  exists l, mapM pack_task ts = Some l /\ sum (fun v => size v + 11) l <= sum (fun t => size (t_url t) + 47) ts /\ length l = length ts /\ read_tasks l n = Done ts.
Proof.
  revert n. induction ts as [|t ts IH]; intros n Hts Hn; [exists []; split_and!; try done; reflexivity|]. apply Forall_cons in Hts as [(Hu & Hd & Ha) Hts].
  destruct (pack_task_fits t Hu Hd Ha) as (s & Hs & Hsize). cbn [length] in Hn. destruct (IH (n + 1) Hts) as (l & Hl & Hsum & Hlen & Hread); [lia|].
  exists (s :: l). cbn [mapM]. rewrite Hs, Hl. split_and!; [done|unfold sum in *; cbn [foldr]; lia|cbn [length]; by rewrite Hlen|].
  cbn [read_tasks]. rewrite (unpack_pack [t_url t; print_N (t_depth t); print_N (t_attempts t)] s Hs) by by apply few_values.
  cbn [of_option mbind caught_bind]. destruct (N.leb_spec max_frontier n); [lia|]. rewrite !integer_print by lia. cbn [mbind caught_bind]. rewrite Hread. cbn [mbind caught_bind].
  by destruct t.
Qed.

Lemma sum_submseteq {A} (f : A -> N) l k : l ⊆+ k -> sum f l <= sum f k.
Proof. unfold sum. induction 1; cbn [foldr]; lia. Qed.

Lemma sum_const {A} (f : A -> N) c l : sum (fun x => f x + c) l = sum f l + c * N.of_nat (length l).
Proof. unfold sum. induction l as [|x l IH]; cbn [foldr length]; lia. Qed.

Lemma sum_map {A B} (f : B -> N) (g : A -> B) l : sum f (g <$> l) = sum (fun x => f (g x)) l.
Proof. unfold sum. induction l as [|x l IH]; cbn; [done|]. f_equal. exact IH. Qed.

Lemma ordered_perm l : ordered l ≡ₚ elements l.
Proof. apply merge_sort_Permutation. Qed.

Lemma seen_sum l : sum size (ordered l) = seen_size l.
Proof. rewrite (sum_perm _ _ _ (ordered_perm l)). done. Qed.

Lemma seen_member u l : u ∈ l -> size u <= seen_size l.
Proof.
  intros H%elem_of_elements. unfold seen_size. induction H as [v k|v w k _ IH]; cbn [foldr]; lia.
Qed.

Lemma frontier_sum s b : crawl_ok s b -> sum (fun t => size (t_url t)) (s_frontier s) <= seen_size (s_seen s) /\ N.of_nat (length (s_frontier s)) <= max_frontier.
Proof.
  intros Hok. assert ((t_url <$> s_frontier s) ⊆+ elements (s_seen s)) as Hsub.
  { apply NoDup_submseteq; [apply Hok|]. intros u (t & -> & Ht)%list_elem_of_fmap. apply elem_of_elements. pose proof (ok_tasks s b Hok) as Hts. rewrite Forall_forall in Hts. by apply Hts. }
  split; [rewrite <- (sum_map size t_url); by apply sum_submseteq|]. apply submseteq_length in Hsub. rewrite length_fmap in Hsub. pose proof (ok_size s b Hok) as Hs. unfold base.size, set_size in Hs. cbn in Hs. lia.
Qed.

(** The durable state is always written, and it reads back. *)
Lemma restore_state_text s b : crawl_ok s b -> s_sequence s <= 1000000000 -> exists t, state_text s = Done t /\ restore t = Done (s, b).
Proof.
  intros Hok Hseq. destruct (frontier_sum s b Hok) as [Hfs Hfl]. destruct (ok_bytes s b Hok) as [Eb Hb].
  destruct (pack_tasks (s_frontier s) 0) as (l & Hl & Hsum & Hlen & Hread); [|lia|].
  { apply Forall_forall. intros t Ht. pose proof (ok_tasks s b Hok) as Hts. rewrite Forall_forall in Hts. destruct (Hts t Ht) as (H1 & H2 & H3). apply seen_member in H1.
    destruct (ok_options s b Hok) as (_ & H4 & _). unfold short, max_retries in *. lia. }
  rewrite (sum_const (fun t => size (t_url t)) 47) in Hsum. unfold max_seen_bytes, max_frontier in *.
  destruct (pack_fits l (1024 * 1024 + 47 * 10000)) as (tasks & Htasks & Hts); [lia|unfold max_message_bytes; lia|].
  destruct (pack_fits (ordered (s_seen s)) (1024 * 1024 + 11 * 10000)) as (seen & Hseen & Hss); [|unfold max_message_bytes; lia|].
  { rewrite sum_const, seen_sum, (Permutation_length (ordered_perm _)). pose proof (ok_size s b Hok) as Hsz. unfold max_frontier in Hsz. change (length (elements (s_seen s))) with (base.size (s_seen s)). lia. }
  destruct (ok_options s b Hok) as (O1 & O2 & O3). destruct (ok_watch s b Hok) as (W1 & W2). destruct (ok_lengths s b Hok) as (L1 & L2).
  pose proof (ok_pages s b Hok) as Hp. pose proof (ok_work s b Hok) as Hw. unfold max_frontier in Hw.
  set (fields := [lit "2"; s_origin s; print_N (max_pages (s_options s)); print_N (max_depth (s_options s)); print_N (interval_ms (s_options s));
    print_N (s_pages s); print_N (s_sequence s); print_N (s_errors s); tasks; seen; s_watch_url s; print_N (s_watch_seconds s); print_N (s_revisit_at s)]).
  destruct (pack_fits fields max_message_bytes) as (t & Ht & _); [|done|].
  { subst fields. unfold sum. cbn [foldr]. assert (forall n, n <= 10000000000 -> size (print_N n) <= 11) as Hprint.
    { intros n Hn. apply (print_short n 10). change (10 ^ N.of_nat 11) with 100000000000. lia. }
    unfold short, url_bound, origin_bound in *. pose proof (Hprint (max_pages (s_options s))). pose proof (Hprint (max_depth (s_options s))). pose proof (Hprint (interval_ms (s_options s))).
    pose proof (Hprint (s_pages s)). pose proof (Hprint (s_sequence s)). pose proof (Hprint (s_errors s)). pose proof (Hprint (s_watch_seconds s)). pose proof (Hprint (s_revisit_at s)).
    change (size (lit "2")) with 1. unfold max_message_bytes. lia. }
  exists t. unfold state_text. rewrite Hl, Hseen. cbn [of_option mbind option_bind caught_bind]. rewrite Htasks. cbn [of_option mbind caught_bind]. fold fields. split; [by rewrite Ht|].
  unfold restore. rewrite (unpack_pack fields t Ht) by by apply few_values. subst fields. cbn [of_option mbind caught_bind]. change (lit "2" =s lit "2") with true. cbn [negb].
  rewrite !integer_print by lia. cbn [mbind caught_bind]. rewrite (unpack_pack l tasks Htasks) by (apply many_values; unfold max_frontier; lia).
  cbn [of_option mbind caught_bind]. rewrite Hread. cbn [mbind caught_bind]. rewrite (unpack_pack (ordered (s_seen s)) seen Hseen).
  2: { apply many_values. rewrite (Permutation_length (ordered_perm _)). apply (ok_size s b Hok). }
  cbn [of_option mbind caught_bind]. cbv zeta.
  assert (list_to_set (ordered (s_seen s)) = s_seen s) as ->.
  { apply leibniz_equiv. rewrite ordered_perm. apply list_to_set_elements. }
  change (foldr (fun u n => size u + n) 0 (ordered (s_seen s))) with (sum size (ordered (s_seen s))). rewrite seen_sum, <- Eb.
  pose proof (ok_size s b Hok) as Hsz. apply N.ltb_ge in Hsz as ->. unfold max_seen_bytes. apply N.ltb_ge in Hb as ->. cbn [orb]. by destruct s as [? [] ? ? ? ? ? ? ? ?].
Qed.

(** ** Reasoning about the engine *)

(** A state that can be stored and read back. *)
Definition durable (s : Saved) (b : N) : Prop := crawl_ok s b /\ s_sequence s <= 1000000000.

(** The state in the database, if there is one, is one that can be restored, and the pages can be unpacked. *)
Definition disk_ok (m : store) : Prop :=
  (forall t, m !! lit "state" = Some t -> exists s b, durable s b /\ state_text s = Done t) /\
  (forall n data, m !! page_key n = Some data -> is_Some (unpack data)).

Definition row_ok (row : bytes * bytes) : Prop := forall n, row.1 = page_key n -> is_Some (unpack row.2).

Lemma page_key_state n : page_key n <> lit "state".
Proof. done. Qed.

Lemma rows_ok puts : forall (m : store), Forall row_ok puts -> (forall n data, m !! page_key n = Some data -> is_Some (unpack data)) ->
  forall n data, foldl (fun m '(key, value) => <[key := value]> m) m puts !! page_key n = Some data -> is_Some (unpack data).
Proof.
  induction puts as [|[key value] puts IH]; intros m Hp Hm n data; [apply Hm|]. apply Forall_cons in Hp as [Hr Hp]. cbn [foldl]. apply IH; [done|].
  intros k d. destruct (decide (key = page_key k)) as [E|Hne]; [rewrite E, lookup_insert_eq; intros [= <-]; by apply (Hr k)|rewrite lookup_insert_ne by done; apply Hm].
Qed.

(** Run the first steps of an action. *)
Ltac run_act := cbv beta iota zeta delta [mbind act_bind mret act_ret read lift_caught change raise]; cbn [e_saved e_seen_bytes e_cache e_world e_paused e_next set_saved].

Section Crawl.
Context {W : Type} {host : Host W} {tools : Tools W}.

Definition disk_kept (e e' : Engine W) : Prop := disk_ok (e_cache e) -> disk_ok (e_cache e').

(** What holds when an action is done; however it ends, the database stays one that can be restored. *)
Definition ensures {A} (P : Engine W -> Prop) (m : act A) (Q : A -> Engine W -> Prop) : Prop :=
  forall e, P e -> match m e with (Done a, e') => Q a e' /\ disk_kept e e' | (_, e') => disk_kept e e' end.

Lemma disk_kept_same e e' : e_cache e' = e_cache e -> disk_kept e e'.
Proof. by intros E H; rewrite E. Qed.

Lemma disk_kept_trans e1 e2 e3 : disk_kept e1 e2 -> disk_kept e2 e3 -> disk_kept e1 e3.
Proof. unfold disk_kept. auto. Qed.

#[local] Hint Resolve disk_kept_same : core.

Lemma ensures_from {A} (m : act A) Q e0 e : disk_kept e0 e -> match m e with (Done a, e') => Q a e' /\ disk_kept e e' | (_, e') => disk_kept e e' end ->
  match m e with (Done a, e') => Q a e' /\ disk_kept e0 e' | (_, e') => disk_kept e0 e' end.
Proof. intros H. destruct (m e) as [[a|x|] e']; [intros [H1 H2]; split; [done|]|..]; eauto using disk_kept_trans. Qed.

Lemma ensures_bind {A B} P (m : act A) (k : A -> act B) Q R : ensures P m Q -> (forall a, ensures (Q a) (k a) R) -> ensures P (x ← m; k x) R.
Proof.
  intros Hm Hk e He. specialize (Hm e He). unfold mbind, act_bind. destruct (m e) as [[a|x|] e']; [|exact Hm..]. destruct Hm as [Hq Hd].
  apply ensures_from with (e := e'); [exact Hd|]. by apply Hk.
Qed.

Lemma ensures_weaken {A} (P P' : Engine W -> Prop) (m : act A) (Q Q' : A -> Engine W -> Prop) :
  ensures P' m Q' -> (forall e, P e -> P' e) -> (forall a e, Q' a e -> Q a e) -> ensures P m Q.
Proof. intros Hm HP HQ e He. specialize (Hm e (HP e He)). destruct (m e) as [[a|x|] e']; [|done..]. destruct Hm. auto. Qed.

Lemma ensures_ret {A} (a : A) (P : Engine W -> Prop) (Q : A -> Engine W -> Prop) : (forall e, P e -> Q a e) -> ensures P (mret a) Q.
Proof. intros H e He. split; [by apply H|auto]. Qed.

Lemma ensures_read {A} (f : Engine W -> A) (P : Engine W -> Prop) : ensures P (read f) (fun a e => P e /\ a = f e).
Proof. intros e He. split; [done|auto]. Qed.

Lemma ensures_change f (P Q : Engine W -> Prop) : (forall e, e_cache (f e) = e_cache e) -> (forall e, P e -> Q (f e)) -> ensures P (change f) (fun _ => Q).
Proof. intros Hc H e He. split; [by apply H|auto]. Qed.

Lemma ensures_lift {A} (m : caught A) (P : Engine W -> Prop) : ensures P (lift_caught m) (fun a e => P e /\ m = Done a).
Proof. intros e He. unfold lift_caught. destruct m; [split; [done|]|..]; auto. Qed.

(** An assertion about the durable state, the number of bytes, the queue of pages and the store only. *)
Definition memory (e : Engine W) : Saved * N * store * bool := (e_saved e, e_seen_bytes e, e_cache e, e_paused e).
Definition about (P : Engine W -> Prop) : Prop := forall e e', memory e = memory e' -> P e -> P e'.

Lemma ensures_outside {A} (f : W -> caught A * W) P : about P -> ensures P (outside f) (fun _ => P).
Proof. intros Hab e He. unfold outside. destruct (f (e_world e)) as [[a|x|] w]; [split; [by apply (Hab e)|]|..]; auto. Qed.

Lemma ensures_steady P : about P -> ensures P steady (fun _ => P).
Proof. apply ensures_outside. Qed.

Lemma ensures_robots P expiry rules available : about P -> ensures P (change (fun e => set_robots (expiry e) (rules e) (available e) e)) (fun _ => P).
Proof. intros Hab. apply ensures_change; [done|]. intros e He. by apply (Hab e). Qed.

Lemma ensures_next P t : about P -> ensures P (change (set_next t)) (fun _ => P).
Proof. intros Hab. apply ensures_change; [done|]. intros e He. by apply (Hab e). Qed.

(** Bind an action that keeps an assertion. *)
Lemma ensures_keep {A B} P (m : act A) (k : A -> act B) R : ensures P m (fun _ => P) -> (forall a, ensures P (k a) R) -> ensures P (x ← m; k x) R.
Proof. apply ensures_bind. Qed.

Lemma read_keep {A} (f : Engine W -> A) P : ensures P (read f) (fun _ => P).
Proof. intros e He. split; [done|auto]. Qed.

Lemma lift_keep {A} (m : caught A) P : ensures P (lift_caught m) (fun _ => P).
Proof. intros e He. unfold lift_caught. destruct m; [split; [done|]|..]; auto. Qed.

Lemma refresh_keep P : about P -> ensures P refresh_robots (fun _ => P).
Proof.
  intros Hab. unfold refresh_robots, request. apply ensures_keep; [by apply ensures_steady|]. intros now. apply ensures_keep; [apply read_keep|]. intros expiry.
  destruct (expiry <=? now); [|by apply ensures_ret]. apply ensures_keep; [by apply ensures_robots|]. intros _. apply ensures_keep; [apply read_keep|]. intros origin.
  apply ensures_keep; [apply ensures_keep; [apply read_keep|intros o; by apply ensures_outside]|]. intros response. apply ensures_keep; [by apply ensures_robots|]. intros _.
  apply ensures_keep; [apply lift_keep|]. intros rules. apply ensures_keep; [by apply ensures_robots|]. intros _. apply ensures_keep; [by apply ensures_steady|]. intros t.
  by apply ensures_robots.
Qed.

Lemma robots_allow_keep url P : about P -> ensures P (robots_allow url) (fun _ => P).
Proof.
  intros Hab. unfold robots_allow. apply ensures_keep; [by apply refresh_keep|]. intros _. apply ensures_keep; [apply read_keep|]. intros available.
  destruct (negb available); [apply lift_keep|]. apply ensures_keep; [apply lift_keep|]. intros u. apply ensures_keep; [apply read_keep|]. intros rules. by apply ensures_ret.
Qed.

(** What the database holds is the state. *)
Definition synced (e : Engine W) : Prop := exists t, state_text (e_saved e) = Done t /\ e_cache e !! lit "state" = Some t.

(** A transaction that ends with the state: it is committed as a whole, or nothing changes. *)
Lemma cache_write_spec puts key value e :
  match cache_write (puts ++ [(key, value)]) e with
  | (Done tt, e') => e_saved e' = e_saved e /\ e_seen_bytes e' = e_seen_bytes e /\ e_paused e' = e_paused e /\
                     e_cache e' = <[key := value]> (foldl (fun m '(key, value) => <[key := value]> m) (e_cache e) puts)
  | (_, e') => e_cache e' = e_cache e
  end.
Proof.
  unfold cache_write, mbind, act_bind, read, write. destruct (existsb bad_put _); [done|]. unfold committing, outside. destruct (commits (e_world e)) as [[] w]; [|done].
  cbn. split_and!; [done..|]. by rewrite foldl_app.
Qed.

(** The durable state and the number of bytes. *)
Definition holds (s : Saved) (b : N) (e : Engine W) : Prop := e_saved e = s /\ e_seen_bytes e = b.

Lemma holds_about s b : about (holds s b).
Proof. intros e e' [= H1 H2 H3 H4] [H5 H6]. split; congruence. Qed.

Lemma write_state s b puts t (Q : Engine W -> Prop) e : durable s b -> state_text s = Done t -> Forall row_ok puts ->
  (forall e', e_saved e' = e_saved e -> e_seen_bytes e' = e_seen_bytes e -> e_cache e' !! lit "state" = Some t -> Q e') ->
  match cache_write (puts ++ [(lit "state", t)]) e with (Done tt, e') => Q e' /\ disk_kept e e' | (_, e') => disk_kept e e' end.
Proof.
  intros Hd Ht Hp HQ. pose proof (cache_write_spec puts (lit "state") t e) as H. destruct (cache_write _ e) as [[[]|x|] e']; [|by apply disk_kept_same..].
  destruct H as (H1 & H2 & _ & H3). split; [apply HQ; [done..|]; rewrite H3; apply lookup_insert_eq|]. intros [_ Hm]. rewrite H3. split.
  - intros t'. rewrite lookup_insert_eq. intros [= <-]. by exists s, b.
  - intros n data. rewrite lookup_insert_ne by done. by apply rows_ok.
Qed.

Lemma save_syncs s b : durable s b -> ensures (holds s b) save (fun _ e => holds s b e /\ synced e).
Proof.
  intros Hd e [<- <-]. unfold save, state. run_act. destruct (state_text (e_saved e)) as [t|x|] eqn:Et; [|auto..]. run_act.
  pose proof (write_state _ _ [] t (fun e' => holds (e_saved e) (e_seen_bytes e) e' /\ synced e') e Hd Et) as H. cbn [app] in H.
  destruct (cache_write [(lit "state", t)] e) as [[[]|x|] e']; (apply H; [by apply List.Forall_nil|]); intros e1 H1 H2 H3; (split; [done|]); exists t; by rewrite H1.
Qed.

Lemma more_snapshots_ok s b : crawl_ok s b -> crawl_ok (more_snapshots s) b.
Proof. intros [K1 K2 K3 K4 K5 K6 K7 K8 K9 K10]. by constructor. Qed.

Lemma snapshot_spec code puts s b : crawl_ok s b -> s_sequence s < 1000000000 -> Forall row_ok puts ->
  ensures (holds s b) (snapshot code puts) (fun _ e => (holds s b e \/ holds (more_snapshots s) b e) /\ synced e).
Proof.
  intros Hok Hseq Hputs e [<- <-]. unfold snapshot, update_saved, epoch_seconds, outside, state. run_act. destruct (host_document (e_world e)) as [doc|].
  - run_act. destruct (epoch_now (e_world e)) as [now w]. run_act. destruct (of_result (sanitized_html doc)) as [html|x|]; [|by apply disk_kept_same..]. run_act.
    destruct (of_result (title doc)) as [ti|x|]; [|by apply disk_kept_same..]. run_act. destruct (of_option (pack _)) as [value|x|] eqn:Ep; [|by apply disk_kept_same..]. run_act.
    destruct (state_text _) as [t|x|] eqn:Et; [|by apply disk_kept_same..]. run_act.
    change [(page_key (s_sequence (e_saved e)), value); (lit "state", t)] with ([(page_key (s_sequence (e_saved e)), value)] ++ [(lit "state", t)]). rewrite app_assoc.
    match goal with |- match cache_write (?rows ++ [_]) ?e1 with _ => _ end => pose proof (write_state (more_snapshots (e_saved e)) (e_seen_bytes e) rows t
      (fun e' => (holds (e_saved e) (e_seen_bytes e) e' \/ holds (more_snapshots (e_saved e)) (e_seen_bytes e) e') /\ synced e') e1) as H end.
    assert (durable (more_snapshots (e_saved e)) (e_seen_bytes e)) as Hd by (split; [by apply more_snapshots_ok|cbn; lia]).
    assert (row_ok (page_key (s_sequence (e_saved e)), value)) as Hrow.
    { intros n _. cbn [snd]. destruct (pack _) as [v|] eqn:Ev in Ep; [|done]. injection Ep as <-. apply unpack_pack in Ev; [by eexists|]. apply few_values. reflexivity. }
    destruct (cache_write _ _) as [[[]|x|] e']; (apply H; [done|done|by apply Forall_app; split; [done|apply Forall_singleton]|]); intros e2 H1 H2 H3; (split; [right; by split|]); exists t; by rewrite H1.
  - run_act. destruct (state_text _) as [t|x|] eqn:Et; [|by apply disk_kept_same..]. run_act.
    pose proof (write_state _ _ puts t (fun e' => (holds (e_saved e) (e_seen_bytes e) e' \/ holds (more_snapshots (e_saved e)) (e_seen_bytes e) e') /\ synced e') e (conj Hok (N.lt_le_incl _ _ Hseq)) Et) as H.
    destruct (cache_write (puts ++ [(lit "state", t)]) e) as [[[]|x|] e']; (apply H; [done|]); intros e1 H1 H2 H3; (split; [by left|]); exists t; by rewrite H1.
Qed.

(** ** The queue *)

Lemma add_ok s b u t d : crawl_ok s b -> allowed (s_origin s) t = Ret u -> u ∉ s_seen s -> d <= max_depth (s_options s) ->
  N.of_nat (base.size (s_seen s)) < max_frontier -> b + size u <= max_seen_bytes ->
  let s' := with_frontier (s_frontier s ++ [{| t_url := u; t_depth := d; t_attempts := 0 |}]) (with_seen ({[u]} ∪ s_seen s) s) in
  crawl_ok s' (b + size u) /\ work s' = work s.
Proof.
  intros Hok Hu Hn Hd Hsz Hb. cbv zeta. set (s' := with_frontier _ _).
  assert (base.size (s_seen s') = S (base.size (s_seen s))) as Es by (subst s'; cbn; rewrite size_union by set_solver; by rewrite size_singleton).
  assert (work s' = work s) as Ew.
  { unfold work. rewrite Es. subst s'. cbn [with_frontier with_seen s_frontier s_seen]. rewrite sum_app. unfold sum at 2. cbn [foldr]. unfold chances at 2. cbn [t_attempts]. unfold max_retries. lia. }
  split; [|done]. destruct Hok as [K1 K2 K3 K4 K5 K6 K7 K8 K9 K10]. constructor; try done.
  - change (s_frontier s') with (s_frontier s ++ [{| t_url := u; t_depth := d; t_attempts := 0 |}]). apply Forall_app. split.
    + eapply Forall_impl; [exact K1|]. intros x (H1 & H2 & H3). split_and!; [|done..]. subst s'. cbn [s_seen with_seen with_frontier]. set_solver.
    + apply Forall_singleton. split_and!; [subst s'; cbn; set_solver|done|cbn; lia].
  - change (s_frontier s') with (s_frontier s ++ [{| t_url := u; t_depth := d; t_attempts := 0 |}]). rewrite fmap_app. apply NoDup_app. split_and!; [done| |apply NoDup_singleton]. intros x (k & -> & Hk)%list_elem_of_fmap H%list_elem_of_singleton.
    rewrite Forall_forall in K1. destruct (K1 k Hk) as [Hin _]. cbn in H. by rewrite H in Hin.
  - intros x. subst s'. cbn [s_seen with_seen with_frontier s_origin]. intros [->%elem_of_singleton|Hx]%elem_of_union; [by exists t|by apply K3].
  - rewrite Es. lia.
  - split; [|done]. destruct K5 as [-> _]. subst s'. cbn [s_seen with_seen with_frontier]. unfold seen_size.
    change (sum size (elements (s_seen s)) + size u = sum size (elements ({[u]} ∪ s_seen s))). rewrite (sum_perm size _ _ (elements_union_singleton (s_seen s) u Hn)). unfold sum. cbn [foldr]. lia.
  - rewrite Ew. done.
Qed.

Lemma enqueue_cases url d (e : Engine W) :
  enqueue url d e = (Done tt, e) \/ (exists x, enqueue url d e = (Raised x, e)) \/
  exists u, allowed (s_origin (e_saved e)) url = Ret u /\ u ∉ s_seen (e_saved e) /\ d <= max_depth (s_options (e_saved e)) /\
    N.of_nat (base.size (s_seen (e_saved e))) < max_frontier /\ e_seen_bytes e + size u <= max_seen_bytes /\ enqueue url d e = (Done tt, add_url u d e).
Proof.
  unfold enqueue. run_act. destruct (allowed (s_origin (e_saved e)) url) as [u|x]; [|right; left; by exists x]. cbn [of_result]. run_act.
  destruct (_ || _) eqn:E1; [by left|]. apply orb_false_elim in E1 as [Hd%N.ltb_ge Hn%bool_decide_eq_false]. run_act.
  destruct (_ || _) eqn:E2; [right; left; by eexists|]. apply orb_false_elim in E2 as [Hs%N.leb_gt Hb%N.ltb_ge]. right; right. exists u. done.
Qed.

(** When a watched crawl starts again its queue holds the first page. *)
Lemma restart_queue url (e : Engine W) : s_seen (e_saved e) = ∅ ->
  match enqueue url 0 e with (Done _, e') => s_frontier (e_saved e') <> [] | _ => True end.
Proof.
  intros Hs. unfold enqueue. run_act. destruct (allowed _ url) as [u|x]; [|done]. cbn [of_result]. run_act. rewrite Hs.
  rewrite (bool_decide_eq_false_2 (u ∈ ∅)) by set_solver. destruct (N.ltb_spec (max_depth (s_options (e_saved e))) 0); [lia|]. cbn [orb]. run_act.
  destruct (_ || _); [done|]. cbn. by destruct (s_frontier (e_saved e)).
Qed.

(** While a page is worked on: its task is the first one, the others and the set may grow, the work that is left stays. *)
Definition same_run (s s' : Saved) : Prop :=
  s_origin s' = s_origin s /\ s_options s' = s_options s /\ s_watch_url s' = s_watch_url s /\ s_watch_seconds s' = s_watch_seconds s /\ s_revisit_at s' = s_revisit_at s.

Definition same_counts (s s' : Saved) : Prop := s_pages s' = s_pages s /\ s_sequence s' = s_sequence s /\ s_errors s' = s_errors s.

Definition within (s0 : Saved) (task : Task) (e : Engine W) : Prop :=
  crawl_ok (e_saved e) (e_seen_bytes e) /\ work (e_saved e) = work s0 /\ same_run s0 (e_saved e) /\ same_counts s0 (e_saved e) /\ exists l, s_frontier (e_saved e) = task :: l.

Lemma within_about s0 task : about (within s0 task).
Proof. intros e e' [= H1 H2 H3 H4]. unfold within. by rewrite H1, H2. Qed.

Lemma enqueue_within s0 task url d e : within s0 task e -> within s0 task (enqueue url d e).2.
Proof.
  intros H. destruct (enqueue_cases url d e) as [->|[[x ->]|(u & A1 & A2 & A3 & A4 & A5 & ->)]]; [done..|]. cbn [snd].
  destruct H as (H1 & H2 & H3 & H4 & l & H5). destruct (add_ok _ _ u url d H1 A1 A2 A3 A4 A5) as [K1 K2]. unfold within, add_url. cbn [set_saved e_saved e_seen_bytes].
  split_and!; [done|by rewrite K2|done|done|]. cbn [with_frontier s_frontier]. rewrite H5. by eexists.
Qed.

Lemma enqueue_cache url d (e : Engine W) : e_cache (enqueue url d e).2 = e_cache e.
Proof. by destruct (enqueue_cases url d e) as [->|[[x ->]|(u & _ & _ & _ & _ & _ & ->)]]. Qed.

Lemma links_within s0 task doc l d : ensures (within s0 task) (enqueue_links doc l d) (fun _ => within s0 task).
Proof.
  induction l as [|link l IH]; intros e He; cbn [enqueue_links]; [split; [done|auto]|]. run_act.
  destruct (of_result _) as [target|x|]; [|destruct x; try (by apply IH); (split; [done|auto])|auto].
  pose proof (enqueue_within s0 task target d e He) as Hw. pose proof (enqueue_cache target d e) as Hc. destruct (enqueue target d e) as [[[]|x|] e']; cbn [snd] in Hw, Hc.
  - apply ensures_from with (e := e'); [auto|by apply IH].
  - destruct x; try (apply ensures_from with (e := e'); [auto|by apply IH]); (split; [done|auto]).
  - auto.
Qed.

(** ** One page *)

Lemma pop_ok s b task l p q r : crawl_ok s b -> s_frontier s = task :: l -> p + r <= s_pages s + s_errors s + 1 -> p <= max_pages (s_options s) ->
  crawl_ok (with_counts p q r (with_frontier l s)) b /\ work (with_counts p q r (with_frontier l s)) < work s.
Proof.
  intros [K1 K2 K3 K4 K5 K6 K7 K8 K9 K10] Hf Hpr Hp. rewrite Hf in K1, K2. apply Forall_cons in K1 as [(T1 & T2 & T3) K1]. apply NoDup_cons in K2 as [_ K2].
  assert (work (with_counts p q r (with_frontier l s)) < work s) as Hw.
  { assert (1 <= chances task) by (unfold chances, max_retries in *; lia). unfold work. rewrite Hf. cbn [with_counts with_frontier s_frontier s_seen]. unfold sum. cbn [foldr]. lia. }
  split; [|done]. constructor; try done. cbn [with_counts with_frontier s_errors s_pages]. lia.
Qed.

Lemma retry_ok s b task l n : crawl_ok s b -> s_frontier s = task :: l -> n = t_attempts task + 1 -> n <= max_retries ->
  crawl_ok (set_attempts n (more_errors s)) b /\ work (set_attempts n (more_errors s)) < work s.
Proof.
  intros [K1 K2 K3 K4 K5 K6 K7 K8 K9 K10] Hf -> Hn. unfold set_attempts, more_errors. cbn [with_counts s_frontier]. rewrite Hf in *.
  apply Forall_cons in K1 as [(T1 & T2 & T3) K1]. set (s' := with_frontier _ _).
  assert (work s' < work s) as Hw.
  { unfold work. rewrite Hf. subst s'. cbn [with_counts with_frontier s_frontier s_seen]. unfold sum. cbn [foldr]. unfold chances, max_retries in *. cbn [t_attempts]. lia. }
  split; [|done]. constructor; try done.
  - subst s'. cbn [with_counts with_frontier s_frontier]. apply Forall_cons. split; [split_and!; [done..|exact Hn]|done].
  - subst s'. cbn [with_counts with_frontier s_errors s_pages]. cbn [with_counts with_frontier s_errors s_pages] in *. lia.
Qed.

(** After a page: less work is left, and the state is in the database. *)
Definition progress (s0 : Saved) (e : Engine W) : Prop :=
  crawl_ok (e_saved e) (e_seen_bytes e) /\ work (e_saved e) < work s0 /\ same_run s0 (e_saved e) /\ s_sequence (e_saved e) <= s_sequence s0 + 1 /\ synced e.

Lemma progress_next s0 e t : progress s0 e -> progress s0 (set_next t e).
Proof. done. Qed.

Lemma save_progress s0 s b : crawl_ok s b -> work s < work s0 -> same_run s0 s -> s_sequence s <= s_sequence s0 -> s_sequence s0 < 1000000000 ->
  ensures (holds s b) save (fun _ => progress s0).
Proof.
  intros H1 H2 H3 H4 H5. eapply ensures_weaken; [apply (save_syncs s b); split; [done|lia]|by intros e He|]. intros _ e [[E1 E2] Hs]. unfold progress. rewrite E1, E2. split_and!; [done..|lia|done].
Qed.

Definition page_done (s0 : Saved) (r : attempted) (e : Engine W) : Prop :=
  match r with Retryable _ => True | _ => progress s0 e end.

Lemma update_holds f s b : ensures (holds s b) (update_saved f) (fun _ => holds (f s) b).
Proof. apply ensures_change; [done|]. intros e [<- <-]. done. Qed.

Lemma same_run_refl s : same_run s s.
Proof. done. Qed.

Lemma early_progress s0 b0 task l f (r : attempted) : crawl_ok s0 b0 -> s_sequence s0 < 1000000000 -> s_frontier s0 = task :: l -> r = Left_early ->
  (exists n, n <= 1 /\ f s0 = with_counts (s_pages s0) (s_sequence s0) (s_errors s0 + n) (with_frontier l s0)) ->
  ensures (holds s0 b0) (_ ← update_saved f; _ ← save; mret r) (page_done s0).
Proof.
  intros Hok Hseq Hf -> (n & Hn & E). pose proof (ok_pages s0 b0 Hok) as Hp. destruct (pop_ok s0 b0 task l (s_pages s0) (s_sequence s0) (s_errors s0 + n) Hok Hf) as [K1 K2]; [lia|done|].
  eapply ensures_bind; [apply update_holds|]. intros u1. rewrite E. eapply ensures_bind; [apply (save_progress s0); [exact K1|exact K2|done|cbn; lia|done]|]. intros u2. by apply ensures_ret.
Qed.

Lemma within_start s0 b0 task l e : crawl_ok s0 b0 -> s_frontier s0 = task :: l -> holds s0 b0 e -> within s0 task e.
Proof. intros H1 H2 [<- <-]. split_and!; [done..|by exists l]. Qed.

Lemma install_progress s0 task code : s_sequence s0 < 1000000000 -> s_pages s0 < max_pages (s_options s0) ->
  ensures (within s0 task) (_ ← update_saved (fun s => more_pages (pop_front s)); _ ← snapshot code []; mret Fetched) (page_done s0).
Proof.
  intros Hseq Hp e (H1 & H2 & H3 & (C1 & C2 & C3) & l & H5). set (s := e_saved e) in *. set (b := e_seen_bytes e) in *.
  assert (more_pages (pop_front s) = with_counts (s_pages s + 1) (s_sequence s) (s_errors s) (with_frontier l s)) as E by (unfold more_pages, pop_front; cbn; by rewrite H5).
  destruct H3 as (R1 & R2 & R3 & R4 & R5).
  destruct (pop_ok s b task l (s_pages s + 1) (s_sequence s) (s_errors s) H1 H5) as [K1 K2]; [lia|rewrite R2; lia|].
  assert (ensures (holds s b) (_ ← update_saved (fun s => more_pages (pop_front s)); _ ← snapshot code []; mret Fetched) (page_done s0)) as Hrun; [|by apply Hrun].
  eapply ensures_bind; [apply update_holds|]. intros u1. cbn beta. rewrite E. eapply ensures_bind; [apply snapshot_spec; [exact K1|cbn; lia|done]|]. intros u2. apply ensures_ret. intros e' [[[E1 E2]|[E1 E2]] Hs]; unfold page_done, progress; rewrite E1, E2.
  - split_and!; [done|lia|done|cbn; lia|done].
  - split_and!; [by apply more_snapshots_ok|change (work (with_counts (s_pages s + 1) (s_sequence s) (s_errors s) (with_frontier l s)) < work s0); lia|done|cbn; lia|done].
Qed.

Lemma attempt_spec s0 b0 task l : crawl_ok s0 b0 -> s_sequence s0 < 1000000000 -> s_frontier s0 = task :: l -> s_pages s0 < max_pages (s_options s0) ->
  ensures (holds s0 b0) (attempt task) (page_done s0).
Proof.
  intros Hok Hseq Hf Hp. unfold attempt, request. apply ensures_keep; [apply robots_allow_keep, holds_about|]. intros allowed_by. destruct (negb allowed_by).
  { apply (early_progress s0 b0 task l); [done..|]. exists 0. split; [lia|]. rewrite N.add_0_r. unfold pop_front. rewrite Hf. by destruct s0. }
  apply ensures_keep; [apply read_keep|]. intros interval. apply ensures_keep; [apply ensures_keep; [apply read_keep|intros o; apply ensures_outside, holds_about]|]. intros response.
  destruct (retryable response); [by apply ensures_ret|]. destruct (negb (ok response)).
  { apply (early_progress s0 b0 task l); [done..|]. exists 1. split; [lia|]. unfold pop_front, more_errors. cbn. by rewrite Hf. }
  eapply ensures_weaken with (P' := within s0 task) (Q' := page_done s0); [|intros e He; by apply (within_start s0 b0 task l)|done].
  apply ensures_keep; [apply read_keep|]. intros origin. apply ensures_keep; [destruct (nonempty _); [apply lift_keep|by apply ensures_ret]|]. intros url.
  apply ensures_keep; [apply ensures_outside, within_about|]. intros _. apply ensures_keep; [apply read_keep|]. intros limit. apply ensures_keep; [apply read_keep|]. intros doc.
  apply ensures_keep; [|intros _; by apply install_progress]. destruct (_ <? _); [|by apply ensures_ret]. destruct doc as [doc|]; [|by apply ensures_ret].
  apply ensures_keep; [apply lift_keep|]. intros ls. apply links_within.
Qed.

(** ** One step *)

Lemma put_back_spec s b t : restore t = Done (s, b) -> ensures (fun _ => True) (put_back t) (fun _ => holds s b).
Proof. intros Ht e _. unfold put_back. run_act. rewrite Ht. split; [done|auto]. Qed.

(** An error counts, and the page is dropped or tried again later. *)
Lemma handle_spec s0 b0 task l before code delay : crawl_ok s0 b0 -> s_sequence s0 < 1000000000 -> s_frontier s0 = task :: l -> restore before = Done (s0, b0) ->
  ensures (fun _ => True) (handle task before code delay) (fun _ => progress s0).
Proof.
  intros Hok Hseq Hf Hb. pose proof (ok_pages s0 b0 Hok) as Hp. unfold handle. eapply ensures_bind; [by apply put_back_spec|]. intros u1.
  eapply ensures_bind; [apply update_holds|]. intros u2. cbv zeta. destruct (_ || _) eqn:E.
  - eapply ensures_bind; [apply update_holds|]. intros u3. eapply ensures_bind with (Q := fun _ => progress s0); [|intros u4; by apply ensures_ret].
    assert (pop_front (more_errors s0) = with_counts (s_pages s0) (s_sequence s0) (s_errors s0 + 1) (with_frontier l s0)) as -> by (unfold pop_front, more_errors; cbn; by rewrite Hf).
    destruct (pop_ok s0 b0 task l (s_pages s0) (s_sequence s0) (s_errors s0 + 1) Hok Hf) as [K1 K2]; [lia|done|]. apply (save_progress s0); [exact K1|exact K2|done|cbn; lia|done].
  - apply orb_false_elim in E as [_ E%N.ltb_ge]. eapply ensures_bind; [apply update_holds|]. intros u3. eapply ensures_bind with (Q := fun _ => progress s0); [|intros u4; by apply ensures_ret].
    destruct (retry_ok s0 b0 task l (t_attempts task + 1) Hok Hf eq_refl E) as [K1 K2].
    apply (save_progress s0); [exact K1|exact K2|unfold set_attempts, more_errors; cbn; by rewrite Hf|unfold set_attempts, more_errors; cbn; rewrite Hf; cbn; lia|done].
Qed.

Lemma finish_keeps s0 delay : ensures (progress s0) (finish delay) (fun b e => b = true /\ progress s0 e).
Proof.
  assert (about (progress s0)) as Hab.
  { intros e e' E. injection E as H1 H2 H3 H4. unfold progress, synced. by rewrite H1, H2, H3. }
  unfold finish. apply ensures_keep; [by apply ensures_steady|]. intros t. apply ensures_keep; [by apply ensures_next|]. intros u. by apply ensures_ret.
Qed.

Lemma visit_spec s0 b0 task l : crawl_ok s0 b0 -> s_frontier s0 = task :: l -> s_pages s0 < max_pages (s_options s0) -> s_sequence s0 < 1000000000 ->
  ensures (holds s0 b0) (visit task) (fun b e => b = true /\ progress s0 e).
Proof.
  intros Hok Hf Hp Hseq e [E1 E2]. destruct (restore_state_text s0 b0 Hok (N.lt_le_incl _ _ Hseq)) as (before & Hst & Hb).
  unfold visit, state. run_act. rewrite E1, Hst. pose proof (attempt_spec s0 b0 task l Hok Hseq Hf Hp e (conj E1 E2)) as Ha.
  assert (forall code delay e1, disk_kept e e1 -> match (delay ← handle task before code delay; finish delay) e1 with
    (Done b, e') => (b = true /\ progress s0 e') /\ disk_kept e e' | (_, e') => disk_kept e e' end) as Hh.
  { intros code delay e1 Hd. apply (ensures_from _ (fun b e' => b = true /\ progress s0 e') e e1 Hd).
    by apply (ensures_bind _ _ _ _ _ (handle_spec s0 b0 task l before code delay Hok Hseq Hf Hb) (finish_keeps s0)). }
  destruct (attempt task e) as [[r|code|] e1]; [|by apply Hh|exact Ha]. destruct Ha as [Ha Hd].
  destruct r as [| |delay]; [done| |by apply Hh]. apply (ensures_from _ (fun b e' => b = true /\ progress s0 e') e e1 Hd). by apply finish_keeps.
Qed.

Lemma visit_front_spec s0 b0 : crawl_ok s0 b0 -> s_pages s0 < max_pages (s_options s0) -> s_sequence s0 < 1000000000 ->
  ensures (holds s0 b0) visit_front (fun b e => b = true /\ progress s0 e).
Proof.
  intros Hok Hp Hseq e [E1 E2]. unfold visit_front. run_act. destruct (s_frontier (e_saved e)) as [|task l] eqn:Ef; [auto|]. rewrite E1 in Ef.
  by apply (visit_spec s0 b0 task l).
Qed.

Lemma epoch_ok s b : crawl_ok s b -> crawl_ok (with_watch (s_watch_url s) (s_watch_seconds s) 0 (new_epoch s)) 0.
Proof.
  intros [K1 K2 K3 K4 K5 K6 K7 K8 K9 K10]. set (s' := with_watch _ _ _ _).
  assert (s_seen s' = ∅) as Es by done. assert (base.size (s_seen s') = 0%nat) as Ez by (rewrite Es; apply size_empty).
  constructor.
  - by apply List.Forall_nil.
  - by apply NoDup_nil_2.
  - intros u Hu. rewrite Es in Hu. set_solver.
  - rewrite Ez. unfold max_frontier. lia.
  - rewrite Es. split; [done|unfold max_seen_bytes; lia].
  - done.
  - change (s_pages s') with 0. lia.
  - change (s_pages s') with 0. change (s_errors s') with 0. unfold work. rewrite Ez. change (s_frontier s') with (@nil Task). cbn [sum foldr]. lia.
  - split; [apply K9|]. change (s_revisit_at s') with 0. lia.
  - done.
Qed.

(** The queue of a watched site that waits. *)
Lemma waiting_ok s b t : crawl_ok s b -> t <= 10000000000 -> crawl_ok (with_watch (s_watch_url s) (s_watch_seconds s) t (with_frontier [] s)) b.
Proof.
  intros [K1 K2 K3 K4 K5 K6 K7 K8 K9 K10] Ht. set (s' := with_watch _ _ _ _). constructor; try done.
  - by apply NoDup_nil_2.
  - change (s_pages s') with (s_pages s). change (s_errors s') with (s_errors s). unfold work in *. change (s_seen s') with (s_seen s). change (s_frontier s') with (@nil Task).
    unfold sum in *. cbn [foldr]. lia.
  - split; [apply K9|done].
Qed.

Lemma set_saved_holds s b e : holds s b (set_saved s b e).
Proof. done. Qed.

(** What one step does to the durable state: nothing, or a pause; the queue is dropped until the next visit; or a page is
    worked on, at once or in a new epoch. *)
Definition stepped (s0 : Saved) (b0 : N) (worked : bool) (e : Engine W) : Prop :=
  if worked then exists s1 b1, crawl_ok s1 b1 /\ progress s1 e /\ s_sequence s1 = s_sequence s0 /\ (s_watch_seconds s0 = 0 -> s1 = s0 /\ b1 = b0)
  else holds s0 b0 e \/
       (s_watch_seconds s0 <> 0 /\ exists t, t <= 9000000000 + s_watch_seconds s0 /\ holds (with_watch (s_watch_url s0) (s_watch_seconds s0) t (with_frontier [] s0)) b0 e /\ synced e).

(** The clock of the system is before the year 2255. *)
Definition sane_clock : Prop := forall w, (epoch_now w).1 <= 9000000000.

(** A new epoch of a watched site. *)
Lemma restart_spec s0 b0 : crawl_ok s0 b0 -> s_watch_seconds s0 <> 0 -> s_sequence s0 < 1000000000 ->
  ensures (holds s0 b0) (_ ← change (fun e => set_saved (with_watch (s_watch_url s0) (s_watch_seconds s0) 0 (new_epoch (e_saved e))) 0 e);
    _ ← enqueue (s_watch_url s0) 0; _ ← save; visit_front) (fun b e => b = true /\ stepped s0 b0 true e).
Proof.
  intros Hok Hwatch Hseq. pose proof (ok_options s0 b0 Hok) as [Hmax _]. set (s1 := with_watch (s_watch_url s0) (s_watch_seconds s0) 0 (new_epoch s0)). pose proof (epoch_ok s0 b0 Hok) as H1. fold s1 in H1.
  eapply ensures_bind with (Q := fun _ => holds s1 0); [apply ensures_change; [done|intros e [<- <-]; apply set_saved_holds]|]. intros u1.
  eapply ensures_bind with (Q := fun _ e => exists s2 b2, crawl_ok s2 b2 /\ holds s2 b2 e /\ s_pages s2 = 0 /\ s_sequence s2 = s_sequence s0 /\ s_options s2 = s_options s0).
  { intros e [E1 E2]. destruct (enqueue_cases (s_watch_url s0) 0 e) as [->|[[x ->]|(u & A1 & A2 & A3 & A4 & A5 & ->)]]; [|auto|].
    - split; [exists s1, 0; done|auto].
    - split; [|auto]. rewrite E1, E2 in *. destruct (add_ok s1 0 u (s_watch_url s0) 0 H1 A1 A2 A3 A4 A5) as [K1 _]. eexists _, _. split; [exact K1|].
      unfold add_url, holds. cbn [set_saved e_saved e_seen_bytes]. by rewrite E1, E2. }
  intros u2 e (s2 & b2 & K & He & P1 & P2 & P3).
  assert (ensures (holds s2 b2) (_ ← save; visit_front) (fun b e => b = true /\ stepped s0 b0 true e)) as Hrun; [|by apply Hrun].
  eapply ensures_bind; [apply (save_syncs s2 b2); split; [done|lia]|]. intros u3. eapply ensures_weaken; [apply (visit_front_spec s2 b2); [done|rewrite P1, P3; lia|lia]|by intros e' [? _]|].
  intros b e' [-> Hp]. split; [done|]. exists s2, b2. split_and!; [done..|]. by intros ?.
Qed.

Lemma tick_body_spec s0 b0 : sane_clock -> crawl_ok s0 b0 -> s_sequence s0 < 1000000000 ->
  ensures (holds s0 b0) tick_body (stepped s0 b0).
Proof.
  intros Hclock Hok Hseq. unfold tick_body. apply ensures_keep; [apply read_keep|]. intros paused. destruct (paused : bool); [apply ensures_ret; by left|].
  apply ensures_keep; [apply ensures_steady, holds_about|]. intros now. apply ensures_keep; [apply read_keep|]. intros next. destruct (now <? next); [apply ensures_ret; by left|].
  eapply ensures_bind; [apply ensures_read|]. intros s. intros e [He Es]. pose proof He as [E1 E2]. rewrite E1 in Es. subst s. revert e He E1 E2.
  assert (ensures (holds s0 b0) (if negb (nonempty (s_frontier s0)) || (max_pages (s_options s0) <=? s_pages s0) then
     if s_watch_seconds s0 =? 0 then _ ← (if max_pages (s_options s0) <=? s_pages s0 then change (set_paused true) else mret tt); mret false
     else if s_revisit_at s0 =? 0 then _ ← update_saved (with_frontier []); now ← epoch_seconds;
          _ ← update_saved (fun s => with_watch (s_watch_url s) (s_watch_seconds s) (now + s_watch_seconds s) s); _ ← save; mret false
     else now ← epoch_seconds; if now <? s_revisit_at s0 then mret false
          else _ ← change (fun e => set_saved (with_watch (s_watch_url s0) (s_watch_seconds s0) 0 (new_epoch (e_saved e))) 0 e);
               _ ← enqueue (s_watch_url s0) 0; _ ← save; visit_front
   else visit_front) (stepped s0 b0)) as Hrun; [|intros e He _ _; by apply Hrun].
  destruct (_ || _) eqn:Eq.
  - destruct (N.eqb_spec (s_watch_seconds s0) 0) as [Hw|Hw].
    { apply ensures_keep; [destruct (_ <=? _); [apply ensures_change; [done|by intros e He]|by apply ensures_ret]|]. intros u. apply ensures_ret. by left. }
    destruct (N.eqb_spec (s_revisit_at s0) 0) as [Hr|Hr].
    + eapply ensures_bind; [apply update_holds|]. intros u1. eapply ensures_bind with (Q := fun t e => t <= 9000000000 /\ holds (with_frontier [] s0) b0 e).
      { intros e He. unfold epoch_seconds, outside. pose proof (Hclock (e_world e)) as Hc. destruct (epoch_now (e_world e)) as [t w]. split; [by split|auto]. }
      intros t e [Ht He]. revert e He. eapply ensures_bind; [apply update_holds|]. intros u2. pose proof (waiting_ok s0 b0 (t + s_watch_seconds s0) Hok) as Hwait.
      eapply ensures_bind; [apply (save_syncs _ b0); split; [apply Hwait; pose proof (ok_watch s0 b0 Hok); lia|cbn; lia]|]. intros u3. apply ensures_ret.
      intros e [He Hs]. right. split; [done|]. exists (t + s_watch_seconds s0). split; [lia|]. split; [exact He|exact Hs].
    + apply ensures_keep; [apply ensures_outside, holds_about|]. intros t. destruct (t <? s_revisit_at s0); [apply ensures_ret; by left|].
      eapply ensures_weaken; [apply (restart_spec s0 b0 Hok Hw Hseq)|done|]. by intros b e [-> H].
  - apply orb_false_elim in Eq as [Ef%negb_false_iff Ep%N.leb_gt]. eapply ensures_weaken; [by apply (visit_front_spec s0 b0)|done|].
    intros b e [-> Hp]. exists s0, b0. done.
Qed.

(** ** Commands *)

Definition inv (n : N) (e : Engine W) : Prop := crawl_ok (e_saved e) (e_seen_bytes e) /\ s_sequence (e_saved e) <= n.

Lemma inv_about n : about (inv n).
Proof. intros e e' [= H1 H2 H3 H4]. unfold inv. by rewrite H1, H2. Qed.

Lemma save_inv n : n <= 1000000000 -> ensures (inv n) save (fun _ => inv n).
Proof.
  intros Hn e [H1 H2]. assert (ensures (holds (e_saved e) (e_seen_bytes e)) save (fun _ => inv n)) as Hrun; [|by apply Hrun].
  eapply ensures_weaken; [apply save_syncs; split; [exact H1|lia]|done|]. intros u e' [[E1 E2] _]. unfold inv. by rewrite E1, E2.
Qed.

Lemma snapshot_inv n code puts : n < 1000000000 -> Forall row_ok puts -> ensures (inv n) (snapshot code puts) (fun _ => inv (n + 1)).
Proof.
  intros Hn Hputs e [H1 H2]. assert (ensures (holds (e_saved e) (e_seen_bytes e)) (snapshot code puts) (fun _ => inv (n + 1))) as Hrun; [|by apply Hrun].
  eapply ensures_weaken; [apply snapshot_spec; [exact H1|lia|done]|done|]. intros u e' [[[E1 E2]|[E1 E2]] _]; unfold inv; rewrite E1, E2.
  - split; [done|lia].
  - split; [by apply more_snapshots_ok|cbn; lia].
Qed.

Lemma enqueue_inv n url d : ensures (inv n) (enqueue url d) (fun _ => inv n).
Proof.
  intros e He. pose proof (enqueue_cache url d e) as Hc. destruct (enqueue_cases url d e) as [E|[[x E]|(u & A1 & A2 & A3 & A4 & A5 & E)]]; rewrite E in *; cbn [snd] in Hc.
  - split; [done|auto].
  - auto.
  - split; [|auto]. destruct He as [H1 H2]. destruct (add_ok _ _ u url d H1 A1 A2 A3 A4 A5) as [K1 _]. by split.
Qed.

Lemma update_inv n f : (forall s b, crawl_ok s b -> crawl_ok (f s) b /\ s_sequence (f s) = s_sequence s) -> ensures (inv n) (update_saved f) (fun _ => inv n).
Proof. intros Hf. apply ensures_change; [done|]. intros e [H1 H2]. destruct (Hf _ _ H1) as [K1 K2]. split; [exact K1|cbn; by rewrite K2]. Qed.

Lemma watch_ok s b url seconds t : crawl_ok s b -> short url_bound url -> seconds <= 86400 * 30 -> t <= 10000000000 -> crawl_ok (with_watch url seconds t s) b.
Proof. intros [K1 K2 K3 K4 K5 K6 K7 K8 K9 K10] Hu Hs Ht. constructor; try done. split; [done|apply K10]. Qed.

Lemma crawl_start_ok s b origin options : crawl_ok s b -> short origin_bound origin ->
  1 <= max_pages options <= 10000 /\ max_depth options <= 32 /\ interval_ms options <= 3600000 -> crawl_ok (new_epoch (with_watch [] 0 0 (with_crawl origin options s))) 0.
Proof.
  intros [K1 K2 K3 K4 K5 K6 K7 K8 K9 K10] Ho Hopt. set (s' := new_epoch _). assert (s_seen s' = ∅) as Es by done.
  assert (base.size (s_seen s') = 0%nat) as Ez by (rewrite Es; apply size_empty).
  constructor.
  - by apply List.Forall_nil.
  - by apply NoDup_nil_2.
  - intros u Hu. rewrite Es in Hu. set_solver.
  - rewrite Ez. unfold max_frontier. lia.
  - rewrite Es. split; [done|unfold max_seen_bytes; lia].
  - done.
  - change (s_pages s') with 0. lia.
  - change (s_pages s') with 0. change (s_errors s') with 0. unfold work. rewrite Ez. change (s_frontier s') with (@nil Task). cbn [sum foldr]. lia.
  - change (s_watch_seconds s') with 0. change (s_revisit_at s') with 0. lia.
  - split; [apply short_nil|done].
Qed.

Lemma integer_bound t m n : integer t m = Done n -> n <= m.
Proof. unfold integer. destruct (size_number t) as [v|]; [|done]. destruct (N.ltb_spec m v); [done|]. by intros [= <-]. Qed.

Lemma option_or_bound l i m d n : option_or l i m d = Done n -> d <= m -> n <= m.
Proof. unfold option_or. destruct (l !! i); [intros H _; by apply integer_bound in H|by intros [= <-]]. Qed.

Lemma option_or_keep P l i m d (Q : Engine W -> Prop) : (forall e, P e -> Q e) -> ensures P (lift_caught (option_or l i m d)) (fun n e => Q e /\ option_or l i m d = Done n).
Proof. intros H. eapply ensures_weaken; [apply ensures_lift|done|]. intros n e [H1 H2]. auto. Qed.

Lemma status_keep P : ensures P status (fun _ => P).
Proof. apply read_keep. Qed.

Lemma set_paused_keep n b : ensures (inv n) (change (set_paused b)) (fun _ => inv n).
Proof. apply ensures_change; [done|]. by intros e He. Qed.

Lemma fail_keep P code : ensures P (fail_with code) (fun _ => P).
Proof. by apply ensures_ret. Qed.

Lemma start_crawl_inv n created args : n <= 1000000000 -> ensures (inv n) (start_crawl created args) (fun _ => inv n).
Proof.
  intros Hn. unfold start_crawl. destruct args as [|url limits]; [apply fail_keep|]. destruct (3 <? length limits)%nat; [apply fail_keep|].
  eapply ensures_bind; [apply ensures_lift|]. intros seed. eapply ensures_bind; [apply ensures_lift|]. intros parsed. intros e [[He Hseed] Hparsed].
  cbn [mbind act_bind read]. revert e He.
  assert (forall s, ensures (fun e => inv n e /\ e_saved e = s) (if nonempty (s_origin s) && negb (s_origin s =s Url.origin parsed) then fail_with "SecurityViolation"
      else pages ← lift_caught (option_or limits 0 10000 (max_pages (s_options s))); depth ← lift_caught (option_or limits 1 32 (max_depth (s_options s)));
        interval ← lift_caught (option_or limits 2 3600000 (interval_ms (s_options s)));
        if pages =? 0 then fail_with "InvalidArgument"
        else let chosen := {| max_pages := pages; max_depth := depth; interval_ms := interval |} in
          _ ← change (fun e => set_saved (new_epoch (with_watch [] 0 0 (with_crawl (Url.origin parsed) chosen (e_saved e)))) 0 e);
          _ ← enqueue seed 0; _ ← change (set_paused created); now ← steady; _ ← change (set_next now); _ ← save; status) (fun _ => inv n)) as Hrun;
    [|intros e He; apply (Hrun (e_saved e) e); by split].
  intros s. destruct (_ && _); [apply ensures_ret; by intros e [? _]|].
  eapply ensures_bind; [apply ensures_lift|]. intros pages. eapply ensures_bind; [apply ensures_lift|]. intros depth. eapply ensures_bind; [apply ensures_lift|]. intros interval.
  destruct (N.eqb_spec pages 0) as [Hp|Hp]; [apply ensures_ret; by intros e [[[[? _] _] _] _]|]. cbv zeta. eapply ensures_bind with (Q := fun _ => inv n).
  - apply ensures_change; [done|]. intros e [[[[[H1 H2] Es] Hpages] Hdepth] Hinterval]. subst s. pose proof (ok_options _ _ H1) as (O1 & O2 & O3).
    apply option_or_bound in Hpages; [|lia]. apply option_or_bound in Hdepth; [|done]. apply option_or_bound in Hinterval; [|done]. split; [|done]. cbn [set_saved e_saved e_seen_bytes].
    apply (crawl_start_ok _ (e_seen_bytes e)); [done| |cbn; lia].
    destruct (canonical url) as [u|x] eqn:Ec; [|done]. injection Hseed as <-. destruct (parse_url u) as [p|x] eqn:Ep; [|done]. injection Hparsed as <-.
    apply (origin_short u); [by apply (canonical_short url)|done].
  - intros u1. apply ensures_keep; [apply enqueue_inv|]. intros u2. apply ensures_keep; [apply set_paused_keep|]. intros u3. apply ensures_keep; [apply ensures_steady, inv_about|]. intros t.
    apply ensures_keep; [apply ensures_next, inv_about|]. intros u4. apply ensures_keep; [by apply save_inv|]. intros u5. apply status_keep.
Qed.

Lemma allowed_short o t u : allowed o t = Ret u -> short url_bound u.
Proof. unfold allowed. intros (v & Hv & (p & _ & (? & _ & [= <-])%bind_Ret)%bind_Ret)%bind_Ret. by apply (canonical_short t). Qed.

Lemma watch_command_inv n url seconds limits : n <= 1000000000 -> ensures (inv n) (watch_command url seconds limits) (fun _ => inv n).
Proof.
  intros Hn. unfold watch_command. eapply ensures_bind; [apply ensures_lift|]. intros period. destruct (period =? 0); [apply ensures_ret; by intros e [? _]|].
  intros e [He Hp]. apply integer_bound in Hp. revert e He. apply ensures_keep; [by apply start_crawl_inv|]. intros result. destruct (negb _); [by apply ensures_ret|].
  apply ensures_keep; [apply read_keep|]. intros origin. eapply ensures_bind; [apply ensures_lift|]. intros target e [He Ht].
  assert (short url_bound target) as Hs by (destruct (allowed origin url) as [v|x] eqn:Ea; [injection Ht as <-; by apply allowed_short in Ea|done]).
  revert e He. apply ensures_keep; [apply update_inv; intros s b Hok; split; [by apply watch_ok|done]|]. intros u1. apply ensures_keep; [by apply save_inv|]. intros u2. apply status_keep.
Qed.

(** A record is written: its key is not that of the state. *)
Lemma record_write_inv n key value : ensures (inv n) (cache_write [(record_key key, value)]) (fun _ => inv n).
Proof.
  intros e He. unfold cache_write. run_act. unfold write. destruct (existsb bad_put _); [auto|]. unfold committing, outside. run_act. destruct (commits (e_world e)) as [[] w]; [|by apply disk_kept_same].
  split; [exact He|]. intros [Hd Hp]. cbn [e_cache set_cache foldl]. split; [intros t|intros k data]; (rewrite lookup_insert_ne by done); [apply Hd|apply Hp].
Qed.

Lemma cache_put_inv n key value : ensures (inv n) (cache_put key value) (fun _ => inv n).
Proof.
  unfold cache_put. destruct (_ || _); [apply fail_keep|]. apply ensures_keep; [apply read_keep|]. intros m. apply ensures_keep.
  - destruct (SpiderCache.get _ m); [by apply ensures_ret|]. apply ensures_keep; [apply lift_keep|]. intros k. by apply ensures_ret.
  - intros full. destruct (full : bool); [apply fail_keep|]. apply ensures_keep; [apply record_write_inv|]. intros u. by apply ensures_ret.
Qed.

Lemma cache_get_keep P key : ensures P (cache_get key) (fun _ => P).
Proof.
  unfold cache_get. destruct (negb _); [apply fail_keep|]. apply ensures_keep; [apply read_keep|]. intros m. destruct (SpiderCache.get key m); [|apply fail_keep].
  apply ensures_keep; [apply lift_keep|]. intros json. by apply ensures_ret.
Qed.

Lemma cache_query_keep P args : ensures P (cache_query args) (fun _ => P).
Proof.
  unfold cache_query. cbv zeta. destruct (negb _); [apply fail_keep|]. apply ensures_keep; [apply lift_keep|]. intros limit. apply ensures_keep; [apply read_keep|]. intros m.
  apply ensures_keep; [apply lift_keep|]. intros l. apply ensures_keep; [apply lift_keep|]. intros out. by apply ensures_ret.
Qed.

(** *** Every command: it stores at most one page *)

Lemma inv_more {A} n (m : act A) : ensures (inv n) m (fun _ => inv n) -> ensures (inv n) m (fun _ => inv (n + 1)).
Proof. intros H. eapply ensures_weaken; [exact H|done|]. intros a e [H1 H2]. split; [done|lia]. Qed.

Lemma install_inv n (load : act unit) : n < 1000000000 -> ensures (inv n) load (fun _ => inv n) ->
  ensures (inv n) (_ ← load; _ ← snapshot 0 []; status) (fun _ => inv (n + 1)).
Proof.
  intros Hn Hload. apply ensures_keep; [exact Hload|]. intros u1. eapply ensures_bind; [by apply snapshot_inv|]. intros u2. apply status_keep.
Qed.

Lemma act_on_node_inv n selector text position : n < 1000000000 -> ensures (inv n) (act_on_node selector text position) (fun _ => inv (n + 1)).
Proof.
  intros Hn. unfold act_on_node. apply ensures_keep; [apply read_keep|]. intros [doc|]; [|apply inv_more, fail_keep]. apply ensures_keep; [apply lift_keep|]. intros nodes.
  apply ensures_keep; [apply lift_keep|]. intros index. destruct (_ || _); [apply inv_more, fail_keep|]. cbv zeta. apply ensures_keep; [apply read_keep|]. intros origin.
  apply ensures_keep; [destruct text; apply ensures_outside, inv_about|]. intros ok. destruct (negb ok); [apply inv_more, fail_keep|].
  eapply ensures_bind; [by apply snapshot_inv|]. intros u. apply status_keep.
Qed.

Lemma query_page_keep P by_selector text : ensures P (query_page by_selector text) (fun _ => P).
Proof.
  unfold query_page. apply ensures_keep; [apply read_keep|]. intros [doc|]; [|apply fail_keep]. apply ensures_keep; [apply lift_keep|]. intros results.
  destruct (results_loop _ _ _); [by apply ensures_ret|apply fail_keep].
Qed.

Lemma cache_select_keep P selector limits : ensures P (cache_select selector limits) (fun _ => P).
Proof.
  unfold cache_select. apply ensures_keep; [apply lift_keep|]. intros limit. apply ensures_keep; [apply read_keep|]. intros m. apply ensures_keep; [apply lift_keep|]. intros l.
  apply ensures_keep; [apply lift_keep|]. intros out. by apply ensures_ret.
Qed.

(** *** Drivers *)

Lemma run_lua_keep P code name : about P -> ensures P (run_lua code name) (fun _ => P).
Proof. intros Hab. apply ensures_keep; [apply read_keep|]. intros origin. by apply ensures_outside. Qed.

Lemma call_lua_keep P f arguments : about P -> ensures P (call_lua f arguments) (fun _ => P).
Proof. intros Hab. apply ensures_keep; [apply read_keep|]. intros origin. by apply ensures_outside. Qed.

Lemma driver_script_keep P script arguments : about P -> ensures P (driver_script script arguments) (fun _ => P).
Proof.
  intros Hab. unfold driver_script. apply ensures_keep; [by apply ensures_outside|]. intros u. apply ensures_keep; [apply read_keep|]. intros m. apply ensures_keep; [apply lift_keep|]. intros records.
  do 4 (apply ensures_keep; [by apply run_lua_keep|]; intros ok; destruct (negb ok); [by apply ensures_ret|]; clear ok).
  apply ensures_keep; [by apply call_lua_keep|]. intros [code|]; [|by apply ensures_ret]. destruct (code =s lit "0"); [by apply call_lua_keep|by apply ensures_ret].
Qed.

(** The key of a record is not that of a page. *)
Lemma record_row_ok key value : row_ok (record_key key, value).
Proof. done. Qed.

(** Operations that enqueue keep the queue in order; those that put stage records only. *)
Lemma driver_operation_inv n item puts : Forall row_ok puts -> ensures (inv n) (driver_operation item puts) (fun puts' e => inv n e /\ Forall row_ok puts').
Proof.
  intros Hputs. unfold driver_operation. apply ensures_keep; [apply lift_keep|]. intros operation.
  assert (forall x, ensures (inv n) (raise x) (fun puts' e => inv n e /\ Forall row_ok puts')) as Hraise by (intros x e He; apply disk_kept_same; done).
  do 4 (destruct operation as [|? operation]; [try apply Hraise|]); [|apply Hraise]. destruct (_ =s lit "enqueue").
  - apply ensures_keep; [apply lift_keep|]. intros depth. apply ensures_keep; [apply enqueue_inv|]. intros u. by apply ensures_ret.
  - destruct (_ =s lit "put"); [|apply Hraise]. destruct (_ || _); [apply Hraise|]. apply ensures_ret. intros e He. split; [done|].
    apply Forall_app. split; [done|]. apply Forall_singleton, record_row_ok.
Qed.

Lemma driver_operations_inv n items : forall puts, Forall row_ok puts -> ensures (inv n) (driver_operations items puts) (fun puts' e => inv n e /\ Forall row_ok puts').
Proof.
  induction items as [|item items IH]; intros puts Hputs; cbn [driver_operations]; [by apply ensures_ret|].
  eapply ensures_bind; [by apply driver_operation_inv|]. intros puts' e [He Hp]. by apply IH.
Qed.

Lemma commit_operations_inv n operations : n < 1000000000 -> ensures (inv n) (commit_operations operations) (fun _ => inv (n + 1)).
Proof.
  intros Hn. unfold commit_operations. apply ensures_keep; [apply lift_keep|]. intros items. eapply ensures_bind; [by apply driver_operations_inv, List.Forall_nil|].
  intros puts e [He Hp]. revert e He. apply ensures_keep; [apply read_keep|]. intros m. apply ensures_keep; [apply lift_keep|]. intros count.
  destruct (_ <? _); [intros e He; by apply disk_kept_same|]. by apply snapshot_inv.
Qed.

Lemma keeping_queue_inv n m k : ensures (inv n) m (fun _ => inv k) -> ensures (inv n) (keeping_queue m) (fun _ => inv k).
Proof. intros Hm e He. specialize (Hm e He). unfold keeping_queue. destruct (m e) as [[u|x|] e']; exact Hm. Qed.

Lemma closing_lua_keep {A} P (m : act A) Q : (forall a, about (Q a)) -> ensures P m Q -> ensures P (closing_lua m) Q.
Proof.
  intros Hq Hm e He. specialize (Hm e He). unfold closing_lua, outside. destruct (m e) as [[a|x|] e']; [|exact Hm..]. destruct Hm as [H1 H2].
  split; [|exact H2]. by apply (Hq a e').
Qed.

Lemma driver_inv n args : n < 1000000000 -> ensures (inv n) (driver args) (fun _ => inv (n + 1)).
Proof.
  intros Hn. unfold driver. destruct (negb lua_available); [apply inv_more, fail_keep|]. destruct args as [|script arguments]; [apply inv_more, fail_keep|].
  destruct (_ || _); [apply inv_more, fail_keep|]. destruct (_ <? _); [apply inv_more, fail_keep|]. apply closing_lua_keep; [intros reply; apply inv_about|].
  apply ensures_keep; [apply driver_script_keep, inv_about|]. intros [operations|]; [|apply inv_more, fail_keep].
  eapply ensures_bind; [by apply keeping_queue_inv, commit_operations_inv|]. intros u. apply status_keep.
Qed.

Lemma cache_command_inv n first others : ensures (inv n) (cache_command first others) (fun _ => inv n).
Proof.
  unfold cache_command. destruct (_ && _ && _); [apply cache_select_keep|]. destruct (_ && _); [apply cache_put_inv|]. destruct (_ && _); [apply cache_get_keep|].
  destruct (_ && _); [apply cache_query_keep|apply fail_keep].
Qed.

Lemma command_inv n args : n < 1000000000 -> ensures (inv n) (command_body args) (fun _ => inv (n + 1)).
Proof.
  intros Hn. unfold command_body. destruct args as [|cmd rest]; [apply inv_more, fail_keep|]. cbv zeta. destruct rest as [|first others].
  - destruct (cmd =s lit "status"); [apply inv_more, status_keep|]. destruct (_ || _).
    { apply inv_more. apply ensures_keep; [apply set_paused_keep|]. intros u1. apply ensures_keep; [apply ensures_steady, inv_about|]. intros t.
      apply ensures_keep; [apply ensures_next, inv_about|]. intros u2. apply ensures_keep; [apply save_inv; lia|]. intros u3. apply status_keep. }
    destruct (cmd =s lit "unwatch").
    { apply inv_more. apply ensures_keep; [apply update_inv; intros s b Hok; split; [apply watch_ok; [done|apply short_nil|lia|lia]|done]|]. intros u1.
      apply ensures_keep; [apply save_inv; lia|]. intros u2. apply status_keep. }
    destruct (_ || _); [apply inv_more, start_crawl_inv; lia|]. destruct (cmd =s lit "driver"); [by apply driver_inv|apply inv_more, fail_keep].
  - destruct (_ && _ && _); [apply inv_more, watch_command_inv; lia|]. destruct (_ || _); [apply inv_more, start_crawl_inv; lia|].
    destruct (_ && _).
    { apply inv_more. apply ensures_keep; [apply lift_keep|]. intros depth. apply ensures_keep; [apply enqueue_inv|]. intros u1.
      apply ensures_keep; [apply save_inv; lia|]. intros u2. apply status_keep. }
    destruct (_ && _).
    { apply ensures_keep; [apply read_keep|]. intros origin. apply ensures_keep; [apply lift_keep|]. intros url. apply install_inv; [done|]. apply ensures_outside, inv_about. }
    destruct (_ && _).
    { apply ensures_keep; [apply read_keep|]. intros origin. apply ensures_keep; [apply lift_keep|]. intros url. apply install_inv; [done|]. apply ensures_outside, inv_about. }
    destruct (cmd =s lit "driver"); [by apply driver_inv|]. destruct (_ && _); [by apply act_on_node_inv|].
    destruct (_ && _ && _); [by apply act_on_node_inv|]. destruct (_ && _); [apply inv_more, query_page_keep|].
    destruct (cmd =s lit "cache"); [apply inv_more, cache_command_inv|apply inv_more, fail_keep].
Qed.

(** ** The calls of the worker *)

(** The engine between two calls: the queue is in order, there is room for another page number, and the database can be restored. *)
Definition good (e : Engine W) : Prop := crawl_ok (e_saved e) (e_seen_bytes e) /\ s_sequence (e_saved e) < 1000000000 /\ disk_ok (e_cache e).

Lemma restored (e0 e1 : Engine W) before : restore before = Done (e_saved e0, e_seen_bytes e0) ->
  put_back before e1 = (Done tt, set_saved (e_saved e0) (e_seen_bytes e0) e1).
Proof. intros Hr. unfold put_back. run_act. by rewrite Hr. Qed.

Lemma tick_spec e : sane_clock -> good e -> exists worked e', tick e = (Done worked, e') /\ stepped (e_saved e) (e_seen_bytes e) worked e' /\ disk_ok (e_cache e').
Proof.
  intros Hclock (Hok & Hseq & Hdisk). destruct (restore_state_text _ _ Hok (N.lt_le_incl _ _ Hseq)) as (before & Hst & Hb).
  pose proof (tick_body_spec _ _ Hclock Hok Hseq e (conj eq_refl eq_refl)) as H. unfold tick, state. run_act. rewrite Hst.
  destruct (tick_body e) as [[worked|x|] e']; [destruct H as [H1 H2]; exists worked, e'; split_and!; [done|done|by apply H2]|..];
    rewrite (restored e) by done; eexists false, _; (split; [reflexivity|]); (split; [left; by split|]); by apply H.
Qed.

Lemma command_spec args e : good e -> exists reply e', command args e = (Done reply, e') /\
  crawl_ok (e_saved e') (e_seen_bytes e') /\ s_sequence (e_saved e') <= s_sequence (e_saved e) + 1 /\ disk_ok (e_cache e').
Proof.
  intros (Hok & Hseq & Hdisk). destruct (restore_state_text _ _ Hok (N.lt_le_incl _ _ Hseq)) as (before & Hst & Hb).
  assert (inv (s_sequence (e_saved e)) e) as Hinv by (by split).
  pose proof (command_inv (s_sequence (e_saved e)) args Hseq e Hinv) as H.
  unfold command, state. run_act. rewrite Hst.
  destruct (command_body args e) as [[reply|x|] e']; [destruct H as [[H1 H2] H3]; exists reply, e'; split_and!; [done..|by apply H3]|..];
    rewrite (restored e) by done; eexists _, _; (split; [reflexivity|]); (split; [done|]); (split; [cbn; lia|]); by apply H.
Qed.

(** ** Opening the engine again *)

(** The database commits, and offline pages install. *)
Definition working_host : Prop :=
  (forall w, (commits w).1 = true) /\ (forall origin html url w, exists w', host_load origin html url w = (Done tt, w')).

Lemma state_text_inj s1 b1 s2 b2 t : durable s1 b1 -> durable s2 b2 -> state_text s1 = Done t -> state_text s2 = Done t -> s1 = s2 /\ b1 = b2.
Proof.
  intros [H1 Q1] [H2 Q2] E1 E2. destruct (restore_state_text s1 b1 H1 Q1) as (t1 & T1 & R1). destruct (restore_state_text s2 b2 H2 Q2) as (t2 & T2 & R2).
  rewrite E1 in T1. rewrite E2 in T2. injection T1 as <-. injection T2 as <-. rewrite R1 in R2. injection R2 as -> ->. done.
Qed.

Definition stored (m : store) (s : Saved) (b : N) : Prop :=
  durable s b /\ match m !! lit "state" with Some t => state_text s = Done t | None => s = new_saved /\ b = 0 end.

Lemma disk_stored_state m : disk_ok m -> exists s b, stored m s b.
Proof.
  intros [H _]. unfold stored. destruct (m !! lit "state") as [t|]; [destruct (H t eq_refl) as (s & b & Hd & Ht); by exists s, b|].
  exists new_saved, 0. split; [split; [apply new_saved_ok|cbn; lia]|done].
Qed.

Lemma load_state_spec m s b e : stored m s b -> e_cache e = m -> holds new_saved 0 e -> exists e', load_state e = (Done tt, e') /\ holds s b e' /\ e_cache e' = m.
Proof.
  intros [[Hok Hseq] Hm] Ec He. unfold load_state, SpiderCache.get. run_act. rewrite Ec. destruct (m !! lit "state") as [t|].
  - destruct (restore_state_text s b Hok Hseq) as (t' & Ht & Hr). rewrite Hm in Ht. injection Ht as <-. unfold put_back. run_act. rewrite Hr. by exists (set_saved s b e).
  - destruct Hm as [-> ->]. by exists e.
Qed.

(** An action that ends, in an engine that keeps its memory. *)
Definition runs {A} (m : act A) (e : Engine W) : Prop := exists a e', m e = (Done a, e') /\ memory e' = memory e.

Lemma load_page_spec e : working_host -> disk_ok (e_cache e) -> runs load_page e.
Proof.
  intros [_ Hload] [_ Hp]. unfold runs, load_page, SpiderCache.get. run_act. destruct (0 <? _); [|by exists tt, e].
  destruct (e_cache e !! page_key _) as [data|] eqn:Ed; [|by exists tt, e]. destruct (Hp _ _ Ed) as [fields Hf]. run_act. rewrite Hf. cbn [of_option]. run_act.
  do 6 (destruct fields as [|? fields]; [try (by exists tt, e)|]); [|by exists tt, e]. unfold outside.
  match goal with |- context [host_load ?o ?h ?u ?w] => destruct (Hload o h u w) as [w' ->] end. eexists _, _. split; [reflexivity|]. done.
Qed.

Lemma state_text_size s t : state_text s = Done t -> size t <= max_message_bytes.
Proof.
  unfold state_text. destruct (of_option (mapM _ _ ≫= pack)) as [tasks|x|]; [|done..]. cbn [mbind caught_bind]. destruct (of_option (pack (ordered _))) as [seen|x|]; [|done..]. cbn [mbind caught_bind].
  destruct (pack _) as [t'|] eqn:E; [|done]. intros [= <-]. by apply pack_Some in E as [-> H].
Qed.

Lemma save_runs s b e : working_host -> durable s b -> holds s b e ->
  exists e', save e = (Done tt, e') /\ holds s b e' /\ e_paused e' = e_paused e /\ synced e' /\ e_cache e' = <[lit "state" := default [] (e_cache e' !! lit "state")]> (e_cache e).
Proof.
  intros [Hc _] [Hok Hseq] [E1 E2]. destruct (restore_state_text s b Hok Hseq) as (t & Ht & _). unfold save, state. run_act. rewrite E1, Ht. run_act.
  unfold cache_write. run_act. unfold write. cbn [existsb]. assert (bad_put (lit "state", t) = false) as ->.
  { unfold bad_put. cbn [fst snd]. apply state_text_size in Ht. apply N.ltb_ge in Ht as ->. done. }
  cbn [orb foldl]. unfold committing, outside. run_act. pose proof (Hc (e_world e)) as Hw. destruct (commits (e_world e)) as [c w]. cbn [fst] in Hw. subst c.
  eexists. split; [reflexivity|]. cbn [set_cache e_saved e_seen_bytes e_paused e_cache]. split_and!; [by split|done| |by rewrite lookup_insert_eq].
  exists t. cbn [set_cache e_saved e_cache]. rewrite E1. split; [done|]. apply lookup_insert_eq.
Qed.

(** What the constructor does: with the state of the store it is paused, and the state is written again. *)
Lemma open_spec name m w s b : valid_name name = true -> working_host -> disk_ok m -> stored m s b ->
  exists e, open_engine name m w = (Done tt, e) /\ holds s b e /\ e_paused e = true /\ synced e.
Proof.
  intros Hname Hhost Hdisk Hm. unfold open_engine. rewrite Hname. cbn [negb]. unfold steady, outside. run_act. cbn [opening e_world]. destruct (steady_now w) as [now w1]. run_act.
  match goal with |- context [load_state ?e] => destruct (load_state_spec m s b e Hm eq_refl (conj eq_refl eq_refl)) as (e2 & -> & He2 & Ec2) end.
  rewrite <- Ec2 in Hdisk. destruct (load_page_spec e2 Hhost Hdisk) as ([] & e3 & -> & E3). injection E3 as F1 F2 F3 F4.
  assert (holds s b (set_paused true e3)) as He3 by (destruct He2 as [<- <-]; by split).
  destruct (save_runs s b (set_paused true e3) Hhost (proj1 Hm) He3) as (e4 & E4 & He4 & Hp & Hs & _). exists e4. split_and!; [exact E4|done|by rewrite Hp|done].
Qed.

(** ** Reachable engines *)

(** A spider is created over an empty directory; its worker calls [tick] and [command]; and it can end at any time, and be
    opened again over what the database holds.  The pages are numbered up to a thousand million. *)
Inductive reachable : Engine W -> Prop :=
  | created name w e : open_engine name ∅ w = (Done tt, e) -> reachable e
  | ticked e worked e' : reachable e -> s_sequence (e_saved e) < 1000000000 -> tick e = (Done worked, e') -> reachable e'
  | commanded e args reply e' : reachable e -> s_sequence (e_saved e) < 1000000000 -> command args e = (Done reply, e') -> reachable e'
  | reopened e name w e' : reachable e -> open_engine name (e_cache e) w = (Done tt, e') -> reachable e'.

(** Whatever the host does, an engine that opens holds the state of the store. *)
Lemma open_good name m w e : disk_ok m -> open_engine name m w = (Done tt, e) -> (exists s b, stored m s b /\ holds s b e) /\ disk_ok (e_cache e).
Proof.
  intros Hdisk. destruct (disk_stored_state m Hdisk) as (s & b & Hm). unfold open_engine. destruct (negb _); [done|]. unfold steady, outside at 1. run_act. cbn [opening e_world].
  destruct (steady_now w) as [now w1]. run_act.
  match goal with |- context [load_state ?e] => destruct (load_state_spec m s b e Hm eq_refl (conj eq_refl eq_refl)) as (e2 & -> & He2 & Ec2) end.
  assert (ensures (holds s b) (_ ← load_page; _ ← change (set_paused true); save) (fun _ => holds s b)) as Hrun.
  { apply ensures_keep.
    - unfold load_page. apply ensures_keep; [apply read_keep|]. intros m'. apply ensures_keep; [apply read_keep|]. intros sequence. destruct (0 <? sequence); [|by apply ensures_ret].
      destruct (SpiderCache.get _ m') as [data|]; [|by apply ensures_ret]. apply ensures_keep; [apply lift_keep|]. intros fields.
      do 6 (destruct fields as [|? fields]; [try by apply ensures_ret|]); [|by apply ensures_ret].
      apply ensures_keep; [apply read_keep|]. intros o. apply ensures_outside, holds_about.
    - intros u. apply ensures_keep; [by apply ensures_change|]. intros u2. eapply ensures_weaken; [apply (save_syncs s b), Hm|done|]. by intros u3 e' [? _]. }
  intros E. change ((_ ← load_page; _ ← change (set_paused true); save) e2 = (Done tt, e)) in E. specialize (Hrun e2 He2). rewrite E in Hrun. destruct Hrun as [He Hd].
  split; [by exists s, b|]. apply Hd. by rewrite Ec2.
Qed.

Lemma disk_empty : disk_ok ∅.
Proof. by split; intros t; [|intros d]; rewrite lookup_empty. Qed.

Lemma stepped_ok s0 b0 worked e : crawl_ok s0 b0 -> stepped s0 b0 worked e -> crawl_ok (e_saved e) (e_seen_bytes e).
Proof.
  intros Hok. destruct worked; cbn [stepped].
  - by intros (s1 & b1 & _ & (H & _) & _).
  - intros [[E1 E2]|(_ & t & Ht & [E1 E2] & _)]; rewrite E1, E2; [done|]. apply waiting_ok; [done|]. pose proof (ok_watch s0 b0 Hok). lia.
Qed.

Lemma reachable_ok e : sane_clock -> reachable e -> crawl_ok (e_saved e) (e_seen_bytes e) /\ disk_ok (e_cache e).
Proof.
  intros Hclock. induction 1 as [name w e Ho|e worked e' _ [H1 H2] Hseq Ht|e args reply e' _ [H1 H2] Hseq Hc|e name w e' _ [H1 H2] Ho].
  - destruct (open_good name ∅ w e disk_empty Ho) as [(s & b & [[Hok _] _] & [E1 E2]) Hd]. split; [by rewrite E1, E2|done].
  - destruct (tick_spec e Hclock (conj H1 (conj Hseq H2))) as (wk & e1 & Et & Hs & Hd). rewrite Ht in Et. injection Et as <- <-. split; [by apply (stepped_ok _ _ _ _ H1 Hs)|done].
  - destruct (command_spec args e (conj H1 (conj Hseq H2))) as (r & e1 & Ec & K1 & _ & K2). rewrite Hc in Ec. by injection Ec as <- <-.
  - destruct (open_good name _ w e' H2 Ho) as [(s & b & [[Hok _] _] & [E1 E2]) Hd]. split; [by rewrite E1, E2|done].
Qed.

(** ** The end of a crawl *)

Definition after (n : nat) (e : Engine W) : Engine W := Nat.iter n (fun e => (tick e).2) e.

Definition due (e : Engine W) : Prop := e_next e <= (steady_now (e_world e)).1.

Definition finished (e : Engine W) : Prop :=
  e_paused e = true \/ s_frontier (e_saved e) = [] \/ max_pages (s_options (e_saved e)) <= s_pages (e_saved e).

Lemma unfinished e : ~ finished e -> e_paused e = false /\ s_frontier (e_saved e) <> [] /\ s_pages (e_saved e) < max_pages (s_options (e_saved e)).
Proof. unfold finished. destruct (e_paused e); [tauto|]. intros H. split_and!; [done|tauto|]. apply N.lt_nge. tauto. Qed.

(** A step that is due works on a page, unless something else than an error stops the spider. *)
Lemma tick_due e : good e -> ~ finished e -> due e ->
  exists worked e', tick e = (Done worked, e') /\ disk_ok (e_cache e') /\
    if worked then progress (e_saved e) e' else e_paused e' = true /\ holds (e_saved e) (e_seen_bytes e) e'.
Proof.
  intros (Hok & Hseq & Hdisk) (Hp & Hf & Hpages)%unfinished Hdue. destruct (restore_state_text _ _ Hok (N.lt_le_incl _ _ Hseq)) as (before & Hst & Hb).
  unfold tick, state. run_act. rewrite Hst.
  assert (exists e1, tick_body e = visit_front e1 /\ holds (e_saved e) (e_seen_bytes e) e1 /\ e_cache e1 = e_cache e) as (e1 & -> & He1 & Ec1).
  { unfold tick_body, steady, outside. run_act. rewrite Hp. run_act. unfold due in Hdue. destruct (steady_now (e_world e)) as [now w]. cbn [fst] in Hdue. run_act.
    apply N.ltb_ge in Hdue as ->. run_act. assert (nonempty (s_frontier (e_saved e)) = true) as -> by (by destruct (s_frontier (e_saved e))).
    apply N.leb_gt in Hpages as ->. cbn [negb orb]. eexists. split; [reflexivity|]. done. }
  pose proof (visit_front_spec _ _ Hok Hpages Hseq e1 He1) as H. unfold disk_kept in H. rewrite Ec1 in H.
  destruct (visit_front e1) as [[worked|x|] e2].
  - destruct H as [[-> H] Hd]. exists true, e2. split_and!; [done|by apply Hd|done].
  - rewrite (restored e) by done. eexists false, _. split; [reflexivity|]. split; [by apply H|done].
  - rewrite (restored e) by done. eexists false, _. split; [reflexivity|]. split; [by apply H|done].
Qed.

Lemma work_positive s b : crawl_ok s b -> s_frontier s <> [] -> 0 < work s.
Proof.
  intros [K1 _ _ _ _ _ _ _ _ _] Hf. destruct (s_frontier s) as [|t l] eqn:E; [done|]. apply Forall_cons in K1 as [(_ & _ & Ha) _]. unfold work. rewrite E.
  unfold sum. cbn [foldr]. unfold chances at 1. unfold max_retries in *. lia.
Qed.

(** The worker calls again when it is time. *)
Definition patient (e : Engine W) : Prop := forall k, (forall j, (j <= k)%nat -> ~ finished (after j e)) -> due (after k e).

Lemma first_not e : ~ finished e -> forall j, (j <= 0)%nat -> ~ finished (after j e).
Proof. intros H j Hj. by assert (j = 0%nat) as -> by lia. Qed.

Lemma crawl_ends_within n : forall e, good e -> work (e_saved e) <= N.of_nat n -> s_sequence (e_saved e) + work (e_saved e) < 1000000000 ->
  patient e -> exists k, (k <= n)%nat /\ finished (after k e) /\ good (after k e).
Proof.
  induction n as [|n IH]; intros e Hg Hw Hs Hdue.
  - exists 0%nat. split_and!; [done| |done]. right. left. cbn [after Nat.iter]. destruct (s_frontier (e_saved e)) eqn:E; [done|]. pose proof (work_positive _ _ (proj1 Hg)) as H. rewrite E in H. specialize (H ltac:(done)). lia.
  - destruct (decide (e_paused e = true \/ s_frontier (e_saved e) = [] \/ max_pages (s_options (e_saved e)) <= s_pages (e_saved e))) as [Hf|Hf].
    { exists 0%nat. split_and!; [lia|exact Hf|done]. }
    destruct (tick_due e Hg Hf (Hdue 0%nat (first_not e Hf))) as (worked & e' & Et & Hd & Hr).
    assert (forall k, after (S k) e = after k e') as Hafter.
    { intros k. unfold after. rewrite Nat.iter_succ_r. by rewrite Et. }
    destruct worked.
    + destruct Hr as (R1 & R2 & R3 & R4 & R5). destruct (IH e') as (k & Hk & Hfin & Hgood).
      * split_and!; [done|lia|done].
      * lia.
      * lia.
      * intros k Hk. rewrite <- Hafter. apply Hdue. intros [|j] Hj; [exact Hf|]. rewrite Hafter. apply Hk. lia.
      * exists (S k). rewrite Hafter. split_and!; [lia|done|done].
    + destruct Hr as [Hp [E1 E2]]. exists 1%nat. split_and!; [lia| |]; rewrite (Hafter 0%nat); change (after 0 e') with e'; [by left|].
      split_and!; [by rewrite E1, E2; apply Hg|rewrite E1; apply Hg|done].
Qed.

(** ** Properties *)

(** C31: the queue of a spider is always in order: in every engine that can be reached (from an empty directory, by ticks and
    by commands of every kind, the operations of drivers, clicks and typing included, that succeed or fail, and by opening
    the directory again at any time; while the system's clock is before the year 2255, and up to a thousand million pages) the pages that wait are different,
    have been marked as seen, are not deeper than allowed and not tried more than three times; every URL that was seen
    belongs to the origin; the limits of URLs, bytes and pages hold; the errors, the pages and the attempts that are left
    sum up to at most 40000; and what the database holds can be restored. *)
Theorem crawl_invariant e : sane_clock -> reachable e -> crawl_ok (e_saved e) (e_seen_bytes e) /\ disk_ok (e_cache e).
Proof. apply reachable_ok. Qed.

(** C32: a crawl ends: when the worker calls each time it is due, after at most as many steps as there are attempts left (40000 at
    most) the spider is paused, its queue is empty or the number of pages is reached; errors of the network, of the
    pages and of the robots file included. *)
Theorem crawl_ends e : good e -> s_sequence (e_saved e) < 999960000 -> patient e ->
  exists k, (k <= N.to_nat (work (e_saved e)))%nat /\ work (e_saved e) <= 40000 /\ finished (after k e) /\ good (after k e).
Proof.
  intros Hg Hs Hdue. assert (work (e_saved e) <= 40000) as Hw by (destruct Hg as [Hok _]; pose proof (ok_work _ _ Hok) as H; unfold max_frontier in H; lia).
  destruct (crawl_ends_within (N.to_nat (work (e_saved e))) e Hg) as (k & Hk & H1 & H2); [lia|lia|done|]. by exists k.
Qed.

(** C33: a worker can die at any time: the directory of a step that worked on a page opens again, over any host that
    installs pages and commits, and gives the queue, the set, the counters and the schedule back as they were; the spider
    is paused. *)
Theorem crash_resume e worked e' name w : sane_clock -> working_host -> valid_name name = true -> good e -> s_sequence (e_saved e) + 1 < 1000000000 ->
  tick e = (Done worked, e') -> worked = true -> exists e2, open_engine name (e_cache e') w = (Done tt, e2) /\ e_saved e2 = e_saved e' /\ e_seen_bytes e2 = e_seen_bytes e' /\ e_paused e2 = true.
Proof.
  intros Hclock Hhost Hname Hg Hseq Ht ->. destruct (tick_spec e Hclock Hg) as (wk & e1 & Et & Hs & Hd). rewrite Ht in Et. injection Et as <- <-.
  destruct Hs as (s1 & b1 & _ & (R1 & _ & _ & R4 & (t & Et & Ec)) & Eseq & _).
  destruct (open_spec name (e_cache e') w (e_saved e') (e_seen_bytes e') Hname Hhost Hd) as (e2 & Ho & [E1 E2] & Hp & _); [|by exists e2].
  unfold stored. rewrite Ec. split; [|done]. split; [done|lia].
Qed.
End Crawl.

(** ** On concrete inputs: a site of three pages, without a robots file *)

Record DemoWorld := { d_time : N; d_document : option Document; d_script : bytes }.

Definition demo_body (text : bytes) (code : Z) : HttpResponse :=
  {| Message.status := code; headers := []; body := text; final_url := []; redirect_chain := [] |}.

Definition demo_site (url : bytes) : HttpResponse :=
  if url =s lit "http://h/" then demo_body (lit "<a href='/b'>x</a><a href=mailto:me>y</a><a href='/b#z'>z</a>") 200
  else if url =s lit "http://h/b" then demo_body (lit "<a href='/c'>x</a>") 503
  else demo_body [] 404.

#[export] Instance demo_host : Host DemoWorld := {|
  host_request _ url _ w := (Done (demo_site url), w);
  host_load _ html url w :=
    (Done tt, match parse_html html url [] with Ret d => {| d_time := d_time w; d_document := Some d; d_script := d_script w |} | Throw _ => w end);
  host_navigate _ _ w := (Done tt, w);
  host_click _ _ w := (Done true, w);
  host_type _ _ _ w := (Done false, w);
  host_document := d_document;
  host_url _ := lit "http://h/";
  steady_now w := (d_time w + 100000, {| d_time := d_time w + 100000; d_document := d_document w; d_script := d_script w |});
  epoch_now w := (1700000000, w);
  commits w := (true, w) |}.

Definition remember (script : bytes) (w : DemoWorld) : DemoWorld := {| d_time := d_time w; d_document := d_document w; d_script := script |}.

(** A driver's script is the packed list of what it stages. *)
#[export] Instance demo_tools : Tools DemoWorld := {|
  evaluate_xpath _ _ := Ret (NodeSet []);
  lua_available := true;
  spider_lua_source := [];
  lua_open w := w;
  lua_run _ chunk name w := (Done true, if name =s lit "spider-driver" then remember chunk w else w);
  lua_call _ function _ w := (Done (Some (if function =s lit "main" then lit "0" else d_script w)), w);
  lua_close := remember [] |}.

Definition demo_opened : Engine DemoWorld := (open_engine (lit "demo") ∅ {| d_time := 0; d_document := None; d_script := [] |}).2.
Definition demo_crawl : caught Reply * Engine DemoWorld := command [lit "crawl"; lit "HTTP://h:80#top"; lit "10"; lit "2"; lit "500"] demo_opened.
Definition demo_engine : Engine DemoWorld := demo_crawl.2.

Lemma demo_clock : sane_clock (W := DemoWorld).
Proof. intros w. cbn. lia. Qed.

Lemma demo_working : working_host (W := DemoWorld).
Proof. split; [done|]. intros origin html url w. by eexists. Qed.

Lemma crawl_reachable : reachable demo_engine.
Proof.
  apply (commanded demo_opened [lit "crawl"; lit "HTTP://h:80#top"; lit "10"; lit "2"; lit "500"] {| reply_ok := reply_ok (match demo_crawl.1 with Done r => r | _ => failure [] end);
    reply_json := reply_json (match demo_crawl.1 with Done r => r | _ => failure [] end) |}).
  - by apply (created (lit "demo") {| d_time := 0; d_document := None; d_script := [] |}).
  - vm_compute. reflexivity.
  - vm_compute. reflexivity.
Qed.

Example demo_queue : s_frontier (e_saved demo_engine) = [{| t_url := lit "http://h/"; t_depth := 0; t_attempts := 0 |}].
Proof. vm_compute. reflexivity. Qed.

(** The first page brings one new one; that one is tried four times. *)
Example demo_steps :
  map (fun k => s_frontier (e_saved (after k demo_engine))) [1; 2; 3; 4; 5]%nat =
  [[{| t_url := lit "http://h/b"; t_depth := 1; t_attempts := 0 |}]; [{| t_url := lit "http://h/b"; t_depth := 1; t_attempts := 1 |}];
   [{| t_url := lit "http://h/b"; t_depth := 1; t_attempts := 2 |}]; [{| t_url := lit "http://h/b"; t_depth := 1; t_attempts := 3 |}]; []].
Proof. vm_compute. reflexivity. Qed.

(** A driver puts a page into the queue and records into the store; two others fail, at a URL of no origin and behind a
    first operation, and leave nothing. *)
Definition staged (operations : list (list bytes)) : bytes := default [] (mapM pack operations ≫= pack).

Definition driver_run : caught Reply * Engine DemoWorld :=
  command [lit "driver"; staged [[lit "enqueue"; lit "/d"; lit "1"]; [lit "enqueue"; lit "http://h/d"; lit "1"]; [lit "put"; lit "k"; lit "v"]]] demo_engine.
Definition driver_failed : caught Reply * Engine DemoWorld :=
  command [lit "driver"; staged [[lit "enqueue"; lit "http://h/e"; lit "1"]; [lit "drop"; lit "k"; lit "v"]]] demo_engine.
Definition driven : caught Reply * Engine DemoWorld :=
  command [lit "driver"; staged [[lit "enqueue"; lit "http://h/d"; lit "1"]; [lit "put"; lit "k"; lit "v"]; [lit "put"; lit "token"; lit "t"]]; lit "name"; lit "value"] demo_engine.

Example drivers : driver_run.1 = Done (failure (lit "security_violation")) /\ t_url <$> s_frontier (e_saved driver_run.2) = [lit "http://h/"] /\
  driver_failed.1 = Done (failure (lit "lua_error")) /\ t_url <$> s_frontier (e_saved driver_failed.2) = [lit "http://h/"] /\
  t_url <$> s_frontier (e_saved driven.2) = [lit "http://h/"; lit "http://h/d"] /\
  e_cache driven.2 !! lit "record/k" = Some (lit "v") /\ e_cache driven.2 !! lit "record/token" = Some (lit "[REDACTED]").
Proof. vm_compute. done. Qed.

Lemma driven_reachable : reachable driven.2.
Proof.
  apply (commanded demo_engine [lit "driver"; staged [[lit "enqueue"; lit "http://h/d"; lit "1"]; [lit "put"; lit "k"; lit "v"]; [lit "put"; lit "token"; lit "t"]]; lit "name"; lit "value"]
    {| reply_ok := reply_ok (match driven.1 with Done r => r | _ => failure [] end); reply_json := reply_json (match driven.1 with Done r => r | _ => failure [] end) |}).
  - apply crawl_reachable.
  - vm_compute. reflexivity.
  - vm_compute. reflexivity.
Qed.

Lemma crawl_invariant_witness : crawl_ok (e_saved driven.2) (e_seen_bytes driven.2) /\ disk_ok (e_cache driven.2).
Proof. exact (crawl_invariant driven.2 demo_clock driven_reachable). Defined.

Lemma demo_good : good demo_engine.
Proof.
  destruct (reachable_ok demo_engine demo_clock crawl_reachable) as [H1 H2]. split_and!; [exact H1|vm_compute; reflexivity|exact H2].
Qed.

Lemma crawl_finished : finished (after 5 demo_engine).
Proof. right. left. vm_compute. reflexivity. Qed.

Lemma demo_due : forallb (fun k => e_next (after k demo_engine) <=? (steady_now (e_world (after k demo_engine))).1) [0; 1; 2; 3; 4]%nat = true.
Proof. vm_compute. reflexivity. Qed.

Lemma demo_patient : patient demo_engine.
Proof.
  intros k Hk. destruct (decide (k < 5)%nat) as [Hlt|Hge].
  - pose proof demo_due as H. rewrite forallb_forall in H. apply N.leb_le, (H k). do 5 (destruct k as [|k]; [cbn; tauto|]). lia.
  - destruct (Hk 5%nat ltac:(lia)). apply crawl_finished.
Qed.

Lemma crawl_ends_witness : exists k, (k <= N.to_nat (work (e_saved demo_engine)))%nat /\ work (e_saved demo_engine) <= 40000 /\ finished (after k demo_engine) /\ good (after k demo_engine).
Proof. refine (crawl_ends demo_engine demo_good _ demo_patient). vm_compute. reflexivity. Defined.

Definition demo_next : Engine DemoWorld := (tick demo_engine).2.

Lemma demo_tick : tick demo_engine = (Done true, demo_next).
Proof. assert ((tick demo_engine).1 = Done true) as H by (vm_compute; reflexivity). unfold demo_next. destruct (tick demo_engine). cbn in *. by subst. Qed.

Lemma crash_resume_witness : exists e2, open_engine (lit "demo") (e_cache demo_next) {| d_time := 0; d_document := None; d_script := [] |} = (Done tt, e2) /\
  e_saved e2 = e_saved demo_next /\ e_seen_bytes e2 = e_seen_bytes demo_next /\ e_paused e2 = true.
Proof.
  refine (crash_resume demo_engine true demo_next (lit "demo") {| d_time := 0; d_document := None; d_script := [] |} demo_clock demo_working _ demo_good _ demo_tick eq_refl); vm_compute; reflexivity.
Defined.

(** What is stored of the first page, under a key of 256 that are used in turn; double quotes are shown as single ones. *)
Definition shown (s : bytes) : bytes := map (fun c => if c =c byte 34 then "'"%char else c) s.
Example demo_page : option_map (option_map (map shown)) (option_map unpack (e_cache demo_next !! lit "page/000")) =
  Some (Some [lit "http://h/"; []; lit "200"; lit "<a href='/b'>x</a><a href='mailto:me'>y</a><a href='/b'>z</a>"; lit "1700000000"]).
Proof. vm_compute. reflexivity. Qed.

(** After a page that is not there, or that the robots file forbids, the next step is not delayed; after any other page, it is. *)
Definition missing_site : Engine DemoWorld := (command [lit "crawl"; lit "http://h/c"; lit "10"; lit "2"; lit "500"] demo_opened).2.
Example no_delay : e_next (tick missing_site).2 = e_next missing_site /\ s_errors (e_saved (tick missing_site).2) = 1 /\ e_next demo_next = d_time (e_world demo_next) + 500.
Proof. vm_compute. done. Qed.

(** After a thousand million pages the saved state is one that is refused. *)
Example too_many_pages : match state_text (with_counts 0 1000000001 0 new_saved) with Done t => restore t | _ => Failed end = Raised InvalidArgument.
Proof. vm_compute. reflexivity. Qed.
