(* ===== verification/Polite.v ===== *)
(** * Polite: which URLs a step of the crawl asks for

    The host of [Spider] with a log of the URLs that the engine requests itself, and the network of the session, that lets
    requests of one origin pass only. *)
From S2P Require Import Prelude Url Redaction Message Html HtmlTree Dom Selector SelectorMatch Document Robots Frame SpiderCache PageCopy Spider Crawl.
Local Open Scope N_scope.

Section Polite.
Context {W : Type} {inner : Host W}.

(** ** A host that writes a log *)

#[local] Instance logged : Host (W * list bytes) := {|
  host_request origin url limit w := let '(r, w') := host_request origin url limit w.1 in (r, (w', w.2 ++ [url]));
  host_load origin html url w := let '(r, w') := host_load origin html url w.1 in (r, (w', w.2));
  host_navigate origin url w := let '(r, w') := host_navigate origin url w.1 in (r, (w', w.2));
  host_click origin node w := let '(r, w') := host_click origin node w.1 in (r, (w', w.2));
  host_type origin node text w := let '(r, w') := host_type origin node text w.1 in (r, (w', w.2));
  host_document w := host_document w.1;
  host_url w := host_url w.1;
  steady_now w := let '(t, w') := steady_now w.1 in (t, (w', w.2));
  epoch_now w := let '(t, w') := epoch_now w.1 in (t, (w', w.2));
  commits w := let '(b, w') := commits w.1 in (b, (w', w.2)) |}.

Definition Logged : Type := Engine (W * list bytes).
Definition requests (e : Logged) : list bytes := (e_world e).2.
Definition rules (e : Logged) : list RobotRule * bool := (e_robots e, e_robots_available e).

(** ** Actions that ask for nothing *)

Definition silent {A} (m : act (W := W * list bytes) A) : Prop := forall e, requests (m e).2 = requests e /\ rules (m e).2 = rules e.

Lemma silent_bind {A B} (m : act A) (k : A -> act B) : silent m -> (forall a, silent (k a)) -> silent (x ← m; k x).
Proof.
  intros Hm Hk e. specialize (Hm e). unfold mbind, act_bind. destruct (m e) as [[a|x|] e1]; [|done..]. cbn [snd] in Hm. destruct (Hk a e1) as [H1 H2], Hm as [H3 H4]. split; congruence.
Qed.

Lemma silent_ret {A} (a : A) : silent (mret a).
Proof. done. Qed.
Lemma silent_lift {A} (m : caught A) : silent (lift_caught m).
Proof. done. Qed.
Lemma silent_raise {A} x : silent (raise (A := A) x).
Proof. done. Qed.
Lemma silent_read {A} (f : Logged -> A) : silent (read f).
Proof. done. Qed.
Lemma silent_saved (f : Logged -> Saved) (n : Logged -> N) : silent (change (fun e => set_saved (f e) (n e) e)).
Proof. done. Qed.
Lemma silent_update f : silent (update_saved f).
Proof. done. Qed.
Lemma silent_paused b : silent (change (set_paused b)).
Proof. done. Qed.
Lemma silent_next t : silent (change (set_next t)).
Proof. done. Qed.
Lemma silent_cache m : silent (change (set_cache m)).
Proof. done. Qed.
Lemma silent_outside {A} (f : W * list bytes -> caught A * (W * list bytes)) : (forall w, (f w).2.2 = w.2) -> silent (outside f).
Proof. intros H e. unfold outside. specialize (H (e_world e)). by destruct (f (e_world e)). Qed.

Lemma silent_committing : silent committing.
Proof. apply silent_outside. intros w. cbn. by destruct (commits w.1). Qed.
Lemma silent_steady : silent steady.
Proof. apply silent_outside. intros w. cbn. by destruct (steady_now w.1). Qed.
Lemma silent_epoch : silent epoch_seconds.
Proof. apply silent_outside. intros w. cbn. by destruct (epoch_now w.1). Qed.
Lemma silent_load origin html url : silent (outside (host_load origin html url)).
Proof. apply silent_outside. intros w. cbn. by destruct (host_load origin html url w.1). Qed.
Lemma silent_state : silent state.
Proof. apply silent_bind; done. Qed.

Create HintDb silent.
#[local] Hint Resolve silent_ret silent_lift silent_raise silent_read silent_saved silent_update silent_paused silent_next silent_cache
  silent_committing silent_steady silent_epoch silent_load silent_state : silent.

(** Walk through an action, branch by branch. *)
Ltac silence := repeat first [solve [auto with silent nocore] | apply silent_bind; intros | match goal with |- silent match ?x with _ => _ end => destruct x end].

Lemma silent_write puts : silent (cache_write puts).
Proof. unfold cache_write. silence. Qed.
#[local] Hint Resolve silent_write : silent.
Lemma silent_save : silent save.
Proof. unfold save. silence. Qed.
Lemma silent_snapshot code puts : silent (snapshot code puts).
Proof. unfold snapshot. silence. Qed.
Lemma silent_enqueue url depth : silent (enqueue url depth).
Proof. unfold enqueue, add_url. silence. Qed.
Lemma silent_back before : silent (put_back before).
Proof. unfold put_back. silence. Qed.
Lemma silent_finish delay : silent (finish delay).
Proof. unfold finish. silence. Qed.
#[local] Hint Resolve silent_save silent_snapshot silent_enqueue silent_back silent_finish : silent.

Lemma silent_handle task before code delay : silent (handle task before code delay).
Proof. unfold handle. cbv zeta. silence. Qed.

Lemma silent_links doc l depth : silent (enqueue_links doc l depth).
Proof.
  induction l as [|link l IH]; [done|]. intros e. cbn [enqueue_links].
  set (m := (target ← _; enqueue target depth)). assert (silent m) as Hm by (subst m; silence). specialize (Hm e). clearbody m.
  destruct (m e) as [[[]|x|] e1]; cbn [snd] in Hm; [|destruct x; try done|done]; destruct (IH e1) as [H1 H2], Hm as [H3 H4]; split; congruence.
Qed.
#[local] Hint Resolve silent_handle silent_links : silent.

(** ** What a step asks for *)

Definition robots_url (e : Logged) : bytes := s_origin (e_saved e) ++ lit "/robots.txt".

(** The rules that the engine holds let the URL pass. *)
Definition permitted (e : Logged) (url : bytes) : Prop :=
  e_robots_available e = true /\ exists u, parse_url url = Ret u /\ rules_allow (e_robots e) (robots_path u) = true.

(** The URL waits in the queue, or it is the one that is watched. *)
Definition wanted (e : Logged) (url : bytes) : Prop :=
  url ∈ t_url <$> s_frontier (e_saved e) \/ allowed (s_origin (e_saved e)) (s_watch_url (e_saved e)) = Ret url.

Definition polite_from (e e' : Logged) : Prop :=
  exists asked pages, requests e' = requests e ++ asked ++ pages /\ (asked = [] \/ asked = [robots_url e]) /\
    (pages = [] \/ exists url, pages = [url] /\ wanted e url /\ permitted e' url).

Lemma polite_silent {A} (m : act A) e e' : silent m -> polite_from e e' -> polite_from e (m e').2.
Proof.
  intros Hm (asked & pages & H1 & H2 & H3). destruct (Hm e') as [Hr [= Hx Hy]]. exists asked, pages. split_and!; [by rewrite Hr|done|].
  destruct H3 as [H3|(url & H3 & H4 & H5)]; [by left|right]. exists url. unfold permitted. by rewrite Hx, Hy.
Qed.

(** Before the robots file is looked at. *)
Definition ready (e0 e : Logged) : Prop :=
  requests e = requests e0 /\ s_origin (e_saved e) = s_origin (e_saved e0) /\ s_watch_url (e_saved e) = s_watch_url (e_saved e0) /\
  Forall (fun t => wanted e0 (t_url t)) (s_frontier (e_saved e)).

Lemma ready_first e : ready e e.
Proof. split_and!; [done..|]. apply Forall_forall. intros t Ht. left. apply list_elem_of_fmap. by exists t. Qed.

Lemma ready_polite e0 e : ready e0 e -> polite_from e0 e.
Proof. intros (H & _). exists [], []. split_and!; [by rewrite H, app_nil_r|by left|by left]. Qed.

Lemma refresh_asks e : exists asked, requests (refresh_robots e).2 = requests e ++ asked /\ (asked = [] \/ asked = [robots_url e]) /\
  e_saved (refresh_robots e).2 = e_saved e.
Proof.
  unfold refresh_robots, request, steady, outside. unfold mbind, act_bind, read, change, lift_caught, mret, act_ret. cbn [steady_now host_request logged].
  destruct (steady_now (e_world e).1) as [now w]. cbn [e_robots_expiry]. destruct (e_robots_expiry e <=? now); [|exists []; split_and!; [by rewrite app_nil_r|by left|done]].
  exists [robots_url e]. unfold requests, robots_url. cbn [set_robots e_world e_saved fst snd]. destruct (host_request _ _ _ w) as [[response|x|] w1]; [|split_and!; try done; by right..].
  cbn [set_robots e_world e_saved e_robots_expiry e_robots e_robots_available fst snd]. destruct (if ok response then _ else _) as [l|x|]; [|split_and!; try done; by right..].
  cbn [set_robots e_world e_saved e_robots_expiry e_robots e_robots_available fst snd]. destruct (steady_now w1) as [now2 w2]. split_and!; try done. by right.
Qed.

Lemma allow_asks url e : exists asked, requests (robots_allow url e).2 = requests e ++ asked /\ (asked = [] \/ asked = [robots_url e]) /\
  e_saved (robots_allow url e).2 = e_saved e /\ ((robots_allow url e).1 = Done true -> permitted (robots_allow url e).2 url).
Proof.
  destruct (refresh_asks e) as (asked & H1 & H2 & H3). exists asked. unfold robots_allow, mbind, act_bind, read, raise, lift_caught, mret, act_ret. destruct (refresh_robots e) as [[[]|x|] e1]; cbn [fst snd] in *; [|by split_and!..].
  destruct (e_robots_available e1) eqn:Ea; cbn [negb fst snd]; [|by split_and!].
  destruct (parse_url url) as [u|x] eqn:Eu; cbn [of_result fst snd]; [|by split_and!]. split_and!; try done. intros [= Hr]. split; [done|]. by exists u.
Qed.

Lemma request_polite {A} url limit e0 e asked (k : HttpResponse -> act A) : requests e = requests e0 ++ asked -> (asked = [] \/ asked = [robots_url e0]) ->
  wanted e0 url -> permitted e url -> (forall r, silent (k r)) -> polite_from e0 ((r ← request url limit; k r) e).2.
Proof.
  intros H1 H2 H3 H4 Hk. unfold request, outside, mbind, act_bind, read. cbn [host_request logged]. destruct (host_request _ _ _ (e_world e).1) as [r w].
  assert (forall e2, requests e2 = requests e ++ [url] -> rules e2 = rules e -> polite_from e0 e2) as Hp.
  { intros e2 Hr [= Hx Hy]. exists asked, [url]. split_and!; [by rewrite Hr, H1, app_assoc|done|]. right. exists url. unfold permitted. by rewrite Hx, Hy. }
  destruct r as [response|x|]; [|by apply Hp..]. match goal with |- polite_from _ (k _ ?e2).2 => apply (polite_silent (k response) e0 e2); [done|by apply Hp] end.
Qed.

Lemma attempt_polite task e0 e : ready e0 e -> wanted e0 (t_url task) -> polite_from e0 (attempt task e).2.
Proof.
  intros (R1 & R2 & R3 & R4) Hw. destruct (allow_asks (t_url task) e) as (asked & H1 & H2 & H3 & H4).
  assert (asked = [] \/ asked = [robots_url e0]) as Ha by (unfold robots_url in *; rewrite R2 in H2; done).
  assert (polite_from e0 (robots_allow (t_url task) e).2) as Hp by (exists asked, []; split_and!; [by rewrite app_nil_r, H1, R1|done|by left]).
  rewrite R1 in H1. unfold attempt. unfold mbind at 1. unfold act_bind at 1. destruct (robots_allow (t_url task) e) as [[[]|x|] e1]; cbn [fst snd negb] in *; [| |done..].
  - apply (request_polite _ _ _ _ asked); [done|done|done|by apply H4|]. intros response. silence.
  - match goal with |- polite_from _ (?m e1).2 => apply (polite_silent m); [|done] end. silence.
Qed.

Lemma visit_polite task e0 e : ready e0 e -> wanted e0 (t_url task) -> polite_from e0 (visit task e).2.
Proof.
  intros Hr Hw. unfold visit. set (m := (before ← state; _)). assert (forall a e1, m e = (a, e1) -> e1 = e) as Hm.
  { subst m. intros a e1. unfold state, mbind, act_bind, read, lift_caught. destruct (state_text _); cbn; by intros [= _ <-]. }
  destruct (m e) as [[[before interval]|x|] e1]; specialize (Hm _ _ eq_refl) as ->; [|by apply ready_polite..]. pose proof (attempt_polite task e0 e Hr Hw) as Hp.
  destruct (attempt task e) as [[[| |delay]|x|] e1]; cbn [snd] in *; try done.
  all: match goal with H : polite_from _ ?x |- polite_from _ (?m ?x).2 => apply (polite_silent m _ _); [|exact H] end; silence.
Qed.

(** A step up to the choice of the page. *)
Definition keeps {A} (e0 : Logged) (m : act (W := W * list bytes) A) : Prop := forall e, ready e0 e -> ready e0 (m e).2.
Definition leads {A} (e0 : Logged) (m : act (W := W * list bytes) A) : Prop := forall e, ready e0 e -> polite_from e0 (m e).2.

Lemma ready_bind {A B} e0 (m : act A) (k : A -> act B) : keeps e0 m -> (forall a, keeps e0 (k a)) -> keeps e0 (x ← m; k x).
Proof. intros Hm Hk e He. specialize (Hm e He). unfold mbind, act_bind. destruct (m e) as [[a|x|] e1]; [by apply Hk|done..]. Qed.

Lemma leads_bind {A B} e0 (m : act A) (k : A -> act B) : keeps e0 m -> (forall a, leads e0 (k a)) -> leads e0 (x ← m; k x).
Proof. intros Hm Hk e He. specialize (Hm e He). unfold mbind, act_bind. destruct (m e) as [[a|x|] e1]; [by apply Hk|by apply ready_polite..]. Qed.

Lemma keeps_leads {A} e0 (m : act A) : keeps e0 m -> leads e0 m.
Proof. intros H e He. by apply ready_polite, H. Qed.

Lemma silent_keeps {A} e0 (m : act A) : silent m -> (forall e, e_saved (m e).2 = e_saved e) -> keeps e0 m.
Proof. intros H1 H2 e (R1 & R2 & R3 & R4). destruct (H1 e) as [Hr _]. unfold ready. by rewrite Hr, H2. Qed.

Lemma keeps_write e0 puts : keeps e0 (cache_write puts).
Proof.
  apply silent_keeps; [auto with silent|]. intros e. unfold cache_write, committing, outside, mbind, act_bind, read. destruct (write puts [] (e_cache e)); [|done].
  destruct (commits (e_world e)) as [[] w]; done.
Qed.

Lemma keeps_save e0 : keeps e0 save.
Proof. apply ready_bind; [|intros text; apply keeps_write]. apply silent_keeps; [auto with silent|]. intros e. unfold state, mbind, act_bind, read, lift_caught. by destruct (state_text _). Qed.

Lemma keeps_outside {A} e0 (f : W * list bytes -> caught A * (W * list bytes)) : (forall w, (f w).2.2 = w.2) -> keeps e0 (outside f).
Proof. intros H. apply silent_keeps; [by apply silent_outside|]. intros e. unfold outside. by destruct (f (e_world e)). Qed.

Lemma keeps_enqueue e0 : keeps e0 (enqueue (s_watch_url (e_saved e0)) 0).
Proof.
  intros e (R1 & R2 & R3 & R4). unfold enqueue, mbind, act_bind, read, lift_caught, raise, change, mret, act_ret. destruct (allowed _ _) as [u|x] eqn:Eu; cbn [of_result]; [|done].
  destruct (_ || _); [done|]. destruct (_ || _); [done|]. unfold ready, add_url. cbn [snd set_saved e_saved with_frontier s_origin s_watch_url s_frontier]. split_and!; [done..|].
  apply Forall_app. split; [done|]. apply Forall_singleton. right. cbn [t_url]. by rewrite <- R2.
Qed.

Lemma leads_front e0 : leads e0 visit_front.
Proof.
  intros e He. unfold visit_front, mbind, act_bind, read. destruct (s_frontier (e_saved e)) as [|task l] eqn:E; [by apply ready_polite|].
  apply visit_polite; [done|]. destruct He as (_ & _ & _ & He). rewrite E in He. by apply Forall_cons in He as [? _].
Qed.

(** [s] is what [read] gave, or the watched page changed in between. *)
Lemma leads_restart e0 url : url = s_watch_url (e_saved e0) -> leads e0 (_ ← enqueue url 0; _ ← save; visit_front).
Proof. intros ->. apply leads_bind; [apply keeps_enqueue|]. intros _. apply leads_bind; [apply keeps_save|]. intros _. apply leads_front. Qed.

Lemma leads_tick e0 : leads e0 tick_body.
Proof.
  unfold tick_body. intros e He. unfold mbind at 1, act_bind at 1, read at 1. destruct (e_paused e); [by apply ready_polite|].
  revert e He. apply leads_bind; [apply keeps_outside; intros w; cbn; by destruct (steady_now w.1)|]. intros now e He.
  unfold mbind at 1, act_bind at 1, read at 1. destruct (now <? e_next e); [by apply ready_polite|]. unfold mbind at 1, act_bind at 1, read at 1.
  assert (s_watch_url (e_saved e) = s_watch_url (e_saved e0)) as Ew by apply He. set (s := e_saved e) in *. clearbody s.
  destruct (_ || _); [|revert e He; apply leads_front]. destruct (s_watch_seconds s =? 0).
  { revert e He. apply keeps_leads, ready_bind; [|by intros a e He]. destruct (_ <=? _); by intros e He. }
  assert (keeps e0 epoch_seconds) as Hepoch by (apply keeps_outside; intros w; cbn; by destruct (epoch_now w.1)). revert e He. destruct (s_revisit_at s =? 0).
  - apply keeps_leads, ready_bind; [by intros e (R1 & R2 & R3 & R4)|]. intros _. apply ready_bind; [done|]. intros t.
    apply ready_bind; [by intros e He|]. intros _. apply ready_bind; [apply keeps_save|by intros _ e He].
  - apply leads_bind; [done|]. intros t. destruct (t <? s_revisit_at s); [by apply keeps_leads; intros e He|].
    apply leads_bind; [by intros e (R1 & R2 & R3 & R4)|]. intros _. by apply leads_restart.
Qed.

Lemma undo_polite before e0 e : polite_from e0 e -> polite_from e0 ((_ ← put_back before; _ ← change (set_paused true); mret false) e).2.
Proof. apply (polite_silent (_ ← put_back before; _ ← change (set_paused true); mret false)). silence. Qed.

(** C34: a step of the crawl is polite: whatever it finds and however it ends, the engine itself asks for the robots file of
    its origin at most once, then for at most one page, which waited in the queue or is the watched one; and it asks for
    that page only when the rules it holds after the step are available and let the page pass. *)
Theorem tick_polite (e : Logged) : exists asked pages, requests (tick e).2 = requests e ++ asked ++ pages /\ (asked = [] \/ asked = [robots_url e]) /\
  (pages = [] \/ exists url, pages = [url] /\ wanted e url /\ permitted (tick e).2 url).
Proof.
  change (polite_from e (tick e).2). unfold tick, state, mbind, act_bind, read, lift_caught. destruct (state_text _) as [before|x|]; [|by apply ready_polite, ready_first..].
  assert (polite_from e (tick_body e).2) as H by apply leads_tick, ready_first. destruct (tick_body e) as [[b|x|] e1]; cbn [snd] in H; [done|..].
  all: by apply (undo_polite before).
Qed.
End Polite.

(** ** The network of the session *)

(** A request leaves the process only when its URL is of the origin of the spider, with bounds on its time and its size;
    any other request fails before the network is used. *)
Lemma origin_confined {S} origin (inner : HttpRequest -> op S HttpResponse) request s :
  (exists x, origin_send origin inner request s = (Throw x, s)) \/
  (exists u p, canonical (request_url request) = Ret u /\ parse_url u = Ret p /\ Url.origin p = origin /\ origin <> [] /\
    origin_send origin inner request s = inner (bounded_request request) s /\
    (1 <= timeout_ms (bounded_request request) <= 10000)%Z /\ max_response_bytes (bounded_request request) <= max_page_bytes /\
    request_url (bounded_request request) = request_url request).
Proof.
  unfold origin_send, mbind, op_bind, lift_op, throw_op. destruct (canonical _) as [u|x]; [|left; by eexists]. destruct (parse_url u) as [p|x] eqn:Ep; [|left; by eexists].
  destruct (negb (nonempty origin) || negb (Url.origin p =s origin)) eqn:E; [left; by eexists|right]. apply orb_false_elim in E as [E1%negb_false_iff E2%negb_false_iff].
  apply eqb_bytes_true in E2. exists u, p. split_and!; try done; cbn; [by destruct origin|lia|lia|lia].
Qed.

(** ** On a concrete site *)

#[local] Existing Instance logged.

Definition visited : Logged (W := DemoWorld) :=
  (start_crawl false [lit "http://h/"; lit "10"; lit "2"; lit "500"]
    (open_engine (lit "demo") ∅ ({| d_time := 0; d_document := None; d_script := [] |}, [])).2).2.

Example demo_log : requests (after 2 visited) = [lit "http://h/robots.txt"; lit "http://h/"; lit "http://h/b"].
Proof. vm_compute. reflexivity. Qed.
