(* ===== verification/Navigation.v ===== *)
(** * Navigation: the document of a session, in [src/core/browser.cpp]

    What the rest of [Session] does with [Session.request]: documents are installed, their scripts run, the navigations that
    scripts ask for are followed, clicks and typing go through the script engine.  The engine is a parameter: what an
    evaluation does is an operation on everything the session keeps, since its hooks call back into the session.  A node of
    the document that was replaced is seen as the last look at it left it. *)
From S2P Require Import Event ScriptHost.
From S2P Require Import Prelude Url Redaction Proxy Message Html HtmlTree Dom Selector SelectorMatch Document Storage SetCookie AntiBot Plugins Session.
From Stdlib Require Import QArith.
#[local] Open Scope nat_scope.

(** ** What a session keeps beside [Session.World] *)

Record PageScriptRequest := { ps_method : bytes; ps_url : bytes; ps_status : Z; ps_content_type : bytes }.
Record PageScriptText := { pt_url : bytes; pt_body : bytes }.
Record ScriptResult := { s_ok : bool; s_value : bytes; s_error : bytes }.

(** [p_runtime] is the name of the engine.  [p_orphan] is the document of the session while the host has another one, and
    [p_installs] counts the documents. *)
Record Page {Y : Type} := {
  p_host : FlatwormScriptHost; p_orphan : option Document; p_installs : nat; p_runtime : option bytes; p_depth : nat;
  p_requests : list PageScriptRequest; p_texts : list PageScriptText; p_beyond : Y }.
Arguments Page : clear implicits.

Section State.
Context {Y : Type}.

Definition on_page (f : Page Y -> Page Y) (w : World (Page Y)) : World (Page Y) :=
  {| w_jar := w_jar w; w_headers := w_headers w; w_url := w_url w; w_closed := w_closed w; w_detection := w_detection w;
     w_log := w_log w; rest := f (rest w) |}.
Definition set_url (u : bytes) (w : World (Page Y)) : World (Page Y) :=
  {| w_jar := w_jar w; w_headers := w_headers w; w_url := u; w_closed := w_closed w; w_detection := w_detection w;
     w_log := w_log w; rest := rest w |}.

Definition set_host (h : FlatwormScriptHost) (p : Page Y) : Page Y :=
  {| p_host := h; p_orphan := p_orphan p; p_installs := p_installs p; p_runtime := p_runtime p; p_depth := p_depth p;
     p_requests := p_requests p; p_texts := p_texts p; p_beyond := p_beyond p |}.
Definition set_orphan (d : option Document) (n : nat) (p : Page Y) : Page Y :=
  {| p_host := p_host p; p_orphan := d; p_installs := n; p_runtime := p_runtime p; p_depth := p_depth p;
     p_requests := p_requests p; p_texts := p_texts p; p_beyond := p_beyond p |}.
Definition set_runtime (r : option bytes) (n : nat) (p : Page Y) : Page Y :=
  {| p_host := p_host p; p_orphan := p_orphan p; p_installs := p_installs p; p_runtime := r; p_depth := n;
     p_requests := p_requests p; p_texts := p_texts p; p_beyond := p_beyond p |}.
Definition set_observed (requests : list PageScriptRequest) (texts : list PageScriptText) (p : Page Y) : Page Y :=
  {| p_host := p_host p; p_orphan := p_orphan p; p_installs := p_installs p; p_runtime := p_runtime p; p_depth := p_depth p;
     p_requests := requests; p_texts := texts; p_beyond := p_beyond p |}.

Definition page (w : World (Page Y)) : Page Y := rest w.
Definition add_request (r : PageScriptRequest) (p : Page Y) : Page Y := set_observed (p_requests p ++ [r]) (p_texts p) p.
Definition add_text (t : PageScriptText) (p : Page Y) : Page Y := set_observed (p_requests p) (p_texts p ++ [t]) p.

(** [document_]. *)
Definition session_document (w : World (Page Y)) : option Document :=
  match p_orphan (page w) with Some d => Some d | None => ScriptHost.host_document (p_host (page w)) end.
End State.

(** ** Texts *)

(** The words of [std::istringstream]. *)
Fixpoint words_loop (word s : bytes) : list bytes :=
  match s with
  | [] => if nonempty word then [word] else []
  | c :: s' => if is_blank c then (if nonempty word then word :: words_loop [] s' else words_loop [] s') else words_loop (word ++ [c]) s'
  end.
Definition words (s : bytes) : list bytes := words_loop [] s.

Definition add_word (text word : bytes) : bytes := (if nonempty text then text ++ lit " " else text) ++ word.

Definition class_step (acc : bytes * bool) (token : bytes) : bytes * bool :=
  if token =s lit "no-js" then acc else (add_word acc.1 token, acc.2 || (token =s lit "js")).

(** The class of the document element when scripts run. *)
Definition script_class (class_name : bytes) : bytes :=
  let '(updated, has_js) := foldl class_step ([], false) (words class_name) in
  if has_js then updated else add_word updated (lit "js").

Definition hex_char (n : N) : ascii := if (n <? 10)%N then byte (48 + n) else byte (87 + n).

(** One character of [type_element]'s text in a string literal of the script. *)
Definition escape_char (c : ascii) : bytes :=
  if c =c byte 92 then [byte 92; byte 92]
  else if c =c dquote then [byte 92; dquote]
  else if c =c "'" then [byte 92; "'"%char]
  else if c =c byte 10 then lit "\n" else if c =c byte 13 then lit "\r" else if c =c byte 9 then lit "\t"
  else if c =c byte 8 then lit "\b" else if c =c byte 12 then lit "\f"
  else if (code c <? 32)%N then lit "\u00" ++ [hex_char (code c / 16); hex_char (code c mod 16)]
  else [c].

Definition escape_text (s : bytes) : bytes := mjoin (escape_char <$> s).

Definition click_script (handle : N) : bytes := lit "__prowsetkClick(" ++ print_N handle ++ lit ");".
Definition type_script (handle : N) (text : bytes) : bytes :=
  lit "__prowsetkType(" ++ print_N handle ++ lit "," ++ [dquote] ++ escape_text text ++ [dquote] ++ lit ");".

Definition mentions (needle s : bytes) : bool := if find_sub needle s then true else false.

(** Whether the body of a request of a script is kept as a script. *)
Definition script_like (url content_type : bytes) : bool :=
  let lowered := to_lower content_type in
  let path := match parse_url url with Ret u => path u | Throw _ => url end in
  mentions (lit "javascript") lowered || mentions (lit "ecmascript") lowered || negb (nonempty lowered) || ends_with (lit ".js") path.

Definition max_script_bytes : nat := 2097152.
Definition successful (status : Z) : bool := (200 <=? status)%Z && (status <? 300)%Z.
Definition small_body (s : bytes) : bool := (N.of_nat (length s) <=? N.of_nat max_script_bytes)%N.

(** The observations before a navigation that those after it do not repeat. *)
Definition merge_requests (current prior : list PageScriptRequest) : list PageScriptRequest :=
  foldl (fun l p => if existsb (fun c => (ps_method c =s ps_method p) && (ps_url c =s ps_url p)) l then l else l ++ [p]) current prior.
Definition merge_texts (current prior : list PageScriptText) : list PageScriptText :=
  foldl (fun l p => if existsb (fun c => pt_url c =s pt_url p) l then l else l ++ [p]) current prior.

Definition kind_name (k : MutationKind) : bytes :=
  match k with
  | ChildAdded => lit "child-added" | ChildRemoved => lit "child-removed" | AttributeSet => lit "attribute-set"
  | AttributeRemoved => lit "attribute-removed" | TextSet => lit "text-set"
  end.

(** A request with the defaults of [HttpRequest]. *)
Definition plain_request (m u : bytes) (l : header_list) (b : bytes) : HttpRequest :=
  {| method := m; request_url := u; request_headers := l; request_body := b; timeout_ms := 30000;
     max_response_bytes := 32 * 1024 * 1024; request_proxy := no_proxy_config |}.

Record HostRequest := { hr_method : bytes; hr_url : bytes; hr_headers : header_list; hr_body : bytes }.
Record HostResponse := { hs_ok : bool; hs_status : Z; hs_headers : header_list; hs_body : bytes; hs_final_url : bytes }.
Definition no_response : HostResponse := {| hs_ok := false; hs_status := 0; hs_headers := []; hs_body := []; hs_final_url := [] |}.

(** ** The operations *)

Section Navigation.
Context {Y Opt : Type} (config : BrowserConfig) (navigation_only : bool) (id : bytes)
  (react : Event -> Prelude.op (World (Page Y)) Event) (plugins : World (Page Y) -> list (@LoadedPlugin (World (Page Y))))
  (network : HttpRequest -> Prelude.op (World (Page Y)) HttpResponse)
  (read_time : bytes -> bytes -> option Z) (clock : World (Page Y) -> Z)
  (parse : bytes -> bytes -> bytes -> result Document) (moved_from : bytes -> bytes)
  (engine : bytes -> Opt -> bool -> Prelude.op (World (Page Y)) ScriptResult) (default_options : Opt)
  (release : Prelude.op (World (Page Y)) unit).

Abbreviation io := (Prelude.op (World (Page Y))).
Abbreviation send := (Session.request config id react plugins network read_time clock).
Abbreviation emit := (Session.emit_event id react).

Definition change_page (f : Page Y -> Page Y) : io unit := Session.modify (on_page f).

(** [try ... catch (const std::exception&)]. *)
Definition try_op {A} (m : io A) (h : ErrorCode -> io A) : io A := fun w =>
  match m w with (Ret a, w') => (Ret a, w') | (Throw e, w') => h e w' end.

(** *** The hooks of the script host *)

Definition observe (r : HostRequest) (response : HttpResponse) : io unit :=
  let content_type := header response (lit "Content-Type") in
  _ ← change_page (add_request {| ps_method := hr_method r; ps_url := hr_url r; ps_status := status response; ps_content_type := content_type |});
  if (hr_method r =s lit "GET") && successful (status response) && small_body (body response) && script_like (hr_url r) content_type
  then change_page (add_text {| pt_url := hr_url r; pt_body := body response |}) else mret tt.

(** The request hook. *)
Definition page_request (r : HostRequest) : io HostResponse :=
  if navigation_only then mret no_response
  else
    try_op
      (response ← send (plain_request (hr_method r) (hr_url r) (hr_headers r) (hr_body r));
       _ ← observe r response;
       mret {| hs_ok := true; hs_status := status response; hs_headers := headers response; hs_body := body response; hs_final_url := final_url response |})
      (fun _ => mret no_response).

(** The cookie hooks. *)
Definition page_cookie : io bytes :=
  doc ← Session.get session_document;
  match doc with
  | None => mret []
  | Some doc =>
      try_op (u ← lift_op (parse_url (url_ doc)); now ← Session.get clock; j ← Session.get w_jar; mret (cookie_header now u j)) (fun _ => mret [])
  end.

Definition set_page_cookie (cookie : bytes) : io unit :=
  doc ← Session.get session_document;
  match doc with
  | None => mret tt
  | Some doc =>
      try_op
        (u ← lift_op (parse_url (url_ doc));
         now ← Session.get clock;
         match parse_set_cookie read_time now cookie u with
         | None => mret tt
         | Some c =>
             set_at ← Session.get clock;
             _ ← Session.modify (fun w => set_jar (jar_set set_at u c (w_jar w)) w);
             _ ← emit (event_of CookieChange (to_string u) (c_name c) [] ∅); mret tt
         end)
        (fun _ => mret tt)
  end.

(** *** Scripts *)

Definition unavailable : ScriptResult := {| s_ok := false; s_value := []; s_error := lit "session JavaScript is unavailable" |}.

(** The destructor of [ScriptScope]: the engine of a closed session goes with the outermost evaluation. *)
Definition leave_script (w : World (Page Y)) : World (Page Y) :=
  let n := Nat.pred (p_depth (page w)) in
  on_page (set_runtime (if (n =? 0) && w_closed w then None else p_runtime (page w)) n) w.

Definition execute_script (script : bytes) (options : Opt) (module : bool) : io ScriptResult := fun w =>
  if w_closed w || negb (bool_decide (is_Some (p_runtime (page w)))) then (Ret unavailable, w)
  else
    let '(r, w') := engine script options module (on_page (fun p => set_runtime (p_runtime p) (S (p_depth p)) p) w) in
    (r, leave_script w').

Definition evaluate_js (script : bytes) (options : Opt) : io bytes :=
  is_closed ← Session.get w_closed;
  if (is_closed : bool) then throw_op InvalidArgument
  else
    runtime ← Session.get (fun w => p_runtime (page w));
    match runtime with
    | None => throw_op Unsupported
    | Some _ =>
        r ← execute_script script options false;
        if s_ok r then mret (s_value r)
        else u ← Session.get w_url; _ ← emit (event_of ScriptException u [] (s_error r) ∅); throw_op JavaScriptError
    end.

Fixpoint lifecycle_loop (passes : nat) (options : Opt) : io unit :=
  match passes with
  | O => mret tt
  | S passes' =>
      flushed ← execute_script (lit "__prowsetkFlush();") options false;
      is_closed ← Session.get w_closed;
      if is_closed || negb (s_ok flushed) || (s_value flushed =s lit "0") then mret tt else lifecycle_loop passes' options
  end.

Definition run_script_lifecycle (options : Opt) : io unit :=
  runtime ← Session.get (fun w => p_runtime (page w));
  match runtime with None => mret tt | Some _ => lifecycle_loop 16 options end.

(** *** The document *)

Definition mutation_event (u : bytes) (info : MutationInfo) : Event :=
  let attrs : gmap bytes bytes := {[lit "node" := m_node_name info]} in
  event_of DomMutation u (kind_name (m_kind info)) []
    (if nonempty (m_attribute_name info) then <[lit "attribute" := m_attribute_name info]> attrs else attrs).

Fixpoint emit_mutations (l : list MutationInfo) : io unit :=
  match l with
  | [] => mret tt
  | info :: l' => u ← Session.get w_url; _ ← emit (mutation_event u info); emit_mutations l'
  end.

(** A call of the script host; the listener of the document reports what it changed. *)
Definition host_op {A} (m : Prelude.op FlatwormScriptHost A) : io A := fun w =>
  let h := p_host (page w) in
  let '(r, h') := m h in
  (_ ← emit_mutations (drop (length (log (h_dom h))) (log (h_dom h'))); lift_op r) (on_page (set_host h') w).

Definition listening (root : nat) (h : FlatwormScriptHost) : FlatwormScriptHost :=
  ScriptHost.with_dom (set_mutation_listener root true (h_dom h)) h.

Definition of_document {A} (f : Document -> result A) (otherwise : A) : io A :=
  doc ← Session.get session_document;
  match doc with Some d => lift_op (f d) | None => mret otherwise end.

(** The events, plugins and the detector learn of the document. *)
Definition announce_document : io unit :=
  u ← Session.get w_url;
  t ← of_document title [];
  _ ← emit (event_of DocumentCreated u t [] ∅);
  doc ← Session.get session_document;
  _ ← match doc with
      | Some d => t ← lift_op (title d); loaded ← Session.get plugins; dispatch_document loaded (url_ d) t (doc_html d) (doc_text d)
      | None => mret tt
      end;
  doc ← Session.get session_document;
  match doc with
  | Some d =>
      detection ← lift_op (inspect_document d);
      known ← Session.get w_detection;
      report_anti_bot_detection id react (match known with Some k => if activated detection then merge k detection else detection | None => detection end)
  | None => mret tt
  end.

Definition update_class : io unit :=
  name ← host_op (fun h => (ScriptHost.document_element_class_name h, h));
  if nonempty name then host_op (ScriptHost.set_document_element_class_name (script_class name)) else mret tt.

(** [n]: which document the nodes belong to. *)
Fixpoint remove_noscripts (n : nat) (l : list nat) : io unit :=
  match l with
  | [] => mret tt
  | i :: l' =>
      same ← Session.get (fun w => (p_installs (page w) =? n)%nat);
      parent ← Session.get (fun w => parent_of (h_dom (p_host (page w))) i);
      _ ← match parent with
          | Some p => if (same : bool) then host_op (fun h => (Ret tt, ScriptHost.with_dom (remove_child p i (h_dom h)).2 h)) else mret tt
          | None => mret tt
          end;
      remove_noscripts n l'
  end.

Definition latest (n : nat) (seen : Document) : io Document :=
  Session.get (fun w => if (p_installs (page w) =? n)%nat then default seen (session_document w) else seen).

(** The text of a script; whatever the answer is, its body is the text. *)
Definition script_text (seen : Document) (base : bytes) (i : nat) : io bytes :=
  if negb (has_attribute (doc_dom seen) i (lit "src")) then mret (element_text (doc_dom seen) i)
  else if navigation_only then mret []
  else
    try_op
      (current ← Session.get w_url;
       u ← lift_op (resolve_url_string (if nonempty base then base else current) (doc_attribute seen i (lit "src")));
       q ← build_request config u;
       response ← send q;
       _ ← (if successful (status response) && small_body (body response) then change_page (add_text {| pt_url := u; pt_body := body response |}) else mret tt);
       mret (body response))
      (fun _ => mret []).

Definition script_type (seen : Document) (i : nat) : bytes := to_lower (rstrip is_blank (skip is_blank (doc_attribute seen i (lit "type")))).

Fixpoint run_scripts (n : nat) (seen : Document) (base : bytes) (l : list nat) : io unit :=
  match l with
  | [] => mret tt
  | i :: l' =>
      seen ← latest n seen;
      text ← script_text seen base i;
      if negb (nonempty text) then run_scripts n seen base l'
      else
        u ← Session.get w_url;
        _ ← emit (event_of BeforeScript u [] [] ∅);
        is_closed ← Session.get w_closed;
        if (is_closed : bool) then mret tt
        else
          seen ← latest n seen;
          r ← execute_script text default_options (script_type seen i =s lit "module");
          u ← Session.get w_url;
          _ ← emit (if s_ok r then event_of AfterScript u [] [] ∅ else event_of ScriptException u [] (s_error r) ∅);
          is_closed ← Session.get w_closed;
          if (is_closed : bool) then mret tt else run_scripts n seen base l'
  end.

(** The part of [install_document] behind the detection; [base] is what is left of the parameter, which was moved from. *)
Definition run_document (base : bytes) : io unit :=
  runtime ← Session.get (fun w => p_runtime (page w));
  match runtime with
  | None => mret tt
  | Some name =>
      if name =s lit "null" then
        handle_unsupported_api config react (lit "javascript") (lit "page scripts were not executed: no JavaScript engine")
      else
        _ ← update_class;
        n ← Session.get (fun w => p_installs (page w));
        l ← of_document (fun d => doc_query_all d (lit "noscript")) [];
        _ ← remove_noscripts n l;
        n ← Session.get (fun w => p_installs (page w));
        doc ← Session.get session_document;
        _ ← match doc with Some d => l ← lift_op (scripts d); run_scripts n d base l | None => mret tt end;
        run_script_lifecycle default_options
  end.

Definition install_document (html url base : bytes) : io unit :=
  next ← lift_op (parse html url base);
  _ ← change_page (set_observed [] []);
  previous ← Session.get w_url;
  _ ← Session.modify (fun w => set_url (url_ next) (on_page (fun p => set_orphan (Some next) (S (p_installs p)) p) w));
  next_base ← lift_op (Document.base_url next);
  h ← Session.get (fun w => p_host (page w));
  installed ← lift_op (ScriptHost.install (Some next) next_base h);
  _ ← change_page (fun p => set_orphan None (p_installs p) (set_host (listening (root_ next) (ScriptHost.set_referrer previous installed)) p));
  _ ← announce_document;
  run_document (moved_from base).

(** *** Navigations *)

Definition take_navigation : io (option PendingNavigation) := fun w =>
  let '(n, h) := ScriptHost.consume_pending_navigation (p_host (page w)) in (Ret n, on_page (set_host h) w).

Definition navigation_request (n : PendingNavigation) : HttpRequest :=
  plain_request (nav_method n) (nav_url n)
    (if nav_method n =s lit "POST" then [(lit "Content-Type", lit "application/x-www-form-urlencoded")] else []) (nav_body n).

(** The body of [try]; it answers whether the loop goes on. *)
Definition follow_one (n : PendingNavigation) (requests : list PageScriptRequest) (texts : list PageScriptText) : io bool :=
  response ← send (navigation_request n);
  if (400 <=? status response)%Z then _ ← change_page (set_observed requests texts); mret false
  else
    _ ← install_document (body response) (final_url response) (final_url response);
    _ ← change_page (fun p => set_observed (merge_requests (p_requests p) requests) (merge_texts (p_texts p) texts) p);
    _ ← change_page (add_request {| ps_method := if nonempty (nav_method n) then nav_method n else lit "GET"; ps_url := nav_url n;
                                    ps_status := status response; ps_content_type := header response (lit "Content-Type") |});
    mret true.

Fixpoint follow_loop (hops : nat) : io unit :=
  match hops with
  | O => mret tt
  | S hops' =>
      navigation ← take_navigation;
      match navigation with
      | None => mret tt
      | Some n =>
          if negb (nonempty (nav_url n)) then follow_loop hops'
          else
            requests ← Session.get (fun w => p_requests (page w));
            texts ← Session.get (fun w => p_texts (page w));
            go_on ← try_op (follow_one n requests texts) (fun _ => _ ← change_page (set_observed requests texts); mret false);
            if (go_on : bool) then follow_loop hops' else mret tt
      end
  end.

Definition follow_script_navigations : io unit :=
  is_closed ← Session.get w_closed;
  if (is_closed : bool) then mret tt else follow_loop (Z.to_nat (max_redirects config)).

Definition navigate (u : bytes) : io unit :=
  is_closed ← Session.get w_closed;
  if (is_closed : bool) then throw_op InvalidArgument
  else
    before ← emit (event_of BeforeNavigation u [] [] ∅);
    if cancelled before then mret tt
    else
      q ← build_request config u;
      response ← send q;
      if (400 <=? status response)%Z then throw_op NetworkError
      else
        _ ← install_document (body response) (final_url response) (final_url response);
        _ ← follow_script_navigations;
        landed ← Session.get w_url;
        _ ← emit (event_of AfterNavigation landed [] [] {[lit "status" := print_Z (status response)]});
        mret tt.

(** The navigation that scripts asked for is thrown away. *)
Definition load_html (html base_url : bytes) : io unit :=
  is_closed ← Session.get w_closed;
  if (is_closed : bool) then throw_op InvalidArgument
  else
    current ← Session.get w_url;
    let base := if nonempty base_url then base_url else current in
    _ ← install_document html base base;
    _ ← take_navigation; mret tt.

(** *** The clock, the viewport, clicks and typing *)

Definition pump_events (options : Opt) : io unit :=
  busy ← Session.get (fun w => w_closed w || negb (p_depth (page w) =? 0)%nat);
  if (busy : bool) then throw_op InvalidArgument
  else
    doc ← Session.get session_document;
    runtime ← Session.get (fun w => p_runtime (page w));
    match doc, runtime with
    | Some _, Some name => if name =s lit "null" then mret tt else _ ← run_script_lifecycle options; follow_script_navigations
    | _, _ => mret tt
    end.

Definition same_ratio (a b : Ratio) : bool :=
  match a, b with Finite p, Finite q => Qeq_bool p q | _, _ => false end.
Definition same_viewport (a b : ViewportInfo) : bool :=
  (width a =? width b)%Z && (height a =? height b)%Z && same_ratio (device_pixel_ratio a) (device_pixel_ratio b).

Definition set_viewport (next : ViewportInfo) (options : Opt) : io unit :=
  busy ← Session.get (fun w => w_closed w || negb (p_depth (page w) =? 0)%nat);
  if (busy : bool) then throw_op InvalidArgument
  else
    h ← Session.get (fun w => p_host (page w));
    h' ← lift_op (ScriptHost.set_viewport next h);
    _ ← change_page (set_host h');
    if same_viewport (viewport_ h) next then mret tt
    else
      doc ← Session.get session_document;
      runtime ← Session.get (fun w => p_runtime (page w));
      match doc, runtime with
      | Some _, Some name =>
          if name =s lit "null" then mret tt
          else
            r ← execute_script (lit "__prowsetkViewportChanged();") options false;
            is_closed ← Session.get w_closed;
            if negb (s_ok r) && negb is_closed then throw_op JavaScriptError
            else if (is_closed : bool) then mret tt else pump_events options
      | _, _ => mret tt
      end.

(** What [click_element] and [type_element] do with the handle of the element's node; [None] is no element. *)
Definition interact (element : option nat) (script : N -> bytes) : io bool :=
  ready ← Session.get (fun w => negb (w_closed w) && bool_decide (is_Some (p_runtime (page w))));
  if negb ready then mret false
  else
    match element with
    | None => mret false
    | Some i =>
        handle ← host_op (ScriptHost.intern (Some i));
        if (handle =? 0)%N then mret false
        else
          r ← execute_script (script handle) default_options false;
          is_closed ← Session.get w_closed;
          if is_closed || negb (s_ok r) || negb (s_value r =s lit "true") then mret false
          else _ ← run_script_lifecycle default_options; _ ← follow_script_navigations; mret true
    end.

Definition click_element (element : option nat) : io bool := interact element click_script.
Definition type_element (element : option nat) (text : bytes) : io bool := interact element (fun handle => type_script handle text).

(** [Session::close]. *)
Definition close_page : io unit :=
  Session.close id react (_ ← change_page (fun p => if (p_depth p =? 0)%nat then set_runtime None 0 p else p); release).
End Navigation.

(** ** The texts *)

(** What a string literal of a script means, from behind its opening quote (ECMA-262, 12.9.4): its value, and what stands
    behind the closing quote.  Bytes above 127 stand for themselves; of the [\u] escapes those below 128 are read. *)
Definition hex_digit_value (c : ascii) : option N :=
  if is_digit c then Some (code c - 48)%N else if ((97 <=? code c) && (code c <=? 102))%N then Some (code c - 87)%N else None.

Definition single_escape (c : ascii) : ascii :=
  if c =c "n" then byte 10 else if c =c "r" then byte 13 else if c =c "t" then byte 9 else if c =c "b" then byte 8
  else if c =c "f" then byte 12 else if c =c "v" then byte 11 else c.

Fixpoint read_literal (s : bytes) : option (bytes * bytes) :=
  match s with
  | [] => None
  | c :: s1 =>
      if c =c dquote then Some ([], s1)
      else if (c =c byte 10) || (c =c byte 13) then None
      else if c =c byte 92 then
        match s1 with
        | [] => None
        | e :: s2 =>
            if e =c "u" then
              match s2 with
              | z1 :: z2 :: h :: l :: s3 =>
                  high ← hex_digit_value h; low ← hex_digit_value l;
                  if (z1 =c "0") && (z2 =c "0") && (high <? 8)%N then
                    '(value, behind) ← read_literal s3; Some (byte (16 * high + low) :: value, behind)
                  else None
              | _ => None
              end
            else if (e =c "x") || is_digit e || (e =c byte 10) || (e =c byte 13) then None
            else '(value, behind) ← read_literal s2; Some (single_escape e :: value, behind)
        end
      else '(value, behind) ← read_literal s1; Some (c :: value, behind)
  end.

Lemma read_escaped c s v r : read_literal s = Some (v, r) -> read_literal (escape_char c ++ s) = Some (c :: v, r).
Proof. intros H. ascii_cases c; vm_compute escape_char; cbn; by rewrite H. Qed.

Lemma read_escape_text s t : read_literal (escape_text s ++ dquote :: t) = Some (s, t).
Proof.
  induction s as [|c s IH]; [done|]. unfold escape_text in *. rewrite mjoin_fmap_cons, <- app_assoc. by apply read_escaped.
Qed.

(** Words. *)
Definition word_ok (s : bytes) : Prop := s <> [] /\ none is_blank s = true.

Lemma words_loop_ok s word : none is_blank word = true -> Forall word_ok (words_loop word s).
Proof.
  revert word. induction s as [|c s IH]; intros word Hw; cbn [words_loop].
  - destruct word; [constructor|]. by apply Forall_singleton.
  - destruct (is_blank c) eqn:Ec.
    + destruct word; [by apply IH|]. apply Forall_cons. split; [done|]. by apply IH.
    + apply IH. rewrite none_app, Hw. cbn. by rewrite Ec.
Qed.

Lemma words_loop_word w word s : none is_blank w = true -> words_loop word (w ++ s) = words_loop (word ++ w) s.
Proof.
  revert word. induction w as [|c w IH]; intros word Hw; [by rewrite app_nil_r|]. cbn in Hw. apply andb_prop in Hw as [Hc Hw].
  apply negb_true_iff in Hc. cbn [app words_loop]. rewrite Hc, IH by done. by rewrite <- app_assoc.
Qed.

Lemma words_loop_space t s word : words_loop word (t ++ lit " " ++ s) = words_loop word t ++ words_loop [] s.
Proof.
  revert word. induction t as [|c t IH]; intros word.
  - cbn. change (is_blank " "%char) with true. cbv iota. by destruct word.
  - cbn [app words_loop]. destruct (is_blank c); [destruct word; cbn; by rewrite IH|apply IH].
Qed.

Lemma words_add t w : word_ok w -> words (add_word t w) = words t ++ [w].
Proof.
  intros [Hn Hw]. assert (words_loop [] w = [w]) as E.
  { rewrite <- (app_nil_r w) at 1. rewrite words_loop_word by done. cbn. by destruct w. }
  unfold add_word, words. destruct t as [|c t]; cbn [nonempty]; [exact E|]. by rewrite <- app_assoc, words_loop_space, E.
Qed.

Definition is_js (w : bytes) : bool := w =s lit "js".
Definition not_no_js (w : bytes) : bool := negb (w =s lit "no-js").

Lemma class_fold l text b : Forall word_ok l -> exists text', foldl class_step (text, b) l = (text', b || existsb is_js l) /\
  words text' = words text ++ List.filter not_no_js l.
Proof.
  revert text b. induction l as [|w l IH]; intros text b Hl; [exists text; cbn; by rewrite orb_false_r, app_nil_r|].
  apply Forall_cons in Hl as [Hw Hl]. cbn [foldl List.filter existsb]. unfold class_step at 2, not_no_js at 1. destruct (w =s lit "no-js") eqn:E; cbn [negb fst snd].
  - destruct (IH text b Hl) as (t & H1 & H2). exists t. split; [|done]. rewrite H1. apply eqb_bytes_true in E. by rewrite E.
  - destruct (IH (add_word text w) (b || (w =s lit "js")) Hl) as (t & H1 & H2). exists t. rewrite H1, H2, (words_add _ _ Hw), <- app_assoc, <- orb_assoc. done.
Qed.

(** The class of the document element loses [no-js] and has [js], once more only if it was there. *)
Lemma script_class_words s :
  words (script_class s) = List.filter not_no_js (words s) ++ (if existsb is_js (words s) then [] else [lit "js"]).
Proof.
  unfold script_class. destruct (class_fold (words s) [] false (words_loop_ok s [] eq_refl)) as (t & -> & H). cbn [orb].
  destruct (existsb is_js (words s)); [by rewrite app_nil_r|]. by rewrite words_add, H by done.
Qed.

(** ** Observations *)

Definition same_request (a b : PageScriptRequest) : Prop := ps_method a = ps_method b /\ ps_url a = ps_url b.

(** What was seen before is still there. *)
Definition still_observed {Y} (p q : Page Y) : Prop :=
  (forall r, r ∈ p_requests p -> exists r', r' ∈ p_requests q /\ same_request r' r) /\
  (forall t, t ∈ p_texts p -> exists t', t' ∈ p_texts q /\ pt_url t' = pt_url t).

#[export] Instance still_observed_preorder {Y} : PreOrder (@still_observed Y).
Proof.
  split.
  - intros p. split; [intros r Hr; by exists r|intros t Ht; by exists t].
  - intros p q s [H1 H2] [H3 H4]. split.
    + intros r (r1 & Hr1 & E1 & E2)%H1. destruct (H3 r1 Hr1) as (r2 & Hr2 & E3 & E4). exists r2. split; [done|]. split; congruence.
    + intros t (t1 & Ht1 & E1)%H2. destruct (H4 t1 Ht1) as (t2 & Ht2 & E2). exists t2. split; [done|congruence].
Qed.

(** A fold that adds what a test does not find keeps what it has, and covers what it goes over. *)
Lemma merge_covers {A} (same : A -> A -> bool) (prior current : list A) : (forall a, same a a = true) ->
  let merged := foldl (fun l p => if existsb (fun c => same c p) l then l else l ++ [p]) current prior in
  (forall c, c ∈ current -> c ∈ merged) /\ (forall p, p ∈ prior -> exists c, c ∈ merged /\ same c p = true).
Proof.
  intros Hrefl. revert current. induction prior as [|p prior IH]; intros current; cbn [foldl]; [split; [done|]; intros p Hp; by apply elem_of_nil in Hp|].
  set (next := if existsb _ current then current else current ++ [p]). destruct (IH next) as [H1 H2].
  assert (forall c, c ∈ current -> c ∈ next) as Hc by (intros c Hc; subst next; destruct (existsb _ current); [done|apply elem_of_app; by left]).
  split; [auto|]. intros q [->|Hq]%elem_of_cons; [|by apply H2]. subst next. destruct (existsb (fun c => same c p) current) eqn:E.
  - apply existsb_exists in E as (c & Hin & E). exists c. split; [|done]. apply H1. by apply list_elem_of_In.
  - exists p. split; [|done]. apply H1, elem_of_app. right. by apply list_elem_of_singleton.
Qed.

Lemma merged_observed {Y} (p : Page Y) requests texts :
  (forall r, r ∈ requests -> exists r', r' ∈ merge_requests (p_requests p) requests /\ same_request r' r) /\
  (forall t, t ∈ texts -> exists t', t' ∈ merge_texts (p_texts p) texts /\ pt_url t' = pt_url t).
Proof.
  split.
  - intros r Hr. destruct (merge_covers (fun c p => (ps_method c =s ps_method p) && (ps_url c =s ps_url p)) requests (p_requests p)) as [_ H].
    { intros a. by rewrite !eqb_bytes_refl. }
    destruct (H r Hr) as (c & Hc & [E1 E2]%andb_prop). apply eqb_bytes_true in E1, E2. by exists c.
  - intros t Ht. destruct (merge_covers (fun c p => pt_url c =s pt_url p) texts (p_texts p)) as [_ H].
    { intros a. by rewrite eqb_bytes_refl. }
    destruct (H t Ht) as (c & Hc & E). apply eqb_bytes_true in E. by exists c.
Qed.

Section Observations.
Context {Y Opt : Type} (config : BrowserConfig) (navigation_only : bool) (id : bytes)
  (react : Event -> Prelude.op (World (Page Y)) Event) (plugins : World (Page Y) -> list (@LoadedPlugin (World (Page Y))))
  (network : HttpRequest -> Prelude.op (World (Page Y)) HttpResponse)
  (read_time : bytes -> bytes -> option Z) (clock : World (Page Y) -> Z)
  (parse : bytes -> bytes -> bytes -> result Document) (moved_from : bytes -> bytes)
  (engine : bytes -> Opt -> bool -> Prelude.op (World (Page Y)) ScriptResult) (default_options : Opt).

Abbreviation follow_step := (follow_one config navigation_only id react plugins network read_time clock parse moved_from engine default_options).
Abbreviation follow := (follow_loop config navigation_only id react plugins network read_time clock parse moved_from engine default_options).

(** A step that ends without an error leaves what it was given. *)
Lemma follow_one_observed n requests texts w b w' : follow_step n requests texts w = (Ret b, w') ->
  (forall r, r ∈ requests -> exists r', r' ∈ p_requests (page w') /\ same_request r' r) /\
  (forall t, t ∈ texts -> exists t', t' ∈ p_texts (page w') /\ pt_url t' = pt_url t).
Proof.
  unfold follow_one. rewrite op_bind_Ret. intros (response & w1 & _ & H). destruct (400 <=? status response)%Z.
  - unfold change_page, Session.modify in H. rewrite op_bind_eq in H. injection H as _ <-. cbn. split; [intros r Hr; by exists r|intros t Ht; by exists t].
  - apply op_bind_Ret in H as (u & w2 & _ & H). unfold change_page, Session.modify in H. rewrite !op_bind_eq in H. injection H as _ <-.
    destruct (merged_observed (page w2) requests texts) as [H1 H2]. cbn. split; [|exact H2]. intros r (r' & Hr & E)%H1. exists r'. split; [|done]. apply elem_of_app. by left.
Qed.

Lemma follow_observed hops w : exists w', follow hops w = (Ret tt, w') /\ still_observed (page w) (page w').
Proof.
  revert w. induction hops as [|hops IH]; intros w; [by exists w|]. cbn [follow_loop]. unfold take_navigation. rewrite op_bind_eq.
  destruct (consume_pending_navigation _) as [[n|] h]; [|eexists; split; [done|]; by split; [intros r Hr; exists r|intros t Ht; exists t]].
  set (w1 := on_page (set_host h) w). assert (still_observed (page w) (page w1)) as H1 by (split; [intros r Hr; by exists r|intros t Ht; by exists t]). clearbody w1.
  destruct (nonempty (nav_url n)); cbn [negb]; [|destruct (IH w1) as (w' & E & H); exists w'; split; [done|by etransitivity]].
  rewrite op_bind_eq. cbn [Session.get]. rewrite op_bind_eq. cbn [Session.get]. rewrite op_bind_eq. unfold try_op.
  destruct (follow_step n _ _ w1) as [[b|e] w2] eqn:Ef.
  - apply follow_one_observed in Ef. assert (still_observed (page w1) (page w2)) as H2 by exact Ef.
    destruct b; [|exists w2; split; [done|by etransitivity]]. destruct (IH w2) as (w' & E & H). exists w'. split; [done|]. etransitivity; [exact H1|]. by etransitivity.
  - unfold change_page, Session.modify. rewrite op_bind_eq. eexists. split; [done|]. etransitivity; [exact H1|]. split; [intros r Hr; by exists r|intros t Ht; by exists t].
Qed.

(** C38: following the navigations that scripts ask for never fails and never loses what was observed: whatever the network,
    the handlers and the scripts of the pages do, every request and every script that was recorded before is recorded
    after, by its method and URL. *)
Theorem observations_survive w : exists w',
  follow_script_navigations config navigation_only id react plugins network read_time clock parse moved_from engine default_options w = (Ret tt, w') /\
  still_observed (page w) (page w').
Proof.
  unfold follow_script_navigations. rewrite op_bind_eq. cbn [Session.get]. destruct (w_closed w); [by exists w|]. apply follow_observed.
Qed.
End Observations.

(** C39: the script that types a text passes exactly this text on: behind the quote that opens its string literal the script
    engine reads the bytes of the text, whatever they are, and the literal ends where the script ends the call. *)
Theorem typed_text handle text : exists literal,
  type_script handle text = lit "__prowsetkType(" ++ print_N handle ++ lit "," ++ dquote :: literal /\
  read_literal literal = Some (text, lit ");").
Proof. exists (escape_text text ++ dquote :: lit ");"). split; [done|]. apply read_escape_text. Qed.

(** ** The life of the script engine *)

(** A closed session has an engine only while a script runs. *)
Definition freed {Y} (w : World (Page Y)) : Prop := w_closed w = true -> p_depth (page w) = 0 -> p_runtime (page w) = None.

(** How what is behind a session may change. *)
Record Rule (Y : Type) := { rule : relation Y; rule_preorder : PreOrder rule }.
Arguments rule {Y} _ _ _.
#[export] Existing Instance rule_preorder.

(** What every operation respects: evaluations are left as often as they are entered, the engine stays while a script runs
    and never comes back, a session stays closed, and what is behind the session changes as the relation says. *)
Record respects {Y} (R : Rule Y) (w w' : World (Page Y)) : Prop := {
  same_depth : p_depth (page w') = p_depth (page w);
  same_runtime : 0 < p_depth (page w) -> p_runtime (page w') = p_runtime (page w);
  gone_runtime : p_runtime (page w) = None -> p_runtime (page w') = None;
  stays_closed : w_closed w = true -> w_closed w' = true;
  stays_freed : freed w -> freed w';
  beyond_changes : rule R (p_beyond (page w)) (p_beyond (page w')) }.

#[export] Instance respects_preorder {Y} (R : Rule Y) : PreOrder (respects R).
Proof.
  split; [by intros w; split|]. intros w1 w2 w3 [A1 A2 A3 A4 A5 A6] [B1 B2 B3 B4 B5 B6]. split; auto; [congruence| |by etransitivity].
  intros H. rewrite B2, A2 by (rewrite ?A1; done). done.
Qed.

Definition lawful {Y A} (R : Rule Y) (m : Prelude.op (World (Page Y)) A) : Prop := forall w, respects R w (m w).2.

Section Lawful.
Context {Y : Type} (R : Rule Y).
Abbreviation io := (Prelude.op (World (Page Y))).

Lemma lawful_bind {A B} (m : io A) (k : A -> io B) : lawful R m -> (forall a, lawful R (k a)) -> lawful R (x ← m; k x).
Proof. intros Hm Hk w. specialize (Hm w). rewrite op_bind_eq. destruct (m w) as [[a|e] w1]; [|done]. etransitivity; [exact Hm|apply Hk]. Qed.

Lemma lawful_ret {A} (a : A) : lawful R (mret a : io A).
Proof. by intros w. Qed.
Lemma lawful_lift {A} (m : result A) : lawful R (lift_op m : io A).
Proof. by intros w. Qed.
Lemma lawful_throw {A} e : lawful R (throw_op e : io A).
Proof. by intros w. Qed.
Lemma lawful_get {A} (f : World (Page Y) -> A) : lawful R (Session.get f).
Proof. by intros w. Qed.
Lemma lawful_modify (f : World (Page Y) -> World (Page Y)) : (forall w, respects R w (f w)) -> lawful R (Session.modify f).
Proof. intros H w. apply H. Qed.
Lemma lawful_page (f : Page Y -> Page Y) : (forall p, p_depth (f p) = p_depth p /\ p_runtime (f p) = p_runtime p /\ p_beyond (f p) = p_beyond p) -> lawful R (change_page f).
Proof. intros H. apply lawful_modify. intros w. destruct (H (rest w)) as (H1 & H2 & H3). split; unfold freed, page; cbn; rewrite ?H1, ?H2, ?H3; done. Qed.
Lemma lawful_try {A} (m : io A) (h : ErrorCode -> io A) : lawful R m -> (forall e, lawful R (h e)) -> lawful R (try_op m h).
Proof. intros Hm Hh w. specialize (Hm w). unfold try_op. destruct (m w) as [[a|e] w1]; [done|]. etransitivity; [exact Hm|apply Hh]. Qed.
End Lawful.

Create HintDb lawful.
#[export] Hint Resolve lawful_ret lawful_lift lawful_throw lawful_get : lawful.

(** Walk through an operation, branch by branch. *)
Ltac lawfully := cbv zeta; repeat first
  [ solve [auto with lawful nocore]
  | apply lawful_bind; intros
  | apply lawful_try; intros
  | apply lawful_page; intros; by split_and!
  | apply lawful_modify; intros; by split
  | match goal with |- lawful _ match ?x with _ => _ end => destruct x end ].

Section Life.
Context {Y Opt : Type} (config : BrowserConfig) (navigation_only : bool) (id : bytes)
  (react : Event -> Prelude.op (World (Page Y)) Event) (plugins : World (Page Y) -> list (@LoadedPlugin (World (Page Y))))
  (network : HttpRequest -> Prelude.op (World (Page Y)) HttpResponse)
  (read_time : bytes -> bytes -> option Z) (clock : World (Page Y) -> Z)
  (parse : bytes -> bytes -> bytes -> result Document) (moved_from : bytes -> bytes)
  (engine : bytes -> Opt -> bool -> Prelude.op (World (Page Y)) ScriptResult) (default_options : Opt)
  (release : Prelude.op (World (Page Y)) unit) (R : Rule Y).

(** What is asked of the code around a session; of the engine, only while it evaluates a script. *)
Record surroundings : Prop := {
  lawful_react : forall ev, lawful R (react ev);
  lawful_network : forall r, lawful R (network r);
  lawful_before : forall w r, lawful R (dispatch_before_request (plugins w) r);
  lawful_after : forall w r p, lawful R (dispatch_after_response (plugins w) r p);
  lawful_document : forall w u t html text, lawful R (dispatch_document (plugins w) u t html text);
  lawful_release : lawful R release;
  lawful_engine : forall script options module w, 0 < p_depth (page w) -> is_Some (p_runtime (page w)) -> respects R w (engine script options module w).2 }.

Context (S : surroundings).

Lemma lawful_plugins {A} (k : list (@LoadedPlugin (World (Page Y))) -> Prelude.op (World (Page Y)) A) :
  (forall w, lawful R (k (plugins w))) -> lawful R (loaded ← Session.get plugins; k loaded).
Proof. intros H w. exact (H w w). Qed.

Lemma lawful_emit ev : lawful R (Session.emit_event id react ev).
Proof. apply S. Qed.
Lemma lawful_dispatch_before w r : lawful R (dispatch_before_request (plugins w) r).
Proof. apply S. Qed.
Lemma lawful_dispatch_after w r p : lawful R (dispatch_after_response (plugins w) r p).
Proof. apply S. Qed.
Lemma lawful_dispatch_document w u t html text : lawful R (dispatch_document (plugins w) u t html text).
Proof. apply S. Qed.
Lemma lawful_send r : lawful R (network_send network clock r).
Proof. unfold network_send. apply lawful_bind; [apply lawful_modify; intros w; by split|]. intros u. apply S. Qed.
#[local] Hint Resolve lawful_emit lawful_dispatch_before lawful_dispatch_after lawful_dispatch_document lawful_send : lawful.

Ltac lawful_call := repeat first [progress lawfully | apply lawful_plugins; intros].

Lemma lawful_react_bind ev : lawful R (_ ← react ev; mret tt).
Proof. apply lawful_bind; [apply S|done]. Qed.

Lemma lawful_cookies origin l : lawful R (apply_response_cookies react read_time clock origin l).
Proof.
  induction l as [|[name value] l IH]; cbn [apply_response_cookies]; [done|]. apply lawful_bind; [done|]. intros now. destruct (if header_name_equal _ _ then _ else _); [|done].
  lawfully; by try apply S.
Qed.

Lemma lawful_report d : lawful R (report_anti_bot_detection id react d).
Proof. unfold report_anti_bot_detection. lawfully. Qed.
#[local] Hint Resolve lawful_react_bind lawful_cookies lawful_report : lawful.

Lemma lawful_fetch r : lawful R (fetch config id react plugins network read_time clock r).
Proof.
  unfold fetch. cbv zeta. apply lawful_bind; [lawfully|]. intros before. destruct (cancelled before); [done|]. apply lawful_plugins. intros w0.
  do 4 (apply lawful_bind; [lawfully|]; intros ?). cbv zeta. do 3 (apply lawful_bind; [lawfully|]; intros ?). apply lawful_plugins. intros w1. lawfully.
Qed.

Lemma lawful_loop left chain r : lawful R (request_loop config id react plugins network read_time clock left chain r).
Proof.
  revert chain r. induction left as [|left IH]; intros chain r; cbn [request_loop]; (apply lawful_bind; [apply lawful_fetch|]; intros [[q u] p]; lawfully); by apply IH.
Qed.

Lemma lawful_request r : lawful R (Session.request config id react plugins network read_time clock r).
Proof. unfold Session.request. apply lawful_bind; [done|]. intros b. destruct b; [done|]. apply lawful_bind; [done|]. intros l. apply lawful_loop. Qed.
#[local] Hint Resolve lawful_request : lawful.

Lemma lawful_execute script options module : lawful R (execute_script engine script options module).
Proof.
  intros w. unfold execute_script. destruct (w_closed w || _) eqn:E; [done|]. apply orb_false_elim in E as [E1 E2%negb_false_iff%bool_decide_eq_true].
  set (w1 := on_page _ w). pose proof (lawful_engine S script options module w1) as H. specialize (H ltac:(cbn; lia) E2). destruct (engine script options module w1) as [r w2]. cbn [snd] in *.
  destruct H as [H1 H2 H3 H4 _ H6]. specialize (H2 ltac:(cbn; lia)). unfold w1, page in H1, H2; cbn in H1, H2. fold (page w) in H1, H2.
  assert (p_depth (page (leave_script w2)) = p_depth (page w)) as Ed by (unfold leave_script, page in *; cbn; rewrite H1; done).
  assert (p_runtime (page (leave_script w2)) = if (p_depth (page w) =? 0) && w_closed w2 then None else p_runtime (page w)) as Er by (unfold leave_script, page in *; cbn; rewrite H1, H2; done).
  split.
  - exact Ed.
  - intros Hd. rewrite Er. by destruct (p_depth (page w)); [lia|].
  - intros Hn. rewrite Hn in E2. by destruct E2.
  - congruence.
  - intros _ Hc Hz. rewrite Ed in Hz. rewrite Er, Hz. change (w_closed (leave_script w2)) with (w_closed w2) in Hc. by rewrite Hc.
  - exact H6.
Qed.
#[local] Hint Resolve lawful_execute : lawful.

Lemma lawful_lifecycle options : lawful R (run_script_lifecycle engine options).
Proof.
  unfold run_script_lifecycle. apply lawful_bind; [done|]. intros [name|]; [|done]. generalize 16. intros n. induction n as [|n IH]; cbn [lifecycle_loop]; lawfully; done.
Qed.
#[local] Hint Resolve lawful_lifecycle : lawful.

Lemma lawful_mutations l : lawful R (emit_mutations (Y := Y) id react l).
Proof. induction l as [|info l IH]; cbn [emit_mutations]; lawfully; done. Qed.

Lemma lawful_host {A} (m : Prelude.op FlatwormScriptHost A) : lawful R (host_op (Y := Y) id react m).
Proof.
  intros w. unfold host_op. destruct (m (p_host (page w))) as [r h]. set (w1 := on_page (set_host h) w).
  assert (respects R w w1) as H by (by split). etransitivity; [exact H|]. apply lawful_bind; [apply lawful_mutations|done].
Qed.
#[local] Hint Resolve lawful_host : lawful.

Lemma lawful_of_document {A} (f : Document -> result A) otherwise : lawful R (of_document (Y := Y) f otherwise).
Proof. unfold of_document. lawfully. Qed.
#[local] Hint Resolve lawful_of_document : lawful.

Lemma lawful_announce : lawful R (announce_document id react plugins).
Proof.
  unfold announce_document. do 4 (apply lawful_bind; [lawfully|]; intros ?). apply lawful_bind; [|intros _; lawfully].
  case_match; [|done]. apply lawful_bind; [done|]. intros t. apply lawful_plugins. intros w. lawfully.
Qed.

Lemma lawful_noscripts n l : lawful R (remove_noscripts (Y := Y) id react n l).
Proof. induction l as [|i l IH]; cbn [remove_noscripts]; lawfully; done. Qed.

Abbreviation send := (Session.request config id react plugins network read_time clock).

Lemma lawful_build u : lawful R (build_request (X := Page Y) config u).
Proof. unfold build_request. lawfully. Qed.
#[local] Hint Resolve lawful_announce lawful_noscripts lawful_build : lawful.

Lemma lawful_script_text seen base i : lawful R (script_text config navigation_only id react plugins network read_time clock seen base i).
Proof. unfold script_text. lawfully. Qed.
#[local] Hint Resolve lawful_script_text : lawful.

Lemma lawful_scripts n seen base l : lawful R (run_scripts config navigation_only id react plugins network read_time clock engine default_options n seen base l).
Proof.
  revert seen. induction l as [|i l IH]; intros seen; cbn [run_scripts]; [done|]. unfold latest. apply lawful_bind; [done|]. intros seen1.
  apply lawful_bind; [lawfully|]. intros text. destruct (negb (nonempty text)); [apply IH|]. lawfully; apply IH.
Qed.
#[local] Hint Resolve lawful_scripts : lawful.

Lemma lawful_unsupported name text : lawful R (handle_unsupported_api config react name text).
Proof. unfold handle_unsupported_api. lawfully; by try apply S. Qed.
#[local] Hint Resolve lawful_unsupported : lawful.

Lemma lawful_run base : lawful R (run_document config navigation_only id react plugins network read_time clock engine default_options base).
Proof. unfold run_document, update_class. lawfully. Qed.
#[local] Hint Resolve lawful_run : lawful.

Lemma lawful_install html url base :
  lawful R (install_document config navigation_only id react plugins network read_time clock parse moved_from engine default_options html url base).
Proof. unfold install_document. lawfully. Qed.
#[local] Hint Resolve lawful_install : lawful.

Lemma lawful_take : lawful R (take_navigation (Y := Y)).
Proof. intros w. unfold take_navigation. destruct (consume_pending_navigation _) as [n h]. by split. Qed.
#[local] Hint Resolve lawful_take : lawful.

Lemma lawful_follow_one n requests texts :
  lawful R (follow_one config navigation_only id react plugins network read_time clock parse moved_from engine default_options n requests texts).
Proof. unfold follow_one. lawfully. Qed.
#[local] Hint Resolve lawful_follow_one : lawful.

Lemma lawful_follow : lawful R (follow_script_navigations config navigation_only id react plugins network read_time clock parse moved_from engine default_options).
Proof.
  unfold follow_script_navigations. apply lawful_bind; [done|]. intros [|]; [done|]. generalize (Z.to_nat (max_redirects config)). intros hops.
  induction hops as [|hops IH]; cbn [follow_loop]; lawfully; apply IH.
Qed.
#[local] Hint Resolve lawful_follow : lawful.

Lemma lawful_pump options : lawful R (pump_events config navigation_only id react plugins network read_time clock parse moved_from engine default_options options).
Proof. unfold pump_events. lawfully. Qed.
#[local] Hint Resolve lawful_pump : lawful.

Lemma lawful_close : lawful R (close_page id react release).
Proof.
  intros w. unfold close_page, Session.close. rewrite op_bind_eq. cbn [Session.get]. destruct (w_closed w) eqn:Ec; [done|]. rewrite op_bind_eq. cbn [Session.modify].
  rewrite op_bind_eq. rewrite op_bind_eq. unfold change_page, Session.modify at 1. set (w1 := on_page _ _).
  assert (respects R w w1) as H.
  { subst w1. split; unfold freed, page, on_page, set_closed; cbn; destruct (Nat.eqb_spec (p_depth (rest w)) 0) as [E|E]; cbn; rewrite ?E; first [done | lia]. }
  clearbody w1. pose proof (lawful_release S w1) as H1. destruct (release w1) as [[u|e] w2]; cbn [snd] in H1; [|by etransitivity]. etransitivity; [exact H|]. etransitivity; [exact H1|].
  apply lawful_bind; [auto with lawful|done].
Qed.

(** *** Every call of a session *)

Inductive SessionCall :=
  | Navigate (u : bytes) | LoadHtml (html base : bytes) | EvaluateJs (script : bytes) (options : Opt) | Click (element : option nat)
  | TypeText (element : option nat) (text : bytes) | PumpEvents (options : Opt) | SetViewport (v : ViewportInfo) (options : Opt)
  | SendRequest (r : HttpRequest) | PageRequest (r : HostRequest) | SetPageCookie (cookie : bytes) | CloseSession.

(** What a call leaves, whether it succeeds or fails. *)
Definition run_call (w : World (Page Y)) (c : SessionCall) : World (Page Y) :=
  match c with
  | Navigate u => (navigate config navigation_only id react plugins network read_time clock parse moved_from engine default_options u w).2
  | LoadHtml html base => (load_html config navigation_only id react plugins network read_time clock parse moved_from engine default_options html base w).2
  | EvaluateJs script options => (evaluate_js id react engine script options w).2
  | Click e => (click_element config navigation_only id react plugins network read_time clock parse moved_from engine default_options e w).2
  | TypeText e t => (type_element config navigation_only id react plugins network read_time clock parse moved_from engine default_options e t w).2
  | PumpEvents o => (pump_events config navigation_only id react plugins network read_time clock parse moved_from engine default_options o w).2
  | SetViewport v o => (set_viewport config navigation_only id react plugins network read_time clock parse moved_from engine default_options v o w).2
  | SendRequest r => (send r w).2
  | PageRequest r => (page_request config navigation_only id react plugins network read_time clock r w).2
  | SetPageCookie c => (set_page_cookie id react read_time clock c w).2
  | CloseSession => (close_page id react release w).2
  end.

Lemma call_respects c w : respects R w (run_call w c).
Proof.
  destruct c; cbn [run_call]; match goal with |- respects R w (?m w).2 => revert w; change (lawful R m) end.
  - unfold navigate. lawfully.
  - unfold load_html. lawfully.
  - unfold evaluate_js. lawfully.
  - unfold click_element, interact. lawfully.
  - unfold type_element, interact. lawfully.
  - lawfully.
  - unfold set_viewport. lawfully.
  - lawfully.
  - unfold page_request, observe. lawfully.
  - unfold set_page_cookie. lawfully.
  - apply lawful_close.
Qed.

Lemma calls_respect calls w : respects R w (foldl run_call w calls).
Proof. revert w. induction calls as [|c calls IH]; intros w; [done|]. cbn [foldl]. etransitivity; [apply call_respects|apply IH]. Qed.

Lemma close_closes w : w_closed (run_call w CloseSession) = true.
Proof.
  cbn [run_call]. unfold close_page, Session.close. rewrite op_bind_eq. cbn [Session.get]. destruct (w_closed w) eqn:Ec; [done|]. rewrite op_bind_eq. cbn [Session.modify].
  match goal with |- w_closed (?m ?w0).2 = true => assert (lawful_rest : forall w, w_closed w = true -> w_closed (m w).2 = true) end.
  { intros w0 H0. rewrite op_bind_eq, op_bind_eq. unfold change_page, Session.modify at 1. set (w1 := on_page _ w0). assert (w_closed w1 = true) as H1 by done. clearbody w1.
    pose proof (lawful_release S w1) as [_ _ _ H2 _ _]. destruct (release w1) as [[u|e] w2]; cbn [snd] in H2; [|by apply H2]. specialize (H2 H1).
    rewrite op_bind_eq. pose proof (lawful_emit (event_of SessionDestroyed [] id [] ∅) w2) as [_ _ _ H3 _ _]. destruct (Session.emit_event _ _ _ w2) as [[ev|e] w3]; by apply H3. }
  by apply lawful_rest.
Qed.

(** C37: the script engine of a session lives as long as it should, whatever scripts, handlers and plugins do, calls back into
    the session included: no call frees it while a script runs, every call leaves as many evaluations as it found, the
    engine never comes back, and a session that was closed, at any point of any sequence of calls, has none once no
    script runs; and what is behind the session changes only as its surroundings change it. *)
Theorem runtime_lifetime calls w : freed w -> let w' := foldl run_call w calls in
  respects R w w' /\ freed w' /\ (CloseSession ∈ calls -> p_depth (page w) = 0 -> w_closed w' = true /\ p_runtime (page w') = None).
Proof.
  intros Hf w'. assert (respects R w w') as H by apply calls_respect. pose proof (stays_freed _ _ _ H Hf) as Hf'. split_and!; [done|done|]. intros Hin Hd.
  assert (w_closed w' = true) as Hc; [|split; [done|apply Hf'; [done|by rewrite (same_depth _ _ _ H)]]].
  apply list_elem_of_split in Hin as (l1 & l2 & ->). subst w'. rewrite foldl_app. cbn [foldl]. eapply stays_closed; [apply calls_respect|]. apply close_closes.
Qed.
End Life.

(** ** On concrete inputs *)

(** The engine writes down what it runs; a script that says [close] closes the session, one that says [go] asks for a
    navigation. *)
Abbreviation demo_state := (World (Page (list bytes))).
Definition demo_react (ev : Event) : Prelude.op demo_state Event := mret ev.
Definition demo_release : Prelude.op demo_state unit := mret tt.
Definition demo_plugins (w : demo_state) : list (@LoadedPlugin demo_state) := [].

Definition demo_pages (r : HttpRequest) : Prelude.op demo_state HttpResponse := fun w =>
  (Ret (if request_url r =s lit "http://h/" then {| status := 200; headers := []; body := lit "<base href='/x/'><script src='a.js'></script><script type='application/json'>data</script>"; final_url := []; redirect_chain := [] |}
        else if request_url r =s lit "http://h/go" then {| status := 200; headers := []; body := lit "<script>go</script>"; final_url := []; redirect_chain := [] |}
        else if request_url r =s lit "http://h/end" then {| status := 200; headers := []; body := lit "<script>close</script><script>more</script>"; final_url := []; redirect_chain := [] |}
        else {| status := 404; headers := []; body := lit "Not found"; final_url := []; redirect_chain := [] |}), w).

Definition done_script : ScriptResult := {| s_ok := true; s_value := lit "0"; s_error := [] |}.

Definition write_down (script : bytes) (p : Page (list bytes)) : Page (list bytes) :=
  {| p_host := if script =s lit "go" then request_navigation (lit "/end") (p_host p) else p_host p; p_orphan := p_orphan p; p_installs := p_installs p;
     p_runtime := p_runtime p; p_depth := p_depth p; p_requests := p_requests p; p_texts := p_texts p; p_beyond := p_beyond p ++ [script] |}.

Definition demo_engine (script : bytes) (options : unit) (module : bool) : Prelude.op demo_state ScriptResult :=
  _ ← Session.modify (on_page (write_down script));
  _ ← (if script =s lit "close" then close_page (lit "s") demo_react demo_release else mret tt);
  mret done_script.

Definition demo_call : demo_state -> SessionCall (Opt := unit) -> demo_state :=
  run_call demo_config false (lit "s") demo_react demo_plugins demo_pages no_dates (fun _ => 0%Z) parse_html (fun _ => []) demo_engine tt demo_release.

Definition demo_session : demo_state :=
  {| w_jar := []; w_headers := []; w_url := []; w_closed := false; w_detection := None; w_log := [];
     rest := {| p_host := new_host; p_orphan := None; p_installs := 0; p_runtime := Some (lit "demo"); p_depth := 0; p_requests := []; p_texts := []; p_beyond := [] |} |}.

Definition inert_engine (script : bytes) (options : unit) (module : bool) : Prelude.op demo_state ScriptResult := mret done_script.

(** The log of the scripts grows only. *)
Definition grows (a b : list bytes) : Prop := exists l, b = a ++ l.

#[export] Instance grows_order : PreOrder grows.
Proof. split; [intros a; exists []; by rewrite app_nil_r|]. intros a b c [l ->] [m ->]. exists (l ++ m). by rewrite app_assoc. Qed.

Definition script_log : Rule (list bytes) := {| rule := grows; rule_preorder := grows_order |}.

Lemma inert_surroundings : surroundings demo_react demo_plugins demo_pages inert_engine demo_release script_log.
Proof. by split. Qed.

Lemma demo_surroundings : surroundings demo_react demo_plugins demo_pages demo_engine demo_release script_log.
Proof.
  split; try done. intros script options module w _ _. revert w. change (lawful script_log (demo_engine script options module)). unfold demo_engine.
  apply lawful_bind; [|intros u; apply lawful_bind; [|done]; destruct (script =s lit "close"); [|done]; exact (lawful_close _ _ _ _ _ _ _ inert_surroundings)].
  intros w. split; try done. by exists [script].
Qed.

(** A page closes the session from its script: what stands behind is not run, and the engine is gone. *)
Example closed_by_script :
  let w := foldl demo_call demo_session [Navigate (lit "http://h/go")] in
  w_closed w = true /\ p_runtime (page w) = None /\ p_depth (page w) = 0 /\
  p_beyond (page w) = [lit "go"; lit "__prowsetkFlush();"; lit "close"] /\ request_url <$> w_sent w = [lit "http://h/go"; lit "http://h/end"].
Proof. vm_compute. done. Qed.

Lemma runtime_lifetime_witness :
  let w' := foldl demo_call demo_session [Navigate (lit "http://h/go"); CloseSession] in
  respects script_log demo_session w' /\ freed w' /\ (CloseSession ∈ [Navigate (lit "http://h/go"); CloseSession (Opt := unit)] -> p_depth (page demo_session) = 0 -> w_closed w' = true /\ p_runtime (page w') = None).
Proof.
  exact (runtime_lifetime demo_config false (lit "s") demo_react demo_plugins demo_pages no_dates (fun _ => 0%Z) parse_html (fun _ => []) demo_engine tt demo_release
    script_log demo_surroundings [Navigate (lit "http://h/go"); CloseSession] demo_session (fun _ _ => ltac:(done))).
Defined.

(** The URL of a script is resolved against the page, not against its [base]; the body of an answer that says that there
    is no script is run, and so is a block of data. *)
Example scripts_run :
  let w := foldl demo_call demo_session [Navigate (lit "http://h/")] in
  request_url <$> w_sent w = [lit "http://h/"; lit "http://h/a.js"] /\ p_beyond (page w) = [lit "Not found"; lit "data"; lit "__prowsetkFlush();"].
Proof. vm_compute. done. Qed.

(** A navigation that a script asks for has the time limit of a plain request, not the one of the configuration. *)
Example navigation_timeout : let w := foldl demo_call demo_session [Navigate (lit "http://h/go")] in
  max_response_bytes <$> w_sent w = [b_max_response_bytes demo_config; 33554432%N].
Proof. vm_compute. done. Qed.

Example typed_quotes : escape_text (lit "a'\" ++ [dquote; byte 10; byte 1; byte 200]) = lit "a\'\\" ++ [byte 92; dquote] ++ lit "\n\u0001" ++ [byte 200].
Proof. vm_compute. reflexivity. Qed.
