(* ===== verification/SpiderSession.v ===== *)
(** * SpiderSession: the session of a crawler as a host of its engine

    The class [Spider.Host] implemented by the sessions of [Navigation] over [OriginNetwork], as the constructor of
    [Engine::Impl] in [plugins/spider/src/spider.cpp] puts them together; and what this network lets out. *)
From S2P Require Import ScriptHost.
From S2P Require Import Prelude Url Proxy Message Html HtmlTree Dom Selector SelectorMatch Document Storage SetCookie AntiBot Plugins Session Navigation Frame Spider Polite.
#[local] Open Scope N_scope.

(** The configuration of the browser of a spider. *)
Definition spider_config : BrowserConfig :=
  {| user_agent := lit "ProwseTkSpider/0.1"; follow_redirects := true; max_redirects := 5; b_timeout_ms := 10000; b_max_response_bytes := 2 * 1024 * 1024;
     unsupported_api_behavior := lit "warn"; b_proxy := no_proxy_config |}.

Definition as_caught {W A} (m : Prelude.op W A) (w : W) : caught A * W :=
  match m w with (Ret a, w') => (Done a, w') | (Throw e, w') => (Raised e, w') end.

(** The request of the engine: a plain one, or one with a limit of its own. *)
Definition engine_request (u : bytes) (limit : option N) : HttpRequest :=
  let r := plain_request (lit "GET") u [] [] in
  match limit with
  | None => r
  | Some n => {| method := method r; request_url := request_url r; request_headers := request_headers r; request_body := request_body r;
                 timeout_ms := timeout_ms r; max_response_bytes := n; request_proxy := request_proxy r |}
  end.

Section SpiderSession.
Context {Y Opt : Type} (id : bytes) (react : Event.Event -> Prelude.op (World (Page Y)) Event.Event)
  (inner : HttpRequest -> Prelude.op (World (Page Y)) HttpResponse) (plugins : World (Page Y) -> list (@LoadedPlugin (World (Page Y))))
  (read_time : bytes -> bytes -> option Z) (clock : World (Page Y) -> Z) (parse : bytes -> bytes -> bytes -> result Document) (moved_from : bytes -> bytes)
  (engine : bytes -> bytes -> Opt -> bool -> Prelude.op (World (Page Y)) ScriptResult) (default_options : Opt)
  (steady epoch : World (Page Y) -> N * World (Page Y)) (database : World (Page Y) -> bool * World (Page Y)).

(** The scripts of a page see the network of the origin as well. *)
Definition session_host : Host (World (Page Y)) := {|
  host_request origin u limit := as_caught (Session.request spider_config id react plugins (origin_send origin inner) read_time clock (engine_request u limit));
  host_load origin html u :=
    as_caught (load_html spider_config false id react plugins (origin_send origin inner) read_time clock parse moved_from (engine origin) default_options html u);
  host_navigate origin u :=
    as_caught (navigate spider_config false id react plugins (origin_send origin inner) read_time clock parse moved_from (engine origin) default_options u);
  host_click origin node :=
    as_caught (click_element spider_config false id react plugins (origin_send origin inner) read_time clock parse moved_from (engine origin) default_options (Some node));
  host_type origin node text :=
    as_caught (type_element spider_config false id react plugins (origin_send origin inner) read_time clock parse moved_from (engine origin) default_options (Some node) text);
  host_document := session_document;
  host_url := w_url;
  steady_now := steady;
  epoch_now := epoch;
  commits := database |}.
End SpiderSession.

(** ** What leaves the process *)

(** A request of the origin, within the bounds of time and size. *)
Definition of_origin (origin : bytes) (r : HttpRequest) : Prop :=
  (exists u p, canonical (request_url r) = Ret u /\ parse_url u = Ret p /\ Url.origin p = origin) /\
  (1 <= timeout_ms r <= 10000)%Z /\ max_response_bytes r <= max_page_bytes.

Definition only_origin (origin : bytes) (a b : list HttpRequest) : Prop := exists l, b = a ++ l /\ Forall (of_origin origin) l.

#[export] Instance only_origin_order origin : PreOrder (only_origin origin).
Proof.
  split; [intros a; exists []; split; [by rewrite app_nil_r|constructor]|]. intros a b c (l & -> & Hl) (m & -> & Hm). exists (l ++ m). split; [by rewrite app_assoc|by apply Forall_app].
Qed.

Definition outbound (origin : bytes) : Rule (list HttpRequest) := {| rule := only_origin origin; rule_preorder := only_origin_order origin |}.

Section Outbound.
Context {Opt : Type} (id : bytes).
Abbreviation world := (World (Page (list HttpRequest))).
Context (react : Event.Event -> Prelude.op world Event.Event) (answer : HttpRequest -> world -> result HttpResponse) (plugins : world -> list (@LoadedPlugin world))
  (read_time : bytes -> bytes -> option Z) (clock : world -> Z) (parse : bytes -> bytes -> bytes -> result Document) (moved_from : bytes -> bytes)
  (engine : bytes -> bytes -> Opt -> bool -> Prelude.op world ScriptResult) (default_options : Opt)
  (steady epoch : world -> N * world) (database : world -> bool * world).

Definition goes_out (r : HttpRequest) (p : Page (list HttpRequest)) : Page (list HttpRequest) :=
  {| p_host := p_host p; p_orphan := p_orphan p; p_installs := p_installs p; p_runtime := p_runtime p; p_depth := p_depth p;
     p_requests := p_requests p; p_texts := p_texts p; p_beyond := p_beyond p ++ [r] |}.

(** The network client below: it writes the request down and answers. *)
Definition outside_network (r : HttpRequest) : Prelude.op world HttpResponse :=
  fun w => (answer r w, on_page (goes_out r) w).

(** Handlers, plugins and scripts reach the network through the session only. *)
Record insiders (origin : bytes) : Prop := {
  inside_react : forall ev, lawful (outbound origin) (react ev);
  inside_before : forall w r, lawful (outbound origin) (dispatch_before_request (plugins w) r);
  inside_after : forall w r p, lawful (outbound origin) (dispatch_after_response (plugins w) r p);
  inside_document : forall w u t html text, lawful (outbound origin) (dispatch_document (plugins w) u t html text);
  inside_engine : forall script options module w, (0 < p_depth (page w))%nat -> is_Some (p_runtime (page w)) ->
    respects (outbound origin) w (engine origin script options module w).2 }.

Lemma origin_lawful origin r : lawful (outbound origin) (origin_send origin outside_network r).
Proof.
  intros w. destruct (origin_confined origin outside_network r w) as [[x ->]|(u & p & H1 & H2 & H3 & _ & -> & H4 & H5 & H6)]; [done|].
  unfold outside_network. cbn [snd]. split; try done. exists [bounded_request r]. split; [done|]. apply Forall_singleton.
  split; [|done]. rewrite H6. by exists u, p.
Qed.

Lemma insiders_surroundings origin : insiders origin ->
  surroundings react plugins (origin_send origin outside_network) (engine origin) (mret tt) (outbound origin).
Proof. intros [H1 H2 H3 H4 H5]. split; try done. apply origin_lawful. Qed.

Abbreviation the_host := (session_host id react outside_network plugins read_time clock parse moved_from engine default_options steady epoch database).

Lemma caught_state {W A} (m : Prelude.op W A) w : (as_caught m w).2 = (m w).2.
Proof. unfold as_caught. by destruct (m w) as [[a|e] w']. Qed.

(** C40: what the session of a crawler lets out of the process stays in its origin: whatever page is requested, loaded or
    navigated to, whatever node is clicked or typed into, and whatever its redirects, its scripts and the navigations they
    ask for are, every request that reaches the network client below is one of the origin, with at most ten seconds and two
    megabytes, when handlers, plugins and scripts reach the network through the session only ([insiders]). *)
Theorem session_confined origin u html limit node text (w : world) : insiders origin ->
  only_origin origin (p_beyond (page w)) (p_beyond (page (host_request (Host := the_host) origin u limit w).2)) /\
  only_origin origin (p_beyond (page w)) (p_beyond (page (host_load (Host := the_host) origin html u w).2)) /\
  only_origin origin (p_beyond (page w)) (p_beyond (page (host_navigate (Host := the_host) origin u w).2)) /\
  only_origin origin (p_beyond (page w)) (p_beyond (page (host_click (Host := the_host) origin node w).2)) /\
  only_origin origin (p_beyond (page w)) (p_beyond (page (host_type (Host := the_host) origin node text w).2)).
Proof.
  intros Hin. pose proof (insiders_surroundings origin Hin) as S. cbn [host_request host_load host_navigate host_click host_type session_host]. rewrite !caught_state.
  split_and!; apply (beyond_changes (outbound origin)).
  - exact (call_respects spider_config false id react plugins _ read_time clock parse moved_from (engine origin) default_options (mret tt) _ S (SendRequest (engine_request u limit)) w).
  - exact (call_respects spider_config false id react plugins _ read_time clock parse moved_from (engine origin) default_options (mret tt) _ S (LoadHtml html u) w).
  - exact (call_respects spider_config false id react plugins _ read_time clock parse moved_from (engine origin) default_options (mret tt) _ S (Navigate u) w).
  - exact (call_respects spider_config false id react plugins _ read_time clock parse moved_from (engine origin) default_options (mret tt) _ S (Click (Some node)) w).
  - exact (call_respects spider_config false id react plugins _ read_time clock parse moved_from (engine origin) default_options (mret tt) _ S (TypeText (Some node) text) w).
Qed.
End Outbound.

(** ** On concrete inputs: a page that looks for a way out *)

Abbreviation crawler_state := (World (Page (list HttpRequest))).
Definition quiet_events (ev : Event.Event) : Prelude.op crawler_state Event.Event := mret ev.
Definition bare_plugins (w : crawler_state) : list (@LoadedPlugin crawler_state) := [].

Definition found_page (text : bytes) : HttpResponse := {| Message.status := 200; headers := []; body := text; final_url := []; redirect_chain := [] |}.

Definition tempting_site (r : HttpRequest) (w : crawler_state) : result HttpResponse :=
  Ret (if request_url r =s lit "http://h/" then found_page (lit "<script src='/s.js'></script><script src='http://evil/x.js'></script><script>http://evil/y</script><script>http://h/z</script>")
       else if request_url r =s lit "http://h/away" then {| Message.status := 302; headers := [(lit "Location", lit "http://evil/")]; body := []; final_url := []; redirect_chain := [] |}
       else found_page []).

(** A script is the URL that it fetches. *)
Definition fetching_engine (origin script : bytes) (options : unit) (module : bool) : Prelude.op crawler_state ScriptResult :=
  _ ← page_request spider_config false (lit "s") quiet_events bare_plugins (origin_send origin (outside_network tempting_site)) no_dates (fun _ => 0%Z)
        {| hr_method := lit "GET"; hr_url := script; hr_headers := []; hr_body := [] |};
  mret done_script.

Definition calm_engine (origin script : bytes) (options : unit) (module : bool) : Prelude.op crawler_state ScriptResult := mret done_script.

Lemma calm_insiders origin : insiders quiet_events bare_plugins calm_engine origin.
Proof. by split. Qed.

Lemma fetching_insiders origin : insiders quiet_events bare_plugins fetching_engine origin.
Proof.
  split; try done. intros script options module w _ _. revert w. change (lawful (outbound origin) (fetching_engine origin script options module)). unfold fetching_engine.
  apply lawful_bind; [|done]. intros w.
  exact (call_respects spider_config false (lit "s") quiet_events bare_plugins _ no_dates (fun _ => 0%Z) parse_html (fun _ => []) (calm_engine origin) tt (mret tt) _
    (insiders_surroundings quiet_events tempting_site bare_plugins calm_engine origin (calm_insiders origin))
    (PageRequest {| hr_method := lit "GET"; hr_url := script; hr_headers := []; hr_body := [] |}) w).
Qed.

Definition crawler_session : crawler_state :=
  {| w_jar := []; w_headers := []; w_url := []; w_closed := false; w_detection := None; w_log := [];
     rest := {| p_host := new_host; p_orphan := None; p_installs := 0; p_runtime := Some (lit "demo"); p_depth := 0; p_requests := []; p_texts := []; p_beyond := [] |} |}.

Definition standing_clock (w : crawler_state) : N * crawler_state := (0, w).
Definition sound_database (w : crawler_state) : bool * crawler_state := (true, w).

Definition crawler_host : Host crawler_state :=
  session_host (lit "s") quiet_events (outside_network tempting_site) bare_plugins no_dates (fun _ => 0%Z) parse_html (fun _ => []) fetching_engine tt
    standing_clock standing_clock sound_database.

Example tempted : request_url <$> p_beyond (page (host_navigate (Host := crawler_host) (lit "http://h") (lit "http://h/") crawler_session).2) =
  [lit "http://h/"; lit "http://h/s.js"; lit "http://h/z"].
Proof. vm_compute. reflexivity. Qed.

Example sent_away : (host_navigate (Host := crawler_host) (lit "http://h") (lit "http://h/away") crawler_session).1 = Raised SecurityViolation.
Proof. vm_compute. reflexivity. Qed.

Lemma session_confined_witness :
  only_origin (lit "http://h") [] (p_beyond (page (host_navigate (Host := crawler_host) (lit "http://h") (lit "http://h/") crawler_session).2)).
Proof.
  destruct (session_confined (lit "s") quiet_events tempting_site bare_plugins no_dates (fun _ => 0%Z) parse_html (fun _ => []) fetching_engine tt
    standing_clock standing_clock sound_database (lit "http://h") (lit "http://h/") [] None 0 [] crawler_session (fetching_insiders (lit "http://h"))) as (_ & _ & H & _). exact H.
Defined.
